(* ===== verification/_CoqProject ===== *)
-Q . S2P
Prelude.v
Clock.v
SumTree.v
SumTreeFacts.v
Search.v
Cursor.v
CursorFacts.v
StepFacts.v
BackFacts.v
Iter.v
CursorApi.v
SliceHeight.v
KeyedTree.v
KeyedFacts.v
TreeMap.v
TreeMapFacts.v
TreeMapProps.v
Locator.v
Patch.v
PatchFacts.v
Subscription.v
VecMap.v
Utf8.v
Point.v
StreamingDiff.v
StreamingDiffFacts.v
Operation.v
UndoMap.v
UndoMapFacts.v
Bits.v
NthBit.v
TextSummary.v
Chunk.v
ChunkBits.v
ChunkSummary.v
ChunkFacts.v
ChunkClip.v
Rope.v
History.v
HistoryFacts.v
HistoryProps.v
RopeTree.v
RopePlace.v
RopeEdit.v
RopeCursor.v
RopeBounds.v
ChunkProps.v
RopeProps.v
RopeIter.v
RopeIterFacts.v
RopeLines.v
RopeIterProps.v
LineEnding.v
Fragment.v
Builder.v
Splice.v
Snapshot.v
Remote.v
OperationQueue.v
Buffer.v
Document.v
Pieces.v
BuilderFacts.v
SpliceOutput.v
SpliceWalk.v
SpliceDims.v
LocalEdit.v
SnapshotFacts.v
EditProps.v
RemoteEdit.v
Converge.v
UndoApply.v
Replicas.v
UndoRedo.v
QueueFacts.v
Delivery.v
Selection.v
Anchor.v
AnchorFacts.v
AnchorProps.v
