(* ===== verification/Prelude.v ===== *)
(** * Orion Studio: the text data stack

    Orion Studio is a code editor.  Everything it shows and edits rests on a
    stack of data structures in Rust, each a crate under [src/crates/]; this
    library models that stack and proves what each layer promises to the next.

    ** Parts, files and correspondence

    - [Prelude] (this file): Rust's panics as [option], three-way comparisons
      ([Ord], [OrdLaws]), fixed-width integers ([wrap], [in_width]), vectors.
    - [Clock] -- [clock/src/clock.rs]: replica ids, Lamport timestamps, version
      vectors ([Global]) with [observe], [join], [meet] and their comparisons.
    - [SumTree], [SumTreeFacts], [Search] -- [sum_tree/src/sum_tree.rs]: the
      B+ tree whose nodes cache the sum of the summaries of their items; its
      construction, concatenation ([append], with [push_tree_recursive],
      [append_large], [merge_into_right]) and the searches [find],
      [find_exact], [find_with_prev].  The traits [Item], [Summary],
      [Dimension], [SeekTarget] are type classes; [SummaryLaws] and
      [DimensionLaws] say what the code asks of their implementations, for the
      summaries an implementation produces ([summary_ok]).
    - [Cursor], [CursorFacts], [StepFacts], [BackFacts], [CursorApi] --
      [sum_tree/src/cursor.rs]: a [Cursor] is a record of the bounded stack of
      tree positions, the position in the dimension and the two flags of the
      code.  [CursorFacts] relates that state to a split of the sequence of the
      tree ([cursor_at]); the other files prove each operation against it.
    - [Iter] -- [Iter] of [cursor.rs]: the iterator without positions.
    - [KeyedTree], [KeyedFacts] -- [insert_or_replace], [remove], [edit], [get]
      of [sum_tree.rs]; [KeyedLaws] is the interface of a key.
    - [TreeMap], [TreeMapFacts], [TreeMapProps] -- [sum_tree/src/tree_map.rs]:
      the ordered map and set, a client of keyed trees and cursors.
    - [Locator] -- [text/src/locator.rs]: dense positions.
    - [Patch], [PatchFacts] -- [text/src/patch.rs]: the edits from one text to
      another and their composition.
    - [Subscription] -- [text/src/subscription.rs]: patches delivered to
      subscribers, as a transition system of a topic and its live patches.
    - [VecMap] -- [collections/src/vecmap.rs]: a small map over two vectors.
    - [SliceHeight]: a slice of a tree is at most one level higher than it.
    - [Utf8]: strings as the lists of their characters and of their bytes
      ([bytes_of]), with the methods of [str] the rope uses.
    - [Point] -- [rope/src/point.rs], [point_utf16.rs], [offset_utf16.rs].
    - [TextSummary] -- the summaries of texts, of [rope/src/rope.rs]:
      [from_str] reads a text character by character, and the sums are its
      homomorphism.
    - [Bits], [NthBit] -- 128-bit words, and the selection of
      the n-th set bit in parallel, of [rope/src/chunk.rs].
    - [Chunk] -- [rope/src/chunk.rs]: up to 128 bytes of text with a bitmap
      each of characters, UTF-16 units, newlines and tabs.  [ChunkBits] relates
      a chunk to its text ([chunk_of]), [ChunkSummary], [ChunkFacts] and
      [ChunkClip] read the operations off the marked bits, [ChunkProps] has the
      theorems.
    - [Rope] -- [rope/src/rope.rs]: the tree of chunks, its edits, its cursor,
      conversions and clipping.  [RopeTree] relates a rope to its text
      ([rope_text]) and to searches in it, [RopePlace], [RopeEdit],
      [RopeCursor] and [RopeBounds] prove the operations, [RopeProps] has the
      theorems.  [TextDimension] is the interface of what a cursor measures.
    - [RopeIter] -- [rope/src/rope.rs]: the iterators over chunks, bytes and
      lines, and the comparisons with strings.  [RopeIterFacts] gives an
      iterator the texts before, behind and ahead of it ([iterates]),
      [RopeLines] follows the loops of its clients; [RopeIterProps] has the
      theorems.
    - [StreamingDiff], [StreamingDiffFacts] --
      [streaming_diff/src/streaming_diff.rs]: the diff that follows a text
      while it is generated.

    - [Operation], [UndoMap], [UndoMapFacts] -- [text/src/text.rs],
      [text/src/undo_map.rs]: the operations replicas exchange, and the map of
      undo counts, a client of keyed trees and cursors.
    - [History], [HistoryFacts], [HistoryProps] -- [History] of
      [text/src/text.rs]: transactions and the undo and redo stacks, as a
      transition system of the calls a buffer makes ([Call], [step]).
    - [LineEnding] -- [LineEnding] of [text/src/text.rs]: detection,
      normalization and writing of line endings.

    The buffer, all of [text/src/text.rs] but for [OperationQueue]:

    - [Fragment] -- [Fragment], [InsertionFragment] and [InsertionSlice] with
      their summaries and dimensions.
    - [Builder], [BuilderFacts] -- [FragmentBuilder] and [RopeBuilder].
    - [Splice] -- the loop over fragments that local and remote edits share;
      [Snapshot] -- [BufferSnapshot] and [apply_edit_internal];
      [Remote] -- [apply_remote_edit], [fragment_ids_for_edits], [apply_undo].
    - [OperationQueue], [QueueFacts] -- [text/src/operation_queue.rs].
    - [Buffer] -- [Buffer]: construction, [edit], [apply_ops] with deferred
      operations, transactions, undo and redo, snapshots with edits.

    Its specification and proofs:

    - [Document]: the characters ever inserted, with their insertions and
      deletions, and what an edit made in some version does to them
      ([apply_edits]); nothing here knows of fragments.
    - [Pieces]: fragments with their texts; [flatten] is their document.
    - [SpliceOutput], [SpliceWalk], [SpliceDims]: the loop, related to the
      document; [walks] is the interface of the dimension it walks by.
    - [LocalEdit], [SnapshotFacts], [EditProps]: local edits and new buffers.
      [snapshot_ok] is the invariant: trees, ropes, index of insertions and
      slices say the same about one document.
    - [RemoteEdit], [UndoApply]: remote edits and undos.
    - [Converge]: operations on documents commute when neither has seen the
      other, up to an equivalence of documents, so their order does not matter.
    - [Replicas], [Delivery]: buffers as replicas of a document, and what they
      do with the operations of a history that arrive in any order.
    - [UndoRedo]: [undo] and [redo] of the whole buffer, through the entries its
      history has recorded.

    Positions in a buffer:

    - [Selection] -- [text/src/selection.rs]: ranges with a direction.
    - [Anchor] -- [text/src/anchor.rs], and [anchor_at], [offset_for_anchor],
      [summary_for_anchor] and the searches under them of [text/src/text.rs].
      [AnchorFacts] says where an anchor is in a document ([anchor_place]) and
      where an edit moves it ([track]); [AnchorProps] has the theorems.

    A Rust operation that can panic returns an [option]; a [&mut self] becomes
    an argument and a result; a context is passed as in the code.  Names are
    the source's, with the type in front where two types share a method.

    ** What the theorems show

    - Refinement to sequences: a well-formed tree ([wf]: heights, fill factors
      and cached summaries) has a sequence of items; every construction and
      concatenation keeps the invariant and has the sequence one expects, and
      never panics (so no [ArrayVec] overflows).  Searches and cursors, which
      skip whole subtrees by their summaries, return what a scan of the items
      returns; filters only need to be sound for summaries.
    - Refinement to finite maps: keyed trees and [TreeMap] are maps from keys,
      sorted; each operation changes what it should and nothing else.
    - Patches: a patch is given meaning by the two texts it relates; composing
      patches composes that meaning, subscribers never miss an edit.
    - Clocks and locators: the lattice of versions, total orders that fit in
      machine words, causality of ticks, density of locators.
    - Undo: the undo map answers with the greatest counts whatever the order of
      arrival, so replicas converge; no call on a history panics but by its
      assertion on the depth; transactions collect the edits between their
      brackets.  On the whole buffer, fragments and ropes included, [undo] and
      [redo] of any transactions succeed and take each other back.
    - Ropes: a rope is its text.  Chunks are canonical (bit for bit what [new]
      computes); their summaries and conversions are those of the text; edits,
      cuts and measures of a rope are those of the list of characters; the
      conversions between the four coordinates are inverse at every place.
      Its iterators yield the text of their range in both directions, its lines
      and comparisons are those of strings.
    - The buffer: local edits, remote edits and undos never panic, keep the
      invariant of the snapshot, publish the patch between the texts, and do to
      the document what the reference says; an edit's operation does at other
      replicas what the edit did at its own; undoing the entry the history has
      recorded of an edit shows the old text and keeps every character.
    - Replicas: operations that arrive before those they depend on are deferred
      and applied later, so a replica that has received the operations of a
      history has applied them all and shows the text of the history, whatever
      the order, the repetitions and the batches in which they came.
    - Anchors: an anchor names the place it was made at, follows its text
      through edits, is at the same place for all replicas that have received
      the same operations, and comparing anchors agrees with their places.
      Selections: moving an end moves that end and keeps the range in order.
    - Streaming diff: the emitted operations rebuild the new text, whatever the
      scores are.

    ** Bounds and fuel

    A cursor's stack holds 16 entries; the theorems about cursors ask for trees
    lower than that (a higher one has at least 6^15 items).  The loops that are
    not structural take fuel computed from their input: the weight of the
    tree ahead of the cursor, the number of edits (a [compose] step consumes
    one or shortens one), the digits of a locator, the cells of a walk through
    the scores, the bytes of a text.  Each has a theorem that this fuel is enough, as part of the
    theorem that the operation returns.  Integers have the width of the code
    where the code depends on it; [usize] offsets and lengths are natural
    numbers whose subtraction panics below zero.  Shifts by the whole width
    panic, as with overflow checks.  The summaries of texts that the tree caches
    are sums without wrap-around; [from_str32] and [TextSummary_add32] are the
    functions of the code on [u32]s, and both agree on texts shorter than 4 GiB
    ([small]).  Slices
    and replacements are proved for ropes of height at most 11, so that the
    pieces they join still fit the cursor's stack.  The theorems about buffers
    ask the same of every tree they meet ([snapshot_room], [op_room], and
    [receive_room] for a whole run, which a witness computes).

    ** Parameters

    [sort_unstable_by_key] ([Sort]; any function that sorts, [SortOk]),
    [MAX_INSERTION_LEN], which depends on the build ([Build]), the checks of
    debug builds of anchors ([DebugAssertions], either value), the default line
    ending of the platform ([Platform]), [f64::powi] and the order of
    [ordered_float] (no assumption), the grapheme boundaries of
    [unicode-segmentation] (no assumption), and the closures the code receives.

    ** Not modelled

    Debug formatting, serialization and test code; reference counting (a shared
    node is its value); the parallel iterators of [from_par_iter] beyond the
    order of their results; the flattened iterators over characters of a rope,
    [DimensionPair] (a pair of dimensions); the line diff of
    [streaming_diff].  Of the text buffer: the channels of callers that wait
    for an edit or a version (nothing is read back from them), the iterators that
    resolve many anchors with shared cursors, [edits_since] and the
    reconstruction of old versions, and the serialization of operations.  Of the editor, everything above this stack:
    multi buffers, display maps, language servers, the agent and the user
    interface. *)

From stdpp Require Import base numbers option list.

(** ** Panics

    A Rust operation that can panic (an [unwrap] of [None], an index out of
    range, a push over an [ArrayVec]'s capacity, an [unreachable!]) is a
    function into [option]: [None] is the panic.  stdpp's [x ← e; k] is the
    sequencing. *)


(** [assert!] and the capacity checks: go on when [b] holds, panic otherwise. *)
Definition assert_ (b : bool) : option unit :=
  if b then Some tt else None.

(** [a - b] on [usize]: the underflow panics in a build with overflow checks,
    and the theorems show that it does not happen. *)
Definition usub (a b : nat) : option nat := if bool_decide (b ≤ a) then Some (a - b) else None.

(** A [for] loop that may panic, over the elements in order. *)
Fixpoint foldlM {A B} (f : B → A → option B) (b : B) (l : list A) : option B :=
  match l with
  | [] => Some b
  | a :: l => b' ← f b a; foldlM f b' l
  end.

(** Mutating the first or last element of a list through a function that
    panics or returns a result; [None] also when there is no element. *)
Definition modify_first {A B} (f : A → option (A * B)) (l : list A) : option (list A * B) :=
  match l with
  | [] => None
  | a :: l => '(a, b) ← f a; Some (a :: l, b)
  end.

Definition modify_last {A B} (f : A → option (A * B)) : list A → option (list A * B) :=
  fix go l :=
    match l with
    | [] => None
    | a :: l' =>
        match l' with
        | [] => '(a, b) ← f a; Some ([a], b)
        | _ => '(l', b) ← go l'; Some (a :: l', b)
        end
    end.

(** Assigning the first or last element, [*l.last_mut().unwrap() = a]. *)
Definition set_first {A} (a : A) (l : list A) : option (list A) :=
  fst <$> modify_first (λ _, Some (a, ())) l.
Definition set_last {A} (a : A) (l : list A) : option (list A) :=
  fst <$> modify_last (λ _, Some (a, ())) l.

(** ** Rust's [Ord]: a total order as a three-way comparison *)

Class Ord (A : Type) := cmp : A → A → comparison.
#[export] Hint Mode Ord ! : typeclass_instances.

Class OrdLaws (A : Type) `{Ord A} : Prop := {
  cmp_eq_iff : ∀ a b : A, cmp a b = Eq ↔ a = b;
  cmp_antisym : ∀ a b : A, cmp b a = CompOpp (cmp a b);
  cmp_lt_trans : ∀ a b c : A, cmp a b = Lt → cmp b c = Lt → cmp a c = Lt
}.

Declare Scope rust_scope.
Delimit Scope rust_scope with rust.
Notation "a <? b" := (bool_decide (cmp a b = Lt)) : rust_scope.
Notation "a =? b" := (bool_decide (cmp a b = Eq)) : rust_scope.
Notation "a >? b" := (bool_decide (cmp a b = Gt)) : rust_scope.

(** Rust's [Ordering::then_with]. *)
Definition then_with (c d : comparison) : comparison :=
  match c with Eq => d | _ => c end.

(** Rust's [cmp::max]: the second argument when they are equal. *)
Definition ord_max {A} `{Ord A} (a b : A) : A :=
  match cmp a b with Gt => a | _ => b end.

#[export] Instance Z_Ord : Ord Z := Z.compare.
#[export] Instance N_Ord : Ord N := N.compare.
#[export] Instance nat_Ord : Ord nat := Nat.compare.

#[export] Instance Z_OrdLaws : OrdLaws Z.
Proof.
  split; unfold cmp, Z_Ord; intros *.
  - apply Z.compare_eq_iff.
  - apply Z.compare_antisym.
  - rewrite !Z.compare_lt_iff. lia.
Qed.

#[export] Instance N_OrdLaws : OrdLaws N.
Proof.
  split; unfold cmp, N_Ord; intros *.
  - apply N.compare_eq_iff.
  - apply N.compare_antisym.
  - rewrite !N.compare_lt_iff. lia.
Qed.

#[export] Instance nat_OrdLaws : OrdLaws nat.
Proof.
  split; unfold cmp, nat_Ord; intros *.
  - apply Nat.compare_eq_iff.
  - apply Nat.compare_antisym.
  - rewrite !Nat.compare_lt_iff. lia.
Qed.

(** The derived [Ord] of an [Option]: [None] is least. *)
#[export] Instance option_Ord {A} `{Ord A} : Ord (option A) := λ a b,
  match a, b with
  | None, None => Eq
  | None, Some _ => Lt
  | Some _, None => Gt
  | Some a, Some b => cmp a b
  end.

Section ord_facts.
Context {A : Type} `{OrdLaws A}.
Implicit Types a b c : A.

Lemma cmp_refl a : cmp a a = Eq.
Proof. by apply cmp_eq_iff. Qed.

Lemma cmp_gt_lt a b : cmp a b = Gt ↔ cmp b a = Lt.
Proof. rewrite (cmp_antisym a b). by destruct (cmp a b). Qed.

Lemma cmp_gt_trans a b c : cmp a b = Gt → cmp b c = Gt → cmp a c = Gt.
Proof. rewrite !cmp_gt_lt. eauto using cmp_lt_trans. Qed.

(** [a ≤ b] as the code tests it: not [Gt]. *)
Lemma cmp_le_trans a b c : cmp a b ≠ Gt → cmp b c ≠ Gt → cmp a c ≠ Gt.
Proof.
  intros Hab Hbc Hac.
  destruct (cmp a b) eqn:E1; [|destruct (cmp b c) eqn:E2|done]; try done.
  - apply cmp_eq_iff in E1. by subst.
  - apply cmp_eq_iff in E2. subst. congruence.
  - pose proof (cmp_lt_trans _ _ _ E1 E2). congruence.
Qed.

Lemma cmp_lt_le_trans a b c : cmp a b = Lt → cmp b c ≠ Gt → cmp a c = Lt.
Proof.
  intros Hab Hbc. destruct (cmp b c) eqn:E; [|by eapply cmp_lt_trans|done].
  apply cmp_eq_iff in E. by subst.
Qed.

Lemma cmp_le_lt_trans a b c : cmp a b ≠ Gt → cmp b c = Lt → cmp a c = Lt.
Proof.
  intros Hab Hbc. destruct (cmp a b) eqn:E; [|by eapply cmp_lt_trans|done].
  apply cmp_eq_iff in E. by subst.
Qed.

Lemma cmp_le_refl a : cmp a a ≠ Gt.
Proof. by rewrite cmp_refl. Qed.

Lemma cmp_lt_le a b : cmp a b = Lt → cmp a b ≠ Gt.
Proof. congruence. Qed.

#[export] Instance option_OrdLaws : OrdLaws (option A).
Proof.
  split; unfold cmp, option_Ord.
  - intros [a|] [b|]; try done. rewrite cmp_eq_iff. naive_solver.
  - intros [a|] [b|]; try done. apply cmp_antisym.
  - intros [a|] [b|] [c|]; try done. apply cmp_lt_trans.
Qed.

Lemma ord_eq_dec : EqDecision A.
Proof.
  intros a b. destruct (decide (cmp a b = Eq)) as [E|E];
    [left; by apply cmp_eq_iff|right; intros ->; by rewrite cmp_refl in E].
Defined.

Lemma ord_max_assoc a b c : ord_max a (ord_max b c) = ord_max (ord_max a b) c.
Proof.
  unfold ord_max. destruct (cmp b c) eqn:Ebc.
  - apply cmp_eq_iff in Ebc as ->. destruct (cmp a c) eqn:E; by rewrite ?E, ?cmp_refl.
  - destruct (cmp a b) eqn:Eab; rewrite ?Ebc; [| |done];
      by rewrite (cmp_le_lt_trans a b c) by (done || congruence).
  - destruct (cmp a b) eqn:Eab; rewrite ?Ebc; try done.
    by rewrite (cmp_gt_trans _ _ _ Eab Ebc).
Qed.
End ord_facts.

(** A derived [Ord] of two fields, in order: the fields determine the value. *)
Lemma lexicographic_OrdLaws {A B C} `{OrdLaws A, OrdLaws B} (f : C → A) (g : C → B) :
  (∀ c d, f c = f d → g c = g d → c = d) →
  OrdLaws C (H:=λ c d, then_with (cmp (f c) (f d)) (cmp (g c) (g d))).
Proof.
  intros Hinj. set (L := λ c d, then_with (cmp (f c) (f d)) (cmp (g c) (g d))).
  assert (Hlt : ∀ c d, L c d = Lt ↔ cmp (f c) (f d) = Lt ∨ f c = f d ∧ cmp (g c) (g d) = Lt).
  { intros c d. unfold L. rewrite <- (cmp_eq_iff (f c)). destruct (cmp (f c) (f d)); simpl; naive_solver. }
  split.
  - intros c d. change (L c d = Eq ↔ c = d). unfold L. split; [|intros ->; by rewrite !cmp_refl].
    destruct (cmp (f c) (f d)) eqn:E; simpl; try done. intros Eg. by apply Hinj; apply cmp_eq_iff.
  - intros c d. change (L d c = CompOpp (L c d)). unfold L.
    rewrite (cmp_antisym (f c)), (cmp_antisym (g c)). by destruct (cmp (f c) (f d)).
  - intros a b c. change (L a b = Lt → L b c = Lt → L a c = Lt). rewrite !Hlt.
    intros [?|[E ?]] [?|[E' ?]]; rewrite ?E, ?E' in *; eauto using cmp_lt_trans.
Qed.

(** The order of pairs. *)
#[export] Instance prod_Ord {A B} `{Ord A, Ord B} : Ord (A * B) := λ a b,
  then_with (cmp a.1 b.1) (cmp a.2 b.2).
#[export] Instance prod_OrdLaws {A B} `{OrdLaws A, OrdLaws B} : OrdLaws (A * B).
Proof. apply (lexicographic_OrdLaws fst snd). intros [??] [??]; simpl. congruence. Qed.

(** The chains of comparisons that the ordered components close with
    [eauto with order]. *)
Create HintDb order.
#[export] Hint Resolve cmp_refl cmp_le_refl cmp_lt_le : order.
#[export] Hint Resolve cmp_lt_trans cmp_le_trans cmp_lt_le_trans cmp_le_lt_trans : order.
#[export] Hint Extern 0 (OrdLaws _) => apply _ : order.

(** The order of slices and vectors: lexicographic, a prefix is smaller. *)
Fixpoint list_cmp {A} `{Ord A} (a b : list A) : comparison :=
  match a, b with
  | [], [] => Eq
  | [], _ :: _ => Lt
  | _ :: _, [] => Gt
  | x :: a, y :: b => then_with (cmp x y) (list_cmp a b)
  end.
#[export] Instance list_Ord {A} `{Ord A} : Ord (list A) := list_cmp.

#[export] Instance list_OrdLaws {A} `{OrdLaws A} : OrdLaws (list A).
Proof.
  split; unfold cmp, list_Ord.
  - intros a. induction a as [|x a IH]; intros [|y b]; simpl; try done.
    destruct (cmp x y) eqn:E; simpl.
    + apply cmp_eq_iff in E as ->. rewrite IH. naive_solver.
    + split; [done|]. intros [= -> ->]. by rewrite cmp_refl in E.
    + split; [done|]. intros [= -> ->]. by rewrite cmp_refl in E.
  - intros a. induction a as [|x a IH]; intros [|y b]; simpl; try done.
    rewrite (cmp_antisym x y), IH. by destruct (cmp x y).
  - intros a. induction a as [|x a IH]; intros [|y b] [|z c]; simpl; try done.
    destruct (cmp x y) eqn:E1; simpl; [| |done].
    + apply cmp_eq_iff in E1 as ->. destruct (cmp y z); simpl; [apply IH|done|done].
    + intros _. destruct (cmp y z) eqn:E2; simpl; [|intros _|done].
      * apply cmp_eq_iff in E2 as ->. by rewrite E1.
      * by rewrite (cmp_lt_trans _ _ _ E1 E2).
Qed.

(** ** Fixed-width unsigned integers

    A [u16], [u32] or [u64] is a [Z] in [0, 2^w); [wrap w] is the reduction
    that release builds apply to an arithmetic result. *)

Definition in_width (w n : Z) : Prop := (0 ≤ n < 2 ^ w)%Z.
Definition wrap (w n : Z) : Z := (n `mod` 2 ^ w)%Z.

#[export] Instance in_width_dec w n : Decision (in_width w n).
Proof. unfold in_width. apply _. Defined.

Lemma wrap_id w n : in_width w n → wrap w n = n.
Proof. intros [??]. unfold wrap. by apply Z.mod_small. Qed.

Lemma wrap_in_width w n : (0 ≤ w)%Z → in_width w (wrap w n).
Proof. intros. unfold in_width, wrap. apply Z.mod_pos_bound. lia. Qed.

Lemma in_width_0 w : (0 ≤ w)%Z → in_width w 0.
Proof. intros. unfold in_width. lia. Qed.

(** The same for an [N], which has no value below zero: the choice where the
    code only counts up and relies on zero being least. *)
Definition fits (w n : N) : Prop := (n < 2 ^ w)%N.
Definition wrap_N (w n : N) : N := (n `mod` 2 ^ w)%N.

#[export] Instance fits_dec w n : Decision (fits w n).
Proof. unfold fits. apply _. Defined.

Lemma wrap_N_id w n : fits w n → wrap_N w n = n.
Proof. intros. by apply N.mod_small. Qed.

(** Packing: [(a << w) | r] for an [r] that fits in [w] bits is a sum. *)
Lemma lor_pack w a r :
  (0 ≤ w)%Z → in_width w r → Z.lor (a * 2 ^ w) r = (a * 2 ^ w + r)%Z.
Proof.
  intros Hw [Hr0 Hr]. assert (Hl : Z.land (a * 2 ^ w) r = 0%Z).
  { apply Z.bits_inj'. intros n Hn. rewrite Z.land_spec, Z.bits_0.
    destruct (decide (n < w)%Z).
    - rewrite Z.mul_pow2_bits_low by done. done.
    - rewrite <- (Z.mod_small r (2 ^ w)) by lia.
      rewrite Z.mod_pow2_bits_high by lia. by rewrite andb_false_r. }
  by rewrite <- Z.lxor_lor, <- Z.add_nocarry_lxor by done.
Qed.

Lemma lor_pack_N w a r : fits w r → N.lor (a * 2 ^ w) r = (a * 2 ^ w + r)%N.
Proof.
  intros Hr. assert (Hl : N.land (a * 2 ^ w) r = 0%N).
  { apply N.bits_inj. intros n. rewrite N.land_spec, N.bits_0. destruct (decide (n < w)%N).
    - by rewrite N.mul_pow2_bits_low.
    - rewrite <- (N.mod_small r (2 ^ w)) by done.
      rewrite N.mod_pow2_bits_high by lia. by rewrite andb_false_r. }
  by rewrite <- N.lxor_lor, <- N.add_nocarry_lxor by done.
Qed.

(** ** Tactics *)

(** Solve a chain of [option] binds by cases on what each step returned. *)
Ltac bind_inv :=
  repeat match goal with
  | H : (_ ≫= _) = Some _ |- _ =>
      let x := fresh "x" in
      apply bind_Some in H as [x [? H]]
  | H : assert_ _ = Some _ |- _ => unfold assert_ in H; case_match; simplify_eq
  | H : Some _ = Some _ |- _ => injection H as H
  end; simplify_eq/=.

(** ** Lists *)

Lemma usub_le a b : b ≤ a → usub a b = Some (a - b).
Proof. intros. unfold usub. by rewrite bool_decide_true. Qed.

Lemma modify_last_snoc {A B} (f : A → option (A * B)) l a :
  modify_last f (l ++ [a]) = '(a, b) ← f a; Some (l ++ [a], b).
Proof.
  induction l as [|x l IH]; [done|]. simpl app. simpl modify_last.
  destruct (l ++ [a]) eqn:E; [by destruct l|]. rewrite IH. by destruct (f a) as [[]|].
Qed.

Lemma set_last_snoc {A} (l : list A) a b : set_last b (l ++ [a]) = Some (l ++ [b]).
Proof. unfold set_last. by rewrite modify_last_snoc. Qed.

(** [chunks n l]: consecutive runs of [n] elements, the last one shorter when
    the length is not a multiple of [n] (for [0 < n]). *)
Fixpoint chunks_aux {A} (fuel n : nat) (l : list A) : list (list A) :=
  match fuel, l with
  | S fuel, _ :: _ => take n l :: chunks_aux fuel n (drop n l)
  | _, _ => []
  end.
Definition chunks {A} (n : nat) (l : list A) : list (list A) := chunks_aux (length l) n l.

(** The longest prefix that satisfies a test, and the rest. *)
Fixpoint span {A} (f : A → bool) (l : list A) : list A * list A :=
  match l with
  | [] => ([], [])
  | a :: l' => if f a then let '(x, y) := span f l' in (a :: x, y) else ([], l)
  end.

Section list_facts.
Context {A : Type}.
Implicit Types l k : list A.

Lemma foldlM_app {B} (f : B → A → option B) b l k :
  foldlM f b (l ++ k) = b' ← foldlM f b l; foldlM f b' k.
Proof. revert b. induction l as [|a l IH]; intros b; simpl; [done|].
  destruct (f b a); simpl; auto. Qed.

(** A loop whose steps do not panic and keep an invariant. *)
Lemma foldlM_inv {B} (P : B → Prop) (f : B → A → option B) b l :
  P b → (∀ b a, a ∈ l → P b → ∃ b', f b a = Some b' ∧ P b') →
  ∃ b', foldlM f b l = Some b' ∧ P b'.
Proof.
  revert b. induction l as [|a l IH]; intros b Hb Hstep; simpl; [by eexists|].
  destruct (Hstep b a) as (b'&->&Hb'); [by left|done|]. simpl. apply IH; [done|].
  intros b2 a2 Ha2. apply Hstep. by right.
Qed.

Lemma last_snoc_inv l a : last l = Some a → ∃ k, l = k ++ [a].
Proof.
  destruct l as [|x k] using rev_ind; [done|].
  rewrite last_snoc. intros [= ->]. eauto.
Qed.

Lemma chunks_aux_spec fuel n l :
  (0 < n)%nat → (length l ≤ fuel)%nat →
  concat (chunks_aux fuel n l) = l ∧
  Forall (λ c, c ≠ [] ∧ length c ≤ n)%nat (chunks_aux fuel n l).
Proof.
  intros Hn. revert l. induction fuel as [|fuel IH]; intros [|a l] Hl; simpl in *; try lia;
    try by (split; [|constructor]).
  destruct (IH (drop n (a :: l))) as [IH1 IH2]; [rewrite length_drop; simpl; lia|].
  rewrite IH1, take_drop. split; [done|]. constructor; [|done]. split.
  - by destruct n; [lia|].
  - rewrite length_take. lia.
Qed.

Lemma concat_chunks n l : (0 < n)%nat → concat (chunks n l) = l.
Proof. intros. by apply chunks_aux_spec. Qed.

Lemma Forall_chunks n l :
  (0 < n)%nat → Forall (λ c, c ≠ [] ∧ length c ≤ n)%nat (chunks n l).
Proof. intros. by apply chunks_aux_spec. Qed.

Lemma length_chunks_aux fuel n l :
  (0 < n)%nat → (length (chunks_aux fuel n l) ≤ length l)%nat.
Proof.
  intros Hn. revert l. induction fuel as [|fuel IH]; intros [|a l]; simpl; try lia.
  specialize (IH (drop n (a :: l))). rewrite length_drop in IH. simpl in IH. lia.
Qed.

Lemma length_chunks n l :
  (1 < n)%nat → (1 < length l)%nat → (length (chunks n l) < length l)%nat.
Proof.
  intros Hn Hl. unfold chunks. destruct l as [|a l]; simpl in *; [lia|].
  pose proof (length_chunks_aux (length l) n (drop n (a :: l))) as H.
  rewrite length_drop in H. simpl in H. lia.
Qed.

Lemma span_app (f : A → bool) l : (span f l).1 ++ (span f l).2 = l.
Proof.
  induction l as [|a l IH]; simpl; [done|]. destruct (f a); [|done].
  destruct (span f l). simpl in *. congruence.
Qed.

Lemma span_spec (f : A → bool) l a b :
  span f l = (a, b) →
  l = a ++ b ∧ Forall (λ x, f x = true) a ∧ match b with x :: _ => f x = false | [] => True end.
Proof.
  revert a b. induction l as [|x l IH]; intros a b Hs; simpl in Hs; [by simplify_eq|].
  destruct (f x) eqn:E; simplify_eq; [|done].
  destruct (span f l) as [a' b'] eqn:E'. simplify_eq.
  destruct (IH a' b) as (->&?&?); [done|]. split_and!; [done| |done]. by constructor.
Qed.

(** Full runs followed by a shorter one are the chunks of their
    concatenation. *)
Lemma chunks_concat n (closed : list (list A)) (open : list A) :
  (0 < n)%nat → Forall (λ c, length c = n) closed → (length open < n)%nat →
  chunks n (concat closed ++ open) =
  closed ++ match open with [] => [] | _ => [open] end.
Proof.
  intros Hn Hc Ho. unfold chunks.
  assert (Hgen : ∀ fuel, (length (concat closed ++ open) ≤ fuel)%nat →
    chunks_aux fuel n (concat closed ++ open) =
    closed ++ match open with [] => [] | _ => [open] end); [|by apply Hgen].
  induction Hc as [|c closed Hlen Hc IH]; intros fuel Hf; simpl in *.
  - destruct open as [|a o]; [by destruct fuel|]. destruct fuel as [|fuel]; [simpl in *; lia|].
    cbn [chunks_aux]. rewrite take_ge, drop_ge by lia. by destruct fuel.
  - destruct c as [|a c]; [simpl in *; lia|].
    destruct fuel as [|fuel]; [simpl in *; lia|]. cbn [chunks_aux app].
    rewrite <- app_assoc. change (a :: c ++ concat closed ++ open)
      with ((a :: c) ++ concat closed ++ open).
    rewrite take_app_length', drop_app_length' by done.
    f_equal. apply IH. simpl in Hf. rewrite <- app_assoc in Hf.
    rewrite length_app in Hf. simpl in *. lia.
Qed.

Lemma Forall_last (P : A → Prop) l a : Forall P l → last l = Some a → P a.
Proof. intros HP [k ->]%last_snoc_inv. rewrite Forall_app, Forall_singleton in HP. tauto. Qed.
End list_facts.
