(* ===== verification/Clock.v ===== *)
(** Logical clocks: [crates/clock/src/clock.rs].

    [Lamport] timestamps with their total order and packing into a [u64], and
    the version vectors [Global] with [observe], [join], [meet] and the
    comparisons the editor makes between versions.  A [Global] is the vector
    of the code, one [u32] per replica id; [get] is its reading as a total
    function from replica ids, and [canonical] (no trailing zero) is the
    invariant under which the vector comparisons agree with that reading.
    The sums of [u32]s wrap around, as in a release build. *)

From stdpp Require Import base numbers option list.
From S2P Require Import Prelude.

Local Open Scope N_scope.

(** ** Replica ids *)

Abbreviation ReplicaId := N (only parsing).

Definition LOCAL : ReplicaId := 0.
Definition REMOTE_SERVER : ReplicaId := 1.
Definition AGENT : ReplicaId := 2.
Definition LOCAL_BRANCH : ReplicaId := 3.
Definition FIRST_COLLAB_ID : ReplicaId := 8.

Definition is_remote (self : ReplicaId) : bool :=
  bool_decide (self = REMOTE_SERVER) || bool_decide (FIRST_COLLAB_ID ≤ self).

(** ** Lamport timestamps *)

Record Lamport := mkLamport { value : N; replica_id : ReplicaId }.

Definition Lamport_wf (t : Lamport) : Prop :=
  fits 32 (value t) ∧ fits 16 (replica_id t).

#[export] Instance Lamport_eq_dec : EqDecision Lamport.
Proof. solve_decision. Defined.

Definition Lamport_MIN : Lamport := mkLamport 0 0.
Definition Lamport_MAX : Lamport := mkLamport (2 ^ 32 - 1) (2 ^ 16 - 1).

Definition Lamport_new (replica_id : ReplicaId) : Lamport := mkLamport 1 replica_id.

#[export] Instance Lamport_Ord : Ord Lamport := λ self other,
  then_with (cmp (value self) (value other)) (cmp (replica_id self) (replica_id other)).

Definition as_u64 (self : Lamport) : N :=
  N.lor (wrap_N 64 (N.shiftl (value self) 32)) (replica_id self).

(** [tick] returns the timestamp and the advanced clock. *)
Definition tick (self : Lamport) : Lamport * Lamport :=
  (self, mkLamport (wrap_N 32 (value self + 1)) (replica_id self)).

Definition Lamport_observe (self timestamp : Lamport) : Lamport :=
  mkLamport (wrap_N 32 (N.max (value self) (value timestamp) + 1)) (replica_id self).

(** ** Version vectors *)

Record Global := mkGlobal { values : list N }.

#[export] Instance Global_eq_dec : EqDecision Global.
Proof. solve_decision. Defined.

Definition Global_new : Global := mkGlobal [].

Definition get (self : Global) (replica_id : ReplicaId) : N :=
  default 0 (values self !! N.to_nat replica_id).

(** [if new_len > values.len() { values.resize(new_len, 0) }]. *)
Definition grow (vs : list N) (new_len : nat) : list N :=
  if bool_decide (length vs < new_len)%nat then resize new_len 0 vs else vs.

(** The index is in range once the vector has been grown. *)
Definition Global_observe (self : Global) (timestamp : Lamport) : Global :=
  if bool_decide (0 < value timestamp) then
    let ix := N.to_nat (replica_id timestamp) in
    let vs := grow (values self) (ix + 1) in
    mkGlobal (alter (λ entry, N.max entry (value timestamp)) ix vs)
  else self.

(** A [for] loop over [left.iter_mut().zip(right)] that assigns to [left]. *)
Fixpoint zip_assign (f : N → N → N) (ls rs : list N) : list N :=
  match ls, rs with
  | l :: ls, r :: rs => f l r :: zip_assign f ls rs
  | _, _ => ls
  end.

Definition join (self other : Global) : Global :=
  let vs := grow (values self) (length (values other)) in
  mkGlobal (zip_assign N.max vs (values other)).

Definition meet_entry (l r : N) : N :=
  if bool_decide (l = 0) then r
  else if bool_decide (r = 0) then l
  else N.min l r.

(** The loop of [meet]: the assigned vector and the final [new_len], starting
    at index [ix] with [new_len]. *)
Fixpoint meet_loop (ix new_len : nat) (ls rs : list N) : list N * nat :=
  match ls, rs with
  | l :: ls, r :: rs =>
      let l' := meet_entry l r in
      let new_len := if bool_decide (l' = 0) then new_len else (ix + 1)%nat in
      let '(ls, new_len) := meet_loop (ix + 1) new_len ls rs in
      (l' :: ls, new_len)
  | _, _ => (ls, new_len)
  end.

Definition meet (self other : Global) : Global :=
  let vs := grow (values self) (length (values other)) in
  let '(vs, new_len) := meet_loop 0 0 vs (values other) in
  mkGlobal (if bool_decide (length (values other) = length vs) then take new_len vs else vs).

Definition observed (self : Global) (timestamp : Lamport) : bool :=
  bool_decide (value timestamp ≤ get self (replica_id timestamp)).

(** The iterator over the replicas, as the list of what it yields. *)
Definition iter (self : Global) : list Lamport :=
  imap (λ i seq, mkLamport seq (wrap_N 16 (N.of_nat i))) (values self).

Definition observed_any (self other : Global) : bool :=
  existsb (λ '(l, r),
    bool_decide (0 < value r) && bool_decide (value r ≤ value l))
    (zip (iter self) (iter other)).

Definition observed_all (self other : Global) : bool :=
  if bool_decide (length (values self) < length (values other))%nat then false
  else forallb (λ '(l, r), bool_decide (value r ≤ value l))
         (zip (iter self) (iter other)).

Definition changed_since (self other : Global) : bool :=
  bool_decide (length (values other) < length (values self))%nat
  || existsb (λ '(l, r), bool_decide (r < l))
       (zip (values self) (values other)).

(** [Iterator::max_by_key] keeps the last of the maximal elements. *)
Definition max_by_value (best : option Lamport) (t : Lamport) : option Lamport :=
  match best with
  | Some b => if bool_decide (value t < value b) then Some b else Some t
  | None => Some t
  end.

Definition most_recent (self : Global) : option Lamport :=
  foldl max_by_value None (iter self).

Definition Global_from_iter (locals : list Lamport) : Global :=
  foldl Global_observe Global_new locals.

(** The invariants of a version vector: the entries are [u32]s and the last
    one is not zero. *)
Definition canonical (g : Global) : Prop :=
  Forall (fits 32) (values g) ∧ last (values g) ≠ Some 0.

(** ** Entries of a vector, read with the default [0] *)

Definition nth0 (l : list N) (i : nat) : N := default 0 (l !! i).

Lemma get_nth0 g r : get g r = nth0 (values g) (N.to_nat r).
Proof. done. Qed.

Lemma nth0_ge l i : (length l ≤ i)%nat → nth0 l i = 0.
Proof. intros. unfold nth0. by rewrite lookup_ge_None_2. Qed.

Lemma nth0_grow l n i : nth0 (grow l n) i = nth0 l i.
Proof.
  unfold grow. case_bool_decide as Hn; [|done]. unfold nth0.
  destruct (decide (i < length l)%nat).
  { by rewrite lookup_resize by lia. }
  rewrite (lookup_ge_None_2 l) by lia.
  destruct (decide (i < n)%nat).
  - by rewrite lookup_resize_new by lia.
  - by rewrite lookup_resize_old by lia.
Qed.

Lemma length_grow l n : length (grow l n) = (length l `max` n)%nat.
Proof. unfold grow. case_bool_decide; rewrite ?length_resize; lia. Qed.

Lemma Forall_grow l n : Forall (fits 32) l → Forall (fits 32) (grow l n).
Proof.
  intros Hl. unfold grow. case_bool_decide; [|done].
  by apply Forall_resize.
Qed.

Lemma length_zip_assign f l r : length (zip_assign f l r) = length l.
Proof. revert r. induction l; intros []; simpl; auto. Qed.

Lemma nth0_zip_assign f l r i :
  nth0 (zip_assign f l r) i =
  if decide (i < length l ∧ i < length r)%nat then f (nth0 l i) (nth0 r i) else nth0 l i.
Proof.
  revert r i. induction l as [|a l IH]; intros [|b r] [|i]; simpl; try done;
    repeat case_decide; try lia; try done; unfold nth0 in *; simpl in *;
    rewrite IH; case_decide; try done; lia.
Qed.

Lemma last_nth0 l : last l ≠ Some 0 ↔ l = [] ∨ nth0 l (length l - 1) ≠ 0.
Proof.
  destruct l as [|a l _] using rev_ind; [naive_solver|].
  rewrite last_snoc, length_app. unfold nth0. simpl.
  rewrite lookup_app_r by lia.
  replace (length l + 1 - 1 - length l)%nat with 0%nat by lia. simpl.
  split; [intros Hne; right; congruence|].
  intros [[]%app_nil|Hne]; [naive_solver|congruence].
Qed.

Lemma canonical_intro l :
  Forall (fits 32) l → (l ≠ [] → nth0 l (length l - 1) ≠ 0) → canonical (mkGlobal l).
Proof.
  intros Hl H. split; [done|]. apply last_nth0. simpl. destruct l; [by left|].
  right. by apply H.
Qed.

Lemma canonical_last g :
  canonical g → values g ≠ [] → 0 < nth0 (values g) (length (values g) - 1).
Proof.
  intros [Hw [?|Hl]%last_nth0] ?; [done|]. lia.
Qed.

(** ** The reading of each operation on the entries *)

Lemma nth0_alter f l i j :
  nth0 (alter f i l) j = if decide (i = j ∧ j < length l)%nat then f (nth0 l j) else nth0 l j.
Proof.
  unfold nth0. case_decide as Hd.
  - destruct Hd as [-> Hlt]. apply lookup_lt_is_Some in Hlt as [v Hv].
    by rewrite list_lookup_alter_eq, Hv.
  - destruct (decide (i = j)) as [->|Hne]; [|by rewrite list_lookup_alter_ne].
    rewrite list_lookup_alter_eq, lookup_ge_None_2 by lia. done.
Qed.

Lemma observe_entries g t i :
  nth0 (values (Global_observe g t)) i =
  if decide (i = N.to_nat (replica_id t)) then nth0 (values g) i `max` value t
  else nth0 (values g) i.
Proof.
  unfold Global_observe. case_bool_decide as Hpos; simpl.
  - rewrite nth0_alter, length_grow, nth0_grow.
    repeat case_decide; done || lia.
  - case_decide; lia.
Qed.

Lemma get_observe g t r :
  get (Global_observe g t) r =
  if decide (r = replica_id t) then get g r `max` value t else get g r.
Proof. rewrite !get_nth0, observe_entries. repeat case_decide; done || lia. Qed.

Lemma join_entries a b i :
  nth0 (values (join a b)) i = nth0 (values a) i `max` nth0 (values b) i.
Proof.
  unfold join; simpl. rewrite nth0_zip_assign, length_grow, nth0_grow.
  case_decide as Hi; [done|]. rewrite (nth0_ge (values b)) by lia. lia.
Qed.

Lemma meet_loop_zip ix n l r : (meet_loop ix n l r).1 = zip_assign meet_entry l r.
Proof.
  revert ix n r. induction l as [|a l IH]; intros ix n [|b r]; simpl; try done.
  specialize (IH (ix + 1)%nat (if bool_decide (meet_entry a b = 0) then n else (ix + 1)%nat) r).
  destruct (meet_loop _ _ l r). simpl in *. by rewrite IH.
Qed.

(** After the loop every entry at or after [new_len], among the processed
    ones, is zero, and the entry before [new_len] is not. *)
Lemma meet_loop_new_len ix n l r :
  let n' := (meet_loop ix n l r).2 in
  let l' := zip_assign meet_entry l r in
  (n' = n ∧ ∀ i, (i < length r)%nat → nth0 l' i = 0 ∨ (length l ≤ i)%nat) ∨
  (ix < n' ∧ n' ≤ ix + length l ∧ nth0 l' (n' - ix - 1) ≠ 0%N ∧
   ∀ i, (n' - ix ≤ i)%nat → (i < length r)%nat → nth0 l' i = 0%N ∨ (length l ≤ i)%nat)%nat.
Proof.
  revert ix n r. induction l as [|a l IH]; intros ix n r; simpl.
  { left. split; [done|]. intros. right. lia. }
  destruct r as [|b r]; simpl.
  { left. split; [done|]. lia. }
  set (n1 := if bool_decide (meet_entry a b = 0) then n else (ix + 1)%nat).
  specialize (IH (ix + 1)%nat n1 r). simpl in IH.
  destruct (meet_loop (ix + 1) n1 l r) as [l1 n']. simpl in *.
  destruct IH as [[-> IH]|(?&?&IH&IH')].
  - unfold n1. case_bool_decide as Hz.
    + left. split; [done|]. intros [|i] ?; [by left|].
      destruct (IH i); [lia|left; done|right; lia].
    + right. replace (ix + 1 - ix - 1)%nat with 0%nat by lia.
      repeat split; [lia|lia|done|]. intros [|i] ??; [lia|].
      destruct (IH i); [lia|left; done|right; lia].
  - right. repeat split; [lia|lia| |].
    + replace (n' - ix - 1)%nat with (S (n' - (ix + 1) - 1)) by lia. done.
    + intros [|i] ??; [lia|]. destruct (IH' i); [lia|lia|left; done|right; lia].
Qed.

Lemma nth0_take l n i : nth0 (take n l) i = if decide (i < n)%nat then nth0 l i else 0.
Proof.
  unfold nth0. case_decide; [by rewrite lookup_take_lt|].
  by rewrite lookup_take_ge by lia.
Qed.

Lemma meet_entries a b i :
  nth0 (values (meet a b)) i = meet_entry (nth0 (values a) i) (nth0 (values b) i).
Proof.
  unfold meet. set (vs := grow _ _).
  assert (Hvs : ∀ j, nth0 vs j = nth0 (values a) j) by (intros; apply nth0_grow).
  assert (Hlen : length vs = (length (values a) `max` length (values b))%nat) by apply length_grow.
  pose proof (meet_loop_zip 0 0 vs (values b)) as Hz.
  pose proof (meet_loop_new_len 0 0 vs (values b)) as Hn.
  destruct (meet_loop 0 0 vs (values b)) as [l n]. simpl in *. subst l.
  assert (Hzip : nth0 (zip_assign meet_entry vs (values b)) i =
                 meet_entry (nth0 (values a) i) (nth0 (values b) i)).
  { rewrite nth0_zip_assign, Hvs. case_decide as Hi; [done|].
    rewrite (nth0_ge (values b)) by lia. unfold meet_entry. by repeat case_bool_decide. }
  rewrite length_zip_assign. case_bool_decide as Hl; [|done].
  rewrite nth0_take. case_decide as Hi; [done|]. rewrite <- Hzip.
  destruct (decide (i < length vs)%nat) as [Hi'|Hi'];
    [|by rewrite nth0_ge by (rewrite length_zip_assign; lia)].
  destruct Hn as [[-> Hn]|(?&?&?&Hn)]; destruct (Hn i); lia || done.
Qed.

(** ** The invariant is kept by every operation *)

Lemma nth0_lookup l i v : l !! i = Some v → nth0 l i = v.
Proof. unfold nth0. by intros ->. Qed.

Lemma Forall_nth0 l : Forall (fits 32) l ↔ ∀ i, fits 32 (nth0 l i).
Proof.
  rewrite Forall_lookup. split.
  - intros Hl i. unfold nth0. destruct (l !! i) eqn:E; simpl; [eauto|done].
  - intros Hl i v Hi. rewrite <- (nth0_lookup _ _ _ Hi). apply Hl.
Qed.

Lemma canonical_entries g : canonical g → ∀ i, fits 32 (nth0 (values g) i).
Proof. intros [Hg _]. by apply Forall_nth0. Qed.

Lemma length_Global_observe g t :
  0 < value t →
  length (values (Global_observe g t)) =
  (length (values g) `max` (N.to_nat (replica_id t) + 1))%nat.
Proof.
  intros. unfold Global_observe. rewrite bool_decide_eq_true_2 by done.
  simpl. by rewrite length_alter, length_grow.
Qed.

Lemma canonical_new : canonical Global_new.
Proof. split; [constructor|done]. Qed.

Lemma canonical_observe g t :
  canonical g → Lamport_wf t → canonical (Global_observe g t).
Proof.
  intros Hg [Ht _]. pose proof (canonical_entries _ Hg) as He.
  destruct (decide (0 < value t)) as [Hpos|Hpos].
  2: { unfold Global_observe. by rewrite bool_decide_eq_false_2. }
  destruct (Global_observe g t) as [vs] eqn:E.
  assert (Hvs : vs = values (Global_observe g t)) by by rewrite E.
  apply canonical_intro.
  - apply Forall_nth0. intros i. rewrite Hvs, observe_entries.
    specialize (He i). unfold fits in *. case_decide; lia.
  - intros _. rewrite Hvs, observe_entries, length_Global_observe by done.
    case_decide as Hi; [lia|].
    rewrite Nat.max_l by lia. pose proof (canonical_last _ Hg) as Hlast.
    destruct (values g) as [|v l] eqn:Eg; simpl in *; [lia|].
    specialize (Hlast ltac:(done)). lia.
Qed.

(** The last entry of the longer of two canonical vectors is not zero. *)
Lemma canonical_last_max a b :
  canonical a → canonical b →
  (0 < length (values a) `max` length (values b))%nat →
  let n := (length (values a) `max` length (values b) - 1)%nat in
  0 < nth0 (values a) n ∨ 0 < nth0 (values b) n.
Proof.
  intros Ha Hb Hlen n. destruct (decide (length (values b) ≤ length (values a))%nat).
  - left. unfold n. rewrite Nat.max_l by lia. apply canonical_last; [done|].
    intros E%(f_equal length). simpl in E. lia.
  - right. unfold n. rewrite Nat.max_r by lia. apply canonical_last; [done|].
    intros E%(f_equal length). simpl in E. lia.
Qed.

Lemma canonical_join a b : canonical a → canonical b → canonical (join a b).
Proof.
  intros Ha Hb. pose proof (canonical_entries _ Ha) as Hea.
  pose proof (canonical_entries _ Hb) as Heb.
  assert (Hent : ∀ i, nth0 (values (join a b)) i = nth0 (values a) i `max` nth0 (values b) i).
  { intros i. apply join_entries. }
  assert (Hlen : length (values (join a b)) = (length (values a) `max` length (values b))%nat).
  { unfold join; simpl. by rewrite length_zip_assign, length_grow. }
  destruct (join a b) as [vs]. simpl in *. apply canonical_intro.
  - apply Forall_nth0. intros i. rewrite Hent. specialize (Hea i). specialize (Heb i).
    unfold fits in *. lia.
  - intros Hne. rewrite Hent, Hlen.
    pose proof (canonical_last_max a b Ha Hb) as Hlast. simpl in Hlast.
    destruct vs; [done|]. simpl in *. lia.
Qed.

Lemma canonical_take_new_len l n :
  (n ≤ length l)%nat → ((0 < n)%nat → nth0 l (n - 1) ≠ 0) →
  Forall (fits 32) l → canonical (mkGlobal (take n l)).
Proof.
  intros Hn Hl Hw. apply canonical_intro; [by apply Forall_take|].
  intros Hne. rewrite length_take, nth0_take.
  assert (0 < n)%nat by (destruct n; [done|lia]).
  rewrite decide_True by lia. rewrite Nat.min_l by lia. by apply Hl.
Qed.

Lemma canonical_meet a b : canonical a → canonical b → canonical (meet a b).
Proof.
  intros Ha Hb. pose proof (canonical_entries _ Ha) as Hea.
  pose proof (canonical_entries _ Hb) as Heb.
  unfold meet. set (vs := grow _ _).
  assert (Hlen : length vs = (length (values a) `max` length (values b))%nat) by apply length_grow.
  pose proof (meet_loop_zip 0 0 vs (values b)) as Hz.
  pose proof (meet_loop_new_len 0 0 vs (values b)) as Hn.
  destruct (meet_loop 0 0 vs (values b)) as [l n]. simpl in *. subst l.
  rewrite length_zip_assign in *.
  assert (Hw : Forall (fits 32) (zip_assign meet_entry vs (values b))).
  { apply Forall_nth0. intros i. rewrite nth0_zip_assign. unfold vs. rewrite nth0_grow.
    specialize (Hea i). specialize (Heb i). case_decide; [|done].
    unfold meet_entry, fits in *. repeat case_bool_decide; lia. }
  case_bool_decide as Hl.
  - apply canonical_take_new_len; [rewrite length_zip_assign; destruct Hn as [[-> _]|(_&?&_)]; lia| |done].
    intros Hpos. destruct Hn as [[-> _]|(?&?&Hn&_)]; [lia|].
    by replace (n - 0 - 1)%nat with (n - 1)%nat in Hn by lia.
  - apply canonical_intro; [done|]. intros Hne. rewrite length_zip_assign, nth0_zip_assign.
    rewrite decide_False by lia. unfold vs at 1. rewrite nth0_grow, Hlen, Nat.max_l by lia.
    pose proof (canonical_last a Ha) as Hlast.
    assert (values a ≠ []) by (intros E%(f_equal length); simpl in E; lia).
    specialize (Hlast ltac:(done)). lia.
Qed.

(** ** Comparisons between versions *)

Lemma zip_iter_values (p : N → N → bool) (f g : nat → N → Lamport) l r :
  (∀ i v, value (f i v) = v) → (∀ i v, value (g i v) = v) →
  map (λ '(l, r), p (value l) (value r)) (zip (imap f l) (imap g r)) =
  map (λ '(l, r), p l r) (zip l r).
Proof.
  intros Hf Hg. revert f g r Hf Hg. induction l as [|a l IH]; intros f g [|b r] Hf Hg;
    simpl; try done.
  rewrite Hf, Hg. f_equal. apply IH; intros; simpl; auto.
Qed.

Lemma forallb_map {A B} (f : A → B) p l : forallb p (map f l) = forallb (λ a, p (f a)) l.
Proof. induction l; simpl; congruence. Qed.

Lemma existsb_map {A B} (f : A → B) p l : existsb p (map f l) = existsb (λ a, p (f a)) l.
Proof. induction l; simpl; congruence. Qed.

Lemma forallb_ext_l {A} (p q : A → bool) l : (∀ a, p a = q a) → forallb p l = forallb q l.
Proof. intros E. induction l; simpl; congruence. Qed.

Lemma observed_all_values a b :
  observed_all a b =
  if bool_decide (length (values a) < length (values b))%nat then false
  else forallb (λ '(l, r), bool_decide (r ≤ l)) (zip (values a) (values b)).
Proof.
  unfold observed_all, iter. case_bool_decide; [done|].
  set (F := λ i seq, mkLamport seq (wrap_N 16 (N.of_nat i))).
  pose proof (zip_iter_values (λ l r, bool_decide (r ≤ l)) F F (values a) (values b)
                (λ _ _, eq_refl) (λ _ _, eq_refl)) as E.
  apply (f_equal (forallb id)) in E. rewrite !forallb_map in E.
  rewrite (forallb_ext_l _ (λ p, id (let '(l, r) := p in bool_decide (value r ≤ value l))))
    by (by intros []).
  rewrite E. apply forallb_ext_l. by intros [].
Qed.

Lemma forallb_zip_entries l r :
  Forall (fits 32) l → (length r ≤ length l)%nat →
  forallb (λ '(l, r), bool_decide (r ≤ l)) (zip l r) = true ↔
  ∀ i, nth0 r i ≤ nth0 l i.
Proof.
  intros Hl. revert r. induction Hl as [|a l Ha Hl IH]; intros [|b r] Hlen; simpl in *; try lia.
  - naive_solver.
  - split; [|done]. intros _ i. rewrite nth0_ge by (simpl; lia).
    lia.
  - rewrite andb_true_iff, bool_decide_eq_true, IH by lia. split.
    + intros [Hba H] [|i]; [done|apply H].
    + intros H. split; [apply (H 0%nat)|intros i; apply (H (S i))].
Qed.

Lemma observed_all_entries a b :
  canonical a → canonical b →
  observed_all a b = true ↔ ∀ i, nth0 (values b) i ≤ nth0 (values a) i.
Proof.
  intros Ha Hb. rewrite observed_all_values. case_bool_decide as Hlen.
  - split; [done|]. intros H. exfalso.
    assert (values b ≠ []) as Hne by (intros E%(f_equal length); simpl in E; lia).
    pose proof (canonical_last _ Hb Hne). specialize (H (length (values b) - 1)%nat).
    rewrite (nth0_ge (values a)) in H by lia. lia.
  - apply forallb_zip_entries; [apply Ha|lia].
Qed.

Lemma observed_all_get a b :
  canonical a → canonical b →
  observed_all a b = true ↔ ∀ r, get b r ≤ get a r.
Proof.
  intros Ha Hb. rewrite observed_all_entries by done. split; intros H.
  - intros r. rewrite !get_nth0. apply H.
  - intros i. specialize (H (N.of_nat i)). by rewrite !get_nth0, Nat2N.id in H.
Qed.

Create HintDb clock.
#[export] Hint Resolve canonical_new canonical_observe canonical_join canonical_meet : clock.

(** ** Properties *)

(** [Global::observe] keeps the vector canonical and raises exactly the
    entry of the timestamp's replica, to the maximum of the two. *)
Theorem Global_observe_get (g : Global) (t : Lamport) :
  canonical g → Lamport_wf t →
  canonical (Global_observe g t) ∧
  ∀ r,
    get (Global_observe g t) r =
    if decide (r = replica_id t) then get g r `max` value t else get g r.
Proof.
  intros Hg Ht. split; [by apply canonical_observe|].
  intros r. apply get_observe.
Qed.

(** [Global::join] is the least upper bound in the [observed_all] order. *)
Theorem join_least_upper_bound (a b c : Global) :
  canonical a → canonical b → canonical c →
  canonical (join a b) ∧
  observed_all c (join a b) = observed_all c a && observed_all c b.
Proof.
  intros Ha Hb Hc. split; [by apply canonical_join|].
  apply eq_bool_prop_intro. rewrite andb_True, !Is_true_true.
  rewrite !observed_all_entries by auto with clock.
  split.
  - intros H. split; intros i; specialize (H i); rewrite join_entries in H
      ; lia.
  - intros [H1 H2] i. rewrite join_entries.
    specialize (H1 i). specialize (H2 i). lia.
Qed.

(** [Global::meet] keeps the vector canonical; an entry unobserved on one
    side takes the other side's value and the rest take the minimum. *)
Theorem meet_get (a b : Global) :
  canonical a → canonical b →
  canonical (meet a b) ∧
  ∀ r,
    get (meet a b) r =
    if decide (get a r = 0) then get b r
    else if decide (get b r = 0) then get a r else get a r `min` get b r.
Proof.
  intros Ha Hb. split; [by apply canonical_meet|].
  intros r. rewrite !get_nth0, meet_entries. unfold meet_entry.
  by repeat case_bool_decide; repeat case_decide.
Qed.

(** between canonical vectors [observed_all] is the pointwise order, and
    [changed_since] is the negation of the converse [observed_all]. *)
Theorem observed_all_pointwise (a b : Global) :
  canonical a → canonical b →
  (observed_all a b = true ↔ ∀ r, get b r ≤ get a r) ∧
  changed_since b a = negb (observed_all a b).
Proof.
  intros Ha Hb. split; [by apply observed_all_get|].
  rewrite observed_all_values. unfold changed_since.
  case_bool_decide as Hlen; [done|]. simpl.
  assert (Hzip : ∀ l r : list N,
    existsb (λ '(l, r), bool_decide (r < l)) (zip r l) =
    negb (forallb (λ '(l, r), bool_decide (r ≤ l)) (zip l r))).
  { induction l as [|x l IH]; intros [|y r]; simpl; try done.
    rewrite IH, negb_andb. f_equal. repeat case_bool_decide; simpl; first [done|lia]. }
  apply Hzip.
Qed.

(** a version collected from timestamps has observed a timestamp exactly
    when it is zero or one of the collected ones covers it. *)
Theorem Global_from_iter_observed (locals : list Lamport) (t : Lamport) :
  observed (Global_from_iter locals) t = true ↔
  value t = 0 ∨ ∃ t', t' ∈ locals ∧ replica_id t' = replica_id t ∧ value t ≤ value t'.
Proof.
  unfold Global_from_iter, observed. rewrite bool_decide_eq_true.
  assert (Hgen : ∀ g,
    value t ≤ get (foldl Global_observe g locals) (replica_id t) ↔
    value t ≤ get g (replica_id t) ∨
    ∃ t', t' ∈ locals ∧ replica_id t' = replica_id t ∧ value t ≤ value t').
  { induction locals as [|t0 locals IH]; intros g; simpl.
    { split; [by left|]. intros [?|(?&?%not_elem_of_nil&_)]; done. }
    rewrite IH, get_observe. setoid_rewrite elem_of_cons. case_decide as E.
    - rewrite N.max_le_iff. naive_solver.
    - naive_solver. }
  rewrite Hgen. replace (get Global_new (replica_id t)) with 0 by done. naive_solver lia.
Qed.

(** the packing of a timestamp into a [u64] is an order embedding: comparing
    the packed words is comparing the timestamps, and it fits the width. *)
Theorem as_u64_order (a b : Lamport) :
  Lamport_wf a → Lamport_wf b →
  fits 64 (as_u64 a) ∧ cmp (as_u64 a) (as_u64 b) = cmp a b.
Proof.
  assert (Hpack : ∀ t, Lamport_wf t → as_u64 t = value t * 2 ^ 32 + replica_id t).
  { intros t [Hv Hr]. unfold fits, as_u64 in *.
    rewrite N.shiftl_mul_pow2, wrap_N_id by (unfold fits; lia).
    apply lor_pack_N. unfold fits. lia. }
  intros Ha Hb. rewrite !Hpack by done.
  destruct Ha as [Hva Hra], Hb as [Hvb Hrb]. unfold fits in *. split; [lia|].
  unfold cmp at 2, Lamport_Ord, then_with, cmp, N_Ord.
  destruct (N.compare_spec (value a) (value b)) as [E|E|E].
  - rewrite E. destruct (N.compare_spec (replica_id a) (replica_id b));
      apply N.compare_eq_iff || apply N.compare_lt_iff || apply N.compare_gt_iff; lia.
  - apply N.compare_lt_iff. lia.
  - apply N.compare_gt_iff. lia.
Qed.

#[export] Instance Lamport_OrdLaws : OrdLaws Lamport.
Proof. apply (lexicographic_OrdLaws value replica_id). intros [??] [??]; simpl. congruence. Qed.

(** The timestamps of a clock that has observed another one. *)
Lemma Lamport_ticks (clock t : Lamport) :
  Lamport_wf clock → Lamport_wf t →
  value clock < 2 ^ 32 - 3 → value t < 2 ^ 32 - 3 →
  let '(t1, clock1) := tick (Lamport_observe clock t) in
  let '(t2, clock2) := tick clock1 in
  cmp t t1 = Lt ∧ cmp clock t1 = Lt ∧ cmp t1 t2 = Lt ∧
  replica_id t1 = replica_id clock ∧ Lamport_wf clock2.
Proof.
  intros [Hvc Hrc] [Hvt Hrt] ??. unfold tick, Lamport_observe, fits in *; simpl.
  assert (Hw : ∀ n, n < 2 ^ 32 → wrap_N 32 n = n) by (intros; by apply wrap_N_id).
  set (n := value clock `max` value t) in *.
  assert (value clock ≤ n ∧ value t ≤ n ∧ n < 2 ^ 32 - 3) as (?&?&?) by lia.
  rewrite (Hw (n + 1)), (Hw (n + 1 + 1)) by lia.
  assert (Hlt : ∀ x y r r', x < y → cmp (mkLamport x r) (mkLamport y r') = Lt).
  { intros x y r r' ?. unfold cmp, Lamport_Ord, cmp, N_Ord; simpl.
    by rewrite (proj2 (N.compare_lt_iff x y)). }
  destruct t as [v r], clock as [v' r']; simpl in *.
  rewrite (Hw (n + 1 + 1 + 1)) by lia.
  split_and!; [by apply Hlt; lia..|done|]. split; unfold fits; simpl; lia.
Qed.

(** C38: [Lamport]'s comparison is a total order on timestamps: it answers [Eq] on
    equal ones only, the two ways of comparing agree, and less is transitive.  A
    clock that observes a timestamp ticks to one later than it and than
    itself, under its own replica id, and successive ticks increase, as long as
    the clock has not reached the end of its [u32]. *)
Theorem Lamport_clock_causality (clock t : Lamport) :
  Lamport_wf clock → Lamport_wf t →
  value clock < 2 ^ 32 - 3 → value t < 2 ^ 32 - 3 →
  (∀ a b c : Lamport,
    (cmp a b = Eq ↔ a = b) ∧ cmp b a = CompOpp (cmp a b) ∧
    (cmp a b = Lt → cmp b c = Lt → cmp a c = Lt)) ∧
  let '(t1, clock1) := tick (Lamport_observe clock t) in
  let '(t2, clock2) := tick clock1 in
  cmp t t1 = Lt ∧ cmp clock t1 = Lt ∧ cmp t1 t2 = Lt ∧
  replica_id t1 = replica_id clock ∧ Lamport_wf clock2.
Proof.
  intros Hc Ht Hvc Hvt. split; [|by apply Lamport_ticks].
  intros a b c. split; [apply cmp_eq_iff|]. split; [apply cmp_antisym|]. apply cmp_lt_trans.
Qed.

(** ** Witnesses *)

(** Discharge [canonical] and [Lamport_wf] at concrete values. *)
Ltac solve_clock :=
  repeat first [split | constructor]; unfold fits; simpl; first [lia | congruence | done].

Lemma Global_observe_get_witness :
  get (Global_observe (mkGlobal [3; 0; 5]) (mkLamport 7 4)) 4 = 7.
Proof.
  destruct (Global_observe_get (mkGlobal [3; 0; 5]) (mkLamport 7 4)) as [_ H];
    [solve_clock..|]. rewrite H. reflexivity.
Defined.

Lemma join_least_upper_bound_witness :
  observed_all (mkGlobal [3; 4; 5]) (join (mkGlobal [3; 1]) (mkGlobal [0; 4; 2])) = true.
Proof.
  destruct (join_least_upper_bound (mkGlobal [3; 1]) (mkGlobal [0; 4; 2]) (mkGlobal [3; 4; 5]))
    as [_ H]; [solve_clock..|]. rewrite H. reflexivity.
Defined.

Lemma meet_get_witness :
  get (meet (mkGlobal [3; 0; 5]) (mkGlobal [2; 7])) 1 = 7.
Proof.
  destruct (meet_get (mkGlobal [3; 0; 5]) (mkGlobal [2; 7])) as [_ H]; [solve_clock..|].
  rewrite H by lia. reflexivity.
Defined.

Lemma observed_all_pointwise_witness :
  changed_since (mkGlobal [0; 2]) (mkGlobal [3; 1]) = true.
Proof.
  destruct (observed_all_pointwise (mkGlobal [3; 1]) (mkGlobal [0; 2])) as [_ H];
    [solve_clock..|]. rewrite H. reflexivity.
Defined.

Lemma Global_from_iter_observed_witness :
  observed (Global_from_iter [mkLamport 4 1; mkLamport 2 1]) (mkLamport 3 1) = true.
Proof.
  apply Global_from_iter_observed. right. exists (mkLamport 4 1). split; [constructor|]. simpl. lia.
Defined.

Lemma as_u64_order_witness : cmp (as_u64 (mkLamport 2 1)) (as_u64 (mkLamport 1 9)) = Gt.
Proof.
  destruct (as_u64_order (mkLamport 2 1) (mkLamport 1 9)) as [_ H]; [solve_clock..|].
  rewrite H. reflexivity.
Defined.

Lemma Lamport_clock_causality_witness :
  cmp (mkLamport 9 3) (tick (Lamport_observe (mkLamport 4 0) (mkLamport 9 3))).1 = Lt.
Proof.
  pose proof (Lamport_clock_causality (mkLamport 4 0) (mkLamport 9 3)) as H.
  destruct H as [_ [H _]]; [solve_clock..|exact H].
Defined.
