(* ===== verification/SumTree.v ===== *)
(** The B+ tree every sequence of the editor is kept in:
    [crates/sum_tree/src/sum_tree.rs].

    The traits ([Summary], [Item], [Dimension], [SeekTarget]) are type classes,
    a tree is the code's two-constructor node with its cached summaries (the
    [Arc] is the identity on values), and each operation is the code's
    recursion on the nodes.  A panic of the code (an [ArrayVec] over its
    capacity, an [unwrap], an [unreachable!]) is [None]. *)

From stdpp Require Import base numbers option list.
From S2P Require Import Prelude.

(** Nodes hold at most [2 * TREE_BASE] children or items. *)
Definition TREE_BASE : nat := 6.

(** ** Traits *)

Class Summary (S Cx : Type) := {
  summary_zero : Cx → S;
  add_summary : S → S → Cx → S
}.
#[export] Hint Mode Summary ! - : typeclass_instances.

Class Item (T S Cx : Type) := item_summary_of : T → Cx → S.
#[export] Hint Mode Item ! - - : typeclass_instances.

Class Dimension (D S Cx : Type) := {
  dim_zero : Cx → D;
  dim_add_summary : D → S → Cx → D
}.
#[export] Hint Mode Dimension ! - - : typeclass_instances.

Class SeekTarget (Target D Cx : Type) := target_cmp : Target → D → Cx → comparison.
#[export] Hint Mode SeekTarget ! - - : typeclass_instances.

(** [Dimension::with_added_summary] and [Dimension::from_summary]. *)
Definition with_added_summary {D S Cx} `{Dimension D S Cx} (self : D) (s : S) (cx : Cx) : D :=
  dim_add_summary self s cx.
Definition from_summary_dim {D S Cx} `{Dimension D S Cx} (s : S) (cx : Cx) : D :=
  dim_add_summary (dim_zero cx) s cx.

(** Every summary is a dimension of itself, and [()] is a dimension. *)
#[export] Instance Summary_Dimension {S Cx} `{Summary S Cx} : Dimension S S Cx := {
  dim_zero := summary_zero;
  dim_add_summary := add_summary
}.
#[export] Instance unit_Dimension {S Cx} : Dimension () S Cx := {
  dim_zero := λ _, ();
  dim_add_summary := λ _ _ _, ()
}.

(** An ordered dimension seeks itself. *)
#[export] Instance Ord_SeekTarget {D Cx} `{Ord D} : SeekTarget D D Cx := λ self loc _, cmp self loc.

(** [Dimensions(D1, D2)], sought by a target of its first component. *)
#[export] Instance prod_Dimension {D1 D2 S Cx} `{Dimension D1 S Cx, Dimension D2 S Cx} :
  Dimension (D1 * D2) S Cx := {
  dim_zero := λ cx, (dim_zero cx, dim_zero cx);
  dim_add_summary := λ self s cx,
    (dim_add_summary self.1 s cx, dim_add_summary self.2 s cx)
}.
#[export] Instance fst_SeekTarget {Target D1 D2 Cx} `{SeekTarget Target D1 Cx} :
  SeekTarget Target (D1 * D2) Cx := λ self loc cx, target_cmp self loc.1 cx.

Inductive Bias := Left | Right.

#[export] Instance Bias_eq_dec : EqDecision Bias.
Proof. solve_decision. Defined.

Definition invert (self : Bias) : Bias :=
  match self with Left => Right | Right => Left end.

(** ** Nodes *)

Inductive SumTree (T S : Type) :=
  | Internal (height : nat) (summary : S) (child_summaries : list S)
      (child_trees : list (SumTree T S))
  | Leaf (summary : S) (items : list T) (item_summaries : list S).
Arguments Internal {T S} _ _ _ _.
Arguments Leaf {T S} _ _ _.

Section node.
Context {T S : Type}.
Implicit Types t : SumTree T S.

Definition is_leaf t : bool := match t with Leaf _ _ _ => true | _ => false end.

Definition height t : nat := match t with Internal h _ _ _ => h | Leaf _ _ _ => 0 end.

Definition summary t : S :=
  match t with Internal _ s _ _ => s | Leaf s _ _ => s end.

Definition child_summaries t : list S :=
  match t with Internal _ _ css _ => css | Leaf _ _ iss => iss end.

Definition child_trees t : option (list (SumTree T S)) :=
  match t with Internal _ _ _ cts => Some cts | Leaf _ _ _ => None end.

Definition node_items t : option (list T) :=
  match t with Leaf _ items _ => Some items | Internal _ _ _ _ => None end.

Definition is_underflowing t : bool :=
  match t with
  | Internal _ _ _ cts => bool_decide (length cts < TREE_BASE)
  | Leaf _ items _ => bool_decide (length items < TREE_BASE)
  end.

Definition is_empty t : bool :=
  match t with
  | Internal _ _ _ _ => false
  | Leaf _ items _ => bool_decide (length items = 0)
  end.

Fixpoint leftmost_leaf t : option (SumTree T S) :=
  match t with
  | Leaf _ _ _ => Some t
  | Internal _ _ _ cts => match cts with [] => None | t :: _ => leftmost_leaf t end
  end.

Fixpoint rightmost_leaf t : option (SumTree T S) :=
  match t with
  | Leaf _ _ _ => Some t
  | Internal _ _ _ cts =>
      (fix go cts :=
         match cts with
         | [] => None
         | t :: cts' => match cts' with [] => rightmost_leaf t | _ => go cts' end
         end) cts
  end.

(** [None] is the panic, [Some None] the code's [None]. *)
Definition first t : option (option T) :=
  leaf ← leftmost_leaf t; items ← node_items leaf; Some (head items).

Definition last t : option (option T) :=
  leaf ← rightmost_leaf t; items ← node_items leaf; Some (list.last items).

Definition last_summary t : option (option S) :=
  leaf ← rightmost_leaf t; Some (list.last (child_summaries leaf)).
End node.

(** An [ArrayVec<_, { 2 * TREE_BASE }>] built from a list: [None] when it does
    not fit, for every way the code fills one ([push], [insert], [extend] and
    [collect]). *)
Definition arrayvec {A} (l : list A) : option (list A) :=
  if bool_decide (length l ≤ 2 * TREE_BASE) then Some l else None.

Definition array_push {A} (l : list A) (a : A) : option (list A) := arrayvec (l ++ [a]).

Section construct.
Context {T S Cx : Type} `{Summary S Cx, Item T S Cx}.
Implicit Types (t : SumTree T S) (cx : Cx).

Definition sum_ (summaries : list S) cx : S :=
  foldl (λ s v, add_summary s v cx) (summary_zero cx) summaries.

Definition new cx : SumTree T S := Leaf (summary_zero cx) [] [].

Definition from_summary (s : S) : SumTree T S := Leaf s [] [].

(** A leaf of [from_iter]: at least one item is needed for
    [item_summaries[0]]. *)
Definition iter_leaf (items : list T) cx : option (SumTree T S) :=
  items ← arrayvec items;
  let item_summaries := (λ item, item_summary_of item cx) <$> items in
  match item_summaries with
  | [] => None
  | s :: rest =>
      Some (Leaf (foldl (λ s v, add_summary s v cx) s rest) items item_summaries)
  end.

(** One step of the inner loop of [from_iter]: the current parent, if any,
    and the finished parents. *)
Definition add_child_node (h : nat) cx (st : option (SumTree T S) * list (SumTree T S))
    (child_node : SumTree T S) : option (option (SumTree T S) * list (SumTree T S)) :=
  let '(current_parent_node, parent_nodes) := st in
  let parent_node := default (Internal h (summary_zero cx) [] []) current_parent_node in
  match parent_node with
  | Leaf _ _ _ => None
  | Internal h s css cts =>
      let s := add_summary s (summary child_node) cx in
      css ← array_push css (summary child_node);
      cts ← array_push cts child_node;
      let parent_node := Internal h s css cts in
      Some (if bool_decide (length cts = 2 * TREE_BASE)
            then (None, parent_nodes ++ [parent_node])
            else (Some parent_node, parent_nodes))
  end.

(** The outer loop of [from_iter], while more than one node is left. *)
Fixpoint from_iter_levels (fuel h : nat) (nodes : list (SumTree T S)) cx
    : option (list (SumTree T S)) :=
  if bool_decide (length nodes ≤ 1) then Some nodes
  else match fuel with
  | O => None
  | Datatypes.S fuel =>
      let h := h + 1 in
      '(current_parent_node, parent_nodes) ← foldlM (add_child_node h cx) (None, []) nodes;
      from_iter_levels fuel h (parent_nodes ++ option_list current_parent_node) cx
  end.

Definition from_iter (iter : list T) cx : option (SumTree T S) :=
  nodes ← mapM (λ items, iter_leaf items cx) (chunks (2 * TREE_BASE) iter);
  nodes ← from_iter_levels (length nodes) 0 nodes cx;
  match nodes with
  | [] => Some (new cx)
  | _ => list.last nodes
  end.

(** [from_par_iter]: the parallel maps keep the order of the chunks. *)
Definition par_parent (h : nat) cx (child_trees : list (SumTree T S)) : option (SumTree T S) :=
  child_trees ← arrayvec child_trees;
  let child_summaries := summary <$> child_trees in
  match child_summaries with
  | [] => None
  | s :: rest =>
      Some (Internal h (foldl (λ s v, add_summary s v cx) s rest) child_summaries child_trees)
  end.

Fixpoint from_par_iter_levels (fuel h : nat) (nodes : list (SumTree T S)) cx
    : option (list (SumTree T S)) :=
  if bool_decide (length nodes ≤ 1) then Some nodes
  else match fuel with
  | O => None
  | Datatypes.S fuel =>
      let h := h + 1 in
      nodes ← mapM (par_parent h cx) (chunks (2 * TREE_BASE) nodes);
      from_par_iter_levels fuel h nodes cx
  end.

Definition from_par_iter (iter : list T) cx : option (SumTree T S) :=
  nodes ← mapM (λ items, iter_leaf items cx) (chunks (2 * TREE_BASE) iter);
  nodes ← from_par_iter_levels (length nodes) 0 nodes cx;
  match nodes with
  | [] => Some (new cx)
  | _ => list.last nodes
  end.
End construct.

(** ** Appending

    A method that mutates [self] and returns an [Option<SumTree>] returns the
    new [self] and that option. *)

Section append.
Context {T S Cx : Type} `{Summary S Cx, Item T S Cx}.
Implicit Types (t : SumTree T S) (cx : Cx).

(** The node and, when [trees] is over capacity, its split at [midpoint]. *)
Fixpoint push_tree_recursive (self other : SumTree T S) cx {struct self}
    : option (SumTree T S * option (SumTree T S)) :=
  match self with
  | Internal h s css cts =>
      let s := add_summary s (summary other) cx in
      if bool_decide (h < height other) then None else
      let height_delta := h - height other in
      '(css, cts, summaries_to_append, trees_to_append) ←
        (if bool_decide (height_delta = 0) then
           trees ← child_trees other;
           Some (css, cts, child_summaries other, trees)
         else if bool_decide (height_delta = 1) && negb (is_underflowing other) then
           Some (css, cts, [summary other], [other])
         else
           '(cts, tree_to_append) ← modify_last (λ t, push_tree_recursive t other cx) cts;
           last_child ← list.last cts;
           css ← set_last (summary last_child) css;
           Some (css, cts, option_list (summary <$> tree_to_append),
                 option_list tree_to_append));
      let child_count := length cts + length trees_to_append in
      if bool_decide (2 * TREE_BASE < child_count) then
        let midpoint := (child_count + child_count mod 2) / 2 in
        let all_summaries := css ++ summaries_to_append in
        left_summaries ← arrayvec (take midpoint all_summaries);
        right_summaries ← arrayvec (drop midpoint all_summaries);
        let all_trees := cts ++ trees_to_append in
        left_trees ← arrayvec (take midpoint all_trees);
        right_trees ← arrayvec (drop midpoint all_trees);
        Some (Internal h (sum_ left_summaries cx) left_summaries left_trees,
              Some (Internal h (sum_ right_summaries cx) right_summaries right_trees))
      else
        css ← arrayvec (css ++ summaries_to_append);
        cts ← arrayvec (cts ++ trees_to_append);
        Some (Internal h s css cts, None)
  | Leaf s items item_summaries =>
      other_items ← node_items other;
      let child_count := length items + length other_items in
      if bool_decide (2 * TREE_BASE < child_count) then
        let midpoint := (child_count + child_count mod 2) / 2 in
        let all_items := items ++ other_items in
        left_items ← arrayvec (take midpoint all_items);
        right_items ← arrayvec (drop midpoint all_items);
        let all_summaries := item_summaries ++ child_summaries other in
        left_summaries ← arrayvec (take midpoint all_summaries);
        right_summaries ← arrayvec (drop midpoint all_summaries);
        Some (Leaf (sum_ left_summaries cx) left_items left_summaries,
              Some (Leaf (sum_ right_summaries cx) right_items right_summaries))
      else
        let s := add_summary s (summary other) cx in
        items ← arrayvec (items ++ other_items);
        item_summaries ← arrayvec (item_summaries ++ child_summaries other);
        Some (Leaf s items item_summaries, None)
  end.

(** [large] becomes [small] followed by its own data, or the tail of that
    when the combined data exceed the capacity. *)
Definition merge_into_right (small large : SumTree T S) cx
    : option (SumTree T S * option (SumTree T S)) :=
  match small, large with
  | Internal _ small_summary small_css small_cts, Internal h s css cts =>
      let total_child_count := length cts + length small_cts in
      if bool_decide (total_child_count ≤ 2 * TREE_BASE) then
        all_trees ← arrayvec (small_cts ++ cts);
        all_summaries ← arrayvec (small_css ++ css);
        Some (Internal h (add_summary small_summary s cx) all_summaries all_trees, None)
      else
        let midpoint := (total_child_count + 1) / 2 in
        left_trees ← arrayvec (take midpoint (small_cts ++ cts));
        cts ← arrayvec (drop midpoint (small_cts ++ cts));
        left_summaries ← arrayvec (take midpoint (small_css ++ css));
        css ← arrayvec (drop midpoint (small_css ++ css));
        Some (Internal h (sum_ css cx) css cts,
              Some (Internal h (sum_ left_summaries cx) left_summaries left_trees))
  | Leaf small_summary small_items small_iss, Leaf s items iss =>
      let total_child_count := length small_items + length items in
      if bool_decide (total_child_count ≤ 2 * TREE_BASE) then
        all_items ← arrayvec (small_items ++ items);
        all_summaries ← arrayvec (small_iss ++ iss);
        Some (Leaf (add_summary small_summary s cx) all_items all_summaries, None)
      else
        let midpoint := (total_child_count + 1) / 2 in
        left_items ← arrayvec (take midpoint (small_items ++ items));
        items ← arrayvec (drop midpoint (small_items ++ items));
        left_summaries ← arrayvec (take midpoint (small_iss ++ iss));
        iss ← arrayvec (drop midpoint (small_iss ++ iss));
        Some (Leaf (sum_ iss cx) items iss,
              Some (Leaf (sum_ left_summaries cx) left_items left_summaries))
  | _, _ => None
  end.

(** Appends [large] to a [small] tree that is not higher. *)
Fixpoint append_large (small large : SumTree T S) cx {struct large}
    : option (SumTree T S * option (SumTree T S)) :=
  if bool_decide (height small = height large) then
    if is_underflowing small then merge_into_right small large cx
    else Some (large, Some small)
  else
    match large with
    | Leaf _ _ _ => None
    | Internal h s css cts =>
        let s := add_summary (summary small) s cx in
        '(cts, res) ← modify_first (λ t, append_large small t cx) cts;
        first_child ← head cts;
        css ← set_first (summary first_child) css;
        match res with
        | Some tree =>
            if bool_decide (length cts < 2 * TREE_BASE) then
              css ← arrayvec (summary tree :: css);
              cts ← arrayvec (tree :: cts);
              Some (Internal h s css cts, None)
            else
              new_child_summaries ← arrayvec (summary tree :: take TREE_BASE css);
              new_child_trees ← arrayvec (tree :: take TREE_BASE cts);
              let css := drop TREE_BASE css in
              let cts := drop TREE_BASE cts in
              Some (Internal h (sum_ css cx) css cts,
                    Some (Internal h (sum_ new_child_summaries cx)
                            new_child_summaries new_child_trees))
        | None => Some (Internal h s css cts, None)
        end
    end.

Definition from_child_trees (l r : SumTree T S) cx : SumTree T S :=
  let child_summaries := [summary l; summary r] in
  Internal (height l + 1) (sum_ child_summaries cx) child_summaries [l; r].

Definition append (self other : SumTree T S) cx : option (SumTree T S) :=
  if is_empty self then Some other
  else if negb (is_leaf other) || negb (is_empty other) then
    if bool_decide (height self < height other) then
      '(other, res) ← append_large self other cx;
      match res with
      | Some tree => Some (from_child_trees tree other cx)
      | None => Some other
      end
    else
      '(self, res) ← push_tree_recursive self other cx;
      match res with
      | Some split_tree => Some (from_child_trees self split_tree cx)
      | None => Some self
      end
  else Some self.

Definition push (self : SumTree T S) (item : T) cx : option (SumTree T S) :=
  let s := item_summary_of item cx in
  append self (Leaf s [item] [s]) cx.

Definition extend (self : SumTree T S) (iter : list T) cx : option (SumTree T S) :=
  other ← from_iter iter cx; append self other cx.

Definition par_extend (self : SumTree T S) (iter : list T) cx : option (SumTree T S) :=
  other ← from_par_iter iter cx; append self other cx.

Definition from_item (item : T) cx : option (SumTree T S) := push (new cx) item cx.

(** ** Updating the first or last item in place *)

Fixpoint update_last_recursive (f : T → T) (self : SumTree T S) cx
    : option (SumTree T S * option S) :=
  match self with
  | Internal h s css cts =>
      '(cts, res) ← modify_last (λ t, update_last_recursive f t cx) cts;
      last_summary ← res;
      css ← set_last last_summary css;
      let s := sum_ css cx in
      Some (Internal h s css cts, Some s)
  | Leaf s items iss =>
      match list.last items, list.last iss with
      | Some item, Some _ =>
          let item := f item in
          items ← set_last item items;
          iss ← set_last (item_summary_of item cx) iss;
          let s := sum_ iss cx in
          Some (Leaf s items iss, Some s)
      | _, _ => Some (Leaf s items iss, None)
      end
  end.

Definition update_last (f : T → T) (self : SumTree T S) cx : option (SumTree T S) :=
  fst <$> update_last_recursive f self cx.

Fixpoint update_first_recursive (f : T → T) (self : SumTree T S) cx
    : option (SumTree T S * option S) :=
  match self with
  | Internal h s css cts =>
      '(cts, res) ← modify_first (λ t, update_first_recursive f t cx) cts;
      first_summary ← res;
      css ← set_first first_summary css;
      let s := sum_ css cx in
      Some (Internal h s css cts, Some s)
  | Leaf s items iss =>
      match head items, head iss with
      | Some item, Some _ =>
          let item := f item in
          items ← set_first item items;
          iss ← set_first (item_summary_of item cx) iss;
          let s := sum_ iss cx in
          Some (Leaf s items iss, Some s)
      | _, _ => Some (Leaf s items iss, None)
      end
  end.

Definition update_first (f : T → T) (self : SumTree T S) cx : option (SumTree T S) :=
  fst <$> update_first_recursive f self cx.

Definition extent {D} `{Dimension D S Cx} (self : SumTree T S) cx : D :=
  dim_add_summary (dim_zero cx) (summary self) cx.
End append.

(** ** Searching without a cursor *)

Section find.
Context {T S Cx D Target : Type} `{Summary S Cx, Item T S Cx, !Dimension D S Cx,
  !SeekTarget Target D Cx}.
Implicit Types (t : SumTree T S) (cx : Cx).

Definition target_in_child (comparison : comparison) (bias : Bias) : bool :=
  match comparison with
  | Lt => true
  | Eq => bool_decide (bias = Left)
  | Gt => false
  end.

Definition entry_found (exact : bool) (comparison : comparison) (bias : Bias) : bool :=
  if exact then match comparison with Eq => true | _ => false end
  else target_in_child comparison bias.

(** The leaf loop of [find_iterate] and [find_with_prev_iterate]: the final
    position and what was found, with the item before it. *)
Fixpoint find_leaf (exact : bool) cx (target : Target) (bias : Bias) (position : D)
    (prev : option T) (items : list T) (item_summaries : list S)
    : D * option (option T * T * D) :=
  match items, item_summaries with
  | item :: items, item_summary :: item_summaries =>
      let child_end := dim_add_summary position item_summary cx in
      let comparison := target_cmp target child_end cx in
      if entry_found exact comparison bias then (position, Some (prev, item, child_end))
      else find_leaf exact cx target bias child_end (Some item) items item_summaries
  | _, _ => (position, None)
  end.

(** [find_with_prev_iterate]; [None] when [child_tree.last()] panics. *)
Fixpoint find_with_prev_iterate (exact : bool) cx (target : Target) (bias : Bias)
    (position : D) (prev : option T) (this : SumTree T S) {struct this}
    : option (D * option (option T * T * D)) :=
  match this with
  | Internal _ _ css cts =>
      (fix go position prev cts css {struct cts} :=
         match cts, css with
         | child_tree :: cts, child_summary :: css =>
             let child_end := with_added_summary position child_summary cx in
             let comparison := target_cmp target child_end cx in
             if target_in_child comparison bias
             then find_with_prev_iterate exact cx target bias position prev child_tree
             else prev ← last child_tree; go child_end prev cts css
         | _, _ => Some (position, None)
         end) position prev cts css
  | Leaf _ items iss => Some (find_leaf exact cx target bias position prev items iss)
  end.

Fixpoint find_iterate (exact : bool) cx (target : Target) (bias : Bias)
    (position : D) (this : SumTree T S) {struct this} : D * option (T * D) :=
  match this with
  | Internal _ _ css cts =>
      (fix go position cts css {struct cts} :=
         match cts, css with
         | child_tree :: cts, child_summary :: css =>
             let child_end := with_added_summary position child_summary cx in
             let comparison := target_cmp target child_end cx in
             if target_in_child comparison bias
             then find_iterate exact cx target bias position child_tree
             else go child_end cts css
         | _, _ => (position, None)
         end) position cts css
  | Leaf _ items iss =>
      let '(position, found) := find_leaf exact cx target bias position None items iss in
      (position, (λ r, (r.1.2, r.2)) <$> found)
  end.

(** The check of [find], [find_exact] and [find_with_prev] that the target is
    not past the end of the tree. *)
Definition past_end (comparison : comparison) (bias : Bias) : bool :=
  match comparison with
  | Gt => true
  | Eq => bool_decide (bias = Right)
  | Lt => false
  end.

Definition find_generic (exact : bool) (self : SumTree T S) cx (target : Target) (bias : Bias)
    : D * D * option T :=
  let tree_end := with_added_summary (dim_zero cx) (summary self) cx in
  if past_end (target_cmp target tree_end cx) bias then (tree_end, tree_end, None)
  else match find_iterate exact cx target bias (dim_zero cx) self with
       | (pos, Some (item, end_)) => (pos, end_, Some item)
       | (pos, None) => (pos, pos, None)
       end.

Definition find_exact (self : SumTree T S) := find_generic true self.
Definition find (self : SumTree T S) := find_generic false self.

Definition find_with_prev (self : SumTree T S) cx (target : Target) (bias : Bias)
    : option (D * D * option (option T * T)) :=
  let tree_end := with_added_summary (dim_zero cx) (summary self) cx in
  if past_end (target_cmp target tree_end cx) bias then Some (tree_end, tree_end, None)
  else '(pos, found) ← find_with_prev_iterate false cx target bias (dim_zero cx) None self;
       Some match found with
            | Some (prev, item, end_) => (pos, end_, Some (prev, item))
            | None => (pos, pos, None)
            end.
End find.
