(* ===== verification/SumTreeFacts.v ===== *)
(** The B+ tree invariant and the refinement of the tree operations to lists.

    [wf cx h t]: [t] has uniform depth [h], every cached summary is the sum of
    what is below it and every node is within its capacity.  [elements t] is
    the sequence the tree stands for.  The theorems say that [append], [push],
    [extend], [from_iter] and the in-place updates never panic on such trees,
    keep the invariant, and act on [elements] as the list operations do. *)

From stdpp Require Import base numbers option list.
From S2P Require Import Prelude SumTree.

#[local] Arguments TREE_BASE : simpl never.
#[local] Arguments Nat.modulo : simpl never.
#[local] Arguments Nat.div : simpl never.
#[local] Arguments Nat.mul : simpl never.

(** ** Laws

    A summary is a semigroup with a left identity, on the summaries that items
    can have ([summary_ok]; all of them unless a client says otherwise):
    [add_summary] need not have a right identity (a key summary is overwritten
    by what is added to it). *)

Class SummaryOk (S Cx : Type) := summary_ok : Cx → S → Prop.
#[export] Hint Mode SummaryOk ! - : typeclass_instances.

#[export] Instance any_SummaryOk {S Cx} : SummaryOk S Cx | 100 := λ _ _, True.

Class SummaryLaws (S Cx : Type) `{Summary S Cx, !SummaryOk S Cx} : Prop := {
  summary_ok_zero cx : summary_ok cx (summary_zero cx : S);
  summary_ok_add cx (a b : S) :
    summary_ok cx a → summary_ok cx b → summary_ok cx (add_summary a b cx);
  add_summary_assoc cx (a b c : S) :
    summary_ok cx a → summary_ok cx b → summary_ok cx c →
    add_summary (add_summary a b cx) c cx = add_summary a (add_summary b c cx) cx;
  add_summary_zero_l cx (s : S) :
    summary_ok cx s → add_summary (summary_zero cx) s cx = s
}.

Class ItemLaws (T S Cx : Type) `{!Item T S Cx, !SummaryOk S Cx} : Prop :=
  item_summary_ok cx (i : T) : summary_ok cx (item_summary_of i cx : S).

#[export] Instance any_ItemLaws {T S Cx} `{!Item T S Cx} : ItemLaws T S Cx (SummaryOk0:=any_SummaryOk) | 100.
Proof. by intros cx i. Qed.

(** Adding a sum to a dimension is adding its parts in order. *)
Class DimensionLaws (D S Cx : Type) `{Summary S Cx, !SummaryOk S Cx, !Dimension D S Cx} : Prop :=
  dim_add_add cx (d : D) (a b : S) :
    summary_ok cx a → summary_ok cx b →
    dim_add_summary d (add_summary a b cx) cx =
    dim_add_summary (dim_add_summary d a cx) b cx.

Section elements.
Context {T S : Type}.

Fixpoint elements (t : SumTree T S) : list T :=
  match t with
  | Leaf _ items _ => items
  | Internal _ _ _ cts => concat (map elements cts)
  end.

Definition nonempty (t : SumTree T S) : Prop := is_empty t = false.
End elements.

Section facts.
Context {T S Cx : Type} `{SummaryLaws S Cx, !Item T S Cx, !ItemLaws T S Cx}.
Implicit Types (t : SumTree T S) (cx : Cx) (l k : list T) (ts : list (SumTree T S)).

(** The sum of the summaries of a list of items. *)
Definition isum cx l : S := sum_ ((λ i, item_summary_of i cx) <$> l) cx.

(** The invariant.  Every summary is the sum of what is under it; the empty
    leaf that [from_summary] makes of another summary is not a tree of this
    kind, until [append] replaces it. *)
Fixpoint wf cx (h : nat) t : Prop :=
  match h, t with
  | 0, Leaf s items iss =>
      iss = (λ i, item_summary_of i cx) <$> items ∧
      s = isum cx items ∧
      length items ≤ 2 * TREE_BASE
  | Datatypes.S h, Internal h' s css cts =>
      h' = Datatypes.S h ∧
      css = summary <$> cts ∧
      s = isum cx (concat (map elements cts)) ∧
      1 ≤ length cts ≤ 2 * TREE_BASE ∧
      Forall (λ t, wf cx h t ∧ nonempty t) cts
  | _, _ => False
  end.

(** A subtree, or a result that is about to become one. *)
Definition wfne cx h t : Prop := wf cx h t ∧ nonempty t.

(** *** Sums *)

Lemma sum_app cx (a b : list S) :
  sum_ (a ++ b) cx = foldl (λ s v, add_summary s v cx) (sum_ a cx) b.
Proof. unfold sum_. by rewrite foldl_app. Qed.

Lemma fold_add_ok cx (s : S) (b : list S) :
  summary_ok cx s → Forall (summary_ok cx) b →
  summary_ok cx (foldl (λ s v, add_summary s v cx) s b).
Proof.
  intros Hs Hb. revert s Hs. induction Hb as [|v b Hv _ IH]; intros s Hs; simpl; [done|].
  by apply IH, summary_ok_add.
Qed.

Lemma fold_add_summary cx (s0 s : S) (b : list S) :
  summary_ok cx s0 → summary_ok cx s → Forall (summary_ok cx) b →
  foldl (λ s v, add_summary s v cx) (add_summary s0 s cx) b =
  add_summary s0 (foldl (λ s v, add_summary s v cx) s b) cx.
Proof.
  intros Hs0 Hs Hb. revert s Hs. induction Hb as [|v b Hv _ IH]; intros s Hs; simpl; [done|].
  rewrite add_summary_assoc by done. by apply IH, summary_ok_add.
Qed.

Lemma sum_cons cx (s : S) (b : list S) :
  summary_ok cx s → sum_ (s :: b) cx = foldl (λ s v, add_summary s v cx) s b.
Proof. intros Hs. unfold sum_; simpl. by rewrite add_summary_zero_l. Qed.

Lemma sum_ok cx (b : list S) : Forall (summary_ok cx) b → summary_ok cx (sum_ b cx).
Proof. apply fold_add_ok, summary_ok_zero. Qed.

Lemma sum_app_ne cx (a b : list S) :
  b ≠ [] → Forall (summary_ok cx) a → Forall (summary_ok cx) b →
  sum_ (a ++ b) cx = add_summary (sum_ a cx) (sum_ b cx) cx.
Proof.
  intros Hb Ha Hok. destruct Hok as [|s b Hs Hok]; [done|]. rewrite sum_app, sum_cons by done; simpl.
  apply fold_add_summary; [by apply sum_ok|done|done].
Qed.

Lemma item_summaries_ok cx l : Forall (summary_ok cx) ((λ i, item_summary_of i cx) <$> l).
Proof. apply Forall_fmap, Forall_true. intros i. apply item_summary_ok. Qed.

Lemma isum_ok cx l : summary_ok cx (isum cx l).
Proof. apply sum_ok, item_summaries_ok. Qed.

Lemma isum_app cx l k : k ≠ [] → isum cx (l ++ k) = add_summary (isum cx l) (isum cx k) cx.
Proof.
  intros Hk. unfold isum. rewrite fmap_app. apply sum_app_ne; [by destruct k|apply item_summaries_ok..].
Qed.

(** *** Consequences of the invariant *)

Lemma wf_height cx h t : wf cx h t → height t = h.
Proof. destruct h, t; simpl; naive_solver. Qed.

Lemma concat_nonempty ts :
  ts ≠ [] → Forall (λ t, elements t ≠ []) ts → concat (map elements ts) ≠ [].
Proof.
  intros Hne HF. destruct HF as [|t ts Ht _]; [done|]. simpl.
  intros [??]%app_nil. done.
Qed.

Lemma wfne_elements cx h t : wfne cx h t → elements t ≠ [].
Proof.
  revert t. induction h as [|h IH]; intros [h' s css cts|s items iss] [Hwf Hne]; simpl in *;
    try done.
  - unfold nonempty in Hne; simpl in Hne. apply bool_decide_eq_false in Hne.
    by destruct items.
  - destruct Hwf as (_&_&_&Hlen&HF). apply concat_nonempty; [by intros ->; simpl in *; lia|].
    eapply Forall_impl; [exact HF|]. apply IH.
Qed.

Lemma wf_nonempty_elements cx h t : wf cx h t → nonempty t ↔ elements t ≠ [].
Proof.
  intros Hwf. split; [intros; by eapply wfne_elements|].
  intros He. unfold nonempty. destruct t as [|s items iss]; simpl in *; [done|].
  apply bool_decide_eq_false_2. by destruct items.
Qed.

Lemma wf_empty_elements cx h t : wf cx h t → is_empty t = true → elements t = [] ∧ h = 0.
Proof.
  destruct h, t as [|s items iss]; simpl; try done.
  intros _ Hne. apply bool_decide_eq_true in Hne. by destruct items.
Qed.

Lemma wfne_summary cx h t : wfne cx h t → summary t = isum cx (elements t).
Proof.
  intros Hwf. pose proof (wfne_elements _ _ _ Hwf) as He. destruct Hwf as [Hwf _].
  destruct h, t; simpl in *; try done; naive_solver.
Qed.

Lemma wf_summary cx h t : wf cx h t → summary t = isum cx (elements t).
Proof. destruct h, t as [|s items iss]; simpl; try done; naive_solver. Qed.

Lemma wfne_summary_ok cx h t : wfne cx h t → summary_ok cx (summary t).
Proof. intros Ht. rewrite (wfne_summary _ _ _ Ht). apply isum_ok. Qed.

Lemma summaries_ok cx h ts : Forall (wfne cx h) ts → Forall (summary_ok cx) (summary <$> ts).
Proof. rewrite Forall_fmap. intros Hts. eapply Forall_impl; [exact Hts|]. intros t. apply wfne_summary_ok. Qed.

(** The summaries of nonempty children sum to the summary of their items. *)
Lemma sum_children cx h ts :
  Forall (wfne cx h) ts →
  sum_ (summary <$> ts) cx = isum cx (concat (map elements ts)).
Proof.
  induction ts as [|t ts IH] using rev_ind; [done|].
  rewrite Forall_app, Forall_singleton. intros [Hts Ht].
  rewrite fmap_app, map_app, concat_app; simpl. rewrite app_nil_r.
  assert (Hok : summary_ok cx (summary t)) by by eapply wfne_summary_ok.
  rewrite sum_app_ne, isum_app by (done || by eapply wfne_elements || by eapply summaries_ok || by apply Forall_singleton).
  rewrite IH by done. f_equal. rewrite sum_cons by done. by eapply wfne_summary.
Qed.

Lemma wf_internal_intro cx h s css ts :
  Forall (wfne cx h) ts → css = summary <$> ts →
  s = isum cx (concat (map elements ts)) → 1 ≤ length ts ≤ 2 * TREE_BASE →
  wfne cx (Datatypes.S h) (Internal (Datatypes.S h) s css ts).
Proof. intros HF -> -> Hlen. split; [|done]. simpl. auto. Qed.

Lemma wf_internal_sum cx h ts :
  Forall (wfne cx h) ts → 1 ≤ length ts ≤ 2 * TREE_BASE →
  wfne cx (Datatypes.S h)
    (Internal (Datatypes.S h) (sum_ (summary <$> ts) cx) (summary <$> ts) ts).
Proof. intros. apply wf_internal_intro; try done. by eapply sum_children. Qed.

Lemma wf_leaf_intro cx s iss l :
  iss = (λ i, item_summary_of i cx) <$> l → s = isum cx l →
  1 ≤ length l ≤ 2 * TREE_BASE → wfne cx 0 (Leaf s l iss).
Proof.
  intros -> -> ?. split; [simpl; naive_solver lia|].
  unfold nonempty; simpl. apply bool_decide_eq_false_2. lia.
Qed.

Lemma arrayvec_Some {A} (l : list A) : length l ≤ 2 * TREE_BASE → arrayvec l = Some l.
Proof. intros. unfold arrayvec. by rewrite bool_decide_eq_true_2. Qed.

(** *** Appending *)

(** What [push_tree_recursive] returns: [self] at height [h] and possibly a
    right sibling, holding [l] between them. *)
Definition right_split cx h l (r : SumTree T S * option (SumTree T S)) : Prop :=
  wfne cx h r.1 ∧
  match r.2 with
  | None => elements r.1 = l
  | Some t => wfne cx h t ∧ elements r.1 ++ elements t = l
  end.

(** What [append_large] and [merge_into_right] return: the optional tree is
    the left sibling. *)
Definition left_split cx h l (r : SumTree T S * option (SumTree T S)) : Prop :=
  wfne cx h r.1 ∧
  match r.2 with
  | None => elements r.1 = l
  | Some t => wfne cx h t ∧ elements t ++ elements r.1 = l
  end.

Lemma midpoint_even n :
  2 * TREE_BASE < n ≤ 4 * TREE_BASE →
  let m := (n + n mod 2) / 2 in
  1 ≤ m ≤ 2 * TREE_BASE ∧ 1 ≤ n - m ≤ 2 * TREE_BASE.
Proof.
  intros Hn m. pose proof (Nat.div_mod_eq (n + n mod 2) 2).
  pose proof (Nat.mod_upper_bound n 2). pose proof (Nat.mod_upper_bound (n + n mod 2) 2).
  unfold m, TREE_BASE in *. lia.
Qed.

Lemma midpoint_div_ceil n :
  2 * TREE_BASE < n ≤ 4 * TREE_BASE →
  let m := (n + 1) / 2 in
  1 ≤ m ≤ 2 * TREE_BASE ∧ 1 ≤ n - m ≤ 2 * TREE_BASE.
Proof.
  intros Hn m. pose proof (Nat.div_mod_eq (n + 1) 2).
  pose proof (Nat.mod_upper_bound (n + 1) 2).
  unfold m, TREE_BASE in *. lia.
Qed.

(** Splitting an overfull list of children, or of items, at [m]. *)
Lemma split_children cx h m ts :
  Forall (wfne cx h) ts →
  1 ≤ m ≤ 2 * TREE_BASE → 1 ≤ length ts - m ≤ 2 * TREE_BASE →
  let lt := take m ts in let rt := drop m ts in
  let node ts := Internal (Datatypes.S h) (sum_ (summary <$> ts) cx) (summary <$> ts) ts in
  wfne cx (Datatypes.S h) (node lt) ∧ wfne cx (Datatypes.S h) (node rt) ∧
  elements (node lt) ++ elements (node rt) = concat (map elements ts).
Proof.
  intros HF Hm Hn lt rt node. split; [|split].
  - apply wf_internal_sum; [by apply Forall_take|unfold lt; rewrite length_take; lia].
  - apply wf_internal_sum; [by apply Forall_drop|unfold rt; rewrite length_drop; lia].
  - simpl. rewrite <- concat_app, <- map_app. unfold lt, rt. by rewrite take_drop.
Qed.

Lemma split_items cx m l :
  1 ≤ m ≤ 2 * TREE_BASE → 1 ≤ length l - m ≤ 2 * TREE_BASE →
  let node l := Leaf (isum cx l) l ((λ i, item_summary_of i cx) <$> l) in
  wfne cx 0 (node (take m l)) ∧ wfne cx 0 (node (drop m l)).
Proof.
  intros Hm Hn node. split; apply wf_leaf_intro; try done.
  - rewrite length_take. lia.
  - rewrite length_drop. lia.
Qed.

(** The last step of [push_tree_recursive] at an internal node: the children
    [ts] and the ones to append [ts'], split when over capacity. *)
Lemma push_trees_internal cx h s (ts ts' : list (SumTree T S)) :
  Forall (wfne cx h) ts → Forall (wfne cx h) ts' →
  1 ≤ length ts ≤ 2 * TREE_BASE → length ts' ≤ 2 * TREE_BASE →
  s = isum cx (concat (map elements (ts ++ ts'))) →
  let css := summary <$> ts in let css' := summary <$> ts' in
  let child_count := length ts + length ts' in
  ∃ r, (if bool_decide (2 * TREE_BASE < child_count) then
      let midpoint := (child_count + child_count mod 2) / 2 in
      let all_summaries := css ++ css' in
      left_summaries ← arrayvec (take midpoint all_summaries);
      right_summaries ← arrayvec (drop midpoint all_summaries);
      let all_trees := ts ++ ts' in
      left_trees ← arrayvec (take midpoint all_trees);
      right_trees ← arrayvec (drop midpoint all_trees);
      Some (Internal (Datatypes.S h) (sum_ left_summaries cx) left_summaries left_trees,
            Some (Internal (Datatypes.S h) (sum_ right_summaries cx) right_summaries right_trees))
    else
      css ← arrayvec (css ++ css');
      ts ← arrayvec (ts ++ ts');
      Some (Internal (Datatypes.S h) s css ts, None)) = Some r ∧
    right_split cx (Datatypes.S h) (concat (map elements (ts ++ ts'))) r.
Proof.
  intros Hts Hts' Hl Hl' Hs css css' child_count. unfold css, css', child_count.
  rewrite <- fmap_app, <- length_app.
  assert (HF : Forall (wfne cx h) (ts ++ ts')) by by apply Forall_app_2.
  assert (Hlen : 1 ≤ length (ts ++ ts') ≤ 4 * TREE_BASE) by (rewrite length_app; lia).
  generalize dependent (ts ++ ts'). intros ks Hs HF Hlen. case_bool_decide as Hc.
  - destruct (midpoint_even (length ks)) as [Hm Hn]; [lia|].
    set (m := (length ks + length ks mod 2) / 2) in *.
    simpl. rewrite <- fmap_take, <- fmap_drop.
    rewrite !arrayvec_Some by (rewrite ?length_fmap, ?length_take, ?length_drop; lia). simpl.
    eexists; split; [done|]. destruct (split_children cx h m ks) as (?&?&?); [done..|].
    split; [done|]. split; done.
  - rewrite !arrayvec_Some by (rewrite ?length_fmap; lia). simpl.
    eexists; split; [done|]. split; [|done]. apply wf_internal_intro; try done. lia.
Qed.

Lemma push_items_leaf cx l k :
  1 ≤ length l ≤ 2 * TREE_BASE → 1 ≤ length k ≤ 2 * TREE_BASE →
  let leaf l := Leaf (isum cx l) l ((λ i, item_summary_of i cx) <$> l) in
  ∃ r, push_tree_recursive (leaf l) (leaf k) cx = Some r ∧ right_split cx 0 (l ++ k) r.
Proof.
  intros Hl Hk leaf. simpl. rewrite <- fmap_app, <- length_app.
  assert (Hlen : 1 ≤ length (l ++ k) ≤ 4 * TREE_BASE) by (rewrite length_app; lia).
  assert (Hs : add_summary (isum cx l) (isum cx k) cx = isum cx (l ++ k)).
  { rewrite isum_app; [done|]. intros ->. simpl in *. lia. }
  rewrite Hs. clear Hs. generalize dependent (l ++ k). intros ks Hlen. case_bool_decide as Hc.
  - destruct (midpoint_even (length ks)) as [Hm Hn]; [lia|].
    set (m := (length ks + length ks mod 2) / 2) in *.
    rewrite <- fmap_take, <- fmap_drop.
    rewrite !arrayvec_Some by (rewrite ?length_fmap, ?length_take, ?length_drop; lia). simpl.
    eexists; split; [done|]. destruct (split_items cx m ks) as [??]; [done..|].
    split; [done|]. split; [done|]. apply take_drop.
  - rewrite !arrayvec_Some by (rewrite ?length_fmap; lia). simpl.
    eexists; split; [done|]. split; [|done]. apply wf_leaf_intro; try done. lia.
Qed.

Lemma wfne_leaf_inv cx t :
  wfne cx 0 t → t = Leaf (isum cx (elements t)) (elements t)
                    ((λ i, item_summary_of i cx) <$> elements t) ∧
                1 ≤ length (elements t) ≤ 2 * TREE_BASE.
Proof.
  intros Hwf. pose proof (wfne_elements _ _ _ Hwf) as He. destruct Hwf as [Hwf _].
  destruct t as [|s items iss]; [done|]; simpl in *. destruct Hwf as (->&Hs&?).
  rewrite Hs by done. split; [done|]. destruct items; simpl in *; [done|lia].
Qed.

Lemma wf_internal_inv cx h t :
  wf cx (Datatypes.S h) t →
  ∃ ts, t = Internal (Datatypes.S h) (isum cx (concat (map elements ts))) (summary <$> ts) ts ∧
    Forall (wfne cx h) ts ∧ 1 ≤ length ts ≤ 2 * TREE_BASE.
Proof. destruct t as [h' s css ts|]; simpl; [|done]. intros (->&->&->&?&?). by exists ts. Qed.

Theorem push_tree_recursive_spec cx h self h' other :
  wfne cx h self → wfne cx h' other → h' ≤ h →
  ∃ r, push_tree_recursive self other cx = Some r ∧
    right_split cx h (elements self ++ elements other) r.
Proof.
  revert self h' other. induction h as [|h IH]; intros self h' other Hself Hother Hh.
  { replace h' with 0 in * by lia.
    apply wfne_leaf_inv in Hself as [-> ?], Hother as [-> ?]. by apply push_items_leaf. }
  pose proof (wfne_summary _ _ _ Hother) as Hsum.
  pose proof (wfne_elements _ _ _ Hother) as Hne.
  pose proof (wf_height _ _ _ (proj1 Hother)) as Hheight.
  destruct Hself as [(ts&->&Hts&Hlen)%wf_internal_inv _].
  cbn [push_tree_recursive elements]. rewrite bool_decide_eq_false_2 by lia.
  assert (Hs : add_summary (isum cx (concat (map elements ts))) (summary other) cx =
               isum cx (concat (map elements ts) ++ elements other))
    by by rewrite Hsum, isum_app.
  rewrite Hs, Hheight. clear Hs Hsum.
  case_bool_decide as Hd.
  { replace h' with (Datatypes.S h) in * by lia. destruct Hother as [Hother _].
    apply wf_internal_inv in Hother as (ts'&->&Hts'&?). cbn.
    replace (concat (map elements ts) ++ concat (map elements ts'))
      with (concat (map elements (ts ++ ts'))) by by rewrite map_app, concat_app.
    apply push_trees_internal; done || lia. }
  destruct (bool_decide _ && _) eqn:Hu.
  { apply andb_true_iff in Hu as [Hd1%bool_decide_eq_true _].
    replace h' with h in * by lia. cbn.
    destruct (push_trees_internal cx h
      (isum cx (concat (map elements ts) ++ elements other)) ts [other])
      as (r&Hr&Hsplit); [done|by constructor|done|simpl; unfold TREE_BASE; lia| |].
    { by rewrite map_app, concat_app; simpl; rewrite app_nil_r. }
    exists r. split; [exact Hr|]. rewrite map_app, concat_app in Hsplit; simpl in Hsplit.
    by rewrite app_nil_r in Hsplit. }
  clear Hu. destruct ts as [|t ts _] using rev_ind; [simpl in *; lia|].
  rewrite Forall_app, Forall_singleton in Hts. destruct Hts as [Hts Ht].
  destruct (IH t h' other) as ([t' res]&Hpush&Ht'&Hres); [done..|lia|].
  rewrite modify_last_snoc, Hpush. cbn.
  rewrite last_snoc. cbn.
  change (map summary (ts ++ [t])) with (summary <$> (ts ++ [t])).
  rewrite (fmap_app summary ts [t]). change (summary <$> [t]) with [summary t].
  rewrite set_last_snoc. cbn.
  rewrite length_app in Hlen; simpl in Hlen. simpl in Ht', Hres.
  assert (Hel : concat (map elements (ts ++ [t])) ++ elements other =
                concat (map elements (ts ++ [t'] ++ option_list res))).
  { rewrite !map_app, !concat_app. simpl. rewrite app_nil_r, <- app_assoc. f_equal.
    destruct res as [t''|]; simpl; rewrite ?app_nil_r; naive_solver. }
  rewrite Hel, app_assoc.
  destruct (push_trees_internal cx h
    (isum cx (concat (map elements ((ts ++ [t']) ++ option_list res))))
    (ts ++ [t']) (option_list res)) as (r&Hr&Hsplit);
    [by apply Forall_app_2; [|constructor]| |rewrite length_app; simpl; lia| |done|].
  { destruct res; simpl; [constructor; naive_solver|constructor]. }
  { destruct res; simpl; unfold TREE_BASE; lia. }
  exists r. split; [|done]. rewrite <- Hr, (fmap_app summary ts [t']). by destruct res.
Qed.

Lemma merge_into_right_internal cx h ts ts' :
  let node ts := Internal (Datatypes.S h) (isum cx (concat (map elements ts)))
                   (summary <$> ts) ts in
  Forall (wfne cx h) ts → Forall (wfne cx h) ts' →
  1 ≤ length ts ≤ 2 * TREE_BASE → 1 ≤ length ts' ≤ 2 * TREE_BASE →
  ∃ r, merge_into_right (node ts) (node ts') cx = Some r ∧
    left_split cx (Datatypes.S h) (concat (map elements ts) ++ concat (map elements ts')) r.
Proof.
  intros node Hts Hts' Hl Hl'. cbn -[app fmap].
  assert (HF : Forall (wfne cx h) (ts ++ ts')) by by apply Forall_app_2.
  assert (Hne : concat (map elements ts') ≠ []).
  { apply concat_nonempty; [intros ->; simpl in *; lia|].
    eapply Forall_impl; [exact Hts'|]. intros. by eapply wfne_elements. }
  rewrite <- isum_app, <- concat_app, <- map_app by done.
  rewrite <- (fmap_app summary ts ts'), Nat.add_comm, <- length_app.
  assert (Hlen : 1 ≤ length (ts ++ ts') ≤ 4 * TREE_BASE) by (rewrite length_app; lia).
  clear Hne. generalize dependent (ts ++ ts'). intros ks HF Hlen. case_bool_decide as Hc.
  - rewrite !arrayvec_Some by (rewrite ?length_fmap; lia). simpl.
    eexists; split; [done|]. split; [|done]. apply wf_internal_intro; try done. lia.
  - destruct (midpoint_div_ceil (length ks)) as [Hm Hn]; [lia|].
    set (m := (length ks + 1) / 2) in *.
    rewrite <- fmap_take, <- fmap_drop.
    rewrite !arrayvec_Some by (rewrite ?length_fmap, ?length_take, ?length_drop; lia). simpl.
    eexists; split; [done|]. destruct (split_children cx h m ks) as (?&?&?); [done..|].
    split; [done|]. split; done.
Qed.

Lemma merge_into_right_leaf cx l k :
  1 ≤ length l ≤ 2 * TREE_BASE → 1 ≤ length k ≤ 2 * TREE_BASE →
  let leaf l := Leaf (isum cx l) l ((λ i, item_summary_of i cx) <$> l) in
  ∃ r, merge_into_right (leaf l) (leaf k) cx = Some r ∧ left_split cx 0 (l ++ k) r.
Proof.
  intros Hl Hk leaf. cbn -[app fmap].
  rewrite <- isum_app, <- fmap_app, <- length_app by (intros ->; simpl in *; lia).
  assert (Hlen : 1 ≤ length (l ++ k) ≤ 4 * TREE_BASE) by (rewrite length_app; lia).
  generalize dependent (l ++ k). intros ks Hlen. case_bool_decide as Hc.
  - rewrite !arrayvec_Some by (rewrite ?length_fmap; lia). simpl.
    eexists; split; [done|]. split; [|done]. apply wf_leaf_intro; try done. lia.
  - destruct (midpoint_div_ceil (length ks)) as [Hm Hn]; [lia|].
    set (m := (length ks + 1) / 2) in *. rewrite <- fmap_take, <- fmap_drop.
    rewrite !arrayvec_Some by (rewrite ?length_fmap, ?length_take, ?length_drop; lia). simpl.
    eexists; split; [done|]. destruct (split_items cx m ks) as [??]; [done..|].
    split; [done|]. split; [done|]. apply take_drop.
Qed.

Lemma merge_into_right_spec cx h small large :
  wfne cx h small → wfne cx h large →
  ∃ r, merge_into_right small large cx = Some r ∧
    left_split cx h (elements small ++ elements large) r.
Proof.
  intros Hs Hl. destruct h as [|h].
  - apply wfne_leaf_inv in Hs as [-> ?], Hl as [-> ?]. by apply merge_into_right_leaf.
  - destruct Hs as [(ts&->&?&?)%wf_internal_inv _], Hl as [(ts'&->&?&?)%wf_internal_inv _].
    by apply merge_into_right_internal.
Qed.

Lemma append_large_same cx h small large :
  wfne cx h small → wfne cx h large →
  ∃ r, append_large small large cx = Some r ∧
    left_split cx h (elements small ++ elements large) r.
Proof.
  intros Hs Hl.
  assert (E : append_large small large cx =
    if is_underflowing small then merge_into_right small large cx
    else Some (large, Some small)).
  { destruct Hs as [Hs _], Hl as [Hl _]. apply wf_height in Hs, Hl.
    destruct large; unfold append_large; by rewrite bool_decide_eq_true_2 by congruence. }
  rewrite E. destruct (is_underflowing small); [by apply merge_into_right_spec|].
  eexists; split; [done|]. by split.
Qed.

Lemma append_large_spec cx hs small h large :
  wfne cx hs small → wfne cx h large → hs ≤ h →
  ∃ r, append_large small large cx = Some r ∧
    left_split cx h (elements small ++ elements large) r.
Proof.
  intros Hsmall. revert large. induction h as [|h IH]; intros large Hlarge Hh.
  { replace hs with 0 in * by lia. by apply append_large_same. }
  destruct (decide (hs = Datatypes.S h)) as [->|Hne]; [by apply append_large_same|].
  pose proof (wf_height _ _ _ (proj1 Hsmall)) as Hheight.
  pose proof (wfne_elements _ _ _ Hlarge) as Hel.
  destruct Hlarge as [(ts&->&Hts&Hlen)%wf_internal_inv _].
  cbn -[isum fmap map concat]. rewrite bool_decide_eq_false_2 by lia.
  rewrite (wfne_summary _ _ _ Hsmall). cbn [elements] in *. rewrite <- isum_app by done.
  destruct ts as [|t ts]; [simpl in *; lia|]. apply Forall_cons in Hts as [Ht Hts].
  destruct (IH t) as ([t' res]&Happ&Ht'&Hres); [done|lia|]. simpl in Ht', Hres.
  cbn -[isum]. rewrite Happ. cbn -[isum].
  assert (E : elements small ++ elements t ++ concat (map elements ts) =
              concat (map elements (option_list res ++ t' :: ts))).
  { rewrite map_app, concat_app. simpl.
    destruct res as [t''|]; simpl; rewrite ?app_nil_r, ?app_assoc; destruct_and?; congruence. }
  rewrite E. destruct res as [t''|].
  2: { eexists; split; [done|]. split; [|done].
       apply wf_internal_intro; try done. by constructor. }
  destruct Hres as [Ht'' _]. case_bool_decide as Hc.
  - rewrite !arrayvec_Some by (simpl; rewrite ?length_fmap; simpl in *; lia).
    eexists; split; [done|]. split; [|done].
    apply wf_internal_intro; try done; [by do 2 (apply Forall_cons_2; [done|])|simpl in *; lia].
  - rewrite !arrayvec_Some
      by (rewrite length_cons, length_take; unfold TREE_BASE; lia).
    destruct (split_children cx h (Datatypes.S TREE_BASE) (t'' :: t' :: ts)) as (HL&HR&HE);
      [by do 2 (apply Forall_cons_2; [done|])|unfold TREE_BASE; lia|simpl in *; unfold TREE_BASE in *; lia|].
    refine (ex_intro _ (_, Some _) (conj _ (conj HR (conj HL HE)))).
    change (summary t' :: (summary <$> ts)) with (summary <$> (t' :: ts)).
    by rewrite <- fmap_take, <- fmap_drop.
Qed.

Lemma wf_from_child_trees cx h t1 t2 :
  wfne cx h t1 → wfne cx h t2 →
  wfne cx (Datatypes.S h) (from_child_trees t1 t2 cx) ∧
  elements (from_child_trees t1 t2 cx) = elements t1 ++ elements t2.
Proof.
  intros H1 H2. unfold from_child_trees. rewrite (wf_height cx h t1) by apply H1.
  rewrite Nat.add_1_r. split; [|by simpl; rewrite app_nil_r].
  apply (wf_internal_sum cx h [t1; t2]); [|simpl; unfold TREE_BASE; lia].
  by do 2 (apply Forall_cons_2; [done|]).
Qed.

(** [append] on trees is [++] on their elements. *)
Lemma append_wf cx ha a hb b :
  wf cx ha a → wf cx hb b →
  ∃ t h, append a b cx = Some t ∧ wf cx h t ∧ h ≤ max ha hb + 1 ∧
    elements t = elements a ++ elements b.
Proof.
  intros Ha Hb. unfold append. destruct (is_empty a) eqn:Ea.
  { apply (wf_empty_elements cx ha) in Ea as [-> _]; [|done].
    exists b, hb. split_and!; done || lia. }
  destruct (negb (is_leaf b) || negb (is_empty b)) eqn:Eb.
  2: { apply orb_false_iff in Eb as [_ Eb%negb_false_iff].
       apply (wf_empty_elements cx hb) in Eb as [-> _]; [|done].
       exists a, ha. rewrite app_nil_r. split_and!; done || lia. }
  assert (Hbne : nonempty b).
  { unfold nonempty. destruct b; [done|]. simpl in *. by apply negb_true_iff in Eb. }
  rewrite (wf_height _ _ _ Ha), (wf_height _ _ _ Hb). case_bool_decide as Hlt.
  - destruct (append_large_spec cx ha a hb b) as ([b' [t|]]&->&Hb'&Hres);
      [done..|lia| |]; simpl in *.
    + destruct Hres as [Ht Hel].
      destruct (wf_from_child_trees cx hb t b') as [[??] Hel']; [done..|].
      exists (from_child_trees t b' cx), (Datatypes.S hb).
      split_and!; [done|done|lia|by rewrite Hel'].
    + destruct Hb'. exists b', hb. split_and!; done || lia.
  - destruct (push_tree_recursive_spec cx ha a hb b) as ([a' [t|]]&->&Ha'&Hres);
      [done..|lia| |]; simpl in *.
    + destruct Hres as [Ht Hel].
      destruct (wf_from_child_trees cx ha a' t) as [[??] Hel']; [done..|].
      exists (from_child_trees a' t cx), (Datatypes.S ha).
      split_and!; [done|done|lia|by rewrite Hel'].
    + destruct Ha'. exists a', ha. split_and!; done || lia.
Qed.

Lemma wf_single cx (item : T) :
  wfne cx 0 (Leaf (item_summary_of item cx) [item] [item_summary_of item cx]).
Proof.
  apply wf_leaf_intro; [done| |simpl; unfold TREE_BASE; lia].
  unfold isum. simpl. by rewrite sum_cons by apply item_summary_ok.
Qed.

Lemma wf_new cx : wf cx 0 (new cx : SumTree T S).
Proof. simpl. split; [done|]. split; [done|]. lia. Qed.

Lemma push_wf cx h t item :
  wf cx h t →
  ∃ t' h', push t item cx = Some t' ∧ wf cx h' t' ∧ h' ≤ h + 1 ∧
    elements t' = elements t ++ [item].
Proof.
  intros Ht. destruct (append_wf cx h t 0 _ Ht (proj1 (wf_single cx item)))
    as (t'&h'&?&?&?&?). exists t', h'. split_and!; done || lia.
Qed.

(** *** Bulk construction *)

Lemma iter_leaf_spec cx l :
  l ≠ [] → length l ≤ 2 * TREE_BASE →
  ∃ t, iter_leaf l cx = Some t ∧ wfne cx 0 t ∧ elements t = l.
Proof.
  intros Hne Hl. unfold iter_leaf. rewrite arrayvec_Some by done. cbn.
  destruct l as [|i l]; [done|]. cbn.
  eexists. split; [done|]. split; [|done].
  apply wf_leaf_intro; [done| |simpl in *; lia]. symmetry. apply sum_cons, item_summary_ok.
Qed.

Lemma iter_leaves_spec cx (ls : list (list T)) :
  Forall (λ c, c ≠ [] ∧ length c ≤ 2 * TREE_BASE) ls →
  ∃ ts, mapM (λ items, iter_leaf items cx) ls = Some ts ∧
    Forall (wfne cx 0) ts ∧ concat (map elements ts) = concat ls.
Proof.
  induction 1 as [|l ls [Hne Hl] _ IH].
  { exists []. by split_and!; [|constructor|]. }
  destruct IH as (ts&IH&HF&Hc), (iter_leaf_spec cx l) as (t&Ht&Hwf&Hel); [done..|].
  exists (t :: ts). simpl. rewrite Ht. simpl. rewrite IH.
  split_and!; [done|by constructor|by simpl; rewrite Hel, Hc].
Qed.

(** The state of the inner loop of [from_iter] after the nodes [done_]. *)
Definition level_state cx h done_ (st : option (SumTree T S) * list (SumTree T S)) : Prop :=
  ∃ open closed, done_ = concat closed ++ open ∧
    Forall (λ ts, length ts = 2 * TREE_BASE) closed ∧ length open < 2 * TREE_BASE ∧
    let node ts := Internal (Datatypes.S h) (sum_ (summary <$> ts) cx) (summary <$> ts) ts in
    st.2 = map node closed ∧ st.1 = match open with [] => None | _ => Some (node open) end.

Lemma add_child_node_spec cx h ts t st :
  level_state cx h ts st →
  ∃ st', add_child_node (Datatypes.S h) cx st t = Some st' ∧ level_state cx h (ts ++ [t]) st'.
Proof.
  intros (open&closed&->&Hclosed&Hopen&Hst2&Hst1). destruct st as [cur parents].
  simpl in Hst1, Hst2. subst.
  assert (Hfull : 2 * TREE_BASE = 12) by done.
  assert (E : default (Internal (Datatypes.S h) (summary_zero cx) [] [])
      match open with [] => None | _ =>
        Some (Internal (Datatypes.S h) (sum_ (summary <$> open) cx) (summary <$> open) open) end =
    Internal (Datatypes.S h) (sum_ (summary <$> open) cx) (summary <$> open) open)
    by by destruct open.
  unfold add_child_node. rewrite E. unfold array_push.
  rewrite !arrayvec_Some by (rewrite length_app, ?length_fmap; simpl; lia). simpl.
  assert (Esum : add_summary (sum_ (summary <$> open) cx) (summary t) cx =
                 sum_ (summary <$> (open ++ [t])) cx)
    by by rewrite fmap_app, sum_app.
  rewrite Esum. replace ((summary <$> open) ++ [summary t]) with (summary <$> (open ++ [t]))
    by by rewrite fmap_app.
  eexists. split; [done|]. case_bool_decide as Hc.
  - exists [], (closed ++ [open ++ [t]]). simpl. split_and!; [| |lia| |done].
    + by rewrite concat_app; simpl; rewrite !app_nil_r, app_assoc.
    + by apply Forall_app_2; [|constructor].
    + by rewrite (map_app _ closed).
  - exists (open ++ [t]), closed. rewrite length_app in *; simpl in *.
    split_and!; [by rewrite app_assoc|done|lia|done|by destruct open].
Qed.

(** The parent of a run of nodes. *)
Definition parent_of h cx ts : SumTree T S :=
  Internal h (sum_ (summary <$> ts) cx) (summary <$> ts) ts.

Lemma add_child_nodes_spec cx h ts :
  ∃ st, foldlM (add_child_node (Datatypes.S h) cx) (None, []) ts = Some st ∧
    st.2 ++ option_list st.1 = map (parent_of (Datatypes.S h) cx) (chunks (2 * TREE_BASE) ts).
Proof.
  assert (Hgen : ∀ done_ st, level_state cx h done_ st →
    ∃ st', foldlM (add_child_node (Datatypes.S h) cx) st ts = Some st' ∧
      level_state cx h (done_ ++ ts) st').
  { induction ts as [|t ts IH]; intros done_ st Hst; simpl.
    { exists st. by rewrite app_nil_r. }
    destruct (add_child_node_spec cx h done_ t st) as (st'&->&Hst'); [done|]. simpl.
    destruct (IH _ _ Hst') as (st''&->&?). exists st''. split; [done|].
    by rewrite <- app_assoc in *. }
  destruct (Hgen [] (None, [])) as (st&->&(open&closed&Hdone&Hclosed&Hopen&Hst2&Hst1)).
  { exists [], []. split_and!; try done; simpl; unfold TREE_BASE; lia. }
  exists st. split; [done|]. simpl in Hdone. rewrite Hdone, Hst2, Hst1.
  rewrite chunks_concat by (done || unfold TREE_BASE; lia).
  rewrite map_app. f_equal. by destruct open.
Qed.

Lemma par_parents_spec cx n h ts :
  Forall (wfne cx n) ts →
  mapM (par_parent h cx) (chunks (2 * TREE_BASE) ts) =
  Some (map (parent_of h cx) (chunks (2 * TREE_BASE) ts)).
Proof.
  assert (Hn : 0 < 2 * TREE_BASE) by (unfold TREE_BASE; lia).
  intros Hts. assert (HF := Forall_chunks (2 * TREE_BASE) ts Hn).
  rewrite <- (concat_chunks (2 * TREE_BASE) ts Hn) in Hts.
  induction HF as [|c cs [Hne Hlen] _ IH]; [done|]. simpl in Hts. apply Forall_app in Hts as [Hc Hcs].
  assert (E : par_parent h cx c = Some (parent_of h cx c)).
  { unfold par_parent. rewrite arrayvec_Some by done. destruct Hc as [|t c Ht _]; [done|]. cbn.
    unfold parent_of. rewrite <- sum_cons; [done|]. by eapply wfne_summary_ok. }
  cbn [mapM]. rewrite E, IH by done. done.
Qed.

Lemma levels_unfold fuel cx h ts :
  from_iter_levels (Datatypes.S fuel) h ts cx =
  if bool_decide (length ts ≤ 1) then Some ts
  else from_iter_levels fuel (h + 1)
         (map (parent_of (h + 1) cx) (chunks (2 * TREE_BASE) ts)) cx.
Proof.
  cbn [from_iter_levels]. case_bool_decide; [done|]. rewrite Nat.add_1_r.
  destruct (add_child_nodes_spec cx h ts) as ([cur parents]&->&Heq). simpl in *.
  by rewrite Heq.
Qed.

Lemma parents_wf cx h ts :
  Forall (wfne cx h) ts →
  let ps := map (parent_of (Datatypes.S h) cx) (chunks (2 * TREE_BASE) ts) in
  Forall (wfne cx (Datatypes.S h)) ps ∧
  concat (map elements ps) = concat (map elements ts).
Proof.
  intros HF ps. assert (Hn : 0 < 2 * TREE_BASE) by (unfold TREE_BASE; lia). split.
  - pose proof (Forall_chunks (2 * TREE_BASE) ts Hn) as Hlen.
    rewrite <- (concat_chunks (2 * TREE_BASE) ts Hn) in HF. unfold ps. clear ps.
    induction Hlen as [|c cs [Hne Hlen] _ IH]; [constructor|]. simpl in *.
    apply Forall_app in HF as [HF1 HF2]. constructor; [|by apply IH].
    apply wf_internal_sum; [done|]. destruct c; simpl in *; [done|lia].
  - unfold ps. rewrite <- (concat_chunks (2 * TREE_BASE) ts Hn) at 2. clear.
    induction (chunks _ ts) as [|c cs IH]; [done|]. simpl.
    by rewrite IH, map_app, concat_app.
Qed.

Lemma par_levels_eq fuel cx h ts :
  Forall (wfne cx h) ts →
  from_par_iter_levels fuel h ts cx = from_iter_levels fuel h ts cx.
Proof.
  revert h ts. induction fuel as [|fuel IH]; intros h ts Hts; [done|].
  rewrite levels_unfold. cbn [from_par_iter_levels]. case_bool_decide; [done|].
  rewrite (par_parents_spec cx h) by done. simpl. rewrite Nat.add_1_r. by apply IH, parents_wf.
Qed.

(** The level loop ends with at most one node within its fuel. *)
Lemma levels_spec fuel cx h ts :
  Forall (wfne cx h) ts → length ts ≤ fuel →
  ∃ ts' h', from_iter_levels fuel h ts cx = Some ts' ∧ length ts' ≤ 1 ∧
    Forall (wfne cx h') ts' ∧ concat (map elements ts') = concat (map elements ts).
Proof.
  revert h ts. induction fuel as [|fuel IH]; intros h ts HF Hfuel.
  { exists ts, h. simpl. rewrite bool_decide_eq_true_2 by lia. split_and!; done || lia. }
  rewrite levels_unfold. case_bool_decide as Hlen; [by exists ts, h; split_and!|].
  rewrite Nat.add_1_r.
  destruct (parents_wf cx h ts HF) as [HF' Hel].
  pose proof (length_chunks (2 * TREE_BASE) ts) as Hdec.
  destruct (IH (Datatypes.S h) (map (parent_of (Datatypes.S h) cx) (chunks (2 * TREE_BASE) ts)))
    as (ts'&h'&?&?&?&Hel'); [done| |].
  { rewrite length_map. unfold TREE_BASE in *. lia. }
  exists ts', h'. split_and!; try done. by rewrite Hel', Hel.
Qed.

Lemma from_iter_wf cx l :
  ∃ t h, from_iter l cx = Some t ∧ wf cx h t ∧ elements t = l.
Proof.
  assert (Hn : 0 < 2 * TREE_BASE) by (unfold TREE_BASE; lia).
  destruct (iter_leaves_spec cx (chunks (2 * TREE_BASE) l)) as (ts&Hts&HF&Hel);
    [by apply Forall_chunks|]. rewrite concat_chunks in Hel by done.
  destruct (levels_spec (length ts) cx 0 ts) as (ts'&h'&Hl&Hlen&HF'&Hel'); [done..|].
  unfold from_iter. rewrite Hts. simpl. rewrite Hl. simpl.
  destruct ts' as [|t [|]]; simpl in *; [| |lia].
  - exists (new cx), 0. split_and!; [done|apply wf_new|]. simpl. congruence.
  - apply Forall_singleton in HF' as [??]. exists t, h'.
    split_and!; [done|done|]. rewrite app_nil_r in Hel'. congruence.
Qed.

Lemma from_par_iter_eq cx l : from_par_iter l cx = from_iter l cx.
Proof.
  unfold from_par_iter, from_iter.
  destruct (iter_leaves_spec cx (chunks (2 * TREE_BASE) l)) as (ts&->&HF&_);
    [apply Forall_chunks; unfold TREE_BASE; lia|]. simpl. by rewrite par_levels_eq.
Qed.

(** *** First and last items *)

Lemma leftmost_leaf_spec cx h t :
  wfne cx h t → ∃ leaf, leftmost_leaf t = Some leaf ∧ wfne cx 0 leaf ∧
    ∃ l, elements t = elements leaf ++ l.
Proof.
  revert t. induction h as [|h IH]; intros t Hwf.
  { exists t. split; [by destruct t, Hwf|]. split; [done|]. exists []. by rewrite app_nil_r. }
  destruct Hwf as [(ts&->&HF&Hlen)%wf_internal_inv _].
  destruct ts as [|t ts]; [simpl in *; lia|]. apply Forall_cons in HF as [Ht _].
  destruct (IH t Ht) as (leaf&?&?&l&E). exists leaf. simpl. split; [done|]. split; [done|].
  exists (l ++ concat (map elements ts)). by rewrite E, <- app_assoc.
Qed.

Lemma rightmost_leaf_internal (h : nat) (s : S) (css : list S) ts t :
  rightmost_leaf (Internal h s css (ts ++ [t])) = rightmost_leaf t.
Proof.
  induction ts as [|t' ts IH]; [done|]. simpl in *. rewrite <- IH. by destruct ts.
Qed.

Lemma rightmost_leaf_spec cx h t :
  wfne cx h t → ∃ leaf, rightmost_leaf t = Some leaf ∧ wfne cx 0 leaf ∧
    ∃ l, elements t = l ++ elements leaf.
Proof.
  revert t. induction h as [|h IH]; intros t Hwf.
  { exists t. split; [by destruct t, Hwf|]. split; [done|]. by exists []. }
  destruct Hwf as [(ts&->&HF&Hlen)%wf_internal_inv _].
  destruct ts as [|t ts _] using rev_ind; [simpl in *; lia|].
  rewrite Forall_app, Forall_singleton in HF. destruct HF as [_ Ht].
  destruct (IH t Ht) as (leaf&?&?&l&E). exists leaf. rewrite rightmost_leaf_internal.
  split; [done|]. split; [done|]. exists (concat (map elements ts) ++ l).
  simpl. by rewrite map_app, concat_app, <- app_assoc, <- E; simpl; rewrite app_nil_r.
Qed.

Lemma wf_not_nonempty cx h t : wf cx h t → ¬ nonempty t → ∃ s, t = Leaf s [] [].
Proof.
  intros Hwf Hne. destruct h, t as [|s items iss]; simpl in *; try done.
  destruct Hwf as (->&_&_). unfold nonempty in Hne; simpl in Hne.
    destruct items; [by exists s|done].
Qed.

#[export] Instance nonempty_dec t : Decision (nonempty t).
Proof. unfold nonempty. apply _. Defined.

Lemma first_wf cx h t : wf cx h t → first t = Some (head (elements t)).
Proof.
  intros Hwf. destruct (decide (nonempty t)) as [Hne|Hne].
  - destruct (leftmost_leaf_spec cx h t) as (leaf&E&Hl&l&El); [done|].
    unfold first. rewrite E, El. apply wfne_leaf_inv in Hl as [-> ?]. simpl.
    destruct (elements leaf); simpl in *; [lia|done].
  - by destruct (wf_not_nonempty _ _ _ Hwf Hne) as [s ->].
Qed.

Lemma last_app_ne {A} (l k : list A) : k ≠ [] → list.last (l ++ k) = list.last k.
Proof.
  destruct k as [|a k _] using rev_ind; [done|]. intros _. by rewrite app_assoc, !last_snoc.
Qed.

Lemma last_wf cx h t : wf cx h t → last t = Some (list.last (elements t)).
Proof.
  intros Hwf. destruct (decide (nonempty t)) as [Hne|Hne].
  - destruct (rightmost_leaf_spec cx h t) as (leaf&E&Hl&l&El); [done|].
    unfold last. rewrite E, El, last_app_ne by by eapply wfne_elements.
    by apply wfne_leaf_inv in Hl as [-> ?].
  - by destruct (wf_not_nonempty _ _ _ Hwf Hne) as [s ->].
Qed.

(** *** In-place updates *)

Lemma update_last_recursive_spec cx (f : T → T) h t :
  wfne cx h t →
  ∃ t' l i, update_last_recursive f t cx = Some (t', Some (summary t')) ∧ wfne cx h t' ∧
    elements t = l ++ [i] ∧ elements t' = l ++ [f i].
Proof.
  revert t. induction h as [|h IH]; intros t Hwf.
  - apply wfne_leaf_inv in Hwf as [E Hlen]. rewrite E. clear E.
    destruct (elements t) as [|i l _] using rev_ind; [simpl in *; lia|].
    rewrite fmap_app. cbn. rewrite !last_snoc, !set_last_snoc. cbn.
    eexists (Leaf _ _ _), l, i. split; [reflexivity|]. split; [|done].
    rewrite length_app in Hlen. simpl in Hlen.
    apply wf_leaf_intro; [by rewrite fmap_app| |rewrite length_app; simpl; lia].
    unfold isum. by rewrite fmap_app.
  - destruct Hwf as [(ts&->&HF&Hlen)%wf_internal_inv _].
    destruct ts as [|t ts _] using rev_ind; [simpl in *; lia|].
    rewrite Forall_app, Forall_singleton in HF. destruct HF as [HF Ht].
    destruct (IH t Ht) as (t'&l&i&Hup&Ht'&El&El').
    cbn [update_last_recursive]. rewrite modify_last_snoc, Hup. cbn.
    rewrite (fmap_app summary ts [t]). change (summary <$> [t]) with [summary t].
    rewrite set_last_snoc. cbn -[fmap]. rewrite length_app in Hlen; simpl in Hlen.
    change ((summary <$> ts) ++ [summary t']) with ((summary <$> ts) ++ (summary <$> [t'])).
    rewrite <- (fmap_app summary ts [t']).
    eexists (Internal _ _ _ _), (concat (map elements ts) ++ l), i. split; [reflexivity|]. split.
    + apply wf_internal_sum; [|rewrite length_app; simpl; lia].
      by apply Forall_app_2; [|apply Forall_singleton].
    + simpl. rewrite !map_app, !concat_app. simpl.
      by rewrite El', El, !app_nil_r, !app_assoc.
Qed.

Lemma update_first_recursive_spec cx (f : T → T) h t :
  wfne cx h t →
  ∃ t' l i, update_first_recursive f t cx = Some (t', Some (summary t')) ∧ wfne cx h t' ∧
    elements t = i :: l ∧ elements t' = f i :: l.
Proof.
  revert t. induction h as [|h IH]; intros t Hwf.
  - apply wfne_leaf_inv in Hwf as [E Hlen]. rewrite E. clear E.
    destruct (elements t) as [|i l]; [simpl in *; lia|]. cbn.
    eexists (Leaf _ _ _), l, i. split; [reflexivity|]. split; [|done].
    by apply wf_leaf_intro.
  - destruct Hwf as [(ts&->&HF&Hlen)%wf_internal_inv _].
    destruct ts as [|t ts]; [simpl in *; lia|]. apply Forall_cons in HF as [Ht HF].
    destruct (IH t Ht) as (t'&l&i&Hup&Ht'&El&El').
    cbn [update_first_recursive modify_first]. rewrite Hup. cbn.
    change (summary t' :: (summary <$> ts)) with (summary <$> (t' :: ts)).
    eexists (Internal _ _ _ _), (l ++ concat (map elements ts)), i. split; [reflexivity|]. split.
    + apply (wf_internal_sum cx h (t' :: ts)); [|done]. by apply Forall_cons_2.
    + simpl. by rewrite El', El.
Qed.

Lemma update_last_wf cx (f : T → T) h t :
  wf cx h t → ∃ t', update_last f t cx = Some t' ∧ wf cx h t' ∧
    elements t' = match list.last (elements t) with
                  | Some i => take (length (elements t) - 1) (elements t) ++ [f i]
                  | None => []
                  end.
Proof.
  intros Hwf. unfold update_last. destruct (decide (nonempty t)) as [Hne|Hne].
  - destruct (update_last_recursive_spec cx f h t) as (t'&l&i&->&[? _]&El&El'); [done|].
    exists t'. split; [done|]. split; [done|]. rewrite El, last_snoc, El', length_app. simpl.
    by rewrite take_app_length' by lia.
  - destruct (wf_not_nonempty _ _ _ Hwf Hne) as [s ->]. by exists (Leaf s [] []).
Qed.

Lemma update_first_wf cx (f : T → T) h t :
  wf cx h t → ∃ t', update_first f t cx = Some t' ∧ wf cx h t' ∧
    elements t' = match elements t with i :: l => f i :: l | [] => [] end.
Proof.
  intros Hwf. unfold update_first. destruct (decide (nonempty t)) as [Hne|Hne].
  - destruct (update_first_recursive_spec cx f h t) as (t'&l&i&->&[? _]&El&El'); [done|].
    exists t'. split; [done|]. split; [done|]. by rewrite El, El'.
  - destruct (wf_not_nonempty _ _ _ Hwf Hne) as [s ->]. by exists (Leaf s [] []).
Qed.

(** *** The properties of the tree *)

(** C16: [SumTree::append] never panics on well-formed trees; the result is
    well formed, at most one level higher than the higher of the two, and
    holds the elements of [self] followed by those of [other]. *)
Theorem append_refines_app cx ha a hb b :
  wf cx ha a → wf cx hb b →
  ∃ t h, append a b cx = Some t ∧ wf cx h t ∧ h ≤ max ha hb + 1 ∧
    elements t = elements a ++ elements b.
Proof. apply append_wf. Qed.

(** [SumTree::from_iter] terminates within its fuel, never panics, and
    builds a well-formed tree of exactly the given items; the parallel
    construction builds the same tree; and [extend] appends the items. *)
Theorem from_iter_refines_list cx l :
  (∃ t h, from_iter l cx = Some t ∧ wf cx h t ∧ elements t = l) ∧
  from_par_iter l cx = from_iter l cx ∧
  ∀ h self, wf cx h self →
    ∃ t h', extend self l cx = Some t ∧ wf cx h' t ∧ elements t = elements self ++ l.
Proof.
  split; [apply from_iter_wf|]. split; [apply from_par_iter_eq|].
  intros h self Hself. destruct (from_iter_wf cx l) as (o&ho&E&Ho&El).
  destruct (append_wf cx h self ho o) as (t&h'&?&?&_&El'); [done..|].
  exists t, h'. unfold extend. rewrite E, El' , El. done.
Qed.

(** the cached root summary is the sum of the items' summaries, and
    [first], [last], [update_first] and [update_last] read and update the ends
    of the sequence, keeping the invariant. *)
Theorem tree_ends cx (f : T → T) h t :
  wf cx h t →
  summary t = isum cx (elements t) ∧
  first t = Some (head (elements t)) ∧ last t = Some (list.last (elements t)) ∧
  (∃ t', update_last f t cx = Some t' ∧ wf cx h t' ∧
    elements t' = match list.last (elements t) with
                  | Some i => take (length (elements t) - 1) (elements t) ++ [f i]
                  | None => []
                  end) ∧
  (∃ t', update_first f t cx = Some t' ∧ wf cx h t' ∧
    elements t' = match elements t with i :: l => f i :: l | [] => [] end).
Proof.
  intros Hwf. split_and!.
  - by eapply wf_summary.
  - by eapply first_wf.
  - by eapply last_wf.
  - by apply update_last_wf.
  - by apply update_first_wf.
Qed.
End facts.

(** ** Witnesses

    Trees of numbers summarised by their total. *)

Module Witness.
#[export] Instance total_Summary : Summary nat () := {
  summary_zero := λ _, 0;
  add_summary := λ a b _, a + b
}.
#[export] Instance total_Item : Item nat nat () := λ n _, n.
#[export] Instance total_SummaryLaws : SummaryLaws nat ().
Proof. split; intros; try done; simpl; lia. Qed.
#[export] Instance total_DimensionLaws : DimensionLaws nat nat ().
Proof. intros cx d a b _ _; simpl; lia. Qed.

Definition leaf (l : list nat) : SumTree nat nat := Leaf (foldl Nat.add 0 l) l l.
Definition small : SumTree nat nat :=
  Internal 1 21 [6; 15] [leaf [1; 2; 3]; leaf [4; 5; 6]].
Definition large : SumTree nat nat := leaf (seq 1 12).
End Witness.
Import Witness.

Ltac solve_wf :=
  repeat first [split | constructor | progress cbn]; try reflexivity; try lia; try discriminate.

Lemma append_refines_app_witness :
  ∃ t h, append Witness.large Witness.small () = Some t ∧ wf () h t ∧ h ≤ 2 ∧
    elements t = seq 1 12 ++ seq 1 6.
Proof.
  apply (append_refines_app () 0 Witness.large 1 Witness.small); solve_wf.
Defined.

Lemma from_iter_refines_list_witness :
  ∃ t h, from_iter (seq 1 20) () = Some t ∧ wf () h t ∧ elements t = seq 1 20.
Proof. apply (from_iter_refines_list () (seq 1 20)). Defined.

Lemma tree_ends_witness : last Witness.small = Some (Some 6) ∧ summary Witness.small = 21.
Proof.
  destruct (tree_ends () (λ n, n) 1 Witness.small) as (Hs&_&Hl&_); [solve_wf|].
  rewrite Hs, Hl. split; reflexivity.
Defined.
