(* ===== verification/Search.v ===== *)
(** Seeking in a sequence: what [find] and the cursors compute, on lists.

    A seek skips the items whose end is not yet past the target: with the ends
    accumulated by a dimension, [seek_split] cuts the sequence there.  The
    tree decides on the ends of whole subtrees; that is the same cut when the
    decision is monotone along the sequence ([seek_mono]), which is what an
    ordered dimension provides. *)

From stdpp Require Import base numbers option list.
From S2P Require Import Prelude SumTree SumTreeFacts.

Section seek.
Context {T S Cx D : Type} `{SummaryLaws S Cx, !Item T S Cx, !ItemLaws T S Cx, !Dimension D S Cx}.
Implicit Types (p : D → bool) (d : D) (l k : list T) (cx : Cx) (t : SumTree T S).

(** The position after the items [l], from position [d]. *)
Definition dsum cx d l : D :=
  foldl (λ d i, dim_add_summary d (item_summary_of i cx) cx) d l.

(** [p e]: the seek stops at the item whose end is [e].  The result is the
    items skipped and the items from the stop on. *)
Fixpoint seek_split p cx d l : list T * list T :=
  match l with
  | [] => ([], [])
  | i :: l' =>
      let e := dim_add_summary d (item_summary_of i cx) cx in
      if p e then ([], l)
      else let '(a, b) := seek_split p cx e l' in (i :: a, b)
  end.

Definition seek_mono p cx d l : Prop :=
  ∀ l1 l2 l3, l = l1 ++ l2 ++ l3 → l1 ≠ [] →
    p (dsum cx d l1) = true → p (dsum cx d (l1 ++ l2)) = true.

Lemma dsum_app cx d l k : dsum cx d (l ++ k) = dsum cx (dsum cx d l) k.
Proof. apply foldl_app. Qed.

Lemma dsum_snoc cx d l i :
  dsum cx d (l ++ [i]) = dim_add_summary (dsum cx d l) (item_summary_of i cx) cx.
Proof. by rewrite dsum_app. Qed.

Lemma seek_split_app p cx d l : (seek_split p cx d l).1 ++ (seek_split p cx d l).2 = l.
Proof.
  revert d. induction l as [|i l IH]; intros d; simpl; [done|].
  case_match; [done|]. specialize (IH (dim_add_summary d (item_summary_of i cx) cx)).
  destruct (seek_split _ _ _ l). simpl in *. congruence.
Qed.

Lemma seek_mono_app_l p cx d l k : seek_mono p cx d (l ++ k) → seek_mono p cx d l.
Proof. intros Hm l1 l2 l3 ->. apply (Hm l1 l2 (l3 ++ k)). by rewrite <- !app_assoc. Qed.

Lemma seek_mono_app_r p cx d l k :
  seek_mono p cx d (l ++ k) → seek_mono p cx (dsum cx d l) k.
Proof.
  intros Hm l1 l2 l3 -> Hne Hp. rewrite <- dsum_app, app_assoc.
  apply (Hm (l ++ l1) l2 l3); [by rewrite <- !app_assoc| |by rewrite dsum_app].
  by destruct l.
Qed.

Lemma seek_split_skip p cx d l k :
  seek_mono p cx d (l ++ k) → p (dsum cx d l) = false →
  seek_split p cx d (l ++ k) =
  (l ++ (seek_split p cx (dsum cx d l) k).1, (seek_split p cx (dsum cx d l) k).2).
Proof.
  revert d. induction l as [|i l IH]; intros d Hm Hp; simpl; [by destruct (seek_split _ _ _ k)|].
  destruct (p (dim_add_summary d (item_summary_of i cx) cx)) eqn:E.
  { assert (p (dsum cx d ([i] ++ l)) = true) by by apply (Hm [i] l k). simpl in *. congruence. }
  rewrite IH; [done| |done]. apply (seek_mono_app_r p cx d [i]). done.
Qed.

Lemma seek_split_stop p cx d l k :
  l ≠ [] → p (dsum cx d l) = true →
  seek_split p cx d (l ++ k) = ((seek_split p cx d l).1, (seek_split p cx d l).2 ++ k) ∧
  (seek_split p cx d l).2 ≠ [].
Proof.
  intros Hne. revert d. induction l as [|i l IH]; intros d Hp; [done|]. simpl in *.
  destruct (p (dim_add_summary d (item_summary_of i cx) cx)) eqn:E; [done|].
  destruct l as [|j l]; [simpl in Hp; congruence|].
  destruct (IH ltac:(done) _ Hp) as [IH1 IH2]. rewrite IH1.
  destruct (seek_split _ _ _ (j :: l)). done.
Qed.

(** A subtree whose end the seek passes has the end of its items: what a seek
    needs of a dimension, and all that [DimensionLaws] is needed for. *)
Definition skip_exact p cx d l : Prop :=
  ∀ l1 l2 l3, l = l1 ++ l2 ++ l3 → l2 ≠ [] →
    p (dim_add_summary (dsum cx d l1) (isum cx l2) cx) = false →
    dim_add_summary (dsum cx d l1) (isum cx l2) cx = dsum cx d (l1 ++ l2).

Definition seek_good p cx d l : Prop := seek_mono p cx d l ∧ skip_exact p cx d l.

Lemma seek_good_app_r p cx d l k :
  seek_good p cx d (l ++ k) → seek_good p cx (dsum cx d l) k.
Proof.
  intros [Hm He]. split; [by eapply seek_mono_app_r|]. intros l1 l2 l3 -> Hne Hp.
  rewrite <- dsum_app in Hp. rewrite <- (dsum_app cx d l l1), <- (dsum_app cx d l (l1 ++ l2)), app_assoc.
  apply (He (l ++ l1) l2 l3); [|done|done]. by rewrite <- !app_assoc.
Qed.

Lemma seek_good_skip p cx d l k :
  seek_good p cx d (l ++ k) → l ≠ [] → p (dim_add_summary d (isum cx l) cx) = false →
  dim_add_summary d (isum cx l) cx = dsum cx d l ∧ p (dsum cx d l) = false.
Proof.
  intros [_ He] Hne Hp. assert (E : dim_add_summary d (isum cx l) cx = dsum cx d l) by by apply (He [] l k).
  split; [done|]. by rewrite <- E.
Qed.

Context `{!DimensionLaws D S Cx}.

Lemma dsum_isum cx d l : l ≠ [] → dim_add_summary d (isum cx l) cx = dsum cx d l.
Proof.
  destruct l as [|i l]; [done|]. intros _. unfold isum, sum_, dsum. simpl.
  rewrite add_summary_zero_l by apply item_summary_ok.
  generalize (item_summary_ok cx i). generalize (item_summary_of i cx). clear i.
  induction l as [|i l IH]; intros s Hs; simpl; [done|].
  rewrite IH by (apply summary_ok_add; [done|apply item_summary_ok]).
  by rewrite dim_add_add by (done || apply item_summary_ok).
Qed.

Lemma dsum_summary cx h d t :
  wfne cx h t → dim_add_summary d (summary t) cx = dsum cx d (elements t).
Proof.
  intros Hwf. rewrite (wfne_summary _ _ _ Hwf). apply dsum_isum. by eapply wfne_elements.
Qed.

Lemma seek_good_mono p cx d l : seek_mono p cx d l → seek_good p cx d l.
Proof. intros Hm. split; [done|]. intros l1 l2 l3 _ Hne _. by rewrite dsum_isum, dsum_app. Qed.

(** *** [find] and [find_with_prev] *)

Context {Target : Type} `{!SeekTarget Target D Cx}.

Definition stops cx (target : Target) (bias : Bias) (e : D) : bool :=
  target_in_child (target_cmp target e cx) bias.

(** What a search returns, from the cut of the sequence. *)
Definition cut_result cx d (prev : option T) (ab : list T * list T)
    : D * option (option T * T * D) :=
  let '(a, b) := ab in
  (dsum cx d a,
   match b with
   | [] => None
   | i :: _ => Some (match list.last a with Some j => Some j | None => prev end,
                     i, dsum cx d (a ++ [i]))
   end).

Lemma find_leaf_spec cx target bias d prev l :
  find_leaf false cx target bias d prev l ((λ i, item_summary_of i cx) <$> l) =
  cut_result cx d prev (seek_split (stops cx target bias) cx d l).
Proof.
  revert d prev. induction l as [|i l IH]; intros d prev; simpl; [done|].
  unfold stops at 1. case_match; [done|].
  fold (fmap (M:=list) (λ i, item_summary_of i cx) l). rewrite IH.
  destruct (seek_split _ _ _ l) as [a b]. unfold cut_result. simpl. f_equal.
  destruct b; [done|]. repeat f_equal. by destruct a using rev_ind; [|rewrite last_cons, last_snoc].
Qed.

Lemma find_with_prev_iterate_spec cx target bias h d prev t :
  wf cx h t → seek_mono (stops cx target bias) cx d (elements t) →
  find_with_prev_iterate false cx target bias d prev t =
  Some (cut_result cx d prev (seek_split (stops cx target bias) cx d (elements t))).
Proof.
  revert d prev t. induction h as [|h IH]; intros d prev t Hwf Hm.
  { destruct t as [|s items iss]; [done|]. destruct Hwf as (->&_&_). simpl.
    f_equal. apply find_leaf_spec. }
  apply wf_internal_inv in Hwf as (ts&->&HF&_). simpl in *.
  revert d prev Hm. induction HF as [|t ts Ht HF IHts]; intros d prev Hm; [done|].
  cbn [fmap list_fmap map concat] in *. unfold with_added_summary.
  rewrite (dsum_summary _ _ _ _ Ht).
  destruct (target_in_child (target_cmp target (dsum cx d (elements t)) cx) bias) eqn:E.
  - rewrite IH; [|apply Ht|by eapply seek_mono_app_l].
    destruct (seek_split_stop (stops cx target bias) cx d (elements t)
      (concat (map elements ts))) as [-> Hne]; [by eapply wfne_elements|done|].
    destruct (seek_split _ _ _ (elements t)) as [a b]. simpl in *. by destruct b.
  - rewrite (last_wf cx h) by apply Ht. simpl.
    rewrite IHts by by eapply seek_mono_app_r. f_equal.
    rewrite seek_split_skip by done.
    destruct (seek_split _ _ _ (concat _)) as [a b]. simpl.
    rewrite <- dsum_app. f_equal. destruct b as [|i b]; [done|].
    rewrite <- dsum_app, <- app_assoc. repeat f_equal.
    pose proof (wfne_elements _ _ _ Ht).
    destruct a as [|j a _] using rev_ind; rewrite ?app_nil_r, ?app_assoc, ?last_snoc; [|done].
    by destruct (elements t) using rev_ind; [|rewrite last_snoc].
Qed.

(** [find_iterate] is [find_with_prev_iterate] without the previous item. *)
Definition drop_prev (r : D * option (option T * T * D)) : D * option (T * D) :=
  (r.1, (λ x, (x.1.2, x.2)) <$> r.2).

Lemma find_leaf_prev exact cx (target : Target) bias d prev prev' l (iss : list S) :
  drop_prev (find_leaf exact cx target bias d prev l iss) =
  drop_prev (find_leaf exact cx target bias d prev' l iss).
Proof.
  revert d prev prev' iss. induction l as [|i l IH]; intros d prev prev' [|s iss]; simpl; try done.
  by case_match.
Qed.

Lemma find_iterate_drop_prev exact cx (target : Target) bias h d prev t r :
  wf cx h t → find_with_prev_iterate exact cx target bias d prev t = Some r →
  find_iterate exact cx target bias d t = drop_prev r.
Proof.
  revert d prev t. induction h as [|h IH]; intros d prev t Hwf Hr.
  { destruct t as [|s items iss]; [done|]. simpl in *. simplify_eq.
    rewrite (find_leaf_prev _ _ _ _ _ prev None). by destruct (find_leaf _ _ _ _ _ None _ _). }
  apply wf_internal_inv in Hwf as (ts&->&HF&_). simpl in *.
  revert d prev Hr. induction HF as [|t ts Ht HF IHts]; intros d prev Hr; [by simplify_eq|].
  cbn [fmap list_fmap] in *.
  destruct (target_in_child _ _); [by eapply IH; [apply Ht|]|].
  rewrite (last_wf cx h) in Hr by apply Ht. simpl in Hr. eauto.
Qed.

Lemma find_iterate_spec cx target bias h d t :
  wf cx h t → seek_mono (stops cx target bias) cx d (elements t) →
  find_iterate false cx target bias d t =
  drop_prev (cut_result cx d None (seek_split (stops cx target bias) cx d (elements t))).
Proof. intros. eapply find_iterate_drop_prev; [done|]. by eapply find_with_prev_iterate_spec. Qed.

(** *** Exact search *)

Definition stops_before cx (target : Target) (e : D) : bool :=
  match target_cmp target e cx with Lt => true | _ => false end.

(** The item at the cut, when the target is exactly its end. *)
Definition exact_item cx (target : Target) d (ab : list T * list T) : option T :=
  let '(a, b) := ab in
  match b with
  | i :: _ => match target_cmp target (dsum cx d (a ++ [i])) cx with Eq => Some i | _ => None end
  | [] => None
  end.

Lemma find_leaf_exact_lt cx (target : Target) d prev l :
  (∀ l1 l2, l = l1 ++ l2 → l1 ≠ [] → target_cmp target (dsum cx d l1) cx = Lt) →
  (find_leaf true cx target Left d prev l ((λ i, item_summary_of i cx) <$> l)).2 = None.
Proof.
  revert d prev. induction l as [|i l IH]; intros d prev Hlt; [done|]. simpl.
  assert (E : target_cmp target (dim_add_summary d (item_summary_of i cx) cx) cx = Lt)
    by by apply (Hlt [i] l). unfold entry_found. rewrite E.
  apply IH. intros l1 l2 -> Hne. by apply (Hlt (i :: l1) l2).
Qed.

Lemma find_leaf_exact_spec cx target d prev l :
  seek_mono (stops_before cx target) cx d l →
  (λ x, x.1.2) <$> (find_leaf true cx target Left d prev l
                      ((λ i, item_summary_of i cx) <$> l)).2 =
  exact_item cx target d (seek_split (stops cx target Left) cx d l).
Proof.
  revert d prev. induction l as [|i l IH]; intros d prev Hm; [done|]. simpl.
  unfold stops at 1, entry_found, target_in_child.
  destruct (target_cmp target (dim_add_summary d (item_summary_of i cx) cx) cx) eqn:E; simpl.
  - by rewrite E.
  - rewrite E. rewrite find_leaf_exact_lt; [done|].
    intros l1 l2 -> Hne. specialize (Hm [i] l1 l2 eq_refl ltac:(done)).
    unfold stops_before in Hm. simpl in Hm. rewrite E in Hm.
    by destruct (target_cmp target _ cx); [specialize (Hm eq_refl)..].
  - fold (fmap (M:=list) (λ i, item_summary_of i cx) l). rewrite IH.
    + by destruct (seek_split _ _ _ l) as [a [|j b]].
    + by apply (seek_mono_app_r _ _ _ [i]).
Qed.

Lemma exact_item_skip cx (target : Target) d l a b :
  exact_item cx target d (l ++ a, b) = exact_item cx target (dsum cx d l) (a, b).
Proof. simpl. destruct b; [done|]. by rewrite <- app_assoc, dsum_app. Qed.

Lemma find_iterate_exact_spec cx target h d t :
  wf cx h t →
  seek_mono (stops cx target Left) cx d (elements t) →
  seek_mono (stops_before cx target) cx d (elements t) →
  fst <$> (find_iterate true cx target Left d t).2 =
  exact_item cx target d (seek_split (stops cx target Left) cx d (elements t)).
Proof.
  revert d t. induction h as [|h IH]; intros d t Hwf Hm Hm'.
  { destruct t as [|s items iss]; [done|]. destruct Hwf as (->&_&_). simpl.
    rewrite <- (find_leaf_exact_spec cx target d None) by done.
    destruct (find_leaf _ _ _ _ _ _ _ _) as [? [[[]]|]]; done. }
  apply wf_internal_inv in Hwf as (ts&->&HF&_). simpl in *.
  revert d Hm Hm'. induction HF as [|t ts Ht HF IHts]; intros d Hm Hm'; [done|].
  cbn [fmap list_fmap map concat] in *. unfold with_added_summary.
  rewrite (dsum_summary _ _ _ _ Ht).
  destruct (target_in_child (target_cmp target (dsum cx d (elements t)) cx) Left) eqn:E.
  - rewrite IH; [|apply Ht|by eapply seek_mono_app_l..].
    destruct (seek_split_stop (stops cx target Left) cx d (elements t)
      (concat (map elements ts))) as [-> Hne]; [by eapply wfne_elements|done|].
    destruct (seek_split _ _ _ (elements t)) as [a b]. simpl in *. by destruct b.
  - rewrite IHts by by eapply seek_mono_app_r.
    rewrite seek_split_skip by done. rewrite exact_item_skip. by destruct (seek_split _ _ _ _).
Qed.

(** *** The whole searches *)

Lemma past_end_stops cx (target : Target) bias e :
  past_end (target_cmp target e cx) bias = negb (stops cx target bias e).
Proof. unfold past_end, stops, target_in_child. by destruct (target_cmp target e cx), bias. Qed.

Lemma seek_split_all p cx d l :
  seek_mono p cx d l → p (dsum cx d l) = false → seek_split p cx d l = (l, []).
Proof.
  intros Hm Hp. rewrite <- (app_nil_r l) at 1. rewrite seek_split_skip; [|by rewrite app_nil_r|done].
  simpl. by rewrite app_nil_r.
Qed.

Lemma find_spec cx (target : Target) bias h t :
  wf cx h t → elements t ≠ [] →
  seek_mono (stops cx target bias) cx (dim_zero cx) (elements t) →
  let '(a, b) := seek_split (stops cx target bias) cx (dim_zero cx) (elements t) in
  let pos := dsum cx (dim_zero cx) a in
  let end_ := match b with [] => pos | i :: _ => dsum cx (dim_zero cx) (a ++ [i]) end in
  find t cx target bias = (pos, end_, head b) ∧
  find_with_prev t cx target bias =
    Some (pos, end_, match b with [] => None | i :: _ => Some (list.last a, i) end).
Proof.
  intros Hwf Hne Hm.
  assert (Hend : with_added_summary (dim_zero cx) (summary t) cx =
                 dsum cx (dim_zero cx) (elements t)).
  { apply (dsum_summary cx h). split; [done|]. by eapply wf_nonempty_elements. }
  unfold find, find_generic, find_with_prev. rewrite Hend, past_end_stops.
  destruct (stops cx target bias _) eqn:E; simpl.
  - rewrite (find_iterate_spec _ _ _ h), (find_with_prev_iterate_spec _ _ _ h) by done.
    destruct (seek_split _ _ _ _) as [a [|i b]]; simpl; [done|].
    by destruct (list.last a).
  - by rewrite seek_split_all.
Qed.

Lemma find_exact_spec cx (target : Target) h t :
  wf cx h t → elements t ≠ [] →
  seek_mono (stops cx target Left) cx (dim_zero cx) (elements t) →
  seek_mono (stops_before cx target) cx (dim_zero cx) (elements t) →
  (find_exact t cx target Left).2 =
  exact_item cx target (dim_zero cx)
    (seek_split (stops cx target Left) cx (dim_zero cx) (elements t)).
Proof.
  intros Hwf Hne Hm Hm'.
  assert (Hend : with_added_summary (dim_zero cx) (summary t) cx =
                 dsum cx (dim_zero cx) (elements t)).
  { apply (dsum_summary cx h). split; [done|]. by eapply wf_nonempty_elements. }
  unfold find_exact, find_generic. rewrite Hend, past_end_stops.
  destruct (stops cx target Left _) eqn:E; simpl.
  - rewrite <- (find_iterate_exact_spec _ _ h) by done.
    by destruct (find_iterate _ _ _ _ _ _) as [? [[]|]].
  - by rewrite seek_split_all.
Qed.

(** An empty tree, whose cached summary may be anything. *)
Lemma find_generic_empty exact cx (target : Target) bias h t :
  wf cx h t → elements t = [] → (find_generic exact t cx target bias).2 = None.
Proof.
  intros Hwf Hel. assert (∃ s, t = Leaf s [] []) as [s ->].
  { apply (wf_not_nonempty cx h); [done|]. intros Hne.
    by apply (wf_nonempty_elements cx h) in Hne. }
  unfold find_generic. by destruct (past_end _ _).
Qed.

(** C30: [SumTree::find] and [find_with_prev] descend by subtree ends, and
    return what scanning the items one by one returns: the position before the
    first item whose end reaches the target, its end, the item and the one
    before it; they never panic. *)
Theorem find_refines_scan cx (target : Target) bias h t :
  wf cx h t → elements t ≠ [] →
  seek_mono (stops cx target bias) cx (dim_zero cx) (elements t) →
  let '(a, b) := seek_split (stops cx target bias) cx (dim_zero cx) (elements t) in
  let pos := dsum cx (dim_zero cx) a in
  let end_ := match b with [] => pos | i :: _ => dsum cx (dim_zero cx) (a ++ [i]) end in
  find t cx target bias = (pos, end_, head b) ∧
  find_with_prev t cx target bias =
    Some (pos, end_, match b with [] => None | i :: _ => Some (list.last a, i) end).
Proof. apply find_spec. Qed.

(** [SumTree::find_exact] with a left bias returns an item exactly when
    the target is its end. *)
Theorem find_exact_refines_scan cx (target : Target) h t :
  wf cx h t → elements t ≠ [] →
  seek_mono (stops cx target Left) cx (dim_zero cx) (elements t) →
  seek_mono (stops_before cx target) cx (dim_zero cx) (elements t) →
  (find_exact t cx target Left).2 =
  exact_item cx target (dim_zero cx)
    (seek_split (stops cx target Left) cx (dim_zero cx) (elements t)).
Proof. apply find_exact_spec. Qed.
End seek.
