(* ===== verification/Cursor.v ===== *)
(** Cursors over a tree: [crates/sum_tree/src/cursor.rs].

    A cursor keeps the path from the root to a leaf as a stack of entries, top
    first here, and the position of the items before it.  The loops of the
    code are fuelled by [stack_fuel], the number of nodes they can still visit.
    The stack holds 16 entries: pushing a seventeenth panics. *)

From stdpp Require Import base numbers option list.
From S2P Require Import Prelude SumTree.

Record StackEntry (T S D : Type) := mkEntry {
  entry_tree : SumTree T S;
  entry_index : nat;
  entry_position : D
}.
Arguments mkEntry {T S D} _ _ _.
Arguments entry_tree {T S D} _.
Arguments entry_index {T S D} _.
Arguments entry_position {T S D} _.

Record Cursor (T S D Cx : Type) := mkCursor {
  cursor_tree : SumTree T S;
  cursor_stack : list (StackEntry T S D);
  position : D;
  did_seek : bool;
  at_end : bool;
  cursor_cx : Cx
}.
Arguments mkCursor {T S D Cx} _ _ _ _ _ _.
Arguments cursor_tree {T S D Cx} _.
Arguments cursor_stack {T S D Cx} _.
Arguments position {T S D Cx} _.
Arguments did_seek {T S D Cx} _.
Arguments at_end {T S D Cx} _.
Arguments cursor_cx {T S D Cx} _.

Definition STACK_CAPACITY : nat := 16.

Definition stack_push {A} (e : A) (stack : list A) : option (list A) :=
  if bool_decide (length stack < STACK_CAPACITY) then Some (e :: stack) else None.

(** [v[i..]]: panics past the end. *)
Definition slice_from {A} (i : nat) (v : list A) : option (list A) :=
  if bool_decide (i ≤ length v) then Some (drop i v) else None.

(** The loop iterations a subtree can take once it is on the stack. *)
Fixpoint weight {T S} (t : SumTree T S) : nat :=
  match t with
  | Leaf _ _ _ => 1
  | Internal _ _ _ cts => 1 + list_sum (map (λ t, 1 + weight t) cts)
  end.

Definition stack_fuel {T S D} (stack : list (StackEntry T S D)) : nat :=
  list_sum (map (λ e, weight (entry_tree e)) stack).

(** ** Aggregates: what a seek builds from what it passes *)

Class SeekAggregate (A T S Cx : Type) := {
  begin_leaf : A → A;
  end_leaf : A → Cx → option A;
  push_item : A → T → S → Cx → option A;
  push_tree : A → SumTree T S → S → Cx → option A
}.
#[export] Hint Mode SeekAggregate ! - - - : typeclass_instances.

#[export] Instance unit_SeekAggregate {T S Cx} : SeekAggregate () T S Cx := {
  begin_leaf := λ a, a;
  end_leaf := λ a _, Some a;
  push_item := λ a _ _ _, Some a;
  push_tree := λ a _ _ _, Some a
}.

Record SliceSeekAggregate (T S : Type) := mkSlice {
  slice_tree : SumTree T S;
  leaf_items : list T;
  leaf_item_summaries : list S;
  leaf_summary : S
}.
Arguments mkSlice {T S} _ _ _ _.
Arguments slice_tree {T S} _.
Arguments leaf_items {T S} _.
Arguments leaf_item_summaries {T S} _.
Arguments leaf_summary {T S} _.

#[export] Instance Slice_SeekAggregate {T S Cx} `{Summary S Cx} :
  SeekAggregate (SliceSeekAggregate T S) T S Cx := {
  begin_leaf := λ a, a;
  end_leaf := λ a cx,
    tree ← append (slice_tree a) (Leaf (leaf_summary a) (leaf_items a) (leaf_item_summaries a)) cx;
    Some (mkSlice tree [] [] (summary_zero cx));
  push_item := λ a item item_summary cx,
    leaf_items' ← array_push (leaf_items a) item;
    leaf_item_summaries' ← array_push (leaf_item_summaries a) item_summary;
    Some (mkSlice (slice_tree a) leaf_items' leaf_item_summaries'
            (add_summary (leaf_summary a) item_summary cx));
  push_tree := λ a tree _ cx,
    tree' ← append (slice_tree a) tree cx;
    Some (mkSlice tree' (leaf_items a) (leaf_item_summaries a) (leaf_summary a))
}.

(** The wrapped dimension of a [SummarySeekAggregate]. *)
Record SummarySeekAggregate (D : Type) := mkSummaryAggregate { aggregate_dim : D }.
Arguments mkSummaryAggregate {D} _.
Arguments aggregate_dim {D} _.

#[export] Instance Summary_SeekAggregate {T S Cx D} `{Dimension D S Cx} :
  SeekAggregate (SummarySeekAggregate D) T S Cx := {
  begin_leaf := λ a, a;
  end_leaf := λ a _, Some a;
  push_item := λ a _ s cx, Some (mkSummaryAggregate (dim_add_summary (aggregate_dim a) s cx));
  push_tree := λ a _ s cx, Some (mkSummaryAggregate (dim_add_summary (aggregate_dim a) s cx))
}.

(** The target past every position. *)
Inductive End := End_new.
#[export] Instance End_SeekTarget {D Cx} : SeekTarget End D Cx := λ _ _ _, Gt.

Section cursor.
Context {T S D Cx : Type} `{Summary S Cx, Item T S Cx, !Dimension D S Cx}.
Implicit Types (c : Cursor T S D Cx) (t : SumTree T S) (e : StackEntry T S D)
  (stack : list (StackEntry T S D)) (cx : Cx).

Definition cursor_new (tree : SumTree T S) cx : Cursor T S D Cx :=
  mkCursor tree [] (dim_zero cx) false (is_empty tree) cx.

Definition reset c : Cursor T S D Cx :=
  mkCursor (cursor_tree c) [] (dim_zero (cursor_cx c)) false (is_empty (cursor_tree c))
    (cursor_cx c).

Definition start c : D := position c.

(** [items[index]] of the top entry; the outer [None] is a panic. *)
Definition item c : option (option T) :=
  _ ← assert_ (did_seek c);
  match cursor_stack c with
  | [] => Some None
  | entry :: _ =>
      items ← node_items (entry_tree entry);
      if bool_decide (entry_index entry = length items) then Some None
      else item ← items !! entry_index entry; Some (Some item)
  end.

Definition cursor_item_summary c : option (option S) :=
  _ ← assert_ (did_seek c);
  match cursor_stack c with
  | [] => Some None
  | entry :: _ =>
      match entry_tree entry with
      | Leaf _ _ item_summaries =>
          if bool_decide (entry_index entry = length item_summaries) then Some None
          else s ← item_summaries !! entry_index entry; Some (Some s)
      | Internal _ _ _ _ => None
      end
  end.

Definition end_ c : option D :=
  s ← cursor_item_summary c;
  Some match s with
       | Some item_summary => dim_add_summary (start c) item_summary (cursor_cx c)
       | None => start c
       end.

(** The entries under the top one, nearest first. *)
Fixpoint next_leaf (entries : list (StackEntry T S D)) : option (option (SumTree T S)) :=
  match entries with
  | [] => Some None
  | entry :: entries =>
      cts ← child_trees (entry_tree entry);
      if bool_decide (entry_index entry < length cts - 1) then
        child ← cts !! (entry_index entry + 1);
        Some <$> leftmost_leaf child
      else next_leaf entries
  end.

Definition next_item c : option (option T) :=
  _ ← assert_ (did_seek c);
  match cursor_stack c with
  | entry :: below =>
      items ← node_items (entry_tree entry);
      if bool_decide (entry_index entry + 1 = length items) then
        leaf ← next_leaf below;
        match leaf with
        | Some leaf => items ← node_items leaf; i ← head items; Some (Some i)
        | None => Some None
        end
      else i ← items !! (entry_index entry + 1); Some (Some i)
  | [] => if at_end c then Some None else first (cursor_tree c)
  end.

Fixpoint prev_leaf (entries : list (StackEntry T S D)) : option (option (SumTree T S)) :=
  match entries with
  | [] => Some None
  | entry :: entries =>
      if bool_decide (entry_index entry = 0) then prev_leaf entries
      else
        cts ← child_trees (entry_tree entry);
        child ← cts !! (entry_index entry - 1);
        Some <$> rightmost_leaf child
  end.

Definition prev_item c : option (option T) :=
  _ ← assert_ (did_seek c);
  match cursor_stack c with
  | entry :: below =>
      if bool_decide (entry_index entry = 0) then
        leaf ← prev_leaf below;
        match leaf with
        | Some leaf => items ← node_items leaf; i ← list.last items; Some (Some i)
        | None => Some None
        end
      else
        items ← node_items (entry_tree entry);
        i ← items !! (entry_index entry - 1); Some (Some i)
  | [] => if at_end c then last (cursor_tree c) else Some None
  end.
End cursor.

(** ** Seeking *)

Section seek.
Context {T S D Cx Target A : Type} `{Summary S Cx, Item T S Cx, !Dimension D S Cx,
  !SeekTarget Target D Cx, !SeekAggregate A T S Cx}.
Implicit Types (c : Cursor T S D Cx) (t : SumTree T S)
  (stack : list (StackEntry T S D)) (cx : Cx).

(** The loop over the remaining children of an internal node: the entry's
    index and position, the cursor's position, the aggregate, and the child to
    descend into, if any. *)
Fixpoint seek_children (target : Target) (bias : Bias) cx (cts : list (SumTree T S))
    (css : list S) (index : nat) (entry_position position : D) (aggregate : A)
    : option (nat * D * D * A * option (SumTree T S)) :=
  match cts, css with
  | child_tree :: cts, child_summary :: css =>
      let child_end := dim_add_summary position child_summary cx in
      if past_end (target_cmp target child_end cx) bias then
        aggregate ← push_tree aggregate child_tree child_summary cx;
        seek_children target bias cx cts css (index + 1) child_end child_end aggregate
      else Some (index, entry_position, position, aggregate, Some child_tree)
  | _, _ => Some (index, entry_position, position, aggregate, None)
  end.

(** The loop over the remaining items of a leaf; the boolean is [true] when
    the seek stopped at an item. *)
Fixpoint seek_items (target : Target) (bias : Bias) cx (items : list T)
    (item_summaries : list S) (index : nat) (position : D) (aggregate : A)
    : option (nat * D * A * bool) :=
  match items, item_summaries with
  | item :: items, item_summary :: item_summaries =>
      let child_end := dim_add_summary position item_summary cx in
      if past_end (target_cmp target child_end cx) bias then
        aggregate ← push_item aggregate item item_summary cx;
        seek_items target bias cx items item_summaries (index + 1) child_end aggregate
      else Some (index, position, aggregate, true)
  | _, _ => Some (index, position, aggregate, false)
  end.

Fixpoint seek_loop (fuel : nat) (target : Target) (bias : Bias) cx (ascending : bool)
    stack (position : D) (aggregate : A)
    : option (list (StackEntry T S D) * D * A) :=
  match stack with
  | [] => Some ([], position, aggregate)
  | mkEntry tree index entry_position :: below =>
      match fuel with
      | O => None
      | Datatypes.S fuel =>
          match tree with
          | Internal _ _ child_summaries child_trees =>
              let index := if ascending then index + 1 else index in
              let entry_position := if ascending then position else entry_position in
              cts ← slice_from index child_trees;
              css ← slice_from index child_summaries;
              '(index, entry_position, position, aggregate, child) ←
                seek_children target bias cx cts css index entry_position position aggregate;
              match child with
              | Some child_tree =>
                  stack ← stack_push (mkEntry child_tree 0 position)
                            (mkEntry tree index entry_position :: below);
                  seek_loop fuel target bias cx false stack position aggregate
              | None => seek_loop fuel target bias cx true below position aggregate
              end
          | Leaf _ items item_summaries =>
              let aggregate := begin_leaf (T:=T) (S:=S) (Cx:=Cx) aggregate in
              its ← slice_from index items;
              iss ← slice_from index item_summaries;
              '(index, position, aggregate, stopped) ←
                seek_items target bias cx its iss index position aggregate;
              aggregate ← end_leaf (T:=T) (S:=S) aggregate cx;
              if (stopped : bool) then
                Some (mkEntry tree index entry_position :: below, position, aggregate)
              else seek_loop fuel target bias cx true below position aggregate
          end
      end
  end.

(** Returns the cursor, the aggregate and whether the target was found. *)
Definition seek_internal c (target : Target) (bias : Bias) (aggregate : A)
    : option (Cursor T S D Cx * A * bool) :=
  let cx := cursor_cx c in
  _ ← assert_ (match target_cmp target (position c) cx with Lt => false | _ => true end);
  stack ← (if did_seek c then Some (cursor_stack c)
           else stack_push (mkEntry (cursor_tree c) 0 (dim_zero cx)) (cursor_stack c));
  '(stack, position, aggregate) ←
    seek_loop (stack_fuel stack) target bias cx false stack (position c) aggregate;
  let at_end := match stack with [] => true | _ => false end in
  let c := mkCursor (cursor_tree c) stack position true at_end cx in
  end_ ← (if bool_decide (bias = Left) then
            s ← cursor_item_summary c;
            Some match s with
                 | Some summary => dim_add_summary position summary cx
                 | None => position
                 end
          else Some position);
  Some (c, aggregate, match target_cmp target end_ cx with Eq => true | _ => false end).
End seek.

Section seek_api.
Context {T S D Cx : Type} `{Summary S Cx, Item T S Cx, !Dimension D S Cx}.
Implicit Types (c : Cursor T S D Cx).

Definition seek {Target} `{!SeekTarget Target D Cx} c (pos : Target) (bias : Bias)
    : option (Cursor T S D Cx * bool) :=
  '(c, _, found) ← seek_internal (reset c) pos bias (); Some (c, found).

Definition seek_forward {Target} `{!SeekTarget Target D Cx} c (pos : Target) (bias : Bias)
    : option (Cursor T S D Cx * bool) :=
  '(c, _, found) ← seek_internal c pos bias (); Some (c, found).

Definition slice {Target} `{!SeekTarget Target D Cx} c (end_ : Target) (bias : Bias)
    : option (Cursor T S D Cx * SumTree T S) :=
  let cx := cursor_cx c in
  '(c, aggregate, _) ←
    seek_internal c end_ bias (mkSlice (new cx) [] [] (summary_zero cx));
  Some (c, slice_tree aggregate).

Definition suffix c : option (Cursor T S D Cx * SumTree T S) := slice c End_new Right.

Definition cursor_summary {Target Output} `{!SeekTarget Target D Cx, !Dimension Output S Cx}
    c (end_ : Target) (bias : Bias) : option (Cursor T S D Cx * Output) :=
  '(c, aggregate, _) ←
    seek_internal c end_ bias (mkSummaryAggregate (dim_zero (cursor_cx c)));
  Some (c, aggregate_dim aggregate).
End seek_api.

(** ** Stepping, with a filter on the summaries

    The filter is a function of the summary: the code's [FnMut] closures that
    keep state across calls are outside the model. *)

Section step.
Context {T S D Cx : Type} `{Summary S Cx, Item T S Cx, !Dimension D S Cx}.
Implicit Types (c : Cursor T S D Cx) (t : SumTree T S)
  (stack : list (StackEntry T S D)) (cx : Cx) (filter_node : S → bool).

(** The inner loops of [search_forward]: skip the entries the filter rejects. *)
Fixpoint skip_rejected filter_node cx (summaries : list S) (index : nat)
    (entry_position position : D) : nat * D * D :=
  match summaries with
  | [] => (index, entry_position, position)
  | next_summary :: summaries =>
      if filter_node next_summary then (index, entry_position, position)
      else skip_rejected filter_node cx summaries (index + 1)
             (dim_add_summary entry_position next_summary cx)
             (dim_add_summary position next_summary cx)
  end.

Fixpoint search_forward_loop (fuel : nat) filter_node cx (descend : bool) stack (position : D)
    : option (list (StackEntry T S D) * D) :=
  match stack with
  | [] => Some ([], position)
  | mkEntry tree index entry_position :: below =>
      match fuel with
      | O => None
      | Datatypes.S fuel =>
          match tree with
          | Internal _ _ child_summaries child_trees =>
              let index := if descend then index else index + 1 in
              let entry_position := if descend then entry_position else position in
              let '(index, entry_position, position) :=
                skip_rejected filter_node cx (drop index child_summaries) index
                  entry_position position in
              match child_trees !! index with
              | Some subtree =>
                  stack ← stack_push (mkEntry subtree 0 position)
                            (mkEntry tree index entry_position :: below);
                  search_forward_loop fuel filter_node cx true stack position
              | None => search_forward_loop fuel filter_node cx false below position
              end
          | Leaf _ _ item_summaries =>
              '(index, entry_position, position) ←
                (if descend then Some (index, entry_position, position)
                 else item_summary ← item_summaries !! index;
                      Some (index + 1, dim_add_summary entry_position item_summary cx,
                            dim_add_summary position item_summary cx));
              let '(index, entry_position, position) :=
                skip_rejected filter_node cx (drop index item_summaries) index
                  entry_position position in
              if bool_decide (index < length item_summaries) then
                Some (mkEntry tree index entry_position :: below, position)
              else search_forward_loop fuel filter_node cx false below position
          end
      end
  end.

(** The early [return] at a leaf leaves [at_end] as it was. *)
Definition search_forward c filter_node : option (Cursor T S D Cx) :=
  let cx := cursor_cx c in
  '(stack, descend, did_seek) ←
    match cursor_stack c with
    | [] =>
        if at_end c then Some ([], false, true)
        else stack ← stack_push (mkEntry (cursor_tree c) 0 (dim_zero cx)) [];
             Some (stack, true, true)
    | stack => Some (stack, false, did_seek c)
    end;
  '(stack, position) ←
    search_forward_loop (stack_fuel stack) filter_node cx descend stack (position c);
  Some (mkCursor (cursor_tree c) stack position did_seek
          (match stack with [] => true | _ => at_end c end) cx).

Definition next c : option (Cursor T S D Cx) := search_forward c (λ _, true).

(** The steps a backward search can take in a subtree: one per entry it
    moves to and one to leave the node. *)
Fixpoint backward_weight t : nat :=
  match t with
  | Leaf _ items _ => 1 + length items
  | Internal _ _ _ cts => 1 + list_sum (map (λ t, 1 + backward_weight t) cts)
  end.

Definition backward_fuel stack : nat :=
  list_sum (map (λ e, backward_weight (entry_tree e)) stack).

Fixpoint search_backward_loop (fuel : nat) filter_node cx (descending : bool) stack
    (position : D) : option (list (StackEntry T S D) * D) :=
  match stack with
  | [] => Some ([], position)
  | mkEntry tree index _ :: below =>
      match fuel with
      | O => None
      | Datatypes.S fuel =>
          let position := match below with
                          | entry :: _ => entry_position entry
                          | [] => dim_zero cx
                          end in
          if negb descending && bool_decide (index = 0) then
            search_backward_loop fuel filter_node cx descending below position
          else
            let index := if descending then index else index - 1 in
            let position :=
              foldl (λ p s, dim_add_summary p s cx) position (take index (child_summaries tree)) in
            summary ← child_summaries tree !! index;
            let descending := filter_node summary in
            let stack := mkEntry tree index position :: below in
            match tree with
            | Internal _ _ _ child_trees =>
                if descending then
                  child ← child_trees !! index;
                  stack ← stack_push
                            (mkEntry child (length (child_summaries child) - 1) (dim_zero cx)) stack;
                  search_backward_loop fuel filter_node cx descending stack position
                else search_backward_loop fuel filter_node cx descending stack position
            | Leaf _ _ _ =>
                if descending then Some (stack, position)
                else search_backward_loop fuel filter_node cx descending stack position
            end
      end
  end.

Definition search_backward c filter_node : option (Cursor T S D Cx) :=
  let cx := cursor_cx c in
  let tree := cursor_tree c in
  let at_end := if did_seek c then at_end c else true in
  '(stack, position, at_end) ←
    (if at_end then
       if is_empty tree then Some (cursor_stack c, dim_zero cx, true)
       else stack ← stack_push (mkEntry tree (length (child_summaries tree))
                                  (from_summary_dim (summary tree) cx)) (cursor_stack c);
            Some (stack, dim_zero cx, false)
     else Some (cursor_stack c, position c, false));
  '(stack, position) ←
    search_backward_loop (backward_fuel stack) filter_node cx false stack position;
  Some (mkCursor tree stack position true at_end cx).

Definition prev c : option (Cursor T S D Cx) := search_backward c (λ _, true).

(** [Iterator for Cursor]: the cursor after the call and the item yielded. *)
Definition cursor_iter_next c : option (Cursor T S D Cx * option T) :=
  c ← (if did_seek c then Some c else next c);
  i ← item c;
  match i with
  | Some i => c ← next c; Some (c, Some i)
  | None => Some (c, None)
  end.

(** [FilterCursor]: a cursor and its filter. *)
Record FilterCursor := mkFilterCursor {
  filter_cursor : Cursor T S D Cx;
  filter_fn : S → bool
}.

Definition filter_new (tree : SumTree T S) cx filter_node : FilterCursor :=
  mkFilterCursor (cursor_new tree cx) filter_node.

Definition filter_next (f : FilterCursor) : option FilterCursor :=
  c ← search_forward (filter_cursor f) (filter_fn f); Some (mkFilterCursor c (filter_fn f)).

Definition filter_prev (f : FilterCursor) : option FilterCursor :=
  c ← search_backward (filter_cursor f) (filter_fn f); Some (mkFilterCursor c (filter_fn f)).

Definition filter_item (f : FilterCursor) : option (option T) := item (filter_cursor f).
End step.

(** [SumTree::items]: the loop over a cursor of dimension [()]. *)
Section items.
Context {T S Cx : Type} `{Summary S Cx, Item T S Cx}.

Fixpoint items_loop (fuel : nat) (c : Cursor T S () Cx) : option (list T) :=
  i ← item c;
  match i with
  | None => Some []
  | Some i =>
      match fuel with
      | O => None
      | Datatypes.S fuel =>
          c ← next c; l ← items_loop fuel c; Some (i :: l)
      end
  end.

(** The number of items of a tree, the fuel of [items]. *)
Fixpoint tree_size (t : SumTree T S) : nat :=
  match t with
  | Leaf _ items _ => length items
  | Internal _ _ _ cts => list_sum (map tree_size cts)
  end.

Definition items (t : SumTree T S) (cx : Cx) : option (list T) :=
  c ← next (cursor_new t cx : Cursor T S () Cx);
  items_loop (tree_size t) c.
End items.
