(* ===== verification/CursorFacts.v ===== *)
(** Cursors implement seeking in the sequence of a tree.

    [cursor_at c a b]: the cursor stands after the items [a] of its tree and
    before the items [b].  A seek moves it along [seek_split] and hands what it
    passes to the aggregate; [SeekAggregateLaws] is the interface an aggregate
    implements to receive it. *)

From stdpp Require Import base numbers option list.
From S2P Require Import Prelude SumTree SumTreeFacts Search Cursor.

#[local] Arguments TREE_BASE : simpl never.
#[local] Arguments Nat.mul : simpl never.

(** ** The interface of aggregates

    [agg_closed cx a l]: outside a leaf, [a] has received the items [l];
    [agg_open cx n a l]: inside a leaf, of which it was given [n] items. *)

Class SeekAggregateLaws (A T S Cx : Type)
    `{Summary S Cx, Item T S Cx, !SeekAggregate A T S Cx} := {
  agg_closed : Cx → A → list T → Prop;
  agg_open : Cx → nat → A → list T → Prop;
  begin_leaf_law cx a l :
    agg_closed cx a l → agg_open cx 0 (begin_leaf (T:=T) (S:=S) (Cx:=Cx) a) l;
  push_item_law cx n a l i :
    agg_open cx n a l → n < 2 * TREE_BASE →
    ∃ a', push_item a i (item_summary_of i cx) cx = Some a' ∧
      agg_open cx (Datatypes.S n) a' (l ++ [i]);
  end_leaf_law cx n a l :
    agg_open cx n a l → n ≤ 2 * TREE_BASE →
    ∃ a', end_leaf (T:=T) (S:=S) a cx = Some a' ∧ agg_closed cx a' l;
  push_tree_law cx a l h (t : SumTree T S) :
    agg_closed cx a l → wfne cx h t →
    ∃ a', push_tree a t (summary t) cx = Some a' ∧ agg_closed cx a' (l ++ elements t)
}.
#[export] Hint Mode SeekAggregateLaws ! - - - - - - : typeclass_instances.

#[export] Instance unit_SeekAggregateLaws {T S Cx} `{Summary S Cx, Item T S Cx} :
  SeekAggregateLaws () T S Cx.
Proof.
  refine {| agg_closed _ _ _ := True; agg_open _ _ _ _ := True |}; naive_solver.
Defined.

Section slice_laws.
Context {T S Cx : Type} `{SummaryLaws S Cx, !Item T S Cx, !ItemLaws T S Cx}.

Definition slice_closed (cx : Cx) (a : SliceSeekAggregate T S) (l : list T) : Prop :=
  (∃ h, wf cx h (slice_tree a)) ∧ elements (slice_tree a) = l ∧
  leaf_items a = [] ∧ leaf_item_summaries a = [] ∧ leaf_summary a = summary_zero cx.

Definition slice_open (cx : Cx) (n : nat) (a : SliceSeekAggregate T S) (l : list T) : Prop :=
  (∃ h, wf cx h (slice_tree a)) ∧ elements (slice_tree a) ++ leaf_items a = l ∧
  length (leaf_items a) = n ∧ leaf_summary a = isum cx (leaf_items a) ∧
  leaf_item_summaries a = (λ i, item_summary_of i cx) <$> leaf_items a.

#[export] Instance Slice_SeekAggregateLaws :
  SeekAggregateLaws (SliceSeekAggregate T S) T S Cx.
Proof.
  refine {| agg_closed := slice_closed; agg_open := slice_open |}.
  - intros cx a l (?&<-&Hi&Hs&Hz). split_and!; [done|by simpl; rewrite Hi, app_nil_r|..];
      simpl; rewrite ?Hi, ?Hs, ?Hz; done.
  - intros cx n a l i (?&<-&<-&Hz&Hs) Hn. cbn [push_item Slice_SeekAggregate].
    unfold array_push. rewrite Hs, !arrayvec_Some
      by (rewrite length_app, ?length_fmap; simpl; lia). simpl.
    eexists. split; [done|]. split_and!; simpl; [done|by rewrite app_assoc|..].
    + rewrite length_app. simpl. lia.
    + rewrite Hz. unfold isum. by rewrite fmap_app, sum_app.
    + by rewrite fmap_app.
  - intros cx n a l ([h Hh]&<-&Hlen&Hz&Hs) Hn. simpl.
    destruct (append_wf cx h (slice_tree a) 0 (Leaf (leaf_summary a) (leaf_items a)
      (leaf_item_summaries a))) as (t&h'&->&Ht&_&El); [done| |].
    { simpl. split_and!; [done|done|lia]. }
    simpl. eexists. split; [done|]. split_and!; simpl; try done. by exists h'.
  - intros cx a l h t ([h' Hh']&<-&Hi&Hs&Hz) [Ht _]. simpl.
    destruct (append_wf cx h' (slice_tree a) h t) as (t'&h''&->&Ht'&_&El); [done..|].
    simpl. eexists. split; [done|]. split_and!; simpl; try done. by exists h''.
Defined.
End slice_laws.

Section summary_laws.
Context {T S D Cx : Type} `{SummaryLaws S Cx, !Item T S Cx, !ItemLaws T S Cx, !Dimension D S Cx,
  !DimensionLaws D S Cx}.

#[export] Instance Summary_SeekAggregateLaws :
  SeekAggregateLaws (SummarySeekAggregate D) T S Cx.
Proof.
  refine {| agg_closed cx a l := aggregate_dim a = dsum cx (dim_zero cx) l;
            agg_open cx _ a l := aggregate_dim a = dsum cx (dim_zero cx) l |}.
  - done.
  - intros cx n a l i Ha _. eexists. split; [done|]. simpl. by rewrite dsum_snoc, Ha.
  - intros. by eexists.
  - intros cx a l h t Ha Ht. eexists. split; [done|]. simpl.
    by rewrite (dsum_summary cx h), dsum_app, Ha.
Defined.
End summary_laws.

(** ** The stack of a cursor *)

Section stack.
Context {T S D Cx : Type} `{SummaryLaws S Cx, !Item T S Cx, !ItemLaws T S Cx, !Dimension D S Cx}.
Implicit Types (t : SumTree T S) (e : StackEntry T S D)
  (st : list (StackEntry T S D)) (cx : Cx) (l : list T).

(** The index an entry stands at: past its child once that was left. *)
Definition eff_index (passed : bool) e : nat :=
  if passed then Datatypes.S (entry_index e) else entry_index e.

Definition entry_done (passed : bool) e : list T :=
  match entry_tree e with
  | Internal _ _ _ cts => concat (map elements (take (eff_index passed e) cts))
  | Leaf _ items _ => take (eff_index passed e) items
  end.

Definition entry_rest (passed : bool) e : list T :=
  match entry_tree e with
  | Internal _ _ _ cts => concat (map elements (drop (eff_index passed e) cts))
  | Leaf _ items _ => drop (eff_index passed e) items
  end.

(** The items before and after the current child of every entry. *)
Fixpoint before st : list T :=
  match st with [] => [] | e :: st => before st ++ entry_done false e end.
Fixpoint after st : list T :=
  match st with [] => [] | e :: st => entry_rest true e ++ after st end.

(** A path down from [root] of height [hroot]: every entry is the current
    child of the one under it, whose position is the start of that child. *)
Inductive stack_wf cx (root : SumTree T S) (hroot : nat)
    : nat → list (StackEntry T S D) → Prop :=
  | stack_wf_root i p :
      wf cx hroot root → stack_wf cx root hroot hroot [mkEntry root i p]
  | stack_wf_push h i p j q h' s css cts t st :
      stack_wf cx root hroot (Datatypes.S h) (mkEntry (Internal h' s css cts) j q :: st) →
      cts !! j = Some t → wfne cx h t →
      q = dsum cx (dim_zero cx) (before (mkEntry (Internal h' s css cts) j q :: st)) →
      stack_wf cx root hroot h
        (mkEntry t i p :: mkEntry (Internal h' s css cts) j q :: st).

Lemma stack_wf_top cx root hroot h e st :
  stack_wf cx root hroot h (e :: st) → wf cx h (entry_tree e).
Proof. inversion 1; simpl; [done|]. by match goal with H : wfne _ _ _ |- _ => destruct H end. Qed.

(** The index and the position of the top entry are free. *)
Lemma stack_wf_update cx root hroot h t i j p q st :
  stack_wf cx root hroot h (mkEntry t i p :: st) →
  stack_wf cx root hroot h (mkEntry t j q :: st).
Proof. inversion 1; subst; by econstructor. Qed.

Lemma stack_wf_height cx root hroot h st :
  stack_wf cx root hroot h st → h + length st = Datatypes.S hroot.
Proof. induction 1; simpl in *; lia. Qed.

Lemma entry_split passed e : entry_done passed e ++ entry_rest passed e = elements (entry_tree e).
Proof.
  unfold entry_done, entry_rest. destruct (entry_tree e); simpl.
  - by rewrite <- concat_app, <- map_app, take_drop.
  - apply take_drop.
Qed.

(** The items of the current child sit between the two. *)
Lemma entry_child h s css cts t i p :
  cts !! i = Some t →
  let e := mkEntry (Internal h s css cts : SumTree T S) i p in
  entry_done true e = entry_done false e ++ elements t ∧
  entry_rest false e = elements t ++ entry_rest true e.
Proof.
  intros Ht e. unfold e, entry_done, entry_rest. simpl. split.
  - rewrite (take_S_r _ _ _ Ht), map_app, concat_app. simpl. by rewrite app_nil_r.
  - by rewrite (drop_S _ _ _ Ht).
Qed.

Lemma stack_elements cx root hroot h e st :
  stack_wf cx root hroot h (e :: st) →
  before st ++ elements (entry_tree e) ++ after st = elements root.
Proof.
  revert h e. induction st as [|e' st IH]; intros h e Hwf.
  { inversion Hwf; subst. simpl. by rewrite app_nil_r. }
  inversion Hwf; subst. simpl.
  match goal with Hs : stack_wf _ _ _ _ (_ :: st), Hc : _ !! _ = Some _ |- _ =>
    rewrite <- (IH _ _ Hs); destruct (entry_child h' s css cts t j
      (dsum cx (dim_zero cx) (before (mkEntry (Internal h' s css cts) j q :: st))) Hc) as [_ E] end.
  rewrite <- (entry_split false). rewrite <- !app_assoc. do 2 f_equal.
  unfold entry_rest in *; simpl in *. by rewrite E, <- app_assoc.
Qed.

(** Loop iterations left: none of the bounds below the weights is needed. *)
Definition entry_potential (passed : bool) e : nat :=
  match entry_tree e with
  | Leaf _ _ _ => 1
  | Internal _ _ _ cts =>
      1 + list_sum (map (λ t, 1 + weight t) (drop (eff_index passed e) cts))
  end.

Definition stack_potential (passed : bool) st : nat :=
  match st with
  | [] => 0
  | e :: st => entry_potential passed e + list_sum (map (entry_potential true) st)
  end.

Lemma list_sum_drop {A} (f : A → nat) n (l : list A) :
  list_sum (map f (drop n l)) ≤ list_sum (map f l).
Proof. revert n. induction l as [|a l IH]; intros [|n]; simpl; try lia. specialize (IH n). lia. Qed.

Lemma entry_potential_weight passed e : entry_potential passed e ≤ weight (entry_tree e).
Proof.
  unfold entry_potential. destruct (entry_tree e); simpl; [|done].
  apply le_n_S, list_sum_drop.
Qed.

Lemma stack_potential_fuel passed st : stack_potential passed st ≤ stack_fuel st.
Proof.
  destruct st as [|e st]; simpl; [lia|]. unfold stack_fuel. simpl.
  pose proof (entry_potential_weight passed e).
  assert (list_sum (map (entry_potential true) st) ≤
          list_sum (map (λ e, weight (entry_tree e)) st)); [|lia].
  induction st as [|e' st IH]; simpl; [lia|].
  pose proof (entry_potential_weight true e'). lia.
Qed.

(** A cursor's stack after the items [l1] and before the items [l2]. *)
Definition stack_at cx root hroot st l1 l2 : Prop :=
  match st with
  | [] => l1 = elements root ∧ l2 = []
  | e :: st' =>
      stack_wf cx root hroot 0 st ∧ entry_index e < length (elements (entry_tree e)) ∧
      l1 = before st ∧ l2 = entry_rest false e ++ after st'
  end.
End stack.

(** ** The seek loop *)

Section seek_facts.
Context {T S D Cx Target A : Type} `{SummaryLaws S Cx, !Item T S Cx, !ItemLaws T S Cx, !Dimension D S Cx, !SeekTarget Target D Cx, !SeekAggregate A T S Cx,
  !SeekAggregateLaws A T S Cx}.
Implicit Types (t : SumTree T S) (e : StackEntry T S D) (target : Target)
  (st : list (StackEntry T S D)) (cx : Cx) (l : list T) (agg : A) (bias : Bias).

Lemma seek_children_spec target bias cx h (ts : list (SumTree T S)) index pos agg l k :
  Forall (wfne cx h) ts →
  seek_good (stops cx target bias) cx pos (concat (map elements ts) ++ k) →
  agg_closed cx agg l →
  ∃ skipped rest agg', ts = skipped ++ rest ∧
    let passed := concat (map elements skipped) in
    let pos' := dsum cx pos passed in
    seek_children target bias cx ts (summary <$> ts) index pos pos agg =
      Some (index + length skipped, pos', pos', agg', head rest) ∧
    agg_closed cx agg' (l ++ passed) ∧
    seek_split (stops cx target bias) cx pos (concat (map elements ts) ++ k) =
      (passed ++ (seek_split (stops cx target bias) cx pos' (concat (map elements rest) ++ k)).1,
       (seek_split (stops cx target bias) cx pos' (concat (map elements rest) ++ k)).2).
Proof.
  intros HF. revert index pos agg l.
  induction HF as [|t ts Ht HF IH]; intros index pos agg l Hm Hagg; cbn [seek_children fmap list_fmap].
  { exists [], [], agg. simpl. rewrite Nat.add_0_r, app_nil_r. split_and!; try done.
    by destruct (seek_split _ _ _ k). }
  rewrite past_end_stops, (wfne_summary _ _ _ Ht).
  destruct (stops cx target bias (dim_add_summary pos (isum cx (elements t)) cx)) eqn:E; simpl negb; cbn iota.
  { exists [], (t :: ts), agg. simpl. rewrite Nat.add_0_r, app_nil_r. split_and!; try done.
    by destruct (seek_split _ _ _ _). }
  simpl in Hm. rewrite <- app_assoc in Hm.
  eapply seek_good_skip in E as [-> E]; [|exact Hm|by eapply wfne_elements].
  rewrite <- (wfne_summary _ _ _ Ht).
  destruct (push_tree_law cx agg l h t) as (agg1&->&Hagg1); [done..|]. simpl.
  destruct (IH (index + 1) (dsum cx pos (elements t)) agg1 (l ++ elements t))
    as (skipped&rest&agg'&->&Hloop&Hagg'&Hsplit); [by eapply seek_good_app_r|done|].
  exists (t :: skipped), rest, agg'. simpl. rewrite dsum_app.
  split; [done|]. split; [|split].
  - change (list_fmap _ _ summary (skipped ++ rest)) with (summary <$> (skipped ++ rest)).
    rewrite Hloop. do 5 f_equal. lia.
  - by rewrite app_assoc.
  - rewrite <- app_assoc, seek_split_skip by (done || apply Hm). rewrite Hsplit. simpl.
    by rewrite <- app_assoc.
Qed.

Lemma seek_items_spec target bias cx items index pos agg l n k :
  seek_good (stops cx target bias) cx pos (items ++ k) →
  agg_open cx n agg l → n + length items ≤ 2 * TREE_BASE →
  ∃ passed rest agg', items = passed ++ rest ∧
    seek_items target bias cx items ((λ i, item_summary_of i cx) <$> items) index pos agg =
      Some (index + length passed, dsum cx pos passed, agg',
            match rest with [] => false | _ => true end) ∧
    agg_open cx (n + length passed) agg' (l ++ passed) ∧
    seek_split (stops cx target bias) cx pos (items ++ k) =
      match rest with
      | [] => (passed ++ (seek_split (stops cx target bias) cx (dsum cx pos passed) k).1,
               (seek_split (stops cx target bias) cx (dsum cx pos passed) k).2)
      | _ => (passed, rest ++ k)
      end.
Proof.
  revert index pos agg l n. induction items as [|i items IH]; intros index pos agg l n Hm Hagg Hn.
  { exists [], [], agg. simpl. rewrite !Nat.add_0_r, app_nil_r. split_and!; try done.
    by destruct (seek_split _ _ _ k). }
  cbn [seek_items fmap list_fmap]. rewrite past_end_stops.
  destruct (stops cx target bias (dim_add_summary pos (item_summary_of i cx) cx)) eqn:E;
    simpl negb; cbn iota.
  { exists [], (i :: items), agg. simpl. rewrite !Nat.add_0_r, app_nil_r. split_and!; try done.
    by rewrite E. }
  simpl in Hn. destruct (push_item_law cx n agg l i) as (agg1&->&Hagg1); [done|lia|]. simpl.
  destruct (IH (index + 1) (dim_add_summary pos (item_summary_of i cx) cx) agg1 (l ++ [i])
    (Datatypes.S n)) as (passed&rest&agg'&->&Hloop&Hagg'&Hsplit);
    [by apply (seek_good_app_r _ _ _ [i])|done|lia|].
  exists (i :: passed), rest, agg'. simpl. rewrite E.
  split; [done|]. split; [|split].
  - change (list_fmap _ _ (λ i, item_summary_of i cx) (passed ++ rest))
      with ((λ i, item_summary_of i cx) <$> (passed ++ rest)).
    rewrite Hloop. do 4 f_equal. lia.
  - rewrite <- app_assoc in Hagg'. by rewrite Nat.add_succ_r.
  - rewrite Hsplit. by destruct rest.
Qed.

(** The state at the head of the loop; [passed] is [ascending]. *)
Definition loop_at cx root hroot (passed : bool) st pos l1 l2 : Prop :=
  pos = dsum cx (dim_zero cx) l1 ∧
  match st with
  | [] => l1 = elements root ∧ l2 = []
  | e :: st' =>
      (∃ h, stack_wf cx root hroot h st) ∧
      (is_leaf (entry_tree e) = true → passed = false) ∧
      (is_leaf (entry_tree e) = false → passed = false → entry_position e = pos) ∧
      eff_index passed e ≤ length (child_summaries (entry_tree e)) ∧
      l1 = before st' ++ entry_done passed e ∧ l2 = entry_rest passed e ++ after st'
  end.

(** Leaving a node whose items are all passed. *)
Lemma loop_at_pop cx root hroot e st l1 :
  (∃ h, stack_wf cx root hroot h (e :: st)) →
  l1 = before st ++ elements (entry_tree e) →
  loop_at cx root hroot true st (dsum cx (dim_zero cx) l1) l1 (after st).
Proof.
  intros [h Hwf] ->. split; [done|]. pose proof (stack_elements _ _ _ _ _ _ Hwf) as Hel.
  destruct st as [|e' st]; simpl in *.
  { by rewrite app_nil_r in Hel. }
  inversion Hwf; subst. simpl in *. split_and!; try done.
  - eexists. done.
  - match goal with Hc : _ !! _ = Some _ |- _ => apply lookup_lt_Some in Hc end.
    match goal with Hs : stack_wf _ _ _ _ (_ :: st) |- _ =>
      apply stack_wf_top in Hs; simpl in Hs; destruct Hs as (_&->&_) end.
    by rewrite length_fmap.
  - rewrite <- app_assoc. f_equal. symmetry. by eapply entry_child.
Qed.

Lemma slice_from_Some {B} i (v : list B) : i ≤ length v → slice_from i v = Some (drop i v).
Proof. intros. unfold slice_from. by rewrite bool_decide_eq_true_2. Qed.

Lemma wf_leaf_inv cx h s (items : list T) (iss : list S) :
  wf cx h (Leaf s items iss) →
  h = 0 ∧ iss = (λ i, item_summary_of i cx) <$> items ∧ length items ≤ 2 * TREE_BASE.
Proof. destruct h; [|done]. intros (->&_&?). done. Qed.

(** One visit of a leaf. *)
Lemma seek_loop_leaf fuel target bias cx root hroot s (items : list T) (iss : list S) i p st agg l l1 l2 pos :
  let e := mkEntry (Leaf s items iss) i p in
  (∀ agg l l1 pos, loop_at cx root hroot true st pos l1 (after st) →
    seek_good (stops cx target bias) cx pos (after st) → agg_closed cx agg l →
    ∃ st' agg', let '(a, b) := seek_split (stops cx target bias) cx pos (after st) in
      seek_loop fuel target bias cx true st pos agg = Some (st', dsum cx pos a, agg') ∧
      agg_closed cx agg' (l ++ a) ∧ stack_at cx root hroot st' (l1 ++ a) b) →
  loop_at cx root hroot false (e :: st) pos l1 l2 →
  seek_good (stops cx target bias) cx pos l2 → agg_closed cx agg l →
  ∃ st' agg', let '(a, b) := seek_split (stops cx target bias) cx pos l2 in
    seek_loop (Datatypes.S fuel) target bias cx false (e :: st) pos agg =
      Some (st', dsum cx pos a, agg') ∧
    agg_closed cx agg' (l ++ a) ∧ stack_at cx root hroot st' (l1 ++ a) b.
Proof.
  intros e IH (->&[h Hwf]&_&_&Hidx&->&->) Hm Hagg. simpl in Hidx.
  destruct (wf_leaf_inv cx h s items iss) as (->&->&Hlen);
    [by eapply (stack_wf_top _ _ _ _ e)|]. rewrite length_fmap in Hidx.
  unfold eff_index, e in Hidx; simpl in Hidx. unfold entry_done, entry_rest in *; simpl in *.
  set (pos := dsum cx (dim_zero cx) (before st ++ take i items)) in *.
  apply begin_leaf_law in Hagg.
  destruct (seek_items_spec target bias cx (drop i items) i pos
    (begin_leaf (T:=T) (S:=S) (Cx:=Cx) agg) l 0 (after st))
    as (passed&rest&agg1&Hdrop&Hloop&Hagg1&Hsplit); [done|done|rewrite length_drop; lia|].
  rewrite !slice_from_Some by (rewrite ?length_fmap; done). cbn.
  rewrite <- fmap_drop, Hloop. cbn. rewrite Hsplit.
  destruct (end_leaf_law cx _ agg1 _ Hagg1) as (agg2&->&Hagg2).
  { apply (f_equal length) in Hdrop. rewrite length_drop, length_app in Hdrop. lia. }
  cbn. destruct rest as [|j rest].
  - rewrite app_nil_r in Hdrop. subst passed.
    destruct (IH agg2 (l ++ drop i items) (before st ++ items) (dsum cx pos (drop i items)))
      as (st'&agg'&Hres).
    + unfold pos. rewrite <- dsum_app, <- app_assoc, take_drop.
      by apply (loop_at_pop _ _ _ e); [eexists|].
    + by eapply seek_good_app_r.
    + done.
    + exists st', agg'. destruct (seek_split _ _ _ (after st)) as [a b]. simpl.
      rewrite <- app_assoc in Hres. destruct Hres as (?&?&Hat). split_and!; [|done|].
      * by rewrite dsum_app.
      * by rewrite app_assoc, <- (app_assoc (before st)), take_drop.
  - eexists _, agg2. split; [reflexivity|]. split; [done|]. simpl.
    assert (Hl : i + length passed < length items).
    { apply (f_equal length) in Hdrop. rewrite length_drop, length_app in Hdrop.
      simpl in Hdrop. lia. }
    assert (Htake : take (i + length passed) items = take i items ++ passed).
    { by rewrite <- (take_take_drop items i), Hdrop, take_app_length. }
    assert (Hd : drop (i + length passed) items = j :: rest)
      by by rewrite <- drop_drop, Hdrop, drop_app_length.
    split_and!.
    + by eapply stack_wf_update.
    + done.
    + unfold entry_done; simpl. unfold eff_index; simpl. by rewrite Htake, app_assoc.
    + unfold entry_rest; simpl. unfold eff_index; simpl. by rewrite Hd.
Qed.

(** What a seek does from a loop state, for the rest of the section. *)
Definition seek_result fuel target bias cx root hroot passed st pos agg l l1 l2 : Prop :=
  ∃ st' agg', let '(a, b) := seek_split (stops cx target bias) cx pos l2 in
    seek_loop fuel target bias cx passed st pos agg = Some (st', dsum cx pos a, agg') ∧
    agg_closed cx agg' (l ++ a) ∧ stack_at cx root hroot st' (l1 ++ a) b.

(** A seek that passed [x] and then went on from another state. *)
Lemma seek_result_extend fuel fuel' target bias cx root hroot passed passed' st st'
    pos agg agg' l l1 l2 l2' x :
  seek_loop fuel target bias cx passed st pos agg =
    seek_loop fuel' target bias cx passed' st' (dsum cx pos x) agg' →
  seek_result fuel' target bias cx root hroot passed' st' (dsum cx pos x) agg' (l ++ x)
    (l1 ++ x) l2' →
  seek_split (stops cx target bias) cx pos l2 =
    (x ++ (seek_split (stops cx target bias) cx (dsum cx pos x) l2').1,
     (seek_split (stops cx target bias) cx (dsum cx pos x) l2').2) →
  seek_result fuel target bias cx root hroot passed st pos agg l l1 l2.
Proof.
  unfold seek_result. intros -> (st1&agg1&Hres) ->. exists st1, agg1.
  destruct (seek_split _ _ _ l2') as [a b]. simpl. by rewrite dsum_app, !app_assoc.
Qed.

Lemma entry_split_done passed e l :
  entry_done passed e ++ entry_rest passed e ++ l = elements (entry_tree e) ++ l.
Proof. by rewrite app_assoc, entry_split. Qed.

Lemma stack_push_Some {B} (b : B) (l : list B) :
  length l < STACK_CAPACITY → stack_push b l = Some (b :: l).
Proof. intros. unfold stack_push. by rewrite bool_decide_eq_true_2. Qed.

(** Descending into the child the inner loop stopped at. *)
Lemma loop_at_push cx root hroot h h' s css (cts : list (SumTree T S)) i p st t pos l1 :
  stack_wf cx root hroot (Datatypes.S h) (mkEntry (Internal h' s css cts) i p :: st) →
  cts !! i = Some t → wfne cx h t →
  let e := mkEntry (Internal h' s css cts) i pos in
  l1 = before (e :: st) → pos = dsum cx (dim_zero cx) l1 →
  loop_at cx root hroot false (mkEntry t 0 pos :: e :: st) pos l1
    (elements t ++ entry_rest true e ++ after st).
Proof.
  intros Hwf Hi Ht e -> Hpos. split; [done|]. split_and!; try done.
  - exists h. apply stack_wf_push; try done. by eapply stack_wf_update.
  - simpl. unfold eff_index; simpl. lia.
  - assert (E : entry_done false (mkEntry t 0 pos) = []) by by destruct t.
    by rewrite E, app_nil_r.
  - assert (E : entry_rest false (mkEntry t 0 pos) = elements t) by by destruct t.
    by rewrite E.
Qed.

Lemma seek_loop_internal fuel target bias cx root hroot h' s css (cts : list (SumTree T S))
    i p passed st agg l l1 l2 pos :
  let e := mkEntry (Internal h' s css cts) i p in
  hroot < STACK_CAPACITY →
  (∀ passed st agg l l1 l2 pos, loop_at cx root hroot passed st pos l1 l2 →
    seek_good (stops cx target bias) cx pos l2 → agg_closed cx agg l →
    stack_potential passed st ≤ fuel →
    seek_result fuel target bias cx root hroot passed st pos agg l l1 l2) →
  loop_at cx root hroot passed (e :: st) pos l1 l2 →
  seek_good (stops cx target bias) cx pos l2 → agg_closed cx agg l →
  stack_potential passed (e :: st) ≤ Datatypes.S fuel →
  seek_result (Datatypes.S fuel) target bias cx root hroot passed (e :: st) pos agg l l1 l2.
Proof.
  intros e Hcap IH (Hpos&[h Hwf]&_&Hp&Hidx&Hl1&->) Hm Hagg Hpot. simpl in Hidx.
  pose proof (stack_wf_top _ _ _ _ _ _ Hwf) as Htop. simpl in Htop.
  destruct h as [|h]; [done|].
  destruct Htop as (->&->&_&_&HF). rewrite length_fmap in Hidx.
  assert (Ei : (if passed then i + 1 else i) = eff_index passed e)
    by (unfold eff_index; simpl; destruct passed; lia).
  assert (Ep : (if passed then pos else p) = pos) by (destruct passed; [done|by apply Hp]).
  set (n := eff_index passed e) in *.
  destruct (seek_children_spec target bias cx h (drop n cts) n pos agg l (after st))
    as (skipped&rest&agg'&Hdrop&Hloop&Hagg'&Hsplit);
    [by apply Forall_drop|done|done|].
  change (entry_rest passed e) with (concat (map elements (drop n cts))) in *.
  assert (Hdone : l1 ++ concat (map elements skipped) =
                  before st ++ concat (map elements (take (n + length skipped) cts))).
  { rewrite Hl1, <- (take_take_drop cts n), Hdrop, take_app_length, map_app, concat_app.
    by rewrite <- app_assoc. }
  assert (Hpos' : dsum cx pos (concat (map elements skipped)) =
                  dsum cx (dim_zero cx) (l1 ++ concat (map elements skipped)))
    by by rewrite Hpos, dsum_app.
  assert (Hm' : seek_good (stops cx target bias) cx
                  (dsum cx pos (concat (map elements skipped)))
                  (concat (map elements rest) ++ after st)).
  { apply seek_good_app_r. by rewrite app_assoc, <- concat_app, <- map_app, <- Hdrop. }
  set (pos' := dsum cx pos (concat (map elements skipped))) in *.
  assert (Heq : seek_loop (Datatypes.S fuel) target bias cx passed (e :: st) pos agg =
    match head rest with
    | Some child_tree =>
        stack ← stack_push (mkEntry child_tree 0 pos')
                  (mkEntry (entry_tree e) (n + length skipped) pos' :: st);
        seek_loop fuel target bias cx false stack pos' agg'
    | None => seek_loop fuel target bias cx true st pos' agg'
    end).
  { cbn [seek_loop e]. rewrite Ei, Ep. rewrite !slice_from_Some
      by (rewrite ?length_fmap; done). cbn [mbind option_bind].
    by rewrite <- fmap_drop, Hloop. }
  destruct rest as [|t rest]; cbn [head mbind option_bind] in Heq.
  - rewrite app_nil_r in Hdrop. subst skipped. eapply seek_result_extend; [exact Heq| |exact Hsplit].
    apply (IH true st agg' _ _ (after st)); [|done|done|].
    + fold pos'. rewrite Hpos'. eapply (loop_at_pop _ _ _ e); [by eexists|].
      rewrite Hdone, length_drop. f_equal. simpl. by rewrite take_ge by lia.
    + simpl in Hpot. destruct st; simpl in *; lia.
  - assert (Hi : cts !! (n + length skipped) = Some t).
    { rewrite <- lookup_drop, Hdrop. by rewrite list_lookup_middle. }
    rewrite stack_push_Some in Heq by (apply stack_wf_height in Hwf; simpl in *;
      unfold STACK_CAPACITY in *; lia).
    assert (Hrest : drop (Datatypes.S (n + length skipped)) cts = rest).
    { apply (drop_S _ t) in Hi. rewrite <- drop_drop, Hdrop, drop_app_length in Hi.
      by injection Hi. }
    assert (Ht : wfne cx h t) by by eapply (Forall_lookup_1 _ _ _ _ HF).
    eapply seek_result_extend; [exact Heq| |].
    + apply (IH false _ agg' _ _ (elements t ++ concat (map elements rest) ++ after st));
        [|by rewrite app_assoc|done|].
      * replace (concat (map elements rest)) with
          (entry_rest true (mkEntry (entry_tree e) (n + length skipped) pos')).
        { eapply (loop_at_push _ _ _ _ _ _ _ _ _ p); [by eapply stack_wf_update|done|done| |by rewrite <- Hpos'].
          by rewrite Hdone. }
        unfold entry_rest; simpl. by rewrite Hrest.
      * pose proof (entry_potential_weight false (mkEntry t 0 pos')) as Hw.
        simpl in Hpot, Hw |- *. unfold entry_potential in Hpot at 1; simpl in Hpot.
        unfold entry_potential at 2; simpl. fold n in Hpot.
        rewrite Hdrop, map_app, list_sum_app in Hpot; simpl in Hpot. rewrite Hrest. lia.
    + simpl in Hsplit. by rewrite <- app_assoc in Hsplit.
Qed.

(** The loop from any state, within the fuel of the stack. *)
Lemma seek_loop_spec fuel target bias cx root hroot passed st agg l l1 l2 pos :
  hroot < STACK_CAPACITY →
  loop_at cx root hroot passed st pos l1 l2 →
  seek_good (stops cx target bias) cx pos l2 → agg_closed cx agg l →
  stack_potential passed st ≤ fuel →
  seek_result fuel target bias cx root hroot passed st pos agg l l1 l2.
Proof.
  intros Hcap. revert passed st agg l l1 l2 pos.
  induction fuel as [|fuel IH]; intros passed st agg l l1 l2 pos Hat Hm Hagg Hpot;
    destruct st as [|[t i p] st].
  1, 3: destruct Hat as (->&->&->); exists [], agg; simpl; rewrite !app_nil_r;
    unfold stack_at; done.
  { simpl in Hpot. unfold entry_potential in Hpot. destruct t; simpl in Hpot; lia. }
  destruct t as [h' s css cts|s items iss].
  - by apply seek_loop_internal.
  - assert (Hleaf : passed = false) by by apply Hat. subst passed.
    apply seek_loop_leaf; [|done..]. intros agg0 l0 l10 pos0 Hat0 Hm0 Hagg0.
    apply IH; try done. simpl in Hpot. destruct st; simpl in *; lia.
Qed.
End seek_facts.

(** ** Cursors *)

Section cursor_facts.
Context {T S D Cx : Type} `{SummaryLaws S Cx, !Item T S Cx, !ItemLaws T S Cx, !Dimension D S Cx}.
Implicit Types (t : SumTree T S) (c : Cursor T S D Cx) (cx : Cx) (l : list T) (bias : Bias).

Definition is_nil {B} (l : list B) : bool := match l with [] => true | _ => false end.

(** The cursor stands between the items [l1] and [l2] of a well-formed tree
    that is no higher than the cursor's stack can hold. *)
Definition cursor_at c l1 l2 : Prop :=
  ∃ h, wf (cursor_cx c) h (cursor_tree c) ∧ h < STACK_CAPACITY ∧
    position c = dsum (cursor_cx c) (dim_zero (cursor_cx c)) l1 ∧
    if did_seek c then
      stack_at (cursor_cx c) (cursor_tree c) h (cursor_stack c) l1 l2 ∧ at_end c = is_nil l2
    else cursor_stack c = [] ∧ l1 = [] ∧ l2 = elements (cursor_tree c) ∧
         at_end c = is_empty (cursor_tree c).

Lemma stack_at_top cx root h e (st : list (StackEntry T S D)) l1 l2 :
  stack_at cx root h (e :: st) l1 l2 →
  ∃ s items iss i l2', entry_tree e = Leaf s items iss ∧
    iss = (λ i, item_summary_of i cx) <$> items ∧
    items !! entry_index e = Some i ∧ l2 = i :: l2' ∧
    l2' = drop (Datatypes.S (entry_index e)) items ++ after st.
Proof.
  intros (Hwf&Hidx&_&->). apply stack_wf_top in Hwf.
  destruct e as [[|s items iss] j p]; simpl in *; [done|]. destruct Hwf as (->&_&_).
  apply lookup_lt_is_Some in Hidx as [i Hi].
  eexists s, items, _, i, _. split_and!; [done..| |done].
  unfold entry_rest; simpl. unfold eff_index; simpl. by rewrite (drop_S _ _ _ Hi).
Qed.

Lemma stack_at_nil cx root h (st : list (StackEntry T S D)) l1 l2 :
  stack_at cx root h st l1 l2 → is_nil st = is_nil l2.
Proof.
  destruct st as [|e st]; [by intros [_ ->]|].
  by intros (s&items&iss&i&l2'&_&_&_&->&_)%stack_at_top.
Qed.

Lemma cursor_at_elements c l1 l2 : cursor_at c l1 l2 → elements (cursor_tree c) = l1 ++ l2.
Proof.
  intros (h&_&_&_&Hc). destruct (did_seek c); [|naive_solver].
  destruct Hc as [Hc _]. destruct (cursor_stack c) as [|e st].
  { destruct Hc as [-> ->]. by rewrite app_nil_r. }
  destruct Hc as (Hwf&_&->&->). rewrite <- (stack_elements _ _ _ _ _ _ Hwf). simpl.
  by rewrite <- app_assoc, entry_split_done.
Qed.

Lemma item_at c l1 l2 : cursor_at c l1 l2 → did_seek c = true → item c = Some (head l2).
Proof.
  intros (h&_&_&_&Hc) Hs. rewrite Hs in Hc. destruct Hc as [Hc _].
  unfold item. rewrite Hs. simpl. destruct (cursor_stack c) as [|e st]; [by destruct Hc as [_ ->]|].
  apply stack_at_top in Hc as (s&items&iss&i&l2'&->&_&Hi&->&_). simpl.
  rewrite bool_decide_eq_false_2, Hi; [done|]. apply lookup_lt_Some in Hi. lia.
Qed.

Lemma item_summary_at c l1 l2 :
  cursor_at c l1 l2 → did_seek c = true →
  cursor_item_summary c = Some ((λ i, item_summary_of i (cursor_cx c)) <$> head l2).
Proof.
  intros (h&_&_&_&Hc) Hs. rewrite Hs in Hc. destruct Hc as [Hc _].
  unfold cursor_item_summary. rewrite Hs. simpl.
  destruct (cursor_stack c) as [|e st]; [by destruct Hc as [_ ->]|].
  apply stack_at_top in Hc as (s&items&iss&i&l2'&->&->&Hi&->&_).
  rewrite length_fmap, list_lookup_fmap, Hi, bool_decide_eq_false_2; [done|].
  apply lookup_lt_Some in Hi. lia.
Qed.

Lemma end_at c l1 l2 :
  cursor_at c l1 l2 → did_seek c = true →
  end_ c = Some (dsum (cursor_cx c) (position c) (option_list (head l2))).
Proof. intros Hc Hs. unfold end_. rewrite (item_summary_at _ _ _ Hc Hs). by destruct l2. Qed.

Lemma cursor_at_new t cx h :
  wf cx h t → h < STACK_CAPACITY → cursor_at (cursor_new t cx : Cursor T S D Cx) [] (elements t).
Proof. intros. by exists h. Qed.

Lemma cursor_at_reset c l1 l2 :
  cursor_at c l1 l2 → cursor_at (reset c) [] (elements (cursor_tree c)).
Proof. intros (h&?&?&_). by exists h. Qed.

Lemma loop_at_seeked cx root h (st : list (StackEntry T S D)) pos l1 l2 :
  pos = dsum cx (dim_zero cx) l1 → stack_at cx root h st l1 l2 →
  loop_at cx root h false st pos l1 l2.
Proof.
  intros -> Hat. split; [done|]. destruct st as [|e st]; [done|].
  destruct (stack_at_top _ _ _ _ _ _ _ Hat) as (s&items&iss&i&l2'&E&->&Hi&_&_).
  destruct Hat as (Hwf&Hidx&->&->). rewrite E in *. split_and!; try done.
  - by eexists.
  - simpl. rewrite length_fmap. unfold eff_index. simpl in Hidx. lia.
Qed.

Lemma loop_at_fresh cx (root : SumTree T S) h :
  wf cx h root →
  loop_at cx root h false [mkEntry root 0 (dim_zero cx)] (dim_zero cx : D) [] (elements root).
Proof.
  intros Hwf. split; [done|]. split_and!; try done.
  - exists h. by constructor.
  - unfold eff_index; simpl. lia.
  - by destruct root.
  - by destruct root; simpl; rewrite ?app_nil_r.
Qed.

Context {Target A : Type} `{!SeekTarget Target D Cx, !SeekAggregate A T S Cx,
  !SeekAggregateLaws A T S Cx}.
Implicit Types (target : Target) (agg : A).

(** The position a seek compares the target with for its result. *)
Definition seek_end c bias l1 l2 : D :=
  dsum (cursor_cx c) (dim_zero (cursor_cx c))
    (l1 ++ match bias with Left => option_list (head l2) | Right => [] end).

(** The same tree and context. *)
Definition same_tree c c' : Prop :=
  cursor_tree c' = cursor_tree c ∧ cursor_cx c' = cursor_cx c ∧ did_seek c' = true.

Lemma seek_internal_spec c target bias agg l l1 l2 :
  cursor_at c l1 l2 →
  target_cmp target (position c) (cursor_cx c) ≠ Lt →
  seek_good (stops (cursor_cx c) target bias) (cursor_cx c) (position c) l2 →
  agg_closed (cursor_cx c) agg l →
  ∃ c' agg', let '(a, b) := seek_split (stops (cursor_cx c) target bias) (cursor_cx c) (position c) l2 in
    seek_internal c target bias agg =
      Some (c', agg', match target_cmp target (seek_end c bias (l1 ++ a) b) (cursor_cx c) with
                      | Eq => true | _ => false end) ∧
    same_tree c c' ∧ cursor_at c' (l1 ++ a) b ∧ agg_closed (cursor_cx c) agg' (l ++ a).
Proof.
  intros (h&Hwf&Hh&Hpos&Hc) Hge Hm Hagg. unfold seek_internal.
  set (cx := cursor_cx c) in *.
  assert (Ea : assert_ (match target_cmp target (position c) cx with Lt => false | _ => true end)
               = Some ()) by by destruct (target_cmp target (position c) cx).
  rewrite Ea. cbn [mbind option_bind]. clear Ea.
  assert (Hstart : ∃ st,
    (if did_seek c then Some (cursor_stack c)
     else stack_push (mkEntry (cursor_tree c) 0 (dim_zero cx)) (cursor_stack c)) = Some st ∧
    loop_at cx (cursor_tree c) h false st (position c) l1 l2).
  { destruct (did_seek c).
    - exists (cursor_stack c). split; [done|]. apply loop_at_seeked; [done|]. apply Hc.
    - destruct Hc as (->&->&->&_). eexists. split; [done|]. rewrite Hpos.
      by apply loop_at_fresh. }
  destruct Hstart as (st&->&Hat). cbn [mbind option_bind].
  destruct (seek_loop_spec (stack_fuel st) target bias cx (cursor_tree c) h false st agg l l1 l2
    (position c)) as (st'&agg'&Hres); [done..|apply stack_potential_fuel|].
  destruct (seek_split _ _ _ l2) as [a b]. destruct Hres as (->&Hagg'&Hat').
  cbn [mbind option_bind].
  set (c' := mkCursor (cursor_tree c) st' (dsum cx (position c) a) true
    (match st' with [] => true | _ => false end) cx).
  assert (Hc' : cursor_at c' (l1 ++ a) b).
  { exists h. split_and!; [done|done|simpl; by rewrite Hpos, dsum_app|]. simpl.
    split; [done|]. by eapply stack_at_nil. }
  assert (Hend : (if bool_decide (bias = Left) then
            s ← cursor_item_summary c';
            Some match s with
                 | Some summary => dim_add_summary (dsum cx (position c) a) summary cx
                 | None => dsum cx (position c) a
                 end
          else Some (dsum cx (position c) a)) = Some (seek_end c bias (l1 ++ a) b)).
  { unfold seek_end. fold cx. rewrite dsum_app, (dsum_app _ _ l1 a), <- Hpos.
    destruct bias; simpl; [|done].
    rewrite (item_summary_at _ _ _ Hc') by done. by destruct b. }
  rewrite Hend. exists c', agg'. by split_and!.
Qed.
End cursor_facts.
