(* ===== verification/StepFacts.v ===== *)
(** Stepping a cursor forward: [next], filtered search and iteration.

    [search_forward] passes the current item and stops at the next one the
    filter accepts; with the filter [|_| true] that is [next].  The filter may
    reject a whole subtree by its summary, which is sound when it never rejects
    the sum of items it would accept ([filter_sound]). *)

From stdpp Require Import base numbers option list.
From S2P Require Import Prelude SumTree SumTreeFacts Search Cursor CursorFacts.

#[local] Arguments TREE_BASE : simpl never.
#[local] Arguments Nat.mul : simpl never.

Section step_facts.
Context {T S D Cx : Type} `{SummaryLaws S Cx, !Item T S Cx, !ItemLaws T S Cx, !Dimension D S Cx}.
Implicit Types (t : SumTree T S) (e : StackEntry T S D) (c : Cursor T S D Cx)
  (st : list (StackEntry T S D)) (cx : Cx) (l : list T) (f : S → bool).

(** The items the filter rejects before the first one it accepts. *)
Fixpoint forward_split f cx l : list T * list T :=
  match l with
  | [] => ([], [])
  | i :: l' =>
      if f (item_summary_of i cx) then ([], l)
      else let '(a, b) := forward_split f cx l' in (i :: a, b)
  end.

Definition filter_sound f cx l : Prop :=
  ∀ l1 l2 l3, l = l1 ++ l2 ++ l3 → l2 ≠ [] → f (isum cx l2) = false →
    Forall (λ i, f (item_summary_of i cx) = false) l2.

Lemma filter_sound_app_r f cx l k : filter_sound f cx (l ++ k) → filter_sound f cx k.
Proof. intros Hs l1 l2 l3 -> ?. apply (Hs (l ++ l1) l2 l3); [by rewrite app_assoc|done]. Qed.

Lemma forward_split_skip f cx l k :
  Forall (λ i, f (item_summary_of i cx) = false) l →
  forward_split f cx (l ++ k) = (l ++ (forward_split f cx k).1, (forward_split f cx k).2).
Proof.
  induction 1 as [|i l Hi _ IH]; simpl; [by destruct (forward_split f cx k)|].
  by rewrite Hi, IH.
Qed.

(** What the search needs of the dimension: a rejected subtree moves the
    position as its items do. *)
Definition filter_exact f cx : Prop :=
  ∀ (d : D) h t, wfne cx h t → f (summary t) = false →
    dim_add_summary d (summary t) cx = dsum cx d (elements t).

(** The loop over the children's summaries. *)
Lemma skip_children f cx h (ts : list (SumTree T S)) index pos k :
  filter_exact f cx → Forall (wfne cx h) ts →
  filter_sound f cx (concat (map elements ts) ++ k) →
  ∃ skipped rest, ts = skipped ++ rest ∧
    let passed := concat (map elements skipped) in
    let pos' : D := dsum cx pos passed in
    skip_rejected f cx (summary <$> ts) index pos pos = (index + length skipped, pos', pos') ∧
    forward_split f cx (concat (map elements ts) ++ k) =
      (passed ++ (forward_split f cx (concat (map elements rest) ++ k)).1,
       (forward_split f cx (concat (map elements rest) ++ k)).2).
Proof.
  intros Hx HF. revert index pos.
  induction HF as [|t ts Ht HF IH]; intros index pos Hs; cbn [skip_rejected fmap list_fmap].
  { exists [], []. simpl. rewrite Nat.add_0_r. split_and!; try done.
    by destruct (forward_split f cx k). }
  destruct (f (summary t)) eqn:E.
  { exists [], (t :: ts). simpl. rewrite Nat.add_0_r. split_and!; try done.
    apply surjective_pairing. }
  simpl in Hs. rewrite <- app_assoc in Hs. rewrite (Hx _ h) by done.
  destruct (IH (index + 1) (dsum cx pos (elements t))) as (skipped&rest&->&Hskip&Hsplit);
    [by eapply filter_sound_app_r|].
  exists (t :: skipped), rest. simpl. rewrite dsum_app. split; [done|]. split.
  - change (list_fmap _ _ summary (skipped ++ rest)) with (summary <$> (skipped ++ rest)).
    rewrite Hskip. do 2 f_equal. lia.
  - rewrite <- app_assoc, forward_split_skip.
    + rewrite Hsplit. simpl. by rewrite <- app_assoc.
    + eapply (Hs [] _ _ eq_refl); [by eapply wfne_elements|].
      by rewrite <- (wfne_summary _ _ _ Ht).
Qed.

(** The loop over a leaf's item summaries. *)
Lemma skip_items f cx (items : list T) index p pos k :
  ∃ passed rest p', items = passed ++ rest ∧
    skip_rejected f cx ((λ i, item_summary_of i cx) <$> items) index p pos =
      (index + length passed, p', dsum cx pos passed : D) ∧
    forward_split f cx (items ++ k) =
      match rest with
      | [] => (passed ++ (forward_split f cx k).1, (forward_split f cx k).2)
      | _ => (passed, rest ++ k)
      end.
Proof.
  revert index p pos. induction items as [|i items IH]; intros index p pos;
    cbn [skip_rejected fmap list_fmap].
  { exists [], [], p. simpl. rewrite Nat.add_0_r. split_and!; try done.
    by destruct (forward_split f cx k). }
  destruct (f (item_summary_of i cx)) eqn:E.
  { exists [], (i :: items), p. simpl. rewrite Nat.add_0_r, E. by split_and!. }
  destruct (IH (index + 1) (dim_add_summary p (item_summary_of i cx) cx)
    (dim_add_summary pos (item_summary_of i cx) cx)) as (passed&rest&p'&->&Hskip&Hsplit).
  exists (i :: passed), rest, p'. simpl. rewrite E. split; [done|]. split.
  - change (list_fmap _ _ (λ i, item_summary_of i cx) (passed ++ rest))
      with ((λ i, item_summary_of i cx) <$> (passed ++ rest)).
    rewrite Hskip. do 2 f_equal. lia.
  - rewrite Hsplit. by destruct rest.
Qed.

Definition forward_result fuel f cx root hroot (passed : bool) st pos l1 l2 : Prop :=
  ∃ st', let '(a, b) := forward_split f cx l2 in
    search_forward_loop fuel f cx (negb passed) st pos = Some (st', dsum cx pos a) ∧
    stack_at cx root hroot st' (l1 ++ a) b.

Lemma forward_result_extend fuel fuel' f cx root hroot passed passed' st st' pos l1 l2 l2' x :
  search_forward_loop fuel f cx (negb passed) st pos =
    search_forward_loop fuel' f cx (negb passed') st' (dsum cx pos x) →
  forward_result fuel' f cx root hroot passed' st' (dsum cx pos x) (l1 ++ x) l2' →
  forward_split f cx l2 = (x ++ (forward_split f cx l2').1, (forward_split f cx l2').2) →
  forward_result fuel f cx root hroot passed st pos l1 l2.
Proof.
  unfold forward_result. intros -> (st1&Hres) ->. exists st1.
  destruct (forward_split f cx l2') as [a b]. simpl. by rewrite dsum_app, !app_assoc.
Qed.


(** One visit of a leaf, entered at an item. *)
Lemma forward_loop_leaf fuel f cx root hroot s (items : list T) (iss : list S) i p st l1 l2 pos :
  let e := mkEntry (Leaf s items iss) i p in
  (∀ l1 pos, loop_at cx root hroot true st pos l1 (after st) →
    forward_result fuel f cx root hroot true st pos l1 (after st)) →
  loop_at cx root hroot false (e :: st) pos l1 l2 →
  forward_result (Datatypes.S fuel) f cx root hroot false (e :: st) pos l1 l2.
Proof.
  intros e IH (->&[h Hwf]&_&_&Hidx&->&->). simpl in Hidx.
  destruct (wf_leaf_inv cx h s items iss) as (->&->&_);
    [by eapply (stack_wf_top _ _ _ _ e)|]. rewrite length_fmap in Hidx.
  unfold eff_index, e in Hidx; simpl in Hidx. unfold entry_done, entry_rest in *; simpl in *.
  set (pos := dsum cx (dim_zero cx) (before st ++ take i items)) in *.
  destruct (skip_items f cx (drop i items) i p pos (after st))
    as (passed&rest&p'&Hdrop&Hloop&Hsplit).
  assert (Hlen : length items = i + length passed + length rest).
  { apply (f_equal length) in Hdrop. rewrite length_drop, length_app in Hdrop. lia. }
  assert (Heq : search_forward_loop (Datatypes.S fuel) f cx true (e :: st) pos =
    match rest with
    | [] => search_forward_loop fuel f cx false st (dsum cx pos passed)
    | _ => Some (mkEntry (entry_tree e) (i + length passed) p' :: st, dsum cx pos passed)
    end).
  { cbn. rewrite <- fmap_drop, Hloop, length_fmap. destruct rest; case_decide; simpl in *; (done || lia). }
  destruct rest as [|j rest].
  - rewrite app_nil_r in Hdrop. subst passed.
    eapply (forward_result_extend _ _ _ _ _ _ false true); [exact Heq| |exact Hsplit].
    replace (dsum cx pos (drop i items)) with (dsum cx (dim_zero cx) (before st ++ items) : D)
      by (unfold pos; by rewrite <- dsum_app, <- app_assoc, take_drop).
    rewrite <- app_assoc. unfold eff_index; simpl. rewrite take_drop.
    apply IH. by apply (loop_at_pop _ _ _ e); [eexists|].
  - eexists. unfold forward_result. rewrite Hsplit. split; [exact Heq|].
    assert (Htake : take (i + length passed) items = take i items ++ passed).
    { by rewrite <- (take_take_drop items i), Hdrop, take_app_length. }
    assert (Hd : drop (i + length passed) items = j :: rest)
      by by rewrite <- drop_drop, Hdrop, drop_app_length.
    simpl. split_and!.
    + by eapply stack_wf_update.
    + simpl in Hlen. lia.
    + unfold entry_done; simpl. unfold eff_index; simpl. by rewrite Htake, app_assoc.
    + unfold entry_rest; simpl. unfold eff_index; simpl. by rewrite Hd.
Qed.

(** A descent into the child [t], where the skipping loop stopped. *)
Lemma loop_at_child cx root hroot h h' s css (cts : list (SumTree T S)) i p n st t pos l1 rest :
  stack_wf cx root hroot (Datatypes.S h) (mkEntry (Internal h' s css cts) i p :: st) →
  drop n cts = t :: rest → wfne cx h t →
  pos = dsum cx (dim_zero cx) l1 →
  l1 = before st ++ concat (map elements (take n cts)) →
  loop_at cx root hroot false
    (mkEntry t 0 pos :: mkEntry (Internal h' s css cts) n pos :: st) pos l1
    (concat (map elements (t :: rest)) ++ after st).
Proof.
  intros Hwf Hdrop Ht Hpos Hl1.
  assert (Hn : cts !! n = Some t).
  { rewrite <- (Nat.add_0_r n), <- lookup_drop, Hdrop. done. }
  pose proof (loop_at_push cx root hroot h h' s css cts n p st t pos l1) as Hpush.
  unfold entry_rest in Hpush; simpl in Hpush. apply (drop_S _ t) in Hn as Hn'.
  rewrite Hdrop in Hn'. injection Hn' as Hrest. rewrite <- Hrest in Hpush.
  simpl. rewrite <- app_assoc. apply Hpush; [by eapply stack_wf_update|done..].
Qed.

Lemma forward_loop_internal fuel f cx root hroot h' s css (cts : list (SumTree T S)) i p passed st
    l1 l2 pos :
  let e := mkEntry (Internal h' s css cts) i p in
  hroot < STACK_CAPACITY → filter_exact f cx →
  (∀ passed st l1 l2 pos, loop_at cx root hroot passed st pos l1 l2 → filter_sound f cx l2 →
    stack_potential passed st ≤ fuel →
    forward_result fuel f cx root hroot passed st pos l1 l2) →
  loop_at cx root hroot passed (e :: st) pos l1 l2 → filter_sound f cx l2 →
  stack_potential passed (e :: st) ≤ Datatypes.S fuel →
  forward_result (Datatypes.S fuel) f cx root hroot passed (e :: st) pos l1 l2.
Proof.
  intros e Hcap Hx IH (Hpos&[h Hwf]&_&Hp&Hidx&Hl1&->) Hs Hpot. simpl in Hidx.
  pose proof (stack_wf_top _ _ _ _ _ _ Hwf) as Htop. simpl in Htop.
  destruct h as [|h]; [done|].
  destruct Htop as (->&->&_&_&HF). rewrite length_fmap in Hidx.
  assert (Ei : (if negb passed then i else i + 1) = eff_index passed e)
    by (unfold eff_index; simpl; destruct passed; simpl; lia).
  assert (Ep : (if negb passed then p else pos) = pos) by (destruct passed; [done|by apply Hp]).
  set (n := eff_index passed e) in *.
  change (entry_rest passed e) with (concat (map elements (drop n cts))) in *.
  destruct (skip_children f cx h (drop n cts) n pos (after st))
    as (skipped&rest&Hdrop&Hloop&Hsplit); [done|by apply Forall_drop|done|].
  assert (Hdone : l1 ++ concat (map elements skipped) =
                  before st ++ concat (map elements (take (n + length skipped) cts))).
  { rewrite Hl1, <- (take_take_drop cts n), Hdrop, take_app_length, map_app, concat_app.
    by rewrite <- app_assoc. }
  assert (Hpos' : dsum cx pos (concat (map elements skipped)) =
                  dsum cx (dim_zero cx) (l1 ++ concat (map elements skipped)))
    by by rewrite Hpos, dsum_app.
  assert (Hdrop' : drop (n + length skipped) cts = rest)
    by by rewrite <- drop_drop, Hdrop, drop_app_length.
  set (pos' := dsum cx pos (concat (map elements skipped))) in *.
  assert (Heq : search_forward_loop (Datatypes.S fuel) f cx (negb passed) (e :: st) pos =
    match head rest with
    | Some child_tree =>
        stack ← stack_push (mkEntry child_tree 0 pos')
                  (mkEntry (entry_tree e) (n + length skipped) pos' :: st);
        search_forward_loop fuel f cx true stack pos'
    | None => search_forward_loop fuel f cx false st pos'
    end).
  { cbn [search_forward_loop e]. rewrite Ei, Ep, <- fmap_drop, Hloop. cbn iota beta.
    by rewrite <- (Nat.add_0_r (n + _)), <- lookup_drop, Nat.add_0_r, Hdrop', <- head_lookup. }
  destruct rest as [|t rest]; cbn [head mbind option_bind] in Heq.
  - rewrite app_nil_r in Hdrop. subst skipped.
    eapply (forward_result_extend _ fuel f cx root hroot passed true _ st); [exact Heq| |exact Hsplit].
    apply (IH true st _ (after st)); [|by eapply filter_sound_app_r|].
    + fold pos'. rewrite Hpos'. eapply (loop_at_pop _ _ _ e); [by eexists|].
      rewrite Hdone, length_drop. f_equal. simpl. by rewrite take_ge by lia.
    + simpl in Hpot. destruct st; simpl in *; lia.
  - rewrite stack_push_Some in Heq by (apply stack_wf_height in Hwf; simpl in *;
      unfold STACK_CAPACITY in *; lia).
    assert (Ht : wfne cx h t).
    { apply (Forall_drop _ (n + length skipped)) in HF. rewrite Hdrop' in HF.
      by apply Forall_cons in HF as [??]. }
    eapply (forward_result_extend _ fuel f cx root hroot passed false); [exact Heq| |exact Hsplit].
    apply IH.
    + fold pos'. rewrite Hpos'. eapply (loop_at_child _ _ _ h); [exact Hwf|done..].
    + apply (filter_sound_app_r _ _ (concat (map elements skipped))).
      by rewrite app_assoc, <- concat_app, <- map_app, <- Hdrop.
    + pose proof (entry_potential_weight false (mkEntry t 0 pos')) as Hw.
      assert (Hrest : drop (Datatypes.S (n + length skipped)) cts = rest).
      { by rewrite <- Nat.add_1_r, <- drop_drop, Hdrop'. }
      simpl in Hpot, Hw |- *. unfold entry_potential in Hpot at 1; simpl in Hpot.
      unfold entry_potential at 2; simpl. fold n in Hpot.
      rewrite Hdrop, map_app, list_sum_app in Hpot; simpl in Hpot. rewrite Hrest. lia.
Qed.

(** The loop from any state, within the fuel of the stack. *)
Lemma forward_loop_spec fuel f cx root hroot passed st l1 l2 pos :
  hroot < STACK_CAPACITY → filter_exact f cx →
  loop_at cx root hroot passed st pos l1 l2 → filter_sound f cx l2 →
  stack_potential passed st ≤ fuel →
  forward_result fuel f cx root hroot passed st pos l1 l2.
Proof.
  intros Hcap Hx. revert passed st l1 l2 pos.
  induction fuel as [|fuel IH]; intros passed st l1 l2 pos Hat Hs Hpot;
    destruct st as [|[t i p] st].
  1, 3: destruct Hat as (->&->&->); exists []; simpl; rewrite !app_nil_r;
    unfold stack_at; done.
  { simpl in Hpot. unfold entry_potential in Hpot. destruct t; simpl in Hpot; lia. }
  destruct t as [h' s css cts|s items iss].
  - by apply forward_loop_internal.
  - assert (Hleaf : passed = false) by by apply Hat. subst passed.
    apply forward_loop_leaf; [|done]. intros l10 pos0 Hat0. apply IH; try done.
    + destruct Hat as (_&_&_&_&_&_&->). by eapply filter_sound_app_r.
    + simpl in Hpot. destruct st; simpl in *; lia.
Qed.

(** *** Cursors *)

(** Where a forward search resumes: past the current item. *)
Definition pending c l1 l2 : list T * list T :=
  if did_seek c then match l2 with [] => (l1, []) | i :: l2 => (l1 ++ [i], l2) end
  else (l1, l2).

(** A cursor resting at an item: the first step of the loop passes it. *)
Lemma forward_loop_resting fuel f cx root h e (st : list (StackEntry T S D)) l1 i l2 pos :
  h < STACK_CAPACITY → filter_exact f cx →
  pos = dsum cx (dim_zero cx) l1 → stack_at cx root h (e :: st) l1 (i :: l2) →
  filter_sound f cx l2 → stack_fuel (e :: st) ≤ fuel →
  ∃ st', let '(a, b) := forward_split f cx l2 in
    search_forward_loop fuel f cx false (e :: st) pos =
      Some (st', dsum cx (dsum cx pos [i]) a) ∧
    stack_at cx root h st' ((l1 ++ [i]) ++ a) b.
Proof.
  intros Hcap Hx -> Hat Hs Hfuel.
  destruct (stack_at_top _ _ _ _ _ _ _ Hat) as (s&items&iss&i'&l2'&Ee&->&Hi&[= <- <-]&El2).
  destruct Hat as (Hwf&Hidx&El1&_). destruct e as [t n p]. simpl in *. subst t.
  set (e' := mkEntry (Leaf s items ((λ i, item_summary_of i cx) <$> items)) (n + 1)
    (dim_add_summary p (item_summary_of i cx) cx) : StackEntry T S D).
  destruct fuel as [|fuel]; [unfold stack_fuel in Hfuel; simpl in Hfuel; lia|].
  destruct (forward_loop_spec (Datatypes.S fuel) f cx root h false (e' :: st) (l1 ++ [i]) l2
    (dsum cx (dsum cx (dim_zero cx) l1) [i])) as [st' Hres]; [done|done| |done| |].
  - split; [by rewrite dsum_app|]. split_and!; try done.
    + exists 0. by eapply stack_wf_update.
    + simpl. rewrite length_fmap. unfold eff_index; simpl. simpl in Hidx. lia.
    + unfold entry_done; simpl. unfold eff_index; simpl. rewrite El1. unfold entry_done; simpl.
      unfold eff_index; simpl. by rewrite Nat.add_1_r, (take_S_r _ _ _ Hi), app_assoc.
    + unfold entry_rest; simpl. unfold eff_index; simpl. by rewrite El2, Nat.add_1_r.
  - pose proof (stack_potential_fuel false (e' :: st)). unfold stack_fuel in *. simpl in *. lia.
  - exists st'. destruct (forward_split f cx l2) as [a b]. destruct Hres as [Hloop ?].
    split; [|done]. etrans; [|exact Hloop]. cbn [search_forward_loop negb e' mbind option_bind].
    by rewrite list_lookup_fmap, Hi.
Qed.

(** *** [search_forward] passes the current item and stops at the next one
    the filter accepts. *)
Lemma search_forward_exact c f l1 l2 l1' l2' :
  filter_exact f (cursor_cx c) →
  cursor_at c l1 l2 → pending c l1 l2 = (l1', l2') → filter_sound f (cursor_cx c) l2' →
  ∃ c', let '(a, b) := forward_split f (cursor_cx c) l2' in
    search_forward c f = Some c' ∧ same_tree c c' ∧ cursor_at c' (l1' ++ a) b.
Proof.
  intros Hx (h&Hwf&Hh&Hpos&Hc) Hpend Hs. unfold search_forward, pending in *.
  set (cx := cursor_cx c) in *.
  destruct (cursor_stack c) as [|e st] eqn:Est.
  2: { destruct (did_seek c); [|by destruct Hc as [? _]].
    destruct Hc as [Hat Hend].
    destruct (stack_at_top _ _ _ _ _ _ _ Hat) as (_&_&_&i&l2''&_&_&_&->&_).
    injection Hpend as <- <-.
    destruct (forward_loop_resting (stack_fuel (e :: st)) f cx (cursor_tree c) h e st l1 i l2''
      (position c)) as [st' Hres]; [done..|].
    destruct (forward_split f cx l2'') as [a b]. destruct Hres as [Hloop Hat']. eexists.
    cbn [mbind option_bind]. rewrite Hloop. cbn [mbind option_bind].
    split; [done|]. split; [done|]. exists h. simpl. split_and!; try done.
    - rewrite Hpos. by rewrite !dsum_app.
    - rewrite <- (stack_at_nil _ _ _ _ _ _ Hat'), Hend. by destruct st'. }
  destruct (did_seek c) eqn:Eseek.
  - destruct Hc as [[-> ->] ->]. simpl in Hpend. injection Hpend as <- <-. simpl.
    eexists. split; [done|]. split; [done|]. exists h. simpl. rewrite app_nil_r. by split_and!.
  - destruct Hc as (_&->&->&Hend). injection Hpend as <- <-. rewrite Hend.
    destruct (is_empty (cursor_tree c)) eqn:Ee.
    + destruct (wf_empty_elements _ _ _ Hwf Ee) as [-> ->]. simpl. eexists.
      split; [done|]. split; [done|]. exists 0. simpl. split_and!; try done.
      destruct (wf_empty_elements _ _ _ Hwf Ee) as [-> _]. done.
    + cbn [mbind option_bind]. unfold stack_push at 1. simpl length.
      rewrite bool_decide_eq_true_2 by (unfold STACK_CAPACITY; lia). cbn [mbind option_bind].
      destruct (forward_loop_spec (stack_fuel [mkEntry (cursor_tree c) 0 (dim_zero cx : D)]) f cx
        (cursor_tree c) h false [mkEntry (cursor_tree c) 0 (dim_zero cx)] []
        (elements (cursor_tree c)) (position c)) as [st' Hres];
        [done|done|rewrite Hpos; by apply loop_at_fresh|done|apply stack_potential_fuel|].
      destruct (forward_split f cx _) as [a b]. destruct Hres as [Hloop Hat'].
      simpl negb in Hloop. rewrite Hloop. cbn [mbind option_bind]. eexists.
      split; [done|]. split; [done|]. exists h. simpl. split_and!; try done.
      * by rewrite Hpos.
      * rewrite <- (stack_at_nil _ _ _ _ _ _ Hat'). by destruct st'.
Qed.

Lemma filter_sound_true cx l : filter_sound (λ _, true) cx l.
Proof. by intros l1 l2 l3. Qed.

Lemma next_spec c l1 l2 l1' l2' :
  cursor_at c l1 l2 → pending c l1 l2 = (l1', l2') →
  ∃ c', next c = Some c' ∧ same_tree c c' ∧ cursor_at c' l1' l2'.
Proof.
  intros Hc Hp. destruct (search_forward_exact c (λ _, true) _ _ _ _ ltac:(done) Hc Hp) as [c' Hres];
    [apply filter_sound_true|].
  exists c'. assert (E : forward_split (λ _, true) (cursor_cx c) l2' = ([], l2'))
    by by destruct l2'.
  by rewrite E, app_nil_r in Hres.
Qed.

Lemma search_forward_spec `{!DimensionLaws D S Cx} c f l1 l2 l1' l2' :
  cursor_at c l1 l2 → pending c l1 l2 = (l1', l2') → filter_sound f (cursor_cx c) l2' →
  ∃ c', let '(a, b) := forward_split f (cursor_cx c) l2' in
    search_forward c f = Some c' ∧ same_tree c c' ∧ cursor_at c' (l1' ++ a) b.
Proof. apply search_forward_exact. intros d h t Ht _. by eapply dsum_summary. Qed.

(** [Iterator::next] yields the next item and moves past it. *)
Lemma cursor_iter_next_spec c l1 l2 :
  cursor_at c l1 l2 →
  ∃ c', cursor_iter_next c = Some (c', head l2) ∧ same_tree c c' ∧
    cursor_at c' (l1 ++ option_list (head l2)) (tail l2).
Proof.
  intros Hc. unfold cursor_iter_next.
  assert (Hstart : ∃ c', (if did_seek c then Some c else next c) = Some c' ∧
    same_tree c c' ∧ cursor_at c' l1 l2).
  { destruct (did_seek c) eqn:E; [by exists c|].
    apply (next_spec c l1 l2); [done|]. unfold pending. by rewrite E. }
  destruct Hstart as (c1&->&(Et&Ecx&Es)&Hc1). cbn [mbind option_bind].
  rewrite (item_at c1 l1 l2) by done. cbn [mbind option_bind].
  destruct l2 as [|i l2]; simpl.
  - exists c1. rewrite app_nil_r. done.
  - destruct (next_spec c1 l1 (i :: l2) (l1 ++ [i]) l2) as (c2&->&(Et'&Ecx'&Es')&Hc2); [done| |].
    { unfold pending. by rewrite Es. }
    exists c2. split; [done|]. split; [|done]. unfold same_tree. by rewrite Et', Ecx'.
Qed.
End step_facts.

(** ** [items] *)

Section items_facts.
Context {T S Cx : Type} `{SummaryLaws S Cx, !Item T S Cx, !ItemLaws T S Cx}.

#[export] Instance unit_DimensionLaws : DimensionLaws () S Cx.
Proof. by intros ? [] ? ?. Qed.

Lemma items_loop_spec fuel (c : Cursor T S () Cx) l1 l2 :
  cursor_at c l1 l2 → did_seek c = true → length l2 ≤ fuel → items_loop fuel c = Some l2.
Proof.
  revert c l1 l2. induction fuel as [|fuel IH]; intros c l1 l2 Hc Hs Hf; simpl;
    rewrite (item_at c l1 l2) by done; destruct l2 as [|i l2]; simpl in *; try (done || lia).
  destruct (next_spec c l1 (i :: l2) (l1 ++ [i]) l2) as (c'&->&(_&_&?)&Hc'); [done| |].
  { unfold pending. by rewrite Hs. }
  simpl. by rewrite (IH _ _ _ Hc') by (done || lia).
Qed.

Lemma tree_size_elements (t : SumTree T S) : tree_size t = length (elements t).
Proof.
  revert t. fix IH 1. intros [h s css cts|s items iss]; simpl; [|done].
  induction cts as [|t cts IHc]; simpl; [done|]. by rewrite length_app, IH, IHc.
Qed.

Lemma items_elements cx h (t : SumTree T S) :
  wf cx h t → h < STACK_CAPACITY → items t cx = Some (elements t).
Proof.
  intros Hwf Hh. unfold items.
  destruct (next_spec (cursor_new t cx : Cursor T S () Cx) [] (elements t) [] (elements t))
    as (c&->&(_&_&?)&Hc); [by eapply cursor_at_new|done|].
  simpl. eapply items_loop_spec; [done..|]. by rewrite tree_size_elements.
Qed.
End items_facts.
