(* ===== verification/BackFacts.v ===== *)
(** Stepping a cursor backward: [prev] and filtered backward search.

    [search_backward] moves to the last item before the cursor that the filter
    accepts; when there is none the cursor falls off the start of the tree
    ([at_start]), from where [next] leads to the first item again. *)

From stdpp Require Import base numbers option list.
From S2P Require Import Prelude SumTree SumTreeFacts Search Cursor CursorFacts StepFacts.

#[local] Arguments TREE_BASE : simpl never.
#[local] Arguments Nat.mul : simpl never.

Section back_facts.
Context {T S D Cx : Type} `{SummaryLaws S Cx, !Item T S Cx, !ItemLaws T S Cx, !Dimension D S Cx,
  !DimensionLaws D S Cx}.
Implicit Types (t : SumTree T S) (e : StackEntry T S D) (c : Cursor T S D Cx)
  (st : list (StackEntry T S D)) (cx : Cx) (l : list T) (f : S → bool).

(** The items up to the last accepted one, and the rejected ones after it. *)
Definition backward_split f cx l : list T * list T :=
  let '(rejected, kept) := forward_split f cx (reverse l) in (reverse kept, reverse rejected).

Lemma backward_split_skip f cx l k :
  Forall (λ i, f (item_summary_of i cx) = false) k →
  (backward_split f cx (l ++ k)).1 = (backward_split f cx l).1.
Proof.
  intros Hk. unfold backward_split. rewrite reverse_app, forward_split_skip by by apply Forall_reverse.
  by destruct (forward_split f cx (reverse l)).
Qed.

Lemma backward_split_accept f cx l i :
  f (item_summary_of i cx) = true → (backward_split f cx (l ++ [i])).1 = l ++ [i].
Proof.
  intros Hi. unfold backward_split. rewrite reverse_app. simpl. rewrite Hi. simpl.
  by rewrite reverse_cons, reverse_involutive.
Qed.

Lemma backward_split_true cx l : (backward_split (λ _, true) cx l).1 = l.
Proof.
  unfold backward_split. assert (E : forward_split (λ _, true) cx (reverse l) = ([], reverse l))
    by by destruct (reverse l).
  rewrite E. apply reverse_involutive.
Qed.

(** The state at the head of the loop: the items [l] are still to be searched;
    [descending] when the current entry itself is. *)
Definition back_at cx root hroot (descending : bool) st (pos : D) l : Prop :=
  match st with
  | [] => l = [] ∧ pos = dim_zero cx
  | e :: st' =>
      (∃ h, stack_wf cx root hroot h st) ∧
      eff_index descending e ≤ length (child_summaries (entry_tree e)) ∧
      l = before st' ++ entry_done descending e
  end.

(** Loop iterations left. *)
Definition back_entry (descending : bool) e : nat :=
  match entry_tree e with
  | Leaf _ _ _ => 1 + eff_index descending e
  | Internal _ _ _ cts =>
      1 + list_sum (map (λ t, 1 + backward_weight t) (take (eff_index descending e) cts))
  end.

Definition back_potential (descending : bool) st : nat :=
  match st with
  | [] => 0
  | e :: st => back_entry descending e + list_sum (map (back_entry false) st)
  end.

Lemma list_sum_take {A} (g : A → nat) n (l : list A) :
  list_sum (map g (take n l)) ≤ list_sum (map g l).
Proof. revert n. induction l as [|a l IH]; intros [|n]; simpl; try lia. specialize (IH n). lia. Qed.

Lemma back_entry_weight cx h descending e :
  wf cx h (entry_tree e) →
  eff_index descending e ≤ length (child_summaries (entry_tree e)) →
  back_entry descending e ≤ backward_weight (entry_tree e).
Proof.
  unfold back_entry. intros Hwf Hi. destruct (entry_tree e) eqn:E; simpl.
  - apply le_n_S, list_sum_take.
  - apply wf_leaf_inv in Hwf as (_&->&_). simpl in Hi. rewrite length_fmap in Hi. lia.
Qed.

(** Every entry under the top one is in range. *)
Lemma back_potential_fuel cx root hroot h descending e st :
  stack_wf cx root hroot h (e :: st) →
  eff_index descending e ≤ length (child_summaries (entry_tree e)) →
  back_potential descending (e :: st) ≤ backward_fuel (e :: st).
Proof.
  unfold backward_fuel. revert h descending e. induction st as [|e' st IH];
    intros h descending e Hwf Hi; simpl;
    pose proof (back_entry_weight _ _ _ _ (stack_wf_top _ _ _ _ _ _ Hwf) Hi); [lia|].
  inversion Hwf; subst.
  match goal with Hs : stack_wf _ _ _ _ (_ :: st), Hc : _ !! _ = Some _ |- _ =>
    apply lookup_lt_Some in Hc; pose proof (stack_wf_top _ _ _ _ _ _ Hs) as Ht;
    simpl in Ht; destruct Ht as (_&Ecss&_); specialize (IH _ false _ Hs) end.
  simpl in IH. rewrite Ecss, length_fmap in IH. unfold eff_index in IH; simpl in IH.
  specialize (IH ltac:(lia)). simpl in *. lia.
Qed.

(** The position the loop computes for an entry. *)
Lemma foldl_summaries cx h (d : D) (ts : list (SumTree T S)) :
  Forall (wfne cx h) ts →
  foldl (λ p s, dim_add_summary p s cx) d (summary <$> ts) = dsum cx d (concat (map elements ts)).
Proof.
  intros HF. revert d. induction HF as [|t ts Ht HF IH]; intros d; simpl; [done|].
  change (list_fmap _ _ summary ts) with (summary <$> ts).
  by rewrite IH, (dsum_summary cx h), dsum_app.
Qed.

Lemma foldl_items cx (d : D) l :
  foldl (λ p s, dim_add_summary p s cx) d ((λ i, item_summary_of i cx) <$> l) = dsum cx d l.
Proof. revert d. induction l as [|i l IH]; intros d; simpl; [done|]. apply IH. Qed.

Lemma entry_position_foldl cx root hroot h t i p st :
  stack_wf cx root hroot h (mkEntry t i p :: st) →
  foldl (λ p s, dim_add_summary p s cx)
    (match st with entry :: _ => entry_position entry | [] => dim_zero cx end : D)
    (take i (child_summaries t)) =
  dsum cx (dim_zero cx) (before (mkEntry t i p :: st)).
Proof.
  intros Hwf. cbn [before]. rewrite dsum_app.
  assert (E : match st with entry :: _ => entry_position entry | [] => dim_zero cx end =
              dsum cx (dim_zero cx) (before st) :> D).
  { inversion Hwf; subst; [done|]. simpl. done. }
  rewrite E. clear E. pose proof (stack_wf_top _ _ _ _ _ _ Hwf) as Ht. simpl in Ht.
  unfold entry_done; simpl. unfold eff_index; simpl.
  destruct t as [h' s css cts|s items iss]; simpl.
  - destruct h as [|h]; [done|]. destruct Ht as (_&->&_&_&HF).
    rewrite <- fmap_take. apply (foldl_summaries cx h). by apply Forall_take.
  - apply wf_leaf_inv in Ht as (_&->&_). rewrite <- fmap_take. apply foldl_items.
Qed.

(** What a backward search that may examine [l] returns. *)
Definition back_result fuel f cx root hroot descending st (pos : D) l : Prop :=
  ∃ st' pos', search_backward_loop fuel f cx descending st pos = Some (st', pos') ∧
    match list.last (backward_split f cx l).1 with
    | None => st' = [] ∧ pos' = dim_zero cx
    | Some i => ∃ a l2, (backward_split f cx l).1 = a ++ [i] ∧
        stack_at cx root hroot st' a (i :: l2) ∧ pos' = dsum cx (dim_zero cx) a
    end.

Lemma back_result_skip fuel fuel' f cx root hroot descending descending' st st' (pos pos' : D) l k :
  search_backward_loop fuel f cx descending st pos =
    search_backward_loop fuel' f cx descending' st' pos' →
  Forall (λ i, f (item_summary_of i cx) = false) k →
  back_result fuel' f cx root hroot descending' st' pos' l →
  back_result fuel f cx root hroot descending st pos (l ++ k).
Proof. unfold back_result. intros -> Hk. by rewrite backward_split_skip. Qed.

Lemma back_at_pop cx root hroot e st l :
  back_at cx root hroot false (e :: st) (dim_zero cx) l → entry_index e = 0 →
  back_at cx root hroot false st
    (match st with e :: _ => entry_position e | [] => dim_zero cx end) l.
Proof.
  intros ([h Hwf]&_&->) Hi. unfold back_at.
  assert (E : entry_done false e = []).
  { unfold entry_done, eff_index. rewrite Hi. by destruct (entry_tree e). }
  rewrite E, app_nil_r. destruct st as [|e' st]; [done|]. split_and!; [|..|done].
  - inversion Hwf; subst. by eexists.
  - inversion Hwf; subst. simpl. match goal with Hs : stack_wf _ _ _ _ (_ :: st), Hc : _ !! _ = Some _ |- _ =>
      apply lookup_lt_Some in Hc; pose proof (stack_wf_top _ _ _ _ _ _ Hs) as Ht;
      simpl in Ht; destruct Ht as (_&->&_) end.
    rewrite length_fmap. unfold eff_index; simpl. lia.
Qed.

Lemma filter_sound_app_l f cx l k : filter_sound f cx (l ++ k) → filter_sound f cx l.
Proof. intros Hs l1 l2 l3 -> ?. apply (Hs l1 l2 (l3 ++ k)); [by rewrite <- !app_assoc|done]. Qed.

Lemma back_step_leaf fuel f cx root hroot s (items : list T) (iss : list S) descending i n p st pos l :
  let e := mkEntry (Leaf s items iss) i p in
  eff_index descending e = Datatypes.S n →
  (∀ pos l, back_at cx root hroot false (mkEntry (Leaf s items iss) n pos :: st) pos l →
    filter_sound f cx l →
    back_result fuel f cx root hroot false (mkEntry (Leaf s items iss) n pos :: st) pos l) →
  back_at cx root hroot descending (e :: st) pos l → filter_sound f cx l →
  back_result (Datatypes.S fuel) f cx root hroot descending (e :: st) pos l.
Proof.
  intros e Hn IH ([h Hwf]&Hidx&->) Hs. rewrite Hn in Hidx.
  destruct (wf_leaf_inv cx h s items iss) as (->&Eiss&_);
    [by eapply (stack_wf_top _ _ _ _ e)|].
  simpl in Hidx. rewrite Eiss, length_fmap in Hidx.
  destruct (lookup_lt_is_Some_2 items n) as [x Hx]; [lia|].
  unfold entry_done in *; simpl in *. rewrite Hn, (take_S_r _ _ _ Hx) in *.
  rewrite app_assoc in *.
  assert (Hpos : foldl (λ p s, dim_add_summary p s cx)
    (match st with entry :: _ => entry_position entry | [] => dim_zero cx end)
    (take n (child_summaries (Leaf s items iss))) =
    dsum cx (dim_zero cx) (before st ++ take n items)).
  { etrans; [apply (entry_position_foldl cx root hroot 0 _ n p)|done]. by eapply stack_wf_update. }
  set (pos' := dsum cx (dim_zero cx) (before st ++ take n items)) in *.
  assert (Heq : search_backward_loop (Datatypes.S fuel) f cx descending (e :: st) pos =
    if f (item_summary_of x cx) then Some (mkEntry (Leaf s items iss) n pos' :: st, pos')
    else search_backward_loop fuel f cx false (mkEntry (Leaf s items iss) n pos' :: st) pos').
  { assert (Ei : (if descending then i else i - 1) = n)
      by (unfold eff_index in Hn; simpl in Hn; destruct descending; lia).
    cbn [search_backward_loop e]. rewrite Ei, Hpos.
    assert (Eb : negb descending && bool_decide (i = 0) = false).
    { unfold eff_index in Hn; simpl in Hn. destruct descending; [done|]. simpl.
      apply bool_decide_eq_false_2. lia. }
    rewrite Eb. simpl. rewrite Eiss, list_lookup_fmap, Hx. simpl.
    by destruct (f (item_summary_of x cx)). }
  destruct (f (item_summary_of x cx)) eqn:Ef.
  - exists (mkEntry (Leaf s items iss) n pos' :: st), pos'. split; [done|].
    rewrite backward_split_accept, last_snoc by done.
    eexists _, _. split; [done|]. split; [|done]. split_and!.
    + by eapply stack_wf_update.
    + simpl. lia.
    + done.
    + unfold entry_rest; simpl. unfold eff_index; simpl. by rewrite (drop_S _ _ _ Hx).
  - eapply back_result_skip; [exact Heq|by apply Forall_singleton|].
    apply IH; [|by eapply filter_sound_app_l]. split; [exists 0; by eapply stack_wf_update|].
    split; [|done]. simpl. rewrite Eiss, length_fmap. unfold eff_index; simpl. lia.
Qed.

Lemma back_step_internal fuel f cx root hroot h' s css (cts : list (SumTree T S))
    descending i n p st pos l :
  let e := mkEntry (Internal h' s css cts) i p in
  hroot < STACK_CAPACITY →
  eff_index descending e = Datatypes.S n →
  (∀ descending' e' st' pos l, back_at cx root hroot descending' (e' :: st') pos l →
    filter_sound f cx l → back_potential descending' (e' :: st') ≤ fuel →
    back_result fuel f cx root hroot descending' (e' :: st') pos l) →
  back_at cx root hroot descending (e :: st) pos l → filter_sound f cx l →
  back_potential descending (e :: st) ≤ Datatypes.S fuel →
  back_result (Datatypes.S fuel) f cx root hroot descending (e :: st) pos l.
Proof.
  intros e Hcap Hn IH ([h Hwf]&Hidx&->) Hs Hpot. rewrite Hn in Hidx.
  pose proof (stack_wf_top _ _ _ _ _ _ Hwf) as Htop. simpl in Htop.
  destruct h as [|h]; [done|]. destruct Htop as (Eh&Ecss&_&_&HF).
  simpl in Hidx. rewrite Ecss, length_fmap in Hidx.
  destruct (lookup_lt_is_Some_2 cts n) as [t Ht]; [lia|].
  pose proof (Forall_lookup_1 _ _ _ _ HF Ht) as Hwft. change (wfne cx h t) in Hwft.
  set (l' := before st ++ concat (map elements (take n cts))).
  assert (El : before st ++ entry_done descending e = l' ++ elements t).
  { unfold entry_done; simpl. rewrite Hn, (take_S_r _ _ _ Ht), map_app, concat_app. simpl.
    by rewrite app_nil_r, app_assoc. }
  rewrite El in *. clear El.
  assert (Hpos : foldl (λ p s, dim_add_summary p s cx)
    (match st with entry :: _ => entry_position entry | [] => dim_zero cx end)
    (take n (child_summaries (Internal h' s css cts))) = dsum cx (dim_zero cx) l').
  { etrans; [apply (entry_position_foldl cx root hroot (Datatypes.S h) _ n p)|done].
    by eapply stack_wf_update. }
  set (pos' := dsum cx (dim_zero cx) l') in *.
  set (e' := mkEntry (Internal h' s css cts) n pos').
  set (child := mkEntry t (length (child_summaries t) - 1) (dim_zero cx : D)).
  assert (Hwf' : stack_wf cx root hroot (Datatypes.S h) (e' :: st)) by by eapply stack_wf_update.
  assert (Heq : search_backward_loop (Datatypes.S fuel) f cx descending (e :: st) pos =
    if f (summary t) then search_backward_loop fuel f cx true (child :: e' :: st) pos'
    else search_backward_loop fuel f cx false (e' :: st) pos').
  { assert (Ei : (if descending then i else i - 1) = n)
      by (unfold eff_index in Hn; simpl in Hn; destruct descending; lia).
    cbn [search_backward_loop e]. rewrite Ei, Hpos.
    assert (Eb : negb descending && bool_decide (i = 0) = false).
    { unfold eff_index in Hn; simpl in Hn. destruct descending; [done|]. simpl.
      apply bool_decide_eq_false_2. lia. }
    rewrite Eb. simpl. rewrite Ecss, list_lookup_fmap, Ht. simpl.
    destruct (f (summary t)); [|by rewrite <- Ecss].
    rewrite stack_push_Some; [by rewrite <- Ecss|].
    apply stack_wf_height in Hwf. simpl in *. lia. }
  assert (Hbw : back_entry descending e = back_entry false e' + (1 + backward_weight t)).
  { unfold back_entry; simpl. rewrite Hn, (take_S_r _ _ _ Ht), map_app, list_sum_app. simpl.
    unfold eff_index; simpl. lia. }
  destruct (f (summary t)) eqn:Ef.
  - assert (Hlen : eff_index true child = length (child_summaries t)).
    { unfold eff_index; simpl. pose proof (wfne_elements _ _ _ Hwft) as Hne.
      destruct Hwft as [Hwft _]. destruct t as [h1 s1 css1 cts1|s1 items1 iss1].
      - destruct h as [|h]; [done|]. destruct Hwft as (_&->&_&Hl&_). simpl.
        rewrite length_fmap. lia.
      - apply wf_leaf_inv in Hwft as (_&->&_). simpl in *. rewrite length_fmap.
        destruct items1; simpl; [done|lia]. }
    assert (Hat : back_at cx root hroot true (child :: e' :: st) pos' (l' ++ elements t)).
    { split; [|split; [by rewrite Hlen|]].
      - exists h. apply stack_wf_push; [done..|]. by unfold pos'.
      - change (before (e' :: st)) with l'. f_equal.
        unfold entry_done. rewrite Hlen. simpl. destruct Hwft as [Hwft _].
        destruct t as [h1 s1 css1 cts1|s1 items1 iss1].
        + destruct h as [|h]; [done|]. destruct Hwft as (_&->&_&_&_). simpl.
          by rewrite length_fmap, firstn_all.
        + apply wf_leaf_inv in Hwft as (_&->&_). simpl. by rewrite length_fmap, firstn_all. }
    destruct (IH true child (e' :: st) pos' (l' ++ elements t)) as (st'&p'&?&?); [done|done| |].
    + pose proof (back_entry_weight cx h true child (proj1 Hwft) ltac:(by rewrite Hlen)) as Hw.
      change (back_entry descending e + list_sum (map (back_entry false) st) ≤ Datatypes.S fuel) in Hpot.
      change (back_entry true child + (back_entry false e' + list_sum (map (back_entry false) st))
        ≤ fuel).
      change (entry_tree child) with t in Hw. lia.
    + exists st', p'. by rewrite Heq.
  - eapply back_result_skip; [exact Heq| |].
    + apply (Hs l' (elements t) []); [by rewrite app_nil_r|by eapply wfne_elements|].
      by rewrite <- (wfne_summary _ _ _ Hwft).
    + apply IH; [|by eapply filter_sound_app_l|].
      2: { change (back_entry descending e + list_sum (map (back_entry false) st)
             ≤ Datatypes.S fuel) in Hpot.
           change (back_entry false e' + list_sum (map (back_entry false) st) ≤ fuel). lia. }
      split; [by eexists|]. split; [|done]. simpl. rewrite Ecss, length_fmap.
      unfold eff_index; simpl. lia.
Qed.

(** The loop from any state, within the fuel of the stack. *)
Lemma back_loop_spec fuel f cx root hroot descending st pos l :
  hroot < STACK_CAPACITY →
  back_at cx root hroot descending st pos l → filter_sound f cx l →
  back_potential descending st ≤ fuel →
  back_result fuel f cx root hroot descending st pos l.
Proof.
  intros Hcap. revert descending st pos l.
  induction fuel as [|fuel IH]; intros descending [|[t i p] st] pos l Hat Hs Hpot.
  1, 3: destruct Hat as [-> ->]; by exists [], (dim_zero cx).
  { simpl in Hpot. unfold back_entry in Hpot. destruct t; simpl in Hpot; lia. }
  destruct (eff_index descending (mkEntry t i p)) as [|n] eqn:Hn.
  - assert (descending = false ∧ i = 0) as [-> ->]
      by (unfold eff_index in Hn; destruct descending; simpl in Hn; done).
    destruct (IH false st _ l (back_at_pop _ _ _ _ _ _ Hat eq_refl) Hs) as (st'&p'&Hl&Hr).
    + simpl in *. unfold back_entry in Hpot at 1. destruct st; destruct t; simpl in *; lia.
    + by exists st', p'.
  - destruct t as [h' s css cts|s items iss].
    + eapply back_step_internal; eauto.
    + eapply back_step_leaf; [done| |done..]. intros pos0 l0 Hat0 Hs0. apply IH; try done.
      simpl in *. unfold back_entry in *. simpl in *. rewrite Hn in Hpot.
      unfold eff_index; simpl. lia.
Qed.

(** *** Cursors *)

(** The items before a cursor that was not moved yet are all of them: a
    backward search starts at the end. *)
Definition behind c l1 : list T := if did_seek c then l1 else elements (cursor_tree c).

(** Off the start of the tree. *)
Definition at_start c : Prop :=
  did_seek c = true ∧ cursor_stack c = [] ∧ position c = dim_zero (cursor_cx c) ∧
  at_end c = is_empty (cursor_tree c).

Lemma backward_split_prefix f cx l : ∃ k, l = (backward_split f cx l).1 ++ k.
Proof.
  unfold backward_split. destruct (forward_split f cx (reverse l)) as [a b] eqn:E. simpl.
  exists (reverse a). rewrite <- reverse_app, <- (reverse_involutive l). f_equal.
  revert a b E. generalize (reverse l). clear l. intros l.
  induction l as [|i l IH]; intros a b E; simpl in E; [by simplify_eq|].
  destruct (f (item_summary_of i cx)); [by simplify_eq|].
  destruct (forward_split f cx l) as [a' b']. simplify_eq/=. f_equal. eauto.
Qed.

(** *** [search_backward] moves to the last accepted item before the cursor. *)
Lemma search_backward_spec c f l1 l2 :
  cursor_at c l1 l2 → filter_sound f (cursor_cx c) (behind c l1) →
  ∃ c', search_backward c f = Some c' ∧ same_tree c c' ∧
    match list.last (backward_split f (cursor_cx c) (behind c l1)).1 with
    | None => at_start c'
    | Some i => ∃ a l2', (backward_split f (cursor_cx c) (behind c l1)).1 = a ++ [i] ∧
        cursor_at c' a (i :: l2')
    end.
Proof.
  intros Hat0 Hs. pose proof (cursor_at_elements c l1 l2 Hat0) as Happ.
  destruct Hat0 as (h&Hwf&Hh&Hpos&Hc). unfold search_backward.
  set (cx := cursor_cx c) in *.
  set (back := if did_seek c then at_end c else true).
  assert (Hstart : (is_empty (cursor_tree c) = true ∧ behind c l1 = [] ∧ cursor_stack c = []) ∨
    is_empty (cursor_tree c) = false ∧ ∃ st pos,
      (if back then if is_empty (cursor_tree c) then Some (cursor_stack c, dim_zero cx, true)
       else stack ← stack_push (mkEntry (cursor_tree c) (length (child_summaries (cursor_tree c)))
                    (from_summary_dim (summary (cursor_tree c)) cx)) (cursor_stack c);
            Some (stack, dim_zero cx, false)
       else Some (cursor_stack c, position c, false)) = Some (st, pos, false) ∧
      back_at cx (cursor_tree c) h false st pos (behind c l1) ∧
      back_potential false st ≤ backward_fuel st).
  { assert (Hfresh : cursor_stack c = [] → behind c l1 = elements (cursor_tree c) →
      is_empty (cursor_tree c) = false → ∃ st pos,
      (stack ← stack_push (mkEntry (cursor_tree c) (length (child_summaries (cursor_tree c)))
                    (from_summary_dim (summary (cursor_tree c)) cx)) (cursor_stack c);
            Some (stack, dim_zero cx, false)) = Some (st, pos, false) ∧
      back_at cx (cursor_tree c) h false st pos (behind c l1) ∧
      back_potential false st ≤ backward_fuel st).
    { intros -> -> Hne. eexists _, _. split; [done|].
      assert (Hst : stack_wf cx (cursor_tree c) h h [mkEntry (cursor_tree c)
        (length (child_summaries (cursor_tree c))) (from_summary_dim (summary (cursor_tree c)) cx : D)])
        by by constructor.
      split; [|by eapply back_potential_fuel].
      split; [by eexists|]. split; [done|]. simpl. unfold entry_done, eff_index; simpl.
      destruct (cursor_tree c) as [h' s css cts|s items iss]; simpl.
      - destruct h as [|h]; [done|]. destruct Hwf as (_&->&_). by rewrite length_fmap, firstn_all.
      - apply wf_leaf_inv in Hwf as (_&->&_). by rewrite length_fmap, firstn_all. }
    destruct (is_empty (cursor_tree c)) eqn:Ee.
    - left. split; [done|]. destruct (wf_empty_elements _ _ _ Hwf Ee) as [Eel ->].
      rewrite Eel in Happ. symmetry in Happ. apply app_eq_nil in Happ as [-> ->].
      unfold behind. rewrite Eel. destruct (did_seek c); [|by destruct Hc as [? _]].
      split; [done|]. destruct Hc as [Hat _]. apply stack_at_nil in Hat.
      by destruct (cursor_stack c).
    - right. split; [done|]. unfold back, behind in *. destruct (did_seek c) eqn:Ed.
      + destruct Hc as [Hat Hend]. destruct (at_end c) eqn:Eend.
        * pose proof (stack_at_nil _ _ _ _ _ _ Hat) as Hn. rewrite <- Hend in Hn.
          destruct (cursor_stack c) as [|]; [|done]. destruct Hat as [-> ->]. by apply Hfresh.
        * pose proof (stack_at_nil _ _ _ _ _ _ Hat) as Hn. rewrite <- Hend in Hn.
          destruct (cursor_stack c) as [|e st] eqn:Est; [done|].
          eexists _, _. split; [done|].
          destruct (stack_at_top _ _ _ _ _ _ _ Hat) as (s&items&iss&i&l2'&Ee'&->&Hi&_&_).
          destruct Hat as (Hst&Hidx&->&_).
          assert (eff_index false e ≤ length (child_summaries (entry_tree e))).
          { rewrite Ee'. simpl. rewrite length_fmap. unfold eff_index.
            apply lookup_lt_Some in Hi. lia. }
          split; [|by eapply back_potential_fuel]. split; [by eexists|]. by split.
      + destruct Hc as (Est&_&_&_). by apply Hfresh. }
  destruct Hstart as [(He&Hb&Est)|(He&st&pos&Hstart&Hat&Hfuel)].
  - rewrite Hb, Est, He. assert (Eback : back = true).
    { unfold back. destruct (did_seek c); [|done]. destruct Hc as [Hat ->].
      rewrite Est in Hat. by destruct Hat as [_ ->]. }
    rewrite Eback. simpl. eexists. split; [done|]. split; [done|]. by split_and!.
  - fold back. rewrite Hstart. cbn [mbind option_bind].
    destruct (back_loop_spec (backward_fuel st) f cx (cursor_tree c) h false st pos (behind c l1))
      as (st'&pos'&->&Hres); [done..|].
    cbn [mbind option_bind]. eexists. split; [done|]. split; [done|].
    destruct (list.last _) as [i|].
    + destruct Hres as (a&l2'&Ea&Hat'&->). exists a, l2'. split; [done|]. by exists h.
    + destruct Hres as [-> ->]. by split_and!.
Qed.

Lemma prev_spec c l1 l2 :
  cursor_at c l1 l2 →
  ∃ c', prev c = Some c' ∧ same_tree c c' ∧
    match list.last (behind c l1) with
    | None => at_start c'
    | Some i => ∃ a l2', behind c l1 = a ++ [i] ∧ cursor_at c' a (i :: l2')
    end.
Proof.
  intros Hc. destruct (search_backward_spec c (λ _, true) l1 l2 Hc) as (c'&?&?&Hres).
  { apply filter_sound_true. }
  rewrite backward_split_true in Hres. eauto.
Qed.

(** Off the start a cursor holds no item, and steps forward like a fresh one. *)
Lemma at_start_item c : at_start c → item c = Some None.
Proof. intros (Hd&Hst&_). unfold item. by rewrite Hd, Hst. Qed.

Lemma at_start_forward c f :
  at_start c → search_forward c f = search_forward (cursor_new (cursor_tree c) (cursor_cx c)) f.
Proof.
  destruct c as [t st pos ds ae cx]. intros (Hd&Hst&Hp&Ha). simpl in *. by subst.
Qed.
End back_facts.
