(* ===== verification/Iter.v ===== *)
(** The plain iterator of a tree: [Iter] of [crates/sum_tree/src/cursor.rs].

    It walks the same stack as a cursor, without summaries.  Its step is the
    step of a cursor with the always-true filter ([iter_loop_search]), so it
    yields the sequence of the tree in order. *)

From stdpp Require Import base numbers option list.
From S2P Require Import Prelude SumTree SumTreeFacts Search Cursor CursorFacts StepFacts.

#[local] Arguments TREE_BASE : simpl never.
#[local] Arguments Nat.mul : simpl never.

Section iter.
Context {T S : Type}.
Implicit Types (t : SumTree T S) (st : list (StackEntry T S ())).

Record Iter := mkIter {
  iter_tree : SumTree T S;
  iter_stack : list (StackEntry T S ())
}.

Definition iter_new t : Iter := mkIter t [].

Fixpoint iter_loop (fuel : nat) (descend : bool) st
    : option (list (StackEntry T S ()) * option T) :=
  match st with
  | [] => Some ([], None)
  | mkEntry tree index _ :: below =>
      match fuel with
      | O => None
      | Datatypes.S fuel =>
          let index := if descend then index else index + 1 in
          match tree with
          | Internal _ _ _ child_trees =>
              match child_trees !! index with
              | Some subtree =>
                  stack ← stack_push (mkEntry subtree 0 ()) (mkEntry tree index () :: below);
                  iter_loop fuel true stack
              | None => iter_loop fuel false below
              end
          | Leaf _ items _ =>
              match items !! index with
              | Some next_item => Some (mkEntry tree index () :: below, Some next_item)
              | None => iter_loop fuel false below
              end
          end
      end
  end.

(** [Iterator::next]; an exhausted iterator has an empty stack, as a new one. *)
Definition iter_next (self : Iter) : option (Iter * option T) :=
  '(stack, descend) ←
    match iter_stack self with
    | [] => stack ← stack_push (mkEntry (iter_tree self) 0 ()) []; Some (stack, true)
    | stack => Some (stack, false)
    end;
  '(stack, i) ← iter_loop (stack_fuel stack) descend stack;
  Some (mkIter (iter_tree self) stack, i).

(** [Iterator::last]. *)
Definition iter_last (self : Iter) : option (option T) :=
  leaf ← rightmost_leaf (iter_tree self);
  items ← node_items leaf;
  Some (list.last items).

(** The lower bound of [Iterator::size_hint]. *)
Definition size_hint (self : Iter) : nat :=
  match iter_stack self with
  | top :: _ => length (child_summaries (entry_tree top)) - entry_index top
  | [] => length (child_summaries (iter_tree self))
  end.

(** Driving an iterator until it returns [None]. *)
Fixpoint iter_collect (fuel : nat) (self : Iter) : option (list T) :=
  '(self, i) ← iter_next self;
  match i with
  | None => Some []
  | Some i =>
      match fuel with
      | O => None
      | Datatypes.S fuel => l ← iter_collect fuel self; Some (i :: l)
      end
  end.
End iter.
Arguments Iter : clear implicits.

Section iter_facts.
Context {T S Cx : Type} `{SummaryLaws S Cx, !Item T S Cx, !ItemLaws T S Cx}.
Implicit Types (t : SumTree T S) (st : list (StackEntry T S ())) (l : list T) (cx : Cx).

Definition top_item st : option T :=
  match st with
  | mkEntry (Leaf _ items _) index _ :: _ => items !! index
  | _ => None
  end.

Lemma skip_rejected_true cx (summaries : list S) index (p q : ()) :
  skip_rejected (λ _, true) cx summaries index p q = (index, p, q).
Proof. by destruct summaries. Qed.

Lemma iter_loop_search fuel cx descend st st' :
  Forall (λ e, ∃ h, wf cx h (entry_tree e)) st →
  search_forward_loop fuel (λ _, true) cx descend st () = Some (st', ()) →
  iter_loop fuel descend st = Some (st', top_item st').
Proof.
  revert descend st. induction fuel as [|fuel IH];
    intros descend [|[t i []] st] HF Hl; simpl in *; simplify_eq/=; try done.
  apply Forall_cons in HF as [[h Ht] HF]. simpl in Ht. destruct t as [h' s css cts|s items iss].
  - rewrite skip_rejected_true in Hl.
    assert (E : (if descend then () else ()) = ()) by by destruct descend.
    rewrite E in Hl. assert (Ei : (if descend then i else i + 1) = (if descend then i else i + 1)) by done.
    destruct (cts !! _) as [t|] eqn:Et; [|by apply IH].
    destruct (stack_push _ _) as [st1|] eqn:Ep; [|done]. simpl in *.
    apply IH; [|done]. unfold stack_push in Ep. case_bool_decide; simplify_eq.
    apply Forall_cons_2; [|apply Forall_cons_2; [by exists h|done]].
    simpl. destruct h as [|h]; [done|]. destruct Ht as (_&_&_&_&HFt).
    apply (Forall_lookup_1 _ _ _ _ HFt) in Et as [??]. by exists h.
  - apply wf_leaf_inv in Ht as (->&->&_).
    assert (Hstep : ∀ n, (if bool_decide (n < length ((λ i, item_summary_of i cx) <$> items))
        then Some (mkEntry (Leaf s items ((λ i, item_summary_of i cx) <$> items)) n () :: st, ())
        else search_forward_loop fuel (λ _, true) cx false st ()) = Some (st', ()) →
      match items !! n with
      | Some next_item => Some (mkEntry (Leaf s items ((λ i, item_summary_of i cx) <$> items)) n () :: st, Some next_item)
      | None => iter_loop fuel false st
      end = Some (st', top_item st')).
    { intros n. rewrite length_fmap. case_bool_decide as Hn.
      - intros [= <-]. simpl. by destruct (lookup_lt_is_Some_2 items n Hn) as [x ->].
      - rewrite lookup_ge_None_2 by lia. by apply IH. }
    destruct descend; simpl in Hl.
    + rewrite skip_rejected_true in Hl. by apply Hstep.
    + destruct (_ !! i) eqn:Ei in Hl; [|done]. simpl in Hl.
      rewrite skip_rejected_true in Hl. by apply Hstep.
Qed.

Lemma stack_wf_Forall cx root hroot h st :
  stack_wf cx root hroot h st → Forall (λ e, ∃ h, wf cx h (entry_tree e)) st.
Proof.
  induction 1 as [i p Hr|h i p j q h' s css cts t st Hs IH Hj [Ht _] Hq].
  - apply Forall_singleton. by exists hroot.
  - apply Forall_cons_2; [by exists h|done].
Qed.

(** What an iterator has still to yield: the items after the last one it
    yielded. *)
Definition iter_at (cx : Cx) (self : Iter T S) l : Prop :=
  ∃ h, wf cx h (iter_tree self) ∧ h < STACK_CAPACITY ∧
    match iter_stack self with
    | [] => l = elements (iter_tree self)
    | st => ∃ l1 i, stack_at cx (iter_tree self) h st l1 (i :: l)
    end.

Lemma stack_at_Forall cx root h st l1 l2 :
  stack_at cx root h st l1 l2 → Forall (λ e, ∃ h, wf cx h (entry_tree e)) st.
Proof. destruct st; [done|]. intros (?&_). by eapply stack_wf_Forall. Qed.

Lemma top_item_at cx root h st l1 l2 : stack_at cx root h st l1 l2 → top_item st = head l2.
Proof.
  destruct st as [|[t n p] st]; [by intros [_ ->]|].
  intros (s&items&iss&i&l2'&E&_&Hi&->&_)%stack_at_top. simpl in *. by rewrite E.
Qed.

Lemma forward_split_true cx l : forward_split (λ _, true) cx l = ([], l).
Proof. by destruct l. Qed.

Lemma iter_next_spec cx self l :
  iter_at cx self l →
  ∃ self', iter_next self = Some (self', head l) ∧ iter_tree self' = iter_tree self ∧
    iter_at cx self' (match l with [] => elements (iter_tree self) | _ :: l => l end).
Proof.
  intros (h&Hwf&Hh&Hat). unfold iter_next.
  destruct (iter_stack self) as [|e st].
  - subst l. cbn [mbind option_bind]. rewrite stack_push_Some
      by (simpl; unfold STACK_CAPACITY; lia). cbn [mbind option_bind].
    destruct (forward_loop_spec (D:=()) (stack_fuel [mkEntry (iter_tree self) 0 ()]) (λ _, true) cx
      (iter_tree self) h false [mkEntry (iter_tree self) 0 ()] [] (elements (iter_tree self)) ())
      as [st' Hres]; [done|done|exact (loop_at_fresh (D:=()) cx (iter_tree self) h Hwf)|apply filter_sound_true|
      apply stack_potential_fuel|].
    rewrite forward_split_true in Hres. destruct Hres as [Hl Hat'].
    apply iter_loop_search in Hl; [|apply Forall_singleton; by exists h].
    simpl negb in Hl. rewrite Hl. cbn [mbind option_bind]. rewrite (top_item_at _ _ _ _ _ _ Hat').
    eexists. split; [done|]. split; [done|]. exists h. split_and!; [done..|]. simpl.
    destruct (elements (iter_tree self)) as [|i l]; [by apply stack_at_nil in Hat'; destruct st'|].
    destruct st' as [|e st']; [by destruct Hat'|]. eauto.
  - destruct Hat as (l1&i&Hat). cbn [mbind option_bind].
    destruct (forward_loop_resting (D:=()) (stack_fuel (e :: st)) (λ _, true) cx (iter_tree self) h e
      st l1 i l ()) as [st' Hres]; [done|done|by destruct (dsum cx (dim_zero cx) l1)|done|
      apply filter_sound_true|done|].
    rewrite forward_split_true in Hres. destruct Hres as [Hl Hat'].
    apply (iter_loop_search (stack_fuel (e :: st)) cx false) in Hl; [|by eapply stack_at_Forall].
    rewrite Hl. cbn [mbind option_bind]. rewrite (top_item_at _ _ _ _ _ _ Hat').
    eexists. split; [done|]. split; [done|]. exists h. split_and!; [done..|]. simpl.
    destruct l as [|j l]; [by apply stack_at_nil in Hat'; destruct st'|].
    destruct st' as [|e' st']; [by destruct Hat'|]. eauto.
Qed.

Lemma iter_collect_spec fuel cx self l :
  iter_at cx self l → length l ≤ fuel → iter_collect fuel self = Some l.
Proof.
  revert self l. induction fuel as [|fuel IH]; intros self l Hat Hf; simpl;
    destruct (iter_next_spec cx self l Hat) as (self'&->&_&Hat'); simpl;
    destruct l as [|i l]; simpl in *; try (done || lia).
  by rewrite (IH self' l) by (done || lia).
Qed.

Lemma iter_at_new cx h t : wf cx h t → h < STACK_CAPACITY → iter_at cx (iter_new t) (elements t).
Proof. intros. by exists h. Qed.
End iter_facts.
