(* ===== verification/CursorApi.v ===== *)
(** The public operations of a cursor, on sequences.

    [seek], [seek_forward], [slice], [suffix] and [summary] move the cursor
    along the cut [seek_split] of what is ahead of it; [slice] returns the tree
    of what it passed and [summary] its total.  [dim_mono] is the condition
    under which a search by an ordered dimension is monotone. *)

From stdpp Require Import base numbers option list.
From S2P Require Import Prelude SumTree SumTreeFacts Search Cursor CursorFacts StepFacts BackFacts Iter.

#[local] Arguments TREE_BASE : simpl never.
#[local] Arguments Nat.mul : simpl never.

Section api.
Context {T S D Cx : Type} `{SummaryLaws S Cx, !Item T S Cx, !ItemLaws T S Cx, !Dimension D S Cx}.
Implicit Types (t : SumTree T S) (c : Cursor T S D Cx) (cx : Cx) (l : list T) (bias : Bias).

Lemma seek_split_End cx (d : D) l : seek_split (stops cx End_new Right) cx d l = (l, []).
Proof. revert d. induction l as [|i l IH]; intros d; simpl; [done|]. by rewrite IH. Qed.

Lemma seek_mono_End cx (d : D) l : seek_mono (stops cx End_new Right) cx d l.
Proof. by intros l1 l2 l3. Qed.

Lemma slice_new_closed cx :
  agg_closed cx (mkSlice (new cx) [] [] (summary_zero cx) : SliceSeekAggregate T S) [].
Proof. split_and!; try done. exists 0. apply wf_new. Qed.

(** The cut a seek makes, as one cursor state. *)
Definition seek_cut {Target} `{!SeekTarget Target D Cx} c (target : Target) bias l :=
  seek_split (stops (cursor_cx c) target bias) (cursor_cx c) (position c) l.

Section target.
Context {Target : Type} `{!SeekTarget Target D Cx}.
Implicit Types target : Target.

(** The targets a cursor may seek: not before its position, and decided
    monotonically along what is ahead. *)
Definition seekable c target bias l : Prop :=
  target_cmp target (position c) (cursor_cx c) ≠ Lt ∧
  seek_good (stops (cursor_cx c) target bias) (cursor_cx c) (position c) l.

Definition found c target bias l1 l2 : bool :=
  match target_cmp target (seek_end c bias l1 l2) (cursor_cx c) with Eq => true | _ => false end.

Lemma seek_forward_spec c target bias l1 l2 a b :
  cursor_at c l1 l2 → seekable c target bias l2 → seek_cut c target bias l2 = (a, b) →
  ∃ c', seek_forward c target bias = Some (c', found c target bias (l1 ++ a) b) ∧
    same_tree c c' ∧ cursor_at c' (l1 ++ a) b.
Proof.
  intros Hc [Hge Hm] Hcut.
  destruct (seek_internal_spec c target bias () [] l1 l2) as (c'&u&Hres); [done..|].
  unfold seek_cut in Hcut. rewrite Hcut in Hres. destruct Hres as (E&?&?&_).
  exists c'. unfold seek_forward. rewrite E. done.
Qed.

Lemma seek_spec c target bias l1 l2 a b :
  cursor_at c l1 l2 → seekable (reset c) target bias (l1 ++ l2) →
  seek_cut (reset c) target bias (l1 ++ l2) = (a, b) →
  ∃ c', seek c target bias = Some (c', found (reset c) target bias a b) ∧
    same_tree c c' ∧ cursor_at c' a b.
Proof.
  intros Hc Hs Hcut. rewrite <- (cursor_at_elements _ _ _ Hc) in *.
  apply (seek_forward_spec (reset c) target bias [] (elements (cursor_tree c)) a b); try done.
  by eapply cursor_at_reset.
Qed.

Lemma slice_spec c target bias l1 l2 a b :
  cursor_at c l1 l2 → seekable c target bias l2 → seek_cut c target bias l2 = (a, b) →
  ∃ c' t h, slice c target bias = Some (c', t) ∧ same_tree c c' ∧ cursor_at c' (l1 ++ a) b ∧
    wf (cursor_cx c) h t ∧ elements t = a.
Proof.
  intros Hc [Hge Hm] Hcut.
  destruct (seek_internal_spec c target bias (mkSlice (new (cursor_cx c)) [] []
    (summary_zero (cursor_cx c))) [] l1 l2) as (c'&agg&Hres);
    [done..|apply slice_new_closed|].
  unfold seek_cut in Hcut. rewrite Hcut in Hres. destruct Hres as (E&?&?&([h Hh]&Hel&_)).
  exists c', (slice_tree agg), h. unfold slice. rewrite E. done.
Qed.

Lemma cursor_summary_spec {Output} `{!Dimension Output S Cx, !DimensionLaws Output S Cx}
    c target bias l1 l2 a b :
  cursor_at c l1 l2 → seekable c target bias l2 → seek_cut c target bias l2 = (a, b) →
  ∃ c', cursor_summary c target bias =
      Some (c', dsum (cursor_cx c) (dim_zero (cursor_cx c)) a : Output) ∧
    same_tree c c' ∧ cursor_at c' (l1 ++ a) b.
Proof.
  intros Hc [Hge Hm] Hcut.
  destruct (seek_internal_spec c target bias
    (mkSummaryAggregate (dim_zero (cursor_cx c)) : SummarySeekAggregate Output) [] l1 l2)
    as (c'&agg&Hres); [done..|].
  unfold seek_cut in Hcut. rewrite Hcut in Hres. destruct Hres as (E&?&?&Ha). simpl in Ha.
  exists c'. unfold cursor_summary. rewrite E. simpl. by rewrite Ha.
Qed.
End target.

Context `{!DimensionLaws D S Cx}.

Lemma suffix_spec c l1 l2 :
  cursor_at c l1 l2 →
  ∃ c' t h, suffix c = Some (c', t) ∧ same_tree c c' ∧ cursor_at c' (l1 ++ l2) [] ∧
    wf (cursor_cx c) h t ∧ elements t = l2.
Proof.
  intros Hc. apply slice_spec with l2; [done| |apply seek_split_End].
  split; [done|apply seek_good_mono, seek_mono_End].
Qed.

(** *** Ordered dimensions *)

Context `{!Ord D, !OrdLaws D}.

Definition dim_mono cx (d : D) l : Prop :=
  ∀ l1 l2 l3, l = l1 ++ l2 ++ l3 → l1 ≠ [] → cmp (dsum cx d l1) (dsum cx d (l1 ++ l2)) ≠ Gt.

Lemma stops_le cx (target d d' : D) bias :
  cmp d d' ≠ Gt → stops cx target bias d = true → stops cx target bias d' = true.
Proof.
  unfold stops, target_in_child, target_cmp, Ord_SeekTarget. intros Hd.
  destruct (cmp target d) eqn:E; [|by rewrite (cmp_lt_le_trans _ _ _ E Hd)|done].
  apply cmp_eq_iff in E as ->. by destruct (cmp d d'), bias.
Qed.

Lemma seek_mono_ord cx (target : D) bias d l :
  dim_mono cx d l → seek_mono (stops cx target bias) cx d l.
Proof. intros Hd l1 l2 l3 E Hne. eapply stops_le. by eapply Hd. Qed.

Lemma seek_mono_ord_before cx (target : D) d l :
  dim_mono cx d l → seek_mono (stops_before cx target) cx d l.
Proof.
  intros Hd l1 l2 l3 E Hne. specialize (Hd l1 l2 l3 E Hne).
  unfold stops_before, target_cmp, Ord_SeekTarget.
  destruct (cmp target (dsum cx d l1)) eqn:E1; try done.
  by rewrite (cmp_lt_le_trans _ _ _ E1 Hd).
Qed.
End api.

(** ** A suffix does not look at positions

    [suffix] takes whatever is left, so it returns the same tree for every
    dimension, also for one that has no sums of its own over a subtree. *)

Section forget.
Context {T S D Cx A : Type} `{SummaryLaws S Cx, !Item T S Cx, !ItemLaws T S Cx, !Dimension D S Cx,
  !SeekAggregate A T S Cx}.
Implicit Types (c : Cursor T S D Cx) (st : list (StackEntry T S D)).

Definition forget_entry (e : StackEntry T S D) : StackEntry T S () := mkEntry (entry_tree e) (entry_index e) ().
Definition forget c : Cursor T S () Cx :=
  mkCursor (cursor_tree c) (map forget_entry (cursor_stack c)) () (did_seek c) (at_end c) (cursor_cx c).

Lemma dsum_unit (cx : Cx) (l : list T) u : dsum cx u l = ().
Proof. by destruct (dsum cx u l). Qed.

Lemma before_forget st : before (map forget_entry st) = before st.
Proof. induction st as [|e st IH]; [done|]. cbn [map before]. by rewrite IH. Qed.

Lemma after_forget st : after (map forget_entry st) = after st.
Proof. induction st as [|e st IH]; [done|]. cbn [map after]. by rewrite IH. Qed.

Lemma stack_wf_forget cx root hroot h st :
  stack_wf cx root hroot h st → stack_wf cx root hroot h (map forget_entry st).
Proof.
  induction 1; cbn [map forget_entry entry_tree entry_index] in *; [by constructor|].
  econstructor; [done..|]. by rewrite dsum_unit.
Qed.

Lemma cursor_at_forget c l1 l2 : cursor_at c l1 l2 → cursor_at (forget c) l1 l2.
Proof.
  intros (h&Hwf&Hh&_&Hc). exists h. split; [done|]. split; [done|]. split; [by rewrite dsum_unit|].
  cbn [forget did_seek cursor_cx cursor_tree cursor_stack at_end]. destruct (did_seek c).
  2: { destruct Hc as (->&?). done. }
  destruct Hc as [Hst Hend]. split; [|done]. destruct (cursor_stack c) as [|e st]; [done|].
  destruct Hst as (Hs&Hi&E1&E2). cbn [map stack_at]. rewrite <- (before_forget (e :: st)) in E1.
  split; [by apply stack_wf_forget in Hs|]. split; [done|]. split; [done|]. by rewrite after_forget.
Qed.

Lemma seek_children_forget cx cts css : ∀ index (e p : D) (a : A),
  ∃ e' p', seek_children End_new Right cx cts css index e p a =
    (λ r, (r.1.1.1.1, e', p', r.1.2, r.2)) <$> seek_children End_new Right cx cts css index () () a.
Proof.
  revert css. induction cts as [|t cts IH]; intros [|s css] index e p a; cbn [seek_children]; [by eexists _, _..|].
  cbn [target_cmp End_SeekTarget past_end]. destruct (push_tree a t s cx) as [a'|]; cbn [mbind option_bind]; [|by eexists e, p].
  destruct (dim_add_summary () s cx). apply IH.
Qed.

Lemma seek_items_forget cx its iss : ∀ index (p : D) (a : A),
  ∃ p', seek_items End_new Right cx its iss index p a =
    (λ r, (r.1.1.1, p', r.1.2, r.2)) <$> seek_items End_new Right cx its iss index () a.
Proof.
  revert iss. induction its as [|i its IH]; intros [|s iss] index p a; cbn [seek_items]; [by eexists _..|].
  cbn [target_cmp End_SeekTarget past_end]. destruct (push_item a i s cx) as [a'|]; cbn [mbind option_bind]; [|by exists p].
  destruct (dim_add_summary () s cx). apply IH.
Qed.

Lemma stack_push_forget e st : stack_push (forget_entry e) (map forget_entry st) = map forget_entry <$> stack_push e st.
Proof. unfold stack_push. rewrite length_map. by case_bool_decide. Qed.

Lemma seek_loop_forget cx fuel : ∀ asc st (p : D) (a : A),
  ∃ st' p', seek_loop fuel End_new Right cx asc st p a =
    (λ r, (st', p', r.2)) <$> seek_loop fuel End_new Right cx asc (map forget_entry st) () a.
Proof.
  induction fuel as [|fuel IH]; intros asc [|[t i q] st] p a; cbn [seek_loop map forget_entry entry_tree entry_index];
    [by exists [], p|by exists [], p|by exists [], p|].
  destruct t as [h s css cts|s its iss].
  - set (i' := if asc then i + 1 else i). destruct (slice_from i' cts) as [cts'|]; cbn [mbind option_bind]; [|by exists [], p].
    destruct (slice_from i' css) as [css'|]; cbn [mbind option_bind]; [|by exists [], p].
    destruct (seek_children_forget cx cts' css' i' (if asc then p else q) p a) as (e'&p'&->).
    replace (if asc then () else ()) with () by by destruct asc.
    destruct (seek_children End_new Right cx cts' css' i' () () a) as [[[[[i2 []] []] a2] ch]|]; cbn [fmap option_fmap option_map mbind option_bind fst snd];
      [|by exists [], p].
    destruct ch as [t|].
    + change (mkEntry t 0 () : StackEntry T S ()) with (forget_entry (mkEntry t 0 p')).
      change (mkEntry (Internal h s css cts) i2 () :: map forget_entry st) with (map forget_entry (mkEntry (Internal h s css cts) i2 e' :: st)).
      rewrite stack_push_forget. destruct (stack_push _ _) as [st'|]; cbn [fmap option_fmap option_map mbind option_bind]; [|by exists [], p].
      apply IH.
    + apply IH.
  - destruct (slice_from i its) as [its'|]; cbn [mbind option_bind]; [|by exists [], p].
    destruct (slice_from i iss) as [iss'|]; cbn [mbind option_bind]; [|by exists [], p].
    destruct (seek_items_forget cx its' iss' i p (begin_leaf a)) as (p'&->).
    destruct (seek_items End_new Right cx its' iss' i () (begin_leaf a)) as [[[[i2 []] a2] b]|];
      cbn [fmap option_fmap option_map mbind option_bind fst snd]; [|by exists [], p].
    destruct (end_leaf a2 cx) as [a3|]; cbn [mbind option_bind]; [|by exists [], p].
    destruct b; [by eexists _, _|]. apply IH.
Qed.
End forget.

Section suffix.
Context {T S D Cx : Type} `{SummaryLaws S Cx, !Item T S Cx, !ItemLaws T S Cx, !Dimension D S Cx}.
Implicit Types c : Cursor T S D Cx.

(** The tree of a suffix, for any dimension. *)
Lemma suffix_forget c l1 l2 :
  cursor_at c l1 l2 → ∃ c' t h, suffix c = Some (c', t) ∧ wf (cursor_cx c) h t ∧ elements t = l2.
Proof.
  intros Hc. destruct (suffix_spec (forget c) l1 l2 (cursor_at_forget c l1 l2 Hc)) as (cu&t&h&E&_&_&Hwf&El).
  unfold suffix, slice, seek_internal in *. cbn [assert_ target_cmp End_SeekTarget mbind option_bind forget did_seek cursor_cx cursor_stack cursor_tree position] in *.
  revert E. set (a0 := mkSlice _ _ _ _).
  assert (Est : ∀ z : D, (if did_seek c then Some (map forget_entry (cursor_stack c))
      else stack_push (mkEntry (cursor_tree c) 0 ()) (map forget_entry (cursor_stack c))) =
    map forget_entry <$> (if did_seek c then Some (cursor_stack c)
      else stack_push (mkEntry (cursor_tree c) 0 z) (cursor_stack c))).
  { intros z. destruct (did_seek c); [done|]. rewrite <- stack_push_forget. done. }
  cbn [dim_zero unit_Dimension]. match goal with |- context [mkEntry (cursor_tree c) 0 ?z] => rewrite (Est z) end.
  change (bool_decide (Right = Left)) with false. cbn iota.
  match goal with |- context [map forget_entry <$> ?x] => destruct x as [st|] end; [|done].
  cbn [fmap option_fmap option_map mbind option_bind].
  assert (Efuel : stack_fuel (map forget_entry st) = stack_fuel st).
  { unfold stack_fuel. by rewrite map_map. }
  rewrite Efuel. destruct (seek_loop_forget (cursor_cx c) (stack_fuel st) false st (position c) a0) as (st'&p'&->).
  destruct (seek_loop (stack_fuel st) End_new Right (cursor_cx c) false (map forget_entry st) () a0) as [[[stu []] agg]|];
    cbn [fmap option_fmap option_map mbind option_bind fst snd]; [|done].
  intros [= <- <-]. eexists _, _, h. split; [reflexivity|done].
Qed.
End suffix.

(** ** The properties of cursors *)

Section properties.
Context {T S D Cx Target : Type} `{SummaryLaws S Cx, !Item T S Cx, !ItemLaws T S Cx, !Dimension D S Cx,
  !DimensionLaws D S Cx, !SeekTarget Target D Cx}.
Implicit Types (t : SumTree T S) (c : Cursor T S D Cx) (cx : Cx) (l : list T) (bias : Bias)
  (target : Target).

(** C25: [Cursor::slice] splits what is ahead of the cursor at the target and
    returns a well-formed tree of exactly the items it passed; [suffix] then
    returns the rest: nothing is lost, duplicated or reordered, whatever the
    shape of the tree, and neither panics. *)
Theorem cursor_slice_partitions c target bias l1 l2 :
  cursor_at c l1 l2 → seekable c target bias l2 →
  ∃ c' t h a b, slice c target bias = Some (c', t) ∧
    wf (cursor_cx c) h t ∧ elements t = a ∧
    (a, b) = seek_cut c target bias l2 ∧ a ++ b = l2 ∧
    cursor_at c' (l1 ++ a) b ∧
    ∃ c'' t' h', suffix c' = Some (c'', t') ∧ wf (cursor_cx c') h' t' ∧ elements t' = b ∧
      cursor_at c'' (l1 ++ l2) [].
Proof.
  intros Hc Hs. destruct (seek_cut c target bias l2) as [a b] eqn:E.
  destruct (slice_spec c target bias l1 l2 a b) as (c'&t&h&?&?&Hc'&?&?); [done..|].
  destruct (suffix_spec c' (l1 ++ a) b Hc') as (c''&t'&h'&?&?&?&?&?).
  assert (Eab : a ++ b = l2) by by rewrite <- (seek_split_app (stops (cursor_cx c) target bias)
    (cursor_cx c) (position c) l2); unfold seek_cut in E; rewrite E.
  exists c', t, h, a, b. split_and!; try done. exists c'', t', h'. split_and!; try done.
  by rewrite <- Eab, app_assoc.
Qed.

(** [Cursor::seek] and [seek_forward] stop at the first item whose end
    reaches the target: they return whether the position (with a right bias) or
    the end of that item (with a left bias) is the target, and leave [start],
    [item] and [end] at the cut; a [seek] first goes back to the start. *)
Theorem cursor_seek_stops c target bias l1 l2 a b :
  cursor_at c l1 l2 →
  (seekable c target bias l2 → seek_cut c target bias l2 = (a, b) →
    ∃ c', seek_forward c target bias = Some (c', found c target bias (l1 ++ a) b) ∧
      cursor_at c' (l1 ++ a) b ∧ start c' = dsum (cursor_cx c) (dim_zero (cursor_cx c)) (l1 ++ a) ∧
      item c' = Some (head b)) ∧
  (seekable (reset c) target bias (l1 ++ l2) → seek_cut (reset c) target bias (l1 ++ l2) = (a, b) →
    ∃ c', seek c target bias = Some (c', found (reset c) target bias a b) ∧
      cursor_at c' a b ∧ start c' = dsum (cursor_cx c) (dim_zero (cursor_cx c)) a ∧
      item c' = Some (head b) ∧
      end_ c' = Some (dsum (cursor_cx c) (dim_zero (cursor_cx c)) (a ++ option_list (head b)))).
Proof.
  assert (Hstart : ∀ c c' k1 k2, same_tree c c' → cursor_at c' k1 k2 →
    start c' = dsum (cursor_cx c) (dim_zero (cursor_cx c)) k1).
  { intros c0 c' k1 k2 (_&<-&_) (h&_&_&Hp&_). exact Hp. }
  intros Hc. split; intros Hs Hcut.
  - destruct (seek_forward_spec c target bias l1 l2 a b) as (c'&?&Ht&Hc'); [done..|].
    exists c'. split_and!; [done..|by eapply Hstart|]. eapply item_at; [done|apply Ht].
  - destruct (seek_spec c target bias l1 l2 a b) as (c'&?&Ht&Hc'); [done..|].
    exists c'. split_and!; [done..|by eapply Hstart|eapply item_at; [done|apply Ht]|].
    rewrite (end_at _ _ _ Hc') by apply Ht. pose proof (Hstart _ _ _ _ Ht Hc') as Hp.
    unfold start in Hp. rewrite Hp, dsum_app. by destruct Ht as (_&->&_).
Qed.

(** [Cursor::summary] returns the total, in any output dimension, of the
    items between the cursor and the target, and moves there. *)
Theorem cursor_summary_totals {Output} `{!Dimension Output S Cx, !DimensionLaws Output S Cx}
    c target bias l1 l2 a b :
  cursor_at c l1 l2 → seekable c target bias l2 → seek_cut c target bias l2 = (a, b) →
  ∃ c', cursor_summary c target bias =
      Some (c', dsum (cursor_cx c) (dim_zero (cursor_cx c)) a : Output) ∧
    cursor_at c' (l1 ++ a) b.
Proof.
  intros Hc Hs Hcut.
  destruct (cursor_summary_spec (Output:=Output) c target bias l1 l2 a b) as (c'&?&_&?);
    [done..|]. eauto.
Qed.

(** [search_forward] passes the current item (if the cursor was moved
    before) and the items the filter rejects, and stops at the next accepted
    item or the end, though it tests whole subtrees by their summary;
    [search_backward] moves back to the last accepted item, or off the start
    when there is none, from where a forward search starts afresh. *)
Theorem cursor_search_filtered c (f : S → bool) l1 l2 l1' l2' :
  cursor_at c l1 l2 → pending c l1 l2 = (l1', l2') →
  filter_sound f (cursor_cx c) (elements (cursor_tree c)) →
  (∃ c', search_forward c f = Some c' ∧
    cursor_at c' (l1' ++ (forward_split f (cursor_cx c) l2').1) (forward_split f (cursor_cx c) l2').2) ∧
  ∃ c', search_backward c f = Some c' ∧
    match list.last (backward_split f (cursor_cx c) (behind c l1)).1 with
    | Some i => ∃ a k, (backward_split f (cursor_cx c) (behind c l1)).1 = a ++ [i] ∧
        cursor_at c' a (i :: k) ∧ item c' = Some (Some i)
    | None => item c' = Some None ∧
        search_forward c' f = search_forward (cursor_new (cursor_tree c) (cursor_cx c)) f
    end.
Proof.
  intros Hc Hp Hs. pose proof (cursor_at_elements _ _ _ Hc) as Hel. split.
  - destruct (search_forward_spec c f l1 l2 l1' l2') as [c' Hres]; [done..| |].
    { apply (filter_sound_app_r f (cursor_cx c) l1'). rewrite Hel in Hs. unfold pending in Hp.
      destruct (did_seek c), l2 as [|i l2]; simplify_eq; try done. by rewrite <- app_assoc. }
    destruct (forward_split f (cursor_cx c) l2') as [a b]. destruct Hres as (?&_&?). eauto.
  - destruct (search_backward_spec c f l1 l2) as (c'&?&Ht&Hres); [done| |].
    { unfold behind. destruct (did_seek c); [|done]. rewrite Hel in Hs.
      by eapply filter_sound_app_l. }
    exists c'. split; [done|]. destruct (list.last _) as [i|].
    + destruct Hres as (a&k&?&Hc'). exists a, k. split_and!; [done..|].
      eapply (item_at c' a (i :: k)); [done|apply Ht].
    + split; [by apply at_start_item|]. rewrite at_start_forward by done.
      by destruct Ht as (->&->&_).
Qed.
End properties.

Section sequence_properties.
Context {T S Cx : Type} `{SummaryLaws S Cx, !Item T S Cx, !ItemLaws T S Cx}.

(** [SumTree::items] and a [SumTree::iter] run to its end both terminate
    with the sequence of the tree; [Iter::last] is its last item. *)
Theorem items_iter_sequence cx h (t : SumTree T S) :
  wf cx h t → h < STACK_CAPACITY →
  items t cx = Some (elements t) ∧
  iter_collect (tree_size t) (iter_new t) = Some (elements t) ∧
  iter_last (iter_new t) = Some (list.last (elements t)).
Proof.
  intros Hwf Hh. split_and!.
  - by eapply items_elements.
  - eapply (iter_collect_spec _ cx); [by eapply iter_at_new|]. by rewrite tree_size_elements.
  - by apply (last_wf cx h).
Qed.

(** a [Cursor] used as an iterator yields the next item of its sequence
    at every call and [None] at the end, without starting over. *)
Theorem cursor_iterates {D} `{!Dimension D S Cx, !DimensionLaws D S Cx}
    (c : Cursor T S D Cx) l1 l2 :
  cursor_at c l1 l2 →
  ∃ c', cursor_iter_next c = Some (c', head l2) ∧
    cursor_at c' (l1 ++ option_list (head l2)) (tail l2).
Proof. intros Hc. destruct (cursor_iter_next_spec c l1 l2 Hc) as (c'&?&_&?). eauto. Qed.
End sequence_properties.

(** ** Witnesses *)

Module CursorWitness.
Import SumTreeFacts.Witness.

Definition cursor : Cursor nat nat nat () := cursor_new small ().

Lemma small_wf : wf () 1 small.
Proof. solve_wf. Qed.

Lemma cursor_at_0 : cursor_at cursor [] [1; 2; 3; 4; 5; 6].
Proof. apply (cursor_at_new small () 1); [apply small_wf|unfold STACK_CAPACITY; lia]. Qed.

Lemma dsum_total (d : nat) (l : list nat) : d ≤ dsum (Cx:=()) () d l.
Proof. revert d. induction l as [|i l IH]; intros d; simpl; [lia|].
  etrans; [|apply IH]. cbn. lia. Qed.

Lemma total_mono (d : nat) (l : list nat) : dim_mono (Cx:=()) () d l.
Proof.
  intros l1 l2 l3 _ _. rewrite dsum_app. unfold cmp, nat_Ord.
  rewrite Nat.compare_gt_iff. pose proof (dsum_total (dsum () d l1) l2). lia.
Qed.

Lemma total_seekable (c : Cursor nat nat nat ()) (n : nat) bias (l : list nat) :
  position c ≤ n → seekable c n bias l.
Proof.
  intros Hle. split; [|apply seek_good_mono, seek_mono_ord, total_mono].
  unfold target_cmp, Ord_SeekTarget, cmp, nat_Ord. rewrite Nat.compare_lt_iff. lia.
Qed.
End CursorWitness.
Import SumTreeFacts.Witness CursorWitness.

Lemma cursor_slice_partitions_witness : ∃ c' t, slice cursor 7 Left = Some (c', t) ∧ elements t = [1; 2; 3].
Proof.
  destruct (cursor_slice_partitions cursor 7 Left [] [1; 2; 3; 4; 5; 6])
    as (c'&t&h&a&b&?&_&Hel&Hcut&_).
  - apply cursor_at_0.
  - apply total_seekable. simpl. lia.
  - exists c', t. split; [done|]. vm_compute in Hcut. by simplify_eq.
Defined.

Lemma cursor_seek_stops_witness :
  ∃ c', seek cursor 6 Left = Some (c', true) ∧ start c' = 3 ∧ item c' = Some (Some 3).
Proof.
  destruct (cursor_seek_stops cursor 6 Left [] [1; 2; 3; 4; 5; 6] [1; 2] [3; 4; 5; 6])
    as [_ Hs]; [apply cursor_at_0|].
  destruct Hs as (c'&?&_&?&?&_); [apply total_seekable; simpl; lia|reflexivity|].
  by exists c'.
Defined.

Lemma cursor_summary_totals_witness :
  ∃ c', cursor_summary cursor 11 Right = Some (c', 10).
Proof.
  destruct (cursor_summary_totals (Output:=nat) cursor 11 Right [] [1; 2; 3; 4; 5; 6]
    [1; 2; 3; 4] [5; 6]) as (c'&?&_); [apply cursor_at_0|apply total_seekable; simpl; lia|reflexivity|].
  by exists c'.
Defined.

Lemma big_filter_sound n : filter_sound (λ s : nat, bool_decide (n ≤ s)) () (elements small).
Proof.
  intros l1 l2 l3 _ _ Hs%bool_decide_eq_false. apply Forall_forall. intros i Hi.
  apply bool_decide_eq_false. intros Hn. apply Hs. unfold isum, sum_.
  assert (Hgen : ∀ m, i ∈ l2 ∨ n ≤ m →
    n ≤ foldl (λ a b : nat, add_summary a b ()) m ((λ i, item_summary_of i ()) <$> l2)); [|auto].
  clear -Hn. induction l2 as [|j l2 IH]; intros m [Hi|Hm]; simpl.
  - by apply not_elem_of_nil in Hi.
  - done.
  - apply elem_of_cons in Hi as [<-|Hi]; apply IH; [right; cbn in *; lia|by left].
  - apply IH. right. cbn. lia.
Qed.

Lemma cursor_search_filtered_witness :
  ∃ c', search_forward cursor (λ s, bool_decide (4 ≤ s)) = Some c' ∧ cursor_at c' [1; 2; 3] [4; 5; 6].
Proof.
  destruct (cursor_search_filtered cursor (λ s, bool_decide (4 ≤ s)) [] [1; 2; 3; 4; 5; 6] []
    [1; 2; 3; 4; 5; 6]) as [(c'&?&?) _]; [apply cursor_at_0|reflexivity|apply big_filter_sound|].
  by exists c'.
Defined.

Lemma items_iter_sequence_witness : items small () = Some [1; 2; 3; 4; 5; 6].
Proof.
  destruct (items_iter_sequence () 1 small) as [-> _]; [apply small_wf|unfold STACK_CAPACITY; lia|].
  reflexivity.
Defined.

Lemma cursor_iterates_witness : ∃ c', cursor_iter_next cursor = Some (c', Some 1).
Proof.
  destruct (cursor_iterates cursor [] [1; 2; 3; 4; 5; 6]) as (c'&?&_); [apply cursor_at_0|].
  by exists c'.
Defined.

Lemma find_refines_scan_witness : find small () 7 Left = (6, 10, Some 4).
Proof.
  destruct (find_refines_scan (D:=nat) () 7 Left 1 small) as [-> _];
    [apply small_wf|discriminate|apply seek_mono_ord, total_mono|reflexivity].
Defined.

Lemma find_exact_refines_scan_witness : (find_exact (D:=nat) small () 10 Left).2 = Some 4.
Proof.
  rewrite (find_exact_refines_scan (D:=nat) () 10 1 small);
    [reflexivity|apply small_wf|discriminate|apply seek_mono_ord, total_mono|
     apply seek_mono_ord_before, total_mono].
Defined.

(** The lower bound of [Iter::size_hint] counts the item the iterator stands
    at, which it has yielded already: after one of three items, two are left and
    the bound is three. *)
Lemma size_hint_overestimates :
  let t : SumTree nat nat := leaf [1; 2; 3] in
  ∃ it, iter_next (iter_new t) = Some (it, Some 1) ∧
    iter_collect 3 it = Some [2; 3] ∧ size_hint it = 3.
Proof. eexists. split; [reflexivity|]. by split. Qed.
