(* ===== verification/SliceHeight.v ===== *)
(** How high a concatenation and a slice are.

    [spine t] weighs the nodes along the right edge of a tree, those of height
    [h] by [7^h] for every child but the first.  Appending a tree of height [k]
    adds at most [3 * 7^(k+1)] to it, and a root of height [h] that a split
    made weighs [7^h]; so the few subtrees a slice takes from every level of a
    tree of height [h] make one no higher than [h + 1]. *)

From stdpp Require Import base numbers option list.
From S2P Require Import Prelude SumTree SumTreeFacts Search Cursor CursorFacts.

#[local] Open Scope nat_scope.
#[local] Arguments TREE_BASE : simpl never.
#[local] Arguments Nat.mul : simpl never.
#[local] Arguments Nat.pow : simpl never.

Section spine.
Context {T S Cx : Type} `{SummaryLaws S Cx, !Item T S Cx, !ItemLaws T S Cx}.
Implicit Types (t : SumTree T S) (cx : Cx) (l : list T) (ts : list (SumTree T S)).

Fixpoint spine t : nat :=
  match t with
  | Leaf _ items _ => length items - 1
  | Internal h _ _ cts =>
      (length cts - 1) * 7 ^ h +
      (fix go cts := match cts with [] => 0 | [t] => spine t | _ :: cts => go cts end) cts
  end.

Lemma spine_snoc h s css ts t :
  spine (Internal h s css (ts ++ [t]) : SumTree T S) = length ts * 7 ^ h + spine t.
Proof.
  cbn [spine]. rewrite length_app. cbn [length]. rewrite Nat.add_sub. f_equal.
  induction ts as [|t' ts IH]; [done|]. destruct ts as [|t'' ts]; [done|]. exact IH.
Qed.

Lemma pow7_S h : 7 ^ Datatypes.S h = 7 * 7 ^ h.
Proof. by rewrite Nat.pow_succ_r'. Qed.
Lemma pow7_pos h : 0 < 7 ^ h.
Proof. induction h; [cbv; lia|rewrite pow7_S; lia]. Qed.
Lemma pow7_le a b : a ≤ b → 7 ^ a ≤ 7 ^ b.
Proof. apply Nat.pow_le_mono_r. lia. Qed.
Lemma pow7_inv a b : 7 ^ a < 7 ^ Datatypes.S b → a ≤ b.
Proof. intros Hlt. destruct (decide (a ≤ b)) as [|Hgt]; [done|]. pose proof (pow7_le (Datatypes.S b) a). lia. Qed.

Lemma spine_bound cx h t : wf cx h t → 6 * spine t + 11 ≤ 11 * 7 ^ Datatypes.S h.
Proof.
  revert t. induction h as [|h IH]; intros t Hwf.
  - destruct t as [|s items iss]; [done|]. destruct Hwf as (_&_&Hl). unfold TREE_BASE in Hl. cbn [spine].
    change (7 ^ 1) with 7. lia.
  - apply wf_internal_inv in Hwf as (ts&->&Hts&Hl). destruct ts as [|t ts _] using rev_ind; [cbn in Hl; lia|].
    rewrite spine_snoc. apply Forall_app in Hts as [_ [Ht _]%Forall_singleton]. specialize (IH t Ht).
    rewrite length_app in Hl. cbn [length] in Hl. unfold TREE_BASE in Hl.
    assert (length ts * 7 ^ Datatypes.S h ≤ 11 * 7 ^ Datatypes.S h) by (apply Nat.mul_le_mono_r; lia).
    rewrite (pow7_S (Datatypes.S h)). lia.
Qed.

(** The last step of [push_tree_recursive]: what the node and its split weigh,
    when [t] is the last child. *)
Definition spine_split (h n : nat) (r : SumTree T S * option (SumTree T S)) : Prop :=
  match r.2 with None => spine r.1 ≤ n | Some t => spine t + 7 ^ Datatypes.S h ≤ n end.

Lemma push_trees_spine cx h s css css' ts ts' t ks n r :
  ts ++ ts' = ks ++ [t] → length ks ≤ 23 →
  (if bool_decide (2 * TREE_BASE < length ts + length ts') then
      let midpoint := (length ts + length ts' + (length ts + length ts') mod 2) / 2 in
      let all_summaries := css ++ css' in
      left_summaries ← arrayvec (take midpoint all_summaries);
      right_summaries ← arrayvec (drop midpoint all_summaries);
      let all_trees := ts ++ ts' in
      left_trees ← arrayvec (take midpoint all_trees);
      right_trees ← arrayvec (drop midpoint all_trees);
      Some (Internal h (sum_ left_summaries cx) left_summaries left_trees,
            Some (Internal h (sum_ right_summaries cx) right_summaries right_trees))
    else
      css ← arrayvec (css ++ css');
      ts ← arrayvec (ts ++ ts');
      Some (Internal h s css ts, None)) = Some r →
  (length ks ≤ 11 → length ks * 7 ^ h + spine t ≤ n) →
  (12 ≤ length ks → ((length ks - 1) / 2 + 7) * 7 ^ h + spine t ≤ n) →
  spine_split h n r.
Proof.
  rewrite <- length_app. intros -> Hks. rewrite length_app. cbn [length]. intros E Hlo Hhi.
  case_bool_decide as Hc; unfold TREE_BASE in Hc.
  - set (m := (length ks + 1 + (length ks + 1) mod 2) / 2) in *. cbv zeta in E.
    apply bind_Some in E as (ls&_&E). apply bind_Some in E as (rs&_&E).
    apply bind_Some in E as (lt&_&E). apply bind_Some in E as (rt&Ert&E). injection E as <-.
    unfold arrayvec in Ert. case_bool_decide; [|done]. injection Ert as <-.
    unfold spine_split. cbn [snd]. pose proof (Nat.div_mod_eq (length ks + 1 + (length ks + 1) mod 2) 2) as Hd1.
    pose proof (Nat.mod_upper_bound (length ks + 1) 2) as Hd2. fold m in Hd1.
    pose proof (Nat.div_mod_eq (length ks + 1) 2) as Hd3. pose proof (Nat.div_mod_eq (length ks - 1) 2) as Hd4.
    pose proof (Nat.mod_upper_bound (length ks - 1) 2) as Hd5.
    pose proof (Nat.mod_upper_bound (length ks + 1 + (length ks + 1) mod 2) 2) as Hd6.
    rewrite drop_app_le, spine_snoc, length_drop, pow7_S by lia. etrans; [|apply Hhi; lia].
    assert (length ks - m + 7 ≤ (length ks - 1) / 2 + 7) as Hm by lia.
    apply (Nat.mul_le_mono_r _ _ (7 ^ h)) in Hm. lia.
  - apply bind_Some in E as (cs&_&E). apply bind_Some in E as (ks'&Eks&E). injection E as <-.
    unfold arrayvec in Eks. case_bool_decide; [|done]. injection Eks as <-.
    unfold spine_split. cbn [fst snd]. rewrite spine_snoc. apply Hlo. lia.
Qed.

Lemma push_leaf_spine cx l k r :
  length l ≤ 12 → length k ≤ 12 →
  let leaf l := Leaf (isum cx l) l ((λ i, item_summary_of i cx) <$> l) in
  push_tree_recursive (leaf l) (leaf k) cx = Some r → spine_split 0 (length l - 1 + 21) r.
Proof.
  intros Hl Hk leaf E. cbn -[isum Nat.div Nat.modulo] in E. rewrite <- length_app in E.
  assert (Hlk : length (l ++ k) ≤ 24) by (rewrite length_app; lia).
  case_bool_decide as Hc; unfold TREE_BASE in Hc.
  - set (m := (length (l ++ k) + length (l ++ k) mod 2) / 2) in *.
    apply bind_Some in E as (ls&_&E). apply bind_Some in E as (rs&Ers&E).
    apply bind_Some in E as (lt&_&E). apply bind_Some in E as (rt&Ert&E). injection E as <-.
    unfold arrayvec in Ers. case_bool_decide as Hr; [|done]. injection Ers as <-.
    unfold spine_split. cbn [snd spine]. change (7 ^ 1) with 7. unfold TREE_BASE in Hr. lia.
  - apply bind_Some in E as (its&Eits&E). apply bind_Some in E as (cs&_&E). injection E as <-.
    unfold arrayvec in Eits. case_bool_decide; [|done]. injection Eits as <-.
    unfold spine_split. cbn [fst snd spine]. lia.
Qed.

Lemma push_tree_spine cx h self k other r :
  wfne cx h self → wfne cx k other → k ≤ h → push_tree_recursive self other cx = Some r →
  spine_split h (spine self + 3 * 7 ^ Datatypes.S k) r.
Proof.
  revert self k other r. induction h as [|h IH]; intros self k other r Hself Hother Hh E.
  { replace k with 0 in * by lia. apply wfne_leaf_inv in Hself as [Es ?], Hother as [Eo ?].
    rewrite Es, Eo in E. rewrite Es. cbn [spine]. change (3 * 7 ^ 1) with 21.
    apply (push_leaf_spine cx (elements self) (elements other)); try done; unfold TREE_BASE in *; lia. }
  pose proof (wf_height _ _ _ (proj1 Hother)) as Hheight.
  pose proof (spine_bound _ _ _ (proj1 Hother)) as Hob.
  destruct Hself as [(ts&->&Hts&Hlen)%wf_internal_inv _]. unfold TREE_BASE in Hlen.
  cbn [push_tree_recursive] in E. rewrite bool_decide_eq_false_2, Hheight in E by lia.
  destruct ts as [|t ts _] using rev_ind; [cbn in Hlen; lia|].
  rewrite length_app in Hlen. cbn [length] in Hlen. rewrite spine_snoc.
  rewrite Forall_app, Forall_singleton in Hts. destruct Hts as [Hts Ht]. pose proof (pow7_S h) as HS.
  case_bool_decide as Hd.
  { replace k with (Datatypes.S h) in * by lia. destruct Hother as [Hother _].
    apply wf_internal_inv in Hother as (ts'&->&Hts'&Hl'). unfold TREE_BASE in Hl'.
    destruct ts' as [|t' ts' _] using rev_ind; [cbn in Hl'; lia|]. rewrite length_app in Hl'. cbn [length] in Hl'.
    apply Forall_app in Hts' as [_ [Ht' _]%Forall_singleton]. pose proof (spine_bound _ _ _ Ht') as Hb.
    cbn [child_trees mbind option_bind] in E. rewrite (pow7_S (Datatypes.S h)).
    eapply (push_trees_spine _ _ _ _ _ _ _ t' ((ts ++ [t]) ++ ts')); [by rewrite app_assoc| |exact E| |];
      rewrite !length_app; cbn [length]; [lia|intros Hlo; nia|].
    intros _. assert ((length ts + 1 + length ts' - 1) / 2 ≤ 11) as Hq by (apply Nat.Div0.div_le_upper_bound; lia). nia. }
  destruct (bool_decide _ && _) eqn:Hu.
  { apply andb_true_iff in Hu as [Hd1%bool_decide_eq_true _]. replace k with h in * by lia.
    cbn [mbind option_bind] in E.
    eapply (push_trees_spine _ _ _ _ _ _ _ other (ts ++ [t])); [done| |exact E| |];
      rewrite !length_app; cbn [length]; [lia|intros Hlo; nia|].
    intros Hhi. replace (length ts) with 11 by lia. clear Hhi. change ((11 + 1 - 1) / 2) with 5. lia. }
  rewrite modify_last_snoc in E. apply bind_Some in E as (r0&E0&E). apply bind_Some in E0 as (r1&E1&E2).
  apply bind_Some in E1 as ([t' res]&Hpush&E1). injection E1 as <-. 
  assert (Hk : k ≤ h).
  { destruct (decide (k = Datatypes.S h)); [|lia]. exfalso. apply Hd. lia. }
  specialize (IH t k other (t', res) Ht Hother Hk Hpush). unfold spine_split in IH. cbn [fst snd] in IH.
  apply bind_Some in E2 as (lc&_&E2). apply bind_Some in E2 as (css'&_&E2). injection E2 as <-.
  destruct res as [t''|]; cbn [option_list] in E.
  - eapply (push_trees_spine _ _ _ _ _ _ _ t'' (ts ++ [t'])); [done| |exact E| |];
      rewrite !length_app; cbn [length]; [lia|intros Hlo; nia|].
    intros Hhi. replace (length ts) with 11 by lia. clear Hhi. change ((11 + 1 - 1) / 2) with 5. lia.
  - eapply (push_trees_spine _ _ _ _ _ _ _ t' ts); [by rewrite app_nil_r| |exact E| |]; [lia|intros; lia|intros; lia].
Qed.

Lemma spine_from_child_trees cx t u : spine (from_child_trees t u cx) = 7 ^ (height t + 1) + spine u.
Proof. unfold from_child_trees. cbn [spine length]. lia. Qed.

Lemma append_spine cx ha a hb b t :
  wf cx ha a → wf cx hb b → append a b cx = Some t →
  spine t ≤ spine a + 3 * 7 ^ Datatypes.S hb ∧ (height t ≤ max ha hb ∨ 7 ^ height t ≤ spine t).
Proof.
  intros Ha Hb E. unfold append in E. pose proof (spine_bound _ _ _ Hb) as Hbb.
  pose proof (wf_height _ _ _ Ha) as Eha. pose proof (wf_height _ _ _ Hb) as Ehb.
  destruct (is_empty a) eqn:Ea; [injection E as <-; lia|].
  destruct (negb (is_leaf b) || negb (is_empty b)) eqn:Eb; [|injection E as <-; lia].
  assert (Hbne : nonempty b).
  { unfold nonempty. destruct b; [done|]. simpl in *. by apply negb_true_iff in Eb. }
  rewrite Eha, Ehb in E. case_bool_decide as Hlt.
  - destruct (append_large_spec cx ha a hb b) as ([b' [u|]]&E'&Hb'&Hres); [done..|lia| |];
      rewrite E' in E; cbn [mbind option_bind fst snd] in *; injection E as <-;
      pose proof (spine_bound _ _ _ (proj1 Hb')); pose proof (wf_height _ _ _ (proj1 Hb')); [|lia].
    destruct Hres as [Hu _]. rewrite spine_from_child_trees. cbn [from_child_trees height].
    rewrite (wf_height _ _ _ (proj1 Hu)), Nat.add_1_r. lia.
  - apply bind_Some in E as ([a' res]&E'&E).
    pose proof (push_tree_spine cx ha a hb b (a', res)) as Hsp.
    destruct (push_tree_recursive_spec cx ha a hb b) as (r&E''&Ha'&_); [done..|lia|].
    rewrite E' in E''. injection E'' as <-. cbn [fst] in Ha'. pose proof (wf_height _ _ _ (proj1 Ha')) as Eh.
    specialize (Hsp ltac:(done) ltac:(done) ltac:(lia) E'). unfold spine_split in Hsp. cbn [fst snd] in Hsp.
    destruct res as [u|]; injection E as <-; [|lia].
    rewrite spine_from_child_trees. cbn [from_child_trees height]. rewrite Eh, Nat.add_1_r. lia.
Qed.
End spine.

(** ** The seek loop of a slice *)

Section slice_height.
Context {T S D Cx Target : Type} `{SummaryLaws S Cx, !Item T S Cx, !ItemLaws T S Cx, !Dimension D S Cx,
  !DimensionLaws D S Cx, !SeekTarget Target D Cx}.
Implicit Types (t : SumTree T S) (st : list (StackEntry T S D)) (cx : Cx) (l : list T)
  (agg : SliceSeekAggregate T S) (bias : Bias) (target : Target).

(** An aggregate no higher than [R], of a spine of at most [n]. *)
Definition agg_low cx (R n : nat) agg : Prop :=
  (∃ l, slice_closed cx agg l) ∧ height (slice_tree agg) ≤ R ∧ spine (slice_tree agg) ≤ n.

Lemma agg_low_le cx R n m agg : n ≤ m → agg_low cx R n agg → agg_low cx R m agg.
Proof. intros Hn (?&?&?). split_and!; [done|done|lia]. Qed.

Lemma low_append cx ha a hb b t R n :
  wf cx ha a → wf cx hb b → append a b cx = Some t →
  ha ≤ R → hb ≤ R → spine a ≤ n → n + 3 * 7 ^ Datatypes.S hb < 7 ^ Datatypes.S R →
  height t ≤ R ∧ spine t ≤ n + 3 * 7 ^ Datatypes.S hb.
Proof.
  intros Ha Hb E Hra Hrb Hn Hlt. destruct (append_spine cx ha a hb b t Ha Hb E) as [Hs Hh].
  split; [|lia]. destruct Hh as [Hh|Hh]; [lia|]. apply pow7_inv. lia.
Qed.

Lemma push_tree_low cx R n agg h t s agg' :
  agg_low cx R n agg → wfne cx h t → h ≤ R → n + 3 * 7 ^ Datatypes.S h < 7 ^ Datatypes.S R →
  push_tree (A:=SliceSeekAggregate T S) agg t s cx = Some agg' → s = summary t →
  agg_low cx R (n + 3 * 7 ^ Datatypes.S h) agg'.
Proof.
  intros ([l Hl]&Hh&Hn) Ht HhR Hlt E ->.
  assert (Hcl : agg_closed cx agg l) by exact Hl.
  destruct (push_tree_law cx agg l h t Hcl Ht) as (agg2&E2&Hc). rewrite E in E2. injection E2 as <-.
  split; [exists (l ++ elements t); exact Hc|]. cbn [push_tree Slice_SeekAggregate] in E. apply bind_Some in E as (t'&E&E'). injection E' as <-.
  destruct Hl as ([ha Ha]&_). rewrite (wf_height _ _ _ Ha) in Hh. destruct Ht as [Ht _]. cbn [slice_tree].
  by apply (low_append cx ha (slice_tree agg) h t t' R n).
Qed.
Lemma end_leaf_low cx R n agg m l agg' :
  slice_open cx m agg l → m ≤ 2 * TREE_BASE → height (slice_tree agg) ≤ R → spine (slice_tree agg) ≤ n →
  n + 21 < 7 ^ Datatypes.S R → end_leaf (T:=T) (S:=S) agg cx = Some agg' → agg_low cx R (n + 21) agg'.
Proof.
  intros Ho Hm Hh Hn Hlt E. assert (Hop : agg_open cx m agg l) by exact Ho.
  destruct (end_leaf_law cx m agg l Hop Hm) as (agg2&E2&Hc). rewrite E in E2. injection E2 as <-.
  split; [exists l; exact Hc|]. cbn [end_leaf Slice_SeekAggregate] in E. apply bind_Some in E as (t'&E&E'). injection E' as <-.
  destruct Ho as ([ha Ha]&_&Hlen&Hz&Hs). rewrite (wf_height _ _ _ Ha) in Hh. cbn [slice_tree].
  refine (low_append cx ha _ 0 _ _ R n Ha _ E Hh (Nat.le_0_l _) Hn Hlt). cbn [wf]. split_and!; [done|done|lia].
Qed.

(** The loops inside a node. *)
Lemma seek_children_low target bias cx h (ts : list (SumTree T S)) R n index ep pos agg index' ep' pos' agg' child :
  agg_low cx R n agg → Forall (wfne cx h) ts → h ≤ R → n + length ts * (3 * 7 ^ Datatypes.S h) < 7 ^ Datatypes.S R →
  seek_children target bias cx ts (summary <$> ts) index ep pos agg = Some (index', ep', pos', agg', child) →
  agg_low cx R (n + length ts * (3 * 7 ^ Datatypes.S h)) agg' ∧
  match child with
  | Some t => wfne cx h t ∧ stops cx target bias (dsum cx pos' (elements t)) = true
  | None => ts = [] ∨ stops cx target bias (dsum cx pos (concat (map elements ts))) = false
  end.
Proof.
  intros Hl Hts HR. revert n index ep pos agg Hl.
  induction Hts as [|t ts Ht Hts IH]; intros n index ep pos agg Hl Hlt E; cbn [seek_children fmap list_fmap length] in *.
  { injection E as <- <- <- <- <-. split; [by rewrite Nat.add_0_r|by left]. }
  rewrite past_end_stops, (dsum_summary cx h) in E by done.
  destruct (stops cx target bias (dsum cx pos (elements t))) eqn:Es; cbn [negb] in E.
  { injection E as <- <- <- <- <-. split; [by eapply agg_low_le; [|done]; lia|done]. }
  apply bind_Some in E as (agg1&E1&E).
  apply (push_tree_low cx R n agg h t _ agg1) in E1; [|done|done|done|lia|done].
  apply (IH (n + 3 * 7 ^ Datatypes.S h)) in E as [Hl' Hc]; [|done|lia].
  split; [by eapply agg_low_le; [|done]; lia|]. destruct child as [u|]; [done|]. right.
  cbn [map concat]. rewrite dsum_app. destruct Hc as [->|Hc]; [done|done].
Qed.

Lemma seek_items_low target bias cx (items : list T) index pos agg n l index' pos' agg' stopped :
  slice_open cx n agg l → n + length items ≤ 2 * TREE_BASE →
  seek_items target bias cx items ((λ i, item_summary_of i cx) <$> items) index pos agg = Some (index', pos', agg', stopped) →
  slice_tree agg' = slice_tree agg ∧ (∃ m l', slice_open cx m agg' l' ∧ m ≤ 2 * TREE_BASE) ∧
  (stopped = false → items = [] ∨ stops cx target bias (dsum cx pos items) = false).
Proof.
  revert index pos agg n l. induction items as [|i items IH]; intros index pos agg n l Ho Hn E;
    cbn [seek_items fmap list_fmap length] in *.
  { injection E as <- <- <- <-. split_and!; [done| |by left]. exists n, l. split; [done|lia]. }
  rewrite past_end_stops in E.
  destruct (stops cx target bias (dim_add_summary pos (item_summary_of i cx) cx)) eqn:Es; cbn [negb] in E.
  { injection E as <- <- <- <-. split_and!; [done| |done]. exists n, l. split; [done|lia]. }
  apply bind_Some in E as (agg1&E1&E). assert (Hop : agg_open cx n agg l) by exact Ho.
  destruct (push_item_law cx n agg l i Hop) as (agg2&E2&Ho2); [lia|].
  rewrite E1 in E2. injection E2 as <-. apply (IH _ _ _ _ _ Ho2) in E as (Et&Hm&Hst); [|lia].
  split_and!; [|done|].
  - rewrite Et. cbn [push_item Slice_SeekAggregate] in E1.
    apply bind_Some in E1 as (?&_&E1). apply bind_Some in E1 as (?&_&E1). by injection E1 as <-.
  - intros Hf. right. cbn [dsum foldl]. destruct (Hst Hf) as [->|Hs]; done.
Qed.

Lemma slice_from_inv {A} i (v w : list A) : slice_from i v = Some w → w = drop i v.
Proof. unfold slice_from. case_bool_decide; [by intros [= <-]|done]. Qed.

(** A visit of a leaf. *)
Lemma leaf_low fuel target bias cx s (items : list T) (iss : list S) i p st pos agg R n r :
  wf cx 0 (Leaf s items iss) → agg_low cx R n agg → n + 21 < 7 ^ Datatypes.S R →
  seek_loop (Datatypes.S fuel) target bias cx false (mkEntry (Leaf s items iss) i p :: st) pos agg = Some r →
  ∃ pos' agg', agg_low cx R (n + 21) agg' ∧
    (r.2 = agg' ∨
     seek_loop fuel target bias cx true st pos' agg' = Some r ∧
     (drop i items = [] ∨ stops cx target bias (dsum cx pos (drop i items)) = false)).
Proof.
  intros (->&_&Hlen) ([l Hl]&Hh&Hn) Hlt E. cbn [seek_loop] in E.
  apply bind_Some in E as (its&Eits&E). apply bind_Some in E as (iss&Eiss&E).
  apply slice_from_inv in Eits as ->. apply slice_from_inv in Eiss as ->. rewrite <- fmap_drop in E.
  apply bind_Some in E as ([[[index' pos'] agg1] stopped]&E1&E).
  assert (Hop : slice_open cx 0 (begin_leaf (T:=T) (S:=S) (Cx:=Cx) agg) l) by exact (begin_leaf_law cx agg l Hl).
  apply (seek_items_low _ _ _ _ _ _ _ 0 l) in E1 as (Et&(m&l'&Ho&Hm)&Hst); [|exact Hop|rewrite length_drop; lia].
  apply bind_Some in E as (agg2&E2&E).
  apply (end_leaf_low cx R n agg1 m l' agg2 Ho Hm) in E2; [|by rewrite Et..|done].
  exists pos', agg2. split; [done|]. destruct stopped; [by injection E as <-; left|]. right. split; [done|]. by apply Hst.
Qed.

(** Going down to the target. *)
Lemma descend_low target bias cx h fuel t st pos agg R n r :
  wfne cx h t → stops cx target bias (dsum cx pos (elements t)) = true → agg_low cx R n agg → h ≤ R →
  n + 42 * 7 ^ h < 7 ^ Datatypes.S R →
  seek_loop fuel target bias cx false (mkEntry t 0 pos :: st) pos agg = Some r → agg_low cx R (n + 42 * 7 ^ h) r.2.
Proof.
  revert fuel t st pos agg n. induction h as [|h IH]; intros fuel t st pos agg n Ht Hs Hl HR Hlt E; destruct fuel as [|fuel]; try done.
  - pose proof (wfne_elements _ _ _ Ht) as Hne. destruct Ht as [Ht _]. destruct t as [|s items iss]; [done|].
    cbn [elements] in *. change (42 * 7 ^ 0) with 42 in *.
    apply (leaf_low _ _ _ _ _ _ _ _ _ _ _ _ R n) in E as (pos'&agg'&Hl'&Hor); [|done|done|lia].
    destruct Hor as [->|[_ Hns]].
    + by eapply agg_low_le; [|done]; lia.
    + rewrite drop_0 in Hns. destruct Hns as [Hns|Hns]; congruence.
  - destruct Ht as [(ts&->&Hts&Hlen)%wf_internal_inv _]. cbn [seek_loop elements] in *.
    change (slice_from 0 ts) with (Some ts) in E. change (slice_from 0 (summary <$> ts)) with (Some (summary <$> ts)) in E.
    cbn [mbind option_bind] in E. apply bind_Some in E as ([[[[index' ep'] pos'] agg'] child]&E1&E).
    pose proof (pow7_S h) as HS. unfold TREE_BASE in Hlen.
    assert (Hcost : length ts * (3 * 7 ^ Datatypes.S h) ≤ 36 * 7 ^ Datatypes.S h) by nia.
    apply (seek_children_low _ _ _ h _ R n) in E1 as [Hl' Hc]; [|done|done|lia|lia].
    destruct child as [u|]; [|destruct Hc as [->|Hc]; [cbn in Hlen; lia|congruence]]. destruct Hc as [Hu Hsu].
    apply bind_Some in E as (stack&E2&E). unfold stack_push in E2. case_bool_decide; [|done]. injection E2 as <-.
    apply (IH _ _ _ _ _ (n + 36 * 7 ^ Datatypes.S h)) in E; [|done|done|by eapply agg_low_le; [|done]; lia|lia|lia].
    by eapply agg_low_le; [|done]; lia.
Qed.

(** Going up, and down at the end. *)
Lemma ascend_low target bias cx root hroot h fuel passed e st pos agg R n r :
  stack_wf cx root hroot (Datatypes.S h) (e :: st) → agg_low cx R n agg → hroot ≤ R →
  n + (7 * 7 ^ Datatypes.S hroot - 7 * 7 ^ Datatypes.S h) < 7 ^ Datatypes.S R →
  seek_loop fuel target bias cx passed (e :: st) pos agg = Some r →
  agg_low cx R (n + (7 * 7 ^ Datatypes.S hroot - 7 * 7 ^ Datatypes.S h)) r.2.
Proof.
  revert h fuel passed e pos agg n. induction st as [|e' st IH]; intros h fuel passed e pos agg n Hst Hl HR Hlt E.
  all: destruct fuel as [|fuel]; [by destruct e|]; pose proof (stack_wf_top _ _ _ _ _ _ Hst) as Ht;
    pose proof (stack_wf_height _ _ _ _ _ Hst) as Hh; cbn [length] in Hh;
    destruct e as [t i p]; cbn [entry_tree] in Ht;
    apply wf_internal_inv in Ht as (ts&->&Hts&Hlen); unfold TREE_BASE in Hlen;
    pose proof (pow7_S h) as HS; pose proof (pow7_S (Datatypes.S h)) as HS2;
    pose proof (pow7_le (Datatypes.S (Datatypes.S h)) (Datatypes.S hroot) ltac:(lia)) as Hle;
    cbn [seek_loop] in E; apply bind_Some in E as (cts&Ects&E); apply bind_Some in E as (css&Ecss&E);
    apply slice_from_inv in Ects as ->; apply slice_from_inv in Ecss as ->; rewrite <- fmap_drop in E;
    apply bind_Some in E as ([[[[index' ep'] pos'] agg'] child]&E1&E);
    set (k := if passed then i + 1 else i) in *;
    assert (Hcost : length (drop k ts) * (3 * 7 ^ Datatypes.S h) ≤ 36 * 7 ^ Datatypes.S h) by (rewrite length_drop; nia);
    (apply (seek_children_low _ _ _ h _ R n) in E1 as [Hl' Hc]; [|done|by apply Forall_drop|lia|lia]);
    (destruct child as [u|];
      [destruct Hc as [Hu Hsu]; apply bind_Some in E as (stack&E2&E); unfold stack_push in E2;
       case_bool_decide; [|done]; injection E2 as <-;
       apply (descend_low _ _ _ h _ _ _ _ _ R (n + 36 * 7 ^ Datatypes.S h)) in E;
         [by eapply agg_low_le; [|exact E]; lia|done|done|by eapply agg_low_le; [|exact Hl']; lia|lia|lia]|]).
  - destruct fuel; injection E as <-; by eapply agg_low_le; [|done]; lia.
  - assert (Hst' : stack_wf cx root hroot (Datatypes.S (Datatypes.S h)) (e' :: st)) by by inversion Hst.
    pose proof (stack_wf_height _ _ _ _ _ Hst') as Hh'. cbn [length] in Hh'.
    apply (IH (Datatypes.S h) _ _ _ _ _ (n + 36 * 7 ^ Datatypes.S h)) in E; [|done|by eapply agg_low_le; [|done]; lia|lia|].
    + by eapply agg_low_le; [|exact E]; lia.
    + lia.
Qed.

Lemma agg_low_new cx R : agg_low cx R 0 (mkSlice (new cx : SumTree T S) [] [] (summary_zero cx)).
Proof.
  split; [|cbn; split; lia]. exists []. split_and!; try done. exists 0. apply wf_new.
Qed.

(** A slice of a tree is at most one level higher than the tree. *)
Lemma slice_height c target bias l1 l2 c' t :
  cursor_at c l1 l2 → slice c target bias = Some (c', t) → height t ≤ height (cursor_tree c) + 1.
Proof.
  intros (h&Hwf&Hh&_&Hc) E. rewrite (wf_height _ _ _ Hwf), Nat.add_1_r. unfold slice, seek_internal in E.
  set (cx := cursor_cx c) in *.
  apply bind_Some in E as ([[c1 agg] f]&E&Et). injection Et as <- <-. apply bind_Some in E as (_u&_&E).
  apply bind_Some in E as (st&Est&E). apply bind_Some in E as ([[st' pos'] agg1]&Eloop&E).
  apply bind_Some in E as (end_&_&E). injection E as _ <- _.
  pose proof (pow7_S h) as HS. pose proof (pow7_S (Datatypes.S h)) as HS2. pose proof (pow7_pos h) as Hpos.
  enough (Hl : agg_low cx (Datatypes.S h) (7 ^ Datatypes.S (Datatypes.S h)) agg1) by apply Hl.
  assert (Hup : ∀ fuel st pos agg n r, (∃ h0, stack_wf cx (cursor_tree c) h (Datatypes.S h0) st ∧ h0 = 0) ∨ st = [] →
    agg_low cx (Datatypes.S h) 21 agg → seek_loop fuel target bias cx true st pos agg = Some r → n = r.2 →
    agg_low cx (Datatypes.S h) (7 ^ Datatypes.S (Datatypes.S h)) n).
  { intros fuel st0 pos agg0 n r Hst Ha El ->. destruct st0 as [|e st0].
    - destruct fuel; injection El as <-; (eapply agg_low_le; [|exact Ha]); lia.
    - destruct Hst as [(h0&Hst&->)|]; [|done]. change (7 ^ 1) with 7 in *.
      apply (ascend_low _ _ _ (cursor_tree c) h 0 _ _ _ _ _ _ (Datatypes.S h) 21) in El; [|exact Hst|done|lia|change (7 ^ 1) with 7; lia].
      change (7 ^ 1) with 7 in El. eapply agg_low_le; [|exact El]. lia. }
  assert (Hleaf : ∀ e st0, stack_wf cx (cursor_tree c) h 0 (e :: st0) → st = e :: st0 →
    agg_low cx (Datatypes.S h) (7 ^ Datatypes.S (Datatypes.S h)) agg1).
  { intros e st0 Hst ->. pose proof (stack_wf_top _ _ _ _ _ _ Hst) as Ht. destruct e as [[|s items iss] i p]; [done|].
    destruct (stack_fuel _) as [|fuel]; [done|].
    apply (leaf_low _ _ _ _ _ _ _ _ _ _ _ _ (Datatypes.S h) 0) in Eloop as (pos1&agg2&Hl&Hor);
      [|exact Ht|apply agg_low_new|lia].
    destruct Hor as [Eagg|[El _]]; [cbn [snd] in Eagg; subst agg2; eapply agg_low_le; [|exact Hl]; lia|].
    apply (Hup _ _ _ _ agg1 (st', pos', agg1)) in El; [done| |exact Hl|done].
    inversion Hst; subst; [by right|left]. by exists 0. }
  destruct (did_seek c).
  - injection Est as <-. destruct Hc as [Hat _]. destruct (cursor_stack c) as [|e st0].
    + destruct (stack_fuel _); injection Eloop as _ _ <-; (eapply agg_low_le; [|apply agg_low_new]); lia.
    + destruct Hat as (Hst&_). by eapply Hleaf.
  - destruct Hc as (Ec&_). rewrite Ec in Est. unfold stack_push in Est. case_bool_decide; [|done]. injection Est as <-.
    pose proof (stack_wf_root cx (cursor_tree c) h 0 (dim_zero cx : D) Hwf) as Hroot. destruct h as [|h].
    + by eapply Hleaf.
    + apply (ascend_low _ _ _ (cursor_tree c) (Datatypes.S h) h _ _ _ _ _ _ (Datatypes.S (Datatypes.S h)) 0) in Eloop;
        [|exact Hroot|apply agg_low_new|lia|lia].
      eapply agg_low_le; [|exact Eloop]. lia.
Qed.
End slice_height.
