(* ===== verification/KeyedTree.v ===== *)
(** Trees of keyed items: [insert_or_replace], [remove], [edit] and [get] of
    [crates/sum_tree/src/sum_tree.rs].

    The interface of a key ([KeyedLaws]) is the code's [KeyedItem]: the key is a
    dimension, the summary of an item leads from a key not above it to its own
    key, and zero is least.  On
    a tree sorted by key the operations are those of a finite map, read by
    [lookup_key]. *)

From stdpp Require Import base numbers option list sorting.
From S2P Require Import Prelude SumTree SumTreeFacts Search Cursor CursorFacts StepFacts CursorApi.

#[local] Arguments TREE_BASE : simpl never.
#[local] Arguments Nat.mul : simpl never.

Class KeyedItem (T K : Type) := key : T → K.
#[export] Hint Mode KeyedItem ! - : typeclass_instances.

Inductive Edit (T K : Type) := Insert (item : T) | Remove (k : K).
Arguments Insert {T K} _.
Arguments Remove {T K} _.

Section keyed.
Context {T S K Cx : Type} `{Summary S Cx, Item T S Cx, !Dimension K S Cx, Ord K, !KeyedItem T K}.
Implicit Types (t : SumTree T S) (c : Cursor T S K Cx).

Definition edit_key (e : Edit T K) : K :=
  match e with Insert item => key item | Remove k => k end.

(** The test [cursor.item().key() == k] and the step past that item. *)
Definition take_key c (k : K) : option (Cursor T S K Cx * option T) :=
  i ← item c;
  match i with
  | Some cursor_item =>
      if (key cursor_item =? k)%rust then c ← next c; Some (c, Some cursor_item)
      else Some (c, None)
  | None => Some (c, None)
  end.

(** The tree afterwards and the item replaced. *)
Definition insert_or_replace t (item : T) (cx : Cx) : option (SumTree T S * option T) :=
  '(c, new_tree) ← slice (cursor_new t cx : Cursor T S K Cx) (key item : K) Left;
  '(c, replaced) ← take_key c (key item);
  new_tree ← push new_tree item cx;
  '(_, rest) ← suffix c;
  new_tree ← append new_tree rest cx;
  Some (new_tree, replaced).

Definition remove t (k : K) (cx : Cx) : option (SumTree T S * option T) :=
  '(c, new_tree) ← slice (cursor_new t cx : Cursor T S K Cx) k Left;
  '(c, removed) ← take_key c k;
  '(_, rest) ← suffix c;
  new_tree ← append new_tree rest cx;
  Some (new_tree, removed).

(** The loop state of [edit]. *)
Record EditState := mkEditState {
  edit_cursor : Cursor T S K Cx;
  edit_tree : SumTree T S;
  buffered_items : list T;
  edit_removed : list T
}.

Definition edit_step (cx : Cx) (st : EditState) (e : Edit T K) : option EditState :=
  let new_key := edit_key e in
  old_item ← item (edit_cursor st);
  st ← (if match old_item with Some old_item => (key old_item <? new_key)%rust | None => false end
        then new_tree ← extend (edit_tree st) (buffered_items st) cx;
             '(c, sl) ← slice (edit_cursor st) new_key Left;
             new_tree ← append new_tree sl cx;
             Some (mkEditState c new_tree [] (edit_removed st))
        else Some st);
  '(c, old_item) ← take_key (edit_cursor st) new_key;
  Some (mkEditState c (edit_tree st)
          match e with
          | Insert item => buffered_items st ++ [item]
          | Remove _ => buffered_items st
          end
          (edit_removed st ++ option_list old_item)).

(** [sort_unstable_by_key] of the standard library: the order of edits with
    the same key is not specified. *)
Context (sort_unstable_by_key : list (Edit T K) → list (Edit T K)).

Definition edit t (edits : list (Edit T K)) (cx : Cx) : option (SumTree T S * list T) :=
  match edits with
  | [] => Some (t, [])
  | _ =>
      '(c, _) ← seek (cursor_new t cx : Cursor T S K Cx) (dim_zero cx : K) Left;
      st ← foldlM (edit_step cx) (mkEditState c (new cx) [] []) (sort_unstable_by_key edits);
      new_tree ← extend (edit_tree st) (buffered_items st) cx;
      '(_, rest) ← suffix (edit_cursor st);
      new_tree ← append new_tree rest cx;
      Some (new_tree, edit_removed st)
  end.

(** [get], through the exact search. *)
Definition get t (k : K) (cx : Cx) : option T := (find_exact (D:=K) t cx k Left).2.
End keyed.
Arguments EditState : clear implicits.
Arguments mkEditState {T S K Cx} _ _ _ _.

(** ** The interface of keys *)

Class KeyedLaws (T S K Cx : Type) `{Summary S Cx, !SummaryOk S Cx, !Item T S Cx, !Dimension K S Cx, !Ord K,
    !KeyedItem T K} : Prop := {
  keyed_summary :: SummaryLaws S Cx;
  keyed_item :: ItemLaws T S Cx;
  keyed_dim :: DimensionLaws K S Cx;
  keyed_ord :: OrdLaws K;
  key_added cx (d : K) (i : T) :
    cmp d (key i) ≠ Gt → dim_add_summary d (item_summary_of i cx) cx = key i;
  key_zero cx (k : K) : cmp (dim_zero cx) k ≠ Gt
}.

(** ** Sorted sequences as finite maps *)

Section sorted.
Context {T K : Type} `{OrdLaws K, !KeyedItem T K}.
Implicit Types (l a b : list T) (k : K) (i j : T) (m : option T).

Definition key_lt i j : Prop := cmp (key i : K) (key j) = Lt.
Definition sorted l : Prop := StronglySorted key_lt l.

Definition lookup_key (k : K) (l : list T) : option T :=
  List.find (λ i, bool_decide (cmp (key i) k = Eq)) l.

Definition below (k : K) l : Prop := Forall (λ i, cmp (key i) k = Lt) l.
Definition above (k : K) l : Prop := Forall (λ i, cmp k (key i) = Lt) l.

Lemma sorted_app a b :
  sorted (a ++ b) ↔ sorted a ∧ sorted b ∧ ∀ i j, i ∈ a → j ∈ b → key_lt i j.
Proof.
  unfold sorted. induction a as [|x a IH]; simpl.
  - split; [intros ?; split_and!; [constructor|done|]|tauto]. by intros ? ? ?%not_elem_of_nil.
  - split.
    + inversion 1 as [|? ? Hs Hf]; subst. apply IH in Hs as (?&?&Hab).
      rewrite Forall_app in Hf. destruct Hf as [Ha Hb]. split_and!; [by constructor|done|].
      intros i j [->|Hi]%elem_of_cons Hj; [|by apply Hab]. by eapply Forall_forall in Hb.
    + intros (Ha&Hb&Hab). inversion Ha as [|? ? Hs Hf]; subst. constructor.
      * apply IH. split_and!; [done..|]. intros. apply Hab; [by apply elem_of_cons; right|done].
      * apply Forall_app. split; [done|]. apply Forall_forall. intros j Hj.
        apply Hab; [by left|done].
Qed.

Lemma lookup_below k l : below k l → lookup_key k l = None.
Proof.
  induction 1 as [|i l Hi _ IH]; [done|]. simpl. rewrite Hi. by rewrite bool_decide_eq_false_2.
Qed.

Lemma lookup_above k l : above k l → lookup_key k l = None.
Proof.
  induction 1 as [|i l Hi _ IH]; [done|]. simpl. rewrite bool_decide_eq_false_2; [done|].
  rewrite (cmp_antisym k), Hi. done.
Qed.

Lemma lookup_app k a b :
  lookup_key k (a ++ b) =
  match lookup_key k a with Some i => Some i | None => lookup_key k b end.
Proof. unfold lookup_key. induction a as [|i a IH]; simpl; [done|]. by case_bool_decide. Qed.

Lemma lookup_Some_key k l i : lookup_key k l = Some i → key i = k.
Proof.
  intros [_ Hk]%List.find_some. apply bool_decide_eq_true in Hk. by apply cmp_eq_iff.
Qed.

Lemma lookup_Some_elem k l i : lookup_key k l = Some i → i ∈ l.
Proof. intros [Hk _]%List.find_some. by apply list_elem_of_In. Qed.

(** The items below a key, the item of that key if any, and those above. *)
Lemma sorted_cut l k :
  sorted l →
  ∃ a b, l = a ++ option_list (lookup_key k l) ++ b ∧ below k a ∧ above k b ∧
    span (λ i, bool_decide (cmp k (key i) = Gt)) l = (a, option_list (lookup_key k l) ++ b).
Proof.
  induction 1 as [|i l Hs IH Hf]; [exists [], []; split_and!; (done || constructor)|]. simpl.
  assert (Hab : cmp k (key i) ≠ Gt → above k l).
  { intros Hk. eapply Forall_impl; [exact Hf|]. intros j Hj. simpl. eauto with order. }
  destruct (cmp k (key i)) eqn:E.
  - rewrite bool_decide_eq_true_2 by (rewrite (cmp_antisym k), E; done).
    exists [], l. split_and!; [done|constructor|by apply Hab|done].
  - rewrite bool_decide_eq_false_2 by (rewrite (cmp_antisym k), E; done).
    rewrite lookup_above by by apply Hab. exists [], (i :: l).
    split_and!; [done|constructor| |done]. constructor; [done|by apply Hab].
  - assert (Hi : cmp (key i) k = Lt) by by apply cmp_gt_lt.
    rewrite Hi. simpl. destruct IH as (a&b&El&Ha&Hb&Hspan).
    exists (i :: a), b. split_and!; [simpl; by rewrite <- El|by constructor|done|].
    by rewrite Hspan.
Qed.

(** Two sorted sequences with the same lookups are equal. *)
Lemma lookup_sorted_elem l i : sorted l → i ∈ l → lookup_key (key i) l = Some i.
Proof.
  intros Hs Hi. apply list_elem_of_split in Hi as (a&b&->).
  apply sorted_app in Hs as (_&_&Hab). rewrite lookup_app, lookup_below.
  - simpl. by rewrite bool_decide_eq_true_2 by apply cmp_refl.
  - apply Forall_forall. intros j Hj. apply Hab; [done|by left].
Qed.

Lemma below_lt k a i : below k a → i ∈ a → cmp (key i) k = Lt.
Proof. intros Ha Hi. by eapply Forall_forall in Ha. Qed.
Lemma above_lt k b i : above k b → i ∈ b → cmp k (key i) = Lt.
Proof. intros Ha Hi. by eapply Forall_forall in Ha. Qed.

(** Putting an item of the key, or none, between the parts of a cut. *)
Lemma sorted_replace k a m m' b :
  sorted (a ++ option_list m ++ b) → below k a → above k b →
  (∀ i, m' = Some i → key i = k) → sorted (a ++ option_list m' ++ b).
Proof.
  intros Hs Ha Hb Hm. apply sorted_app in Hs as (Hsa&Hs&Hab).
  apply sorted_app in Hs as (_&Hsb&_).
  apply sorted_app. split_and!; [done| |].
  - destruct m' as [i|]; [|done]. simpl. constructor; [done|].
    apply Forall_forall. intros j Hj. unfold key_lt. rewrite (Hm i) by done. by eapply above_lt.
  - intros i j Hi [Hj|Hj]%elem_of_app; [|apply Hab; [done|by apply elem_of_app; right]].
    destruct m' as [x|]; [|by apply not_elem_of_nil in Hj]. apply list_elem_of_singleton in Hj as ->.
    unfold key_lt. rewrite (Hm x) by done. by eapply below_lt.
Qed.

Lemma lookup_replace k a m b k' :
  below k a → above k b → (∀ i, m = Some i → key i = k) →
  lookup_key k' (a ++ option_list m ++ b) =
  if (k' =? k)%rust then m else
  match lookup_key k' a with Some i => Some i | None => lookup_key k' b end.
Proof.
  intros Ha Hb Hm. rewrite !lookup_app. case_bool_decide as E.
  - apply cmp_eq_iff in E as ->. rewrite (lookup_below k a), (lookup_above k b) by done.
    destruct m as [i|]; simpl; [|done]. rewrite (Hm i) by done.
    by rewrite bool_decide_eq_true_2 by apply cmp_refl.
  - destruct (lookup_key k' a); [done|]. destruct m as [i|]; simpl; [|done].
    rewrite (Hm i) by done. rewrite bool_decide_eq_false_2; [done|].
    intros E'. apply E. by rewrite (cmp_antisym k k'), E'.
Qed.
End sorted.
