(* ===== verification/KeyedFacts.v ===== *)
(** The keyed operations refine a finite map.

    Every operation cuts the sorted sequence at a key ([sorted_cut]); [edit]
    is one pass of such cuts over the edits in key order ([apply_edits]). *)

From stdpp Require Import base numbers option list sorting.
From S2P Require Import Prelude SumTree SumTreeFacts Search Cursor CursorFacts StepFacts CursorApi KeyedTree.

#[local] Arguments TREE_BASE : simpl never.
#[local] Arguments Nat.mul : simpl never.

Section keyed_facts.
Context {T S K Cx : Type} `{KeyedLaws T S K Cx}.
Implicit Types (t : SumTree T S) (c : Cursor T S K Cx) (cx : Cx) (l a b : list T) (k : K)
  (i j : T) (m : option T) (e : Edit T K) (es : list (Edit T K)).

(** A position at or before every item ahead. *)
Definition at_most (d : K) l : Prop := Forall (λ i, cmp d (key i) ≠ Gt) l.

Lemma at_most_zero cx l : at_most (dim_zero cx) l.
Proof. apply Forall_forall. intros i _. apply key_zero. Qed.

Lemma at_most_head i l : sorted (K:=K) (i :: l) → at_most (key i) l.
Proof.
  inversion 1 as [|? ? _ Hf]; subst. eapply Forall_impl; [exact Hf|]. unfold key_lt. eauto with order.
Qed.

Lemma dsum_key cx (d : K) l :
  sorted (K:=K) l → at_most d l → dsum cx d l = match list.last l with Some i => key i | None => d end.
Proof.
  revert d. induction l as [|i l IH]; intros d Hs Hd; [done|].
  inversion Hd as [|? ? Hi _]; subst.
  unfold dsum. cbn [foldl]. rewrite key_added by done. fold (dsum cx (key i : K) l). rewrite IH; [|by inversion Hs|by apply at_most_head].
  rewrite last_cons. by destruct (list.last l).
Qed.

Lemma at_most_ahead cx l1 l2 : sorted (K:=K) (l1 ++ l2) → at_most (dsum cx (dim_zero cx) l1) l2.
Proof.
  intros Hs. pose proof Hs as (Hs1&_&Hab)%sorted_app.
  rewrite dsum_key by (done || apply at_most_zero).
  destruct (list.last l1) as [i|] eqn:E; [|apply at_most_zero].
  apply last_snoc_inv in E as [k ->]. apply Forall_forall. intros j Hj.
  apply cmp_lt_le, Hab; [rewrite elem_of_app, list_elem_of_singleton; by right|done].
Qed.

Lemma seek_split_key p cx (d : K) l :
  sorted (K:=K) l → at_most d l → seek_split p cx d l = span (λ i, negb (p (key i))) l.
Proof.
  revert d. induction l as [|i l IH]; intros d Hs Hd; simpl; [done|].
  inversion Hd as [|? ? Hi _]; subst. rewrite key_added by done.
  destruct (p (key i)); simpl; [done|].
  rewrite IH; [done|by inversion Hs|by apply at_most_head].
Qed.

Lemma span_ext (f g : T → bool) l : (∀ i, f i = g i) → span f l = span g l.
Proof. intros E. induction l as [|i l IH]; simpl; [done|]. by rewrite E, IH. Qed.

Lemma key_cut cx k (d : K) l :
  sorted (K:=K) l → at_most d l →
  seek_split (stops cx k Left) cx d l = span (λ i, bool_decide (cmp k (key i) = Gt)) l.
Proof.
  intros Hs Hd. rewrite seek_split_key by done. apply span_ext. intros i.
  unfold stops, target_in_child, target_cmp, Ord_SeekTarget. by destruct (cmp k (key i)).
Qed.

Lemma key_mono cx (d : K) l : sorted (K:=K) l → at_most d l → dim_mono cx d l.
Proof.
  intros Hs Hd l1 l2 l3 -> Hne.
  assert (Hs12 : sorted (K:=K) (l1 ++ l2)) by (rewrite app_assoc in Hs; by apply sorted_app in Hs as (?&_&_)).
  assert (Hd12 : at_most d (l1 ++ l2)) by (unfold at_most in *; rewrite app_assoc, Forall_app in Hd; tauto).
  pose proof Hs12 as (Hs1&_)%sorted_app. pose proof Hd12 as [Hd1 _]%Forall_app.
  rewrite !dsum_key by done.
  destruct l1 as [|i l1 _] using rev_ind; [done|]. rewrite last_snoc.
  destruct l2 as [|j l2 _] using rev_ind; [by rewrite app_nil_r, last_snoc, cmp_refl|].
  rewrite app_assoc, last_snoc. apply sorted_app in Hs as (_&_&Hab).
  assert (E : key_lt (K:=K) i j); [|unfold key_lt in E; by rewrite E].
  apply Hab; rewrite !elem_of_app, list_elem_of_singleton; auto.
Qed.

Lemma sorted_app_r a b : sorted (K:=K) (a ++ b) → sorted (K:=K) b.
Proof. intros (_&?&_)%sorted_app. done. Qed.

(** A key may be sought when nothing behind the cursor is above it. *)
Definition behind_le k l : Prop := Forall (λ i, cmp (key i) k ≠ Gt) l.

Lemma key_seekable c l1 l2 k bias :
  cursor_at c l1 l2 → sorted (K:=K) (l1 ++ l2) → behind_le k l1 → seekable c k bias l2.
Proof.
  intros (h&_&_&Hp&_) Hs Hk. pose proof Hs as (Hs1&Hs2&_)%sorted_app. split.
  - rewrite Hp, dsum_key by (done || apply at_most_zero). unfold target_cmp, Ord_SeekTarget. intros E%cmp_gt_lt.
    destruct (list.last l1) as [i|] eqn:El; [|by destruct (key_zero (T:=T) (cursor_cx c) k)].
    by apply (Forall_last _ _ _ Hk) in El.
  - apply seek_good_mono, seek_mono_ord, key_mono; [done|]. rewrite Hp. by apply at_most_ahead.
Qed.

Lemma slice_key c l1 l2 k a b :
  cursor_at c l1 l2 → sorted (K:=K) (l1 ++ l2) → behind_le k l1 → span (λ i, bool_decide (cmp k (key i) = Gt)) l2 = (a, b) →
  ∃ c' t h, slice c k Left = Some (c', t) ∧ same_tree c c' ∧ cursor_at c' (l1 ++ a) b ∧
    wf (cursor_cx c) h t ∧ elements t = a.
Proof.
  intros Hc Hs Hk Hcut. apply slice_spec with l2; [done|by eapply key_seekable|].
  destruct Hc as (h&_&_&Hp&_). unfold seek_cut. rewrite Hp, key_cut; [done| |by apply at_most_ahead].
  by eapply sorted_app_r.
Qed.

Lemma take_key_spec c k l1 m b :
  cursor_at c l1 (option_list m ++ b) → did_seek c = true →
  (∀ i, m = Some i → key i = k) → above k b →
  ∃ c', take_key c k = Some (c', m) ∧ same_tree c c' ∧ cursor_at c' (l1 ++ option_list m) b.
Proof.
  intros Hc Hd Hm Hb. unfold take_key. rewrite (item_at _ _ _ Hc Hd). simpl.
  destruct m as [i|]; simpl in *.
  - rewrite (Hm i), bool_decide_eq_true_2 by (done || apply cmp_refl).
    destruct (next_spec c l1 (i :: b) (l1 ++ [i]) b) as (c'&->&?&?); [done| |by exists c'].
    unfold pending. by rewrite Hd.
  - rewrite app_nil_r. destruct b as [|j b]; simpl; [by exists c|].
    inversion Hb as [|? ? Hj _]; subst. rewrite bool_decide_eq_false_2; [by exists c|].
    rewrite (cmp_antisym k), Hj. done.
Qed.

(** A tree of keyed items: well formed, sorted and within a cursor's height. *)
Definition keyed_tree cx t l : Prop :=
  elements t = l ∧ sorted (K:=K) l ∧ ∃ h, wf cx h t ∧ h < STACK_CAPACITY.

Lemma keyed_cursor cx t l : keyed_tree cx t l → cursor_at (cursor_new t cx : Cursor T S K Cx) [] l.
Proof. intros (<-&_&h&?&?). by eapply cursor_at_new. Qed.

(** The prefix every operation starts with: cut, and take the item of the key. *)
Lemma cut_key cx t l k :
  keyed_tree cx t l →
  ∃ c new_tree h c' a b,
    slice (cursor_new t cx : Cursor T S K Cx) k Left = Some (c, new_tree) ∧
    take_key c k = Some (c', lookup_key k l) ∧
    wf cx h new_tree ∧ elements new_tree = a ∧ cursor_cx c' = cx ∧
    l = a ++ option_list (lookup_key k l) ++ b ∧ below k a ∧ above k b ∧
    cursor_at c (a) (option_list (lookup_key k l) ++ b) ∧ did_seek c = true ∧
    cursor_at c' (a ++ option_list (lookup_key k l)) b.
Proof.
  intros Ht. pose proof (keyed_cursor _ _ _ Ht) as Hc. destruct Ht as (_&Hs&_).
  destruct (sorted_cut l k Hs) as (a&b&El&Ha&Hb&Hspan).
  destruct (slice_key _ [] l k a (option_list (lookup_key k l) ++ b) Hc Hs) as (c&new_tree&h&Hsl&(_&Ecx&Hd)&Hc1&Hwf&Hel);
    [constructor|exact Hspan|].
  destruct (take_key_spec c k a (lookup_key k l) b) as (c'&Htk&(_&Ecx'&_)&Hc2);
    [done..|by intros; eapply lookup_Some_key|done|].
  exists c, new_tree, h, c', a, b. split_and!; try done. by rewrite Ecx', Ecx.
Qed.

Lemma suffix_at cx c l1 l2 :
  cursor_at c l1 l2 → cursor_cx c = cx →
  ∃ c' t h, suffix c = Some (c', t) ∧ wf cx h t ∧ elements t = l2.
Proof. intros Hc <-. destruct (suffix_spec c l1 l2 Hc) as (c'&t&h&?&_&_&?&?). eauto 6. Qed.

Lemma insert_or_replace_spec cx t l i :
  keyed_tree cx t l →
  ∃ t' h a b, insert_or_replace t i cx = Some (t', lookup_key (key i) l) ∧ wf cx h t' ∧
    l = a ++ option_list (lookup_key (key i) l) ++ b ∧ below (key i) a ∧ above (key i) b ∧
    elements t' = a ++ [i] ++ b.
Proof.
  intros Ht. destruct (cut_key _ _ _ (key i) Ht)
    as (c&nt&h&c'&a&b&Hsl&Htk&Hwf&Hel&Ecx&El&Ha&Hb&_&_&Hc).
  destruct (suffix_at cx c' _ _ Hc Ecx) as (c''&rest&hr&Hsuf&Hwfr&Helr).
  destruct (push_wf cx h nt i) as (nt1&h1&Hpush&Hwf1&_&Hel1); [done|].
  destruct (append_wf cx h1 nt1 hr rest) as (nt2&h2&Happ&Hwf2&_&Hel2); [done..|].
  exists nt2, h2, a, b. unfold insert_or_replace.
  rewrite Hsl. cbn [mbind option_bind]. rewrite Htk. cbn [mbind option_bind].
  rewrite Hpush. cbn [mbind option_bind]. rewrite Hsuf. cbn [mbind option_bind].
  rewrite Happ. split_and!; try done.
  by rewrite Hel2, Hel1, Hel, Helr, <- app_assoc.
Qed.

Lemma remove_spec cx t l k :
  keyed_tree cx t l →
  ∃ t' h a b, remove t k cx = Some (t', lookup_key k l) ∧ wf cx h t' ∧
    l = a ++ option_list (lookup_key k l) ++ b ∧ below k a ∧ above k b ∧
    elements t' = a ++ b.
Proof.
  intros Ht. destruct (cut_key _ _ _ k Ht)
    as (c&nt&h&c'&a&b&Hsl&Htk&Hwf&Hel&Ecx&El&Ha&Hb&_&_&Hc).
  destruct (suffix_at cx c' _ _ Hc Ecx) as (c''&rest&hr&Hsuf&Hwfr&Helr).
  destruct (append_wf cx h nt hr rest) as (nt2&h2&Happ&Hwf2&_&Hel2); [done..|].
  exists nt2, h2, a, b. unfold remove.
  rewrite Hsl. cbn [mbind option_bind]. rewrite Htk. cbn [mbind option_bind].
  rewrite Hsuf. cbn [mbind option_bind]. rewrite Happ. split_and!; try done.
  by rewrite Hel2, Hel, Helr.
Qed.

Lemma get_spec cx t l k : keyed_tree cx t l → get t k cx = lookup_key k l.
Proof.
  intros (Hel&Hs&h&Hwf&_). unfold get. destruct l as [|x l'].
  { by eapply find_generic_empty. }
  pose proof (key_mono cx (dim_zero cx) _ Hs (at_most_zero _ _)) as Hm. rewrite <- Hel in Hm.
  rewrite (find_exact_spec cx k h); [|done|by rewrite Hel|by apply seek_mono_ord|
    by apply seek_mono_ord_before].
  rewrite Hel, key_cut by (done || apply at_most_zero). clear Hel Hm.
  destruct (sorted_cut _ k Hs) as (a&b&El&Ha&Hb&->).
  assert (Hend : ∀ i rest, x :: l' = a ++ i :: rest → dsum cx (dim_zero cx) (a ++ [i]) = key i).
  { intros i rest E. rewrite E, cons_middle, app_assoc in Hs. apply sorted_app in Hs as (?&_).
    rewrite dsum_key; [by rewrite last_snoc|done|apply at_most_zero]. }
  destruct (lookup_key k (x :: l')) as [i|] eqn:E; cbn [option_list app] in *.
  - simpl. rewrite (Hend i b El), (lookup_Some_key _ _ _ E).
    unfold target_cmp, Ord_SeekTarget. by rewrite cmp_refl.
  - destruct b as [|j b]; [done|]. inversion Hb as [|? ? Hj _]; subst.
    simpl. rewrite (Hend j b El). unfold target_cmp, Ord_SeekTarget. by rewrite Hj.
Qed.

(** Seeking a key from the start. *)
Lemma seek_key cx t l k a b :
  keyed_tree cx t l → span (λ i, bool_decide (cmp k (key i) = Gt)) l = (a, b) →
  ∃ c found, seek (cursor_new t cx : Cursor T S K Cx) k Left = Some (c, found) ∧
    cursor_at c a b ∧ did_seek c = true.
Proof.
  intros Ht Hspan. pose proof (keyed_cursor _ _ _ Ht) as Hc. destruct Ht as (Hel&Hs&_).
  pose proof (cursor_at_reset _ [] l Hc) as Hr. simpl in Hr. rewrite Hel in Hr.
  destruct (seek_spec (cursor_new t cx : Cursor T S K Cx) k Left [] l a b) as (c&Hseek&(_&_&Hd)&Hc').
  - done.
  - apply (key_seekable _ []); [done|done|constructor].
  - unfold seek_cut. rewrite key_cut; [done|done|apply at_most_zero].
  - by eexists c, _.
Qed.

(** *** [edit] *)

Definition inserted_item e : option T := match e with Insert i => Some i | Remove _ => None end.
Definition inserted e : list T := option_list (inserted_item e).

(** One pass over a sorted sequence by edits in key order: the resulting
    sequence and the items removed. *)
Fixpoint apply_edits es l : list T * list T :=
  match es with
  | [] => (l, [])
  | e :: es =>
      let k := edit_key e in
      let '(a, r) := span (λ i, bool_decide (cmp k (key i) = Gt)) l in
      let '(m, b) := match r with
                     | i :: b => if (key i =? k)%rust then (Some i, b) else (None, r)
                     | [] => (None, [])
                     end in
      let '(out, removed) := apply_edits es b in
      (a ++ inserted e ++ out, option_list m ++ removed)
  end.

Lemma apply_edits_cons e es l a b :
  let k := edit_key e in
  span (λ i, bool_decide (cmp k (key i) = Gt)) l = (a, option_list (lookup_key k l) ++ b) →
  above k b →
  apply_edits (e :: es) l =
    (a ++ inserted e ++ (apply_edits es b).1, option_list (lookup_key k l) ++ (apply_edits es b).2).
Proof.
  intros k Hspan Hb. cbn [apply_edits]. fold k. rewrite Hspan.
  destruct (lookup_key k l) as [i|] eqn:E; simpl.
  - rewrite (lookup_Some_key _ _ _ E), bool_decide_eq_true_2 by apply cmp_refl.
    by destruct (apply_edits es b).
  - destruct b as [|j b]; [by destruct (apply_edits es [])|].
    inversion Hb as [|? ? Hj _]; subst.
    rewrite bool_decide_eq_false_2; [by destruct (apply_edits es (j :: b))|].
    rewrite (cmp_antisym k), Hj. done.
Qed.

(** The loop state: what is ahead, and what is already out. *)
Definition edit_inv cx (st : EditState T S K Cx) l1 l2 out : Prop :=
  cursor_at (edit_cursor st) l1 l2 ∧ did_seek (edit_cursor st) = true ∧
  cursor_cx (edit_cursor st) = cx ∧ (∃ h, wf cx h (edit_tree st)) ∧
  elements (edit_tree st) ++ buffered_items st = out.

(** The guarded slice: up to the key, the buffer flushed first. *)
Lemma edit_step_slice cx st k l1 l2 out a r :
  edit_inv cx st l1 l2 out → sorted (K:=K) (l1 ++ l2) → behind_le k l1 → span (λ i, bool_decide (cmp k (key i) = Gt)) l2 = (a, r) →
  ∃ st', (if match head l2 with Some old_item => (key old_item <? k)%rust | None => false end
        then new_tree ← extend (edit_tree st) (buffered_items st) cx;
             '(c, sl) ← slice (edit_cursor st) k Left;
             new_tree ← append new_tree sl cx;
             Some (mkEditState c new_tree [] (edit_removed st))
        else Some st) = Some st' ∧
    edit_inv cx st' (l1 ++ a) r (out ++ a) ∧ edit_removed st' = edit_removed st.
Proof.
  intros (Hc&Hd&Ecx&[h Hwf]&Hout) Hs Hk Hspan.
  destruct (match head l2 with Some old_item => (key old_item <? k)%rust | None => false end) eqn:Eg.
  - destruct (from_iter_wf cx (buffered_items st)) as (o&ho&Ho&Hwfo&Helo).
    destruct (append_wf cx h (edit_tree st) ho o) as (t1&h1&Ha1&Hwf1&_&Hel1); [done..|].
    destruct (slice_key _ _ _ k a r Hc Hs Hk Hspan) as (c'&t2&h2&Hsl&(_&Ecx'&Hd')&Hc'&Hwf2&Hel2).
    rewrite Ecx in *.
    destruct (append_wf cx h1 t1 h2 t2) as (t3&h3&Ha3&Hwf3&_&Hel3); [done..|].
    assert (Hext : extend (edit_tree st) (buffered_items st) cx = Some t1)
      by by unfold extend; rewrite Ho.
    rewrite Hext. cbn [mbind option_bind]. rewrite Hsl. cbn [mbind option_bind].
    rewrite Ha3. cbn [mbind option_bind]. eexists. split; [done|]. split; [|done].
    split_and!; simpl; [done..|by exists h3|].
    by rewrite app_nil_r, Hel3, Hel1, Helo, Hel2, <- Hout.
  - assert (a = [] ∧ r = l2) as [-> ->].
    { destruct l2 as [|i l2]; simpl in *; [by simplify_eq|].
      apply bool_decide_eq_false in Eg. rewrite bool_decide_eq_false_2 in Hspan; [by simplify_eq|].
      intros E. by apply cmp_gt_lt in E. }
    exists st. rewrite !app_nil_r. split; [done|]. split; [|done].
    unfold edit_inv. eauto 6.
Qed.

Lemma edit_step_spec cx st e l1 l2 out a b :
  let k := edit_key e in
  edit_inv cx st l1 l2 out → sorted (K:=K) (l1 ++ l2) → behind_le k l1 → span (λ i, bool_decide (cmp k (key i) = Gt)) l2 = (a, option_list (lookup_key k l2) ++ b) →
  above k b →
  ∃ st', edit_step cx st e = Some st' ∧
    edit_inv cx st' (l1 ++ a ++ option_list (lookup_key k l2)) b (out ++ a ++ inserted e) ∧
    edit_removed st' = edit_removed st ++ option_list (lookup_key k l2).
Proof.
  intros k Hinv Hs Hk Hspan Hb. unfold edit_step. fold k.
  pose proof Hinv as (Hc&Hd&_). rewrite (item_at _ _ _ Hc Hd). cbn [mbind option_bind].
  destruct (edit_step_slice cx st k l1 l2 out _ _ Hinv Hs Hk Hspan)
    as (st1&->&(Hc1&Hd1&Ecx1&Hwf1&Hout1)&Erm). cbn [mbind option_bind].
  destruct (take_key_spec _ k _ _ _ Hc1 Hd1) as (c'&->&(_&Ecx'&Hd')&Hc');
    [by intros; eapply lookup_Some_key|done|]. cbn [mbind option_bind].
  eexists. split; [done|]. rewrite app_assoc, Erm. split; [|done].
  split_and!; simpl; [done|done|by rewrite Ecx'|done|].
  rewrite app_assoc, <- Hout1. destruct e; unfold inserted; simpl;
    [by rewrite app_assoc|by rewrite app_nil_r].
Qed.

Definition edit_lt e e' : Prop := cmp (edit_key e) (edit_key e') = Lt.
Definition edit_le e e' : Prop := cmp (edit_key e) (edit_key e') ≠ Gt.

Lemma edit_loop_spec cx es : ∀ st l1 l2 out,
  edit_inv cx st l1 l2 out → sorted (K:=K) (l1 ++ l2) →
  StronglySorted edit_le es → Forall (λ e, behind_le (edit_key e) l1) es →
  ∃ st' l1' l2' out', foldlM (edit_step cx) st es = Some st' ∧ edit_inv cx st' l1' l2' out' ∧
    out' ++ l2' = out ++ (apply_edits es l2).1 ∧
    edit_removed st' = edit_removed st ++ (apply_edits es l2).2.
Proof.
  induction es as [|e es IH]; intros st l1 l2 out Hinv Hs Hes Hk.
  { exists st, l1, l2, out. simpl. by rewrite app_nil_r. }
  inversion Hes as [|? ? Hes' Hlt]; subst. inversion Hk as [|? ? Hke Hk']; subst.
  pose proof (sorted_app_r _ _ Hs) as Hs2.
  destruct (sorted_cut l2 (edit_key e) Hs2) as (a&b&El2&Ha&Hb&Hspan).
  destruct (edit_step_spec cx st e l1 l2 out a b) as (st1&Hst1&Hinv1&Erm1); [done..|].
  destruct (IH st1 _ _ _ Hinv1) as (st'&l1'&l2'&out'&Hfold&Hinv'&Hout'&Erm').
  - rewrite El2 in Hs. by rewrite <- !app_assoc.
  - done.
  - assert (HF : Forall (λ e', edit_le e e' ∧ behind_le (edit_key e') l1) es)
      by (apply Forall_and; done).
    eapply Forall_impl; [exact HF|]. intros e' [Hee' Hke'].
    unfold behind_le. rewrite !Forall_app. unfold edit_le in Hee'. split_and!; [done| |].
    + eapply Forall_impl; [exact Ha|]. intros i Hi. simpl.
      by eapply cmp_le_trans; [apply cmp_lt_le, Hi|].
    + destruct (lookup_key (edit_key e) l2) as [i|] eqn:E; simpl; [|constructor].
      apply Forall_singleton. by rewrite (lookup_Some_key _ _ _ E).
  - exists st', l1', l2', out'. cbn [foldlM mbind option_bind]. rewrite Hst1.
    split; [done|]. split; [done|].
    rewrite (apply_edits_cons e es l2 a b) by done. simpl.
    split; [by rewrite Hout', <- !app_assoc|by rewrite Erm', Erm1, <- app_assoc].
Qed.

Lemma inserted_item_key e i : inserted_item e = Some i → key i = edit_key e.
Proof. destruct e; simpl; by intros [= ->]. Qed.

Lemma sorted_join k a m b :
  sorted (K:=K) a → sorted (K:=K) b → below k a → above k b →
  (∀ i, m = Some i → key i = k) → sorted (K:=K) (a ++ option_list m ++ b).
Proof.
  intros Hsa Hsb Ha Hb Hm. apply (sorted_replace k a None m b); try done.
  apply sorted_app. split_and!; [done..|]. intros i j Hi Hj. unfold key_lt.
  eapply cmp_lt_trans; [by eapply below_lt|by eapply above_lt].
Qed.

Lemma omap_ext_Forall {A B} (f g : A → option B) (x : list A) :
  Forall (λ y, f y = g y) x → omap f x = omap g x.
Proof. induction 1 as [|y x E _ IH]; simpl; [done|]. rewrite E. destruct (g y); [by f_equal|done]. Qed.

(** The edit of a key, and what the key is bound to afterwards. *)
Definition edit_for k es : option (Edit T K) :=
  List.find (λ e, bool_decide (cmp (edit_key e) k = Eq)) es.

Definition edited k es l : option T :=
  match edit_for k es with Some e => inserted_item e | None => lookup_key k l end.

Lemma edit_for_Some k es e : edit_for k es = Some e → edit_key e = k ∧ e ∈ es.
Proof.
  intros [Hin Hk]%List.find_some. apply bool_decide_eq_true, cmp_eq_iff in Hk.
  split; [done|by apply list_elem_of_In].
Qed.

Lemma below_lt_trans k k' a : below k a → cmp k k' = Lt → below k' a.
Proof. intros Ha Hk. eapply Forall_impl; [exact Ha|]. simpl. eauto with order. Qed.

Lemma above_lt_trans k k' b : above k' b → cmp k k' = Lt → above k b.
Proof. intros Hb Hk. eapply Forall_impl; [exact Hb|]. simpl. eauto with order. Qed.

(** A key above a cut is looked up in its upper part. *)
Lemma lookup_above_cut k k' a m b :
  below k a → above k b → (∀ i, m = Some i → key i = k) → cmp k k' = Lt →
  lookup_key k' (a ++ option_list m ++ b) = lookup_key k' b.
Proof.
  intros Ha Hb Hm Hk. rewrite (lookup_replace k) by done.
  rewrite bool_decide_eq_false_2 by (rewrite (cmp_antisym k), Hk; done).
  by rewrite lookup_below by by eapply below_lt_trans.
Qed.

Lemma apply_edits_above k es l :
  sorted (K:=K) l → above k l → Forall (λ e, cmp k (edit_key e) = Lt) es →
  above k (apply_edits es l).1.
Proof.
  revert l. induction es as [|e es IH]; intros l Hs Hl Hes; [done|].
  apply Forall_cons in Hes as [He Hes].
  destruct (sorted_cut l (edit_key e) Hs) as (a&b&El&_&Hb&Hspan).
  rewrite (apply_edits_cons e es l a b) by done. simpl.
  rewrite El in Hl. unfold above in Hl |- *. rewrite !Forall_app in Hl |- *.
  destruct Hl as (?&_&Hlb). split_and!; [done| |].
  - destruct e as [i|]; [|constructor]. by apply Forall_singleton.
  - apply IH; [|done..]. rewrite El, app_assoc in Hs. by eapply sorted_app_r.
Qed.

Lemma apply_edits_spec es l :
  sorted (K:=K) l → StronglySorted edit_lt es →
  sorted (K:=K) (apply_edits es l).1 ∧
  (∀ k, lookup_key k (apply_edits es l).1 = edited k es l) ∧
  (apply_edits es l).2 = omap (λ e, lookup_key (edit_key e) l) es.
Proof.
  intros Hs Hes. revert l Hs. induction Hes as [|e es Hes IH Hlt]; intros l Hs; [done|].
  destruct (sorted_cut l (edit_key e) Hs) as (a&b&El&Ha&Hb&Hspan).
  rewrite (apply_edits_cons e es l a b) by done. simpl.
  assert (Hsa : sorted (K:=K) a) by (rewrite El in Hs; by apply sorted_app in Hs as [? _]).
  assert (Hsb : sorted (K:=K) b).
  { rewrite El, app_assoc in Hs. by eapply sorted_app_r. }
  destruct (IH b Hsb) as (Hso&Hlo&Hro).
  pose proof (apply_edits_above (edit_key e) es b Hsb Hb Hlt) as Hab.
  assert (Hm : ∀ i, lookup_key (edit_key e) l = Some i → key i = edit_key e)
    by (intros i; apply lookup_Some_key).
  split_and!.
  - apply (sorted_join (edit_key e)); try done. intros i. apply inserted_item_key.
  - intros k. unfold inserted. rewrite (lookup_replace (edit_key e)); [|done..|intros i; apply inserted_item_key].
    unfold edited, edit_for. simpl. case_bool_decide as E.
    { apply cmp_eq_iff in E as ->. by rewrite bool_decide_eq_true_2 by apply cmp_refl. }
    rewrite (bool_decide_eq_false_2 (cmp (edit_key e) k = Eq)).
    2: { intros E'. apply E. apply cmp_eq_iff in E' as ->. apply cmp_refl. }
    fold (edit_for k es). rewrite Hlo. unfold edited. destruct (edit_for k es) as [e'|] eqn:E'.
    + apply edit_for_Some in E' as [<- Hin]. eapply Forall_forall in Hlt; [|done].
      by rewrite lookup_below by by eapply below_lt_trans.
    + rewrite El. rewrite (lookup_replace (edit_key e)) by done.
      by rewrite bool_decide_eq_false_2.
  - rewrite Hro. assert (Homap : omap (λ e, lookup_key (edit_key e) b) es =
                                 omap (λ e, lookup_key (edit_key e) l) es).
    { apply omap_ext_Forall. eapply Forall_impl; [exact Hlt|]. intros e' He'. simpl.
      rewrite El. symmetry. by eapply (lookup_above_cut (edit_key e)). }
    rewrite Homap. by destruct (lookup_key (edit_key e) l).
Qed.

(** *** Sorting the edits *)

Lemma edits_strict es :
  StronglySorted edit_le es → NoDup (edit_key <$> es) → StronglySorted edit_lt es.
Proof.
  induction 1 as [|e es Hes IH Hle]; simpl; intros Hnd; [constructor|].
  apply NoDup_cons in Hnd as [Hnin Hnd]. constructor; [by apply IH|].
  apply Forall_forall. intros e' He'. eapply Forall_forall in Hle; [|done].
  unfold edit_lt, edit_le in *. destruct (cmp (edit_key e) (edit_key e')) eqn:E; try done.
  apply cmp_eq_iff in E. destruct Hnin. rewrite E. by apply list_elem_of_fmap_2.
Qed.

Lemma edit_for_perm k es es' :
  NoDup (edit_key <$> es) → es ≡ₚ es' → edit_for k es = edit_for k es'.
Proof.
  intros Hnd Hp. revert Hnd. induction Hp as [|e es es' Hp IH|e e' es|es1 es2 es3 Hp1 IH1 Hp2 IH2];
    intros Hnd; [done| | |].
  - apply NoDup_cons in Hnd as [_ Hnd]. unfold edit_for. simpl. case_bool_decide; [done|].
    by apply IH.
  - apply NoDup_cons in Hnd as [Hnin _]. unfold edit_for. simpl.
    do 2 case_bool_decide; try done. destruct Hnin.
    apply elem_of_cons. left.
    repeat match goal with E : cmp _ _ = Eq |- _ => apply cmp_eq_iff in E end. congruence.
  - rewrite IH1 by done. apply IH2. by rewrite <- Hp1.
Qed.

Context (sort : list (Edit T K) → list (Edit T K)).

(** The whole of [edit] is one pass. *)
Lemma edit_pass cx t l es :
  (∀ es, sort es ≡ₚ es) → (∀ es, StronglySorted edit_le (sort es)) → keyed_tree cx t l →
  ∃ t' h, edit sort t es cx = Some (t', (apply_edits (sort es) l).2) ∧ wf cx h t' ∧ elements t' = (apply_edits (sort es) l).1.
Proof.
  intros Hperm Hsort Ht. pose proof Ht as (Hel&Hs&h&Hwf&Hh).
  unfold edit. destruct es as [|e0 es0] eqn:Ees.
  { exists t, h. assert (sort [] = []) as -> by (apply Permutation_nil_r, Hperm). done. }
  rewrite <- Ees in *. clear Ees e0 es0.
  pose proof (keyed_cursor _ _ _ Ht) as Hc.
  assert (Hspan0 : span (λ i, bool_decide (cmp (dim_zero cx : K) (key i) = Gt)) l = ([], l)).
  { destruct l as [|i l']; [done|]. simpl.
    by rewrite bool_decide_eq_false_2 by by apply (key_zero (T:=T)). }
  destruct (seek_spec (cursor_new t cx : Cursor T S K Cx) (dim_zero cx : K) Left [] l [] l)
    as (c&Hseek&(_&Ecx&Hd)&Hc').
  { done. }
  { apply (key_seekable _ []); [|done|constructor].
    pose proof (cursor_at_reset _ [] l Hc) as Hc0. simpl in Hc0. by rewrite Hel in Hc0. }
  { unfold seek_cut. rewrite key_cut; [exact Hspan0|done|apply at_most_zero]. }
  rewrite Hseek. cbn [mbind option_bind].
  destruct (edit_loop_spec cx (sort es) (mkEditState c (new cx) [] []) [] l [])
    as (st&l1&l2&out&->&(Hc2&_&Ecx2&[h2 Hwf2]&Hout)&Eout&Erm); [|done|done| |].
  { split_and!; simpl; [done|done|by rewrite Ecx|exists 0; apply wf_new|done]. }
  { apply Forall_forall. intros e' _. constructor. }
  cbn [mbind option_bind].
  destruct (from_iter_wf cx (buffered_items st)) as (o&ho&Ho&Hwfo&Helo).
  destruct (append_wf cx h2 (edit_tree st) ho o) as (t3&h3&Ha3&Hwf3&_&Hel3); [done..|].
  assert (Hext : extend (edit_tree st) (buffered_items st) cx = Some t3)
    by by unfold extend; rewrite Ho.
  destruct (suffix_at cx (edit_cursor st) _ _ Hc2 Ecx2) as (c''&rest&hr&Hsuf&Hwfr&Helr).
  destruct (append_wf cx h3 t3 hr rest) as (t4&h4&Ha4&Hwf4&_&Hel4); [done..|].
  rewrite Hext. cbn [mbind option_bind]. rewrite Hsuf. cbn [mbind option_bind].
  rewrite Ha4. cbn [mbind option_bind]. exists t4, h4. split; [by rewrite Erm|]. split; [done|].
  by rewrite Hel4, Hel3, Helo, Helr, Hout, Eout.
Qed.

Lemma edit_spec cx t l es :
  (∀ es, sort es ≡ₚ es) → (∀ es, StronglySorted edit_le (sort es)) →
  keyed_tree cx t l → NoDup (edit_key <$> es) →
  ∃ t' h removed l', edit sort t es cx = Some (t', removed) ∧ wf cx h t' ∧ elements t' = l' ∧
    sorted (K:=K) l' ∧ (∀ k, lookup_key k l' = edited k es l) ∧
    removed ≡ₚ omap (λ e, lookup_key (edit_key e) l) es.
Proof.
  intros Hperm Hsort Ht Hnd. destruct (edit_pass cx t l es Hperm Hsort Ht) as (t'&h&E&Hwf&El).
  assert (Hstrict : StronglySorted edit_lt (sort es)).
  { apply edits_strict; [done|]. by rewrite Hperm. }
  destruct (apply_edits_spec (sort es) l (proj1 (proj2 Ht)) Hstrict) as (Hs'&Hl'&Hr').
  exists t', h, (apply_edits (sort es) l).2, (apply_edits (sort es) l).1. split_and!; try done.
  - intros k. rewrite Hl'. unfold edited. rewrite (edit_for_perm k (sort es) es); [done| |done].
    by rewrite Hperm.
  - rewrite Hr'. by rewrite Hperm.
Qed.

(** *** Repeated keys *)

(** The items and the edits of one key. *)
Definition items_of k l : list T := filter (λ i, cmp (key i) k = Eq) l.
Definition edits_of k es : list (Edit T K) := filter (λ e, cmp (edit_key e) k = Eq) es.

Lemma items_of_app k a b : items_of k (a ++ b) = items_of k a ++ items_of k b.
Proof. apply filter_app. Qed.

Lemma items_of_none k l : Forall (λ i, cmp (key i) k ≠ Eq) l → items_of k l = [].
Proof.
  induction 1 as [|i l Hi _ IH]; [done|]. unfold items_of. rewrite filter_cons_False by done. apply IH.
Qed.

Lemma items_of_below k k' a : below k' a → cmp k' k ≠ Gt → items_of k a = [].
Proof.
  intros Ha Hk. apply items_of_none. eapply Forall_impl; [exact Ha|]. simpl. intros i Hi E.
  apply cmp_eq_iff in E. rewrite E, (cmp_antisym k') in Hi. by destruct (cmp k' k).
Qed.

Lemma items_of_above k k' b : above k' b → cmp k' k ≠ Lt → items_of k b = [].
Proof.
  intros Hb Hk. apply items_of_none. eapply Forall_impl; [exact Hb|]. simpl. intros i Hi E.
  apply cmp_eq_iff in E. by rewrite E in Hi.
Qed.

Lemma items_of_keyed k k' (m : option T) :
  (∀ i, m = Some i → key i = k') → items_of k (option_list m) = if decide (cmp k' k = Eq) then option_list m else [].
Proof.
  intros Hm. destruct m as [i|]; [|by destruct (decide _)]. unfold items_of. change (option_list (Some i)) with [i].
  rewrite filter_cons, (Hm i) by done. by destruct (decide _).
Qed.

Lemma items_of_sorted k l : sorted (K:=K) l → items_of k l = option_list (lookup_key k l).
Proof.
  intros Hs. destruct (sorted_cut l k Hs) as (a&b&El&Ha&Hb&_). rewrite El at 1.
  rewrite !items_of_app, (items_of_keyed k k) by (intros i; apply lookup_Some_key).
  rewrite (items_of_below _ k), (items_of_above _ k b) by (try done; by rewrite cmp_refl).
  by rewrite decide_True, app_nil_r by apply cmp_refl.
Qed.

(** After a pass of edits in key order a key has the items its edits insert,
    in their order, and the items it had if it has no edit. *)
Lemma apply_edits_items k es l :
  sorted (K:=K) l → StronglySorted edit_le es →
  items_of k (apply_edits es l).1 =
    match edits_of k es with [] => items_of k l | es' => omap inserted_item es' end.
Proof.
  intros Hs Hes. revert l Hs. induction Hes as [|e es Hes IH Hle]; intros l Hs; [done|].
  destruct (sorted_cut l (edit_key e) Hs) as (a&b&El&Ha&Hb&Hspan).
  rewrite (apply_edits_cons e es l a b) by done. simpl. unfold inserted.
  assert (Hsb : sorted (K:=K) b).
  { rewrite El, app_assoc in Hs. by eapply sorted_app_r. }
  rewrite !items_of_app, (IH b Hsb), (items_of_keyed k (edit_key e)) by apply inserted_item_key.
  unfold edits_of. rewrite filter_cons. destruct (decide (cmp (edit_key e) k = Eq)) as [E|E].
  - apply cmp_eq_iff in E as <-. rewrite (items_of_below _ (edit_key e)) by (try done; by rewrite cmp_refl).
    rewrite (items_of_above _ (edit_key e) b) by (try done; by rewrite cmp_refl).
    fold (edits_of (edit_key e) es). simpl.
    by destruct (edits_of (edit_key e) es), (inserted_item e).
  - fold (edits_of k es). destruct (edits_of k es) as [|e' es'] eqn:E'.
    + rewrite El, !items_of_app, (items_of_keyed k (edit_key e)) by (intros i; apply lookup_Some_key).
      by rewrite decide_False.
    + assert (Hin : e' ∈ edits_of k es) by (rewrite E'; left).
      apply list_elem_of_filter in Hin as [Ek Hin]. apply cmp_eq_iff in Ek.
      eapply Forall_forall in Hle; [|done]. unfold edit_le in Hle. rewrite Ek in Hle.
      by rewrite (items_of_below _ (edit_key e)).
Qed.
End keyed_facts.

(** ** Sorting edits *)

Section sort.
Context {T K : Type} `{OrdLaws K, !KeyedItem T K}.

(** The contract of [sort_unstable_by_key]. *)
Definition sorts_edits (sort : list (Edit T K) → list (Edit T K)) : Prop :=
  (∀ es, sort es ≡ₚ es) ∧ ∀ es, StronglySorted edit_le (sort es).

#[export] Instance edit_le_dec : RelDecision (edit_le (T:=T) (K:=K)).
Proof. intros e e'. unfold edit_le. apply _. Defined.

Lemma merge_sort_edits : sorts_edits (merge_sort edit_le).
Proof.
  assert (Htotal : Total (edit_le (T:=T) (K:=K))).
  { intros e e'. unfold edit_le. destruct (cmp (edit_key e) (edit_key e')) eqn:E; [by left..|].
    right. rewrite (cmp_antisym (edit_key e)), E. done. }
  assert (Htrans : Transitive (edit_le (T:=T) (K:=K))).
  { intros e1 e2 e3. apply cmp_le_trans. }
  split; intros es; [apply merge_sort_Permutation|by apply StronglySorted_merge_sort].
Qed.
End sort.
