(* ===== verification/TreeMap.v ===== *)
(** The ordered map and set over a [SumTree]:
    [crates/sum_tree/src/tree_map.rs].

    A map is a tree of entries whose summary is the last key.  The code's
    [MapKey] is a summary and a key; [MapKeyRef] is the dimension the cursors
    of the map are positioned by.  [None] stands before every key. *)

From stdpp Require Import base numbers option list.
From S2P Require Import Prelude SumTree Cursor KeyedTree.
From S2P Require Iter.

Record MapEntry (K V : Type) := mkMapEntry { entry_key : K; value : V }.
Arguments mkMapEntry {K V} _ _.
Arguments entry_key {K V} _.
Arguments value {K V} _.

Record MapKey (K : Type) := MkMapKey { map_key : option K }.
Arguments MkMapKey {K} _.
Arguments map_key {K} _.

Record MapKeyRef (K : Type) := MkMapKeyRef { map_key_ref : option K }.
Arguments MkMapKeyRef {K} _.
Arguments map_key_ref {K} _.

Section instances.
Context {K V : Type} `{Ord K}.

#[export] Instance MapKey_Ord : Ord (MapKey K) := λ a b, cmp (map_key a) (map_key b).

#[export] Instance MapKey_Summary : Summary (MapKey K) () := {
  summary_zero := λ _, MkMapKey None;
  add_summary := λ _ summary _, summary
}.

#[export] Instance MapEntry_KeyedItem : KeyedItem (MapEntry K V) (MapKey K) :=
  λ self, MkMapKey (Some (entry_key self)).

#[export] Instance MapEntry_Item : Item (MapEntry K V) (MapKey K) () := λ self _, key self.

#[export] Instance MapKeyRef_Dimension : Dimension (MapKeyRef K) (MapKey K) () := {
  dim_zero := λ _, MkMapKeyRef None;
  dim_add_summary := λ _ summary _, MkMapKeyRef (map_key summary)
}.

#[export] Instance MapKeyRef_SeekTarget : SeekTarget (MapKeyRef K) (MapKeyRef K) () :=
  λ self cursor_location _, cmp (map_key_ref self) (map_key_ref cursor_location).
End instances.

(** [MapSeekTarget] and the adaptor that makes one a target of the cursors. *)
Class MapSeekTarget (Target K : Type) := cmp_cursor : Target → K → comparison.
#[export] Hint Mode MapSeekTarget ! - : typeclass_instances.

#[export] Instance Ord_MapSeekTarget {K} `{Ord K} : MapSeekTarget K K := λ self loc, cmp self loc.

Record MapSeekTargetAdaptor (Target : Type) := Adaptor { adapted : Target }.
Arguments Adaptor {Target} _.
Arguments adapted {Target} _.

#[export] Instance Adaptor_SeekTarget {Target K} `{MapSeekTarget Target K} :
  SeekTarget (MapSeekTargetAdaptor Target) (MapKeyRef K) () := λ self cursor_location _,
  match map_key_ref cursor_location with
  | Some key => cmp_cursor (adapted self) key
  | None => Gt
  end.

Definition TreeMap (K V : Type) : Type := SumTree (MapEntry K V) (MapKey K).

Section tree_map.
Context {K V : Type} `{Ord K}.
Implicit Types (self : TreeMap K V) (k : K) (v : V)
  (cursor : Cursor (MapEntry K V) (MapKey K) (MapKeyRef K) ()).

Definition map_cursor self : Cursor (MapEntry K V) (MapKey K) (MapKeyRef K) () := cursor_new self ().

Definition of_entry (e : MapEntry K V) : K * V := (entry_key e, value e).
Definition to_entry (kv : K * V) : MapEntry K V := mkMapEntry kv.1 kv.2.

Definition from_ordered_entries (entries : list (K * V)) : option (TreeMap K V) :=
  from_iter (to_entry <$> entries) ().

Definition is_empty self : bool := SumTree.is_empty self.

Definition get self k : option V :=
  match (find (D:=MapKeyRef K) self () (MkMapKeyRef (Some k)) Left).2 with
  | Some item =>
      if bool_decide (cmp (Some k) (map_key (key item)) = Eq) then Some (value item) else None
  | None => None
  end.

Definition contains_key self k : bool := match get self k with Some _ => true | None => false end.

Definition insert_or_replace self k v : option (TreeMap K V * option V) :=
  (λ r : TreeMap K V * option (MapEntry K V), (r.1, option_map value r.2)) <$>
    KeyedTree.insert_or_replace (T:=MapEntry K V) (K:=MapKey K) self (mkMapEntry k v) ().

Definition insert self k v : option (TreeMap K V) :=
  fst <$> KeyedTree.insert_or_replace (T:=MapEntry K V) (K:=MapKey K) self (mkMapEntry k v) ().

Definition clear self : TreeMap K V := new ().

(** The cut at a key shared by [remove] and [update]: [cursor.end()] is compared
    with the key before the item is taken. *)
Definition remove self k : option (TreeMap K V * option V) :=
  let key := MkMapKeyRef (Some k) in
  '(cursor, new_tree) ← slice (map_cursor self) key Left;
  end_ ← end_ cursor;
  '(cursor, removed) ←
    match target_cmp key end_ () with
    | Eq => i ← item cursor; i ← i; cursor ← next cursor; Some (cursor, Some (value i))
    | _ => Some (cursor, None)
    end;
  '(_, rest) ← suffix cursor;
  new_tree ← append new_tree rest ();
  Some (new_tree, removed).

Definition remove_range {Start End} `{MapSeekTarget Start K, MapSeekTarget End K}
    self (start : Start) (end_ : End) : option (TreeMap K V) :=
  '(cursor, new_tree) ← slice (map_cursor self) (Adaptor start) Left;
  '(cursor, _) ← seek cursor (Adaptor end_) Left;
  '(_, rest) ← suffix cursor;
  append new_tree rest ().

(** The entry with the greatest key at most [k]. *)
Definition closest self k : option (option (K * V)) :=
  '(cursor, _) ← seek (map_cursor self) (MkMapKeyRef (Some k)) Right;
  cursor ← prev cursor;
  i ← item cursor;
  Some (option_map of_entry i).

(** The iterator, a cursor; [iter_from_next] is its step. *)
Definition iter_from self (from : K)
    : option (Cursor (MapEntry K V) (MapKey K) (MapKeyRef K) ()) :=
  '(cursor, _) ← seek (map_cursor self) (MkMapKeyRef (Some from)) Left; Some cursor.

Definition iter_from_next (cursor : Cursor (MapEntry K V) (MapKey K) (MapKeyRef K) ()) :=
  '(cursor, i) ← cursor_iter_next cursor; Some (cursor, option_map of_entry i).

Definition update {R} self k (f : V → V * R) : option (TreeMap K V * option R) :=
  let key := MkMapKeyRef (Some k) in
  '(cursor, new_tree) ← slice (map_cursor self) key Left;
  end_ ← end_ cursor;
  '(cursor, new_tree, result) ←
    match target_cmp key end_ () with
    | Eq =>
        i ← item cursor; i ← i;
        let '(v, r) := f (value i) in
        new_tree ← push new_tree (mkMapEntry (entry_key i) v) ();
        cursor ← next cursor;
        Some (cursor, new_tree, Some r)
    | _ => Some (cursor, new_tree, None)
    end;
  '(_, rest) ← suffix cursor;
  new_tree ← append new_tree rest ();
  Some (new_tree, result).

Fixpoint retain_loop (fuel : nat) (predicate : K → V → bool)
    (cursor : Cursor (MapEntry K V) (MapKey K) (MapKeyRef K) ()) (new_map : TreeMap K V)
    : option (TreeMap K V) :=
  i ← item cursor;
  match i with
  | None => Some new_map
  | Some i =>
      match fuel with
      | O => None
      | S fuel =>
          new_map ← (if predicate (entry_key i) (value i) then push new_map i () else Some new_map);
          cursor ← next cursor;
          retain_loop fuel predicate cursor new_map
      end
  end.

Definition retain self (predicate : K → V → bool) : option (TreeMap K V) :=
  cursor ← next (map_cursor self);
  retain_loop (tree_size self) predicate cursor (new ()).

Definition first self : option (option (K * V)) :=
  e ← SumTree.first self; Some (option_map of_entry e).
Definition last self : option (option (K * V)) :=
  e ← SumTree.last self; Some (option_map of_entry e).

(** [iter] and [values]: the plain iterator of the tree, driven to its end. *)
Definition iter self : option (list (K * V)) :=
  l ← Iter.iter_collect (tree_size self) (Iter.iter_new self); Some (map of_entry l).
Definition values self : option (list V) :=
  l ← Iter.iter_collect (tree_size self) (Iter.iter_new self); Some (map value l).

Section sort.
(** The standard library's unstable sort, as in [KeyedTree]. *)
Context (sort_unstable_by_key :
  list (Edit (MapEntry K V) (MapKey K)) → list (Edit (MapEntry K V) (MapKey K))).

Definition extend self (entries : list (K * V)) : option (TreeMap K V) :=
  fst <$> edit sort_unstable_by_key self ((λ kv, Insert (to_entry kv)) <$> entries) ().

Definition insert_tree self (other : TreeMap K V) : option (TreeMap K V) :=
  entries ← iter other;
  fst <$> edit sort_unstable_by_key self ((λ kv, Insert (to_entry kv)) <$> entries) ().
End sort.
End tree_map.

(** ** [TreeSet] *)

Definition TreeSet (K : Type) : Type := TreeMap K ().

Section tree_set.
Context {K : Type} `{Ord K}.
Implicit Types (self : TreeSet K) (k : K).

Definition set_from_ordered_entries (entries : list K) : option (TreeSet K) :=
  from_ordered_entries ((λ k, (k, ())) <$> entries).
Definition set_is_empty self : bool := is_empty self.
Definition set_insert self k : option (TreeSet K) := insert self k ().
Definition set_remove self k : option (TreeSet K * bool) :=
  '(self, removed) ← remove self k;
  Some (self, match removed with Some _ => true | None => false end).
Definition set_contains self k : bool := match get self k with Some _ => true | None => false end.
Definition set_iter self : option (list K) := l ← iter self; Some (map fst l).
Definition set_extend sort self (entries : list K) : option (TreeSet K) :=
  extend sort self ((λ k, (k, ())) <$> entries).
End tree_set.
