(* ===== verification/TreeMapFacts.v ===== *)
(** [TreeMap] is a finite map in key order.

    [map_inv m l]: the tree [m] is well formed and holds the entries [l],
    strictly sorted by key.  Each operation is stated on the lookups of the
    entries ([map_lookup]) or on the list itself. *)

From stdpp Require Import base numbers option list sorting.
From S2P Require Import Prelude SumTree SumTreeFacts Search Cursor CursorFacts StepFacts BackFacts CursorApi KeyedTree KeyedFacts.
From S2P Require Import TreeMap.
From S2P Require Iter.

#[local] Arguments TREE_BASE : simpl never.
#[local] Arguments Nat.mul : simpl never.

Section map_laws.
Context {K V : Type} `{OrdLaws K}.

#[export] Instance MapKey_OrdLaws : OrdLaws (MapKey K).
Proof.
  split; unfold cmp, MapKey_Ord.
  - intros [a] [b]. simpl. rewrite cmp_eq_iff. split; [by intros ->|by intros [= ->]].
  - intros [a] [b]. apply cmp_antisym.
  - intros [a] [b] [c]. apply cmp_lt_trans.
Qed.

#[export] Instance MapKey_SummaryLaws : SummaryLaws (MapKey K) ().
Proof. by split. Qed.

#[export] Instance MapKey_DimensionLaws : DimensionLaws (MapKey K) (MapKey K) ().
Proof. by intros cx d a b. Qed.

#[export] Instance MapKeyRef_DimensionLaws : DimensionLaws (MapKeyRef K) (MapKey K) ().
Proof. by intros cx d a b. Qed.

#[export] Instance MapEntry_KeyedLaws : KeyedLaws (MapEntry K V) (MapKey K) (MapKey K) ().
Proof. split; try apply _; [done|]. by intros cx [[k|]]. Qed.
End map_laws.

Section map_facts.
Context {K V : Type} `{OrdLaws K}.
Implicit Types (self m : TreeMap K V) (k : K) (v : V) (l a b : list (MapEntry K V))
  (i j : MapEntry K V) (p : MapKeyRef K → bool)
  (c cursor : Cursor (MapEntry K V) (MapKey K) (MapKeyRef K) ()).

Definition map_inv self l : Prop := keyed_tree (K:=MapKey K) () self l.

Definition entry_at k l : option (MapEntry K V) := lookup_key (MkMapKey (Some k)) l.
Definition map_lookup k l : option V := value <$> entry_at k l.

Definition loc i : MapKeyRef K := MkMapKeyRef (Some (entry_key i)).

(** *** Positions of the map's cursors *)

Lemma dsum_ref (d : MapKeyRef K) l :
  dsum () d l = match list.last l with Some i => loc i | None => d end.
Proof. destruct l as [|i l _] using rev_ind; [done|]. by rewrite dsum_snoc, last_snoc. Qed.

Lemma seek_split_ref p (d : MapKeyRef K) l : seek_split p () d l = span (λ i, negb (p (loc i))) l.
Proof.
  revert d. induction l as [|i l IH]; intros d; [done|]. cbn [seek_split span].
  change (dim_add_summary d (item_summary_of i ()) ()) with (loc i).
  destruct (p (loc i)); simpl; [done|]. rewrite IH. by destruct (span _ l).
Qed.

(** A decision that stays once it is taken, along increasing keys. *)
Definition upward p : Prop :=
  ∀ k k', cmp k k' = Lt → p (MkMapKeyRef (Some k)) = true → p (MkMapKeyRef (Some k')) = true.

Lemma seek_mono_ref p (d : MapKeyRef K) l :
  sorted (K:=MapKey K) l → upward p → seek_mono p () d l.
Proof.
  intros Hs Hp l1 l2 l3 -> Hne. rewrite !dsum_ref.
  destruct l1 as [|i l1 _] using rev_ind; [done|]. rewrite last_snoc.
  destruct l2 as [|j l2 _] using rev_ind; [by rewrite app_nil_r, last_snoc|].
  rewrite app_assoc, last_snoc. apply Hp. apply sorted_app in Hs as (_&_&Hab).
  apply (Hab i j); rewrite !elem_of_app, list_elem_of_singleton; auto.
Qed.

Lemma stops_ref k bias k' :
  stops () (MkMapKeyRef (Some k)) bias (MkMapKeyRef (Some k')) = target_in_child (cmp k k') bias.
Proof. done. Qed.

Lemma stops_upward k bias : upward (stops () (MkMapKeyRef (Some k)) bias).
Proof.
  intros k1 k2 Hlt. rewrite !stops_ref. intros Hs.
  rewrite (cmp_le_lt_trans k k1 k2); [done| |done].
  by destruct (cmp k k1), bias.
Qed.

(** The parts of a cut, without the values. *)
Definition lt_key i k : bool := bool_decide (cmp k (entry_key i) = Gt).
Definition le_key i k : bool := bool_decide (cmp k (entry_key i) ≠ Lt).

Lemma span_entry_ext (f g : MapEntry K V → bool) l : (∀ i, f i = g i) → span f l = span g l.
Proof. intros E. induction l as [|i l IH]; simpl; [done|]. by rewrite E, IH. Qed.

Lemma ref_cut k (d : MapKeyRef K) bias l :
  seek_split (stops () (MkMapKeyRef (Some k)) bias) () d l =
  span (λ i, match bias with Left => lt_key i k | Right => le_key i k end) l.
Proof.
  rewrite seek_split_ref. apply span_entry_ext. intros i. unfold loc. rewrite stops_ref.
  unfold lt_key, le_key, target_in_child. by destruct (cmp k (entry_key i)), bias.
Qed.

Lemma cursor_at_map self l : map_inv self l → cursor_at (map_cursor self) [] l.
Proof. intros (<-&_&h&?&?). by eapply cursor_at_new. Qed.

Lemma ref_seekable self l k bias : map_inv self l → seekable (map_cursor self) (MkMapKeyRef (Some k)) bias l.
Proof. intros (_&Hs&_). split; [done|]. apply seek_good_mono, seek_mono_ref; [done|apply stops_upward]. Qed.

(** A cut of a map: the tree of the entries below the key, and the cursor at
    the entry of the key or the first one above it. *)
Lemma map_cut self l k :
  map_inv self l →
  ∃ c new_tree h a b,
    slice (map_cursor self) (MkMapKeyRef (Some k)) Left = Some (c, new_tree) ∧
    wf () h new_tree ∧ elements new_tree = a ∧
    l = a ++ option_list (entry_at k l) ++ b ∧
    below (MkMapKey (Some k)) a ∧ above (MkMapKey (Some k)) b ∧
    cursor_at c a (option_list (entry_at k l) ++ b) ∧ did_seek c = true ∧ cursor_cx c = ().
Proof.
  intros Hm. pose proof (cursor_at_map _ _ Hm) as Hc. pose proof Hm as (_&Hs&_).
  destruct (sorted_cut l (MkMapKey (Some k)) Hs) as (a&b&El&Ha&Hb&Hspan).
  destruct (slice_spec (map_cursor self) (MkMapKeyRef (Some k)) Left [] l a
    (option_list (entry_at k l) ++ b)) as (c&t&h&Hsl&(_&Ecx&Hd)&Hc'&Hwf&Hel);
    [done|by apply ref_seekable|unfold seek_cut; rewrite ref_cut; exact Hspan|].
  by exists c, t, h, a, b.
Qed.

(** The comparison of the key with the end of the cursor's item. *)
Lemma end_is_key c k a (o : option (MapEntry K V)) b :
  cursor_at c a (option_list o ++ b) → did_seek c = true → cursor_cx c = () →
  (∀ i, o = Some i → key i = MkMapKey (Some k)) →
  below (MkMapKey (Some k)) a → above (MkMapKey (Some k)) b →
  ∃ e, end_ c = Some e ∧
    match o with
    | Some _ => target_cmp (MkMapKeyRef (Some k)) e () = Eq
    | None => target_cmp (MkMapKeyRef (Some k)) e () ≠ Eq
    end.
Proof.
  intros Hc Hd Ecx Ho Ha Hb. eexists. split; [by apply (end_at _ _ _ Hc)|].
  destruct Hc as (h&_&_&->&_). rewrite Ecx, dsum_ref.
  assert (Htarget : ∀ i, target_cmp (MkMapKeyRef (Some k)) (loc i) () = cmp k (entry_key i)) by done.
  destruct o as [i|]; simpl.
  - specialize (Ho i eq_refl). injection Ho as Hk.
    change (target_cmp (MkMapKeyRef (Some k)) (loc i) () = Eq).
    rewrite Htarget, Hk. apply cmp_refl.
  - destruct b as [|j b]; simpl.
    + rewrite dsum_ref. destruct (list.last a) as [i|] eqn:El; simpl; [|done].
      apply (Forall_last _ _ _ Ha) in El. change (cmp (entry_key i) k = Lt) in El.
      rewrite Htarget, (cmp_antisym (entry_key i)), El. done.
    + inversion Hb as [|? ? Hj _]; subst. change (cmp k (entry_key j) = Lt) in Hj.
      change (target_cmp (MkMapKeyRef (Some k)) (loc j) () ≠ Eq).
      by rewrite Htarget, Hj.
Qed.

(** *** Lookups of the rebuilt sequences *)

Lemma entry_at_key k l i : entry_at k l = Some i → key i = MkMapKey (Some k).
Proof. unfold entry_at. apply lookup_Some_key. Qed.

Lemma map_lookup_replace k a o b k' :
  below (MkMapKey (Some k)) a → above (MkMapKey (Some k)) b →
  (∀ i, o = Some i → key i = MkMapKey (Some k)) →
  map_lookup k' (a ++ option_list o ++ b) =
  if (k' =? k)%rust then value <$> o else map_lookup k' (a ++ option_list None ++ b).
Proof.
  intros Ha Hb Ho. unfold map_lookup, entry_at. rewrite (lookup_replace (MkMapKey (Some k))) by done.
  rewrite (lookup_replace (MkMapKey (Some k)) a None) by done.
  change (cmp (MkMapKey (Some k')) (MkMapKey (Some k))) with (cmp k' k).
  by case_bool_decide.
Qed.

(** What an update at [k] does to the other keys, and to the order. *)
Definition updated_at k (new_value : option V) l l' : Prop :=
  sorted (K:=MapKey K) l' ∧
  ∀ k', map_lookup k' l' = if (k' =? k)%rust then new_value else map_lookup k' l.

Lemma updated_replace k l a o o' b :
  sorted (K:=MapKey K) l → l = a ++ option_list o ++ b →
  below (MkMapKey (Some k)) a → above (MkMapKey (Some k)) b →
  (∀ i, o = Some i → key i = MkMapKey (Some k)) →
  (∀ i, o' = Some i → key i = MkMapKey (Some k)) →
  updated_at k (value <$> o') l (a ++ option_list o' ++ b).
Proof.
  intros Hs -> Ha Hb Ho Ho'. split; [by eapply sorted_replace|]. intros k'.
  rewrite (map_lookup_replace k a o' b), (map_lookup_replace k a o b) by done. by case_bool_decide.
Qed.

Lemma map_suffix c l1 l2 :
  cursor_at c l1 l2 → cursor_cx c = () →
  ∃ c' t h, suffix c = Some (c', t) ∧ wf () h t ∧ elements t = l2.
Proof.
  intros Hc Ecx. destruct (suffix_spec c l1 l2 Hc) as (c'&t&h&?&_&_&Hwf&?). rewrite Ecx in Hwf.
  by exists c', t, h.
Qed.

(** *** [get], [remove] and [update] *)

Lemma map_get_spec self l k : map_inv self l → get self k = map_lookup k l.
Proof.
  intros Hm. pose proof Hm as (Hel&Hs&h&Hwf&_). unfold get, map_lookup.
  destruct l as [|x l'] eqn:El.
  { unfold find. by rewrite (find_generic_empty _ _ _ _ h) by done. }
  rewrite <- El in *.
  assert (Hne : elements self ≠ []) by by rewrite Hel, El.
  clear El x l'.
  pose proof (find_spec () (MkMapKeyRef (Some k)) Left h self Hwf Hne) as Hf.
  rewrite Hel, ref_cut in Hf.
  destruct (sorted_cut l (MkMapKey (Some k)) Hs) as (a&b&El&Ha&Hb&Hspan).
  change (span (λ i, lt_key i k) l = (a, option_list (entry_at k l) ++ b)) in Hspan.
  rewrite Hspan in Hf. destruct Hf as [Hf _].
  { apply seek_mono_ref; [done|apply stops_upward]. }
  rewrite Hf. simpl. destruct (entry_at k l) as [i|] eqn:E; simpl.
  - apply entry_at_key in E as [= ->]. by rewrite bool_decide_eq_true_2 by apply cmp_refl.
  - destruct b as [|j b]; [done|]. simpl. inversion Hb as [|? ? Hj _]; subst.
    change (cmp k (entry_key j) = Lt) in Hj.
    rewrite bool_decide_eq_false_2; [done|]. change (cmp k (entry_key j) ≠ Eq). by rewrite Hj.
Qed.

Lemma map_remove_spec self l k :
  map_inv self l →
  ∃ self' h l', remove self k = Some (self', map_lookup k l) ∧ wf () h self' ∧
    elements self' = l' ∧ updated_at k None l l'.
Proof.
  intros Hm. pose proof Hm as (_&Hs&_).
  destruct (map_cut self l k Hm) as (c&t&h&a&b&Hsl&Hwf&Hel&El&Ha&Hb&Hc&Hd&Ecx).
  destruct (end_is_key c k a (entry_at k l) b) as (e&He&Hcmp); [done..|apply entry_at_key|done|done|].
  unfold remove, map_lookup. rewrite Hsl. cbn [mbind option_bind]. rewrite He. cbn [mbind option_bind].
  assert (Hend : ∀ c', cursor_at c' (a ++ option_list (entry_at k l)) b → cursor_cx c' = () →
    ∃ self' h' l', ('(_, rest) ← suffix c'; new_tree ← append t rest ();
        Some (new_tree, value <$> entry_at k l)) = Some (self', value <$> entry_at k l) ∧
      wf () h' self' ∧ elements self' = l' ∧ updated_at k None l l').
  { intros c' Hc' Ecx'. destruct (map_suffix c' _ _ Hc' Ecx') as (c''&rest&hr&->&Hwfr&Helr).
    destruct (append_wf () h t hr rest) as (t2&h2&Happ&Hwf2&_&Hel2); [done..|].
    cbn [mbind option_bind]. rewrite Happ. exists t2, h2, (a ++ b).
    split; [done|]. split; [done|]. split; [by rewrite Hel2, Hel, Helr|].
    apply (updated_replace k l a (entry_at k l) None b); try done. apply entry_at_key. }
  destruct (entry_at k l) as [i|] eqn:E.
  - rewrite Hcmp. rewrite (item_at _ _ _ Hc Hd). cbn [mbind option_bind head option_list app].
    destruct (next_spec c a (i :: b) (a ++ [i]) b) as (c'&->&(_&Ecx'&_)&Hc'); [done| |].
    { unfold pending. by rewrite Hd. }
    cbn [mbind option_bind]. apply Hend; [done|by rewrite Ecx'].
  - destruct (target_cmp _ e ()) eqn:Ec; [done|..]; apply Hend; simpl; by rewrite ?app_nil_r.
Qed.

Lemma update_spec {R} self l k (f : V → V * R) :
  map_inv self l →
  ∃ self' h l', update self k f = Some (self', snd ∘ f <$> map_lookup k l) ∧ wf () h self' ∧
    elements self' = l' ∧ updated_at k (fst ∘ f <$> map_lookup k l) l l'.
Proof.
  intros Hm. pose proof Hm as (_&Hs&_).
  destruct (map_cut self l k Hm) as (c&t&h&a&b&Hsl&Hwf&Hel&El&Ha&Hb&Hc&Hd&Ecx).
  destruct (end_is_key c k a (entry_at k l) b) as (e&He&Hcmp); [done..|apply entry_at_key|done|done|].
  unfold update, map_lookup. rewrite Hsl. cbn [mbind option_bind]. rewrite He. cbn [mbind option_bind].
  pose proof (entry_at_key k l) as Hkey.
  destruct (entry_at k l) as [i|] eqn:E.
  - rewrite Hcmp. rewrite (item_at _ _ _ Hc Hd). cbn [mbind option_bind head option_list app].
    destruct (f (value i)) as [v r] eqn:Ef.
    destruct (push_wf () h t (mkMapEntry (entry_key i) v)) as (t1&h1&Hpush&Hwf1&_&Hel1); [done|].
    change (head (option_list (Some i) ++ b)) with (Some i). cbn [mbind option_bind].
    rewrite Ef. rewrite Hpush. cbn [mbind option_bind].
    destruct (next_spec c a (i :: b) (a ++ [i]) b) as (c'&->&(_&Ecx'&_)&Hc'); [done| |].
    { unfold pending. by rewrite Hd. }
    cbn [mbind option_bind].
    destruct (map_suffix c' _ _ Hc') as (c''&rest&hr&->&Hwfr&Helr); [by rewrite Ecx', Ecx|].
    destruct (append_wf () h1 t1 hr rest) as (t2&h2&Happ&Hwf2&_&Hel2); [done..|].
    cbn [mbind option_bind]. rewrite Happ. exists t2, h2, (a ++ [mkMapEntry (entry_key i) v] ++ b).
    split; [simpl; by rewrite Ef|]. split; [done|]. split; [by rewrite Hel2, Hel1, Hel, Helr, <- app_assoc|].
    simpl. rewrite Ef.
    apply (updated_replace k l a (Some i) (Some (mkMapEntry (entry_key i) v)) b); try done.
    intros j [= <-]. apply (Hkey i eq_refl).
  - destruct (map_suffix c _ _ Hc Ecx) as (c''&rest&hr&Hsuf&Hwfr&Helr).
    destruct (append_wf () h t hr rest) as (t2&h2&Happ&Hwf2&_&Hel2); [done..|].
    exists t2, h2, (a ++ b).
    destruct (target_cmp _ e ()) eqn:Ec; [done|..];
      (cbn [mbind option_bind]; rewrite Hsuf; cbn [mbind option_bind]; rewrite Happ;
       split; [done|]; split; [done|]; split; [by rewrite Hel2, Hel, Helr|];
       by apply (updated_replace k l a None None b)).
Qed.

(** *** Cuts by an upward decision are filters *)

Definition reaches p i : bool := p (loc i).

Lemma span_filter p l :
  sorted (K:=MapKey K) l → upward p →
  span (λ i, negb (reaches p i)) l =
  (List.filter (λ i, negb (reaches p i)) l, List.filter (reaches p) l).
Proof.
  intros Hs Hp. induction Hs as [|i l Hs IH Hlt]; simpl; [done|].
  destruct (reaches p i) eqn:E; simpl; [|by rewrite IH].
  assert (Hall : Forall (λ j, reaches p j = true) l).
  { eapply Forall_impl; [exact Hlt|]. intros j Hj. exact (Hp (entry_key i) (entry_key j) Hj E). }
  clear IH Hlt E. induction Hall as [|j l Hj Hall IH]; simpl; [done|].
  rewrite Hj. simpl. inversion Hs; subst. specialize (IH ltac:(done)). by congruence.
Qed.

Lemma filter_join p q l :
  sorted (K:=MapKey K) l → upward p → (∀ i, reaches q i = true → reaches p i = true) →
  List.filter (λ i, negb (reaches p i)) l ++ List.filter (reaches q) l =
  List.filter (λ i, negb (reaches p i) || reaches q i) l.
Proof.
  intros Hs Hp Hqp. induction Hs as [|i l Hs IH Hlt]; [done|]. simpl.
  destruct (reaches p i) eqn:E; simpl.
  - assert (Hall : List.filter (λ i, negb (reaches p i)) l = []).
    { assert (HF : Forall (λ j, reaches p j = true) l).
      { eapply Forall_impl; [exact Hlt|]. intros j Hj. exact (Hp (entry_key i) (entry_key j) Hj E). }
      clear -HF. induction HF as [|j l Hj _ IH]; simpl; [done|]. by rewrite Hj. }
    rewrite Hall in IH |- *. simpl in *. destruct (reaches q i); by rewrite IH.
  - destruct (reaches q i) eqn:E'; [apply Hqp in E'; congruence|]. by rewrite IH.
Qed.

(** *** [closest], [remove_range], [iter_from], [retain] *)

Lemma map_seek self l k bias :
  map_inv self l →
  let p := stops () (MkMapKeyRef (Some k)) bias in
  ∃ c found, seek (map_cursor self) (MkMapKeyRef (Some k)) bias = Some (c, found) ∧
    did_seek c = true ∧ cursor_cx c = () ∧
    cursor_at c (List.filter (λ i, negb (reaches p i)) l) (List.filter (reaches p) l).
Proof.
  intros Hm p. pose proof Hm as (_&Hs&_).
  destruct (seek_spec (map_cursor self) (MkMapKeyRef (Some k)) bias [] l
    (List.filter (λ i, negb (reaches p i)) l) (List.filter (reaches p) l))
    as (c&Hseek&(_&Ecx&Hd)&Hc).
  - by apply cursor_at_map.
  - by apply (ref_seekable self).
  - unfold seek_cut. simpl. rewrite seek_split_ref.
    apply (span_filter p); [done|apply stops_upward].
  - by eexists c, _.
Qed.

Lemma closest_spec self l k :
  map_inv self l →
  closest self k = Some (of_entry <$> list.last (List.filter (λ i, le_key i k) l)).
Proof.
  intros Hm. unfold closest. destruct (map_seek self l k Right Hm) as (c&fd&->&Hd&_&Hc).
  cbn [mbind option_bind].
  set (a := List.filter (λ i, negb (reaches (stops () (MkMapKeyRef (Some k)) Right) i)) l) in *.
  assert (Ea : List.filter (λ i, le_key i k) l = a).
  { apply List.filter_ext. intros i. unfold reaches, loc, le_key. rewrite stops_ref.
    unfold target_in_child. by destruct (cmp k (entry_key i)). }
  rewrite Ea. destruct (prev_spec c _ _ Hc) as (c'&->&(_&_&Hd')&Hprev). cbn [mbind option_bind].
  unfold behind in Hprev. rewrite Hd in Hprev. destruct (list.last a) as [i|].
  - destruct Hprev as (a'&l2'&_&Hc'). by rewrite (item_at _ _ _ Hc' Hd').
  - by rewrite at_start_item.
Qed.

Definition target_upward {Target} `{MapSeekTarget Target K} (t : Target) : Prop :=
  upward (stops () (Adaptor t) Left).

Lemma remove_range_spec {Start End} `{MapSeekTarget Start K, MapSeekTarget End K}
    self l (start : Start) (end_ : End) :
  map_inv self l → target_upward start → target_upward end_ →
  (∀ k, cmp_cursor start k = Gt → cmp_cursor end_ k = Gt) →
  ∃ self' h, remove_range self start end_ = Some self' ∧ wf () h self' ∧
    elements self' =
      List.filter (λ i, bool_decide (cmp_cursor start (entry_key i) = Gt ∨
                                     cmp_cursor end_ (entry_key i) ≠ Gt)) l.
Proof.
  intros Hm Hst Hen Hle. pose proof Hm as (_&Hs&_). unfold remove_range.
  set (p := stops () (Adaptor start) Left) in *. set (q := stops () (Adaptor end_) Left) in *.
  destruct (slice_spec (map_cursor self) (Adaptor start) Left [] l
    (List.filter (λ i, negb (reaches p i)) l) (List.filter (reaches p) l))
    as (c&t&h&->&(Et&Ecx&Hd)&Hc&Hwf&Hel).
  { by apply cursor_at_map. }
  { split; [done|]. by apply seek_good_mono, seek_mono_ref. }
  { unfold seek_cut. simpl. rewrite seek_split_ref. by apply (span_filter p). }
  cbn [mbind option_bind].
  assert (El : [] ++ List.filter (λ i, negb (reaches p i)) l ++ List.filter (reaches p) l = l).
  { pose proof (span_app (λ i, negb (reaches p i)) l) as Happ.
    by rewrite span_filter in Happ. }
  destruct (seek_spec c (Adaptor end_) Left _ _
    (List.filter (λ i, negb (reaches q i)) l) (List.filter (reaches q) l) Hc)
    as (c'&->&(_&Ecx'&_)&Hc').
  { rewrite <- app_assoc, El. destruct c as [tr st po ds ae []]. split; [done|]. by apply seek_good_mono, seek_mono_ref. }
  { rewrite <- app_assoc, El. unfold seek_cut. destruct c as [tr st po ds ae []]. simpl.
    rewrite seek_split_ref. by apply (span_filter q). }
  cbn [mbind option_bind].
  destruct (map_suffix c' _ _ Hc') as (c''&rest&hr&->&Hwfr&Helr); [by rewrite Ecx', Ecx|].
  cbn [mbind option_bind].
  destruct (append_wf () h t hr rest) as (t2&h2&Happ&Hwf2&_&Hel2); [done..|].
  exists t2, h2. split; [done|]. split; [done|]. rewrite Hel2, Hel, Helr.
  assert (Hreach : ∀ Tg `{MapSeekTarget Tg K} (tg : Tg) i,
    reaches (stops () (Adaptor tg) Left) i =
      bool_decide (cmp_cursor tg (entry_key i) ≠ Gt)).
  { intros Tg ? tg i. unfold reaches, stops, target_in_child, target_cmp, Adaptor_SeekTarget, loc.
    simpl. by destruct (cmp_cursor tg (entry_key i)). }
  unfold p, q in *. rewrite filter_join; [|done..|].
  - apply List.filter_ext. intros i. rewrite !Hreach.
    destruct (cmp_cursor start (entry_key i)), (cmp_cursor end_ (entry_key i)); done.
  - intros i. rewrite !Hreach, !bool_decide_eq_true. intros He Hs'. apply He, Hle, Hs'.
Qed.

(** [iter_from], driven to its end. *)
Fixpoint collect_from (fuel : nat) cursor : option (list (K * V)) :=
  '(cursor, i) ← iter_from_next cursor;
  match i with
  | None => Some []
  | Some kv =>
      match fuel with
      | O => None
      | Datatypes.S fuel => l ← collect_from fuel cursor; Some (kv :: l)
      end
  end.

Lemma collect_from_spec fuel c l1 l2 :
  cursor_at c l1 l2 → length l2 ≤ fuel → collect_from fuel c = Some (map of_entry l2).
Proof.
  revert c l1 l2. induction fuel as [|fuel IH]; intros c l1 l2 Hc Hf; simpl;
    unfold iter_from_next; destruct (cursor_iter_next_spec c l1 l2 Hc) as (c'&->&_&Hc'); simpl;
    destruct l2 as [|i l2]; simpl in *; try (done || lia).
  by rewrite (IH _ _ _ Hc') by lia.
Qed.

Lemma iter_from_spec self l k :
  map_inv self l →
  ∃ c, iter_from self k = Some c ∧
    collect_from (length l) c = Some (map of_entry (List.filter (λ i, negb (lt_key i k)) l)).
Proof.
  intros Hm. unfold iter_from. destruct (map_seek self l k Left Hm) as (c&fd&->&_&_&Hc).
  exists c. split; [done|].
  assert (Ef : List.filter (λ i, negb (lt_key i k)) l =
               List.filter (reaches (stops () (MkMapKeyRef (Some k)) Left)) l).
  { apply List.filter_ext. intros i. unfold reaches, loc, lt_key. rewrite stops_ref.
    unfold target_in_child. by destruct (cmp k (entry_key i)). }
  rewrite Ef. eapply collect_from_spec; [done|]. apply List.filter_length_le.
Qed.

Lemma retain_loop_spec fuel predicate c new_map h l1 l2 :
  cursor_at c l1 l2 → did_seek c = true → wf () h new_map → length l2 ≤ fuel →
  ∃ m' h', retain_loop fuel predicate c new_map = Some m' ∧ wf () h' m' ∧
    elements m' = elements new_map ++ List.filter (λ e, predicate (entry_key e) (value e)) l2.
Proof.
  revert c new_map h l1 l2. induction fuel as [|fuel IH]; intros c new_map h l1 l2 Hc Hd Hwf Hf;
    cbn [retain_loop]; rewrite (item_at _ _ _ Hc Hd); cbn [mbind option_bind];
    destruct l2 as [|i l2]; simpl in Hf; cbn [head mbind option_bind]; try lia.
  1, 2: exists new_map, h; simpl; by rewrite app_nil_r.
  destruct (next_spec c l1 (i :: l2) (l1 ++ [i]) l2) as (c'&Hn&(_&_&Hd')&Hc'); [done| |].
  { unfold pending. by rewrite Hd. }
  destruct (predicate (entry_key i) (value i)) eqn:Ep.
  - destruct (push_wf () h new_map i Hwf) as (m1&h1&Hpush&Hwf1&_&Hel1).
    rewrite Hpush. cbn [mbind option_bind]. rewrite Hn. cbn [mbind option_bind].
    destruct (IH c' m1 h1 (l1 ++ [i]) l2) as (m'&h'&->&Hwf'&Hel'); [done..|lia|].
    exists m', h'. split; [done|]. split; [done|]. simpl.
    by rewrite Hel', Hel1, Ep, <- app_assoc.
  - cbn [mbind option_bind]. rewrite Hn. cbn [mbind option_bind].
    destruct (IH c' new_map h (l1 ++ [i]) l2) as (m'&h'&->&Hwf'&Hel'); [done..|lia|].
    exists m', h'. split; [done|]. split; [done|]. simpl. by rewrite Hel', Ep.
Qed.

Lemma retain_spec self l predicate :
  map_inv self l →
  ∃ self' h, retain self predicate = Some self' ∧ wf () h self' ∧
    elements self' = List.filter (λ e, predicate (entry_key e) (value e)) l.
Proof.
  intros Hm. unfold retain. pose proof Hm as (Hel&_).
  destruct (next_spec (map_cursor self) [] l [] l) as (c&->&(_&_&Hd)&Hc);
    [by apply cursor_at_map|done|].
  cbn [mbind option_bind].
  destruct (retain_loop_spec (tree_size self) predicate c (new ()) 0 [] l)
    as (m'&h'&?&?&?); [done|done|apply wf_new|by rewrite tree_size_elements, Hel|].
  by exists m', h'.
Qed.

Lemma insert_spec self l k v :
  map_inv self l →
  ∃ self' h l', insert_or_replace self k v = Some (self', map_lookup k l) ∧
    insert self k v = Some self' ∧ wf () h self' ∧
    elements self' = l' ∧ updated_at k (Some v) l l'.
Proof.
  intros Hm. pose proof Hm as (_&Hs&_).
  destruct (insert_or_replace_spec (K:=MapKey K) () self l (mkMapEntry k v) Hm)
    as (m'&h&a&b&Hins&Hwf&El&Ha&Hb&Hel).
  exists m', h, (a ++ [mkMapEntry k v] ++ b). unfold insert_or_replace, insert. rewrite Hins.
  split; [done|]. split; [done|]. split; [done|]. split; [done|].
  apply (updated_replace k l a (entry_at k l) (Some (mkMapEntry k v)) b); try done.
  - apply entry_at_key.
  - by intros i [= <-].
Qed.

(** [map_inv] without the bound on the height. *)
Definition map_wf self l : Prop :=
  elements self = l ∧ sorted (K:=MapKey K) l ∧ ∃ h, wf () h self.

Lemma map_wf_new : map_wf (new ()) [].
Proof. split; [done|]. split; [constructor|]. exists 0. apply wf_new. Qed.

Lemma map_wf_inv self l : map_wf self l → height self < STACK_CAPACITY → map_inv self l.
Proof.
  intros (Hel&Hs&h&Hwf) Hh. rewrite (wf_height () h) in Hh by done. split_and!; [done|done|by exists h].
Qed.

Lemma map_inv_wf self l : map_inv self l → map_wf self l.
Proof. intros (Hel&Hs&h&Hwf&_). split_and!; [done|done|by exists h]. Qed.

Lemma insert_wf self l k v :
  map_inv self l →
  ∃ self' l', insert self k v = Some self' ∧ map_wf self' l' ∧ updated_at k (Some v) l l'.
Proof.
  intros Hm. destruct (insert_spec self l k v Hm) as (m&h&l'&_&Hi&Hwf&Hel&Hu).
  exists m, l'. split; [done|]. split; [|done]. split; [done|]. split; [by destruct Hu|by exists h].
Qed.
End map_facts.
