(* ===== verification/TreeMapProps.v ===== *)
(** The properties of the keyed trees and of [TreeMap], with their witnesses.

    [extend] and [insert_tree] go through [edit], which sorts the edits with
    the standard library's unstable sort: the theorems hold for every function
    that permutes the edits into key order. *)

From stdpp Require Import base numbers option list sorting.
From S2P Require Import Prelude SumTree SumTreeFacts Search Cursor CursorFacts StepFacts CursorApi Iter KeyedTree KeyedFacts TreeMap TreeMapFacts.

#[local] Arguments TREE_BASE : simpl never.
#[local] Arguments Nat.mul : simpl never.

Section map_edits.
Context {K V : Type} `{OrdLaws K}.
Implicit Types (self m : TreeMap K V) (k : K) (v : V) (l : list (MapEntry K V))
  (entries : list (K * V)).
Context (sort : list (Edit (MapEntry K V) (MapKey K)) → list (Edit (MapEntry K V) (MapKey K))).

(** The value a list of pairs gives a key: the first pair's. *)
Definition assoc k entries : option V :=
  snd <$> List.find (λ kv, bool_decide (cmp kv.1 k = Eq)) entries.

Definition insertions entries : list (Edit (MapEntry K V) (MapKey K)) :=
  (λ kv, Insert (to_entry kv)) <$> entries.

Lemma edit_for_insertions k entries :
  edit_for (MkMapKey (Some k)) (insertions entries) =
  (λ kv, Insert (to_entry kv)) <$> List.find (λ kv, bool_decide (cmp kv.1 k = Eq)) entries.
Proof.
  unfold edit_for. induction entries as [|[k' v'] entries IH]; [done|]. simpl.
  case_bool_decide as E; case_bool_decide as E'; [done|by destruct E'|by destruct E|apply IH].
Qed.

Lemma edit_keys_insertions entries :
  edit_key <$> insertions entries = (λ kv, MkMapKey (Some kv.1)) <$> entries.
Proof. unfold insertions. by rewrite <- list_fmap_compose. Qed.

Lemma insertions_NoDup entries : NoDup (fst <$> entries) → NoDup (edit_key <$> insertions entries).
Proof.
  rewrite edit_keys_insertions. intros Hnd.
  change ((λ kv : K * V, MkMapKey (Some kv.1)) <$> entries)
    with (((λ k, MkMapKey (Some k)) ∘ (fst : K * V → K)) <$> entries).
  rewrite (list_fmap_compose (fst : K * V → K) (λ k, MkMapKey (Some k)) entries).
  apply NoDup_fmap_2; [|done]. by intros ?? [= ->].
Qed.

(** The entries of [l] overridden by those of [entries]. *)
Definition overridden entries l l' : Prop :=
  sorted (K:=MapKey K) l' ∧
  ∀ k, map_lookup k l' = match assoc k entries with Some v => Some v | None => map_lookup k l end.

Lemma extend_spec self l entries :
  sorts_edits sort → map_inv self l → NoDup (fst <$> entries) →
  ∃ self' h l', extend sort self entries = Some self' ∧ wf () h self' ∧ elements self' = l' ∧
    overridden entries l l'.
Proof.
  intros [Hperm Hsort] Hm Hnd.
  destruct (edit_spec (K:=MapKey K) sort () self l (insertions entries) Hperm Hsort Hm)
    as (t'&h&removed&l'&Hed&Hwf&Hel&Hs&Hl&_); [by apply insertions_NoDup|].
  exists t', h, l'. unfold extend. fold (insertions entries). rewrite Hed.
  split; [done|]. split; [done|]. split; [done|]. split; [done|]. intros k.
  unfold map_lookup, entry_at. rewrite Hl. unfold edited, assoc. rewrite edit_for_insertions.
  by destruct (List.find _ entries) as [[]|].
Qed.

Lemma assoc_entries k l : assoc k (map of_entry l) = map_lookup k l.
Proof.
  unfold assoc, map_lookup, entry_at, lookup_key. induction l as [|i l IH]; [done|]. simpl.
  case_bool_decide as E; case_bool_decide as E'; [done|by destruct E'|by destruct E|apply IH].
Qed.

Lemma entries_NoDup l : sorted (K:=MapKey K) l → NoDup (fst <$> map of_entry l).
Proof.
  induction 1 as [|i l _ IH Hlt]; [constructor|]. simpl. apply NoDup_cons. split; [|done].
  intros (kv&E&Hin)%list_elem_of_fmap. apply list_elem_of_In, in_map_iff in Hin as (j&<-&Hj).
  apply list_elem_of_In in Hj. eapply Forall_forall in Hlt; [|done]. simpl in E.
  change (cmp (entry_key i) (entry_key j) = Lt) in Hlt. by rewrite E, cmp_refl in Hlt.
Qed.







Lemma iter_spec self l : map_inv self l → iter self = Some (map of_entry l).
Proof.
  intros (Hel&_&h&Hwf&Hh). unfold iter.
  rewrite (iter_collect_spec _ () (iter_new self) l); [done| |by rewrite tree_size_elements, Hel].
  rewrite <- Hel. by eapply iter_at_new.
Qed.
End map_edits.

(** ** Properties of the keyed operations *)

Section keyed_properties.
Context {T S K Cx : Type} `{KeyedLaws T S K Cx}.
Implicit Types (t : SumTree T S) (cx : Cx) (l a b : list T) (k : K) (i : T).

(** on a tree sorted by key, [insert_or_replace] puts the item at its key,
    in place of the item of that key, which it returns; [remove] takes out and
    returns the item of the key; [get] finds it; the order of the rest is kept,
    the result is well formed and nothing panics. *)
Theorem keyed_insert_remove_get cx t l k i :
  keyed_tree cx t l →
  KeyedTree.get t k cx = lookup_key k l ∧
  (∃ t' h a b, KeyedTree.insert_or_replace t i cx = Some (t', lookup_key (key i) l) ∧ wf cx h t' ∧
    l = a ++ option_list (lookup_key (key i) l) ++ b ∧ below (key i) a ∧ above (key i) b ∧
    elements t' = a ++ [i] ++ b) ∧
  ∃ t' h a b, KeyedTree.remove t k cx = Some (t', lookup_key k l) ∧ wf cx h t' ∧
    l = a ++ option_list (lookup_key k l) ++ b ∧ below k a ∧ above k b ∧ elements t' = a ++ b.
Proof.
  intros Ht. split_and!; [by apply get_spec|by apply KeyedFacts.insert_or_replace_spec|
    by apply remove_spec].
Qed.

(** C26: [edit] applies a batch of edits with distinct keys in one pass: the
    result is sorted, binds every key as its edit says and every other key as
    before, and the removed items are those the edited keys had; for every sort
    that permutes the edits into key order. *)
Theorem keyed_edit_applies sort cx t l (es : list (Edit T K)) :
  sorts_edits sort → keyed_tree cx t l → NoDup (edit_key <$> es) →
  ∃ t' h removed l', edit sort t es cx = Some (t', removed) ∧ wf cx h t' ∧ elements t' = l' ∧
    sorted (K:=K) l' ∧
    (∀ k, lookup_key k l' =
      match edit_for k es with
      | Some (Insert i) => Some i
      | Some (Remove _) => None
      | None => lookup_key k l
      end) ∧
    removed ≡ₚ omap (λ e, lookup_key (edit_key e) l) es.
Proof.
  intros [Hperm Hsort] Ht Hnd.
  destruct (edit_spec sort cx t l es Hperm Hsort Ht Hnd)
    as (t'&h&removed&l'&?&?&?&?&Hl&?).
  by exists t', h, removed, l'.
Qed.
End keyed_properties.

(** ** Properties of [TreeMap] *)

Section map_properties.
Context {K V : Type} `{OrdLaws K}.
Implicit Types (self m : TreeMap K V) (k : K) (v : V) (l : list (MapEntry K V))
  (entries : list (K * V)).

(** C32: [TreeMap] is a finite map: [get] and [contains_key] read its entries,
    [insert], [insert_or_replace] and [remove] change one key, keep every other
    key and the order, and return the old value. *)
Theorem map_get_insert_remove self l k v :
  map_inv self l →
  get self k = map_lookup k l ∧
  contains_key self k = bool_decide (map_lookup k l ≠ None) ∧
  (∃ self' h l', insert_or_replace self k v = Some (self', map_lookup k l) ∧
    insert self k v = Some self' ∧ wf () h self' ∧ elements self' = l' ∧
    updated_at k (Some v) l l') ∧
  ∃ self' h l', remove self k = Some (self', map_lookup k l) ∧ wf () h self' ∧
    elements self' = l' ∧ updated_at k None l l'.
Proof.
  intros Hm. split_and!.
  - by apply map_get_spec.
  - unfold contains_key. rewrite (map_get_spec _ _ _ Hm). by destruct (map_lookup k l).
  - by apply insert_spec.
  - by apply map_remove_spec.
Qed.

(** [update] runs the function on the value of the key, if there is one,
    and stores what it leaves; [retain] keeps exactly the entries the predicate
    accepts, in order. *)
Theorem map_update_retain {R} self l k (f : V → V * R) (predicate : K → V → bool) :
  map_inv self l →
  (∃ self' h l', update self k f = Some (self', snd ∘ f <$> map_lookup k l) ∧ wf () h self' ∧
    elements self' = l' ∧ updated_at k (fst ∘ f <$> map_lookup k l) l l') ∧
  ∃ self' h, retain self predicate = Some self' ∧ wf () h self' ∧
    elements self' = List.filter (λ e, predicate (entry_key e) (value e)) l.
Proof. intros Hm. split; [by apply update_spec|by apply retain_spec]. Qed.

(** [remove_range] with [start] not after [end] removes exactly the entries
    from [start] up to [end], for any monotone targets. *)
Theorem map_remove_range {Start End} `{MapSeekTarget Start K, MapSeekTarget End K}
    self l (start : Start) (end_ : End) :
  map_inv self l → target_upward start → target_upward end_ →
  (∀ k, cmp_cursor start k = Gt → cmp_cursor end_ k = Gt) →
  ∃ self' h, remove_range self start end_ = Some self' ∧ wf () h self' ∧
    elements self' =
      List.filter (λ i, bool_decide (cmp_cursor start (entry_key i) = Gt ∨
                                     cmp_cursor end_ (entry_key i) ≠ Gt)) l.
Proof. apply remove_range_spec. Qed.

(** [closest] returns the last entry whose key is at most the given key;
    [iter_from] yields the entries from the key on; [iter], [values], [first]
    and [last] read the entries in key order. *)
Theorem map_ordered_reads self l k :
  map_inv self l →
  closest self k = Some (of_entry <$> list.last (List.filter (λ i, le_key i k) l)) ∧
  (∃ c, iter_from self k = Some c ∧
    collect_from (length l) c = Some (map of_entry (List.filter (λ i, negb (lt_key i k)) l))) ∧
  iter self = Some (map of_entry l) ∧
  first self = Some (of_entry <$> head l) ∧ last self = Some (of_entry <$> list.last l).
Proof.
  intros Hm. pose proof Hm as (Hel&_&h&Hwf&_). split_and!.
  - by apply closest_spec.
  - by apply iter_from_spec.
  - by apply iter_spec.
  - unfold first. by rewrite (first_wf () h _ Hwf), Hel.
  - unfold last. by rewrite (last_wf () h _ Hwf), Hel.
Qed.

(** [extend] with distinct keys and [insert_tree] override the entries of
    the map by the given ones and keep the others, in key order. *)
Theorem map_extend_insert_tree sort self l entries other l2 :
  sorts_edits sort → map_inv self l → NoDup (fst <$> entries) → map_inv other l2 →
  (∃ self' h l', extend sort self entries = Some self' ∧ wf () h self' ∧ elements self' = l' ∧
    overridden entries l l') ∧
  ∃ self' h l', insert_tree sort self other = Some self' ∧ wf () h self' ∧ elements self' = l' ∧
    sorted (K:=MapKey K) l' ∧
    ∀ k, map_lookup k l' = match map_lookup k l2 with Some v => Some v | None => map_lookup k l end.
Proof.
  intros Hsort Hm Hnd Hm2. split; [by apply extend_spec|].
  unfold insert_tree. rewrite (iter_spec _ _ Hm2). cbn [mbind option_bind].
  destruct (extend_spec sort self l (map of_entry l2) Hsort Hm) as (self'&h&l'&Hext&?&?&?&Hl).
  { apply entries_NoDup. apply Hm2. }
  exists self', h, l'. split_and!; try done. intros k. by rewrite Hl, assoc_entries.
Qed.


(** [from_ordered_entries] of entries in strict key order builds a map
    that [iter] reads back unchanged. *)
Theorem map_from_ordered_roundtrip entries :
  sorted (K:=MapKey K) (to_entry <$> entries) →
  ∃ self h, from_ordered_entries entries = Some self ∧ wf () h self ∧
    (h < STACK_CAPACITY → map_inv self (to_entry <$> entries) ∧ iter self = Some entries).
Proof.
  intros Hs. destruct (from_iter_wf () (to_entry <$> entries)) as (self&h&E&Hwf&Hel).
  exists self, h. split; [done|]. split; [done|]. intros Hh.
  assert (Hm : map_inv self (to_entry <$> entries)) by (split_and!; [done|done|by exists h]).
  split; [done|]. rewrite (iter_spec _ _ Hm). f_equal.
  clear. induction entries as [|[k v] entries IH]; [done|]. simpl. by f_equal.
Qed.
End map_properties.

(** ** Witnesses: the map [{1 ↦ 10, 3 ↦ 30, 5 ↦ 50}] *)

Module MapWitness.
Definition entries : list (MapEntry nat nat) :=
  [mkMapEntry 1 10; mkMapEntry 3 30; mkMapEntry 5 50].
Definition sample : TreeMap nat nat :=
  Leaf (MkMapKey (Some 5)) entries ((λ e, item_summary_of e ()) <$> entries).

Lemma sample_sorted : sorted (K:=MapKey nat) entries.
Proof. repeat constructor. Qed.

Lemma sample_inv : map_inv sample entries.
Proof.
  split; [done|]. split; [apply sample_sorted|]. exists 0. split; [|unfold STACK_CAPACITY; lia].
  split; [done|]. split; [done|]. vm_compute. lia.
Qed.
End MapWitness.
Import MapWitness.

Lemma keyed_insert_remove_get_witness :
  KeyedTree.get sample (MkMapKey (Some 3)) () = Some (mkMapEntry 3 30) ∧
  ∃ t', KeyedTree.remove sample (MkMapKey (Some 3)) () = Some (t', Some (mkMapEntry 3 30)).
Proof.
  destruct (keyed_insert_remove_get (K:=MapKey nat) () sample entries (MkMapKey (Some 3))
    (mkMapEntry 4 40) sample_inv) as (Hg&_&(t'&_&_&_&Hr&_)).
  split; [exact Hg|]. by exists t'.
Defined.

Lemma keyed_edit_applies_witness :
  ∃ t' removed, edit (merge_sort edit_le) sample
      [Insert (mkMapEntry 4 40); Remove (MkMapKey (Some 1))] () = Some (t', removed) ∧
    lookup_key (MkMapKey (Some 1)) (elements t') = None ∧ removed ≡ₚ [mkMapEntry 1 10].
Proof.
  destruct (keyed_edit_applies (K:=MapKey nat) (merge_sort edit_le) () sample entries
    [Insert (mkMapEntry 4 40); Remove (MkMapKey (Some 1))])
    as (t'&h&removed&l'&He&_&<-&_&Hl&Hr).
  - apply merge_sort_edits.
  - apply sample_inv.
  - apply NoDup_cons. split; [|apply NoDup_singleton]. intros E%list_elem_of_singleton. discriminate.
  - exists t', removed. split; [exact He|]. split; [apply Hl|exact Hr].
Defined.

Lemma map_get_insert_remove_witness :
  get sample 3 = Some 30 ∧ ∃ m, insert sample 4 40 = Some m ∧ map_lookup 4 (elements m) = Some 40.
Proof.
  destruct (map_get_insert_remove sample entries 3 0 sample_inv) as (Hg&_).
  split; [exact Hg|].
  destruct (map_get_insert_remove sample entries 4 40 sample_inv)
    as (_&_&(m&h&l'&_&Hi&_&<-&_&Hl)&_).
  exists m. split; [exact Hi|]. by rewrite Hl.
Defined.

Lemma map_update_retain_witness :
  ∃ m, update sample 3 (λ v, (v + 1, v)) = Some (m, Some 30) ∧ map_lookup 3 (elements m) = Some 31.
Proof.
  destruct (map_update_retain sample entries 3 (λ v, (v + 1, v)) (λ _ _, true) sample_inv)
    as [(m&h&l'&Hu&_&<-&_&Hl) _].
  exists m. split; [exact Hu|]. by rewrite Hl.
Defined.

Lemma nat_target_upward (n : nat) : target_upward n.
Proof.
  intros k k' Hlt. unfold stops, target_in_child, target_cmp, Adaptor_SeekTarget, cmp_cursor,
    Ord_MapSeekTarget, cmp, nat_Ord in *. simpl in *.
  apply Nat.compare_lt_iff in Hlt. destruct (Nat.compare_spec n k), (Nat.compare_spec n k'); lia || done.
Qed.

Lemma map_remove_range_witness :
  ∃ m, remove_range sample 2 4 = Some m ∧ elements m = [mkMapEntry 1 10; mkMapEntry 5 50].
Proof.
  destruct (map_remove_range sample entries 2 4 sample_inv) as (m&h&Hr&_&Hel);
    [apply nat_target_upward..| |by exists m].
  intros k. unfold cmp_cursor, Ord_MapSeekTarget, cmp, nat_Ord. rewrite !Nat.compare_gt_iff. lia.
Defined.

Lemma map_ordered_reads_witness : closest sample 4 = Some (Some (3, 30)) ∧ first sample = Some (Some (1, 10)).
Proof.
  destruct (map_ordered_reads sample entries 4 sample_inv) as (Hc&_&_&Hf&_).
  split; [exact Hc|exact Hf].
Defined.

Lemma map_extend_insert_tree_witness :
  ∃ m, extend (merge_sort edit_le) sample [(5, 51); (2, 20)] = Some m ∧
    map_lookup 5 (elements m) = Some 51 ∧ map_lookup 1 (elements m) = Some 10.
Proof.
  destruct (map_extend_insert_tree (merge_sort edit_le) sample entries [(5, 51); (2, 20)]
    sample entries) as [(m&h&l'&He&_&<-&_&Hl) _].
  - apply merge_sort_edits.
  - apply sample_inv.
  - apply NoDup_cons. split; [|apply NoDup_singleton]. intros E%list_elem_of_singleton. discriminate.
  - apply sample_inv.
  - exists m. split; [exact He|]. split; [rewrite (Hl 5)|rewrite (Hl 1)]; reflexivity.
Defined.

Lemma map_from_ordered_roundtrip_witness :
  ∃ m h, from_ordered_entries [(1, 10); (3, 30); (5, 50)] = Some m ∧
    (h < STACK_CAPACITY → iter m = Some [(1, 10); (3, 30); (5, 50)]).
Proof.
  destruct (map_from_ordered_roundtrip [(1, 10); (3, 30); (5, 50)] sample_sorted) as (m&h&Hb&_&Hi).
  exists m, h. split; [exact Hb|apply Hi].
Defined.

