(* ===== verification/Locator.v ===== *)
(** Locators: positions with room between any two, [crates/text/src/locator.rs].

    A locator is a sequence of [u64] digits in lexicographic order.  [between]
    walks the two operands as if they were padded with the least and greatest
    digit, and stops at the first digit with room. *)

From stdpp Require Import base numbers option list.
From S2P Require Import Prelude SumTree KeyedTree.

#[local] Open Scope Z_scope.
#[local] Arguments Z.shiftr : simpl never.
#[local] Arguments Z.pow : simpl never.

Definition u64_MAX : Z := 2 ^ 64 - 1.

Record Locator := MkLocator { digits : list Z }.

Definition Locator_min : Locator := MkLocator [0].
Definition Locator_max : Locator := MkLocator [u64_MAX].

#[export] Instance Locator_Ord : Ord Locator := λ a b, cmp (digits a) (digits b).

Definition saturating_sub (a b : Z) : Z := if a <? b then 0 else a - b.

(** The loop of [between] over the padded digits; [None] when out of fuel. *)
Fixpoint between_loop (fuel : nat) (lhs rhs : list Z) : option (list Z) :=
  match fuel with
  | O => None
  | S fuel =>
      let l := default 0 (head lhs) in
      let r := default u64_MAX (head rhs) in
      let mid := l + Z.shiftr (saturating_sub r l) 48 in
      if l <? mid then Some [mid]
      else location ← between_loop fuel (tail lhs) (tail rhs); Some (mid :: location)
  end.

(** One digit past the longer operand there is always room. *)
Definition between_fuel (lhs rhs : list Z) : nat := S (max (length lhs) (length rhs)).

Definition between (lhs rhs : Locator) : option Locator :=
  MkLocator <$> between_loop (between_fuel (digits lhs) (digits rhs)) (digits lhs) (digits rhs).

Definition len (self : Locator) : nat := length (digits self).
Definition is_empty (self : Locator) : bool := bool_decide (len self = 0%nat).

(** [resize], then [copy_from_slice], which panics on different lengths. *)
Definition copy_from_slice (self other : list Z) : option (list Z) :=
  if bool_decide (length self = length other) then Some other else None.
Definition assign (self other : Locator) : option Locator :=
  MkLocator <$> copy_from_slice (resize (len other) 0 (digits self)) (digits other).

(** A locator is its own summary and key. *)
#[export] Instance Locator_Summary : Summary Locator () := {
  summary_zero := λ _, Locator_min;
  add_summary := λ self summary _, default self (assign self summary)
}.
#[export] Instance Locator_Item : Item Locator Locator () := λ self _, self.
#[export] Instance Locator_KeyedItem : KeyedItem Locator Locator := λ self, self.

(** ** Facts *)

#[export] Instance Locator_OrdLaws : OrdLaws Locator.
Proof.
  split; unfold cmp, Locator_Ord.
  - intros [a] [b]. simpl. rewrite cmp_eq_iff. split; [by intros ->|by intros [= ->]].
  - intros [a] [b]. apply cmp_antisym.
  - intros [a] [b] [c]. apply cmp_lt_trans.
Qed.

Lemma assign_spec self other : assign self other = Some other.
Proof.
  unfold assign, copy_from_slice, len. rewrite length_resize, bool_decide_eq_true_2 by done.
  by destruct other.
Qed.

Definition u64_digits (l : list Z) : Prop := Forall (in_width 64) l.

(** The invariant of the locators that code creates: the last digit is not
    zero, so there is room before them. *)
Definition roomy (l : list Z) : Prop := match list.last l with Some d => d ≠ 0 | None => False end.

Section between.
Implicit Types (lhs rhs loc : list Z) (l r : Z).

Definition mid_of l r : Z := l + Z.shiftr (saturating_sub r l) 48.

Lemma shiftr_48 n : 0 ≤ n → 0 ≤ Z.shiftr n 48 ∧ (0 < n → Z.shiftr n 48 < n).
Proof.
  intros Hn. rewrite Z.shiftr_div_pow2 by lia. split; [apply Z.div_pos; lia|].
  intros Hp. apply Z.div_lt; lia.
Qed.

Lemma mid_bounds l r :
  in_width 64 l → in_width 64 r →
  l ≤ mid_of l r ∧ (l < r → mid_of l r < r) ∧ in_width 64 (mid_of l r).
Proof.
  unfold in_width, mid_of, saturating_sub. intros Hl Hr.
  destruct (r <? l) eqn:E; [apply Z.ltb_lt in E|apply Z.ltb_ge in E].
  - rewrite Z.shiftr_0_l. lia.
  - destruct (shiftr_48 (r - l)) as [H0 H1]; [lia|].
    destruct (decide (l = r)) as [->|]; [rewrite Z.sub_diag, Z.shiftr_0_l; lia|].
    specialize (H1 ltac:(lia)). lia.
Qed.

(** Past both operands there is room. *)
Lemma mid_padding : 0 < mid_of 0 u64_MAX.
Proof. reflexivity. Qed.

Lemma pad_lhs lhs : u64_digits lhs → in_width 64 (default 0 (head lhs)).
Proof. intros Hl. destruct Hl; [by apply in_width_0|done]. Qed.
Lemma pad_rhs rhs : u64_digits rhs → in_width 64 (default u64_MAX (head rhs)).
Proof. intros Hr. destruct Hr; [|done]. by compute. Qed.
Lemma pad_tail lhs : u64_digits lhs → u64_digits (tail lhs).
Proof. intros Hl. by destruct Hl; [constructor|]. Qed.

Lemma between_loop_total fuel lhs rhs :
  u64_digits lhs → u64_digits rhs → (max (length lhs) (length rhs) < fuel)%nat →
  ∃ loc, between_loop fuel lhs rhs = Some loc ∧ u64_digits loc ∧ loc ≠ [] ∧
    (length loc ≤ S (max (length lhs) (length rhs)))%nat ∧ roomy loc ∧ list_cmp lhs loc = Lt.
Proof.
  revert lhs rhs. induction fuel as [|fuel IH]; intros lhs rhs Hl Hr Hf; [lia|].
  cbn [between_loop]. fold (mid_of (default 0 (head lhs)) (default u64_MAX (head rhs))).
  set (l := default 0 (head lhs)) in *. set (r := default u64_MAX (head rhs)) in *.
  destruct (mid_bounds l r) as (Hle&_&Hw); [by apply pad_lhs|by apply pad_rhs|].
  destruct (l <? mid_of l r) eqn:E.
  - apply Z.ltb_lt in E. exists [mid_of l r]. split; [done|]. split; [by apply Forall_singleton|].
    split; [done|]. split; [simpl; lia|].
    assert (0 ≤ l) by apply (pad_lhs _ Hl). split; [unfold roomy; simpl; lia|].
    destruct lhs as [|x lhs]; [done|]. simpl in *. subst l. unfold cmp, Z_Ord.
    by rewrite (proj2 (Z.compare_lt_iff _ _) E).
  - apply Z.ltb_ge in E. assert (Em : mid_of l r = l) by lia. rewrite Em.
    assert (Hmore : lhs ≠ [] ∨ rhs ≠ []).
    { destruct lhs as [|]; [|by left]. destruct rhs; [|by right]. subst l r.
      change (mid_of 0 u64_MAX = 0) in Em. pose proof mid_padding as Hp. rewrite Em in Hp.
      by apply Z.lt_irrefl in Hp. }
    destruct (IH (tail lhs) (tail rhs)) as (loc&->&Hd&Hne&Hlen&Hroom&Hlt).
    { by apply pad_tail. } { by apply pad_tail. }
    { destruct lhs, rhs; simpl in *; lia || (destruct Hmore; done). }
    simpl. exists (l :: loc). split; [done|].
    split; [constructor; [by apply pad_lhs|done]|]. split; [done|].
    split; [destruct lhs, rhs; simpl in *; lia || (destruct Hmore; done)|].
    split; [unfold roomy in *; rewrite last_cons; by destruct (list.last loc)|].
    destruct lhs as [|x lhs]; [done|]. simpl in *. subst l. by rewrite cmp_refl.
Qed.

Lemma roomy_tail r rhs : roomy (r :: rhs) → rhs = [] ∧ r ≠ 0 ∨ roomy rhs.
Proof. unfold roomy. destruct rhs as [|x rhs]; [by left|]. rewrite last_cons_cons. auto. Qed.

Lemma between_loop_below fuel lhs rhs loc :
  u64_digits lhs → u64_digits rhs → list_cmp lhs rhs = Lt → roomy rhs →
  between_loop fuel lhs rhs = Some loc → list_cmp loc rhs = Lt.
Proof.
  revert lhs rhs loc. induction fuel as [|fuel IH]; intros lhs rhs loc Hl Hr Hlt Hroom Hb; [done|].
  cbn [between_loop] in Hb. fold (mid_of (default 0 (head lhs)) (default u64_MAX (head rhs))) in Hb.
  destruct rhs as [|r rhs]; [by destruct lhs|]. simpl in Hb.
  pose proof (pad_lhs _ Hl) as Hwl. inversion Hr as [|? ? Hwr Hr']; subst.
  set (l := default 0 (head lhs)) in *.
  destruct (mid_bounds l r Hwl Hwr) as (Hle&Hmid&_).
  assert (Hcase : l < r ∨ l = r ∧ list_cmp (tail lhs) rhs = Lt ∧ (roomy rhs ∨ rhs = [])).
  { destruct lhs as [|x lhs]; cbn [tail list_cmp] in Hlt |- *.
    - change l with 0. destruct (decide (r = 0)) as [->|]; [right|left; unfold in_width in Hwr; lia].
      apply roomy_tail in Hroom as [[_ ?]|Hroom]; [done|]. split; [done|].
      split; [by destruct rhs|by left].
    - change l with x. unfold cmp, Z_Ord in Hlt.
      destruct (x ?= r) eqn:E; cbn [then_with] in Hlt; [|by left|done].
      apply Z.compare_eq_iff in E as ->. right. split; [done|]. split; [done|].
      apply roomy_tail in Hroom as [[-> _]|?]; auto. }
  destruct Hcase as [Hlr|(Elr&Hlt'&Hroom')].
  - assert (Hd : ∀ rest, list_cmp (mid_of l r :: rest) (r :: rhs) = Lt).
    { intros rest. simpl. unfold cmp, Z_Ord.
      by rewrite (proj2 (Z.compare_lt_iff _ _) (Hmid Hlr)). }
    destruct (l <? mid_of l r); [by simplify_eq|].
    destruct (between_loop fuel (tail lhs) rhs); [|done]. by simplify_eq/=.
  - assert (Em : mid_of l r = l).
    { rewrite <- Elr. unfold mid_of, saturating_sub. by rewrite Z.ltb_irrefl, Z.sub_diag, Z.shiftr_0_l, Z.add_0_r. }
    rewrite Em, Z.ltb_irrefl in Hb.
    destruct (between_loop fuel (tail lhs) rhs) as [loc'|] eqn:Eb; [|done]. simplify_eq/=.
    rewrite cmp_refl. cbn [then_with]. destruct Hroom' as [Hroom'| ->]; [|by revert Hlt'; destruct (tail lhs)].
    apply (IH (tail lhs) rhs loc'); [by apply pad_tail|done..].
Qed.
End between.

(** ** Properties *)

(** C36: [Locator::between] terminates, with one digit more than the longer
    operand at most, in [u64] digits without overflow, and creates a locator that
    has room before it and is above the left operand. *)
Theorem between_terminates lhs rhs :
  u64_digits (digits lhs) → u64_digits (digits rhs) →
  ∃ loc, between lhs rhs = Some loc ∧ u64_digits (digits loc) ∧ roomy (digits loc) ∧
    (len loc ≤ S (max (len lhs) (len rhs)))%nat ∧ cmp lhs loc = Lt.
Proof.
  intros Hl Hr. destruct (between_loop_total (between_fuel (digits lhs) (digits rhs))
    (digits lhs) (digits rhs)) as (loc&E&?&_&?&?&?); [done|done|unfold between_fuel; lia|].
  exists (MkLocator loc). unfold between. by rewrite E.
Qed.

(** A new locator strictly between two, the right one with room before it. *)
Lemma between_room lhs rhs :
  u64_digits (digits lhs) → u64_digits (digits rhs) → roomy (digits rhs) → cmp lhs rhs = Lt →
  ∃ loc, between lhs rhs = Some loc ∧ (u64_digits (digits loc) ∧ roomy (digits loc)) ∧
    cmp lhs loc = Lt ∧ cmp loc rhs = Lt.
Proof.
  intros Hl Hr Hroom Hlt. destruct (between_loop_total (between_fuel (digits lhs) (digits rhs))
    (digits lhs) (digits rhs)) as (loc&E&?&_&?&?&?); [done|done|unfold between_fuel; lia|].
  exists (MkLocator loc). unfold between. rewrite E. split_and!; [done..|].
  by eapply (between_loop_below _ (digits lhs) (digits rhs)).
Qed.

(** C35: [Locator::between] of ordered locators, the right one with room before
    it (as every locator [between] creates and [Locator::max] has), is strictly
    between them: so insertions never run out of positions. *)
Theorem between_strict lhs rhs :
  u64_digits (digits lhs) → u64_digits (digits rhs) → roomy (digits rhs) → cmp lhs rhs = Lt →
  ∃ loc, between lhs rhs = Some loc ∧ cmp lhs loc = Lt ∧ cmp loc rhs = Lt ∧ roomy (digits loc).
Proof.
  intros Hl Hr Hroom Hlt. destruct (between_room lhs rhs) as (loc&?&[??]&?&?); [done..|]. by exists loc.
Qed.

Lemma between_terminates_witness :
  ∃ loc, between Locator_min Locator_max = Some loc ∧ cmp Locator_min loc = Lt.
Proof.
  destruct (between_terminates Locator_min Locator_max) as (loc&?&_&_&_&?); [..|by exists loc];
    apply Forall_singleton; split; vm_compute; (reflexivity || discriminate).
Defined.

Lemma between_strict_witness :
  ∃ loc, between (MkLocator [5]) (MkLocator [5; 7]) = Some loc ∧
    cmp (MkLocator [5]) loc = Lt ∧ cmp loc (MkLocator [5; 7]) = Lt.
Proof.
  destruct (between_strict (MkLocator [5]) (MkLocator [5; 7])) as (loc&?&?&?&_).
  - apply Forall_singleton. by vm_compute.
  - apply Forall_cons_2; [|apply Forall_singleton]; by vm_compute.
  - discriminate.
  - reflexivity.
  - by exists loc.
Defined.

(** Without room before the right operand there is nothing between: [5; 0] is
    the successor of [5]. *)
Example between_needs_room :
  between (MkLocator [5]) (MkLocator [5; 0]) = Some (MkLocator [5; 0; 65535]).
Proof. reflexivity. Qed.
