(* ===== verification/Patch.v ===== *)
(** Patches: the edits that turn one text into another,
    [crates/text/src/patch.rs] (and [Edit] of [crates/text/src/text.rs]).

    Offsets are [usize] values, modelled by [nat]; a subtraction that would
    underflow is a panic ([None]), as in a build with overflow checks.  The two
    peekable iterators of [compose] are lists whose head the loop mutates. *)

From stdpp Require Import base numbers option list.
From S2P Require Import Prelude.

Record Range := mkRange { range_start : nat; range_end : nat }.
Record Edit := mkEdit { old : Range; new : Range }.

#[export] Instance Range_eq_dec : EqDecision Range.
Proof. solve_decision. Defined.
#[export] Instance Edit_eq_dec : EqDecision Edit.
Proof. solve_decision. Defined.

Definition edit_is_empty (self : Edit) : bool :=
  bool_decide (range_start (old self) = range_end (old self)) &&
  bool_decide (range_start (new self) = range_end (new self)).
Definition old_len (self : Edit) : option nat := usub (range_end (old self)) (range_start (old self)).
Definition new_len (self : Edit) : option nat := usub (range_end (new self)) (range_start (new self)).

Definition set_old_start (e : Edit) (n : nat) : Edit :=
  mkEdit (mkRange n (range_end (old e))) (new e).
Definition set_new_start (e : Edit) (n : nat) : Edit :=
  mkEdit (old e) (mkRange n (range_end (new e))).

Definition Patch : Type := list Edit.

Definition empty : Patch := [].

(** [Patch::new]: the debug assertions on the edits. *)
Fixpoint new_checked (last_edit : option Edit) (edits : list Edit) : option unit :=
  match edits with
  | [] => Some ()
  | edit :: edits =>
      _ ← match last_edit with
          | Some last_edit =>
              _ ← assert_ (bool_decide (range_end (old last_edit) < range_start (old edit)));
              assert_ (bool_decide (range_end (new last_edit) < range_start (new edit)))
          | None => Some ()
          end;
      new_checked (Some edit) edits
  end.
Definition patch_new (edits : list Edit) : option Patch := _ ← new_checked None edits; Some edits.

Definition swap_edit (e : Edit) : Edit := mkEdit (new e) (old e).
Definition invert (self : Patch) : Patch := map swap_edit self.
Definition clear (self : Patch) : Patch := [].
Definition is_empty (self : Patch) : bool := match self with [] => true | _ => false end.

Definition push_maybe_empty (self : Patch) (edit : Edit) : Patch :=
  match modify_last (λ last,
      if bool_decide (range_start (old edit) ≤ range_end (old last)) then
        Some (mkEdit (mkRange (range_start (old last)) (range_end (old edit)))
                     (mkRange (range_start (new last)) (range_end (new edit))), true)
      else Some (last, false)) self with
  | Some (self, true) => self
  | _ => self ++ [edit]
  end.

Definition push (self : Patch) (edit : Edit) : Patch :=
  if edit_is_empty edit then self else push_maybe_empty self edit.

(** ** [compose] *)

(** The variables of the loop. *)
Record ComposeState := mkCompose {
  old_edits : list Edit;
  new_edits : list Edit;
  composed : Patch;
  old_start : nat;
  new_start : nat
}.

(** Pushing the edit from the current starts to the given ends, and moving the
    starts there. *)
Definition push_to (st : ComposeState) (old_end new_end : nat) : ComposeState :=
  mkCompose (old_edits st) (new_edits st)
    (push (composed st)
       (mkEdit (mkRange (old_start st) old_end) (mkRange (new_start st) new_end)))
    old_end new_end.

Definition advance (st : ComposeState) (catchup : nat) : ComposeState :=
  mkCompose (old_edits st) (new_edits st) (composed st) (old_start st + catchup)
    (new_start st + catchup).

Definition set_edits (st : ComposeState) (olds news : list Edit) : ComposeState :=
  mkCompose olds news (composed st) (old_start st) (new_start st).

(** "Push the old edit if its new end is before the new edit's old start." *)
Definition push_old_edit (st : ComposeState) (old_edit : Edit) : option ComposeState :=
  catchup ← usub (range_start (old old_edit)) (old_start st);
  let st := advance st catchup in
  ol ← old_len old_edit; nl ← new_len old_edit;
  let st := push_to st (old_start st + ol) (new_start st + nl) in
  Some (set_edits st (tail (old_edits st)) (new_edits st)).

Definition push_new_edit (st : ComposeState) (new_edit : Edit) : option ComposeState :=
  catchup ← usub (range_start (new new_edit)) (new_start st);
  let st := advance st catchup in
  ol ← old_len new_edit; nl ← new_len new_edit;
  let st := push_to st (old_start st + ol) (new_start st + nl) in
  Some (set_edits st (old_edits st) (tail (new_edits st))).

(** The first half of an intersection: up to where both edits start. *)
Definition compose_starts (st : ComposeState) (old_edit new_edit : Edit)
    : option (ComposeState * Edit * Edit) :=
  if bool_decide (range_start (new old_edit) < range_start (old new_edit)) then
    catchup ← usub (range_start (old old_edit)) (old_start st);
    let st := advance st catchup in
    overshoot ← usub (range_start (old new_edit)) (range_start (new old_edit));
    let old_end := min (old_start st + overshoot) (range_end (old old_edit)) in
    let new_end := new_start st + overshoot in
    let st := push_to st old_end new_end in
    Some (st, set_new_start (set_old_start old_edit old_end)
                (range_start (new old_edit) + overshoot), new_edit)
  else
    catchup ← usub (range_start (new new_edit)) (new_start st);
    let st := advance st catchup in
    overshoot ← usub (range_start (new old_edit)) (range_start (old new_edit));
    let old_end := old_start st + overshoot in
    let new_end := min (new_start st + overshoot) (range_end (new new_edit)) in
    let st := push_to st old_end new_end in
    Some (st, old_edit, set_new_start (set_old_start new_edit
                (range_start (old new_edit) + overshoot)) new_end).

(** The second half: up to where the first of the two ends. *)
Definition compose_ends (st : ComposeState) (old_edit new_edit : Edit) : option ComposeState :=
  if bool_decide (range_end (old new_edit) < range_end (new old_edit)) then
    ol ← old_len old_edit; nol ← old_len new_edit; nnl ← new_len new_edit;
    let old_end := old_start st + min ol nol in
    let new_end := new_start st + nnl in
    let st := push_to st old_end new_end in
    let old_edit := set_new_start (set_old_start old_edit old_end) (range_end (old new_edit)) in
    Some (set_edits st (old_edit :: tail (old_edits st)) (tail (new_edits st)))
  else
    ol ← old_len old_edit; onl ← new_len old_edit; nnl ← new_len new_edit;
    let old_end := old_start st + ol in
    let new_end := new_start st + min onl nnl in
    let st := push_to st old_end new_end in
    let new_edit := set_new_start (set_old_start new_edit (range_end (new old_edit))) new_end in
    Some (set_edits st (tail (old_edits st)) (new_edit :: tail (new_edits st))).

(** One iteration; the outer [None] is a panic, the inner one the [break]. *)
Definition compose_step (st : ComposeState) : option (option ComposeState) :=
  match old_edits st, new_edits st with
  | [], [] => Some None
  | old_edit :: _, [] => Some <$> push_old_edit st old_edit
  | [], new_edit :: _ => Some <$> push_new_edit st new_edit
  | old_edit :: _, new_edit :: _ =>
      if bool_decide (range_end (new old_edit) < range_start (old new_edit)) then
        Some <$> push_old_edit st old_edit
      else if bool_decide (range_end (old new_edit) < range_start (new old_edit)) then
        Some <$> push_new_edit st new_edit
      else
        '(st, old_edit, new_edit) ← compose_starts st old_edit new_edit;
        Some <$> compose_ends st old_edit new_edit
  end.

Fixpoint compose_loop (fuel : nat) (st : ComposeState) : option Patch :=
  match fuel with
  | O => None
  | S fuel =>
      r ← compose_step st;
      match r with
      | None => Some (composed st)
      | Some st => compose_loop fuel st
      end
  end.

(** Every iteration consumes an edit. *)
Definition compose (self : Patch) (new_edits : list Edit) : option Patch :=
  compose_loop (S (length self + length new_edits)) (mkCompose self new_edits [] 0 0).

(** ** Translating positions *)

(** [binary_search_by] of the standard library on strictly increasing starts. *)
Fixpoint search_start (ix : nat) (edits : list Edit) (o : nat) : nat + nat :=
  match edits with
  | [] => inr ix
  | e :: edits =>
      match range_start (old e) ?= o with
      | Lt => search_start (S ix) edits o
      | Eq => inl ix
      | Gt => inr ix
      end
  end.

(** The index of the last edit that starts at or before the position. *)
Definition edit_index (self : Patch) (o : nat) : option nat :=
  match search_start 0 self o with
  | inl ix => Some ix
  | inr ix => if bool_decide (ix = 0) then None else Some (ix - 1)
  end.

Definition old_to_new (self : Patch) (o : nat) : option nat :=
  match edit_index self o with
  | None => Some o
  | Some ix =>
      match self !! ix with
      | Some edit =>
          if bool_decide (range_end (old edit) ≤ o) then
            d ← usub o (range_end (old edit)); Some (range_end (new edit) + d)
          else Some (range_start (new edit))
      | None => Some o
      end
  end.

Definition edit_for_old_position (self : Patch) (o : nat) : option Edit :=
  match edit_index self o with
  | None => Some (mkEdit (mkRange o o) (mkRange o o))
  | Some ix =>
      match self !! ix with
      | Some edit =>
          if bool_decide (range_end (old edit) < o) then
            d ← usub o (range_end (old edit));
            let translated := range_end (new edit) + d in
            Some (mkEdit (mkRange o o) (mkRange translated translated))
          else Some edit
      | None => Some (mkEdit (mkRange o o) (mkRange o o))
      end
  end.

Definition retain_mut (f : Edit → Edit * bool) (self : Patch) : Patch :=
  omap (λ e, let '(e, keep) := f e in if keep then Some e else None) self.
