(* ===== verification/PatchFacts.v ===== *)
(** Composing patches composes the texts.

    [patches p s s']: applying the edits of [p] to the text [s] gives [s'].
    The theorem on [compose] is the one that matters to its users: from
    [patches p s0 s1] and [patches q s1 s2] it derives [patches (p;q) s0 s2],
    with the loop terminating and no subtraction underflowing. *)

From stdpp Require Import base numbers option list sorting.
From S2P Require Import Prelude Patch.

Section patches.
Context {A : Type}.
Implicit Types (p q : Patch) (e f : Edit) (r s g o n : list A).

(** The edits [p] turn the text [r], which starts at offset [io], into [r'],
    which starts at offset [im]: between two edits the texts agree. *)
Fixpoint applies (io im : nat) p r r' : Prop :=
  match p with
  | [] => r = r'
  | e :: p => ∃ g o n rest rest',
      r = g ++ o ++ rest ∧ r' = g ++ n ++ rest' ∧
      old e = mkRange (io + length g) (io + length g + length o) ∧
      new e = mkRange (im + length g) (im + length g + length n) ∧
      applies (io + length g + length o) (im + length g + length n) p rest rest'
  end.

Definition patches p s s' : Prop := applies 0 0 p s s'.

(** *** Moving text between the parts of a patch *)

Lemma app_prefix (a b c d : list A) :
  a ++ b = c ++ d → length a ≤ length c → ∃ k, c = a ++ k ∧ b = k ++ d.
Proof.
  revert c. induction a as [|x a IH]; intros c E Hl; simpl in *; [by exists c|].
  destruct c as [|y c]; simpl in *; [lia|]. injection E as -> E.
  destruct (IH c E) as (k&->&->); [lia|]. by exists k.
Qed.

Lemma split_at k (l : list A) : l = take (min k (length l)) l ++ drop (min k (length l)) l.
Proof. by rewrite take_drop. Qed.

Lemma applies_gap io im p g r r' :
  applies (io + length g) (im + length g) p r r' → applies io im p (g ++ r) (g ++ r').
Proof.
  destruct p as [|e p]; simpl; [by intros ->|].
  intros (g'&o&n&rest&rest'&->&->&Ho&Hn&Hp). exists (g ++ g'), o, n, rest, rest'.
  rewrite !length_app, !Nat.add_assoc. split_and!; try done; by rewrite <- app_assoc.
Qed.

Lemma applies_app io im p q r r' k k' :
  applies io im p r r' → applies (io + length r) (im + length r') q k k' →
  applies io im (p ++ q) (r ++ k) (r' ++ k').
Proof.
  revert io im r r'. induction p as [|e p IH]; intros io im r r' Hp Hq; simpl in *.
  { subst r'. by apply applies_gap. }
  destruct Hp as (g&o&n&rest&rest'&->&->&Ho&Hn&Hp).
  exists g, o, n, (rest ++ k), (rest' ++ k').
  split; [by rewrite <- !app_assoc|]. split; [by rewrite <- !app_assoc|].
  split; [done|]. split; [done|]. apply IH; [done|].
  rewrite !length_app, !Nat.add_assoc in Hq. done.
Qed.

Lemma applies_snoc_inv io im p e r r' :
  applies io im (p ++ [e]) r r' →
  ∃ r1 r1' g o n rest, r = r1 ++ g ++ o ++ rest ∧ r' = r1' ++ g ++ n ++ rest ∧
    applies io im p r1 r1' ∧
    old e = mkRange (io + length (r1 ++ g)) (io + length (r1 ++ g ++ o)) ∧
    new e = mkRange (im + length (r1' ++ g)) (im + length (r1' ++ g ++ n)).
Proof.
  revert io im r r'. induction p as [|d p IH]; intros io im r r' Hp; simpl in Hp.
  - destruct Hp as (g&o&n&rest&rest'&->&->&Ho&Hn&<-).
    exists [], [], g, o, n, rest. simpl. rewrite !length_app, !Nat.add_assoc. done.
  - destruct Hp as (g0&o0&n0&rest0&rest0'&->&->&Ho0&Hn0&Hp).
    destruct (IH _ _ _ _ Hp) as (r1&r1'&g&o&n&rest&->&->&Hr1&Ho&Hn).
    exists (g0 ++ o0 ++ r1), (g0 ++ n0 ++ r1'), g, o, n, rest.
    split; [by rewrite <- !app_assoc|]. split; [by rewrite <- !app_assoc|].
    split; [simpl; by exists g0, o0, n0, r1, r1'|].
    rewrite Ho, Hn, !length_app, !Nat.add_assoc. done.
Qed.

(** *** [push] extends a patch by an edit at the end of the texts *)

Definition edit_at (io im lo ln : nat) : Edit := mkEdit (mkRange io (io + lo)) (mkRange im (im + ln)).

Lemma applies_single io im o n : applies io im [edit_at io im (length o) (length n)] o n.
Proof.
  exists [], o, n, [], []. simpl. rewrite !app_nil_r, !Nat.add_0_r. done.
Qed.

Lemma push_maybe_empty_app p e :
  push_maybe_empty p e = p ++ [e] ∨
  ∃ q l, p = q ++ [l] ∧ range_start (old e) ≤ range_end (old l) ∧
    push_maybe_empty p e = q ++ [mkEdit (mkRange (range_start (old l)) (range_end (old e)))
                                        (mkRange (range_start (new l)) (range_end (new e)))].
Proof.
  unfold push_maybe_empty. destruct p as [|l q _] using rev_ind; [by left|].
  rewrite modify_last_snoc. case_bool_decide; simpl; [right; eauto 6|by left].
Qed.

Lemma applies_push p r r' o n :
  patches p r r' →
  patches (push p (edit_at (length r) (length r') (length o) (length n))) (r ++ o) (r' ++ n).
Proof.
  intros Hp. unfold push, edit_is_empty. simpl.
  destruct (bool_decide _ && bool_decide _) eqn:Ee.
  { apply andb_true_iff in Ee as [Eo%bool_decide_eq_true En%bool_decide_eq_true].
    destruct o; [|simpl in *; lia]. destruct n; [|simpl in *; lia]. by rewrite !app_nil_r. }
  clear Ee. destruct (push_maybe_empty_app p (edit_at (length r) (length r') (length o) (length n)))
    as [->|(q&l&->&Hle&->)].
  - apply applies_app; [done|]. apply applies_single.
  - destruct (applies_snoc_inv _ _ _ _ _ _ Hp) as (r1&r1'&g&o1&n1&rest&->&->&Hr1&Ho&Hn).
    simpl in Hle. rewrite Ho in Hle. simpl in Hle. rewrite !length_app in Hle.
    assert (rest = []) as -> by (destruct rest; [done|simpl in *; lia]).
    rewrite !app_nil_r, <- !app_assoc. apply applies_app; [done|].
    exists g, (o1 ++ o), (n1 ++ n), [], []. rewrite !app_nil_r.
    split; [done|]. split; [done|]. rewrite Ho, Hn. simpl.
    split; [f_equal; rewrite ?length_app; lia|]. split; [f_equal; rewrite ?length_app; lia|done].
Qed.

(** *** The loop of [compose] *)

(** The texts consumed and the patches still to be applied. *)
Definition consumed (st : ComposeState) c0 c2 : Prop :=
  patches (composed st) c0 c2 ∧ old_start st = length c0 ∧ new_start st = length c2.

Definition loop_inv (st : ComposeState) s0 s2 : Prop :=
  ∃ c0 c2 r0 r1 r2 m, s0 = c0 ++ r0 ∧ s2 = c2 ++ r2 ∧ consumed st c0 c2 ∧
    applies (length c0) m (old_edits st) r0 r1 ∧ applies m (length c2) (new_edits st) r1 r2.

(** Moving over a common gap [g] and pushing the edit of [o] into [n]. *)
Lemma consumed_emit st c0 c2 g o n :
  consumed st c0 c2 →
  consumed (push_to (advance st (length g)) (length c0 + length g + length o)
              (length c2 + length g + length n)) ((c0 ++ g) ++ o) ((c2 ++ g) ++ n).
Proof.
  intros (Hp&Ho&Hn). unfold consumed. simpl. rewrite Ho, Hn.
  split; [|split; rewrite !length_app; lia].
  pose proof (applies_push (composed st) (c0 ++ g) (c2 ++ g) o n) as Hpush.
  unfold edit_at in Hpush. rewrite !length_app in Hpush.
  apply Hpush. rewrite <- (app_nil_r (composed st)). by apply applies_app.
Qed.

Lemma usub_add a b : usub (a + b) a = Some b.
Proof. unfold usub. rewrite bool_decide_eq_true_2 by lia. f_equal. lia. Qed.

Lemma usub_eq a b c : a = b + c → usub a b = Some c.
Proof. intros ->. apply usub_add. Qed.

(** Case "push the old edit": its text is not touched by the new edits. *)
Lemma push_old_spec st s0 s2 e P :
  loop_inv st s0 s2 → old_edits st = e :: P →
  match new_edits st with
  | [] => True
  | f :: _ => range_end (new e) < range_start (old f)
  end →
  ∃ st', push_old_edit st e = Some st' ∧ loop_inv st' s0 s2 ∧
    old_edits st' = P ∧ new_edits st' = new_edits st.
Proof.
  intros (c0&c2&r0&r1&r2&m&->&->&Hc&HP&HQ) EP Hlt. rewrite EP in HP.
  destruct HP as (g&o&n&rest&rest'&->&->&Ho&Hn&HP). pose proof Hc as (_&Hos&Hns).
  unfold push_old_edit, old_len, new_len. rewrite Ho, Hn, Hos. simpl.
  repeat (rewrite usub_add; simpl). rewrite Hos, Hns. eexists. split; [done|]. split; [|by rewrite EP].
  assert (HQ' : ∃ k, r2 = (g ++ n) ++ k ∧
    applies (m + length g + length n) (length c2 + length g + length n) (new_edits st) rest' k).
  { destruct (new_edits st) as [|f Q]; simpl in HQ |- *.
    - exists rest'. by rewrite <- HQ, app_assoc.
    - destruct HQ as (g2&fo&fn&rest2&rest2'&E&->&Hfo&Hfn&HQ).
      rewrite Hn, Hfo in Hlt. simpl in Hlt. rewrite app_assoc in E.
      destruct (app_prefix (g ++ n) rest' g2 (fo ++ rest2)) as (k&->&->);
        [done|rewrite length_app; lia|].
      exists (k ++ fn ++ rest2'). rewrite <- !app_assoc. split; [done|].
      exists k, fo, fn, rest2, rest2'.
      rewrite Hfo, Hfn, !length_app, !Nat.add_assoc. rewrite !length_app, !Nat.add_assoc in HQ.
      done. }
  destruct HQ' as (k&->&HQ').
  exists ((c0 ++ g) ++ o), ((c2 ++ g) ++ n), rest, rest', k, (m + length g + length n).
  split; [by rewrite <- !app_assoc|]. split; [by rewrite <- !app_assoc|].
  split; [|split].
  - pose proof (consumed_emit st c0 c2 g o n Hc) as Hem. unfold consumed in *.
    simpl in *. by rewrite Hos, Hns in Hem |- *.
  - simpl. rewrite EP. simpl. by rewrite !length_app.
  - simpl. by rewrite !length_app.
Qed.

Lemma push_new_spec st s0 s2 f Q :
  loop_inv st s0 s2 → new_edits st = f :: Q →
  match old_edits st with
  | [] => True
  | e :: _ => range_end (old f) < range_start (new e)
  end →
  ∃ st', push_new_edit st f = Some st' ∧ loop_inv st' s0 s2 ∧
    old_edits st' = old_edits st ∧ new_edits st' = Q.
Proof.
  intros (c0&c2&r0&r1&r2&m&->&->&Hc&HP&HQ) EQ Hlt. rewrite EQ in HQ.
  destruct HQ as (g&o&n&rest&rest'&->&->&Ho&Hn&HQ). pose proof Hc as (_&Hos&Hns).
  unfold push_new_edit, old_len, new_len. rewrite Ho, Hn, Hns. simpl.
  repeat (rewrite usub_add; simpl). rewrite Hos, Hns. eexists. split; [done|]. split; [|by rewrite EQ].
  assert (HP' : ∃ k, r0 = (g ++ o) ++ k ∧
    applies (length c0 + length g + length o) (m + length g + length o) (old_edits st) k rest).
  { destruct (old_edits st) as [|e P]; simpl in HP |- *.
    - exists rest. by rewrite HP, app_assoc.
    - destruct HP as (g1&eo&en&rest1&rest1'&->&E&Heo&Hen&HP).
      rewrite Hen, Ho in Hlt. simpl in Hlt. rewrite app_assoc in E.
      destruct (app_prefix (g ++ o) rest g1 (en ++ rest1')) as (k&->&->);
        [done|rewrite length_app; lia|].
      exists (k ++ eo ++ rest1). rewrite <- !app_assoc. split; [done|].
      exists k, eo, en, rest1, rest1'.
      rewrite Heo, Hen, !length_app, !Nat.add_assoc. rewrite !length_app, !Nat.add_assoc in HP.
      done. }
  destruct HP' as (k&->&HP').
  exists ((c0 ++ g) ++ o), ((c2 ++ g) ++ n), k, rest, rest', (m + length g + length o).
  split; [by rewrite <- !app_assoc|]. split; [by rewrite <- !app_assoc|].
  split; [|split].
  - pose proof (consumed_emit st c0 c2 g o n Hc) as Hem. unfold consumed in *.
    simpl in *. by rewrite Hos, Hns in Hem |- *.
  - simpl. by rewrite !length_app.
  - simpl. rewrite EQ. simpl. by rewrite !length_app.
Qed.

(** *** Intersecting edits *)

(** Both head edits start at the current position. *)
Definition aligned (st : ComposeState) e f P Q s0 s2 : Prop :=
  ∃ c0 c2 o n fo fn r0 r1 r1' r2 m,
    s0 = c0 ++ o ++ r0 ∧ s2 = c2 ++ fn ++ r2 ∧ consumed st c0 c2 ∧
    n ++ r1 = fo ++ r1' ∧
    e = edit_at (length c0) m (length o) (length n) ∧
    f = edit_at m (length c2) (length fo) (length fn) ∧
    applies (length c0 + length o) (m + length n) P r0 r1 ∧
    applies (m + length fo) (length c2 + length fn) Q r1' r2.

Lemma min_length_take k (l : list A) : length (take (min k (length l)) l) = min k (length l).
Proof. rewrite length_take. lia. Qed.

Lemma compose_starts_old st s0 s2 e f P Q :
  loop_inv st s0 s2 → old_edits st = e :: P → new_edits st = f :: Q →
  range_start (old f) ≤ range_end (new e) → range_start (new e) < range_start (old f) →
  ∃ st' e' f', compose_starts st e f = Some (st', e', f') ∧ aligned st' e' f' P Q s0 s2 ∧
    old_edits st' = e :: P ∧ new_edits st' = f :: Q.
Proof.
  intros (c0&c2&r0&r1&r2&m&->&->&Hc&HP&HQ) EP EQ Hle Hlt. rewrite EP in HP. rewrite EQ in HQ.
  destruct HP as (g1&o&n&rest&rest'&->&E1&Heo&Hen&HP).
  destruct HQ as (g2&fo&fn&rest2&rest2'&E2&->&Hfo&Hfn&HQ).
  pose proof Hc as (_&Hos&Hns). rewrite Hfo, Hen in *. simpl in Hle, Hlt.
  rewrite E1 in E2. destruct (app_prefix g1 (n ++ rest') g2 (fo ++ rest2)) as (k&->&E3); [done|lia|].
  rewrite length_app in *.
  destruct (app_prefix k (fo ++ rest2) n rest') as (n2&->&E4); [done|lia|].
  unfold compose_starts. rewrite Hfo, Hen, Heo, Hos. simpl.
  rewrite bool_decide_eq_true_2 by lia. rewrite usub_add. simpl. rewrite Hos, Hns.
  rewrite (usub_eq _ (m + length g1) (length k)) by (rewrite ?length_app; lia). simpl.
  set (o1 := take (min (length k) (length o)) o).
  set (o2 := drop (min (length k) (length o)) o).
  assert (Eo : o = o1 ++ o2) by apply split_at.
  assert (Eend : min (length c0 + length g1 + length k) (length c0 + length g1 + length o) =
                 length c0 + length g1 + length o1).
  { unfold o1. rewrite min_length_take. lia. }
  rewrite Eend. eexists _, _, _. split; [done|]. split; [|by simpl; rewrite EP, EQ].
  exists ((c0 ++ g1) ++ o1), ((c2 ++ g1) ++ k), o2, n2, fo, fn, rest, rest', rest2, rest2',
    (m + length g1 + length k).
  split; [rewrite Eo; by rewrite <- !app_assoc|]. split; [by rewrite <- !app_assoc|].
  split.
  { pose proof (consumed_emit st c0 c2 g1 o1 k Hc) as Hem. unfold consumed in *. simpl in *.
    by rewrite Hos, Hns in Hem |- *. }
  split; [done|]. unfold edit_at, set_old_start, set_new_start. simpl. rewrite ?Heo, ?Hen, ?Hfo, ?Hfn. simpl.
  apply (f_equal length) in Eo. rewrite !length_app in *.
  split; [f_equal; f_equal; lia|].
  split; [destruct f as [fold fnew]; simpl in *; rewrite Hfo, Hfn; f_equal; f_equal; lia|].
  split.
  - replace (length c0 + length g1 + length o1 + length o2) with (length c0 + length g1 + length o) by lia.
    by replace (m + length g1 + length k + length n2) with (m + length g1 + (length k + length n2)) by lia.
  - replace (length c2 + length g1 + length k + length fn)
      with (length c2 + (length g1 + length k) + length fn) by lia.
    by replace (m + length g1 + length k + length fo) with (m + (length g1 + length k) + length fo) by lia.
Qed.

Lemma compose_starts_new st s0 s2 e f P Q :
  loop_inv st s0 s2 → old_edits st = e :: P → new_edits st = f :: Q →
  range_start (new e) ≤ range_end (old f) → range_start (old f) ≤ range_start (new e) →
  ∃ st' e' f', compose_starts st e f = Some (st', e', f') ∧ aligned st' e' f' P Q s0 s2 ∧
    old_edits st' = e :: P ∧ new_edits st' = f :: Q.
Proof.
  intros (c0&c2&r0&r1&r2&m&->&->&Hc&HP&HQ) EP EQ Hle Hlt. rewrite EP in HP. rewrite EQ in HQ.
  destruct HP as (g1&o&n&rest&rest'&->&E1&Heo&Hen&HP).
  destruct HQ as (g2&fo&fn&rest2&rest2'&E2&->&Hfo&Hfn&HQ).
  pose proof Hc as (_&Hos&Hns). rewrite Hfo, Hen in *. simpl in Hle, Hlt.
  rewrite E2 in E1. destruct (app_prefix g2 (fo ++ rest2) g1 (n ++ rest')) as (k&->&E3); [done|lia|].
  rewrite length_app in *.
  destruct (app_prefix k (n ++ rest') fo rest2) as (f2&->&E4); [done|lia|].
  unfold compose_starts. rewrite Hfo, Hen, Hfn, Hns. simpl.
  rewrite bool_decide_eq_false_2 by lia. rewrite usub_add. simpl. rewrite Hos, Hns.
  rewrite (usub_eq _ (m + length g2) (length k)) by (rewrite ?length_app; lia). simpl.
  set (n1 := take (min (length k) (length fn)) fn).
  set (n2 := drop (min (length k) (length fn)) fn).
  assert (En : fn = n1 ++ n2) by apply split_at.
  assert (Eend : min (length c2 + length g2 + length k) (length c2 + length g2 + length fn) =
                 length c2 + length g2 + length n1).
  { unfold n1. rewrite min_length_take. lia. }
  rewrite Eend. eexists _, _, _. split; [done|]. split; [|by simpl; rewrite EP, EQ].
  exists ((c0 ++ g2) ++ k), ((c2 ++ g2) ++ n1), o, n, f2, n2, rest, rest', rest2, rest2',
    (m + length g2 + length k).
  split; [by rewrite <- !app_assoc|]. split; [rewrite En; by rewrite <- !app_assoc|].
  split.
  { pose proof (consumed_emit st c0 c2 g2 k n1 Hc) as Hem. unfold consumed in *. simpl in *.
    by rewrite Hos, Hns in Hem |- *. }
  split; [done|]. unfold edit_at, set_old_start, set_new_start. simpl. rewrite ?Heo, ?Hen, ?Hfo, ?Hfn. simpl.
  apply (f_equal length) in En. rewrite !length_app in *.
  split; [destruct e as [eold enew]; simpl in *; rewrite Heo, Hen; f_equal; f_equal; lia|].
  split; [f_equal; f_equal; lia|].
  split.
  - replace (length c0 + length g2 + length k + length o) with (length c0 + (length g2 + length k) + length o) by lia.
    by replace (m + length g2 + length k + length n) with (m + (length g2 + length k) + length n) by lia.
  - replace (length c2 + length g2 + length n1 + length n2)
      with (length c2 + length g2 + length fn) by lia.
    by replace (m + length g2 + length k + length f2) with (m + length g2 + (length k + length f2)) by lia.
Qed.

Lemma consumed_push st c0 c2 o n :
  consumed st c0 c2 →
  consumed (push_to st (length c0 + length o) (length c2 + length n)) (c0 ++ o) (c2 ++ n).
Proof.
  intros (Hp&Ho&Hn). unfold consumed. simpl. rewrite Ho, Hn, !length_app.
  split; [|done]. by apply applies_push.
Qed.

Lemma compose_ends_spec st s0 s2 e f P Q P0 Q0 e0 f0 :
  aligned st e f P Q s0 s2 → old_edits st = e0 :: P → new_edits st = f0 :: Q →
  P0 = P → Q0 = Q →
  ∃ st', compose_ends st e f = Some st' ∧ loop_inv st' s0 s2 ∧
    length (old_edits st') + length (new_edits st') < length (e0 :: P) + length (f0 :: Q).
Proof.
  intros (c0&c2&o&n&fo&fn&r0&r1&r1'&r2&m&->&->&Hc&E&->&->&HP&HQ) EP EQ _ _.
  pose proof Hc as (_&Hos&Hns). unfold compose_ends, edit_at, old_len, new_len. simpl.
  rewrite !usub_add. simpl. rewrite Hos, Hns, EP, EQ. case_bool_decide as Hlt.
  - destruct (app_prefix fo r1' n r1) as (n2&->&->); [done|lia|].
    set (o1 := take (min (length fo) (length o)) o). set (o2 := drop (min (length fo) (length o)) o).
    assert (Eo : o = o1 ++ o2) by apply split_at.
    assert (Eend : min (length o) (length fo) = length o1) by (unfold o1; rewrite min_length_take; lia).
    rewrite Eend. eexists. split; [done|]. split; [|simpl; lia].
    exists (c0 ++ o1), (c2 ++ fn), (o2 ++ r0), (n2 ++ r1), r2, (m + length fo).
    split; [rewrite Eo; by rewrite <- !app_assoc|]. split; [by rewrite <- app_assoc|].
    split.
    { pose proof (consumed_push st c0 c2 o1 fn Hc) as Hpush. unfold consumed in *. simpl in *.
      by rewrite Hos, Hns in Hpush |- *. }
    simpl. apply (f_equal length) in Eo. rewrite !length_app in *. split.
    + exists [], o2, n2, r0, r1. simpl. rewrite !Nat.add_0_r.
      split; [done|]. split; [done|]. split; [f_equal; lia|]. split; [f_equal; lia|].
      replace (length c0 + length o1 + length o2) with (length c0 + length o) by lia.
      by replace (m + length fo + length n2) with (m + (length fo + length n2)) by lia.
    + done.
  - destruct (app_prefix n r1 fo r1') as (fo2&->&->); [done|lia|].
    set (n1 := take (min (length n) (length fn)) fn). set (n2 := drop (min (length n) (length fn)) fn).
    assert (En : fn = n1 ++ n2) by apply split_at.
    assert (Eend : min (length n) (length fn) = length n1) by (unfold n1; rewrite min_length_take; lia).
    rewrite Eend. eexists. split; [done|]. split; [|simpl; lia].
    exists (c0 ++ o), (c2 ++ n1), r0, (fo2 ++ r1'), (n2 ++ r2), (m + length n).
    split; [by rewrite <- app_assoc|]. split; [rewrite En; by rewrite <- !app_assoc|].
    split.
    { pose proof (consumed_push st c0 c2 o n1 Hc) as Hpush. unfold consumed in *. simpl in *.
      by rewrite Hos, Hns in Hpush |- *. }
    simpl. apply (f_equal length) in En. rewrite !length_app in *. split.
    + done.
    + exists [], fo2, n2, r1', r2. simpl. rewrite !Nat.add_0_r.
      split; [done|]. split; [done|]. split; [f_equal; lia|]. split; [f_equal; lia|].
      replace (length c2 + length n1 + length n2) with (length c2 + length fn) by lia.
      by replace (m + length n + length fo2) with (m + (length n + length fo2)) by lia.
Qed.

(** One iteration keeps the invariant and consumes an edit. *)
Lemma compose_step_spec st s0 s2 :
  loop_inv st s0 s2 →
  match compose_step st with
  | Some (Some st') => loop_inv st' s0 s2 ∧
      length (old_edits st') + length (new_edits st') < length (old_edits st) + length (new_edits st)
  | Some None => patches (composed st) s0 s2
  | None => False
  end.
Proof.
  intros Hinv. unfold compose_step.
  destruct (old_edits st) as [|e P] eqn:EP; destruct (new_edits st) as [|f Q] eqn:EQ.
  - destruct Hinv as (c0&c2&r0&r1&r2&m&->&->&(Hp&_&_)&HP&HQ). rewrite EP in HP. rewrite EQ in HQ.
    simpl in *. subst. rewrite <- (app_nil_r (composed st)). by apply applies_app.
  - destruct (push_new_spec st s0 s2 f Q Hinv EQ) as (st'&->&?&E1&E2); [by rewrite EP|].
    simpl. rewrite E1, E2, EP. simpl. auto with lia.
  - destruct (push_old_spec st s0 s2 e P Hinv EP) as (st'&->&?&E1&E2); [by rewrite EQ|].
    simpl. rewrite E1, E2, EQ. simpl. auto with lia.
  - case_bool_decide as H1; [|case_bool_decide as H2].
    + destruct (push_old_spec st s0 s2 e P Hinv EP) as (st'&->&?&E1&E2); [by rewrite EQ|].
      simpl. rewrite E1, E2, EQ. simpl. auto with lia.
    + destruct (push_new_spec st s0 s2 f Q Hinv EQ) as (st'&->&?&E1&E2); [by rewrite EP|].
      simpl. rewrite E1, E2, EP. simpl. auto with lia.
    + assert (Hstarts : ∃ st' e' f', compose_starts st e f = Some (st', e', f') ∧
        aligned st' e' f' P Q s0 s2 ∧ old_edits st' = e :: P ∧ new_edits st' = f :: Q).
      { destruct (decide (range_start (new e) < range_start (old f))).
        - apply compose_starts_old; (done || lia).
        - apply compose_starts_new; (done || lia). }
      destruct Hstarts as (st'&e'&f'&->&Hal&EP'&EQ'). cbn [mbind option_bind].
      destruct (compose_ends_spec st' s0 s2 e' f' P Q P Q e f Hal EP' EQ') as (st2&->&?&?);
        [done..|]. by simpl.
Qed.

Lemma compose_loop_spec fuel st s0 s2 :
  loop_inv st s0 s2 → length (old_edits st) + length (new_edits st) < fuel →
  ∃ p, compose_loop fuel st = Some p ∧ patches p s0 s2.
Proof.
  revert st. induction fuel as [|fuel IH]; intros st Hinv Hf; [lia|]. cbn [compose_loop].
  pose proof (compose_step_spec st s0 s2 Hinv) as Hstep.
  destruct (compose_step st) as [[st'|]|]; [| |done]; cbn [mbind option_bind].
  - destruct Hstep as [Hinv' Hlt]. apply IH; [done|lia].
  - eauto.
Qed.

Lemma compose_spec p q s0 s1 s2 :
  patches p s0 s1 → patches q s1 s2 → ∃ pq, compose p q = Some pq ∧ patches pq s0 s2.
Proof.
  intros Hp Hq. apply compose_loop_spec; [|simpl; lia].
  exists [], [], s0, s1, s2, 0. split_and!; try done.
Qed.

(** *** [invert] *)

Lemma applies_invert io im p r r' : applies io im p r r' → applies im io (invert p) r' r.
Proof.
  revert io im r r'. induction p as [|e p IH]; intros io im r r' Hp; simpl in *; [done|].
  destruct Hp as (g&o&n&rest&rest'&->&->&Ho&Hn&Hp). exists g, n, o, rest', rest. eauto 8.
Qed.

(** *** Translating positions *)

(** The last edit that starts at or before [o]. *)
Fixpoint last_before (acc : option Edit) p (i : nat) : option Edit :=
  match p with
  | [] => acc
  | e :: p => if bool_decide (range_start (old e) ≤ i) then last_before (Some e) p i else acc
  end.

Definition increasing p : Prop :=
  StronglySorted (λ e e', range_start (old e) < range_start (old e')) p.

Lemma last_before_gt acc p i :
  Forall (λ e, i < range_start (old e)) p → last_before acc p i = acc.
Proof. destruct 1; simpl; [done|]. by rewrite bool_decide_eq_false_2 by lia. Qed.

Lemma search_start_spec k acc p i :
  increasing p →
  match search_start k p i with
  | inl ix => k ≤ ix ∧ last_before acc p i = p !! (ix - k)
  | inr ix => k ≤ ix ∧ last_before acc p i = if bool_decide (ix = k) then acc else p !! (ix - k - 1)
  end.
Proof.
  intros Hs. revert k acc. induction Hs as [|e p Hs IH Hlt]; intros k acc; simpl.
  { by rewrite bool_decide_eq_true_2. }
  destruct (Nat.compare_spec (range_start (old e)) i) as [<-|Hi|Hi].
  - rewrite Nat.sub_diag, bool_decide_eq_true_2 by done. simpl.
    split; [done|]. by apply last_before_gt.
  - rewrite (bool_decide_eq_true_2 (_ ≤ i)) by lia.
    specialize (IH (S k) (Some e)). destruct (search_start (S k) p i) as [ix|ix];
      destruct IH as [Hk ->]; (split; [lia|]).
    + by replace (ix - k) with (S (ix - S k)) by lia.
    + rewrite (bool_decide_eq_false_2 (ix = k)) by lia. case_bool_decide as E.
      * subst ix. by replace (S k - k - 1) with 0 by lia.
      * by replace (ix - k - 1) with (S (ix - S k - 1)) by lia.
  - rewrite !bool_decide_eq_false_2 by lia. rewrite bool_decide_eq_true_2 by done. done.
Qed.

(** The position an edit, or none, sends [i] to. *)
Definition sent_to (acc : option Edit) (i : nat) : nat :=
  match acc with
  | None => i
  | Some e =>
      if bool_decide (range_end (old e) ≤ i) then range_end (new e) + (i - range_end (old e))
      else range_start (new e)
  end.

Lemma edit_index_spec p i :
  increasing p →
  match edit_index p i with None => None | Some ix => p !! ix end = last_before None p i.
Proof.
  intros Hs. pose proof (search_start_spec 0 None p i Hs) as H. unfold edit_index.
  destruct (search_start 0 p i) as [ix|ix]; destruct H as [_ ->]; rewrite Nat.sub_0_r; [done|].
  by case_bool_decide.
Qed.

Lemma old_to_new_spec p i : increasing p → old_to_new p i = Some (sent_to (last_before None p i) i).
Proof.
  intros Hs. unfold old_to_new. rewrite <- (edit_index_spec p i Hs).
  destruct (edit_index p i) as [ix|]; [|done]. destruct (p !! ix) as [e|]; [|done].
  unfold sent_to. case_bool_decide; [|done]. unfold usub. by rewrite bool_decide_eq_true_2.
Qed.

Definition inside e (i : nat) : Prop := range_start (old e) ≤ i < range_end (old e).

Lemma applies_ends io im p r r' :
  applies io im p r r' → Forall (λ e, io ≤ range_start (old e) ≤ range_end (old e)) p.
Proof.
  revert io im r r'. induction p as [|e p IH]; intros io im r r' Hp; [done|].
  destruct Hp as (g&o&n&rest&rest'&->&->&Ho&Hn&Hp). constructor; [rewrite Ho; simpl; lia|].
  eapply Forall_impl; [exact (IH _ _ _ _ Hp)|]. simpl. lia.
Qed.

Lemma sent_to_text io im p r r' acc i :
  applies io im p r r' → increasing p → io ≤ i →
  (∀ j, io ≤ j → sent_to acc j = im + (j - io)) →
  let k := sent_to (last_before acc p i) i in
  im ≤ k ∧
  (∀ x, r !! (i - io) = Some x → Forall (λ e, ¬ inside e i) p → r' !! (k - im) = Some x) ∧
  (i = io + length r → k = im + length r').
Proof.
  revert io im r r' acc. induction p as [|e p IH]; intros io im r r' acc Hp Hs Hi Hacc; simpl in Hp |- *.
  - subst r'. rewrite Hacc by done. split; [lia|]. split; [|lia].
    intros x Hx _. by replace (im + (i - io) - im) with (i - io) by lia.
  - destruct Hp as (g&o&n&rest&rest'&->&->&Ho&Hn&Hp). inversion Hs as [|? ? Hs' Hlt]; subst.
    rewrite Ho. simpl. case_bool_decide as Hle.
    + assert (Hend : io + length g + length o ≤ i →
        let k := sent_to (last_before (Some e) p i) i in
        im + length g + length n ≤ k ∧
        (∀ x, rest !! (i - (io + length g + length o)) = Some x →
          Forall (λ e, ¬ inside e i) p → rest' !! (k - (im + length g + length n)) = Some x) ∧
        (i = io + length g + length o + length rest → k = im + length g + length n + length rest')).
      { intros Hi'. apply IH; [done..|]. intros j Hj. unfold sent_to. rewrite Ho, Hn. simpl.
        by rewrite bool_decide_eq_true_2. }
      destruct (decide (io + length g + length o ≤ i)) as [Hi'|Hi'].
      * destruct (Hend Hi') as (Hk&Hx&Hlast). split; [lia|]. split.
        { intros x Hlook Hin. rewrite app_assoc, lookup_app_r in Hlook |- *;
            rewrite ?length_app in *; try lia.
          apply Forall_cons in Hin as [_ Hin].
          replace (sent_to (last_before (Some e) p i) i - im - (length g + length n))
            with (sent_to (last_before (Some e) p i) i - (im + length g + length n)) by lia.
          apply Hx; [|done]. rewrite <- Hlook. f_equal. lia. }
        { intros E. rewrite !length_app in *. lia. }
      * assert (E : last_before (Some e) p i = Some e).
        { apply last_before_gt. apply applies_ends in Hp.
          eapply Forall_impl; [exact Hp|]. intros e'. simpl. lia. }
        rewrite E. simpl. rewrite Ho, Hn. simpl. rewrite bool_decide_eq_false_2 by lia.
        split; [lia|]. split; [|rewrite !length_app; lia].
        intros x _ Hin. apply Forall_cons in Hin as [Hin _]. destruct Hin. unfold inside.
        rewrite Ho. simpl. lia.
    + rewrite Hacc by done. split; [lia|]. split; [|rewrite !length_app; lia].
      intros x Hx _. rewrite lookup_app_l in Hx by lia.
      replace (im + (i - io) - im) with (i - io) by lia. by rewrite lookup_app_l by lia.
Qed.

Lemma last_before_inside io im p r r' acc e i :
  applies io im p r r' → increasing p → e ∈ p → inside e i → last_before acc p i = Some e.
Proof.
  revert io im r r' acc. induction p as [|d p IH]; intros io im r r' acc Hp Hs He Hin.
  { by apply not_elem_of_nil in He. }
  destruct Hp as (g&o&n&rest&rest'&->&->&Ho&Hn&Hp). inversion Hs as [|? ? Hs' Hlt]; subst.
  apply elem_of_cons in He as [->|He]; simpl.
  - unfold inside in Hin. rewrite bool_decide_eq_true_2 by lia. apply last_before_gt.
    apply applies_ends in Hp. rewrite Ho in Hin. simpl in Hin.
    eapply Forall_impl; [exact Hp|]. intros e'. simpl. lia.
  - rewrite bool_decide_eq_true_2; [by eapply IH|].
    eapply Forall_forall in Hlt; [|done]. unfold inside in Hin. simpl in Hlt. lia.
Qed.

(** The assertions of [Patch::new] imply that the starts increase. *)
Lemma checked_increasing io im p r r' last :
  applies io im p r r' → new_checked last p = Some () → increasing p.
Proof.
  revert io im r r' last. induction p as [|e p IH]; intros io im r r' last Hp Hch; [constructor|].
  destruct Hp as (g&o&n&rest&rest'&->&->&Ho&Hn&Hp). cbn [new_checked] in Hch.
  apply bind_Some in Hch as (u&_&Hch). constructor; [by eapply IH|].
  destruct p as [|e' p]; [constructor|]. pose proof (applies_ends _ _ _ _ _ Hp) as Hends.
  assert (range_start (old e) < range_start (old e')).
  { cbn [new_checked] in Hch. unfold assert_ in Hch. rewrite Ho in Hch |- *. simpl in *.
    repeat case_bool_decide; simpl in Hch; try done; lia. }
  assert (Hinc : increasing (e' :: p)) by by eapply IH.
  inversion Hinc as [|? ? _ Hlt]; subst. constructor; [done|].
  eapply Forall_impl; [exact Hlt|]. simpl. lia.
Qed.
End patches.

(** ** Properties *)

Section properties.
Context {A : Type}.
Implicit Types (p q : Patch) (s : list A).

(** C17: [Patch::compose] terminates without underflow, and the patch it
    returns does what applying the two patches one after the other does, for
    every way their edits may overlap, touch or nest. *)
Theorem compose_composes p q s0 s1 s2 :
  patches p s0 s1 → patches q s1 s2 → ∃ pq, compose p q = Some pq ∧ patches pq s0 s2.
Proof. apply compose_spec. Qed.

(** [Patch::push] of an edit at the end of the two texts extends the patch,
    merging it with the last edit when they touch; [invert] undoes a patch. *)
Theorem push_invert_patches p s s' o n :
  patches p s s' →
  patches (push p (edit_at (length s) (length s') (length o) (length n))) (s ++ o) (s' ++ n) ∧
  patches (invert p) s' s ∧ invert (invert p) = p.
Proof.
  intros Hp. split; [by apply applies_push|]. split; [by apply applies_invert|].
  unfold invert. rewrite map_map. clear. induction p as [|[] p IH]; simpl; by rewrite ?IH.
Qed.

(** [Patch::old_to_new], on edits that [Patch::new] accepts, sends a
    position outside the replaced ranges to the same element of the new text, a
    position inside one to the start of its replacement, and the end of the text
    to the end; it never underflows. *)
Theorem old_to_new_tracks p s s' i :
  patches p s s' → patch_new p = Some p →
  ∃ k, old_to_new p i = Some k ∧
    (∀ x, s !! i = Some x → Forall (λ e, ¬ inside e i) p → s' !! k = Some x) ∧
    (∀ e, e ∈ p → inside e i → k = range_start (new e)) ∧
    (i = length s → k = length s').
Proof.
  intros Hp Hnew. assert (Hs : increasing p).
  { unfold patch_new in Hnew. apply bind_Some in Hnew as ([]&Hch&_). by eapply checked_increasing. }
  exists (sent_to (last_before None p i) i). split; [by apply old_to_new_spec|].
  destruct (sent_to_text 0 0 p s s' None i Hp Hs) as (_&Htext&Hend); [lia|simpl; lia|].
  rewrite !Nat.sub_0_r in Htext. split; [done|]. split; [|done].
  intros e He Hin. rewrite (last_before_inside 0 0 p s s' None e i) by done.
  unfold sent_to. unfold inside in Hin. by rewrite bool_decide_eq_false_2 by lia.
Qed.
End properties.

(** ** Witnesses: "abcdef" with "cd" replaced by "XYZ", then "bX" and "f" deleted *)

Module PatchWitness.
Definition s0 : list nat := [1; 2; 3; 4; 5; 6].
Definition s1 : list nat := [1; 2; 10; 11; 12; 5; 6].
Definition s2 : list nat := [1; 11; 12; 5].
Definition p : Patch := [edit_at 2 2 2 3].
Definition q : Patch := [edit_at 1 1 2 0; edit_at 6 4 1 0].

Lemma p_patches : patches p s0 s1.
Proof. by exists [1; 2], [3; 4], [10; 11; 12], [5; 6], [5; 6]. Qed.

Lemma q_patches : patches q s1 s2.
Proof.
  exists [1], [2; 10], [], [11; 12; 5; 6], [11; 12; 5]. split_and!; try done.
  by exists [11; 12; 5], [6], [], [], [].
Qed.
End PatchWitness.

Lemma compose_composes_witness :
  ∃ pq, compose PatchWitness.p PatchWitness.q = Some pq ∧ patches pq PatchWitness.s0 PatchWitness.s2.
Proof. apply (compose_composes _ _ _ _ _ PatchWitness.p_patches PatchWitness.q_patches). Defined.

Lemma push_invert_patches_witness : patches (invert PatchWitness.p) PatchWitness.s1 PatchWitness.s0.
Proof. apply (push_invert_patches PatchWitness.p _ _ [] [] PatchWitness.p_patches). Defined.

Lemma old_to_new_tracks_witness : ∃ k, old_to_new PatchWitness.p 4 = Some k ∧ PatchWitness.s1 !! k = Some 5.
Proof.
  destruct (old_to_new_tracks PatchWitness.p _ _ 4 PatchWitness.p_patches) as (k&Hk&Hx&_);
    [reflexivity|].
  exists k. split; [exact Hk|]. apply Hx; [reflexivity|]. apply Forall_singleton.
  intros [_ Hlt]. simpl in Hlt. lia.
Defined.
