(* ===== verification/Subscription.v ===== *)
(** Edit subscriptions: [crates/text/src/subscription.rs].

    A topic holds weak references to the patches of its subscriptions.  The
    shared patches are a store from addresses to values: an address is live
    while its [Subscription] is ([Weak::upgrade] is the lookup).  The mutexes
    serialise the operations, so a run is a sequence of steps; the theorem is
    that a consumed patch always leads from the text at the previous
    [consume] (or at [subscribe]) to the current text. *)

From stdpp Require Import base numbers option list gmap.
From S2P Require Import Prelude Patch PatchFacts.

(** The topic's weak references, and the store. *)
Record Topic := mkTopic {
  subscriptions : list nat;
  patch_store : gmap nat Patch
}.

Definition topic_default : Topic := mkTopic [] ∅.

(** [Topic::subscribe]: a new patch, at a fresh address. *)
Definition subscribe (self : Topic) : Topic * nat :=
  let subscription := fresh (dom (patch_store self) ∪ list_to_set (subscriptions self)) in
  (mkTopic (subscriptions self ++ [subscription]) (<[subscription := empty]> (patch_store self)),
   subscription).

(** The closure of [subscriptions.retain]: whether to keep the reference. *)
Definition publish_one (edits : list Edit) (store : gmap nat Patch) (subscription : nat)
    : option (gmap nat Patch * bool) :=
  match store !! subscription with
  | Some patch => patch ← compose patch edits; Some (<[subscription := patch]> store, true)
  | None => Some (store, false)
  end.

Fixpoint publish_all (edits : list Edit) (subs : list nat) (store : gmap nat Patch)
    : option (list nat * gmap nat Patch) :=
  match subs with
  | [] => Some ([], store)
  | subscription :: subs =>
      '(store, keep) ← publish_one edits store subscription;
      '(subs, store) ← publish_all edits subs store;
      Some (if keep : bool then subscription :: subs else subs, store)
  end.

(** [Topic::publish] and [publish_mut]. *)
Definition publish (self : Topic) (edits : list Edit) : option Topic :=
  '(subs, store) ← publish_all edits (subscriptions self) (patch_store self);
  Some (mkTopic subs store).

(** [Subscription::consume]: [mem::take] of the patch. *)
Definition consume (self : Topic) (subscription : nat) : option (Topic * Patch) :=
  patch ← patch_store self !! subscription;
  Some (mkTopic (subscriptions self) (<[subscription := empty]> (patch_store self)), patch).

(** The last reference to a subscription goes out of scope. *)
Definition drop_subscription (self : Topic) (subscription : nat) : Topic :=
  mkTopic (subscriptions self) (delete subscription (patch_store self)).

(** ** Runs *)

Section runs.
Context {A : Type}.

(** The topic, the current text and the text each subscription last saw. *)
Record World := mkWorld {
  topic : Topic;
  text : list A;
  seen : gmap nat (list A)
}.

Inductive step : World → World → Prop :=
  | step_subscribe w topic' id :
      subscribe (topic w) = (topic', id) →
      step w (mkWorld topic' (text w) (<[id := text w]> (seen w)))
  | step_publish w edits text' topic' :
      patches edits (text w) text' → publish (topic w) edits = Some topic' →
      step w (mkWorld topic' text' (seen w))
  | step_consume w id topic' patch :
      consume (topic w) id = Some (topic', patch) →
      step w (mkWorld topic' (text w) (<[id := text w]> (seen w)))
  | step_drop w id :
      step w (mkWorld (drop_subscription (topic w) id) (text w) (delete id (seen w))).

Definition initial (s : list A) : World := mkWorld topic_default s ∅.

(** Every live subscription is referenced, once, and its patch leads from the
    text it last saw to the current one. *)
Definition tracks (w : World) : Prop :=
  NoDup (subscriptions (topic w)) ∧
  ∀ id patch, patch_store (topic w) !! id = Some patch →
    id ∈ subscriptions (topic w) ∧ ∃ s, seen w !! id = Some s ∧ patches patch s (text w).

Lemma publish_all_spec edits subs store :
  NoDup subs →
  (∀ id patch, id ∈ subs → store !! id = Some patch → ∃ patch', compose patch edits = Some patch') →
  ∃ subs' store', publish_all edits subs store = Some (subs', store') ∧ sublist subs' subs ∧
    (∀ id, id ∈ subs' ↔ id ∈ subs ∧ is_Some (store !! id)) ∧
    ∀ id, store' !! id = if decide (id ∈ subs) then store !! id ≫= (λ patch, compose patch edits)
                         else store !! id.
Proof.
  intros Hnd. revert store. induction Hnd as [|i subs Hi Hnd IH]; intros store Hc.
  { exists [], store. split; [done|]. split; [done|]. split; intros id.
    - split; [by intros ?%not_elem_of_nil|by intros [?%not_elem_of_nil _]].
    - rewrite decide_False; [done|apply not_elem_of_nil]. }
  simpl. unfold publish_one. destruct (store !! i) as [patch|] eqn:E.
  - destruct (Hc i patch) as [patch' Hp]; [by left|done|]. rewrite Hp. simpl.
    destruct (IH (<[i:=patch']> store)) as (subs'&store'&->&Hsub&Hin&Hst).
    { intros id p Hid. rewrite lookup_insert_ne by (by intros ->). apply Hc. by right. }
    simpl. exists (i :: subs'), store'. split; [done|]. split; [by apply sublist_skip|]. split.
    + intros id. rewrite !elem_of_cons, Hin. destruct (decide (id = i)) as [->|Hne].
      * rewrite E. naive_solver.
      * rewrite lookup_insert_ne by done. naive_solver.
    + intros id. rewrite Hst. destruct (decide (id = i)) as [->|Hne].
      * rewrite decide_False by done. rewrite decide_True by by left.
        by rewrite lookup_insert_eq, E.
      * rewrite lookup_insert_ne by done. destruct (decide (id ∈ subs)).
        -- by rewrite decide_True by by right.
        -- by rewrite decide_False by (intros [->|?]%elem_of_cons; done).
  - simpl. destruct (IH store) as (subs'&store'&->&Hsub&Hin&Hst).
    { intros id p Hid. apply Hc. by right. }
    simpl. exists subs', store'. split; [done|]. split; [by apply sublist_cons|]. split.
    + intros id. rewrite elem_of_cons, Hin. split; [naive_solver|].
      intros [[->|?] [? Hs]]; [congruence|eauto].
    + intros id. rewrite Hst. destruct (decide (id = i)) as [->|Hne].
      * rewrite decide_False by done. by rewrite decide_True, E by by left.
      * destruct (decide (id ∈ subs)).
        -- by rewrite decide_True by by right.
        -- by rewrite decide_False by (intros [->|?]%elem_of_cons; done).
Qed.

Lemma publish_spec w edits text' :
  tracks w → patches edits (text w) text' →
  ∃ topic', publish (topic w) edits = Some topic' ∧ tracks (mkWorld topic' text' (seen w)) ∧
    ∀ id, id ∈ subscriptions topic' ↔
      id ∈ subscriptions (topic w) ∧ is_Some (patch_store (topic w) !! id).
Proof.
  intros [Hnd Ht] Hed.
  destruct (publish_all_spec edits (subscriptions (topic w)) (patch_store (topic w)) Hnd)
    as (subs'&store'&Hpub&Hsub&Hin&Hst).
  { intros id patch _ Hid. destruct (Ht id patch Hid) as (_&s&_&Hp).
    destruct (compose_spec patch edits s (text w) text') as (p'&?&_); eauto. }
  exists (mkTopic subs' store'). unfold publish. rewrite Hpub. split; [done|].
  split; [|exact Hin]. split; [by eapply sublist_NoDup|]. simpl.
  intros id patch Hid. rewrite Hst in Hid. destruct (decide (id ∈ subscriptions (topic w))) as [Hel|Hel].
  - apply bind_Some in Hid as (p0&Hid&Hcomp). destruct (Ht id p0 Hid) as (_&s&Hs&Hp).
    split; [apply Hin; split; [done|by eexists]|]. exists s. split; [done|].
    destruct (compose_spec p0 edits s (text w) text' Hp Hed) as (p'&Hc&Hp'). congruence.
  - by destruct (Ht id patch Hid) as [? _].
Qed.

Lemma tracks_subscribe w topic' id :
  tracks w → subscribe (topic w) = (topic', id) →
  tracks (mkWorld topic' (text w) (<[id := text w]> (seen w))).
Proof.
  intros [Hnd Ht] [= <- <-]. set (i := fresh _).
  pose proof (is_fresh (dom (patch_store (topic w)) ∪ list_to_set (subscriptions (topic w)) : gset nat))
    as Hf. fold i in Hf. rewrite not_elem_of_union, elem_of_list_to_set in Hf. destruct Hf as [Hd Hl].
  split; simpl.
  - apply NoDup_app. split_and!; [done| |apply NoDup_singleton].
    intros j Hj ->%list_elem_of_singleton. done.
  - intros j patch Hj. destruct (decide (j = i)) as [->|Hne].
    + rewrite lookup_insert_eq in Hj. simplify_eq. split; [apply elem_of_app; right; by left|].
      exists (text w). split; [apply lookup_insert_eq|done].
    + rewrite lookup_insert_ne in Hj by done. destruct (Ht j patch Hj) as (?&s&?&?).
      split; [apply elem_of_app; by left|]. exists s. by rewrite lookup_insert_ne.
Qed.

Lemma tracks_consume w id topic' patch :
  tracks w → consume (topic w) id = Some (topic', patch) →
  (∃ s, seen w !! id = Some s ∧ patches patch s (text w)) ∧
  tracks (mkWorld topic' (text w) (<[id := text w]> (seen w))).
Proof.
  intros [Hnd Ht] Hc. unfold consume in Hc. apply bind_Some in Hc as (p&Hid&[= <- <-]).
  destruct (Ht id p Hid) as (Hin&s&Hs&Hp). split; [eauto|]. split; [done|]. simpl.
  intros j q Hj. destruct (decide (j = id)) as [->|Hne].
  - rewrite lookup_insert_eq in Hj. simplify_eq. split; [done|]. exists (text w).
    split; [apply lookup_insert_eq|done].
  - rewrite lookup_insert_ne in Hj by done. rewrite lookup_insert_ne by done. by apply Ht.
Qed.

Lemma tracks_step w w' : tracks w → step w w' → tracks w'.
Proof.
  intros Ht Hstep. destruct Hstep as [w topic' id Hs|w edits text' topic' Hed Hp|w id topic' patch Hc|w id].
  - by apply tracks_subscribe.
  - destruct (publish_spec w edits text' Ht Hed) as (t&Hp'&?&_). congruence.
  - by eapply tracks_consume.
  - destruct Ht as [Hnd Ht]. split; [done|]. simpl. intros j q Hj.
    apply lookup_delete_Some in Hj as [Hne Hj]. rewrite lookup_delete_ne by done. by apply Ht.
Qed.

Lemma tracks_reachable s w : rtc step (initial s) w → tracks w.
Proof.
  intros Hr. remember (initial s) as w0 eqn:E.
  assert (Ht : tracks w0).
  { subst. split; [constructor|]. intros id patch Hid. simpl in Hid. by rewrite lookup_empty in Hid. }
  clear E. induction Hr; eauto using tracks_step.
Qed.
End runs.
Arguments World : clear implicits.

(** C31: in every run of subscriptions, published edits, consumptions and drops,
    [consume] of a live subscription returns a patch from the text at its last
    [consume] (or its creation) to the current text: no published edit is lost
    or applied twice. *)
Theorem consume_catches_up {A} (s : list A) (w : World A) id topic' patch :
  rtc step (initial s) w → consume (topic w) id = Some (topic', patch) →
  ∃ s0, seen w !! id = Some s0 ∧ patches patch s0 (text w).
Proof. intros Hr Hc. apply tracks_reachable in Hr. by eapply tracks_consume. Qed.

(** [publish] of edits of the current text never panics, on any reachable
    topic, and drops exactly the references whose subscription is gone. *)
Theorem publish_total {A} (s : list A) (w : World A) edits text' :
  rtc step (initial s) w → patches edits (text w) text' →
  ∃ topic', publish (topic w) edits = Some topic' ∧
    ∀ id, id ∈ subscriptions topic' ↔
      id ∈ subscriptions (topic w) ∧ is_Some (patch_store (topic w) !! id).
Proof.
  intros Hr Hed. apply tracks_reachable in Hr.
  destruct (publish_spec w edits text' Hr Hed) as (t&?&_&?). eauto.
Qed.

(** ** Witnesses *)

Module SubscriptionWitness.
Definition id0 : nat := (subscribe topic_default).2.
Definition w1 : World nat :=
  mkWorld (subscribe topic_default).1 PatchWitness.s0 (<[id0 := PatchWitness.s0]> ∅).

Lemma w1_reachable : rtc step (initial PatchWitness.s0) w1.
Proof. eapply rtc_l; [|constructor]. by apply (step_subscribe (initial PatchWitness.s0)). Qed.
End SubscriptionWitness.
Import SubscriptionWitness.

Lemma publish_total_witness : ∃ t, publish (topic w1) PatchWitness.p = Some t.
Proof.
  destruct (publish_total PatchWitness.s0 w1 PatchWitness.p PatchWitness.s1 w1_reachable
    PatchWitness.p_patches) as (t&Ht&_). by exists t.
Defined.

Lemma consume_catches_up_witness :
  ∃ s0, seen w1 !! id0 = Some s0 ∧ patches [] s0 PatchWitness.s0.
Proof.
  destruct (consume (topic w1) id0) as [[t p]|] eqn:E; [|discriminate E].
  destruct (consume_catches_up PatchWitness.s0 w1 id0 t p w1_reachable E) as (s0&Hs&Hp).
  exists s0. split; [exact Hs|]. injection E as _ <-. exact Hp.
Defined.
