(* ===== verification/VecMap.v ===== *)
(** The vector-backed map: [crates/collections/src/vecmap.rs].

    An [Entry] borrows the map mutably: it is modelled with the map it borrows,
    and the [&mut V] an operation returns is the map afterwards and the index of
    the value ([write_through] assigns through it).  [EntryRef] differs in
    taking its key by reference and cloning it on insertion. *)

From stdpp Require Import base numbers option list.
From S2P Require Import Prelude.

Record VecMap (K V : Type) := mkVecMap { keys : list K; values : list V }.
Arguments mkVecMap {K V} _ _.
Arguments keys {K V} _.
Arguments values {K V} _.

Section vec_map.
Context {K V : Type} `{EqDecision K}.
Implicit Types (self : VecMap K V) (k : K) (v : V).

Definition vec_new : VecMap K V := mkVecMap [] [].

(** [iter]: the zip of the two vectors. *)
Definition vec_iter self : list (K * V) := zip (keys self) (values self).

Inductive Entry :=
  | Occupied (map : VecMap K V) (index : nat)
  | Vacant (map : VecMap K V) (key : K).

(** [keys.iter().position(|k| k == &key)]. *)
Fixpoint position (key : K) (ks : list K) : option nat :=
  match ks with
  | [] => None
  | k :: ks => if decide (k = key) then Some 0 else S <$> position key ks
  end.

(** Indexing the two vectors panics out of range. *)
Definition entry self (key : K) : option Entry :=
  match position key (keys self) with
  | Some index =>
      _ ← keys self !! index; _ ← values self !! index; Some (Occupied self index)
  | None => Some (Vacant self key)
  end.

Definition entry_key (e : Entry) : option K :=
  match e with
  | Occupied map index => keys map !! index
  | Vacant _ key => Some key
  end.

(** [or_insert_with_key]: the map and the index of the value returned.  The
    default is computed before either vector changes. *)
Definition or_insert_with_key (e : Entry) (default : K → V) : VecMap K V * nat :=
  match e with
  | Occupied map index => (map, index)
  | Vacant map key =>
      let vs := values map ++ [default key] in
      (mkVecMap (keys map ++ [key]) vs, length vs - 1)
  end.

Definition or_insert_with (e : Entry) (default : () → V) : VecMap K V * nat :=
  or_insert_with_key e (λ _, default ()).
Definition or_insert (e : Entry) v : VecMap K V * nat := or_insert_with_key e (λ _, v).
Definition or_insert_default `{Inhabited V} (e : Entry) : VecMap K V * nat :=
  or_insert_with_key e (λ _, inhabitant).

(** [entry_ref], whose key is a reference. *)
Definition entry_ref self (key : K) : option Entry :=
  match position key (keys self) with
  | Some index =>
      _ ← keys self !! index; _ ← values self !! index; Some (Occupied self index)
  | None => Some (Vacant self key)
  end.

(** Assigning through the returned [&mut V]. *)
Definition write_through (r : VecMap K V * nat) v : VecMap K V :=
  mkVecMap (keys r.1) (<[r.2 := v]> (values r.1)).

(** *** Facts *)

Definition vec_inv self : Prop := length (keys self) = length (values self) ∧ NoDup (keys self).

Definition vec_lookup self k : option V := index ← position k (keys self); values self !! index.

Lemma position_Some k ks i : position k ks = Some i → ks !! i = Some k.
Proof.
  revert i. induction ks as [|x ks IH]; intros i; simpl; [done|].
  destruct (decide (x = k)) as [->|]; [by intros [= <-]|].
  intros (j&Hj&->)%fmap_Some. by apply IH.
Qed.

Lemma position_None k ks : position k ks = None ↔ k ∉ ks.
Proof.
  induction ks as [|x ks IH]; simpl; [split; [by intros _ ?%not_elem_of_nil|done]|].
  rewrite not_elem_of_cons. destruct (decide (x = k)) as [->|]; [naive_solver|].
  rewrite fmap_None, IH. naive_solver.
Qed.

Lemma position_lookup ks i k : NoDup ks → ks !! i = Some k → position k ks = Some i.
Proof.
  intros Hnd Hi. destruct (position k ks) as [j|] eqn:E.
  - f_equal. eapply NoDup_lookup; [done| |done]. by apply position_Some.
  - apply position_None in E. destruct E. by eapply list_elem_of_lookup_2.
Qed.

Lemma position_app k ks ks' :
  position k (ks ++ ks') =
  match position k ks with
  | Some i => Some i
  | None => (λ i, length ks + i) <$> position k ks'
  end.
Proof.
  induction ks as [|x ks IH]; simpl; [by destruct (position k ks')|].
  case_decide; [done|]. rewrite IH. destruct (position k ks); [done|].
  by destruct (position k ks').
Qed.

Lemma entry_spec self k :
  vec_inv self →
  entry self k = Some match position k (keys self) with
                      | Some i => Occupied self i
                      | None => Vacant self k
                      end.
Proof.
  intros [Hl _]. unfold entry. destruct (position k (keys self)) as [i|] eqn:E; [|done].
  apply position_Some in E. rewrite E. simpl. apply lookup_lt_Some in E. rewrite Hl in E.
  by destruct (lookup_lt_is_Some_2 _ _ E) as [v ->].
Qed.

(** [entry] followed by [or_insert_with_key] never panics and returns a
    reference to the value of the key: the old one if the key was there, when
    the map and its order are unchanged, and otherwise the default, appended
    last; assigning through it changes the value of that key only. *)
Theorem entry_or_insert self k (default : K → V) :
  vec_inv self →
  ∃ e map index, entry self k = Some e ∧ entry_key e = Some k ∧
    or_insert_with_key e default = (map, index) ∧ vec_inv map ∧
    (∀ v, vec_lookup self k = Some v → map = self ∧ values map !! index = Some v) ∧
    (vec_lookup self k = None → vec_iter map = vec_iter self ++ [(k, default k)] ∧
      values map !! index = Some (default k)) ∧
    ∀ v k', vec_lookup (write_through (map, index) v) k' =
      if decide (k' = k) then Some v else vec_lookup self k'.
Proof.
  intros Hinv. pose proof Hinv as [Hl Hnd]. rewrite entry_spec by done. unfold vec_lookup.
  destruct (position k (keys self)) as [i|] eqn:E.
  - pose proof (position_Some _ _ _ E) as Hi. eexists _, self, i.
    split; [done|]. split; [done|]. split; [done|]. split; [done|]. simpl.
    assert (Hlt : i < length (values self)) by (rewrite <- Hl; by eapply lookup_lt_Some).
    split; [by intros v ->|]. split.
    { destruct (lookup_lt_is_Some_2 _ _ Hlt) as [v ->]. done. }
    intros v k'. case_decide as Hk; [subst; rewrite E; simpl; by apply list_lookup_insert_eq|].
    destruct (position k' (keys self)) as [j|] eqn:Ej; simpl; [|done].
    apply list_lookup_insert_ne. intros <-. apply position_Some in Ej. congruence.
  - apply position_None in E as Hk. eexists _, _, _. split; [done|]. split; [done|]. split; [done|].
    simpl. split.
    { split; simpl; [rewrite !length_app; simpl; lia|]. apply NoDup_app.
      split_and!; [done| |apply NoDup_singleton]. by intros x Hx ->%list_elem_of_singleton. }
    split; [done|]. rewrite length_app. simpl. rewrite Nat.add_sub. split.
    { intros _. unfold vec_iter. simpl. rewrite zip_with_app by done.
      split; [done|]. by rewrite lookup_app_r, Nat.sub_diag by done. }
    intros v k'. rewrite position_app. case_decide as Hk'.
    + subst k'. rewrite E. simpl. rewrite decide_True by done. simpl.
      rewrite Nat.add_0_r, Hl. apply list_lookup_insert_eq. rewrite length_app. simpl. lia.
    + destruct (position k' (keys self)) as [j|] eqn:Ej; simpl.
      * apply position_Some, lookup_lt_Some in Ej. rewrite list_lookup_insert_ne by lia.
        by rewrite lookup_app_l by lia.
      * by rewrite decide_False by done.
Qed.

(** [iter] lists every key once, in the order of insertion, with the value
    the map holds for it. *)
Theorem vec_iter_entries self :
  vec_inv self →
  NoDup (vec_iter self).*1 ∧ ∀ k v, (k, v) ∈ vec_iter self ↔ vec_lookup self k = Some v.
Proof.
  intros [Hl Hnd]. unfold vec_iter. split; [by rewrite fst_zip by lia|].
  intros k v. unfold vec_lookup. rewrite list_elem_of_lookup. split.
  - intros (i&Hi). apply lookup_zip_with_Some in Hi as (x&y&[= <- <-]&Hx&Hy).
    by rewrite (position_lookup _ i) by done.
  - intros (i&Hi&Hv)%bind_Some. exists i. apply lookup_zip_with_Some.
    exists k, v. split; [done|]. split; [by apply position_Some|done].
Qed.
End vec_map.
Arguments Entry : clear implicits.

Module VecWitness.
Definition sample : VecMap nat nat := mkVecMap [3; 1] [30; 10].
Lemma vec_sample_inv : vec_inv sample.
Proof.
  split; [done|]. apply NoDup_cons. split; [|apply NoDup_singleton].
  by intros ?%list_elem_of_singleton.
Qed.
End VecWitness.

Lemma entry_or_insert_witness :
  ∃ e map index, entry VecWitness.sample 7 = Some e ∧ or_insert_with_key e (λ k, k * 10) = (map, index) ∧
    vec_iter map = [(3, 30); (1, 10); (7, 70)].
Proof.
  destruct (entry_or_insert VecWitness.sample 7 (λ k, k * 10) VecWitness.vec_sample_inv)
    as (e&m&i&He&_&Ho&_&_&Hn&_).
  exists e, m, i. split; [exact He|]. split; [exact Ho|]. by destruct (Hn eq_refl) as [-> _].
Defined.

Lemma vec_iter_entries_witness : vec_lookup VecWitness.sample 1 = Some 10.
Proof.
  apply (vec_iter_entries VecWitness.sample VecWitness.vec_sample_inv). apply list_elem_of_lookup.
  by exists 1.
Defined.
