(* ===== verification/Utf8.v ===== *)
(** Strings: a [char] is a Unicode scalar value and a [str] the list of the
    bytes of its UTF-8 encoding.  The functions of Rust's standard library on
    them that the rope calls. *)

From stdpp Require Import base numbers option list.
From Stdlib Require Import ZArith Lia.
From S2P Require Import Prelude.

#[local] Open Scope Z_scope.

(** ** Characters *)

Definition char_ok (c : Z) : Prop := 0 ≤ c < 0xD800 ∨ 0xE000 ≤ c < 0x110000.

Definition len_utf8 (c : Z) : nat :=
  if c <? 0x80 then 1 else if c <? 0x800 then 2 else if c <? 0x10000 then 3 else 4.

Definition len_utf16 (c : Z) : nat := if c <? 0x10000 then 1 else 2.

Definition encode_utf8 (c : Z) : list Z :=
  let tail n := Z.lor 0x80 (Z.land (Z.shiftr c n) 0x3F) in
  if c <? 0x80 then [c]
  else if c <? 0x800 then [Z.lor 0xC0 (Z.shiftr c 6); tail 0]
  else if c <? 0x10000 then [Z.lor 0xE0 (Z.shiftr c 12); tail 6; tail 0]
  else [Z.lor 0xF0 (Z.shiftr c 18); tail 12; tail 6; tail 0].

(** [is_utf8_char_boundary] of [gpui_util]: [b as i8 >= -0x40]. *)
Definition as_i8 (b : Z) : Z := if b <? 128 then b else b - 256.
Definition is_utf8_char_boundary (b : Z) : bool := as_i8 b >=? -0x40.

Definition NEWLINE : Z := 10.
Definition TAB : Z := 9.

(** ** Strings *)

Definition bytes_of (cs : list Z) : list Z := flat_map encode_utf8 cs.

Definition str_ok (s : list Z) : Prop := ∃ cs, Forall char_ok cs ∧ s = bytes_of cs.

(** [str::is_char_boundary], [floor_char_boundary] and [ceil_char_boundary]. *)
Definition is_char_boundary (s : list Z) (index : nat) : bool :=
  bool_decide (index = length s)%nat ||
  match s !! index with Some b => is_utf8_char_boundary b | None => false end.

Fixpoint floor_char_boundary_loop (s : list Z) (i : nat) : nat :=
  match i with
  | O => O
  | S i' => if is_char_boundary s i then i else floor_char_boundary_loop s i'
  end.
Definition floor_char_boundary (s : list Z) (index : nat) : nat :=
  if bool_decide (length s ≤ index)%nat then length s else floor_char_boundary_loop s index.

Fixpoint ceil_char_boundary_loop (fuel : nat) (s : list Z) (i : nat) : nat :=
  if is_char_boundary s i then i
  else match fuel with O => i | S fuel => ceil_char_boundary_loop fuel s (S i) end.
Definition ceil_char_boundary (s : list Z) (index : nat) : nat :=
  if bool_decide (length s ≤ index)%nat then length s else ceil_char_boundary_loop (length s) s index.

(** [str::split_at] panics off a character boundary. *)
Definition split_at (s : list Z) (mid : nat) : option (list Z * list Z) :=
  if is_char_boundary s mid then Some (take mid s, drop mid s) else None.

(** [&s[start..end]]. *)
Definition str_slice (s : list Z) (start end_ : nat) : option (list Z) :=
  if bool_decide (start ≤ end_)%nat && is_char_boundary s start && is_char_boundary s end_
  then Some (take (end_ - start) (drop start s)) else None.

(** ** What the encoding looks like *)

(** The first byte of a character, and the others. *)
Definition is_lead (c b : Z) : Prop :=
  is_utf8_char_boundary b = true ∧ 0 ≤ b < 256 ∧ (240 ≤ b ↔ 0x10000 ≤ c) ∧
  (b = NEWLINE ↔ c = NEWLINE) ∧ (b = TAB ↔ c = TAB) ∧ (b < 128 ↔ c < 128).
Definition is_tail (b : Z) : Prop := 128 ≤ b < 192.

Lemma lor_bits w hi lo :
  0 ≤ w → 0 ≤ lo < 2 ^ w → Z.lor (hi * 2 ^ w) lo = hi * 2 ^ w + lo.
Proof. intros Hw Hlo. by apply lor_pack. Qed.

Lemma tail_ok c n : 0 ≤ c → 0 ≤ n → is_tail (Z.lor 0x80 (Z.land (Z.shiftr c n) 0x3F)).
Proof.
  intros Hc Hn. change 0x80 with (2 * 2 ^ 6). change 0x3F with (Z.ones 6).
  rewrite Z.land_ones by lia. pose proof (Z.mod_pos_bound (Z.shiftr c n) (2 ^ 6) ltac:(lia)).
  rewrite lor_bits by lia. unfold is_tail. lia.
Qed.

Lemma shiftr_range c n lo hi : 0 ≤ n → lo * 2 ^ n ≤ c < hi * 2 ^ n → lo ≤ Z.shiftr c n < hi.
Proof.
  intros Hn Hc. rewrite Z.shiftr_div_pow2 by done. split.
  - apply Z.div_le_lower_bound; lia.
  - apply Z.div_lt_upper_bound; lia.
Qed.

Lemma boundary_iff b : 0 ≤ b < 256 → is_utf8_char_boundary b = true ↔ b < 128 ∨ 192 ≤ b.
Proof.
  intros Hb. unfold is_utf8_char_boundary, as_i8. rewrite Z.geb_le. destruct (Z.ltb_spec b 128); lia.
Qed.

Lemma lead_ok c b : 0 ≤ b < 256 → (b < 128 ∨ 192 ≤ b) → (240 ≤ b ↔ 0x10000 ≤ c) →
  (128 ≤ c → 128 ≤ b) → (c < 128 → b = c) → is_lead c b.
Proof.
  intros Hb Hl H4 Hbig Hsmall. unfold is_lead, NEWLINE, TAB. rewrite boundary_iff by done.
  destruct (decide (c < 128)) as [Hc|Hc]; [rewrite (Hsmall Hc) in *; lia|].
  specialize (Hbig ltac:(lia)). lia.
Qed.

Lemma encode_shape c :
  char_ok c → ∃ b bs, encode_utf8 c = b :: bs ∧ is_lead c b ∧ Forall is_tail bs ∧
    length (encode_utf8 c) = len_utf8 c.
Proof.
  intros Hc. assert (H0 : 0 ≤ c < 0x110000) by (unfold char_ok in Hc; lia).
  assert (Ht : ∀ n, 0 ≤ n → is_tail (Z.lor 0x80 (Z.land (Z.shiftr c n) 0x3F))) by (intros; apply tail_ok; lia).
  unfold encode_utf8, len_utf8. destruct (Z.ltb_spec c 0x80) as [H1|H1]; [|destruct (Z.ltb_spec c 0x800) as [H2|H2];
    [|destruct (Z.ltb_spec c 0x10000) as [H3|H3]]].
  - exists c, []. split_and!; [done| |constructor|done]. apply lead_ok; lia.
  - eexists _, _. split_and!; [done| |repeat constructor; apply Ht; lia|done].
    pose proof (shiftr_range c 6 2 32 ltac:(lia) ltac:(lia)).
    change 0xC0 with (6 * 2 ^ 5). rewrite lor_bits by lia. apply lead_ok; lia.
  - eexists _, _. split_and!; [done| |repeat constructor; apply Ht; lia|done].
    pose proof (shiftr_range c 12 0 16 ltac:(lia) ltac:(lia)).
    change 0xE0 with (14 * 2 ^ 4). rewrite lor_bits by lia. apply lead_ok; lia.
  - eexists _, _. split_and!; [done| |repeat constructor; apply Ht; lia|done].
    pose proof (shiftr_range c 18 0 5 ltac:(lia) ltac:(lia)).
    change 0xF0 with (30 * 2 ^ 3). rewrite lor_bits by lia. apply lead_ok; lia.
Qed.

(** ** Strings and their boundaries *)

Lemma bytes_of_app a b : bytes_of (a ++ b) = bytes_of a ++ bytes_of b.
Proof. apply flat_map_app. Qed.

Lemma str_ok_nil : str_ok [].
Proof. by exists []. Qed.

Lemma str_ok_app a b : str_ok a → str_ok b → str_ok (a ++ b).
Proof.
  intros (cs&Hcs&->) (cs'&Hcs'&->). exists (cs ++ cs').
  by rewrite Forall_app, bytes_of_app.
Qed.

Lemma str_ok_concat l : Forall str_ok l → str_ok (concat l).
Proof. induction 1; [apply str_ok_nil|by apply str_ok_app]. Qed.

Lemma tail_not_boundary b : is_tail b → is_utf8_char_boundary b = false.
Proof.
  unfold is_tail. intros Hb. apply not_true_iff_false. rewrite boundary_iff by lia. lia.
Qed.

Lemma length_encode c : char_ok c → (1 ≤ length (encode_utf8 c) ≤ 4)%nat.
Proof.
  intros (b&bs&_&_&_&->)%encode_shape. unfold len_utf8. repeat case_match; lia.
Qed.

(** Inside a string, the boundaries are the ends of its prefixes of
    characters. *)
Lemma boundary_split cs o :
  Forall char_ok cs →
  is_char_boundary (bytes_of cs) o = true ↔
  ∃ cs1 cs2, cs = cs1 ++ cs2 ∧ o = length (bytes_of cs1).
Proof.
  intros Hcs. split.
  - revert o. induction Hcs as [|c cs Hc Hcs IH]; intros o Ho.
    { exists [], []. split; [done|]. unfold is_char_boundary in Ho. simpl in Ho.
      rewrite orb_false_r in Ho. by apply bool_decide_eq_true in Ho. }
    destruct (decide (o = 0)%nat) as [->|Hne]; [by exists [], (c :: cs)|].
    destruct (encode_shape c Hc) as (b&bs&E&_&Hbs&_).
    destruct (decide (o < length (encode_utf8 c))%nat) as [Hlt|Hge].
    + exfalso. unfold is_char_boundary in Ho. simpl in Ho. rewrite length_app in Ho.
      rewrite bool_decide_eq_false_2 in Ho by lia. simpl in Ho. rewrite lookup_app_l, E in Ho by done.
      rewrite E in Hlt. simpl in Hlt. destruct o as [|o]; [done|]. simpl in Ho.
      destruct (bs !! o) as [b'|] eqn:Eb; [|done]. rewrite Forall_lookup in Hbs.
      by rewrite (tail_not_boundary b' (Hbs _ _ Eb)) in Ho.
    + destruct (IH (o - length (encode_utf8 c))%nat) as (cs1&cs2&->&Eo).
      { unfold is_char_boundary in Ho |- *. simpl in Ho. rewrite length_app, lookup_app_r in Ho by lia.
        rewrite <- Ho. f_equal. apply bool_decide_ext. lia. }
      exists (c :: cs1), cs2. split; [done|]. simpl. rewrite length_app. lia.
  - intros (cs1&cs2&->&->). unfold is_char_boundary. rewrite bytes_of_app, length_app.
    rewrite lookup_app_r, Nat.sub_diag by lia. apply Forall_app in Hcs as [_ Hcs].
    destruct Hcs as [|c cs2 Hc _]; [by rewrite bool_decide_eq_true_2 by (simpl; lia)|].
    destruct (encode_shape c Hc) as (b&bs&E&(Hb&_)&_). simpl. rewrite E. simpl. by rewrite Hb, orb_true_r.
Qed.

Lemma str_ok_boundary s o :
  str_ok s → is_char_boundary s o = true → str_ok (take o s) ∧ str_ok (drop o s) ∧ (o ≤ length s)%nat.
Proof.
  intros (cs&Hcs&->) (cs1&cs2&->&->)%boundary_split; [|done]. apply Forall_app in Hcs as [H1 H2].
  rewrite bytes_of_app, take_app_length, drop_app_length, length_app.
  split; [by exists cs1|]. split; [by exists cs2|lia].
Qed.

Lemma boundary_0 s : str_ok s → is_char_boundary s 0 = true.
Proof. intros (cs&Hcs&->). apply boundary_split; [done|]. by exists [], cs. Qed.

Lemma boundary_length s : is_char_boundary s (length s) = true.
Proof. unfold is_char_boundary. by rewrite bool_decide_eq_true_2. Qed.

(** Boundaries of a concatenation. *)
Lemma boundary_app_r a b o :
  is_char_boundary (a ++ b) (length a + o) = is_char_boundary b o.
Proof.
  unfold is_char_boundary. rewrite length_app, lookup_app_r by lia.
  replace (length a + o - length a)%nat with o by lia. f_equal. apply bool_decide_ext. lia.
Qed.

Lemma boundary_app_l a b o :
  str_ok a → str_ok b → (o ≤ length a)%nat → is_char_boundary (a ++ b) o = is_char_boundary a o.
Proof.
  intros Ha Hb Ho. destruct (decide (o = length a)) as [->|Hne].
  - rewrite boundary_length. rewrite <- (boundary_0 b Hb), <- (boundary_app_r a b). by rewrite Nat.add_0_r.
  - unfold is_char_boundary. rewrite length_app, lookup_app_l by lia.
    rewrite !bool_decide_eq_false_2 by lia. done.
Qed.

Lemma boundary_take s k o :
  str_ok s → is_char_boundary s k = true → (o ≤ k)%nat →
  is_char_boundary (take k s) o = is_char_boundary s o.
Proof.
  intros Hs Hk Ho. destruct (str_ok_boundary s k Hs Hk) as (Ht&Hd&Hl).
  rewrite <- (take_drop k s) at 2. rewrite boundary_app_l; [done..|]. rewrite length_take. lia.
Qed.

Lemma boundary_drop s k o :
  (k ≤ length s)%nat → is_char_boundary (drop k s) o = is_char_boundary s (k + o).
Proof.
  intros Hk. rewrite <- (take_drop k s) at 2.
  rewrite <- (boundary_app_r (take k s) (drop k s) o). by rewrite length_take, Nat.min_l.
Qed.

(** Every boundary is at most three bytes away. *)
Lemma boundary_near s o :
  str_ok s → (o ≤ length s)%nat →
  ∃ p, is_char_boundary s p = true ∧ (p ≤ o ≤ p + 3)%nat ∧
    ∀ q, (p < q ≤ o)%nat → is_char_boundary s q = false.
Proof.
  intros (cs&Hcs&->) Ho. revert o Ho. induction Hcs as [|c cs Hc Hcs IH]; intros o Ho.
  { simpl in Ho. exists 0%nat. split; [done|]. split; [lia|]. intros q Hq. lia. }
  simpl in Ho. rewrite length_app in Ho. pose proof (length_encode c Hc) as Hlen.
  destruct (decide (o < length (encode_utf8 c))%nat) as [Hlt|Hge].
  - exists 0%nat. split; [apply boundary_0; by exists (c :: cs); split; [constructor|]|].
    split; [lia|]. intros q Hq. apply not_true_iff_false.
    intros (cs1&cs2&E&Eq)%boundary_split; [|by constructor].
    destruct cs1 as [|c' cs1]; simpl in *; [lia|]. injection E as <- ->. rewrite length_app in Eq. lia.
  - destruct (IH (o - length (encode_utf8 c))%nat) as (p&Hp&Hpo&Hq); [lia|].
    exists (length (encode_utf8 c) + p)%nat. simpl. rewrite boundary_app_r. split; [done|].
    split; [lia|]. intros q Hqr. replace q with (length (encode_utf8 c) + (q - length (encode_utf8 c)))%nat by lia.
    rewrite boundary_app_r. apply Hq. lia.
Qed.

Lemma floor_loop_spec s i :
  is_char_boundary s 0 = true →
  let p := floor_char_boundary_loop s i in
  is_char_boundary s p = true ∧ (p ≤ i)%nat ∧ ∀ q, (p < q ≤ i)%nat → is_char_boundary s q = false.
Proof.
  intros H0. induction i as [|i IH]; simpl.
  - split; [done|]. split; [lia|]. intros q Hq. lia.
  - destruct (is_char_boundary s (S i)) eqn:E.
    + split; [done|]. split; [lia|]. intros q Hq. lia.
    + destruct IH as (?&?&Hq). split; [done|]. split; [lia|]. intros q Hqr.
      destruct (decide (q = S i)) as [->|]; [done|]. apply Hq. lia.
Qed.

Lemma ceil_loop_spec fuel s i :
  (length s ≤ fuel + i)%nat → (i ≤ length s)%nat →
  let p := ceil_char_boundary_loop fuel s i in
  is_char_boundary s p = true ∧ (i ≤ p ≤ length s)%nat ∧ ∀ q, (i ≤ q < p)%nat → is_char_boundary s q = false.
Proof.
  revert i. induction fuel as [|fuel IH]; intros i Hf Hi; simpl; destruct (is_char_boundary s i) eqn:E.
  - split; [done|]. split; [lia|]. intros q Hq. lia.
  - replace i with (length s) in E by lia. by rewrite boundary_length in E.
  - split; [done|]. split; [lia|]. intros q Hq. lia.
  - assert (i ≠ length s) by by intros ->; rewrite boundary_length in E.
    destruct (IH (S i)) as (?&?&Hq); [lia|lia|]. split; [done|]. split; [lia|]. intros q Hqr.
    destruct (decide (q = i)) as [->|]; [done|]. apply Hq. lia.
Qed.

(** Around a byte of ASCII. *)
Lemma ascii_boundaries s i b :
  str_ok s → s !! i = Some b → b < 128 → is_char_boundary s i = true ∧ is_char_boundary s (S i) = true.
Proof.
  intros (cs&Hcs&->) Hi Hb. revert i Hi. induction Hcs as [|c cs Hc Hcs IH]; intros i Hi; [done|].
  assert (Hok : Forall char_ok (c :: cs)) by by constructor.
  cbn [bytes_of flat_map] in Hi. fold (bytes_of cs) in Hi.
  destruct (decide (i < length (encode_utf8 c))%nat) as [Hlt|Hge].
  - rewrite lookup_app_l in Hi by done. destruct (encode_shape c Hc) as (b0&bs&E&(_&_&_&_&_&Ha)&Hbs&_).
    rewrite E in Hi. destruct i as [|i]; cbn in Hi.
    + simplify_eq. assert (Hsmall : c < 128) by tauto.
      split; [apply boundary_0; by exists (c :: cs)|]. apply boundary_split; [done|]. exists [c], cs.
      split; [done|]. unfold bytes_of. cbn. unfold encode_utf8. by rewrite (proj2 (Z.ltb_lt c _)).
    + exfalso. rewrite Forall_lookup in Hbs. specialize (Hbs _ _ Hi). unfold is_tail in Hbs. lia.
  - rewrite lookup_app_r in Hi by lia. destruct (IH _ Hi) as [H1 H2].
    rewrite <- (boundary_app_r (encode_utf8 c)) in H1, H2. cbn [bytes_of flat_map]. fold (bytes_of cs).
    split; [rewrite <- H1|rewrite <- H2]; f_equal; lia.
Qed.

(** The encoding with arithmetic in place of bits. *)
Definition tail_byte (c k : Z) : Z := 128 + (c / k) mod 64.

Lemma tail_byte_eq c n : 0 ≤ c → 0 ≤ n → Z.lor 0x80 (Z.land (Z.shiftr c n) 0x3F) = tail_byte c (2 ^ n).
Proof.
  intros Hc Hn. unfold tail_byte. change 0x3F with (Z.ones 6). rewrite Z.land_ones, Z.shiftr_div_pow2 by lia.
  change (2 ^ 6) with 64. change 0x80 with (2 * 2 ^ 6).
  rewrite lor_bits; [lia|lia|]. apply Z.mod_pos_bound. lia.
Qed.

Lemma lead_byte_eq w hi c n :
  0 ≤ w → 0 ≤ n → 0 ≤ c < 2 ^ (w + n) → Z.lor (hi * 2 ^ w) (Z.shiftr c n) = hi * 2 ^ w + c / 2 ^ n.
Proof.
  intros Hw Hn Hc. rewrite Z.shiftr_div_pow2 by lia. apply lor_bits; [done|].
  rewrite Z.pow_add_r in Hc by lia. split; [apply Z.div_pos; lia|]. apply Z.div_lt_upper_bound; lia.
Qed.

Lemma encode_arith c :
  char_ok c →
  encode_utf8 c =
  if c <? 0x80 then [c]
  else if c <? 0x800 then [192 + c / 2 ^ 6; tail_byte c 1]
  else if c <? 0x10000 then [224 + c / 2 ^ 12; tail_byte c (2 ^ 6); tail_byte c 1]
  else [240 + c / 2 ^ 18; tail_byte c (2 ^ 12); tail_byte c (2 ^ 6); tail_byte c 1].
Proof.
  intros Hc. assert (0 ≤ c < 0x110000) as Hr by (unfold char_ok in Hc; lia). unfold encode_utf8.
  rewrite !tail_byte_eq by lia. change (2 ^ 0) with 1.
  destruct (Z.ltb_spec c 0x80); [done|].
  destruct (Z.ltb_spec c 0x800). { change 0xC0 with (6 * 2 ^ 5). rewrite lead_byte_eq by lia. done. }
  destruct (Z.ltb_spec c 0x10000). { change 0xE0 with (14 * 2 ^ 4). rewrite lead_byte_eq by lia. done. }
  change 0xF0 with (30 * 2 ^ 3). rewrite lead_byte_eq by lia. done.
Qed.

(** No encoding is a prefix of another. *)
Lemma encode_prefix c c' s s' :
  char_ok c → char_ok c' → encode_utf8 c ++ s = encode_utf8 c' ++ s' → c = c'.
Proof.
  intros Hc Hc'. rewrite !encode_arith by done.
  assert (0 ≤ c < 0x110000 ∧ 0 ≤ c' < 0x110000) as [] by (unfold char_ok in *; lia).
  unfold tail_byte. rewrite !Z.div_1_r.
  destruct (Z.ltb_spec c 0x80), (Z.ltb_spec c' 0x80); cbn [app]; try (intros [= ]; lia);
  repeat match goal with
  | |- context [?x <? 0x800] => destruct (Z.ltb_spec x 0x800)
  | |- context [?x <? 0x10000] => destruct (Z.ltb_spec x 0x10000)
  end; cbn [app]; intros [=]; Z.to_euclidean_division_equations; lia.
Qed.

Lemma bytes_prefix x p s :
  Forall char_ok x → Forall char_ok p → bytes_of p = bytes_of x ++ s → ∃ y, p = x ++ y ∧ s = bytes_of y.
Proof.
  intros Hx. revert p. induction Hx as [|c x Hc _ IH]; intros p Hp E; [by exists p|].
  destruct Hp as [|c' p Hc' Hp].
  - exfalso. cbn in E. destruct (encode_shape c Hc) as (b&bs&Eb&_). by rewrite Eb in E.
  - cbn [bytes_of flat_map] in E. rewrite <- app_assoc in E.
    assert (c' = c) as -> by (eapply encode_prefix; [done|done|exact E]).
    apply app_inv_head in E. destruct (IH p Hp E) as (y&->&->). by exists y.
Qed.

Lemma bytes_suffix x p s :
  Forall char_ok x → Forall char_ok p → bytes_of p = s ++ bytes_of x → ∃ y, p = y ++ x ∧ s = bytes_of y.
Proof.
  intros Hx Hp E.
  assert (Hb : is_char_boundary (bytes_of p) (length s) = true).
  { rewrite E, <- (Nat.add_0_r (length s)), boundary_app_r. apply boundary_0. by exists x. }
  apply boundary_split in Hb as (y&z&->&Hl); [|done]. rewrite bytes_of_app in E.
  apply app_inj_1 in E as [<- Ez]; [|done]. exists y. split; [|done]. f_equal.
  apply Forall_app in Hp as [_ Hz]. destruct (bytes_prefix x z [] Hx Hz) as (w&->&Ew); [by rewrite app_nil_r|].
  destruct w as [|c w]; [by rewrite app_nil_r|]. exfalso. cbn in Ew. apply Forall_app in Hz as [_ Hz].
  inversion_clear Hz as [|?? Hc _]. destruct (encode_shape c Hc) as (b&bs&Eb&_). by rewrite Eb in Ew.
Qed.

Lemma bytes_of_inj x p : Forall char_ok x → Forall char_ok p → bytes_of p = bytes_of x → p = x.
Proof.
  intros Hx Hp E. destruct (bytes_suffix x p [] Hx Hp E) as (y&->&Ey). destruct y as [|c y]; [done|].
  exfalso. cbn in Ey. inversion_clear Hp as [|?? Hc _]. destruct (encode_shape c Hc) as (b&bs&Eb&_). by rewrite Eb in Ey.
Qed.
