(* ===== verification/Point.v ===== *)
(** Text positions: [Point] and [PointUtf16] (a row and a column) and
    [OffsetUtf16], of [crates/rope/src/].

    Rows and columns are [u32]: [N] values with the wrap-around of release
    builds; the theorems on sums ask for the range in which none happens.  A
    point is also an extent: [a + b] is where an extent [b] that starts at [a]
    ends, so a newline in [b] resets the column. *)

From stdpp Require Import base numbers option list.
From S2P Require Import Prelude Utf8.

#[local] Open Scope N_scope.

Definition u32_MAX : N := 2 ^ 32 - 1.

(** [a - b] in [w] bits. *)
Definition wrapping_sub (w a b : N) : N := wrap_N w (a + 2 ^ w - b).

Record Point := mkPoint { row : N; column : N }.

#[export] Instance Point_eq_dec : EqDecision Point.
Proof. solve_decision. Defined.

Definition Point_MAX : Point := mkPoint u32_MAX u32_MAX.
Definition Point_new (row column : N) : Point := mkPoint row column.
Definition Point_zero : Point := Point_new 0 0.
Definition row_range (range : N * N) : Point * Point := (mkPoint range.1 0, mkPoint range.2 0).

(** The comparison of a 64-bit target: the two halves packed in a [usize]. *)
Definition pack (p : Point) : N := N.lor (N.shiftl (row p) 32) (column p).
#[export] Instance Point_Ord : Ord Point := λ self other, pack self ?= pack other.

Definition Point_add (self other : Point) : Point :=
  if row other =? 0 then Point_new (row self) (wrap_N 32 (column self + column other))
  else Point_new (wrap_N 32 (row self + row other)) (column other).

(** [sub], without its debug assertion [other <= self]. *)
Definition Point_sub (self other : Point) : Point :=
  if row self =? row other then Point_new 0 (wrapping_sub 32 (column self) (column other))
  else Point_new (wrapping_sub 32 (row self) (row other)) (column self).

Definition Point_add_assign (self other : Point) : Point :=
  if row other =? 0 then mkPoint (row self) (wrap_N 32 (column self + column other))
  else mkPoint (wrap_N 32 (row self + row other)) (column other).

Definition saturating_sub (self other : Point) : Point :=
  if bool_decide (cmp self other = Lt) then Point_zero else Point_sub self other.

Definition is_zero (self : Point) : bool := (row self =? 0) && (column self =? 0).

(** [str::split('\n')] on the bytes of a string: always at least one line. *)
Fixpoint split_lines (s : list Z) : list (list Z) :=
  match s with
  | [] => [[]]
  | b :: s =>
      if (b =? NEWLINE)%Z then [] :: split_lines s
      else match split_lines s with
           | line :: lines => (b :: line) :: lines
           | [] => [[b]]
           end
  end.

(** [parse_str]: the loop over the enumerated lines; [as u32] truncates. *)
Definition parse_line (line_row : N) (line : list Z) : Point :=
  mkPoint (wrap_N 32 line_row) (wrap_N 32 (N.of_nat (length line))).
Fixpoint parse_lines (line_row : N) (point : Point) (lines : list (list Z)) : Point :=
  match lines with
  | [] => point
  | line :: lines => parse_lines (line_row + 1) (parse_line line_row line) lines
  end.
Definition parse_str (s : list Z) : Point := parse_lines 0 Point_zero (split_lines s).

(** ** [PointUtf16] and [OffsetUtf16] *)

Record PointUtf16 := mkPointUtf16 { row16 : N; column16 : N }.

Definition PointUtf16_add (self other : PointUtf16) : PointUtf16 :=
  if row16 other =? 0 then mkPointUtf16 (row16 self) (wrap_N 32 (column16 self + column16 other))
  else mkPointUtf16 (wrap_N 32 (row16 self + row16 other)) (column16 other).
Definition PointUtf16_sub (self other : PointUtf16) : PointUtf16 :=
  if row16 self =? row16 other then mkPointUtf16 0 (wrapping_sub 32 (column16 self) (column16 other))
  else mkPointUtf16 (wrapping_sub 32 (row16 self) (row16 other)) (column16 self).
#[export] Instance PointUtf16_Ord : Ord PointUtf16 := λ self other,
  N.lor (N.shiftl (row16 self) 32) (column16 self) ?= N.lor (N.shiftl (row16 other) 32) (column16 other).
Definition PointUtf16_saturating_sub (self other : PointUtf16) : PointUtf16 :=
  if bool_decide (cmp self other = Lt) then mkPointUtf16 0 0 else PointUtf16_sub self other.

Record OffsetUtf16 := MkOffsetUtf16 { offset16 : N }.
Definition OffsetUtf16_add (self other : OffsetUtf16) : OffsetUtf16 :=
  MkOffsetUtf16 (wrap_N 64 (offset16 self + offset16 other)).
Definition OffsetUtf16_sub (self other : OffsetUtf16) : OffsetUtf16 :=
  MkOffsetUtf16 (wrapping_sub 64 (offset16 self) (offset16 other)).

(** ** Facts *)

Definition point_ok (p : Point) : Prop := fits 32 (row p) ∧ fits 32 (column p).

(** The order of points: by row, then by column. *)
Definition point_cmp (a b : Point) : comparison :=
  then_with (row a ?= row b) (column a ?= column b).

Lemma wrapping_sub_le w a b : fits w a → b ≤ a → wrapping_sub w a b = a - b.
Proof.
  unfold fits, wrapping_sub, wrap_N. intros Ha Hb.
  replace (a + 2 ^ w - b) with ((a - b) + 1 * 2 ^ w) by lia.
  rewrite N.Div0.mod_add. apply N.mod_small. lia.
Qed.

(** Packed pairs are ordered by the first half, then by the second. *)
Lemma pack_lex_N r c r' c' :
  fits 32 c → fits 32 c' →
  (N.lor (N.shiftl r 32) c ?= N.lor (N.shiftl r' 32) c') = then_with (r ?= r') (c ?= c').
Proof.
  intros Hc Hc'. rewrite !N.shiftl_mul_pow2, !lor_pack_N by done. unfold fits in *.
  destruct (N.compare_spec r r') as [->|Hlt|Hlt]; simpl.
  - destruct (N.compare_spec c c') as [->|Hlt|Hlt].
    + apply N.compare_refl.
    + apply N.compare_lt_iff. lia.
    + apply N.compare_gt_iff. lia.
  - apply N.compare_lt_iff. nia.
  - apply N.compare_gt_iff. nia.
Qed.

Lemma pack_lex a b : point_ok a → point_ok b → cmp a b = point_cmp a b.
Proof. intros [_ Ha] [_ Hb]. by apply pack_lex_N. Qed.

(** No wrap-around in [a + b]. *)
Definition add_fits (a b : Point) : Prop :=
  if row b =? 0 then column a + column b < 2 ^ 32 else row a + row b < 2 ^ 32.

Lemma Point_add_fits a b :
  add_fits a b →
  Point_add a b = (if row b =? 0 then mkPoint (row a) (column a + column b)
                   else mkPoint (row a + row b) (column b)).
Proof.
  unfold add_fits, Point_add. intros Hf.
  destruct (row b =? 0); unfold Point_new; f_equal; by apply wrap_N_id.
Qed.

(** The extent of a text, without the truncations. *)
Fixpoint extent_from (p : Point) (s : list Z) : Point :=
  match s with
  | [] => p
  | b :: s => extent_from (if (b =? NEWLINE)%Z then mkPoint (row p + 1) 0
                           else mkPoint (row p) (column p + 1)) s
  end.
Definition extent (s : list Z) : Point := extent_from (mkPoint 0 0) s.

Lemma extent_from_app p s t : extent_from p (s ++ t) = extent_from (extent_from p s) t.
Proof. revert p. induction s as [|b s IH]; intros p; simpl; [done|]. apply IH. Qed.

(** Reading on from [p] adds the extent read. *)
Lemma extent_from_add p s :
  extent_from p s = (if row (extent s) =? 0 then mkPoint (row p) (column p + column (extent s))
                     else mkPoint (row p + row (extent s)) (column (extent s))).
Proof.
  unfold extent. induction s as [|b s IH] using rev_ind.
  { simpl. rewrite N.add_0_r. by destruct p. }
  rewrite !extent_from_app, IH.
  set (e := extent_from (mkPoint 0 0) s) in *. simpl.
  destruct (b =? NEWLINE)%Z; destruct (N.eqb_spec (row e) 0) as [E|E]; simpl.
  - rewrite E. done.
  - rewrite (proj2 (N.eqb_neq _ _)) by lia. by rewrite N.add_assoc.
  - rewrite E. simpl. by rewrite N.add_assoc.
  - by rewrite (proj2 (N.eqb_neq _ _)) by lia.
Qed.

Lemma extent_app s t :
  extent (s ++ t) = if row (extent t) =? 0
    then mkPoint (row (extent s)) (column (extent s) + column (extent t))
    else mkPoint (row (extent s) + row (extent t)) (column (extent t)).
Proof. unfold extent at 1. rewrite extent_from_app. apply extent_from_add. Qed.

Lemma split_lines_ne s : split_lines s ≠ [].
Proof. destruct s as [|b s]; simpl; [done|]. destruct (b =? NEWLINE)%Z; [done|]. by destruct (split_lines s). Qed.

(** The fold of [parse_str] only keeps the last line. *)
Lemma parse_lines_last r p lines line :
  parse_lines r p (lines ++ [line]) = parse_line (r + N.of_nat (length lines)) line.
Proof.
  revert r p. induction lines as [|l lines IH]; intros r p; cbn [parse_lines app length].
  - by rewrite N.add_0_r.
  - rewrite IH. f_equal. lia.
Qed.

Lemma split_lines_extent s :
  ∃ lines line, split_lines s = lines ++ [line] ∧
    extent s = mkPoint (N.of_nat (length lines)) (N.of_nat (length line)).
Proof.
  induction s as [|b s IH]; [by exists [], []|].
  destruct IH as (lines&line&E&Hx).
  pose proof (extent_app [b] s) as Hcons. simpl app in Hcons. rewrite Hx in Hcons. simpl in Hcons.
  simpl split_lines. rewrite E. unfold extent in Hcons at 2 3 4. simpl in Hcons.
  destruct (b =? NEWLINE)%Z; destruct lines as [|l lines]; simpl in *.
  - exists [[]], line. split; [done|]. by rewrite Hcons.
  - exists ([] :: l :: lines), line. split; [done|]. rewrite Hcons. simpl. f_equal. lia.
  - exists [], (b :: line). split; [done|]. rewrite Hcons. simpl. f_equal. lia.
  - exists ((b :: l) :: lines), line. split; [done|]. by rewrite Hcons.
Qed.

Lemma parse_str_extent s : point_ok (extent s) → parse_str s = extent s.
Proof.
  intros [Hr Hc]. destruct (split_lines_extent s) as (lines&line&E&Hx).
  unfold parse_str. rewrite E, parse_lines_last. unfold parse_line. rewrite Hx in *. simpl in *.
  by rewrite N.add_0_l, !wrap_N_id.
Qed.

(** ** Properties *)

(** C39: the packed comparison of [Point] is the order by row and then column,
    in which [saturating_sub] is zero exactly when nothing is left; adding the
    difference of two ordered points to the smaller gives the greater. *)
Theorem point_order_difference a b :
  point_ok a → point_ok b →
  cmp a b = then_with (row a ?= row b) (column a ?= column b) ∧
  (saturating_sub a b = Point_zero ↔ cmp a b ≠ Gt) ∧
  (cmp b a ≠ Gt → Point_add b (Point_sub a b) = a ∧ point_ok (Point_sub a b)).
Proof.
  intros Ha Hb. rewrite !pack_lex by done. split; [done|].
  unfold saturating_sub, Point_zero, Point_sub, Point_add. rewrite pack_lex by done. unfold point_cmp.
  destruct a as [r c], b as [r' c'], Ha as [Hr Hc], Hb as [Hr' Hc']. unfold point_ok, Point_new. simpl in *.
  rewrite (N.compare_antisym r r'), (N.compare_antisym c c').
  destruct (N.compare_spec r r') as [->|Hlt|Hlt]; simpl.
  - rewrite N.eqb_refl. simpl. destruct (N.compare_spec c c') as [->|Hlt|Hlt]; simpl.
    + rewrite wrapping_sub_le by done. rewrite N.sub_diag, N.add_0_r, wrap_N_id by done. done.
    + split; [done|]. by intros [].
    + rewrite wrapping_sub_le by (done || lia). split; [split; [|done]; intros [= ?]; lia|]. intros _.
      replace (c' + (c - c')) with c by lia. rewrite wrap_N_id by done. unfold fits in *.
      split; [done|]. split; [done|lia].
  - split; [done|]. by intros [].
  - rewrite (proj2 (N.eqb_neq r r')) by lia. rewrite wrapping_sub_le by (done || lia). simpl.
    rewrite (proj2 (N.eqb_neq (r - r') 0)) by lia.
    split; [split; [|done]; intros [= ? ?]; lia|]. intros _.
    replace (r' + (r - r')) with r by lia. rewrite wrap_N_id by done. unfold fits in *.
    split; [done|]. split; [lia|done].
Qed.

(** in range, [Point] addition is associative with zero as its identity on
    both sides, and [+=] is [+]: extents may be summed in any grouping, as the
    tree of chunks does. *)
Theorem point_add_monoid a b c :
  point_ok a → point_ok b → point_ok c →
  row a + row b + row c < 2 ^ 32 → column a + column b + column c < 2 ^ 32 →
  Point_add (Point_add a b) c = Point_add a (Point_add b c) ∧
  Point_add a Point_zero = a ∧ Point_add Point_zero a = a ∧
  Point_add_assign a b = Point_add a b.
Proof.
  destruct a as [ar ac], b as [br bc], c as [cr cc]. unfold point_ok. simpl.
  intros [??] [??] [??] Hrow Hcol.
  assert (Hw : ∀ n, n < 2 ^ 32 → wrap_N 32 n = n) by (intros; by apply wrap_N_id).
  unfold Point_add, Point_add_assign, Point_zero, Point_new. simpl. split_and!.
  - destruct (N.eqb_spec cr 0) as [->|Hcr]; destruct (N.eqb_spec br 0) as [->|Hbr]; simpl;
      repeat first [rewrite N.add_0_l|rewrite N.add_0_r|rewrite (Hw (ac + bc)) by lia|rewrite (Hw (bc + cc)) by lia
        |rewrite (Hw (ar + br)) by lia|rewrite (Hw (br + cr)) by lia|rewrite Hw by lia|rewrite (proj2 (N.eqb_neq cr 0)) by lia
        |rewrite (proj2 (N.eqb_neq br 0)) by lia|rewrite (proj2 (N.eqb_neq (br + cr) 0)) by lia];
      simpl; f_equal; lia.
  - f_equal. rewrite N.add_0_r. apply Hw. lia.
  - unfold fits in *. destruct (N.eqb_spec ar 0); f_equal; rewrite ?Hw by lia; lia.
  - done.
Qed.

(** [Point::parse_str] of a concatenation is the sum of the points of the
    parts (in range): the extent of a text can be computed piecewise. *)
Theorem parse_str_app s t :
  point_ok (extent s) → point_ok (extent t) → point_ok (extent (s ++ t)) →
  parse_str (s ++ t) = Point_add (parse_str s) (parse_str t).
Proof.
  intros Hs Ht Hst. rewrite !parse_str_extent by done. rewrite extent_app in Hst |- *.
  rewrite Point_add_fits; [done|]. unfold add_fits. destruct (row (extent t) =? 0); apply Hst.
Qed.

Ltac solve_points := repeat split; vm_compute; (reflexivity || discriminate).

Lemma point_order_difference_witness :
  Point_add (mkPoint 2 7) (Point_sub (mkPoint 5 3) (mkPoint 2 7)) = mkPoint 5 3.
Proof.
  destruct (point_order_difference (mkPoint 5 3) (mkPoint 2 7)) as (_&_&Hsub); [solve_points..|].
  apply Hsub. discriminate.
Defined.

Lemma point_add_monoid_witness :
  Point_add (Point_add (mkPoint 1 2) (mkPoint 0 5)) (mkPoint 3 4) =
  Point_add (mkPoint 1 2) (Point_add (mkPoint 0 5) (mkPoint 3 4)).
Proof. apply (point_add_monoid (mkPoint 1 2) (mkPoint 0 5) (mkPoint 3 4)); solve_points. Defined.

Lemma parse_str_app_witness :
  parse_str ([97%Z; 10%Z] ++ [98%Z; 99%Z]) = Point_add (parse_str [97%Z; 10%Z]) (parse_str [98%Z; 99%Z]).
Proof. apply (parse_str_app [97%Z; 10%Z] [98%Z; 99%Z]); solve_points. Defined.
