(* ===== verification/StreamingDiff.v ===== *)
(** The streaming character diff: [StreamingDiff], [Matrix] and
    [CharOperation] of [crates/streaming_diff/src/streaming_diff.rs].

    A text is the list of its characters; operations count bytes of UTF-8, as
    the code does.  Scores are binary64 numbers of the standard library's
    software floats.  [f64::powi] (whose precision Rust leaves unspecified) and
    the order of [ordered_float] are parameters: what the diff promises does
    not depend on them. *)

From Stdlib Require Import SpecFloat.
From stdpp Require Import base numbers option list.
From S2P Require Import Prelude.

(** ** Characters, floats and vectors *)

(** A [char] is its scalar value. *)
Definition len_utf8 (c : Z) : nat :=
  if (c <? 0x80)%Z then 1
  else if (c <? 0x800)%Z then 2
  else if (c <? 0x10000)%Z then 3
  else 4.

Definition f64 : Type := spec_float.
Definition f64_add : f64 → f64 → f64 := SFadd 53 1024.
Definition f64_mul : f64 → f64 → f64 := SFmul 53 1024.
Definition f64_of_usize (n : nat) : f64 := binary_normalize 53 1024 (Z.of_nat n) 0 false.
Definition NEG_INFINITY : f64 := S754_infinity true.

(** [f64::max]: a NaN loses to the other argument. *)
Definition f64_max (a b : f64) : f64 :=
  match a, b with
  | S754_nan, _ => b
  | _, S754_nan => a
  | _, _ => if SFltb a b then b else a
  end.

Definition INSERTION_SCORE : f64 := binary_normalize 53 1024 (-1) 0 false.
Definition DELETION_SCORE : f64 := binary_normalize 53 1024 (-20) 0 false.
(** The binary64 nearest to 1.8. *)
Definition EQUALITY_BASE : f64 := S754_finite false 8106479329266893 (-52).
Definition MAX_EQUALITY_EXPONENT : Z := 16.

(** [v[a..b]]. *)
Definition slice_range {A} (l : list A) (a b : nat) : option (list A) :=
  if bool_decide (a ≤ b ∧ b ≤ length l) then Some (take (b - a) (drop a l)) else None.

(** [v[i] = x]. *)
Definition set_index {A} (l : list A) (i : nat) (x : A) : option (list A) :=
  if bool_decide (i < length l) then Some (<[i:=x]> l) else None.

(** ** The score matrix, in columns *)

Record Matrix := mkMatrix { cells : list f64; rows : nat; cols : nat }.

Definition Matrix_new : Matrix := mkMatrix [] 0 0.

Definition Matrix_resize (m : Matrix) (rows cols : nat) : Matrix :=
  mkMatrix (resize (rows * cols) (f64_of_usize 0) (cells m)) rows cols.

(** [swap_nonoverlapping] of the two columns; [None] also when a column is not
    inside the vector. *)
Definition swap_columns (m : Matrix) (col1 col2 : nat) : option Matrix :=
  if bool_decide (col1 = col2) then Some m
  else
    _ ← assert_ (bool_decide (col1 < cols m));
    _ ← assert_ (bool_decide (col2 < cols m));
    column1 ← slice_range (cells m) (col1 * rows m) (col1 * rows m + rows m);
    column2 ← slice_range (cells m) (col2 * rows m) (col2 * rows m + rows m);
    Some (mkMatrix (list_inserts (col2 * rows m) column1
                     (list_inserts (col1 * rows m) column2 (cells m))) (rows m) (cols m)).

Definition Matrix_get (m : Matrix) (row col : nat) : option f64 :=
  _ ← assert_ (bool_decide (row < rows m));
  _ ← assert_ (bool_decide (col < cols m));
  cells m !! (col * rows m + row).

Definition Matrix_set (m : Matrix) (row col : nat) (value : f64) : option Matrix :=
  _ ← assert_ (bool_decide (row < rows m));
  _ ← assert_ (bool_decide (col < cols m));
  cells ← set_index (cells m) (col * rows m + row) value;
  Some (mkMatrix cells (rows m) (cols m)).

(** The previous column, and the current one, which the caller writes. *)
Definition adjacent_columns (m : Matrix) (current_col : nat) : option (list f64 * list f64) :=
  _ ← assert_ (bool_decide (current_col ≠ 0 ∧ current_col < cols m));
  let current_col_start := current_col * rows m in
  previous_col_start ← usub current_col_start (rows m);
  previous ← slice_range (cells m) previous_col_start current_col_start;
  current ← slice_range (cells m) current_col_start (current_col_start + rows m);
  Some (previous, current).

Definition write_column (m : Matrix) (col : nat) (current : list f64) : Matrix :=
  mkMatrix (list_inserts (col * rows m) current (cells m)) (rows m) (cols m).

(** ** The diff *)

Inductive CharOperation :=
  | Insert (text : list Z)
  | Delete (bytes : nat)
  | Keep (bytes : nat).

Record StreamingDiff := mkStreamingDiff {
  old : list Z;
  new : list Z;
  scores : Matrix;
  old_text_ix : nat;
  new_text_ix : nat;
  previous_equal_runs : list Z;
  current_equal_runs : list Z
}.

(** The first column: deleting [i] characters. *)
Definition first_column (scores : Matrix) (old_len : nat) : option Matrix :=
  foldlM (λ scores i, Matrix_set scores i 0 (f64_mul (f64_of_usize i) DELETION_SCORE))
    scores (seq 0 (old_len + 1)).

Definition diff_new (old : list Z) : option StreamingDiff :=
  let old_len := length old in
  scores ← first_column (Matrix_resize Matrix_new (old_len + 1) 1) old_len;
  Some (mkStreamingDiff old [] scores 0 0
          (replicate (old_len + 1) 0%Z) (replicate (old_len + 1) 0%Z)).

(** [u32] as [i32]. *)
Definition as_i32 (n : Z) : Z := if (n <? 2 ^ 31)%Z then n else (n - 2 ^ 32)%Z.

(** [equal_run + 1] of [u32]; the overflow panics. *)
Definition inc_u32 (n : Z) : option Z :=
  if (n + 1 <? 2 ^ 32)%Z then Some (n + 1)%Z else None.

Section diff.
Context (powi : f64 → Z → f64) (ordered_float_cmp : f64 → f64 → comparison).
Implicit Types d : StreamingDiff.

(** One cell of a column; the state is the current column of scores and of
    runs of equal characters. *)
Definition score_cell (old : list Z) (new_char : Z) (previous_scores : list f64)
    (previous_equal_runs : list Z) (st : list f64 * list Z) (i : nat) : option (list f64 * list Z) :=
  let '(current_scores, current_equal_runs) := st in
  previous_i ← previous_scores !! i;
  let insertion_score := f64_add previous_i INSERTION_SCORE in
  i' ← usub i 1;
  current_i' ← current_scores !! i';
  let deletion_score := f64_add current_i' DELETION_SCORE in
  old_char ← old !! i';
  '(equality_score, current_equal_runs) ←
    (if (old_char =? new_char)%Z then
       run ← previous_equal_runs !! i';
       equal_run ← inc_u32 run;
       current_equal_runs ← set_index current_equal_runs i equal_run;
       let exponent := Z.min (Z.quot (as_i32 equal_run) 4) MAX_EQUALITY_EXPONENT in
       previous_i' ← previous_scores !! i';
       Some (f64_add previous_i' (powi EQUALITY_BASE exponent), current_equal_runs)
     else Some (NEG_INFINITY, current_equal_runs));
  current_scores ← set_index current_scores i
    (f64_max (f64_max insertion_score deletion_score) equality_score);
  Some (current_scores, current_equal_runs).

(** The column of the new character [j - 1]. *)
Definition score_column d (j : nat) : option StreamingDiff :=
  let runs := replicate (length (current_equal_runs d)) 0%Z in
  relative_j ← usub j (new_text_ix d);
  j' ← usub j 1;
  new_char ← new d !! j';
  '(previous_scores, current_scores) ← adjacent_columns (scores d) relative_j;
  current_scores ← set_index current_scores 0 (f64_mul (f64_of_usize j) INSERTION_SCORE);
  '(current_scores, runs) ←
    foldlM (score_cell (old d) new_char previous_scores (previous_equal_runs d))
      (current_scores, runs) (seq 1 (length (old d)));
  Some (mkStreamingDiff (old d) (new d) (write_column (scores d) relative_j current_scores)
          (old_text_ix d) (new_text_ix d) runs (previous_equal_runs d)).

(** The end of the hunks to emit: the first best score of the last column. *)
Definition best_row d (next_new_text_ix : nat) (st : f64 * nat) (i : nat) : option (f64 * nat) :=
  let '(max_score, next_old_text_ix) := st in
  col ← usub next_new_text_ix (new_text_ix d);
  score ← Matrix_get (scores d) i col;
  Some (if SFltb max_score score then (score, i) else (max_score, next_old_text_ix)).

(** ** Walking back through the scores *)

(** The cells the walk can come from: an insertion, a deletion, an equality. *)
Definition predecessors d (i j : nat) : option (list (option (nat * nat))) :=
  let in_new := bool_decide (new_text_ix d < j) in
  let in_old := bool_decide (old_text_ix d < i) in
  equality ←
    (if in_old && in_new then
       a ← old d !! (i - 1);
       b ← new d !! (j - 1);
       Some (if (a =? b)%Z then Some (i - 1, j - 1) else None)
     else Some None);
  Some [if in_new then Some (i, j - 1) else None;
        if in_old then Some (i - 1, j) else None;
        equality].

Definition cell_score d (cell : option (nat * nat)) : option (option f64) :=
  match cell with
  | None => Some None
  | Some (i, j) => col ← usub j (new_text_ix d); score ← Matrix_get (scores d) i col; Some (Some score)
  end.

(** The order of [Option<OrderedFloat>]. *)
Definition score_cmp (a b : option f64) : comparison :=
  match a, b with
  | None, None => Eq
  | None, Some _ => Lt
  | Some _, None => Gt
  | Some a, Some b => ordered_float_cmp a b
  end.

(** [max_by_key]: the last of the greatest. *)
Fixpoint max_by_score {A} (best : option f64 * A) (l : list (option f64 * A)) : A :=
  match l with
  | [] => best.2
  | x :: l => max_by_score (match score_cmp best.1 x.1 with Gt => best | _ => x end) l
  end.

Definition best_predecessor d (i j : nat) : option (nat * nat) :=
  cells ← predecessors d i j;
  keyed ← mapM (λ cell, key ← cell_score d cell; Some (key, cell)) cells;
  match keyed with
  | [] => None
  | x :: l => max_by_score x l
  end.

(** The pending insertion, a range of [new]. *)
Definition flush_insert d (pending_insert : option (nat * nat)) (hunks : list CharOperation)
    : option (list CharOperation) :=
  match pending_insert with
  | Some (a, b) => text ← slice_range (new d) a b; Some (hunks ++ [Insert text])
  | None => Some hunks
  end.

Definition push_delete (hunks : list CharOperation) (char_len : nat) : list CharOperation :=
  match last hunks with
  | Some (Delete len) => default hunks (set_last (Delete (len + char_len)) hunks)
  | _ => hunks ++ [Delete char_len]
  end.

Definition push_keep (hunks : list CharOperation) (char_len : nat) : list CharOperation :=
  match last hunks with
  | Some (Keep len) => default hunks (set_last (Keep (len + char_len)) hunks)
  | _ => hunks ++ [Keep char_len]
  end.

Record Walk := mkWalk {
  pending_insert : option (nat * nat);
  hunks : list CharOperation;
  walk_i : nat;
  walk_j : nat
}.

Definition backtrack_step d (w : Walk) : option Walk :=
  let i := walk_i w in
  let j := walk_j w in
  '(prev_i, prev_j) ← best_predecessor d i j;
  inserted ← (if bool_decide (prev_i = i)
              then j' ← usub j 1; Some (bool_decide (prev_j = j')) else Some false);
  if inserted : bool then
    let pending := match pending_insert w with
                   | Some (_, b) => (prev_j, b)
                   | None => (prev_j, j)
                   end in
    Some (mkWalk (Some pending) (hunks w) prev_i prev_j)
  else
    flushed ← flush_insert d (pending_insert w) (hunks w);
    i' ← usub i 1;
    c ← old d !! i';
    let char_len := len_utf8 c in
    Some (mkWalk None
            (if bool_decide (prev_i = i' ∧ prev_j = j) then push_delete flushed char_len
             else push_keep flushed char_len) prev_i prev_j).

Fixpoint backtrack_loop (fuel : nat) d (w : Walk) : option Walk :=
  if bool_decide ((walk_i w, walk_j w) = (old_text_ix d, new_text_ix d)) then Some w
  else match fuel with
       | O => None
       | S fuel => w ← backtrack_step d w; backtrack_loop fuel d w
       end.

(** Each step lowers [i + j]. *)
Definition backtrack d (old_ix new_ix : nat) : option (list CharOperation) :=
  w ← backtrack_loop (old_ix + new_ix) d (mkWalk None [] old_ix new_ix);
  hunks ← flush_insert d (pending_insert w) (hunks w);
  Some (reverse hunks).

Definition push_new d (text : list Z) : option (StreamingDiff * list CharOperation) :=
  let new := new d ++ text in
  last_col ← usub (cols (scores d)) 1;
  scores ← swap_columns (scores d) 0 last_col;
  pushed ← usub (length new) (new_text_ix d);
  let scores := Matrix_resize scores (length (old d) + 1) (pushed + 1) in
  let d := mkStreamingDiff (old d) new scores (old_text_ix d) (new_text_ix d)
             (previous_equal_runs d) (current_equal_runs d) in
  d ← foldlM score_column d (seq (new_text_ix d + 1) pushed);
  let next_new_text_ix := length new in
  '(_, next_old_text_ix) ←
    foldlM (best_row d next_new_text_ix) (NEG_INFINITY, old_text_ix d)
      (seq (old_text_ix d) (length (old d) + 1 - old_text_ix d));
  hunks ← backtrack d next_old_text_ix next_new_text_ix;
  Some (mkStreamingDiff (old d) (StreamingDiff.new d) (StreamingDiff.scores d) next_old_text_ix
          next_new_text_ix (previous_equal_runs d) (current_equal_runs d), hunks).

Definition finish d : option (list CharOperation) :=
  backtrack d (length (old d)) (length (new d)).

(** How a client streams: a call of [push_new] per piece of new text. *)
Fixpoint push_all d (pieces : list (list Z)) : option (StreamingDiff * list CharOperation) :=
  match pieces with
  | [] => Some (d, [])
  | text :: pieces =>
      '(d, ops) ← push_new d text;
      '(d, rest) ← push_all d pieces;
      Some (d, ops ++ rest)
  end.
End diff.
