(* ===== verification/StreamingDiffFacts.v ===== *)
(** What the streaming diff promises: the emitted operations, applied to the
    old text, give the new text, after every call and at the end, and no call
    panics.  The proof follows the walk through the scores; it uses nothing of
    the scores but that they are there. *)

From Stdlib Require Import SpecFloat.
From stdpp Require Import base numbers option list sets.
From S2P Require Import Prelude StreamingDiff.

(** ** Applying operations *)

(** The characters of the first [n] bytes, and the rest. *)
Fixpoint take_bytes (n : nat) (l : list Z) : option (list Z * list Z) :=
  match n, l with
  | O, _ => Some ([], l)
  | _, [] => None
  | _, c :: l =>
      _ ← assert_ (bool_decide (len_utf8 c ≤ n));
      '(p, r) ← take_bytes (n - len_utf8 c) l;
      Some (c :: p, r)
  end.

(** The text that operations produce from the old text, and what they leave of
    it. *)
Fixpoint apply_ops (ops : list CharOperation) (old : list Z) : option (list Z * list Z) :=
  match ops with
  | [] => Some ([], old)
  | Insert text :: ops => '(produced, rest) ← apply_ops ops old; Some (text ++ produced, rest)
  | Delete bytes :: ops => '(_, old) ← take_bytes bytes old; apply_ops ops old
  | Keep bytes :: ops =>
      '(kept, old) ← take_bytes bytes old;
      '(produced, rest) ← apply_ops ops old;
      Some (kept ++ produced, rest)
  end.

Lemma len_utf8_pos c : 0 < len_utf8 c.
Proof. unfold len_utf8. repeat case_match; lia. Qed.

Lemma take_bytes_cons c n l :
  take_bytes (len_utf8 c + n) (c :: l) = '(p, r) ← take_bytes n l; Some (c :: p, r).
Proof.
  pose proof (len_utf8_pos c). destruct (len_utf8 c + n) eqn:E; [lia|]. simpl. rewrite <- E.
  unfold assert_. rewrite bool_decide_true by lia. simpl. by replace (len_utf8 c + n - len_utf8 c) with n by lia.
Qed.

Lemma take_bytes_app n l p r k :
  take_bytes n l = Some (p, r) → take_bytes n (l ++ k) = Some (p, r ++ k).
Proof.
  revert n p r. induction l as [|c l IH]; intros [|n] p r; simpl; intros Ht; simplify_eq; try done;
    [by destruct k|].
  unfold assert_ in *. destruct (decide (len_utf8 c ≤ S n)) as [Hc|];
    [rewrite (bool_decide_true _ Hc) in *|by rewrite bool_decide_false in Ht].
  simpl in *. destruct (take_bytes (S n - len_utf8 c) l) as [[p' r']|] eqn:E; [|done].
  simplify_eq/=. by rewrite (IH _ _ _ E).
Qed.

Lemma apply_ops_frame ops l p r k :
  apply_ops ops l = Some (p, r) → apply_ops ops (l ++ k) = Some (p, r ++ k).
Proof.
  revert l p r. induction ops as [|[t|n|n] ops IH]; intros l p r; simpl; intros Ha.
  - by simplify_eq.
  - destruct (apply_ops ops l) as [[p' r']|] eqn:E; [|done]. simplify_eq/=. by rewrite (IH _ _ _ E).
  - destruct (take_bytes n l) as [[p' r']|] eqn:E; [|done]. simpl in *.
    rewrite (take_bytes_app _ _ _ _ k E). simpl. eauto.
  - destruct (take_bytes n l) as [[p' r']|] eqn:E; [|done]. simpl in *.
    rewrite (take_bytes_app _ _ _ _ k E). simpl.
    destruct (apply_ops ops r') as [[p2 r2]|] eqn:E2; [|done]. simplify_eq/=.
    by rewrite (IH _ _ _ E2).
Qed.

Lemma apply_ops_app a b l p r q s :
  apply_ops a l = Some (p, r) → apply_ops b r = Some (q, s) →
  apply_ops (a ++ b) l = Some (p ++ q, s).
Proof.
  revert l p. induction a as [|[t|n|n] a IH]; intros l p; simpl; intros Ha Hb.
  - by simplify_eq/=.
  - destruct (apply_ops a l) as [[p' r']|] eqn:E; [|done]. simplify_eq/=.
    by rewrite (IH _ _ E Hb), <- app_assoc.
  - destruct (take_bytes n l) as [[p' r']|] eqn:E; [|done]. simpl in *. eauto.
  - destruct (take_bytes n l) as [[p' r']|] eqn:E; [|done]. simpl in *.
    destruct (apply_ops a r') as [[p2 r2]|] eqn:E2; [|done]. simplify_eq/=.
    by rewrite (IH _ _ E2 Hb), <- app_assoc.
Qed.

(** ** Segments [l[a..b]] *)

Definition seg {A} (l : list A) (a b : nat) : list A := take (b - a) (drop a l).

Lemma seg_nil {A} (l : list A) a : seg l a a = [].
Proof. unfold seg. by rewrite Nat.sub_diag. Qed.

Lemma seg_cons {A} (l : list A) a b c :
  l !! a = Some c → S a ≤ b → seg l a b = c :: seg l (S a) b.
Proof.
  intros Hc Hab. unfold seg. rewrite (drop_S _ _ _ Hc).
  by replace (b - a) with (S (b - S a)) by lia.
Qed.

Lemma seg_app {A} (l : list A) a b c : a ≤ b ≤ c → seg l a b ++ seg l b c = seg l a c.
Proof.
  intros. unfold seg. replace (c - a) with ((b - a) + (c - b)) by lia.
  replace (drop b l) with (drop (b - a) (drop a l)) by (rewrite drop_drop; f_equal; lia).
  by rewrite <- take_take_drop.
Qed.

Lemma seg_drop {A} (l : list A) a b : a ≤ b → seg l a b ++ drop b l = drop a l.
Proof.
  intros. unfold seg. replace (drop b l) with (drop (b - a) (drop a l))
    by (rewrite drop_drop; f_equal; lia). apply take_drop.
Qed.

Lemma slice_range_seg {A} (l : list A) a b :
  a ≤ b ≤ length l → slice_range l a b = Some (seg l a b).
Proof. intros. unfold slice_range. by rewrite bool_decide_true. Qed.

Lemma length_seg {A} (l : list A) a b : a ≤ b ≤ length l → length (seg l a b) = b - a.
Proof. intros. unfold seg. rewrite length_take, length_drop. lia. Qed.

Lemma set_index_lt {A} (l : list A) i x : i < length l → set_index l i x = Some (<[i:=x]> l).
Proof. intros. unfold set_index. by rewrite bool_decide_true. Qed.

(** ** Hunks *)

(** No two operations of one kind next to each other: the hunks of a call are
    as few as the walk allows. *)
Definition same_kind (a b : CharOperation) : Prop :=
  match a, b with
  | Insert _, Insert _ | Delete _, Delete _ | Keep _, Keep _ => True
  | _, _ => False
  end.

Fixpoint coalesced (ops : list CharOperation) : Prop :=
  match ops with
  | a :: (b :: _) as rest => ¬ same_kind a b ∧ coalesced rest
  | _ => True
  end.

Definition not_insert (ops : list CharOperation) : Prop :=
  match ops with Insert _ :: _ => False | _ => True end.

Lemma coalesced_cons a ops :
  coalesced (a :: ops) ↔ coalesced ops ∧ match ops with b :: _ => ¬ same_kind a b | [] => True end.
Proof. destruct ops; simpl; tauto. Qed.

#[local] Arguments take_bytes : simpl never.

Lemma take_bytes_0 l : take_bytes 0 l = Some ([], l).
Proof. by destruct l. Qed.

Lemma apply_delete c n ops l :
  apply_ops (Delete (len_utf8 c + n) :: ops) (c :: l) = apply_ops (Delete n :: ops) l.
Proof. simpl. rewrite take_bytes_cons. by destruct (take_bytes n l) as [[]|]. Qed.

Lemma apply_keep c n ops l p r :
  apply_ops (Keep n :: ops) l = Some (p, r) →
  apply_ops (Keep (len_utf8 c + n) :: ops) (c :: l) = Some (c :: p, r).
Proof.
  simpl. rewrite take_bytes_cons. destruct (take_bytes n l) as [[? l']|]; [simpl|done].
  destruct (apply_ops ops l') as [[]|]; [|done]. intros. by simplify_eq/=.
Qed.

Lemma apply_delete_1 c ops l : apply_ops (Delete (len_utf8 c) :: ops) (c :: l) = apply_ops ops l.
Proof. rewrite <- (Nat.add_0_r (len_utf8 c)), apply_delete. simpl. by rewrite take_bytes_0. Qed.

Lemma apply_keep_1 c ops l p r :
  apply_ops ops l = Some (p, r) → apply_ops (Keep (len_utf8 c) :: ops) (c :: l) = Some (c :: p, r).
Proof.
  intros Ha. rewrite <- (Nat.add_0_r (len_utf8 c)). apply apply_keep. simpl.
  rewrite take_bytes_0. simpl. by rewrite Ha.
Qed.

(** The hunks are built from the last one: read backwards, a push adds a
    character in front. *)
Lemma push_delete_spec hs c l p r :
  coalesced (reverse hs) → apply_ops (reverse hs) l = Some (p, r) →
  let hs' := reverse (push_delete hs (len_utf8 c)) in
  coalesced hs' ∧ not_insert hs' ∧ apply_ops hs' (c :: l) = Some (p, r).
Proof.
  destruct hs as [|h hs _] using rev_ind; unfold push_delete.
  - intros _ Ha. split; [exact I|split; [exact I|]].
    change (apply_ops (Delete (len_utf8 c) :: reverse []) (c :: l) = Some (p, r)).
    by rewrite apply_delete_1.
  - rewrite last_snoc, reverse_snoc, coalesced_cons. intros [Hc Hh] Ha.
    destruct h; rewrite ?set_last_snoc; simpl default; rewrite !reverse_snoc, ?coalesced_cons;
      (split; [simpl; tauto|split; [done|]]); rewrite ?apply_delete_1; [done| |done].
    by rewrite Nat.add_comm, apply_delete.
Qed.

Lemma push_keep_spec hs c l p r :
  coalesced (reverse hs) → apply_ops (reverse hs) l = Some (p, r) →
  let hs' := reverse (push_keep hs (len_utf8 c)) in
  coalesced hs' ∧ not_insert hs' ∧ apply_ops hs' (c :: l) = Some (c :: p, r).
Proof.
  destruct hs as [|h hs _] using rev_ind; unfold push_keep.
  - intros _ Ha. split; [exact I|split; [exact I|]]. by apply apply_keep_1.
  - rewrite last_snoc, reverse_snoc, coalesced_cons. intros [Hc Hh] Ha.
    destruct h; rewrite ?set_last_snoc; simpl default; rewrite !reverse_snoc, ?coalesced_cons;
      (split; [simpl; tauto|split; [done|]]); [by apply apply_keep_1..|].
    rewrite Nat.add_comm. by apply apply_keep.
Qed.

(** ** The walk *)

Section walk.
Context (ordered_float_cmp : f64 → f64 → comparison).
Implicit Types d : StreamingDiff.
Implicit Types w : Walk.

(** The scores between the start of the walk and [(I, J)] can be read. *)
Definition scores_ready d (I J : nat) : Prop :=
  I ≤ length (old d) ∧ J ≤ length (new d) ∧
  ∀ i j, i ≤ I → new_text_ix d ≤ j ≤ J → is_Some (Matrix_get (scores d) i (j - new_text_ix d)).

(** A cell the walk may come from. *)
Definition is_predecessor d (i j : nat) (cell : nat * nat) : Prop :=
  (cell = (i, j - 1) ∧ new_text_ix d < j) ∨
  (cell = (i - 1, j) ∧ old_text_ix d < i) ∨
  (cell = (i - 1, j - 1) ∧ old_text_ix d < i ∧ new_text_ix d < j ∧
   old d !! (i - 1) = new d !! (j - 1)).

Lemma max_by_score_spec {A} (P : A → Prop) (best : option f64 * option A) l :
  (∀ x, x ∈ best :: l → match x with (Some _, Some a) => P a | (None, None) => True | _ => False end) →
  (∃ x, x ∈ best :: l ∧ is_Some x.1) →
  ∃ a, max_by_score ordered_float_cmp best l = Some a ∧ P a.
Proof.
  revert best. induction l as [|x l IH]; intros best Hall [y [Hy Hsome]]; simpl.
  - apply list_elem_of_singleton in Hy as ->. specialize (Hall best).
    destruct best as [[]  []]; simpl in *; try (by destruct Hall; left);
      [|by destruct Hsome]. eexists. split; [done|]. apply Hall. by left.
  - apply IH.
    + intros z Hz. apply Hall. destruct (score_cmp _ _ _); set_solver.
    + destruct best as [[a|] ba], x as [[b|] bx]; simpl in *;
        try (eexists; split; [by left|done]).
      * destruct (ordered_float_cmp a b); eexists; (split; [by left|done]).
      * exists y. split; [set_solver|done].
Qed.

Lemma cell_score_spec d I J i j :
  scores_ready d I J → i ≤ I → new_text_ix d ≤ j ≤ J →
  ∃ s, cell_score d (Some (i, j)) = Some (Some s).
Proof.
  intros (_&_&Hs) Hi Hj. destruct (Hs i j Hi Hj) as [s E]. exists s. simpl.
  rewrite usub_le by lia. simpl. by rewrite E.
Qed.

Lemma predecessors_spec d I J i j :
  scores_ready d I J → old_text_ix d ≤ i ≤ I → new_text_ix d ≤ j ≤ J →
  (i, j) ≠ (old_text_ix d, new_text_ix d) →
  ∃ cells, predecessors d i j = Some cells ∧
    (∀ cell, Some cell ∈ cells → is_predecessor d i j cell) ∧ (∃ cell, Some cell ∈ cells).
Proof.
  intros (HI&HJ&_) Hi Hj Hne. unfold predecessors, is_predecessor.
  destruct (decide (old_text_ix d < i)) as [Ho|Ho], (decide (new_text_ix d < j)) as [Hn|Hn].
  - rewrite !bool_decide_true by done.
    destruct (lookup_lt_is_Some_2 (old d) (i - 1)) as [a Ea]; [lia|].
    destruct (lookup_lt_is_Some_2 (new d) (j - 1)) as [b Eb]; [lia|].
    rewrite Ea, Eb. simpl. eexists. split; [done|split]; [|eexists; by left].
    intros cell. destruct (Z.eqb_spec a b) as [->|]; set_solver.
  - rewrite (bool_decide_true _ Ho), (bool_decide_false _ Hn). simpl.
    eexists. split; [done|split]; [set_solver|eexists; right; by left].
  - rewrite (bool_decide_false _ Ho), (bool_decide_true _ Hn). simpl.
    eexists. split; [done|split]; [set_solver|eexists; by left].
  - destruct Hne. f_equal; lia.
Qed.

Lemma is_predecessor_bounds d I J i j i' j' :
  old_text_ix d ≤ i ≤ I → new_text_ix d ≤ j ≤ J → is_predecessor d i j (i', j') →
  old_text_ix d ≤ i' ≤ i ∧ new_text_ix d ≤ j' ≤ j ∧ i' + j' < i + j.
Proof.
  intros Hi Hj [[[= -> ->] ?]|[[[= -> ->] ?]|[[= -> ->] ?]]]; lia.
Qed.

Lemma best_predecessor_spec d I J i j :
  scores_ready d I J → old_text_ix d ≤ i ≤ I → new_text_ix d ≤ j ≤ J →
  (i, j) ≠ (old_text_ix d, new_text_ix d) →
  ∃ cell, best_predecessor ordered_float_cmp d i j = Some cell ∧ is_predecessor d i j cell.
Proof.
  intros Hs Hi Hj Hne. destruct (predecessors_spec d I J i j) as (cells&Ecells&Hall&[cell Hex]);
    [done..|]. unfold best_predecessor. rewrite Ecells. simpl.
  assert (Hscore : ∀ c, Some c ∈ cells → ∃ s, cell_score d (Some c) = Some (Some s)).
  { intros [i' j'] Hc%Hall. destruct (is_predecessor_bounds d I J i j i' j' Hi Hj Hc).
    eapply cell_score_spec; [done|lia..]. }
  destruct (mapM _ cells) as [keyed|] eqn:Ek.
  2: { exfalso. apply mapM_None, Exists_exists in Ek as ([c|]&Hc&E); [|done].
       by destruct (Hscore c Hc) as [s E']; rewrite E' in E. }
  apply mapM_Some in Ek. simpl.
  assert (Hkeyed : ∀ x, x ∈ keyed → match x with
    (Some _, Some a) => is_predecessor d i j a | (None, None) => True | _ => False end).
  { intros x [n Hx]%list_elem_of_lookup.
    destruct (Forall2_lookup_r _ _ _ _ _ Ek Hx) as (c&Hc%list_elem_of_lookup_2&E).
    destruct c as [c|]; [|by simplify_eq/=]. destruct (Hscore c Hc) as [s E'].
    rewrite E' in E. simplify_eq/=. by apply Hall. }
  assert (Hkey : ∃ x, x ∈ keyed ∧ is_Some x.1).
  { pose proof Hex as [n Hn]%list_elem_of_lookup.
    destruct (Forall2_lookup_l _ _ _ _ _ Ek Hn) as (x&Hx%list_elem_of_lookup_2&E).
    exists x. split; [done|]. destruct (Hscore cell Hex) as [s E']. rewrite E' in E.
    by simplify_eq/=. }
  destruct keyed as [|x l]; [set_solver|]. by apply max_by_score_spec.
Qed.
(** What the walk from [(I, J)] has emitted at [w]: read from its last hunk,
    it rebuilds the new text between the walk and [(I, J)], less the pending
    insertion. *)
Record walk_ok d (I J : nat) w : Prop := {
  walk_old : old_text_ix d ≤ walk_i w ≤ I;
  walk_new : new_text_ix d ≤ walk_j w ≤ J;
  walk_coalesced : coalesced (reverse (hunks w));
  walk_no_insert : not_insert (reverse (hunks w));
  walk_pending : match pending_insert w with
    | Some (a, b) => a = walk_j w ∧ a ≤ b ≤ J ∧
        apply_ops (reverse (hunks w)) (seg (old d) (walk_i w) I) = Some (seg (new d) b J, [])
    | None => apply_ops (reverse (hunks w)) (seg (old d) (walk_i w) I) =
        Some (seg (new d) (walk_j w) J, [])
    end
}.

Lemma flush_insert_spec d I J w :
  scores_ready d I J → walk_ok d I J w →
  ∃ hs, flush_insert d (pending_insert w) (hunks w) = Some hs ∧ coalesced (reverse hs) ∧
    apply_ops (reverse hs) (seg (old d) (walk_i w) I) = Some (seg (new d) (walk_j w) J, []).
Proof.
  intros (_&HJ&_) [Hi Hj Hc Hn Hp]. unfold flush_insert.
  destruct (pending_insert w) as [[a b]|]; [|by eexists].
  destruct Hp as (->&Hb&Ha). rewrite slice_range_seg by lia. simpl.
  eexists. split; [done|]. rewrite reverse_snoc, coalesced_cons. split.
  - split; [done|]. destruct (reverse (hunks w)) as [|[] ?]; simpl in *; tauto.
  - simpl. rewrite Ha. simpl. by rewrite seg_app by lia.
Qed.

Lemma backtrack_step_spec d I J w :
  scores_ready d I J → walk_ok d I J w →
  (walk_i w, walk_j w) ≠ (old_text_ix d, new_text_ix d) →
  ∃ w', backtrack_step ordered_float_cmp d w = Some w' ∧ walk_ok d I J w' ∧
    walk_i w' + walk_j w' < walk_i w + walk_j w.
Proof.
  intros Hs Hw Hne. pose proof Hw as [Hi Hj Hc Hn Hp]. pose proof Hs as (HI&HJ&_).
  destruct (best_predecessor_spec d I J (walk_i w) (walk_j w)) as ([i' j']&E&Hpred); [done..|].
  unfold backtrack_step. rewrite E. simpl.
  destruct (is_predecessor_bounds _ _ _ _ _ _ _ Hi Hj Hpred) as (Hi'&Hj'&Hlt).
  destruct (flush_insert_spec d I J w Hs Hw) as (hs&Ehs&Hch&Hah).
  destruct Hpred as [[[= -> ->] Hj1]|[[[= -> ->] Hi1]|([= -> ->]&Hi1&Hj1&Heq)]].
  - rewrite (bool_decide_true (walk_i w = walk_i w)) by done.
    rewrite (usub_le (walk_j w) 1) by lia. simpl.
    rewrite bool_decide_true by done. eexists. split; [done|]. split; [|done].
    split; simpl; [done|lia|done|done|].
    destruct (pending_insert w) as [[a b]|]; [destruct Hp as (->&?&?)|]; split_and!; (done || lia).
  - rewrite (bool_decide_false (walk_i w - 1 = walk_i w)) by lia. simpl. rewrite Ehs. simpl.
    rewrite (usub_le (walk_i w) 1) by lia. simpl.
    destruct (lookup_lt_is_Some_2 (old d) (walk_i w - 1)) as [c Ec]; [lia|]. rewrite Ec. simpl.
    rewrite bool_decide_true by done. eexists. split; [done|]. split; [|done].
    destruct (push_delete_spec hs c _ _ _ Hch Hah) as (?&?&Ha).
    split; simpl; [lia|lia|done|done|]. rewrite (seg_cons _ _ _ _ Ec) by lia.
    by replace (S (walk_i w - 1)) with (walk_i w) by lia.
  - rewrite (bool_decide_false (walk_i w - 1 = walk_i w)) by lia. simpl. rewrite Ehs. simpl.
    rewrite (usub_le (walk_i w) 1) by lia. simpl.
    destruct (lookup_lt_is_Some_2 (old d) (walk_i w - 1)) as [c Ec]; [lia|]. rewrite Ec. simpl.
    rewrite bool_decide_false by lia. eexists. split; [done|]. split; [|done].
    destruct (push_keep_spec hs c _ _ _ Hch Hah) as (?&?&Ha).
    split; simpl; [lia|lia|done|done|].
    rewrite (seg_cons _ _ _ _ Ec), (seg_cons (new d) _ _ c) by (congruence || lia).
    by replace (S (walk_i w - 1)) with (walk_i w) by lia; replace (S (walk_j w - 1)) with (walk_j w) by lia.
Qed.

Lemma backtrack_loop_spec fuel d I J w :
  scores_ready d I J → walk_ok d I J w → walk_i w + walk_j w ≤ fuel →
  ∃ w', backtrack_loop ordered_float_cmp fuel d w = Some w' ∧ walk_ok d I J w' ∧
    walk_i w' = old_text_ix d ∧ walk_j w' = new_text_ix d.
Proof.
  intros Hs. revert w. induction fuel as [|fuel IH]; intros w Hw Hf; simpl;
    destruct (decide ((walk_i w, walk_j w) = (old_text_ix d, new_text_ix d))) as [E|E];
    try (rewrite (bool_decide_true _ E); injection E as ??; by eexists).
  - destruct Hw as [Hi Hj _ _ _]. destruct E. f_equal; lia.
  - rewrite (bool_decide_false _ E).
    destruct (backtrack_step_spec d I J w Hs Hw E) as (w'&->&Hw'&Hlt). simpl.
    apply IH; [done|lia].
Qed.

(** The walk returns hunks that turn the old text of the call into its new
    text. *)
Lemma backtrack_spec d I J :
  scores_ready d I J → old_text_ix d ≤ I → new_text_ix d ≤ J →
  ∃ hs, backtrack ordered_float_cmp d I J = Some hs ∧ coalesced hs ∧
    apply_ops hs (seg (old d) (old_text_ix d) I) = Some (seg (new d) (new_text_ix d) J, []).
Proof.
  intros Hs HI HJ.
  destruct (backtrack_loop_spec (I + J) d I J (mkWalk None [] I J)) as (w&E&Hw&Ei&Ej); [done| |done|].
  { split; simpl; [lia|lia|done|done|]. by rewrite !seg_nil. }
  unfold backtrack. rewrite E. simpl.
  destruct (flush_insert_spec d I J w Hs Hw) as (hs&->&Hc&Ha). simpl.
  rewrite Ei, Ej in Ha. by eexists.
Qed.
End walk.

(** ** The matrix and the runs *)

Definition matrix_ok (m : Matrix) (r c : nat) : Prop :=
  rows m = r ∧ cols m = c ∧ length (cells m) = r * c.

Lemma Matrix_get_ok m r c i j : matrix_ok m r c → i < r → j < c → is_Some (Matrix_get m i j).
Proof.
  intros (Hr&Hc&Hl) Hi Hj. unfold Matrix_get. rewrite Hr, Hc.
  rewrite (bool_decide_true (i < r)), (bool_decide_true (j < c)) by done. simpl.
  apply lookup_lt_is_Some. rewrite Hl. nia.
Qed.

Lemma Matrix_set_ok m r c i j v :
  matrix_ok m r c → i < r → j < c → ∃ m', Matrix_set m i j v = Some m' ∧ matrix_ok m' r c.
Proof.
  intros (Hr&Hc&Hl) Hi Hj. unfold Matrix_set. rewrite Hr, Hc.
  rewrite (bool_decide_true (i < r)), (bool_decide_true (j < c)) by done. simpl.
  rewrite set_index_lt by (rewrite Hl; nia). simpl. eexists. split; [done|].
  unfold matrix_ok. simpl. by rewrite length_insert.
Qed.

Lemma Matrix_resize_ok m r c : matrix_ok (Matrix_resize m r c) r c.
Proof. unfold matrix_ok. simpl. by rewrite length_resize. Qed.

Lemma swap_columns_ok m r c a b :
  matrix_ok m r c → a < c → b < c → ∃ m', swap_columns m a b = Some m' ∧ matrix_ok m' r c.
Proof.
  intros (Hr&Hc&Hl) Ha Hb. unfold swap_columns. case_bool_decide; [by eexists|].
  rewrite Hc, (bool_decide_true (a < c)), (bool_decide_true (b < c)) by done. simpl.
  rewrite Hr, !slice_range_seg by (rewrite Hl; nia). simpl. eexists. split; [done|].
  unfold matrix_ok. simpl. by rewrite !length_inserts.
Qed.

Lemma adjacent_columns_ok m r c j :
  matrix_ok m r c → 0 < j < c → ∃ previous current, adjacent_columns m j = Some (previous, current) ∧
    length previous = r ∧ length current = r.
Proof.
  intros (Hr&Hc&Hl) Hj. unfold adjacent_columns. rewrite Hr, Hc.
  rewrite bool_decide_true by lia. simpl. rewrite usub_le by nia. simpl.
  rewrite !slice_range_seg by (rewrite Hl; nia). simpl. do 2 eexists. split; [done|].
  rewrite !length_seg by (rewrite Hl; nia). nia.
Qed.

Lemma write_column_ok m r c j current : matrix_ok m r c → matrix_ok (write_column m j current) r c.
Proof. intros (Hr&Hc&Hl). unfold matrix_ok. simpl. by rewrite length_inserts. Qed.

(** A run of equal characters that ends at [i] has at most [i] characters. *)
Definition runs_ok (n : nat) (runs : list Z) : Prop :=
  length runs = n + 1 ∧ ∀ i run, runs !! i = Some run → (0 ≤ run ≤ Z.of_nat i)%Z.

Lemma runs_ok_zero n : runs_ok n (replicate (n + 1) 0%Z).
Proof.
  split; [apply length_replicate|]. intros i run [-> _]%lookup_replicate. lia.
Qed.

Lemma runs_ok_insert n runs i run :
  runs_ok n runs → (0 ≤ run ≤ Z.of_nat i)%Z → runs_ok n (<[i:=run]> runs).
Proof.
  intros [Hl Hr] Hrun. split; [by rewrite length_insert|]. intros k r.
  destruct (decide (i = k)) as [<-|]; [|rewrite list_lookup_insert_ne by done; apply Hr].
  destruct (decide (i < length runs)); [rewrite list_lookup_insert_eq by done; congruence|].
  rewrite list_insert_ge by lia. apply Hr.
Qed.

(** ** The calls *)

Section calls.
Context (powi : f64 → Z → f64) (ordered_float_cmp : f64 → f64 → comparison).
Implicit Types d : StreamingDiff.

(** The state during a call that has [c] columns of scores; the lengths of
    the old text fit the counters of the runs. *)
Record diff_ok d (c : nat) : Prop := {
  diff_old_fits : (Z.of_nat (length (old d)) < 2 ^ 32)%Z;
  diff_old_ix : old_text_ix d ≤ length (old d);
  diff_scores : matrix_ok (scores d) (length (old d) + 1) c;
  diff_previous : runs_ok (length (old d)) (previous_equal_runs d);
  diff_current : length (current_equal_runs d) = length (old d) + 1
}.

Definition same_texts d d' : Prop :=
  old d' = old d ∧ new d' = new d ∧
  old_text_ix d' = old_text_ix d ∧ new_text_ix d' = new_text_ix d.

Lemma score_cell_ok old new_char previous_scores previous_runs st i :
  (Z.of_nat (length old) < 2 ^ 32)%Z → length previous_scores = length old + 1 →
  runs_ok (length old) previous_runs → 1 ≤ i ≤ length old →
  length st.1 = length old + 1 ∧ runs_ok (length old) st.2 →
  ∃ st', score_cell powi old new_char previous_scores previous_runs st i = Some st' ∧
    length st'.1 = length old + 1 ∧ runs_ok (length old) st'.2.
Proof.
  destruct st as [current runs]. intros Hfit Hp [Hlr Hr] Hi [Hl Hruns]. simpl in *.
  destruct (lookup_lt_is_Some_2 previous_scores i) as [s ->]; [lia|]. simpl.
  rewrite usub_le by lia. simpl.
  destruct (lookup_lt_is_Some_2 current (i - 1)) as [s' ->]; [lia|]. simpl.
  destruct (lookup_lt_is_Some_2 old (i - 1)) as [c ->]; [lia|]. simpl.
  destruct (c =? new_char)%Z; simpl.
  - destruct (lookup_lt_is_Some_2 previous_runs (i - 1)) as [run Erun]; [lia|]. rewrite Erun. simpl.
    apply Hr in Erun. unfold inc_u32. destruct (Z.ltb_spec (run + 1) (2 ^ 32)); [|lia]. simpl.
    rewrite set_index_lt by (destruct Hruns; lia). simpl.
    destruct (lookup_lt_is_Some_2 previous_scores (i - 1)) as [s2 ->]; [lia|]. simpl.
    rewrite set_index_lt by lia. simpl. eexists. split; [done|]. simpl.
    rewrite length_insert. split; [done|]. apply runs_ok_insert; [done|lia].
  - rewrite set_index_lt by lia. simpl. eexists. split; [done|]. simpl. by rewrite length_insert.
Qed.

Lemma score_column_ok d c j :
  diff_ok d c → new_text_ix d < j ≤ length (new d) → j - new_text_ix d < c →
  ∃ d', score_column powi d j = Some d' ∧ diff_ok d' c ∧ same_texts d d'.
Proof.
  intros [Hfit Hix Hm Hp Hc] Hj Hcol. unfold score_column.
  rewrite (usub_le j (new_text_ix d)), (usub_le j 1) by lia. simpl.
  destruct (lookup_lt_is_Some_2 (new d) (j - 1)) as [ch ->]; [lia|]. simpl.
  destruct (adjacent_columns_ok _ _ _ (j - new_text_ix d) Hm) as (prev&cur&->&Hlp&Hlc); [lia|]. simpl.
  rewrite set_index_lt by lia. simpl.
  destruct (foldlM_inv (λ st : list f64 * list Z, length st.1 = length (old d) + 1 ∧
      runs_ok (length (old d)) st.2)
    (score_cell powi (old d) ch prev (previous_equal_runs d))
    (<[0:=f64_mul (f64_of_usize j) INSERTION_SCORE]> cur,
     replicate (length (current_equal_runs d)) 0%Z) (seq 1 (length (old d))))
    as ([cs runs]&->&Hcs&Hruns).
  - simpl. rewrite length_insert, Hc. split; [done|apply runs_ok_zero].
  - intros st i Hi%elem_of_seq. apply score_cell_ok; (done || lia).
  - simpl. eexists. split; [done|]. split; [|done].
    split; simpl; [done|done| |done|by destruct Hp]. by apply write_column_ok.
Qed.

Lemma columns_ok d c k n :
  diff_ok d c → new_text_ix d < k → k + n ≤ length (new d) + 1 → length (new d) < new_text_ix d + c →
  ∃ d', foldlM (score_column powi) d (seq k n) = Some d' ∧ diff_ok d' c ∧ same_texts d d'.
Proof.
  intros Hd Hk Hn Hc. apply (foldlM_inv (λ d', diff_ok d' c ∧ same_texts d d')).
  - split; [done|]. by repeat split.
  - intros d' j Hj%elem_of_seq [Hd' (Eo&En&Ei&Ej)].
    destruct (score_column_ok d' c j) as (d2&E&Hd2&(?&?&?&?)); [done|rewrite ?En, ?Ej; lia..|].
    exists d2. split; [done|]. split; [done|]. unfold same_texts. split_and!; congruence.
Qed.

Lemma best_row_ok d c J :
  diff_ok d c → new_text_ix d ≤ J < new_text_ix d + c →
  ∃ st, foldlM (best_row d J) (NEG_INFINITY, old_text_ix d)
      (seq (old_text_ix d) (length (old d) + 1 - old_text_ix d)) = Some st ∧
    old_text_ix d ≤ st.2 ≤ length (old d).
Proof.
  intros [Hfit Hix Hm Hp Hc] HJ.
  apply (foldlM_inv (λ st, old_text_ix d ≤ st.2 ≤ length (old d))); [simpl; lia|].
  intros [m n] i Hi%elem_of_seq Hn. unfold best_row. rewrite usub_le by lia. simpl in *.
  destruct (Matrix_get_ok _ _ _ i (J - new_text_ix d) Hm) as [s ->]; [lia..|]. simpl.
  eexists. split; [done|]. destruct (SFltb m s); simpl; lia.
Qed.

Lemma ready_of_ok d c I :
  diff_ok d c → I ≤ length (old d) → length (new d) < new_text_ix d + c →
  scores_ready d I (length (new d)).
Proof.
  intros [Hfit Hix Hm Hp Hc] HI Hlt. split; [done|]. split; [done|]. intros i j Hi Hj.
  eapply Matrix_get_ok; [done|lia..].
Qed.

(** Between calls all the new text so far is accounted for. *)
Definition between_calls d : Prop :=
  (∃ c, diff_ok d c ∧ 0 < c) ∧ new_text_ix d = length (new d).

Lemma diff_new_ok old :
  (Z.of_nat (length old) < 2 ^ 32)%Z →
  ∃ d, diff_new old = Some d ∧ between_calls d ∧ StreamingDiff.old d = old ∧ new d = [] ∧
    old_text_ix d = 0.
Proof.
  intros Hfit. unfold diff_new, first_column.
  destruct (foldlM_inv (λ m, matrix_ok m (length old + 1) 1)
    (λ scores i, Matrix_set scores i 0 (f64_mul (f64_of_usize i) DELETION_SCORE))
    (Matrix_resize Matrix_new (length old + 1) 1) (seq 0 (length old + 1))) as (m&->&Hm).
  - apply Matrix_resize_ok.
  - intros m i Hi%elem_of_seq Hm. eapply Matrix_set_ok; [done|lia..].
  - simpl. eexists. split; [done|]. split; [|done]. split; [|done]. exists 1. split; [|lia].
    split; simpl; [done|lia|done|apply runs_ok_zero|apply length_replicate].
Qed.

Lemma push_new_ok d text :
  between_calls d →
  ∃ d' hs, push_new powi ordered_float_cmp d text = Some (d', hs) ∧ between_calls d' ∧
    old d' = old d ∧ new d' = new d ++ text ∧ old_text_ix d ≤ old_text_ix d' ≤ length (old d) ∧
    coalesced hs ∧ apply_ops hs (seg (old d) (old_text_ix d) (old_text_ix d')) = Some (text, []).
Proof.
  intros [(c&[Hfit Hix Hm Hp Hc]&Hpos) Hnew]. unfold push_new. destruct Hm as (Hr&Hcols&Hl).
  rewrite (usub_le (cols (scores d)) 1) by lia. simpl.
  destruct (swap_columns_ok (scores d) (length (old d) + 1) c 0 (cols (scores d) - 1))
    as (m&->&_); [done|lia..|]. simpl.
  rewrite usub_le by (rewrite length_app; lia). simpl.
  set (k := length (new d ++ text) - new_text_ix d).
  set (d1 := mkStreamingDiff _ _ _ _ _ _ _).
  assert (Hk : length (new d ++ text) = new_text_ix d + k) by (unfold k; rewrite length_app; lia).
  assert (Hd1 : diff_ok d1 (k + 1)) by (split; simpl; try done; apply Matrix_resize_ok).
  destruct (columns_ok d1 (k + 1) (new_text_ix d + 1) k Hd1) as (d2&->&Hd2&(Eo&En&Ei&Ej));
    [simpl; lia..|]. simpl.
  destruct (best_row_ok d2 (k + 1) (length (new d ++ text)) Hd2) as ([s I]&->&HI);
    [rewrite Ej; simpl; lia|]. simpl in *. rewrite Ei, Eo in HI.
  assert (Hready : scores_ready d2 I (length (new d2))).
  { eapply ready_of_ok; [done|rewrite Eo; lia|rewrite Ej, En; simpl; lia]. }
  rewrite En in Hready.
  destruct (backtrack_spec ordered_float_cmp d2 I (length (new d ++ text)) Hready)
    as (hs&->&Hco&Ha); [rewrite Ei; simpl; lia|rewrite Ej; simpl; lia|]. simpl.
  do 2 eexists. split; [done|]. simpl.
  rewrite Eo, En, Ei, Ej in Ha. simpl in Ha. split_and!; [|done|done|lia|lia|done|].
  - split; simpl; [|by rewrite En]. exists (k + 1). split; [|lia].
    destruct Hd2. split; simpl; try done. rewrite Eo. simpl. lia.
  - rewrite Ha. do 2 f_equal. rewrite Hnew. unfold seg.
    rewrite drop_app_length. apply take_ge. rewrite length_app. lia.
Qed.

Lemma finish_ok d :
  between_calls d →
  ∃ hs, finish ordered_float_cmp d = Some hs ∧ coalesced hs ∧
    apply_ops hs (drop (old_text_ix d) (old d)) = Some ([], []).
Proof.
  intros [(c&Hd&Hpos) Hnew]. pose proof Hd as [Hfit Hix _ _ _].
  destruct (backtrack_spec ordered_float_cmp d (length (old d)) (length (new d)))
    as (hs&E&Hco&Ha); [eapply ready_of_ok; [done|lia..]|lia|lia|].
  exists hs. split; [done|]. split; [done|].
  rewrite Hnew, seg_nil in Ha. rewrite <- Ha. f_equal. unfold seg.
  rewrite take_ge; [done|]. rewrite length_drop. lia.
Qed.

Lemma push_all_ok pieces d :
  between_calls d →
  ∃ d' hs, push_all powi ordered_float_cmp d pieces = Some (d', hs) ∧ between_calls d' ∧
    old d' = old d ∧ new d' = new d ++ concat pieces ∧
    apply_ops hs (drop (old_text_ix d) (old d)) =
      Some (concat pieces, drop (old_text_ix d') (old d)).
Proof.
  revert d. induction pieces as [|text pieces IH]; intros d Hd; simpl.
  - do 2 eexists. split; [done|]. by rewrite app_nil_r.
  - destruct (push_new_ok d text Hd) as (d1&hs&->&Hd1&Eo&En&Hi&_&Ha). simpl.
    destruct (IH d1 Hd1) as (d2&rest&->&Hd2&Eo2&En2&Ha2). simpl.
    do 2 eexists. split; [done|]. split; [done|]. split; [congruence|].
    split; [by rewrite En2, En, app_assoc|]. rewrite Eo in Ha2.
    eapply apply_ops_app; [|done].
    rewrite <- (seg_drop (old d) (old_text_ix d) (old_text_ix d1)) by lia.
    by apply (apply_ops_frame _ _ _ [] _ Ha).
Qed.
End calls.

(** ** The properties *)

(** C18: Streaming rebuilds the new text.  For an old text shorter than [2^32]
    characters, [new], any sequence of [push_new] calls and [finish] return
    without a panic, whatever [powi] computes and however scores are ordered.
    The operations emitted so far, applied to the old text, give exactly the
    pieces pushed so far and leave the old text from [old_text_ix] on; with
    those of [finish] nothing of the old text is left. *)
Theorem streaming_rebuilds powi ordered_float_cmp (old : list Z) (pieces : list (list Z)) :
  (Z.of_nat (length old) < 2 ^ 32)%Z →
  ∃ d d' ops last_ops,
    diff_new old = Some d ∧
    push_all powi ordered_float_cmp d pieces = Some (d', ops) ∧
    apply_ops ops old = Some (concat pieces, drop (old_text_ix d') old) ∧
    finish ordered_float_cmp d' = Some last_ops ∧
    apply_ops (ops ++ last_ops) old = Some (concat pieces, []).
Proof.
  intros Hfit. destruct (diff_new_ok old Hfit) as (d&E&Hd&Eo&En&Ei).
  destruct (push_all_ok powi ordered_float_cmp pieces d Hd) as (d'&ops&Ep&Hd'&Eo'&_&Ha).
  destruct (finish_ok ordered_float_cmp d' Hd') as (last_ops&Ef&_&Hl).
  rewrite Ei, drop_0, Eo in Ha. rewrite Eo', Eo in Hl.
  exists d, d', ops, last_ops. split_and!; [done..|].
  rewrite <- (app_nil_r (concat pieces)). by eapply apply_ops_app.
Qed.

(** What one call of [push_new] emits.  From a state that calls of
    [push_new] reach, the hunks of the next call turn the characters of the old
    text that the call consumes into exactly the text pushed, and no two
    neighbours of them are of one kind (runs of insertions, deletions and kept
    characters are merged). *)
Theorem push_new_emits powi ordered_float_cmp (old : list Z) (pieces : list (list Z)) (text : list Z)
    d d' ops :
  (Z.of_nat (length old) < 2 ^ 32)%Z →
  diff_new old = Some d →
  push_all powi ordered_float_cmp d pieces = Some (d', ops) →
  ∃ d2 hunks,
    push_new powi ordered_float_cmp d' text = Some (d2, hunks) ∧
    old_text_ix d' ≤ old_text_ix d2 ≤ length old ∧
    apply_ops hunks (seg old (old_text_ix d') (old_text_ix d2)) = Some (text, []) ∧
    coalesced hunks.
Proof.
  intros Hfit E Hp. destruct (diff_new_ok old Hfit) as (d0&E0&Hd&Eo&_).
  assert (d0 = d) as -> by congruence.
  destruct (push_all_ok powi ordered_float_cmp pieces d Hd) as (d1&ops1&Ep&Hd'&Eo'&_).
  assert (d1 = d') as -> by congruence.
  destruct (push_new_ok powi ordered_float_cmp d' text Hd') as (d2&hs&E2&_&_&_&Hi&Hc&Ha).
  rewrite Eo', Eo in Hi, Ha. by exists d2, hs.
Qed.

(** Repeated multiplication, and the order of the software floats. *)
Definition example_powi (b : f64) (e : Z) : f64 :=
  Nat.iter (Z.to_nat e) (f64_mul b) (f64_of_usize 1).
Definition example_cmp (a b : f64) : comparison := default Eq (SFcompare a b).

Lemma streaming_rebuilds_witness :
  ∃ d d' ops last_ops,
    diff_new [97; 98; 99; 10; 100]%Z = Some d ∧
    push_all example_powi example_cmp d [[97; 120; 99]; [10]]%Z = Some (d', ops) ∧
    apply_ops ops [97; 98; 99; 10; 100]%Z =
      Some (concat [[97; 120; 99]; [10]]%Z, drop (old_text_ix d') [97; 98; 99; 10; 100]%Z) ∧
    finish example_cmp d' = Some last_ops ∧
    apply_ops (ops ++ last_ops) [97; 98; 99; 10; 100]%Z = Some (concat [[97; 120; 99]; [10]]%Z, []).
Proof. apply streaming_rebuilds. simpl. lia. Defined.

Lemma push_new_emits_witness : ∃ d d' ops d2 hunks,
  diff_new [97; 98; 233]%Z = Some d ∧
  push_all example_powi example_cmp d [[97]]%Z = Some (d', ops) ∧
  push_new example_powi example_cmp d' [98; 233; 99]%Z = Some (d2, hunks) ∧
  apply_ops hunks (seg [97; 98; 233]%Z (old_text_ix d') (old_text_ix d2)) = Some ([98; 233; 99]%Z, []).
Proof.
  destruct (diff_new_ok [97; 98; 233]%Z) as (d&E&Hd&_); [simpl; lia|].
  destruct (push_all_ok example_powi example_cmp [[97]]%Z d Hd) as (d'&ops&Ep&_).
  destruct (push_new_emits example_powi example_cmp [97; 98; 233]%Z [[97]]%Z [98; 233; 99]%Z d d' ops)
    as (d2&hs&E2&_&Ha&_); [simpl; lia|exact E|exact Ep|].
  exists d, d', ops, d2, hs. split; [exact E|split; [exact Ep|split; [exact E2|exact Ha]]].
Defined.
