(* ===== verification/Operation.v ===== *)
(** The operations of a text buffer: [EditOperation], [UndoOperation] and
    [Operation] of [crates/text/src/text.rs].

    A full offset is a natural number and a text the list of its bytes.
    The [HashMap] of counts is the list of its entries in the order it is
    iterated, which is not specified; its keys are distinct. *)

From stdpp Require Import base numbers option list.
From S2P Require Import Prelude Clock.

Record FullOffset := MkFullOffset { full_offset : nat }.

Record EditOperation := mkEditOperation {
  edit_timestamp : Lamport;
  edit_version : Global;
  ranges : list (FullOffset * FullOffset);
  new_text : list (list Z)
}.

Record UndoOperation := mkUndoOperation {
  undo_timestamp : Lamport;
  undo_version : Global;
  counts : list (Lamport * N)
}.

Inductive Operation :=
  | OpEdit (edit : EditOperation)
  | OpUndo (undo : UndoOperation).

Definition timestamp (self : Operation) : Lamport :=
  match self with
  | OpEdit edit => edit_timestamp edit
  | OpUndo undo => undo_timestamp undo
  end.

Definition as_edit (self : Operation) : option EditOperation :=
  match self with OpEdit edit => Some edit | OpUndo _ => None end.

Definition is_edit (self : Operation) : bool :=
  match self with OpEdit _ => true | OpUndo _ => false end.

(** The keys of [counts] are those of a map. *)
Definition undo_ok (op : UndoOperation) : Prop := NoDup (fst <$> counts op).

(** The count an undo operation gives to an edit. *)
Definition count_for (e : Lamport) (op : UndoOperation) : option N :=
  snd <$> List.find (λ c, bool_decide (c.1 = e)) (counts op).
