(* ===== verification/UndoMap.v ===== *)
(** Which edits are undone: [crates/text/src/undo_map.rs].

    Every undo operation gives counts to edits; an edit is undone when the
    greatest count it has received is odd.  The map is a tree of entries keyed
    by edit and undo operation. *)

From stdpp Require Import base numbers option list.
From S2P Require Import Prelude Clock SumTree Cursor KeyedTree Operation.

Record UndoMapKey := mkUndoMapKey { edit_id : Lamport; undo_id : Lamport }.

Record UndoMapEntry := mkUndoMapEntry { entry_key : UndoMapKey; entry_count : N }.

(** The derived order: by edit, then by undo operation. *)
#[export] Instance UndoMapKey_Ord : Ord UndoMapKey := λ self other,
  then_with (cmp (edit_id self) (edit_id other)) (cmp (undo_id self) (undo_id other)).

#[export] Instance UndoMapEntry_Item : Item UndoMapEntry UndoMapKey () := λ self _, entry_key self.

#[export] Instance UndoMapEntry_KeyedItem : KeyedItem UndoMapEntry UndoMapKey := entry_key.

#[export] Instance UndoMapKey_Summary : Summary UndoMapKey () := {
  summary_zero := λ _, mkUndoMapKey Lamport_MIN Lamport_MIN;
  add_summary := λ self summary _, ord_max self summary
}.

Definition UndoMap : Type := SumTree UndoMapEntry UndoMapKey.

Definition undo_map_default : UndoMap := new ().

Definition undo_entry (undo : UndoOperation) (c : Lamport * N) : UndoMapEntry :=
  mkUndoMapEntry (mkUndoMapKey c.1 (undo_timestamp undo)) c.2.

Section undo_map.
Context (sort_unstable_by_key : list (Edit UndoMapEntry UndoMapKey) → list (Edit UndoMapEntry UndoMapKey)).

Definition insert (self : UndoMap) (undo : UndoOperation) : option UndoMap :=
  '(self, _) ← edit sort_unstable_by_key self (map (λ c, Insert (undo_entry undo c)) (counts undo)) ();
  Some self.
End undo_map.

(** The cursor at the first entry of the edit. *)
Definition seek_edit (self : UndoMap) (e : Lamport) : option (Cursor UndoMapEntry UndoMapKey UndoMapKey ()) :=
  '(cursor, _) ← seek (cursor_new self () : Cursor UndoMapEntry UndoMapKey UndoMapKey ())
    (mkUndoMapKey e Lamport_MIN) Left;
  Some cursor.

(** The loop over the cursor; [counted] says whether an undo operation counts.
    Every turn yields an entry of the tree. *)
Fixpoint max_count (fuel : nat) (counted : Lamport → bool) (e : Lamport)
    (cursor : Cursor UndoMapEntry UndoMapKey UndoMapKey ()) (undo_count : N) : option N :=
  '(cursor, entry) ← cursor_iter_next cursor;
  match entry with
  | None => Some undo_count
  | Some entry =>
      if bool_decide (edit_id (entry_key entry) ≠ e) then Some undo_count
      else match fuel with
           | O => None
           | S fuel =>
               max_count fuel counted e cursor
                 (if counted (undo_id (entry_key entry)) then N.max undo_count (entry_count entry)
                  else undo_count)
           end
  end.

Definition undo_count (self : UndoMap) (e : Lamport) : option N :=
  cursor ← seek_edit self e;
  max_count (tree_size self) (λ _, true) e cursor 0.

Definition is_undone (self : UndoMap) (e : Lamport) : option bool :=
  n ← undo_count self e; Some (n `mod` 2 =? 1)%N.

Definition was_undone (self : UndoMap) (e : Lamport) (version : Global) : option bool :=
  cursor ← seek_edit self e;
  n ← max_count (tree_size self) (observed version) e cursor 0;
  Some (n `mod` 2 =? 1)%N.

(** The counts of the operation that undoes or redoes a transaction, of
    [Buffer::undo_or_redo] in [crates/text/src/text.rs]: one more than the
    count of each of its edits.  [hash_insert] is [HashMap::insert] on the
    entries. *)
Definition hash_insert (e : Lamport) (n : N) (counts : list (Lamport * N)) : list (Lamport * N) :=
  (e, n) :: filter (λ c, c.1 ≠ e) counts.

Definition u32_saturating_add (a b : N) : N := N.min (a + b) (2 ^ 32 - 1).

Definition undo_or_redo_counts (self : UndoMap) (edit_ids : list Lamport) : option (list (Lamport * N)) :=
  foldlM (λ counts e,
      n ← undo_count self e;
      Some (hash_insert e (u32_saturating_add n 1) counts))
    [] edit_ids.
