(* ===== verification/UndoMapFacts.v ===== *)
(** The undo map holds the greatest counts, in whatever order the operations
    arrive.

    [built ops m]: the operations [ops], the newest first, built the map [m].
    Its entries are exactly the counts of the operations ([entries_of]), so
    what the loops compute is [greatest]. *)

From stdpp Require Import base numbers option list sets sorting.
From S2P Require Import Prelude Clock SumTree SumTreeFacts Cursor CursorFacts StepFacts CursorApi KeyedTree KeyedFacts Operation UndoMap.

#[local] Arguments TREE_BASE : simpl never.
#[local] Arguments Nat.mul : simpl never.

(** ** The interface of keyed trees *)

#[export] Instance UndoMapKey_OrdLaws : OrdLaws UndoMapKey.
Proof. apply (lexicographic_OrdLaws edit_id undo_id). intros [??] [??]; simpl. congruence. Qed.

Lemma Lamport_MIN_least t : cmp Lamport_MIN t ≠ Gt.
Proof.
  destruct t as [v r]. unfold cmp, Lamport_Ord, then_with, cmp, N_Ord. simpl.
  by destruct v, r.
Qed.

Lemma key_MIN_least (k : UndoMapKey) : cmp (mkUndoMapKey Lamport_MIN Lamport_MIN) k ≠ Gt.
Proof.
  destruct k as [e u]. unfold cmp, UndoMapKey_Ord, then_with. simpl.
  pose proof (Lamport_MIN_least e). pose proof (Lamport_MIN_least u).
  by destruct (cmp Lamport_MIN e).
Qed.

Lemma ord_max_ge {A} `{OrdLaws A} (a b : A) : cmp a b ≠ Gt → ord_max a b = b.
Proof. intros. unfold ord_max. by destruct (cmp a b). Qed.

#[export] Instance UndoMapKey_SummaryLaws : SummaryLaws UndoMapKey ().
Proof.
  split; simpl; try done.
  - intros cx a b c _ _ _. symmetry. apply ord_max_assoc.
  - intros cx s _. apply ord_max_ge, key_MIN_least.
Qed.

#[export] Instance UndoMapKey_DimensionLaws : DimensionLaws UndoMapKey UndoMapKey ().
Proof. intros cx d a b _ _. apply ord_max_assoc. Qed.

#[export] Instance UndoMapEntry_KeyedLaws :
  KeyedLaws UndoMapEntry UndoMapKey UndoMapKey ().
Proof.
  split; try apply _.
  - intros cx d i. apply ord_max_ge.
  - intros cx. apply key_MIN_least.
Qed.

(** ** The loop over the entries of an edit *)

(** The counts of the entries of an edit that count, in the order of the
    entries. *)
Definition counts_in (counted : Lamport → bool) (e : Lamport) (l : list UndoMapEntry) : list N :=
  omap (λ i, if bool_decide (edit_id (entry_key i) = e) && counted (undo_id (entry_key i))
             then Some (entry_count i) else None) l.

Definition maximum (l : list N) : N := foldr N.max 0%N l.

Lemma counts_in_cons counted e i l :
  counts_in counted e (i :: l) =
  (if bool_decide (edit_id (entry_key i) = e) && counted (undo_id (entry_key i))
   then [entry_count i] else []) ++ counts_in counted e l.
Proof.
  unfold counts_in. simpl. by destruct (bool_decide (edit_id (entry_key i) = e) && _).
Qed.

#[local] Arguments counts_in : simpl never.

Lemma counts_in_app counted e a b : counts_in counted e (a ++ b) = counts_in counted e a ++ counts_in counted e b.
Proof. apply omap_app. Qed.

Lemma counts_in_none counted e l :
  Forall (λ i, edit_id (entry_key i) ≠ e) l → counts_in counted e l = [].
Proof.
  induction 1 as [|i l Hi _ IH]; [done|].
  by rewrite counts_in_cons, bool_decide_eq_false_2, IH by done.
Qed.

Lemma cmp_key_edit (k k' : UndoMapKey) : cmp k k' = Lt → cmp (edit_id k) (edit_id k') ≠ Gt.
Proof.
  unfold cmp at 1, UndoMapKey_Ord, then_with. by destruct (cmp (edit_id k) (edit_id k')).
Qed.

Lemma max_count_spec fuel counted e c l1 l2 n :
  cursor_at c l1 l2 → sorted (K:=UndoMapKey) l2 →
  Forall (λ i, cmp e (edit_id (entry_key i)) ≠ Gt) l2 → length l2 ≤ fuel →
  max_count fuel counted e c n = Some (N.max n (maximum (counts_in counted e l2))).
Proof.
  revert c l1 l2 n. induction fuel as [|fuel IH]; intros c l1 l2 n Hc Hs He Hf; simpl;
    destruct (cursor_iter_next_spec c l1 l2 Hc) as (c'&->&_&Hc'); cbn [mbind option_bind];
    (destruct l2 as [|i l2]; simpl in *; [by rewrite N.max_0_r|]); [lia|].
  inversion Hs as [|? ? Hs' Hlt]; subst. inversion He as [|? ? Hi He']; subst.
  rewrite counts_in_cons. destruct (decide (edit_id (entry_key i) = e)) as [Ei|Ei].
  - rewrite (bool_decide_eq_false_2 (edit_id (entry_key i) ≠ e)) by auto.
    rewrite (bool_decide_eq_true_2 (edit_id (entry_key i) = e)) by done. simpl.
    rewrite (IH c' (l1 ++ [i]) l2); [|done|done|done|lia].
    destruct (counted (undo_id (entry_key i))); simpl; [|done]. f_equal. lia.
  - rewrite (bool_decide_eq_true_2 (edit_id (entry_key i) ≠ e)) by done.
    rewrite (bool_decide_eq_false_2 (edit_id (entry_key i) = e)) by done. simpl.
    rewrite counts_in_none; [by rewrite N.max_0_r|].
    eapply Forall_impl; [exact Hlt|]. intros j Hj Ej. apply Ei. apply cmp_key_edit in Hj.
    change (key i) with (entry_key i) in Hj. change (key j) with (entry_key j) in Hj. rewrite Ej in Hj.
    apply cmp_eq_iff. destruct (cmp (edit_id (entry_key i)) e) eqn:E; [done| |done].
    by rewrite (cmp_antisym (edit_id (entry_key i))), E in Hi.
Qed.

(** What [undo_count] and [was_undone] read from the entries. *)
Lemma count_spec counted m l e :
  keyed_tree (K:=UndoMapKey) () m l →
  (c ← seek_edit m e; max_count (tree_size m) counted e c 0%N) = Some (maximum (counts_in counted e l)).
Proof.
  intros Ht. pose proof Ht as (Hel&Hs&h&Hwf&_).
  destruct (sorted_cut l (mkUndoMapKey e Lamport_MIN) Hs) as (a&b&El&Ha&Hb&Hspan).
  set (r := option_list (lookup_key (mkUndoMapKey e Lamport_MIN) l) ++ b) in *.
  destruct (seek_key _ _ _ _ _ _ Ht Hspan) as (c&fd&Hseek&Hc&_).
  unfold seek_edit. rewrite Hseek. cbn [mbind option_bind].
  assert (Hab : sorted (K:=UndoMapKey) (a ++ r)) by by rewrite <- El.
  assert (Hr : Forall (λ i, cmp e (edit_id (entry_key i)) ≠ Gt) r).
  { unfold r. apply Forall_app. split.
    - destruct (lookup_key _ l) as [i|] eqn:E; [|constructor]. apply Forall_singleton.
      apply lookup_Some_key in E. change (key i) with (entry_key i) in E. rewrite E. by rewrite cmp_refl.
    - eapply Forall_impl; [exact Hb|]. intros i Hi. apply (cmp_key_edit _ _ Hi). }
  rewrite (max_count_spec _ _ _ _ _ _ _ Hc); [|by apply sorted_app in Hab as (_&?&_)|done|].
  - rewrite El, counts_in_app, (counts_in_none _ _ a), N.max_0_l; [done|].
    eapply Forall_impl; [exact Ha|]. intros [[e' u'] n] Hi E. simpl in E. subst e'.
    unfold cmp, UndoMapKey_Ord in Hi. simpl in Hi. rewrite cmp_refl in Hi. simpl in Hi.
    pose proof (Lamport_MIN_least u') as Hu. apply Hu, cmp_gt_lt, Hi.
  - rewrite tree_size_elements, Hel, El, length_app. lia.
Qed.

(** ** Maps built by undo operations *)

Lemma count_for_Some e op n : undo_ok op → count_for e op = Some n ↔ (e, n) ∈ counts op.
Proof.
  unfold undo_ok, count_for. intros Hnd. split.
  - destruct (List.find _ _) as [[e' n']|] eqn:E; [|done]. intros [= <-].
    apply List.find_some in E as [Hin Ee%bool_decide_eq_true]. simpl in *. subst. by apply list_elem_of_In.
  - induction (counts op) as [|[e' n'] l IH]; simpl in *; [by intros ?%not_elem_of_nil|].
    apply NoDup_cons in Hnd as [Hn Hnd]. intros [[= <- <-]|Hin]%elem_of_cons.
    + by rewrite bool_decide_eq_true_2.
    + rewrite bool_decide_eq_false_2; [by apply IH|]. intros <-. apply Hn.
      apply list_elem_of_fmap. by exists (e', n).
Qed.

(** Operations with one timestamp are one operation. *)
Definition consistent (ops : list UndoOperation) : Prop :=
  Forall undo_ok ops ∧
  ∀ a b, a ∈ ops → b ∈ ops → undo_timestamp a = undo_timestamp b → a = b.

(** The greatest count the operations that count give to an edit; zero when
    there is none. *)
Definition greatest (counted : Lamport → bool) (e : Lamport) (ops : list UndoOperation) : N :=
  maximum (omap (λ op, if counted (undo_timestamp op) then count_for e op else None) ops).

(** The entries of the map are the counts of the operations. *)
Definition entries_of (ops : list UndoOperation) (l : list UndoMapEntry) : Prop :=
  ∀ i, i ∈ l ↔ ∃ op n, op ∈ ops ∧ count_for (edit_id (entry_key i)) op = Some n ∧
    i = undo_entry op (edit_id (entry_key i), n).

Lemma le_maximum n l : n ∈ l → (n ≤ maximum l)%N.
Proof. induction 1 as [|x y l _ IH]; simpl; lia. Qed.

Lemma maximum_elem l : maximum l = 0%N ∨ maximum l ∈ l.
Proof.
  induction l as [|x l IH]; [by left|]. simpl. right.
  destruct (N.max_spec x (maximum l)) as [[Hlt ->]|[Hle ->]]; [|by left].
  destruct IH as [E|IH]; [lia|by right].
Qed.

Lemma maximum_ext a b : (∀ n, n ∈ a ↔ n ∈ b) → maximum a = maximum b.
Proof.
  intros E. apply N.le_antisymm.
  - destruct (maximum_elem a) as [->|H]; [lia|]. by apply le_maximum, E.
  - destruct (maximum_elem b) as [->|H]; [lia|]. by apply le_maximum, E.
Qed.

Lemma greatest_entries counted e ops l :
  entries_of ops l → maximum (counts_in counted e l) = greatest counted e ops.
Proof.
  intros Hl. apply maximum_ext. intros n. unfold counts_in. rewrite !list_elem_of_omap. split.
  - intros (i&Hi&Hc). destruct (bool_decide _) eqn:Ee; simpl in Hc; [|done].
    apply bool_decide_eq_true in Ee. destruct (counted _) eqn:Ec; [|done]. simplify_eq/=.
    apply Hl in Hi as (op&n&Hop&Hn&Ei). exists op. split; [done|].
    rewrite Ei in Ec. simpl in Ec. rewrite Ec, Hn. by rewrite Ei.
  - intros (op&Hop&Hc). destruct (counted (undo_timestamp op)) eqn:Ec; [|done].
    exists (undo_entry op (e, n)). split.
    + apply Hl. simpl. eauto.
    + simpl. by rewrite bool_decide_eq_true_2, Ec.
Qed.

Lemma greatest_ext counted e ops ops' :
  (∀ op, op ∈ ops ↔ op ∈ ops') → greatest counted e ops = greatest counted e ops'.
Proof.
  intros E. apply maximum_ext. intros n. rewrite !list_elem_of_omap. naive_solver.
Qed.

Section built.
Context (sort : list (Edit UndoMapEntry UndoMapKey) → list (Edit UndoMapEntry UndoMapKey)).

(** What the maps ask of the sort. *)
Definition undo_sort_ok : Prop := sorts_edits sort.

(** The maps that operations build, the newest one first; a cursor needs the
    tree to stay within its stack. *)
Inductive built : list UndoOperation → UndoMap → Prop :=
  | built_nil : built [] undo_map_default
  | built_insert ops m op m' :
      built ops m → height m < STACK_CAPACITY → insert sort m op = Some m' → built (op :: ops) m'.

Definition undo_insertions (op : UndoOperation) : list (Edit UndoMapEntry UndoMapKey) :=
  map (λ c, Insert (undo_entry op c)) (counts op).

Lemma edit_for_undo op e u :
  edit_for (mkUndoMapKey e u) (undo_insertions op) =
  if bool_decide (u = undo_timestamp op)
  then (λ n, Insert (undo_entry op (e, n))) <$> count_for e op else None.
Proof.
  unfold edit_for, undo_insertions, count_for. induction (counts op) as [|[e' n] l IH]; simpl.
  { by case_bool_decide. }
  assert (Ek : cmp (mkUndoMapKey e' (undo_timestamp op)) (mkUndoMapKey e u) = Eq ↔ e' = e ∧ u = undo_timestamp op).
  { rewrite cmp_eq_iff. naive_solver. }
  destruct (decide (e' = e ∧ u = undo_timestamp op)) as [[-> ->]|Hne].
  - rewrite !bool_decide_eq_true_2; [done|done|done|by apply Ek].
  - rewrite (bool_decide_eq_false_2 (cmp _ _ = Eq)) by by rewrite Ek. rewrite IH.
    case_bool_decide; [|done]. rewrite (bool_decide_eq_false_2 (e' = e)) by naive_solver. done.
Qed.

(** The invariant, and what one insertion adds to it. *)
Definition undo_inv (ops : list UndoOperation) (m : UndoMap) : Prop :=
  ∃ l h, elements m = l ∧ sorted (K:=UndoMapKey) l ∧ wf () h m ∧ entries_of ops l.

Lemma insert_inv ops m op :
  sorts_edits sort → consistent (op :: ops) → undo_inv ops m → height m < STACK_CAPACITY →
  ∃ m', insert sort m op = Some m' ∧ undo_inv (op :: ops) m'.
Proof.
  intros [Hperm Hsort] [Hok Huniq] (l&h&Hel&Hs&Hwf&Hent) Hh.
  rewrite (wf_height () h) in Hh by done.
  assert (Ht : keyed_tree (K:=UndoMapKey) () m l) by (split_and!; [done|done|by exists h]).
  destruct (edit_spec sort () m l (undo_insertions op) Hperm Hsort Ht)
    as (m'&h'&removed&l'&Hed&Hwf'&Hel'&Hs'&Hl&_).
  { unfold undo_insertions. rewrite <- list_fmap_compose.
    inversion Hok as [|? ? Hop _]; subst. unfold undo_ok in Hop.
    change (NoDup ((λ e, mkUndoMapKey e (undo_timestamp op)) ∘ fst <$> counts op)).
    rewrite list_fmap_compose. apply NoDup_fmap_2; [|done]. by intros ?? [= ->]. }
  exists m'. split; [unfold insert; fold (undo_insertions op); by rewrite Hed|].
  exists l', h'. split; [done|]. split; [done|]. split; [done|].
  intros [[e u] n]. simpl.
  assert (Hin : mkUndoMapEntry (mkUndoMapKey e u) n ∈ l' ↔
    lookup_key (mkUndoMapKey e u) l' = Some (mkUndoMapEntry (mkUndoMapKey e u) n)).
  { split; [|apply lookup_Some_elem]. intros Hi. by apply (lookup_sorted_elem l' _ Hs') in Hi. }
  rewrite Hin, Hl. unfold edited. rewrite edit_for_undo.
  case_bool_decide as Eu; [destruct (count_for e op) as [n'|] eqn:En|].
  - simpl. split.
    + intros [= E1 E2]. exists op, n. split; [by left|]. unfold undo_entry. simpl. split; congruence.
    + intros (op'&n2&Hop&Hn&[= E1 E2]).
      assert (op' = op) as -> by (apply Huniq; [done|by left|congruence]).
      unfold undo_entry. simpl. congruence.
  - simpl. split.
    + intros Hi%lookup_Some_elem. apply Hent in Hi as (op'&n2&Hop&Hn&Ei). simpl in *.
      exists op', n2. split; [by right|done].
    + intros (op'&n2&[->|Hop]%elem_of_cons&Hn&Ei); [congruence|].
      apply (lookup_sorted_elem l (mkUndoMapEntry (mkUndoMapKey e u) n) Hs), Hent. simpl. eauto.
  - split.
    + intros Hi%lookup_Some_elem. apply Hent in Hi as (op'&n2&Hop&Hn&Ei). simpl in *.
      exists op', n2. split; [by right|done].
    + intros (op'&n2&[->|Hop]%elem_of_cons&Hn&Ei); [by injection Ei|].
      apply (lookup_sorted_elem l (mkUndoMapEntry (mkUndoMapKey e u) n) Hs), Hent. simpl. eauto.
Qed.

Lemma built_inv ops m : sorts_edits sort → consistent ops → built ops m → undo_inv ops m.
Proof.
  intros Hsort Hc Hb. induction Hb as [|ops m op m' Hb IH Hh Hi].
  - exists [], 0. split_and!; [done|constructor|apply wf_new|].
    intros i. split; [by intros ?%not_elem_of_nil|]. by intros (?&?&?%not_elem_of_nil&_).
  - destruct (insert_inv ops m op) as (m2&Hi2&Hm2); [done|done| |done|by simplify_eq].
    apply IH. destruct Hc as [Hok Hu]. split; [by inversion Hok|].
    intros a b Ha Hb'. apply Hu; by right.
Qed.

(** What a map with the entries of the operations answers. *)
Lemma inv_counts ops m e :
  undo_inv ops m → height m < STACK_CAPACITY →
  undo_count m e = Some (greatest (λ _, true) e ops) ∧
  is_undone m e = Some (greatest (λ _, true) e ops `mod` 2 =? 1)%N ∧
  ∀ version, was_undone m e version = Some (greatest (observed version) e ops `mod` 2 =? 1)%N.
Proof.
  intros (l&h&Hel&Hs&Hwf&Hent) Hh. rewrite (wf_height () h) in Hh by done.
  assert (Ht : keyed_tree (K:=UndoMapKey) () m l) by (split_and!; [done|done|by exists h]).
  assert (Hcount : ∀ counted, (c ← seek_edit m e; max_count (tree_size m) counted e c 0%N) =
    Some (greatest counted e ops)).
  { intros counted. by rewrite (count_spec counted m l e Ht), (greatest_entries _ _ ops). }
  unfold is_undone, undo_count, was_undone. rewrite Hcount. split_and!; [done|done|].
  intros version. pose proof (Hcount (observed version)) as Hv.
  destruct (seek_edit m e) as [c|]; [|done]. simpl in *. by rewrite Hv.
Qed.

(** What a built map answers. *)
Lemma built_counts ops m e :
  sorts_edits sort → consistent ops → built ops m → height m < STACK_CAPACITY →
  undo_count m e = Some (greatest (λ _, true) e ops) ∧
  is_undone m e = Some (greatest (λ _, true) e ops `mod` 2 =? 1)%N ∧
  ∀ version, was_undone m e version = Some (greatest (observed version) e ops `mod` 2 =? 1)%N.
Proof. intros Hsort Hc Hb. by apply inv_counts, built_inv. Qed.

(** ** Undoing a transaction *)

Lemma hash_insert_spec e n cs e' n' :
  (e', n') ∈ hash_insert e n cs ↔ if decide (e' = e) then n' = n else (e', n') ∈ cs.
Proof.
  unfold hash_insert. rewrite elem_of_cons, list_elem_of_filter. simpl. case_decide; naive_solver.
Qed.

Lemma hash_insert_NoDup e n cs : NoDup (fst <$> cs) → NoDup (fst <$> hash_insert e n cs).
Proof.
  intros Hnd. unfold hash_insert. simpl. constructor.
  - intros (c&Ec&Hc)%list_elem_of_fmap. apply list_elem_of_filter in Hc as [Hne _]. simpl in Hne. done.
  - induction cs as [|[e' n'] cs IH]; [constructor|]. simpl in Hnd.
    inversion Hnd as [|? ? Hn Hnd']; subst. rewrite filter_cons. case_decide; [|by apply IH].
    simpl. constructor; [|by apply IH]. intros (c&Ec&Hc)%list_elem_of_fmap.
    apply Hn, list_elem_of_fmap. exists c. split; [done|]. by apply list_elem_of_filter in Hc as [_ ?].
Qed.

Lemma undo_or_redo_counts_spec m edit_ids :
  (∀ e, e ∈ edit_ids → is_Some (undo_count m e)) →
  ∃ cs, undo_or_redo_counts m edit_ids = Some cs ∧ NoDup (fst <$> cs) ∧
    ∀ e c, (e, c) ∈ cs ↔ e ∈ edit_ids ∧ (n ← undo_count m e; Some (u32_saturating_add n 1)) = Some c.
Proof.
  unfold undo_or_redo_counts.
  induction edit_ids as [|x l IH] using rev_ind; intros Hcount.
  { exists []. split; [done|]. split; [constructor|]. intros e c.
    split; [by intros ?%not_elem_of_nil|by intros [?%not_elem_of_nil _]]. }
  destruct IH as (cs&E&Hnd&Hcs); [intros e He; apply Hcount, elem_of_app; by left|].
  destruct (Hcount x) as [n En]; [apply elem_of_app; right; by apply list_elem_of_singleton|].
  exists (hash_insert x (u32_saturating_add n 1) cs). rewrite foldlM_app, E. simpl. rewrite En. simpl.
  split; [done|]. split; [by apply (hash_insert_NoDup x (u32_saturating_add n 1))|]. intros e c.
  rewrite hash_insert_spec, elem_of_app, list_elem_of_singleton.
  case_decide as Ee; [subst e; rewrite En; simpl; naive_solver|]. rewrite Hcs. naive_solver.
Qed.

Lemma greatest_cons counted e op ops :
  greatest counted e (op :: ops) =
  N.max (if counted (undo_timestamp op) then default 0%N (count_for e op) else 0) (greatest counted e ops).
Proof.
  unfold greatest. simpl. destruct (counted (undo_timestamp op)); [|by rewrite N.max_0_l].
  destruct (count_for e op); simpl; [done|by rewrite N.max_0_l].
Qed.

Lemma parity_succ n : ((n + 1) `mod` 2 =? 1)%N = negb (n `mod` 2 =? 1)%N.
Proof.
  rewrite N.Div0.add_mod. pose proof (N.mod_lt n 2 ltac:(done)) as Hn.
  destruct (n `mod` 2)%N as [|[p|p|]]; [done|lia|lia|done].
Qed.

(** ** Properties *)

(** A map built by undo operations, from any sort and any tree shapes,
    answers with the greatest counts: [undo_count] is the greatest count any of
    the operations gives to the edit, [is_undone] its parity, and [was_undone]
    the parity of the greatest count among the operations the version has
    observed.  Reading never panics, and the next operation can be inserted. *)
Theorem undo_map_counts ops m :
  sorts_edits sort → consistent ops → built ops m → height m < STACK_CAPACITY →
  (∀ e, undo_count m e = Some (greatest (λ _, true) e ops) ∧
    is_undone m e = Some (greatest (λ _, true) e ops `mod` 2 =? 1)%N ∧
    ∀ version, was_undone m e version = Some (greatest (observed version) e ops `mod` 2 =? 1)%N) ∧
  ∀ op, consistent (op :: ops) → ∃ m', insert sort m op = Some m' ∧ built (op :: ops) m'.
Proof.
  intros Hsort Hc Hb Hh. split; [intros e; by apply built_counts|].
  intros op Hc'. destruct (insert_inv ops m op) as (m'&Hi&_); [done..|by apply built_inv|done|].
  exists m'. split; [done|by econstructor].
Qed.

(** C29: Replicas that have received the same undo operations, in any order and
    any number of times, agree on which edits are undone, now and at any past
    version. *)
Theorem undo_map_converges ops ops' m m' :
  sorts_edits sort → consistent ops → consistent ops' →
  built ops m → built ops' m' → height m < STACK_CAPACITY → height m' < STACK_CAPACITY →
  (∀ op, op ∈ ops ↔ op ∈ ops') →
  ∀ e, undo_count m e = undo_count m' e ∧ is_undone m e = is_undone m' e ∧
    ∀ version, was_undone m e version = was_undone m' e version.
Proof.
  intros Hsort Hc Hc' Hb Hb' Hh Hh' Hops e.
  destruct (built_counts ops m e) as (->&->&Hw); [done..|].
  destruct (built_counts ops' m' e) as (->&->&Hw'); [done..|].
  rewrite (greatest_ext _ e ops ops' Hops). split; [done|]. split; [done|].
  intros version. by rewrite Hw, Hw', (greatest_ext _ e ops ops' Hops).
Qed.

(** Undoing (or redoing) a transaction with the counts [undo_or_redo] computes,
    under a fresh timestamp, counts one more for exactly the edits of the
    transaction, and changes nothing at the versions that have not observed the
    operation; as long as no count has reached the end of its [u32]. *)
Lemma undo_toggles ops m edit_ids ts version :
  sorts_edits sort → consistent ops → built ops m → height m < STACK_CAPACITY →
  (∀ op, op ∈ ops → undo_timestamp op ≠ ts) →
  (∀ e n, e ∈ edit_ids → undo_count m e = Some n → (n < 2 ^ 32 - 1)%N) →
  ∃ cs m', undo_or_redo_counts m edit_ids = Some cs ∧
    insert sort m (mkUndoOperation ts version cs) = Some m' ∧
    consistent (mkUndoOperation ts version cs :: ops) ∧
    (height m' < STACK_CAPACITY → ∀ e,
      undo_count m' e = (if decide (e ∈ edit_ids) then N.succ else id) <$> undo_count m e ∧
      ∀ v, observed v ts = false → was_undone m' e v = was_undone m e v).
Proof.
  intros Hsort Hc Hb Hh Hfresh Hfit.
  assert (Hcount : ∀ e, undo_count m e = Some (greatest (λ _, true) e ops)).
  { intros e. by apply built_counts. }
  destruct (undo_or_redo_counts_spec m edit_ids) as (cs&Ecs&Hnd&Hcs); [intros e _; by rewrite Hcount|].
  set (op := mkUndoOperation ts version cs).
  assert (Hc' : consistent (op :: ops)).
  { destruct Hc as [Hok Hu]. split; [by constructor|]. intros a b [->|Ha]%elem_of_cons [->|Hb']%elem_of_cons E;
      [done|by destruct (Hfresh b Hb')|by destruct (Hfresh a Ha)|by apply Hu]. }
  destruct (insert_inv ops m op) as (m'&Hi&_); [done..|by apply built_inv|done|].
  exists cs, m'. split; [done|]. split; [done|]. split; [done|]. intros Hh' e.
  assert (Hb' : built (op :: ops) m') by by econstructor.
  destruct (built_counts _ _ e Hsort Hc Hb Hh) as (En&_&Hw).
  destruct (built_counts _ _ e Hsort Hc' Hb' Hh') as (->&_&Hw').
  split.
  - rewrite greatest_cons, En. simpl. f_equal. case_decide as He.
    + assert (count_for e op = Some (greatest (λ _, true) e ops + 1)%N) as ->.
      { apply count_for_Some; [exact Hnd|]. apply Hcs. split; [done|]. rewrite Hcount. simpl.
        f_equal. unfold u32_saturating_add. pose proof (Hfit e _ He (Hcount e)). lia. }
      simpl. lia.
    + assert (count_for e op = None) as ->; [|by rewrite N.max_0_l].
      destruct (count_for e op) as [c|] eqn:E; [|done].
      apply count_for_Some in E; [|exact Hnd]. by apply Hcs in E as [? _].
  - intros v Hv. rewrite Hw, Hw', greatest_cons. simpl. by rewrite Hv, N.max_0_l.
Qed.
End built.

(** A sort of the standard library. *)
Definition undo_sort : list (Edit UndoMapEntry UndoMapKey) → list (Edit UndoMapEntry UndoMapKey) :=
  merge_sort edit_le.

Lemma undo_sort_sorts : undo_sort_ok undo_sort.
Proof. apply merge_sort_edits. Qed.

(** ** The properties on two edits, both undone, the first one then redone *)

Definition edit_a : Lamport := mkLamport 3 0.
Definition edit_b : Lamport := mkLamport 4 1.
Definition undo_both : UndoOperation :=
  mkUndoOperation (mkLamport 5 0) (mkGlobal [4; 4]%N) [(edit_a, 1); (edit_b, 1)]%N.
Definition redo_first : UndoOperation :=
  mkUndoOperation (mkLamport 6 1) (mkGlobal [5; 4]%N) [(edit_a, 2)]%N.

(** The map after some operations, the newest first. *)
Definition undo_sample (ops : list UndoOperation) : UndoMap :=
  foldr (λ op m, default m (insert (merge_sort edit_le) m op)) undo_map_default ops.

Lemma sample_built ops :
  ops = [redo_first; undo_both] ∨ ops = [undo_both; redo_first] →
  built (merge_sort edit_le) ops (undo_sample ops) ∧ height (undo_sample ops) < STACK_CAPACITY.
Proof.
  assert (H0 : height undo_map_default < STACK_CAPACITY) by (vm_compute; lia).
  intros [-> | ->].
  - split; [|vm_compute; lia]. apply built_insert with (undo_sample [undo_both]);
      [apply built_insert with undo_map_default; [constructor|done|by vm_compute]|vm_compute; lia|by vm_compute].
  - split; [|vm_compute; lia]. apply built_insert with (undo_sample [redo_first]);
      [apply built_insert with undo_map_default; [constructor|done|by vm_compute]|vm_compute; lia|by vm_compute].
Qed.

Lemma sample_consistent ops :
  ops = [redo_first; undo_both] ∨ ops = [undo_both; redo_first] → consistent ops.
Proof.
  assert (Hok : undo_ok redo_first ∧ undo_ok undo_both).
  { unfold undo_ok. split; apply (bool_decide_unpack _); by vm_compute. }
  destruct Hok. intros [-> | ->]; (split; [by repeat (apply Forall_cons; split)|]);
    intros a b; rewrite !elem_of_cons; intros [->|[->|[]%not_elem_of_nil]] [->|[->|[]%not_elem_of_nil]]; done.
Qed.

Lemma undo_map_counts_witness :
  undo_count (undo_sample [redo_first; undo_both]) edit_a = Some 2%N ∧
  is_undone (undo_sample [redo_first; undo_both]) edit_b = Some true ∧
  is_undone (undo_sample [redo_first; undo_both]) edit_a = Some false ∧
  was_undone (undo_sample [redo_first; undo_both]) edit_a (mkGlobal [5; 0]%N) = Some true.
Proof.
  destruct (sample_built [redo_first; undo_both]) as [Hb Hh]; [by left|].
  destruct (undo_map_counts (merge_sort edit_le) [redo_first; undo_both]
    (undo_sample [redo_first; undo_both]) merge_sort_edits
    (sample_consistent _ (or_introl eq_refl)) Hb Hh) as [H _].
  destruct (H edit_a) as (->&->&->). destruct (H edit_b) as (_&->&_).
  split_and!; by vm_compute.
Defined.

Lemma undo_map_converges_witness :
  undo_sample [redo_first; undo_both] = undo_sample [undo_both; redo_first] ∧
  is_undone (undo_sample [redo_first; undo_both]) edit_a =
  is_undone (undo_sample [undo_both; redo_first]) edit_a.
Proof.
  split; [by vm_compute|].
  destruct (sample_built [redo_first; undo_both]) as [Hb Hh]; [by left|].
  destruct (sample_built [undo_both; redo_first]) as [Hb' Hh']; [by right|].
  refine (proj1 (proj2 (undo_map_converges (merge_sort edit_le) _ _ _ _ merge_sort_edits
    (sample_consistent _ (or_introl eq_refl)) (sample_consistent _ (or_intror eq_refl))
    Hb Hb' Hh Hh' _ edit_a))).
  set_solver.
Defined.

