(* ===== verification/Bits.v ===== *)
(** 128-bit words, the bitmaps of a rope's chunks.

    A word is the Standard Library's [bits 128]; the methods of [u128] that the
    code calls are defined here.  [marks l x] relates a word to the list of its
    first bits, and every operation on words is an operation on that list. *)

From Stdlib Require Import ZArith Bits.
From stdpp Require Import base numbers option list.
From S2P Require Import Prelude.

#[local] Open Scope nat_scope.

Definition MAX_BASE : nat := 128.
Definition Bitmap : Type := bits 128.

#[export] Instance Bitmap_eq_dec : EqDecision Bitmap.
Proof.
  intros x y. destruct (decide (Zmod.unsigned x = Zmod.unsigned y)) as [E|E].
  - left. by apply Zmod.unsigned_inj.
  - right. by intros ->.
Defined.

(** ** The methods of [u128] *)

Definition testbit (x : Bitmap) (i : nat) : bool := Z.testbit (Zmod.unsigned x) (Z.of_nat i).

Definition zero : Bitmap := Zmod.zero.
Definition one : Bitmap := Zmod.one.
Definition MAX : Bitmap := Zmod.opp Zmod.one.

(** Shifts that drop all the bits from the width on, and the operators [<<] and
    [>>], which panic there. *)
Definition unbounded_shl (x : Bitmap) (k : nat) : Bitmap := Zmod.slu x (Z.of_nat k).
Definition unbounded_shr (x : Bitmap) (k : nat) : Bitmap := Zmod.sru x (Z.of_nat k).
Definition shl (x : Bitmap) (k : nat) : option Bitmap :=
  if bool_decide (k < MAX_BASE) then Some (unbounded_shl x k) else None.
Definition shr (x : Bitmap) (k : nat) : option Bitmap :=
  if bool_decide (k < MAX_BASE) then Some (unbounded_shr x k) else None.

Definition wrapping_sub (x y : Bitmap) : Bitmap := Zmod.sub x y.

Definition count_ones (x : Bitmap) : nat := length (filter (λ i, testbit x i = true) (seq 0 MAX_BASE)).

(** The first index from 0 up, and from 127 down, whose bit is set. *)
Definition trailing_zeros (x : Bitmap) : nat :=
  match list_find (λ i, testbit x i = true) (seq 0 MAX_BASE) with
  | Some (i, _) => i
  | None => MAX_BASE
  end.
Definition leading_zeros (x : Bitmap) : nat :=
  match list_find (λ i, testbit x (MAX_BASE - 1 - i) = true) (seq 0 MAX_BASE) with
  | Some (i, _) => i
  | None => MAX_BASE
  end.

(** ** The bits of a word *)

Lemma testbit_high x i : MAX_BASE ≤ i → testbit x i = false.
Proof. intros Hi. apply bits.testbit_high; unfold MAX_BASE in *; lia. Qed.

Lemma Bitmap_ext x y : (∀ i, i < MAX_BASE → testbit x i = testbit y i) → x = y.
Proof.
  intros E. apply Zmod.unsigned_inj, Z.bits_inj'. intros i Hi.
  destruct (decide (i < 128)%Z) as [Hlt|Hge].
  - rewrite <- (Z2Nat.id i) by done. apply E. unfold MAX_BASE. lia.
  - by rewrite !bits.testbit_high by lia.
Qed.

Lemma testbit_zero i : testbit zero i = false.
Proof. unfold testbit, zero. rewrite Zmod.unsigned_0. apply Z.bits_0. Qed.

Lemma testbit_and x y i : testbit (Zmod.and x y) i = testbit x i && testbit y i.
Proof. unfold testbit. by rewrite bits.unsigned_and, Z.land_spec. Qed.

Lemma testbit_or x y i : testbit (Zmod.or x y) i = testbit x i || testbit y i.
Proof. unfold testbit. by rewrite bits.unsigned_or, Z.lor_spec. Qed.

Lemma testbit_xor x y i : testbit (Zmod.xor x y) i = xorb (testbit x i) (testbit y i).
Proof. unfold testbit. by rewrite bits.unsigned_xor, Z.lxor_spec. Qed.

Lemma testbit_shl x k i :
  testbit (unbounded_shl x k) i = bool_decide (k ≤ i < MAX_BASE) && testbit x (i - k).
Proof.
  unfold testbit, unbounded_shl. rewrite bits.unsigned_slu.
  destruct (decide (i < MAX_BASE)) as [Hi|Hi].
  - rewrite Z.mod_pow2_bits_low by (unfold MAX_BASE in *; lia).
    rewrite Z.shiftl_spec by lia. destruct (decide (k ≤ i)) as [Hk|Hk].
    + rewrite bool_decide_eq_true_2 by lia. simpl. f_equal. lia.
    + rewrite bool_decide_eq_false_2 by lia. apply Z.testbit_neg_r. lia.
  - rewrite bool_decide_eq_false_2 by lia. apply Z.mod_pow2_bits_high. unfold MAX_BASE in *. lia.
Qed.

Lemma testbit_shr x k i : testbit (unbounded_shr x k) i = testbit x (i + k).
Proof.
  unfold testbit, unbounded_shr. rewrite Zmod.unsigned_sru by lia.
  rewrite Z.shiftr_spec by lia. f_equal. lia.
Qed.

Lemma testbit_MAX i : testbit MAX i = bool_decide (i < MAX_BASE).
Proof.
  unfold testbit, MAX. rewrite bits.testbit_m1 by lia. unfold MAX_BASE.
  case_bool_decide; apply andb_true_iff || apply andb_false_iff; lia.
Qed.

(** The mask of the bits below [k]. *)
Lemma testbit_mask k i : testbit (wrapping_sub (unbounded_shl one k) one) i = bool_decide (i < k ∧ i < MAX_BASE).
Proof.
  unfold testbit, wrapping_sub, unbounded_shl, one. rewrite bits.unsigned_sub, bits.unsigned_slu.
  rewrite (@bits.unsigned_1 128) by lia. rewrite Zminus_mod_idemp_l, Z.shiftl_1_l.
  assert (E : (2 ^ Z.of_nat k - 1)%Z = Z.ones (Z.of_nat k)) by (rewrite Z.ones_equiv; lia).
  rewrite E. destruct (decide (i < MAX_BASE)) as [Hi|Hi].
  - rewrite Z.mod_pow2_bits_low by (unfold MAX_BASE in *; lia). case_bool_decide as Hk.
    + apply Z.ones_spec_low. lia.
    + apply Z.ones_spec_high. lia.
  - rewrite bool_decide_eq_false_2 by lia. apply Z.mod_pow2_bits_high. unfold MAX_BASE in *. lia.
Qed.

Lemma testbit_not x i : testbit (Zmod.not x) i = bool_decide (i < MAX_BASE) && negb (testbit x i).
Proof.
  unfold testbit. rewrite bits.unsigned_not, Z.ldiff_spec. f_equal. case_bool_decide as Hi.
  - apply Z.ones_spec_low. unfold MAX_BASE in *. lia.
  - apply Z.ones_spec_high. unfold MAX_BASE in *. lia.
Qed.

Lemma testbit_one i : testbit one i = bool_decide (i = 0).
Proof.
  destruct (decide (i < MAX_BASE)) as [Hi|Hi].
  - assert (E : one = wrapping_sub (unbounded_shl one 1) one) by by vm_compute.
    rewrite E, testbit_mask. apply bool_decide_ext. unfold MAX_BASE in *. lia.
  - rewrite testbit_high by lia. by rewrite bool_decide_eq_false_2 by (unfold MAX_BASE in *; lia).
Qed.

Lemma nonzero_bit x : x ≠ zero ↔ ∃ i, i < MAX_BASE ∧ testbit x i = true.
Proof.
  split.
  - intros Hx. destruct (list_find (λ i, testbit x i = true) (seq 0 MAX_BASE)) as [[k i]|] eqn:E.
    + apply list_find_Some in E as (Hk&Hi&_). apply lookup_seq in Hk. exists i. split; [lia|done].
    + exfalso. apply Hx, Bitmap_ext. intros i Hi. rewrite testbit_zero. apply list_find_None in E.
      rewrite Forall_seq in E. apply not_true_iff_false, E. lia.
  - intros (i&_&Hi) ->. by rewrite testbit_zero in Hi.
Qed.

(** ** Words as lists of bits *)

(** The bits [l] from index 0 up, and zeros. *)
Definition marks (l : list bool) (x : Bitmap) : Prop :=
  length l ≤ MAX_BASE ∧ ∀ i, testbit x i = default false (l !! i).

(** The bits of a word. *)
Definition bits_of (x : Bitmap) : list bool := map (testbit x) (seq 0 MAX_BASE).

Definition ones (l : list bool) : nat := length (filter (λ b, b = true) l).

(** The index of the first one, or the length; and the end of the last one. *)
Fixpoint first_one (l : list bool) : nat :=
  match l with
  | [] => 0
  | b :: l => if b then 0 else S (first_one l)
  end.
Fixpoint last_end (l : list bool) : nat :=
  match l with
  | [] => 0
  | b :: l => match last_end l with O => if b then 1 else 0 | S n => S (S n) end
  end.

Lemma lookup_bits_of x i : default false (bits_of x !! i) = testbit x i.
Proof.
  unfold bits_of. destruct (decide (i < MAX_BASE)) as [Hi|Hi].
  - by rewrite list_lookup_fmap, lookup_seq_lt by done.
  - rewrite lookup_ge_None_2, testbit_high by (rewrite ?length_fmap, ?length_seq; lia). done.
Qed.

Lemma length_bits_of x : length (bits_of x) = MAX_BASE.
Proof. unfold bits_of. by rewrite length_map, length_seq. Qed.

Lemma marks_bits_of x : marks (bits_of x) x.
Proof. split; [by rewrite length_bits_of|]. intros i. by rewrite lookup_bits_of. Qed.

Lemma marks_inj l x y : marks l x → marks l y → x = y.
Proof. intros [_ Hx] [_ Hy]. apply Bitmap_ext. intros i _. by rewrite Hx, Hy. Qed.

Lemma marks_nil : marks [] zero.
Proof. split; [simpl; lia|]. intros i. by rewrite testbit_zero. Qed.

Lemma marks_extend l k x : marks l x → length l + k ≤ MAX_BASE → marks (l ++ replicate k false) x.
Proof.
  intros [_ Hx] Hl. split; [by rewrite length_app, length_replicate|]. intros i. rewrite Hx.
  destruct (decide (i < length l)) as [Hi|Hi]; [by rewrite lookup_app_l|].
  rewrite lookup_app_r by lia. rewrite (lookup_ge_None_2 l) by lia.
  destruct (replicate k false !! (i - length l)) as [b|] eqn:E; [|done].
  by apply lookup_replicate in E as [-> _].
Qed.

(** The bits of a word are its marks and zeros. *)
Lemma marks_bits l x : marks l x → bits_of x = l ++ replicate (MAX_BASE - length l) false.
Proof.
  intros Hm. destruct (marks_extend l (MAX_BASE - length l) x Hm) as [Hl Hx]; [destruct Hm; lia|].
  apply list_eq. intros i. specialize (Hx i). rewrite <- lookup_bits_of in Hx.
  destruct Hm as [Hlen _].
  destruct (decide (i < MAX_BASE)) as [Hi|Hi].
  - destruct (lookup_lt_is_Some_2 (bits_of x) i) as [b Eb]; [by rewrite length_bits_of|].
    destruct (lookup_lt_is_Some_2 (l ++ replicate (MAX_BASE - length l) false) i) as [b' Eb'];
      [rewrite length_app, length_replicate; lia|]. rewrite Eb, Eb' in *. simpl in Hx. by subst.
  - rewrite !lookup_ge_None_2; [done|rewrite length_app, length_replicate; lia|rewrite length_bits_of; lia].
Qed.

Lemma default_take (l : list bool) k i :
  default false (take k l !! i) = bool_decide (i < k) && default false (l !! i).
Proof.
  case_bool_decide; [by rewrite lookup_take_lt|]. by rewrite lookup_take_ge by lia.
Qed.

(** [x & ((1 << k) - 1)], [x >> k] and [x | (y << k)]. *)
Lemma marks_mask l x k :
  marks l x → marks (take k l) (Zmod.and x (wrapping_sub (unbounded_shl one k) one)).
Proof.
  intros [Hl Hx]. split; [rewrite length_take; lia|]. intros i.
  rewrite testbit_and, testbit_mask, Hx, default_take, andb_comm.
  destruct (decide (i < length l)) as [Hi|Hi]; [f_equal; apply bool_decide_ext; lia|].
  by rewrite (lookup_ge_None_2 l), !andb_false_r by lia.
Qed.

Lemma marks_shr l x k : marks l x → marks (drop k l) (unbounded_shr x k).
Proof.
  intros [Hl Hx]. split; [rewrite length_drop; lia|]. intros i.
  rewrite testbit_shr, Hx, lookup_drop. do 2 f_equal. lia.
Qed.

Lemma marks_or_shl a b x y :
  marks a x → marks b y → length a + length b ≤ MAX_BASE →
  marks (a ++ b) (Zmod.or x (unbounded_shl y (length a))).
Proof.
  intros [Ha Hx] [Hb Hy] Hl. split; [by rewrite length_app|]. intros i.
  rewrite testbit_or, testbit_shl, Hx, Hy. destruct (decide (i < length a)) as [Hi|Hi].
  - rewrite lookup_app_l, bool_decide_eq_false_2 by lia. apply orb_false_r.
  - rewrite lookup_app_r, (lookup_ge_None_2 a) by lia. simpl.
    destruct (decide (i < MAX_BASE)); [by rewrite bool_decide_eq_true_2 by lia|].
    rewrite bool_decide_eq_false_2, (lookup_ge_None_2 b) by lia. done.
Qed.

(** [x & !(MAX >> (BITS - k))]: the bits from [k] up. *)
Lemma marks_high l x k :
  marks l x → k ≤ length l →
  marks (replicate k false ++ drop k l) (Zmod.and x (Zmod.not (unbounded_shr MAX (MAX_BASE - k)))).
Proof.
  intros [Hl Hx] Hk. split; [rewrite length_app, length_replicate, length_drop; lia|]. intros i.
  rewrite testbit_and, testbit_not, testbit_shr, testbit_MAX, Hx.
  destruct (decide (i < k)) as [Hi|Hi].
  - rewrite (bool_decide_eq_true_2 (i + _ < _)) by lia. simpl. rewrite !andb_false_r.
    by rewrite lookup_app_l, lookup_replicate_2 by (rewrite ?length_replicate; lia).
  - rewrite (bool_decide_eq_false_2 (i + _ < _)) by lia. simpl. rewrite andb_true_r.
    rewrite lookup_app_r, length_replicate, lookup_drop by (rewrite length_replicate; lia).
    replace (k + (i - k)) with i by lia.
    destruct (decide (i < MAX_BASE)); [by rewrite bool_decide_eq_true_2, andb_true_r by done|].
    by rewrite (lookup_ge_None_2 l) by lia.
Qed.

(** ** Counting *)

Lemma ones_app a b : ones (a ++ b) = ones a + ones b.
Proof. unfold ones. by rewrite filter_app, length_app. Qed.

Lemma ones_cons b l : ones (b :: l) = Nat.b2n b + ones l.
Proof. destruct b; done. Qed.

Lemma ones_zeros k : ones (replicate k false) = 0.
Proof. induction k; [done|]. simpl. by rewrite ones_cons. Qed.

Lemma ones_length l : ones l ≤ length l.
Proof. induction l as [|b l IH]; [done|]. rewrite ones_cons. destruct b; simpl; lia. Qed.

Lemma ones_take_drop l k : ones (take k l) + ones (drop k l) = ones l.
Proof. by rewrite <- ones_app, take_drop. Qed.

Lemma ones_take_S l k b : l !! k = Some b → ones (take (S k) l) = ones (take k l) + Nat.b2n b.
Proof. intros Hk. rewrite (take_S_r _ _ _ Hk), ones_app, ones_cons. change (ones []) with 0. lia. Qed.

Lemma ones_take_le l j k : j ≤ k → ones (take j l) ≤ ones (take k l).
Proof.
  intros Hjk. replace k with (j + (k - j)) by lia. rewrite <- take_take_drop, ones_app. lia.
Qed.

Lemma ones_0 l : ones l = 0 ↔ l = replicate (length l) false.
Proof.
  split; [|intros ->; apply ones_zeros]. induction l as [|b l IH]; [done|].
  rewrite ones_cons. destruct b; simpl; [lia|]. intros H. f_equal. by apply IH.
Qed.

Lemma first_one_le l : first_one l ≤ length l.
Proof. induction l as [|[] l IH]; simpl; lia. Qed.

Lemma first_one_0 l : first_one l = length l ↔ ones l = 0.
Proof. induction l as [|[] l IH]; [done| |]; rewrite ones_cons; cbn; lia. Qed.

Lemma first_one_lt l : first_one l < length l → l !! first_one l = Some true.
Proof. induction l as [|[] l IH]; simpl; [lia|done|]. intros. apply IH. lia. Qed.

Lemma ones_take_first l k : k ≤ first_one l → ones (take k l) = 0.
Proof.
  revert k. induction l as [|[] l IH]; intros [|k] Hk; cbn in *; try done; [lia|].
  apply IH. lia.
Qed.

Lemma first_one_app a b : first_one (a ++ b) = if bool_decide (ones a = 0) then length a + first_one b else first_one a.
Proof.
  induction a as [|x a IH]; [done|]. simpl. rewrite ones_cons. destruct x; cbn; [done|].
  rewrite IH. cbn. by case_bool_decide.
Qed.

Lemma first_one_zeros k : first_one (replicate k false) = k.
Proof. induction k; simpl; congruence. Qed.

Lemma last_end_cons b l : last_end (b :: l) = if bool_decide (ones l = 0) then Nat.b2n b else S (last_end l).
Proof.
  revert b. induction l as [|x l IH]; intros b; [by destruct b|]. cbn [last_end] in *.
  rewrite (IH x) in *. rewrite ones_cons. case_bool_decide as H0.
  - destruct x; simpl; [done|]. by rewrite bool_decide_eq_true_2.
  - rewrite bool_decide_eq_false_2 by (destruct x; simpl; lia). done.
Qed.

Lemma last_end_le l : last_end l ≤ length l.
Proof. induction l as [|b l IH]; [done|]. rewrite last_end_cons. simpl. case_bool_decide; [destruct b; simpl|]; lia. Qed.

Lemma last_end_0 l : last_end l = 0 ↔ ones l = 0.
Proof.
  induction l as [|b l IH]; [done|]. rewrite last_end_cons, ones_cons.
  case_bool_decide; destruct b; simpl; lia.
Qed.

Lemma last_end_app_zeros l k : last_end (l ++ replicate k false) = last_end l.
Proof.
  induction l as [|b l IH]; simpl app.
  - apply last_end_0, ones_zeros.
  - by rewrite !last_end_cons, IH, ones_app, ones_zeros, Nat.add_0_r.
Qed.

Lemma last_end_app a b : last_end (a ++ b) = if bool_decide (ones b = 0) then last_end a else length a + last_end b.
Proof.
  induction a as [|x a IH]; simpl app.
  - case_bool_decide; [by apply last_end_0|done].
  - rewrite !last_end_cons, IH, ones_app. repeat case_bool_decide; simpl; lia || done.
Qed.

(** *** The counting methods of [u128] *)

Lemma length_filter_bits (f : nat → bool) l :
  length (filter (λ i, f i = true) l) = ones (map f l).
Proof.
  induction l as [|i l IH]; [done|]. cbn [map]. rewrite ones_cons, filter_cons.
  destruct (f i); simpl; by rewrite IH.
Qed.

Lemma count_ones_bits x : count_ones x = ones (bits_of x).
Proof. apply length_filter_bits. Qed.

Lemma count_ones_marks l x : marks l x → count_ones x = ones l.
Proof. intros Hm. by rewrite count_ones_bits, (marks_bits l x Hm), ones_app, ones_zeros, Nat.add_0_r. Qed.

Lemma list_find_bits (f : nat → bool) s n :
  match list_find (λ i, f i = true) (seq s n) with
  | Some (i, _) => i
  | None => n
  end = first_one (map f (seq s n)).
Proof.
  revert s. induction n as [|n IH]; intros s; [done|]. cbn [seq map first_one list_find].
  destruct (f s); [done|]. rewrite <- IH. simpl. by destruct (list_find _ _) as [[]|].
Qed.

Lemma trailing_zeros_bits x : trailing_zeros x = first_one (bits_of x).
Proof. apply list_find_bits. Qed.

Lemma trailing_zeros_marks l x :
  marks l x → trailing_zeros x = if bool_decide (ones l = 0) then MAX_BASE else first_one l.
Proof.
  intros Hm. rewrite trailing_zeros_bits, (marks_bits l x Hm), first_one_app, first_one_zeros.
  destruct Hm. case_bool_decide; [lia|done].
Qed.

Lemma first_one_rev l : first_one (rev l) = length l - last_end l.
Proof.
  induction l as [|b l IH]; [done|]. rewrite last_end_cons. cbn [rev length].
  rewrite first_one_app, IH, length_rev.
  assert (E : ones (rev l) = ones l).
  { clear. induction l as [|b l IH]; [done|]. cbn [rev]. rewrite ones_app, IH, !ones_cons. cbn. lia. }
  rewrite E. pose proof (last_end_le l). case_bool_decide; [destruct b; simpl; lia|]. lia.
Qed.

Lemma leading_zeros_bits x : leading_zeros x = MAX_BASE - last_end (bits_of x).
Proof.
  unfold leading_zeros. rewrite (list_find_bits (λ i, testbit x (MAX_BASE - 1 - i))).
  rewrite <- (length_bits_of x) at 2. rewrite <- first_one_rev. f_equal.
Qed.

Lemma leading_zeros_marks l x : marks l x → leading_zeros x = MAX_BASE - last_end l.
Proof. intros Hm. by rewrite leading_zeros_bits, (marks_bits l x Hm), last_end_app_zeros. Qed.

Lemma first_one_at l n :
  ones (take n l) = 0 → (l !! n = Some true ∨ n = length l) → first_one l = n.
Proof.
  revert n. induction l as [|b l IH]; intros n Hz Hn.
  { destruct Hn as [Hn|Hn]; [done|by rewrite Hn]. }
  destruct n as [|n]; cbn [take lookup list_lookup length first_one] in *; [destruct Hn as [[= ->]|Hn]; done|].
  rewrite ones_cons in Hz. destruct b; cbn in *; [lia|]. f_equal. apply IH; [done|].
  destruct Hn as [Hn|Hn]; [by left|right; lia].
Qed.

Lemma last_end_true l :
  ones l ≠ 0 → l !! (last_end l - 1) = Some true ∧ S (ones (take (last_end l - 1) l)) = ones l ∧ 0 < last_end l.
Proof.
  induction l as [|b l IH]; [done|]. rewrite last_end_cons, ones_cons. case_bool_decide as H0.
  - rewrite H0. destruct b; cbn; [|done]. intros _. split; [done|]. split; [done|lia].
  - intros _. destruct IH as (H1&H2&H3); [done|]. replace (S (last_end l) - 1) with (S (last_end l - 1)) by lia.
    split; [done|]. split; [|lia]. cbn [take]. rewrite ones_cons. lia.
Qed.

(** A set bit is known by how many are before it. *)
Lemma nth_one_unique l i j :
  l !! i = Some true → l !! j = Some true → ones (take i l) = ones (take j l) → i = j.
Proof.
  intros Hi Hj E. pose proof (ones_take_S _ _ _ Hi). pose proof (ones_take_S _ _ _ Hj). cbn in *.
  destruct (decide (i < j)); [pose proof (ones_take_le l (S i) j ltac:(lia)); lia|].
  destruct (decide (j < i)); [pose proof (ones_take_le l (S j) i ltac:(lia)); lia|]. lia.
Qed.

Lemma ones_drop_last l : ones (drop (last_end l) l) = 0.
Proof.
  destruct (decide (ones l = 0)) as [H0|H0].
  - pose proof (ones_take_drop l (last_end l)). lia.
  - destruct (last_end_true l H0) as (H1&H2&H3). pose proof (ones_take_S _ _ _ H1) as H4.
    pose proof (ones_take_drop l (last_end l)). replace (S (last_end l - 1)) with (last_end l) in H4 by lia.
    cbn in *. lia.
Qed.
