(* ===== verification/NthBit.v ===== *)
(** The n-th set bit of a word: [nth_set_bit] of [crates/rope/src/chunk.rs],
    a branchless search over population counts computed in parallel. *)

From stdpp Require Import base numbers option list.
From Stdlib Require Import ZArith Bits.
From S2P Require Import Prelude Bits.

#[local] Open Scope N_scope.

Definition u64_MAX : N := 2 ^ 64 - 1.

(** [u64] arithmetic, modulo [2^64]. *)
Definition add64 (a b : N) : N := wrap_N 64 (a + b).
Definition sub64 (a b : N) : N := wrap_N 64 (a + 2 ^ 64 - b).

(** [u64::reverse_bits]. *)
Definition reverse_bits (v : N) : N :=
  foldr (λ i acc, 2 * acc + N.b2n (N.testbit v (N.of_nat i))) 0 (rev (seq 0 64)).

(** One step of the select: the window of bits ends at [s], [n] bits are still
    to be passed from its top, and [t] has the count of its upper half in the
    low bits.  [k] is the shift of the code's mask. *)
Definition select_step (t : N) (k : N) (s n : N) : N * N :=
  (sub64 s (N.shiftr (N.land (sub64 t n) 256) k),
   sub64 n (N.land t (N.shiftr (sub64 t n) 8))).

Definition nth_set_bit_u64 (v n : N) : N :=
  let v := reverse_bits v in
  let s := 64 in
  let a := sub64 v (N.land (N.shiftr v 1) (u64_MAX / 3)) in
  let b := add64 (N.land a (u64_MAX / 5)) (N.land (N.shiftr a 2) (u64_MAX / 5)) in
  let c := N.land (add64 b (N.shiftr b 4)) (u64_MAX / 0x11) in
  let d := N.land (add64 c (N.shiftr c 8)) (u64_MAX / 0x101) in
  let t := add64 (N.shiftr d 32) (N.shiftr d 48) in
  let '(s, n) := select_step t 3 s n in
  let t := N.land (N.shiftr d (s - 16)) 0xff in
  let '(s, n) := select_step t 4 s n in
  let t := N.land (N.shiftr c (s - 8)) 0xf in
  let '(s, n) := select_step t 5 s n in
  let t := N.land (N.shiftr b (s - 4)) 0x7 in
  let '(s, n) := select_step t 6 s n in
  let t := N.land (N.shiftr a (s - 2)) 0x3 in
  let '(s, n) := select_step t 7 s n in
  let t := N.land (N.shiftr v (s - 1)) 0x1 in
  let '(s, n) := select_step t 8 s n in
  65 - s - 1.

Definition count_ones_u64 (v : N) : N :=
  foldr (λ i acc, N.b2n (N.testbit v (N.of_nat i)) + acc) 0 (seq 0 64).

Definition nth_set_bit (v : Bitmap) (n : nat) : nat :=
  let v := Z.to_N (Zmod.unsigned v) in
  let low := wrap_N 64 v in
  let high := wrap_N 64 (N.shiftr v 64) in
  let low_count := N.to_nat (count_ones_u64 low) in
  if bool_decide (low_count < n)%nat then
    64 + N.to_nat (nth_set_bit_u64 high (N.of_nat (n - low_count)))
  else N.to_nat (nth_set_bit_u64 low (N.of_nat n)).

(** ** Fields *)

Fixpoint pack (w : N) (l : list N) : N :=
  match l with
  | [] => 0
  | x :: l => x + 2 ^ w * pack w l
  end.

Definition fields (w : N) (l : list N) : Prop := Forall (λ x, x < 2 ^ w) l.

Lemma land_low w a m : m < 2 ^ w → N.land (a * 2 ^ w) m = 0.
Proof.
  intros Hm. apply N.bits_inj. intros i. rewrite N.land_spec, N.bits_0.
  destruct (decide (i < w)).
  - by rewrite N.mul_pow2_bits_low.
  - apply andb_false_iff. right. destruct (decide (m = 0)) as [->|Hne]; [apply N.bits_0|].
    apply N.bits_above_log2. apply N.log2_lt_pow2; [lia|].
    eapply N.lt_le_trans; [exact Hm|]. apply N.pow_le_mono_r; lia.
Qed.

Lemma land_split w x m a b :
  x < 2 ^ w → m < 2 ^ w →
  N.land (x + 2 ^ w * a) (m + 2 ^ w * b) = N.land x m + 2 ^ w * N.land a b.
Proof.
  intros Hx Hm. rewrite (N.mul_comm _ a), (N.mul_comm _ b), (N.mul_comm _ (N.land a b)).
  rewrite (N.add_comm x), (N.add_comm m), (N.add_comm (N.land x m)).
  assert (Hl : N.land x m < 2 ^ w) by (eapply N.le_lt_trans; [apply N.land_le_l|exact Hx]).
  rewrite <- (lor_pack_N w a x Hx), <- (lor_pack_N w b m Hm), <- (lor_pack_N w (N.land a b) _ Hl).
  rewrite N.land_lor_distr_l, !N.land_lor_distr_r, (land_low w a m Hm).
  rewrite (N.land_comm x (b * 2 ^ w)), (land_low w b x Hx).
  rewrite N.lor_0_r, N.lor_0_l. f_equal. rewrite <- !N.shiftl_mul_pow2. by rewrite N.shiftl_land.
Qed.

Lemma mod_split w x a : x < 2 ^ w → (x + 2 ^ w * a) `mod` 2 ^ w = x.
Proof.
  intros Hx. rewrite (N.mul_comm _ a), N.Div0.mod_add. by apply N.mod_small.
Qed.

Lemma shiftr_split w x a : x < 2 ^ w → N.shiftr (x + 2 ^ w * a) w = a.
Proof.
  intros Hx. rewrite N.shiftr_div_pow2, (N.mul_comm _ a), N.div_add by (apply N.pow_nonzero; lia).
  by rewrite N.div_small by done.
Qed.

Lemma pack_lt w l : fields w l → pack w l < 2 ^ (w * N.of_nat (length l)).
Proof.
  induction 1 as [|x l Hx _ IH]; cbn [pack length]; [rewrite N.mul_0_r; done|].
  rewrite Nat2N.inj_succ, N.mul_succ_r, N.pow_add_r. nia.
Qed.

Lemma shiftr_pack w l i : fields w l → N.shiftr (pack w l) (w * N.of_nat i) = pack w (drop i l).
Proof.
  intros Hl. revert i. induction Hl as [|x l Hx _ IH]; intros i; [rewrite drop_nil; apply N.shiftr_0_l|].
  destruct i as [|i]; [by rewrite N.mul_0_r, N.shiftr_0_r|]. cbn [drop pack].
  rewrite Nat2N.inj_succ, N.mul_succ_r, (N.add_comm (w * _) w), <- N.shiftr_shiftr, shiftr_split by done. apply IH.
Qed.

(** The low [m] bits of the first field. *)
Lemma pack_head w m x l :
  x < 2 ^ m → m ≤ w → N.land (pack w (x :: l)) (N.ones m) = x.
Proof.
  intros Hx Hm. rewrite N.land_ones. cbn [pack].
  replace (2 ^ w) with (2 ^ m * 2 ^ (w - m)) by (rewrite <- N.pow_add_r; f_equal; lia).
  rewrite <- N.mul_assoc. by apply mod_split.
Qed.

(** ** Adding neighbours *)

Definition flat (ps : list (N * N)) : list N := flat_map (λ p, [p.1; p.2]) ps.
Definition sums (ps : list (N * N)) : list N := map (λ p, p.1 + p.2) ps.

(** The mask of the even fields. *)
Definition even_mask (w : N) (n : nat) : N := pack (2 * w) (replicate n (N.ones w)).

Lemma ones_lt w : N.ones w < 2 ^ w.
Proof. rewrite N.ones_equiv. pose proof (N.pow_nonzero 2 w). lia. Qed.

Lemma pow_double w : 2 ^ (2 * w) = 2 ^ w * 2 ^ w.
Proof. rewrite <- N.pow_add_r. f_equal. lia. Qed.

Lemma pack_flat_cons w x y ps :
  pack w (flat ((x, y) :: ps)) = (x + 2 ^ w * y) + 2 ^ (2 * w) * pack w (flat ps).
Proof. cbn [flat flat_map app pack fst snd]. rewrite pow_double. unfold flat. lia. Qed.

Lemma field_pair w x y : x < 2 ^ w → y < 2 ^ w → x + 2 ^ w * y < 2 ^ (2 * w).
Proof. intros Hx Hy. rewrite pow_double. nia. Qed.

Lemma ones_double w : N.ones w < 2 ^ (2 * w).
Proof. pose proof (ones_lt w). rewrite pow_double. nia. Qed.

Lemma evens w ps :
  fields w (flat ps) →
  N.land (pack w (flat ps)) (even_mask w (length ps)) = pack (2 * w) (map fst ps).
Proof.
  induction ps as [|[x y] ps IH]; intros Hf; [done|].
  change (flat ((x, y) :: ps)) with (x :: y :: flat ps) in Hf.
  apply Forall_cons in Hf as [Hx Hf]. apply Forall_cons in Hf as [Hy Hf].
  rewrite pack_flat_cons. unfold even_mask. cbn [length replicate pack map fst].
  rewrite land_split; [|by apply field_pair|apply ones_double].
  rewrite N.land_ones, mod_split by done. f_equal. f_equal. by apply IH.
Qed.

Lemma odds w ps :
  fields w (flat ps) →
  N.land (N.shiftr (pack w (flat ps)) w) (even_mask w (length ps)) = pack (2 * w) (map snd ps).
Proof.
  induction ps as [|[x y] ps IH]; intros Hf; [apply N.land_0_r|].
  change (flat ((x, y) :: ps)) with (x :: y :: flat ps) in Hf.
  apply Forall_cons in Hf as [Hx Hf]. apply Forall_cons in Hf as [Hy Hf].
  rewrite pack_flat_cons. unfold even_mask. cbn [length replicate pack map snd].
  rewrite pow_double. replace (x + 2 ^ w * y + 2 ^ w * 2 ^ w * pack w (flat ps))
    with (x + 2 ^ w * (y + 2 ^ w * pack w (flat ps))) by lia.
  rewrite shiftr_split by done. rewrite <- pow_double.
  set (r := pack w (flat ps)) in *.
  assert (E : y + 2 ^ w * r = (y + 2 ^ w * (r `mod` 2 ^ w)) + 2 ^ (2 * w) * N.shiftr r w).
  { rewrite N.shiftr_div_pow2, pow_double. pose proof (N.div_mod r (2 ^ w) (N.pow_nonzero 2 w ltac:(lia))). nia. }
  rewrite E, land_split; [|apply field_pair; [done|apply N.mod_lt, N.pow_nonzero; lia]|apply ones_double].
  rewrite N.land_ones, mod_split by done. f_equal. f_equal. by apply IH.
Qed.

Lemma pack_add w l k : length l = length k → pack w l + pack w k = pack w (zip_with N.add l k).
Proof.
  revert k. induction l as [|x l IH]; intros [|y k] E; try done. cbn [pack zip_with].
  rewrite <- IH by by injection E. lia.
Qed.

Lemma zip_sums ps : zip_with N.add (map fst ps) (map snd ps) = sums ps.
Proof. induction ps as [|p ps IH]; [done|]. cbn. by rewrite IH. Qed.

(** [(x & mask) + ((x >> w) & mask)]. *)
Lemma neighbours w ps :
  fields w (flat ps) →
  N.land (pack w (flat ps)) (even_mask w (length ps)) +
  N.land (N.shiftr (pack w (flat ps)) w) (even_mask w (length ps)) = pack (2 * w) (sums ps).
Proof.
  intros Hf. rewrite evens, odds, pack_add, zip_sums by (done || by rewrite !length_map). done.
Qed.

(** [x - ((x >> 1) & mask)], on single bits. *)
Lemma neighbours_sub ps :
  fields 1 (flat ps) →
  pack 1 (flat ps) - N.land (N.shiftr (pack 1 (flat ps)) 1) (even_mask 1 (length ps)) = pack 2 (sums ps).
Proof.
  intros Hf. rewrite odds by done. cut (pack 1 (flat ps) = pack 2 (sums ps) + pack (2 * 1) (map snd ps)); [lia|].
  clear Hf. induction ps as [|[x y] ps IH]; [done|]. rewrite pack_flat_cons, IH.
  cbn [sums map pack fst snd]. change (2 * 1) with 2. change (2 ^ 1) with 2. change (2 ^ 2) with 4. fold (sums ps). lia.
Qed.

(** [(x + (x >> w)) & mask], when neighbours add up without a carry. *)
Definition small (w : N) (l : list N) : Prop := Forall (λ x, 2 * x < 2 ^ w) l.

Lemma small_fields w l : small w l → fields w l.
Proof. intros Hl. eapply Forall_impl; [exact Hl|]. intros x ?. cbn in *. lia. Qed.

Lemma small_head w l : small w l → 2 * (pack w l `mod` 2 ^ w) < 2 ^ w.
Proof.
  destruct 1 as [|x l Hx _]; cbn [pack].
  - rewrite N.Div0.mod_0_l. pose proof (N.pow_nonzero 2 w). lia.
  - rewrite mod_split by lia. done.
Qed.

Lemma neighbours_mask w ps :
  small w (flat ps) →
  N.land (pack w (flat ps) + N.shiftr (pack w (flat ps)) w) (even_mask w (length ps)) = pack (2 * w) (sums ps).
Proof.
  induction ps as [|[x y] ps IH]; intros Hf; [apply N.land_0_r|].
  change (flat ((x, y) :: ps)) with (x :: y :: flat ps) in Hf.
  apply Forall_cons in Hf as [Hx Hf]. apply Forall_cons in Hf as [Hy Hf].
  pose proof (small_head w _ Hf) as Hr. specialize (IH Hf). cbn beta in Hx, Hy.
  rewrite pack_flat_cons. unfold even_mask. cbn [length replicate pack sums map fst snd].
  set (r := pack w (flat ps)) in *. fold (even_mask w (length ps)).
  assert (E : N.shiftr (x + 2 ^ w * y + 2 ^ (2 * w) * r) w =
    (y + 2 ^ w * (r `mod` 2 ^ w)) + 2 ^ (2 * w) * N.shiftr r w).
  { rewrite pow_double. replace (x + 2 ^ w * y + 2 ^ w * 2 ^ w * r) with (x + 2 ^ w * (y + 2 ^ w * r)) by lia.
    rewrite shiftr_split by lia. rewrite N.shiftr_div_pow2.
    pose proof (N.div_mod r (2 ^ w) (N.pow_nonzero 2 w ltac:(lia))). nia. }
  rewrite E.
  replace (x + 2 ^ w * y + 2 ^ (2 * w) * r + (y + 2 ^ w * (r `mod` 2 ^ w) + 2 ^ (2 * w) * N.shiftr r w))
    with (((x + y) + 2 ^ w * (y + r `mod` 2 ^ w)) + 2 ^ (2 * w) * (r + N.shiftr r w)) by lia.
  rewrite land_split; [|apply field_pair; lia|apply ones_double].
  rewrite N.land_ones, mod_split by lia. by rewrite IH.
Qed.

(** ** Prefix sums of the fields *)

Definition psum (i : nat) (l : list N) : N := foldr N.add 0 (take i l).

Fixpoint pairs (l : list N) : list (N * N) :=
  match l with
  | x :: y :: l => (x, y) :: pairs l
  | _ => []
  end.

(** The fields of the next level. *)
Definition merge (l : list N) : list N := sums (pairs l).

Lemma pairs_spec n l : length l = (2 * n)%nat → flat (pairs l) = l ∧ length (pairs l) = n.
Proof.
  revert l. induction n as [|n IH]; intros l Hl; [by destruct l|].
  destruct l as [|x [|y l]]; simpl in Hl; [lia|lia|].
  destruct (IH l) as [E1 E2]; [lia|]. simpl. split; [|by rewrite E2].
  change (flat ((x, y) :: pairs l)) with (x :: y :: flat (pairs l)). by rewrite E1.
Qed.

Lemma length_merge n l : length l = (2 * n)%nat → length (merge l) = n.
Proof. intros Hl. unfold merge, sums. rewrite length_map. by apply pairs_spec. Qed.

Definition at_most (m : N) (l : list N) : Prop := Forall (λ x, x ≤ m) l.

Lemma merge_at_most n m l : length l = (2 * n)%nat → at_most m l → at_most (2 * m) (merge l).
Proof.
  revert l. induction n as [|n IH]; intros l Hl Hm; [destruct l; [constructor|done]|].
  destruct l as [|x [|y l]]; simpl in Hl; [lia|lia|].
  apply Forall_cons in Hm as [Hx Hm]. apply Forall_cons in Hm as [Hy Hm].
  apply Forall_cons. split; [cbn in *; lia|]. apply IH; [lia|done].
Qed.

Lemma psum_merge n l i : length l = (2 * n)%nat → psum i (merge l) = psum (2 * i) l.
Proof.
  revert l i. induction n as [|n IH]; intros l i Hl.
  { destruct l; [|done]. unfold psum, merge. simpl. by rewrite !take_nil. }
  destruct l as [|x [|y l]]; simpl in Hl; [lia|lia|]. destruct i as [|i]; [done|].
  replace (2 * S i)%nat with (S (S (2 * i))) by lia. unfold psum, merge in *. cbn [pairs sums map take foldr fst snd].
  fold (sums (pairs l)). rewrite (IH l i) by lia. lia.
Qed.

Lemma psum_S i l x : l !! i = Some x → psum (S i) l = psum i l + x.
Proof.
  intros Hi. unfold psum. rewrite (take_S_r _ _ _ Hi), foldr_app. cbn.
  induction (take i l) as [|y k IH]; cbn; lia.
Qed.

Lemma at_most_fields w m l : m < 2 ^ w → at_most m l → fields w l.
Proof. intros Hm Hl. eapply Forall_impl; [exact Hl|]. cbn. lia. Qed.

(** Reading one field. *)
Lemma read_field w m M l j x :
  at_most M l → M < 2 ^ m → m ≤ w → l !! j = Some x →
  N.land (N.shiftr (pack w l) (w * N.of_nat j)) (N.ones m) = x ∧ x ≤ M.
Proof.
  intros Hl HM Hm Hj. assert (Hx : x ≤ M) by (unfold at_most in Hl; rewrite Forall_lookup in Hl; by apply (Hl j)).
  split; [|done]. rewrite shiftr_pack.
  - rewrite (drop_S l x j Hj). apply pack_head; [lia|done].
  - apply at_most_fields with M; [|done]. eapply N.lt_le_trans; [exact HM|]. apply N.pow_le_mono_r; lia.
Qed.

(** ** The select *)

Definition range (n : nat) : list N := map N.of_nat (seq 0 n).

Lemma range_elem n x : x < N.of_nat n → x ∈ range n.
Proof.
  intros Hx. unfold range. rewrite <- (N2Nat.id x). apply list_elem_of_fmap_2. apply elem_of_seq. lia.
Qed.

Definition borrows (t lo n : N) : bool :=
  (N.land (sub64 t n) 256 =? if lo <? n then 256 else 0) &&
  (N.land t (N.shiftr (sub64 t n) 8) =? if lo <? n then lo else 0).

Lemma borrow_first lo hi n : lo < 33 → hi < 17 → n < 65 → borrows (lo + 65536 * hi) lo n = true.
Proof.
  intros Hlo Hhi Hn.
  assert (H : forallb (λ lo, forallb (λ hi, forallb (λ n, borrows (lo + 65536 * hi) lo n) (range 65)) (range 17)) (range 33) = true)
    by by vm_compute.
  rewrite forallb_forall in H. specialize (H lo). rewrite <- list_elem_of_In in H.
  specialize (H (range_elem 33 lo Hlo)). rewrite forallb_forall in H. specialize (H hi).
  rewrite <- list_elem_of_In in H. specialize (H (range_elem 17 hi Hhi)).
  rewrite forallb_forall in H. specialize (H n). rewrite <- list_elem_of_In in H. by apply H, range_elem.
Qed.

(** A window of bits that has the one looked for: [K] ones are below it. *)
Definition window (l : list N) (K : N) (s w : nat) (n : N) : Prop :=
  psum s l = K + n ∧ 1 ≤ n ≤ 64 ∧ (w ≤ s ≤ 64)%nat ∧ psum (s - w) l ≤ K.

Lemma select_spec l K s h n t lo k :
  window l K s (2 * h) n → borrows t lo n = true → psum (s - h) l + lo = psum s l → lo ≤ 64 →
  N.of_nat h = 2 ^ (8 - k) → k ≤ 8 →
  ∃ s' n', select_step t k (N.of_nat s) n = (N.of_nat s', n') ∧ window l K s' h n' ∧ (s' = s ∨ s' = s - h)%nat.
Proof.
  intros (Hs&Hn&Hw&HK) [E1 E2]%andb_true_iff Ht Hlo Hh Hk. apply N.eqb_eq in E1, E2.
  unfold select_step. rewrite E1, E2. destruct (N.ltb_spec lo n) as [Hlt|Hge].
  - exists (s - h)%nat, (n - lo). split.
    + f_equal.
      * change 256 with (2 ^ 8). rewrite N.shiftr_div_pow2, <- N.pow_sub_r by lia. rewrite <- Hh.
        unfold sub64, wrap_N. replace (N.of_nat s + 2 ^ 64 - N.of_nat h) with (N.of_nat (s - h) + 1 * 2 ^ 64) by lia.
        rewrite N.Div0.mod_add. apply N.mod_small. lia.
      * unfold sub64, wrap_N. replace (n + 2 ^ 64 - lo) with ((n - lo) + 1 * 2 ^ 64) by lia.
        rewrite N.Div0.mod_add. apply N.mod_small. lia.
    + split; [|by right]. unfold window. replace (s - h - h)%nat with (s - 2 * h)%nat by lia. lia.
  - exists s, n. split; [|split; [|by left]].
    + rewrite N.shiftr_0_l. unfold sub64, wrap_N. rewrite !N.sub_0_r.
      f_equal; rewrite <- (N.mul_1_l (2 ^ 64)) at 1; rewrite N.Div0.mod_add; apply N.mod_small; lia.
    + unfold window. lia.
Qed.

(** ** The levels of the code *)

Lemma sub64_le a b : a < 2 ^ 64 → b ≤ a → sub64 a b = a - b.
Proof.
  intros Ha Hb. unfold sub64, wrap_N. replace (a + 2 ^ 64 - b) with ((a - b) + 1 * 2 ^ 64) by lia.
  rewrite N.Div0.mod_add. apply N.mod_small. lia.
Qed.

Lemma pack_le w m l : at_most m l → pack w l ≤ m * pack w (replicate (length l) 1).
Proof.
  induction 1 as [|x l Hx _ IH]; cbn [pack length replicate]; [lia|]. nia.
Qed.

Lemma shiftr_le a k : N.shiftr a k ≤ a.
Proof. rewrite N.shiftr_div_pow2. apply N.Div0.div_le_upper_bound. pose proof (N.pow_nonzero 2 k). nia. Qed.

(** The sum of two words whose fields have room. *)
Lemma add64_room w m n l k :
  length l = n → at_most m l → 2 * m * pack w (replicate n 1) < 2 ^ 64 →
  add64 (pack w l) (N.shiftr (pack w l) k) = pack w l + N.shiftr (pack w l) k.
Proof.
  intros <- Hl Hm. pose proof (pack_le w m l Hl). pose proof (shiftr_le (pack w l) k).
  unfold add64. apply wrap_N_id. unfold fits. nia.
Qed.

Section levels.
Context (W : list N) (HlW : length W = 64%nat) (HW : at_most 1 W).

Definition level_a : list N := merge W.
Definition level_b : list N := merge level_a.
Definition level_c : list N := merge level_b.
Definition level_d : list N := merge level_c.

Lemma levels_length :
  length level_a = 32%nat ∧ length level_b = 16%nat ∧ length level_c = 8%nat ∧ length level_d = 4%nat.
Proof. repeat split; repeat (apply length_merge; try done). Qed.

Lemma levels_at_most :
  at_most 2 level_a ∧ at_most 4 level_b ∧ at_most 8 level_c ∧ at_most 16 level_d.
Proof.
  destruct levels_length as (Ha&Hb&Hc&_).
  assert (H1 : at_most 2 level_a) by by apply (merge_at_most 32 1).
  assert (H2 : at_most 4 level_b) by by apply (merge_at_most 16 2).
  assert (H3 : at_most 8 level_c) by by apply (merge_at_most 8 4).
  split_and!; try done. by apply (merge_at_most 4 8).
Qed.

Lemma levels_psum j :
  psum j level_a = psum (2 * j) W ∧ psum j level_b = psum (4 * j) W ∧
  psum j level_c = psum (8 * j) W ∧ psum j level_d = psum (16 * j) W.
Proof.
  destruct levels_length as (Ha&Hb&Hc&_). unfold level_d. rewrite (psum_merge 4) by done.
  unfold level_c at 1 2. rewrite !(psum_merge 8) by done. unfold level_b at 1 2 3. rewrite !(psum_merge 16) by done.
  unfold level_a. rewrite !(psum_merge 32) by done. split_and!; f_equal; lia.
Qed.

Lemma word_a : sub64 (pack 1 W) (N.land (N.shiftr (pack 1 W) 1) (u64_MAX / 3)) = pack 2 level_a.
Proof.
  destruct (pairs_spec 32 W HlW) as [E El].
  change (u64_MAX / 3) with (even_mask 1 32). rewrite sub64_le.
  - rewrite <- E at 1 2. rewrite <- El. apply neighbours_sub. rewrite E. by apply at_most_fields with 1.
  - replace 64 with (1 * N.of_nat (length W)) by (rewrite HlW; done). apply pack_lt. by apply at_most_fields with 1.
  - eapply N.le_trans; [apply N.land_le_l|apply shiftr_le].
Qed.

Lemma word_b :
  add64 (N.land (pack 2 level_a) (u64_MAX / 5)) (N.land (N.shiftr (pack 2 level_a) 2) (u64_MAX / 5)) = pack 4 level_b.
Proof.
  destruct levels_length as (Ha&Hb&_), levels_at_most as (Ha2&Hb4&_). destruct (pairs_spec 16 level_a Ha) as [E El].
  change (u64_MAX / 5) with (even_mask 2 16). rewrite <- E at 1 2. rewrite <- El. unfold add64.
  rewrite neighbours by (rewrite E; by apply at_most_fields with 2). apply wrap_N_id. unfold fits.
  replace 64 with (2 * 2 * N.of_nat (length level_b)) by (rewrite Hb; done). apply pack_lt.
  by apply at_most_fields with 4.
Qed.

Lemma word_c :
  N.land (add64 (pack 4 level_b) (N.shiftr (pack 4 level_b) 4)) (u64_MAX / 0x11) = pack 8 level_c.
Proof.
  destruct levels_length as (_&Hb&_), levels_at_most as (_&Hb4&_). destruct (pairs_spec 8 level_b Hb) as [E El].
  rewrite (add64_room 4 4 16) by (done || by vm_compute).
  change (u64_MAX / 0x11) with (even_mask 4 8). rewrite <- E at 1 2. rewrite <- El.
  apply neighbours_mask. rewrite E. eapply Forall_impl; [exact Hb4|]. cbn. lia.
Qed.

Lemma word_d :
  N.land (add64 (pack 8 level_c) (N.shiftr (pack 8 level_c) 8)) (u64_MAX / 0x101) = pack 16 level_d.
Proof.
  destruct levels_length as (_&_&Hc&_), levels_at_most as (_&_&Hc8&_). destruct (pairs_spec 4 level_c Hc) as [E El].
  rewrite (add64_room 8 8 8) by (done || by vm_compute).
  change (u64_MAX / 0x101) with (even_mask 8 4). rewrite <- E at 1 2. rewrite <- El.
  apply neighbours_mask. rewrite E. eapply Forall_impl; [exact Hc8|]. cbn. lia.
Qed.

(** The first step reads two fields at once. *)
Lemma first_step K n :
  window W K 64 64 n →
  ∃ s' n', select_step (add64 (N.shiftr (pack 16 level_d) 32) (N.shiftr (pack 16 level_d) 48)) 3 64 n =
    (N.of_nat s', n') ∧ window W K s' 32 n' ∧ ∃ i, s' = (32 * i)%nat.
Proof.
  intros Hw. destruct levels_length as (_&_&_&Hd), levels_at_most as (_&_&_&Hd16).
  destruct (levels_psum 4) as (_&_&_&P4). destruct (levels_psum 2) as (_&_&_&P2).
  destruct level_d as [|d0 [|d1 [|d2 [|d3 [|]]]]]; try done.
  assert (Hf : fields 16 [d0; d1; d2; d3]) by by apply at_most_fields with 16.
  pose proof (shiftr_pack 16 _ 2 Hf) as E2. pose proof (shiftr_pack 16 _ 3 Hf) as E3.
  change (16 * N.of_nat 2) with 32 in E2. change (16 * N.of_nat 3) with 48 in E3. rewrite E2, E3.
  unfold at_most in Hd16. rewrite !Forall_cons in Hd16. destruct Hd16 as (_&_&H2&H3&_).
  assert (Et : add64 (pack 16 (drop 2 [d0; d1; d2; d3])) (pack 16 (drop 3 [d0; d1; d2; d3])) =
    (d2 + d3) + 65536 * d3).
  { cbn [drop pack]. change (2 ^ 16) with 65536. unfold add64. rewrite wrap_N_id by (unfold fits; lia). lia. }
  rewrite Et. pose proof Hw as (_&Hn&_).
  destruct (select_spec W K 64 32 n ((d2 + d3) + 65536 * d3) (d2 + d3) 3 Hw) as (s'&n'&Es&Hw'&Hs').
  - apply borrow_first; lia.
  - change (64 - 32)%nat with (16 * 2)%nat. change 64%nat with (16 * 4)%nat. rewrite <- P2, <- P4. cbn. lia.
  - lia.
  - done.
  - lia.
  - exists s', n'. split; [exact Es|]. split; [done|]. destruct Hs' as [-> | ->]; [by exists 2%nat|by exists 1%nat].
Qed.

(** The others read the field at the top of the window. *)
Lemma next_step K s n L h m M k :
  window W K s (2 * h) n → (∃ i, s = (2 * h * i)%nat) → (1 ≤ h)%nat →
  (∀ j, psum j L = psum (h * j) W) → (length L * h = 64)%nat → at_most M L → M < 2 ^ m → M < 33 →
  m ≤ N.of_nat h → N.of_nat h = 2 ^ (8 - k) → k ≤ 8 →
  ∃ s' n', select_step (N.land (N.shiftr (pack (N.of_nat h) L) (N.of_nat s - N.of_nat h)) (N.ones m)) k (N.of_nat s) n =
    (N.of_nat s', n') ∧ window W K s' h n' ∧ ∃ i, s' = (h * i)%nat.
Proof.
  intros Hw [i Hs] Hh HP HL HM Hm HM33 Hmh Hk Hk8. pose proof Hw as (_&Hn&Hsw&_).
  destruct i as [|i]; [lia|]. set (j := (2 * i + 1)%nat).
  assert (Esh : s = (h * S j)%nat) by (unfold j; lia).
  destruct (lookup_lt_is_Some_2 L j) as [x Hx]; [nia|].
  destruct (read_field (N.of_nat h) m M L j x HM Hm Hmh Hx) as [Ef HxM].
  assert (E : N.of_nat s - N.of_nat h = N.of_nat h * N.of_nat j) by (rewrite Esh; lia).
  rewrite E, Ef.
  destruct (select_spec W K s h n x x k Hw) as (s'&n'&Es&Hw'&Hs').
  - replace x with (x + 65536 * 0) at 1 by lia. apply borrow_first; lia.
  - replace (s - h)%nat with (h * j)%nat by lia. rewrite Esh, <- !HP. by rewrite (psum_S _ _ _ Hx).
  - lia.
  - done.
  - done.
  - exists s', n'. split; [done|]. split; [done|]. destruct Hs' as [-> | ->].
    + exists (S j). lia.
    + exists j. lia.
Qed.
End levels.

(** ** The bits of a word as fields *)

Definition bit_fields (v : N) : list N := map (λ i, N.b2n (N.testbit v (N.of_nat i))) (seq 0 64).

Lemma length_bit_fields v : length (bit_fields v) = 64%nat.
Proof. done. Qed.

Lemma bit_fields_at_most v : at_most 1 (bit_fields v).
Proof. apply Forall_fmap, Forall_true. intros i. cbn. destruct (N.testbit v (N.of_nat i)); cbn; lia. Qed.

Lemma reverse_bits_pack v : reverse_bits v = pack 1 (rev (bit_fields v)).
Proof.
  unfold reverse_bits, bit_fields. rewrite <- map_rev. induction (rev (seq 0 64)) as [|i l IH]; [done|].
  cbn [foldr map pack]. rewrite IH. change (2 ^ 1) with 2. lia.
Qed.

Lemma count_ones_psum v : count_ones_u64 v = psum 64 (bit_fields v).
Proof.
  unfold count_ones_u64, psum, bit_fields. rewrite take_ge by done.
  induction (seq 0 64) as [|i l IH]; [done|]. cbn [foldr map]. by rewrite IH.
Qed.

Lemma psum_rev l i : (i ≤ length l)%nat → psum i (rev l) + psum (length l - i) l = psum (length l) l.
Proof.
  intros Hi. unfold psum. rewrite firstn_rev, (take_ge l (length l)) by lia.
  assert (El : foldr N.add 0 l = foldr N.add 0 (take (length l - i) l ++ drop (length l - i) l)) by by rewrite take_drop.
  rewrite El, foldr_app.
  assert (Hfold : ∀ k z, foldr N.add z k = foldr N.add 0 k + z).
  { induction k as [|x k IH]; intros z; cbn; [lia|]. rewrite IH. lia. }
  rewrite (Hfold _ (foldr N.add 0 (drop _ l))).
  assert (Hrev : ∀ k, foldr N.add 0 (rev k) = foldr N.add 0 k).
  { induction k as [|x k IH]; cbn; [done|]. rewrite foldr_app, Hfold, IH. cbn. lia. }
  rewrite Hrev. lia.
Qed.

Lemma nth_set_bit_u64_spec v n :
  1 ≤ n ≤ count_ones_u64 v →
  ∃ r, nth_set_bit_u64 v n = N.of_nat r ∧ bit_fields v !! r = Some 1 ∧ psum r (bit_fields v) = n - 1.
Proof.
  intros Hn. rewrite count_ones_psum in Hn. set (V := bit_fields v) in *.
  assert (HT : psum 64 V ≤ 64).
  { pose proof (bit_fields_at_most v) as Hm. fold V in Hm. unfold psum.
    rewrite take_ge by done. change 64 with (N.of_nat (length V)). clear Hn. clearbody V.
    induction Hm as [|x l Hx _ IH]; cbn [foldr length]; lia. }
  set (W := rev V).
  assert (HlW : length W = 64%nat) by (unfold W; by rewrite length_rev).
  assert (HW : at_most 1 W).
  { unfold at_most, W. rewrite rev_alt. apply Forall_reverse, bit_fields_at_most. }
  assert (HP : ∀ i, (i ≤ 64)%nat → psum i W + psum (64 - i) V = psum 64 V) by (intros i Hi; exact (psum_rev V i Hi)).
  set (K := psum 64 V - n).
  assert (Hw : window W K 64 64 n).
  { pose proof (HP 64%nat ltac:(lia)) as H64. 
    change (psum (64 - 64) V) with 0 in H64. unfold window.
    change (psum (64 - 64) W) with 0. unfold K. lia. }
  destruct levels_at_most with (W := W) as (Ha2&Hb4&Hc8&Hd16); [done..|].
  destruct levels_length with (W := W) as (Ha&Hb&Hc&Hd); [done..|].
  pose proof (λ j, levels_psum W HlW j) as Hps.
  unfold nth_set_bit_u64. rewrite reverse_bits_pack. fold V W.
  rewrite (word_a W HlW HW), (word_b W HlW HW), (word_c W HlW HW), (word_d W HlW HW).
  destruct (first_step W HlW HW K n Hw) as (s1&n1&->&Hw1&Hi1). cbn beta iota zeta.
  destruct (next_step W HlW K s1 n1 (level_d W) 16 8 16 4 Hw1 Hi1) as (s2&n2&E2&Hw2&Hi2);
    [lia|intros j; by destruct (Hps j) as (_&_&_&?)|by rewrite Hd|done|done|done|done|done|done|].
  change (N.ones 8) with 0xff in E2. change (N.of_nat 16) with 16 in E2. rewrite E2. cbn beta iota zeta.
  destruct (next_step W HlW K s2 n2 (level_c W) 8 4 8 5 Hw2 Hi2) as (s3&n3&E3&Hw3&Hi3);
    [lia|intros j; by destruct (Hps j) as (_&_&?&_)|by rewrite Hc|done|done|done|done|done|done|].
  change (N.ones 4) with 0xf in E3. change (N.of_nat 8) with 8 in E3. rewrite E3. cbn beta iota zeta.
  destruct (next_step W HlW K s3 n3 (level_b W) 4 3 4 6 Hw3 Hi3) as (s4&n4&E4&Hw4&Hi4);
    [lia|intros j; by destruct (Hps j) as (_&?&_)|by rewrite Hb|done|done|done|done|done|done|].
  change (N.ones 3) with 0x7 in E4. change (N.of_nat 4) with 4 in E4. rewrite E4. cbn beta iota zeta.
  destruct (next_step W HlW K s4 n4 (level_a W) 2 2 2 7 Hw4 Hi4) as (s5&n5&E5&Hw5&Hi5);
    [lia|intros j; by destruct (Hps j) as (?&_)|by rewrite Ha|done|done|done|done|done|done|].
  change (N.ones 2) with 0x3 in E5. change (N.of_nat 2) with 2 in E5. rewrite E5. cbn beta iota zeta.
  destruct (next_step W HlW K s5 n5 W 1 1 1 8 Hw5 Hi5) as (s6&n6&E6&Hw6&Hi6);
    [lia|intros j; by rewrite Nat.mul_1_l|by rewrite HlW|done|done|done|done|done|done|].
  change (N.ones 1) with 0x1 in E6. change (N.of_nat 1) with 1 in E6. rewrite E6. cbn beta iota zeta.
  destruct Hw6 as (Hs&Hn6&Hs6&HK). exists (64 - s6)%nat. split; [lia|].
  destruct (lookup_lt_is_Some_2 W (s6 - 1)) as [x Hx]; [lia|].
  pose proof (psum_S _ _ _ Hx) as HS. replace (S (s6 - 1)) with s6 in HS by lia.
  assert (Hx1 : x ≤ 1) by (unfold at_most in HW; rewrite Forall_lookup in HW; by apply (HW _ _ Hx)).
  assert (x = 1) as -> by lia. split.
  - unfold W in Hx. rewrite rev_alt in Hx. change (rev_append V []) with (reverse V) in Hx.
    rewrite reverse_lookup in Hx by (change (length V) with 64%nat; lia).
    rewrite <- Hx. f_equal. change (length V) with 64%nat. lia.
  - pose proof (HP s6 ltac:(lia)) as H6. unfold K in *. lia.
Qed.

(** ** The two halves of a word *)

Lemma bit_fields_half x (v : N) k :
  (∀ i, (i < 64)%nat → N.testbit v (N.of_nat i) = testbit x (k + i)) → (k + 64 ≤ MAX_BASE)%nat →
  bit_fields v = map (λ b, N.b2n b) (take 64 (drop k (bits_of x))).
Proof.
  intros Hv Hk. unfold bit_fields, bits_of. apply list_eq. intros i. destruct (decide (i < 64)%nat) as [Hi|Hi].
  - unfold MAX_BASE in *. rewrite !list_lookup_fmap, lookup_take_lt, lookup_drop, list_lookup_fmap by done.
    rewrite !lookup_seq_lt by lia. simpl. by rewrite Hv.
  - rewrite !lookup_ge_None_2; [done| |rewrite length_map, length_seq; lia].
    rewrite length_map, length_take. lia.
Qed.

Lemma testbit_of_Bitmap x i : N.testbit (Z.to_N (Zmod.unsigned x)) (N.of_nat i) = testbit x i.
Proof.
  unfold testbit. rewrite <- Z.testbit_of_N, Z2N.id; [by rewrite nat_N_Z|].
  apply (@bits.unsigned_range 128). lia.
Qed.

Lemma half_low x :
  bit_fields (wrap_N 64 (Z.to_N (Zmod.unsigned x))) = map N.b2n (take 64 (drop 0 (bits_of x))).
Proof.
  apply bit_fields_half; [|unfold MAX_BASE; lia]. intros i Hi. unfold wrap_N.
  rewrite N.mod_pow2_bits_low by lia. apply testbit_of_Bitmap.
Qed.

Lemma half_high x :
  bit_fields (wrap_N 64 (N.shiftr (Z.to_N (Zmod.unsigned x)) 64)) = map N.b2n (take 64 (drop 64 (bits_of x))).
Proof.
  apply bit_fields_half; [|unfold MAX_BASE; lia]. intros i Hi. unfold wrap_N.
  rewrite N.mod_pow2_bits_low, N.shiftr_spec by lia.
  replace (N.of_nat i + 64) with (N.of_nat (64 + i)) by lia. apply testbit_of_Bitmap.
Qed.

Lemma psum_ones (l : list bool) i : psum i (map N.b2n l) = N.of_nat (ones (take i l)).
Proof.
  unfold psum. rewrite <- fmap_take. generalize (take i l). clear i l. intros l.
  induction l as [|b l IH]; [done|]. rewrite ones_cons. cbn [fmap list_fmap foldr]. rewrite IH.
  destruct b; cbn; lia.
Qed.

Lemma nth_set_bit_half v l n :
  bit_fields v = map N.b2n l → (1 ≤ n ≤ ones l)%nat →
  count_ones_u64 v = N.of_nat (ones l) ∧
  l !! N.to_nat (nth_set_bit_u64 v (N.of_nat n)) = Some true ∧
  S (ones (take (N.to_nat (nth_set_bit_u64 v (N.of_nat n))) l)) = n.
Proof.
  intros Hv Hn. assert (Hl : length l = 64%nat).
  { pose proof (length_bit_fields v) as E. by rewrite Hv, length_map in E. }
  assert (Hc : count_ones_u64 v = N.of_nat (ones l)).
  { rewrite count_ones_psum, Hv, psum_ones. by rewrite take_ge by lia. }
  split; [done|]. destruct (nth_set_bit_u64_spec v (N.of_nat n)) as (r&->&Hr&Hp); [lia|].
  rewrite Nat2N.id. rewrite Hv in Hr, Hp. rewrite psum_ones in Hp.
  change (map N.b2n l) with (N.b2n <$> l) in Hr. rewrite list_lookup_fmap in Hr.
  destruct (l !! r) as [[]|]; simplify_eq/=. split; [done|lia].
Qed.

Lemma count_ones_half v l : bit_fields v = map N.b2n l → (length l = 64)%nat → count_ones_u64 v = N.of_nat (ones l).
Proof. intros Hv Hl. rewrite count_ones_psum, Hv, psum_ones. by rewrite take_ge by lia. Qed.

(** The n-th set bit, counting from one, is the bit that is set and has [n - 1]
    before it. *)
Lemma nth_set_bit_bits x n :
  (1 ≤ n ≤ ones (bits_of x))%nat →
  bits_of x !! nth_set_bit x n = Some true ∧ S (ones (take (nth_set_bit x n) (bits_of x))) = n.
Proof.
  intros Hn. pose proof (half_low x) as Hlo. pose proof (half_high x) as Hhi. rewrite drop_0 in Hlo.
  pose proof (length_bits_of x) as Hl. unfold MAX_BASE in Hl.
  assert (Hclo := count_ones_half _ _ Hlo ltac:(rewrite length_take; lia)).
  pose proof (ones_take_drop (bits_of x) 64) as Hsum.
  rewrite (take_ge (drop 64 _)) in Hhi by (rewrite length_drop; lia).
  unfold nth_set_bit. cbv zeta. rewrite Hclo, Nat2N.id. case_bool_decide as Hlow.
  - edestruct (nth_set_bit_half _ _ (n - ones (take 64 (bits_of x))) Hhi) as (_&Hr&Hp); [lia|].
    rewrite lookup_drop in Hr. split; [done|].
    rewrite <- take_take_drop, ones_app. lia.
  - edestruct (nth_set_bit_half _ _ n Hlo) as (_&Hr&Hp); [lia|].
    apply lookup_take_Some in Hr as [Hr Hlt]. split; [done|].
    rewrite take_take, Nat.min_l in Hp by lia. done.
Qed.

(** On the marks of a word. *)
Lemma nth_set_bit_marks l x n :
  marks l x → (1 ≤ n ≤ ones l)%nat →
  l !! nth_set_bit x n = Some true ∧ S (ones (take (nth_set_bit x n) l)) = n.
Proof.
  intros Hm Hn. destruct (nth_set_bit_bits x n) as [Hr Hp].
  { rewrite <- count_ones_bits, (count_ones_marks l x Hm). lia. }
  rewrite (marks_bits l x Hm) in Hr, Hp.
  destruct (decide (nth_set_bit x n < length l)%nat) as [Hi|Hi].
  - rewrite lookup_app_l in Hr by done. by rewrite take_app_le in Hp by lia.
  - rewrite lookup_app_r in Hr by lia. by apply lookup_replicate in Hr as [? _].
Qed.

(** ** Properties *)

(** [nth_set_bit] returns the index of the n-th set bit of the word: the bit
    there is set and exactly [n - 1] bits below it are. *)
Theorem nth_set_bit_selects x n :
  (1 ≤ n ≤ count_ones x)%nat →
  (nth_set_bit x n < MAX_BASE)%nat ∧ testbit x (nth_set_bit x n) = true ∧
  length (filter (λ i, testbit x i = true) (seq 0 (nth_set_bit x n))) = (n - 1)%nat.
Proof.
  rewrite count_ones_bits. intros Hn. destruct (nth_set_bit_bits x n Hn) as [Hr Hp].
  pose proof (lookup_lt_Some _ _ _ Hr) as Hlt. rewrite length_bits_of in Hlt. split; [done|].
  split; [by rewrite <- lookup_bits_of, Hr|]. rewrite length_filter_bits.
  unfold bits_of in Hp. rewrite <- fmap_take, take_seq, Nat.min_l in Hp by lia.
  change (map (testbit x) ?l) with (testbit x <$> l). lia.
Qed.

Lemma nth_set_bit_selects_witness :
  nth_set_bit (Zmod.of_Z _ (2 ^ 3 + 2 ^ 70 + 2 ^ 100)%Z) 2 = 70%nat ∧
  testbit (Zmod.of_Z _ (2 ^ 3 + 2 ^ 70 + 2 ^ 100)%Z) 70 = true.
Proof.
  split; [by vm_compute|].
  apply (nth_set_bit_selects (Zmod.of_Z _ (2 ^ 3 + 2 ^ 70 + 2 ^ 100)%Z) 2). vm_compute. lia.
Defined.
