(* ===== verification/TextSummary.v ===== *)
(** Summaries of texts: [TextSummary] of [crates/rope/src/rope.rs].

    The lengths and positions of a text, as the tree of chunks sums them up.
    The sums here have no wrap-around, so that they are associative.  The
    functions with the widths of the fields ([from_str32],
    [TextSummary_add32]) are equal to them on texts shorter than 4 GiB
    ([from_str32_exact], [add32_exact]; [Point_plus_fits] for positions). *)

From stdpp Require Import base numbers option list.
From S2P Require Import Prelude SumTree SumTreeFacts Utf8 Point.

#[local] Open Scope N_scope.

(** [Add for Point], [PointUtf16] and [OffsetUtf16] on values that fit. *)
Definition Point_plus (self other : Point) : Point :=
  if row other =? 0 then mkPoint (row self) (column self + column other)
  else mkPoint (row self + row other) (column other).
Definition PointUtf16_plus (self other : PointUtf16) : PointUtf16 :=
  if row16 other =? 0 then mkPointUtf16 (row16 self) (column16 self + column16 other)
  else mkPointUtf16 (row16 self + row16 other) (column16 other).
Definition OffsetUtf16_plus (self other : OffsetUtf16) : OffsetUtf16 :=
  MkOffsetUtf16 (offset16 self + offset16 other).

Record TextSummary := mkTextSummary {
  len : nat;
  chars : nat;
  len_utf16 : OffsetUtf16;
  lines : Point;
  first_line_chars : N;
  last_line_chars : N;
  last_line_len_utf16 : N;
  longest_row : N;
  longest_row_chars : N
}.

#[export] Instance OffsetUtf16_eq_dec : EqDecision OffsetUtf16.
Proof. solve_decision. Defined.

#[export] Instance TextSummary_eq_dec : EqDecision TextSummary.
Proof. solve_decision. Defined.

Definition lines_utf16 (self : TextSummary) : PointUtf16 :=
  mkPointUtf16 (row (lines self)) (last_line_len_utf16 self).

Definition TextSummary_default : TextSummary :=
  mkTextSummary 0 0 (MkOffsetUtf16 0) (mkPoint 0 0) 0 0 0 0 0.

Definition newline : TextSummary :=
  mkTextSummary 1 1 (MkOffsetUtf16 1) (mkPoint 1 0) 0 0 0 0 0.

Definition add_newline (self : TextSummary) : TextSummary :=
  mkTextSummary (len self + 1) (chars self)
    (OffsetUtf16_plus (len_utf16 self) (MkOffsetUtf16 (offset16 (len_utf16 self) + 1)))
    (Point_plus (lines self) (mkPoint 1 0))
    (first_line_chars self) 0 0 (longest_row self) (longest_row_chars self).

(** ** The summary of a string, character by character *)

Definition summary_step (s : TextSummary) (c : Z) : TextSummary :=
  let lines' := if (c =? NEWLINE)%Z then Point_plus (lines s) (mkPoint 1 0)
                else mkPoint (row (lines s)) (column (lines s) + N.of_nat (len_utf8 c)) in
  let last_line_len_utf16' := if (c =? NEWLINE)%Z then 0 else last_line_len_utf16 s + N.of_nat (Utf8.len_utf16 c) in
  let last_line_chars' := if (c =? NEWLINE)%Z then 0 else last_line_chars s + 1 in
  let first_line_chars' := if row lines' =? 0 then last_line_chars' else first_line_chars s in
  let longer := longest_row_chars s <? last_line_chars' in
  mkTextSummary (len s) (chars s + 1)
    (MkOffsetUtf16 (offset16 (len_utf16 s) + N.of_nat (Utf8.len_utf16 c))) lines'
    first_line_chars' last_line_chars' last_line_len_utf16'
    (if longer then row lines' else longest_row s)
    (if longer then last_line_chars' else longest_row_chars s).

Definition set_len (n : nat) (s : TextSummary) : TextSummary :=
  mkTextSummary n (chars s) (len_utf16 s) (lines s) (first_line_chars s) (last_line_chars s)
    (last_line_len_utf16 s) (longest_row s) (longest_row_chars s).

(** [From<&str>], on the characters of the string. *)
Definition from_str (cs : list Z) : TextSummary :=
  set_len (length (bytes_of cs)) (foldl summary_step TextSummary_default cs).

(** ** Sums *)

(** [AddAssign]. *)
Definition TextSummary_add (self other : TextSummary) : TextSummary :=
  let joined_chars := last_line_chars self + first_line_chars other in
  let joins := longest_row_chars self <? joined_chars in
  let longest_row1 := if joins then row (lines self) else longest_row self in
  let longest_row_chars1 := if joins then joined_chars else longest_row_chars self in
  let longer := longest_row_chars1 <? longest_row_chars other in
  mkTextSummary (len self + len other) (chars self + chars other)
    (OffsetUtf16_plus (len_utf16 self) (len_utf16 other))
    (Point_plus (lines self) (lines other))
    (if row (lines self) =? 0 then first_line_chars self + first_line_chars other else first_line_chars self)
    (if row (lines other) =? 0 then last_line_chars self + first_line_chars other else last_line_chars other)
    (if row (lines other) =? 0 then last_line_len_utf16 self + last_line_len_utf16 other
     else last_line_len_utf16 other)
    (if longer then row (lines self) + longest_row other else longest_row1)
    (if longer then longest_row_chars other else longest_row_chars1).

Record ChunkSummary := MkChunkSummary { text : TextSummary }.

#[export] Instance ChunkSummary_Summary : Summary ChunkSummary () := {
  summary_zero := λ _, MkChunkSummary TextSummary_default;
  add_summary := λ self summary _, MkChunkSummary (TextSummary_add (text self) (text summary))
}.

(** *** Dimensions *)

#[export] Instance usize_Dimension : Dimension nat ChunkSummary () := {
  dim_zero := λ _, 0%nat;
  dim_add_summary := λ self summary _, (self + len (text summary))%nat
}.
#[export] Instance TextSummary_Dimension : Dimension TextSummary ChunkSummary () := {
  dim_zero := λ _, TextSummary_default;
  dim_add_summary := λ self summary _, TextSummary_add self (text summary)
}.
#[export] Instance OffsetUtf16_Dimension : Dimension OffsetUtf16 ChunkSummary () := {
  dim_zero := λ _, MkOffsetUtf16 0;
  dim_add_summary := λ self summary _, OffsetUtf16_plus self (len_utf16 (text summary))
}.
#[export] Instance Point_Dimension : Dimension Point ChunkSummary () := {
  dim_zero := λ _, mkPoint 0 0;
  dim_add_summary := λ self summary _, Point_plus self (lines (text summary))
}.
#[export] Instance PointUtf16_Dimension : Dimension PointUtf16 ChunkSummary () := {
  dim_zero := λ _, mkPointUtf16 0 0;
  dim_add_summary := λ self summary _, PointUtf16_plus self (lines_utf16 (text summary))
}.

(** The order of UTF-16 offsets, derived. *)
#[export] Instance OffsetUtf16_Ord : Ord OffsetUtf16 := λ self other, offset16 self ?= offset16 other.

(** ** Laws *)

(** What the sums of lengths keep: rows are counted from the first one, and no
    line is longer than the longest one, the first of its length. *)
Definition text_summary_ok (s : TextSummary) : Prop :=
  first_line_chars s ≤ longest_row_chars s ∧
  last_line_chars s ≤ longest_row_chars s ∧
  longest_row s ≤ row (lines s) ∧
  (row (lines s) = 0 → first_line_chars s = longest_row_chars s ∧ last_line_chars s = longest_row_chars s) ∧
  (longest_row_chars s = first_line_chars s → longest_row s = 0).

#[export] Instance ChunkSummary_SummaryOk : SummaryOk ChunkSummary () := λ _ s, text_summary_ok (text s).

Ltac decide_arith :=
  repeat match goal with
  | |- context [?a =? ?b] => destruct (N.eqb_spec a b)
  | |- context [?a <? ?b] => destruct (N.ltb_spec a b)
  | H : context [?a =? ?b] |- _ => destruct (N.eqb_spec a b)
  | H : context [?a <? ?b] |- _ => destruct (N.ltb_spec a b)
  end.

Lemma Point_plus_row p q : row (Point_plus p q) = row p + row q.
Proof. unfold Point_plus. destruct (N.eqb_spec (row q) 0); simpl; lia. Qed.

Lemma Point_plus_assoc p q r :
  Point_plus (Point_plus p q) r = Point_plus p (Point_plus q r).
Proof.
  unfold Point_plus.
  destruct (N.eqb_spec (row q) 0), (N.eqb_spec (row r) 0); simpl; decide_arith; try lia; f_equal; lia.
Qed.

Lemma Point_plus_0_l p : Point_plus (mkPoint 0 0) p = p.
Proof. unfold Point_plus. destruct p as [r c]. simpl. destruct (N.eqb_spec r 0); f_equal; lia. Qed.

Lemma PointUtf16_plus_assoc p q r :
  PointUtf16_plus (PointUtf16_plus p q) r = PointUtf16_plus p (PointUtf16_plus q r).
Proof.
  unfold PointUtf16_plus.
  destruct (N.eqb_spec (row16 q) 0), (N.eqb_spec (row16 r) 0); simpl; decide_arith; try lia; f_equal; lia.
Qed.

Lemma OffsetUtf16_plus_assoc a b c :
  OffsetUtf16_plus (OffsetUtf16_plus a b) c = OffsetUtf16_plus a (OffsetUtf16_plus b c).
Proof. unfold OffsetUtf16_plus. simpl. f_equal. lia. Qed.

(** The sums with and without wrap-around agree on values that fit. *)
Lemma Point_plus_fits p q :
  add_fits p q → Point_add p q = Point_plus p q.
Proof. apply Point_add_fits. Qed.

Lemma text_summary_add_ok a b :
  text_summary_ok a → text_summary_ok b → text_summary_ok (TextSummary_add a b).
Proof.
  unfold text_summary_ok. intros (?&?&?&Ha0&Ha1) (?&?&?&Hb0&Hb1). simpl. rewrite Point_plus_row.
  destruct (N.eqb_spec (row (lines a)) 0), (N.eqb_spec (row (lines b)) 0); decide_arith; lia.
Qed.

Lemma TextSummary_ext a b :
  len a = len b → chars a = chars b → len_utf16 a = len_utf16 b → lines a = lines b →
  first_line_chars a = first_line_chars b → last_line_chars a = last_line_chars b →
  last_line_len_utf16 a = last_line_len_utf16 b → longest_row a = longest_row b →
  longest_row_chars a = longest_row_chars b → a = b.
Proof. destruct a, b. simpl. congruence. Qed.

(** Any summary can be on the left: the sums are those of the texts. *)
Lemma text_summary_add_assoc a b c :
  text_summary_ok b → text_summary_ok c →
  TextSummary_add (TextSummary_add a b) c = TextSummary_add a (TextSummary_add b c).
Proof.
  unfold text_summary_ok. intros (?&?&?&Hb0&Hb1) (?&?&?&Hc0&Hc1).
  apply TextSummary_ext; simpl; rewrite ?Point_plus_row.
  - lia.
  - lia.
  - apply OffsetUtf16_plus_assoc.
  - by apply Point_plus_assoc.
  - decide_arith; lia.
  - decide_arith; lia.
  - decide_arith; lia.
  - destruct (N.eqb_spec (row (lines b)) 0), (N.eqb_spec (row (lines c)) 0); decide_arith; lia.
  - destruct (N.eqb_spec (row (lines b)) 0), (N.eqb_spec (row (lines c)) 0); decide_arith; lia.
Qed.

Lemma text_summary_add_0_l s :
  text_summary_ok s → TextSummary_add TextSummary_default s = s.
Proof.
  unfold text_summary_ok. intros (?&?&?&Hb0&Hb1). apply TextSummary_ext; simpl; rewrite ?Point_plus_0_l.
  all: try done; try (decide_arith; lia). unfold OffsetUtf16_plus. by destruct (len_utf16 s).
Qed.

#[export] Instance ChunkSummary_SummaryLaws : SummaryLaws ChunkSummary ().
Proof.
  split.
  - intros cx. repeat split; simpl; try lia.
  - intros cx a b. apply text_summary_add_ok.
  - intros cx [a] [b] [c] _ Hb Hc. unfold add_summary. simpl. f_equal. by apply text_summary_add_assoc.
  - intros cx [s] Hs. unfold add_summary. simpl. f_equal. by apply text_summary_add_0_l.
Qed.

#[export] Instance usize_DimensionLaws : DimensionLaws nat ChunkSummary ().
Proof. intros cx d a b _ _. simpl. lia. Qed.
#[export] Instance TextSummary_DimensionLaws : DimensionLaws TextSummary ChunkSummary ().
Proof. intros cx d a b Ha Hb. simpl. symmetry. by apply text_summary_add_assoc. Qed.
#[export] Instance OffsetUtf16_DimensionLaws : DimensionLaws OffsetUtf16 ChunkSummary ().
Proof. intros cx d a b _ _. simpl. by rewrite OffsetUtf16_plus_assoc. Qed.
#[export] Instance Point_DimensionLaws : DimensionLaws Point ChunkSummary ().
Proof. intros cx d a b _ _. simpl. by rewrite Point_plus_assoc. Qed.
#[export] Instance PointUtf16_DimensionLaws : DimensionLaws PointUtf16 ChunkSummary ().
Proof.
  intros cx d a b _ _. simpl. rewrite PointUtf16_plus_assoc. f_equal.
  unfold lines_utf16, PointUtf16_plus, TextSummary_add. simpl. rewrite Point_plus_row.
  destruct (N.eqb_spec (row (lines (text b))) 0); [|done]. f_equal; lia.
Qed.

(** ** The summary is a homomorphism *)

Definition char_summary (c : Z) : TextSummary := from_str [c].

Lemma from_str_nil : from_str [] = TextSummary_default.
Proof. done. Qed.

Lemma length_encode_utf8 c : length (encode_utf8 c) = len_utf8 c.
Proof. unfold encode_utf8, len_utf8. by repeat case_match. Qed.

Lemma text_summary_ok_default : text_summary_ok TextSummary_default.
Proof. repeat split; cbn; lia. Qed.

Lemma text_summary_ok_set_len n s : text_summary_ok (set_len n s) ↔ text_summary_ok s.
Proof. done. Qed.

Lemma char_summary_newline : char_summary NEWLINE = newline.
Proof. done. Qed.

Lemma char_summary_other c :
  c ≠ NEWLINE →
  char_summary c = mkTextSummary (len_utf8 c) 1 (MkOffsetUtf16 (N.of_nat (Utf8.len_utf16 c)))
    (mkPoint 0 (N.of_nat (len_utf8 c))) 1 1 (N.of_nat (Utf8.len_utf16 c)) 0 1.
Proof.
  intros Hc. unfold char_summary, from_str, set_len, summary_step. cbn -[encode_utf8 len_utf8 Utf8.len_utf16].
  rewrite app_nil_r, length_encode_utf8. by rewrite (proj2 (Z.eqb_neq _ _)) by done.
Qed.

Lemma summary_step_add s c :
  text_summary_ok s →
  set_len (len s + len_utf8 c) (summary_step s c) = TextSummary_add s (char_summary c).
Proof.
  unfold text_summary_ok. intros (?&?&?&H0&H1). unfold summary_step, set_len.
  destruct (decide (c = NEWLINE)) as [->|Hc].
  - rewrite char_summary_newline. apply TextSummary_ext; cbn -[N.ltb N.eqb N.add Point_plus];
      rewrite ?Point_plus_row; cbn -[N.ltb N.eqb N.add Point_plus]; decide_arith; try (done || lia).
  - rewrite char_summary_other by done. rewrite (proj2 (Z.eqb_neq _ _)) by done.
    apply TextSummary_ext; cbn -[N.ltb N.eqb N.add len_utf8 Utf8.len_utf16];
      unfold Point_plus; cbn -[N.ltb N.eqb N.add]; decide_arith; try (done || lia); f_equal; lia.
Qed.

Lemma char_summary_ok c : text_summary_ok (char_summary c).
Proof.
  unfold text_summary_ok. destruct (decide (c = NEWLINE)) as [->|Hc].
  - rewrite char_summary_newline. cbn. lia.
  - rewrite char_summary_other by done. cbn. lia.
Qed.

Lemma summary_step_ok s c : text_summary_ok s → text_summary_ok (summary_step s c).
Proof.
  intros Hs. apply (proj1 (text_summary_ok_set_len (len s + len_utf8 c) _)). rewrite summary_step_add by done.
  apply text_summary_add_ok; [done|apply char_summary_ok].
Qed.

Lemma summary_steps_ok s cs : text_summary_ok s → text_summary_ok (foldl summary_step s cs).
Proof. revert s. induction cs as [|c cs IH]; intros s Hs; [done|]. cbn. by apply IH, summary_step_ok. Qed.

Lemma from_str_ok cs : text_summary_ok (from_str cs).
Proof. apply (proj2 (text_summary_ok_set_len _ _)), summary_steps_ok, text_summary_ok_default. Qed.

Lemma len_summary_steps s cs : len (foldl summary_step s cs) = len s.
Proof. revert s. induction cs as [|c cs IH]; intros s; [done|]. cbn. by rewrite IH. Qed.

Lemma from_str_snoc cs c : from_str (cs ++ [c]) = TextSummary_add (from_str cs) (char_summary c).
Proof.
  rewrite <- summary_step_add by apply from_str_ok. unfold from_str at 1.
  rewrite foldl_app, bytes_of_app, length_app. cbn. rewrite app_nil_r, length_encode_utf8. done.
Qed.

Lemma text_summary_add_0_r s : text_summary_ok s → TextSummary_add s TextSummary_default = s.
Proof.
  unfold text_summary_ok. intros Hs. apply TextSummary_ext; cbn -[N.ltb N.eqb N.add].
  - lia.
  - lia.
  - unfold OffsetUtf16_plus. destruct (len_utf16 s). cbn. f_equal. lia.
  - unfold Point_plus. destruct (lines s). cbn. f_equal. lia.
  - decide_arith; lia.
  - cbn. lia.
  - cbn. lia.
  - decide_arith; lia.
  - decide_arith; lia.
Qed.

Lemma from_str_app a b : from_str (a ++ b) = TextSummary_add (from_str a) (from_str b).
Proof.
  induction b as [|c b IH] using rev_ind.
  - rewrite app_nil_r, from_str_nil, text_summary_add_0_r; [done|apply from_str_ok].
  - rewrite app_assoc, !from_str_snoc, IH. apply text_summary_add_assoc; [apply from_str_ok|apply char_summary_ok].
Qed.

Lemma from_str_cons c cs : from_str (c :: cs) = TextSummary_add (char_summary c) (from_str cs).
Proof. apply (from_str_app [c] cs). Qed.

Lemma len_from_str cs : len (from_str cs) = length (bytes_of cs).
Proof. done. Qed.

(** ** Rows *)

(** The lengths of the rows, from marks of what counts and of where rows end. *)
Fixpoint row_counts (l : list (bool * bool)) : list N :=
  match l with
  | [] => [0]
  | (c, newline) :: l =>
      if newline then 0 :: row_counts l
      else match row_counts l with
           | [] => []
           | r :: rows => N.b2n c + r :: rows
           end
  end.

(** The greatest length, and the first row that has it. *)
Fixpoint greatest (rows : list N) : N :=
  match rows with [] => 0 | r :: rows => N.max r (greatest rows) end.
Fixpoint greatest_row (rows : list N) : N :=
  match rows with [] => 0 | r :: rows => if r <? greatest rows then 1 + greatest_row rows else 0 end.

(** A scan that keeps the first longest row. *)
Fixpoint scan_longest (rows : list N) (row : N) (best : N * N) : N * N :=
  match rows with
  | [] => best
  | r :: rows => scan_longest rows (row + 1) (if best.2 <? r then (row, r) else best)
  end.

Lemma scan_longest_eq rows row best :
  scan_longest rows row best =
  if best.2 <? greatest rows then (row + greatest_row rows, greatest rows) else best.
Proof.
  revert row best. induction rows as [|r rows IH]; intros row [b m]; cbn -[N.ltb N.max].
  { by rewrite (proj2 (N.ltb_ge m 0)) by lia. }
  rewrite IH. clear IH. destruct (N.ltb_spec m r); cbn -[N.ltb N.max]; decide_arith; try lia; try done; f_equal; lia.
Qed.

Lemma greatest_row_lt rows : greatest_row rows = 0 ∨ greatest_row rows < N.of_nat (length rows).
Proof.
  induction rows as [|r rows IH]; [by left|]. cbn -[N.add N.ltb N.of_nat].
  destruct (N.ltb_spec r (greatest rows)); [|by left]. destruct rows; cbn -[N.of_nat] in *; lia.
Qed.

Lemma row_counts_ne l : row_counts l ≠ [].
Proof. induction l as [|[c []] l IH]; cbn; [done..|]. by destruct (row_counts l). Qed.

Lemma row_counts_cons l : ∃ r rows, row_counts l = r :: rows.
Proof. destruct (row_counts l) eqn:E; [by apply row_counts_ne in E|eauto]. Qed.

Lemma greatest_last rows d : List.last rows d ≤ N.max (greatest rows) d.
Proof.
  induction rows as [|r rows IH]; cbn -[N.max]; [lia|]. destruct rows as [|r' rows]; [cbn; lia|].
  cbn -[N.max] in *. lia.
Qed.

(** The counts of rows satisfy the laws of summaries. *)
Lemma rows_summary_ok s l :
  row (lines s) = N.of_nat (length (row_counts l)) - 1 →
  first_line_chars s = hd 0 (row_counts l) →
  last_line_chars s = List.last (row_counts l) 0 →
  (longest_row s, longest_row_chars s) = scan_longest (row_counts l) 0 (0, 0) →
  text_summary_ok s.
Proof.
  destruct (row_counts_cons l) as (r&rows&->). unfold text_summary_ok. rewrite scan_longest_eq.
  intros -> -> -> E. pose proof (greatest_last (r :: rows) 0) as Hlast. pose proof (greatest_row_lt rows) as Hrow.
  assert (Hm : longest_row_chars s = greatest (r :: rows)).
  { cbn -[greatest N.ltb] in E. destruct (N.ltb_spec 0 (greatest (r :: rows))) as [Hlt|Hge]; injection E as E1 E2; [done|].
    rewrite E2. lia. }
  assert (Hl : longest_row s = if r <? greatest rows then 1 + greatest_row rows else 0).
  { cbn -[N.ltb N.add N.max] in E. destruct (N.ltb_spec 0 (N.max r (greatest rows))) as [Hlt|Hge]; injection E as E1 E2.
    - rewrite E1. apply N.add_0_l.
    - rewrite E1. by rewrite (proj2 (N.ltb_ge _ _)) by lia. }
  rewrite Hm, Hl. clear E Hm Hl s. destruct rows as [|r' rows]; cbn [length] in *.
  - cbn in *. destruct (N.ltb_spec r 0); lia.
  - remember (r' :: rows) as k. cbn -[N.ltb N.add N.max List.last] in *.
    destruct (N.ltb_spec r (greatest k)); split_and!; lia.
Qed.

(** ** The summary of a string by rows *)

Definition char_marks (cs : list Z) : list (bool * bool) := map (λ c, (true, (c =? NEWLINE)%Z)) cs.

(** Every string has the counts of its rows. *)
Lemma from_str_rows cs :
  let s := from_str cs in
  row (lines s) = N.of_nat (length (row_counts (char_marks cs))) - 1 ∧
  first_line_chars s = hd 0 (row_counts (char_marks cs)) ∧
  last_line_chars s = List.last (row_counts (char_marks cs)) 0 ∧
  (longest_row s, longest_row_chars s) = scan_longest (row_counts (char_marks cs)) 0 (0, 0).
Proof.
  cbv zeta. induction cs as [|c cs IH]; [done|]. rewrite from_str_cons.
  destruct IH as (Hr&Hf&Hl&Hb). cbn [char_marks map row_counts]. fold (char_marks cs).
  destruct (row_counts_cons (char_marks cs)) as (r&rows&E). rewrite E in *. cbn [hd length] in *.
  assert (Hnil : rows = [] ∨ rows ≠ [] ∧ N.of_nat (S (length rows)) - 1 ≠ 0)
    by (destruct rows; [by left|right; split; [done|cbn [length]; lia]]).
  rewrite scan_longest_eq in *. destruct (from_str cs) as [ln ch u p f la lu lr lrc].
  cbn [lines first_line_chars last_line_chars longest_row longest_row_chars fst snd] in *. subst f la.
  assert (Hm : lrc = greatest (r :: rows) ∧ lr = if r <? greatest rows then 1 + greatest_row rows else 0).
  { cbn -[N.ltb N.max N.add] in *. destruct (N.ltb_spec 0 (N.max r (greatest rows))); injection Hb as -> ->; decide_arith; lia. }
  destruct Hm as [-> ->]. clear Hb.
  destruct (decide (c = NEWLINE)) as [->|Hc].
  - rewrite char_summary_newline, Z.eqb_refl. unfold TextSummary_add.
    cbn -[N.ltb N.max N.add N.eqb N.of_nat List.last].
    rewrite Point_plus_row. split_and!.
    + cbn -[N.of_nat N.add]. lia.
    + done.
    + change (List.last (0 :: r :: rows) 0) with (List.last (r :: rows) 0).
      destruct Hnil as [->|[Hne Hz]]; [cbn in *; by decide_arith|]. by rewrite (proj2 (N.eqb_neq _ _)) by lia.
    + decide_arith; f_equal; lia.
  - rewrite char_summary_other, (proj2 (Z.eqb_neq _ _)) by done. unfold TextSummary_add.
    cbn -[N.ltb N.max N.add N.eqb N.of_nat List.last].
    rewrite Point_plus_row. cbn -[N.ltb N.max N.add N.eqb N.of_nat List.last]. split_and!.
    + lia.
    + done.
    + destruct Hnil as [->|[Hne Hz]]; [cbn in *; by decide_arith|]. rewrite (proj2 (N.eqb_neq _ _)) by lia.
      by destruct rows.
    + decide_arith; f_equal; lia.
Qed.

(** Adding a newline is adding [TextSummary::newline()], but for the code's
    [add_newline]: it adds the length plus one to the UTF-16 length, and does
    not count the character. *)
Lemma add_newline_differs s :
  text_summary_ok s →
  let s' := TextSummary_add s newline in
  add_newline s = mkTextSummary (len s') (chars s' - 1)
    (OffsetUtf16_plus (len_utf16 s) (len_utf16 s')) (lines s') (first_line_chars s') (last_line_chars s')
    (last_line_len_utf16 s') (longest_row s') (longest_row_chars s').
Proof.
  unfold text_summary_ok. intros (?&?&?&?&?). unfold add_newline. apply TextSummary_ext;
    cbn -[N.ltb N.add N.eqb]; try done; rewrite ?N.add_0_r; try lia.
  all: decide_arith; lia.
Qed.

(** ** The widths of the fields

    The same functions with the wrap-around of [u32] fields ([usize] for the
    UTF-16 length).  On texts shorter than 4 GiB they are the ones above. *)

Definition summary_step32 (s : TextSummary) (c : Z) : TextSummary :=
  let lines' := if (c =? NEWLINE)%Z then Point_add_assign (lines s) (mkPoint 1 0)
                else mkPoint (row (lines s)) (wrap_N 32 (column (lines s) + N.of_nat (len_utf8 c))) in
  let last_line_len_utf16' := if (c =? NEWLINE)%Z then 0 else wrap_N 32 (last_line_len_utf16 s + N.of_nat (Utf8.len_utf16 c)) in
  let last_line_chars' := if (c =? NEWLINE)%Z then 0 else wrap_N 32 (last_line_chars s + 1) in
  let first_line_chars' := if row lines' =? 0 then last_line_chars' else first_line_chars s in
  let longer := longest_row_chars s <? last_line_chars' in
  mkTextSummary (len s) (chars s + 1)
    (MkOffsetUtf16 (wrap_N 64 (offset16 (len_utf16 s) + N.of_nat (Utf8.len_utf16 c)))) lines'
    first_line_chars' last_line_chars' last_line_len_utf16'
    (if longer then row lines' else longest_row s)
    (if longer then last_line_chars' else longest_row_chars s).

Definition from_str32 (cs : list Z) : TextSummary :=
  set_len (length (bytes_of cs)) (foldl summary_step32 TextSummary_default cs).

Definition TextSummary_add32 (self other : TextSummary) : TextSummary :=
  let joined_chars := wrap_N 32 (last_line_chars self + first_line_chars other) in
  let joins := longest_row_chars self <? joined_chars in
  let longest_row1 := if joins then row (lines self) else longest_row self in
  let longest_row_chars1 := if joins then joined_chars else longest_row_chars self in
  let longer := longest_row_chars1 <? longest_row_chars other in
  mkTextSummary (len self + len other) (chars self + chars other)
    (OffsetUtf16_add (len_utf16 self) (len_utf16 other))
    (Point_add_assign (lines self) (lines other))
    (if row (lines self) =? 0 then wrap_N 32 (first_line_chars self + first_line_chars other) else first_line_chars self)
    (if row (lines other) =? 0 then wrap_N 32 (last_line_chars self + first_line_chars other) else last_line_chars other)
    (if row (lines other) =? 0 then wrap_N 32 (last_line_len_utf16 self + last_line_len_utf16 other)
     else last_line_len_utf16 other)
    (if longer then wrap_N 32 (row (lines self) + longest_row other) else longest_row1)
    (if longer then longest_row_chars other else longest_row_chars1).

(** No field is greater than the length of the text. *)
Definition bounded (n : N) (s : TextSummary) : Prop :=
  row (lines s) ≤ n ∧ column (lines s) ≤ n ∧ offset16 (len_utf16 s) ≤ n ∧ first_line_chars s ≤ n ∧ last_line_chars s ≤ n ∧
  last_line_len_utf16 s ≤ n ∧ longest_row s ≤ n ∧ longest_row_chars s ≤ n.

Lemma char_lengths c : (1 ≤ Utf8.len_utf16 c ≤ len_utf8 c)%nat.
Proof. unfold Utf8.len_utf16, len_utf8. repeat case_match; lia. Qed.

Lemma step_bounded n s c : bounded n s → bounded (n + N.of_nat (len_utf8 c)) (summary_step s c).
Proof.
  unfold bounded, summary_step. cbn. pose proof (char_lengths c) as Hc. generalize dependent (len_utf8 c). generalize (Utf8.len_utf16 c).
  intros v w Hc (?&?&?&?&?&?&?&?). destruct (c =? NEWLINE)%Z; cbn; repeat case_match; cbn; split_and!; lia.
Qed.

Lemma wrap_small w x : 32 ≤ w → x < 2 ^ 32 → wrap_N w x = x.
Proof.
  intros Hw Hx. apply wrap_N_id. unfold fits. eapply N.lt_le_trans; [exact Hx|]. by apply N.pow_le_mono_r.
Qed.

Lemma step32_exact n s c : bounded n s → n + N.of_nat (len_utf8 c) < 2 ^ 32 → summary_step32 s c = summary_step s c.
Proof.
  intros (?&?&?&?&?&?&?&?) Hn. pose proof (char_lengths c) as Hc.
  unfold summary_step32, summary_step, Point_add_assign, Point_plus. cbn [row column N.eqb]. rewrite !wrap_small by lia. done.
Qed.

Lemma from_str_bounded cs : bounded (N.of_nat (length (bytes_of cs))) (from_str cs).
Proof.
  change (bounded (N.of_nat (length (bytes_of cs))) (foldl summary_step TextSummary_default cs)).
  induction cs as [|c cs IH] using rev_ind; [repeat split; cbn; lia|].
  rewrite foldl_app, bytes_of_app, length_app. cbn [foldl]. apply (step_bounded _ _ c) in IH.
  replace (N.of_nat (length (bytes_of cs) + length (bytes_of [c]))) with (N.of_nat (length (bytes_of cs)) + N.of_nat (len_utf8 c)); [done|].
  cbn. rewrite length_app, length_encode_utf8. cbn. lia.
Qed.

(** The machine's summary is the exact one. *)
Lemma from_str32_exact cs : N.of_nat (length (bytes_of cs)) < 2 ^ 32 → from_str32 cs = from_str cs.
Proof.
  intros Hs. unfold from_str32, from_str. f_equal. induction cs as [|c cs IH] using rev_ind; [done|].
  rewrite bytes_of_app, length_app in Hs. rewrite !foldl_app. cbn [foldl]. rewrite IH by lia.
  apply (step32_exact (N.of_nat (length (bytes_of cs)))); [exact (from_str_bounded cs)|].
  cbn in Hs. rewrite length_app, length_encode_utf8 in Hs. cbn in Hs. lia.
Qed.

Lemma add32_exact n m s t : bounded n s → bounded m t → n + m < 2 ^ 32 → TextSummary_add32 s t = TextSummary_add s t.
Proof.
  intros (?&?&?&?&?&?&?&?) (?&?&?&?&?&?&?&?) Hn.
  unfold TextSummary_add32, TextSummary_add, Point_add_assign, Point_plus, OffsetUtf16_add, OffsetUtf16_plus. rewrite !wrap_small by lia. done.
Qed.
