(* ===== verification/Chunk.v ===== *)
(** The chunks of a rope: [crates/rope/src/chunk.rs].

    A chunk is at most 128 bytes of text with four bitmaps over them: where a
    character starts, the UTF-16 code units, the newlines and the tabs.  The
    summary and the conversions between coordinates are counts over the
    bitmaps.  A [ChunkSlice] borrows a part of a chunk: the same record.  A
    panic is [None]; [debug_panic!] and the logging assertions are those of a
    release build, which goes on. *)

From Stdlib Require Import ZArith Bits.
From stdpp Require Import base numbers option list.
From S2P Require Import Prelude SumTree Utf8 Point TextSummary Bits NthBit.

#[local] Open Scope nat_scope.

Definition MIN_BASE : nat := MAX_BASE / 2.

Record Chunk := mkChunk {
  chars : Bitmap;
  chars_utf16 : Bitmap;
  newlines : Bitmap;
  tabs : Bitmap;
  text : list Z
}.

Definition Chunk_default : Chunk := mkChunk zero zero zero zero [].

(** [n as u32], as a shift amount. *)
Definition as_u32 (n : nat) : nat := N.to_nat (wrap_N 32 (N.of_nat n)).

Definition saturating_shl_mask (offset : nat) : Bitmap := wrapping_sub (unbounded_shl one offset) one.
Definition saturating_shr_mask (offset : nat) : Bitmap := Zmod.not (unbounded_shr MAX offset).

(** The [ArrayString] of a chunk holds 128 bytes. *)
Definition array_string (s : list Z) : option (list Z) :=
  if bool_decide (length s ≤ MAX_BASE) then Some s else None.

(** ** Building *)

Definition CHUNK_SIZE : nat := 8.

(** One byte of a bitmap: the bits of eight bytes of text. *)
Fixpoint mark_byte (p : Z → bool) (ix : nat) (chunk : list Z) : N :=
  match chunk with
  | [] => 0
  | b :: chunk => N.lor (N.shiftl (N.b2n (p b)) (N.of_nat ix)) (mark_byte p (S ix) chunk)
  end.

(** [Bitmap::from_le_bytes]; the bytes of the array past the list are zero. *)
Definition from_le_bytes (bytes : list N) : Bitmap :=
  Zmod.of_Z _ (Z.of_N (foldr (λ b acc, N.lor b (N.shiftl acc 8)) 0%N bytes)).

Definition mark_bytes (p : Z → bool) (s : list Z) : Bitmap :=
  from_le_bytes (map (mark_byte p 0) (Prelude.chunks CHUNK_SIZE s)).

Definition new (s : list Z) : option Chunk :=
  text ← array_string s;
  let chars := mark_bytes is_utf8_char_boundary text in
  Some (mkChunk chars
    (Zmod.or (unbounded_shl (mark_bytes (λ b, b >=? 240)%Z text) 1) chars)
    (mark_bytes (λ b, b =? NEWLINE)%Z text)
    (mark_bytes (λ b, b =? TAB)%Z text)
    text).

Definition is_empty (self : Chunk) : bool := bool_decide (length (text self) = 0).

Definition append (self slice : Chunk) : option Chunk :=
  if is_empty slice then Some self
  else
    let base_ix := length (text self) in
    c ← shl (chars slice) base_ix;
    u ← shl (chars_utf16 slice) base_ix;
    n ← shl (newlines slice) base_ix;
    t ← shl (tabs slice) base_ix;
    s ← array_string (text self ++ text slice);
    Some (mkChunk (Zmod.or (chars self) c) (Zmod.or (chars_utf16 self) u)
            (Zmod.or (newlines self) n) (Zmod.or (tabs self) t) s).

Definition prepend (self slice : Chunk) : option Chunk :=
  if is_empty slice then Some self
  else if is_empty self then new (text slice)
  else
    let shift := length (text slice) in
    c ← shl (chars self) shift;
    u ← shl (chars_utf16 self) shift;
    n ← shl (newlines self) shift;
    t ← shl (tabs self) shift;
    s ← array_string (text slice ++ text self);
    Some (mkChunk (Zmod.or (chars slice) c) (Zmod.or (chars_utf16 slice) u)
            (Zmod.or (newlines slice) n) (Zmod.or (tabs slice) t) s).

Definition push_str (self : Chunk) (s : list Z) : option Chunk := slice ← new s; append self slice.
Definition prepend_str (self : Chunk) (s : list Z) : option Chunk := slice ← new s; prepend self slice.

(** ** Slicing *)

Definition is_char_boundary (self : Chunk) (offset : nat) : bool :=
  bool_decide (Zmod.and (unbounded_shl one (as_u32 offset)) (chars self) ≠ zero) ||
  bool_decide (offset = length (text self)).

(** [assert_char_boundary::<false>] logs and returns the answer, with [true]
    it panics. *)
Definition assert_char_boundary (panic : bool) (self : Chunk) (offset : nat) : option bool :=
  if is_char_boundary self offset then Some true else if panic then None else Some false.

(** [Chunk::floor_char_boundary]; the loop indexes the bytes of the text. *)
Fixpoint floor_loop (s : list Z) (i : nat) : option nat :=
  match i with
  | O => Some O
  | S i' => b ← s !! i; if is_utf8_char_boundary b then Some i else floor_loop s i'
  end.
Definition floor_char_boundary (self : Chunk) (index : nat) : option nat :=
  if bool_decide (length (text self) ≤ index) then Some (length (text self))
  else floor_loop (text self) index.

Definition split_at (self : Chunk) (mid : nat) : option (Chunk * Chunk) :=
  if bool_decide (mid = MAX_BASE) then Some (self, Chunk_default)
  else
    bit ← shl one mid;
    let mask := wrapping_sub bit one in
    '(left_text, right_text) ← Utf8.split_at (text self) mid;
    let left := mkChunk (Zmod.and (chars self) mask) (Zmod.and (chars_utf16 self) mask)
      (Zmod.and (newlines self) mask) (Zmod.and (tabs self) mask) left_text in
    c ← shr (chars self) mid;
    u ← shr (chars_utf16 self) mid;
    n ← shr (newlines self) mid;
    t ← shr (tabs self) mid;
    Some (left, mkChunk c u n t right_text).

Definition slice (self : Chunk) (start end_ : nat) : option Chunk :=
  if bool_decide (start = MAX_BASE) then Some Chunk_default
  else
    let start := if is_char_boundary self start then start else ceil_char_boundary (text self) start in
    let end_ :=
      if is_char_boundary self end_ then end_
      else if bool_decide (end_ < start) then start
      else Utf8.floor_char_boundary (text self) end_ in
    let mask := wrapping_sub (unbounded_shl one (as_u32 end_)) one in
    c ← shr (Zmod.and (chars self) mask) start;
    u ← shr (Zmod.and (chars_utf16 self) mask) start;
    n ← shr (Zmod.and (newlines self) mask) start;
    t ← shr (Zmod.and (tabs self) mask) start;
    s ← str_slice (text self) start end_;
    Some (mkChunk c u n t s).

(** ** The summary *)

Definition len (self : Chunk) : nat := length (text self).
Definition len_utf16 (self : Chunk) : OffsetUtf16 := MkOffsetUtf16 (N.of_nat (count_ones (chars_utf16 self))).

Definition lines (self : Chunk) : Point :=
  Point_new (N.of_nat (count_ones (newlines self)))
    (Point.wrapping_sub 32 (N.of_nat (leading_zeros (newlines self)))
       (Point.wrapping_sub 32 (N.of_nat MAX_BASE) (wrap_N 32 (N.of_nat (len self))))).

Definition first_line_chars (self : Chunk) : N :=
  N.of_nat (count_ones (Zmod.and (chars self) (saturating_shl_mask (trailing_zeros (newlines self))))).
Definition last_line_chars (self : Chunk) : N :=
  N.of_nat (count_ones (Zmod.and (chars self) (saturating_shr_mask (leading_zeros (newlines self))))).
Definition last_line_len_utf16 (self : Chunk) : N :=
  N.of_nat (count_ones (Zmod.and (chars_utf16 self) (saturating_shr_mask (leading_zeros (newlines self))))).

(** The loop of [longest_row], with the final row; every round clears a bit of
    [newlines], so 128 are enough.  The counts are [u8].  The shifts are below
    the width: there is a newline. *)
Fixpoint longest_row_loop (fuel : nat) (chars newlines : Bitmap) (total_chars : nat)
    (row longest_row longest_row_chars : N) : nat * (N * N) :=
  let last_row :=
    let row_chars := wrap_N 8 (N.of_nat (count_ones chars)) in
    (total_chars + N.to_nat row_chars,
     if (longest_row_chars <? row_chars)%N then (row, row_chars) else (longest_row, longest_row_chars)) in
  match fuel with
  | O => last_row
  | S fuel =>
      if bool_decide (newlines = zero) then last_row
      else
        let newline_ix := trailing_zeros newlines in
        let mask := wrapping_sub (unbounded_shl one newline_ix) one in
        let row_chars := wrap_N 8 (N.of_nat (count_ones (Zmod.and chars mask))) in
        let longer := (longest_row_chars <? row_chars)%N in
        longest_row_loop fuel
          (unbounded_shr (unbounded_shr chars newline_ix) 1)
          (unbounded_shr (unbounded_shr newlines newline_ix) 1)
          (total_chars + N.to_nat row_chars + 1)
          (row + 1) (if longer then row else longest_row) (if longer then row_chars else longest_row_chars)
  end.
Definition longest_row (self : Chunk) : nat * (N * N) :=
  longest_row_loop MAX_BASE (chars self) (newlines self) 0 0 0 0.

Definition text_summary (self : Chunk) : TextSummary :=
  let '(chars, (longest_row, longest_row_chars)) := longest_row self in
  mkTextSummary (len self) chars (len_utf16 self) (lines self) (first_line_chars self)
    (last_line_chars self) (last_line_len_utf16 self) longest_row longest_row_chars.

(** [Item for Chunk]. *)
#[export] Instance Chunk_Item : Item Chunk ChunkSummary () := λ self _, MkChunkSummary (text_summary self).

(** ** Coordinates *)

(** The mask of the bits below [offset as u32]. *)
Definition offset_mask (offset : nat) : Bitmap := wrapping_sub (unbounded_shl one (as_u32 offset)) one.

Definition offset_to_point (self : Chunk) (offset : nat) : Point :=
  let masked := Zmod.and (newlines self) (offset_mask offset) in
  let newline_ix := MAX_BASE - leading_zeros masked in
  Point_new (N.of_nat (count_ones masked)) (wrap_N 32 (N.of_nat (offset - newline_ix))).

(** [offset_range_for_row]; the row is at most the number of newlines. *)
Definition offset_range_for_row (self : Chunk) (row : N) : nat * nat :=
  let row_start := if (0 <? row)%N then nth_set_bit (newlines self) (N.to_nat row) + 1 else 0 in
  let row_len :=
    if bool_decide (row_start = MAX_BASE) then 0
    else trailing_zeros (unbounded_shr (newlines self) row_start) `min` (length (text self) - row_start) in
  (row_start, row_start + row_len).

Definition point_to_offset (self : Chunk) (point : Point) : nat :=
  if (row (lines self) <? row point)%N then len self
  else
    let '(start, end_) := offset_range_for_row self (row point) in
    if (N.of_nat (end_ - start) <? column point)%N then end_ else start + N.to_nat (column point).

Definition offset_to_offset_utf16 (self : Chunk) (offset : nat) : OffsetUtf16 :=
  MkOffsetUtf16 (N.of_nat (count_ones (Zmod.and (chars_utf16 self) (offset_mask offset)))).

Definition point_to_offset_utf16 (self : Chunk) (point : Point) : OffsetUtf16 :=
  if (row (lines self) <? row point)%N then len_utf16 self
  else offset_to_offset_utf16 self (point_to_offset self point).

Definition offset_utf16_to_offset (self : Chunk) (target : OffsetUtf16) : option nat :=
  if (offset16 target =? 0)%N then Some 0
  else
    let ix := nth_set_bit (chars_utf16 self) (N.to_nat (offset16 target)) + 1 in
    if bool_decide (ix = MAX_BASE) then Some MAX_BASE
    else
      rest ← usub (length (text self)) ix;
      Some (ix + trailing_zeros (unbounded_shr (chars_utf16 self) ix) `min` rest).

Definition offset_to_point_utf16 (self : Chunk) (offset : nat) : PointUtf16 :=
  let mask := saturating_shl_mask (as_u32 offset) in
  let masked := Zmod.and (newlines self) mask in
  let newline_ix := MAX_BASE - leading_zeros masked in
  let column :=
    if bool_decide (newline_ix = MAX_BASE) then 0
    else count_ones (unbounded_shr (Zmod.and (chars_utf16 self) mask) newline_ix) in
  mkPointUtf16 (N.of_nat (count_ones masked)) (N.of_nat column).

Definition point_to_point_utf16 (self : Chunk) (point : Point) : PointUtf16 :=
  offset_to_point_utf16 self (point_to_offset self point).

(** [while !text.is_char_boundary(offset) { offset -= 1 }], and upwards. *)
Fixpoint back_to_boundary (s : list Z) (offset : nat) : option nat :=
  if Utf8.is_char_boundary s offset then Some offset
  else match offset with O => None | S offset => back_to_boundary s offset end.
Fixpoint on_to_boundary (fuel : nat) (s : list Z) (offset : nat) : option nat :=
  if Utf8.is_char_boundary s offset then Some offset
  else match fuel with O => None | S fuel => on_to_boundary fuel s (S offset) end.
Definition step_to_boundary (bias : Bias) (s : list Z) (offset : nat) : option nat :=
  match bias with
  | Left => back_to_boundary s offset
  | Right => on_to_boundary (length s) s offset
  end.

(** With [clip] or not, the release build returns the same. *)
Definition point_utf16_to_offset (self : Chunk) (point : PointUtf16) (clip : bool) : option nat :=
  if (row (lines self) <? row16 point)%N then Some (len self)
  else
    let '(start, end_) := offset_range_for_row self (row16 point) in
    line ← slice self start end_;
    if (last_line_len_utf16 line <? column16 point)%N then Some end_
    else if (0 <? column16 point)%N
    then
      offset ← offset_utf16_to_offset line (MkOffsetUtf16 (column16 point));
      back_to_boundary (text self) (start + offset)
    else Some start.

Definition unclipped_point_utf16_to_point (self : Chunk) (point : PointUtf16) : option Point :=
  let max_point := lines self in
  if (row max_point <? row16 point)%N then Some max_point
  else
    let '(start, end_) := offset_range_for_row self (row16 point) in
    line ← slice self start end_;
    if (column16 point =? 0)%N then Some (Point_new (row16 point) 0)
    else if (wrap_N 32 (offset16 (len_utf16 line)) <=? column16 point)%N
    then Some (Point_new (row16 point) (wrap_N 32 (N.of_nat (len line))))
    else
      offset ← offset_utf16_to_offset line (MkOffsetUtf16 (column16 point));
      column ← back_to_boundary (text line) offset;
      Some (Point_new (row16 point) (wrap_N 32 (N.of_nat column))).

Definition clip_offset_utf16 (self : Chunk) (target : OffsetUtf16) (bias : Bias) : option OffsetUtf16 :=
  if (offset16 target =? 0)%N then Some (MkOffsetUtf16 0)
  else if (offset16 (len_utf16 self) <=? offset16 target)%N then Some (len_utf16 self)
  else
    offset ← offset_utf16_to_offset self target;
    offset ← step_to_boundary bias (text self) offset;
    Some (offset_to_offset_utf16 self offset).

Definition clip_point_utf16 (self : Chunk) (point : PointUtf16) (bias : Bias) : option PointUtf16 :=
  let max_point := lines self in
  if (row max_point <? row16 point)%N then Some (mkPointUtf16 (row max_point) (last_line_len_utf16 self))
  else
    let '(start, end_) := offset_range_for_row self (row16 point) in
    line ← slice self start end_;
    column ← clip_offset_utf16 line (MkOffsetUtf16 (column16 point)) bias;
    Some (mkPointUtf16 (row16 point) (wrap_N 32 (offset16 column))).

(** ** Clipping to a grapheme *)

Section graphemes.
(** [GraphemeCursor::is_boundary], of the [unicode-segmentation] crate. *)
Variable is_grapheme_boundary : list Z → nat → bool.

(** The fuel is the number of offsets of the line. *)
Fixpoint clip_column (fuel : nat) (line : Chunk) (bias : Bias) (column : nat) : option nat :=
  if is_char_boundary line column && is_grapheme_boundary (text line) column then Some column
  else match fuel with
       | O => None
       | S fuel =>
           match bias, column with
           | Left, O => None
           | Left, S column => clip_column fuel line bias column
           | Right, _ => clip_column fuel line bias (column + 1)
           end
       end.

Definition clip_point (self : Chunk) (point : Point) (bias : Bias) : option Point :=
  let max_point := lines self in
  if (row max_point <? row point)%N then Some max_point
  else
    let '(start, end_) := offset_range_for_row self (row point) in
    line ← slice self start end_;
    if (column point =? 0)%N then Some point
    else if (wrap_N 32 (N.of_nat (len line)) <=? column point)%N
    then Some (Point_new (row point) (wrap_N 32 (N.of_nat (len line))))
    else
      let column := N.to_nat (column point) in
      before ← text line !! (column - 1);
      after ← text line !! column;
      if ((before <? 128) && (after <? 128))%Z
      then Some (Point_new (row point) (wrap_N 32 (N.of_nat column)))
      else
        column ← clip_column (length (text line)) line bias column;
        Some (Point_new (row point) (wrap_N 32 (N.of_nat column))).
End graphemes.

(** ** Tabs *)

Record Tabs := mkTabs { tabs_left : Bitmap; tabs_chars : Bitmap }.
Record TabPosition := mkTabPosition { byte_offset : nat; char_offset : nat }.

Definition tabs_of (self : Chunk) : Tabs := mkTabs (tabs self) (chars self).

Definition tabs_next (self : Tabs) : option (TabPosition * Tabs) :=
  if bool_decide (tabs_left self = zero) then None
  else
    let tab_offset := trailing_zeros (tabs_left self) in
    let chars_mask := wrapping_sub (unbounded_shl one tab_offset) one in
    let char_offset := count_ones (Zmod.and (tabs_chars self) chars_mask) in
    Some (mkTabPosition tab_offset char_offset,
          mkTabs (Zmod.xor (tabs_left self) (unbounded_shl one tab_offset)) (tabs_chars self)).

(** Collecting the iterator: every call clears a bit. *)
Fixpoint tabs_collect (fuel : nat) (self : Tabs) : list TabPosition :=
  match fuel with
  | O => []
  | S fuel =>
      match tabs_next self with
      | Some (position, self) => position :: tabs_collect fuel self
      | None => []
      end
  end.
