(* ===== verification/ChunkBits.v ===== *)
(** The bitmaps of a chunk mark its text: [chunk_of s c] says that [c] is the
    chunk of the text [s], and building, joining and cutting chunks keeps it. *)

From Stdlib Require Import ZArith Bits.
From stdpp Require Import base numbers option list.
From S2P Require Import Prelude Utf8 Point TextSummary Bits NthBit Chunk.

#[local] Open Scope nat_scope.

(** ** The marks of a text *)

Definition char_bits (s : list Z) : list bool := map is_utf8_char_boundary s.
Definition newline_bits (s : list Z) : list bool := map (λ b, b =? NEWLINE)%Z s.
Definition tab_bits (s : list Z) : list bool := map (λ b, b =? TAB)%Z s.

(** Two units for a character of four bytes: [carry] after its first byte. *)
Fixpoint units_from (carry : bool) (s : list Z) : list bool :=
  match s with
  | [] => []
  | b :: s => (is_utf8_char_boundary b || carry) :: units_from (240 <=? b)%Z s
  end.
Definition unit_bits (s : list Z) : list bool := units_from false s.

Record chunk_of (s : list Z) (c : Chunk) : Prop := {
  chunk_text : text c = s;
  chunk_str : str_ok s;
  chunk_length : length s ≤ MAX_BASE;
  chunk_chars : marks (char_bits s) (chars c);
  chunk_units : marks (unit_bits s) (chars_utf16 c);
  chunk_newlines : marks (newline_bits s) (newlines c);
  chunk_tabs : marks (tab_bits s) (tabs c)
}.

Lemma chunk_of_inj s c c' : chunk_of s c → chunk_of s c' → c = c'.
Proof.
  intros [E _ _ H1 H2 H3 H4] [E' _ _ H1' H2' H3' H4']. destruct c, c'. cbn in *. subst.
  f_equal; [by apply (marks_inj (char_bits s))|by apply (marks_inj (unit_bits s))|
    by apply (marks_inj (newline_bits s))|by apply (marks_inj (tab_bits s))].
Qed.

Lemma chunk_of_default : chunk_of [] Chunk_default.
Proof. split; (done || apply marks_nil || apply str_ok_nil || (cbn; lia)). Qed.

(** ** Bytes and bits *)

Lemma testbit_mark_byte p ix l j :
  N.testbit (mark_byte p ix l) (N.of_nat j) = bool_decide (ix ≤ j) && default false (map p l !! (j - ix)).
Proof.
  revert ix. induction l as [|b l IH]; intros ix; cbn [mark_byte map].
  - rewrite N.bits_0. by rewrite lookup_nil, andb_false_r.
  - rewrite N.lor_spec, IH. destruct (decide (ix ≤ j)) as [Hle|Hgt].
    + rewrite N.shiftl_spec_high' by lia. replace (N.of_nat j - N.of_nat ix)%N with (N.of_nat (j - ix)) by lia.
      destruct (decide (j = ix)) as [->|Hne].
      * rewrite Nat.sub_diag, (bool_decide_eq_false_2 (S ix ≤ ix)), orb_false_r by lia.
        rewrite bool_decide_eq_true_2 by lia. by destruct (p b).
      * rewrite !bool_decide_eq_true_2 by lia. replace (j - ix) with (S (j - S ix)) by lia.
        cbn [lookup list_lookup andb]. destruct (p b); cbn; [|done].
        by destruct (Pos.of_succ_nat (j - S ix)).
    + rewrite N.shiftl_spec_low by lia. by rewrite !bool_decide_eq_false_2 by lia.
Qed.

Lemma testbit_le_bytes p fuel l i :
  length l ≤ fuel →
  N.testbit (foldr (λ b acc, N.lor b (N.shiftl acc 8)) 0%N (map (mark_byte p 0) (chunks_aux fuel CHUNK_SIZE l)))
    (N.of_nat i) = default false (map p l !! i).
Proof.
  revert l i. induction fuel as [|fuel IH]; intros l i Hl.
  { destruct l; [|cbn in Hl; lia]. done. }
  destruct l as [|a l]; [done|].
  assert (E : chunks_aux (S fuel) CHUNK_SIZE (a :: l) =
    take CHUNK_SIZE (a :: l) :: chunks_aux fuel CHUNK_SIZE (drop CHUNK_SIZE (a :: l))) by done.
  rewrite E. clear E. remember (a :: l) as k. assert (Hk : length k ≤ S fuel ∧ 1 ≤ length k) by (subst k; cbn in *; lia).
  clear Heqk Hl. cbn [map foldr]. rewrite N.lor_spec, testbit_mark_byte, Nat.sub_0_r. unfold CHUNK_SIZE in *.
  rewrite bool_decide_eq_true_2 by lia. change (map p (take 8 k)) with (p <$> take 8 k). rewrite fmap_take. cbn [andb].
  destruct (decide (i < 8)) as [Hi|Hi].
  - rewrite N.shiftl_spec_low by lia. rewrite orb_false_r. by rewrite lookup_take_lt by done.
  - rewrite lookup_take_ge by lia. rewrite N.shiftl_spec_high' by lia.
    replace (N.of_nat i - 8)%N with (N.of_nat (i - 8)) by lia.
    rewrite IH by (rewrite length_drop; lia). change (map p (drop 8 k)) with (p <$> drop 8 k).
    rewrite fmap_drop, lookup_drop. cbn [orb default]. do 2 f_equal. lia.
Qed.

(** The eight-byte groups of [Chunk::new] are one bitmap over the text. *)
Lemma mark_bytes_marks p s : length s ≤ MAX_BASE → marks (map p s) (mark_bytes p s).
Proof.
  intros Hs. split; [by rewrite length_map|]. intros i. unfold testbit, mark_bytes, from_le_bytes.
  destruct (decide (i < MAX_BASE)) as [Hi|Hi].
  - rewrite Zmod.unsigned_of_Z, Z.mod_pow2_bits_low by (unfold MAX_BASE in *; lia).
    rewrite <- (nat_N_Z i), Z.testbit_of_N. by apply testbit_le_bytes.
  - rewrite lookup_ge_None_2 by (rewrite length_map; lia).
    apply (testbit_high (Zmod.of_Z _ _)). lia.
Qed.

(** ** UTF-16 units *)

Lemma length_units_from carry s : length (units_from carry s) = length s.
Proof. revert carry. induction s as [|b s IH]; intros carry; cbn; [done|]. by rewrite IH. Qed.

Lemma lookup_units_from carry s i :
  units_from carry s !! i =
  b ← s !! i; Some (is_utf8_char_boundary b ||
    match i with O => carry | S j => match s !! j with Some b => (240 <=? b)%Z | None => false end end).
Proof.
  revert carry i. induction s as [|b s IH]; intros carry i; [done|].
  destruct i as [|i]; [done|]. cbn. rewrite IH. by destruct i.
Qed.

(** A first byte of four is not the last byte. *)
Lemma lead_not_last s i b : str_ok s → s !! i = Some b → (240 ≤ b)%Z → S i < length s.
Proof.
  intros (cs&Hcs&->). revert i. induction Hcs as [|c cs Hc Hcs IH]; intros i Hi Hb; [done|].
  cbn [bytes_of flat_map] in *. fold (bytes_of cs) in *. rewrite length_app.
  destruct (decide (i < length (encode_utf8 c))) as [Hlt|Hge].
  - rewrite lookup_app_l in Hi by done. destruct (encode_shape c Hc) as (b0&bs&E&(_&_&H4&_)&Hbs&Hlen).
    destruct i as [|i].
    + rewrite E in Hi. cbn in Hi. simplify_eq. assert (Hc4 : (0x10000 ≤ c)%Z) by by apply H4.
      rewrite Hlen. unfold len_utf8. rewrite !(proj2 (Z.ltb_ge c _)) by lia. lia.
    + exfalso. rewrite E in Hi. cbn in Hi. rewrite Forall_lookup in Hbs. specialize (Hbs _ _ Hi).
      unfold is_tail in Hbs. lia.
  - rewrite lookup_app_r in Hi by lia. apply IH in Hi; [lia|done].
Qed.

Lemma boundary_carry s b0 : Utf8.is_char_boundary s 0 = true → units_from b0 s = units_from false s.
Proof.
  destruct s as [|b s]; [done|]. unfold Utf8.is_char_boundary. cbn. rewrite bool_decide_eq_false_2 by lia. by intros [= ->].
Qed.

Lemma units_from_app carry a b : units_from carry (a ++ b) = units_from carry a ++
  units_from (match last a with Some x => (240 <=? x)%Z | None => carry end) b.
Proof.
  revert carry. induction a as [|x a IH]; intros carry; [done|]. cbn [app units_from]. f_equal.
  rewrite IH. destruct a as [|y a]; [done|]. rewrite last_cons_cons.
  destruct (last (y :: a)) eqn:E; [done|]. by apply last_None in E.
Qed.

Lemma unit_bits_app a b : str_ok b → unit_bits (a ++ b) = unit_bits a ++ unit_bits b.
Proof. intros Hb. unfold unit_bits. by rewrite units_from_app, (boundary_carry b) by by apply boundary_0. Qed.

Lemma chars_utf16_marks s :
  str_ok s → length s ≤ MAX_BASE →
  marks (unit_bits s)
    (Zmod.or (unbounded_shl (mark_bytes (λ b, b >=? 240)%Z s) 1) (mark_bytes is_utf8_char_boundary s)).
Proof.
  intros Hs Hl. destruct (mark_bytes_marks (λ b, b >=? 240)%Z s Hl) as [_ H4].
  destruct (mark_bytes_marks is_utf8_char_boundary s Hl) as [_ Hc].
  split; [by unfold unit_bits; rewrite length_units_from|]. intros i.
  rewrite testbit_or, testbit_shl, H4, Hc. unfold unit_bits. rewrite lookup_units_from.
  change (map ?f s) with (f <$> s). rewrite !list_lookup_fmap.
  destruct (s !! i) as [b|] eqn:Ei; cbn.
  - apply lookup_lt_Some in Ei. destruct i as [|i]; [by rewrite orb_false_r|].
    rewrite bool_decide_eq_true_2 by lia. replace (S i - 1) with i by lia.
    rewrite orb_comm. f_equal. destruct (s !! i); cbn; [|done]. by rewrite Z.geb_leb.
  - rewrite orb_false_r. destruct i as [|i]; [done|]. replace (S i - 1) with i by lia.
    destruct (s !! i) as [b|] eqn:E; cbn; [|by rewrite andb_false_r].
    destruct (Z.geb_spec b 240) as [Hb|Hb]; [|by rewrite andb_false_r].
    apply (lead_not_last s i b Hs) in E; [|lia]. apply lookup_ge_None in Ei. lia.
Qed.

(** ** Building chunks *)

Lemma as_u32_id n : n ≤ 2 * MAX_BASE → as_u32 n = n.
Proof. intros Hn. unfold as_u32. rewrite wrap_N_id; [apply Nat2N.id|]. unfold fits, MAX_BASE in *. lia. Qed.

Lemma array_string_fits s : length s ≤ MAX_BASE → array_string s = Some s.
Proof. intros. unfold array_string. by rewrite bool_decide_eq_true_2. Qed.

Lemma shl_lt x k : k < MAX_BASE → shl x k = Some (unbounded_shl x k).
Proof. intros. unfold shl. by rewrite bool_decide_eq_true_2. Qed.

Lemma shr_lt x k : k < MAX_BASE → shr x k = Some (unbounded_shr x k).
Proof. intros. unfold shr. by rewrite bool_decide_eq_true_2. Qed.

Lemma new_of s : str_ok s → length s ≤ MAX_BASE → ∃ c, new s = Some c ∧ chunk_of s c.
Proof.
  intros Hs Hl. unfold new. rewrite array_string_fits by done. eexists. split; [reflexivity|].
  split; cbn; (done || (by apply mark_bytes_marks) || (by apply chars_utf16_marks)).
Qed.

(** A chunk is what [Chunk::new] makes of its text. *)
Lemma chunk_of_new s c : chunk_of s c → new s = Some c.
Proof.
  intros Hc. destruct (new_of s) as (c'&E&Hc'); [apply Hc..|]. rewrite E. f_equal. by apply (chunk_of_inj s).
Qed.

Lemma is_empty_of s c : chunk_of s c → is_empty c = bool_decide (s = []).
Proof.
  intros Hc. unfold is_empty. rewrite (chunk_text _ _ Hc). apply bool_decide_ext.
  split; [apply nil_length_inv|by intros ->].
Qed.

(** The bitmaps of a concatenation. *)
Lemma chunk_of_join a b c d s :
  chunk_of a c → chunk_of b d → length a + length b ≤ MAX_BASE → s = a ++ b →
  chunk_of s (mkChunk (Zmod.or (chars c) (unbounded_shl (chars d) (length a)))
    (Zmod.or (chars_utf16 c) (unbounded_shl (chars_utf16 d) (length a)))
    (Zmod.or (newlines c) (unbounded_shl (newlines d) (length a)))
    (Zmod.or (tabs c) (unbounded_shl (tabs d) (length a))) s).
Proof.
  intros [_ Ha _ Hc Hu Hn Ht] [_ Hb _ Hc' Hu' Hn' Ht'] Hl ->.
  assert (Ejoin : ∀ (f : Z → bool) x y, marks (map f a) x → marks (map f b) y →
    marks (map f (a ++ b)) (Zmod.or x (unbounded_shl y (length a)))).
  { intros f x y Hx Hy. rewrite map_app, <- (length_map f a). apply marks_or_shl; [done..|]. by rewrite !length_map. }
  split; cbn; [done|by apply str_ok_app|by rewrite length_app|by apply Ejoin| |by apply Ejoin|by apply Ejoin].
  rewrite unit_bits_app by done. rewrite <- (length_units_from false a).
  apply marks_or_shl; [done..|]. by unfold unit_bits; rewrite !length_units_from.
Qed.

Lemma append_of a b c d :
  chunk_of a c → chunk_of b d → length a + length b ≤ MAX_BASE →
  ∃ e, append c d = Some e ∧ chunk_of (a ++ b) e.
Proof.
  intros Ha Hb Hl. unfold append. rewrite (is_empty_of b d Hb). case_bool_decide as Hne.
  { subst b. exists c. by rewrite app_nil_r. }
  assert (length b ≠ 0) by by intros ?%nil_length_inv.
  rewrite (chunk_text _ _ Ha), (chunk_text _ _ Hb), !shl_lt by lia. cbn.
  rewrite array_string_fits by by rewrite length_app. cbn. eexists. split; [reflexivity|].
  by apply (chunk_of_join a b).
Qed.

Lemma prepend_of a b c d :
  chunk_of a c → chunk_of b d → length a + length b ≤ MAX_BASE →
  ∃ e, prepend d c = Some e ∧ chunk_of (a ++ b) e.
Proof.
  intros Ha Hb Hl. unfold prepend. rewrite (is_empty_of a c Ha), (is_empty_of b d Hb).
  case_bool_decide as Hna; [by subst a; exists d|]. case_bool_decide as Hnb.
  { subst b. rewrite (chunk_text _ _ Ha), app_nil_r. apply new_of; apply Ha. }
  assert (length b ≠ 0) by by intros ?%nil_length_inv.
  rewrite (chunk_text _ _ Ha), (chunk_text _ _ Hb), !shl_lt by lia. cbn.
  rewrite array_string_fits by by rewrite length_app. cbn. eexists. split; [reflexivity|].
  by apply (chunk_of_join a b).
Qed.

Lemma push_str_of a b c :
  chunk_of a c → str_ok b → length a + length b ≤ MAX_BASE →
  ∃ e, push_str c b = Some e ∧ chunk_of (a ++ b) e.
Proof.
  intros Ha Hb Hl. unfold push_str. destruct (new_of b) as (d&E&Hd); [done|lia|]. rewrite E. cbn.
  by apply append_of.
Qed.

Lemma prepend_str_of a b d :
  str_ok a → chunk_of b d → length a + length b ≤ MAX_BASE →
  ∃ e, prepend_str d a = Some e ∧ chunk_of (a ++ b) e.
Proof.
  intros Ha Hb Hl. unfold prepend_str. destruct (new_of a) as (c&E&Hc); [done|lia|]. rewrite E. cbn.
  by apply prepend_of.
Qed.

(** ** Boundaries *)

Lemma is_char_boundary_of s c o :
  chunk_of s c → o ≤ 2 * MAX_BASE → is_char_boundary c o = Utf8.is_char_boundary s o.
Proof.
  intros Hc Ho. unfold is_char_boundary, Utf8.is_char_boundary. rewrite as_u32_id by done.
  rewrite (chunk_text _ _ Hc), orb_comm. f_equal. destruct (chunk_chars _ _ Hc) as [_ Hm].
  assert (E : bool_decide (Zmod.and (unbounded_shl one o) (chars c) ≠ zero) = testbit (chars c) o).
  { apply eq_true_iff_eq. rewrite bool_decide_eq_true, nonzero_bit. split.
    - intros (i&_&Hi). rewrite testbit_and, testbit_shl, testbit_one in Hi.
      apply andb_true_iff in Hi as [[H1 H2]%andb_true_iff Hi].
      apply bool_decide_eq_true in H1, H2. by replace o with i by lia.
    - intros Hi. assert (Hlt : o < MAX_BASE).
      { destruct (decide (o < MAX_BASE)); [done|]. by rewrite testbit_high in Hi by lia. }
      exists o. split; [done|]. rewrite testbit_and, testbit_shl, testbit_one, Hi, Nat.sub_diag.
      by rewrite !bool_decide_eq_true_2 by lia. }
  rewrite E, Hm. unfold char_bits. change (map ?f s) with (f <$> s). rewrite list_lookup_fmap.
  by destruct (s !! o).
Qed.

(** ** Cutting chunks *)

Lemma unit_bits_cut s o :
  str_ok s → Utf8.is_char_boundary s o = true →
  take o (unit_bits s) = unit_bits (take o s) ∧ drop o (unit_bits s) = unit_bits (drop o s).
Proof.
  intros Hs Ho. destruct (str_ok_boundary s o Hs Ho) as (_&Hd&Hl).
  assert (E : length (unit_bits (take o s)) = o) by (unfold unit_bits; rewrite length_units_from, length_take; lia).
  assert (Es : unit_bits s = unit_bits (take o s) ++ unit_bits (drop o s))
    by by rewrite <- unit_bits_app, take_drop by done.
  rewrite Es. by rewrite take_app_length', drop_app_length' by done.
Qed.

Lemma chunk_of_take s c o :
  chunk_of s c → Utf8.is_char_boundary s o = true →
  let mask := wrapping_sub (unbounded_shl one o) one in
  chunk_of (take o s) (mkChunk (Zmod.and (chars c) mask) (Zmod.and (chars_utf16 c) mask)
    (Zmod.and (newlines c) mask) (Zmod.and (tabs c) mask) (take o s)).
Proof.
  intros [_ Hs Hl Hc Hu Hn Ht] Ho. destruct (str_ok_boundary s o Hs Ho) as (Hts&_&_).
  split; cbn; [done..|rewrite length_take; lia| | | |].
  2: destruct (unit_bits_cut s o Hs Ho) as [<- _]; by apply marks_mask.
  all: unfold char_bits, newline_bits, tab_bits; rewrite <- firstn_map; by apply marks_mask.
Qed.

Lemma chunk_of_drop s c o :
  chunk_of s c → Utf8.is_char_boundary s o = true →
  chunk_of (drop o s) (mkChunk (unbounded_shr (chars c) o) (unbounded_shr (chars_utf16 c) o)
    (unbounded_shr (newlines c) o) (unbounded_shr (tabs c) o) (drop o s)).
Proof.
  intros [_ Hs Hl Hc Hu Hn Ht] Ho. destruct (str_ok_boundary s o Hs Ho) as (_&Hds&_).
  split; cbn; [done..|rewrite length_drop; lia| | | |].
  2: destruct (unit_bits_cut s o Hs Ho) as [_ <-]; by apply marks_shr.
  all: unfold char_bits, newline_bits, tab_bits; rewrite <- skipn_map; by apply marks_shr.
Qed.

Lemma split_at_of s c mid :
  chunk_of s c → Utf8.is_char_boundary s mid = true →
  ∃ l r, split_at c mid = Some (l, r) ∧ chunk_of (take mid s) l ∧ chunk_of (drop mid s) r.
Proof.
  intros Hc Hm. destruct (str_ok_boundary s mid (chunk_str _ _ Hc) Hm) as (_&_&Hl).
  pose proof (chunk_length _ _ Hc). unfold split_at. case_bool_decide as E.
  - exists c, Chunk_default. rewrite take_ge, drop_ge by lia. split_and!; [done..|apply chunk_of_default].
  - rewrite !shl_lt, !shr_lt by lia. cbn. unfold Utf8.split_at. rewrite (chunk_text _ _ Hc), Hm. cbn.
    eexists _, _. split; [reflexivity|]. split; [by apply chunk_of_take|by apply chunk_of_drop].
Qed.

Lemma slice_of s c a b :
  chunk_of s c → Utf8.is_char_boundary s a = true → Utf8.is_char_boundary s b = true → a ≤ b →
  ∃ d, slice c a b = Some d ∧ chunk_of (take (b - a) (drop a s)) d.
Proof.
  intros Hc Ha Hb Hab. destruct (str_ok_boundary s a (chunk_str _ _ Hc) Ha) as (_&_&Hla).
  destruct (str_ok_boundary s b (chunk_str _ _ Hc) Hb) as (_&_&Hlb).
  pose proof (chunk_length _ _ Hc). unfold slice. case_bool_decide as E.
  - exists Chunk_default. rewrite drop_ge, take_nil by lia. split; [done|apply chunk_of_default].
  - rewrite !(is_char_boundary_of s c), Ha, Hb by (done || lia). rewrite !shr_lt, as_u32_id by lia. cbn.
    unfold str_slice. rewrite (chunk_text _ _ Hc), Ha, Hb, bool_decide_eq_true_2 by done. cbn.
    eexists. split; [reflexivity|]. rewrite take_drop_commute. replace (a + (b - a)) with b by lia.
    refine (chunk_of_drop _ _ a (chunk_of_take s c b Hc Hb) _).
    by rewrite boundary_take by (done || apply Hc || lia).
Qed.
