(* ===== verification/ChunkSummary.v ===== *)
(** The summary of a chunk: the counts over its bitmaps are the counts of its
    rows, so they obey the laws of summaries whatever the bitmaps, and for the
    chunk of a text they are [TextSummary::from] of the text. *)

From Stdlib Require Import ZArith Bits.
From stdpp Require Import base numbers option list.
From S2P Require Import Prelude SumTree SumTreeFacts Utf8 Point TextSummary Bits NthBit Chunk ChunkBits.

#[local] Open Scope nat_scope.

(** ** Rows of a list of marks *)

Section rows.
Implicit Types l : list (bool * bool).

Lemma row_counts_length l : length (row_counts l) = S (ones l.*2).
Proof.
  induction l as [|[c n] l IH]; [done|]. cbn [row_counts fmap list_fmap snd]. rewrite ones_cons.
  destruct n; [cbn; by rewrite IH|]. destruct (row_counts l); cbn in *; lia.
Qed.

Lemma row_counts_hd l : hd 0%N (row_counts l) = N.of_nat (ones (take (first_one l.*2) l.*1)).
Proof.
  induction l as [|[c n] l IH]; [done|]. cbn [row_counts fmap list_fmap fst snd first_one].
  destruct n; [done|]. cbn [take]. rewrite ones_cons. destruct (row_counts_cons l) as (r&rows&E).
  rewrite E in *. cbn in *. rewrite IH. destruct c; cbn; lia.
Qed.

Lemma row_counts_single l : ones l.*2 = 0 → row_counts l = [N.of_nat (ones l.*1)].
Proof.
  induction l as [|[c n] l IH]; [done|]. cbn [row_counts fmap list_fmap fst snd]. rewrite !ones_cons.
  destruct n; cbn; [done|]. intros H. rewrite IH by done. f_equal. destruct c; cbn; lia.
Qed.

Lemma row_counts_first l :
  ones l.*2 ≠ 0 →
  row_counts l = N.of_nat (ones (take (first_one l.*2) l.*1)) :: row_counts (drop (S (first_one l.*2)) l).
Proof.
  induction l as [|[c n] l IH]; [done|]. cbn [row_counts fmap list_fmap fst snd first_one]. rewrite !ones_cons.
  destruct n; [done|]. cbn [Nat.b2n Nat.add take drop]. intros H. rewrite IH by done. f_equal.
  rewrite ones_cons. destruct c; cbn; lia.
Qed.

Lemma row_counts_last l : List.last (row_counts l) 0%N = N.of_nat (ones (drop (last_end l.*2) l.*1)).
Proof.
  induction l as [|[c n] l IH]; [done|]. cbn [row_counts fmap list_fmap fst snd]. rewrite last_end_cons.
  case_bool_decide as H0.
  - rewrite (row_counts_single l H0) in *. destruct n; cbn [Nat.b2n drop].
    + done.
    + cbn [List.last]. rewrite ones_cons. destruct c; cbn; lia.
  - cbn [drop]. rewrite <- IH. pose proof (row_counts_length l) as Hl.
    destruct (row_counts l) as [|r [|r' rows]]; cbn [length] in Hl; [lia..|]. by destruct n.
Qed.
End rows.

(** ** Masks *)

Lemma marks_zero_iff l x : marks l x → x = zero ↔ ones l = 0.
Proof.
  intros Hm. split.
  - intros ->. rewrite <- (count_ones_marks l zero Hm). by vm_compute.
  - intros H0. apply (marks_inj l); [done|]. apply ones_0 in H0. rewrite H0.
    apply (marks_extend [] (length l)); [apply marks_nil|]. apply Hm.
Qed.

Lemma count_below_first lc ln x y :
  marks lc x → marks ln y → length lc = length ln →
  count_ones (Zmod.and x (saturating_shl_mask (trailing_zeros y))) = ones (take (first_one ln) lc).
Proof.
  intros Hx Hy Hl. unfold saturating_shl_mask. rewrite (trailing_zeros_marks ln y Hy).
  erewrite (count_ones_marks _ _) by by apply marks_mask. case_bool_decide as H0; [|done].
  apply first_one_0 in H0. destruct Hx. by rewrite H0, !take_ge by lia.
Qed.

Lemma count_above_last lc ln x y :
  marks lc x → marks ln y → length lc = length ln →
  count_ones (Zmod.and x (saturating_shr_mask (leading_zeros y))) = ones (drop (last_end ln) lc).
Proof.
  intros Hx Hy Hl. unfold saturating_shr_mask. rewrite (leading_zeros_marks ln y Hy).
  pose proof (last_end_le ln). erewrite (count_ones_marks _ _) by (apply marks_high; [done|lia]).
  by rewrite ones_app, ones_zeros.
Qed.

(** ** The loop over the rows *)

Lemma wrap_count n : n ≤ MAX_BASE → wrap_N 8 (N.of_nat n) = N.of_nat n.
Proof. intros Hn. apply wrap_N_id. unfold fits, MAX_BASE in *. lia. Qed.

Definition total (rows : list N) : nat := N.to_nat (foldr N.add 0%N rows).

Lemma longest_row_loop_spec fuel (l : list (bool * bool)) x y t r lr lrc :
  marks l.*1 x → marks l.*2 y → ones l.*2 ≤ fuel →
  longest_row_loop fuel x y t r lr lrc =
  (t + total (row_counts l) + ones l.*2, scan_longest (row_counts l) r (lr, lrc)).
Proof.
  revert l x y t r lr lrc. induction fuel as [|fuel IH]; intros l x y t r lr lrc Hx Hy Hf.
  all: assert (H128 : ones l.*1 ≤ MAX_BASE) by (pose proof (ones_length l.*1); destruct Hx; lia).
  - rewrite (row_counts_single l) by lia. cbn [longest_row_loop scan_longest total foldr fst snd].
    rewrite (count_ones_marks _ _ Hx), wrap_count by done. f_equal. unfold total. cbn. lia.
  - cbn [longest_row_loop]. case_bool_decide as Hz; rewrite (marks_zero_iff _ _ Hy) in Hz.
    + rewrite (row_counts_single l) by done. cbn [scan_longest fst snd].
      rewrite (count_ones_marks _ _ Hx), wrap_count by done. f_equal. unfold total. cbn. lia.
    + rewrite (row_counts_first l Hz). set (k := first_one l.*2).
      assert (Hk : k < length l.*2).
      { pose proof (first_one_le l.*2). pose proof (first_one_0 l.*2). unfold k in *. lia. }
      rewrite (trailing_zeros_marks _ _ Hy), bool_decide_eq_false_2 by done. fold k.
      erewrite (count_ones_marks (take k l.*1)) by by apply marks_mask.
      pose proof (ones_length (take k l.*1)) as Hc. rewrite length_take in Hc.
      rewrite wrap_count by (destruct Hx; lia).
      assert (Edrop : ∀ (f : bool * bool → bool), drop 1 (drop k (f <$> l)) = f <$> drop (S k) l).
      { intros f. by rewrite drop_drop, <- fmap_drop, Nat.add_1_r. }
      assert (E2 : ones l.*2 = S (ones (drop (S k) l).*2)).
      { rewrite fmap_drop, <- (ones_take_drop l.*2 (S k)).
        rewrite (ones_take_S l.*2 k true) by by apply first_one_lt.
        rewrite ones_take_first by done. cbn. lia. }
      rewrite (IH (drop (S k) l)).
      * rewrite E2. cbn [scan_longest snd fst]. f_equal; [|by destruct (_ <? _)%N]. unfold total. cbn [foldr]. lia.
      * rewrite <- Edrop. by apply marks_shr, marks_shr.
      * rewrite <- Edrop. by apply marks_shr, marks_shr.
      * lia.
Qed.

(** The counts of any chunk are those of its rows. *)
Lemma text_summary_rows c (l : list (bool * bool)) :
  marks l.*1 (chars c) → marks l.*2 (newlines c) →
  let s := text_summary c in
  TextSummary.chars s = total (row_counts l) + ones l.*2 ∧
  row (TextSummary.lines s) = (N.of_nat (length (row_counts l)) - 1)%N ∧
  TextSummary.first_line_chars s = hd 0%N (row_counts l) ∧
  TextSummary.last_line_chars s = List.last (row_counts l) 0%N ∧
  (TextSummary.longest_row s, TextSummary.longest_row_chars s) = scan_longest (row_counts l) 0 (0%N, 0%N).
Proof.
  intros Hc Hn. unfold text_summary, longest_row.
  rewrite (longest_row_loop_spec _ l) by (done || (destruct Hn; pose proof (ones_length l.*2); lia)).
  destruct (scan_longest _ _ _) as [a b]. cbn [TextSummary.chars TextSummary.lines TextSummary.first_line_chars
    TextSummary.last_line_chars TextSummary.longest_row TextSummary.longest_row_chars].
  unfold lines, first_line_chars, last_line_chars. cbn [row Point_new].
  assert (Hl : length l.*1 = length l.*2) by by rewrite !length_fmap.
  rewrite (count_ones_marks _ _ Hn), row_counts_length, row_counts_hd, row_counts_last.
  rewrite (count_below_first l.*1 l.*2), (count_above_last l.*1 l.*2) by done. split_and!; try done; lia.
Qed.

#[export] Instance Chunk_ItemLaws : ItemLaws Chunk ChunkSummary ().
Proof.
  intros cx c. unfold summary_ok, ChunkSummary_SummaryOk, item_summary_of, Chunk_Item. cbn [TextSummary.text].
  set (l := zip (bits_of (chars c)) (bits_of (newlines c))).
  destruct (text_summary_rows c l) as (_&H1&H2&H3&H4).
  - unfold l. rewrite fst_zip by by rewrite !length_bits_of. apply marks_bits_of.
  - unfold l. rewrite snd_zip by by rewrite !length_bits_of. apply marks_bits_of.
  - by apply (rows_summary_ok _ l).
Qed.

(** ** The marks of the characters *)

Lemma char_bits_encode c :
  char_ok c → char_bits (encode_utf8 c) = true :: replicate (len_utf8 c - 1) false ∧
  newline_bits (encode_utf8 c) = (c =? NEWLINE)%Z :: replicate (len_utf8 c - 1) false ∧
  ones (unit_bits (encode_utf8 c)) = Utf8.len_utf16 c.
Proof.
  intros Hc. destruct (encode_shape c Hc) as (b&bs&E&(Hb&Hb0&H4&Hnl&_)&Hbs&Hlen).
  rewrite <- Hlen, E. cbn [length]. rewrite Nat.sub_succ, Nat.sub_0_r.
  assert (Htail : ∀ f, (∀ x, is_tail x → f x = false) → map f bs = replicate (length bs) false).
  { intros f Hf. clear - Hbs Hf. induction Hbs as [|x bs Hx _ IH]; [done|]. cbn. by rewrite Hf, IH. }
  split_and!.
  - unfold char_bits. cbn [map]. rewrite Hb, Htail; [done|]. intros x. apply tail_not_boundary.
  - unfold newline_bits. cbn [map]. rewrite Htail.
    + f_equal. apply eq_true_iff_eq. by rewrite !Z.eqb_eq.
    + intros x Hx. apply Z.eqb_neq. unfold is_tail, NEWLINE in *. lia.
  - unfold unit_bits. cbn [units_from]. rewrite Hb, ones_cons. cbn [orb Nat.b2n].
    assert (Hn : ∀ l, Forall is_tail l → ones (units_from false l) = 0).
    { induction 1 as [|x l Hx _ IH]; [done|]. cbn [units_from].
      rewrite (tail_not_boundary x Hx), ones_cons. cbn [orb Nat.b2n].
      assert (Z.leb 240 x = false) as -> by (apply Z.leb_gt; unfold is_tail in Hx; lia). by rewrite IH. }
    unfold Utf8.len_utf16. destruct (Z.leb_spec 240 b) as [H|H].
    + assert (Hbig : (0x10000 ≤ c)%Z) by tauto. rewrite (proj2 (Z.ltb_ge c _)) by done.
      rewrite E in Hlen. unfold len_utf8 in Hlen. rewrite !(proj2 (Z.ltb_ge c _)) in Hlen by lia.
      destruct Hbs as [|x bs Hx Hbs]; [done|]. cbn [units_from]. rewrite orb_true_r, ones_cons.
      assert (Z.leb 240 x = false) as -> by (apply Z.leb_gt; unfold is_tail in Hx; lia). by rewrite Hn.
    + rewrite (proj2 (Z.ltb_lt c _)) by lia. by rewrite Hn.
Qed.

Lemma bits_app (f : Z → bool) a b : map f (a ++ b) = map f a ++ map f b.
Proof. apply map_app. Qed.

Lemma bytes_of_cons c cs : bytes_of (c :: cs) = encode_utf8 c ++ bytes_of cs.
Proof. done. Qed.

Lemma str_ok_bytes cs : Forall char_ok cs → str_ok (bytes_of cs).
Proof. by exists cs. Qed.

Lemma zip_app_eq {A B} (a a' : list A) (b b' : list B) :
  length a = length b → zip (a ++ a') (b ++ b') = zip a b ++ zip a' b'.
Proof. apply zip_with_app. Qed.

(** The marks of the bytes count the rows of the characters. *)
Lemma row_counts_bytes cs :
  Forall char_ok cs →
  row_counts (zip (char_bits (bytes_of cs)) (newline_bits (bytes_of cs))) = row_counts (char_marks cs).
Proof.
  assert (Hskip : ∀ k l, row_counts (zip (replicate k false) (replicate k false) ++ l) = row_counts l).
  { induction k as [|k IH]; intros l; [done|]. cbn. rewrite IH. by destruct (row_counts l). }
  induction 1 as [|c cs Hc Hcs IH]; [done|]. rewrite bytes_of_cons.
  unfold char_bits, newline_bits in *. rewrite !bits_app.
  destruct (char_bits_encode c Hc) as (E1&E2&_). unfold char_bits, newline_bits in E1, E2. rewrite E1, E2.
  rewrite zip_app_eq by (cbn; by rewrite !length_replicate). cbn [zip zip_with app row_counts char_marks map].
  change (zip_with pair ?a ?b) with (zip a b). by rewrite Hskip, IH.
Qed.

Lemma ones_newlines_bytes cs :
  Forall char_ok cs →
  ones (newline_bits (bytes_of cs)) = length (filter (λ c, c = NEWLINE) cs).
Proof.
  induction 1 as [|c cs Hc Hcs IH]; [done|]. rewrite bytes_of_cons. unfold newline_bits. rewrite bits_app, ones_app.
  fold (newline_bits (bytes_of cs)) (newline_bits (encode_utf8 c)). rewrite IH.
  destruct (char_bits_encode c Hc) as (_&->&_). rewrite ones_cons, ones_zeros, filter_cons.
  destruct (Z.eqb_spec c NEWLINE); [rewrite decide_True by done|rewrite decide_False by done]; done.
Qed.

Lemma chars_from_str cs : TextSummary.chars (from_str cs) = length cs.
Proof.
  induction cs as [|c cs IH]; [done|]. rewrite from_str_cons. cbn [TextSummary_add TextSummary.chars length].
  rewrite IH. done.
Qed.

(** The sum of the rows and their ends is the number of characters. *)
Lemma total_chars cs :
  total (row_counts (char_marks cs)) + length (filter (λ c, c = NEWLINE) cs) = length cs.
Proof.
  unfold total. induction cs as [|c cs IH]; [done|]. cbn [char_marks map row_counts length]. rewrite filter_cons.
  fold (char_marks cs). destruct (row_counts_cons (char_marks cs)) as (r&rows&E). rewrite E in *. cbn [foldr] in *.
  destruct (Z.eqb_spec c NEWLINE); case_decide; try done; cbn [foldr length N.b2n]; lia.
Qed.

Lemma units_from_str cs :
  Forall char_ok cs → N.of_nat (ones (unit_bits (bytes_of cs))) = offset16 (TextSummary.len_utf16 (from_str cs)).
Proof.
  induction 1 as [|c cs Hc Hcs IH]; [done|]. rewrite from_str_cons, bytes_of_cons.
  rewrite unit_bits_app, ones_app by by apply str_ok_bytes. destruct (char_bits_encode c Hc) as (_&_&->).
  cbn [TextSummary_add TextSummary.len_utf16 OffsetUtf16_plus offset16]. rewrite <- IH.
  change (offset16 (TextSummary.len_utf16 (char_summary c))) with (0 + N.of_nat (Utf8.len_utf16 c))%N. lia.
Qed.

(** *** Lines *)

Lemma extent_bits s : extent s = mkPoint (N.of_nat (ones (newline_bits s))) (N.of_nat (length s - last_end (newline_bits s))).
Proof.
  induction s as [|b s IH]; [done|]. change (b :: s) with ([b] ++ s). rewrite extent_app, IH. cbn [row column].
  unfold newline_bits in *. cbn [map app length]. rewrite ones_cons, last_end_cons.
  pose proof (last_end_le (map (λ b, (b =? NEWLINE)%Z) s)) as Hle. rewrite length_map in Hle.
  pose proof (last_end_0 (map (λ b, (b =? NEWLINE)%Z) s)) as H0.
  unfold extent. cbn [extent_from row column].
  destruct (Z.eqb_spec b NEWLINE); cbn [row column Nat.b2n]; case_bool_decide; decide_arith; f_equal; lia.
Qed.

Lemma lines_from_str cs : Forall char_ok cs → TextSummary.lines (from_str cs) = extent (bytes_of cs).
Proof.
  induction 1 as [|c cs Hc Hcs IH]; [done|]. rewrite from_str_cons, bytes_of_cons, extent_app.
  cbn [TextSummary_add TextSummary.lines]. rewrite IH. unfold Point_plus.
  assert (E : TextSummary.lines (char_summary c) = extent (encode_utf8 c)); [|by rewrite E].
  rewrite extent_bits. destruct (char_bits_encode c Hc) as (_&E&_). rewrite E, ones_cons, ones_zeros.
  rewrite last_end_cons, bool_decide_eq_true_2, length_encode_utf8 by apply ones_zeros.
  destruct (decide (c = NEWLINE)) as [->|Hne]; [done|].
  rewrite char_summary_other, (proj2 (Z.eqb_neq _ _)) by done. cbn. f_equal. lia.
Qed.

Lemma last_line_from_str cs :
  Forall char_ok cs →
  TextSummary.last_line_len_utf16 (from_str cs) =
  N.of_nat (ones (drop (last_end (newline_bits (bytes_of cs))) (unit_bits (bytes_of cs)))).
Proof.
  intros Hcs. induction cs as [|c cs IH] using rev_ind; [done|].
  apply Forall_app in Hcs as [Hcs Hc]. rewrite Forall_singleton in Hc. specialize (IH Hcs).
  rewrite from_str_snoc, bytes_of_app. cbn [bytes_of flat_map]. rewrite app_nil_r.
  fold (bytes_of cs). rewrite unit_bits_app by (exists [c]; cbn; rewrite app_nil_r; by rewrite Forall_singleton).
  unfold newline_bits. rewrite bits_app. fold (newline_bits (bytes_of cs)) (newline_bits (encode_utf8 c)).
  destruct (char_bits_encode c Hc) as (_&E&Eu). rewrite last_end_app, E, ones_cons, ones_zeros.
  rewrite (last_end_cons _ (replicate _ _)), (bool_decide_eq_true_2 (ones (replicate _ _) = 0)) by apply ones_zeros.
  assert (Hlen : length (unit_bits (bytes_of cs)) = length (newline_bits (bytes_of cs)))
    by by unfold unit_bits, newline_bits; rewrite length_units_from, length_map.
  destruct (decide (c = NEWLINE)) as [->|Hne].
  - rewrite char_summary_newline. cbn [Z.eqb Nat.b2n]. rewrite Z.eqb_refl. cbn [Nat.b2n].
    rewrite bool_decide_eq_false_2 by lia. rewrite <- Hlen, drop_app_ge, Nat.add_sub' by lia. done.
  - rewrite char_summary_other, (proj2 (Z.eqb_neq _ _)) by done. cbn [Nat.b2n].
    rewrite bool_decide_eq_true_2 by lia. pose proof (last_end_le (newline_bits (bytes_of cs))).
    rewrite drop_app_le, ones_app, Eu by lia.
    cbn [TextSummary_add TextSummary.last_line_len_utf16 TextSummary.lines row N.eqb]. rewrite IH. lia.
Qed.
