(* ===== verification/ChunkFacts.v ===== *)
(** The chunk of a text answers for the text: its summary is the text's, and
    its conversions relate the coordinates of one place, as an offset, a point,
    a UTF-16 offset or a UTF-16 point. *)

From Stdlib Require Import ZArith Bits.
From stdpp Require Import base numbers option list.
From S2P Require Import Prelude SumTree Utf8 Point Bits NthBit TextSummary Chunk ChunkBits ChunkSummary.

#[local] Open Scope nat_scope.

Lemma length_newline_bits s : length (newline_bits s) = length s.
Proof. apply length_map. Qed.
Lemma length_unit_bits s : length (unit_bits s) = length s.
Proof. apply length_units_from. Qed.
Lemma length_char_bits s : length (char_bits s) = length s.
Proof. apply length_map. Qed.

(** ** The summary *)

Lemma lines_of s c : chunk_of s c → lines c = extent s.
Proof.
  intros Hc. pose proof (chunk_length _ _ Hc) as Hl. pose proof (chunk_newlines _ _ Hc) as Hn.
  unfold lines, len. rewrite (count_ones_marks _ _ Hn), (leading_zeros_marks _ _ Hn), (chunk_text _ _ Hc), extent_bits.
  unfold Point_new. f_equal. pose proof (last_end_le (newline_bits s)) as Hle. rewrite length_newline_bits in Hle.
  unfold MAX_BASE in *. rewrite (wrap_N_id 32) by (unfold fits; lia).
  rewrite (wrapping_sub_le 32 (N.of_nat 128)) by (unfold fits; lia).
  rewrite wrapping_sub_le by (unfold fits; lia). lia.
Qed.

Lemma text_summary_lengths c :
  TextSummary.len (text_summary c) = len c ∧ TextSummary.len_utf16 (text_summary c) = len_utf16 c ∧
  TextSummary.lines (text_summary c) = lines c ∧
  TextSummary.last_line_len_utf16 (text_summary c) = last_line_len_utf16 c.
Proof. unfold text_summary. by destruct (longest_row c) as [? []]. Qed.

Lemma text_summary_of cs c :
  Forall char_ok cs → chunk_of (bytes_of cs) c → text_summary c = from_str cs.
Proof.
  intros Hcs Hc. destruct (text_summary_lengths c) as (Elen&Eu&El&Ell).
  destruct (text_summary_rows c (zip (char_bits (bytes_of cs)) (newline_bits (bytes_of cs)))) as (H1&H2&H3&H4&H5).
  { rewrite fst_zip by by rewrite length_char_bits, length_newline_bits. apply Hc. }
  { rewrite snd_zip by by rewrite length_char_bits, length_newline_bits. apply Hc. }
  rewrite snd_zip in H1 by by rewrite length_char_bits, length_newline_bits.
  rewrite row_counts_bytes in H1, H2, H3, H4, H5 by done.
  destruct (from_str_rows cs) as (_&E3&E4&E5). rewrite <- E5 in H5. injection H5 as H5 H6.
  apply TextSummary_ext.
  - rewrite Elen. unfold len. by rewrite (chunk_text _ _ Hc).
  - rewrite H1, chars_from_str, ones_newlines_bytes by done. apply total_chars.
  - rewrite Eu. unfold len_utf16. rewrite (count_ones_marks _ _ (chunk_units _ _ Hc)), units_from_str by done.
    by destruct (TextSummary.len_utf16 (from_str cs)).
  - rewrite El, lines_from_str by done. by apply lines_of.
  - by rewrite H3, E3.
  - by rewrite H4, E4.
  - rewrite Ell. unfold last_line_len_utf16.
    rewrite (count_above_last (unit_bits (bytes_of cs)) (newline_bits (bytes_of cs))); [|apply Hc|apply Hc|].
    + symmetry. by apply last_line_from_str.
    + by rewrite length_unit_bits, length_newline_bits.
  - exact H5.
  - exact H6.
Qed.

(** ** From offsets *)

Section from_offset.
Context (s : list Z) (c : Chunk) (Hc : chunk_of s c).

Lemma mask_newlines o : o ≤ 2 * MAX_BASE → marks (newline_bits (take o s)) (Zmod.and (newlines c) (offset_mask o)).
Proof.
  intros Ho. unfold offset_mask, newline_bits. rewrite as_u32_id, <- firstn_map by done.
  apply marks_mask, (chunk_newlines _ _ Hc).
Qed.

Lemma mask_units o :
  Utf8.is_char_boundary s o = true → marks (unit_bits (take o s)) (Zmod.and (chars_utf16 c) (offset_mask o)).
Proof.
  intros Hb. destruct (str_ok_boundary s o (chunk_str _ _ Hc) Hb) as (_&_&Hl). pose proof (chunk_length _ _ Hc).
  unfold offset_mask. rewrite as_u32_id by lia. destruct (unit_bits_cut s o (chunk_str _ _ Hc) Hb) as [<- _].
  apply marks_mask, Hc.
Qed.

Lemma offset_to_point_of o : o ≤ length s → offset_to_point c o = extent (take o s).
Proof.
  intros Ho. pose proof (chunk_length _ _ Hc) as Hl. assert (Hm := mask_newlines o ltac:(lia)).
  unfold offset_to_point. rewrite (count_ones_marks _ _ Hm), (leading_zeros_marks _ _ Hm), extent_bits.
  pose proof (last_end_le (newline_bits (take o s))) as Hle. rewrite length_newline_bits in Hle.
  rewrite length_take, Nat.min_l in * by lia. unfold Point_new. f_equal.
  rewrite wrap_N_id by (unfold fits, MAX_BASE in *; lia). f_equal. unfold MAX_BASE in *. lia.
Qed.

Lemma offset_to_offset_utf16_of o :
  Utf8.is_char_boundary s o = true →
  offset_to_offset_utf16 c o = MkOffsetUtf16 (N.of_nat (ones (unit_bits (take o s)))).
Proof. intros Hb. unfold offset_to_offset_utf16. by rewrite (count_ones_marks _ _ (mask_units o Hb)). Qed.

Lemma offset_to_point_utf16_of o :
  Utf8.is_char_boundary s o = true →
  offset_to_point_utf16 c o =
  mkPointUtf16 (row (extent (take o s)))
    (N.of_nat (ones (drop (last_end (newline_bits (take o s))) (unit_bits (take o s))))).
Proof.
  intros Hb. destruct (str_ok_boundary s o (chunk_str _ _ Hc) Hb) as (_&_&Hl). pose proof (chunk_length _ _ Hc) as Hm.
  pose proof (mask_newlines o ltac:(lia)) as Hn. pose proof (mask_units o Hb) as Hu.
  unfold offset_to_point_utf16, saturating_shl_mask. change (wrapping_sub (unbounded_shl one (as_u32 o)) one) with (offset_mask o).
  rewrite (count_ones_marks _ _ Hn), (leading_zeros_marks _ _ Hn), extent_bits. cbn [row]. f_equal. f_equal.
  pose proof (last_end_le (newline_bits (take o s))) as Hle. rewrite length_newline_bits, length_take in Hle.
  replace (MAX_BASE - (MAX_BASE - last_end (newline_bits (take o s)))) with (last_end (newline_bits (take o s))) by lia.
  case_bool_decide as E.
  - by rewrite drop_ge by (rewrite length_unit_bits, length_take; lia).
  - apply count_ones_marks, marks_shr, Hu.
Qed.
End from_offset.

(** ** To offsets *)

Lemma trailing_zeros_min l x k :
  marks l x → k ≤ length l →
  trailing_zeros (unbounded_shr x k) `min` (length l - k) = first_one (drop k l).
Proof.
  intros Hm Hk. rewrite (trailing_zeros_marks _ _ (marks_shr l x k Hm)).
  pose proof (first_one_le (drop k l)) as Hle. rewrite length_drop in Hle. pose proof (proj1 Hm).
  case_bool_decide as H0; [|lia]. apply first_one_0 in H0. rewrite length_drop in H0. lia.
Qed.

Section to_offset.
Context (s : list Z) (c : Chunk) (Hc : chunk_of s c).

Lemma newline_bits_take o : newline_bits (take o s) = take o (newline_bits s).
Proof. symmetry. apply firstn_map. Qed.

(** The row of an offset starts after the last newline before it, and ends at
    the first one from there. *)
Lemma offset_range_for_row_of o :
  o ≤ length s →
  let k := last_end (newline_bits (take o s)) in
  offset_range_for_row c (row (extent (take o s))) = (k, k + first_one (drop k (newline_bits s))).
Proof.
  intros Ho. cbv zeta. pose proof (chunk_newlines _ _ Hc) as Hn. pose proof (chunk_length _ _ Hc) as Hl.
  rewrite extent_bits. cbn [row]. set (l := newline_bits s) in *. rewrite newline_bits_take. fold l.
  assert (Hll : length l = length s) by apply length_newline_bits.
  set (k := last_end (take o l)). set (r := ones (take o l)).
  assert (Hk : k ≤ o) by (unfold k; pose proof (last_end_le (take o l)); rewrite length_take in *; lia).
  assert (Estart : (if (0 <? N.of_nat r)%N then nth_set_bit (newlines c) (N.to_nat (N.of_nat r)) + 1 else 0) = k).
  { rewrite Nat2N.id. destruct (N.ltb_spec 0 (N.of_nat r)) as [Hr|Hr].
    - assert (Hr0 : ones (take o l) ≠ 0) by (unfold r in Hr; lia).
      destruct (last_end_true _ Hr0) as (H1&H2&H3). fold k in H1, H2, H3.
      pose proof (ones_take_drop l o). destruct (nth_set_bit_marks l (newlines c) r) as [H4 H5]; [done|unfold r in *; lia|].
      apply lookup_take_Some in H1 as [H1 _]. rewrite take_take, Nat.min_l in H2 by lia.
      assert (nth_set_bit (newlines c) r = k - 1); [|lia]. apply (nth_one_unique l); [done..|unfold r in *; lia].
    - symmetry. apply last_end_0. unfold r in Hr. lia. }
  unfold offset_range_for_row. rewrite Estart. f_equal. case_bool_decide as E.
  - rewrite drop_ge by lia. cbn. lia.
  - rewrite (chunk_text _ _ Hc), <- Hll, trailing_zeros_min by (done || lia). done.
Qed.

(** No newline between the start of a row and an offset in it. *)
Lemma row_end_after o :
  o ≤ length s → let k := last_end (newline_bits (take o s)) in
  k ≤ o ∧ o ≤ k + first_one (drop k (newline_bits s)) ≤ length s.
Proof.
  intros Ho. cbv zeta. rewrite newline_bits_take. set (l := newline_bits s). set (k := last_end (take o l)).
  assert (Hll : length l = length s) by apply length_newline_bits.
  assert (Hk : k ≤ o) by (unfold k; pose proof (last_end_le (take o l)); rewrite length_take in *; lia).
  pose proof (first_one_le (drop k l)) as Hle. rewrite length_drop in Hle. split; [done|]. split; [|lia].
  destruct (decide (o ≤ k + first_one (drop k l))) as [|Hgt]; [done|exfalso].
  assert (Hf : first_one (drop k l) < length (drop k l)) by (rewrite length_drop; lia).
  apply first_one_lt in Hf. rewrite lookup_drop in Hf.
  pose proof (ones_drop_last (take o l)) as H0. fold k in H0. apply ones_0 in H0.
  assert (Hf' : drop k (take o l) !! first_one (drop k l) = Some true) by (rewrite lookup_drop, lookup_take_lt; [done|lia]).
  rewrite H0 in Hf'. apply lookup_replicate in Hf' as [? _]. done.
Qed.

Lemma row_le o : (row (extent (take o s)) ≤ row (lines c))%N.
Proof.
  rewrite (lines_of s c Hc), !extent_bits, newline_bits_take. cbn [row].
  pose proof (ones_take_drop (newline_bits s) o). lia.
Qed.

Lemma point_to_offset_of o : o ≤ length s → point_to_offset c (extent (take o s)) = o.
Proof.
  intros Ho. unfold point_to_offset. rewrite (proj2 (N.ltb_ge _ _)) by apply row_le.
  rewrite offset_range_for_row_of by done. destruct (row_end_after o Ho) as [Hk Hr].
  rewrite extent_bits in *. cbn [column]. rewrite length_take, Nat.min_l by done.
  rewrite (proj2 (N.ltb_ge _ _)) by lia. lia.
Qed.

Lemma unit_at o : Utf8.is_char_boundary s o = true → o < length s → unit_bits s !! o = Some true.
Proof.
  intros Hb Hlt. destruct (lookup_lt_is_Some_2 s o Hlt) as [b Eb]. unfold unit_bits.
  rewrite lookup_units_from, Eb. cbn. unfold Utf8.is_char_boundary in Hb.
  rewrite bool_decide_eq_false_2, Eb in Hb by lia. cbn in Hb. by rewrite Hb.
Qed.

(** The offset of a unit: where its bit is. *)
Lemma offset_utf16_to_offset_at o :
  o ≤ length s → (o < length s → unit_bits s !! o = Some true) →
  offset_utf16_to_offset c (MkOffsetUtf16 (N.of_nat (ones (take o (unit_bits s))))) = Some o.
Proof.
  intros Ho Hbit. pose proof (chunk_str _ _ Hc) as Hs. pose proof (chunk_length _ _ Hc) as Hl.
  pose proof (chunk_units _ _ Hc) as Hm. pose proof (unit_at 0 (boundary_0 s Hs)) as H0. set (l := unit_bits s) in *.
  assert (Hll : length l = length s) by apply length_unit_bits.
  unfold offset_utf16_to_offset. cbn [offset16]. rewrite Nat2N.id. destruct (N.eqb_spec (N.of_nat (ones (take o l))) 0) as [E|E].
  - destruct (decide (o = 0)) as [->|Hne]; [done|exfalso].
    pose proof (ones_take_S _ _ _ (H0 ltac:(lia))). pose proof (ones_take_le l 1 o ltac:(lia)). cbn in *. lia.
  - set (u := ones (take o l)) in *. pose proof (ones_take_drop l o).
    destruct (nth_set_bit_marks l (chars_utf16 c) u) as [H1 H2]; [done|unfold u in *; lia|].
    set (i := nth_set_bit (chars_utf16 c) u) in *. pose proof (ones_take_S _ _ _ H1) as H3. cbn in H3.
    assert (Hio : i < o).
    { destruct (decide (i < o)); [done|]. pose proof (ones_take_le l o i ltac:(lia)). unfold u in *. lia. }
    rewrite Nat.add_1_r. case_bool_decide as Emax; [f_equal; lia|].
    rewrite (chunk_text _ _ Hc), usub_le by lia. cbn [mbind option_bind].
    rewrite <- Hll, trailing_zeros_min by (done || lia).
    rewrite (first_one_at _ (o - S i)); [f_equal; lia| |].
    + pose proof (take_take_drop l (S i) (o - S i)) as Et. replace (S i + (o - S i)) with o in Et by lia.
      apply (f_equal ones) in Et. rewrite ones_app in Et. unfold u in *. lia.
    + rewrite lookup_drop, length_drop. replace (S i + (o - S i)) with o by lia.
      destruct (decide (o < length s)); [left; by apply Hbit|right; lia].
Qed.

Lemma offset_utf16_to_offset_of o :
  Utf8.is_char_boundary s o = true →
  offset_utf16_to_offset c (MkOffsetUtf16 (N.of_nat (ones (unit_bits (take o s))))) = Some o.
Proof.
  intros Hb. pose proof (chunk_str _ _ Hc) as Hs. destruct (str_ok_boundary s o Hs Hb) as (_&_&Ho).
  destruct (unit_bits_cut s o Hs Hb) as [<- _]. apply offset_utf16_to_offset_at; [done|]. by apply unit_at.
Qed.
End to_offset.

(** ** The row of an offset *)

Section row_of.
Context (s : list Z) (c : Chunk) (Hc : chunk_of s c) (o : nat) (Ho : o ≤ length s).

Definition row_start : nat := last_end (newline_bits (take o s)).
Definition row_end : nat := row_start + first_one (drop row_start (newline_bits s)).
Definition row_text : list Z := take (row_end - row_start) (drop row_start s).

Lemma row_bounds : row_start ≤ o ≤ row_end ∧ row_end ≤ length s.
Proof. destruct (row_end_after s o Ho). unfold row_end, row_start. lia. Qed.

Lemma newline_bits_lookup i : newline_bits s !! i = Some true → s !! i = Some NEWLINE.
Proof.
  unfold newline_bits. change (map ?f s) with (f <$> s). rewrite list_lookup_fmap.
  destruct (s !! i) as [b|]; [|done]. cbn. intros [= E]. apply Z.eqb_eq in E. by subst.
Qed.

Lemma row_start_boundary : Utf8.is_char_boundary s row_start = true.
Proof.
  pose proof (chunk_str _ _ Hc) as Hs. unfold row_start. rewrite newline_bits_take.
  destruct (decide (ones (take o (newline_bits s)) = 0)) as [H0|H0].
  - rewrite (proj2 (last_end_0 _) H0). by apply boundary_0.
  - destruct (last_end_true _ H0) as (H1&_&H3). apply lookup_take_Some in H1 as [H1 _].
    apply newline_bits_lookup in H1. destruct (ascii_boundaries s _ _ Hs H1) as [_ Hb]; [done|].
    replace (S (last_end (take o (newline_bits s)) - 1)) with (last_end (take o (newline_bits s))) in Hb by lia. done.
Qed.

Lemma row_end_boundary : Utf8.is_char_boundary s row_end = true.
Proof.
  pose proof (chunk_str _ _ Hc) as Hs. destruct row_bounds as [[Hk _] He]. unfold row_end in *.
  set (l := drop row_start (newline_bits s)) in *.
  assert (Hl : length l = length s - row_start) by (unfold l; by rewrite length_drop, length_newline_bits).
  destruct (decide (first_one l < length l)) as [Hlt|Hge].
  - pose proof (first_one_lt l Hlt) as H1. unfold l in H1. rewrite lookup_drop in H1. fold l in H1.
    apply newline_bits_lookup in H1. by destruct (ascii_boundaries s _ _ Hs H1) as [Hb _].
  - pose proof (first_one_le l). replace (row_start + first_one l) with (length s) by lia. apply boundary_length.
Qed.

Lemma row_slice : ∃ d, slice c row_start row_end = Some d ∧ chunk_of row_text d.
Proof.
  destruct row_bounds. apply slice_of; [done|apply row_start_boundary|apply row_end_boundary|lia].
Qed.

Lemma row_text_newlines : ones (newline_bits row_text) = 0.
Proof.
  unfold row_text. rewrite newline_bits_take. unfold newline_bits. rewrite <- skipn_map. fold (newline_bits s).
  apply ones_take_first. unfold row_end. lia.
Qed.

Lemma row_lookup : offset_range_for_row c (row (extent (take o s))) = (row_start, row_end).
Proof. by apply (offset_range_for_row_of s c Hc). Qed.

Lemma length_row_text : length row_text = row_end - row_start.
Proof. unfold row_text. rewrite length_take, length_drop. pose proof row_bounds. lia. Qed.

(** What of the row is before the offset. *)
Lemma take_row_text : take (o - row_start) row_text = drop row_start (take o s).
Proof.
  unfold row_text. pose proof row_bounds. rewrite take_take, Nat.min_l by lia.
  rewrite take_drop_commute. do 2 f_equal. lia.
Qed.

Lemma extent_row : extent (take o s) = mkPoint (row (extent (take o s))) (N.of_nat (o - row_start)).
Proof. rewrite extent_bits. cbn [row]. unfold row_start. by rewrite length_take, Nat.min_l by done. Qed.

Lemma row_units :
  Utf8.is_char_boundary s o = true →
  drop row_start (unit_bits (take o s)) = unit_bits (take (o - row_start) row_text) ∧
  Utf8.is_char_boundary row_text (o - row_start) = true.
Proof.
  intros Hb. pose proof (chunk_str _ _ Hc) as Hs. destruct row_bounds as [[Hk He] Hl].
  destruct (str_ok_boundary s o Hs Hb) as (Ht&_&_).
  rewrite take_row_text. split.
  - apply unit_bits_cut; [done|]. rewrite boundary_take; [apply row_start_boundary|done..].
  - unfold row_text. destruct (str_ok_boundary s row_start Hs row_start_boundary) as (_&Hd&_).
    rewrite boundary_take; [|done| |lia].
    + rewrite boundary_drop by lia. by replace (row_start + (o - row_start)) with o by lia.
    + rewrite boundary_drop by lia. replace (row_start + (row_end - row_start)) with row_end by lia.
      apply row_end_boundary.
Qed.

Lemma row_last_line_len_utf16 d :
  chunk_of row_text d → last_line_len_utf16 d = N.of_nat (ones (unit_bits row_text)).
Proof.
  intros Hd. unfold last_line_len_utf16.
  rewrite (count_above_last (unit_bits row_text) (newline_bits row_text)); [|apply Hd|apply Hd|].
  - by rewrite (proj2 (last_end_0 _) row_text_newlines).
  - by rewrite length_unit_bits, length_newline_bits.
Qed.

Lemma row_units_le :
  Utf8.is_char_boundary s o = true →
  ones (unit_bits (take (o - row_start) row_text)) ≤ ones (unit_bits row_text).
Proof.
  intros Hb. destruct (row_units Hb) as [_ Hb']. destruct row_slice as (d&_&Hd).
  destruct (unit_bits_cut row_text _ (chunk_str _ _ Hd) Hb') as [<- _].
  pose proof (ones_take_drop (unit_bits row_text) (o - row_start)). lia.
Qed.

Lemma offset_utf16_to_offset_0 d : offset_utf16_to_offset d (MkOffsetUtf16 (N.of_nat 0)) = Some 0.
Proof. done. Qed.

Lemma back_to_boundary_here t i : Utf8.is_char_boundary t i = true → back_to_boundary t i = Some i.
Proof. intros Hb. destruct i; cbn; by rewrite Hb. Qed.

Lemma point_utf16_to_offset_of clip :
  Utf8.is_char_boundary s o = true →
  point_utf16_to_offset c (mkPointUtf16 (row (extent (take o s)))
    (N.of_nat (ones (drop (last_end (newline_bits (take o s))) (unit_bits (take o s)))))) clip = Some o.
Proof.
  intros Hb. fold row_start. destruct (row_units Hb) as [Eu Hb']. rewrite Eu. pose proof row_bounds.
  unfold point_utf16_to_offset. cbn [row16 column16]. rewrite (proj2 (N.ltb_ge _ _)) by by apply row_le.
  rewrite row_lookup. destruct row_slice as (d&Ed&Hd). rewrite Ed. cbn [mbind option_bind].
  rewrite (row_last_line_len_utf16 d Hd), (proj2 (N.ltb_ge _ _)) by (pose proof (row_units_le Hb); lia).
  pose proof (offset_utf16_to_offset_of row_text d Hd _ Hb') as Eo.
  destruct (N.ltb_spec 0 (N.of_nat (ones (unit_bits (take (o - row_start) row_text))))) as [Hu|Hu].
  - rewrite Eo. cbn [mbind option_bind]. replace (row_start + (o - row_start)) with o by lia. rewrite (chunk_text _ _ Hc).
    by apply back_to_boundary_here.
  - f_equal. assert (E0 : ones (unit_bits (take (o - row_start) row_text)) = 0) by lia.
    rewrite E0, offset_utf16_to_offset_0 in Eo. injection Eo as Eo. lia.
Qed.

Lemma unclipped_point_utf16_to_point_of :
  Utf8.is_char_boundary s o = true →
  unclipped_point_utf16_to_point c (mkPointUtf16 (row (extent (take o s)))
    (N.of_nat (ones (drop (last_end (newline_bits (take o s))) (unit_bits (take o s)))))) = Some (extent (take o s)).
Proof.
  intros Hb. fold row_start. destruct (row_units Hb) as [Eu Hb']. rewrite Eu. pose proof row_bounds as Hbd.
  pose proof (chunk_length _ _ Hc) as Hlen.
  unfold unclipped_point_utf16_to_point. cbn [row16 column16]. rewrite (proj2 (N.ltb_ge _ _)) by by apply row_le.
  rewrite row_lookup. destruct row_slice as (d&Ed&Hd). rewrite Ed. cbn [mbind option_bind].
  pose proof (offset_utf16_to_offset_of row_text d Hd _ Hb') as Eo. rewrite extent_row.
  set (u := ones (unit_bits (take (o - row_start) row_text))) in *.
  destruct (N.eqb_spec (N.of_nat u) 0) as [E0|E0].
  - rewrite E0 in Eo. change (offset_utf16_to_offset d (MkOffsetUtf16 0)) with (Some 0) in Eo. injection Eo as Eo. unfold Point_new. do 2 f_equal. lia.
  - unfold len_utf16. cbn [offset16]. rewrite (count_ones_marks _ _ (chunk_units _ _ Hd)).
    pose proof (ones_length (unit_bits row_text)) as Hou. rewrite length_unit_bits, length_row_text in Hou.
    rewrite (wrap_N_id 32 (N.of_nat (ones _))) by (unfold fits, MAX_BASE in *; lia).
    destruct (N.leb_spec (N.of_nat (ones (unit_bits row_text))) (N.of_nat u)) as [Hle|Hgt].
    + pose proof (row_units_le Hb) as Hu. fold u in Hu. assert (Efull : u = ones (unit_bits row_text)) by lia.
      pose proof (offset_utf16_to_offset_of row_text d Hd _ (boundary_length row_text)) as Eo'.
      rewrite take_ge in Eo' by lia. rewrite Efull, Eo', length_row_text in Eo. injection Eo as Eo.
      unfold len, Point_new. rewrite (chunk_text _ _ Hd), length_row_text.
      rewrite wrap_N_id by (unfold fits, MAX_BASE in *; lia). do 2 f_equal. lia.
    + rewrite Eo. cbn [mbind option_bind]. rewrite (chunk_text _ _ Hd), back_to_boundary_here by done. cbn [mbind option_bind].
      rewrite wrap_N_id by (unfold fits, MAX_BASE in *; lia). done.
Qed.
End row_of.

Section place.
Context (x y : list Z) (c : Chunk).
Context (Hxy : Forall char_ok (x ++ y)) (Hc : chunk_of (bytes_of (x ++ y)) c).

Lemma place_ok : Forall char_ok x ∧ Forall char_ok y.
Proof. by apply Forall_app. Qed.

Lemma place_take : take (TextSummary.len (from_str x)) (bytes_of (x ++ y)) = bytes_of x.
Proof. rewrite len_from_str, bytes_of_app. apply take_app_length. Qed.

Lemma place_le : TextSummary.len (from_str x) ≤ length (bytes_of (x ++ y)).
Proof. rewrite len_from_str, bytes_of_app, length_app. lia. Qed.

Lemma place_boundary : Utf8.is_char_boundary (bytes_of (x ++ y)) (TextSummary.len (from_str x)) = true.
Proof. apply boundary_split; [done|]. by exists x, y. Qed.

Lemma place_lines : TextSummary.lines (from_str x) = extent (take (TextSummary.len (from_str x)) (bytes_of (x ++ y))).
Proof. rewrite place_take. apply lines_from_str, place_ok. Qed.

Lemma place_units :
  TextSummary.len_utf16 (from_str x) = MkOffsetUtf16 (N.of_nat (ones (unit_bits (take (TextSummary.len (from_str x)) (bytes_of (x ++ y)))))).
Proof. rewrite place_take, units_from_str by apply place_ok. by destruct (TextSummary.len_utf16 (from_str x)). Qed.

Lemma place_lines_utf16 :
  let t := take (TextSummary.len (from_str x)) (bytes_of (x ++ y)) in
  lines_utf16 (from_str x) =
  mkPointUtf16 (row (extent t)) (N.of_nat (ones (drop (last_end (newline_bits t)) (unit_bits t)))).
Proof.
  cbv zeta. rewrite place_take. unfold lines_utf16. rewrite last_line_from_str, lines_from_str by apply place_ok. done.
Qed.

Lemma place_offset_to_point : Chunk.offset_to_point c (TextSummary.len (from_str x)) = TextSummary.lines (from_str x).
Proof. rewrite place_lines. apply (offset_to_point_of _ _ Hc), place_le. Qed.

Lemma place_offset_to_offset_utf16 : Chunk.offset_to_offset_utf16 c (TextSummary.len (from_str x)) = TextSummary.len_utf16 (from_str x).
Proof. rewrite place_units. apply (offset_to_offset_utf16_of _ _ Hc), place_boundary. Qed.

Lemma place_offset_to_point_utf16 : Chunk.offset_to_point_utf16 c (TextSummary.len (from_str x)) = lines_utf16 (from_str x).
Proof. rewrite place_lines_utf16. apply (offset_to_point_utf16_of _ _ Hc), place_boundary. Qed.

Lemma place_point_to_offset : Chunk.point_to_offset c (TextSummary.lines (from_str x)) = TextSummary.len (from_str x).
Proof. rewrite place_lines. apply (point_to_offset_of _ _ Hc), place_le. Qed.

Lemma place_offset_utf16_to_offset : Chunk.offset_utf16_to_offset c (TextSummary.len_utf16 (from_str x)) = Some (TextSummary.len (from_str x)).
Proof. rewrite place_units. apply (offset_utf16_to_offset_of _ _ Hc), place_boundary. Qed.

Lemma place_point_utf16_to_offset clip :
  Chunk.point_utf16_to_offset c (lines_utf16 (from_str x)) clip = Some (TextSummary.len (from_str x)).
Proof. rewrite place_lines_utf16. apply (point_utf16_to_offset_of _ _ Hc); [apply place_le|apply place_boundary]. Qed.

Lemma place_point_to_point_utf16 : Chunk.point_to_point_utf16 c (TextSummary.lines (from_str x)) = lines_utf16 (from_str x).
Proof. unfold Chunk.point_to_point_utf16. by rewrite place_point_to_offset, place_offset_to_point_utf16. Qed.

Lemma place_point_to_offset_utf16 : Chunk.point_to_offset_utf16 c (TextSummary.lines (from_str x)) = TextSummary.len_utf16 (from_str x).
Proof.
  unfold Chunk.point_to_offset_utf16. rewrite (proj2 (N.ltb_ge _ _)).
  - by rewrite place_point_to_offset, place_offset_to_offset_utf16.
  - rewrite place_lines. apply (row_le _ _ Hc).
Qed.

Lemma place_unclipped_point_utf16_to_point :
  Chunk.unclipped_point_utf16_to_point c (lines_utf16 (from_str x)) = Some (TextSummary.lines (from_str x)).
Proof.
  rewrite place_lines_utf16, place_lines at 1.
  apply (unclipped_point_utf16_to_point_of _ _ Hc); [apply place_le|apply place_boundary].
Qed.
End place.
