(* ===== verification/ChunkClip.v ===== *)
(** Clipping in a chunk: a coordinate that is not that of a place is moved to
    one.  [bias] says which way, inside a character; past the end of a line it
    is the end of the line. *)

From Stdlib Require Import ZArith Bits.
From stdpp Require Import base numbers option list.
From S2P Require Import Prelude SumTree Utf8 Point Bits NthBit Chunk ChunkBits ChunkSummary ChunkFacts TextSummary.

#[local] Open Scope nat_scope.

(** ** Looking for a boundary *)

Lemma back_to_boundary_loop s i p :
  Utf8.is_char_boundary s p = true → p ≤ i → (∀ q, p < q ≤ i → Utf8.is_char_boundary s q = false) →
  back_to_boundary s i = Some p.
Proof.
  intros Hp. induction i as [|i IH]; intros Hpi Hq; cbn.
  - replace p with 0 in * by lia. by rewrite Hp.
  - destruct (decide (p = S i)) as [->|Hne]; [by rewrite Hp|]. rewrite Hq by lia.
    apply IH; [lia|]. intros q Hqr. apply Hq. lia.
Qed.

Lemma back_to_boundary_spec s i :
  str_ok s → i ≤ length s →
  ∃ p, back_to_boundary s i = Some p ∧ Utf8.is_char_boundary s p = true ∧ p ≤ i ≤ p + 3 ∧
    ∀ q, p < q ≤ i → Utf8.is_char_boundary s q = false.
Proof.
  intros Hs Hi. destruct (boundary_near s i Hs Hi) as (p&Hp&Hpi&Hq). exists p.
  split_and!; try done; try lia. apply back_to_boundary_loop; [done|lia|done].
Qed.

Lemma on_to_boundary_loop fuel s i q :
  i ≤ q → q ≤ fuel + i → Utf8.is_char_boundary s q = true →
  ∃ p, on_to_boundary fuel s i = Some p ∧ Utf8.is_char_boundary s p = true ∧ i ≤ p ≤ q ∧
    ∀ q', i ≤ q' < p → Utf8.is_char_boundary s q' = false.
Proof.
  revert i. induction fuel as [|fuel IH]; intros i Hiq Hf Hq; cbn; destruct (Utf8.is_char_boundary s i) eqn:E.
  - exists i. split_and!; try done; lia.
  - replace i with q in E by lia. congruence.
  - exists i. split_and!; try done; lia.
  - assert (i ≠ q) by congruence. destruct (IH (S i)) as (p&->&Hp&Hpi&Hq'); [lia|lia|done|].
    exists p. split_and!; try done; try lia. intros q' Hr. destruct (decide (q' = i)) as [->|]; [done|]. apply Hq'. lia.
Qed.

(** A boundary is at most three bytes up. *)
Lemma boundary_up s i : str_ok s → i ≤ length s → ∃ q, Utf8.is_char_boundary s q = true ∧ i ≤ q ≤ i + 3 ∧ q ≤ length s.
Proof.
  intros Hs Hi. destruct (decide (i + 3 ≤ length s)) as [H3|H3].
  - destruct (boundary_near s (i + 3) Hs H3) as (q&Hq&Hr&_). exists q. split_and!; [done|lia..].
  - exists (length s). split_and!; [apply boundary_length|lia..].
Qed.

Lemma on_to_boundary_spec s i :
  str_ok s → i ≤ length s →
  ∃ p, on_to_boundary (length s) s i = Some p ∧ Utf8.is_char_boundary s p = true ∧ i ≤ p ≤ i + 3 ∧ p ≤ length s.
Proof.
  intros Hs Hi. destruct (boundary_up s i Hs Hi) as (q&Hq&Hr&Hl).
  destruct (on_to_boundary_loop (length s) s i q) as (p&E&Hp&Hpr&_); [lia|lia|done|]. exists p. split_and!; try done; lia.
Qed.

(** ** Clipping UTF-16 offsets *)

(** There is no boundary inside a character. *)
Lemma inside_char x ch z q :
  Forall char_ok (x ++ ch :: z) → Utf8.is_char_boundary (bytes_of (x ++ ch :: z)) q = true →
  q ≤ length (bytes_of x) ∨ length (bytes_of (x ++ [ch])) ≤ q.
Proof.
  intros Hok (a&b&E&->)%boundary_split; [|done]. apply app_eq_inv in E as [(k&->&_)|(k&->&E)].
  - left. rewrite bytes_of_app, length_app. lia.
  - destruct k as [|ch' k]; [left; by rewrite app_nil_r|]. right. injection E as <- _.
    rewrite !bytes_of_app, !length_app. cbn. rewrite app_nil_r, length_app. lia.
Qed.

Lemma len_utf16_char ch : offset16 (TextSummary.len_utf16 (from_str [ch])) = N.of_nat (Utf8.len_utf16 ch).
Proof. done. Qed.

Section clip_units.
Context (x : list Z) (ch : Z) (z : list Z) (c : Chunk).
Context (Hok : Forall char_ok (x ++ ch :: z)) (Hc : chunk_of (bytes_of (x ++ ch :: z)) c).

Lemma clip_char : char_ok ch.
Proof. apply Forall_app in Hok as [_ Hz]. by apply Forall_cons in Hz as [? _]. Qed.

Lemma clip_place : Forall char_ok ((x ++ [ch]) ++ z) ∧ chunk_of (bytes_of ((x ++ [ch]) ++ z)) c.
Proof. by rewrite <- app_assoc. Qed.

Lemma step_here bias i :
  Utf8.is_char_boundary (Chunk.text c) i = true → step_to_boundary bias (Chunk.text c) i = Some i.
Proof.
  intros Hb. destruct bias; cbn; [by apply back_to_boundary_here|]. destruct (length (Chunk.text c)); cbn; by rewrite Hb.
Qed.

(** From the second unit of a character. *)
Lemma step_inside bias :
  1 < len_utf8 ch →
  step_to_boundary bias (Chunk.text c) (S (length (bytes_of x))) =
  Some (length (bytes_of (match bias with Left => x | Right => x ++ [ch] end))).
Proof.
  intros Hlen. rewrite (chunk_text _ _ Hc).
  assert (Hx : Utf8.is_char_boundary (bytes_of (x ++ ch :: z)) (length (bytes_of x)) = true).
  { apply boundary_split; [done|]. by exists x, (ch :: z). }
  assert (Hxc : Utf8.is_char_boundary (bytes_of (x ++ ch :: z)) (length (bytes_of (x ++ [ch]))) = true).
  { apply boundary_split; [done|]. exists (x ++ [ch]), z. by rewrite <- app_assoc. }
  assert (El : length (bytes_of (x ++ [ch])) = length (bytes_of x) + len_utf8 ch).
  { rewrite bytes_of_app, length_app. cbn. rewrite app_nil_r. by rewrite length_encode_utf8. }
  destruct bias; cbn [step_to_boundary].
  - apply back_to_boundary_loop; [done|lia|]. intros q Hq. apply not_true_iff_false. intros Hb.
    apply inside_char in Hb; [|done]. lia.
  - destruct (on_to_boundary_loop (length (bytes_of (x ++ ch :: z))) (bytes_of (x ++ ch :: z)) (S (length (bytes_of x)))
      (length (bytes_of (x ++ [ch])))) as (p&->&Hp&Hr&_); [lia| |done|].
    { rewrite El, bytes_of_app, length_app. cbn. rewrite length_app, length_encode_utf8. lia. }
    apply inside_char in Hp; [|done]. f_equal. lia.
Qed.

(** Where the unit is that [t] counts to. *)
Lemma second_unit :
  Utf8.len_utf16 ch = 2 →
  offset_utf16_to_offset c (MkOffsetUtf16 (offset16 (TextSummary.len_utf16 (from_str x)) + 1)) = Some (S (length (bytes_of x))) ∧
  1 < len_utf8 ch.
Proof.
  intros H2. pose proof clip_char as Hch. set (s := bytes_of (x ++ ch :: z)).
  assert (Hbig : (0x10000 ≤ ch)%Z) by (unfold Utf8.len_utf16 in H2; destruct (Z.ltb_spec ch 0x10000); [done|lia]).
  assert (Hlen : 1 < len_utf8 ch).
  { unfold len_utf8. rewrite !(proj2 (Z.ltb_ge _ _)) by lia. lia. }
  split; [|done]. pose proof (encode_shape ch Hch) as (b0&bs&Ee&(_&_&Hlead&_)&_).
  pose proof (length_encode_utf8 ch) as Hle.
  assert (Hs0 : s !! length (bytes_of x) = Some b0).
  { unfold s. rewrite bytes_of_app, lookup_app_r, Nat.sub_diag by lia. cbn. by rewrite Ee. }
  assert (Hlt : S (length (bytes_of x)) < length s).
  { unfold s. rewrite bytes_of_app, length_app. cbn. rewrite length_app. lia. }
  assert (Hx : Utf8.is_char_boundary s (length (bytes_of x)) = true).
  { apply boundary_split; [done|]. by exists x, (ch :: z). }
  pose proof (unit_at s (length (bytes_of x)) Hx ltac:(lia)) as Hu.
  assert (Hones : N.of_nat (ones (take (S (length (bytes_of x))) (unit_bits s))) = (offset16 (TextSummary.len_utf16 (from_str x)) + 1)%N).
  { rewrite (ones_take_S _ _ _ Hu). destruct (unit_bits_cut s (length (bytes_of x)) (chunk_str _ _ Hc) Hx) as [-> _].
    unfold s. rewrite bytes_of_app, take_app_length. apply Forall_app in Hok as [Hx' _].
    rewrite <- units_from_str by done. cbn [Nat.b2n]. lia. }
  rewrite <- Hones. apply (offset_utf16_to_offset_at s c Hc); [lia|]. intros _.
  destruct (lookup_lt_is_Some_2 s (S (length (bytes_of x))) Hlt) as [b1 E1].
  unfold unit_bits. rewrite lookup_units_from, E1. cbn [mbind option_bind]. rewrite Hs0.
  rewrite (proj2 (Z.leb_le _ _)) by tauto. by rewrite orb_true_r.
Qed.

(** A target inside [ch] goes to one side of it, by the bias. *)
Lemma clip_offset_utf16_at (t : N) bias :
  (offset16 (TextSummary.len_utf16 (from_str x)) ≤ t <
   offset16 (TextSummary.len_utf16 (from_str x)) + N.of_nat (Utf8.len_utf16 ch))%N →
  Chunk.clip_offset_utf16 c (MkOffsetUtf16 t) bias =
  Some (TextSummary.len_utf16 (from_str
    (if bool_decide (bias = Right ∧ t ≠ offset16 (TextSummary.len_utf16 (from_str x))) then x ++ [ch] else x))).
Proof.
  intros Ht. set (u := offset16 (TextSummary.len_utf16 (from_str x))) in *.
  assert (Eu : TextSummary.len_utf16 (from_str x) = MkOffsetUtf16 u) by by unfold u; destruct (TextSummary.len_utf16 (from_str x)).
  destruct clip_place as [Hok' Hc']. unfold Chunk.clip_offset_utf16. cbn [offset16]. destruct (N.eqb_spec t 0) as [->|H0].
  { rewrite bool_decide_eq_false_2 by (intros [_ Hne]; apply Hne; lia). rewrite Eu. do 2 f_equal. lia. }
  destruct (text_summary_lengths c) as (_&<-&_). rewrite (text_summary_of (x ++ ch :: z)) by done.
  rewrite (proj2 (N.leb_gt _ _)).
  2: { rewrite (cons_middle ch x z), from_str_app, from_str_app. cbn [TextSummary_add TextSummary.len_utf16 OffsetUtf16_plus offset16].
       fold u. rewrite len_utf16_char. lia. }
  destruct (decide (t = u)) as [->|Hne].
  - rewrite bool_decide_eq_false_2 by (intros [_ Hne]; done).
    rewrite <- Eu, (place_offset_utf16_to_offset x (ch :: z)) by done. cbn [mbind option_bind].
    rewrite step_here by (rewrite (chunk_text _ _ Hc); by apply (place_boundary x (ch :: z))). cbn [mbind option_bind].
    by rewrite (place_offset_to_offset_utf16 x (ch :: z)) by done.
  - assert (H2 : Utf8.len_utf16 ch = 2 ∧ t = (u + 1)%N).
    { unfold Utf8.len_utf16 in *. destruct (Z.ltb_spec ch 0x10000); lia. }
    destruct H2 as [H2 ->]. destruct (second_unit H2) as [Eo Hl8]. fold u in Eo. rewrite Eo. cbn [mbind option_bind]. rewrite step_inside by done. cbn [mbind option_bind].
    destruct bias; rewrite <- len_from_str.
    + rewrite bool_decide_eq_false_2 by (by intros [? _]). by rewrite (place_offset_to_offset_utf16 x (ch :: z)) by done.
    + rewrite bool_decide_eq_true_2 by done. by rewrite (place_offset_to_offset_utf16 (x ++ [ch]) z) by done.
Qed.
End clip_units.

(** ** Clipping past the end of a line *)

Lemma first_one_le_at l i : l !! i = Some true → first_one l ≤ i.
Proof.
  intros Hi. destruct (decide (first_one l ≤ i)) as [|Hgt]; [done|].
  pose proof (ones_take_first l (S i) ltac:(lia)). pose proof (ones_take_S _ _ _ Hi). cbn in *. lia.
Qed.

Section clip_line.
Context (x z : list Z) (c : Chunk) (is_grapheme_boundary : list Z → nat → bool).
Context (Hok : Forall char_ok (x ++ NEWLINE :: z)) (Hc : chunk_of (bytes_of (x ++ NEWLINE :: z)) c).

Lemma line_end : row_end (bytes_of (x ++ NEWLINE :: z)) (len (from_str x)) = len (from_str x).
Proof.
  set (s := bytes_of _). set (o := len (from_str x)). assert (Ho : o ≤ length s) by by apply place_le.
  destruct (row_bounds s o Ho) as [[H1 H2] _]. apply Nat.le_antisymm; [|done].
  assert (Hnl : newline_bits s !! o = Some true).
  { unfold newline_bits, o, s. rewrite list_lookup_fmap, len_from_str, bytes_of_app, lookup_app_r, Nat.sub_diag by lia. done. }
  unfold row_end in *. set (k := row_start s o) in *.
  assert (Hd : drop k (newline_bits s) !! (o - k) = Some true) by (rewrite lookup_drop; by replace (k + (o - k)) with o by lia).
  apply first_one_le_at in Hd. lia.
Qed.

Lemma clip_point_line_end (column : N) bias :
  (Point.column (lines (from_str x)) ≤ column)%N →
  Chunk.clip_point is_grapheme_boundary c (mkPoint (row (lines (from_str x))) column) bias = Some (lines (from_str x)).
Proof.
  intros Hcol. set (s := bytes_of (x ++ NEWLINE :: z)) in *. set (o := len (from_str x)) in *.
  assert (Ho : o ≤ length s) by by apply place_le.
  assert (Hl : lines (from_str x) = extent (take o s)) by by apply (place_lines x (NEWLINE :: z)).
  rewrite Hl in *. unfold Chunk.clip_point. cbn [row Point.column].
  rewrite (proj2 (N.ltb_ge _ _)) by by apply row_le.
  rewrite (row_lookup s c Hc o Ho). destruct (row_slice s c Hc o Ho) as (d&->&Hd). cbn [mbind option_bind].
  rewrite (extent_row s o Ho) in Hcol |- *. cbn [row Point.column] in *.
  pose proof (row_bounds s o Ho) as [Hb _]. pose proof line_end as He. fold s o in He.
  destruct (N.eqb_spec column 0) as [->|H0].
  { do 2 f_equal. lia. }
  unfold Chunk.len. rewrite (chunk_text _ _ Hd), (length_row_text s o Ho), He. pose proof (chunk_length _ _ Hc) as Hlen.
  rewrite wrap_N_id by (unfold fits, MAX_BASE in *; lia). rewrite (proj2 (N.leb_le _ _)) by lia. done.
Qed.
End clip_line.

(** The tabs of the characters [cs], which start at the given position. *)
Fixpoint tab_positions (byte char : nat) (cs : list Z) : list TabPosition :=
  match cs with
  | [] => []
  | c :: cs =>
      (if bool_decide (c = TAB) then [mkTabPosition byte char] else []) ++
      tab_positions (byte + len_utf8 c) (S char) cs
  end.

Lemma ones_char_bits cs : Forall char_ok cs → ones (char_bits (bytes_of cs)) = length cs.
Proof.
  induction 1 as [|c cs Hc _ IH]; [done|]. cbn [bytes_of flat_map]. fold (bytes_of cs).
  unfold char_bits. rewrite map_app, ones_app. fold (char_bits (encode_utf8 c)) (char_bits (bytes_of cs)).
  destruct (char_bits_encode c Hc) as (->&_&_). rewrite ones_cons, ones_zeros, IH. done.
Qed.

Lemma tab_bits_encode c : char_ok c → tab_bits (encode_utf8 c) = bool_decide (c = TAB) :: replicate (len_utf8 c - 1) false.
Proof.
  intros Hc. pose proof (length_encode_utf8 c) as Hl.
  destruct (encode_shape c Hc) as (b&bs&E&(_&_&_&_&Htab&_)&Hbs&_). rewrite E in *. cbn [length] in Hl.
  unfold tab_bits. cbn [map]. f_equal.
  - apply eq_true_iff_eq. rewrite Z.eqb_eq, bool_decide_eq_true. done.
  - rewrite <- Hl, Nat.sub_succ, Nat.sub_0_r. clear -Hbs. induction Hbs as [|b' bs Hb _ IH]; [done|]. cbn. f_equal; [|done].
    unfold is_tail, TAB in *. apply Z.eqb_neq. lia.
Qed.

Lemma marks_clear k l x :
  k < MAX_BASE → marks (replicate k false ++ true :: l) x →
  marks (replicate (S k) false ++ l) (Zmod.xor x (unbounded_shl one k)).
Proof.
  intros Hk [Hl Hx]. rewrite length_app, length_replicate in Hl. cbn [length] in Hl.
  split; [rewrite length_app, length_replicate; lia|]. intros i. rewrite testbit_xor, testbit_shl, testbit_one, Hx.
  destruct (decide (i < k)) as [Hi|Hi]; [|destruct (decide (i = k)) as [->|Hne]].
  - rewrite !lookup_app_l, !lookup_replicate_2 by (rewrite ?length_replicate; lia).
    rewrite bool_decide_eq_false_2 by lia. done.
  - rewrite list_lookup_middle by by rewrite length_replicate.
    rewrite lookup_app_l, lookup_replicate_2 by (rewrite ?length_replicate; lia).
    rewrite bool_decide_eq_true_2, Nat.sub_diag by lia. done.
  - rewrite !lookup_app_r by (rewrite length_replicate; lia). rewrite !length_replicate.
    destruct (i - k) as [|j] eqn:Ej; [lia|]. cbn [lookup list_lookup].
    replace (i - S k) with j by lia. rewrite (bool_decide_eq_false_2 (S j = 0)), andb_false_r, xorb_false_r by lia. done.
Qed.

Lemma tabs_collect_from p q c x fuel :
  Forall char_ok (p ++ q) → chunk_of (bytes_of (p ++ q)) c →
  marks (replicate (length (bytes_of p)) false ++ tab_bits (bytes_of q)) x → length q ≤ fuel →
  tabs_collect fuel (mkTabs x (Chunk.chars c)) = tab_positions (length (bytes_of p)) (length p) q.
Proof.
  revert p x fuel. induction q as [|ch q IH]; intros p x fuel Hok Hc Hx Hf.
  - cbn in Hx. rewrite app_nil_r in Hx. destruct fuel as [|fuel]; [done|]. cbn [tab_positions tabs_collect]. unfold tabs_next. cbn [tabs_left].
    rewrite bool_decide_eq_true_2; [done|]. eapply marks_inj; [exact Hx|].
    pose proof (marks_extend [] (length (bytes_of p)) zero marks_nil) as Hz. apply Hz. destruct Hx as [Hx _]. by rewrite length_replicate in Hx.
  - assert (Eq : p ++ ch :: q = (p ++ [ch]) ++ q) by by rewrite <- app_assoc.
    pose proof (proj1 (Forall_app _ _ _) Hok) as [Hp Hq]. apply Forall_cons in Hq as [Hch _].
    pose proof (chunk_length _ _ Hc) as Hlen.
    cbn [bytes_of flat_map] in Hx. fold (bytes_of q) in Hx. unfold tab_bits in Hx. rewrite map_app in Hx.
    fold (tab_bits (encode_utf8 ch)) (tab_bits (bytes_of q)) in Hx. rewrite (tab_bits_encode ch Hch) in Hx.
    assert (El : length (bytes_of (p ++ [ch])) = length (bytes_of p) + len_utf8 ch).
    { rewrite bytes_of_app, length_app. cbn. by rewrite app_nil_r, length_encode_utf8. }
    assert (Hpos : 1 ≤ len_utf8 ch) by (unfold len_utf8; repeat case_match; lia).
    assert (Hlt : length (bytes_of p) + len_utf8 ch ≤ MAX_BASE).
    { rewrite Eq, bytes_of_app, length_app in Hlen. lia. }
    rewrite Eq in Hok, Hc. cbn [tab_positions]. case_bool_decide as Etab.
    + subst ch. change (len_utf8 TAB) with 1 in *. cbn [Nat.sub replicate app] in Hx.
      assert (Hone : ones (replicate (length (bytes_of p)) false ++ true :: tab_bits (bytes_of q)) ≠ 0).
      { rewrite ones_app, ones_cons. cbn. lia. }
      destruct fuel as [|fuel]; [cbn in Hf; lia|]. cbn [tabs_collect]. unfold tabs_next. cbn [tabs_left tabs_chars]. rewrite bool_decide_eq_false_2.
      2: { intros ->. pose proof (count_ones_marks _ _ Hx) as E1. pose proof (count_ones_marks _ _ marks_nil) as E2.
           rewrite E2 in E1. cbn in E1. lia. }
      rewrite (trailing_zeros_marks _ _ Hx), bool_decide_eq_false_2, first_one_app, bool_decide_eq_true_2 by (done || apply ones_zeros).
      cbn [first_one]. rewrite length_replicate, Nat.add_0_r.
      rewrite (count_ones_marks _ _ (marks_mask _ _ _ (chunk_chars _ _ Hc))). cbn [app].
      assert (Etake : take (length (bytes_of p)) (char_bits (bytes_of ((p ++ [TAB]) ++ q))) = char_bits (bytes_of p)).
      { unfold char_bits. rewrite firstn_map, <- app_assoc, bytes_of_app. by rewrite take_app_length. }
      rewrite Etake, ones_char_bits by done. f_equal.
      apply marks_clear in Hx; [|lia]. rewrite <- El. replace (S (length p)) with (length (p ++ [TAB])) by (rewrite length_app; cbn; lia).
      apply IH; [done|done| |cbn in Hf; lia]. rewrite El, Nat.add_1_r. exact Hx.
    + cbn [app]. rewrite <- El. replace (S (length p)) with (length (p ++ [ch])) by (rewrite length_app; cbn; lia).
      apply IH; [done|done| |cbn in Hf; lia]. rewrite El, replicate_add, <- app_assoc.
      replace (len_utf8 ch) with (S (len_utf8 ch - 1)) at 1 by lia. exact Hx.
Qed.

Lemma length_chars_le cs : Forall char_ok cs → length cs ≤ length (bytes_of cs).
Proof. intros Hcs. rewrite <- (ones_char_bits cs Hcs). etrans; [apply ones_length|]. by rewrite length_char_bits. Qed.
