(* ===== verification/Rope.v ===== *)
(** Ropes: [crates/rope/src/rope.rs].

    A rope is a tree of chunks summed up by [TextSummary].  This file has the
    operations that build and edit a rope, the cursor that cuts it, and the
    conversions between coordinates.  A panic is [None]. *)

From stdpp Require Import base numbers option list.
From S2P Require Import Prelude SumTree Cursor Utf8 Point TextSummary Bits Chunk.

#[local] Open Scope nat_scope.

Record Rope := mkRope { chunks : SumTree Chunk ChunkSummary }.

Definition Rope_new : Rope := mkRope (SumTree.new ()).

Definition summary (self : Rope) : TextSummary := TextSummary.text (SumTree.summary (chunks self)).
Definition len (self : Rope) : nat := SumTree.extent (chunks self) ().
Definition is_empty (self : Rope) : bool := bool_decide (len self = 0).
Definition max_point (self : Rope) : Point := SumTree.extent (chunks self) ().
Definition max_point_utf16 (self : Rope) : PointUtf16 := SumTree.extent (chunks self) ().

(** ** Building *)

(** The chunks of a text: 128 bytes each, or the last boundary before. *)
Fixpoint split_text (fuel : nat) (text : list Z) : option (list (list Z)) :=
  match text with
  | [] => Some []
  | _ =>
      match fuel with
      | O => None
      | S fuel =>
          split_ix ← back_to_boundary text (MAX_BASE `min` length text);
          '(chunk, remainder) ← Utf8.split_at text split_ix;
          rest ← split_text fuel remainder;
          Some (chunk :: rest)
      end
  end.

Definition PARALLEL_THRESHOLD : nat := 84 * (2 * TREE_BASE).

Definition push_large (self : Rope) (text : list Z) : option Rope :=
  new_chunks ← split_text (length text) text;
  cs ← mapM Chunk.new new_chunks;
  t ← (if bool_decide (PARALLEL_THRESHOLD ≤ length new_chunks) then par_extend (chunks self) cs ()
       else extend (chunks self) cs ());
  Some (mkRope t).

Definition NUM_CHUNKS : nat := 4.

(** The closure given to [update_last] runs once, on the last chunk, and leaves
    the rest of the text. *)
Definition push (self : Rope) (text : list Z) : option Rope :=
  last_chunk ← SumTree.last (chunks self);
  '(t, text) ←
    match last_chunk with
    | None => Some (chunks self, text)
    | Some last_chunk =>
        split_ix ←
          (if bool_decide (length (Chunk.text last_chunk) + length text ≤ MAX_BASE) then Some (length text)
           else on_to_boundary (length text) text
                  ((MIN_BASE - length (Chunk.text last_chunk)) `min` length text));
        '(suffix, remainder) ← Utf8.split_at text split_ix;
        last_chunk ← push_str last_chunk suffix;
        t ← update_last (λ _, last_chunk) (chunks self) ();
        Some (t, remainder)
    end;
  if bool_decide (length text = 0) then Some (mkRope t)
  else if bool_decide (NUM_CHUNKS * MAX_BASE - NUM_CHUNKS * 4 < length text)
  then push_large (mkRope t) text
  else
    new_chunks ← split_text (length text) text;
    _ ← assert_ (bool_decide (length new_chunks ≤ NUM_CHUNKS));
    cs ← mapM Chunk.new new_chunks;
    t ← extend t cs ();
    Some (mkRope t).

(** [From<&str>] and [FromIterator]. *)
Definition from_text (text : list Z) : option Rope := push Rope_new text.
Definition from_iter (iter : list (list Z)) : option Rope := foldlM push Rope_new iter.

Fixpoint chunk_boundary_from (fuel : nat) (chunk : Chunk) (ix : nat) : option nat :=
  if Chunk.is_char_boundary chunk ix then Some ix
  else match fuel with O => None | S fuel => chunk_boundary_from fuel chunk (S ix) end.

Definition push_chunk (self : Rope) (chunk : Chunk) : option Rope :=
  last_chunk ← SumTree.last (chunks self);
  '(t, chunk) ←
    match last_chunk with
    | None => Some (chunks self, chunk)
    | Some last_chunk =>
        split_ix ←
          (if bool_decide (length (Chunk.text last_chunk) + Chunk.len chunk ≤ MAX_BASE) then Some (Chunk.len chunk)
           else chunk_boundary_from (Chunk.len chunk) chunk
                  ((MIN_BASE - length (Chunk.text last_chunk)) `min` Chunk.len chunk));
        '(suffix, remainder) ← Chunk.split_at chunk split_ix;
        last_chunk ← Chunk.append last_chunk suffix;
        t ← update_last (λ _, last_chunk) (chunks self) ();
        Some (t, remainder)
    end;
  if Chunk.is_empty chunk then Some (mkRope t)
  else t ← SumTree.push t chunk (); Some (mkRope t).

Definition append (self rope : Rope) : option Rope :=
  first_chunk ← SumTree.first (chunks rope);
  last_chunk ← SumTree.last (chunks self);
  match first_chunk with
  | Some chunk =>
      if match last_chunk with Some c => bool_decide (length (Chunk.text c) < MIN_BASE) | None => false end
         || bool_decide (length (Chunk.text chunk) < MIN_BASE)
      then
        self ← push_chunk self chunk;
        cursor ← Cursor.next (cursor_new (D:=()) (chunks rope) ());
        cursor ← Cursor.next cursor;
        '(_, rest) ← Cursor.suffix cursor;
        t ← SumTree.append (chunks self) rest ();
        Some (mkRope t)
      else t ← SumTree.append (chunks self) (chunks rope) (); Some (mkRope t)
  | None => t ← SumTree.append (chunks self) (chunks rope) (); Some (mkRope t)
  end.

Definition push_front (self : Rope) (text : list Z) : option Rope :=
  if bool_decide (length text = 0) then Some self
  else if is_empty self then push self text
  else
    first_chunk ← SumTree.first (chunks self);
    match first_chunk with
    | Some c =>
        if bool_decide (length (Chunk.text c) + length text ≤ MAX_BASE)
        then
          c ← prepend_str c text;
          t ← update_first (λ _, c) (chunks self) ();
          Some (mkRope t)
        else prefix ← from_text text; append prefix self
    | None => prefix ← from_text text; append prefix self
    end.

(** ** The cursor that cuts a rope *)

Record RopeCursor := mkRopeCursor {
  cursor_rope : Rope;
  cursor_chunks : Cursor Chunk ChunkSummary nat ();
  cursor_offset : nat
}.

Definition cursor (rope : Rope) (offset : nat) : option RopeCursor :=
  '(cs, _) ← Cursor.seek (cursor_new (chunks rope) ()) offset Right;
  Some (mkRopeCursor rope cs offset).

Definition seek_forward (self : RopeCursor) (end_offset : nat) : option RopeCursor :=
  _ ← assert_ (bool_decide (cursor_offset self ≤ end_offset));
  _ ← assert_ (bool_decide (end_offset ≤ len (cursor_rope self)));
  '(cs, _) ← Cursor.seek_forward (cursor_chunks self) end_offset Right;
  Some (mkRopeCursor (cursor_rope self) cs end_offset).

Definition cursor_slice (self : RopeCursor) (end_offset : nat) : option (RopeCursor * Rope) :=
  _ ← assert_ (bool_decide (cursor_offset self ≤ end_offset));
  _ ← assert_ (bool_decide (end_offset ≤ len (cursor_rope self)));
  let cs := cursor_chunks self in
  start_chunk ← Cursor.item cs;
  chunks_end ← Cursor.end_ cs;
  slice ←
    match start_chunk with
    | Some start_chunk =>
        start_ix ← usub (cursor_offset self) (Cursor.start cs);
        end_ix ← usub (end_offset `min` chunks_end) (Cursor.start cs);
        c ← Chunk.slice start_chunk start_ix end_ix;
        push_chunk Rope_new c
    | None => Some Rope_new
    end;
  if bool_decide (chunks_end < end_offset) then
    cs ← Cursor.next cs;
    '(cs, middle) ← Cursor.slice cs end_offset Right;
    slice ← append slice (mkRope middle);
    end_chunk ← Cursor.item cs;
    slice ←
      match end_chunk with
      | Some end_chunk =>
          end_ix ← usub end_offset (Cursor.start cs);
          c ← Chunk.slice end_chunk 0 end_ix;
          push_chunk slice c
      | None => Some slice
      end;
    Some (mkRopeCursor (cursor_rope self) cs end_offset, slice)
  else Some (mkRopeCursor (cursor_rope self) cs end_offset, slice).

(** [TextDimension]: what a cursor can measure; its sums are the dimension's. *)
Class TextDimension (D : Type) `{!Dimension D ChunkSummary ()} := {
  from_text_summary : TextSummary → D;
  from_chunk : Chunk → D;
  add_assign : D → D → D
}.

#[export] Instance prod_TextDimension {D1 D2} `{TextDimension D1, TextDimension D2} : TextDimension (D1 * D2) := {
  from_text_summary := λ summary, (from_text_summary summary, from_text_summary summary);
  from_chunk := λ chunk, (from_chunk chunk, from_chunk chunk);
  add_assign := λ self other, (add_assign self.1 other.1, add_assign self.2 other.2)
}.
#[export] Instance TextSummary_TextDimension : TextDimension TextSummary := {
  from_text_summary := λ summary, summary;
  from_chunk := Chunk.text_summary;
  add_assign := TextSummary_add
}.
#[export] Instance usize_TextDimension : TextDimension nat := {
  from_text_summary := TextSummary.len;
  from_chunk := Chunk.len;
  add_assign := Nat.add
}.
#[export] Instance OffsetUtf16_TextDimension : TextDimension OffsetUtf16 := {
  from_text_summary := TextSummary.len_utf16;
  from_chunk := Chunk.len_utf16;
  add_assign := OffsetUtf16_add
}.
#[export] Instance Point_TextDimension : TextDimension Point := {
  from_text_summary := TextSummary.lines;
  from_chunk := Chunk.lines;
  add_assign := Point_add_assign
}.
#[export] Instance PointUtf16_TextDimension : TextDimension PointUtf16 := {
  from_text_summary := lines_utf16;
  from_chunk := λ chunk, mkPointUtf16 (row (Chunk.lines chunk)) (Chunk.last_line_len_utf16 chunk);
  add_assign := PointUtf16_add
}.

(** [Cursor::summary]. *)
Definition cursor_summary {D} `{TextDimension D} (self : RopeCursor) (end_offset : nat) : option (RopeCursor * D) :=
  _ ← assert_ (bool_decide (cursor_offset self ≤ end_offset));
  _ ← assert_ (bool_decide (end_offset ≤ len (cursor_rope self)));
  let cs := cursor_chunks self in
  start_chunk ← Cursor.item cs;
  chunks_end ← Cursor.end_ cs;
  summary ←
    match start_chunk with
    | Some start_chunk =>
        start_ix ← usub (cursor_offset self) (Cursor.start cs);
        end_ix ← usub (end_offset `min` chunks_end) (Cursor.start cs);
        c ← Chunk.slice start_chunk start_ix end_ix;
        Some (add_assign (dim_zero () : D) (from_chunk c))
    | None => Some (dim_zero ())
    end;
  if bool_decide (chunks_end < end_offset) then
    cs ← Cursor.next cs;
    '(cs, middle) ← Cursor.cursor_summary cs end_offset Right;
    let summary := add_assign summary middle in
    end_chunk ← Cursor.item cs;
    summary ←
      match end_chunk with
      | Some end_chunk =>
          end_ix ← usub end_offset (Cursor.start cs);
          c ← Chunk.slice end_chunk 0 end_ix;
          Some (add_assign summary (from_chunk c))
      | None => Some summary
      end;
    Some (mkRopeCursor (cursor_rope self) cs end_offset, summary)
  else Some (mkRopeCursor (cursor_rope self) cs end_offset, summary).

Definition cursor_suffix (self : RopeCursor) : option Rope :=
  '(_, slice) ← cursor_slice self (SumTree.extent (chunks (cursor_rope self)) ());
  Some slice.

Definition slice (self : Rope) (start end_ : nat) : option Rope :=
  c ← cursor self 0;
  c ← seek_forward c start;
  '(_, r) ← cursor_slice c end_;
  Some r.

Definition replace (self : Rope) (start end_ : nat) (text : list Z) : option Rope :=
  c ← cursor self 0;
  '(c, prefix) ← cursor_slice c start;
  new_rope ← append Rope_new prefix;
  c ← seek_forward c end_;
  new_rope ← push new_rope text;
  suffix ← cursor_suffix c;
  append new_rope suffix.

(** ** Boundaries *)

Definition is_char_boundary (self : Rope) (offset : nat) : option bool :=
  if SumTree.is_empty (chunks self) then Some (bool_decide (offset = 0))
  else
    let '(start, _, item) := find (D:=nat) (chunks self) () offset Left in
    chunk_offset ← usub offset start;
    Some match item with Some chunk => Chunk.is_char_boundary chunk chunk_offset | None => false end.

Definition assert_char_boundary (panic : bool) (self : Rope) (offset : nat) : option bool :=
  if SumTree.is_empty (chunks self) && bool_decide (offset = 0) then Some true
  else
    let '(start, _, item) := find (D:=nat) (chunks self) () offset Left in
    match item with
    | Some chunk => chunk_offset ← usub offset start; Chunk.assert_char_boundary panic chunk chunk_offset
    | None => if panic then None else Some false
    end.

Definition floor_char_boundary (self : Rope) (index : nat) : option nat :=
  if bool_decide (len self ≤ index) then Some (len self)
  else
    let '(start, _, item) := find (D:=nat) (chunks self) () index Left in
    chunk_offset ← usub index start;
    Some match item with
         | Some chunk => start + Utf8.floor_char_boundary (Chunk.text chunk) chunk_offset
         | None => len self
         end.

Definition ceil_char_boundary (self : Rope) (index : nat) : option nat :=
  if bool_decide (len self < index) then Some (len self)
  else
    let '(start, _, item) := find (D:=nat) (chunks self) () index Left in
    chunk_offset ← usub index start;
    Some match item with
         | Some chunk => start + Utf8.ceil_char_boundary (Chunk.text chunk) chunk_offset
         | None => len self
         end.

Definition clip_offset (self : Rope) (offset : nat) (bias : Bias) : option nat :=
  match bias with
  | Left => floor_char_boundary self offset
  | Right => ceil_char_boundary self offset
  end.

(** ** Coordinates

    [a >= b] in the order of points and offsets is [cmp a b ≠ Lt].  The
    arithmetic on points and offsets is that of [Point]. *)

Definition PointUtf16_zero : PointUtf16 := mkPointUtf16 0 0.
Definition OffsetUtf16_zero : OffsetUtf16 := MkOffsetUtf16 0.

Definition offset_to_offset_utf16 (self : Rope) (offset : nat) : option OffsetUtf16 :=
  if bool_decide (TextSummary.len (summary self) ≤ offset) then Some (TextSummary.len_utf16 (summary self))
  else
    let '(start, _, item) := find (D:=nat * OffsetUtf16) (chunks self) () offset Left in
    overshoot ← usub offset start.1;
    Some (OffsetUtf16_add start.2
      match item with Some chunk => Chunk.offset_to_offset_utf16 chunk overshoot | None => OffsetUtf16_zero end).

Definition offset_utf16_to_offset (self : Rope) (offset : OffsetUtf16) : option nat :=
  if bool_decide (cmp offset (TextSummary.len_utf16 (summary self)) ≠ Lt) then Some (TextSummary.len (summary self))
  else
    let '(start, _, item) := find (D:=OffsetUtf16 * nat) (chunks self) () offset Left in
    let overshoot := OffsetUtf16_sub offset start.1 in
    o ← match item with Some chunk => Chunk.offset_utf16_to_offset chunk overshoot | None => Some 0 end;
    Some (start.2 + o).

Definition offset_to_point (self : Rope) (offset : nat) : option Point :=
  if bool_decide (TextSummary.len (summary self) ≤ offset) then Some (TextSummary.lines (summary self))
  else
    let '(start, _, item) := find (D:=nat * Point) (chunks self) () offset Left in
    overshoot ← usub offset start.1;
    Some (Point_add start.2
      match item with Some chunk => Chunk.offset_to_point chunk overshoot | None => Point_zero end).

Definition offset_to_point_utf16 (self : Rope) (offset : nat) : option PointUtf16 :=
  if bool_decide (TextSummary.len (summary self) ≤ offset) then Some (lines_utf16 (summary self))
  else
    let '(start, _, item) := find (D:=nat * PointUtf16) (chunks self) () offset Left in
    overshoot ← usub offset start.1;
    Some (PointUtf16_add start.2
      match item with Some chunk => Chunk.offset_to_point_utf16 chunk overshoot | None => PointUtf16_zero end).

Definition point_to_point_utf16 (self : Rope) (point : Point) : PointUtf16 :=
  if bool_decide (cmp point (TextSummary.lines (summary self)) ≠ Lt) then lines_utf16 (summary self)
  else
    let '(start, _, item) := find (D:=Point * PointUtf16) (chunks self) () point Left in
    let overshoot := Point_sub point start.1 in
    PointUtf16_add start.2
      match item with Some chunk => Chunk.point_to_point_utf16 chunk overshoot | None => PointUtf16_zero end.

Definition point_utf16_to_point (self : Rope) (point : PointUtf16) : option Point :=
  if bool_decide (cmp point (lines_utf16 (summary self)) ≠ Lt) then Some (TextSummary.lines (summary self))
  else
    '(c, _) ← Cursor.seek (cursor_new (D:=PointUtf16 * Point) (chunks self) ()) point Left;
    let overshoot := PointUtf16_sub point (Cursor.start c).1 in
    chunk ← Cursor.item c;
    p ← match chunk with
        | Some chunk =>
            offset ← Chunk.point_utf16_to_offset chunk overshoot false;
            Some (Chunk.offset_to_point chunk offset)
        | None => Some Point_zero
        end;
    Some (Point_add (Cursor.start c).2 p).

Definition point_to_offset (self : Rope) (point : Point) : nat :=
  if bool_decide (cmp point (TextSummary.lines (summary self)) ≠ Lt) then TextSummary.len (summary self)
  else
    let '(start, _, item) := find (D:=Point * nat) (chunks self) () point Left in
    let overshoot := Point_sub point start.1 in
    start.2 + match item with Some chunk => Chunk.point_to_offset chunk overshoot | None => 0 end.

Definition point_to_offset_utf16 (self : Rope) (point : Point) : option OffsetUtf16 :=
  if bool_decide (cmp point (TextSummary.lines (summary self)) ≠ Lt)
  then Some (TextSummary.len_utf16 (summary self))
  else
    '(c, _) ← Cursor.seek (cursor_new (D:=Point * OffsetUtf16) (chunks self) ()) point Left;
    let overshoot := Point_sub point (Cursor.start c).1 in
    chunk ← Cursor.item c;
    Some (OffsetUtf16_add (Cursor.start c).2
      match chunk with Some chunk => Chunk.point_to_offset_utf16 chunk overshoot | None => OffsetUtf16_zero end).

Definition point_utf16_to_offset_impl (self : Rope) (point : PointUtf16) (clip : bool) : option nat :=
  if bool_decide (cmp point (lines_utf16 (summary self)) ≠ Lt) then Some (TextSummary.len (summary self))
  else
    let '(start, _, item) := find (D:=PointUtf16 * nat) (chunks self) () point Left in
    let overshoot := PointUtf16_sub point start.1 in
    o ← match item with Some chunk => Chunk.point_utf16_to_offset chunk overshoot clip | None => Some 0 end;
    Some (start.2 + o).

Definition point_utf16_to_offset_utf16_impl (self : Rope) (point : PointUtf16) (clip : bool) : option OffsetUtf16 :=
  if bool_decide (cmp point (lines_utf16 (summary self)) ≠ Lt) then Some (TextSummary.len_utf16 (summary self))
  else
    '(c, _) ← Cursor.seek (cursor_new (D:=PointUtf16 * OffsetUtf16) (chunks self) ()) point Left;
    let overshoot := PointUtf16_sub point (Cursor.start c).1 in
    chunk ← Cursor.item c;
    o ← match chunk with
        | Some chunk =>
            offset ← Chunk.point_utf16_to_offset chunk overshoot clip;
            Some (Chunk.offset_to_offset_utf16 chunk offset)
        | None => Some OffsetUtf16_zero
        end;
    Some (OffsetUtf16_add (Cursor.start c).2 o).

Definition point_utf16_to_offset (self : Rope) (point : PointUtf16) : option nat :=
  point_utf16_to_offset_impl self point false.
Definition point_utf16_to_offset_utf16 (self : Rope) (point : PointUtf16) : option OffsetUtf16 :=
  point_utf16_to_offset_utf16_impl self point false.
Definition unclipped_point_utf16_to_offset (self : Rope) (point : PointUtf16) : option nat :=
  point_utf16_to_offset_impl self point true.

Definition unclipped_point_utf16_to_point (self : Rope) (point : PointUtf16) : option Point :=
  if bool_decide (cmp point (lines_utf16 (summary self)) ≠ Lt) then Some (TextSummary.lines (summary self))
  else
    let '(start, _, item) := find (D:=PointUtf16 * Point) (chunks self) () point Left in
    let overshoot := PointUtf16_sub point start.1 in
    p ← match item with
        | Some chunk => Chunk.unclipped_point_utf16_to_point chunk overshoot
        | None => Some Point_zero
        end;
    Some (Point_add start.2 p).

(** ** Clipping *)

Definition clip_offset_utf16 (self : Rope) (offset : OffsetUtf16) (bias : Bias) : option OffsetUtf16 :=
  let '(start, _, item) := find (D:=OffsetUtf16) (chunks self) () offset Right in
  match item with
  | Some chunk =>
      let overshoot := OffsetUtf16_sub offset start in
      o ← Chunk.clip_offset_utf16 chunk overshoot bias;
      Some (OffsetUtf16_add start o)
  | None => Some (TextSummary.len_utf16 (summary self))
  end.

Definition clip_point_utf16 (self : Rope) (point : PointUtf16) (bias : Bias) : option PointUtf16 :=
  let '(start, _, item) := find (D:=PointUtf16) (chunks self) () point Right in
  match item with
  | Some chunk =>
      let overshoot := PointUtf16_sub point start in
      p ← Chunk.clip_point_utf16 chunk overshoot bias;
      Some (PointUtf16_add start p)
  | None => Some (lines_utf16 (summary self))
  end.

Section graphemes.
Variable is_grapheme_boundary : list Z → nat → bool.

Definition clip_point (self : Rope) (point : Point) (bias : Bias) : option Point :=
  let '(start, _, item) := find (D:=Point) (chunks self) () point Right in
  match item with
  | Some chunk =>
      let overshoot := Point_sub point start in
      p ← Chunk.clip_point is_grapheme_boundary chunk overshoot bias;
      Some (Point_add start p)
  | None => Some (TextSummary.lines (summary self))
  end.

Definition line_len (self : Rope) (row : N) : option N :=
  column <$> clip_point self (mkPoint row u32_MAX) Left.
End graphemes.

Definition slice_rows (self : Rope) (start end_ : N) : option Rope :=
  slice self (point_to_offset self (mkPoint start 0)) (point_to_offset self (mkPoint end_ 0)).
