(* ===== verification/History.v ===== *)
(** The undo history of a buffer: [Transaction], [HistoryEntry] and [History]
    of [crates/text/src/text.rs].

    The stacks are lists with the top at the end.  An [Instant] is the number
    of nanoseconds since some origin and a [Duration] a number of nanoseconds;
    [Instant - Instant] saturates at zero, as [N]'s subtraction does.  A method
    returns the new history with what it returns; [None] is a panic: an
    [assert_eq!] or [assert_ne!] on the depth, an [unwrap], an underflow. *)

From stdpp Require Import base numbers option list.
From S2P Require Import Prelude Clock Operation.
From S2P Require SumTree TreeMap Rope.

Abbreviation TransactionId := Lamport (only parsing).
Abbreviation Instant := N (only parsing).
Abbreviation Duration := N (only parsing).

Record Transaction := mkTransaction {
  id : TransactionId;
  edit_ids : list Lamport;
  start : Global
}.

Record HistoryEntry := mkHistoryEntry {
  transaction : Transaction;
  first_edit_at : Instant;
  last_edit_at : Instant;
  suppress_grouping : bool
}.

Definition transaction_id (self : HistoryEntry) : TransactionId := id (transaction self).

Definition merge_in (self other : Transaction) : Transaction :=
  mkTransaction (id self) (edit_ids self ++ edit_ids other) (start self).

Record History := mkHistory {
  base_text : Rope.Rope;
  operations : TreeMap.TreeMap Lamport Operation;
  undo_stack : list HistoryEntry;
  redo_stack : list HistoryEntry;
  transaction_depth : nat;
  group_interval : Duration
}.

(** Assignments to one field. *)
Definition with_stacks (self : History) (undo redo : list HistoryEntry) : History :=
  mkHistory (base_text self) (operations self) undo redo (transaction_depth self) (group_interval self).

Definition with_depth (self : History) (depth : nat) : History :=
  mkHistory (base_text self) (operations self) (undo_stack self) (redo_stack self) depth
    (group_interval self).

Definition set_edit_ids (edit_ids : list Lamport) (t : Transaction) : Transaction :=
  mkTransaction (id t) edit_ids (start t).

Definition set_transaction (t : Transaction) (e : HistoryEntry) : HistoryEntry :=
  mkHistoryEntry t (first_edit_at e) (last_edit_at e) (suppress_grouping e).

Definition set_last_edit_at (now : Instant) (e : HistoryEntry) : HistoryEntry :=
  mkHistoryEntry (transaction e) (first_edit_at e) now (suppress_grouping e).

(** [edit_id]s pushed on the entry's transaction, in order. *)
Definition push_edit_ids (es : list Lamport) (e : HistoryEntry) : HistoryEntry :=
  set_transaction (set_edit_ids (edit_ids (transaction e) ++ es) (transaction e)) e.

(** The group interval outside of tests. *)
Definition new (base_text : Rope.Rope) : History :=
  mkHistory base_text
    (SumTree.new (H:=TreeMap.MapKey_Summary) ()) [] [] 0 300000000%N.

Definition set_group_interval (self : History) (interval : Duration) : History :=
  mkHistory (base_text self) (operations self) (undo_stack self) (redo_stack self)
    (transaction_depth self) interval.

Definition push (self : History) (op : Operation) : option History :=
  operations ← TreeMap.insert (operations self) (timestamp op) op;
  Some (mkHistory (base_text self) operations (undo_stack self) (redo_stack self)
    (transaction_depth self) (group_interval self)).

(** An entry that opens at [now]. *)
Definition open_entry (t : Transaction) (now : Instant) : HistoryEntry :=
  mkHistoryEntry t now now false.

Definition start_transaction (self : History) (start : Global) (now : Instant) (clock : Lamport)
    : History * Lamport * option TransactionId :=
  let self := with_depth self (transaction_depth self + 1) in
  if bool_decide (transaction_depth self = 1) then
    let '(id, clock) := tick clock in
    (with_stacks self (undo_stack self ++ [open_entry (mkTransaction id [] start) now]) (redo_stack self),
     clock, Some id)
  else (self, clock, None).

Definition end_transaction (self : History) (now : Instant) : option (History * option HistoryEntry) :=
  assert_ (bool_decide (transaction_depth self ≠ 0));;
  let self := with_depth self (transaction_depth self - 1) in
  if bool_decide (transaction_depth self = 0) then
    entry ← last (undo_stack self);
    if bool_decide (edit_ids (transaction entry) = []) then
      Some (with_stacks self (removelast (undo_stack self)) (redo_stack self), None)
    else
      undo ← set_last (set_last_edit_at now entry) (undo_stack self);
      Some (with_stacks self undo [], Some (set_last_edit_at now entry))
  else Some (self, None).

(** ** Grouping *)

(** The loops run over the entries from the last one back. *)
Fixpoint group_count (group_interval : Duration) (entry : HistoryEntry) (entries : list HistoryEntry)
    (count : nat) : nat :=
  match entries with
  | [] => count
  | prev_entry :: entries =>
      if negb (suppress_grouping prev_entry)
         && bool_decide (first_edit_at entry - last_edit_at prev_entry < group_interval)%N
      then group_count group_interval prev_entry entries (count + 1)
      else count
  end.

Definition group_trailing (self : History) (n : nat) : option (History * option TransactionId) :=
  new_len ← usub (length (undo_stack self)) n;
  let entries_to_keep := take new_len (undo_stack self) in
  let entries_to_merge := drop new_len (undo_stack self) in
  let merged := flat_map (λ entry, edit_ids (transaction entry)) entries_to_merge in
  entries_to_keep ←
    match last entries_to_keep with
    | Some last_entry =>
        let last_entry := push_edit_ids merged last_entry in
        let last_entry :=
          match last entries_to_merge with
          | Some entry => set_last_edit_at (last_edit_at entry) last_entry
          | None => last_entry
          end in
        set_last last_entry entries_to_keep
    | None => Some entries_to_keep
    end;
  Some (with_stacks self entries_to_keep (redo_stack self), transaction_id <$> last entries_to_keep).

Definition group (self : History) : option (History * option TransactionId) :=
  let count :=
    match rev (undo_stack self) with
    | entry :: entries => group_count (group_interval self) entry entries 0
    | [] => 0
    end in
  group_trailing self count.

(** The number of entries after the last one of [transaction_id], unless a
    finalized entry is among them. *)
Fixpoint group_until_count (tid : TransactionId) (entries : list HistoryEntry) (count : nat) : option nat :=
  match entries with
  | [] => None
  | entry :: entries =>
      if bool_decide (transaction_id entry = tid) then Some count
      else if suppress_grouping entry then None
      else group_until_count tid entries (count + 1)
  end.

Definition group_until (self : History) (tid : TransactionId) : option History :=
  match group_until_count tid (rev (undo_stack self)) 0 with
  | Some count => fst <$> group_trailing self count
  | None => Some self
  end.

Definition finalize_last_transaction (self : History) : History * option Transaction :=
  match last (undo_stack self) with
  | Some entry =>
      let entry' := mkHistoryEntry (transaction entry) (first_edit_at entry) (last_edit_at entry) true in
      (with_stacks self (removelast (undo_stack self) ++ [entry']) (redo_stack self),
       Some (transaction entry))
  | None => (self, None)
  end.

(** ** Pushing *)

Definition push_transaction (self : History) (t : Transaction) (now : Instant) : option History :=
  assert_ (bool_decide (transaction_depth self = 0));;
  Some (with_stacks self (undo_stack self ++ [open_entry t now]) (redo_stack self)).

Definition push_empty_transaction (self : History) (start : Global) (now : Instant) (clock : Lamport)
    : option (History * Lamport * TransactionId) :=
  assert_ (bool_decide (transaction_depth self = 0));;
  let '(id, clock) := tick clock in
  Some (with_stacks self (undo_stack self ++ [open_entry (mkTransaction id [] start) now]) (redo_stack self),
        clock, id).

Definition push_undo (self : History) (op_id : Lamport) : option History :=
  assert_ (bool_decide (transaction_depth self ≠ 0));;
  match TreeMap.get (operations self) op_id with
  | Some (OpEdit _) =>
      last_entry ← last (undo_stack self);
      undo ← set_last (push_edit_ids [op_id] last_entry) (undo_stack self);
      Some (with_stacks self undo (redo_stack self))
  | _ => Some self
  end.

(** ** Undoing and redoing *)

(** The last position of an element that [p] accepts; the last such element. *)
Fixpoint rposition {A} (p : A → bool) (l : list A) : option nat :=
  match l with
  | [] => None
  | a :: l =>
      match rposition p l with
      | Some ix => Some (S ix)
      | None => if p a then Some 0 else None
      end
  end.

Definition rfind {A} (p : A → bool) (l : list A) : option A := ix ← rposition p l; l !! ix.

Definition has_id (tid : TransactionId) (entry : HistoryEntry) : bool :=
  bool_decide (transaction_id entry = tid).

(** [Vec::remove] panics past the end. *)
Definition remove {A} (l : list A) (ix : nat) : option (list A * A) :=
  a ← l !! ix; Some (take ix l ++ drop (S ix) l, a).

Definition pop_undo (self : History) : option (History * option HistoryEntry) :=
  assert_ (bool_decide (transaction_depth self = 0));;
  match last (undo_stack self) with
  | Some entry =>
      Some (with_stacks self (removelast (undo_stack self)) (redo_stack self ++ [entry]), Some entry)
  | None => Some (self, None)
  end.

Definition pop_redo (self : History) : option (History * option HistoryEntry) :=
  assert_ (bool_decide (transaction_depth self = 0));;
  match last (redo_stack self) with
  | Some entry =>
      Some (with_stacks self (undo_stack self ++ [entry]) (removelast (redo_stack self)), Some entry)
  | None => Some (self, None)
  end.

Definition remove_from_undo (self : History) (tid : TransactionId)
    : option (History * option HistoryEntry) :=
  assert_ (bool_decide (transaction_depth self = 0));;
  match rposition (has_id tid) (undo_stack self) with
  | None => Some (self, None)
  | Some entry_ix =>
      '(undo, entry) ← remove (undo_stack self) entry_ix;
      Some (with_stacks self undo (redo_stack self ++ [entry]), Some entry)
  end.

(** The entries returned are those added to the other stack. *)
Definition remove_from_undo_until (self : History) (tid : TransactionId)
    : option (History * list HistoryEntry) :=
  assert_ (bool_decide (transaction_depth self = 0));;
  let redo_stack_start_len := length (redo_stack self) in
  let self :=
    match rposition (has_id tid) (undo_stack self) with
    | Some entry_ix =>
        with_stacks self (take entry_ix (undo_stack self))
          (redo_stack self ++ rev (drop entry_ix (undo_stack self)))
    | None => self
    end in
  Some (self, drop redo_stack_start_len (redo_stack self)).

Definition remove_from_redo (self : History) (tid : TransactionId)
    : option (History * list HistoryEntry) :=
  assert_ (bool_decide (transaction_depth self = 0));;
  let undo_stack_start_len := length (undo_stack self) in
  let self :=
    match rposition (has_id tid) (redo_stack self) with
    | Some entry_ix =>
        with_stacks self (undo_stack self ++ rev (drop entry_ix (redo_stack self)))
          (take entry_ix (redo_stack self))
    | None => self
    end in
  Some (self, drop undo_stack_start_len (undo_stack self)).

Definition forget (self : History) (tid : TransactionId) : option (History * option Transaction) :=
  assert_ (bool_decide (transaction_depth self = 0));;
  match rposition (has_id tid) (undo_stack self) with
  | Some entry_ix =>
      '(undo, entry) ← remove (undo_stack self) entry_ix;
      Some (with_stacks self undo (redo_stack self), Some (transaction entry))
  | None =>
      match rposition (has_id tid) (redo_stack self) with
      | Some entry_ix =>
          '(redo, entry) ← remove (redo_stack self) entry_ix;
          Some (with_stacks self (undo_stack self) redo, Some (transaction entry))
      | None => Some (self, None)
      end
  end.

(** [History::transaction]. *)
Definition get_transaction (self : History) (tid : TransactionId) : option Transaction :=
  transaction <$>
    match rfind (has_id tid) (undo_stack self) with
    | Some entry => Some entry
    | None => rfind (has_id tid) (redo_stack self)
    end.

(** [History::transaction_mut], as the change [f] of the transaction it
    returns; [None] when it returns none. *)
Definition transaction_mut (self : History) (tid : TransactionId) (f : Transaction → Transaction)
    : option History :=
  let change entry := set_transaction (f (transaction entry)) entry in
  match rposition (has_id tid) (undo_stack self) with
  | Some ix => Some (with_stacks self (alter change ix (undo_stack self)) (redo_stack self))
  | None =>
      ix ← rposition (has_id tid) (redo_stack self);
      Some (with_stacks self (undo_stack self) (alter change ix (redo_stack self)))
  end.

Definition merge_transactions (self : History) (t destination : TransactionId) : option History :=
  '(self, t) ← forget self t;
  match t with
  | None => Some self
  | Some t =>
      Some (default self
        (transaction_mut self destination (λ destination,
          set_edit_ids (edit_ids destination ++ edit_ids t) destination)))
  end.

(** ** The calls of a buffer *)

Inductive Call :=
  | CPush (op : Operation)
  | CStart (start : Global) (now : Instant) (clock : Lamport)
  | CEnd (now : Instant)
  | CGroup
  | CGroupUntil (tid : TransactionId)
  | CFinalize
  | CPushTransaction (t : Transaction) (now : Instant)
  | CPushEmpty (start : Global) (now : Instant) (clock : Lamport)
  | CPushUndo (op_id : Lamport)
  | CPopUndo
  | CPopRedo
  | CRemoveFromUndo (tid : TransactionId)
  | CRemoveFromUndoUntil (tid : TransactionId)
  | CRemoveFromRedo (tid : TransactionId)
  | CForget (tid : TransactionId)
  | CMerge (t destination : TransactionId)
  | CSetGroupInterval (interval : Duration).

(** The history a call leaves. *)
Definition step (self : History) (c : Call) : option History :=
  match c with
  | CPush op => push self op
  | CStart start now clock => Some (start_transaction self start now clock).1.1
  | CEnd now => fst <$> end_transaction self now
  | CGroup => fst <$> group self
  | CGroupUntil tid => group_until self tid
  | CFinalize => Some (finalize_last_transaction self).1
  | CPushTransaction t now => push_transaction self t now
  | CPushEmpty start now clock => (λ r, r.1.1) <$> push_empty_transaction self start now clock
  | CPushUndo op_id => push_undo self op_id
  | CPopUndo => fst <$> pop_undo self
  | CPopRedo => fst <$> pop_redo self
  | CRemoveFromUndo tid => fst <$> remove_from_undo self tid
  | CRemoveFromUndoUntil tid => fst <$> remove_from_undo_until self tid
  | CRemoveFromRedo tid => fst <$> remove_from_redo self tid
  | CForget tid => fst <$> forget self tid
  | CMerge t destination => merge_transactions self t destination
  | CSetGroupInterval interval => Some (set_group_interval self interval)
  end.

Definition run (self : History) (calls : list Call) : option History := foldlM step self calls.
