(* ===== verification/HistoryFacts.v ===== *)
(** The stacks of a history.

    [undo_stack] followed by the reverse of [redo_stack] is the timeline of the
    history; undoing and redoing move the boundary.  A transaction in progress
    is the last entry of the undo stack, so the [unwrap]s of the code find it
    ([history_inv]). *)

From stdpp Require Import base numbers option list sets sorting.
From S2P Require Import Prelude Clock Operation History.
From S2P Require SumTree Cursor TreeMap TreeMapFacts.

#[local] Arguments removelast : simpl never.

(** ** Searches from the end *)

Lemma rposition_Some {A} (p : A → bool) l ix :
  rposition p l = Some ix →
  ∃ a b c, l = a ++ b :: c ∧ length a = ix ∧ p b = true ∧ Forall (λ x, p x = false) c.
Proof.
  revert ix. induction l as [|x l IH]; intros ix; simpl; [done|].
  destruct (rposition p l) as [ix'|] eqn:E.
  - intros [= <-]. destruct (IH ix') as (a&b&c&->&<-&Hb&Hc); [done|]. by exists (x :: a), b, c.
  - destruct (p x) eqn:Ex; [|done]. intros [= <-]. exists [], x, l. split_and!; [done..|].
    clear IH Ex. induction l as [|y l IH]; [constructor|]. simpl in E.
    destruct (rposition p l); [done|]. destruct (p y) eqn:Ey; [done|]. constructor; auto.
Qed.

Lemma rposition_None {A} (p : A → bool) l : rposition p l = None ↔ Forall (λ x, p x = false) l.
Proof.
  induction l as [|x l IH]; simpl; [done|]. rewrite Forall_cons.
  destruct (rposition p l) as [ix|]; [split; [done|]; intros [_ H]; by apply IH in H|].
  destruct (p x); naive_solver.
Qed.

Lemma rposition_split {A} (p : A → bool) a b c :
  p b = true → Forall (λ x, p x = false) c → rposition p (a ++ b :: c) = Some (length a).
Proof.
  intros Hb Hc. apply rposition_None in Hc. induction a as [|x a IH]; simpl; [by rewrite Hc, Hb|].
  by rewrite IH.
Qed.

Lemma remove_split {A} (a c : list A) b : remove (a ++ b :: c) (length a) = Some (a ++ c, b).
Proof.
  unfold remove. rewrite list_lookup_middle by done. simpl.
  rewrite take_app_length. by rewrite cons_middle, app_assoc, drop_app_length' by (rewrite length_app; simpl; lia).
Qed.

Lemma rfind_rposition {A} (p : A → bool) l :
  rfind p l = match rposition p l with Some ix => l !! ix | None => None end.
Proof. unfold rfind. by destruct (rposition p l). Qed.

(** ** Grouping *)

(** Two neighbours on the stack that [group] merges. *)
Definition linked (interval : Duration) (e e' : HistoryEntry) : Prop :=
  suppress_grouping e = false ∧ (first_edit_at e' - last_edit_at e < interval)%N.

Inductive chain (interval : Duration) : list HistoryEntry → Prop :=
  | chain_one e : chain interval [e]
  | chain_snoc l e e' : chain interval (l ++ [e]) → linked interval e e' → chain interval (l ++ [e; e']).

(** An entry with the entries after it merged in. *)
Definition grouped (e : HistoryEntry) (suf : list HistoryEntry) : HistoryEntry :=
  mkHistoryEntry
    (mkTransaction (transaction_id e) (flat_map (λ e, edit_ids (transaction e)) (e :: suf))
       (start (transaction e)))
    (first_edit_at e) (last_edit_at (default e (last suf))) (suppress_grouping e).

Lemma grouped_nil e : grouped e [] = e.
Proof. destruct e as [[i es s] f l b]. unfold grouped. simpl. by rewrite app_nil_r. Qed.

Lemma group_trailing_spec h pre e suf :
  undo_stack h = pre ++ e :: suf →
  group_trailing h (length suf) =
  Some (with_stacks h (pre ++ [grouped e suf]) (redo_stack h), Some (transaction_id e)).
Proof.
  intros Hu. unfold group_trailing. rewrite Hu, length_app. simpl length.
  rewrite usub_le by lia. simpl.
  replace (length pre + S (length suf) - length suf) with (length (pre ++ [e])) by (rewrite length_app; simpl; lia).
  replace (pre ++ e :: suf) with ((pre ++ [e]) ++ suf) by by rewrite <- app_assoc.
  rewrite take_app_length, drop_app_length, last_snoc.
  rewrite set_last_snoc. simpl. rewrite last_snoc. unfold grouped, set_last_edit_at.
  by destruct (last suf).
Qed.

Lemma group_count_spec interval e l n :
  ∃ k, group_count interval e l n = n + k ∧ k ≤ length l ∧
    chain interval (rev (e :: take k l)) ∧
    match l !! k with
    | Some e' => ∀ e'', last (e :: take k l) = Some e'' → ¬ linked interval e' e''
    | None => True
    end.
Proof.
  revert e n. induction l as [|e' l IH]; intros e n; simpl.
  { exists 0. split_and!; [lia|lia|constructor|done]. }
  destruct (negb (suppress_grouping e') && _) eqn:E.
  - apply andb_true_iff in E as [Hs%negb_true_iff Hi%bool_decide_eq_true].
    destruct (IH e' (n + 1)) as (k&->&Hk&Hc&Hb). exists (S k). split; [lia|]. split; [lia|].
    simpl take. split.
    + simpl rev in *. rewrite <- app_assoc. by apply chain_snoc.
    + simpl. destruct (l !! k); [|done]. intros e'' He''. apply Hb. by destruct (take k l).
  - exists 0. split; [lia|]. split; [lia|]. simpl. split; [constructor|].
    intros e'' [= <-] [Hs Hi]. rewrite Hs, bool_decide_eq_true_2 in E; done.
Qed.

(** The edits of a stack, in order. *)
Definition stack_edits (l : list HistoryEntry) : list Lamport :=
  flat_map (λ e, edit_ids (transaction e)) l.

Lemma stack_edits_app a b : stack_edits (a ++ b) = stack_edits a ++ stack_edits b.
Proof. apply flat_map_app. Qed.

Lemma stack_edits_grouped pre e suf : stack_edits (pre ++ [grouped e suf]) = stack_edits (pre ++ e :: suf).
Proof. rewrite !stack_edits_app. unfold stack_edits. simpl. by rewrite app_nil_r. Qed.

Lemma group_spec h :
  undo_stack h ≠ [] →
  ∃ pre e suf, undo_stack h = pre ++ e :: suf ∧ chain (group_interval h) (e :: suf) ∧
    (∀ e', last pre = Some e' → ¬ linked (group_interval h) e' e) ∧
    group h = Some (with_stacks h (pre ++ [grouped e suf]) (redo_stack h), Some (transaction_id e)).
Proof.
  intros Hne. unfold group. destruct (rev (undo_stack h)) as [|x l] eqn:E.
  { destruct Hne. by rewrite <- (rev_involutive (undo_stack h)), E. }
  destruct (group_count_spec (group_interval h) x l 0) as (k&->&Hk&Hc&Hb).
  assert (Hu : undo_stack h = rev (drop k l) ++ rev (x :: take k l)).
  { by rewrite <- rev_app_distr, <- app_comm_cons, take_drop, <- E, rev_involutive. }
  destruct (rev (x :: take k l)) as [|e suf] eqn:Er; [by apply (f_equal length) in Er; rewrite length_rev in Er|].
  exists (rev (drop k l)), e, suf. split; [done|]. split; [done|].
  assert (He : last (x :: take k l) = Some e).
  { by rewrite <- (rev_involutive (x :: take k l)), Er; simpl; rewrite last_snoc. }
  assert (Hlen : length suf = k).
  { apply (f_equal length) in Er. rewrite length_rev in Er. simpl in Er. rewrite length_take in Er. lia. }
  split.
  - intros e' He'. destruct (drop k l) as [|y r] eqn:Ed; [done|]. simpl in He'.
    rewrite last_snoc in He'. injection He' as ->.
    assert (l !! k = Some e') as Ely.
    { pose proof (lookup_drop l k 0) as Hd. rewrite Ed, Nat.add_0_r in Hd. by rewrite <- Hd. }
    rewrite Ely in Hb. by apply Hb.
  - replace (0 + k) with (length suf) by lia. by apply group_trailing_spec.
Qed.

Lemma group_empty h : undo_stack h = [] → group h = Some (h, None).
Proof.
  intros E. unfold group, group_trailing. rewrite E. simpl. unfold with_stacks.
  destruct h; simpl in *; by subst.
Qed.

Lemma group_until_count_spec tid l n :
  match group_until_count tid l n with
  | Some m => ∃ a e b, l = a ++ e :: b ∧ m = n + length a ∧ transaction_id e = tid ∧
      Forall (λ x, transaction_id x ≠ tid ∧ suppress_grouping x = false) a
  | None => ∀ a e b, l = a ++ e :: b → transaction_id e = tid →
      Forall (λ x, transaction_id x ≠ tid) a → Exists (λ x, suppress_grouping x = true) a
  end.
Proof.
  revert n. induction l as [|x l IH]; intros n; simpl.
  { intros [|??]; done. }
  destruct (decide (transaction_id x = tid)) as [Ex|Ex].
  { rewrite bool_decide_eq_true_2 by done. exists [], x, l. simpl. split_and!; [done|lia|done|constructor]. }
  rewrite bool_decide_eq_false_2 by done. destruct (suppress_grouping x) eqn:Es.
  { intros [|y a] e b [= <-] He Ha; [done|]. by left. }
  specialize (IH (n + 1)). destruct (group_until_count tid l (n + 1)) as [m|].
  - destruct IH as (a&e&b&->&->&He&Ha). exists (x :: a), e, b. simpl.
    split_and!; [done|lia|done|by constructor].
  - intros [|y a] e b [= <- ->] He Ha; [done|]. right. apply (IH a e b); [done|done|].
    by inversion Ha.
Qed.

Lemma Forall_rev {A} (P : A → Prop) l : Forall P (rev l) ↔ Forall P l.
Proof. rewrite rev_alt. apply Forall_reverse. Qed.

Lemma Exists_rev {A} (P : A → Prop) l : Exists P (rev l) ↔ Exists P l.
Proof.
  induction l as [|x l IH]; [done|]. simpl. rewrite Exists_app, IH, Exists_cons, Exists_cons, Exists_nil.
  tauto.
Qed.

Lemma group_until_spec h tid :
  (∃ pre e suf, undo_stack h = pre ++ e :: suf ∧ transaction_id e = tid ∧
     Forall (λ x, transaction_id x ≠ tid ∧ suppress_grouping x = false) suf ∧
     group_until h tid = Some (with_stacks h (pre ++ [grouped e suf]) (redo_stack h))) ∨
  ((∀ pre e suf, undo_stack h = pre ++ e :: suf → transaction_id e = tid →
      Forall (λ x, transaction_id x ≠ tid) suf → Exists (λ x, suppress_grouping x = true) suf) ∧
   group_until h tid = Some h).
Proof.
  unfold group_until. pose proof (group_until_count_spec tid (rev (undo_stack h)) 0) as H.
  destruct (group_until_count tid (rev (undo_stack h)) 0) as [m|].
  - left. destruct H as (a&e&b&E&->&He&Ha). exists (rev b), e, (rev a).
    assert (Hu : undo_stack h = rev b ++ e :: rev a).
    { by rewrite <- (rev_involutive (undo_stack h)), E, rev_app_distr; simpl; rewrite <- app_assoc. }
    split; [done|]. split; [done|]. split; [by apply Forall_rev|].
    replace (0 + length a) with (length (rev a)) by (rewrite length_rev; lia).
    by rewrite (group_trailing_spec h (rev b) e (rev a)).
  - right. split; [|done]. intros pre e suf Hu He Hs. apply Exists_rev.
    apply (H (rev suf) e (rev pre)); [|done|by apply Forall_rev].
    rewrite Hu, rev_app_distr. simpl. by rewrite <- app_assoc.
Qed.

(** ** The invariant of the stacks *)

Definition history_inv (h : History) : Prop := transaction_depth h ≠ 0 → undo_stack h ≠ [].

(** What each call asserts of the depth. *)
Definition allowed (h : History) (c : Call) : bool :=
  match c with
  | CPush _ | CStart _ _ _ | CGroup | CGroupUntil _ | CFinalize | CSetGroupInterval _ => true
  | CEnd _ | CPushUndo _ => bool_decide (transaction_depth h ≠ 0)
  | _ => bool_decide (transaction_depth h = 0)
  end.

(** The operations are a map with entries in the order of timestamps. *)
Definition operations_ok (h : History) : Prop :=
  ∃ l, TreeMapFacts.map_inv (operations h) l.

Lemma push_spec h op :
  operations_ok h → ∃ ops l, TreeMap.insert (operations h) (timestamp op) op = Some ops ∧
  TreeMapFacts.map_wf ops l ∧
  push h op = Some (mkHistory (base_text h) ops (undo_stack h) (redo_stack h) (transaction_depth h) (group_interval h)).
Proof.
  intros [l Hl]. destruct (TreeMapFacts.insert_wf _ l (timestamp op) op Hl) as (m&l'&Hi&Hwf&_).
  exists m, l'. split; [done|]. split; [done|]. unfold push. by rewrite Hi.
Qed.

Lemma removelast_snoc {A} (l : list A) a : removelast (l ++ [a]) = l.
Proof. apply removelast_last. Qed.

Lemma last_cases {A} (l : list A) : l = [] ∨ ∃ k a, l = k ++ [a].
Proof. destruct l using rev_ind; [by left|right; eauto]. Qed.

(** Entries removed by position. *)
Lemma rposition_remove {A} (p : A → bool) l ix :
  rposition p l = Some ix → ∃ a b c, l = a ++ b :: c ∧ ix = length a ∧ p b = true ∧
    Forall (λ x, p x = false) c ∧ remove l ix = Some (a ++ c, b).
Proof.
  intros (a&b&c&->&<-&Hb&Hc)%rposition_Some. exists a, b, c. by rewrite remove_split.
Qed.

Lemma forget_spec h tid :
  forget h tid =
  if bool_decide (transaction_depth h = 0) then
    match rposition (has_id tid) (undo_stack h), rposition (has_id tid) (redo_stack h) with
    | Some ix, _ => Some (with_stacks h (take ix (undo_stack h) ++ drop (S ix) (undo_stack h)) (redo_stack h),
                         transaction <$> undo_stack h !! ix)
    | None, Some ix => Some (with_stacks h (undo_stack h) (take ix (redo_stack h) ++ drop (S ix) (redo_stack h)),
                         transaction <$> redo_stack h !! ix)
    | None, None => Some (h, None)
    end
  else None.
Proof.
  unfold forget. case_bool_decide; [|done]. simpl.
  destruct (rposition (has_id tid) (undo_stack h)) as [ix|] eqn:E.
  - apply rposition_Some in E as (a&b&c&->&<-&_). unfold remove. by rewrite list_lookup_middle.
  - destruct (rposition (has_id tid) (redo_stack h)) as [ix|] eqn:E'; [|done].
    apply rposition_Some in E' as (a&b&c&->&<-&_). unfold remove. by rewrite list_lookup_middle.
Qed.

Lemma step_not_allowed h c : allowed h c = false → step h c = None.
Proof.
  destruct c; simpl; try done; intros Hd%bool_decide_eq_false;
    unfold end_transaction, push_undo, push_transaction, push_empty_transaction, pop_undo, pop_redo,
      remove_from_undo, remove_from_undo_until, remove_from_redo, forget, merge_transactions, forget;
    rewrite ?(bool_decide_eq_false_2 (transaction_depth h ≠ 0)) by tauto;
    by rewrite ?(bool_decide_eq_false_2 (transaction_depth h = 0)) by tauto.
Qed.

Lemma with_stacks_id h : with_stacks h (undo_stack h) (redo_stack h) = h.
Proof. by destruct h. Qed.

Lemma forget_stacks h tid :
  transaction_depth h = 0 → ∃ u r t, forget h tid = Some (with_stacks h u r, t).
Proof.
  intros Hd. rewrite forget_spec, bool_decide_eq_true_2 by done.
  destruct (rposition _ _); [eauto|]. destruct (rposition _ _); [eauto|].
  exists (undo_stack h), (redo_stack h). rewrite with_stacks_id. eauto.
Qed.

Lemma end_transaction_spec h now :
  end_transaction h now =
  match transaction_depth h with
  | 0 => None
  | 1 =>
      match last (undo_stack h) with
      | None => None
      | Some e =>
          if bool_decide (edit_ids (transaction e) = []) then
            Some (with_depth (with_stacks h (removelast (undo_stack h)) (redo_stack h)) 0, None)
          else Some (with_depth (with_stacks h (removelast (undo_stack h) ++ [set_last_edit_at now e]) []) 0,
                     Some (set_last_edit_at now e))
      end
  | S d => Some (with_depth h d, None)
  end.
Proof.
  unfold end_transaction. destruct (transaction_depth h) as [|[|d]]; simpl; [done| |done].
  destruct (last (undo_stack h)) as [e|] eqn:E; simpl; [|done].
  case_bool_decide; [done|]. apply last_snoc_inv in E as [k ->].
  by rewrite set_last_snoc, removelast_snoc.
Qed.

Lemma push_undo_spec h op_id :
  push_undo h op_id =
  match transaction_depth h with
  | 0 => None
  | _ =>
      match TreeMap.get (operations h) op_id with
      | Some (OpEdit _) =>
          match last (undo_stack h) with
          | Some e => Some (with_stacks h (removelast (undo_stack h) ++ [push_edit_ids [op_id] e]) (redo_stack h))
          | None => None
          end
      | _ => Some h
      end
  end.
Proof.
  unfold push_undo. destruct (transaction_depth h); simpl; [done|].
  destruct (TreeMap.get _ _) as [[]|]; [|done..].
  destruct (last (undo_stack h)) as [e|] eqn:E; simpl; [|done].
  apply last_snoc_inv in E as [k ->]. by rewrite set_last_snoc, removelast_snoc.
Qed.

Lemma group_nonempty h h' r : group h = Some (h', r) → undo_stack h ≠ [] →
  undo_stack h' ≠ [] ∧ is_Some r ∧ operations h' = operations h ∧ transaction_depth h' = transaction_depth h.
Proof.
  intros Hg Hne. destruct (group_spec h Hne) as (pre&e&suf&_&_&_&Hg'). simplify_eq. simpl.
  split; [by destruct pre|]. by split; [eauto|].
Qed.

(** The calls between transactions change the stacks only. *)
Definition between_transactions (c : Call) : bool :=
  match c with
  | CPushTransaction _ _ | CPushEmpty _ _ _ | CPopUndo | CPopRedo | CRemoveFromUndo _
  | CRemoveFromUndoUntil _ | CRemoveFromRedo _ | CForget _ | CMerge _ _ => true
  | _ => false
  end.

Ltac assert_depth :=
  rewrite ?bool_decide_eq_true_2 by done; cbn [assert_ mbind option_bind].

Lemma step_between h c :
  transaction_depth h = 0 → between_transactions c = true →
  ∃ u r, step h c = Some (with_stacks h u r).
Proof.
  intros Hd Hc. assert (Hsame : ∃ u r, Some h = Some (with_stacks h u r)).
  { exists (undo_stack h), (redo_stack h). by rewrite with_stacks_id. }
  destruct c; try done; cbn [step].
  - unfold push_transaction. assert_depth. eauto.
  - unfold push_empty_transaction. assert_depth. simpl. eauto.
  - unfold pop_undo. assert_depth. destruct (last _); simpl; eauto.
  - unfold pop_redo. assert_depth. destruct (last _); simpl; eauto.
  - unfold remove_from_undo. assert_depth. destruct (rposition _ _) eqn:E; [|done].
    apply rposition_remove in E as (a&b&c&_&_&_&_&->). simpl. eauto.
  - unfold remove_from_undo_until. assert_depth. destruct (rposition _ _); simpl; eauto.
  - unfold remove_from_redo. assert_depth. destruct (rposition _ _); simpl; eauto.
  - destruct (forget_stacks h tid Hd) as (u&r&t&->). simpl. eauto.
  - unfold merge_transactions. destruct (forget_stacks h t Hd) as (u&r&t'&->). simpl.
    destruct t'; [|by eauto]. unfold transaction_mut. simpl.
    destruct (rposition _ u); [by eauto|]. destruct (rposition _ r); simpl; eauto.
Qed.

Lemma last_open h : history_inv h → transaction_depth h ≠ 0 → is_Some (last (undo_stack h)).
Proof.
  intros Hinv Hd. specialize (Hinv Hd). destruct (last (undo_stack h)) eqn:E; [done|]. by apply last_None in E.
Qed.

(** The other calls but [push] keep a transaction in progress on the stack. *)
Lemma step_open h c :
  history_inv h → allowed h c = true → between_transactions c = false → (∀ op, c ≠ CPush op) →
  ∃ h', step h c = Some h' ∧ history_inv h' ∧ operations h' = operations h.
Proof.
  intros Hinv Ha Hc Hp.
  destruct c; try done; cbn [step allowed] in *; try apply bool_decide_eq_true in Ha; [by destruct (Hp op)|..].
  - eexists. split; [done|]. unfold start_transaction. case_bool_decide as Hd; simpl; (split; [|done]).
    + intros _. simpl. by destruct (undo_stack h).
    + intros _. apply Hinv. simpl in *. lia.
  - rewrite end_transaction_spec. destruct (transaction_depth h) as [|[|d]] eqn:Ed; [done| |].
    + destruct (last_open h Hinv) as [e ->]; [by rewrite Ed|].
      case_bool_decide; simpl; (eexists; split; [done|split; [by intros []|done]]).
    + eexists. split; [done|]. split; [|done]. intros _. simpl. by apply Hinv; rewrite Ed.
  - destruct (decide (undo_stack h = [])) as [E|Hne]; [rewrite (group_empty h E); by exists h|].
    destruct (group_spec h Hne) as (pre&e'&suf&_&_&_&->). eexists. split; [done|].
    split; [|done]. intros _. simpl. by destruct pre.
  - destruct (group_until_spec h tid) as [(pre&e&suf&_&_&_&->)|[_ ->]]; [|by eauto].
    eexists. split; [done|]. split; [|done]. intros _. simpl. by destruct pre.
  - eexists. split; [done|]. unfold finalize_last_transaction. destruct (last _); simpl; [|done].
    split; [|done]. intros _. simpl. by destruct (removelast _).
  - rewrite push_undo_spec. destruct (last_open h Hinv Ha) as [e ->].
    destruct (transaction_depth h) as [|d] eqn:Ed; [done|].
    destruct (TreeMap.get _ _) as [[]|]; [|by eauto..].
    eexists. split; [done|]. split; [|done]. intros _. simpl. by destruct (removelast _).
  - by eexists.
Qed.

Lemma step_allowed h c :
  history_inv h → operations_ok h → allowed h c = true →
  ∃ h', step h c = Some h' ∧ history_inv h' ∧ ∃ l, TreeMapFacts.map_wf (operations h') l.
Proof.
  intros Hinv Hok Ha.
  assert (Hwf : ∃ l, TreeMapFacts.map_wf (operations h) l).
  { destruct Hok as [l Hl]. exists l. by apply TreeMapFacts.map_inv_wf. }
  destruct (between_transactions c) eqn:Ec.
  - assert (Hd : transaction_depth h = 0).
    { destruct c; try done; by apply bool_decide_eq_true in Ha. }
    destruct (step_between h c Hd Ec) as (u&r&->). eexists. split; [done|]. split; [by intros Hd'|done].
  - assert (Hc : (∃ op, c = CPush op) ∨ ∀ op, c ≠ CPush op) by (destruct c; eauto).
    destruct Hc as [[op ->]|Hc].
    + destruct (push_spec h op Hok) as (ops&l&_&Hl&E). cbn [step]. rewrite E. eexists. split; [done|].
      split; [done|by exists l].
    + destruct (step_open h c Hinv Ha Ec Hc) as (h'&->&Hinv'&Eo). exists h'. by rewrite Eo.
Qed.

(** The histories that calls reach, while the operations stay within a
    cursor's stack. *)
Inductive reachable : History → Prop :=
  | reachable_new text : reachable (new text)
  | reachable_step h c h' :
      reachable h → step h c = Some h' → SumTree.height (operations h') < Cursor.STACK_CAPACITY →
      reachable h'.

Lemma reachable_inv h : reachable h → history_inv h ∧ operations_ok h.
Proof.
  induction 1 as [text|h c h' _ [Hinv Hok] Hstep Hh].
  - split; [by intros []|]. exists []. apply TreeMapFacts.map_wf_inv; [apply TreeMapFacts.map_wf_new|].
    simpl. unfold Cursor.STACK_CAPACITY. lia.
  - destruct (allowed h c) eqn:Ha; [|by rewrite step_not_allowed in Hstep].
    destruct (step_allowed h c Hinv Hok Ha) as (h2&E&Hinv2&l&Hl). simplify_eq.
    split; [done|]. exists l. by apply TreeMapFacts.map_wf_inv.
Qed.
