(* ===== verification/HistoryProps.v ===== *)
(** What a history promises: no call panics but by its assertion, a transaction
    collects the edits between its outermost brackets, grouping only moves edits
    between neighbours, undoing and redoing move along one timeline. *)

From stdpp Require Import base numbers option list sets sorting.
From S2P Require Import Prelude Clock Operation History HistoryFacts.
From S2P Require Rope SumTree Cursor TreeMap TreeMapFacts.

#[local] Arguments removelast : simpl never.

(** ** Calls inside a transaction *)

(** The calls a buffer makes while a transaction is open: edits, and brackets
    that are balanced. *)
Inductive body : list Call → Prop :=
  | body_nil : body []
  | body_push op b : body b → body (CPush op :: b)
  | body_push_undo op_id b : body b → body (CPushUndo op_id :: b)
  | body_nested start now clock now' b b' :
      body b → body b' → body (CStart start now clock :: b ++ CEnd now' :: b').

(** What the calls of a body do to the operations, and the edits they push on
    the transaction. *)
Fixpoint effect (ops : TreeMap.TreeMap Lamport Operation) (b : list Call)
    : option (TreeMap.TreeMap Lamport Operation * list Lamport) :=
  match b with
  | [] => Some (ops, [])
  | CPush op :: b => ops ← TreeMap.insert ops (timestamp op) op; effect ops b
  | CPushUndo op_id :: b =>
      '(ops', es) ← effect ops b;
      Some (ops', match TreeMap.get ops op_id with Some (OpEdit _) => op_id :: es | _ => es end)
  | _ :: b => effect ops b
  end.

Lemma effect_app ops b b' :
  effect ops (b ++ b') = '(ops, es) ← effect ops b; '(ops, es') ← effect ops b'; Some (ops, es ++ es').
Proof.
  revert ops. induction b as [|c b IH]; intros ops; simpl.
  { by destruct (effect ops b') as [[]|]. }
  destruct c; simpl; try apply IH.
  - destruct (TreeMap.insert _ _ _); simpl; [apply IH|done].
  - rewrite IH. destruct (effect ops b) as [[ops' es]|]; simpl; [|done].
    destruct (effect ops' b') as [[]|]; simpl; [|done].
    by destruct (TreeMap.get ops op_id) as [[]|].
Qed.

Definition with_operations (h : History) (ops : TreeMap.TreeMap Lamport Operation) : History :=
  mkHistory (base_text h) ops (undo_stack h) (redo_stack h) (transaction_depth h) (group_interval h).

Lemma push_edit_ids_nil e : push_edit_ids [] e = e.
Proof. destruct e as [[i es s] f l b]. unfold push_edit_ids, set_transaction, set_edit_ids. simpl. by rewrite app_nil_r. Qed.

Lemma push_edit_ids_app es es' e : push_edit_ids es' (push_edit_ids es e) = push_edit_ids (es ++ es') e.
Proof. unfold push_edit_ids, set_transaction, set_edit_ids. simpl. by rewrite app_assoc. Qed.

Lemma run_app h b b' : run h (b ++ b') = h' ← run h b; run h' b'.
Proof. apply foldlM_app. Qed.

Lemma run_cons h c b : run h (c :: b) = h' ← step h c; run h' b.
Proof. done. Qed.

(** A body only adds its edits to the transaction in progress. *)
Lemma run_body b ops' es h u e :
  body b → effect (operations h) b = Some (ops', es) →
  transaction_depth h ≠ 0 → undo_stack h = u ++ [e] →
  run h b = Some (with_stacks (with_operations h ops') (u ++ [push_edit_ids es e]) (redo_stack h)).
Proof.
  intros Hb. revert ops' es h u e.
  induction Hb as [|op b _ IH|op_id b _ IH|start now clock now' b b' _ IH _ IH'];
    intros ops' es h u e He Hd Hu; cbn [effect] in He.
  - simplify_eq. simpl. rewrite push_edit_ids_nil, <- Hu. by destruct h.
  - destruct (TreeMap.insert _ _ _) as [ops|] eqn:Ei; [|done]. simpl in He.
    rewrite run_cons. cbn [step]. unfold push. rewrite Ei. cbn [mbind option_bind].
    by apply (IH ops' es (with_operations h ops)).
  - destruct (effect (operations h) b) as [[ops es1]|] eqn:Eb; [|done]. simpl in He. simplify_eq.
    rewrite run_cons. cbn [step]. rewrite push_undo_spec, Hu, last_snoc, removelast_snoc.
    destruct (transaction_depth h) as [|d] eqn:Ed; [done|].
    destruct (TreeMap.get _ _) as [[]|]; cbn [mbind option_bind];
      [|by apply IH; rewrite ?Ed..].
    change (op_id :: es1) with ([op_id] ++ es1). rewrite <- push_edit_ids_app.
    rewrite (IH ops' es1 _ u (push_edit_ids [op_id] e)); [done|done|by simpl; rewrite Ed|done].
  - rewrite effect_app in He. destruct (effect (operations h) b) as [[ops1 es1]|] eqn:E1; [|done].
    simpl in He. destruct (effect ops1 b') as [[ops2 es2]|] eqn:E2; [|done]. simpl in He. simplify_eq.
    rewrite run_cons. cbn [step]. unfold start_transaction. rewrite bool_decide_eq_false_2 by (simpl; lia).
    cbn [mbind option_bind fst].
    rewrite run_app, (IH ops1 es1 _ u e); [|done|simpl; lia|done]. cbn [mbind option_bind].
    rewrite run_cons. cbn [step]. rewrite end_transaction_spec. simpl transaction_depth.
    destruct (transaction_depth h) as [|d] eqn:Ed; [done|]. simpl.
    rewrite Nat.add_1_r. simpl. rewrite <- push_edit_ids_app.
    rewrite (IH' ops' es2 _ u (push_edit_ids es1 e)); [|done|done|done].
    unfold with_stacks, with_operations, with_depth. simpl. by rewrite Ed.
Qed.

(** A transaction is what happens between its outermost brackets: whatever
    nested transactions the calls open and close, in the end the undo stack has
    one more entry, with exactly the edits that were pushed, in order, and the
    redo stack is empty; and when there was no edit both stacks are as before. *)
Theorem transaction_collects_edits h b ops' es start now clock now' :
  transaction_depth h = 0 → body b → effect (operations h) b = Some (ops', es) →
  run h (CStart start now clock :: b ++ [CEnd now']) =
  Some (with_operations
    (if bool_decide (es = []) then h
     else with_stacks h
       (undo_stack h ++ [mkHistoryEntry (mkTransaction clock es start) now now' false]) []) ops').
Proof.
  intros Hd Hb He. rewrite run_cons. cbn [step]. unfold start_transaction. simpl.
  rewrite bool_decide_eq_true_2 by lia. cbn [mbind option_bind fst tick].
  rewrite run_app, (run_body b ops' es _ (undo_stack h) (open_entry (mkTransaction clock [] start) now));
    [|done|done|simpl; lia|done].
  cbn [mbind option_bind]. rewrite run_cons. cbn [step]. rewrite end_transaction_spec. simpl. rewrite Hd. simpl.
  rewrite last_snoc. simpl. case_bool_decide as Ees; simpl; rewrite removelast_snoc.
  - destruct h; simpl in *; by subst.
  - unfold with_operations, with_depth, with_stacks. simpl. by rewrite Hd.
Qed.

(** ** Panics *)

(** C37: A call panics exactly when its assertion on the transaction depth
    fails: after any calls, the last entry of the undo stack is there whenever
    a transaction is open, so no [unwrap], no index and no subtraction of the
    history's methods fails, as long as its operations fit a cursor's stack. *)
Theorem history_panics h :
  reachable h →
  (transaction_depth h ≠ 0 → undo_stack h ≠ []) ∧
  (∀ c, is_Some (step h c) ↔ allowed h c = true) ∧
  (∀ now h' e, end_transaction h now = Some (h', Some e) → ∃ h2 tid, group h' = Some (h2, Some tid)).
Proof.
  intros [Hinv Hok]%reachable_inv. split; [done|]. split.
  - intros c. destruct (allowed h c) eqn:Ha.
    + destruct (step_allowed h c Hinv Hok Ha) as (h'&->&_). by split; [|eauto].
    + rewrite step_not_allowed by done. split; [by intros []|done].
  - intros now h' e. rewrite end_transaction_spec.
    destruct (transaction_depth h) as [|[|d]]; [done| |done].
    destruct (last _); [|done]. case_bool_decide; [done|]. intros [= <- _].
    destruct (group_spec (with_depth (with_stacks h (removelast (undo_stack h) ++ [set_last_edit_at now h0]) []) 0))
      as (pre&e'&suf&_&_&_&->); [by destruct (removelast _)|eauto].
Qed.

(** ** Grouping *)

(** [group] merges the last entry with the longest run of neighbours
    before it that are closer than the interval and not finalized, and
    [group_until] everything after the last entry of the transaction, unless
    there is none or a finalized entry comes after it.  The merged entry keeps
    the identifier, start and first time of the oldest and takes the last time
    of the newest; the stack's edits stay the same, in the same order. *)
Theorem grouping_keeps_edits h tid :
  (undo_stack h ≠ [] → ∃ pre e suf, undo_stack h = pre ++ e :: suf ∧
    chain (group_interval h) (e :: suf) ∧
    (∀ e', last pre = Some e' → ¬ linked (group_interval h) e' e) ∧
    group h = Some (with_stacks h (pre ++ [grouped e suf]) (redo_stack h), Some (transaction_id e)) ∧
    stack_edits (pre ++ [grouped e suf]) = stack_edits (undo_stack h)) ∧
  ((∃ pre e suf, undo_stack h = pre ++ e :: suf ∧ transaction_id e = tid ∧
      Forall (λ x, transaction_id x ≠ tid ∧ suppress_grouping x = false) suf ∧
      group_until h tid = Some (with_stacks h (pre ++ [grouped e suf]) (redo_stack h)) ∧
      stack_edits (pre ++ [grouped e suf]) = stack_edits (undo_stack h)) ∨
   ((∀ pre e suf, undo_stack h = pre ++ e :: suf → transaction_id e = tid →
      Forall (λ x, transaction_id x ≠ tid) suf → Exists (λ x, suppress_grouping x = true) suf) ∧
    group_until h tid = Some h)).
Proof.
  split.
  - intros Hne. destruct (group_spec h Hne) as (pre&e&suf&Hu&Hc&Hb&Hg). exists pre, e, suf.
    rewrite Hu. by rewrite stack_edits_grouped.
  - destruct (group_until_spec h tid) as [(pre&e&suf&Hu&He&Hs&Hg)|?]; [left|by right].
    exists pre, e, suf. rewrite Hu. by rewrite stack_edits_grouped.
Qed.

(** ** Undoing and redoing *)

(** The entries in the order they were made: those done, then those undone. *)
Definition timeline (h : History) : list HistoryEntry := undo_stack h ++ rev (redo_stack h).

Lemma undo_until_spec h tid :
  transaction_depth h = 0 →
  (∃ a e b, undo_stack h = a ++ e :: b ∧ transaction_id e = tid ∧ Forall (λ x, transaction_id x ≠ tid) b ∧
     remove_from_undo_until h tid =
     Some (with_stacks h a (redo_stack h ++ rev (e :: b)), rev (e :: b))) ∨
  (Forall (λ x, transaction_id x ≠ tid) (undo_stack h) ∧ remove_from_undo_until h tid = Some (h, [])).
Proof.
  intros Hd. unfold remove_from_undo_until. assert_depth.
  assert (Hid : ∀ l, Forall (λ x, has_id tid x = false) l → Forall (λ x, transaction_id x ≠ tid) l).
  { intros l Hl. eapply Forall_impl; [exact Hl|]. by intros x ?%bool_decide_eq_false. }
  destruct (rposition (has_id tid) (undo_stack h)) as [ix|] eqn:E.
  - left. apply rposition_Some in E as (a&e&b&Hu&<-&He%bool_decide_eq_true&Hb).
    exists a, e, b. rewrite Hu, take_app_length, drop_app_length. simpl redo_stack.
    rewrite drop_app_length. auto.
  - right. apply rposition_None in E. rewrite drop_all. auto.
Qed.

Lemma redo_until_spec h tid :
  transaction_depth h = 0 →
  (∃ a e b, redo_stack h = a ++ e :: b ∧ transaction_id e = tid ∧ Forall (λ x, transaction_id x ≠ tid) b ∧
     remove_from_redo h tid =
     Some (with_stacks h (undo_stack h ++ rev (e :: b)) a, rev (e :: b))) ∨
  (Forall (λ x, transaction_id x ≠ tid) (redo_stack h) ∧ remove_from_redo h tid = Some (h, [])).
Proof.
  intros Hd. unfold remove_from_redo. assert_depth.
  assert (Hid : ∀ l, Forall (λ x, has_id tid x = false) l → Forall (λ x, transaction_id x ≠ tid) l).
  { intros l Hl. eapply Forall_impl; [exact Hl|]. by intros x ?%bool_decide_eq_false. }
  destruct (rposition (has_id tid) (redo_stack h)) as [ix|] eqn:E.
  - left. apply rposition_Some in E as (a&e&b&Hu&<-&He%bool_decide_eq_true&Hb).
    exists a, e, b. rewrite Hu, take_app_length, drop_app_length. simpl undo_stack.
    rewrite drop_app_length. auto.
  - right. apply rposition_None in E. rewrite drop_all. auto.
Qed.

(** The first entry moved is found again where it was put. *)
Lemma rposition_moved l x r :
  NoDup (map transaction_id (x :: r)) →
  rposition (has_id (transaction_id x)) (l ++ x :: r) = Some (length l).
Proof.
  intros Hnd. apply rposition_split; [by apply bool_decide_eq_true|].
  inversion Hnd as [|? ? Hn _]; subst. apply Forall_forall. intros y Hy.
  apply bool_decide_eq_false. intros E. apply Hn. rewrite <- E. by apply list_elem_of_fmap_2.
Qed.

(** Undoing and redoing, one transaction or up to one, move the boundary
    between the stacks along a timeline that stays the same; they take each
    other back, and the entries they return are those that changed sides, in
    the order in which they are undone or redone. *)
Theorem undo_redo_timeline h tid :
  transaction_depth h = 0 →
  (∃ h' r, pop_undo h = Some (h', r) ∧ timeline h' = timeline h ∧
    r = last (undo_stack h) ∧ (is_Some r → pop_redo h' = Some (h, r))) ∧
  (∃ h' r, pop_redo h = Some (h', r) ∧ timeline h' = timeline h ∧
    r = last (redo_stack h) ∧ (is_Some r → pop_undo h' = Some (h, r))) ∧
  (∃ h' r, remove_from_undo_until h tid = Some (h', r) ∧ timeline h' = timeline h ∧
    redo_stack h' = redo_stack h ++ r ∧
    ∀ e, head r = Some e → NoDup (map transaction_id r) →
      remove_from_redo h' (transaction_id e) = Some (h, rev r)) ∧
  ∃ h' r, remove_from_redo h tid = Some (h', r) ∧ timeline h' = timeline h ∧
    undo_stack h' = undo_stack h ++ r ∧
    ∀ e, head r = Some e → NoDup (map transaction_id r) →
      remove_from_undo_until h' (transaction_id e) = Some (h, rev r).
Proof.
  intros Hd. unfold timeline. split_and!.
  - unfold pop_undo. assert_depth. destruct (last_cases (undo_stack h)) as [E|(u&e&E)]; rewrite E.
    + exists h, None. simpl. rewrite E. split_and!; [done..|by intros []].
    + rewrite last_snoc, removelast_snoc. eexists _, _. split; [done|]. simpl.
      rewrite rev_app_distr. simpl. rewrite <- app_assoc. split; [done|]. split; [done|]. intros _.
      unfold pop_redo. simpl. assert_depth. rewrite last_snoc, removelast_snoc, <- E. by destruct h.
  - unfold pop_redo. assert_depth. destruct (last_cases (redo_stack h)) as [E|(u&e&E)]; rewrite E.
    + exists h, None. simpl. rewrite E. split_and!; [done..|by intros []].
    + rewrite last_snoc, removelast_snoc. eexists _, _. split; [done|]. simpl.
      rewrite rev_app_distr. simpl. rewrite <- app_assoc. split; [done|]. split; [done|]. intros _.
      unfold pop_undo. simpl. assert_depth. rewrite last_snoc, removelast_snoc, <- E. by destruct h.
  - destruct (undo_until_spec h tid Hd) as [(a&e&b&Hu&_&_&->)|[_ ->]]; [|by exists h, []; rewrite app_nil_r].
    assert (Er : rev (rev (e :: b)) = e :: b) by apply rev_involutive.
    revert Er. generalize (rev (e :: b)). intros r Er.
    eexists _, _. split; [done|]. cbn [undo_stack redo_stack with_stacks].
    rewrite rev_app_distr, app_assoc, Er, Hu. split; [done|]. split; [done|].
    intros x Hx Hnd. destruct r as [|x' r]; [done|]. injection Hx as ->.
    unfold remove_from_redo. assert_depth. cbn [undo_stack redo_stack with_stacks].
    rewrite rposition_moved, take_app_length, drop_app_length, Er, <- Hu by done.
    cbn [undo_stack redo_stack with_stacks]. rewrite Hu, drop_app_length, <- Hu. by destruct h.
  - destruct (redo_until_spec h tid Hd) as [(a&e&b&Hu&_&_&->)|[_ ->]]; [|by exists h, []; rewrite app_nil_r].
    assert (Er : rev (rev (e :: b)) = e :: b) by apply rev_involutive.
    revert Er. generalize (rev (e :: b)). intros r Er.
    eexists _, _. split; [done|]. cbn [undo_stack redo_stack with_stacks].
    split; [|split; [done|]].
    { rewrite Hu, <- Er, rev_app_distr, rev_involutive. by rewrite app_assoc. }
    intros x Hx Hnd. destruct r as [|x' r]; [done|]. injection Hx as ->.
    unfold remove_from_undo_until. assert_depth. cbn [undo_stack redo_stack with_stacks].
    rewrite rposition_moved, take_app_length, drop_app_length, Er, <- Hu by done.
    cbn [undo_stack redo_stack with_stacks]. rewrite Hu, drop_app_length, <- Hu. by destruct h.
Qed.

(** ** Forgetting and merging transactions *)

(** All the entries, in the reverse of the order [transaction] looks at them. *)
Definition entries (h : History) : list HistoryEntry := redo_stack h ++ undo_stack h.

Lemma rfind_cons {A} (p : A → bool) x l :
  rfind p (x :: l) = match rfind p l with Some y => Some y | None => if p x then Some x else None end.
Proof.
  rewrite !rfind_rposition. simpl. destruct (rposition p l) as [ix|] eqn:E; [|by destruct (p x)].
  apply rposition_Some in E as (a&y&c&->&<-&_). simpl. by rewrite list_lookup_middle.
Qed.

Lemma rfind_app {A} (p : A → bool) a b :
  rfind p (a ++ b) = match rfind p b with Some x => Some x | None => rfind p a end.
Proof.
  induction a as [|x a IH]; [by simpl; destruct (rfind p b)|]. simpl.
  rewrite !rfind_cons, IH. by destruct (rfind p b).
Qed.

Lemma rfind_singleton {A} (p : A → bool) a : rfind p [a] = if p a then Some a else None.
Proof. unfold rfind. simpl. by destruct (p a). Qed.

Lemma rfind_None {A} (p : A → bool) l : Forall (λ x, p x = false) l → rfind p l = None.
Proof. unfold rfind. by intros ->%rposition_None. Qed.

Lemma get_transaction_entries h tid :
  get_transaction h tid = transaction <$> rfind (has_id tid) (entries h).
Proof. unfold get_transaction, entries. rewrite rfind_app. by destruct (rfind _ (undo_stack h)). Qed.

(** The last entry of a transaction among all of them, and none. *)
Definition last_of (tid : TransactionId) (l a : list HistoryEntry) (e : HistoryEntry) (c : list HistoryEntry) : Prop :=
  l = a ++ e :: c ∧ has_id tid e = true ∧ Forall (λ x, has_id tid x = false) c.

Lemma find_entries h tid :
  (∃ ix a e c, rposition (has_id tid) (undo_stack h) = Some ix ∧ ix = length a ∧ last_of tid (undo_stack h) a e c ∧
     last_of tid (entries h) (redo_stack h ++ a) e c) ∨
  (rposition (has_id tid) (undo_stack h) = None ∧
   ∃ ix a e c, rposition (has_id tid) (redo_stack h) = Some ix ∧ ix = length a ∧ last_of tid (redo_stack h) a e c ∧
     last_of tid (entries h) a e (c ++ undo_stack h)) ∨
  (rposition (has_id tid) (undo_stack h) = None ∧ rposition (has_id tid) (redo_stack h) = None ∧
   Forall (λ x, has_id tid x = false) (entries h)).
Proof.
  unfold entries, last_of. destruct (rposition (has_id tid) (undo_stack h)) as [ix|] eqn:Eu.
  - left. apply rposition_Some in Eu as (a&e&c&->&<-&He&Hc). exists (length a), a, e, c.
    by rewrite <- app_assoc.
  - right. destruct (rposition (has_id tid) (redo_stack h)) as [ix|] eqn:Er; [left|right].
    + split; [done|]. apply rposition_Some in Er as (a&e&c&->&<-&He&Hc). exists (length a), a, e, c.
      rewrite <- app_assoc. split_and!; try done. apply Forall_app. split; [done|by apply rposition_None].
    + split_and!; [done..|]. by apply Forall_app; split; apply rposition_None.
Qed.

Lemma forget_entries h tid :
  transaction_depth h = 0 →
  (∃ a e c u r, last_of tid (entries h) a e c ∧ r ++ u = a ++ c ∧
     forget h tid = Some (with_stacks h u r, Some (transaction e))) ∨
  (Forall (λ x, has_id tid x = false) (entries h) ∧ forget h tid = Some (h, None)).
Proof.
  intros Hd. unfold forget. assert_depth.
  destruct (find_entries h tid) as [(ix&a&e&c&->&->&(Hl&_)&He)|[(->&ix&a&e&c&->&->&(Hl&_)&He)|(->&->&Hn)]].
  - left. rewrite Hl, remove_split. exists (redo_stack h ++ a), e, c. simpl. eexists _, _.
    split; [done|]. split; [|done]. by rewrite app_assoc.
  - left. rewrite Hl, remove_split. exists a, e, (c ++ undo_stack h). simpl. eexists _, _.
    split; [done|]. split; [|done]. by rewrite <- app_assoc.
  - by right.
Qed.

Lemma alter_middle {A} (f : A → A) a x c : alter f (length a) (a ++ x :: c) = a ++ f x :: c.
Proof. induction a as [|y a IH]; [done|]. simpl. by f_equal. Qed.

Lemma transaction_mut_entries h tid f :
  (∃ a e c u r, last_of tid (entries h) a e c ∧
     r ++ u = a ++ set_transaction (f (transaction e)) e :: c ∧
     transaction_mut h tid f = Some (with_stacks h u r)) ∨
  (Forall (λ x, has_id tid x = false) (entries h) ∧ transaction_mut h tid f = None).
Proof.
  unfold transaction_mut.
  destruct (find_entries h tid) as [(ix&a&e&c&->&->&(Hl&_)&He)|[(->&ix&a&e&c&->&->&(Hl&_)&He)|(->&->&Hn)]].
  - left. exists (redo_stack h ++ a), e, c. eexists _, _. split; [done|]. split; [|done].
    by rewrite Hl, alter_middle, app_assoc.
  - left. exists a, e, (c ++ undo_stack h). eexists _, _. split; [done|]. split; [|done].
    by rewrite Hl, alter_middle, <- app_assoc.
  - by right.
Qed.

(** With distinct identifiers, what the last entry of a transaction is after
    it has been removed or replaced. *)
Lemma rfind_others tid l a e c o mid :
  last_of tid l a e c → NoDup (map transaction_id l) →
  Forall (λ x, has_id tid x = true) mid →
  rfind (has_id o) (a ++ mid ++ c) =
  if bool_decide (o = tid) then rfind (has_id o) mid else rfind (has_id o) l.
Proof.
  intros (->&He&Hc) Hnd Hmid. rewrite map_app in Hnd. simpl in Hnd.
  apply NoDup_app in Hnd as (_&Ha&Hnd). inversion Hnd as [|? ? Hn _]; subst.
  apply bool_decide_eq_true in He as Eid.
  case_bool_decide as Eo.
  - subst o. rewrite !rfind_app, (rfind_None _ c Hc). rewrite (rfind_None _ a); [by destruct (rfind _ mid)|].
    apply Forall_forall. intros x Hx. apply bool_decide_eq_false. intros Ex.
    apply (Ha (transaction_id x)); [by apply list_elem_of_fmap_2|]. rewrite Ex, <- Eid. by left.
  - rewrite (cons_middle e a c), !rfind_app. rewrite (rfind_None _ mid), (rfind_None _ [e]); [done|..].
    + apply Forall_singleton, bool_decide_eq_false. congruence.
    + eapply Forall_impl; [exact Hmid|]. intros x Hx%bool_decide_eq_true. apply bool_decide_eq_false. congruence.
Qed.

(** The entries of a transaction replaced by [mid], seen from [transaction]. *)
Lemma get_replaced h tid a e c u r mid o :
  last_of tid (entries h) a e c → r ++ u = a ++ mid ++ c →
  NoDup (map transaction_id (entries h)) → Forall (λ x, has_id tid x = true) mid →
  get_transaction (with_stacks h u r) o =
  if bool_decide (o = tid) then transaction <$> rfind (has_id o) mid else get_transaction h o.
Proof.
  intros Hl E Hnd Hmid. rewrite !get_transaction_entries. unfold entries at 1. simpl. rewrite E.
  rewrite (rfind_others tid _ a e c o mid Hl Hnd Hmid). by case_bool_decide.
Qed.

Lemma last_of_get h tid a e c :
  last_of tid (entries h) a e c → get_transaction h tid = Some (transaction e).
Proof.
  intros (El&He&Hc). rewrite get_transaction_entries, El, rfind_app, rfind_cons, (rfind_None _ c Hc), He. done.
Qed.

Lemma get_none h tid : Forall (λ x, has_id tid x = false) (entries h) → get_transaction h tid = None.
Proof. intros Hn. by rewrite get_transaction_entries, rfind_None. Qed.

Lemma forget_get h tid :
  transaction_depth h = 0 → NoDup (map transaction_id (entries h)) →
  ∃ u r, forget h tid = Some (with_stacks h u r, get_transaction h tid) ∧
    NoDup (map transaction_id (r ++ u)) ∧
    ∀ o, get_transaction (with_stacks h u r) o = if bool_decide (o = tid) then None else get_transaction h o.
Proof.
  intros Hd Hnd. destruct (forget_entries h tid Hd) as [(a&e&c&u&r&Hl&E&->)|[Hn ->]].
  - exists u, r. rewrite (last_of_get h tid a e c Hl). split; [done|]. split.
    + destruct Hl as (El&_). rewrite E. rewrite El in Hnd. revert Hnd. rewrite !map_app. simpl.
      rewrite !NoDup_app. intros (?&Hx&Hc). inversion Hc; subst. split_and!; [done| |done].
      intros x Hxa Hxc. apply (Hx x Hxa). by right.
    + intros o. rewrite (get_replaced h tid a e c u r [] o Hl E Hnd) by constructor. by case_bool_decide.
  - exists (undo_stack h), (redo_stack h). rewrite with_stacks_id, (get_none _ _ Hn). split; [done|].
    split; [done|]. intros o. case_bool_decide; [|done]. subst. by apply get_none.
Qed.

(** With distinct identifiers, [forget] removes one transaction from
    wherever it is and returns it, [transaction] finds every other one as
    before, and [merge_transactions] moves the edits of a transaction to the
    end of the destination's; when the destination is not there, or is the
    transaction itself, the transaction is dropped all the same. *)
Theorem merging_moves_edits h t destination :
  transaction_depth h = 0 → NoDup (map transaction_id (entries h)) →
  (∃ h', forget h t = Some (h', get_transaction h t) ∧
     ∀ o, get_transaction h' o = if bool_decide (o = t) then None else get_transaction h o) ∧
  (get_transaction h t = None → merge_transactions h t destination = Some h) ∧
  (∀ tx, get_transaction h t = Some tx →
     ∃ h', merge_transactions h t destination = Some h' ∧
     ∀ o, get_transaction h' o =
       if bool_decide (o = t) then None
       else if bool_decide (o = destination) then (λ d, merge_in d tx) <$> get_transaction h o
       else get_transaction h o).
Proof.
  intros Hd Hnd. destruct (forget_get h t Hd Hnd) as (u&r&Ef&Hnd'&Hget).
  split; [by exists (with_stacks h u r)|]. split.
  - intros En. unfold merge_transactions.
    destruct (forget_entries h t Hd) as [(a&e&c&?&?&Hl&_&_)|[_ ->]]; [|done].
    by rewrite (last_of_get h t a e c Hl) in En.
  - intros tx Et. unfold merge_transactions. rewrite Ef, Et. simpl.
    set (f := λ d, set_edit_ids (edit_ids d ++ edit_ids tx) d).
    destruct (transaction_mut_entries (with_stacks h u r) destination f) as [(a&e&c&u'&r'&Hl&E&->)|[Hn ->]]; simpl.
    + eexists. split; [done|]. intros o.
      rewrite (get_replaced (with_stacks h u r) destination a e c u' r'
        [set_transaction (f (transaction e)) e] o Hl E Hnd') by (apply Forall_singleton; apply Hl).
      pose proof (last_of_get _ _ _ _ _ Hl) as Hdest. rewrite !Hget in *.
      destruct (decide (o = destination)) as [->|Ho].
      * rewrite (bool_decide_eq_true_2 (destination = destination)) by done.
        case_bool_decide; [done|]. rewrite Hdest, rfind_singleton.
        destruct Hl as (_&He&_). change (has_id destination (set_transaction (f (transaction e)) e)) with (has_id destination e).
        by rewrite He.
      * by rewrite (bool_decide_eq_false_2 (o = destination)).
    + eexists. split; [done|]. intros o. rewrite Hget. case_bool_decide as Eo; [done|].
      case_bool_decide as Eo'; [|done]. subst o. apply get_none in Hn. rewrite Hget in Hn.
      rewrite bool_decide_eq_false_2 in Hn by done. by rewrite Hn.
Qed.

(** ** The properties on a short session *)

Definition sample_edit (v : N) : EditOperation :=
  mkEditOperation (mkLamport v 0) Global_new [(MkFullOffset 0, MkFullOffset 0)] [[97%Z]].

(** An edit inside a nested transaction, another one after it. *)
Definition sample_calls : list Call :=
  CStart Global_new 10 (mkLamport 2 0)
  :: [CPush (OpEdit (sample_edit 2)); CPushUndo (mkLamport 2 0)]
  ++ CEnd 11 :: [CPush (OpEdit (sample_edit 3)); CPushUndo (mkLamport 3 0); CPushUndo (mkLamport 9 0)].

Definition sample_session : list Call := CStart Global_new 5 (mkLamport 1 0) :: sample_calls ++ [CEnd 20].

Definition sample_history : History := default (new Rope.Rope_new) (run (new Rope.Rope_new) sample_session).

Lemma transaction_collects_edits_witness :
  body sample_calls ∧
  run (new Rope.Rope_new) sample_session = Some sample_history ∧
  undo_stack sample_history =
  [mkHistoryEntry (mkTransaction (mkLamport 1 0) [mkLamport 2 0; mkLamport 3 0] Global_new) 5 20 false].
Proof.
  assert (Hb : body sample_calls) by by repeat constructor.
  split; [done|]. destruct (effect (operations (new Rope.Rope_new)) sample_calls) as [[ops' es]|] eqn:E;
    [|by vm_compute in E].
  pose proof (transaction_collects_edits (new Rope.Rope_new) sample_calls ops' es Global_new 5 (mkLamport 1 0) 20
    eq_refl Hb E) as H.
  assert (es = [mkLamport 2 0; mkLamport 3 0]) as -> by (vm_compute in E; congruence).
  unfold sample_history. change (run (new Rope.Rope_new) sample_session) with
    (run (new Rope.Rope_new) (CStart Global_new 5 (mkLamport 1 0) :: sample_calls ++ [CEnd 20])).
  rewrite H. split; reflexivity.
Defined.

Lemma sample_reachable calls h :
  run (new Rope.Rope_new) calls = Some h →
  (∀ n h', run (new Rope.Rope_new) (take n calls) = Some h' → SumTree.height (operations h') < Cursor.STACK_CAPACITY) →
  reachable h.
Proof.
  revert h. induction calls as [|c calls IH] using rev_ind; intros h Hrun Hh.
  { injection Hrun as <-. constructor. }
  rewrite run_app in Hrun. destruct (run (new Rope.Rope_new) calls) as [h1|] eqn:E; [|done].
  apply reachable_step with h1 c; [apply IH; [done|]| |].
  - intros n h' Hn. apply (Hh (n `min` length calls)). rewrite take_app_le by lia.
    rewrite <- Hn. f_equal. destruct (decide (n ≤ length calls)); [by rewrite Nat.min_l|].
    rewrite Nat.min_r, !take_ge by lia. done.
  - cbn [mbind option_bind] in Hrun. rewrite run_cons in Hrun. by destruct (step h1 c).
  - apply (Hh (length calls + 1)). rewrite take_ge by (rewrite length_app; simpl; lia).
    by rewrite run_app, E.
Qed.

Lemma sample_history_reachable : reachable sample_history.
Proof.
  apply sample_reachable with sample_session; [by vm_compute|].
  intros n h'. do 10 (destruct n as [|n]; [vm_compute; intros [= <-]; vm_compute; lia|]).
  vm_compute; intros [= <-]; vm_compute; lia.
Qed.

Lemma history_panics_witness :
  reachable sample_history ∧ step sample_history (CEnd 30) = None ∧ is_Some (step sample_history CPopUndo).
Proof.
  pose proof sample_history_reachable as Hr.
  destruct (history_panics sample_history Hr) as (_&H&_). split; [done|]. split.
  - destruct (step sample_history (CEnd 30)) eqn:E; [|done].
    assert (Hs : is_Some (step sample_history (CEnd 30))) by by rewrite E. apply H in Hs. by vm_compute in Hs.
  - apply H. by vm_compute.
Defined.

Lemma undo_redo_timeline_witness :
  ∃ h, pop_undo sample_history = Some (h, last (undo_stack sample_history)) ∧
    timeline h = timeline sample_history ∧ pop_redo h = Some (sample_history, last (undo_stack sample_history)).
Proof.
  destruct (undo_redo_timeline sample_history (mkLamport 1 0)) as ((h&r&Hp&Ht&->&Hr)&_&_&_); [by vm_compute|].
  exists h. split; [done|]. split; [done|]. apply Hr. vm_compute. by eexists.
Defined.

(** Two transactions, the second one merged into the first. *)
Definition sample_two : History :=
  with_stacks (new Rope.Rope_new)
    [open_entry (mkTransaction (mkLamport 1 0) [mkLamport 2 0] Global_new) 5]
    [open_entry (mkTransaction (mkLamport 4 0) [mkLamport 5 0] Global_new) 7].

Lemma merging_moves_edits_witness :
  ∃ h, merge_transactions sample_two (mkLamport 4 0) (mkLamport 1 0) = Some h ∧
    get_transaction h (mkLamport 1 0) = Some (mkTransaction (mkLamport 1 0) [mkLamport 2 0; mkLamport 5 0] Global_new) ∧
    get_transaction h (mkLamport 4 0) = None.
Proof.
  destruct (merging_moves_edits sample_two (mkLamport 4 0) (mkLamport 1 0)) as (_&_&H);
    [by vm_compute|apply (bool_decide_unpack _); by vm_compute|].
  destruct (H _ eq_refl) as (h&Hm&Hg). exists h. split; [done|]. split; rewrite Hg; reflexivity.
Defined.
