(* ===== verification/RopeTree.v ===== *)
(** The tree of a rope: its chunks hold a text between them, the dimensions of
    a search are the coordinates of the prefixes of the text, and a search
    finds the chunk a coordinate falls in.

    [rope_of h css r] says that the chunks of [r] have the characters [css];
    [Metric] is the interface of the coordinates. *)

From stdpp Require Import base numbers option list.
From S2P Require Import Prelude SumTree SumTreeFacts Search Cursor CursorFacts StepFacts BackFacts Iter CursorApi Utf8 Point Bits Chunk ChunkBits ChunkSummary ChunkFacts Rope TextSummary.

#[local] Open Scope nat_scope.

(** ** The text of a rope *)

Definition chunk_for (cs : list Z) (c : Chunk) : Prop :=
  cs ≠ [] ∧ Forall char_ok cs ∧ chunk_of (bytes_of cs) c.

Definition rope_of (h : nat) (css : list (list Z)) (r : Rope) : Prop :=
  wf () h (chunks r) ∧ Forall2 chunk_for css (elements (chunks r)).

(** A rope of the text [cs], whose positions fit in 32 bits. *)
Definition small (cs : list Z) : Prop := (N.of_nat (length (bytes_of cs)) < 2 ^ 32)%N.

Lemma chunk_for_ok css els : Forall2 chunk_for css els → Forall char_ok (concat css).
Proof. induction 1 as [|cs c css els (_&Hc&_) _ IH]; [constructor|]. cbn. by apply Forall_app. Qed.

Lemma chunk_for_summary cs c : chunk_for cs c → item_summary_of c () = MkChunkSummary (from_str cs).
Proof.
  intros (_&Hcs&Hc). unfold item_summary_of, Chunk_Item. f_equal. by apply text_summary_of.
Qed.

Lemma bytes_of_concat css : bytes_of (concat css) = concat (map bytes_of css).
Proof. induction css as [|cs css IH]; [done|]. cbn [concat map]. by rewrite bytes_of_app, IH. Qed.

Lemma small_app_l a b : small (a ++ b) → small a.
Proof. unfold small. rewrite bytes_of_app, length_app. lia. Qed.
Lemma small_app_r a b : small (a ++ b) → small b.
Proof. unfold small. rewrite bytes_of_app, length_app. lia. Qed.

(** ** Bounds of the coordinates *)

Lemma summary_bounds cs :
  Forall char_ok cs →
  (row (lines (from_str cs)) ≤ N.of_nat (length (bytes_of cs)) ∧
   column (lines (from_str cs)) ≤ N.of_nat (length (bytes_of cs)) ∧
   offset16 (len_utf16 (from_str cs)) ≤ N.of_nat (length (bytes_of cs)) ∧
   last_line_len_utf16 (from_str cs) ≤ N.of_nat (length (bytes_of cs)))%N.
Proof.
  intros Hcs. rewrite lines_from_str, last_line_from_str, <- units_from_str, extent_bits by done.
  cbn [row column]. pose proof (ones_length (newline_bits (bytes_of cs))) as H1.
  pose proof (ones_length (unit_bits (bytes_of cs))) as H2.
  pose proof (ones_length (drop (last_end (newline_bits (bytes_of cs))) (unit_bits (bytes_of cs)))) as H3.
  rewrite length_drop in H3. rewrite length_newline_bits in H1. rewrite length_unit_bits in H2, H3. lia.
Qed.

(** ** Coordinates as metrics of texts *)

Class Metric (D : Type) := metric : TextSummary → D.
#[export] Hint Mode Metric ! : typeclass_instances.
Class MetricOk (D : Type) := metric_ok : D → Prop.
#[export] Hint Mode MetricOk ! : typeclass_instances.

Class MetricLaws (D : Type) `{!Dimension D ChunkSummary (), !Metric D} : Prop := {
  metric_zero : dim_zero () = metric TextSummary_default :> D;
  metric_add s t : dim_add_summary (metric s) (MkChunkSummary t) () = metric (TextSummary_add s t) :> D
}.

(** The order of a coordinate is that of the prefixes of a text. *)
Class OrdMetric (D : Type) `{!Metric D, !MetricOk D, !Ord D} : Prop := {
  metric_text_ok cs : Forall char_ok cs → small cs → metric_ok (metric (from_str cs) : D);
  metric_refl (x : D) : cmp x x = Eq;
  metric_antisym (x y : D) : metric_ok x → metric_ok y → cmp y x = CompOpp (cmp x y);
  metric_trans (x y z : D) : metric_ok x → metric_ok y → metric_ok z → cmp x y ≠ Gt → cmp y z = Lt → cmp x z = Lt;
  metric_lt a b : b ≠ [] → Forall char_ok (a ++ b) → small (a ++ b) →
    cmp (metric (from_str a) : D) (metric (from_str (a ++ b))) = Lt
}.

#[export] Instance usize_Metric : Metric nat := TextSummary.len.
#[export] Instance OffsetUtf16_Metric : Metric OffsetUtf16 := TextSummary.len_utf16.
#[export] Instance Point_Metric : Metric Point := TextSummary.lines.
#[export] Instance PointUtf16_Metric : Metric PointUtf16 := lines_utf16.
#[export] Instance prod_Metric {D1 D2} `{Metric D1, Metric D2} : Metric (D1 * D2) := λ s, (metric s, metric s).

#[export] Instance usize_MetricLaws : MetricLaws nat.
Proof. by split. Qed.
#[export] Instance OffsetUtf16_MetricLaws : MetricLaws OffsetUtf16.
Proof. by split. Qed.
#[export] Instance Point_MetricLaws : MetricLaws Point.
Proof. by split. Qed.
#[export] Instance PointUtf16_MetricLaws : MetricLaws PointUtf16.
Proof.
  split; [done|]. intros s t. unfold metric, PointUtf16_Metric. cbn -[N.add N.eqb].
  unfold lines_utf16, PointUtf16_plus, TextSummary_add. cbn [lines last_line_len_utf16 row16 column16].
  rewrite Point_plus_row. destruct (N.eqb_spec (row (lines t)) 0); f_equal; lia.
Qed.
#[export] Instance prod_MetricLaws {D1 D2} `{MetricLaws D1, MetricLaws D2} : MetricLaws (D1 * D2).
Proof.
  split.
  - unfold metric, prod_Metric. cbn. by rewrite !metric_zero.
  - intros s t. unfold metric, prod_Metric. cbn. by rewrite !metric_add.
Qed.

#[export] Instance usize_MetricOk : MetricOk nat := λ _, True.
#[export] Instance OffsetUtf16_MetricOk : MetricOk OffsetUtf16 := λ _, True.
#[export] Instance Point_MetricOk : MetricOk Point := point_ok.
#[export] Instance PointUtf16_MetricOk : MetricOk PointUtf16 := λ p, fits 32 (row16 p) ∧ fits 32 (column16 p).

Lemma len_from_str_pos b : b ≠ [] → Forall char_ok b → 0 < TextSummary.len (from_str b).
Proof.
  intros Hb Hok. destruct Hok as [|c b Hc _]; [done|]. rewrite len_from_str, bytes_of_cons, length_app.
  pose proof (length_encode c Hc). lia.
Qed.

(** A nonempty text moves every coordinate. *)
Lemma advances b :
  b ≠ [] → Forall char_ok b →
  (0 < offset16 (len_utf16 (from_str b)) ∧ (row (lines (from_str b)) = 0 → 0 < column (lines (from_str b)) ∧ 0 < last_line_len_utf16 (from_str b)))%N.
Proof.
  intros Hb Hok. destruct Hok as [|c b Hc Hok]; [done|]. rewrite from_str_cons. unfold TextSummary_add.
  cbn [lines last_line_len_utf16 len_utf16 OffsetUtf16_plus offset16]. rewrite Point_plus_row.
  assert (Hu : (1 ≤ N.of_nat (Utf8.len_utf16 c))%N) by (unfold Utf8.len_utf16; by destruct (c <? _)%Z).
  assert (Hl : (1 ≤ N.of_nat (len_utf8 c))%N) by (unfold len_utf8; by repeat case_match).
  destruct (decide (c = NEWLINE)) as [->|Hne].
  - rewrite char_summary_newline. cbn -[N.add]. split; [lia|]. intros. lia.
  - rewrite char_summary_other by done. cbn -[N.add N.eqb len_utf8 Utf8.len_utf16]. split; [lia|].
    rewrite N.add_0_l. intros Hr. unfold Point_plus. rewrite Hr. cbn -[N.add len_utf8 Utf8.len_utf16]. lia.
Qed.

#[export] Instance usize_OrdMetric : OrdMetric nat.
Proof.
  split; [done|apply cmp_refl|intros; apply cmp_antisym|intros; by eapply cmp_le_lt_trans|].
  intros a b Hb Hok%Forall_app _. unfold metric, usize_Metric. rewrite from_str_app.
  pose proof (len_from_str_pos b Hb (proj2 Hok)). cbn [TextSummary_add TextSummary.len].
  unfold cmp, nat_Ord. apply Nat.compare_lt_iff. lia.
Qed.

#[export] Instance OffsetUtf16_OrdMetric : OrdMetric OffsetUtf16.
Proof.
  split; unfold cmp, OffsetUtf16_Ord; [done| | | |].
  - intros x. apply N.compare_refl.
  - intros x y _ _. apply N.compare_antisym.
  - intros x y z _ _ _. rewrite N.compare_le_iff, !N.compare_lt_iff. lia.
  - intros a b Hb Hok%Forall_app _. unfold metric, OffsetUtf16_Metric. rewrite from_str_app.
    destruct (advances b Hb (proj2 Hok)) as [H _]. apply N.compare_lt_iff.
    unfold TextSummary_add, OffsetUtf16_plus. cbn [len_utf16 offset16]. lia.
Qed.

(** The orders of points, on rows and columns that fit. *)
Lemma then_with_lt r r' c c' :
  then_with (r ?= r')%N (c ?= c')%N = Lt ↔ (r < r' ∨ r = r' ∧ c < c')%N.
Proof. destruct (N.compare_spec r r'); cbn; rewrite ?N.compare_lt_iff; naive_solver lia. Qed.
Lemma then_with_gt r r' c c' :
  then_with (r ?= r')%N (c ?= c')%N = Gt ↔ (r' < r ∨ r = r' ∧ c' < c)%N.
Proof. destruct (N.compare_spec r r'); cbn; rewrite ?N.compare_gt_iff; naive_solver lia. Qed.
Lemma then_with_antisym r r' c c' :
  then_with (r' ?= r)%N (c' ?= c)%N = CompOpp (then_with (r ?= r')%N (c ?= c')%N).
Proof. rewrite (N.compare_antisym r), (N.compare_antisym c). by destruct (r ?= r')%N. Qed.

#[export] Instance Point_OrdMetric : OrdMetric Point.
Proof.
  split.
  - intros cs Hcs Hs. pose proof (summary_bounds cs Hcs) as Hb. unfold small in Hs.
    unfold metric_ok, Point_MetricOk, point_ok, metric, Point_Metric, fits. lia.
  - intros x. apply N.compare_refl.
  - intros x y Hx Hy. rewrite !pack_lex by done. apply then_with_antisym.
  - intros x y z Hx Hy Hz. rewrite !pack_lex by done. unfold point_cmp. rewrite then_with_gt, !then_with_lt. lia.
  - intros a b Hb Hok Hs. pose proof (proj1 (Forall_app _ _ _) Hok) as [Ha Hb'].
    destruct (advances b Hb Hb') as [_ Hadv]. pose proof (summary_bounds a Ha) as Hba. pose proof (summary_bounds _ Hok) as Hbab.
    unfold small in Hs. pose proof (f_equal length (bytes_of_app a b)) as Hl. rewrite length_app in Hl.
    rewrite pack_lex by (unfold point_ok, metric, Point_Metric, fits; lia).
    unfold point_cmp, metric, Point_Metric. rewrite from_str_app. unfold TextSummary_add. cbn [lines].
    rewrite then_with_lt, Point_plus_row. unfold Point_plus. destruct (N.eqb_spec (row (lines (from_str b))) 0); cbn [column]; lia.
Qed.

#[export] Instance PointUtf16_OrdMetric : OrdMetric PointUtf16.
Proof.
  split.
  - intros cs Hcs Hs. pose proof (summary_bounds cs Hcs) as Hb. unfold small in Hs.
    unfold metric_ok, PointUtf16_MetricOk, metric, PointUtf16_Metric, lines_utf16, fits. cbn [row16 column16]. lia.
  - intros x. apply N.compare_refl.
  - intros x y [??] [??]. unfold cmp, PointUtf16_Ord. rewrite !pack_lex_N by done. apply then_with_antisym.
  - intros x y z [??] [??] [??]. unfold cmp, PointUtf16_Ord. rewrite !pack_lex_N by done.
    rewrite then_with_gt, !then_with_lt. lia.
  - intros a b Hb Hok Hs. pose proof (proj1 (Forall_app _ _ _) Hok) as [Ha Hb'].
    destruct (advances b Hb Hb') as [_ Hadv]. pose proof (summary_bounds a Ha) as Hba. pose proof (summary_bounds _ Hok) as Hbab.
    unfold small in Hs. pose proof (f_equal length (bytes_of_app a b)) as Hl. rewrite length_app in Hl.
    unfold cmp, PointUtf16_Ord, metric, PointUtf16_Metric, lines_utf16 in *. cbn [row16 column16] in *.
    rewrite pack_lex_N by (unfold fits; lia). rewrite from_str_app. unfold TextSummary_add. cbn [lines last_line_len_utf16].
    rewrite then_with_lt, Point_plus_row. destruct (N.eqb_spec (row (lines (from_str b))) 0); lia.
Qed.

#[export] Instance prod_DimensionLaws {D1 D2 S Cx}
    `{Summary S Cx, !SummaryOk S Cx, !Dimension D1 S Cx, !Dimension D2 S Cx, !DimensionLaws D1 S Cx, !DimensionLaws D2 S Cx} :
  DimensionLaws (D1 * D2) S Cx.
Proof. intros cx [d1 d2] a b Ha Hb. cbn. by rewrite !dim_add_add. Qed.

(** ** Totals *)

Section metrics.
Context {D : Type} `{MetricLaws D}.

Lemma chunks_dsum p css els :
  Forall2 chunk_for css els →
  dsum () (metric (from_str p) : D) els = metric (from_str (p ++ concat css)).
Proof.
  intros Hf. revert p. induction Hf as [|cs c css els Hc _ IH]; intros p; cbn [dsum foldl concat].
  - by rewrite app_nil_r.
  - unfold dsum in IH. rewrite (chunk_for_summary cs c Hc), metric_add, <- from_str_app, IH.
    by rewrite <- app_assoc.
Qed.

(** The cut of a search, on the characters. *)
Lemma seek_split_chunks (P : D → bool) p css els :
  Forall2 chunk_for css els →
  ∃ css1 css2 els1 els2, css = css1 ++ css2 ∧ els = els1 ++ els2 ∧
    Forall2 chunk_for css1 els1 ∧ Forall2 chunk_for css2 els2 ∧
    seek_split P () (metric (from_str p)) els = (els1, els2) ∧
    (css1 ≠ [] → P (metric (from_str (p ++ concat css1))) = false) ∧
    (∀ cs rest, css2 = cs :: rest → P (metric (from_str (p ++ concat css1 ++ cs))) = true).
Proof.
  intros Hf. revert p. induction Hf as [|cs c css els Hc Hf IH]; intros p; cbn [seek_split].
  { exists [], [], [], []. split_and!; done. }
  rewrite (chunk_for_summary cs c Hc), metric_add, <- from_str_app.
  destruct (P (metric (from_str (p ++ cs)))) eqn:E.
  - exists [], (cs :: css), [], (c :: els). split_and!; try done; [by constructor|].
    intros cs' rest [= <- _]. done.
  - destruct (IH (p ++ cs)) as (css1&css2&els1&els2&->&->&H1&H2&->&H3&H4).
    exists (cs :: css1), css2, (c :: els1), els2. split_and!; try done; [by constructor| |].
    + intros _. cbn [concat]. destruct css1 as [|cs1 css1]; [by rewrite app_nil_r|].
      rewrite app_assoc. by apply H3.
    + intros cs' rest E'. cbn [concat]. rewrite <- (H4 _ _ E'). by rewrite <- !app_assoc.
Qed.
End metrics.

Lemma rope_summary h css r : rope_of h css r → Rope.summary r = from_str (concat css).
Proof.
  intros [Hwf Hf]. unfold Rope.summary. rewrite (wf_summary _ _ _ Hwf).
  destruct (elements (chunks r)) as [|c els] eqn:E.
  { apply Forall2_nil_inv_r in Hf as ->. done. }
  pose proof (dsum_isum (D:=TextSummary) () TextSummary_default (c :: els) ltac:(done)) as Hd.
  assert (Hsum : dsum () TextSummary_default (c :: els) = from_str (concat css)).
  { clear -Hf. rewrite <- (app_nil_l (concat css)). change TextSummary_default with (from_str []).
    generalize ([] : list Z). induction Hf as [|cs c' css els' Hc _ IH]; intros p; cbn [dsum foldl concat].
    - by rewrite app_nil_r.
    - unfold dsum in IH. rewrite (chunk_for_summary cs c' Hc). cbn [dim_add_summary TextSummary_Dimension TextSummary.text].
      rewrite <- from_str_app, IH. by rewrite <- app_assoc. }
  rewrite Hsum in Hd. cbn [dim_add_summary TextSummary_Dimension] in Hd.
  rewrite text_summary_add_0_l in Hd; [done|]. exact (isum_ok (SummaryOk0:=ChunkSummary_SummaryOk) () (c :: els)).
Qed.

Lemma rope_nonempty h css r : rope_of h css r → elements (chunks r) = [] ↔ concat css = [].
Proof.
  intros [_ Hf]. split.
  - intros E. rewrite E in Hf. by apply Forall2_nil_inv_r in Hf as ->.
  - intros E. destruct Hf as [|cs c css els (Hne&_&_) _]; [done|]. by apply app_nil in E as [? _].
Qed.

Lemma rope_len h css r : rope_of h css r → Rope.len r = length (bytes_of (concat css)).
Proof.
  intros Hr. unfold Rope.len, SumTree.extent. pose proof (rope_summary _ _ _ Hr) as E. unfold Rope.summary in E.
  cbn [dim_add_summary usize_Dimension dim_zero]. by rewrite E.
Qed.

(** ** Searching *)

Section search.
Context {D1 D : Type} `{MetricLaws D, !Metric D1, !MetricOk D1, !Ord D1, !OrdMetric D1,
  !SeekTarget D1 D (), !DimensionLaws D ChunkSummary ()}.
Hypothesis target_metric : ∀ (t : D1) s, target_cmp t (metric s : D) () = cmp t (metric s : D1).

Lemma stops_longer (t : D1) bias a b :
  metric_ok t → Forall char_ok (a ++ b) → small (a ++ b) →
  stops () t bias (metric (from_str a) : D) = true → stops () t bias (metric (from_str (a ++ b)) : D) = true.
Proof.
  intros Ht Hok Hs. destruct b as [|x b]; [by rewrite app_nil_r|]. unfold stops. rewrite !target_metric.
  pose proof (proj1 (Forall_app _ _ _) Hok) as [Ha _].
  destruct (cmp t (metric (from_str a) : D1)) eqn:E; intros Hst; try done.
  1,2: rewrite (metric_trans t (metric (from_str a)) (metric (from_str (a ++ x :: b)))); [done|done| | | |].
  all: try by apply metric_text_ok. all: try by apply metric_text_ok; [|by apply small_app_l in Hs].
  all: try by rewrite E. all: by apply metric_lt.
Qed.

Lemma search_mono (t : D1) bias css els :
  metric_ok t → small (concat css) → Forall2 chunk_for css els →
  seek_mono (stops () t bias) () (dim_zero () : D) els.
Proof.
  intros Ht Hs Hf l1 l2 l3 -> _. apply Forall2_app_inv_r in Hf as (css1&k&Hf1&Hf&->).
  apply Forall2_app_inv_r in Hf as (css2&css3&Hf2&Hf3&->).
  change (dim_zero ()) with (dim_zero () : D). rewrite metric_zero. change TextSummary_default with (from_str []).
  rewrite (chunks_dsum [] css1), (chunks_dsum [] (css1 ++ css2)); [|by apply Forall2_app|done].
  cbn [app]. rewrite concat_app. rewrite !concat_app in Hs. rewrite app_assoc in Hs. apply small_app_l in Hs.
  apply stops_longer; [done| |done]. rewrite <- concat_app. by eapply chunk_for_ok, Forall2_app.
Qed.

(** What [find] returns: the coordinates before the chunk it stops at. *)
Lemma rope_find (t : D1) bias h css r :
  rope_of h css r → metric_ok t → small (concat css) →
  ∃ css1 css2 els1 els2, css = css1 ++ css2 ∧ elements (chunks r) = els1 ++ els2 ∧
    Forall2 chunk_for css1 els1 ∧ Forall2 chunk_for css2 els2 ∧
    (find (D:=D) (chunks r) () t bias).1.1 = metric (from_str (concat css1)) ∧
    (find (D:=D) (chunks r) () t bias).2 = head els2 ∧
    (css1 ≠ [] → target_in_child (cmp t (metric (from_str (concat css1)) : D1)) bias = false) ∧
    (∀ cs rest, css2 = cs :: rest → target_in_child (cmp t (metric (from_str (concat css1 ++ cs)) : D1)) bias = true).
Proof.
  intros [Hwf Hf] Ht Hs. pose proof (search_mono t bias _ _ Ht Hs Hf) as Hm.
  destruct (decide (elements (chunks r) = [])) as [E|E].
  { exists [], [], [], []. rewrite E in *. apply Forall2_nil_inv_r in Hf as ->.
    pose proof (find_generic_empty false () t bias h (chunks r) Hwf E) as Hnone.
    split_and!; try done. unfold find, find_generic. rewrite (wf_summary _ _ _ Hwf), E.
    assert (Ez : with_added_summary (dim_zero () : D) (isum () ([] : list Chunk)) () = metric (from_str [])).
    { unfold with_added_summary. rewrite metric_zero. change (isum () []) with (MkChunkSummary TextSummary_default).
      by rewrite metric_add. }
    rewrite Ez. cbn [concat]. case_match; [done|].
    destruct (wf_not_nonempty () h (chunks r) Hwf) as [s Es]; [intros Hne; by apply (wf_nonempty_elements () h) in Hne|].
    rewrite Es. cbn. by rewrite metric_zero. }
  pose proof (find_spec () t bias h (chunks r) Hwf E Hm) as Hfind.
  destruct (seek_split_chunks (stops () t bias : D → bool) [] css _ Hf) as (css1&css2&els1&els2&Ec&Ee&H1&H2&Hsplit&H3&H4).
  exists css1, css2, els1, els2.
  assert (Ez : (dim_zero () : D) = metric (from_str [])) by by rewrite metric_zero.
  rewrite Ez, Hsplit in Hfind. destruct Hfind as [-> _]. cbn [fst snd].
  split_and!; try done.
  - rewrite (chunks_dsum [] css1) by done. done.
  - intros Hne. rewrite <- (target_metric t). by apply H3.
  - intros cs rest Er. rewrite <- (target_metric t). by apply (H4 cs rest).
Qed.
End search.

(** The same for a cursor that seeks. *)
Section seek.
Context {D1 D : Type} `{MetricLaws D, !Metric D1, !MetricOk D1, !Ord D1, !OrdMetric D1,
  !SeekTarget D1 D (), !DimensionLaws D ChunkSummary ()}.
Hypothesis target_metric : ∀ (t : D1) s, target_cmp t (metric s : D) () = cmp t (metric s : D1).

Lemma rope_seek (t : D1) bias h css r :
  rope_of h css r → h < STACK_CAPACITY → metric_ok t → small (concat css) →
  cmp t (metric TextSummary_default : D1) ≠ Lt →
  ∃ c' f css1 css2 els1 els2, css = css1 ++ css2 ∧
    Forall2 chunk_for css1 els1 ∧ Forall2 chunk_for css2 els2 ∧
    Cursor.seek (cursor_new (D:=D) (chunks r) ()) t bias = Some (c', f) ∧
    same_tree (cursor_new (D:=D) (chunks r) ()) c' ∧ cursor_at c' els1 els2 ∧
    start c' = metric (from_str (concat css1)) ∧ item c' = Some (head els2) ∧
    (css1 ≠ [] → target_in_child (cmp t (metric (from_str (concat css1)) : D1)) bias = false) ∧
    (∀ cs rest, css2 = cs :: rest → target_in_child (cmp t (metric (from_str (concat css1 ++ cs)) : D1)) bias = true).
Proof.
  intros Hr Hh Ht Hs Hge. pose proof Hr as [Hwf Hf].
  pose proof (search_mono target_metric t bias _ _ Ht Hs Hf) as Hm.
  destruct (seek_split_chunks (stops () t bias : D → bool) [] css _ Hf) as (css1&css2&els1&els2&Ec&Ee&H1&H2&Hsplit&H3&H4).
  change (from_str []) with TextSummary_default in Hsplit. rewrite <- metric_zero in Hsplit.
  pose proof (cursor_at_new (D:=D) (chunks r) () h Hwf Hh) as Hc.
  destruct (seek_spec (cursor_new (D:=D) (chunks r) ()) t bias [] (elements (chunks r)) els1 els2) as (c'&E&Htree&Hat).
  { done. }
  { split; [|exact (seek_good_mono _ _ _ _ Hm)]. cbn. change (dim_zero ()) with (dim_zero () : D). by rewrite metric_zero, target_metric. }
  { exact Hsplit. }
  exists c', (found (reset (cursor_new (D:=D) (chunks r) ())) t bias els1 els2), css1, css2, els1, els2.
  split_and!; try done.
  - destruct Hat as (h'&_&_&Hp&_). unfold start. rewrite Hp. destruct Htree as (_&->&_). cbn.
    change (dim_zero ()) with (dim_zero () : D). rewrite metric_zero. change TextSummary_default with (from_str []).
    by rewrite (chunks_dsum [] css1).
  - eapply item_at; [done|apply Htree].
  - intros Hne. rewrite <- (target_metric t). by apply H3.
  - intros cs rest Er. rewrite <- (target_metric t). by apply (H4 cs rest).
Qed.
End seek.

Lemma metric_target_fst {D1 D2 : Type} `{!Metric D1, !Metric D2, !Ord D1} (t : D1) s :
  target_cmp t (metric s : D1 * D2) () = cmp t (metric s : D1).
Proof. done. Qed.

Lemma metric_target_self {D : Type} `{!Metric D, !Ord D} (t : D) s :
  target_cmp t (metric s : D) () = cmp t (metric s : D).
Proof. done. Qed.

(** The rope [r] has the text [cs]. *)
Definition rope_text (cs : list Z) (r : Rope) : Prop := ∃ h css, rope_of h css r ∧ concat css = cs.

(** The same, for a tree no higher than [h]. *)
Definition rope_in (h : nat) (cs : list Z) (r : Rope) : Prop := ∃ h' css, rope_of h' css r ∧ concat css = cs ∧ h' ≤ h.

Lemma rope_in_text h cs r : rope_in h cs r → rope_text cs r.
Proof. intros (h'&css&Hr&E&_). by exists h', css. Qed.

Lemma rope_in_le h h' cs r : rope_in h cs r → h ≤ h' → rope_in h' cs r.
Proof. intros (h0&css&Hr&E&Hh) Hle. exists h0, css. split_and!; [done|done|lia]. Qed.

Lemma rope_text_in cs r : rope_text cs r → rope_in (height (chunks r)) cs r.
Proof. intros (h&css&Hr&E). exists h, css. pose proof (wf_height _ _ _ (proj1 Hr)). split_and!; [done|done|lia]. Qed.

Lemma rope_text_ok cs r : rope_text cs r → Forall char_ok cs.
Proof. intros (h&css&[_ Hf]&<-). by eapply chunk_for_ok. Qed.

Lemma rope_of_new : rope_of 0 [] Rope_new.
Proof. split; [apply wf_new|constructor]. Qed.
