(* ===== verification/RopePlace.v ===== *)
(** A place in the text of a rope: every conversion of the rope takes one
    coordinate of the place to another, through the chunk a search finds. *)

From stdpp Require Import base numbers option list.
From S2P Require Import Prelude SumTree SumTreeFacts Search Cursor CursorFacts StepFacts BackFacts Iter CursorApi Utf8 Point Bits Chunk ChunkBits ChunkSummary ChunkFacts Rope TextSummary RopeTree.

#[local] Open Scope nat_scope.

(** ** Sums and differences of coordinates *)

Lemma len_app a b : len (from_str (a ++ b)) = len (from_str a) + len (from_str b).
Proof. by rewrite from_str_app. Qed.

Lemma lines_app a b : lines (from_str (a ++ b)) = Point_plus (lines (from_str a)) (lines (from_str b)).
Proof. by rewrite from_str_app. Qed.

Lemma len_utf16_app a b : len_utf16 (from_str (a ++ b)) = OffsetUtf16_plus (len_utf16 (from_str a)) (len_utf16 (from_str b)).
Proof. by rewrite from_str_app. Qed.

Lemma lines_utf16_app a b : lines_utf16 (from_str (a ++ b)) = PointUtf16_plus (lines_utf16 (from_str a)) (lines_utf16 (from_str b)).
Proof.
  rewrite from_str_app. unfold lines_utf16, PointUtf16_plus, TextSummary_add. cbn [lines last_line_len_utf16 row16 column16].
  rewrite Point_plus_row. destruct (N.eqb_spec (row (lines (from_str b))) 0); f_equal; lia.
Qed.

Section sums.
Context (a b : list Z) (Hok : Forall char_ok (a ++ b)) (Hs : small (a ++ b)).

Lemma sum_fits :
  (fits 32 (row (lines (from_str a)) + row (lines (from_str b))) ∧
   fits 32 (column (lines (from_str a)) + column (lines (from_str b))) ∧
   fits 64 (offset16 (len_utf16 (from_str a)) + offset16 (len_utf16 (from_str b))) ∧
   fits 32 (last_line_len_utf16 (from_str a) + last_line_len_utf16 (from_str b)))%N.
Proof.
  apply Forall_app in Hok as [Ha Hb]. pose proof (summary_bounds a Ha). pose proof (summary_bounds b Hb).
  unfold small in Hs. rewrite bytes_of_app, length_app in Hs. unfold fits. lia.
Qed.

Lemma lines_add : Point_add (lines (from_str a)) (lines (from_str b)) = lines (from_str (a ++ b)).
Proof.
  rewrite lines_app. apply Point_plus_fits. pose proof sum_fits. unfold add_fits, fits in *. destruct (_ =? _)%N; lia.
Qed.

Lemma lines_utf16_add : PointUtf16_add (lines_utf16 (from_str a)) (lines_utf16 (from_str b)) = lines_utf16 (from_str (a ++ b)).
Proof.
  rewrite lines_utf16_app. pose proof sum_fits as (H1&_&_&H2). unfold PointUtf16_add, PointUtf16_plus.
  unfold lines_utf16 in *. cbn [row16 column16]. by rewrite !wrap_N_id.
Qed.

Lemma len_utf16_add : OffsetUtf16_add (len_utf16 (from_str a)) (len_utf16 (from_str b)) = len_utf16 (from_str (a ++ b)).
Proof.
  rewrite len_utf16_app. pose proof sum_fits as (_&_&H1&_). unfold OffsetUtf16_add, OffsetUtf16_plus. by rewrite wrap_N_id.
Qed.

Lemma lines_sub : Point_sub (lines (from_str (a ++ b))) (lines (from_str a)) = lines (from_str b).
Proof.
  rewrite lines_app. pose proof sum_fits as (H1&H2&_). unfold Point_sub, Point_plus, Point_new.
  destruct (N.eqb_spec (row (lines (from_str b))) 0) as [E|E]; cbn [row column].
  - rewrite N.eqb_refl. rewrite wrapping_sub_le by (done || lia). rewrite N.add_sub_swap, N.sub_diag by lia.
    destruct (lines (from_str b)). cbn in *. by subst.
  - rewrite (proj2 (N.eqb_neq _ _)) by lia. rewrite wrapping_sub_le by (done || lia).
    rewrite N.add_sub_swap, N.sub_diag by lia. by destruct (lines (from_str b)).
Qed.

Lemma lines_utf16_sub : PointUtf16_sub (lines_utf16 (from_str (a ++ b))) (lines_utf16 (from_str a)) = lines_utf16 (from_str b).
Proof.
  rewrite lines_utf16_app. pose proof sum_fits as (H1&_&_&H2). unfold PointUtf16_sub, PointUtf16_plus, lines_utf16 in *.
  cbn [row16 column16]. destruct (N.eqb_spec (row (lines (from_str b))) 0) as [E|E]; cbn [row16 column16].
  - rewrite N.eqb_refl. rewrite wrapping_sub_le by (done || lia). rewrite N.add_sub_swap, N.sub_diag by lia. by rewrite E.
  - rewrite (proj2 (N.eqb_neq _ _)) by lia. rewrite wrapping_sub_le by (done || lia).
    by rewrite N.add_sub_swap, N.sub_diag by lia.
Qed.

Lemma len_utf16_sub : OffsetUtf16_sub (len_utf16 (from_str (a ++ b))) (len_utf16 (from_str a)) = len_utf16 (from_str b).
Proof.
  rewrite len_utf16_app. pose proof sum_fits as (_&_&H1&_). unfold OffsetUtf16_sub, OffsetUtf16_plus.
  cbn [offset16]. rewrite wrapping_sub_le by (done || lia). destruct (len_utf16 (from_str b)). cbn. f_equal. lia.
Qed.

Lemma len_sub : usub (len (from_str (a ++ b))) (len (from_str a)) = Some (len (from_str b)).
Proof. rewrite len_app, usub_le by lia. f_equal. lia. Qed.
End sums.

(** ** Prefixes *)

Section prefixes.
Context {D : Type} `{OrdMetric D}.

Lemma metric_prefix_cmp p q p' q' :
  p ++ q = p' ++ q' → Forall char_ok (p ++ q) → small (p ++ q) →
  cmp (metric (from_str p) : D) (metric (from_str p')) = Nat.compare (length p) (length p').
Proof.
  intros E Hok Hs. assert (Hlt : ∀ a b c, Forall char_ok (a ++ b ++ c) → small (a ++ b ++ c) → b ≠ [] →
    cmp (metric (from_str a) : D) (metric (from_str (a ++ b))) = Lt).
  { intros a b c Hok' Hs' Hb. rewrite app_assoc in Hok', Hs'. apply metric_lt; [done| |by apply small_app_l in Hs'].
    by apply Forall_app in Hok' as [? _]. }
  assert (Hp : Forall char_ok p ∧ small p) by (apply Forall_app in Hok as [? _]; split; [done|by apply small_app_l in Hs]).
  assert (Hp' : Forall char_ok p' ∧ small p').
  { rewrite E in Hok, Hs. apply Forall_app in Hok as [? _]; split; [done|by apply small_app_l in Hs]. }
  apply app_eq_inv in E as [(k&->&->)|(k&->&->)]; rewrite length_app.
  - destruct k as [|z k]; [rewrite app_nil_r, metric_refl, Nat.add_0_r; symmetry; apply Nat.compare_refl|].
    rewrite (metric_antisym (metric (from_str p'))) by (apply metric_text_ok; naive_solver).
    rewrite <- app_assoc in Hok, Hs. rewrite (Hlt _ (z :: k) q) by done. symmetry. apply Nat.compare_gt_iff. cbn. lia.
  - destruct k as [|z k]; [rewrite app_nil_r, metric_refl, Nat.add_0_r; symmetry; apply Nat.compare_refl|].
    rewrite (Hlt _ (z :: k) q') by done. symmetry. apply Nat.compare_lt_iff. cbn. lia.
Qed.
End prefixes.

(** ** The chunk of a place *)

(** The place [p] of the text [p ++ q] is in the chunk [c] of the text
    [x ++ y], after the text [a] of the chunks before it. *)
Definition in_chunk (p q a x y z : list Z) (c : Chunk) : Prop :=
  p = a ++ x ∧ q = y ++ z ∧ Forall char_ok (x ++ y) ∧ chunk_of (bytes_of (x ++ y)) c.

Section place.
Context (h : nat) (css : list (list Z)) (r : Rope) (p q : list Z).
Context (Hr : rope_of h css r) (Hpq : concat css = p ++ q) (Hs : small (concat css)).

Lemma text_ok : Forall char_ok (p ++ q).
Proof. rewrite <- Hpq. destruct Hr as [_ Hf]. by eapply chunk_for_ok. Qed.

Lemma text_small : small (p ++ q).
Proof. by rewrite <- Hpq. Qed.

Section search.
Context {D1 D : Type} `{MetricLaws D, !Metric D1, !MetricOk D1, !Ord D1, !OrdMetric D1,
  !SeekTarget D1 D (), !DimensionLaws D ChunkSummary ()}.
Hypothesis target_metric : ∀ (t : D1) s, target_cmp t (metric s : D) () = cmp t (metric s : D1).

(** The cut of a search for the place. *)
Lemma place_cut bias css1 css2 :
  css = css1 ++ css2 →
  (css1 ≠ [] → target_in_child (cmp (metric (from_str p)) (metric (from_str (concat css1)) : D1)) bias = false) →
  (∀ cs rest, css2 = cs :: rest →
    target_in_child (cmp (metric (from_str p)) (metric (from_str (concat css1 ++ cs)) : D1)) bias = true) →
  q ≠ [] →
  ∃ cs rest x y z, css2 = cs :: rest ∧ cs = x ++ y ∧ p = concat css1 ++ x ∧ q = y ++ z ∧
    (bias = Right → y ≠ []) ∧ (bias = Left → concat css1 = [] ∨ x ≠ []).
Proof.
  pose proof text_ok as Hok. pose proof text_small as Hsm.
  intros -> H1 H2 Hq. rewrite concat_app in Hpq.
  assert (Hcmp : ∀ p' q', p ++ q = p' ++ q' →
    cmp (metric (from_str p) : D1) (metric (from_str p')) = Nat.compare (length p) (length p')).
  { intros. by eapply metric_prefix_cmp. }
  assert (Hge : length (concat css1) ≤ length p ∧ (bias = Left → concat css1 = [] ∨ length (concat css1) < length p)).
  { destruct css1 as [|cs1 css1]; [cbn; split; [lia|by left]|]. specialize (H1 ltac:(done)).
    rewrite (Hcmp (concat (cs1 :: css1)) (concat css2)) in H1 by done.
    destruct (Nat.compare_spec (length p) (length (concat (cs1 :: css1)))); [|done|split; [lia|right; lia]].
    split; [lia|]. intros ->. done. }
  destruct css2 as [|cs rest].
  { exfalso. rewrite app_nil_r in Hpq. apply (f_equal length) in Hpq. rewrite length_app in Hpq.
    destruct q; [done|]. cbn in *. lia. }
  cbn [concat] in Hpq. specialize (H2 _ _ eq_refl).
  rewrite (Hcmp (concat css1 ++ cs) (concat rest)) in H2 by by rewrite <- app_assoc.
  apply app_eq_inv in Hpq as [(k&E1&E2)|(x&Ep&E2)].
  - (* [p] ends with the chunks before *)
    pose proof (proj1 Hge) as Hle. rewrite E1, length_app in Hle. destruct k; [|cbn in Hle; lia]. rewrite app_nil_r in E1. cbn in E2.
    exists cs, rest, [], cs, (concat rest). rewrite app_nil_r. split_and!; try done.
    + intros ->. rewrite length_app in H2. destruct cs; [|done]. cbn in H2.
      rewrite E1, Nat.add_0_r, Nat.compare_refl in H2. done.
    + intros Eb. destruct Hge as [_ Hge]. destruct (Hge Eb) as [?|Hlt]; [by left|]. rewrite E1 in Hlt. lia.
  - symmetry in E2. apply app_eq_inv in E2 as [(k&E3&E4)|(y&E3&E4)].
    + (* past the chunk: only at its end *)
      assert (Hk : k = []).
      { rewrite Ep, E3, !length_app in H2. destruct k as [|z k]; [done|].
        destruct (Nat.compare_spec (length (concat css1) + (length cs + length (z :: k))) (length (concat css1) + length cs));
          [cbn in *; lia..|done]. }
      subst k. rewrite app_nil_r in E3. subst x. exists cs, rest, cs, [], q. rewrite app_nil_r. split_and!; try done.
      * intros ->. rewrite Ep, Nat.compare_refl in H2. done.
      * intros Eb. destruct Hge as [_ Hge]. destruct (Hge Eb) as [?|Hlt]; [by left|]. right. intros ->. rewrite Ep, app_nil_r in Hlt. lia.
    + exists cs, rest, x, y, (concat rest). split_and!; try done.
      * intros -> ->. rewrite Ep, E3, app_nil_r, Nat.compare_refl in H2. done.
      * intros Eb. destruct Hge as [_ Hge]. destruct (Hge Eb) as [?|Hlt]; [by left|]. right. intros ->. rewrite Ep, app_nil_r in Hlt. lia.
Qed.

Lemma place_find bias :
  q ≠ [] →
  ∃ a x y z c, in_chunk p q a x y z c ∧
    (find (D:=D) (chunks r) () (metric (from_str p) : D1) bias).1.1 = metric (from_str a) ∧
    (find (D:=D) (chunks r) () (metric (from_str p) : D1) bias).2 = Some c ∧
    (bias = Right → y ≠ []) ∧ (bias = Left → a = [] ∨ x ≠ []).
Proof.
  intros Hq. pose proof text_ok as Hok.
  assert (Hp : metric_ok (metric (from_str p) : D1)).
  { apply metric_text_ok; [by apply Forall_app in Hok as [? _]|by apply small_app_l with q, text_small]. }
  destruct (rope_find target_metric (metric (from_str p)) bias h css r Hr Hp Hs)
    as (css1&css2&els1&els2&Ecss&_&_&Hf2&Epos&Eitem&H1&H2).
  destruct (place_cut bias css1 css2 Ecss H1 H2 Hq) as (cs&rest&x&y&z&->&->&Ep&Eq&Hx&Hy).
  apply Forall2_cons_inv_l in Hf2 as (c&els2'&(_&Hxy&Hc)&_&->). exists (concat css1), x, y, z, c. by split_and!.
Qed.

Lemma place_seek bias :
  h < STACK_CAPACITY → q ≠ [] →
  ∃ c' f a x y z c, in_chunk p q a x y z c ∧
    Cursor.seek (cursor_new (D:=D) (chunks r) ()) (metric (from_str p) : D1) bias = Some (c', f) ∧
    start c' = metric (from_str a) ∧ item c' = Some (Some c).
Proof.
  intros Hh Hq. pose proof text_ok as Hok.
  assert (Hp : metric_ok (metric (from_str p) : D1)).
  { apply metric_text_ok; [by apply Forall_app in Hok as [? _]|by apply small_app_l with q, text_small]. }
  assert (Hge : cmp (metric (from_str p)) (metric TextSummary_default : D1) ≠ Lt).
  { change TextSummary_default with (from_str []).
    rewrite (metric_prefix_cmp p q [] (p ++ q)) by (done || apply text_small). by destruct (length p). }
  destruct (rope_seek target_metric (metric (from_str p)) bias h css r Hr Hh Hp Hs Hge)
    as (c'&f&css1&css2&els1&els2&Ecss&_&Hf2&Eseek&_&_&Estart&Eitem&H1&H2).
  destruct (place_cut bias css1 css2 Ecss H1 H2 Hq) as (cs&rest&x&y&z&->&->&Ep&Eq&_&_).
  apply Forall2_cons_inv_l in Hf2 as (c&els2'&(_&Hxy&Hc)&_&->). exists c', f, (concat css1), x, y, z, c. by split_and!.
Qed.
End search.

(** ** The conversions *)

Lemma summary_at : Rope.summary r = from_str (p ++ q).
Proof. rewrite <- Hpq. by eapply rope_summary. Qed.

(** The test for the end of the text. *)
Lemma at_end_test {D} `{OrdMetric D} :
  bool_decide (cmp (metric (from_str p) : D) (metric (Rope.summary r)) ≠ Lt) = bool_decide (q = []).
Proof.
  rewrite summary_at. apply bool_decide_ext. rewrite (metric_prefix_cmp p q (p ++ q) []);
    [|by rewrite app_nil_r|apply text_ok|apply text_small].
  rewrite length_app. destruct (Nat.compare_spec (length p) (length p + length q)); destruct q; cbn in *; naive_solver lia.
Qed.

Lemma at_end_len : bool_decide (len (Rope.summary r) ≤ len (from_str p)) = bool_decide (q = []).
Proof.
  rewrite summary_at, len_app. apply bool_decide_ext. split; [|intros ->; cbn; lia].
  intros Hle. destruct (decide (q = [])) as [|Hq]; [done|]. pose proof text_ok as Hok.
  apply Forall_app in Hok as [_ Hokq]. pose proof (len_from_str_pos q Hq Hokq). lia.
Qed.

Lemma in_chunk_ok a x y z c : in_chunk p q a x y z c → Forall char_ok (a ++ x) ∧ small (a ++ x).
Proof.
  pose proof text_ok as Hok. pose proof text_small as Hsm. intros (Ep&_&_&_). rewrite <- Ep.
  split; [by apply Forall_app in Hok as [? _]|by apply small_app_l with q].
Qed.
End place.

Section conversions.
Context (h : nat) (css : list (list Z)) (r : Rope) (p q : list Z).
Context (Hr : rope_of h css r) (Hpq : concat css = p ++ q) (Hs : small (concat css)).

(** The chunk of the place, from a search by the coordinate [D1]. *)
Ltac search_place D1 D :=
  let E1 := fresh "Epos" in let E2 := fresh "Eitem" in
  match goal with Hq : q ≠ [] |- _ =>
    destruct (place_find h css r p q Hr Hpq Hs (D1:=D1) (D:=D) metric_target_fst Left Hq)
      as (a&x&y&z&c&Hin&E1&E2&_&_)
  end;
  destruct (find _ _ _ _) as [[start end_] item]; cbn [fst snd] in E1, E2; subst start item;
  unfold metric, prod_Metric, usize_Metric, OffsetUtf16_Metric, Point_Metric, PointUtf16_Metric; cbn [fst snd];
  lazymatch goal with Hin : in_chunk _ _ _ _ _ _ _ |- _ =>
    destruct (in_chunk_ok h css r p q Hr Hpq Hs _ _ _ _ _ Hin) as [Hax Hsax];
    let Ep := fresh "Ep" in destruct Hin as (Ep&_&Hxy&Hc); rewrite Ep
  end.

Ltac at_end D :=
  let E := fresh "E" in
  pose proof (at_end_test h css r p q Hr Hpq Hs (D:=D)) as E;
  unfold metric, OffsetUtf16_Metric, Point_Metric, PointUtf16_Metric in E; rewrite E; clear E.

Ltac at_end_case :=
  lazymatch goal with |- context [bool_decide (q = [])] =>
    let Hq := fresh "Hq" in case_bool_decide as Hq; [rewrite (summary_at h css r p q Hr Hpq); by rewrite Hq, app_nil_r|]
  end.

Lemma rope_offset_to_offset_utf16 :
  offset_to_offset_utf16 r (len (from_str p)) = Some (len_utf16 (from_str p)).
Proof.
  unfold offset_to_offset_utf16. rewrite (at_end_len h css r p q) by done. at_end_case.
  search_place nat (nat * OffsetUtf16)%type. rewrite len_sub. cbn [mbind option_bind].
  by rewrite (place_offset_to_offset_utf16 x y) by done; rewrite len_utf16_add.
Qed.

Lemma rope_offset_to_point : offset_to_point r (len (from_str p)) = Some (lines (from_str p)).
Proof.
  unfold offset_to_point. rewrite (at_end_len h css r p q) by done. at_end_case.
  search_place nat (nat * Point)%type. rewrite len_sub. cbn [mbind option_bind].
  by rewrite (place_offset_to_point x y) by done; rewrite lines_add.
Qed.

Lemma rope_offset_to_point_utf16 : offset_to_point_utf16 r (len (from_str p)) = Some (lines_utf16 (from_str p)).
Proof.
  unfold offset_to_point_utf16. rewrite (at_end_len h css r p q) by done. at_end_case.
  search_place nat (nat * PointUtf16)%type. rewrite len_sub. cbn [mbind option_bind].
  by rewrite (place_offset_to_point_utf16 x y) by done; rewrite lines_utf16_add.
Qed.

Lemma rope_offset_utf16_to_offset : offset_utf16_to_offset r (len_utf16 (from_str p)) = Some (len (from_str p)).
Proof.
  unfold offset_utf16_to_offset. at_end OffsetUtf16. at_end_case.
  search_place OffsetUtf16 (OffsetUtf16 * nat)%type. rewrite len_utf16_sub by done.
  rewrite (place_offset_utf16_to_offset x y) by done. cbn [mbind option_bind]. by rewrite len_app.
Qed.

Lemma rope_point_to_offset : point_to_offset r (lines (from_str p)) = len (from_str p).
Proof.
  unfold point_to_offset. at_end Point. at_end_case.
  search_place Point (Point * nat)%type. rewrite lines_sub by done.
  by rewrite (place_point_to_offset x y) by done; rewrite len_app.
Qed.

Lemma rope_point_to_point_utf16 : point_to_point_utf16 r (lines (from_str p)) = lines_utf16 (from_str p).
Proof.
  unfold point_to_point_utf16. at_end Point. at_end_case.
  search_place Point (Point * PointUtf16)%type. rewrite lines_sub by done.
  by rewrite (place_point_to_point_utf16 x y) by done; rewrite lines_utf16_add.
Qed.

Lemma rope_point_utf16_to_offset clip :
  point_utf16_to_offset_impl r (lines_utf16 (from_str p)) clip = Some (len (from_str p)).
Proof.
  unfold point_utf16_to_offset_impl. at_end PointUtf16. at_end_case.
  search_place PointUtf16 (PointUtf16 * nat)%type. rewrite lines_utf16_sub by done.
  rewrite (place_point_utf16_to_offset x y) by done. cbn [mbind option_bind]. by rewrite len_app.
Qed.

Lemma rope_unclipped_point_utf16_to_point :
  unclipped_point_utf16_to_point r (lines_utf16 (from_str p)) = Some (lines (from_str p)).
Proof.
  unfold unclipped_point_utf16_to_point. at_end PointUtf16. at_end_case.
  search_place PointUtf16 (PointUtf16 * Point)%type. rewrite lines_utf16_sub by done.
  rewrite (place_unclipped_point_utf16_to_point x y) by done. cbn [mbind option_bind]. by rewrite lines_add.
Qed.

(** The conversions that use a cursor. *)
Context (Hh : h < STACK_CAPACITY).

Ltac seek_place D1 D :=
  let E1 := fresh "Epos" in let E2 := fresh "Eitem" in let E3 := fresh "Eseek" in
  match goal with Hq : q ≠ [] |- _ =>
    destruct (place_seek h css r p q Hr Hpq Hs (D1:=D1) (D:=D) metric_target_fst Left Hh Hq)
      as (cur&f&a&x&y&z&c&Hin&E3&E1&E2)
  end;
  unfold metric, prod_Metric, usize_Metric, OffsetUtf16_Metric, Point_Metric, PointUtf16_Metric in E1, E3;
  rewrite E3; cbn [mbind option_bind]; rewrite E1, E2; cbn [mbind option_bind fst snd];
  lazymatch goal with Hin : in_chunk _ _ _ _ _ _ _ |- _ =>
    destruct (in_chunk_ok h css r p q Hr Hpq Hs _ _ _ _ _ Hin) as [Hax Hsax];
    let Ep := fresh "Ep" in destruct Hin as (Ep&_&Hxy&Hc); rewrite Ep
  end.

Lemma rope_point_utf16_to_point : point_utf16_to_point r (lines_utf16 (from_str p)) = Some (lines (from_str p)).
Proof.
  unfold point_utf16_to_point. at_end PointUtf16. at_end_case.
  seek_place PointUtf16 (PointUtf16 * Point)%type. rewrite lines_utf16_sub by done.
  rewrite (place_point_utf16_to_offset x y) by done. cbn [mbind option_bind].
  by rewrite (place_offset_to_point x y) by done; rewrite lines_add.
Qed.

Lemma rope_point_to_offset_utf16 : point_to_offset_utf16 r (lines (from_str p)) = Some (len_utf16 (from_str p)).
Proof.
  unfold point_to_offset_utf16. at_end Point. at_end_case.
  seek_place Point (Point * OffsetUtf16)%type. rewrite lines_sub by done.
  by rewrite (place_point_to_offset_utf16 x y) by done; rewrite len_utf16_add.
Qed.

Lemma rope_point_utf16_to_offset_utf16 clip :
  point_utf16_to_offset_utf16_impl r (lines_utf16 (from_str p)) clip = Some (len_utf16 (from_str p)).
Proof.
  unfold point_utf16_to_offset_utf16_impl. at_end PointUtf16. at_end_case.
  seek_place PointUtf16 (PointUtf16 * OffsetUtf16)%type. rewrite lines_utf16_sub by done.
  rewrite (place_point_utf16_to_offset x y) by done. cbn [mbind option_bind].
  by rewrite (place_offset_to_offset_utf16 x y) by done; rewrite len_utf16_add.
Qed.
End conversions.
