(* ===== verification/RopeEdit.v ===== *)
(** Editing a rope is editing its text: pushing, appending and prepending. *)

From stdpp Require Import base numbers option list.
From S2P Require Import Prelude SumTree SumTreeFacts Search Cursor CursorFacts StepFacts BackFacts Iter CursorApi SliceHeight Utf8 Point Bits Chunk ChunkBits ChunkSummary ChunkFacts Rope TextSummary ChunkClip RopeTree.

#[local] Open Scope nat_scope.

Lemma chunk_boundary_from_eq fuel s c i :
  chunk_of s c → fuel + i ≤ 2 * MAX_BASE → chunk_boundary_from fuel c i = on_to_boundary fuel s i.
Proof.
  intros Hc. revert i. induction fuel as [|fuel IH]; intros i Hi; cbn; rewrite (is_char_boundary_of s c) by (done || lia); [done|].
  by rewrite IH by lia.
Qed.

(** ** Splitting a text into chunks *)

Lemma bytes_of_split cs o :
  Forall char_ok cs → Utf8.is_char_boundary (bytes_of cs) o = true →
  ∃ a b, cs = a ++ b ∧ Utf8.split_at (bytes_of cs) o = Some (bytes_of a, bytes_of b) ∧ length (bytes_of a) = o ∧
    Forall char_ok a ∧ Forall char_ok b.
Proof.
  intros Hok Ho. pose proof Ho as (a&b&->&->)%boundary_split; [|done]. exists a, b.
  apply Forall_app in Hok as [Ha Hb]. split_and!; try done. unfold Utf8.split_at. rewrite Ho, bytes_of_app.
  by rewrite take_app_length, drop_app_length.
Qed.

Lemma bytes_of_nil_inv cs : Forall char_ok cs → bytes_of cs = [] → cs = [].
Proof.
  intros [|c cs' Hc _]; [done|]. rewrite bytes_of_cons. pose proof (length_encode c Hc).
  intros [E _]%app_nil. rewrite E in *. cbn in *. lia.
Qed.

Lemma length_bytes_pos cs : Forall char_ok cs → cs ≠ [] → 0 < length (bytes_of cs).
Proof.
  intros Hok Hne. destruct (bytes_of cs) eqn:E; [|cbn; lia]. by apply bytes_of_nil_inv in E.
Qed.

Lemma split_text_step fuel s :
  s ≠ [] →
  split_text (S fuel) s =
  split_ix ← back_to_boundary s (MAX_BASE `min` length s);
  '(chunk, remainder) ← Utf8.split_at s split_ix;
  rest ← split_text fuel remainder;
  Some (chunk :: rest).
Proof. by destruct s. Qed.

(** Every chunk but the last is at least 125 bytes long. *)
Lemma split_text_spec fuel cs :
  Forall char_ok cs → length (bytes_of cs) ≤ fuel →
  ∃ css, split_text fuel (bytes_of cs) = Some (map bytes_of css) ∧ concat css = cs ∧
    Forall (λ cs, cs ≠ [] ∧ Forall char_ok cs ∧ length (bytes_of cs) ≤ MAX_BASE) css ∧
    (MAX_BASE - 3) * length css < length (bytes_of cs) + (MAX_BASE - 3).
Proof.
  revert cs. induction fuel as [|fuel IH]; intros cs Hok Hf.
  { assert (cs = []) as -> by (apply bytes_of_nil_inv; [done|]; destruct (bytes_of cs); [done|cbn in *; lia]).
    exists []. split_and!; try done. cbn. unfold MAX_BASE. lia. }
  destruct (decide (cs = [])) as [->|Hne]; [exists []; split_and!; try done; cbn; unfold MAX_BASE; lia|].
  pose proof (length_bytes_pos cs Hok Hne) as Hpos. pose proof (str_ok_bytes cs Hok) as Hs.
  destruct (back_to_boundary_spec (bytes_of cs) (MAX_BASE `min` length (bytes_of cs)) Hs ltac:(lia)) as (o&Eo&Ho&Hor&Hlast).
  assert (Hfull : length (bytes_of cs) ≤ MAX_BASE → o = length (bytes_of cs)).
  { intros Hle. destruct (decide (o = length (bytes_of cs))) as [|Hno]; [done|].
    rewrite Nat.min_r in Hor, Hlast by done. specialize (Hlast (length (bytes_of cs)) ltac:(lia)).
    by rewrite boundary_length in Hlast. }
  assert (Ho0 : 0 < o) by (unfold MAX_BASE in *; lia).
  destruct (bytes_of_split cs o Hok Ho) as (a&b&->&Esplit&Ea&Hoka&Hokb).
  rewrite bytes_of_app, length_app in *.
  destruct (IH b Hokb) as (css&E&Ec&Hall&Hcount); [lia|].
  assert (Hna : a ≠ []) by (intros ->; cbn in Ea; lia).
  exists (a :: css). cbn [map concat length]. split_and!.
  - rewrite split_text_step by (intros Eab; apply (f_equal length) in Eab; rewrite length_app in Eab; cbn in Eab; lia).
    rewrite length_app, Eo. cbn [mbind option_bind]. rewrite Esplit. cbn [mbind option_bind]. by rewrite E.
  - by rewrite Ec.
  - constructor; [|done]. split_and!; [done..|lia].
  - destruct css as [|cs1 css]; [cbn; lia|]. assert (Hb : 0 < length (bytes_of b)).
    { apply length_bytes_pos; [done|]. rewrite <- Ec. apply Forall_cons in Hall as [(Hne1&_) _]. by destruct cs1. }
    unfold MAX_BASE in *. lia.
Qed.

Lemma mapM_new css :
  Forall (λ cs, cs ≠ [] ∧ Forall char_ok cs ∧ length (bytes_of cs) ≤ MAX_BASE) css →
  ∃ cs', mapM Chunk.new (map bytes_of css) = Some cs' ∧ Forall2 chunk_for css cs'.
Proof.
  induction 1 as [|cs css (Hne&Hok&Hl) _ (cs'&E&Hf)]; [by exists []|].
  destruct (new_of (bytes_of cs)) as (c&Ec&Hc); [by apply str_ok_bytes|done|].
  exists (c :: cs'). cbn [map mapM]. rewrite Ec. cbn [mbind option_bind]. rewrite E. split; [done|]. by constructor.
Qed.

(** ** The tree under an edit *)

Lemma extend_text h css t css' cs :
  wf () h t → Forall2 chunk_for css (elements t) → Forall2 chunk_for css' cs →
  (∃ t' h', extend t cs () = Some t' ∧ rope_of h' (css ++ css') (mkRope t')) ∧ par_extend t cs () = extend t cs ().
Proof.
  intros Hwf Hf Hf'. destruct (from_iter_wf () cs) as (o&ho&E&Ho&Eo). split.
  - destruct (append_wf () h t ho o Hwf Ho) as (t'&h'&Ea&Hwf'&_&Eel). exists t', h'. unfold extend. rewrite E.
    split; [done|]. split; [done|]. cbn [chunks]. rewrite Eel, Eo. by apply Forall2_app.
  - unfold par_extend, extend. by rewrite from_par_iter_eq.
Qed.

(** The last chunk, if any. *)
Lemma last_chunk h css r :
  rope_of h css r →
  (css = [] ∧ SumTree.last (chunks r) = Some None) ∨
  ∃ css' cs els c, css = css' ++ [cs] ∧ elements (chunks r) = els ++ [c] ∧ Forall2 chunk_for css' els ∧ chunk_for cs c ∧
    SumTree.last (chunks r) = Some (Some c).
Proof.
  intros [Hwf Hf]. rewrite (last_wf () h) by done. destruct (elements (chunks r)) as [|c els _] eqn:E using rev_ind.
  - left. by apply Forall2_nil_inv_r in Hf as ->.
  - right. apply Forall2_app_inv_r in Hf as (css'&k&Hf'&Hk&->).
    apply Forall2_cons_inv_r in Hk as (cs&k'&Hc&Hk&->). apply Forall2_nil_inv_r in Hk as ->.
    exists css', cs, els, c. rewrite last_snoc. done.
Qed.

Lemma update_last_chunk h css r css' cs els c cs' c' :
  rope_of h css r → css = css' ++ [cs] → elements (chunks r) = els ++ [c] → Forall2 chunk_for css' els → chunk_for cs' c' →
  ∃ t, update_last (λ _, c') (chunks r) () = Some t ∧ rope_of h (css' ++ [cs']) (mkRope t).
Proof.
  intros [Hwf _] _ Eel Hf Hc. destruct (update_last_wf () (λ _, c') h (chunks r) Hwf) as (t&E&Hwf'&Et).
  exists t. split; [done|]. split; [done|]. cbn [chunks]. rewrite Et, Eel, last_snoc, length_app. cbn.
  rewrite Nat.add_sub, take_app_length. apply Forall2_app; [done|by constructor].
Qed.

Lemma chunk_for_app cs c d e :
  chunk_for cs c → Forall char_ok d → chunk_of (bytes_of cs ++ bytes_of d) e → chunk_for (cs ++ d) e.
Proof.
  intros (Hne&Hok&_) Hd He. split_and!; [by destruct cs|by apply Forall_app|by rewrite bytes_of_app].
Qed.

Lemma length_text cs c : chunk_for cs c → length (Chunk.text c) = length (bytes_of cs) ∧ length (bytes_of cs) ≤ MAX_BASE.
Proof. intros (_&_&Hc). rewrite (chunk_text _ _ Hc). split; [done|apply Hc]. Qed.

(** ** Pushing *)

Lemma push_large_text h css r cs :
  rope_of h css r → Forall char_ok cs →
  ∃ r', push_large r (bytes_of cs) = Some r' ∧ rope_text (concat css ++ cs) r'.
Proof.
  intros [Hwf Hf] Hok. unfold push_large.
  destruct (split_text_spec (length (bytes_of cs)) cs Hok ltac:(done)) as (css'&E&<-&Hall&_). rewrite E. cbn [mbind option_bind].
  destruct (mapM_new css' Hall) as (cs'&E'&Hf'). rewrite E'. cbn [mbind option_bind].
  destruct (extend_text h css (chunks r) css' cs' Hwf Hf Hf') as [(t'&h'&Ee&Hr') Ep].
  assert (Eif : (if bool_decide (PARALLEL_THRESHOLD ≤ length (map bytes_of css')) then par_extend (chunks r) cs' ()
                 else extend (chunks r) cs' ()) = Some t') by (case_bool_decide; congruence).
  rewrite Eif. cbn [mbind option_bind]. eexists. split; [done|]. exists h', (css ++ css'). by rewrite concat_app.
Qed.

(** The split of what goes in the last chunk. *)
Lemma fill_last n b s :
  str_ok s → n ≤ MAX_BASE →
  b = bool_decide (n + length s ≤ MAX_BASE) →
  ∃ p, (if (b : bool) then Some (length s) else on_to_boundary (length s) s ((MIN_BASE - n) `min` length s)) = Some p ∧
    Utf8.is_char_boundary s p = true ∧ n + p ≤ MAX_BASE.
Proof.
  intros Hs Hn ->. case_bool_decide as Hfit.
  - exists (length s). split_and!; [done|apply boundary_length|lia].
  - destruct (decide (MIN_BASE ≤ n)) as [Hge|Hlt].
    + exists 0. replace ((MIN_BASE - n) `min` length s) with 0 by lia. pose proof (boundary_0 s Hs) as H0.
      split_and!; [|done|lia]. destruct (length s); cbn; by rewrite H0.
    + destruct (on_to_boundary_spec s ((MIN_BASE - n) `min` length s) Hs ltac:(lia)) as (p&->&Hp&Hr&_).
      exists p. split_and!; [done..|]. unfold MIN_BASE, MAX_BASE in *. cbn in *. lia.
Qed.

(** The part of [push] after the last chunk is filled. *)
Lemma push_rest h css r b :
  rope_of h css r → Forall char_ok b →
  ∃ r', (if bool_decide (length (bytes_of b) = 0) then Some (mkRope (chunks r))
         else if bool_decide (NUM_CHUNKS * MAX_BASE - NUM_CHUNKS * 4 < length (bytes_of b))
         then push_large (mkRope (chunks r)) (bytes_of b)
         else
           new_chunks ← split_text (length (bytes_of b)) (bytes_of b);
           _ ← assert_ (bool_decide (length new_chunks ≤ NUM_CHUNKS));
           cs ← mapM Chunk.new new_chunks;
           t ← extend (chunks r) cs ();
           Some (mkRope t)) = Some r' ∧ rope_text (concat css ++ b) r'.
Proof.
  intros Hr Hok. assert (Er : mkRope (chunks r) = r) by by destruct r. rewrite !Er. case_bool_decide as H0.
  { assert (b = []) as -> by (apply bytes_of_nil_inv; [done|]; by apply nil_length_inv).
    eexists. split; [done|]. rewrite app_nil_r. by exists h, css. }
  case_bool_decide as Hbig; [by apply (push_large_text h)|].
  destruct (split_text_spec (length (bytes_of b)) b Hok ltac:(done)) as (css'&E&<-&Hall&Hcount). rewrite E. cbn [mbind option_bind].
  assert (Hfour : length (map bytes_of css') ≤ NUM_CHUNKS).
  { rewrite length_map. unfold NUM_CHUNKS, MAX_BASE in *. cbn [Nat.mul Nat.add Nat.sub] in *. lia. }
  rewrite bool_decide_eq_true_2 by done. cbn [assert_ mbind option_bind].
  destruct (mapM_new css' Hall) as (cs'&E'&Hf'). rewrite E'. cbn [mbind option_bind]. destruct Hr as [Hwf Hf].
  destruct (extend_text h css (chunks r) css' cs' Hwf Hf Hf') as [(t'&h'&Ee&Hr') _]. rewrite Ee. cbn [mbind option_bind].
  eexists. split; [done|]. exists h', (css ++ css'). by rewrite concat_app.
Qed.

Lemma push_text a r b :
  rope_text a r → Forall char_ok b → ∃ r', push r (bytes_of b) = Some r' ∧ rope_text (a ++ b) r'.
Proof.
  intros (h&css&Hr&<-) Hok. unfold push.
  destruct (last_chunk h css r Hr) as [[-> ->]|(css'&cs&els&c&->&Eel&Hf&Hc&->)]; cbn [mbind option_bind].
  { by apply (push_rest h []). }
  destruct (length_text cs c Hc) as [Elen Hlen]. pose proof (str_ok_bytes b Hok) as Hsb.
  destruct (fill_last (length (Chunk.text c)) _ (bytes_of b) Hsb ltac:(lia) eq_refl) as (p&->&Hp&Hfit). cbn [mbind option_bind].
  destruct (bytes_of_split b p Hok Hp) as (b1&b2&->&->&Ep&Hok1&Hok2). cbn [mbind option_bind].
  destruct (push_str_of (bytes_of cs) (bytes_of b1) c) as (e&->&He); [apply Hc|by apply str_ok_bytes|lia|]. cbn [mbind option_bind].
  destruct (update_last_chunk h _ r css' cs els c (cs ++ b1) e Hr eq_refl Eel Hf) as (t&->&Hr'); [by eapply chunk_for_app|].
  cbn [mbind option_bind]. destruct (push_rest h _ (mkRope t) b2 Hr' Hok2) as (r'&E&Ht). exists r'. split; [exact E|].
  rewrite concat_app in *. cbn [concat] in *. rewrite app_nil_r in *. by rewrite <- !app_assoc in *.
Qed.

Lemma from_text_text b : Forall char_ok b → ∃ r, from_text (bytes_of b) = Some r ∧ rope_text b r.
Proof. intros Hb. apply (push_text []); [|done]. exists 0, []. split; [apply rope_of_new|done]. Qed.

(** ** Pushing a slice of a chunk *)

(** A slice that may be empty. *)
Definition slice_for (cs : list Z) (c : Chunk) : Prop := Forall char_ok cs ∧ chunk_of (bytes_of cs) c.

Lemma chunk_split b c p :
  slice_for b c → Utf8.is_char_boundary (bytes_of b) p = true →
  ∃ b1 b2 l r, b = b1 ++ b2 ∧ Chunk.split_at c p = Some (l, r) ∧ slice_for b1 l ∧ slice_for b2 r ∧ length (bytes_of b1) = p.
Proof.
  intros [Hok Hc] Hp. destruct (bytes_of_split b p Hok Hp) as (b1&b2&->&Esplit&Ep&Hok1&Hok2).
  destruct (split_at_of _ c p Hc Hp) as (l&r&E&Hl&Hr). exists b1, b2, l, r.
  unfold Utf8.split_at in Esplit. rewrite Hp in Esplit. injection Esplit as E1 E2. rewrite E1 in Hl. rewrite E2 in Hr. done.
Qed.

Lemma push_chunk_in n a r b c :
  rope_in n a r → slice_for b c → ∃ r', push_chunk r c = Some r' ∧ rope_in (n + 1) (a ++ b) r'.
Proof.
  intros (h&css&Hr&<-&Hn) Hb. unfold push_chunk.
  assert (Hrest : ∀ h css r b c, rope_of h css r → slice_for b c →
    ∃ r', (if Chunk.is_empty c then Some (mkRope (chunks r))
           else t ← SumTree.push (chunks r) c (); Some (mkRope t)) = Some r' ∧ rope_in (h + 1) (concat css ++ b) r').
  { clear. intros h css r b c Hr [Hok Hc]. rewrite (is_empty_of _ c Hc). case_bool_decide as H0.
    - apply bytes_of_nil_inv in H0 as ->; [|done]. eexists. split; [done|]. rewrite app_nil_r. exists h, css.
      split_and!; [by destruct r|done|lia].
    - destruct Hr as [Hwf Hf]. destruct (push_wf () h (chunks r) c Hwf) as (t'&h'&->&Hwf'&Hh'&El). eexists. split; [done|].
      exists h', (css ++ [b]). rewrite concat_app. cbn [concat]. rewrite app_nil_r. split_and!; [|done|done]. split; [done|].
      cbn [chunks]. rewrite El. apply Forall2_app; [done|]. constructor; [|constructor].
      split_and!; [by intros ->|done|done]. }
  destruct (last_chunk h css r Hr) as [[-> ->]|(css'&cs&els&cl&->&Eel&Hf&Hcl&->)]; cbn [mbind option_bind].
  { destruct (Hrest h [] r b c Hr Hb) as (r'&E&Hr'). exists r'. split; [exact E|]. eapply rope_in_le; [exact Hr'|lia]. }
  destruct (length_text cs cl Hcl) as [Elen Hlen]. pose proof Hb as [Hok Hc]. pose proof (str_ok_bytes b Hok) as Hsb.
  pose proof (chunk_length _ _ Hc) as Hclen.
  assert (El : Chunk.len c = length (bytes_of b)) by by unfold Chunk.len; rewrite (chunk_text _ _ Hc).
  rewrite El. rewrite (chunk_boundary_from_eq _ (bytes_of b)) by (done || lia).
  destruct (fill_last (length (Chunk.text cl)) _ (bytes_of b) Hsb ltac:(lia) eq_refl) as (p&->&Hp&Hfit). cbn [mbind option_bind].
  destruct (chunk_split b c p Hb Hp) as (b1&b2&l&rt&->&->&Hl&Hrt&Ep). cbn [mbind option_bind].
  destruct (append_of (bytes_of cs) (bytes_of b1) cl l) as (e&->&He); [apply Hcl|apply Hl|lia|]. cbn [mbind option_bind].
  destruct (update_last_chunk h _ r css' cs els cl (cs ++ b1) e Hr eq_refl Eel Hf) as (t&->&Hr'); [by eapply chunk_for_app; [| apply Hl|]|].
  cbn [mbind option_bind]. destruct (Hrest h _ (mkRope t) b2 rt Hr' Hrt) as (r'&E&Ht). exists r'. split; [exact E|].
  rewrite concat_app in *. cbn [concat] in *. rewrite app_nil_r in *. rewrite <- !app_assoc in *.
  eapply rope_in_le; [exact Ht|lia].
Qed.

Lemma push_chunk_text a r b c :
  rope_text a r → slice_for b c → ∃ r', push_chunk r c = Some r' ∧ rope_text (a ++ b) r'.
Proof.
  intros Ha Hb. destruct (push_chunk_in _ a r b c (rope_text_in _ _ Ha) Hb) as (r'&E&Hr').
  exists r'. split; [done|]. by eapply rope_in_text.
Qed.

(** ** Appending ropes *)

(** The tree without its first item, by a cursor. *)
Lemma cursor_tail h t (c : Chunk) l :
  wf () h t → h < STACK_CAPACITY → elements t = c :: l →
  ∃ c1 c2 c3 rest h', Cursor.next (cursor_new (D:=()) t ()) = Some c1 ∧ Cursor.next c1 = Some c2 ∧
    Cursor.suffix c2 = Some (c3, rest) ∧ wf () h' rest ∧ h' ≤ h + 1 ∧ elements rest = l.
Proof.
  intros Hwf Hh El. pose proof (cursor_at_new (D:=()) t () h Hwf Hh) as Hc0. rewrite El in Hc0.
  destruct (next_spec (cursor_new (D:=()) t ()) [] (c :: l) [] (c :: l) Hc0) as (c1&E1&T1&Hc1); [done|].
  destruct (next_spec c1 [] (c :: l) [c] l Hc1) as (c2&E2&T2&Hc2).
  { unfold pending. by destruct T1 as (_&_&->). }
  destruct (suffix_spec c2 [c] l Hc2) as (c3&rest&h'&E3&_&_&Hwf'&El'). exists c1, c2, c3, rest, h'.
  destruct (cursor_cx c2) eqn:Ecx. split_and!; try done.
  rewrite <- (wf_height _ _ _ Hwf'). etrans; [exact (slice_height c2 End_new Right _ _ c3 rest Hc2 E3)|].
  destruct T1 as (T1&_), T2 as (T2&_). rewrite T2, T1. cbn. by rewrite (wf_height _ _ _ Hwf).
Qed.

Lemma append_tree_in n a r h css t :
  rope_in n a r → wf () h t → Forall2 chunk_for css (elements t) →
  ∃ r', (t ← SumTree.append (chunks r) t (); Some (mkRope t)) = Some r' ∧ rope_in (max n h + 1) (a ++ concat css) r'.
Proof.
  intros (ha&cssa&[Hwf Hf]&<-&Hn) Hwft Hft.
  destruct (append_wf () ha (chunks r) h t Hwf Hwft) as (t'&h'&->&Hwf'&Hh'&El). eexists. split; [done|].
  exists h', (cssa ++ css). rewrite concat_app. split_and!; [|done|lia]. split; [done|]. cbn [chunks]. rewrite El. by apply Forall2_app.
Qed.

Lemma append_in n a r h k b :
  rope_in n a r → rope_in h k b → h < STACK_CAPACITY →
  ∃ r', append r b = Some r' ∧ rope_in (max n h + 2) (a ++ k) r'.
Proof.
  intros Ha (hb&cssb&[Hwfb Hfb]&<-&Hhb) Hh. unfold append. rewrite (first_wf () hb) by done. cbn [mbind option_bind].
  assert (Hplain : ∃ r', (t ← SumTree.append (chunks r) (chunks b) (); Some (mkRope t)) = Some r' ∧ rope_in (max n h + 2) (a ++ concat cssb) r').
  { destruct (append_tree_in n a r hb cssb (chunks b) Ha Hwfb Hfb) as (r'&E&Hr'). exists r'. split; [exact E|].
    eapply rope_in_le; [exact Hr'|lia]. }
  assert (Hlast : ∃ o, SumTree.last (chunks r) = Some o).
  { destruct Ha as (ha&cssa&[Hwf _]&_). rewrite (last_wf () ha) by done. by eexists. }
  destruct Hlast as [o ->]. cbn [mbind option_bind].
  destruct (elements (chunks b)) as [|c els] eqn:Eel; cbn [head]; [exact Hplain|].
  destruct (match o with Some c0 => bool_decide (length (Chunk.text c0) < MIN_BASE) | None => false end
            || bool_decide (length (Chunk.text c) < MIN_BASE)); [|exact Hplain]. clear Hplain.
  apply Forall2_cons_inv_r in Hfb as (cs&css'&(Hne&Hok&Hc)&Hf'&->).
  destruct (push_chunk_in n a r cs c Ha) as (r1&->&Hr1); [done|]. cbn [mbind option_bind].
  destruct (cursor_tail hb (chunks b) c els Hwfb ltac:(lia) Eel) as (c1&c2&c3&rest&h'&E1&E2&E3&Hwf'&Hh'&El').
  rewrite E1. cbn [mbind option_bind]. rewrite E2. cbn [mbind option_bind]. rewrite E3. cbn [mbind option_bind].
  destruct (append_tree_in (n + 1) (a ++ cs) r1 h' css' rest Hr1 Hwf') as (r'&E&Hr'); [by rewrite El'|].
  exists r'. split; [exact E|]. cbn [concat]. rewrite app_assoc. eapply rope_in_le; [exact Hr'|lia].
Qed.

Lemma append_text a r h css b :
  rope_text a r → rope_of h css b → h < STACK_CAPACITY →
  ∃ r', append r b = Some r' ∧ rope_text (a ++ concat css) r'.
Proof.
  intros Ha Hb Hh. destruct (append_in _ a r h (concat css) b (rope_text_in _ _ Ha)) as (r'&E&Hr'); [by exists h, css|done|].
  exists r'. split; [done|]. by eapply rope_in_text.
Qed.

(** ** Prepending *)

Lemma push_front_text h css r b :
  rope_of h css r → h < STACK_CAPACITY → Forall char_ok b →
  ∃ r', push_front r (bytes_of b) = Some r' ∧ rope_text (b ++ concat css) r'.
Proof.
  intros Hr Hh Hok. unfold push_front. case_bool_decide as H0.
  { apply nil_length_inv in H0. apply bytes_of_nil_inv in H0 as ->; [|done]. exists r. split; [done|]. by exists h, css. }
  unfold is_empty. rewrite (rope_len _ _ _ Hr). case_bool_decide as He.
  { apply nil_length_inv in He. apply bytes_of_nil_inv in He; [|destruct Hr; by eapply chunk_for_ok].
    destruct (push_text [] r b) as (r'&E&Hr'); [by exists h, css|done|]. exists r'. split; [done|]. by rewrite He, app_nil_r. }
  assert (Hgen : ∃ r', (prefix ← from_text (bytes_of b); append prefix r) = Some r' ∧ rope_text (b ++ concat css) r').
  { destruct (from_text_text b Hok) as (pre&->&Hpre). cbn [mbind option_bind]. by apply (append_text b pre h css r). }
  pose proof Hr as [Hwf Hf]. rewrite (first_wf () h) by done. cbn [mbind option_bind].
  destruct (elements (chunks r)) as [|c els] eqn:Eel; cbn [head]; [done|]. case_bool_decide as Hfit; [|done].
  apply Forall2_cons_inv_r in Hf as (cs&css'&Hc&Hf'&->). destruct (length_text cs c Hc) as [Elen _].
  destruct (prepend_str_of (bytes_of b) (bytes_of cs) c) as (e&->&He'); [by apply str_ok_bytes|apply Hc|lia|]. cbn [mbind option_bind].
  destruct (update_first_wf () (λ _, e) h (chunks r) Hwf) as (t&->&Hwf'&Et). cbn [mbind option_bind]. eexists. split; [done|].
  exists h, ((b ++ cs) :: css'). cbn [concat]. rewrite app_assoc. split; [|done]. split; [done|]. cbn [chunks]. rewrite Et, Eel.
  constructor; [|done]. destruct Hc as (Hne&Hok'&_). split_and!; [by destruct b|by apply Forall_app|by rewrite bytes_of_app].
Qed.
