(* ===== verification/RopeCursor.v ===== *)
(** The cursor that cuts a rope, on the text: [cursor_place c a b] says that
    the cursor is between the characters [a] and [b].  Seeking moves it,
    slicing returns the rope of what it passes, so [slice] and [replace] are
    the operations on the text. *)

From stdpp Require Import base numbers option list.
From S2P Require Import Prelude SumTree SumTreeFacts Search Cursor CursorFacts StepFacts BackFacts Iter CursorApi SliceHeight Utf8 Point Bits Chunk ChunkBits ChunkSummary ChunkFacts Rope TextSummary RopeTree RopePlace RopeEdit.

#[local] Open Scope nat_scope.

(** The length of a text in bytes. *)
Abbreviation blen cs := (length (bytes_of cs)).

Lemma blen_app a b : blen (a ++ b) = blen a + blen b.
Proof. by rewrite bytes_of_app, length_app. Qed.

Lemma blen_pos a : Forall char_ok a → a ≠ [] → 0 < blen a.
Proof. intros Hok Hne. pose proof (len_from_str_pos a Hne Hok). by rewrite len_from_str in *. Qed.

(** Of two prefixes of a text the one with fewer bytes is the shorter. *)
Lemma prefix_of_blen p q a b :
  p ++ q = a ++ b → Forall char_ok (p ++ q) → blen a ≤ blen p → ∃ x, p = a ++ x ∧ b = x ++ q.
Proof.
  intros [(k&->&->)|(k&->&->)]%app_eq_inv Hok Hle; [by exists k|].
  rewrite blen_app in Hle. apply Forall_app in Hok as [_ Hk]. apply Forall_app in Hk as [Hk _].
  destruct (decide (k = [])) as [->|Hne]; [exists []; by rewrite !app_nil_r|].
  pose proof (blen_pos k Hk Hne). lia.
Qed.

#[local] Ltac go := cbn [assert_ mbind option_bind].

(** ** Searching by bytes *)

Lemma nat_dim_mono (d : nat) (l : list Chunk) : dim_mono () d l.
Proof.
  intros l1 l2 l3 _ _. unfold dsum. rewrite foldl_app. generalize (foldl (λ d i, dim_add_summary d (item_summary_of i ()) ()) d l1).
  intros n. enough (n ≤ foldl (λ d i, dim_add_summary d (item_summary_of i ()) ()) n l2).
  { unfold cmp, nat_Ord. by intros ?%Nat.compare_gt_iff; lia. }
  clear. revert n. induction l2 as [|i l2 IH]; intros n; cbn [foldl]; [lia|].
  etrans; [|apply IH]. cbn. lia.
Qed.

Section cursors.
Implicit Types (c : RopeCursor) (a b x y : list Z) (css : list (list Z)).

Definition cursor_place n c a b : Prop :=
  ∃ h css1 css2 els1 els2 x,
    wf () h (chunks (cursor_rope c)) ∧ h ≤ n ∧
    cursor_tree (cursor_chunks c) = chunks (cursor_rope c) ∧ did_seek (cursor_chunks c) = true ∧
    cursor_at (cursor_chunks c) els1 els2 ∧ Forall2 chunk_for css1 els1 ∧ Forall2 chunk_for css2 els2 ∧
    cursor_offset c = blen a ∧ a = concat css1 ++ x ∧ concat css2 = x ++ b ∧
    match css2 with [] => True | cs :: _ => ∃ y, cs = x ++ y end.

Lemma cursor_place_text n c a b : cursor_place n c a b → rope_text (a ++ b) (cursor_rope c).
Proof.
  intros (h&css1&css2&els1&els2&x&Hwf&_&Et&_&Hat&Hf1&Hf2&_&->&E&_). exists h, (css1 ++ css2). split.
  - split; [done|]. rewrite <- Et, (cursor_at_elements _ _ _ Hat). by apply Forall2_app.
  - rewrite concat_app, E. by rewrite app_assoc.
Qed.

(** The position of the tree's cursor is the length of the text before it. *)
Lemma start_text (cs : Cursor Chunk ChunkSummary nat ()) css1 els1 els2 :
  cursor_at cs els1 els2 → Forall2 chunk_for css1 els1 → start cs = blen (concat css1).
Proof.
  intros (h&_&_&Hp&_) Hf. unfold start. rewrite Hp. change (dim_zero (cursor_cx cs)) with (metric (from_str []) : nat).
  destruct (cursor_cx cs). rewrite (chunks_dsum [] css1) by done. cbn [app]. unfold metric, usize_Metric.
  by rewrite len_from_str.
Qed.

Lemma end_text (cs : Cursor Chunk ChunkSummary nat ()) css1 els1 css2 els2 :
  cursor_at cs els1 els2 → did_seek cs = true → Forall2 chunk_for css1 els1 → Forall2 chunk_for css2 els2 →
  end_ cs = Some (blen (concat css1 ++ default [] (head css2))).
Proof.
  intros Hat Hd Hf1 Hf2. rewrite (end_at _ _ _ Hat Hd). pose proof (start_text _ _ _ _ Hat Hf1) as Hs. unfold start in Hs.
  rewrite Hs. f_equal. rewrite blen_app. destruct (cursor_cx cs). destruct Hf2 as [|k c css els Hk _]; cbn [head option_list default].
  - cbn. lia.
  - change (option_list (Some c)) with [c]. change (id k) with k. unfold dsum. cbn [foldl]. rewrite (chunk_for_summary k c Hk). cbn [dim_add_summary usize_Dimension TextSummary.text].
    by rewrite len_from_str.
Qed.

(** Where a search by bytes stops, right biased. *)
Lemma bytes_cut (cs : Cursor Chunk ChunkSummary nat ()) (target : nat) css1 css2 els1 els2 :
  cursor_at cs els1 els2 → Forall2 chunk_for css1 els1 → Forall2 chunk_for css2 els2 → blen (concat css1) ≤ target →
  ∃ css3 css4 els3 els4, css2 = css3 ++ css4 ∧ els2 = els3 ++ els4 ∧
    Forall2 chunk_for css3 els3 ∧ Forall2 chunk_for css4 els4 ∧
    seekable cs target Right els2 ∧ seek_cut cs target Right els2 = (els3, els4) ∧
    blen (concat css1 ++ concat css3) ≤ target ∧
    (∀ k rest, css4 = k :: rest → target < blen (concat css1 ++ concat css3 ++ k)).
Proof.
  intros Hat Hf1 Hf2 Hle. pose proof (start_text _ _ _ _ Hat Hf1) as Hs. unfold start in Hs.
  destruct (seek_split_chunks (stops () target Right : nat → bool) (concat css1) css2 els2 Hf2)
    as (css3&css4&els3&els4&->&->&Hf3&Hf4&Hsplit&H3&H4).
  assert (Emetric : ∀ k, metric (from_str k) = blen k :> nat) by (intros; apply len_from_str).
  exists css3, css4, els3, els4. split_and!; try done.
  - split; [|destruct (cursor_cx cs); apply seek_good_mono, seek_mono_ord, nat_dim_mono].
    rewrite Hs. unfold target_cmp, Ord_SeekTarget, cmp, nat_Ord. rewrite Nat.compare_lt_iff. lia.
  - unfold seek_cut. rewrite Hs, <- Emetric. by destruct (cursor_cx cs).
  - destruct css3 as [|k css3]; [cbn [concat]; by rewrite app_nil_r|]. specialize (H3 ltac:(done)). rewrite Emetric in H3.
    unfold stops, target_cmp, Ord_SeekTarget, cmp, nat_Ord in H3.
    destruct (Nat.compare_spec target (blen (concat css1 ++ concat (k :: css3)))); try done; lia.
  - intros k rest E. specialize (H4 _ _ E). rewrite Emetric in H4. unfold stops, target_cmp, Ord_SeekTarget, cmp, nat_Ord in H4.
    destruct (Nat.compare_spec target (blen (concat css1 ++ concat css3 ++ k))); done.
Qed.

(** The same, on the characters. *)
Lemma text_cut (cs : Cursor Chunk ChunkSummary nat ()) css1 css2 els1 els2 a b :
  cursor_at cs els1 els2 → Forall2 chunk_for css1 els1 → Forall2 chunk_for css2 els2 →
  concat css1 ++ concat css2 = a ++ b → blen (concat css1) ≤ blen a →
  ∃ css3 css4 els3 els4 x, css2 = css3 ++ css4 ∧ els2 = els3 ++ els4 ∧
    Forall2 chunk_for css3 els3 ∧ Forall2 chunk_for css4 els4 ∧
    seekable cs (blen a) Right els2 ∧ seek_cut cs (blen a) Right els2 = (els3, els4) ∧
    a = concat (css1 ++ css3) ++ x ∧ concat css4 = x ++ b ∧
    match css4 with [] => True | k :: _ => ∃ y, k = x ++ y end.
Proof.
  intros Hat Hf1 Hf2 E Hle.
  destruct (bytes_cut cs (blen a) css1 css2 els1 els2 Hat Hf1 Hf2 Hle)
    as (css3&css4&els3&els4&->&->&Hf3&Hf4&Hseek&Hcut&Hlo&Hhi).
  assert (Hok : Forall char_ok (a ++ b)).
  { rewrite <- E. apply Forall_app. split; by eapply chunk_for_ok. }
  rewrite concat_app, app_assoc in E. rewrite <- concat_app in E, Hlo.
  destruct (prefix_of_blen a b (concat (css1 ++ css3)) (concat css4)) as (x&->&Ex); [done..|].
  exists css3, css4, els3, els4, x. split_and!; try done. destruct css4 as [|k rest]; [done|].
  specialize (Hhi _ _ eq_refl). rewrite app_assoc, <- concat_app, !blen_app in Hhi.
  cbn [concat] in Ex. destruct (prefix_of_blen k (concat rest) x b) as (y&->&_); [done| |lia|by exists y].
  rewrite Ex. rewrite <- app_assoc in Hok. by apply Forall_app in Hok as [_ ?].
Qed.

Lemma cursor_text n r a b :
  rope_in n (a ++ b) r → n < STACK_CAPACITY →
  ∃ c, cursor r (blen a) = Some c ∧ cursor_rope c = r ∧ cursor_place n c a b.
Proof.
  intros (h&css&[Hwf Hf]&E&Hhn) Hn. assert (Hh : h < STACK_CAPACITY) by lia. pose proof (cursor_at_new (D:=nat) (chunks r) () h Hwf Hh) as Hat.
  destruct (text_cut _ [] css [] _ a b Hat ltac:(constructor) Hf E ltac:(cbn; lia))
    as (css3&css4&els3&els4&x&->&Eel&Hf3&Hf4&Hseek&Hcut&Ea&Eb&Hhead).
  destruct (seek_spec (cursor_new (chunks r) ()) (blen a) Right [] (elements (chunks r)) els3 els4 Hat Hseek Hcut)
    as (c'&Es&(Ht&_&Hd)&Hat').
  unfold cursor. rewrite Es. eexists. split; [done|]. split; [done|].
  by exists h, css3, css4, els3, els4, x.
Qed.

Lemma seek_forward_text n c a b1 b2 :
  cursor_place n c a (b1 ++ b2) →
  ∃ c', seek_forward c (blen (a ++ b1)) = Some c' ∧ cursor_rope c' = cursor_rope c ∧ cursor_place n c' (a ++ b1) b2.
Proof.
  intros Hc. pose proof (cursor_place_text _ _ _ _ Hc) as (hr&cssr&Hr&Er).
  destruct Hc as (h&css1&css2&els1&els2&x&Hwf&Hhn&Et&Hd&Hat&Hf1&Hf2&Eo&Ea&Eb&_).
  unfold seek_forward. rewrite Eo, (rope_len _ _ _ Hr), Er, !blen_app, !bool_decide_eq_true_2 by lia.
  cbn [assert_ mbind option_bind]. rewrite <- blen_app.
  destruct (text_cut (cursor_chunks c) css1 css2 els1 els2 (a ++ b1) b2 Hat Hf1 Hf2)
    as (css3&css4&els3&els4&x'&->&->&Hf3&Hf4&Hseek&Hcut&Ea'&Eb'&Hhead).
  { rewrite Eb, Ea. by rewrite <- !app_assoc. }
  { rewrite Ea, !blen_app. lia. }
  destruct (seek_forward_spec (cursor_chunks c) _ Right els1 _ els3 els4 Hat Hseek Hcut) as (c'&->&(Ht&_&Hd')&Hat').
  cbn [mbind option_bind]. eexists. split; [done|]. split; [done|].
  exists h, (css1 ++ css3), css4, (els1 ++ els3), els4, x'. split_and!; try done; [cbn; congruence|by apply Forall2_app].
Qed.

(** ** Slicing *)

Lemma chunk_slice_text k (ck : Chunk) x y z :
  slice_for k ck → k = x ++ y ++ z →
  ∃ d, Chunk.slice ck (blen x) (blen (x ++ y)) = Some d ∧ slice_for y d.
Proof.
  intros (Hok&Hc) ->. assert (Hb : ∀ u v, x ++ y ++ z = u ++ v → Utf8.is_char_boundary (bytes_of (x ++ y ++ z)) (blen u) = true).
  { intros u v E. apply boundary_split; [done|]. exists u, v. done. }
  destruct (slice_of _ ck (blen x) (blen (x ++ y)) Hc (Hb x (y ++ z) eq_refl)) as (d&E&Hd).
  { apply (Hb (x ++ y) z). by rewrite app_assoc. }
  { rewrite blen_app. lia. }
  exists d. split; [done|]. split; [by apply Forall_app in Hok as [_ [? _]%Forall_app]|].
  rewrite !bytes_of_app, length_app, Nat.add_comm, Nat.add_sub, drop_app_length, take_app_length in Hd. done.
Qed.

Lemma rope_in_new : rope_in 0 [] Rope_new.
Proof. exists 0, []. split; [apply rope_of_new|done]. Qed.

(** The parts of a range: what the cursor takes of its chunk, *)
Inductive first_part n c a b1 b2 : Prop :=
  | first_none chunks_end :
      Cursor.item (cursor_chunks c) = Some None → Cursor.end_ (cursor_chunks c) = Some chunks_end →
      ¬ chunks_end < blen (a ++ b1) → b1 = [] →
      cursor_place n (mkRopeCursor (cursor_rope c) (cursor_chunks c) (blen (a ++ b1))) (a ++ b1) b2 →
      first_part n c a b1 b2
  | first_only ck d chunks_end start_ix end_ix :
      Cursor.item (cursor_chunks c) = Some (Some ck) → Cursor.end_ (cursor_chunks c) = Some chunks_end →
      usub (cursor_offset c) (start (cursor_chunks c)) = Some start_ix →
      usub (blen (a ++ b1) `min` chunks_end) (start (cursor_chunks c)) = Some end_ix →
      Chunk.slice ck start_ix end_ix = Some d → slice_for b1 d → ¬ chunks_end < blen (a ++ b1) →
      cursor_place n (mkRopeCursor (cursor_rope c) (cursor_chunks c) (blen (a ++ b1))) (a ++ b1) b2 →
      first_part n c a b1 b2
  | first_more ck d chunks_end start_ix end_ix y b1' css1 css2 els1 els2 cs :
      Cursor.item (cursor_chunks c) = Some (Some ck) → Cursor.end_ (cursor_chunks c) = Some chunks_end →
      usub (cursor_offset c) (start (cursor_chunks c)) = Some start_ix →
      usub (blen (a ++ b1) `min` chunks_end) (start (cursor_chunks c)) = Some end_ix →
      Chunk.slice ck start_ix end_ix = Some d → slice_for y d → b1 = y ++ b1' → chunks_end < blen (a ++ b1) →
      Cursor.next (cursor_chunks c) = Some cs → cursor_tree cs = chunks (cursor_rope c) →
      cursor_at cs els1 els2 → Forall2 chunk_for css1 els1 → Forall2 chunk_for css2 els2 →
      concat css1 = a ++ y → concat css2 = b1' ++ b2 →
      first_part n c a b1 b2.

Lemma cursor_first_part n c a b1 b2 : cursor_place n c a (b1 ++ b2) → first_part n c a b1 b2.
Proof.
  intros (h&css1&css2&els1&els2&x&Hwf&Hhn&Et&Hd&Hat&Hf1&Hf2&Eo&Ea&Eb&Hhead).
  pose proof (item_at _ _ _ Hat Hd) as Ei. pose proof (end_text _ _ _ _ _ Hat Hd Hf1 Hf2) as Ee.
  pose proof (start_text _ _ _ _ Hat Hf1) as Es.
  destruct Hf2 as [|k ck css2 els2 Hk Hf2]; cbn [head default] in Ei, Ee.
  { cbn [concat] in Eb. symmetry in Eb. apply app_nil in Eb as [-> Eb]. apply app_nil in Eb as [-> ->].
    change (id []) with ([] : list Z) in Ee. rewrite !app_nil_r in *. eapply first_none; [done|done|..].
    - subst a. rewrite app_nil_r. lia.
    - done.
    - exists h, css1, [], els1, [], []. by rewrite !app_nil_r. }
  destruct Hhead as [y ->]. cbn [concat] in Eb. rewrite <- app_assoc in Eb. apply (inj (app x)) in Eb.
  change (id (x ++ y)) with (x ++ y) in Ee. subst a.
  assert (Eix : usub (cursor_offset c) (start (cursor_chunks c)) = Some (blen x)).
  { rewrite Eo, Es, blen_app, usub_le by lia. f_equal. lia. }
  symmetry in Eb. assert (Hok : Forall char_ok (b1 ++ b2)).
  { rewrite Eb. apply Forall_app. split; [|by eapply chunk_for_ok].
    destruct Hk as (_&Hk&_). by apply Forall_app in Hk as [_ ?]. }
  destruct (decide (blen b1 ≤ blen y)) as [Hle|Hgt].
  - destruct (prefix_of_blen y (concat css2) b1 b2) as (y'&->&->); [by rewrite Eb|by rewrite <- Eb|done|].
    destruct (chunk_slice_text _ ck x b1 y' (proj2 Hk) eq_refl) as (d&Ed&Hds).
    eapply first_only; [exact Ei|exact Ee|exact Eix| |exact Ed|exact Hds| |].
    + rewrite Es, !blen_app, usub_le by lia. f_equal. lia.
    + rewrite !blen_app. lia.
    + exists h, css1, ((x ++ b1 ++ y') :: css2), els1, (ck :: els2), (x ++ b1). split_and!; try done.
      * by constructor.
      * by rewrite app_assoc.
      * cbn [concat]. by rewrite <- !app_assoc.
      * exists y'. by rewrite app_assoc.
  - destruct (prefix_of_blen b1 b2 y (concat css2)) as (b1'&->&Eb'); [done|done|lia|].
    destruct (chunk_slice_text (x ++ y) ck x y [] (proj2 Hk)) as (d&Ed&Hds); [by rewrite app_nil_r|].
    destruct (next_spec _ els1 (ck :: els2) (els1 ++ [ck]) els2 Hat) as (cs&En&(Ht&_&Hd')&Hat').
    { unfold pending. by rewrite Hd. }
    eapply (first_more _ _ _ _ _ ck d _ _ _ y b1' (css1 ++ [x ++ y]) css2); [exact Ei|exact Ee|exact Eix| |exact Ed|exact Hds|done| |exact En| |exact Hat'| |exact Hf2| |exact Eb'].
    + rewrite Es, !blen_app, usub_le by lia. f_equal. lia.
    + rewrite !blen_app in *. lia.
    + congruence.
    + apply Forall2_app; [done|by constructor].
    + rewrite concat_app. cbn [concat]. by rewrite app_nil_r, app_assoc.
Qed.

(** and what it takes of the last one. *)
Lemma cursor_last_part n (rope : Rope) h (cs : Cursor Chunk ChunkSummary nat ()) css1 css2 els1 els2 x a b :
  wf () h (chunks rope) → h ≤ n → cursor_tree cs = chunks rope → did_seek cs = true → cursor_at cs els1 els2 →
  Forall2 chunk_for css1 els1 → Forall2 chunk_for css2 els2 → a = concat css1 ++ x → concat css2 = x ++ b →
  match css2 with [] => True | k :: _ => ∃ y, k = x ++ y end →
  cursor_place n (mkRopeCursor rope cs (blen a)) a b ∧
  (Cursor.item cs = Some None ∧ x = [] ∨
   ∃ ck d end_ix, Cursor.item cs = Some (Some ck) ∧ usub (blen a) (start cs) = Some end_ix ∧
     Chunk.slice ck 0 end_ix = Some d ∧ slice_for x d).
Proof.
  intros Hwf Hn Et Hd Hat Hf1 Hf2 Ea Eb Hhead. split; [by exists h, css1, css2, els1, els2, x|].
  rewrite (item_at _ _ _ Hat Hd), (start_text _ _ _ _ Hat Hf1). destruct Hf2 as [|k ck css2 els2 Hk _]; cbn [head].
  - left. split; [done|]. cbn [concat] in Eb. symmetry in Eb. by apply app_nil in Eb as [-> _].
  - right. destruct Hhead as [y ->]. destruct (chunk_slice_text (x ++ y) ck [] x y (proj2 Hk) eq_refl) as (d&Ed&Hds).
    exists ck, d, (blen x). split_and!; try done.
    rewrite Ea, blen_app, usub_le by lia. f_equal. lia.
Qed.

Lemma cursor_slice_text n c a b1 b2 :
  cursor_place n c a (b1 ++ b2) → n + 1 < STACK_CAPACITY →
  ∃ c' r, cursor_slice c (blen (a ++ b1)) = Some (c', r) ∧ cursor_rope c' = cursor_rope c ∧
    cursor_place n c' (a ++ b1) b2 ∧ rope_in (n + 4) b1 r.
Proof.
  intros Hc Hn. pose proof (cursor_place_text _ _ _ _ Hc) as (hr&cssr&Hr&Er).
  pose proof (cursor_first_part _ _ _ _ _ Hc) as Hfirst. destruct Hc as (h&_&_&_&_&_&Hwf&Hhn&_&_&_&_&_&Eo&_).
  unfold cursor_slice. rewrite (rope_len _ _ _ Hr), Er, !bool_decide_eq_true_2 by (rewrite ?Eo, !blen_app; lia). go.
  destruct Hfirst as [e -> -> He -> Hp|ck d e i j -> -> Ei Ej Ed Hd He Hp
    |ck d e i j y b1' css1 css2 els1 els2 cs -> -> Ei Ej Ed Hd -> He En Et Hat Hf1 Hf2 E1 E2].
  - go. rewrite bool_decide_eq_false_2 by done. eexists _, Rope_new. split_and!; try done.
    eapply rope_in_le; [apply rope_in_new|lia].
  - go. rewrite Ei. go. rewrite Ej. go. rewrite Ed. go. destruct (push_chunk_in 0 [] Rope_new b1 d rope_in_new Hd) as (r&->&Hr'). go.
    rewrite bool_decide_eq_false_2 by done. eexists _, r. split_and!; try done. eapply rope_in_le; [exact Hr'|lia].
  - go. rewrite Ei. go. rewrite Ej. go. rewrite Ed. go. destruct (push_chunk_in 0 [] Rope_new y d rope_in_new Hd) as (r&->&Hr'). go.
    rewrite bool_decide_eq_true_2 by done. rewrite En. go.
    rewrite !(app_assoc a) in *. rewrite <- E1 in *.
    destruct (text_cut cs css1 css2 els1 els2 (concat css1 ++ b1') b2 Hat Hf1 Hf2)
      as (css3&css4&els3&els4&x&->&->&Hf3&Hf4&Hseek&Hcut&Ea&Eb&Hhead); [by rewrite E2, app_assoc|rewrite blen_app; lia|].
    destruct (slice_spec cs _ Right _ _ els3 els4 Hat Hseek Hcut) as (cs'&m&hm&Es&(Ht'&_&Hd')&Hat'&Hwfm&Em).
    pose proof (slice_height cs _ Right _ _ cs' m Hat Es) as Hhm. rewrite (wf_height _ _ _ Hwfm), Et, (wf_height _ _ _ Hwf) in Hhm.
    rewrite Es. go. destruct (cursor_cx cs).
    destruct (append_in 1 y r (n + 1) (concat css3) (mkRope m) Hr') as (r1&->&Hr1).
    { exists hm, css3. split_and!; [|done|lia]. split; [done|cbn [chunks]; by rewrite Em]. }
    { lia. }
    go. destruct (cursor_last_part n (cursor_rope c) h cs' (css1 ++ css3) css4 (els1 ++ els3) els4 x (concat css1 ++ b1') b2)
      as [Hp [[-> ->]|(ck'&d'&j'&->&->&Ed'&Hd'')]]; try done; [congruence|by apply Forall2_app|..]; go;
      rewrite concat_app, <- app_assoc in Ea; apply (inj (app (concat css1))) in Ea; subst b1'.
    + eexists _, r1. split_and!; try done. rewrite app_nil_r. eapply rope_in_le; [exact Hr1|lia].
    + rewrite Ed'. go. destruct (push_chunk_in _ _ r1 x d' Hr1 Hd'') as (r2&->&Hr2). go.
      eexists _, r2. split_and!; try done. rewrite app_assoc. eapply rope_in_le; [exact Hr2|lia].
Qed.

Lemma cursor_suffix_text n c a b :
  cursor_place n c a b → n + 1 < STACK_CAPACITY → ∃ r, cursor_suffix c = Some r ∧ rope_in (n + 4) b r.
Proof.
  intros Hc Hn. pose proof (cursor_place_text _ _ _ _ Hc) as (hr&cssr&Hr&Er).
  destruct (cursor_slice_text n c a b [] ltac:(by rewrite app_nil_r) Hn) as (c'&r&E&_&_&Hr').
  exists r. unfold cursor_suffix. pose proof (rope_len _ _ _ Hr) as El. unfold Rope.len in El. rewrite El, Er, E. done.
Qed.

(** The measure of a range. *)
Class TextDimensionLaws (D : Type) `{!Dimension D ChunkSummary (), !Metric D, !TextDimension D} : Prop := {
  from_chunk_metric x ck : Forall char_ok x → chunk_of (bytes_of x) ck → from_chunk ck = metric (from_str x) :> D;
  from_text_summary_metric s : from_text_summary s = metric s :> D;
  add_assign_metric a b : Forall char_ok (a ++ b) → small (a ++ b) →
    add_assign (metric (from_str a)) (metric (from_str b)) = metric (from_str (a ++ b)) :> D
}.

Lemma cursor_summary_text {D} `{MetricLaws D, !TextDimension D, !TextDimensionLaws D, !DimensionLaws D ChunkSummary ()} n c a b1 b2 :
  cursor_place n c a (b1 ++ b2) → small b1 →
  ∃ c', Rope.cursor_summary c (blen (a ++ b1)) = Some (c', metric (from_str b1) : D) ∧ cursor_rope c' = cursor_rope c ∧
    cursor_place n c' (a ++ b1) b2.
Proof.
  intros Hc Hs. pose proof (cursor_place_text _ _ _ _ Hc) as (hr&cssr&Hr&Er).
  assert (Hok : Forall char_ok b1).
  { destruct Hr as [_ Hf]. apply chunk_for_ok in Hf. rewrite Er in Hf.
    apply Forall_app in Hf as [_ Hf]. by apply Forall_app in Hf as [? _]. }
  pose proof (cursor_first_part _ _ _ _ _ Hc) as Hfirst. destruct Hc as (h&_&_&_&_&_&Hwf&Hhn&_&_&_&_&_&Eo&_).
  unfold Rope.cursor_summary. rewrite (rope_len _ _ _ Hr), Er, !bool_decide_eq_true_2 by (rewrite ?Eo, !blen_app; lia). go.
  assert (Hzero : ∀ y ck, Forall char_ok y → small y → chunk_of (bytes_of y) ck →
    add_assign (dim_zero () : D) (from_chunk ck) = metric (from_str y)).
  { intros y ck Hy Hsy Hck. rewrite (from_chunk_metric y), metric_zero by done.
    change TextSummary_default with (from_str []). by rewrite add_assign_metric. }
  destruct Hfirst as [e -> -> He -> Hp|ck d e i j -> -> Ei Ej Ed Hd He Hp
    |ck d e i j y b1' css1 css2 els1 els2 cs -> -> Ei Ej Ed Hd -> He En Et Hat Hf1 Hf2 E1 E2].
  - go. rewrite bool_decide_eq_false_2 by done. change (dim_zero ()) with (dim_zero () : D).
    rewrite metric_zero. eexists. by split_and!.
  - go. rewrite Ei. go. rewrite Ej. go. rewrite Ed. go. destruct Hd as [_ Hd]. rewrite (Hzero b1) by done.
    rewrite bool_decide_eq_false_2 by done. eexists; by split_and!.
  - go. rewrite Ei. go. rewrite Ej. go. rewrite Ed. go. destruct Hd as [Hy Hd].
    pose proof (small_app_l _ _ Hs) as Hsy. rewrite (Hzero y) by done.
    rewrite bool_decide_eq_true_2 by done. rewrite En. go. rewrite !(app_assoc a) in *. rewrite <- E1 in *.
    destruct (text_cut cs css1 css2 els1 els2 (concat css1 ++ b1') b2 Hat Hf1 Hf2)
      as (css3&css4&els3&els4&x&->&->&Hf3&Hf4&Hseek&Hcut&Ea&Eb&Hhead); [by rewrite E2, app_assoc|rewrite blen_app; lia|].
    destruct (cursor_summary_spec (Output:=D) cs _ Right _ _ els3 els4 Hat Hseek Hcut) as (cs'&->&(Ht'&_&Hd')&Hat').
    go. destruct (cursor_cx cs). change (dim_zero ()) with (dim_zero () : D). rewrite metric_zero.
    change TextSummary_default with (from_str []). rewrite (chunks_dsum [] css3) by done. cbn [app].
    destruct (cursor_last_part n (cursor_rope c) h cs' (css1 ++ css3) css4 (els1 ++ els3) els4 x (concat css1 ++ b1') b2)
      as [Hp [[-> ->]|(ck'&d'&j'&->&->&Ed'&Hd'')]]; try done; [congruence|by apply Forall2_app|..]; go;
      rewrite concat_app, <- app_assoc in Ea; apply (inj (app (concat css1))) in Ea; subst b1'.
    + rewrite app_nil_r in *. rewrite add_assign_metric by done. eexists; by split_and!.
    + rewrite Ed'. go. destruct Hd'' as [Hx Hdx]. rewrite (app_assoc y) in *.
      rewrite add_assign_metric; [|by apply Forall_app in Hok as [? _]|by apply small_app_l in Hs].
      rewrite (from_chunk_metric x) by done. rewrite add_assign_metric by done. eexists; by split_and!.
Qed.
End cursors.

(** ** Cutting a rope *)

Lemma slice_text n r a b d :
  rope_in n (a ++ b ++ d) r → n + 1 < STACK_CAPACITY →
  ∃ r', slice r (blen a) (blen (a ++ b)) = Some r' ∧ rope_in (n + 4) b r'.
Proof.
  intros Hr Hn. unfold slice. change 0 with (blen []).
  destruct (cursor_text n r [] (a ++ b ++ d) Hr ltac:(lia)) as (c0&->&_&Hc0). go.
  destruct (seek_forward_text n c0 [] a (b ++ d) Hc0) as (c1&E1&_&Hc1). cbn [app] in E1, Hc1. rewrite E1. go.
  destruct (cursor_slice_text n c1 a b d Hc1 Hn) as (c2&r'&->&_&_&Hr'). go. by exists r'.
Qed.

Lemma replace_text n r a b d k :
  rope_in n (a ++ b ++ d) r → n + 4 < STACK_CAPACITY → Forall char_ok k →
  ∃ r', replace r (blen a) (blen (a ++ b)) (bytes_of k) = Some r' ∧ rope_text (a ++ k ++ d) r'.
Proof.
  intros Hr Hn Hk. unfold replace. change (cursor r 0) with (cursor r (blen [])).
  destruct (cursor_text n r [] (a ++ b ++ d) Hr ltac:(lia)) as (c0&->&_&Hc0). go.
  destruct (cursor_slice_text n c0 [] a (b ++ d) Hc0 ltac:(lia)) as (c1&pre&E1&_&Hc1&Hpre). cbn [app] in E1, Hc1. rewrite E1. go.
  destruct (append_in 0 [] Rope_new (n + 4) a pre rope_in_new Hpre ltac:(lia)) as (r1&->&Hr1). go.
  destruct (seek_forward_text n c1 a b d Hc1) as (c2&->&_&Hc2). go.
  destruct (push_text a r1 k (rope_in_text _ _ _ Hr1) Hk) as (r2&->&Hr2). go.
  destruct (cursor_suffix_text n c2 (a ++ b) d Hc2 ltac:(lia)) as (suf&->&Hsuf). go.
  destruct (append_in _ (a ++ k) r2 (n + 4) d suf (rope_text_in _ _ Hr2) Hsuf ltac:(lia)) as (r3&->&Hr3).
  exists r3. split; [done|]. rewrite app_assoc. by eapply rope_in_text.
Qed.

(** The instances. *)
#[export] Instance TextSummary_Metric : Metric TextSummary := λ s, s.
#[export] Instance TextSummary_MetricLaws : MetricLaws TextSummary.
Proof. by split. Qed.
#[export] Instance TextSummary_TextDimensionLaws : TextDimensionLaws TextSummary.
Proof.
  split; [|done|].
  - intros x ck Hx Hck. by apply text_summary_of.
  - intros a b _ _. symmetry. apply from_str_app.
Qed.
#[export] Instance usize_TextDimensionLaws : TextDimensionLaws nat.
Proof.
  split; [|done|].
  - intros x ck Hx Hck. change (Chunk.len ck = TextSummary.len (from_str x)). rewrite <- (proj1 (text_summary_lengths ck)). by rewrite (text_summary_of x).
  - intros a b _ _. symmetry. apply len_app.
Qed.
#[export] Instance OffsetUtf16_TextDimensionLaws : TextDimensionLaws OffsetUtf16.
Proof.
  split; [|done|].
  - intros x ck Hx Hck. change (Chunk.len_utf16 ck = TextSummary.len_utf16 (from_str x)). rewrite <- (proj1 (proj2 (text_summary_lengths ck))). by rewrite (text_summary_of x).
  - intros a b Hok Hs. by apply len_utf16_add.
Qed.
#[export] Instance Point_TextDimensionLaws : TextDimensionLaws Point.
Proof.
  split; [|done|].
  - intros x ck Hx Hck. change (Chunk.lines ck = TextSummary.lines (from_str x)). rewrite <- (proj1 (proj2 (proj2 (text_summary_lengths ck)))). by rewrite (text_summary_of x).
  - intros a b Hok Hs. by apply lines_add.
Qed.
#[export] Instance PointUtf16_TextDimensionLaws : TextDimensionLaws PointUtf16.
Proof.
  split; [|done|].
  - intros x ck Hx Hck. change (mkPointUtf16 (row (Chunk.lines ck)) (Chunk.last_line_len_utf16 ck) = lines_utf16 (from_str x)).
    destruct (text_summary_lengths ck) as (_&_&<-&<-). by rewrite (text_summary_of x).
  - intros a b Hok Hs. by apply lines_utf16_add.
Qed.
#[export] Instance prod_TextDimensionLaws {D1 D2} `{TextDimensionLaws D1, TextDimensionLaws D2} : TextDimensionLaws (D1 * D2).
Proof.
  split.
  - intros x ck Hx Hck. cbn. by rewrite !(from_chunk_metric x).
  - intros s. cbn. by rewrite !from_text_summary_metric.
  - intros a b Hok Hs. unfold metric, prod_Metric. cbn. by rewrite !add_assign_metric.
Qed.
