(* ===== verification/RopeBounds.v ===== *)
(** Boundaries and clipping in a rope: the offsets and the coordinates a rope
    is asked about that need not be those of a place in its text. *)

From stdpp Require Import base numbers option list.
From S2P Require Import Prelude SumTree SumTreeFacts Search Cursor CursorFacts StepFacts BackFacts Iter CursorApi SliceHeight Utf8 Point Bits Chunk ChunkBits ChunkSummary ChunkFacts Rope TextSummary ChunkClip RopeTree RopePlace RopeEdit RopeCursor.

#[local] Open Scope nat_scope.

(** ** The chunk of an offset *)

Lemma bytes_find h css r o :
  rope_of h css r → concat css ≠ [] →
  ∃ css1 css2 els1 els2, css = css1 ++ css2 ∧ Forall2 chunk_for css1 els1 ∧ Forall2 chunk_for css2 els2 ∧
    (find (D:=nat) (chunks r) () o Left).1.1 = blen (concat css1) ∧
    (find (D:=nat) (chunks r) () o Left).2 = head els2 ∧
    (css1 = [] ∨ blen (concat css1) < o) ∧
    (∀ k rest, css2 = k :: rest → o ≤ blen (concat css1 ++ k)).
Proof.
  intros Hr Hne. pose proof (rope_nonempty _ _ _ Hr) as Hel. destruct Hr as [Hwf Hf].
  destruct (seek_split_chunks (stops () o Left : nat → bool) [] css _ Hf)
    as (css1&css2&els1&els2&->&_&Hf1&Hf2&Hsplit&H3&H4).
  assert (Emetric : ∀ k, metric (from_str k) = blen k :> nat) by (intros; apply len_from_str).
  pose proof (find_spec () o Left h (chunks r) Hwf ltac:(naive_solver) (seek_mono_ord () o Left _ _ (nat_dim_mono _ _))) as Hfind.
  rewrite Emetric in Hsplit. change (blen []) with (dim_zero () : nat) in Hsplit. rewrite Hsplit in Hfind. destruct Hfind as [-> _].
  exists css1, css2, els1, els2. cbn [fst snd app]. split_and!; try done.
  - change (dim_zero ()) with (metric (from_str []) : nat). rewrite (chunks_dsum [] css1) by done. by rewrite Emetric.
  - destruct css1 as [|k css1]; [by left|]. right. specialize (H3 ltac:(done)). rewrite Emetric in H3.
    unfold stops, target_cmp, Ord_SeekTarget, cmp, nat_Ord in H3. cbn [app] in H3.
    destruct (Nat.compare_spec o (blen (concat (k :: css1)))); done.
  - intros k rest E. specialize (H4 _ _ E). rewrite Emetric in H4. unfold stops, target_cmp, Ord_SeekTarget, cmp, nat_Ord in H4.
    cbn [app] in H4. destruct (Nat.compare_spec o (blen (concat css1 ++ k))); try done; lia.
Qed.

(** The chunk of an offset, and the texts around it. *)
Lemma offset_find r cs o :
  rope_text cs r → cs ≠ [] →
  (∃ a, (find (D:=nat) (chunks r) () o Left).1.1 = a ∧ a < o ∧ (find (D:=nat) (chunks r) () o Left).2 = None ∧ blen cs < o) ∨
  ∃ a k b c, cs = a ++ k ++ b ∧ (find (D:=nat) (chunks r) () o Left).1.1 = blen a ∧
    (find (D:=nat) (chunks r) () o Left).2 = Some c ∧ chunk_for k c ∧ blen a ≤ o ∧ o ≤ blen a + blen k ∧
    (a = [] ∨ blen a < o).
Proof.
  intros (h&css&Hr&<-) Hne. destruct (bytes_find h css r o Hr Hne) as (css1&css2&els1&els2&->&Hf1&Hf2&Es&Ei&H1&H2).
  destruct Hf2 as [|k c css2 els2 Hk _]; cbn [head] in Ei.
  - left. rewrite app_nil_r in *. exists (blen (concat css1)). destruct H1 as [->|H1]; [done|]. done.
  - right. specialize (H2 _ _ eq_refl). rewrite blen_app in H2.
    exists (concat css1), k, (concat css2), c. rewrite concat_app. cbn [concat]. split_and!; try done.
    + destruct H1 as [->|H1]; [cbn|]; lia.
    + destruct H1 as [->|H1]; [by left|by right].
Qed.

Lemma empty_rope r : rope_text [] r → SumTree.is_empty (chunks r) = true.
Proof.
  intros (h&css&Hr&E). pose proof (rope_nonempty _ _ _ Hr) as Hel. destruct Hr as [Hwf _].
  apply not_false_iff_true. intros Hn%(wf_nonempty_elements () h); [|done]. apply Hn. by apply Hel.
Qed.

Lemma nonempty_rope cs r : rope_text cs r → cs ≠ [] → SumTree.is_empty (chunks r) = false.
Proof.
  intros (h&css&Hr&<-) Hne. pose proof (rope_nonempty _ _ _ Hr) as Hel. destruct Hr as [Hwf _].
  apply (wf_nonempty_elements () h); [done|]. naive_solver.
Qed.

Lemma rope_text_len cs r : rope_text cs r → Rope.len r = blen cs.
Proof. intros (h&css&Hr&<-). by eapply rope_len. Qed.

(** Inside a text, the boundaries are those of the part an offset is in. *)
Lemma boundary_part a k b o :
  Forall char_ok (a ++ k ++ b) → o ≤ blen k →
  Utf8.is_char_boundary (bytes_of (a ++ k ++ b)) (blen a + o) = Utf8.is_char_boundary (bytes_of k) o.
Proof.
  intros [_ [Hk Hb]%Forall_app]%Forall_app Ho. rewrite !bytes_of_app, boundary_app_r.
  apply boundary_app_l; [by apply str_ok_bytes..|done].
Qed.

Lemma rope_is_char_boundary cs r o :
  rope_text cs r → is_char_boundary r o = Some (Utf8.is_char_boundary (bytes_of cs) o).
Proof.
  intros Hr. pose proof (rope_text_ok _ _ Hr) as Hok. unfold is_char_boundary. destruct (decide (cs = [])) as [->|Hne].
  { rewrite (empty_rope r Hr). unfold Utf8.is_char_boundary. cbn. by rewrite orb_false_r. }
  rewrite (nonempty_rope cs r Hr Hne).
  destruct (offset_find r cs o Hr Hne) as [(a&Ea&Ha&Ei&Ho)|(a&k&b&c&->&Ea&Ei&Hk&Hlo&Hhi&_)];
    destruct (find _ _ _ _) as [[st en] it]; cbn [fst snd] in *; subst st it; rewrite usub_le by lia; cbn [mbind option_bind].
  - f_equal. symmetry. unfold Utf8.is_char_boundary. rewrite bool_decide_eq_false_2 by lia.
    by rewrite (proj2 (lookup_ge_None _ _)) by lia.
  - destruct (length_text k c Hk) as [_ Hl]. destruct Hk as (_&_&Hc). rewrite (is_char_boundary_of _ _ _ Hc) by lia.
    rewrite <- (boundary_part a k b) by (done || lia). f_equal. f_equal. lia.
Qed.

(** ** Floor and ceiling *)

Lemma floor_unique s i p :
  str_ok s → i < length s → Utf8.is_char_boundary s p = true → p ≤ i →
  (∀ q, p < q ≤ i → Utf8.is_char_boundary s q = false) → Utf8.floor_char_boundary s i = p.
Proof.
  intros Hs Hi Hp Hpi Hq. unfold Utf8.floor_char_boundary. rewrite bool_decide_eq_false_2 by lia.
  destruct (floor_loop_spec s i (boundary_0 s Hs)) as (H1&H2&H3). cbv zeta in *.
  set (p' := floor_char_boundary_loop s i) in *. destruct (Nat.lt_trichotomy p p') as [Hlt|[Heq|Hgt]]; [|done|].
  - rewrite Hq in H1; [done|lia].
  - rewrite H3 in Hp; [done|lia].
Qed.

Lemma floor_spec s i :
  str_ok s → i ≤ length s → let p := Utf8.floor_char_boundary s i in
  Utf8.is_char_boundary s p = true ∧ p ≤ i ∧ ∀ q, p < q ≤ i → Utf8.is_char_boundary s q = false.
Proof.
  intros Hs Hi. cbv zeta. unfold Utf8.floor_char_boundary. case_bool_decide; [|by apply floor_loop_spec, boundary_0].
  split_and!; [apply boundary_length|done|lia].
Qed.

Lemma ceil_unique s i p :
  str_ok s → i ≤ length s → Utf8.is_char_boundary s p = true → i ≤ p →
  (∀ q, i ≤ q < p → Utf8.is_char_boundary s q = false) → Utf8.ceil_char_boundary s i = p.
Proof.
  intros Hs Hi Hp Hpi Hq. destruct (str_ok_boundary s p Hs Hp) as (_&_&Hpl).
  unfold Utf8.ceil_char_boundary. case_bool_decide; [lia|].
  destruct (ceil_loop_spec (length s) s i ltac:(lia) Hi) as (H1&H2&H3). cbv zeta in *.
  set (p' := ceil_char_boundary_loop (length s) s i) in *. destruct (Nat.lt_trichotomy p p') as [Hlt|[Heq|Hgt]]; [|done|].
  - rewrite H3 in Hp; [done|lia].
  - rewrite Hq in H1; [done|lia].
Qed.

Lemma ceil_spec s i :
  i ≤ length s → let p := Utf8.ceil_char_boundary s i in
  Utf8.is_char_boundary s p = true ∧ i ≤ p ≤ length s ∧ ∀ q, i ≤ q < p → Utf8.is_char_boundary s q = false.
Proof.
  intros Hi. cbv zeta. unfold Utf8.ceil_char_boundary. case_bool_decide; [|apply ceil_loop_spec; lia].
  split_and!; [apply boundary_length|lia|lia|lia].
Qed.

Lemma rope_floor_char_boundary cs r i :
  rope_text cs r → floor_char_boundary r i = Some (Utf8.floor_char_boundary (bytes_of cs) i).
Proof.
  intros Hr. pose proof (rope_text_ok _ _ Hr) as Hok. unfold floor_char_boundary. rewrite (rope_text_len _ _ Hr).
  case_bool_decide as Hi. { unfold Utf8.floor_char_boundary. by rewrite bool_decide_eq_true_2. }
  assert (Hne : cs ≠ []) by (intros ->; cbn in Hi; lia).
  assert (Hs : str_ok (bytes_of cs)) by by apply str_ok_bytes.
  destruct (offset_find r cs i Hr Hne) as [(a&Ea&Ha&Ei&Ho)|(a&k&b&c&->&Ea&Ei&Hk&Hlo&Hhi&_)]; [lia|].
  destruct (find _ _ _ _) as [[st en] it]; cbn [fst snd] in *; subst st it; rewrite usub_le by lia; cbn [mbind option_bind].
  destruct Hk as (_&Hkok&Hc). rewrite (chunk_text _ _ Hc).
  destruct (floor_spec (bytes_of k) (i - blen a)) as (H1&H2&H3); [by apply str_ok_bytes|lia|]. cbv zeta in *.
  set (p := Utf8.floor_char_boundary (bytes_of k) (i - blen a)) in *. f_equal. symmetry.
  apply floor_unique; [done|lia| |lia|].
  - rewrite boundary_part; [done..|lia].
  - intros q Hq. replace q with (blen a + (q - blen a)) by lia. rewrite boundary_part; [|done|lia]. apply H3. lia.
Qed.

Lemma rope_ceil_char_boundary cs r i :
  rope_text cs r → ceil_char_boundary r i = Some (Utf8.ceil_char_boundary (bytes_of cs) i).
Proof.
  intros Hr. pose proof (rope_text_ok _ _ Hr) as Hok. unfold ceil_char_boundary. rewrite (rope_text_len _ _ Hr).
  case_bool_decide as Hi. { unfold Utf8.ceil_char_boundary. by rewrite bool_decide_eq_true_2 by lia. }
  assert (Hs : str_ok (bytes_of cs)) by by apply str_ok_bytes.
  destruct (decide (cs = [])) as [->|Hne].
  { cbn in Hi. replace i with 0 by lia. pose proof (empty_rope r Hr) as He. destruct Hr as (h&css&[Hwf Hf]&E).
    apply (wf_empty_elements () h) in He as [He ->]; [|done]. destruct (chunks r) as [|s its iss]; [done|].
    cbn in He. subst its. destruct Hwf as (->&->&_). done. }
  destruct (offset_find r cs i Hr Hne) as [(a&Ea&Ha&Ei&Ho)|(a&k&b&c&->&Ea&Ei&Hk&Hlo&Hhi&_)]; [lia|].
  destruct (find _ _ _ _) as [[st en] it]; cbn [fst snd] in *; subst st it; rewrite usub_le by lia; cbn [mbind option_bind].
  destruct Hk as (_&Hkok&Hc). rewrite (chunk_text _ _ Hc).
  destruct (ceil_spec (bytes_of k) (i - blen a)) as (H1&H2&H3); [lia|]. cbv zeta in *.
  set (p := Utf8.ceil_char_boundary (bytes_of k) (i - blen a)) in *. f_equal. symmetry.
  apply ceil_unique; [done|lia| |lia|].
  - rewrite boundary_part; [done..|lia].
  - intros q Hq. replace q with (blen a + (q - blen a)) by lia. rewrite boundary_part; [|done|lia]. apply H3. lia.
Qed.

(** ** Targets past the text *)

Lemma rope_text_summary cs r : rope_text cs r → Rope.summary r = from_str cs.
Proof. intros (h&css&Hr&<-). by apply (rope_summary h). Qed.

(** A search to the right for a target at or past the end finds no chunk. *)
Lemma find_past {D : Type} `{MetricLaws D, !MetricOk D, !Ord D, !OrdMetric D, !SeekTarget D D (), !DimensionLaws D ChunkSummary ()}
    (Hself : ∀ (t : D) s, target_cmp t (metric s : D) () = cmp t (metric s : D)) (t : D) cs r :
  rope_text cs r → small cs → metric_ok t → cmp t (metric (from_str cs)) ≠ Lt →
  (find (D:=D) (chunks r) () t Right).2 = None.
Proof.
  intros (h&css&Hr&<-) Hs Ht Hge.
  destruct (rope_find (D1:=D) (D:=D) Hself t Right h css r Hr Ht Hs) as (css1&css2&els1&els2&->&_&Hf1&Hf2&_&->&_&H2).
  destruct Hf2 as [|k ck css2 els2 Hk _]; cbn [head]; [done|]. exfalso.
  specialize (H2 _ _ eq_refl). rewrite concat_app in Hge, Hs. cbn [concat] in Hge, Hs.
  assert (Hok : Forall char_ok (concat (css1 ++ k :: css2))) by (destruct Hr; by eapply chunk_for_ok).
  rewrite concat_app in Hok. cbn [concat] in Hok. rewrite !app_assoc in *.
  assert (Hlt : cmp t (metric (from_str (concat css1 ++ k))) = Lt) by by destruct (cmp t (metric (from_str (concat css1 ++ k)))).
  destruct (decide (concat css2 = [])) as [E|Hne]; [by rewrite E, app_nil_r in Hge|]. apply Hge.
  pose proof (metric_lt (D:=D) (concat css1 ++ k) (concat css2) Hne Hok Hs) as Hlt'.
  refine (metric_trans (D:=D) t (metric (from_str (concat css1 ++ k))) _ Ht _ _ _ Hlt').
  - apply (metric_text_ok (D:=D)); [by apply Forall_app in Hok as [? _]|by apply small_app_l in Hs].
  - by apply (metric_text_ok (D:=D)).
  - by rewrite Hlt.
Qed.

(** ** Clipping UTF-16 offsets *)

(** The UTF-16 length of a text. *)
Abbreviation ulen cs := (offset16 (TextSummary.len_utf16 (from_str cs))).

Lemma ulen_app a b : ulen (a ++ b) = (ulen a + ulen b)%N.
Proof. by rewrite len_utf16_app. Qed.

Lemma ulen_char ch : (1 ≤ ulen [ch] ≤ 2)%N.
Proof. rewrite len_utf16_char. unfold Utf8.len_utf16. case_match; lia. Qed.

(** A prefix with fewer units than end before [ch], and one with more than start it. *)
Lemma prefix_before a b x ch z :
  a ++ b = x ++ ch :: z → (ulen a < ulen (x ++ [ch]))%N → ∃ x', x = a ++ x' ∧ b = x' ++ ch :: z.
Proof.
  intros [(k&->&E)|(k&->&->)]%app_eq_inv Hlt; [|by exists k].
  destruct k as [|ch' k]; [exists []; by rewrite !app_nil_r|]. injection E as <- _. exfalso.
  rewrite (cons_middle ch x k), !ulen_app in Hlt. lia.
Qed.

Lemma prefix_after a b x ch z :
  a ++ b = x ++ ch :: z → (ulen x < ulen a)%N → ∃ z', a = x ++ ch :: z' ∧ z = z' ++ b.
Proof.
  intros [(k&->&E)|(k&->&->)]%app_eq_inv Hlt.
  - destruct k as [|ch' k]; [rewrite app_nil_r in Hlt; lia|]. injection E as <- ->. by exists k.
  - rewrite ulen_app in Hlt. lia.
Qed.

Lemma MkOffsetUtf16_eta o : MkOffsetUtf16 (offset16 o) = o.
Proof. by destruct o. Qed.

Lemma units_in_range (cs : list Z) (t : N) : fits 64 (ulen cs) → (t ≤ ulen cs)%N → fits 64 t.
Proof. unfold fits. lia. Qed.

Lemma rope_clip_offset_utf16 r x ch z (t : N) bias :
  rope_text (x ++ ch :: z) r → small (x ++ ch :: z) → (ulen x ≤ t < ulen (x ++ [ch]))%N →
  clip_offset_utf16 r (MkOffsetUtf16 t) bias =
  Some (TextSummary.len_utf16 (from_str (if bool_decide (bias = Right ∧ t ≠ ulen x) then x ++ [ch] else x))).
Proof.
  intros (h&css&Hr&E) Hs Ht. unfold clip_offset_utf16. rewrite <- E in Hs.
  destruct (rope_find (D1:=OffsetUtf16) (D:=OffsetUtf16) metric_target_self (MkOffsetUtf16 t) Right h css r Hr I Hs)
    as (css1&css2&els1&els2&->&_&Hf1&Hf2&Epos&Eitem&H1&H2).
  destruct (find _ _ _ _) as [[st en] it]; cbn [fst snd] in Epos, Eitem; subst st it.
  rewrite concat_app in E, Hs. unfold metric, OffsetUtf16_Metric in *.
  assert (Hlo : (ulen (concat css1) ≤ t)%N).
  { destruct css1 as [|k1 css1]; [cbn; lia|]. specialize (H1 ltac:(done)). unfold cmp, OffsetUtf16_Ord in H1. cbn [offset16] in H1.
    destruct (N.compare_spec t (ulen (concat (k1 :: css1)))); try done; lia. }
  destruct (prefix_before (concat css1) (concat css2) x ch z E) as (x'&->&E2); [lia|].
  destruct Hf2 as [|k ck css2 els2 Hk _]; cbn [head]; [by destruct x'|].
  specialize (H2 _ _ eq_refl). unfold cmp, OffsetUtf16_Ord in H2. cbn [offset16] in H2.
  assert (Hhi : (t < ulen (concat css1 ++ k))%N) by (destruct (N.compare_spec t (ulen (concat css1 ++ k))); done).
  rewrite ulen_app in Hhi. rewrite !ulen_app in Ht. cbn [concat] in E2, Hs.
  destruct (prefix_after k (concat css2) x' ch z E2) as (z'&->&->); [lia|].
  destruct Hk as (_&Hk&Hc).
  assert (Hok1 : Forall char_ok (concat css1)) by by eapply chunk_for_ok.
  assert (Hbig : fits 64 (ulen (concat css1) + ulen (x' ++ ch :: z'))).
  { rewrite <- ulen_app. rewrite app_assoc in Hs. apply small_app_l in Hs. unfold small in Hs.
    assert (Hok' : Forall char_ok (concat css1 ++ x' ++ ch :: z')) by by apply Forall_app.
    pose proof (summary_bounds _ Hok'). unfold fits. lia. }
  pose proof (ulen_app x' (ch :: z')) as Hxz. pose proof (ulen_app [ch] z') as Hcz. cbn [app] in Hcz.
  assert (Esub : OffsetUtf16_sub (MkOffsetUtf16 t) (TextSummary.len_utf16 (from_str (concat css1))) =
                 MkOffsetUtf16 (t - ulen (concat css1))).
  { unfold OffsetUtf16_sub. cbn [offset16]. by rewrite wrapping_sub_le by (unfold fits in *; lia). }
  rewrite Esub, (clip_offset_utf16_at x' ch z' ck Hk Hc).
  2: { rewrite <- len_utf16_char. lia. }
  cbn [mbind option_bind]. f_equal. rewrite app_assoc in Hs. apply small_app_l in Hs.
  assert (Hsplit : bool_decide (bias = Right ∧ t ≠ (ulen (concat css1) + ulen x')%N) =
                   bool_decide (bias = Right ∧ (t - ulen (concat css1) ≠ ulen x')%N)).
  { apply bool_decide_ext. split; intros [-> Hne]; (split; [done|lia]). }
  rewrite ulen_app, Hsplit. clear Hsplit.
  destruct (bool_decide (bias = Right ∧ (t - ulen (concat css1))%N ≠ ulen x')).
  - rewrite len_utf16_add; [by rewrite app_assoc| |].
    + apply Forall_app. split; [done|]. rewrite cons_middle, app_assoc in Hk. by apply Forall_app in Hk as [? _].
    + rewrite (cons_middle ch x' z'), (app_assoc x'), app_assoc in Hs. by apply small_app_l in Hs.
  - rewrite len_utf16_add; [done| |].
    + apply Forall_app. split; [done|]. by apply Forall_app in Hk as [? _].
    + rewrite app_assoc in Hs. by apply small_app_l in Hs.
Qed.

Lemma rope_clip_offset_utf16_past r x (t : N) bias :
  rope_text x r → small x → (ulen x ≤ t)%N →
  clip_offset_utf16 r (MkOffsetUtf16 t) bias = Some (TextSummary.len_utf16 (from_str x)).
Proof.
  intros Hr Hs Ht. unfold clip_offset_utf16.
  pose proof (find_past (D:=OffsetUtf16) metric_target_self (MkOffsetUtf16 t) x r Hr Hs I) as E.
  destruct (find _ _ _ _) as [[st en] it]; cbn [snd] in E. rewrite E; [by rewrite (rope_text_summary _ _ Hr)|].
  unfold cmp, OffsetUtf16_Ord, metric, OffsetUtf16_Metric. cbn [offset16]. by destruct (N.compare_spec t (ulen x)); (lia || done).
Qed.

(** ** The length of a line *)

Section lines.
Variable is_grapheme_boundary : list Z → nat → bool.

(** The order of points, on fields that fit. *)
Lemma point_cmp_row (p q : Point) :
  point_ok p → point_ok q →
  cmp p q = then_with (row p ?= row q)%N (column p ?= column q)%N.
Proof. intros. by rewrite pack_lex. Qed.

(** A point past the end of its row, which a newline ends, is clipped there. *)
Lemma rope_clip_point_line_end r x z (column : N) bias :
  rope_text (x ++ NEWLINE :: z) r → small (x ++ NEWLINE :: z) →
  (Point.column (lines (from_str x)) ≤ column)%N → fits 32 column →
  clip_point is_grapheme_boundary r (mkPoint (row (lines (from_str x))) column) bias = Some (lines (from_str x)).
Proof.
  intros (h&css&Hr&E) Hs Hcol Hfit. unfold clip_point. rewrite <- E in Hs.
  set (p := mkPoint (row (lines (from_str x))) column).
  assert (Hoks : Forall char_ok (x ++ NEWLINE :: z)) by (rewrite <- E; destruct Hr; by eapply chunk_for_ok).
  assert (Hp : point_ok p).
  { pose proof (proj1 (Forall_app _ _ _) Hoks) as [Hx _]. pose proof (summary_bounds x Hx) as Hb. rewrite E in Hs. apply small_app_l in Hs.
    unfold small in Hs. unfold point_ok, p, fits in *. cbn [row Point.column]. lia. }
  destruct (rope_find (D1:=Point) (D:=Point) metric_target_self p Right h css r Hr Hp Hs)
    as (css1&css2&els1&els2&->&_&Hf1&Hf2&Epos&Eitem&H1&H2).
  destruct (find _ _ _ _) as [[st en] it]; cbn [fst snd] in Epos, Eitem; subst st it.
  rewrite concat_app in E, Hs. unfold metric, Point_Metric in *.
  assert (Hrow : ∀ w w', w ++ w' = x ++ NEWLINE :: z → (row (lines (from_str w)) ≤ row (lines (from_str x)))%N →
    ∃ x', x = w ++ x' ∧ w' = x' ++ NEWLINE :: z).
  { intros w w' [(k&->&Ek)|(k&->&->)]%app_eq_inv Hw; [|by exists k].
    destruct k as [|nl k]; [exists []; by rewrite !app_nil_r|]. injection Ek as <- _. exfalso.
    rewrite (cons_middle NEWLINE x k), lines_app, lines_app, !Point_plus_row in Hw.
    change (from_str [NEWLINE]) with (char_summary NEWLINE) in Hw. rewrite char_summary_newline in Hw. cbn -[N.add] in Hw. lia. }
  assert (Hoka : ∀ w w', w ++ w' = x ++ NEWLINE :: z → point_ok (lines (from_str w))).
  { intros w w' Ew. rewrite <- Ew in Hoks. apply Forall_app in Hoks as [Hw _]. pose proof (summary_bounds w Hw) as Hb.
    rewrite E, <- Ew in Hs. apply small_app_l in Hs. unfold small in Hs. unfold point_ok, fits. lia. }
  destruct (Hrow (concat css1) (concat css2) E) as (x'&->&E2).
  { destruct css1 as [|k1 css1]; [cbn; lia|]. specialize (H1 ltac:(done)).
    rewrite point_cmp_row in H1 by (done || by eapply Hoka). cbn [row p] in H1.
    destruct (N.compare_spec (row (lines (from_str x))) (row (lines (from_str (concat (k1 :: css1)))))); cbn in H1; done || lia. }
  destruct Hf2 as [|k ck css2 els2 Hk _]; cbn [head]; [by destruct x'|].
  specialize (H2 _ _ eq_refl). cbn [concat] in E2, Hs, E. rewrite app_assoc in E.
  rewrite point_cmp_row in H2 by (done || by eapply Hoka). cbn [row Point.column p] in H2.
  assert (Hoki : point_ok (lines (from_str (concat css1 ++ k)))) by by eapply Hoka.
  assert (Hz : ∃ z', k = x' ++ NEWLINE :: z').
  { apply app_eq_inv in E as [(m&Em&Ez)|(m&Em&_)].
    - rewrite <- app_assoc in Em. apply (inj (app (concat css1))) in Em. subst k.
      destruct m as [|nl m]; [|injection Ez as <- _; by exists m]. exfalso. rewrite app_nil_r in H2.
      rewrite N.compare_refl in H2. cbn [then_with] in H2.
      destruct (N.compare_spec column (Point.column (lines (from_str (concat css1 ++ x'))))); try done. lia.
    - exfalso. assert (Hle : (row (lines (from_str (concat css1 ++ k))) ≤ row (lines (from_str (concat css1 ++ x'))) ∧
        (row (lines (from_str (concat css1 ++ k))) = row (lines (from_str (concat css1 ++ x'))) →
         Point.column (lines (from_str (concat css1 ++ k))) ≤ Point.column (lines (from_str (concat css1 ++ x')))))%N).
      { rewrite Em, (lines_app (concat css1 ++ k) m), Point_plus_row. unfold Point_plus.
        destruct (N.eqb_spec (row (lines (from_str m))) 0); cbn [row Point.column]; lia. }
      destruct (N.compare_spec (row (lines (from_str (concat css1 ++ x')))) (row (lines (from_str (concat css1 ++ k)))));
        cbn [then_with] in H2; [|lia|done].
      destruct (N.compare_spec column (Point.column (lines (from_str (concat css1 ++ k))))); try done. lia. }
  destruct Hz as [z' ->]. destruct Hk as (_&Hk&Hc).
  assert (Hax : Forall char_ok (concat css1 ++ x') ∧ small (concat css1 ++ x')).
  { split; [by apply Forall_app in Hoks as [? _]|]. rewrite <- !app_assoc in Hs. rewrite app_assoc in Hs. by apply small_app_l in Hs. }
  destruct Hax as [Hax Hsax]. pose proof (sum_fits _ _ Hax Hsax) as (Hf1r&Hf1c&_).
  assert (Hsub : ∃ column', Point_sub p (lines (from_str (concat css1))) = mkPoint (row (lines (from_str x'))) column' ∧
    (Point.column (lines (from_str x')) ≤ column')%N).
  { unfold p, Point_sub, Point_new. rewrite lines_app in Hcol |- *. cbn [row Point.column]. rewrite Point_plus_row.
    unfold Point_plus in Hcol. destruct (N.eqb_spec (row (lines (from_str x'))) 0) as [E0|E0]; cbn [Point.column] in Hcol.
    - rewrite E0, N.add_0_r, N.eqb_refl. eexists. split; [done|]. rewrite wrapping_sub_le by (done || lia). lia.
    - rewrite (proj2 (N.eqb_neq _ _)) by lia. rewrite wrapping_sub_le by (done || lia).
      eexists. split; [f_equal; lia|done]. }
  destruct Hsub as (column'&->&Hcol'). rewrite (clip_point_line_end x' z' ck is_grapheme_boundary Hk Hc) by done.
  cbn [mbind option_bind]. by rewrite lines_add.
Qed.

(** A point past the text is clipped to its end. *)
Lemma rope_clip_point_past r x (p : Point) bias :
  rope_text x r → small x → point_ok p → cmp p (lines (from_str x)) ≠ Lt →
  clip_point is_grapheme_boundary r p bias = Some (lines (from_str x)).
Proof.
  intros Hr Hs Hp Hge. unfold clip_point. pose proof (find_past (D:=Point) metric_target_self p x r Hr Hs Hp Hge) as E.
  destruct (find _ _ _ _) as [[st en] it]; cbn [snd] in E; subst it. by rewrite (rope_text_summary _ _ Hr).
Qed.

Lemma rope_line_len r x z :
  rope_text (x ++ NEWLINE :: z) r → small (x ++ NEWLINE :: z) →
  line_len is_grapheme_boundary r (row (lines (from_str x))) = Some (Point.column (lines (from_str x))).
Proof.
  intros Hr Hs. pose proof (rope_text_ok _ _ Hr) as Hok. unfold line_len.
  apply Forall_app in Hok as [Hx _]. pose proof (summary_bounds x Hx) as Hb. pose proof (small_app_l _ _ Hs) as Hsx.
  rewrite (rope_clip_point_line_end r x z) by (done || unfold small, fits, u32_MAX in *; lia). done.
Qed.

Lemma rope_line_len_last r x (line : N) :
  rope_text x r → small x → (row (lines (from_str x)) ≤ line)%N → fits 32 line →
  line_len is_grapheme_boundary r line = Some (Point.column (lines (from_str x))).
Proof.
  intros Hr Hs Hrow Hfit. pose proof (rope_text_ok _ _ Hr) as Hx. pose proof (summary_bounds x Hx) as Hb.
  assert (Hp : point_ok (mkPoint line u32_MAX)) by (split; [done|cbn; unfold fits, u32_MAX; lia]).
  assert (Hpx : point_ok (lines (from_str x))) by (unfold small, point_ok, fits in *; lia).
  unfold line_len. rewrite (rope_clip_point_past r x) by
    (done || (rewrite point_cmp_row, then_with_lt by done; unfold small, u32_MAX in *; cbn [row Point.column]; lia)). done.
Qed.
End lines.
