(* ===== verification/ChunkProps.v ===== *)
(** Properties of chunks: the bitmaps [new] computes, the edits of chunks and
    the counts over them.

    A text is a list of code points [cs] ([char_ok]), its bytes [bytes_of cs]. *)

From Stdlib Require Import ZArith.
From stdpp Require Import base numbers option list.
From S2P Require Import Prelude SumTree Utf8 Point TextSummary Bits NthBit Chunk ChunkBits ChunkSummary ChunkFacts ChunkClip RopeTree RopeEdit RopeCursor RopeBounds.

#[local] Open Scope nat_scope.

(** The chunk of a text is what [new] computes of it. *)
Lemma new_text cs c : Chunk.new (bytes_of cs) = Some c → Forall char_ok cs → slice_for cs c.
Proof.
  intros E Hcs. split; [done|].
  assert (Hl : length (bytes_of cs) ≤ MAX_BASE).
  { unfold Chunk.new, array_string in E. case_bool_decide; [done|discriminate]. }
  destruct (new_of (bytes_of cs) (str_ok_bytes cs Hcs) Hl) as (c'&E'&Hc). congruence.
Qed.

Lemma text_new cs c : chunk_of (bytes_of cs) c → Some c = Chunk.new (bytes_of cs).
Proof. intros Hc. by rewrite (chunk_of_new _ _ Hc). Qed.

(** C24: The summary a chunk counts from its four bitmaps, with masks, leading
    and trailing zeros and 8-bit counts, is the one [TextSummary::from] computes
    character by character from the text, for every text that fits in a chunk:
    lengths, line counts, the first, last and longest line. *)
Theorem chunk_summary_from_str cs :
  Forall char_ok cs → length (bytes_of cs) ≤ MAX_BASE →
  ∃ c, Chunk.new (bytes_of cs) = Some c ∧ text_summary c = from_str cs.
Proof.
  intros Hcs Hl. destruct (new_of _ (str_ok_bytes cs Hcs) Hl) as (c&E&Hc).
  exists c. split; [done|]. by apply text_summary_of.
Qed.

(** Text summaries are a homomorphism: the summary of a joined text is the
    sum of the summaries of its parts, the longest line included (the first of
    the longest ones, also across the seam), and the empty text is neutral. *)
Theorem text_summary_sums a b :
  from_str (a ++ b) = TextSummary_add (from_str a) (from_str b) ∧
  TextSummary_add (from_str a) TextSummary_default = from_str a ∧
  TextSummary_add TextSummary_default (from_str a) = from_str a.
Proof.
  split; [apply from_str_app|]. rewrite <- from_str_nil, <- !from_str_app. by rewrite app_nil_r.
Qed.

(** "aé\n😀" *)
Definition sample : list Z := [97; 233; 10; 128512]%Z.

Lemma sample_ok : Forall char_ok sample.
Proof. repeat constructor; by vm_compute. Qed.

Lemma chunk_summary_from_str_witness :
  (∃ c, Chunk.new (bytes_of sample) = Some c ∧ text_summary c = from_str sample) ∧
  from_str sample = mkTextSummary 8 4 (MkOffsetUtf16 5) (mkPoint 1 4) 2 1 2 0 2.
Proof.
  split; [|by vm_compute].
  apply (chunk_summary_from_str sample); [apply sample_ok|vm_compute; lia].
Defined.

(** C33: Chunks stay canonical: the edits of chunks that [new] made of texts
    ([append], [prepend], [push_str], [prepend_str], and the two parts of
    [split_at] and the slices at character boundaries) yield, bit for bit, the
    chunk [new] makes of the edited text, as long as it fits. *)
Theorem chunk_edits_canonical a b m c d :
  Forall char_ok (a ++ m ++ b) → length (bytes_of (a ++ m ++ b)) ≤ MAX_BASE →
  Chunk.new (bytes_of a) = Some c → Chunk.new (bytes_of (m ++ b)) = Some d →
  let e := Chunk.new (bytes_of (a ++ m ++ b)) in
  Chunk.append c d = e ∧ Chunk.prepend d c = e ∧
  push_str c (bytes_of (m ++ b)) = e ∧ prepend_str d (bytes_of a) = e ∧
  (e ← e; Chunk.split_at e (length (bytes_of a))) = Some (c, d) ∧
  (e ← e; Chunk.slice e (length (bytes_of a)) (length (bytes_of (a ++ m)))) = Chunk.new (bytes_of m).
Proof.
  intros Hok Hl Ec Ed. pose proof Hok as Hok'. rewrite Forall_app in Hok'. destruct Hok' as [Ha Hmb].
  destruct (new_text _ _ Ec Ha) as [_ Hc]. destruct (new_text _ _ Ed Hmb) as [_ Hd].
  destruct (new_of _ (str_ok_bytes _ Hok) Hl) as (e&Ee&He). cbn zeta. rewrite Ee. cbn [mbind option_bind].
  rewrite bytes_of_app in Hl, He. rewrite length_app in Hl.
  assert (Hsome : ∀ f, chunk_of (bytes_of a ++ bytes_of (m ++ b)) f → Some f = Some e).
  { intros f Hf. by rewrite (chunk_of_inj _ _ _ Hf He). }
  destruct (append_of _ _ _ _ Hc Hd Hl) as (e1&->&H1).
  destruct (prepend_of _ _ _ _ Hc Hd Hl) as (e2&->&H2).
  destruct (push_str_of _ _ _ Hc (str_ok_bytes _ Hmb) Hl) as (e3&->&H3).
  destruct (prepend_str_of _ _ _ (str_ok_bytes _ Ha) Hd Hl) as (e4&->&H4).
  do 4 (split; [by apply Hsome|]). split.
  - assert (Hbd : Utf8.is_char_boundary (bytes_of (a ++ m ++ b)) (length (bytes_of a)) = true).
    { apply boundary_split; [done|]. by exists a, (m ++ b). }
    rewrite bytes_of_app in Hbd.
    destruct (split_at_of _ _ _ He Hbd) as (l&r&->&Hs1&Hs2).
    rewrite take_app_length in Hs1. rewrite drop_app_length in Hs2.
    by rewrite (chunk_of_inj _ _ _ Hs1 Hc), (chunk_of_inj _ _ _ Hs2 Hd).
  - destruct (chunk_slice_text (a ++ m ++ b) e a m b) as (f&->&[_ Hf]); [|done|].
    + split; [done|]. by rewrite bytes_of_app.
    + by apply text_new.
Qed.

Lemma chunk_edits_canonical_witness :
  ∃ c d, Chunk.new (bytes_of [97; 233]%Z) = Some c ∧ Chunk.new (bytes_of ([10] ++ [128512])%Z) = Some d ∧
    Chunk.append c d = Chunk.new (bytes_of sample).
Proof.
  destruct (Chunk.new (bytes_of [97; 233]%Z)) as [c|] eqn:Ec; [|discriminate Ec].
  destruct (Chunk.new (bytes_of ([10] ++ [128512])%Z)) as [d|] eqn:Ed; [|discriminate Ed].
  exists c, d. split; [done|]. split; [done|].
  apply (chunk_edits_canonical [97; 233]%Z [128512]%Z [10]%Z c d); [apply sample_ok|vm_compute; lia|done|done].
Defined.

(** The tabs of a chunk: the iterator yields, in order, the byte offset and
    the character offset of every tab of the text, and ends within 128 calls. *)
Theorem chunk_tab_positions cs c :
  Forall char_ok cs → Chunk.new (bytes_of cs) = Some c →
  tabs_collect MAX_BASE (tabs_of c) = tab_positions 0 0 cs.
Proof.
  intros Hcs E. destruct (new_text _ _ E Hcs) as [_ Hc].
  pose proof (chunk_length _ _ Hc). pose proof (length_chars_le cs Hcs).
  apply (tabs_collect_from [] cs c (tabs c) MAX_BASE Hcs Hc); [apply (chunk_tabs _ _ Hc)|lia].
Qed.

Lemma chunk_tab_positions_witness :
  (c ← Chunk.new (bytes_of [233; 9; 97; 9]%Z); Some (tabs_collect MAX_BASE (tabs_of c))) =
  Some [mkTabPosition 2 1; mkTabPosition 4 3].
Proof.
  destruct (Chunk.new (bytes_of [233; 9; 97; 9]%Z)) as [c|] eqn:E; [|discriminate E].
  cbn [mbind option_bind].
  rewrite (chunk_tab_positions [233; 9; 97; 9]%Z c); [by vm_compute|repeat constructor; by vm_compute|done].
Defined.

(** [ChunkSlice::slice] is lenient about offsets inside a character, but
    not always: in a chunk of 128 bytes that ends in a character of more than
    two bytes, a slice that starts inside that last character is moved to 128
    and shifts the bitmaps by their whole width, which overflows. *)
Theorem chunk_slice_overflow cs ch c start end_ :
  Forall char_ok (cs ++ [ch]) → length (bytes_of (cs ++ [ch])) = MAX_BASE →
  Chunk.new (bytes_of (cs ++ [ch])) = Some c →
  length (bytes_of cs) < start < MAX_BASE → Chunk.slice c start end_ = None.
Proof.
  intros Hok Hl E Hs. destruct (new_text _ _ E Hok) as [_ Hc].
  assert (Hin : ∀ q, length (bytes_of cs) < q < MAX_BASE → Utf8.is_char_boundary (bytes_of (cs ++ [ch])) q = false).
  { intros q Hq. apply not_true_iff_false. intros Hb.
    destruct (inside_char cs ch [] q Hok Hb); lia. }
  assert (Ec : ceil_char_boundary (text c) start = MAX_BASE).
  { rewrite (chunk_text _ _ Hc). apply ceil_unique.
    - by apply str_ok_bytes.
    - lia.
    - rewrite <- Hl. apply boundary_split; [done|]. exists (cs ++ [ch]), []. by rewrite app_nil_r.
    - lia.
    - intros q Hq. apply Hin. lia. }
  unfold Chunk.slice. rewrite bool_decide_eq_false_2 by lia. cbn zeta.
  rewrite (is_char_boundary_of _ _ _ Hc), Hin, Ec by lia. done.
Qed.

(** 125 letters and the euro sign. *)
Lemma chunk_slice_overflow_witness :
  ∃ c, Chunk.new (bytes_of (replicate 125 97 ++ [8364])%Z) = Some c ∧ Chunk.slice c 126 128 = None.
Proof.
  destruct (Chunk.new (bytes_of (replicate 125 97 ++ [8364])%Z)) as [c|] eqn:E; [|discriminate E].
  exists c. split; [done|].
  apply (chunk_slice_overflow (replicate 125 97) 8364 c 126 128)%Z;
    [repeat constructor; by vm_compute|by vm_compute|done|vm_compute; lia].
Defined.
