(* ===== verification/RopeProps.v ===== *)
(** Properties of ropes.

    [rope_text cs r] is the abstraction: the rope [r] is a well-formed tree of
    canonical chunks whose texts are together the code points [cs].  The
    operations refine those of lists of characters, and the conversions are
    read off the summaries ([from_str]) of the texts before a place. *)

From stdpp Require Import base numbers option list.
From S2P Require Import Prelude SumTree SumTreeFacts Search Cursor Utf8 Point Bits Chunk ChunkBits ChunkSummary Rope TextSummary ChunkFacts ChunkClip RopeTree RopePlace RopeEdit RopeCursor RopeBounds.

#[local] Open Scope nat_scope.

Lemma from_iter_text bs a r :
  rope_text a r → Forall (Forall char_ok) bs →
  ∃ r', foldlM Rope.push r (map bytes_of bs) = Some r' ∧ rope_text (a ++ concat bs) r'.
Proof.
  intros Hr Hbs. revert a r Hr. induction Hbs as [|b bs Hb _ IH]; intros a r Hr.
  { exists r. split; [done|]. by rewrite app_nil_r. }
  destruct (push_text a r b Hr Hb) as (r1&E1&Hr1). destruct (IH _ _ Hr1) as (r2&E2&Hr2).
  exists r2. cbn [map foldlM]. rewrite E1. split; [done|]. cbn [concat]. by rewrite app_assoc.
Qed.

Lemma rope_text_new : rope_text [] Rope_new.
Proof. exists 0, []. split; [apply rope_of_new|done]. Qed.

Lemma rope_extents cs r :
  rope_text cs r →
  Rope.summary r = from_str cs ∧ Rope.len r = blen cs ∧ (Rope.is_empty r = true ↔ cs = []) ∧
  max_point r = lines (from_str cs) ∧ max_point_utf16 r = lines_utf16 (from_str cs).
Proof.
  intros Hr. pose proof (rope_text_len _ _ Hr) as Hl. pose proof (rope_text_ok _ _ Hr) as Hok.
  destruct Hr as (h&css&Hr&<-). pose proof (rope_summary _ _ _ Hr) as E. split; [done|]. split; [done|].
  split.
  { unfold Rope.is_empty. rewrite Hl, bool_decide_eq_true. split; [|by intros ->].
    intros H0. apply bytes_of_nil_inv; [done|]. by apply nil_length_inv. }
  unfold max_point, max_point_utf16, SumTree.extent. unfold Rope.summary in E.
  cbn [dim_add_summary Point_Dimension PointUtf16_Dimension dim_zero]. rewrite E, Point_plus_0_l. split; [done|].
  destruct (lines_utf16 (from_str (concat css))) as [rows columns]. unfold PointUtf16_plus. cbn [row16 column16].
  by case_match eqn:H0; [apply N.eqb_eq in H0 as ->|].
Qed.

(** C19: Editing a rope refines editing its text.  For ropes [r] of [a] and [k]
    of [b] (of a height the cursor's stack can hold), [from] a string,
    [from_iter] of strings, [push], [push_chunk], [append] and [push_front]
    succeed, split texts at character boundaries into canonical chunks of at
    most 128 bytes, and yield a well-formed rope of the joined text; the
    length and [is_empty] are those of the text.  For a text shorter than 4 GiB
    the summary of the rope, and so its last points, are those the code
    computes from the text with [u32] fields, and adding the summaries of the
    two parts of any cut of the text, in [u32], gives it too: nothing wraps
    around. *)
Theorem rope_edits_refine a r b k bs c :
  rope_text a r → rope_text b k → height (chunks r) < STACK_CAPACITY → height (chunks k) < STACK_CAPACITY →
  Forall (Forall char_ok) bs →
  (∃ r', from_text (bytes_of b) = Some r' ∧ rope_text b r') ∧
  (∃ r', Rope.from_iter (map bytes_of bs) = Some r' ∧ rope_text (concat bs) r') ∧
  (∃ r', Rope.push r (bytes_of b) = Some r' ∧ rope_text (a ++ b) r') ∧
  (Chunk.new (bytes_of b) = Some c → ∃ r', push_chunk r c = Some r' ∧ rope_text (a ++ b) r') ∧
  (∃ r', Rope.append r k = Some r' ∧ rope_text (a ++ b) r') ∧
  (∃ r', push_front r (bytes_of b) = Some r' ∧ rope_text (b ++ a) r') ∧
  Rope.len r = length (bytes_of a) ∧ (Rope.is_empty r = true ↔ a = []) ∧
  (small a →
    Rope.summary r = from_str32 a ∧ max_point r = lines (from_str32 a) ∧ max_point_utf16 r = lines_utf16 (from_str32 a) ∧
    ∀ u v, a = u ++ v → TextSummary_add32 (from_str32 u) (from_str32 v) = Rope.summary r).
Proof.
  intros Hr Hk Hhr Hhk Hbs. pose proof (rope_text_ok _ _ Hk) as Hb.
  destruct (rope_extents _ _ Hr) as (Hsum&Hlen&Hemp&Hmax&Hmax16).
  split; [by apply from_text_text|]. split; [apply (from_iter_text bs [] Rope_new rope_text_new Hbs)|].
  split; [by apply push_text|]. split.
  { intros E. apply push_chunk_text; [done|]. split; [done|].
    assert (Hl : blen b ≤ MAX_BASE).
    { unfold Chunk.new, array_string in E. case_bool_decide; [done|discriminate]. }
    destruct (new_of _ (str_ok_bytes b Hb) Hl) as (c'&E'&Hc). congruence. }
  split.
  { destruct (append_in _ _ _ _ _ _ (rope_text_in _ _ Hr) (rope_text_in _ _ Hk) Hhk) as (r'&E&Hr').
    exists r'. split; [done|]. by eapply rope_in_text. }
  split.
  { destruct Hr as (h&css&Hr&<-). apply (push_front_text h css r b Hr); [|done].
    destruct Hr as [Hwf _]. by rewrite <- (wf_height _ _ _ Hwf). }
  split; [done|]. split; [done|]. intros Hs. rewrite (from_str32_exact a Hs). split; [done|]. split; [done|]. split; [done|].
  intros u v ->. pose proof (small_app_l _ _ Hs) as Hu. pose proof (small_app_r _ _ Hs) as Hv. unfold small in *.
  rewrite bytes_of_app, length_app in Hs. rewrite Hsum, from_str_app, !from_str32_exact by done.
  apply (add32_exact _ _ _ _ (from_str_bounded u) (from_str_bounded v)). lia.
Qed.

(** The rope of "aé\n😀b", and of "tab\t". *)
Definition letters : list Z := [97; 233; 10; 128512; 98]%Z.
Definition tab_text : list Z := [116; 97; 98; 9]%Z.

Lemma letters_ok : Forall char_ok letters.
Proof. repeat constructor; by vm_compute. Qed.
Lemma tab_text_ok : Forall char_ok tab_text.
Proof. repeat constructor; by vm_compute. Qed.

(** A concrete rope with its text and height. *)
Lemma concrete_rope cs :
  Forall char_ok cs → bool_decide (Some 0 = height ∘ chunks <$> from_text (bytes_of cs)) = true →
  ∃ r, from_text (bytes_of cs) = Some r ∧ rope_text cs r ∧ height (chunks r) = 0.
Proof.
  intros Hcs H. destruct (from_text_text cs Hcs) as (r&E&Hr). exists r. rewrite E in H.
  apply bool_decide_eq_true in H. injection H as H. by split_and!.
Qed.

Lemma rope_edits_refine_witness :
  ∃ r k r', from_text (bytes_of letters) = Some r ∧ from_text (bytes_of tab_text) = Some k ∧
    Rope.append r k = Some r' ∧ rope_text (letters ++ tab_text) r'.
Proof.
  destruct (concrete_rope letters letters_ok) as (r&E&Hr&Hh); [by vm_compute|].
  destruct (concrete_rope tab_text tab_text_ok) as (k&Ek&Hk&Hhk); [by vm_compute|].
  destruct (rope_edits_refine letters r tab_text k [] Chunk_default Hr Hk) as (_&_&_&_&(r'&E'&Hr')&_);
    [rewrite Hh; unfold STACK_CAPACITY; lia|rewrite Hhk; unfold STACK_CAPACITY; lia|constructor|].
  by exists r, k, r'.
Defined.

(** C21: Cutting a rope refines cutting its text.  For a rope of [a ++ b ++ d]
    of a height at most 11, [slice] at the byte offsets around [b] yields a
    rope of [b], and [replace] puts a text between [a] and [d]; the cursor
    that does it never asks for more than its 16 stack entries.  Where [a] and
    [a ++ b] end at line starts, [slice_rows] is the slice of those rows. *)
Theorem rope_cuts_refine a b d k r :
  rope_text (a ++ b ++ d) r → height (chunks r) ≤ 11 → Forall char_ok k →
  (∃ r', slice r (length (bytes_of a)) (length (bytes_of (a ++ b))) = Some r' ∧ rope_text b r') ∧
  (∃ r', replace r (length (bytes_of a)) (length (bytes_of (a ++ b))) (bytes_of k) = Some r' ∧
    rope_text (a ++ k ++ d) r') ∧
  (small (a ++ b ++ d) → column (lines (from_str a)) = 0%N → column (lines (from_str (a ++ b))) = 0%N →
    ∃ r', slice_rows r (row (lines (from_str a))) (row (lines (from_str (a ++ b)))) = Some r' ∧ rope_text b r').
Proof.
  intros Hr Hh Hk. pose proof (rope_text_in _ _ Hr) as Hin.
  assert (Hslice : ∃ r', slice r (blen a) (blen (a ++ b)) = Some r' ∧ rope_text b r').
  { destruct (slice_text _ _ _ _ _ Hin) as (r'&E&Hr'); [unfold STACK_CAPACITY; lia|].
    exists r'. split; [done|]. by eapply rope_in_text. }
  split; [done|]. split; [apply (replace_text _ _ _ _ _ _ Hin); [unfold STACK_CAPACITY; lia|done]|].
  intros Hs Ha Hb. destruct Hr as (h&css&Hr&E). unfold slice_rows.
  assert (Hat : ∀ p q, a ++ b ++ d = p ++ q → column (lines (from_str p)) = 0%N →
    point_to_offset r (mkPoint (row (lines (from_str p))) 0) = blen p).
  { intros p q Epq H0. rewrite <- len_from_str, <- (rope_point_to_offset h css r p q Hr) by congruence.
    f_equal. destruct (lines (from_str p)). simpl in *. by subst. }
  rewrite (Hat a (b ++ d)), (Hat (a ++ b) d) by (done || by rewrite app_assoc). done.
Qed.

Lemma rope_cuts_refine_witness :
  ∃ r r', from_text (bytes_of letters) = Some r ∧ slice_rows r 0 1 = Some r' ∧ rope_text [97; 233; 10]%Z r'.
Proof.
  destruct (concrete_rope letters letters_ok) as (r&E&Hr&Hh); [by vm_compute|].
  destruct (rope_cuts_refine [] [97; 233; 10]%Z [128512; 98]%Z [] r Hr) as (_&_&Hrows); [lia|constructor|].
  destruct Hrows as (r'&E'&Hr'); [by vm_compute|done|done|]. by exists r, r'.
Defined.

(** C20: The eleven conversions agree with each other and with the text.  At any
    place of a text shorter than 4 GiB, after the characters [p] and before
    [q], the byte offset, the point, the UTF-16 offset and the UTF-16 point of
    the place (the entries of the summary of [p]) are converted into each
    other by the rope, also at the ends of lines, of chunks and of the text;
    so each pair of opposite conversions is a round trip. *)
Theorem rope_conversions p q r :
  rope_text (p ++ q) r → small (p ++ q) → height (chunks r) < STACK_CAPACITY →
  let s := from_str p in
  offset_to_point r (TextSummary.len s) = Some (lines s) ∧
  point_to_offset r (lines s) = TextSummary.len s ∧
  offset_to_offset_utf16 r (TextSummary.len s) = Some (TextSummary.len_utf16 s) ∧
  offset_utf16_to_offset r (TextSummary.len_utf16 s) = Some (TextSummary.len s) ∧
  offset_to_point_utf16 r (TextSummary.len s) = Some (lines_utf16 s) ∧
  point_utf16_to_offset r (lines_utf16 s) = Some (TextSummary.len s) ∧
  point_to_point_utf16 r (lines s) = lines_utf16 s ∧
  point_utf16_to_point r (lines_utf16 s) = Some (lines s) ∧
  unclipped_point_utf16_to_offset r (lines_utf16 s) = Some (TextSummary.len s) ∧
  unclipped_point_utf16_to_point r (lines_utf16 s) = Some (lines s) ∧
  point_to_offset_utf16 r (lines s) = Some (TextSummary.len_utf16 s) ∧
  point_utf16_to_offset_utf16 r (lines_utf16 s) = Some (TextSummary.len_utf16 s) ∧
  (q = [] → max_point r = lines s ∧ max_point_utf16 r = lines_utf16 s).
Proof.
  intros Hr Hs Hh. pose proof (rope_extents _ _ Hr) as (_&_&_&Hmax).
  destruct Hr as (h&css&Hr&E). rewrite (wf_height _ _ _ (proj1 Hr)) in Hh. rewrite <- E in Hs.
  cbn zeta. split_and!.
  - by apply (rope_offset_to_point h css r p q).
  - by apply (rope_point_to_offset h css r p q).
  - by apply (rope_offset_to_offset_utf16 h css r p q).
  - by apply (rope_offset_utf16_to_offset h css r p q).
  - by apply (rope_offset_to_point_utf16 h css r p q).
  - by apply (rope_point_utf16_to_offset h css r p q).
  - by apply (rope_point_to_point_utf16 h css r p q).
  - by apply (rope_point_utf16_to_point h css r p q).
  - by apply (rope_point_utf16_to_offset h css r p q).
  - by apply (rope_unclipped_point_utf16_to_point h css r p q).
  - by apply (rope_point_to_offset_utf16 h css r p q).
  - by apply (rope_point_utf16_to_offset_utf16 h css r p q).
  - intros ->. by rewrite app_nil_r in Hmax.
Qed.

Lemma rope_conversions_witness :
  ∃ r, from_text (bytes_of letters) = Some r ∧ offset_to_point_utf16 r 8 = Some (mkPointUtf16 1 2).
Proof.
  destruct (concrete_rope letters letters_ok) as (r&E&Hr&Hh); [by vm_compute|].
  destruct (rope_conversions [97; 233; 10; 128512]%Z [98]%Z r Hr) as (_&_&_&_&H&_);
    [by vm_compute|rewrite Hh; unfold STACK_CAPACITY; lia|]. by exists r.
Defined.

(** For every offset, also out of range, the rope finds the character
    boundaries of its text: [is_char_boundary] decides them, [floor_char_boundary]
    and [clip_offset] to the left give the last one at or before the offset,
    [ceil_char_boundary] and [clip_offset] to the right the first one at or
    after it. *)
Theorem rope_boundaries cs r i :
  rope_text cs r →
  let s := bytes_of cs in let n := i `min` length s in
  is_char_boundary r i = Some (Utf8.is_char_boundary s i) ∧
  ∃ p q, floor_char_boundary r i = Some p ∧ clip_offset r i Left = Some p ∧
    ceil_char_boundary r i = Some q ∧ clip_offset r i Right = Some q ∧
    p ≤ n ≤ q ∧ Utf8.is_char_boundary s p = true ∧ Utf8.is_char_boundary s q = true ∧
    (∀ j, p < j ≤ n → Utf8.is_char_boundary s j = false) ∧ (∀ j, n ≤ j < q → Utf8.is_char_boundary s j = false).
Proof.
  intros Hr s n. pose proof (str_ok_bytes cs (rope_text_ok _ _ Hr)) as Hok.
  split; [by apply rope_is_char_boundary|].
  exists (Utf8.floor_char_boundary s i), (Utf8.ceil_char_boundary s i).
  cbn [clip_offset]. rewrite (rope_floor_char_boundary cs r i Hr), (rope_ceil_char_boundary cs r i Hr).
  assert (En : Utf8.floor_char_boundary s i = Utf8.floor_char_boundary s n ∧
               Utf8.ceil_char_boundary s i = Utf8.ceil_char_boundary s n).
  { unfold n. destruct (decide (i ≤ length s)); [by rewrite Nat.min_l|]. rewrite Nat.min_r by lia.
    unfold Utf8.floor_char_boundary, Utf8.ceil_char_boundary. by rewrite !bool_decide_eq_true_2 by lia. }
  fold s. destruct En as [-> ->].
  destruct (floor_spec s n Hok ltac:(lia)) as (?&?&?), (ceil_spec s n ltac:(lia)) as (?&?&?).
  split_and!; try done; lia.
Qed.

Lemma rope_boundaries_witness :
  ∃ r, from_text (bytes_of letters) = Some r ∧ is_char_boundary r 2 = Some false ∧ is_char_boundary r 100 = Some false.
Proof.
  destruct (concrete_rope letters letters_ok) as (r&E&Hr&_); [by vm_compute|]. exists r. split; [done|].
  split; [exact (proj1 (rope_boundaries letters r 2 Hr))|exact (proj1 (rope_boundaries letters r 100 Hr))].
Defined.

(** Clipping.  An offset in UTF-16 units within the character [ch] stays
    where it is at its start; inside a surrogate pair it goes to the start or
    to the end by the bias; at or past the end of the text it goes there.  A
    point at or past the end of its line, also [u32::MAX] columns on, is
    clipped to the end of the line before its newline, a point past the text
    to the end of the text, for any notion of grapheme; so [line_len] counts
    the bytes of every line, and of the last one for rows past the end. *)
Theorem rope_clips is_grapheme_boundary x ch z r bias t line :
  rope_text (x ++ ch :: z) r → small (x ++ ch :: z) → fits 32 t → fits 32 line →
  (ulen x ≤ t < ulen (x ++ [ch]) →
    clip_offset_utf16 r (MkOffsetUtf16 t) bias =
    Some (TextSummary.len_utf16 (from_str (if bool_decide (bias = Right ∧ t ≠ ulen x) then x ++ [ch] else x))))%N ∧
  (ulen (x ++ ch :: z) ≤ t →
    clip_offset_utf16 r (MkOffsetUtf16 t) bias = Some (TextSummary.len_utf16 (from_str (x ++ ch :: z))))%N ∧
  (ch = NEWLINE → column (lines (from_str x)) ≤ t →
    clip_point is_grapheme_boundary r (mkPoint (row (lines (from_str x))) t) bias = Some (lines (from_str x)) ∧
    line_len is_grapheme_boundary r (row (lines (from_str x))) = Some (column (lines (from_str x))))%N ∧
  (cmp (mkPoint line t) (lines (from_str (x ++ ch :: z))) ≠ Lt →
    clip_point is_grapheme_boundary r (mkPoint line t) bias = Some (lines (from_str (x ++ ch :: z)))) ∧
  (row (lines (from_str (x ++ ch :: z))) ≤ line →
    line_len is_grapheme_boundary r line = Some (column (lines (from_str (x ++ ch :: z)))))%N.
Proof.
  intros Hr Hs Ht Hline. split_and!.
  - by apply (rope_clip_offset_utf16 r x ch z).
  - by apply rope_clip_offset_utf16_past.
  - intros -> Hcol. by split; [apply (rope_clip_point_line_end _ r x z)|apply (rope_line_len _ r x z)].
  - intros Hge. by apply (rope_clip_point_past _ r (x ++ ch :: z)).
  - intros Hrow. by apply (rope_line_len_last _ r (x ++ ch :: z) line).
Qed.

(** Unit 4 of "aé\n😀b" is inside the surrogate pair. *)
Lemma rope_clips_witness :
  ∃ r, from_text (bytes_of letters) = Some r ∧
    clip_offset_utf16 r (MkOffsetUtf16 4) Left = Some (MkOffsetUtf16 3) ∧
    clip_offset_utf16 r (MkOffsetUtf16 4) Right = Some (MkOffsetUtf16 5).
Proof.
  destruct (concrete_rope letters letters_ok) as (r&E&Hr&_); [by vm_compute|]. exists r. split; [done|].
  assert (Hs : small letters) by by vm_compute.
  split.
  - destruct (rope_clips (λ _ _, true) [97; 233; 10]%Z 128512 [98]%Z r Left 4 0 Hr Hs) as (H&_); [done|done|].
    apply H. by vm_compute.
  - destruct (rope_clips (λ _ _, true) [97; 233; 10]%Z 128512 [98]%Z r Right 4 0 Hr Hs) as (H&_); [done|done|].
    apply H. by vm_compute.
Defined.

(** The cursor of a rope measures what it passes.  Seeking to the end of
    [a], then [summary] to the end of [b] is the measure of [b], in any text
    dimension: the whole summary, bytes, UTF-16 units, points, UTF-16 points
    and pairs of them; and [slice] and [suffix] from there on are ropes of
    the text passed and of the rest. *)
Theorem rope_cursor_measures {D} `{MetricLaws D, !TextDimension D, !TextDimensionLaws D, !DimensionLaws D ChunkSummary ()} a b d r :
  rope_text (a ++ b ++ d) r → height (chunks r) < STACK_CAPACITY - 1 → small b →
  ∃ c, cursor r (length (bytes_of a)) = Some c ∧
    (∃ c', Rope.cursor_summary c (length (bytes_of (a ++ b))) = Some (c', metric (from_str b) : D)) ∧
    (∃ c' r', cursor_slice c (length (bytes_of (a ++ b))) = Some (c', r') ∧ rope_text b r' ∧
      ∃ r'', cursor_suffix c' = Some r'' ∧ rope_text d r'').
Proof.
  intros Hr Hh Hs. pose proof (rope_text_in _ _ Hr) as Hin. unfold STACK_CAPACITY in Hh.
  destruct (cursor_text _ r a (b ++ d) Hin) as (c&E&_&Hc); [unfold STACK_CAPACITY; lia|].
  exists c. split; [done|].
  destruct (cursor_summary_text (D:=D) _ _ _ _ _ Hc Hs) as (c1&E1&_). split; [by exists c1|].
  destruct (cursor_slice_text _ _ _ _ _ Hc) as (c2&r'&E2&_&Hc2&Hr'); [unfold STACK_CAPACITY; lia|].
  exists c2, r'. split; [done|]. split; [by eapply rope_in_text|].
  destruct (cursor_suffix_text _ _ _ _ Hc2) as (r''&E3&Hr''); [unfold STACK_CAPACITY; lia|].
  exists r''. split; [done|]. by eapply rope_in_text.
Qed.

Lemma rope_cursor_measures_witness :
  ∃ r c c', from_text (bytes_of letters) = Some r ∧ cursor r 1 = Some c ∧
    Rope.cursor_summary c 8 = Some (c', (mkPoint 1 4, MkOffsetUtf16 4)).
Proof.
  destruct (concrete_rope letters letters_ok) as (r&E&Hr&Hh); [by vm_compute|]. exists r.
  destruct (rope_cursor_measures (D:=Point * OffsetUtf16) [97]%Z [233; 10; 128512]%Z [98]%Z r Hr)
    as (c&Ec&(c'&E')&_); [rewrite Hh; unfold STACK_CAPACITY; lia|by vm_compute|].
  by exists c, c'.
Defined.
