(* ===== verification/RopeIter.v ===== *)
(** The iterators of a rope: [Chunks], [Bytes] and [Lines] of
    [crates/rope/src/rope.rs], and the comparisons with strings built on them.

    An iterator keeps a cursor over the chunks, the range it covers and its
    offset; a [next] returns the new state with its item.  A panic is [None]. *)

From stdpp Require Import base numbers option list.
From S2P Require Import Prelude SumTree Cursor TextSummary Utf8 Point Bits Chunk Rope.

#[local] Open Scope nat_scope.

(** [str::find] and [rfind] of a newline, on the bytes of the string. *)
Definition find_newline (s : list Z) : option nat := fst <$> list_find (λ b, b = NEWLINE) s.
Fixpoint rfind_newline (s : list Z) : option nat :=
  match s with
  | [] => None
  | b :: s =>
      match rfind_newline s with
      | Some ix => Some (S ix)
      | None => if (b =? NEWLINE)%Z then Some 0 else None
      end
  end.

(** [str::starts_with], [ends_with] and [get(a..b)] with a string. *)
Definition str_starts_with (s pattern : list Z) : bool := bool_decide (take (length pattern) s = pattern).
Definition str_ends_with (s pattern : list Z) : bool :=
  bool_decide (length pattern ≤ length s) && bool_decide (drop (length s - length pattern) s = pattern).

(** [&bytes[start..end]]. *)
Definition byte_slice (s : list Z) (start end_ : nat) : option (list Z) :=
  if bool_decide (start ≤ end_ ∧ end_ ≤ length s) then Some (take (end_ - start) (drop start s)) else None.

(** ** Chunks *)

Record Chunks := mkChunks {
  chunks_cursor : Cursor Chunk ChunkSummary nat ();
  chunks_range : nat * nat;
  chunks_offset : nat;
  chunks_reversed : bool
}.

Definition with_cursor (self : Chunks) (cursor : Cursor Chunk ChunkSummary nat ()) : Chunks :=
  mkChunks cursor (chunks_range self) (chunks_offset self) (chunks_reversed self).
Definition with_offset (self : Chunks) (offset : nat) : Chunks :=
  mkChunks (chunks_cursor self) (chunks_range self) offset (chunks_reversed self).

Definition chunks_new (rope : Rope) (range : nat * nat) (reversed : bool) : option Chunks :=
  let offset := if reversed then range.2 else range.1 in
  '(chunks, _) ← Cursor.seek (cursor_new (Rope.chunks rope) ()) offset (if reversed then Left else Right);
  chunk_offset ← usub offset (Cursor.start chunks);
  chunk ← Cursor.item chunks;
  _ ← match chunk with Some chunk => Chunk.assert_char_boundary true chunk chunk_offset | None => Some true end;
  Some (mkChunks chunks range offset reversed).

Definition offset_is_valid (self : Chunks) : bool :=
  let '(start, end_) := chunks_range self in
  if chunks_reversed self
  then negb (bool_decide (chunks_offset self ≤ start) || bool_decide (end_ < chunks_offset self))
  else negb (bool_decide (chunks_offset self < start) || bool_decide (end_ ≤ chunks_offset self)).

(** [offset.clamp(start, end)] asserts [start <= end]. *)
Definition clamp (offset : nat) (range : nat * nat) : option nat :=
  _ ← assert_ (bool_decide (range.1 ≤ range.2));
  Some (if bool_decide (offset < range.1) then range.1
        else if bool_decide (range.2 < offset) then range.2 else offset).

Definition chunks_seek (self : Chunks) (offset : nat) : option Chunks :=
  offset ← clamp offset (chunks_range self);
  let chunks := chunks_cursor self in
  chunks_end ← Cursor.end_ chunks;
  let bias := if chunks_reversed self then Left else Right in
  let forward := if chunks_reversed self then bool_decide (chunks_end < offset) else bool_decide (chunks_end ≤ offset) in
  let backward := if chunks_reversed self then bool_decide (offset ≤ Cursor.start chunks)
                  else bool_decide (offset < Cursor.start chunks) in
  chunks ←
    (if forward then '(chunks, _) ← Cursor.seek_forward chunks offset bias; Some chunks
     else if backward then '(chunks, _) ← Cursor.seek chunks offset bias; Some chunks
     else Some chunks);
  Some (mkChunks chunks (chunks_range self) offset (chunks_reversed self)).

Definition set_range (self : Chunks) (range : nat * nat) : option Chunks :=
  chunks_seek (mkChunks (chunks_cursor self) range (chunks_offset self) (chunks_reversed self)) range.1.

(** The chunk at the offset and the part of it still to yield. *)
Definition current_chunk (self : Chunks) : option (option (Chunk * (nat * nat))) :=
  if offset_is_valid self then
    let chunks := chunks_cursor self in
    chunk ← Cursor.item chunks;
    match chunk with
    | None => Some None
    | Some chunk =>
        let chunk_start := Cursor.start chunks in
        if chunks_reversed self then
          slice_start ← usub (chunk_start `max` (chunks_range self).1) chunk_start;
          slice_end ← usub (chunks_offset self) chunk_start;
          Some (Some (chunk, (slice_start, slice_end)))
        else
          slice_start ← usub (chunks_offset self) chunk_start;
          chunks_end ← Cursor.end_ chunks;
          slice_end ← usub (chunks_end `min` (chunks_range self).2) chunk_start;
          Some (Some (chunk, (slice_start, slice_end)))
    end
  else Some None.

Definition peek (self : Chunks) : option (option (list Z)) :=
  current ← current_chunk self;
  match current with
  | None => Some None
  | Some (chunk, (slice_start, slice_end)) => s ← str_slice (Chunk.text chunk) slice_start slice_end; Some (Some s)
  end.

Definition peek_bytes (self : Chunks) : option (option (list Z)) :=
  current ← current_chunk self;
  match current with
  | None => Some None
  | Some (chunk, (slice_start, slice_end)) => s ← byte_slice (Chunk.text chunk) slice_start slice_end; Some (Some s)
  end.

Record ChunkBitmaps := mkChunkBitmaps {
  bitmap_text : list Z;
  bitmap_chars : Bitmap;
  bitmap_tabs : Bitmap;
  bitmap_newlines : Bitmap
}.

Definition peek_with_bitmaps (self : Chunks) : option (option ChunkBitmaps) :=
  current ← current_chunk self;
  match current with
  | None => Some None
  | Some (chunk, (slice_start, slice_end)) =>
      s ← str_slice (Chunk.text chunk) slice_start slice_end;
      t ← shr (Chunk.tabs chunk) slice_start;
      c ← shr (Chunk.chars chunk) slice_start;
      n ← shr (Chunk.newlines chunk) slice_start;
      Some (Some (mkChunkBitmaps s c t n))
  end.

(** The step both iterators make past [n] bytes. *)
Definition chunks_advance (self : Chunks) (n : nat) : option Chunks :=
  if chunks_reversed self then
    offset ← usub (chunks_offset self) n;
    let self := with_offset self offset in
    if bool_decide (offset ≤ Cursor.start (chunks_cursor self))
    then cursor ← Cursor.prev (chunks_cursor self); Some (with_cursor self cursor)
    else Some self
  else
    let self := with_offset self (chunks_offset self + n) in
    chunks_end ← Cursor.end_ (chunks_cursor self);
    if bool_decide (chunks_end ≤ chunks_offset self)
    then cursor ← Cursor.next (chunks_cursor self); Some (with_cursor self cursor)
    else Some self.

Definition chunks_next (self : Chunks) : option (Chunks * option (list Z)) :=
  chunk ← peek self;
  match chunk with
  | None => Some (self, None)
  | Some chunk => self ← chunks_advance self (length chunk); Some (self, Some chunk)
  end.

Definition bitmaps_next (self : Chunks) : option (Chunks * option ChunkBitmaps) :=
  chunk ← peek_with_bitmaps self;
  match chunk with
  | None => Some (self, None)
  | Some chunk => self ← chunks_advance self (length (bitmap_text chunk)); Some (self, Some chunk)
  end.

(** The items of the iterator, one call each. *)
Fixpoint chunks_collect (fuel : nat) (self : Chunks) : option (list (list Z)) :=
  match fuel with
  | O => Some []
  | S fuel =>
      '(self, chunk) ← chunks_next self;
      match chunk with
      | None => Some []
      | Some chunk => rest ← chunks_collect fuel self; Some (chunk :: rest)
      end
  end.

Definition chunks_in_range (self : Rope) (range : nat * nat) : option Chunks := chunks_new self range false.
Definition reversed_chunks_in_range (self : Rope) (range : nat * nat) : option Chunks := chunks_new self range true.
Definition rope_chunks (self : Rope) : option Chunks := chunks_in_range self (0, Rope.len self).

(** ** Moving by lines *)

(** The rows before the line an iterator moves to: does a summary have one? *)
Definition has_newline (summary : ChunkSummary) : bool := (0 <? row (TextSummary.lines (TextSummary.text summary)))%N.

Definition next_line (self : Chunks) : option (Chunks * bool) :=
  _ ← assert_ (negb (chunks_reversed self));
  let range_end := (chunks_range self).2 in
  chunk ← peek self;
  '(self, found) ←
    match chunk with
    | None => Some (self, false)
    | Some chunk =>
        '(self, found) ←
          match find_newline chunk with
          | Some newline_ix =>
              let offset := chunks_offset self + (newline_ix + 1) in
              Some (with_offset self offset, bool_decide (offset ≤ range_end))
          | None =>
              cursor ← Cursor.search_forward (chunks_cursor self) has_newline;
              let self := with_offset (with_cursor self cursor) (Cursor.start cursor) in
              chunk ← peek self;
              match c ← chunk; find_newline c with
              | Some newline_ix =>
                  let offset := chunks_offset self + (newline_ix + 1) in
                  Some (with_offset self offset, bool_decide (offset ≤ range_end))
              | None => chunks_end ← Cursor.end_ cursor; Some (with_offset self chunks_end, false)
              end
          end;
        chunks_end ← Cursor.end_ (chunks_cursor self);
        if bool_decide (chunks_offset self = chunks_end)
        then '(self, _) ← chunks_next self; Some (self, found)
        else Some (self, found)
    end;
  if bool_decide (range_end < chunks_offset self)
  then
    let offset := chunks_offset self `min` range_end in
    '(cursor, _) ← Cursor.seek (chunks_cursor self) offset Right;
    Some (with_offset (with_cursor self cursor) offset, found)
  else Some (self, found).

(** [chunk.text[..end_ix].rfind('\n')] and the offset it gives, in the chunk of
    the cursor. *)
Definition line_start_before (cursor : Cursor Chunk ChunkSummary nat ()) (chunk : Chunk) (end_ix : nat) : option (option nat) :=
  s ← str_slice (Chunk.text chunk) 0 end_ix;
  Some ((λ newline_ix, Cursor.start cursor + newline_ix + 1) <$> rfind_newline s).

(** The first part of [prev_line]: a line start in the chunk of the offset; the
    iterator goes there, and [true] says that it stays. *)
Definition prev_line_here (self : Chunks) : option (Chunks * bool) :=
  chunk ← Cursor.item (chunks_cursor self);
  match chunk with
  | None => Some (self, false)
  | Some chunk =>
      end_ix ← usub (chunks_offset self) (Cursor.start (chunks_cursor self));
      last ← usub end_ix 1;
      b ← Chunk.text chunk !! last;
      let end_ix := if (b =? NEWLINE)%Z then last else end_ix in
      offset ← line_start_before (chunks_cursor self) chunk end_ix;
      match offset with
      | Some offset => let self := with_offset self offset in Some (self, offset_is_valid self)
      | None => Some (self, false)
      end
  end.

(** The second part: a line start in an earlier chunk. *)
Definition prev_line_before (self : Chunks) : option (Chunks * bool) :=
  cursor ← Cursor.search_backward (chunks_cursor self) has_newline;
  let self := with_offset (with_cursor self cursor) (Cursor.start cursor) in
  chunk ← Cursor.item cursor;
  match chunk with
  | None => Some (self, false)
  | Some chunk =>
      match rfind_newline (Chunk.text chunk) with
      | None => Some (self, false)
      | Some newline_ix =>
          let self := with_offset self (chunks_offset self + (newline_ix + 1)) in
          if offset_is_valid self then
            chunks_end ← Cursor.end_ cursor;
            if bool_decide (chunks_offset self = chunks_end)
            then cursor ← Cursor.next cursor; Some (with_cursor self cursor, true)
            else Some (self, true)
          else Some (self, false)
      end
  end.

Definition prev_line (self : Chunks) : option (Chunks * bool) :=
  _ ← assert_ (negb (chunks_reversed self));
  let initial_offset := chunks_offset self in
  self ←
    (if bool_decide (chunks_offset self = Cursor.start (chunks_cursor self))
     then cursor ← Cursor.prev (chunks_cursor self); Some (with_cursor self cursor)
     else Some self);
  '(self, here) ← prev_line_here self;
  if (here : bool) then Some (self, true)
  else
    '(self, before) ← prev_line_before self;
    if (before : bool) then Some (self, true)
    else
      chunk ← Cursor.item (chunks_cursor self);
      self ←
        (if negb (offset_is_valid self) || match chunk with None => true | Some _ => false end
         then
           let offset := (chunks_range self).1 in
           '(cursor, _) ← Cursor.seek (chunks_cursor self) offset Right;
           Some (with_offset (with_cursor self cursor) offset)
         else Some self);
      Some (self, bool_decide (chunks_offset self < initial_offset) && bool_decide (chunks_offset self = 0)).

(** ** Comparing with a string *)

(** The loops over the chunks; the fuel is the number of calls to [next]. *)
Fixpoint equals_loop (fuel : nat) (self : Chunks) (other : list Z) (offset : nat) : option bool :=
  '(self, chunk) ← chunks_next self;
  match chunk with
  | None => Some (bool_decide (offset = if chunks_reversed self then 0 else length other))
  | Some chunk =>
      if chunks_reversed self then
        if str_ends_with (take offset other) chunk
        then match fuel with O => None | S fuel => offset ← usub offset (length chunk); equals_loop fuel self other offset end
        else Some false
      else if bool_decide (length other ≤ offset) then Some false
      else if str_starts_with (drop offset other) chunk
      then match fuel with O => None | S fuel => equals_loop fuel self other (offset + length chunk) end
      else Some false
  end.
Definition equals_str (self : Chunks) (other : list Z) : option bool :=
  equals_loop (S (length other)) self other (if chunks_reversed self then length other else 0).

Definition str_get (s : list Z) (start end_ : nat) : option (list Z) := str_slice s start end_.

Fixpoint starts_with_loop (fuel : nat) (chunks : Chunks) (remaining : list Z) : option bool :=
  '(chunks, chunk) ← chunks_next chunks;
  match chunk with
  | None => Some (bool_decide (length remaining = 0))
  | Some chunk =>
      match str_get chunk 0 (length remaining `min` length chunk) with
      | None => Some false
      | Some chunk =>
          if str_starts_with remaining chunk then
            let remaining := drop (length chunk) remaining in
            if bool_decide (length remaining = 0) then Some true
            else match fuel with O => None | S fuel => starts_with_loop fuel chunks remaining end
          else Some false
      end
  end.
Definition starts_with (self : Rope) (pattern : list Z) : option bool :=
  if bool_decide (Rope.len self < length pattern) then Some false
  else chunks ← chunks_in_range self (0, Rope.len self); starts_with_loop (length pattern) chunks pattern.

Fixpoint ends_with_loop (fuel : nat) (chunks : Chunks) (remaining : list Z) : option bool :=
  '(chunks, chunk) ← chunks_next chunks;
  match chunk with
  | None => Some (bool_decide (length remaining = 0))
  | Some chunk =>
      match str_get chunk (length chunk - length remaining `min` length chunk) (length chunk) with
      | None => Some false
      | Some chunk =>
          if str_ends_with remaining chunk then
            let remaining := take (length remaining - length chunk) remaining in
            if bool_decide (length remaining = 0) then Some true
            else match fuel with O => None | S fuel => ends_with_loop fuel chunks remaining end
          else Some false
      end
  end.
Definition ends_with (self : Rope) (pattern : list Z) : option bool :=
  if bool_decide (Rope.len self < length pattern) then Some false
  else chunks ← reversed_chunks_in_range self (0, Rope.len self); ends_with_loop (length pattern) chunks pattern.

(** ** Bytes *)

Record Bytes := mkBytes {
  bytes_cursor : Cursor Chunk ChunkSummary nat ();
  bytes_range : nat * nat;
  bytes_reversed : bool
}.

Definition bytes_new (rope : Rope) (range : nat * nat) (reversed : bool) : option Bytes :=
  '(chunks, _) ← (if reversed then Cursor.seek (cursor_new (Rope.chunks rope) ()) range.2 Left
                  else Cursor.seek (cursor_new (Rope.chunks rope) ()) range.1 Right);
  Some (mkBytes chunks range reversed).

Definition bytes_peek (self : Bytes) : option (option (list Z)) :=
  let '(range_start, range_end) := bytes_range self in
  chunk ← Cursor.item (bytes_cursor self);
  match chunk with
  | None => Some None
  | Some chunk =>
      chunks_end ← Cursor.end_ (bytes_cursor self);
      if bytes_reversed self && bool_decide (chunks_end ≤ range_start) then Some None
      else
        let chunk_start := Cursor.start (bytes_cursor self) in
        if bool_decide (range_end ≤ chunk_start) then Some None
        else
          end_ ← usub range_end chunk_start;
          s ← byte_slice (Chunk.text chunk) (range_start - chunk_start) (length (Chunk.text chunk) `min` end_);
          Some (Some s)
  end.

Definition bytes_step (self : Bytes) : option Bytes :=
  cursor ← (if bytes_reversed self then Cursor.prev (bytes_cursor self) else Cursor.next (bytes_cursor self));
  Some (mkBytes cursor (bytes_range self) (bytes_reversed self)).

Definition bytes_next (self : Bytes) : option (Bytes * option (list Z)) :=
  result ← bytes_peek self;
  match result with
  | Some chunk => self ← bytes_step self; Some (self, Some chunk)
  | None => Some (self, None)
  end.

(** [io::Read]: the bytes written into a buffer of [n] bytes; their number is
    the result. *)
Definition bytes_read (self : Bytes) (n : nat) : option (Bytes * list Z) :=
  chunk ← bytes_peek self;
  match chunk with
  | None => Some (self, [])
  | Some chunk =>
      let len := n `min` length chunk in
      let '(range_start, range_end) := bytes_range self in
      '(range, buf) ←
        (if bytes_reversed self
         then range_end ← usub range_end len; Some ((range_start, range_end), reverse (drop (length chunk - len) chunk))
         else Some ((range_start + len, range_end), take len chunk));
      let self := mkBytes (bytes_cursor self) range (bytes_reversed self) in
      self ← (if bool_decide (len = length chunk) then bytes_step self else Some self);
      Some (self, buf)
  end.

(** ** Lines *)

Record Lines := mkLines {
  lines_chunks : Chunks;
  current_line : list Z;
  done : bool;
  lines_reversed : bool
}.

Definition chunks_lines (self : Chunks) : Lines := mkLines self [] false (chunks_reversed self).

(** The loop of [next], with the state, and the line returned. *)
Fixpoint lines_loop (fuel : nat) (self : Lines) : option (Lines * list Z) :=
  chunk ← peek (lines_chunks self);
  match chunk with
  | None => Some (mkLines (lines_chunks self) (current_line self) true (lines_reversed self), current_line self)
  | Some chunk =>
      let chunk_lines := if lines_reversed self then reverse (split_lines chunk) else split_lines chunk in
      match chunk_lines with
      | chunk_line :: _ :: _ =>
          offset ←
            (if lines_reversed self
             then o ← usub (chunks_offset (lines_chunks self)) (length chunk_line); usub o 1
             else Some (chunks_offset (lines_chunks self) + length chunk_line + 1));
          chunks ← chunks_seek (lines_chunks self) offset;
          if bool_decide (length (current_line self) = 0)
          then Some (mkLines chunks (current_line self) (done self) (lines_reversed self), chunk_line)
          else
            let line := if lines_reversed self then chunk_line ++ current_line self else current_line self ++ chunk_line in
            Some (mkLines chunks line (done self) (lines_reversed self), line)
      | _ =>
          let chunk_line := default [] (head chunk_lines) in
          let line := if lines_reversed self then chunk_line ++ current_line self else current_line self ++ chunk_line in
          '(chunks, _) ← chunks_next (lines_chunks self);
          match fuel with
          | O => None
          | S fuel => lines_loop fuel (mkLines chunks line (done self) (lines_reversed self))
          end
      end
  end.

(** Every round but the last takes a part of the range. *)
Definition lines_fuel (self : Lines) : nat := S ((chunks_range (lines_chunks self)).2).
Definition lines_next (self : Lines) : option (Lines * option (list Z)) :=
  if done self then Some (self, None)
  else
    '(self, line) ← lines_loop (lines_fuel self) (mkLines (lines_chunks self) [] (done self) (lines_reversed self));
    Some (self, Some line).

Definition lines_seek (self : Lines) (offset : nat) : option Lines :=
  chunks ← chunks_seek (lines_chunks self) offset;
  Some (mkLines chunks [] false (lines_reversed self)).
Definition lines_offset (self : Lines) : nat := chunks_offset (lines_chunks self).

Fixpoint lines_collect (fuel : nat) (self : Lines) : option (list (list Z)) :=
  match fuel with
  | O => Some []
  | S fuel =>
      '(self, line) ← lines_next self;
      match line with
      | None => Some []
      | Some line => rest ← lines_collect fuel self; Some (line :: rest)
      end
  end.
