(* ===== verification/RopeIterFacts.v ===== *)
(** The cursor of an iterator over the chunks of a rope, forwards or backwards:
    [iter_at] says where it stands in the text. *)

From stdpp Require Import base numbers option list.
From S2P Require Import Prelude SumTree SumTreeFacts Search Cursor CursorFacts StepFacts BackFacts Iter CursorApi Utf8 Point Bits Chunk ChunkBits ChunkSummary Rope TextSummary RopeTree RopePlace RopeEdit RopeCursor RopeIter.

#[local] Open Scope nat_scope.

#[local] Ltac go := cbn [assert_ mbind option_bind].

Section iter_at.
Context (rev : bool).
Implicit Types (cur : Cursor Chunk ChunkSummary nat ()) (a b x y : list Z).

(** Forwards the cursor is on the chunk that holds the next character, backwards
    on the one that holds the last; an exhausted cursor has gone past the last
    chunk, or before the first one. *)
Definition iter_at cur a b : Prop :=
  (∃ css1 css2 els1 els2 x, cursor_at cur els1 els2 ∧ did_seek cur = true ∧
    Forall2 chunk_for css1 els1 ∧ Forall2 chunk_for css2 els2 ∧
    a = concat css1 ++ x ∧ concat css2 = x ++ b ∧
    match css2 with
    | [] => rev = true → a = []
    | k :: _ => ∃ y, k = x ++ y ∧ if rev then x ≠ [] ∨ a = [] else y ≠ []
    end) ∨
  (rev = true ∧ a = [] ∧ at_start cur ∧
   ∃ h css, wf () h (cursor_tree cur) ∧ h < STACK_CAPACITY ∧ Forall2 chunk_for css (elements (cursor_tree cur)) ∧ concat css = b).

(** Where a search for the end of [a] cuts the chunks ahead. *)
Lemma iter_cut cur css1 css2 els1 els2 a b :
  let bias := if rev then Left else Right in
  cursor_at cur els1 els2 → Forall2 chunk_for css1 els1 → Forall2 chunk_for css2 els2 →
  concat css1 ++ concat css2 = a ++ b → blen (concat css1) ≤ blen a →
  (rev = true → css1 = [] ∨ blen (concat css1) < blen a) →
  ∃ css3 css4 els3 els4 x, els2 = els3 ++ els4 ∧
    Forall2 chunk_for css3 els3 ∧ Forall2 chunk_for css4 els4 ∧
    seekable cur (blen a) bias els2 ∧ seek_cut cur (blen a) bias els2 = (els3, els4) ∧
    a = concat (css1 ++ css3) ++ x ∧ concat css4 = x ++ b ∧
    match css4 with
    | [] => rev = true → a = []
    | k :: _ => ∃ y, k = x ++ y ∧ if rev then x ≠ [] ∨ a = [] else y ≠ []
    end.
Proof.
  intros bias Hat Hf1 Hf2 E Hle Hrev. pose proof (start_text _ _ _ _ Hat Hf1) as Hs. unfold start in Hs.
  assert (Hok : Forall char_ok (a ++ b)).
  { rewrite <- E. apply Forall_app. split; by eapply chunk_for_ok. }
  destruct (seek_split_chunks (stops () (blen a) bias : nat → bool) (concat css1) css2 els2 Hf2)
    as (css3&css4&els3&els4&->&->&Hf3&Hf4&Hsplit&H3&H4).
  assert (Emetric : ∀ k, metric (from_str k) = blen k :> nat) by (intros; apply len_from_str).
  assert (Hstop : ∀ n, stops () (blen a) bias n = if rev then bool_decide (blen a ≤ n) else bool_decide (blen a < n)).
  { intros n. unfold stops, target_cmp, Ord_SeekTarget, cmp, nat_Ord, bias.
    destruct (Nat.compare_spec (blen a) n), rev; cbn; symmetry; ((apply bool_decide_eq_true; lia) || (apply bool_decide_eq_false; lia)). }
  rewrite concat_app, app_assoc in E. rewrite <- concat_app in E.
  assert (Hlo : blen (concat (css1 ++ css3)) ≤ blen a ∧
    (rev = true → css1 ++ css3 = [] ∨ blen (concat (css1 ++ css3)) < blen a)).
  { destruct css3 as [|k css3]; [by rewrite app_nil_r|]. specialize (H3 ltac:(done)).
    rewrite Emetric, Hstop, <- concat_app in H3. destruct rev; apply bool_decide_eq_false in H3; [split; [lia|right; lia]|split; [lia|done]]. }
  destruct Hlo as [Hlo Hstrict].
  destruct (prefix_of_blen a b (concat (css1 ++ css3)) (concat css4)) as (x&Ea&Ex); [done..|].
  exists css3, css4, els3, els4, x. split; [done|]. split; [done|]. split; [done|]. split.
  { split; [|destruct (cursor_cx cur); apply seek_good_mono, seek_mono_ord, nat_dim_mono].
    rewrite Hs. unfold target_cmp, Ord_SeekTarget, cmp, nat_Ord. rewrite Nat.compare_lt_iff. lia. }
  split; [unfold seek_cut; rewrite Hs, <- Emetric; by destruct (cursor_cx cur)|]. split; [done|]. split; [done|].
  assert (Hx : rev = true → x ≠ [] ∨ a = []).
  { intros Hr. destruct (Hstrict Hr) as [E0|Hlt].
    - rewrite E0 in Ea. cbn in Ea. subst x. destruct a; auto.
    - left. intros ->. rewrite Ea, app_nil_r in Hlt. lia. }
  destruct css4 as [|k rest].
  { intros Hr. destruct (Hx Hr) as [Hne|]; [|done]. cbn [concat] in Ex. symmetry in Ex. apply app_nil in Ex as [? _]. done. }
  specialize (H4 _ _ eq_refl). rewrite Emetric, Hstop, app_assoc, <- concat_app in H4.
  pose proof (f_equal (λ l, blen l) Ea) as El. cbn beta in El. rewrite blen_app in El, H4.
  assert (Hk : blen x ≤ blen k ∧ (rev = false → blen x < blen k)).
  { destruct rev; apply bool_decide_eq_true in H4; split; (lia || done). }
  destruct Hk as [Hk Hk']. cbn [concat] in Ex.
  destruct (prefix_of_blen k (concat rest) x b) as (y&->&_).
  { done. }
  { rewrite Ex. rewrite Ea, <- app_assoc in Hok. by apply Forall_app in Hok as [_ ?]. }
  { done. }
  exists y. split; [done|]. destruct rev; [by apply Hx|]. intros ->. rewrite app_nil_r in Hk'. specialize (Hk' eq_refl). lia.
Qed.

Lemma seek_iter cur a b els1 els2 css :
  cursor_at cur els1 els2 → Forall2 chunk_for css (els1 ++ els2) → concat css = a ++ b →
  ∃ cur' f, Cursor.seek cur (blen a) (if rev then Left else Right) = Some (cur', f) ∧
    cursor_tree cur' = cursor_tree cur ∧ iter_at cur' a b.
Proof.
  intros Hat Hf E. pose proof (cursor_at_reset _ _ _ Hat) as Hat0. rewrite (cursor_at_elements _ _ _ Hat) in Hat0.
  destruct (iter_cut (reset cur) [] css [] (els1 ++ els2) a b Hat0 ltac:(constructor) Hf E ltac:(cbn; lia) ltac:(auto))
    as (css3&css4&els3&els4&x&Eel&Hf3&Hf4&Hseek&Hcut&Ea&Eb&Hhead).
  destruct (seek_spec cur (blen a) _ els1 els2 els3 els4 Hat Hseek Hcut) as (c'&Es&(Ht&_&Hd)&Hat').
  exists c'. eexists. split; [exact Es|]. split; [done|]. left. by exists css3, css4, els3, els4, x.
Qed.

Lemma iter_at_text cur a b :
  iter_at cur a b → ∃ css h, wf () h (cursor_tree cur) ∧ h < STACK_CAPACITY ∧ Forall2 chunk_for css (elements (cursor_tree cur)) ∧ concat css = a ++ b.
Proof.
  intros [(css1&css2&els1&els2&x&Hat&_&Hf1&Hf2&->&Eb&_)|(_&->&_&h&css&Hwf&Hcap&Hf&<-)]; [|by exists css, h].
  exists (css1 ++ css2). pose proof (cursor_at_elements _ _ _ Hat) as Ee. destruct Hat as (h&Hwf&Hcap&_).
  exists h. rewrite Ee. destruct (cursor_cx cur). split; [done|]. split; [done|]. split; [by apply Forall2_app|].
  by rewrite concat_app, Eb, app_assoc.
Qed.
End iter_at.

(** ** Steps *)

Section steps.
Implicit Types (cur : Cursor Chunk ChunkSummary nat ()) (a b x y : list Z).

(** The chunk an iterator stands in: [a0] before the chunk, [x] and [y] in it
    on both sides of the place. *)
Record in_item cur a0 x y b' c : Prop := {
  in_item_item : Cursor.item cur = Some (Some c);
  in_item_slice : slice_for (x ++ y) c;
  in_item_start : start cur = blen a0;
  in_item_end : end_ cur = Some (blen (a0 ++ x ++ y));
  in_item_next : y ≠ [] → ∃ cur', Cursor.next cur = Some cur' ∧ cursor_tree cur' = cursor_tree cur ∧
    iter_at false cur' (a0 ++ x ++ y) b';
  in_item_prev : x ≠ [] → ∃ cur', Cursor.prev cur = Some cur' ∧ cursor_tree cur' = cursor_tree cur ∧
    iter_at true cur' a0 (x ++ y ++ b');
  in_item_fwd x' y' : x ++ y = x' ++ y' → y' ≠ [] → iter_at false cur (a0 ++ x') (y' ++ b');
  in_item_bwd x' y' : x ++ y = x' ++ y' → x' ≠ [] → iter_at true cur (a0 ++ x') (y' ++ b')
}.

(** A cursor on a chunk, at any place of it. *)
Lemma in_item_at cur css1 css2 els1 els2 k c x y :
  cursor_at cur els1 (c :: els2) → did_seek cur = true → Forall2 chunk_for css1 els1 → chunk_for k c →
  Forall2 chunk_for css2 els2 → k = x ++ y → in_item cur (concat css1) x y (concat css2) c.
Proof.
  intros Hat Hd Hf1 Hk Hf2 ->. assert (Hf : Forall2 chunk_for ((x ++ y) :: css2) (c :: els2)) by by constructor.
  constructor.
  - by rewrite (item_at _ _ _ Hat Hd).
  - exact (proj2 Hk).
  - by eapply start_text.
  - rewrite (end_text cur css1 els1 _ _ Hat Hd Hf1 Hf). done.
  - intros Hy. destruct (next_spec _ els1 (c :: els2) (els1 ++ [c]) els2 Hat) as (cur'&En&(Ht&_&Hd')&Hat').
    { unfold pending. by rewrite Hd. }
    exists cur'. split; [done|]. split; [done|]. left. exists (css1 ++ [x ++ y]), css2, (els1 ++ [c]), els2, [].
    split_and!; try done.
    + apply Forall2_app; [done|]. by constructor.
    + rewrite concat_app. cbn [concat]. by rewrite !app_nil_r.
    + destruct Hf2 as [|k' c' css2 els2 Hk' _]; [done|]. exists k'. split; [done|]. apply Hk'.
  - intros Hx. destruct (prev_spec _ els1 (c :: els2) Hat) as (cur'&Ep&(Ht&_&Hd')&Hcase).
    exists cur'. split; [done|]. split; [done|]. unfold behind in Hcase. rewrite Hd in Hcase.
    pose proof (cursor_at_elements _ _ _ Hat) as Eel.
    destruct (list.last els1) as [i|] eqn:El.
    + destruct Hcase as (els0&l2'&->&Hat'). left. apply Forall2_app_inv_r in Hf1 as (css0&k1&Hf0&Hk1&->).
      destruct (Forall2_cons_inv_r _ _ _ _ Hk1) as (k0&k'&Hk0&Hk'&->). apply Forall2_nil_inv_r in Hk' as ->.
      pose proof (cursor_at_elements _ _ _ Hat') as Eel'. rewrite Ht, Eel, <- app_assoc in Eel'.
      apply (inj (app els0)) in Eel'. injection Eel' as <-.
      exists css0, (k0 :: (x ++ y) :: css2), els0, (i :: c :: els2), k0. split_and!; try done.
      * by constructor.
      * by rewrite concat_app; cbn [concat]; rewrite app_nil_r.
      * cbn [concat]. by rewrite <- !app_assoc.
      * exists []. rewrite app_nil_r. split; [done|]. left. apply Hk0.
    + apply last_None in El as ->. apply Forall2_nil_inv_r in Hf1 as ->. right. split; [done|]. split; [done|]. split; [done|].
      destruct Hat as (h&Hwf&Hcap&_). exists h, ((x ++ y) :: css2). rewrite Ht, Eel. destruct (cursor_cx cur).
      split; [done|]. split; [done|]. split; [done|]. cbn [concat]. by rewrite <- app_assoc.
  - intros x' y' E Hne. left. exists css1, ((x ++ y) :: css2), els1, (c :: els2), x'.
    split_and!; try done; [cbn [concat]; by rewrite E, <- app_assoc|]. by exists y'.
  - intros x' y' E Hne. left. exists css1, ((x ++ y) :: css2), els1, (c :: els2), x'.
    split_and!; try done; [cbn [concat]; by rewrite E, <- app_assoc|]. exists y'. split; [done|by left].
Qed.

Lemma fwd_cases cur a b :
  iter_at false cur a b →
  (b = [] ∧ Cursor.item cur = Some None) ∨
  ∃ a0 x y b' c, in_item cur a0 x y b' c ∧ a = a0 ++ x ∧ b = y ++ b' ∧ y ≠ [].
Proof.
  intros [(css1&css2&els1&els2&x&Hat&Hd&Hf1&Hf2&->&Eb&Hhead)|(?&_)]; [|done].
  destruct Hf2 as [|k c css2 els2 Hk Hf2].
  - left. symmetry in Eb. apply app_nil in Eb as [-> ->]. by rewrite (item_at _ _ _ Hat Hd).
  - right. destruct Hhead as (y&->&Hy). cbn [concat] in Eb. rewrite <- app_assoc in Eb. apply (inj (app x)) in Eb as <-.
    exists (concat css1), x, y, (concat css2), c. split; [by eapply in_item_at|done].
Qed.

Lemma rev_cases cur a b :
  iter_at true cur a b →
  a = [] ∨ ∃ a0 x y b' c, in_item cur a0 x y b' c ∧ a = a0 ++ x ∧ b = y ++ b' ∧ x ≠ [].
Proof.
  intros [(css1&css2&els1&els2&x&Hat&Hd&Hf1&Hf2&->&Eb&Hhead)|(_&->&_)]; [|by left].
  destruct Hf2 as [|k c css2 els2 Hk Hf2]; [left; by apply Hhead|].
  destruct Hhead as (y&->&[Hx|Hx]); [right|by left]. cbn [concat] in Eb. rewrite <- app_assoc in Eb. apply (inj (app x)) in Eb as <-.
  exists (concat css1), x, y, (concat css2), c. split; [by eapply in_item_at|done].
Qed.
End steps.

(** ** The iterator over chunks

    Its range is [d ++ t] between [lo] and [hi]: [d] is done, [t] is to come. *)

Section chunks.
Implicit Types (self : Chunks) (lo d t hi p x y : list Z).

Definition fwd self lo d t hi : Prop :=
  chunks_reversed self = false ∧ chunks_range self = (blen lo, blen (lo ++ d ++ t)) ∧
  chunks_offset self = blen (lo ++ d) ∧ iter_at false (chunks_cursor self) (lo ++ d) (t ++ hi).
Definition bwd self lo t d hi : Prop :=
  chunks_reversed self = true ∧ chunks_range self = (blen lo, blen (lo ++ t ++ d)) ∧
  chunks_offset self = blen (lo ++ t) ∧ iter_at true (chunks_cursor self) (lo ++ t) (d ++ hi).
Definition iterates self lo d t hi : Prop :=
  if chunks_reversed self then bwd self lo t d hi else fwd self lo d t hi.

(** The texts of an iterator are those of characters. *)
Lemma iter_at_ok rev cur a b : iter_at rev cur a b → Forall char_ok (a ++ b).
Proof. intros H. destruct (iter_at_text _ _ _ _ H) as (css&h&_&_&Hf&<-). by eapply chunk_for_ok. Qed.

Lemma min_blen_l a y t : blen (a ++ y) `min` blen (a ++ y ++ t) = blen (a ++ y).
Proof. rewrite !blen_app. lia. Qed.
Lemma min_blen_r a y t : blen (a ++ y ++ t) `min` blen (a ++ y) = blen (a ++ y).
Proof. rewrite !blen_app. lia. Qed.

(** The part [p] of the current chunk that is next: [x] before it in the chunk,
    [z] after it. *)
Inductive next_part self lo d t hi : Prop :=
  | next_part_fwd p t' x z c :
      chunks_reversed self = false → t = p ++ t' → p ≠ [] → slice_for (x ++ p ++ z) c →
      current_chunk self = Some (Some (c, (blen x, blen (x ++ p)))) →
      (∃ self', chunks_advance self (blen p) = Some self' ∧ fwd self' lo (d ++ p) t' hi) → next_part self lo d t hi
  | next_part_bwd p t' x z c :
      chunks_reversed self = true → t = t' ++ p → p ≠ [] → slice_for (x ++ p ++ z) c →
      current_chunk self = Some (Some (c, (blen x, blen (x ++ p)))) →
      (∃ self', chunks_advance self (blen p) = Some self' ∧ bwd self' lo t' (p ++ d) hi) → next_part self lo d t hi.

Lemma fwd_next_part self lo d t hi : fwd self lo d t hi → t ≠ [] → next_part self lo d t hi.
Proof.
  intros (Hrev&Hrange&Hoff&Hit) Ht. pose proof (iter_at_ok _ _ _ _ Hit) as Hok.
  destruct (fwd_cases _ _ _ Hit) as [[[? _]%app_nil _]|(a0&x&y&b'&c&Hin&Ea&Eb&Hy)]; [done|].
  assert (Hp : ∃ p t' z, t = p ++ t' ∧ y = p ++ z ∧ z ++ b' = t' ++ hi ∧ p ≠ [] ∧ (z = [] ∨ t' = [])).
  { apply app_eq_inv in Eb as [(m&->&Em)|(m&->&Em)].
    - exists y, m, []. rewrite app_nil_r. split_and!; try done. by left.
    - exists t, [], m. rewrite app_nil_r. split_and!; try done. by right. }
  destruct Hp as (p&t'&z&->&->&Eb'&Hne&Hend).
  assert (Hpos : 0 < blen p).
  { apply blen_pos; [|done]. apply Forall_app in Hok as [_ Hok]. rewrite <- app_assoc in Hok. by apply Forall_app in Hok as [? _]. }
  assert (Hmin : blen (a0 ++ x ++ p ++ z) `min` blen (lo ++ d ++ p ++ t') = blen (a0 ++ x ++ p)).
  { rewrite (app_assoc lo), Ea, <- !app_assoc, !blen_app. destruct Hend as [-> | ->]; cbn; lia. }
  assert (Hfwd : ∀ self', chunks_reversed self' = false → chunks_range self' = chunks_range self →
    chunks_offset self' = chunks_offset self + blen p → iter_at false (chunks_cursor self') (a0 ++ x ++ p) (z ++ b') →
    fwd self' lo (d ++ p) t' hi).
  { intros self' Hr' Hrange' Hoff' Hit'. split; [done|]. rewrite Hrange', Hoff', Hoff, Hrange. split; [by rewrite <- app_assoc|].
    split; [rewrite !blen_app; lia|]. by rewrite app_assoc, Ea, <- app_assoc, <- Eb'. }
  eapply (next_part_fwd _ _ _ _ _ p t' x z c); [done|done|done|apply Hin| |].
  - unfold current_chunk, offset_is_valid. rewrite Hrev, Hrange, Hoff. cbn [fst snd].
    rewrite !bool_decide_eq_false_2 by (rewrite !blen_app; lia). cbn [orb negb].
    rewrite (in_item_item _ _ _ _ _ _ Hin). go. rewrite (in_item_start _ _ _ _ _ _ Hin), (in_item_end _ _ _ _ _ _ Hin), Ea. go.
    rewrite Hmin, !blen_app, !usub_le by lia. go. do 4 f_equal; lia.
  - unfold chunks_advance. rewrite Hrev. cbn [with_offset chunks_cursor chunks_offset]. rewrite (in_item_end _ _ _ _ _ _ Hin). go.
    case_bool_decide as Hle.
    + destruct (in_item_next _ _ _ _ _ _ Hin Hy) as (cur'&En&_&Hit'). rewrite En. go. eexists. split; [done|].
      rewrite Hoff, Ea, !blen_app in Hle. assert (z = []) as ->.
      { destruct z as [|ch z]; [done|]. exfalso. pose proof (blen_pos (ch :: z)) as Hz.
        destruct (in_item_slice _ _ _ _ _ _ Hin) as [Hk _]. rewrite !Forall_app in Hk. specialize (Hz ltac:(tauto) ltac:(done)). lia. }
      apply Hfwd; try done. cbn [with_cursor chunks_cursor]. by rewrite app_nil_r in Hit'.
    + eexists. split; [done|]. apply Hfwd; try done. cbn [with_offset chunks_cursor].
      rewrite Hoff, Ea, !blen_app in Hle.
      apply (in_item_fwd _ _ _ _ _ _ Hin (x ++ p) z); [by rewrite <- app_assoc|]. intros ->. cbn in Hle. lia.
Qed.

Lemma bwd_next_part self lo t d hi : bwd self lo t d hi → t ≠ [] → next_part self lo d t hi.
Proof.
  intros (Hrev&Hrange&Hoff&Hit) Ht. pose proof (iter_at_ok _ _ _ _ Hit) as Hok.
  destruct (rev_cases _ _ _ Hit) as [[_ ?]%app_nil|(a0&x&y&b'&c&Hin&Ea&Eb&Hx)]; [done|].
  assert (Hp : ∃ p t' x', t = t' ++ p ∧ x = x' ++ p ∧ a0 ++ x' = lo ++ t' ∧ p ≠ [] ∧ (x' = [] ∨ t' = [])).
  { apply app_eq_inv in Ea as [(m&->&Em)|(m&->&Em)].
    - exists t, [], m. rewrite app_nil_r. split_and!; try done. by right.
    - exists x, m, []. rewrite app_nil_r. split_and!; try done. by left. }
  destruct Hp as (p&t'&x'&->&->&Ea'&Hne&Hend). clear Ea.
  assert (Hpos : 0 < blen p).
  { apply blen_pos; [|done]. rewrite !Forall_app in Hok. tauto. }
  assert (Elen : blen lo + blen t' = blen a0 + blen x') by (rewrite <- !blen_app; by rewrite Ea').
  assert (Hmax : blen a0 `max` blen lo = blen (a0 ++ x')).
  { rewrite blen_app. destruct Hend as [-> | ->]; cbn in *; lia. }
  assert (Hbwd : ∀ self', chunks_reversed self' = true → chunks_range self' = chunks_range self →
    chunks_offset self' = blen (lo ++ t') → iter_at true (chunks_cursor self') (a0 ++ x') (p ++ y ++ b') →
    bwd self' lo t' (p ++ d) hi).
  { intros self' Hr' Hrange' Hoff' Hit'. split; [done|]. rewrite Hrange', Hoff', Hrange. split; [by rewrite <- !app_assoc|].
    split; [done|]. by rewrite <- Ea', <- app_assoc, Eb. }
  eapply (next_part_bwd _ _ _ _ _ p t' x' y c); [done|done|done| | |].
  - destruct (in_item_slice _ _ _ _ _ _ Hin) as [Hk Hck]. by split; rewrite app_assoc.
  - unfold current_chunk, offset_is_valid. rewrite Hrev, Hrange, Hoff. cbn [fst snd].
    rewrite !bool_decide_eq_false_2 by (rewrite !blen_app; lia). cbn [orb negb].
    rewrite (in_item_item _ _ _ _ _ _ Hin). go. rewrite (in_item_start _ _ _ _ _ _ Hin), Hmax, !blen_app, !usub_le by lia.
    go. do 4 f_equal; lia.
  - unfold chunks_advance. rewrite Hrev, Hoff, !blen_app, usub_le by lia. go. cbn [with_offset chunks_cursor].
    rewrite (in_item_start _ _ _ _ _ _ Hin). replace (blen lo + (blen t' + blen p) - blen p) with (blen (lo ++ t')) by (rewrite blen_app; lia).
    case_bool_decide as Hle; rewrite blen_app in Hle.
    + destruct (in_item_prev _ _ _ _ _ _ Hin Hx) as (cur'&En&_&Hit'). rewrite En. go. eexists. split; [done|].
      assert (x' = []) as ->.
      { destruct x' as [|ch x']; [done|]. exfalso. pose proof (blen_pos (ch :: x')) as Hz.
        destruct (in_item_slice _ _ _ _ _ _ Hin) as [Hk _]. rewrite !Forall_app in Hk. specialize (Hz ltac:(tauto) ltac:(done)). lia. }
      apply Hbwd; try done. cbn [with_cursor with_offset chunks_cursor]. by rewrite app_nil_r.
    + eexists. split; [done|]. apply Hbwd; try done. cbn [with_offset chunks_cursor].
      rewrite (app_assoc p). apply (in_item_bwd _ _ _ _ _ _ Hin x' (p ++ y)); [by rewrite <- app_assoc|]. intros ->. cbn in *. lia.
Qed.

Lemma iterates_next_part self lo d t hi : iterates self lo d t hi → t ≠ [] → next_part self lo d t hi.
Proof. unfold iterates. destruct (chunks_reversed self); [apply bwd_next_part|apply fwd_next_part]. Qed.

(** At the end of its range an iterator has no chunk. *)
Lemma iterates_done self lo d hi : iterates self lo d [] hi → current_chunk self = Some None.
Proof.
  unfold iterates, current_chunk, offset_is_valid. destruct (chunks_reversed self).
  - intros (_&->&->&_). rewrite app_nil_r, bool_decide_eq_true_2 by done. done.
  - intros (_&->&->&_). rewrite app_nil_r, (bool_decide_eq_true_2 (_ ≤ _)) by done. by rewrite orb_true_r.
Qed.

Lemma part_slice x p z c :
  slice_for (x ++ p ++ z) c → str_slice (Chunk.text c) (blen x) (blen (x ++ p)) = Some (bytes_of p) ∧
    byte_slice (Chunk.text c) (blen x) (blen (x ++ p)) = Some (bytes_of p).
Proof.
  intros [Hok Hc]. rewrite (chunk_text _ _ Hc). unfold str_slice, byte_slice.
  assert (E : take (blen (x ++ p) - blen x) (drop (blen x) (bytes_of (x ++ p ++ z))) = bytes_of p).
  { rewrite !bytes_of_app, drop_app_length, length_app, Nat.add_comm, Nat.add_sub. apply take_app_length. }
  rewrite E, !bool_decide_eq_true_2; [|rewrite !blen_app; lia..].
  rewrite !(proj2 (boundary_split _ _ Hok)); [done| |].
  - exists (x ++ p), z. by rewrite <- app_assoc.
  - by exists x, (p ++ z).
Qed.

(** One call of [next]. *)
Lemma next_iterates self lo d t hi :
  iterates self lo d t hi →
  (t = [] ∧ peek self = Some None ∧ chunks_next self = Some (self, None)) ∨
  ∃ p t' self', p ≠ [] ∧ peek self = Some (Some (bytes_of p)) ∧
    chunks_next self = Some (self', Some (bytes_of p)) ∧ chunks_reversed self' = chunks_reversed self ∧
    (if chunks_reversed self then t = t' ++ p ∧ bwd self' lo t' (p ++ d) hi
     else t = p ++ t' ∧ fwd self' lo (d ++ p) t' hi).
Proof.
  intros Hit. destruct (decide (t = [])) as [->|Hne].
  { left. unfold chunks_next, peek. by rewrite (iterates_done _ _ _ _ Hit). }
  right. destruct (iterates_next_part _ _ _ _ _ Hit Hne) as [p t' x z c Hr -> Hp Hs E (self'&Ea&H')|p t' x z c Hr -> Hp Hs E (self'&Ea&H')];
    destruct (part_slice _ _ _ _ Hs) as [Epart _]; exists p, t', self'; unfold chunks_next, peek; rewrite E; go; rewrite Epart; go;
    rewrite Ea; go; rewrite Hr; split_and!; try done; apply H'.
Qed.
(** The chunk at the place of an iterator starts at or before it. *)
Lemma iter_at_item rev cur a b :
  iter_at rev cur a b →
  (Cursor.item cur = Some None ∧ start cur = blen a ∧ end_ cur = Some (blen a)) ∨
  ∃ a0 x y b' c, in_item cur a0 x y b' c ∧ a = a0 ++ x ∧ b = y ++ b'.
Proof.
  intros [(css1&css2&els1&els2&x&Hat&Hd&Hf1&Hf2&->&Eb&Hhead)|(_&->&Hst&_)].
  - destruct Hf2 as [|k c css2 els2 Hk Hf2].
    + left. symmetry in Eb. apply app_nil in Eb as [-> ->]. rewrite app_nil_r, (item_at _ _ _ Hat Hd).
      split; [done|]. split; [by eapply start_text|]. rewrite (end_text _ _ _ [] [] Hat Hd Hf1 ltac:(constructor)).
      cbn [head default]. by rewrite app_nil_r.
    + right. destruct Hhead as (y&->&_). cbn [concat] in Eb. rewrite <- app_assoc in Eb. apply (inj (app x)) in Eb as <-.
      exists (concat css1), x, y, (concat css2), c. split; [by eapply in_item_at|done].
  - left. rewrite (at_start_item _ Hst). destruct Hst as (Hd&Hstack&Hpos&_). split; [done|].
    unfold start, end_, cursor_item_summary, start. rewrite Hpos, Hd, Hstack. done.
Qed.

Lemma new_iterates rev lo m hi r :
  rope_text (lo ++ m ++ hi) r → height (Rope.chunks r) < STACK_CAPACITY →
  ∃ self, chunks_new r (blen lo, blen (lo ++ m)) rev = Some self ∧ chunks_reversed self = rev ∧
    (if rev then bwd self lo m [] hi else fwd self lo [] m hi).
Proof.
  intros (h&css&[Hwf Hf]&E) Hh. rewrite (wf_height _ _ _ Hwf) in Hh.
  pose proof (cursor_at_new (D:=nat) _ () h Hwf Hh) as Hat.
  destruct (seek_iter rev _ (if rev then lo ++ m else lo) (if rev then hi else m ++ hi) _ _ css Hat Hf) as (cur&f&Es&_&Hit).
  { rewrite E. destruct rev; [by rewrite app_assoc|done]. }
  unfold chunks_new.
  assert (Eo : (if rev then (blen lo, blen (lo ++ m)).2 else (blen lo, blen (lo ++ m)).1) = blen (if rev then lo ++ m else lo))
    by by destruct rev.
  rewrite Eo, Es. go.
  assert (Hself : ∃ n b, usub (blen (if rev then lo ++ m else lo)) (start cur) = Some n ∧
    (chunk ← Cursor.item cur; match chunk with Some chunk => Chunk.assert_char_boundary true chunk n | None => Some true end) = Some b).
  { destruct (iter_at_item _ _ _ _ Hit) as [(Ei&Est&_)|(a0&x&y&b'&c&Hin&Ea&_)].
    - rewrite Ei, Est, usub_le by done. by eexists _, _.
    - rewrite (in_item_item _ _ _ _ _ _ Hin), (in_item_start _ _ _ _ _ _ Hin), Ea, blen_app, usub_le by lia.
      eexists _, _. split; [done|]. go. destruct (in_item_slice _ _ _ _ _ _ Hin) as [Hok Hc].
      unfold Chunk.assert_char_boundary. rewrite Nat.add_comm, Nat.add_sub.
      pose proof (chunk_length _ _ Hc) as Hl. rewrite blen_app in Hl.
      rewrite (is_char_boundary_of _ _ _ Hc), (proj2 (boundary_split _ _ Hok)) by (lia || by exists x, y). done. }
  destruct Hself as (n&bd&->&Eb). go. destruct (Cursor.item cur) as [ck|] eqn:Ei; [|done]. cbn [mbind option_bind] in Eb |- *. rewrite Eb. go.
  eexists. split; [done|]. split; [done|]. destruct rev; (split; [done|]; cbn; rewrite ?app_nil_r; done).
Qed.
(** *** Seeking *)

Definition side (rev : bool) : Bias := if rev then Left else Right.

(** Seeking from the root, from anywhere. *)
Lemma seek_anywhere rev rev' cur a b a' b' :
  iter_at rev cur a b → a ++ b = a' ++ b' →
  ∃ cur' f, Cursor.seek cur (blen a') (side rev') = Some (cur', f) ∧ iter_at rev' cur' a' b'.
Proof.
  intros Hit E. destruct (iter_at_text _ _ _ _ Hit) as (css&h&Hwf&Hcap&Hf&Ecss).
  pose proof (cursor_at_new (D:=nat) _ () h Hwf Hcap) as Hat. rewrite E in Ecss.
  destruct (seek_iter rev' _ a' b' _ _ css Hat Hf Ecss) as (cur'&f&Es&_&Hit').
  exists cur', f. split; [|done]. unfold Cursor.seek, reset in *. cbn [cursor_tree cursor_cx cursor_new] in Es.
  by destruct (cursor_cx cur).
Qed.

(** Seeking on. *)
Lemma seek_on rev cur a b a' b' e :
  iter_at rev cur a b → a ++ b = a' ++ b' → (rev = true → a ≠ []) → end_ cur = Some e →
  (if rev then e < blen a' else e ≤ blen a') →
  ∃ cur' f, Cursor.seek_forward cur (blen a') (side rev) = Some (cur', f) ∧ iter_at rev cur' a' b'.
Proof.
  intros [(css1&css2&els1&els2&x&Hat&Hd&Hf1&Hf2&->&Eb&Hhead)|(->&->&_)] E Hne He Hle; [|by destruct Hne].
  rewrite (end_text _ _ _ _ _ Hat Hd Hf1 Hf2) in He. injection He as <-. rewrite blen_app in Hle.
  destruct (iter_cut rev cur css1 css2 els1 els2 a' b' Hat Hf1 Hf2) as (css3&css4&els3&els4&x'&->&Hf3&Hf4&Hseek&Hcut&Ea'&Eb'&Hhead').
  { by rewrite <- E, Eb, app_assoc. }
  { destruct rev; lia. }
  { intros ->. right. lia. }
  destruct (seek_forward_spec cur (blen a') (side rev) els1 _ els3 els4 Hat Hseek Hcut) as (cur'&Es&(_&_&Hd')&Hat').
  exists cur'. eexists. split; [exact Es|]. left. exists (css1 ++ css3), css4, (els1 ++ els3), els4, x'.
  split_and!; try done. by apply Forall2_app.
Qed.

(** Staying in the chunk. *)
Lemma stay_in_chunk rev cur a b a' b' e :
  iter_at rev cur a b → a ++ b = a' ++ b' → end_ cur = Some e →
  (if rev then start cur < blen a' ≤ e else start cur ≤ blen a' < e) → iter_at rev cur a' b'.
Proof.
  intros Hit E He Hle. pose proof (iter_at_ok _ _ _ _ Hit) as Hok.
  destruct (iter_at_item _ _ _ _ Hit) as [(_&Es&Ee)|(a0&x&y&b0&c&Hin&->&->)].
  { rewrite Es in Hle. rewrite Ee in He. injection He as <-. destruct rev; lia. }
  rewrite (in_item_start _ _ _ _ _ _ Hin) in Hle. rewrite (in_item_end _ _ _ _ _ _ Hin) in He. injection He as <-.
  assert (E' : a' ++ b' = a0 ++ (x ++ y) ++ b0) by (rewrite <- E, <- !app_assoc; done).
  rewrite E in Hok. destruct (prefix_of_blen _ _ _ _ E' Hok) as (x'&->&Ex); [destruct rev; lia|].
  rewrite <- app_assoc in Hok. apply Forall_app in Hok as [_ Hok].
  destruct (prefix_of_blen (x ++ y) b0 x' b') as (y'&Exy&->).
  { by rewrite Ex. }
  { by rewrite Ex. }
  { rewrite !blen_app in *. destruct rev; lia. }
  destruct rev.
  - apply (in_item_bwd _ _ _ _ _ _ Hin); [done|]. intros ->. rewrite app_nil_r in Hle. lia.
  - apply (in_item_fwd _ _ _ _ _ _ Hin); [done|]. intros ->. rewrite Exy, app_nil_r in Hle. lia.
Qed.

Lemma seek_iterates self lo d t hi d' t' :
  let rev := chunks_reversed self in
  iterates self lo d t hi → (if rev then t ++ d = t' ++ d' else d ++ t = d' ++ t') →
  (rev = true → lo ++ t ≠ []) →
  ∃ self', chunks_seek self (blen (lo ++ if rev then t' else d')) = Some self' ∧
    chunks_reversed self' = rev ∧ iterates self' lo d' t' hi.
Proof.
  intros rev Hit Hbody Hne.
  set (a := lo ++ if rev then t else d). set (a' := lo ++ if rev then t' else d').
  set (b := (if rev then d else t) ++ hi). set (b' := (if rev then d' else t') ++ hi).
  assert (H : iter_at rev (chunks_cursor self) a b ∧ a ++ b = a' ++ b' ∧ (rev = true → a ≠ []) ∧
    chunks_range self = (blen lo, blen (lo ++ if rev then t' ++ d' else d' ++ t')) ∧
    ∀ self', chunks_reversed self' = rev → chunks_range self' = chunks_range self → chunks_offset self' = blen a' →
      iter_at rev (chunks_cursor self') a' b' → iterates self' lo d' t' hi).
  { unfold iterates in Hit. fold rev in Hit. unfold a, a', b, b'. destruct rev eqn:Erev.
    - destruct Hit as (Hrev&Hrange&Hoff&Hit). rewrite Hbody in Hrange. split; [done|].
      split; [rewrite <- !app_assoc; f_equal; by rewrite !app_assoc, Hbody|]. split; [by apply Hne|]. split; [done|].
      intros self' Hr' Hrange' Hoff' Hit'. unfold iterates. rewrite Hr'. split; [done|]. by rewrite Hrange', Hrange.
    - destruct Hit as (Hrev&Hrange&Hoff&Hit). rewrite Hbody in Hrange. split; [done|].
      split; [rewrite <- !app_assoc; f_equal; by rewrite !app_assoc, Hbody|]. split; [done|]. split; [done|].
      intros self' Hr' Hrange' Hoff' Hit'. unfold iterates. rewrite Hr'. split; [done|]. by rewrite Hrange', Hrange. }
  destruct H as (Hcur&E&Ha&Hrange&Hself).
  assert (Hclamp : clamp (blen a') (chunks_range self) = Some (blen a')).
  { rewrite Hrange. unfold clamp, a'. cbn [fst snd]. destruct rev; rewrite !blen_app.
    all: rewrite (bool_decide_eq_true_2 (blen lo ≤ _)), !bool_decide_eq_false_2 by lia; done. }
  assert (Hend : ∃ e, end_ (chunks_cursor self) = Some e).
  { destruct (iter_at_item _ _ _ _ Hcur) as [(_&_&Ee)|(a0&x&y&b0&c&Hin&_)]; [by eexists|].
    eexists. apply (in_item_end _ _ _ _ _ _ Hin). }
  destruct Hend as [e He]. unfold chunks_seek. rewrite Hclamp. go. rewrite He. go. fold rev.
  destruct (seek_anywhere rev rev _ a b a' b' Hcur E) as (c1&f1&E1&H1). fold (side rev). rewrite E1.
  assert (Hmoved : ∃ cur', (if (if rev then bool_decide (e < blen a') else bool_decide (e ≤ blen a'))
      then '(chunks, _) ← Cursor.seek_forward (chunks_cursor self) (blen a') (side rev); Some chunks
      else if (if rev then bool_decide (blen a' ≤ start (chunks_cursor self)) else bool_decide (blen a' < start (chunks_cursor self)))
           then Some c1 else Some (chunks_cursor self)) = Some cur' ∧ iter_at rev cur' a' b').
  { assert ((if rev then e < blen a' else e ≤ blen a') ∨ (if rev then blen a' ≤ e else blen a' < e)) as [Hfar|Hnear] by (destruct rev; lia).
    - destruct (seek_on rev _ a b a' b' e Hcur E Ha He Hfar) as (cur'&f&E2&H2). exists cur'. split; [|done]. rewrite E2.
      destruct rev; by rewrite bool_decide_eq_true_2.
    - assert ((if rev then start (chunks_cursor self) < blen a' ≤ e else start (chunks_cursor self) ≤ blen a' < e) ∨
        (if rev then blen a' ≤ start (chunks_cursor self) else blen a' < start (chunks_cursor self))) as [Hin|Hout] by (destruct rev; lia).
      + exists (chunks_cursor self). split; [destruct rev; by rewrite !bool_decide_eq_false_2 by lia|].
        by eapply stay_in_chunk.
      + exists c1. split; [|done]. destruct rev; by rewrite bool_decide_eq_false_2, bool_decide_eq_true_2 by lia. }
  destruct Hmoved as (cur'&Em&Hit').
  cbn [mbind option_bind] in Em |- *. exists (mkChunks cur' (chunks_range self) (blen a') rev).
  split; [|split; [done|by apply Hself]].
  exact (f_equal (λ m, m ≫= λ c, Some (mkChunks c (chunks_range self) (blen a') rev)) Em).
Qed.
End chunks.
