(* ===== verification/RopeLines.v ===== *)
(** The iterators over chunks and lines of a rope, run to their end. *)

From stdpp Require Import base numbers option list.
From S2P Require Import Prelude SumTree SumTreeFacts Cursor Utf8 Point Bits Chunk ChunkBits ChunkSummary ChunkClip Rope TextSummary RopeTree RopeEdit RopeCursor RopeIter RopeIterFacts.

#[local] Open Scope nat_scope.
#[local] Ltac go := cbn [assert_ mbind option_bind].

(** ** Collecting chunks *)

Lemma chunks_collect_S fuel self :
  chunks_collect (S fuel) self =
  '(self, chunk) ← chunks_next self;
  match chunk with
  | None => Some []
  | Some chunk => rest ← chunks_collect fuel self; Some (chunk :: rest)
  end.
Proof. done. Qed.

Lemma collect_iterates fuel self lo d t hi :
  iterates self lo d t hi → length t ≤ fuel →
  ∃ ps, chunks_collect (S fuel) self = Some ps ∧ Forall (λ p, p ≠ []) ps ∧
    concat (if chunks_reversed self then reverse ps else ps) = bytes_of t.
Proof.
  revert self d t. induction fuel as [|fuel IH]; intros self d t Hit Hfuel; rewrite chunks_collect_S;
    destruct (next_iterates _ _ _ _ _ Hit) as [(->&_&->)|(p&t'&self'&Hp&_&->&Hr&Hit')]; go.
  1, 3: exists []; split_and!; [done|constructor|by destruct (chunks_reversed self)].
  - exfalso. destruct (chunks_reversed self); destruct Hit' as [-> _]; rewrite length_app in Hfuel; destruct p; done || (simpl in *; lia).
  - assert (Hnext : ∃ d', iterates self' lo d' t' hi ∧ length t' ≤ fuel ∧
      bytes_of t = if chunks_reversed self then bytes_of t' ++ bytes_of p else bytes_of p ++ bytes_of t').
    { unfold iterates. rewrite Hr.
      destruct (chunks_reversed self); destruct Hit' as [-> Hit']; rewrite length_app in Hfuel;
        (eexists; split; [exact Hit'|]; split; [destruct p; [done|simpl in *; lia]|by rewrite bytes_of_app]). }
    destruct Hnext as (d'&Hit2&Hf&Et). destruct (IH self' d' t' Hit2 Hf) as (ps&->&Hne&Eps). go.
    exists (bytes_of p :: ps). split; [done|].
    assert (Hbp : bytes_of p ≠ []).
    { intros H. apply Hp. apply bytes_of_nil_inv; [|done]. pose proof (iter_at_ok) as Hok.
      unfold iterates in Hit. destruct (chunks_reversed self); destruct Hit' as [-> _];
        destruct Hit as (_&_&_&Hit); apply Hok in Hit; rewrite !Forall_app in Hit; tauto. }
    split; [by constructor|]. rewrite Hr in Eps. rewrite Et, <- Eps.
    destruct (chunks_reversed self); [rewrite reverse_cons, concat_app; cbn [concat]; by rewrite app_nil_r|done].
Qed.

(** ** Lines of a text *)

(** The first line of a text, and the text after its newline. *)
Fixpoint break_line (cs : list Z) : list Z * option (list Z) :=
  match cs with
  | [] => ([], None)
  | c :: cs => if (c =? NEWLINE)%Z then ([], Some cs) else let '(l, r) := break_line cs in (c :: l, r)
  end.

Lemma break_line_app p q :
  break_line (p ++ q) =
  match break_line p with
  | (l, Some r) => (l, Some (r ++ q))
  | (l, None) => let '(l', r) := break_line q in (l ++ l', r)
  end.
Proof.
  induction p as [|c p IH]; cbn [app break_line]; [by destruct (break_line q)|].
  destruct (c =? NEWLINE)%Z; [done|]. rewrite IH. destruct (break_line p) as [l [r|]]; [done|].
  by destruct (break_line q).
Qed.

Lemma break_line_eq t : t = (break_line t).1 ++ match (break_line t).2 with Some r => NEWLINE :: r | None => [] end.
Proof.
  induction t as [|c t IH]; [done|]. cbn [break_line]. destruct (Z.eqb_spec c NEWLINE) as [->|]; [done|].
  destruct (break_line t) as [l r]. cbn in *. by f_equal.
Qed.

Lemma split_newline s : split_lines (NEWLINE :: s) = [] :: split_lines s.
Proof. done. Qed.

(** Bytes without a newline extend the first line. *)
Lemma split_lines_prefix s r :
  Forall (λ b, (b =? NEWLINE)%Z = false) s →
  split_lines (s ++ r) = match split_lines r with l :: ls => (s ++ l) :: ls | [] => [s] end.
Proof.
  induction 1 as [|b s Hb _ IH]; cbn [app].
  - pose proof (split_lines_ne r). by destruct (split_lines r).
  - cbn [split_lines]. rewrite Hb, IH. by destruct (split_lines r).
Qed.

Lemma encode_no_newline c : char_ok c → (c =? NEWLINE)%Z = false → Forall (λ b, (b =? NEWLINE)%Z = false) (encode_utf8 c).
Proof.
  intros Hc Hn. destruct (char_bits_encode c Hc) as (_&Hb&_). rewrite Hn in Hb. unfold newline_bits in Hb.
  apply Forall_lookup. intros i b Hi. apply (f_equal (λ l, l !! i)) in Hb. rewrite list_lookup_fmap, Hi in Hb. cbn in Hb.
  change (false :: replicate (len_utf8 c - 1) false) with (replicate (S (len_utf8 c - 1)) false) in Hb.
  symmetry in Hb. by apply lookup_replicate in Hb as [? _].
Qed.

Lemma split_break t :
  Forall char_ok t →
  split_lines (bytes_of t) =
  match break_line t with
  | (l, Some r) => bytes_of l :: split_lines (bytes_of r)
  | (l, None) => [bytes_of l]
  end.
Proof.
  induction 1 as [|c t Hc _ IH]; [done|]. rewrite bytes_of_cons. cbn [break_line].
  destruct (Z.eqb_spec c NEWLINE) as [->|Hne]; [done|].
  rewrite split_lines_prefix by (apply encode_no_newline; [done|by apply Z.eqb_neq]). rewrite IH.
  by destruct (break_line t) as [l [r|]].
Qed.

(** The last line, and the text before its newline. *)
Definition rbreak_line (cs : list Z) : list Z * option (list Z) :=
  let '(l, r) := break_line (reverse cs) in (reverse l, reverse <$> r).

Lemma rbreak_line_app q p :
  rbreak_line (q ++ p) =
  match rbreak_line p with
  | (l, Some r) => (l, Some (q ++ r))
  | (l, None) => let '(l', r) := rbreak_line q in (l' ++ l, r)
  end.
Proof.
  unfold rbreak_line. rewrite reverse_app, break_line_app.
  destruct (break_line (reverse p)) as [l [r|]]; cbn; [by rewrite reverse_app, reverse_involutive|].
  destruct (break_line (reverse q)) as [l' r]. by rewrite reverse_app.
Qed.

Lemma rbreak_line_eq t : t = match (rbreak_line t).2 with Some r => r ++ [NEWLINE] | None => [] end ++ (rbreak_line t).1.
Proof.
  rewrite <- (reverse_involutive t) at 1. rewrite (break_line_eq (reverse t)) at 1. unfold rbreak_line.
  destruct (break_line (reverse t)) as [l [r|]]; cbn [fst snd fmap option_fmap option_map].
  - by rewrite reverse_app, reverse_cons.
  - by rewrite app_nil_r.
Qed.

Lemma split_lines_app_newline a b : split_lines (a ++ NEWLINE :: b) = split_lines a ++ split_lines b.
Proof.
  induction a as [|c a IH]; [done|]. cbn [app split_lines]. destruct (c =? NEWLINE)%Z; [by rewrite IH|].
  rewrite IH. pose proof (split_lines_ne a). by destruct (split_lines a).
Qed.

Lemma break_line_none t : (break_line t).2 = None ↔ Forall (λ c, (c =? NEWLINE)%Z = false) t.
Proof.
  induction t as [|c t IH]; cbn [break_line]; [split; [constructor|done]|].
  rewrite Forall_cons. destruct (c =? NEWLINE)%Z; cbn; [split; [done|intros [? _]; done]|].
  destruct (break_line t) as [l r]. cbn in *. rewrite IH. tauto.
Qed.

Lemma break_line_1 t : (break_line (break_line t).1).2 = None.
Proof.
  induction t as [|c t IH]; [done|]. cbn [break_line]. destruct (c =? NEWLINE)%Z eqn:E; [done|].
  destruct (break_line t) as [l r]. cbn [fst break_line] in *. rewrite E. by destruct (break_line l).
Qed.

Lemma split_rbreak t :
  Forall char_ok t →
  reverse (split_lines (bytes_of t)) =
  match rbreak_line t with
  | (l, Some r) => bytes_of l :: reverse (split_lines (bytes_of r))
  | (l, None) => [bytes_of l]
  end.
Proof.
  intros Ht. pose proof (rbreak_line_eq t) as E.
  assert (Hl : (break_line (rbreak_line t).1).2 = None).
  { unfold rbreak_line. pose proof (break_line_1 (reverse t)) as H. destruct (break_line (reverse t)) as [l r]. cbn [fst] in *.
    apply break_line_none. apply break_line_none in H. by apply Forall_reverse. }
  destruct (rbreak_line t) as [l r]. cbn [fst snd] in *.
  assert (Hlast : Forall char_ok l → split_lines (bytes_of l) = [bytes_of l]).
  { intros Hok. rewrite (split_break l Hok). pose proof (break_line_eq l) as El.
    destruct (break_line l) as [l1 r1]. cbn in Hl, El. subst r1. by rewrite El, app_nil_r at 1. }
  destruct r as [r|].
  - rewrite E in Ht. rewrite !Forall_app in Ht. destruct Ht as [_ Hl'].
    rewrite E, !bytes_of_app, <- app_assoc. change (bytes_of [NEWLINE] ++ bytes_of l) with (NEWLINE :: bytes_of l).
    rewrite split_lines_app_newline, reverse_app, (Hlast Hl'). done.
  - cbn [app] in E. subst l. by rewrite (Hlast Ht).
Qed.

(** ** The iterator over lines *)

(** The line nearest to an iterator that goes forwards or backwards. *)
Definition near_line (rev : bool) (cs : list Z) : list Z * option (list Z) :=
  if rev then rbreak_line cs else break_line cs.
Definition joined (rev : bool) (line part : list Z) : list Z := if rev then part ++ line else line ++ part.

Lemma near_line_app (rev : bool) (p t t' : list Z) :
  t = (if rev then t' ++ p else p ++ t') →
  near_line rev t =
  match near_line rev p with
  | (l, Some r) => (l, Some (if rev then t' ++ r else r ++ t'))
  | (l, None) => let '(l', r) := near_line rev t' in (joined rev l l', r)
  end.
Proof. intros ->. destruct rev; [apply rbreak_line_app|apply break_line_app]. Qed.

Lemma near_line_eq (rev : bool) (t l r : list Z) :
  near_line rev t = (l, Some r) → t = if rev then r ++ [NEWLINE] ++ l else l ++ [NEWLINE] ++ r.
Proof.
  intros E. destruct rev; cbn in E.
  - rewrite (rbreak_line_eq t), E. cbn. by rewrite <- app_assoc.
  - by rewrite (break_line_eq t), E.
Qed.

(** The lines of a text in the order of an iterator. *)
Definition ordered (rev : bool) (lines : list (list Z)) : list (list Z) := if rev then reverse lines else lines.

Lemma split_near rev t :
  Forall char_ok t →
  ordered rev (split_lines (bytes_of t)) =
  match near_line rev t with
  | (l, Some r) => bytes_of l :: ordered rev (split_lines (bytes_of r))
  | (l, None) => [bytes_of l]
  end.
Proof. destruct rev; [apply split_rbreak|apply split_break]. Qed.

Lemma ordered_ne rev s : ∃ l ls, ordered rev (split_lines s) = l :: ls.
Proof.
  pose proof (split_lines_ne s) as Hne. destruct (ordered rev (split_lines s)) as [|l ls] eqn:E; [|by exists l, ls].
  exfalso. apply Hne. destruct rev; cbn in E; [|done]. apply (f_equal reverse) in E. by rewrite reverse_involutive in E.
Qed.

(** Where the line iterator is after its step. *)
Definition lines_after (L L' : Lines) (lo hi : list Z) (r : option (list Z)) : Prop :=
  lines_reversed L' = lines_reversed L ∧
  match r with
  | None => done L' = true
  | Some t => done L' = done L ∧ chunks_reversed (lines_chunks L') = lines_reversed L ∧
      ∃ d, iterates (lines_chunks L') lo d t hi
  end.

Lemma iterates_ok self lo d t hi : iterates self lo d t hi → Forall char_ok t.
Proof.
  unfold iterates. destruct (chunks_reversed self); intros (_&_&_&Hit); apply iter_at_ok in Hit;
    rewrite !Forall_app in Hit; tauto.
Qed.

Lemma lines_loop_unfold fuel self :
  lines_loop fuel self =
  chunk ← peek (lines_chunks self);
  match chunk with
  | None => Some (mkLines (lines_chunks self) (current_line self) true (lines_reversed self), current_line self)
  | Some chunk =>
      match ordered (lines_reversed self) (split_lines chunk) with
      | chunk_line :: _ :: _ =>
          offset ←
            (if lines_reversed self
             then o ← usub (chunks_offset (lines_chunks self)) (length chunk_line); usub o 1
             else Some (chunks_offset (lines_chunks self) + length chunk_line + 1));
          chunks ← chunks_seek (lines_chunks self) offset;
          if bool_decide (length (current_line self) = 0)
          then Some (mkLines chunks (current_line self) (done self) (lines_reversed self), chunk_line)
          else
            let line := joined (lines_reversed self) (current_line self) chunk_line in
            Some (mkLines chunks line (done self) (lines_reversed self), line)
      | lines =>
          let line := joined (lines_reversed self) (current_line self) (default [] (head lines)) in
          '(chunks, _) ← chunks_next (lines_chunks self);
          match fuel with
          | O => None
          | S fuel => lines_loop fuel (mkLines chunks line (done self) (lines_reversed self))
          end
      end
  end.
Proof.
  destruct fuel; cbn [lines_loop]; (destruct (peek (lines_chunks self)) as [[ck|]|]; cbn [mbind option_bind]; [|reflexivity..]);
    fold (ordered (lines_reversed self) (split_lines ck));
    destruct (ordered (lines_reversed self) (split_lines ck)) as [|x [|y l]]; reflexivity.
Qed.

Lemma joined_nil rev line part : length line = 0 → joined rev line part = part.
Proof. destruct line; [|done]. intros _. destruct rev; cbn; [by rewrite app_nil_r|done]. Qed.

Lemma joined_nil_r rev line : joined rev line [] = line.
Proof. destruct rev; [done|apply app_nil_r]. Qed.

Lemma joined_assoc rev a b c : joined rev (joined rev a b) c = joined rev a (joined rev b c).
Proof. destruct rev; cbn; by rewrite app_assoc. Qed.

Lemma joined_bytes rev a b : bytes_of (joined rev a b) = joined rev (bytes_of a) (bytes_of b).
Proof. destruct rev; apply bytes_of_app. Qed.

Lemma near_line_nil rev : near_line rev [] = ([], None).
Proof. by destruct rev. Qed.

Lemma near_line_whole (rev : bool) (t l : list Z) : near_line rev t = (l, None) → l = t.
Proof.
  intros E. destruct rev; cbn in E.
  - pose proof (rbreak_line_eq t) as H. by rewrite E in H.
  - pose proof (break_line_eq t) as H. rewrite E in H. cbn in H. by rewrite app_nil_r in H.
Qed.

(** A part that has a newline: the line ends in it, and the iterator is put
    past the newline. *)
Lemma lines_seek_part L lo d t hi p t' l r :
  let rev := lines_reversed L in
  iterates (lines_chunks L) lo d t hi → chunks_reversed (lines_chunks L) = rev →
  t = (if rev then t' ++ p else p ++ t') → near_line rev p = (l, Some r) →
  ∃ offset self', (if rev
    then o ← usub (chunks_offset (lines_chunks L)) (blen l); usub o 1
    else Some (chunks_offset (lines_chunks L) + blen l + 1)) = Some offset ∧
    chunks_seek (lines_chunks L) offset = Some self' ∧ chunks_reversed self' = rev ∧
    ∃ d', iterates self' lo d' (if rev then t' ++ r else r ++ t') hi.
Proof.
  intros rev Hit Hrev Et El. pose proof (near_line_eq _ _ _ _ El) as Ep.
  set (d' := if rev then [NEWLINE] ++ l ++ d else d ++ l ++ [NEWLINE]).
  set (t2 := if rev then t' ++ r else r ++ t').
  destruct (seek_iterates _ lo d t hi d' t2 Hit) as (self'&Es&Hr'&Hit').
  { rewrite Hrev, Et, Ep. unfold d', t2. destruct rev; by rewrite <- !app_assoc. }
  { rewrite Hrev. intros Hr. rewrite Et, Ep, Hr. intros [_ [_ [_ ?]%app_nil]%app_nil]%app_nil. done. }
  rewrite Hrev in Es, Hr'. eexists. exists self'. split; [|split; [exact Es|]; split; [done|by exists d']].
  assert (Eo : chunks_offset (lines_chunks L) = blen (lo ++ if rev then t else d)).
  { unfold iterates in Hit. rewrite Hrev in Hit. destruct rev; by destruct Hit as (_&_&?&_). }
  rewrite Eo, Et, Ep. unfold t2, d'. change (blen [NEWLINE]) with 1. destruct rev.
  - rewrite !blen_app, usub_le by lia. go. change (blen [NEWLINE]) with 1. rewrite usub_le by lia. f_equal. lia.
  - rewrite !blen_app. change (blen [NEWLINE]) with 1. f_equal. lia.
Qed.

Lemma lines_loop_step fuel L lo d t hi :
  iterates (lines_chunks L) lo d t hi → chunks_reversed (lines_chunks L) = lines_reversed L → length t ≤ fuel →
  let '(l, r) := near_line (lines_reversed L) t in
  ∃ L', lines_loop fuel L = Some (L', joined (lines_reversed L) (current_line L) (bytes_of l)) ∧ lines_after L L' lo hi r.
Proof.
  revert L d t. induction fuel as [|fuel IH]; intros L d t Hit Hrev Hfuel; rewrite lines_loop_unfold;
    set (rev := lines_reversed L) in *; pose proof (iterates_ok _ _ _ _ _ Hit) as Hok;
    destruct (next_iterates _ _ _ _ _ Hit) as [(->&Ep&En)|(p&t'&self'&Hp&Ep&En&Hr&Hit')]; rewrite Ep; go.
  1, 3: rewrite near_line_nil, joined_nil_r; by eexists.
  all: assert (Et : t = if rev then t' ++ p else p ++ t') by (rewrite Hrev in Hit'; by destruct rev, Hit').
  all: assert (Hlen : length t' < length t)
    by (rewrite Et; destruct rev; rewrite length_app; destruct p; done || (cbn; lia)).
  1: lia.
  assert (Hpok : Forall char_ok p) by (rewrite Et in Hok; destruct rev; rewrite Forall_app in Hok; tauto).
  rewrite (near_line_app rev p t t' Et). rewrite (split_near rev p Hpok).
  destruct (near_line rev p) as [l [r|]] eqn:El.
  - destruct (ordered_ne rev (bytes_of r)) as (x&xs&->).
    destruct (lines_seek_part L lo d t hi p t' l r Hit Hrev Et El) as (offset&s'&Eo&Es&Hr'&d'&Hit2). fold rev in Eo.
    rewrite Eo. go. rewrite Es. go.
    case_bool_decide as H0; [rewrite (joined_nil rev (current_line L)) by done|];
      (eexists; split; [done|]; split; [done|]; split; [done|]; split; [done|]; by exists d').
  - apply near_line_whole in El as ->. rewrite En. go. cbn [head default id].
    assert (Hit2 : ∃ d', iterates self' lo d' t' hi).
    { unfold iterates. rewrite Hr, Hrev in *. destruct rev; destruct Hit' as [_ Hit']; by eexists. }
    destruct Hit2 as [d' Hit2].
    specialize (IH (mkLines self' (joined rev (current_line L) (bytes_of p)) (done L) rev) d' t' Hit2).
    cbn [lines_chunks lines_reversed current_line] in IH. specialize (IH ltac:(by rewrite Hr, Hrev) ltac:(lia)).
    destruct (near_line rev t') as [l' r']. destruct IH as (L'&EL&Hr'&Hafter). exists L'.
    rewrite EL, joined_bytes, joined_assoc. split; [done|]. by split.
Qed.

Lemma lines_collect_S fuel self :
  lines_collect (S fuel) self =
  '(self, line) ← lines_next self;
  match line with
  | None => Some []
  | Some line => rest ← lines_collect fuel self; Some (line :: rest)
  end.
Proof. done. Qed.

Lemma joined_nil_l rev part : joined rev [] part = part.
Proof. destruct rev; cbn; [apply app_nil_r|done]. Qed.

Lemma lines_next_step L lo d t hi :
  iterates (lines_chunks L) lo d t hi → chunks_reversed (lines_chunks L) = lines_reversed L → done L = false →
  let '(l, r) := near_line (lines_reversed L) t in
  ∃ L', lines_next L = Some (L', Some (bytes_of l)) ∧ lines_after L L' lo hi r.
Proof.
  intros Hit Hrev Hd. unfold lines_next. rewrite Hd.
  assert (Hfuel : length t ≤ lines_fuel (mkLines (lines_chunks L) [] false (lines_reversed L))).
  { pose proof (length_chars_le t (iterates_ok _ _ _ _ _ Hit)). unfold lines_fuel, iterates in *. cbn [lines_chunks].
    destruct (chunks_reversed (lines_chunks L)); destruct Hit as (_&->&_&_); cbn [snd]; rewrite !blen_app; lia. }
  pose proof (lines_loop_step _ (mkLines (lines_chunks L) [] false (lines_reversed L)) lo d t hi Hit Hrev Hfuel) as H.
  cbn [lines_reversed current_line] in H. destruct (near_line (lines_reversed L) t) as [l r].
  destruct H as (L'&E&Hafter). rewrite joined_nil_l in E. exists L'.
  change (lines_fuel L) with (lines_fuel (mkLines (lines_chunks L) [] false (lines_reversed L))). rewrite E. go.
  split; [done|]. unfold lines_after in *. cbn [lines_reversed done] in Hafter. by rewrite Hd.
Qed.

Lemma lines_collect_iterates fuel L lo d t hi :
  iterates (lines_chunks L) lo d t hi → chunks_reversed (lines_chunks L) = lines_reversed L → done L = false →
  length t < fuel → lines_collect (S fuel) L = Some (ordered (lines_reversed L) (split_lines (bytes_of t))).
Proof.
  revert L d t. induction fuel as [|fuel IH]; intros L d t Hit Hrev Hd Hfuel; [lia|]. rewrite lines_collect_S.
  pose proof (lines_next_step L lo d t hi Hit Hrev Hd) as H. pose proof (iterates_ok _ _ _ _ _ Hit) as Hok.
  rewrite split_near by done.
  destruct (near_line (lines_reversed L) t) as [l r] eqn:El. destruct H as (L'&->&Hr&Hafter). go.
  destruct r as [r|].
  - destruct Hafter as (Hd'&Hrev'&d'&Hit'). pose proof (near_line_eq _ _ _ _ El) as Et.
    rewrite (IH L' d' r Hit'), Hr; [done| | |].
    + by rewrite Hrev'.
    + by rewrite Hd'.
    + rewrite Et in Hfuel. destruct (lines_reversed L); rewrite !length_app in Hfuel; cbn in Hfuel; lia.
  - rewrite lines_collect_S. unfold lines_next. rewrite Hafter. done.
Qed.
