(* ===== verification/RopeIterProps.v ===== *)
(** Comparing the text of a rope with a string: the loops over its chunks. *)

From stdpp Require Import base numbers option list.
From S2P Require Import Prelude SumTree SumTreeFacts Cursor Utf8 Point Bits TextSummary Chunk ChunkBits ChunkSummary ChunkClip Rope RopeTree RopeEdit RopeCursor RopeBounds RopeProps RopeIter RopeIterFacts RopeLines.

#[local] Open Scope nat_scope.
#[local] Ltac go := cbn [assert_ mbind option_bind].

(** ** Strings *)

Lemma str_starts_with_spec s pattern : str_starts_with s pattern = true ↔ ∃ r, s = pattern ++ r.
Proof.
  unfold str_starts_with. rewrite bool_decide_eq_true. split.
  - intros E. exists (drop (length pattern) s). by rewrite <- E at 1; rewrite take_drop.
  - intros (r&->). apply take_app_length.
Qed.

Lemma str_ends_with_spec s pattern : str_ends_with s pattern = true ↔ ∃ r, s = r ++ pattern.
Proof.
  unfold str_ends_with. rewrite andb_true_iff, !bool_decide_eq_true. split.
  - intros [_ E]. exists (take (length s - length pattern) s). by rewrite <- E at 2; rewrite take_drop.
  - intros (r&->). rewrite length_app. split; [lia|]. rewrite Nat.add_sub. apply drop_app_length.
Qed.

Lemma bytes_pos (p : list Z) : Forall char_ok p → p ≠ [] → 0 < blen p.
Proof. apply blen_pos. Qed.

Lemma iter_part_ok self lo d t hi p t' (rev : bool) :
  iterates self lo d t hi → t = (if rev then t' ++ p else p ++ t') → Forall char_ok p ∧ Forall char_ok t'.
Proof.
  intros Hit ->. unfold iterates in Hit.
  destruct (chunks_reversed self); destruct Hit as (_&_&_&Hit); apply iter_at_ok in Hit; destruct rev;
    rewrite !Forall_app in Hit; tauto.
Qed.

(** ** Equality *)

Lemma equals_loop_eq fuel self other offset :
  equals_loop fuel self other offset =
  '(self, chunk) ← chunks_next self;
  match chunk with
  | None => Some (bool_decide (offset = if chunks_reversed self then 0 else length other))
  | Some chunk =>
      if chunks_reversed self then
        if str_ends_with (take offset other) chunk
        then match fuel with O => None | S fuel => offset ← usub offset (length chunk); equals_loop fuel self other offset end
        else Some false
      else if bool_decide (length other ≤ offset) then Some false
      else if str_starts_with (drop offset other) chunk
      then match fuel with O => None | S fuel => equals_loop fuel self other (offset + length chunk) end
      else Some false
  end.
Proof. by destruct fuel. Qed.

Lemma equals_loop_fwd fuel self lo d t hi other offset :
  fwd self lo d t hi → offset ≤ length other → length other - offset ≤ fuel →
  equals_loop fuel self other offset = Some (bool_decide (drop offset other = bytes_of t)).
Proof.
  revert self d t offset. induction fuel as [|fuel IH]; intros self d t offset Hit Hle Hfuel; rewrite equals_loop_eq;
    pose proof Hit as Hit0; destruct Hit0 as (Hrev&_); assert (Hits : iterates self lo d t hi) by (unfold iterates; by rewrite Hrev);
    destruct (next_iterates _ _ _ _ _ Hits) as [(->&_&->)|(p&t'&self'&Hp&_&->&Hr&Hnext)]; go; rewrite ?Hr, Hrev in *.
  1, 3: f_equal; apply bool_decide_ext; cbn [bytes_of flat_map]; split;
    [intros ->; apply drop_ge; lia|intros E; apply (f_equal length) in E; rewrite length_drop in E; cbn in E; lia].
  all: destruct Hnext as [-> Hnext]; destruct (iter_part_ok _ _ _ _ _ p t' false Hits eq_refl) as [Hpok _];
    pose proof (blen_pos p Hpok Hp); rewrite bytes_of_app.
  - rewrite bool_decide_eq_true_2 by lia. f_equal. symmetry. apply bool_decide_eq_false. intros E.
    apply (f_equal length) in E. rewrite length_drop, length_app in E. lia.
  - case_bool_decide as Hge.
    { f_equal. symmetry. apply bool_decide_eq_false. intros E. apply (f_equal length) in E. rewrite length_drop, length_app in E. lia. }
    destruct (str_starts_with (drop offset other) (bytes_of p)) eqn:Es.
    + apply str_starts_with_spec in Es as [r Er]. pose proof (f_equal length Er) as El. rewrite length_drop, length_app in El.
      rewrite (IH self' (d ++ p) t') by (done || lia). f_equal. apply bool_decide_ext.
      rewrite <- drop_drop, Er, drop_app_length. split; [by intros ->|by intros ?%app_inv_head].
    + f_equal. symmetry. apply bool_decide_eq_false. intros E. apply not_true_iff_false in Es. apply Es, str_starts_with_spec.
      by exists (bytes_of t').
Qed.

Lemma equals_loop_bwd fuel self lo d t hi other offset :
  bwd self lo t d hi → offset ≤ length other → offset ≤ fuel →
  equals_loop fuel self other offset = Some (bool_decide (take offset other = bytes_of t)).
Proof.
  revert self d t offset. induction fuel as [|fuel IH]; intros self d t offset Hit Hle Hfuel; rewrite equals_loop_eq;
    pose proof Hit as Hit0; destruct Hit0 as (Hrev&_); assert (Hits : iterates self lo d t hi) by (unfold iterates; by rewrite Hrev);
    destruct (next_iterates _ _ _ _ _ Hits) as [(->&_&->)|(p&t'&self'&Hp&_&->&Hr&Hnext)]; go; rewrite ?Hr, Hrev in *.
  1, 3: f_equal; apply bool_decide_ext; cbn [bytes_of flat_map]; split;
    [intros ->; done|intros E; apply (f_equal length) in E; rewrite length_take in E; cbn in E; lia].
  all: destruct Hnext as [-> Hnext]; destruct (iter_part_ok _ _ _ _ _ p t' true Hits eq_refl) as [Hpok _];
    pose proof (blen_pos p Hpok Hp); rewrite bytes_of_app.
  all: destruct (str_ends_with (take offset other) (bytes_of p)) eqn:Es.
  2, 4: f_equal; symmetry; apply bool_decide_eq_false; intros E; apply not_true_iff_false in Es; apply Es, str_ends_with_spec;
      by exists (bytes_of t').
  all: apply str_ends_with_spec in Es as [r Er]; pose proof (f_equal length Er) as El; rewrite length_take, length_app in El.
  1: lia.
  rewrite usub_le by lia. go. rewrite (IH self' (p ++ d) t') by (done || lia). f_equal. apply bool_decide_ext.
  rewrite Er. assert (E' : take (offset - blen p) other = r).
  { rewrite <- (Nat.min_l (offset - blen p) offset), <- take_take, Er by lia. replace (offset - blen p) with (length r) by lia.
    apply take_app_length. }
  rewrite E'. split; [by intros ->|by intros ?%app_inv_tail].
Qed.

Lemma equals_str_iterates self lo d t hi other :
  iterates self lo d t hi → equals_str self other = Some (bool_decide (other = bytes_of t)).
Proof.
  intros Hit. unfold equals_str, iterates in *. destruct (chunks_reversed self).
  - rewrite (equals_loop_bwd _ _ lo d t hi) by (done || lia). by rewrite take_ge by done.
  - rewrite (equals_loop_fwd _ _ lo d t hi) by (done || lia). done.
Qed.

(** ** Prefixes and suffixes *)

Lemma starts_with_loop_eq fuel chunks remaining :
  starts_with_loop fuel chunks remaining =
  '(chunks, chunk) ← chunks_next chunks;
  match chunk with
  | None => Some (bool_decide (length remaining = 0))
  | Some chunk =>
      match str_get chunk 0 (length remaining `min` length chunk) with
      | None => Some false
      | Some chunk =>
          if str_starts_with remaining chunk then
            let remaining := drop (length chunk) remaining in
            if bool_decide (length remaining = 0) then Some true
            else match fuel with O => None | S fuel => starts_with_loop fuel chunks remaining end
          else Some false
      end
  end.
Proof. by destruct fuel. Qed.

(** The pattern and the part of the text share a prefix, of characters. *)
Lemma str_get_prefix (p k : list Z) :
  Forall char_ok p → Forall char_ok k →
  (∃ x, str_get (bytes_of p) 0 (blen k `min` blen p) = Some (bytes_of x) ∧ blen x = blen k `min` blen p ∧ Forall char_ok x ∧
    ∃ y, p = x ++ y) ∨
  str_get (bytes_of p) 0 (blen k `min` blen p) = None ∧ ∀ y z, p ++ y ≠ k ++ z.
Proof.
  intros Hp Hk. unfold str_get, str_slice. rewrite bool_decide_eq_true_2, boundary_0 by (lia || by exists p). cbn [andb].
  rewrite drop_0, Nat.sub_0_r. destruct (Utf8.is_char_boundary (bytes_of p) (blen k `min` blen p)) eqn:Hb.
  - left. apply boundary_split in Hb as (x&y&->&El); [|done]. exists x. rewrite El, bytes_of_app, take_app_length.
    apply Forall_app in Hp as [Hx _]. split_and!; try done. by exists y.
  - right. split; [done|]. intros y z E. apply not_true_iff_false in Hb. apply Hb, boundary_split; [done|].
    apply app_eq_inv in E as [(m&->&_)|(m&->&_)].
    + exists k, m. split; [done|]. rewrite blen_app. lia.
    + exists p, []. rewrite app_nil_r. split; [done|]. rewrite blen_app. lia.
Qed.

Lemma bytes_drop (k x : list Z) : drop (blen x) (bytes_of (x ++ k)) = bytes_of k.
Proof. by rewrite bytes_of_app, drop_app_length. Qed.

Lemma blen_nil (k : list Z) : Forall char_ok k → blen k = 0 → k = [].
Proof. intros Hk H. apply bytes_of_nil_inv; [done|]. by apply nil_length_inv. Qed.

Lemma starts_with_loop_iterates fuel self lo d t hi k :
  fwd self lo d t hi → Forall char_ok k → blen k ≤ fuel →
  ∃ b, starts_with_loop fuel self (bytes_of k) = Some b ∧ (b = true ↔ ∃ y, t = k ++ y).
Proof.
  revert self d t k. induction fuel as [|fuel IH]; intros self d t k Hit Hk Hfuel; rewrite starts_with_loop_eq;
    pose proof Hit as Hit0; destruct Hit0 as (Hrev&_); assert (Hits : iterates self lo d t hi) by (unfold iterates; by rewrite Hrev);
    destruct (next_iterates _ _ _ _ _ Hits) as [(->&_&->)|(p&t'&self'&Hp&_&->&Hr&Hnext)]; go; rewrite ?Hr, ?Hrev in *.
  1, 3: eexists; split; [done|]; rewrite bool_decide_eq_true; split;
    [intros H0; exists []; by rewrite (blen_nil k Hk H0)|intros (y&Ey); symmetry in Ey; by apply app_nil in Ey as [-> _]].
  all: destruct Hnext as [-> Hnext]; destruct (iter_part_ok _ _ _ _ _ p t' false Hits eq_refl) as [Hpok Ht'].
  all: destruct (str_get_prefix p k Hpok Hk) as [(x&Eg&Ex&Hx&y&->)|[Eg Hno]]; rewrite Eg;
    [|exists false; split; [done|]; split; [done|intros (z&Ez); by destruct (Hno t' z)]].
  all: destruct (str_starts_with (bytes_of k) (bytes_of x)) eqn:Es.
  2, 4: exists false; split; [done|]; split; [done|]; intros (z&Ez); apply not_true_iff_false in Es; exfalso; apply Es, str_starts_with_spec;
    rewrite <- app_assoc in Ez; destruct (prefix_of_blen k z x (y ++ t')) as (w&->&_);
    [done|rewrite <- Ez; rewrite !Forall_app in *; tauto|lia|exists (bytes_of w); apply bytes_of_app].
  all: apply str_starts_with_spec in Es as [s Es]; destruct (bytes_prefix x k s Hx Hk Es) as (k'&->&->); cbn zeta;
    rewrite bytes_drop; apply Forall_app in Hk as [_ Hk']; rewrite blen_app in Hfuel.
  - exists true. assert (blen k' = 0) as H0 by lia. rewrite (blen_nil k' Hk' H0). split; [done|]. split; [|done].
    intros _. exists (y ++ t'). by rewrite app_nil_r, <- app_assoc.
  - case_bool_decide as H0.
    { exists true. rewrite (blen_nil k' Hk' H0). split; [done|]. split; [|done].
      intros _. exists (y ++ t'). by rewrite app_nil_r, <- app_assoc. }
    assert (y = []) as ->.
    { apply Forall_app in Hpok as [_ Hy]. apply (blen_nil y Hy). rewrite !blen_app in Ex. lia. }
    rewrite app_nil_r in *. pose proof (blen_pos x Hx Hp).
    destruct (IH self' (d ++ x) t' k' Hnext Hk' ltac:(lia)) as (b&->&Hb). exists b. split; [done|]. rewrite Hb.
    split; intros (z&Ez); exists z; [by rewrite Ez, app_assoc|]. rewrite <- app_assoc in Ez. by apply app_inv_head in Ez.
Qed.

Lemma ends_with_loop_eq fuel chunks remaining :
  ends_with_loop fuel chunks remaining =
  '(chunks, chunk) ← chunks_next chunks;
  match chunk with
  | None => Some (bool_decide (length remaining = 0))
  | Some chunk =>
      match str_get chunk (length chunk - length remaining `min` length chunk) (length chunk) with
      | None => Some false
      | Some chunk =>
          if str_ends_with remaining chunk then
            let remaining := take (length remaining - length chunk) remaining in
            if bool_decide (length remaining = 0) then Some true
            else match fuel with O => None | S fuel => ends_with_loop fuel chunks remaining end
          else Some false
      end
  end.
Proof. by destruct fuel. Qed.

Lemma suffix_of_blen (y x z k : list Z) :
  y ++ x = z ++ k → Forall char_ok (y ++ x) → blen x ≤ blen k → ∃ w, k = w ++ x.
Proof.
  intros E Hok Hle. pose proof (f_equal (λ l, blen l) E) as El. cbn beta in El. rewrite !blen_app in El.
  destruct (prefix_of_blen y x z k E Hok) as (w&_&->); [lia|]. by exists w.
Qed.

Lemma str_get_suffix (p k : list Z) :
  Forall char_ok p → Forall char_ok k →
  (∃ x, str_get (bytes_of p) (blen p - blen k `min` blen p) (blen p) = Some (bytes_of x) ∧ blen x = blen k `min` blen p ∧
    Forall char_ok x ∧ ∃ y, p = y ++ x) ∨
  str_get (bytes_of p) (blen p - blen k `min` blen p) (blen p) = None ∧ ∀ y z, y ++ p ≠ z ++ k.
Proof.
  intros Hp Hk. unfold str_get, str_slice. rewrite bool_decide_eq_true_2, boundary_length by lia. cbn [andb]. rewrite andb_true_r.
  destruct (Utf8.is_char_boundary (bytes_of p) (blen p - blen k `min` blen p)) eqn:Hb.
  - left. apply boundary_split in Hb as (y&x&->&El); [|done]. exists x. rewrite El, bytes_of_app, drop_app_length.
    rewrite take_ge by (rewrite length_app; lia). apply Forall_app in Hp as [_ Hx]. rewrite blen_app in El. rewrite ?length_app.
    split_and!; [done|lia|done|by exists y].
  - right. split; [done|]. intros y z E. apply not_true_iff_false in Hb. apply Hb, boundary_split; [done|].
    apply app_eq_inv in E as [(m&->&->)|(m&->&->)].
    + exists [], p. split; [done|]. rewrite blen_app. cbn. lia.
    + exists m, k. split; [done|]. rewrite blen_app. lia.
Qed.

Lemma ends_with_loop_iterates fuel self lo d t hi k :
  bwd self lo t d hi → Forall char_ok k → blen k ≤ fuel →
  ∃ b, ends_with_loop fuel self (bytes_of k) = Some b ∧ (b = true ↔ ∃ y, t = y ++ k).
Proof.
  revert self d t k. induction fuel as [|fuel IH]; intros self d t k Hit Hk Hfuel; rewrite ends_with_loop_eq;
    pose proof Hit as Hit0; destruct Hit0 as (Hrev&_); assert (Hits : iterates self lo d t hi) by (unfold iterates; by rewrite Hrev);
    destruct (next_iterates _ _ _ _ _ Hits) as [(->&_&->)|(p&t'&self'&Hp&_&->&Hr&Hnext)]; go; rewrite ?Hr, ?Hrev in *.
  1, 3: eexists; split; [done|]; rewrite bool_decide_eq_true; split;
    [intros H0; exists []; by rewrite (blen_nil k Hk H0)|intros (y&Ey); symmetry in Ey; by apply app_nil in Ey as [_ ->]].
  all: destruct Hnext as [-> Hnext]; destruct (iter_part_ok _ _ _ _ _ p t' true Hits eq_refl) as [Hpok Ht'].
  all: destruct (str_get_suffix p k Hpok Hk) as [(x&Eg&Ex&Hx&y&->)|[Eg Hno]]; rewrite Eg;
    [|exists false; split; [done|]; split; [done|intros (z&Ez); by destruct (Hno t' z)]].
  all: destruct (str_ends_with (bytes_of k) (bytes_of x)) eqn:Es.
  2, 4: exists false; split; [done|]; split; [done|]; intros (z&Ez); apply not_true_iff_false in Es; exfalso; apply Es, str_ends_with_spec;
    rewrite app_assoc in Ez; destruct (suffix_of_blen (t' ++ y) x z k) as (w&->);
    [done|rewrite !Forall_app in *; tauto|lia|exists (bytes_of w); apply bytes_of_app].
  all: apply str_ends_with_spec in Es as [s Es]; destruct (bytes_suffix x k s Hx Hk Es) as (k'&->&->); cbn zeta;
    rewrite bytes_of_app, length_app, Nat.add_sub, take_app_length; apply Forall_app in Hk as [Hk' _]; rewrite blen_app in Hfuel.
  - exists true. assert (blen k' = 0) as H0 by lia. rewrite (blen_nil k' Hk' H0). split; [done|]. split; [|done].
    intros _. exists (t' ++ y). by rewrite <- app_assoc.
  - case_bool_decide as H0.
    { exists true. rewrite (blen_nil k' Hk' H0). split; [done|]. split; [|done].
      intros _. exists (t' ++ y). by rewrite <- app_assoc. }
    assert (y = []) as ->.
    { apply Forall_app in Hpok as [Hy _]. apply (blen_nil y Hy). rewrite !blen_app in Ex. lia. }
    cbn [app] in *. pose proof (blen_pos x Hx Hp).
    destruct (IH self' (x ++ d) t' k' Hnext Hk' ltac:(lia)) as (b&->&Hb). exists b. split; [done|]. rewrite Hb.
    split; intros (z&Ez); exists z; [by rewrite Ez, app_assoc|]. rewrite app_assoc in Ez. by apply app_inv_tail in Ez.
Qed.

Lemma new_iterates_rev rev lo m hi r :
  rope_text (lo ++ m ++ hi) r → height (Rope.chunks r) < STACK_CAPACITY →
  ∃ self, chunks_new r (length (bytes_of lo), length (bytes_of (lo ++ m))) rev = Some self ∧
    chunks_reversed self = rev ∧ iterates self lo [] m hi.
Proof.
  intros Hr Hh. destruct (new_iterates rev lo m hi r Hr Hh) as (self&E&Hrev&Hit).
  exists self. split; [done|]. split; [done|]. unfold iterates. rewrite Hrev. by destruct rev.
Qed.

(** Backwards, an iterator at the start of the rope cannot seek on: its cursor
    has left the tree. *)
Definition seekable self : Prop := chunks_reversed self = true → chunks_offset self ≠ 0.

(** The states an iterator over [m], after [lo], comes to by calls of [next]
    and by seeks to places of its range. *)
Inductive chunk_moves lo m self : Chunks → Prop :=
  | moves_none : chunk_moves lo m self self
  | moves_next self1 chunk self2 :
      chunk_moves lo m self self1 → chunks_next self1 = Some (self2, chunk) → chunk_moves lo m self self2
  | moves_seek self1 u v self2 :
      chunk_moves lo m self self1 → seekable self1 → m = u ++ v →
      chunks_seek self1 (length (bytes_of (lo ++ u))) = Some self2 → chunk_moves lo m self self2.

Lemma seekable_text self lo d t hi :
  iterates self lo d t hi → seekable self → chunks_reversed self = true → lo ++ t ≠ [].
Proof.
  intros Hit Hs Hrev E. apply (Hs Hrev). unfold iterates in Hit. rewrite Hrev in Hit.
  destruct Hit as (_&_&->&_). by rewrite E.
Qed.

(** After any moves the iterator is at a place of its range. *)
Lemma moves_iterates lo m hi self self' :
  iterates self lo [] m hi → chunk_moves lo m self self' →
  ∃ d t, m = (if chunks_reversed self then t ++ d else d ++ t) ∧
    chunks_reversed self' = chunks_reversed self ∧ iterates self' lo d t hi.
Proof.
  intros Hit Hm. induction Hm as [|self1 chunk self2 Hm IH Hn|self1 u v self2 Hm IH Hs Em Hk].
  - exists [], m. split; [|done]. destruct (chunks_reversed self); [by rewrite app_nil_r|done].
  - destruct IH as (d&t&->&Hr&Hit1).
    destruct (next_iterates _ _ _ _ _ Hit1) as [(->&_&E)|(p&t'&self2'&_&_&E&Hr2&Hnext)].
    { rewrite E in Hn. injection Hn as <- <-. by exists d, []. }
    rewrite E in Hn. injection Hn as <- <-. rewrite Hr in Hr2, Hnext. unfold iterates. rewrite Hr2.
    destruct (chunks_reversed self), Hnext as [-> Hnext].
    + exists (p ++ d), t'. by rewrite <- app_assoc.
    + exists (d ++ p), t'. by rewrite <- app_assoc.
  - destruct IH as (d&t&Em1&Hr&Hit1). rewrite Em in Em1.
    destruct (seek_iterates self1 lo d t hi (if chunks_reversed self then v else u)
      (if chunks_reversed self then u else v) Hit1) as (self2'&Es&Hr2&Hit2).
    { rewrite Hr. by destruct (chunks_reversed self). }
    { by apply (seekable_text _ _ _ _ _ Hit1). }
    assert (Eu : (if chunks_reversed self1 then if chunks_reversed self then u else v
                  else if chunks_reversed self then v else u) = u)
      by (rewrite Hr; by destruct (chunks_reversed self)).
    rewrite Eu in Es. rewrite Es in Hk. injection Hk as <-.
    eexists _, _. split; [|split; [by rewrite Hr2|exact Hit2]].
    rewrite Em. by destruct (chunks_reversed self).
Qed.

(** C22: The chunks of a range of a rope, forwards or backwards, are non-empty
    strings that join to the text of the range, and end after at most as many
    calls as it has characters.  From any place the iterator has come to by calls
    of [next] and [seek], [seek] to any place of the range goes on as an iterator
    that has yielded the text up to there (backwards only as long as it is not at
    the start of the rope). *)
Theorem rope_chunks_iterate (rev : bool) lo m hi r :
  rope_text (lo ++ m ++ hi) r → height (Rope.chunks r) < STACK_CAPACITY →
  ∃ self ps, chunks_new r (length (bytes_of lo), length (bytes_of (lo ++ m))) rev = Some self ∧
    chunks_collect (S (length m)) self = Some ps ∧ Forall (λ p, p ≠ []) ps ∧
    concat (if rev then reverse ps else ps) = bytes_of m ∧
    (m ≠ [] → seekable self) ∧
    ∀ self1 d t, chunk_moves lo m self self1 → seekable self1 → m = (if rev then t ++ d else d ++ t) →
      ∃ self2 ps2, chunks_seek self1 (length (bytes_of (lo ++ if rev then t else d))) = Some self2 ∧
        chunks_offset self2 = length (bytes_of (lo ++ if rev then t else d)) ∧
        chunks_collect (S (length t)) self2 = Some ps2 ∧ Forall (λ p, p ≠ []) ps2 ∧
        concat (if rev then reverse ps2 else ps2) = bytes_of t.
Proof.
  intros Hr Hh. destruct (new_iterates_rev rev lo m hi r Hr Hh) as (self&E&Hrev&Hit).
  destruct (collect_iterates (length m) self lo [] m hi Hit) as (ps&Ec&Hps&Econcat); [done|].
  exists self, ps. rewrite Hrev in Econcat. do 4 (split; [done|]). split.
  { intros Hm Hr1 H0. unfold iterates in Hit. rewrite Hr1 in Hit. destruct Hit as (_&_&Hoff&_).
    assert (Hok : Forall char_ok m).
    { pose proof (rope_text_ok _ _ Hr) as Hok. apply Forall_app in Hok as [_ Hok]. by apply Forall_app in Hok as [Hok _]. }
    pose proof (bytes_pos m Hok Hm). rewrite H0, blen_app in Hoff. lia. }
  intros self1 d t Hm Hs Em. destruct (moves_iterates lo m hi self self1 Hit Hm) as (d1&t1&E1&Hr1&Hit1).
  rewrite Hrev in E1, Hr1.
  destruct (seek_iterates self1 lo d1 t1 hi d t Hit1) as (self2&Es&Hr2&Hit2).
  { rewrite Hr1. destruct rev; congruence. }
  { by apply (seekable_text _ _ _ _ _ Hit1). }
  rewrite Hr1 in Es, Hr2.
  destruct (collect_iterates (length t) self2 lo d t hi Hit2) as (ps2&Ec2&Hps2&Econcat2); [done|].
  rewrite Hr2 in Econcat2. exists self2, ps2. split; [done|]. split; [|done].
  unfold iterates in Hit2. rewrite Hr2 in Hit2. destruct rev; apply Hit2.
Qed.

Lemma rope_chunks_iterate_witness :
  ∃ r self ps self1 self2 ps2, from_text (bytes_of letters) = Some r ∧ chunks_new r (1, 8) true = Some self ∧
    chunks_collect 4 self = Some ps ∧ concat (reverse ps) = bytes_of [233; 10; 128512]%Z ∧
    chunks_seek self 4 = Some self1 ∧ chunks_seek self1 8 = Some self2 ∧
    chunks_collect 4 self2 = Some ps2 ∧ concat (reverse ps2) = bytes_of [233; 10; 128512]%Z.
Proof.
  destruct (concrete_rope letters letters_ok) as (r&E&Hr&Hh); [by vm_compute|].
  destruct (rope_chunks_iterate true [97]%Z [233; 10; 128512]%Z [98]%Z r Hr)
    as (self&ps&En&Ec&_&Eps&Hs&Hseek); [rewrite Hh; unfold STACK_CAPACITY; lia|].
  destruct (Hseek self [128512]%Z [233; 10]%Z (moves_none _ _ _) (Hs ltac:(done)) eq_refl) as (self1&ps1&E1&Eo&_).
  destruct (Hseek self1 [] [233; 10; 128512]%Z) as (self2&ps2&E2&_&Ec2&_&Eps2);
    [exact (moves_seek _ _ _ _ [233; 10]%Z [128512]%Z _ (moves_none _ _ _) (Hs ltac:(done)) eq_refl E1)| |done|].
  { intros _. by rewrite Eo. }
  exists r, self, ps, self1, self2, ps2. split_and!; [exact E|exact En|exact Ec|exact Eps|exact E1|exact E2|exact Ec2|exact Eps2].
Defined.

(** C23: The lines of a range of a rope are those of [str::split] at newlines,
    in their order or backwards, whatever the chunks are; every line ends, so
    the iterator does after as many calls as there are lines. *)
Theorem rope_lines_split (rev : bool) lo m hi r :
  rope_text (lo ++ m ++ hi) r → height (Rope.chunks r) < STACK_CAPACITY →
  ∃ self, chunks_new r (length (bytes_of lo), length (bytes_of (lo ++ m))) rev = Some self ∧
    lines_collect (length m + 2) (chunks_lines self) =
    Some (if rev then reverse (split_lines (bytes_of m)) else split_lines (bytes_of m)).
Proof.
  intros Hr Hh. destruct (new_iterates_rev rev lo m hi r Hr Hh) as (self&E&Hrev&Hit).
  exists self. split; [done|]. replace (length m + 2) with (S (S (length m))) by lia.
  rewrite (lines_collect_iterates (S (length m)) (chunks_lines self) lo [] m hi Hit eq_refl eq_refl) by lia.
  cbn [chunks_lines lines_reversed]. by rewrite Hrev.
Qed.

Lemma rope_lines_split_witness :
  ∃ r self, from_text (bytes_of letters) = Some r ∧ chunks_new r (0, 9) true = Some self ∧
    lines_collect 7 (chunks_lines self) = Some [bytes_of [128512; 98]%Z; bytes_of [97; 233]%Z].
Proof.
  destruct (concrete_rope letters letters_ok) as (r&E&Hr&Hh); [by vm_compute|].
  destruct (rope_lines_split true [] letters [] r) as (self&En&Ec); [done|rewrite Hh; unfold STACK_CAPACITY; lia|].
  exists r, self. split; [done|]. split; [exact En|]. exact Ec.
Defined.

(** [starts_with] and [ends_with] decide whether the text of the rope has
    the pattern as a prefix or suffix, and [equals_str], forwards or backwards,
    whether a range has the bytes of the string; a pattern that ends inside a
    character of the text is refused, not a panic. *)
Theorem rope_compares (rev : bool) lo m hi r k other :
  rope_text (lo ++ m ++ hi) r → height (Rope.chunks r) < STACK_CAPACITY → Forall char_ok k →
  starts_with r (bytes_of k) = Some (bool_decide (k `prefix_of` lo ++ m ++ hi)) ∧
  ends_with r (bytes_of k) = Some (bool_decide (k `suffix_of` lo ++ m ++ hi)) ∧
  ∃ self, chunks_new r (length (bytes_of lo), length (bytes_of (lo ++ m))) rev = Some self ∧
    equals_str self other = Some (bool_decide (other = bytes_of m)).
Proof.
  intros Hr Hh Hk. set (cs := lo ++ m ++ hi) in *. pose proof (rope_text_len _ _ Hr) as Hl.
  assert (Hr' : rope_text ([] ++ cs ++ []) r) by by rewrite app_nil_r.
  assert (Hbool : ∀ b P `{Decision P}, (b = true ↔ P) → b = bool_decide P).
  { intros b P ? Hb. apply eq_true_iff_eq. by rewrite bool_decide_eq_true. }
  split; [|split].
  - unfold starts_with. rewrite Hl. case_bool_decide as Hlt.
    { f_equal. symmetry. apply bool_decide_eq_false. intros (y&E). rewrite E, blen_app in Hlt. lia. }
    destruct (new_iterates false [] cs [] r Hr' Hh) as (self&E&_&Hit). rewrite app_nil_l in E. change (length (bytes_of [])) with 0 in E.
    unfold chunks_in_range. rewrite E. cbn [mbind option_bind].
    destruct (starts_with_loop_iterates (length (bytes_of k)) self _ _ _ _ k Hit Hk) as (b&->&Hb); [done|].
    f_equal. by apply Hbool.
  - unfold ends_with. rewrite Hl. case_bool_decide as Hlt.
    { f_equal. symmetry. apply bool_decide_eq_false. intros (y&E). rewrite E, blen_app in Hlt. lia. }
    destruct (new_iterates true [] cs [] r Hr' Hh) as (self&E&_&Hit). rewrite app_nil_l in E. change (length (bytes_of [])) with 0 in E.
    unfold reversed_chunks_in_range. rewrite E. cbn [mbind option_bind].
    destruct (ends_with_loop_iterates (length (bytes_of k)) self _ _ _ _ k Hit Hk) as (b&->&Hb); [done|].
    f_equal. by apply Hbool.
  - destruct (new_iterates_rev rev lo m hi r Hr Hh) as (self&E&_&Hit). exists self. split; [done|].
    by apply (equals_str_iterates self lo [] m hi).
Qed.

Lemma rope_compares_witness :
  ∃ r, from_text (bytes_of letters) = Some r ∧ starts_with r (bytes_of [97; 233]%Z) = Some true ∧
    ends_with r (bytes_of [233]%Z) = Some false.
Proof.
  destruct (concrete_rope letters letters_ok) as (r&E&Hr&Hh); [by vm_compute|]. exists r. split; [done|].
  assert (Hh' : height (Rope.chunks r) < STACK_CAPACITY) by (rewrite Hh; unfold STACK_CAPACITY; lia).
  split.
  - destruct (rope_compares false [] letters [] r [97; 233]%Z [] Hr Hh') as (H&_); [repeat constructor; by vm_compute|]. exact H.
  - destruct (rope_compares false [] letters [] r [233]%Z [] Hr Hh') as (_&H&_); [repeat constructor; by vm_compute|]. exact H.
Defined.

(** A backwards iterator that has reached the start of the rope is lost: seeking
    it forwards finds no chunk, where a fresh one yields the text again. *)
Lemma reversed_seek_stuck :
  (r ← from_text [97; 98; 99]%Z;
   self ← reversed_chunks_in_range r (0, 3);
   fresh ← chunks_seek self 3;
   '(_, p) ← chunks_next fresh;
   '(self, _) ← chunks_next self;
   self ← chunks_seek self 3;
   '(_, q) ← chunks_next self;
   Some (p, q)) = Some (Some [97; 98; 99]%Z, None).
Proof. by vm_compute. Qed.
