(* ===== verification/LineEnding.v ===== *)
(** Line endings: [LineEnding] and [chunks_with_line_ending] of
    [crates/text/src/text.rs].

    Strings are lists of bytes.  The platform, which decides the default, is an
    instance of [Platform].  [LINE_SEPARATORS_REGEX] is [\r\n|\r]: the regular
    expression engine takes the first match and prefers [\r\n]. *)

From stdpp Require Import base numbers option list.
From S2P Require Import Prelude Utf8.

#[local] Open Scope Z_scope.

Definition CARRIAGE_RETURN : Z := 13.

(** [cfg(unix)]. *)
Class Platform := cfg_unix : bool.

Inductive LineEnding := Unix | Windows.

#[export] Instance LineEnding_eq_dec : EqDecision LineEnding.
Proof. solve_decision. Defined.

Definition LineEnding_default `{Platform} : LineEnding := if cfg_unix then Unix else Windows.

Definition as_str (self : LineEnding) : list Z :=
  match self with Unix => [NEWLINE] | Windows => [CARRIAGE_RETURN; NEWLINE] end.

(** [text.find(['\n'])]. *)
Fixpoint find_newline (text : list Z) : option nat :=
  match text with
  | [] => None
  | b :: text => if b =? NEWLINE then Some 0%nat else S <$> find_newline text
  end.

Definition detect `{Platform} (text : list Z) : LineEnding :=
  let max_ix := floor_char_boundary_loop text (length text `min` 1000)%nat in
  match find_newline (take max_ix text) with
  | Some ix =>
      if bool_decide (0 < ix)%nat && bool_decide (text !! (ix - 1)%nat = Some CARRIAGE_RETURN) then Windows else Unix
  | None => LineEnding_default
  end.

(** [LINE_SEPARATORS_REGEX.replace_all(text, "\n")]. *)
Fixpoint normalize (text : list Z) : list Z :=
  match text with
  | [] => []
  | b :: text =>
      if b =? CARRIAGE_RETURN then
        NEWLINE :: match text with
                   | c :: rest => if c =? NEWLINE then normalize rest else normalize text
                   | [] => []
                   end
      else b :: normalize text
  end.

(** [text.replace('\n', s)]. *)
Definition replace_newlines (s text : list Z) : list Z :=
  flat_map (λ b, if b =? NEWLINE then s else [b]) text.

Definition apply `{Platform} (self : LineEnding) (text : list Z) : list Z :=
  match detect text, self with
  | Unix, Unix | Windows, Windows => text
  | Unix, Windows => replace_newlines [CARRIAGE_RETURN; NEWLINE] text
  | Windows, Unix => normalize text
  end.

(** [str::lines]: the text up to each line end, without it. *)
Definition strip_carriage_return (line : list Z) : list Z :=
  match list.last line with
  | Some b => if b =? CARRIAGE_RETURN then removelast line else line
  | None => line
  end.

Fixpoint lines_from (line text : list Z) : list (list Z) :=
  match text with
  | [] => match line with [] => [] | _ => [line] end
  | b :: text =>
      if b =? NEWLINE then strip_carriage_return line :: lines_from [] text else lines_from (line ++ [b]) text
  end.
Definition lines (text : list Z) : list (list Z) := lines_from [] text.

(** Every line of a chunk, with an ending before it when [newline] is set. *)
Fixpoint with_endings (line_ending : LineEnding) (newline : bool) (lines : list (list Z)) : list (list Z) :=
  match lines with
  | [] => []
  | line :: lines => (if newline then [as_str line_ending] else []) ++ line :: with_endings line_ending true lines
  end.

Definition chunk_with_line_ending (line_ending : LineEnding) (chunk : list Z) : list (list Z) :=
  let end_with_newline :=
    if bool_decide (list.last chunk = Some NEWLINE) then [as_str line_ending] else [] in
  with_endings line_ending false (lines chunk) ++ end_with_newline.

(** [chunks]: what [rope.chunks()] yields. *)
Definition chunks_with_line_ending (chunks : list (list Z)) (line_ending : LineEnding) : list (list Z) :=
  chunks ≫= chunk_with_line_ending line_ending.

(** ** What normalizing does *)

Lemma normalize_cons b t :
  normalize (b :: t) =
    if b =? CARRIAGE_RETURN then
      NEWLINE :: match t with c :: r => if c =? NEWLINE then normalize r else normalize t | [] => [] end
    else b :: normalize t.
Proof. done. Qed.

(** Induction along the matches. *)
Lemma normalize_ind (P : list Z → list Z → Prop) :
  P [] [] → (∀ t, P t (normalize t) → P (CARRIAGE_RETURN :: NEWLINE :: t) (NEWLINE :: normalize t)) →
  (∀ t, (match t with c :: _ => c ≠ NEWLINE | [] => True end) → P t (normalize t) →
    P (CARRIAGE_RETURN :: t) (NEWLINE :: normalize t)) →
  (∀ b t, b ≠ CARRIAGE_RETURN → P t (normalize t) → P (b :: t) (b :: normalize t)) →
  ∀ t, P t (normalize t).
Proof.
  intros H0 H1 H2 H3 t. remember (length t) as n eqn:En. revert t En. induction n as [n IH] using lt_wf_ind.
  intros [|b t] ->; [exact H0|]. rewrite normalize_cons. destruct (Z.eqb_spec b CARRIAGE_RETURN) as [->|Hb].
  - destruct t as [|c r]; [by apply (H2 [])|]. destruct (Z.eqb_spec c NEWLINE) as [->|Hc].
    + apply H1. eapply IH; [|done]. cbn. lia.
    + apply (H2 (c :: r)); [done|]. eapply IH; [|done]. cbn. lia.
  - apply H3; [done|]. eapply IH; [|done]. cbn. lia.
Qed.

Lemma normalize_clean t : CARRIAGE_RETURN ∉ normalize t.
Proof.
  apply (normalize_ind (λ _ n, CARRIAGE_RETURN ∉ n)); clear.
  - apply not_elem_of_nil.
  - intros t IH. by apply not_elem_of_cons.
  - intros t _ IH. by apply not_elem_of_cons.
  - intros b t Hb IH. apply not_elem_of_cons. by split.
Qed.

Lemma normalize_id t : CARRIAGE_RETURN ∉ t → normalize t = t.
Proof.
  induction t as [|b t IH]; [done|]. intros [Hb Ht]%not_elem_of_cons. rewrite normalize_cons.
  destruct (Z.eqb_spec b CARRIAGE_RETURN) as [->|]; [done|]. by rewrite IH.
Qed.

Lemma replace_cons s b t :
  replace_newlines s (b :: t) = (if b =? NEWLINE then s else [b]) ++ replace_newlines s t.
Proof. done. Qed.

Lemma normalize_replace t : CARRIAGE_RETURN ∉ t → normalize (replace_newlines [CARRIAGE_RETURN; NEWLINE] t) = t.
Proof.
  induction t as [|b t IH]; [done|]. intros [Hb Ht]%not_elem_of_cons. rewrite replace_cons.
  destruct (Z.eqb_spec b NEWLINE) as [->|Hn].
  - change (NEWLINE :: normalize (replace_newlines [CARRIAGE_RETURN; NEWLINE] t) = NEWLINE :: t). by rewrite IH.
  - change ([b] ++ ?l) with (b :: l). rewrite normalize_cons. destruct (Z.eqb_spec b CARRIAGE_RETURN) as [->|]; [done|].
    by rewrite IH.
Qed.

(** A normalized string is a string. *)
Lemma normalize_app_high a t : Forall (λ b, 128 ≤ b) a → normalize (a ++ t) = a ++ normalize t.
Proof.
  induction 1 as [|b a Hb _ IH]; [done|]. cbn [app]. rewrite normalize_cons, IH.
  destruct (Z.eqb_spec b CARRIAGE_RETURN) as [->|]; [unfold CARRIAGE_RETURN in *; lia|done].
Qed.

Lemma encode_high c : char_ok c → 128 ≤ c → Forall (λ b, 128 ≤ b) (encode_utf8 c).
Proof.
  intros Hok Hc. destruct (encode_shape c Hok) as (b&bs&->&Hl&Ht&_). constructor.
  - unfold is_lead in Hl. lia.
  - eapply Forall_impl; [exact Ht|]. unfold is_tail. intros. lia.
Qed.

Lemma encode_low c : char_ok c → c < 128 → encode_utf8 c = [c].
Proof. intros _ Hc. unfold encode_utf8. by destruct (Z.ltb_spec c 0x80); [|lia]. Qed.

Lemma bytes_cons c cs : bytes_of (c :: cs) = encode_utf8 c ++ bytes_of cs.
Proof. done. Qed.

Lemma bytes_low c cs : char_ok c → c < 128 → bytes_of (c :: cs) = c :: bytes_of cs.
Proof. intros Hok Hc. by rewrite bytes_cons, encode_low. Qed.

(** The encoding commutes with normalizing. *)
Lemma bytes_head cs b t : Forall char_ok cs → bytes_of cs = b :: t → b < 128 → ∃ cs', cs = b :: cs'.
Proof.
  intros Hok E Hb. destruct cs as [|c cs]; [done|]. apply Forall_cons in Hok as [Hc _]. exists cs.
  destruct (encode_shape c Hc) as (b'&bs&Ec&Hl&_&_). rewrite bytes_cons, Ec in E. injection E as -> _.
  rewrite (encode_low c Hc) in Ec by (unfold is_lead in Hl; lia). by injection Ec as -> _.
Qed.

Lemma normalize_bytes cs : Forall char_ok cs → normalize (bytes_of cs) = bytes_of (normalize cs).
Proof.
  apply (normalize_ind (λ t n, Forall char_ok t → normalize (bytes_of t) = bytes_of n)); clear.
  - done.
  - intros t IH Hok. inversion Hok as [|? ? H1 Hok']; subst. inversion Hok' as [|? ? H2 Ht]; subst.
    rewrite !bytes_low by done. change (normalize (CARRIAGE_RETURN :: NEWLINE :: bytes_of t)) with (NEWLINE :: normalize (bytes_of t)).
    by rewrite IH.
  - intros t Hhead IH Hok. inversion Hok as [|? ? H1 Ht]; subst.
    rewrite !bytes_low by done. rewrite normalize_cons, Z.eqb_refl, <- IH by done. f_equal.
    destruct (bytes_of t) as [|c r] eqn:E; [done|]. destruct (Z.eqb_spec c NEWLINE) as [->|]; [|done].
    apply bytes_head in E as (cs'&->); done.
  - intros b t Hb IH Hok. inversion Hok as [|? ? H1 Ht]; subst. destruct (Z.lt_ge_cases b 128) as [Hlow|Hhigh].
    + rewrite !bytes_low by done. rewrite normalize_cons. destruct (Z.eqb_spec b CARRIAGE_RETURN); [done|]. by rewrite IH.
    + rewrite !bytes_cons, normalize_app_high by (by apply encode_high). by rewrite IH.
Qed.

Lemma normalize_ok cs : Forall char_ok cs → Forall char_ok (normalize cs).
Proof.
  apply (normalize_ind (λ t n, Forall char_ok t → Forall char_ok n)); clear.
  - done.
  - intros t IH Hok. inversion Hok as [|? ? H1 Hok']; subst. inversion Hok'; subst. constructor; [by left|auto].
  - intros t _ IH Hok. inversion Hok; subst. constructor; [by left|auto].
  - intros b t _ IH Hok. inversion Hok; subst. constructor; auto.
Qed.

(** ** Chunks with endings *)

Definition joined (s : list Z) (ls : list (list Z)) : list Z :=
  match ls with [] => [] | l :: ls => l ++ concat (map (λ l, s ++ l) ls) end.

Lemma joined_cons s l ls : ls ≠ [] → joined s (l :: ls) = l ++ s ++ joined s ls.
Proof. destruct ls; [done|]. cbn. by rewrite <- !app_assoc. Qed.

Lemma with_endings_joined e ls : concat (with_endings e false ls) = joined (as_str e) ls.
Proof.
  assert (Ht : ∀ ls, concat (with_endings e true ls) = concat (map (λ l, as_str e ++ l) ls)).
  { clear. induction ls as [|l ls IH]; [done|]. cbn. by rewrite IH, <- app_assoc. }
  destruct ls as [|l ls]; [done|]. cbn [with_endings app concat joined]. by rewrite Ht.
Qed.

Lemma strip_clean l : CARRIAGE_RETURN ∉ l → strip_carriage_return l = l.
Proof.
  intros Hl. unfold strip_carriage_return. destruct (list.last l) as [b|] eqn:E; [|done].
  destruct (Z.eqb_spec b CARRIAGE_RETURN) as [->|]; [|done]. by apply last_Some_elem_of in E.
Qed.

Lemma lines_from_nonempty line text : line ≠ [] ∨ text ≠ [] → lines_from line text ≠ [].
Proof.
  revert line. induction text as [|b text IH]; intros line Hne; cbn [lines_from].
  - destruct line; [by destruct Hne|done].
  - destruct (b =? NEWLINE); [done|]. apply IH. left. by destruct line.
Qed.

(** The lines of a clean chunk, joined: the last ending is the one that
    [end_with_newline] adds. *)
Lemma lines_from_join s line text :
  CARRIAGE_RETURN ∉ line → CARRIAGE_RETURN ∉ text → line ≠ [] ∨ text ≠ [] →
  joined s (lines_from line text) ++ (if bool_decide (list.last text = Some NEWLINE) then s else []) =
    line ++ replace_newlines s text.
Proof.
  revert line. induction text as [|b text IH]; intros line Hline Htext Hne; cbn [lines_from].
  - rewrite bool_decide_eq_false_2 by done. destruct line; [by destruct Hne|]. cbn. by rewrite !app_nil_r.
  - apply not_elem_of_cons in Htext as [Hb Htext]. rewrite replace_cons. destruct (Z.eqb_spec b NEWLINE) as [->|Hn].
    + rewrite strip_clean by done. destruct text as [|c text].
      * rewrite bool_decide_eq_true_2 by done. cbn. by rewrite !app_nil_r.
      * rewrite joined_cons by (apply lines_from_nonempty; by right). rewrite <- !app_assoc.
        change (list.last (NEWLINE :: c :: text)) with (list.last (c :: text)).
        rewrite IH; [done|apply not_elem_of_nil|done|by right].
    + replace (bool_decide (list.last (b :: text) = Some NEWLINE)) with (bool_decide (list.last text = Some NEWLINE)).
      * rewrite IH, <- app_assoc; [done| |done|left; by destruct line].
        rewrite elem_of_app, list_elem_of_singleton. intros [?|?]; congruence.
      * apply bool_decide_ext. destruct text; cbn; [|done]. split; [done|]. intros [=]. congruence.
Qed.

Lemma chunk_ending_text e chunk :
  CARRIAGE_RETURN ∉ chunk → concat (chunk_with_line_ending e chunk) = replace_newlines (as_str e) chunk.
Proof.
  intros Hc. unfold chunk_with_line_ending. rewrite concat_app, with_endings_joined. destruct chunk as [|b chunk]; [done|].
  assert (E : joined (as_str e) (lines_from [] (b :: chunk)) ++
      (if bool_decide (list.last (b :: chunk) = Some NEWLINE) then as_str e else []) = replace_newlines (as_str e) (b :: chunk)).
  { eapply eq_trans; [apply lines_from_join; [apply not_elem_of_nil|done|by right]|done]. }
  rewrite <- E. unfold lines. f_equal. case_bool_decide; [cbn; by rewrite app_nil_r|done].
Qed.

Lemma replace_app s a b : replace_newlines s (a ++ b) = replace_newlines s a ++ replace_newlines s b.
Proof. apply flat_map_app. Qed.

Lemma replace_newline t : replace_newlines [NEWLINE] t = t.
Proof.
  induction t as [|b t IH]; [done|]. rewrite replace_cons, IH. by destruct (Z.eqb_spec b NEWLINE) as [->|].
Qed.

Lemma chunks_ending_text e chunks :
  Forall (λ chunk, CARRIAGE_RETURN ∉ chunk) chunks →
  concat (chunks_with_line_ending chunks e) = replace_newlines (as_str e) (concat chunks).
Proof.
  induction 1 as [|chunk chunks Hc _ IH]; [done|]. cbn [concat]. rewrite replace_app, <- IH, <- (chunk_ending_text e chunk Hc).
  unfold chunks_with_line_ending. cbn [mbind list_bind]. by rewrite concat_app.
Qed.

(** ** Properties *)

(** C27: Text without carriage returns survives being written with a line
    ending and read again: both [chunks_with_line_ending], which saves a
    buffer, and [apply] are undone by normalizing. *)
Theorem line_endings_roundtrip `{Platform} e chunks :
  Forall (λ chunk, CARRIAGE_RETURN ∉ chunk) chunks →
  concat (chunks_with_line_ending chunks e) = replace_newlines (as_str e) (concat chunks) ∧
  normalize (concat (chunks_with_line_ending chunks e)) = concat chunks ∧
  normalize (apply e (concat chunks)) = concat chunks.
Proof.
  intros Hc. assert (Ht : CARRIAGE_RETURN ∉ concat chunks).
  { induction Hc as [|chunk chunks Hc _ IH]; cbn; [apply not_elem_of_nil|]. rewrite elem_of_app. by intros [?|?]. }
  rewrite chunks_ending_text by done. split; [done|]. split.
  - destruct e; cbn [as_str]; [rewrite replace_newline; by apply normalize_id|by apply normalize_replace].
  - unfold apply. destruct (detect _), e; rewrite ?normalize_replace, ?(normalize_id (normalize _)), ?normalize_id by
      (done || apply normalize_clean); done.
Qed.

Lemma line_endings_roundtrip_witness :
  normalize (concat (chunks_with_line_ending [[97; 10]; [98; 10; 99]] Windows)) = [97; 10; 98; 10; 99] ∧
  concat (chunks_with_line_ending [[97; 10]; [98; 10; 99]] Windows) = [97; 13; 10; 98; 13; 10; 99].
Proof.
  destruct (line_endings_roundtrip (H:=true) Windows [[97; 10]; [98; 10; 99]]) as (E&R&_).
  - repeat (apply Forall_cons; split); [..|apply Forall_nil; exact I]; apply (bool_decide_unpack _); vm_compute; exact I.
  - split; [exact R|exact E].
Defined.
