(* ===== verification/Fragment.v ===== *)
(** The fragments of a text buffer: [Fragment], [InsertionFragment] and
    [InsertionSlice] of [crates/text/src/text.rs], with their summaries and the
    dimensions a buffer seeks by.

    A fragment is a run of the text of one insertion; visible or deleted, all
    fragments in order are the full text of the buffer.  A [u32] is an [N], a
    [usize] a natural number; additions of [u32] panic past the width. *)

From stdpp Require Import base numbers option list.
From S2P Require Import Prelude Clock Locator SumTree KeyedTree Operation.
From S2P Require UndoMap.

#[local] Open Scope nat_scope.

(** The casts [as u32] and [as usize], and [+] on [u32]. *)
Definition as_u32 (n : nat) : N := wrap_N 32 (N.of_nat n).
Abbreviation as_usize := N.to_nat (only parsing).
Definition u32_add (a b : N) : option N :=
  if bool_decide (fits 32 (a + b)) then Some (a + b)%N else None.

Record Fragment := mkFragment {
  fragment_id : Locator;
  fragment_timestamp : Lamport;
  insertion_offset : N;
  fragment_len : N;
  visible : bool;
  deletions : list Lamport;
  max_undos : Global
}.

Record FragmentTextSummary := mkFragmentText { text_visible : nat; text_deleted : nat }.

Record FragmentSummary := mkFragmentSummary {
  text : FragmentTextSummary;
  max_id : Locator;
  max_version : Global;
  min_insertion_version : Global;
  max_insertion_version : Global
}.

(** ** Visibility *)

(** [iter().all] with a test that may panic. *)
Fixpoint allM {A} (f : A → option bool) (l : list A) : option bool :=
  match l with
  | [] => Some true
  | a :: l => b ← f a; if (b : bool) then allM f l else Some false
  end.

Definition is_visible (self : Fragment) (undos : UndoMap.UndoMap) : option bool :=
  u ← UndoMap.is_undone undos (fragment_timestamp self);
  if (u : bool) then Some false else allM (UndoMap.is_undone undos) (deletions self).

Definition was_visible (self : Fragment) (version : Global) (undos : UndoMap.UndoMap) : option bool :=
  if observed version (fragment_timestamp self) then
    u ← UndoMap.was_undone undos (fragment_timestamp self) version;
    if (u : bool) then Some false
    else allM (λ d, if observed version d then UndoMap.was_undone undos d version else Some true)
           (deletions self)
  else Some false.

(** ** The summary of fragments *)

Definition fragment_max_version (self : Fragment) : Global :=
  join (foldl Global_observe (Global_observe Global_new (fragment_timestamp self)) (deletions self))
       (max_undos self).

#[export] Instance Fragment_Item : Item Fragment FragmentSummary (option Global) := λ self _,
  let version := Global_observe Global_new (fragment_timestamp self) in
  let text :=
    if visible self then mkFragmentText (as_usize (fragment_len self)) 0
    else mkFragmentText 0 (as_usize (fragment_len self)) in
  mkFragmentSummary text (fragment_id self) (fragment_max_version self) version version.

Definition FragmentSummary_default : FragmentSummary :=
  mkFragmentSummary (mkFragmentText 0 0) Locator_min Global_new Global_new Global_new.

#[export] Instance FragmentSummary_Summary : Summary FragmentSummary (option Global) := {
  summary_zero := λ _, FragmentSummary_default;
  add_summary := λ self other _,
    mkFragmentSummary
      (mkFragmentText (text_visible (text self) + text_visible (text other))
                      (text_deleted (text self) + text_deleted (text other)))
      (default (max_id self) (Locator.assign (max_id self) (max_id other)))
      (join (max_version self) (max_version other))
      (meet (min_insertion_version self) (min_insertion_version other))
      (join (max_insertion_version self) (max_insertion_version other))
}.

(** ** Dimensions *)

#[export] Instance FragmentText_Dimension :
  Dimension FragmentTextSummary FragmentSummary (option Global) := {
  dim_zero := λ _, mkFragmentText 0 0;
  dim_add_summary := λ self summary _,
    mkFragmentText (text_visible self + text_visible (text summary))
                   (text_deleted self + text_deleted (text summary))
}.

#[export] Instance usize_Dimension : Dimension nat FragmentSummary (option Global) := {
  dim_zero := λ _, 0;
  dim_add_summary := λ self summary _, self + text_visible (text summary)
}.

#[export] Instance FullOffset_Dimension : Dimension FullOffset FragmentSummary (option Global) := {
  dim_zero := λ _, MkFullOffset 0;
  dim_add_summary := λ self summary _,
    MkFullOffset (full_offset self + (text_visible (text summary) + text_deleted (text summary)))
}.

#[export] Instance Locator_Dimension : Dimension (option Locator) FragmentSummary (option Global) := {
  dim_zero := λ _, None;
  dim_add_summary := λ _ summary _, Some (max_id summary)
}.

(** A visible offset, sought among fragments. *)
#[export] Instance visible_SeekTarget : SeekTarget nat FragmentTextSummary (option Global) :=
  λ self cursor_location _, cmp self (text_visible cursor_location).

(** The offset in the full text of a version: fragments it has not observed
    have no extent, and a subtree that mixes both is [Invalid]. *)
Inductive VersionedFullOffset := Offset (offset : FullOffset) | Invalid.

Definition versioned_full_offset (self : VersionedFullOffset) : option nat :=
  match self with Offset position => Some (full_offset position) | Invalid => None end.

(** The context's [unwrap] cannot be a panic of the instance; a cursor by this
    dimension always has a version. *)
#[export] Instance VersionedFullOffset_Dimension :
  Dimension VersionedFullOffset FragmentSummary (option Global) := {
  dim_zero := λ _, Offset (MkFullOffset 0);
  dim_add_summary := λ self summary cx,
    match self with
    | Offset offset =>
        let version := default Global_new cx in
        if observed_all version (max_insertion_version summary) then
          Offset (MkFullOffset (full_offset offset +
            (text_visible (text summary) + text_deleted (text summary))))
        else if observed_any version (min_insertion_version summary) then Invalid
        else self
    | Invalid => Invalid
    end
}.

(** [Invalid] is no target. *)
#[export] Instance VersionedFullOffset_SeekTarget :
  SeekTarget VersionedFullOffset VersionedFullOffset (option Global) := λ self cursor_position _,
  match self, cursor_position with
  | Offset a, Offset b => cmp (full_offset a) (full_offset b)
  | Offset _, Invalid => Lt
  | Invalid, _ => Eq
  end.

(** ** Insertion fragments: where the parts of an insertion are *)

Record InsertionFragment := mkInsertionFragment {
  insertion_timestamp : Lamport;
  split_offset : N;
  insertion_fragment_id : Locator
}.

Record InsertionFragmentKey := mkInsertionFragmentKey {
  key_timestamp : Lamport;
  key_split_offset : N
}.

#[export] Instance InsertionFragmentKey_Ord : Ord InsertionFragmentKey := λ self other,
  then_with (cmp (key_timestamp self) (key_timestamp other))
            (cmp (key_split_offset self) (key_split_offset other)).

#[export] Instance InsertionFragment_Item : Item InsertionFragment InsertionFragmentKey () :=
  λ self _, mkInsertionFragmentKey (insertion_timestamp self) (split_offset self).

#[export] Instance InsertionFragment_KeyedItem : KeyedItem InsertionFragment InsertionFragmentKey :=
  λ self, item_summary_of self ().

#[export] Instance InsertionFragmentKey_Summary : Summary InsertionFragmentKey () := {
  summary_zero := λ _, mkInsertionFragmentKey Lamport_MIN 0;
  add_summary := λ _ summary _, summary
}.

Definition insertion_fragment_new (fragment : Fragment) : InsertionFragment :=
  mkInsertionFragment (fragment_timestamp fragment) (insertion_offset fragment) (fragment_id fragment).

Definition insert_new (fragment : Fragment) : Edit InsertionFragment InsertionFragmentKey :=
  Insert (insertion_fragment_new fragment).

(** ** Insertion slices: what an edit inserted or deleted *)

Record InsertionSlice := mkInsertionSlice {
  slice_edit_id : Lamport;
  slice_insertion_id : Lamport;
  slice_start : N;
  slice_end : N
}.

#[export] Instance InsertionSlice_Ord : Ord InsertionSlice := λ self other,
  then_with (then_with (then_with
    (cmp (slice_edit_id self) (slice_edit_id other))
    (cmp (slice_insertion_id self) (slice_insertion_id other)))
    (cmp (slice_start self) (slice_start other)))
    (cmp (slice_end self) (slice_end other)).

Definition from_fragment (edit_id : Lamport) (fragment : Fragment) : option InsertionSlice :=
  end_ ← u32_add (insertion_offset fragment) (fragment_len fragment);
  Some (mkInsertionSlice edit_id (fragment_timestamp fragment) (insertion_offset fragment) end_).
