(* ===== verification/Builder.v ===== *)
(** Building the fragments and the texts of a buffer: [FragmentBuilder] and
    [RopeBuilder] of [crates/text/src/text.rs]. *)

From stdpp Require Import base numbers option list.
From S2P Require Import Prelude SumTree Fragment Rope.

#[local] Open Scope nat_scope.

Abbreviation FragmentTree := (SumTree Fragment FragmentSummary) (only parsing).

(** ** Fragments: subtrees as they are, and runs of single fragments *)

Inductive FragmentChunk :=
  | Tree (subtree : FragmentTree)
  | Loose (fragments : list Fragment).

Record FragmentBuilder := mkFragmentBuilder {
  builder_chunks : list FragmentChunk;
  builder_summary : FragmentSummary
}.

Definition fragment_builder_new (init : FragmentTree) : FragmentBuilder :=
  mkFragmentBuilder (if SumTree.is_empty init then [] else [Tree init]) (SumTree.summary init).

Definition builder_append (self : FragmentBuilder) (items : FragmentTree) (cx : option Clock.Global) : FragmentBuilder :=
  if SumTree.is_empty items then self
  else mkFragmentBuilder (builder_chunks self ++ [Tree items])
         (add_summary (builder_summary self) (SumTree.summary items) cx).

(** The last chunk, when it is loose, takes the fragment. *)
Definition builder_push (self : FragmentBuilder) (fragment : Fragment) (cx : option Clock.Global) : FragmentBuilder :=
  mkFragmentBuilder
    match modify_last (λ chunk, match chunk with
                                | Loose fragments => Some (Loose (fragments ++ [fragment]), ())
                                | Tree _ => None
                                end) (builder_chunks self) with
    | Some (chunks, _) => chunks
    | None => builder_chunks self ++ [Loose [fragment]]
    end
    (add_summary (builder_summary self) (item_summary_of fragment cx) cx).

Definition append_chunk (cx : option Clock.Global) (tree : FragmentTree) (chunk : FragmentChunk) : option FragmentTree :=
  match chunk with
  | Tree subtree => SumTree.append tree subtree cx
  | Loose fragments =>
      t ← (if bool_decide (1024 < length fragments) then from_par_iter fragments cx
           else SumTree.from_iter fragments cx);
      SumTree.append tree t cx
  end.

Definition to_sum_tree (self : FragmentBuilder) (cx : option Clock.Global) : option FragmentTree :=
  foldlM (append_chunk cx) (SumTree.new cx) (builder_chunks self).

(** ** Texts: the visible and the deleted one, from cursors over the old ones *)

Record RopeBuilder := mkRopeBuilder {
  old_visible_cursor : RopeCursor;
  old_deleted_cursor : RopeCursor;
  new_visible : Rope;
  new_deleted : Rope
}.

Definition rope_builder_new (old_visible_cursor old_deleted_cursor : RopeCursor) : RopeBuilder :=
  mkRopeBuilder old_visible_cursor old_deleted_cursor Rope_new Rope_new.

Definition ropes_push (self : RopeBuilder) (len : nat) (was_visible is_visible : bool) : option RopeBuilder :=
  '(self, text) ←
    (if was_visible then
       '(c, text) ← cursor_slice (old_visible_cursor self) (cursor_offset (old_visible_cursor self) + len);
       Some (mkRopeBuilder c (old_deleted_cursor self) (new_visible self) (new_deleted self), text)
     else
       '(c, text) ← cursor_slice (old_deleted_cursor self) (cursor_offset (old_deleted_cursor self) + len);
       Some (mkRopeBuilder (old_visible_cursor self) c (new_visible self) (new_deleted self), text));
  if is_visible then
    r ← Rope.append (new_visible self) text;
    Some (mkRopeBuilder (old_visible_cursor self) (old_deleted_cursor self) r (new_deleted self))
  else
    r ← Rope.append (new_deleted self) text;
    Some (mkRopeBuilder (old_visible_cursor self) (old_deleted_cursor self) (new_visible self) r).

Definition ropes_append (self : RopeBuilder) (len : FragmentTextSummary) : option RopeBuilder :=
  self ← ropes_push self (text_visible len) true true;
  ropes_push self (text_deleted len) false false.

Definition push_fragment (self : RopeBuilder) (fragment : Fragment) (was_visible : bool) : option RopeBuilder :=
  _ ← assert_ (bool_decide (0 < fragment_len fragment)%N);
  ropes_push self (as_usize (fragment_len fragment)) was_visible (visible fragment).

Definition ropes_push_str (self : RopeBuilder) (text : list Z) : option RopeBuilder :=
  r ← Rope.push (new_visible self) text;
  Some (mkRopeBuilder (old_visible_cursor self) (old_deleted_cursor self) r (new_deleted self)).

Definition finish (self : RopeBuilder) : option (Rope * Rope) :=
  suffix ← cursor_suffix (old_visible_cursor self);
  v ← Rope.append (new_visible self) suffix;
  suffix ← cursor_suffix (old_deleted_cursor self);
  d ← Rope.append (new_deleted self) suffix;
  Some (v, d).
