(* ===== verification/Splice.v ===== *)
(** The loop that both kinds of edits run over the fragments, of
    [apply_edit_internal] and [apply_remote_edit] of [crates/text/src/text.rs].

    Both walk the old fragments with a cursor and build the new fragments, the
    new texts and the lists of changes on the way; they differ in the dimension
    they walk by.  [Splice] has the variables of the loop.  [MAX_INSERTION_LEN]
    depends on the build. *)

From stdpp Require Import base numbers option list.
From S2P Require Import Prelude Clock Utf8 Locator SumTree Cursor Operation Fragment Builder.
From S2P Require KeyedTree Patch Rope.

#[local] Open Scope nat_scope.

(** [cfg!(test)]. *)
Class Build := cfg_test : bool.

Definition MAX_INSERTION_LEN `{Build} : N := if cfg_test then 16%N else (2 ^ 32 - 1)%N.

(** [Vec::sort_unstable_by_key], for every key. *)
Class Sort := sort_unstable_by_key : ∀ {A K : Type} `{Ord K}, (A → K) → list A → list A.

Definition sort_edits `{Sort} {T K} `{Ord K, KeyedTree.KeyedItem T K}
    : list (KeyedTree.Edit T K) → list (KeyedTree.Edit T K) :=
  sort_unstable_by_key KeyedTree.edit_key.

Record Splice (D : Type) := mkSplice {
  old_fragments : Cursor Fragment FragmentSummary D (option Global);
  fragment_start : nat;
  new_fragments : FragmentBuilder;
  new_ropes : RopeBuilder;
  new_insertions : list (KeyedTree.Edit InsertionFragment InsertionFragmentKey);
  insertion_slices : list InsertionSlice;
  next_insertion_offset : N;
  edits_patch : Patch.Patch
}.
Arguments mkSplice {D} _ _ _ _ _ _ _ _.
Arguments old_fragments {D} _.
Arguments fragment_start {D} _.
Arguments new_fragments {D} _.
Arguments new_ropes {D} _.
Arguments new_insertions {D} _.
Arguments insertion_slices {D} _.
Arguments next_insertion_offset {D} _.
Arguments edits_patch {D} _.

(** The fragment from [fragment_start] to [end_], [item_start] being the
    position of the item it is a part of. *)
Definition cut_fragment (f : Fragment) (item_start fragment_start end_ : nat) : option Fragment :=
  len ← usub end_ fragment_start;
  skipped ← usub fragment_start item_start;
  offset ← u32_add (insertion_offset f) (as_u32 skipped);
  Some (mkFragment (fragment_id f) (fragment_timestamp f) offset (as_u32 len) (visible f)
          (deletions f) (max_undos f)).

Definition set_id (f : Fragment) (id : Locator) : Fragment :=
  mkFragment id (fragment_timestamp f) (insertion_offset f) (fragment_len f) (visible f)
    (deletions f) (max_undos f).

Definition delete_fragment (f : Fragment) (timestamp : Lamport) : Fragment :=
  mkFragment (fragment_id f) (fragment_timestamp f) (insertion_offset f) (fragment_len f) false
    (deletions f ++ [timestamp]) (max_undos f).

Section splice.
Context {D Target : Type} `{!Dimension D FragmentSummary (option Global),
  !SeekTarget Target D (option Global)} (offset_of : D → option nat) (target_of : nat → Target) (bias : Bias).
Implicit Types st : Splice D.

Definition set_old_fragments st c : Splice D :=
  mkSplice c (fragment_start st) (new_fragments st) (new_ropes st) (new_insertions st)
    (insertion_slices st) (next_insertion_offset st) (edits_patch st).
Definition set_fragment_start st n : Splice D :=
  mkSplice (old_fragments st) n (new_fragments st) (new_ropes st) (new_insertions st)
    (insertion_slices st) (next_insertion_offset st) (edits_patch st).
Definition push_edit st (e : Patch.Edit) : Splice D :=
  mkSplice (old_fragments st) (fragment_start st) (new_fragments st) (new_ropes st) (new_insertions st)
    (insertion_slices st) (next_insertion_offset st) (Patch.push (edits_patch st) e).
Definition push_slice st (slice : InsertionSlice) : Splice D :=
  mkSplice (old_fragments st) (fragment_start st) (new_fragments st) (new_ropes st) (new_insertions st)
    (insertion_slices st ++ [slice]) (next_insertion_offset st) (edits_patch st).
Definition push_ropes st ropes : Splice D :=
  mkSplice (old_fragments st) (fragment_start st) (new_fragments st) ropes (new_insertions st)
    (insertion_slices st) (next_insertion_offset st) (edits_patch st).

(** [new_fragments.push(f)], and with the entry of its insertion. *)
Definition push_new st (f : Fragment) : Splice D :=
  mkSplice (old_fragments st) (fragment_start st) (builder_push (new_fragments st) f None) (new_ropes st)
    (new_insertions st) (insertion_slices st) (next_insertion_offset st) (edits_patch st).
Definition insert_fragment st (f : Fragment) : Splice D :=
  mkSplice (old_fragments st) (fragment_start st) (builder_push (new_fragments st) f None) (new_ropes st)
    (new_insertions st ++ [insert_new f]) (insertion_slices st) (next_insertion_offset st) (edits_patch st).

Definition item_start st : option nat := offset_of (start (old_fragments st)).
Definition item_end st : option nat := e ← end_ (old_fragments st); offset_of e.
Definition next_item st : option (Splice D) := c ← next (old_fragments st); Some (set_old_fragments st c).

(** A part of an old fragment, with its text. *)
Definition push_part st (f : Fragment) (was_visible : bool) : option (Splice D) :=
  ropes ← push_fragment (new_ropes st) f was_visible;
  Some (insert_fragment (push_ropes st ropes) f).

(** "If the current fragment has been partially consumed, then consume the
    rest of it and advance to the next fragment before slicing." *)
Definition finish_fragment st : option (Splice D) :=
  start ← item_start st;
  if bool_decide (start < fragment_start st) then
    fragment_end ← item_end st;
    st ← (if bool_decide (fragment_start st < fragment_end) then
            f ← item (old_fragments st); f ← f;
            suffix ← cut_fragment f start (fragment_start st) fragment_end;
            push_part st suffix (visible suffix)
          else Some st);
    next_item st
  else Some st.

(** "Jump ahead to the first fragment that extends past the start of this
    range, reusing any intervening fragments." *)
Definition skip_to st (range_start : nat) : option (Splice D) :=
  '(c, slice) ← slice (old_fragments st) (target_of range_start) bias;
  ropes ← ropes_append (new_ropes st) (text (SumTree.summary slice));
  fragment_start ← offset_of (start c);
  Some (mkSplice c fragment_start (builder_append (new_fragments st) slice None) ropes (new_insertions st)
          (insertion_slices st) (next_insertion_offset st) (edits_patch st)).

Definition catch_up st (range_start : nat) : option (Splice D) :=
  fragment_end ← item_end st;
  if bool_decide (fragment_end < range_start) then st ← finish_fragment st; skip_to st range_start
  else Some st.

Definition new_max_id st : Locator := max_id (builder_summary (new_fragments st)).
Definition new_visible_len st : nat := text_visible (text (builder_summary (new_fragments st))).

(** "Preserve any portion of the current fragment that precedes this range." *)
Definition push_prefix st (range_start : nat) : option (Splice D) :=
  if bool_decide (fragment_start st < range_start) then
    f ← item (old_fragments st); f ← f;
    start ← item_start st;
    prefix ← cut_fragment f start (fragment_start st) range_start;
    id ← Locator.between (new_max_id st) (fragment_id prefix);
    st ← push_part st (set_id prefix id) (visible prefix);
    Some (set_fragment_start st range_start)
  else Some st.

(** ** New text *)

Context `{Build}.

(** The loop of [push_fragments_for_insertion]: pieces of at most
    [MAX_INSERTION_LEN] bytes. *)
Fixpoint insertion_loop (fuel : nat) st (new_text : list Z) (timestamp : Lamport)
    (next_fragment_id : Locator) (text_offset : nat) : option (Splice D) :=
  if bool_decide (text_offset < length new_text) then
    match fuel with
    | O => None
    | S fuel =>
        let target_end := as_usize (N.min (N.of_nat (length new_text)) (N.of_nat text_offset + MAX_INSERTION_LEN)) in
        let chunk_end :=
          if bool_decide (target_end = length new_text) then target_end
          else floor_char_boundary new_text target_end in
        if bool_decide (chunk_end = text_offset) then Some st
        else
          chunk_len ← usub chunk_end text_offset;
          id ← Locator.between (new_max_id st) next_fragment_id;
          let fragment := mkFragment id timestamp (next_insertion_offset st) (as_u32 chunk_len) true [] Global_new in
          slice ← from_fragment timestamp fragment;
          let st := insert_fragment (push_slice st slice) fragment in
          offset ← u32_add (next_insertion_offset st) (as_u32 chunk_len);
          insertion_loop fuel
            (mkSplice (old_fragments st) (fragment_start st) (new_fragments st) (new_ropes st)
               (new_insertions st) (insertion_slices st) offset (edits_patch st))
            new_text timestamp next_fragment_id chunk_end
    end
  else Some st.

Definition push_fragments_for_insertion st (new_text : list Z) (timestamp : Lamport)
    (next_fragment_id : Locator) : option (Splice D) :=
  st ← insertion_loop (length new_text) st new_text timestamp next_fragment_id 0;
  ropes ← ropes_push_str (new_ropes st) new_text;
  Some (push_ropes st ropes).

(** "Insert the new text before any existing fragments within the range." *)
Definition insert_text st (new_text : list Z) (timestamp : Lamport) (old_start : nat) : option (Splice D) :=
  if bool_decide (length new_text = 0) then Some st
  else
    let new_start := new_visible_len st in
    old_fragment ← item (old_fragments st);
    let next_fragment_id := match old_fragment with Some f => fragment_id f | None => Locator_max end in
    st ← push_fragments_for_insertion st new_text timestamp next_fragment_id;
    Some (push_edit st (Patch.mkEdit (Patch.mkRange old_start old_start)
                          (Patch.mkRange new_start (new_start + length new_text)))).

(** The end of both loops: the rest of the current fragment, then of the tree. *)
Definition finish_splice st : option (FragmentTree * (Rope.Rope * Rope.Rope) * Splice D) :=
  st ← finish_fragment st;
  '(_, suffix) ← suffix (old_fragments st);
  ropes ← ropes_append (new_ropes st) (text (SumTree.summary suffix));
  texts ← finish ropes;
  fragments ← to_sum_tree (builder_append (new_fragments st) suffix None) None;
  Some (fragments, texts, st).
End splice.
