(* ===== verification/Snapshot.v ===== *)
(** The state of a text buffer and its local edits: [BufferSnapshot] and
    [apply_edit_internal] of [crates/text/src/text.rs].

    New text has its line endings normalized first. *)

From stdpp Require Import base numbers option list.
From S2P Require Import Prelude TreeMap Clock Locator SumTree Cursor Operation Fragment Builder Splice LineEnding.
From S2P Require KeyedTree Patch Rope UndoMap.

#[local] Open Scope nat_scope.

Record BufferSnapshot := mkSnapshot {
  visible_text : Rope.Rope;
  deleted_text : Rope.Rope;
  fragments : FragmentTree;
  insertions : SumTree InsertionFragment InsertionFragmentKey;
  snapshot_insertion_slices : TreeMap.TreeSet InsertionSlice;
  undo_map : UndoMap.UndoMap;
  version : Global;
  remote_id : N;
  snapshot_replica_id : ReplicaId;
  line_ending : LineEnding
}.

(** The fields an edit replaces. *)
Definition set_texts (self : BufferSnapshot) (fragments : FragmentTree) (texts : Rope.Rope * Rope.Rope)
    (insertions : SumTree InsertionFragment InsertionFragmentKey) (slices : TreeMap.TreeSet InsertionSlice)
    : BufferSnapshot :=
  mkSnapshot texts.1 texts.2 fragments insertions slices (undo_map self) (version self)
    (remote_id self) (snapshot_replica_id self) (line_ending self).

(** The assignments at the end of both kinds of edits. *)
Definition install `{Sort} {D} (self : BufferSnapshot) (fragments : FragmentTree) (texts : Rope.Rope * Rope.Rope)
    (st : Splice D) : option BufferSnapshot :=
  '(insertions, _) ← KeyedTree.edit sort_edits (insertions self) (new_insertions st) ();
  slices ← TreeMap.set_extend sort_edits (snapshot_insertion_slices self) (insertion_slices st);
  Some (set_texts self fragments texts insertions slices).

(** ** Local edits *)

Section local_edit.
Context `{Build, Sort}.

Abbreviation LocalSplice := (Splice FragmentTextSummary) (only parsing).
Implicit Types st : LocalSplice.

Definition visible_offset (s : FragmentTextSummary) : option nat := Some (text_visible s).

(** One turn of the loop that deletes the range up to [range_end]. *)
Definition delete_step st (timestamp : Lamport) (range_end : nat) : option LocalSplice :=
  fragment ← item (old_fragments st); fragment ← fragment;
  fragment_end ← item_end visible_offset st;
  start ← item_start visible_offset st;
  let intersection_end := range_end `min` fragment_end in
  intersection ←
    (if visible fragment then
       f ← cut_fragment fragment start (fragment_start st) intersection_end;
       id ← Locator.between (new_max_id st) (fragment_id f);
       Some (delete_fragment (set_id f id) timestamp)
     else Some fragment);
  st ← (if bool_decide (0 < fragment_len intersection)%N then
          st ← (if visible fragment && negb (visible intersection) then
                  let new_start := new_visible_len st in
                  slice ← from_fragment timestamp intersection;
                  Some (push_slice (push_edit st (Patch.mkEdit
                    (Patch.mkRange (fragment_start st) intersection_end)
                    (Patch.mkRange new_start new_start))) slice)
                else Some st);
          st ← push_part st intersection (visible fragment);
          Some (set_fragment_start st intersection_end)
        else Some st);
  if bool_decide (fragment_end ≤ range_end) then next_item st else Some st.

(** Every turn leaves the fragment or ends the range. *)
Fixpoint delete_loop (fuel : nat) st (timestamp : Lamport) (range_end : nat) : option LocalSplice :=
  if bool_decide (fragment_start st < range_end) then
    match fuel with
    | O => None
    | S fuel => st ← delete_step st timestamp range_end; delete_loop fuel st timestamp range_end
    end
  else Some st.

Definition delete_fuel {D} (st : Splice D) : nat := S (tree_size (cursor_tree (old_fragments st))).

(** One edit: the state, and what it adds to the operation. *)
Definition local_edit st (timestamp : Lamport) (edit : (nat * nat) * list Z)
    : option (LocalSplice * (FullOffset * FullOffset) * list Z) :=
  let '((range_start, range_end), new_text) := edit in
  let new_text := normalize new_text in
  st ← catch_up visible_offset id Right st range_start;
  let full_range_start := MkFullOffset (range_start + text_deleted (start (old_fragments st))) in
  st ← push_prefix visible_offset st range_start;
  st ← insert_text st new_text timestamp (fragment_start st);
  st ← delete_loop (delete_fuel st) st timestamp range_end;
  let full_range_end := MkFullOffset (range_end + text_deleted (start (old_fragments st))) in
  Some (st, (full_range_start, full_range_end), new_text).

Definition local_edits st (timestamp : Lamport) (edits : list ((nat * nat) * list Z))
    : option (LocalSplice * list (FullOffset * FullOffset) * list (list Z)) :=
  foldlM (λ '(st, ranges, texts) edit,
      '(st, range, text) ← local_edit st timestamp edit;
      Some (st, ranges ++ [range], texts ++ [text]))
    (st, [], []) edits.

(** The variables before the loop: the fragments before the first edit are
    taken over as they are. *)
Definition local_splice (self : BufferSnapshot) (first_start : nat) : option LocalSplice :=
  visible_cursor ← Rope.cursor (visible_text self) 0;
  deleted_cursor ← Rope.cursor (deleted_text self) 0;
  '(c, init) ← slice (cursor_new (fragments self) None) first_start Right;
  let new_fragments := fragment_builder_new init in
  ropes ← ropes_append (rope_builder_new visible_cursor deleted_cursor) (text (builder_summary new_fragments));
  Some (mkSplice c (text_visible (start c)) new_fragments ropes [] [] 0 Patch.empty).

Definition apply_edit_internal (self : BufferSnapshot) (edits : list ((nat * nat) * list Z)) (timestamp : Lamport)
    : option (BufferSnapshot * EditOperation * Patch.Patch) :=
  match edits with
  | [] => Some (self, mkEditOperation timestamp (version self) [] [], Patch.empty)
  | ((first_start, _), _) :: _ =>
      st ← local_splice self first_start;
      '(st, ranges, texts) ← local_edits st timestamp edits;
      '(fragments, ropes, st) ← finish_splice visible_offset st;
      self' ← install self fragments ropes st;
      Some (self', mkEditOperation timestamp (version self) ranges texts, edits_patch st)
  end.
End local_edit.
