(* ===== verification/Remote.v ===== *)
(** Remote edits and undos of a text buffer: [apply_remote_edit],
    [fragment_ids_for_edits] and [apply_undo] of [crates/text/src/text.rs].

    Both return the patch that the buffer then publishes to its subscribers. *)

From stdpp Require Import base numbers option list.
From S2P Require Import Prelude UndoMap TreeMap Clock Locator SumTree Cursor Operation Fragment Builder Splice Snapshot.
From S2P Require KeyedTree Patch Rope.

#[local] Open Scope nat_scope.

(** [Dimensions<VersionedFullOffset, usize>]: the offset in the full text of a
    version, and the visible offset. *)
Abbreviation RemoteDim := (VersionedFullOffset * nat)%type (only parsing).

Definition remote_offset (d : RemoteDim) : option nat := versioned_full_offset d.1.
Definition remote_target (n : nat) : VersionedFullOffset := Offset (MkFullOffset n).

Section remote_edit.
Context `{Build, Sort}.

Abbreviation RemoteSplice := (Splice RemoteDim) (only parsing).
Implicit Types st : RemoteSplice.

(** "If we are at the end of a non-concurrent fragment, advance to the next
    one." *)
Definition end_fragment st (range_start : nat) : option RemoteSplice :=
  fragment_end ← item_end remote_offset st;
  if bool_decide (fragment_end = range_start) && bool_decide (fragment_start st < fragment_end) then
    f ← item (old_fragments st); f ← f;
    start ← item_start remote_offset st;
    fragment ← cut_fragment f start (fragment_start st) fragment_end;
    st ← push_part st fragment (visible fragment);
    st ← next_item st;
    start ← item_start remote_offset st;
    Some (set_fragment_start st start)
  else Some st.

(** "Skip over insertions that are concurrent to this edit, but have a higher
    lamport timestamp." *)
Fixpoint skip_concurrent (fuel : nat) st (range_start : nat) (timestamp : Lamport) : option RemoteSplice :=
  f ← item (old_fragments st);
  match f with
  | Some fragment =>
      if bool_decide (fragment_start st = range_start) &&
         bool_decide (cmp (fragment_timestamp fragment) timestamp = Gt)
      then
        match fuel with
        | O => None
        | S fuel =>
            ropes ← push_fragment (new_ropes st) fragment (visible fragment);
            st ← next_item (push_new (push_ropes st ropes) fragment);
            skip_concurrent fuel st range_start timestamp
        end
      else Some st
  | None => Some st
  end.

(** The visible offset of [fragment_start]. *)
Definition visible_start st : option nat :=
  start ← item_start remote_offset st;
  skipped ← usub (fragment_start st) start;
  Some ((Cursor.start (old_fragments st)).2 + skipped).

(** [old_start] of the edit that inserts the new text. *)
Definition insertion_start st : option nat :=
  f ← item (old_fragments st);
  if match f with Some f => visible f | None => false end then visible_start st
  else Some (Cursor.start (old_fragments st)).2.

Section delete.
Context (version : Global) (undos : UndoMap.UndoMap) (timestamp : Lamport).

Definition remote_delete_step st (range_end : nat) : option RemoteSplice :=
  fragment ← item (old_fragments st); fragment ← fragment;
  fragment_end ← item_end remote_offset st;
  start ← item_start remote_offset st;
  let intersection_end := range_end `min` fragment_end in
  '(st, intersection) ←
    (if observed version (fragment_timestamp fragment) then
       f ← cut_fragment fragment start (fragment_start st) intersection_end;
       id ← Locator.between (new_max_id st) (fragment_id f);
       let f := set_id f id in
       was ← was_visible fragment version undos;
       if (was : bool) then
         let f := delete_fragment f timestamp in
         slice ← from_fragment timestamp f;
         Some (push_slice st slice, f)
       else Some (st, f)
     else Some (st, fragment));
  st ← (if bool_decide (0 < fragment_len intersection)%N then
          st ← (if visible fragment && negb (visible intersection) then
                  old_start ← visible_start st;
                  let new_start := new_visible_len st in
                  Some (push_edit st (Patch.mkEdit
                    (Patch.mkRange old_start (old_start + as_usize (fragment_len intersection)))
                    (Patch.mkRange new_start new_start)))
                else Some st);
          st ← push_part st intersection (visible fragment);
          Some (set_fragment_start st intersection_end)
        else Some st);
  if bool_decide (fragment_end ≤ range_end) then next_item st else Some st.

Fixpoint remote_delete_loop (fuel : nat) st (range_end : nat) : option RemoteSplice :=
  if bool_decide (fragment_start st < range_end) then
    match fuel with
    | O => None
    | S fuel => st ← remote_delete_step st range_end; remote_delete_loop fuel st range_end
    end
  else Some st.

Definition remote_edit st (edit : (FullOffset * FullOffset) * list Z) : option RemoteSplice :=
  let '((range_start, range_end), new_text) := edit in
  let range_start := full_offset range_start in
  st ← catch_up remote_offset remote_target Left st range_start;
  st ← end_fragment st range_start;
  st ← skip_concurrent (delete_fuel st) st range_start timestamp;
  _ ← assert_ (bool_decide (fragment_start st ≤ range_start));
  st ← push_prefix remote_offset st range_start;
  old_start ← (if bool_decide (length new_text = 0) then Some 0 else insertion_start st);
  st ← insert_text st new_text timestamp old_start;
  remote_delete_loop (delete_fuel st) st (full_offset range_end).
End delete.

Definition remote_splice (self : BufferSnapshot) (version : Global) (first_start : FullOffset) : option RemoteSplice :=
  visible_cursor ← Rope.cursor (visible_text self) 0;
  deleted_cursor ← Rope.cursor (deleted_text self) 0;
  '(c, init) ← slice (cursor_new (fragments self) (Some version)) (Offset first_start) Left;
  let new_fragments := fragment_builder_new init in
  ropes ← ropes_append (rope_builder_new visible_cursor deleted_cursor) (text (builder_summary new_fragments));
  fragment_start ← remote_offset (start c);
  Some (mkSplice c fragment_start new_fragments ropes [] [] 0 Patch.empty).

Definition apply_remote_edit (self : BufferSnapshot) (version : Global) (ranges : list (FullOffset * FullOffset))
    (new_text : list (list Z)) (timestamp : Lamport) : option (BufferSnapshot * Patch.Patch) :=
  match ranges with
  | [] => Some (self, Patch.empty)
  | (first_start, _) :: _ =>
      st ← remote_splice self version first_start;
      st ← foldlM (remote_edit version (undo_map self) timestamp) st (zip ranges new_text);
      '(fragments, ropes, st) ← finish_splice remote_offset st;
      self' ← install self fragments ropes st;
      Some (self', edits_patch st)
  end.
End remote_edit.

(** ** Undo *)

Record Reverse (A : Type) := MkReverse { reversed : A }.
Arguments MkReverse {A} _.
Arguments reversed {A} _.
#[export] Instance Reverse_Ord {A} `{Ord A} : Ord (Reverse A) := λ a b, cmp (reversed b) (reversed a).

Section undo.
Context `{Sort}.

(** [iter_from(first).take_while(|slice| slice.edit_id == edit_id)]. *)
Fixpoint take_slices (fuel : nat) (c : Cursor (MapEntry InsertionSlice ()) (MapKey InsertionSlice) (MapKeyRef InsertionSlice) ())
    (edit_id : Lamport) : option (list InsertionSlice) :=
  '(c, entry) ← iter_from_next c;
  match entry with
  | Some (slice, _) =>
      if bool_decide (slice_edit_id slice = edit_id) then
        match fuel with
        | O => None
        | S fuel => rest ← take_slices fuel c edit_id; Some (slice :: rest)
        end
      else Some []
  | None => Some []
  end.

Definition slices_for_edit (slices : TreeSet InsertionSlice) (edit_id : Lamport) : option (list InsertionSlice) :=
  c ← iter_from slices (mkInsertionSlice edit_id Lamport_MIN 0 0);
  take_slices (tree_size slices) c edit_id.

Definition slice_sort_key (s : InsertionSlice) : Lamport * (N * Reverse N) :=
  (slice_insertion_id s, (slice_start s, MkReverse (slice_end s))).

Abbreviation InsertionCursor :=
  (Cursor InsertionFragment InsertionFragmentKey InsertionFragmentKey ()) (only parsing).

(** The fragments of a slice, from where the cursor is. *)
Fixpoint slice_ids (fuel : nat) (c : InsertionCursor) (s : InsertionSlice) (ids : list Locator)
    : option (InsertionCursor * list Locator) :=
  i ← item c;
  match i with
  | Some i =>
      if bool_decide (insertion_timestamp i ≠ slice_insertion_id s) ||
         bool_decide (slice_end s ≤ split_offset i)%N
      then Some (c, ids)
      else
        match fuel with
        | O => None
        | S fuel => c ← next c; slice_ids fuel c s (ids ++ [insertion_fragment_id i])
        end
  | None => Some (c, ids)
  end.

Definition slice_step (st : InsertionCursor * list Locator) (s : InsertionSlice)
    : option (InsertionCursor * list Locator) :=
  let '(c, ids) := st in
  c ← (if bool_decide (slice_insertion_id s ≠ key_timestamp (start c)) ||
          bool_decide (key_split_offset (start c) < slice_start s)%N
       then '(c, _) ← seek_forward c (mkInsertionFragmentKey (slice_insertion_id s) (slice_start s)) Left; Some c
       else Some c);
  slice_ids (tree_size (cursor_tree c)) c s ids.

Definition fragment_ids_for_edits (self : BufferSnapshot) (edit_ids : list Lamport) : option (list Locator) :=
  slices ← mapM (slices_for_edit (snapshot_insertion_slices self)) edit_ids;
  let slices := sort_unstable_by_key slice_sort_key (concat slices) in
  '(_, ids) ← foldlM slice_step (cursor_new (insertions self) () : InsertionCursor, []) slices;
  Some (sort_unstable_by_key (λ id : Locator, id) ids).

(** The variables of the loop of [apply_undo]. *)
Record UndoSplice := mkUndoSplice {
  undo_old_fragments : Cursor Fragment FragmentSummary (option Locator * nat) (option Global);
  undo_new_fragments : FragmentTree;
  undo_ropes : RopeBuilder;
  undo_edits : Patch.Patch
}.

Definition set_visible (f : Fragment) (v : bool) (timestamp : Lamport) : Fragment :=
  mkFragment (fragment_id f) (fragment_timestamp f) (insertion_offset f) (fragment_len f) v
    (deletions f) (Global_observe (max_undos f) timestamp).

Definition undo_step (undos : UndoMap.UndoMap) (timestamp : Lamport) (st : UndoSplice) (id : Locator)
    : option UndoSplice :=
  '(c, preceding) ← slice (undo_old_fragments st) (Some id) Left;
  ropes ← ropes_append (undo_ropes st) (text (SumTree.summary preceding));
  new ← SumTree.append (undo_new_fragments st) preceding None;
  f ← item c;
  match f with
  | Some f =>
      let fragment_was_visible := visible f in
      v ← is_visible f undos;
      let f := set_visible f v timestamp in
      let old_start := (start c).2 in
      let new_start := text_visible (text (SumTree.summary new)) in
      let len := as_usize (fragment_len f) in
      let edits :=
        if fragment_was_visible && negb v then
          Patch.push (undo_edits st) (Patch.mkEdit (Patch.mkRange old_start (old_start + len)) (Patch.mkRange new_start new_start))
        else if negb fragment_was_visible && v then
          Patch.push (undo_edits st) (Patch.mkEdit (Patch.mkRange old_start old_start) (Patch.mkRange new_start (new_start + len)))
        else undo_edits st in
      ropes ← push_fragment ropes f fragment_was_visible;
      new ← SumTree.push new f None;
      c ← next c;
      Some (mkUndoSplice c new ropes edits)
  | None => Some (mkUndoSplice c new ropes (undo_edits st))
  end.

Definition apply_undo (self : BufferSnapshot) (undo : UndoOperation) : option (BufferSnapshot * Patch.Patch) :=
  m ← UndoMap.insert sort_edits (undo_map self) undo;
  visible_cursor ← Rope.cursor (visible_text self) 0;
  deleted_cursor ← Rope.cursor (deleted_text self) 0;
  ids ← fragment_ids_for_edits self (map fst (counts undo));
  st ← foldlM (undo_step m (undo_timestamp undo))
    (mkUndoSplice (cursor_new (fragments self) None) (SumTree.new None)
       (rope_builder_new visible_cursor deleted_cursor) Patch.empty) ids;
  '(_, suffix) ← suffix (undo_old_fragments st);
  ropes ← ropes_append (undo_ropes st) (text (SumTree.summary suffix));
  new ← SumTree.append (undo_new_fragments st) suffix None;
  texts ← finish ropes;
  Some (mkSnapshot texts.1 texts.2 new (insertions self) (snapshot_insertion_slices self) m (version self)
          (remote_id self) (snapshot_replica_id self) (line_ending self), undo_edits st).
End undo.
