(* ===== verification/OperationQueue.v ===== *)
(** The queue of deferred operations:
    [crates/text/src/operation_queue.rs].

    The code asserts that the keys it sums up ascend; the queue's tree is
    sorted by the timestamps and its sums go from left to right, so [key] is
    the last one.  [add_summary] does not model the assertions; that they hold
    wherever the sums of adjacent parts of a queue are added is
    [QueueFacts.queue_sums_ascend] (the buffer's timestamps are above the
    minimum). *)

From stdpp Require Import base numbers option list.
From S2P Require Import Prelude Clock SumTree Search KeyedTree.
From S2P Require Cursor Iter.

Class HasTimestamp (T : Type) := lamport_timestamp : T → Lamport.

Record OperationItem (T : Type) := MkOperationItem { queued : T }.
Arguments MkOperationItem {T} _.
Arguments queued {T} _.

Record OperationKey := MkOperationKey { operation_timestamp : Lamport }.
#[export] Instance OperationKey_Ord : Ord OperationKey := λ a b, cmp (operation_timestamp a) (operation_timestamp b).

Record OperationSummary := mkOperationSummary { summary_key : OperationKey; summary_len : nat }.

#[export] Instance OperationSummary_Summary : Summary OperationSummary () := {
  summary_zero := λ _, mkOperationSummary (MkOperationKey Lamport_MIN) 0;
  add_summary := λ self other _,
    mkOperationSummary (summary_key other) (summary_len self + summary_len other)
}.

#[export] Instance OperationKey_Dimension : Dimension OperationKey OperationSummary () := {
  dim_zero := λ _, MkOperationKey Lamport_MIN;
  dim_add_summary := λ _ summary _, summary_key summary
}.

#[export] Instance OperationItem_Item {T} `{HasTimestamp T} : Item (OperationItem T) OperationSummary () :=
  λ self _, mkOperationSummary (MkOperationKey (lamport_timestamp (queued self))) 1.

#[export] Instance OperationItem_KeyedItem {T} `{HasTimestamp T} : KeyedItem (OperationItem T) OperationKey :=
  λ self, MkOperationKey (lamport_timestamp (queued self)).

(** [Vec::dedup_by_key]: the first of consecutive elements of one key stays. *)
Fixpoint dedup_from {A K} `{Ord K} (f : A → K) (last : A) (l : list A) : list A :=
  match l with
  | [] => [last]
  | a :: l =>
      if bool_decide (cmp (f a) (f last) = Eq) then dedup_from f last l else last :: dedup_from f a l
  end.
Definition dedup_by_key {A K} `{Ord K} (f : A → K) (l : list A) : list A :=
  match l with [] => [] | a :: l => dedup_from f a l end.

Section queue.
Context {T : Type} `{HasTimestamp T}.

Definition OperationQueue : Type := SumTree (OperationItem T) OperationSummary.

Definition queue_new : OperationQueue := SumTree.new ().

Definition queue_len (self : OperationQueue) : nat := summary_len (SumTree.summary self).

Definition queue_is_empty (self : OperationQueue) : bool := bool_decide (queue_len self = 0).

Context (sort_ops : list T → list T)
  (sort_edits : list (Edit (OperationItem T) OperationKey) → list (Edit (OperationItem T) OperationKey)).

Definition queue_insert (self : OperationQueue) (ops : list T) : option OperationQueue :=
  let ops := dedup_by_key lamport_timestamp (sort_ops ops) in
  '(t, _) ← edit sort_edits self (map (λ op, Insert (MkOperationItem op)) ops) (); Some t.

(** The queue left and the queue taken. *)
Definition queue_drain (self : OperationQueue) : OperationQueue * OperationQueue := (queue_new, self).

Definition queue_iter (self : OperationQueue) : option (list T) :=
  l ← Iter.iter_collect (Cursor.tree_size self) (Iter.iter_new self); Some (map queued l).
End queue.
Arguments OperationQueue T : clear implicits.
