(* ===== verification/Buffer.v ===== *)
(** The buffer: [Buffer] of [crates/text/src/text.rs], its construction, its
    edits, the operations it receives, and undo.

    Ranges are given as offsets, as [to_offset] returns them.  [Instant::now()]
    is an argument.  The channels of callers that wait for an edit or a version
    are left out: nothing is read back from them. *)

From stdpp Require Import base numbers option list gmap.
From S2P Require Import Prelude UndoMap TreeMap Clock Locator SumTree Cursor Operation History Fragment Builder Splice LineEnding Snapshot Remote OperationQueue.
From S2P Require KeyedTree Patch Rope Subscription.

#[local] Open Scope nat_scope.

#[export] Instance Operation_HasTimestamp : HasTimestamp Operation := timestamp.

Record Buffer := mkBuffer {
  snapshot : BufferSnapshot;
  history : History;
  deferred_ops : OperationQueue Operation;
  deferred_replicas : gset N;
  lamport_clock : Lamport;
  subscriptions : Subscription.Topic
}.

(** Assignments to one field. *)
Definition with_snapshot (self : Buffer) (s : BufferSnapshot) : Buffer :=
  mkBuffer s (history self) (deferred_ops self) (deferred_replicas self) (lamport_clock self) (subscriptions self).
Definition with_history (self : Buffer) (h : History) : Buffer :=
  mkBuffer (snapshot self) h (deferred_ops self) (deferred_replicas self) (lamport_clock self) (subscriptions self).
Definition with_deferred (self : Buffer) (ops : OperationQueue Operation) (replicas : gset N) : Buffer :=
  mkBuffer (snapshot self) (history self) ops replicas (lamport_clock self) (subscriptions self).
Definition with_clock (self : Buffer) (clock : Lamport) : Buffer :=
  mkBuffer (snapshot self) (history self) (deferred_ops self) (deferred_replicas self) clock (subscriptions self).
Definition with_subscriptions (self : Buffer) (t : Subscription.Topic) : Buffer :=
  mkBuffer (snapshot self) (history self) (deferred_ops self) (deferred_replicas self) (lamport_clock self) t.

Definition with_version (s : BufferSnapshot) (v : Global) : BufferSnapshot :=
  mkSnapshot (visible_text s) (deleted_text s) (fragments s) (insertions s) (snapshot_insertion_slices s)
    (undo_map s) v (remote_id s) (snapshot_replica_id s) (line_ending s).

Definition observe_version (self : Buffer) (t : Lamport) : Buffer :=
  with_snapshot self (with_version (snapshot self) (Global_observe (version (snapshot self)) t)).

(** ** Construction *)

Section new.
Context `{Build}.

(** The loop of [new_normalized] over the text. *)
Fixpoint base_loop (fuel : nat) (text : Rope.Rope) (timestamp : Lamport) (offset : N) (text_offset : nat)
    (prev_locator : Locator) (insertions : SumTree InsertionFragment InsertionFragmentKey) (fragments : FragmentTree)
    : option (SumTree InsertionFragment InsertionFragmentKey * FragmentTree) :=
  if bool_decide (text_offset < Rope.len text) then
    match fuel with
    | O => None
    | S fuel =>
        let target_end := as_usize (N.min (N.of_nat (Rope.len text)) (N.of_nat text_offset + MAX_INSERTION_LEN)) in
        chunk_end ←
          (if bool_decide (target_end = Rope.len text) then Some target_end
           else Rope.floor_char_boundary text target_end);
        chunk_len ← usub chunk_end text_offset;
        id ← Locator.between prev_locator Locator_max;
        let fragment := mkFragment id timestamp offset (as_u32 chunk_len) true [] Global_new in
        insertions ← SumTree.push insertions (insertion_fragment_new fragment) ();
        fragments ← SumTree.push fragments fragment None;
        offset ← u32_add offset (as_u32 chunk_len);
        base_loop fuel text timestamp offset chunk_end id insertions fragments
    end
  else Some (insertions, fragments).

Definition new_normalized (replica_id : ReplicaId) (remote_id : N) (line_ending : LineEnding) (normalized : Rope.Rope)
    : option Buffer :=
  let history := History.new normalized in
  let visible_text := base_text history in
  '(insertions, fragments, version, clock) ←
    (if negb (Rope.is_empty visible_text) then
       let insertion_timestamp := Lamport_new LOCAL in
       '(insertions, fragments) ←
         base_loop (Rope.len visible_text) visible_text insertion_timestamp 0 0 Locator_min (SumTree.new ()) (SumTree.new None);
       Some (insertions, fragments, Global_observe Global_new insertion_timestamp,
             Lamport_observe (Lamport_new replica_id) insertion_timestamp)
     else Some (SumTree.new (), SumTree.new None, Global_new, Lamport_new replica_id));
  Some (mkBuffer
    (mkSnapshot visible_text Rope.Rope_new fragments insertions (SumTree.new ()) undo_map_default version remote_id
       replica_id line_ending)
    history queue_new ∅ clock Subscription.topic_default).

Definition Buffer_new `{Platform} (replica_id : ReplicaId) (remote_id : N) (base_text : list Z) : option Buffer :=
  let line_ending := detect base_text in
  text ← Rope.from_text (normalize base_text);
  new_normalized replica_id remote_id line_ending text.
End new.

Definition set_line_ending (self : Buffer) (line_ending : LineEnding) : Buffer :=
  let s := snapshot self in
  with_snapshot self (mkSnapshot (visible_text s) (deleted_text s) (fragments s) (insertions s) (snapshot_insertion_slices s)
    (undo_map s) (version s) (remote_id s) (snapshot_replica_id s) line_ending).

Definition branch (self : Buffer) : Buffer :=
  mkBuffer (snapshot self) (History.new (base_text (history self))) queue_new ∅ (Lamport_new LOCAL_BRANCH)
    Subscription.topic_default.

(** ** Transactions *)

Definition start_transaction_at (self : Buffer) (now : Instant) : Buffer * option TransactionId :=
  let '(h, clock, id) := start_transaction (history self) (version (snapshot self)) now (lamport_clock self) in
  (with_clock (with_history self h) clock, id).

Definition end_transaction_at (self : Buffer) (now : Instant) : option (Buffer * option (TransactionId * Global)) :=
  '(h, entry) ← end_transaction (history self) now;
  match entry with
  | Some entry =>
      let since := History.start (transaction entry) in
      '(h, id) ← group h;
      id ← id;
      Some (with_history self h, Some (id, since))
  | None => Some (with_history self h, None)
  end.

Definition push_empty_transaction (self : Buffer) (now : Instant) : option (Buffer * TransactionId) :=
  '(h, clock, id) ← History.push_empty_transaction (history self) (version (snapshot self)) now (lamport_clock self);
  Some (with_clock (with_history self h) clock, id).

Section edits.
Context `{Build, Sort}.

(** [self.subscriptions.publish_mut(&edits)]. *)
Definition publish (self : Buffer) (edits : Patch.Patch) : option Buffer :=
  t ← Subscription.publish (subscriptions self) edits; Some (with_subscriptions self t).

(** ** Local edits *)

Definition apply_local_edit (self : Buffer) (edits : list ((nat * nat) * list Z)) (timestamp : Lamport)
    : option (Buffer * EditOperation) :=
  '(s, edit_op, edits_patch) ← apply_edit_internal (snapshot self) edits timestamp;
  self ← publish (with_snapshot self s) edits_patch;
  Some (self, edit_op).

Definition buffer_edit (self : Buffer) (edits : list ((nat * nat) * list Z)) (start_at end_at : Instant)
    : option (Buffer * Operation) :=
  let '(self, _) := start_transaction_at self start_at in
  let '(timestamp, clock) := tick (lamport_clock self) in
  '(self, edit) ← apply_local_edit (with_clock self clock) edits timestamp;
  let operation := OpEdit edit in
  h ← History.push (history self) operation;
  h ← push_undo h (Operation.timestamp operation);
  let self := observe_version (with_history self h) (Operation.timestamp operation) in
  '(self, _) ← end_transaction_at self end_at;
  Some (self, operation).

(** ** Remote operations *)

Definition apply_remote_edit (self : Buffer) (edit : EditOperation) : option Buffer :=
  match ranges edit with
  | [] => Some self
  | _ =>
      '(s, edits_patch) ← Remote.apply_remote_edit (snapshot self) (edit_version edit) (ranges edit) (new_text edit)
                            (edit_timestamp edit);
      publish (with_snapshot self s) edits_patch
  end.

Definition apply_undo (self : Buffer) (undo : UndoOperation) : option Buffer :=
  '(s, edits) ← Remote.apply_undo (snapshot self) undo;
  publish (with_snapshot self s) edits.

Definition apply_op (self : Buffer) (op : Operation) : option Buffer :=
  match op with
  | OpEdit edit =>
      if observed (version (snapshot self)) (edit_timestamp edit) then Some self
      else
        self ← apply_remote_edit self edit;
        let self := observe_version self (edit_timestamp edit) in
        Some (with_clock self (Lamport_observe (lamport_clock self) (edit_timestamp edit)))
  | OpUndo undo =>
      if observed (version (snapshot self)) (undo_timestamp undo) then Some self
      else
        self ← apply_undo self undo;
        let self := observe_version self (undo_timestamp undo) in
        Some (with_clock self (Lamport_observe (lamport_clock self) (undo_timestamp undo)))
  end.

Definition operation_version (op : Operation) : Global :=
  match op with OpEdit edit => edit_version edit | OpUndo undo => undo_version undo end.

Definition operation_replica (op : Operation) : ReplicaId := Clock.replica_id (Operation.timestamp op).

Definition can_apply_op (self : Buffer) (op : Operation) : bool :=
  if bool_decide (operation_replica op ∈ deferred_replicas self) then false
  else observed_all (version (snapshot self)) (operation_version op).

(** One operation: applied, or deferred together with its replica. *)
Definition apply_or_defer (st : Buffer * list Operation) (op : Operation) : option (Buffer * list Operation) :=
  let '(self, deferred) := st in
  if can_apply_op self op then self ← apply_op self op; Some (self, deferred)
  else Some (with_deferred self (deferred_ops self) ({[operation_replica op]} ∪ deferred_replicas self), deferred ++ [op]).

Definition defer (self : Buffer) (ops : list Operation) : option Buffer :=
  q ← queue_insert (sort_unstable_by_key Operation.timestamp) sort_edits (deferred_ops self) ops;
  Some (with_deferred self q (deferred_replicas self)).

Definition flush_deferred_ops (self : Buffer) : option Buffer :=
  let '(q, drained) := queue_drain (deferred_ops self) in
  ops ← queue_iter drained;
  '(self, deferred) ← foldlM apply_or_defer (with_deferred self q ∅, []) ops;
  defer self deferred.

Definition apply_ops (self : Buffer) (ops : list Operation) : option Buffer :=
  '(self, deferred) ← foldlM (λ st op,
      h ← History.push (history st.1) op; apply_or_defer (with_history st.1 h, st.2) op) (self, []) ops;
  self ← defer self deferred;
  flush_deferred_ops self.

Definition has_deferred_ops (self : Buffer) : bool := negb (queue_is_empty (deferred_ops self)).

(** ** Undo *)

Definition undo_operations (self : Buffer) (counts : list (Lamport * N)) : option (Buffer * Operation) :=
  let '(timestamp, clock) := tick (lamport_clock self) in
  let undo := mkUndoOperation timestamp (version (snapshot self)) counts in
  self ← apply_undo (observe_version (with_clock self clock) timestamp) undo;
  Some (self, OpUndo undo).

Definition undo_or_redo (self : Buffer) (t : Transaction) : option (Buffer * Operation) :=
  counts ← undo_or_redo_counts (undo_map (snapshot self)) (edit_ids t);
  '(self, operation) ← undo_operations self counts;
  h ← History.push (history self) operation;
  Some (with_history self h, operation).

Definition undo_entry (self : Buffer) (entry : option HistoryEntry)
    : option (Buffer * option (TransactionId * Operation)) :=
  match entry with
  | Some entry =>
      '(self, op) ← undo_or_redo self (transaction entry);
      Some (self, Some (transaction_id entry, op))
  | None => Some (self, None)
  end.

Definition undo (self : Buffer) : option (Buffer * option (TransactionId * Operation)) :=
  '(h, entry) ← pop_undo (history self); undo_entry (with_history self h) entry.

Definition redo (self : Buffer) : option (Buffer * option (TransactionId * Operation)) :=
  '(h, entry) ← pop_redo (history self); undo_entry (with_history self h) entry.

Definition undo_transaction (self : Buffer) (tid : TransactionId) : option (Buffer * option Operation) :=
  '(h, entry) ← remove_from_undo (history self) tid;
  let self := with_history self h in
  match entry with
  | Some entry => '(self, op) ← undo_or_redo self (transaction entry); Some (self, Some op)
  | None => Some (self, None)
  end.

Definition undo_or_redo_all (self : Buffer) (ts : list Transaction) : option (Buffer * list Operation) :=
  foldlM (λ st t, '(self, op) ← undo_or_redo st.1 t; Some (self, st.2 ++ [op])) (self, []) ts.

Definition undo_to_transaction (self : Buffer) (tid : TransactionId) : option (Buffer * list Operation) :=
  '(h, es) ← remove_from_undo_until (history self) tid;
  undo_or_redo_all (with_history self h) (map transaction es).

Definition redo_to_transaction (self : Buffer) (tid : TransactionId) : option (Buffer * list Operation) :=
  '(h, es) ← remove_from_redo (history self) tid;
  undo_or_redo_all (with_history self h) (map transaction es).
End edits.

(** ** Snapshots with edits *)

Record EditedBufferSnapshot := mkEditedSnapshot {
  base_version : Global;
  edited_snapshot : BufferSnapshot;
  did_edit : bool
}.

Definition snapshot_with_edits `{Build, Sort} (self : Buffer)
    (edits : list ((nat * nat) * list Z)) : option (Buffer * EditedBufferSnapshot) :=
  match edits with
  | [] => Some (self, mkEditedSnapshot (version (snapshot self)) (snapshot self) false)
  | _ =>
      let '(timestamp, clock) := tick (lamport_clock self) in
      '(s, _, _) ← apply_edit_internal (snapshot self) edits timestamp;
      Some (with_clock self clock,
        mkEditedSnapshot (version (snapshot self)) (with_version s (Global_observe (version s) timestamp)) true)
  end.

(** "buffer cannot be fast-forwarded" when it changed since. *)
Definition fast_forward (self : Buffer) (edited : EditedBufferSnapshot) : option Buffer :=
  _ ← assert_ (negb (changed_since (version (snapshot self)) (base_version edited)));
  Some (with_clock (with_snapshot self (edited_snapshot edited))
    (foldl Lamport_observe (lamport_clock self) (Clock.iter (version (edited_snapshot edited))))).
