(* ===== verification/Document.v ===== *)
(** What edits do to the characters of a buffer.

    A document is the sequence of all characters ever inserted, each with the
    insertion it belongs to and the edits that deleted it: the fragments of
    [crates/text/src/text.rs] without the places where they are cut.  An edit
    made in some version names places by their offset among the characters
    that version had observed; [apply_edits] says where its text goes and what
    it deletes.  It is the reference that the loops over fragments implement,
    and this file is about it alone: it does not depend on how a document is
    split. *)

From stdpp Require Import base numbers option list.
From S2P Require Import Prelude Clock Utf8.

#[local] Open Scope nat_scope.

Record Char := mkChar {
  char_timestamp : Lamport;
  char_offset : nat;
  char_code : Z;
  char_visible : bool;
  char_deletions : list Lamport
}.

Definition width (c : Char) : nat := len_utf8 (char_code c).

Lemma width_pos c : 0 < width c.
Proof. unfold width, len_utf8. repeat case_match; lia. Qed.

(** The characters of an insertion from an offset on. *)
Fixpoint run (timestamp : Lamport) (visible : bool) (deletions : list Lamport) (offset : nat) (text : list Z) : list Char :=
  match text with
  | [] => []
  | c :: text => mkChar timestamp offset c visible deletions :: run timestamp visible deletions (offset + len_utf8 c) text
  end.

(** The text of the characters that are visible, or of those that are not. *)
Definition codes (v : bool) (cs : list Char) : list Z := char_code <$> filter (λ c, char_visible c = v) cs.

Lemma codes_app v a b : codes v (a ++ b) = codes v a ++ codes v b.
Proof. unfold codes. by rewrite filter_app, fmap_app. Qed.

Lemma codes_cons v c cs :
  codes v (c :: cs) = (if bool_decide (char_visible c = v) then [char_code c] else []) ++ codes v cs.
Proof. unfold codes. rewrite filter_cons. case_decide; by case_bool_decide. Qed.

(** The bytes of the characters that count. *)
Fixpoint clen (p : Char → bool) (cs : list Char) : nat :=
  match cs with
  | [] => 0
  | c :: cs => (if p c then width c else 0) + clen p cs
  end.

Lemma clen_app p a b : clen p (a ++ b) = clen p a + clen p b.
Proof. induction a as [|c a IH]; simpl; [done|]. rewrite IH. lia. Qed.

(** ** Edits *)

Section edits.
Context (obs was : Char → bool) (timestamp : Lamport).
Implicit Types (cs a b k l : list Char).

(** The shortest beginning that has [n] observed bytes. *)
Fixpoint obs_split (n : nat) cs : list Char * list Char :=
  match n, cs with
  | O, _ | _, [] => ([], cs)
  | _, c :: cs =>
      let '(a, b) := obs_split (n - if obs c then width c else 0) cs in (c :: a, b)
  end.

(** A character that the text of this edit goes after. *)
Definition ahead (c : Char) : bool := bool_decide (cmp (char_timestamp c) timestamp ≠ Lt).

Definition insert_at (n : nat) new cs : list Char :=
  let '(a, b) := obs_split n cs in
  let '(k, b) := span ahead b in
  a ++ k ++ new ++ b.

Definition mark (c : Char) : Char :=
  mkChar (char_timestamp c) (char_offset c) (char_code c) false (char_deletions c ++ [timestamp]).

(** What deletion does to a character in its range. *)
Definition strike (c : Char) : Char := if obs c && was c then mark c else c.

Fixpoint delete_from (offset start end_ : nat) cs : list Char :=
  match cs with
  | [] => []
  | c :: cs =>
      (if bool_decide (start ≤ offset < end_) then strike c else c)
        :: delete_from (offset + if obs c then width c else 0) start end_ cs
  end.

Definition edit_one (offset : nat) (edit : (nat * nat) * list Z) cs : list Char :=
  let '((start, end_), text) := edit in
  delete_from 0 start end_ (insert_at start (run timestamp true [] offset text) cs).

Fixpoint apply_edits (offset : nat) (edits : list ((nat * nat) * list Z)) cs : list Char :=
  match edits with
  | [] => cs
  | edit :: edits => apply_edits (offset + length (bytes_of edit.2)) edits (edit_one offset edit cs)
  end.

(** ** The place of an insertion *)

(** No unobserved character at the end. *)
Definition tight a : Prop := match list.last a with Some c => obs c = true | None => True end.

Lemma tight_cons c a : tight (c :: a) ↔ match a with [] => obs c = true | _ => tight a end.
Proof. unfold tight. by destruct a. Qed.

Lemma tight_pos a : tight a → a ≠ [] → 0 < clen obs a.
Proof.
  induction a as [|c a IH]; [done|]. intros Ht _. apply tight_cons in Ht. simpl. destruct a as [|d a].
  - rewrite Ht. pose proof (width_pos c). lia.
  - specialize (IH Ht ltac:(done)). simpl in *. lia.
Qed.

Lemma tight_app_r a b : b ≠ [] → tight (a ++ b) ↔ tight b.
Proof.
  intros Hb. unfold tight. rewrite last_app. destruct b as [|c b]; [done|]. by destruct (list.last (c :: b)) eqn:E; [|apply last_None in E].
Qed.

Lemma obs_split_tight a b : tight a → obs_split (clen obs a) (a ++ b) = (a, b).
Proof.
  induction a as [|c a IH]; intros Ht; [by destruct b|].
  pose proof (tight_pos _ Ht ltac:(done)) as Hpos. cbn [app obs_split].
  destruct (clen obs (c :: a)) as [|n] eqn:E; [lia|].
  assert (En : S n - (if obs c then width c else 0) = clen obs a) by (rewrite <- E; simpl; lia).
  rewrite En. apply tight_cons in Ht. destruct a as [|d a]; [by destruct b|]. by rewrite IH.
Qed.

Lemma span_all (p : Char → bool) k b :
  Forall (λ c, p c = true) k → (match b with c :: _ => p c = false | [] => True end) → span p (k ++ b) = (k, b).
Proof.
  intros Hk Hb. induction Hk as [|c k Hc _ IH]; cbn [app span].
  - destruct b as [|c b]; [done|]. cbn [span]. by rewrite Hb.
  - by rewrite Hc, IH.
Qed.

Lemma insert_at_tight a k b new :
  tight a → Forall (λ c, ahead c = true) k → (match b with c :: _ => ahead c = false | [] => True end) →
  insert_at (clen obs a) new (a ++ k ++ b) = a ++ k ++ new ++ b.
Proof. intros Ha Hk Hb. unfold insert_at. by rewrite obs_split_tight, span_all. Qed.

(** What is behind an edit that has been applied: the characters after the last
    observed one are not before new text. *)
Definition settled l : Prop :=
  ∃ a q, l = a ++ q ∧ tight a ∧ Forall (λ c, obs c = false ∧ ahead c = true) q.

Lemma settled_nil : settled [].
Proof. by exists [], []. Qed.

Lemma clen_none q : Forall (λ c, obs c = false ∧ ahead c = true) q → clen obs q = 0.
Proof. induction 1 as [|c q [Hc _] _ IH]; simpl; [done|]. by rewrite Hc, IH. Qed.

(** An insertion at or after a settled place. *)
Lemma insert_settled l a k b new :
  settled l → tight a → Forall (λ c, obs c = false ∧ ahead c = true) k →
  (match b with c :: _ => ahead c = false | [] => True end) → Forall (λ c, obs c = false ∧ ahead c = true) new →
  insert_at (clen obs (l ++ a)) new (l ++ a ++ k ++ b) = l ++ a ++ k ++ new ++ b ∧
  settled (l ++ a ++ k ++ new).
Proof.
  intros (p&q&->&Hp&Hq) Ha Hk Hb Hnew.
  assert (Hahead : ∀ l, Forall (λ c, obs c = false ∧ ahead c = true) l → Forall (λ c, ahead c = true) l).
  { intros l Hl. eapply Forall_impl; [exact Hl|naive_solver]. }
  destruct (decide (a = [])) as [->|Hne].
  - split.
    + rewrite app_nil_r, clen_app, (clen_none q), Nat.add_0_r, <- !app_assoc by done. cbn [app].
      rewrite (app_assoc q k). rewrite insert_at_tight; [by rewrite <- !app_assoc|done| |done].
      apply Forall_app; eauto.
    + exists p, (q ++ k ++ new). rewrite <- !app_assoc. rewrite !Forall_app. auto.
  - assert (Ht : tight ((p ++ q) ++ a)) by by apply tight_app_r. split.
    + rewrite (app_assoc (p ++ q) a). rewrite insert_at_tight by auto. by rewrite <- !app_assoc.
    + exists ((p ++ q) ++ a), (k ++ new). rewrite <- !app_assoc. rewrite Forall_app.
      rewrite <- !app_assoc in Ht. auto.
Qed.

(** ** The range of a deletion *)

Lemma width_strike c : width (strike c) = width c.
Proof. unfold strike. by destruct (obs c && was c). Qed.

Lemma delete_before o s e l : o + clen obs l ≤ s → tight l → delete_from o s e l = l.
Proof.
  revert o. induction l as [|c l IH]; intros o Hl Ht; [done|]. cbn [delete_from clen] in *.
  apply tight_cons in Ht. pose proof (width_pos c).
  rewrite bool_decide_eq_false_2.
  2: { intros [Hs _]. destruct l as [|d l]; [rewrite Ht in Hl; lia|].
    pose proof (tight_pos _ Ht ltac:(done)). lia. }
  f_equal. destruct l as [|d l]; [done|]. apply IH; [lia|done].
Qed.

Lemma delete_after o s e l : e ≤ o → delete_from o s e l = l.
Proof.
  revert o. induction l as [|c l IH]; intros o Hl; [done|]. cbn [delete_from].
  rewrite bool_decide_eq_false_2 by lia. f_equal. apply IH. lia.
Qed.

Lemma strike_unobserved q : Forall (λ c, obs c = false ∧ ahead c = true) q → map strike q = q.
Proof.
  induction 1 as [|c q [Hc _] _ IH]; [done|]. simpl. rewrite IH. unfold strike. by rewrite Hc.
Qed.

Lemma delete_unobserved o s e q :
  Forall (λ c, obs c = false ∧ ahead c = true) q → delete_from o s e q = q.
Proof.
  intros Hq. induction Hq as [|c q [Hc Ha] Hq IH]; [done|]. cbn [delete_from]. rewrite Hc, Nat.add_0_r, IH.
  f_equal. unfold strike. rewrite Hc. by case_bool_decide.
Qed.

Lemma delete_from_app o s e a b :
  delete_from o s e (a ++ b) = delete_from o s e a ++ delete_from (o + clen obs a) s e b.
Proof.
  revert o. induction a as [|c a IH]; intros o; cbn [app delete_from clen]; [by rewrite Nat.add_0_r|].
  rewrite IH. cbn [app]. do 3 f_equal. lia.
Qed.

Lemma delete_inside o s e u : s ≤ o → o + clen obs u ≤ e → tight u → delete_from o s e u = map strike u.
Proof.
  revert o. induction u as [|c u IH]; intros o Ho He Ht; [done|]. cbn [delete_from clen map] in *.
  apply tight_cons in Ht. pose proof (width_pos c).
  rewrite bool_decide_eq_true_2.
  2: { split; [done|]. destruct u as [|d u]; [rewrite Ht in He; lia|]. pose proof (tight_pos _ Ht ltac:(done)). lia. }
  f_equal. destruct u as [|d u]; [done|]. apply IH; [lia|lia|done].
Qed.

(** A deletion from a settled place on. *)
Lemma delete_settled l u r e :
  settled l → tight u → e = clen obs (l ++ u) →
  delete_from 0 (clen obs l) e (l ++ u ++ r) = l ++ map strike u ++ r.
Proof.
  intros (p&q&->&Hp&Hq) Hu ->. rewrite !delete_from_app, clen_app, (clen_none q Hq), !Nat.add_0_r.
  rewrite delete_before by (simpl; done || lia). rewrite delete_unobserved by done.
  rewrite delete_inside; [|lia|rewrite !clen_app, (clen_none q Hq); lia|done].
  rewrite delete_after; [done|]. rewrite !clen_app, (clen_none q Hq). lia.
Qed.

Context (obs_mark : ∀ c, obs (mark c) = obs c).

Lemma obs_strike c : obs (strike c) = obs c.
Proof. unfold strike. destruct (obs c && was c); [apply obs_mark|done]. Qed.

Lemma clen_strike u : clen obs (map strike u) = clen obs u.
Proof.
  induction u as [|c u IH]; simpl; [done|]. by rewrite obs_strike, width_strike, IH.
Qed.

Lemma tight_strike u : tight u → tight (map strike u).
Proof.
  unfold tight. rewrite fmap_last. destruct (list.last u); simpl; [|done]. by rewrite obs_strike.
Qed.

Lemma settled_strike l u : settled l → tight u → settled (l ++ map strike u).
Proof.
  intros Hl Hu. destruct (decide (u = [])) as [->|Hne]; [by rewrite app_nil_r|].
  exists (l ++ map strike u), []. rewrite app_nil_r. split_and!; [done| |done].
  apply tight_app_r; [by destruct u|]. by apply tight_strike.
Qed.
(** One edit at or after a settled place: the text goes behind [a] and the
    concurrent characters [k], and [u] is deleted. *)
Lemma edit_one_settled l a k u r start end_ offset text :
  settled l → tight a → Forall (λ c, obs c = false ∧ ahead c = true) k → tight u →
  (match u ++ r with c :: _ => ahead c = false | [] => True end) →
  let new := run timestamp true [] offset text in
  Forall (λ c, obs c = false ∧ ahead c = true) new →
  start = clen obs (l ++ a) → end_ = clen obs (l ++ a) + clen obs u →
  edit_one offset ((start, end_), text) (l ++ a ++ k ++ u ++ r) = l ++ a ++ k ++ new ++ map strike u ++ r ∧
  settled (l ++ a ++ k ++ new ++ map strike u).
Proof.
  intros Hl Ha Hk Hu Hhead new Hnew -> ->. unfold edit_one. fold new.
  destruct (insert_settled l a k (u ++ r) new) as [-> Hset]; [done..|].
  assert (E : clen obs (l ++ a) = clen obs (l ++ a ++ k ++ new)).
  { rewrite !clen_app, (clen_none k), (clen_none new) by done. lia. }
  rewrite E, <- clen_app.
  replace (l ++ a ++ k ++ new ++ u ++ r) with ((l ++ a ++ k ++ new) ++ u ++ r) by by rewrite <- !app_assoc.
  rewrite delete_settled by done. rewrite <- !app_assoc. split; [done|].
  replace (l ++ a ++ k ++ new ++ map strike u) with ((l ++ a ++ k ++ new) ++ map strike u) by by rewrite <- !app_assoc.
  by apply settled_strike.
Qed.

Lemma tight_all a : Forall (λ c, obs c = true) a → tight a.
Proof. intros Ha. unfold tight. destruct (list.last a) eqn:E; [|done]. by apply (Forall_last _ _ _ Ha) in E. Qed.
End edits.
