(* ===== verification/Pieces.v ===== *)
(** Fragments with their texts, and the document they make ([flatten]), after
    the laws of their summaries, by which the trees of fragments and of their
    insertions are searched.

    [min_insertion_version] is summed by [meet], which is associative for
    vectors without trailing zeros ([trimmed]); the other parts always are. *)

From stdpp Require Import base numbers option list.
From S2P Require Import Prelude Clock SumTree SumTreeFacts Search KeyedTree Locator Utf8 Operation Fragment Document.
From S2P Require UndoMapFacts TextSummary ChunkSummary RopeTree RopeCursor.

#[local] Open Scope nat_scope.

(** ** Version vectors *)

Definition trimmed (g : Global) : Prop := list.last (values g) ≠ Some 0%N.

Lemma trimmed_last g : trimmed g → values g ≠ [] → nth0 (values g) (length (values g) - 1) ≠ 0%N.
Proof. intros [?|Hl]%last_nth0 ?; done. Qed.

Lemma trimmed_intro l : (l ≠ [] → nth0 l (length l - 1) ≠ 0%N) → trimmed (mkGlobal l).
Proof. intros H. apply last_nth0. simpl. destruct l; [by left|]. right. by apply H. Qed.

(** A trimmed vector is its entries. *)
Lemma trimmed_ext a b : trimmed a → trimmed b → (∀ i, nth0 (values a) i = nth0 (values b) i) → a = b.
Proof.
  intros Ha Hb E. assert (Hlen : length (values a) = length (values b)).
  { destruct (Nat.lt_trichotomy (length (values a)) (length (values b))) as [Hl|[?|Hl]]; [exfalso|done|exfalso].
    - apply (trimmed_last b Hb); [by destruct (values b); simpl in *; [lia|]|]. by rewrite <- E, nth0_ge by lia.
    - apply (trimmed_last a Ha); [by destruct (values a); simpl in *; [lia|]|]. by rewrite E, nth0_ge by lia. }
  destruct a as [a], b as [b]. simpl in *. f_equal. apply list_eq. intros i.
  destruct (decide (i < length a)) as [Hi|Hi]; [|by rewrite !lookup_ge_None_2 by lia].
  destruct (lookup_lt_is_Some_2 a i) as [x Hx]; [done|]. destruct (lookup_lt_is_Some_2 b i) as [y Hy]; [lia|].
  rewrite Hx, Hy. f_equal. specialize (E i). by rewrite (nth0_lookup _ _ _ Hx), (nth0_lookup _ _ _ Hy) in E.
Qed.

Lemma trimmed_new : trimmed Global_new.
Proof. done. Qed.

Lemma trimmed_observe_new t : trimmed (Global_observe Global_new t).
Proof.
  destruct (decide (0 < value t)%N) as [Hpos|Hpos].
  2: { unfold Global_observe. by rewrite bool_decide_eq_false_2. }
  pose proof (length_Global_observe Global_new t Hpos) as Hlen. pose proof (observe_entries Global_new t) as He.
  destruct (Global_observe Global_new t) as [vs]. simpl in *. apply trimmed_intro. intros _.
  rewrite He, Hlen. rewrite decide_True by lia. unfold nth0. simpl. lia.
Qed.

Lemma trimmed_meet a b : trimmed a → trimmed b → trimmed (meet a b).
Proof.
  intros Ha Hb. unfold meet. set (vs := grow _ _).
  assert (Hlen : length vs = length (values a) `max` length (values b)) by apply length_grow.
  pose proof (meet_loop_zip 0 0 vs (values b)) as Hz. pose proof (meet_loop_new_len 0 0 vs (values b)) as Hn.
  destruct (meet_loop 0 0 vs (values b)) as [l n]. simpl in *. subst l. rewrite length_zip_assign in *.
  case_bool_decide as Hl; apply trimmed_intro; intros Hne.
  - rewrite length_take, nth0_take, length_zip_assign. destruct Hn as [[-> _]|(?&?&Hn&_)]; [done|].
    rewrite Nat.min_l, decide_True by lia. by replace (n - 0 - 1) with (n - 1) in Hn by lia.
  - rewrite length_zip_assign, nth0_zip_assign, decide_False by lia. unfold vs at 1.
    rewrite nth0_grow, Hlen, Nat.max_l by lia. apply trimmed_last; [done|].
    intros E%(f_equal length). simpl in E. lia.
Qed.

Lemma meet_assoc a b c : trimmed a → trimmed b → trimmed c → meet (meet a b) c = meet a (meet b c).
Proof.
  intros Ha Hb Hc. apply trimmed_ext; [by repeat apply trimmed_meet..|]. intros i.
  rewrite !meet_entries. unfold meet_entry. repeat case_bool_decide; lia.
Qed.

Lemma meet_new_l a : trimmed a → meet Global_new a = a.
Proof.
  intros Ha. apply trimmed_ext; [by apply trimmed_meet|done|]. intros i. rewrite meet_entries. done.
Qed.

(** Vectors by their length and entries, for [join]. *)
Lemma entries_ext (a b : list N) : length a = length b → (∀ i, nth0 a i = nth0 b i) → a = b.
Proof.
  intros Hlen E. apply list_eq. intros i.
  destruct (decide (i < length a)) as [Hi|Hi]; [|by rewrite !lookup_ge_None_2 by lia].
  destruct (lookup_lt_is_Some_2 a i) as [x Hx]; [done|]. destruct (lookup_lt_is_Some_2 b i) as [y Hy]; [lia|].
  rewrite Hx, Hy. f_equal. specialize (E i). by rewrite (nth0_lookup _ _ _ Hx), (nth0_lookup _ _ _ Hy) in E.
Qed.

Lemma length_join a b : length (values (join a b)) = length (values a) `max` length (values b).
Proof. unfold join. simpl. by rewrite length_zip_assign, length_grow. Qed.

Lemma join_ext a b c d :
  length (values a) `max` length (values b) = length (values c) `max` length (values d) →
  (∀ i, (nth0 (values a) i `max` nth0 (values b) i = nth0 (values c) i `max` nth0 (values d) i)%N) → join a b = join c d.
Proof.
  intros Hl E. pose proof (length_join a b) as L1. pose proof (length_join c d) as L2.
  pose proof (join_entries a b) as E1. pose proof (join_entries c d) as E2.
  destruct (join a b), (join c d). simpl in *. f_equal. apply entries_ext; [lia|]. intros i. by rewrite E1, E2.
Qed.

Lemma join_assoc a b c : join (join a b) c = join a (join b c).
Proof. apply join_ext; intros; rewrite ?length_join, ?join_entries; lia. Qed.

Lemma join_new_l a : join Global_new a = a.
Proof.
  pose proof (length_join Global_new a) as L. pose proof (join_entries Global_new a) as E.
  destruct (join _ _) as [vs], a as [a]. simpl in *. f_equal. apply entries_ext; [lia|]. intros i. rewrite E.
  unfold nth0 at 1. simpl. lia.
Qed.

(** ** The tree of fragments *)

#[export] Instance FragmentSummary_Ok : SummaryOk FragmentSummary (option Global) :=
  λ _ s, trimmed (min_insertion_version s).

#[export] Instance FragmentSummary_Laws : SummaryLaws FragmentSummary (option Global).
Proof.
  split.
  - intros cx. apply trimmed_new.
  - intros cx a b. apply trimmed_meet.
  - intros cx a b c Ha Hb Hc. cbn. rewrite !assign_spec. cbn. f_equal.
    + f_equal; lia.
    + apply join_assoc.
    + by apply meet_assoc.
    + apply join_assoc.
  - intros cx s Hs. destruct s as [[v d] id mv mi ma]. cbn. rewrite assign_spec. cbn.
    by rewrite !join_new_l, meet_new_l.
Qed.

#[export] Instance Fragment_ItemLaws : ItemLaws Fragment FragmentSummary (option Global).
Proof. intros cx f. apply trimmed_observe_new. Qed.

#[export] Instance FragmentText_Laws : DimensionLaws FragmentTextSummary FragmentSummary (option Global).
Proof. intros cx [v d] a b _ _. cbn. f_equal; lia. Qed.

#[export] Instance usize_fragment_Laws : DimensionLaws nat FragmentSummary (option Global).
Proof. intros cx d a b _ _. cbn. lia. Qed.

#[export] Instance FullOffset_Laws : DimensionLaws FullOffset FragmentSummary (option Global).
Proof. intros cx d a b _ _. cbn. f_equal. lia. Qed.

#[export] Instance Locator_fragment_Laws : DimensionLaws (option Locator) FragmentSummary (option Global).
Proof. intros cx d a b _ _. cbn. by rewrite assign_spec. Qed.

(** ** The tree of insertions *)

#[export] Instance InsertionFragmentKey_OrdLaws : OrdLaws InsertionFragmentKey.
Proof. apply (lexicographic_OrdLaws key_timestamp key_split_offset). intros [??] [??]; simpl. congruence. Qed.

#[export] Instance InsertionSlice_OrdLaws : OrdLaws InsertionSlice.
Proof.
  refine (lexicographic_OrdLaws (A:=Lamport * Lamport * N) (B:=N)
    (λ s, (slice_edit_id s, slice_insertion_id s, slice_start s)) slice_end _).
  intros [????] [????]; simpl. congruence.
Qed.

#[export] Instance InsertionFragmentKey_Laws : SummaryLaws InsertionFragmentKey ().
Proof. by split. Qed.

#[export] Instance InsertionFragmentKey_DimensionLaws : DimensionLaws InsertionFragmentKey InsertionFragmentKey ().
Proof. by intros cx d a b. Qed.

#[export] Instance InsertionFragment_KeyedLaws :
  KeyedLaws InsertionFragment InsertionFragmentKey InsertionFragmentKey ().
Proof.
  split; try apply _.
  - by intros cx d i _.
  - intros cx [t o]. cbn. unfold cmp, InsertionFragmentKey_Ord, then_with. simpl.
    pose proof (UndoMapFacts.Lamport_MIN_least t). destruct (cmp Lamport_MIN t); [|done|done].
    by destruct o.
Qed.

Abbreviation blen cs := (length (bytes_of cs)).
Abbreviation Piece := (Fragment * list Z)%type (only parsing).

Definition piece_ok (p : Piece) : Prop :=
  p.2 ≠ [] ∧ Forall char_ok p.2 ∧ fragment_len p.1 = N.of_nat (blen p.2) ∧
  fits 32 (insertion_offset p.1 + fragment_len p.1) ∧ (0 < value (fragment_timestamp p.1))%N.

Definition piece_chars (p : Piece) : list Char :=
  run (fragment_timestamp p.1) (visible p.1) (deletions p.1) (N.to_nat (insertion_offset p.1)) p.2.

Definition flatten (ps : list Piece) : list Char := concat (map piece_chars ps).

Lemma flatten_app a b : flatten (a ++ b) = flatten a ++ flatten b.
Proof. unfold flatten. by rewrite map_app, concat_app. Qed.

Lemma flatten_cons p ps : flatten (p :: ps) = piece_chars p ++ flatten ps.
Proof. done. Qed.

Lemma flatten_snoc ps p : flatten (ps ++ [p]) = flatten ps ++ piece_chars p.
Proof. by rewrite flatten_app, flatten_cons, app_nil_r. Qed.

(** ** Runs *)

Lemma blen_cons c t : blen (c :: t) = len_utf8 c + blen t.
Proof. by rewrite ChunkSummary.bytes_of_cons, length_app, TextSummary.length_encode_utf8. Qed.

Lemma blen_zero t : Forall char_ok t → blen t = 0 → t = [].
Proof. intros Hok E. destruct t as [|c t]; [done|]. pose proof (RopeCursor.blen_pos (c :: t) Hok ltac:(done)). lia. Qed.

Lemma run_text_app ts v d o a b : run ts v d o (a ++ b) = run ts v d o a ++ run ts v d (o + blen a) b.
Proof.
  revert o. induction a as [|c a IH]; intros o; cbn [app run]; [by rewrite Nat.add_0_r|].
  rewrite IH, blen_cons. do 3 f_equal. lia.
Qed.

Lemma codes_run ts v d o t v' : codes v' (run ts v d o t) = if bool_decide (v = v') then t else [].
Proof.
  revert o. induction t as [|c t IH]; intros o; cbn [run]; [by case_bool_decide|].
  rewrite codes_cons, IH. cbn [char_visible char_code]. by case_bool_decide.
Qed.

Lemma run_forall (P : Char → Prop) ts v d o t :
  (∀ o c, P (mkChar ts o c v d)) → Forall P (run ts v d o t).
Proof. intros H. revert o. induction t as [|c t IH]; intros o; cbn [run]; constructor; auto. Qed.

(** A way to count that depends on the insertion and on the visibility. *)
Definition counts_char (cnt : Lamport → bool → bool) (c : Char) : bool := cnt (char_timestamp c) (char_visible c).

Lemma clen_run cnt ts v d o t : clen (counts_char cnt) (run ts v d o t) = if cnt ts v then blen t else 0.
Proof.
  revert o. induction t as [|c t IH]; intros o; cbn [run clen]; [by destruct (cnt ts v)|].
  unfold counts_char at 1. cbn [char_timestamp char_visible]. rewrite IH, blen_cons. unfold width. cbn [char_code].
  destruct (cnt ts v); lia.
Qed.

Definition counts_fragment (cnt : Lamport → bool → bool) (f : Fragment) : bool := cnt (fragment_timestamp f) (visible f).

Lemma clen_piece cnt p : clen (counts_char cnt) (piece_chars p) = if counts_fragment cnt p.1 then blen p.2 else 0.
Proof. apply clen_run. Qed.

Lemma codes_piece v p : codes v (piece_chars p) = if bool_decide (visible p.1 = v) then p.2 else [].
Proof. apply codes_run. Qed.

(** ** Sums over the fragments of pieces *)

Abbreviation cx_of := (option Global) (only parsing).

Lemma isum_snoc (cx : cx_of) (l : list Fragment) f :
  isum cx (l ++ [f]) = add_summary (isum cx l) (item_summary_of f cx) cx.
Proof. unfold isum. by rewrite fmap_app, sum_app. Qed.

Lemma isum_text (cx : cx_of) (ps : list Piece) :
  Forall piece_ok ps →
  text (isum cx (map fst ps)) = mkFragmentText (blen (codes true (flatten ps))) (blen (codes false (flatten ps))).
Proof.
  induction ps as [|p ps IH] using rev_ind; intros Hok; [done|].
  apply Forall_app in Hok as [Hok [(_&_&Hlen&_) _]%Forall_cons]. rewrite map_app. cbn [map].
  rewrite isum_snoc, flatten_snoc, !codes_app, !RopeCursor.blen_app, !codes_piece. cbn. rewrite (IH Hok). cbn.
  unfold Fragment_Item. destruct (visible p.1) eqn:E; cbn; rewrite Hlen, Nat2N.id; f_equal; lia.
Qed.

Lemma isum_max_id (cx : cx_of) (l : list Fragment) :
  max_id (isum cx l) = match list.last l with Some f => fragment_id f | None => Locator_min end.
Proof.
  destruct l as [|f l _] using rev_ind; [done|]. rewrite isum_snoc, last_snoc. cbn. rewrite assign_spec. cbn.
  unfold Fragment_Item. by destruct (visible f).
Qed.

(** The tree does not depend on the context. *)
Lemma isum_cx (cx cx' : cx_of) (l : list Fragment) : isum cx l = isum cx' l.
Proof. done. Qed.

Lemma wf_cx (cx cx' : cx_of) h (t : SumTree Fragment FragmentSummary) : wf cx h t → wf cx' h t.
Proof.
  revert t. induction h as [|h IH]; intros [hh s css cts|s items iss]; try done.
  intros (->&->&->&?&HF). cbn [wf]. do 4 (split; [done|]).
  eapply Forall_impl; [exact HF|]. cbn. intros t [Ht Hne]. split; [by apply IH|done].
Qed.

(** ** The order of fragments *)

(** The invariant of the locators: digits in range, room before them and after
    them. *)
Definition id_ok (id : Locator) : Prop :=
  (u64_digits (digits id) ∧ roomy (digits id)) ∧ cmp id Locator_max = Lt.

(** The locators ascend from [lo]. *)
Fixpoint ids_from (lo : Locator) (l : list Fragment) : Prop :=
  match l with
  | [] => True
  | f :: l => id_ok (fragment_id f) ∧ cmp lo (fragment_id f) = Lt ∧ ids_from (fragment_id f) l
  end.

Definition last_id (lo : Locator) (l : list Fragment) : Locator :=
  match list.last l with Some f => fragment_id f | None => lo end.

Lemma last_id_cons lo f l : last_id lo (f :: l) = last_id (fragment_id f) l.
Proof.
  unfold last_id. destruct l as [|g l]; [done|]. rewrite last_cons.
  by destruct (list.last (g :: l)) eqn:E; [|apply last_None in E].
Qed.

Lemma last_id_snoc lo l f : last_id lo (l ++ [f]) = fragment_id f.
Proof. unfold last_id. by rewrite last_snoc. Qed.

Lemma last_id_app lo a b : last_id lo (a ++ b) = last_id (last_id lo a) b.
Proof. revert lo. induction a as [|f a IH]; intros lo; [done|]. cbn [app]. by rewrite !last_id_cons. Qed.

Lemma ids_from_app lo a b : ids_from lo (a ++ b) ↔ ids_from lo a ∧ ids_from (last_id lo a) b.
Proof.
  revert lo. induction a as [|f a IH]; intros lo; [cbn; naive_solver|]. cbn [app ids_from].
  rewrite IH, last_id_cons. naive_solver.
Qed.

Lemma ids_from_snoc lo l f :
  ids_from lo (l ++ [f]) ↔ ids_from lo l ∧ id_ok (fragment_id f) ∧ cmp (last_id lo l) (fragment_id f) = Lt.
Proof. rewrite ids_from_app. cbn. naive_solver. Qed.

Lemma ids_from_le lo l : ids_from lo l → cmp lo (last_id lo l) ≠ Gt.
Proof.
  revert lo. induction l as [|f l IH]; intros lo; [intros _; apply cmp_le_refl|]. intros (_&Hlt&Hl).
  rewrite last_id_cons. specialize (IH _ Hl). apply cmp_lt_le. by eapply cmp_lt_le_trans.
Qed.

Lemma last_id_ok l : ids_from Locator_min l → u64_digits (digits (last_id Locator_min l)).
Proof.
  destruct l as [|f l _] using rev_ind; [intros _; by repeat constructor|].
  intros (_&[[Hd _] _]&_)%ids_from_snoc. by rewrite last_id_snoc.
Qed.

(** A place under which there is room. *)
Definition next_ok (id : Locator) : Prop :=
  (u64_digits (digits id) ∧ roomy (digits id)) ∧ cmp id Locator_max ≠ Gt.

Lemma id_ok_next id : id_ok id → next_ok id.
Proof. intros [H Hlt]. split; [done|]. by rewrite Hlt. Qed.

Lemma next_ok_max : next_ok Locator_max.
Proof. split; [|done]. by repeat constructor. Qed.

(** A new locator under the next one. *)
Lemma between_next l next :
  ids_from Locator_min l → next_ok next → cmp (last_id Locator_min l) next = Lt →
  ∃ id, between (last_id Locator_min l) next = Some id ∧ id_ok id ∧
    cmp (last_id Locator_min l) id = Lt ∧ cmp id next = Lt.
Proof.
  intros Hl [[Hd Hr] Hm] Hlt. destruct (between_room (last_id Locator_min l) next) as (id&?&?&?&?); [by apply last_id_ok|done..|].
  exists id. split_and!; [done| |done|done]. split; [done|]. by eapply cmp_lt_le_trans.
Qed.

(** Between any two locators there is one, in order or not. *)
Lemma between_some l next :
  ids_from Locator_min l → next_ok next → ∃ id, between (last_id Locator_min l) next = Some id.
Proof.
  intros Hl [[Hd _] _]. destruct (between_loop_total (between_fuel (digits (last_id Locator_min l)) (digits next))
    (digits (last_id Locator_min l)) (digits next)) as (loc&E&_); [by apply last_id_ok|done|unfold between_fuel; lia|].
  exists (MkLocator loc). unfold between. by rewrite E.
Qed.
