(* ===== verification/BuilderFacts.v ===== *)
(** [FragmentBuilder] builds the tree of the fragments it was given, and
    [RopeBuilder] moves text from the old ropes to the new ones. *)

From stdpp Require Import base numbers option list.
From S2P Require Import Prelude Clock Utf8 Locator SumTree SumTreeFacts Search Cursor CursorFacts Fragment Pieces Builder Document.
From S2P Require Chunk Rope RopeTree RopeEdit RopeCursor TextSummary.

#[local] Open Scope nat_scope.

Abbreviation cx_none := (None : option Global) (only parsing).

(** ** The tree of fragments *)

Definition chunk_items (chunk : FragmentChunk) : list Fragment :=
  match chunk with Tree t => elements t | Loose l => l end.

Definition chunk_ok (chunk : FragmentChunk) : Prop :=
  match chunk with Tree t => ∃ h, wf cx_none h t | Loose _ => True end.

(** The builder has been given the fragments [l]. *)
Definition builds (b : FragmentBuilder) (l : list Fragment) : Prop :=
  Forall chunk_ok (builder_chunks b) ∧ concat (map chunk_items (builder_chunks b)) = l ∧
  builder_summary b = isum cx_none l.

Lemma builds_new h t : wf cx_none h t → builds (fragment_builder_new t) (elements t).
Proof.
  intros Hwf. unfold fragment_builder_new, builds. cbn [builder_chunks builder_summary].
  split; [|split; [|by eapply wf_summary]].
  - destruct (is_empty t); [done|]. apply Forall_singleton. by exists h.
  - destruct (is_empty t) eqn:E; cbn [map concat].
    + by destruct (wf_empty_elements _ _ _ Hwf E) as [-> _].
    + apply app_nil_r.
Qed.

Lemma builds_append b l h t :
  builds b l → wf cx_none h t → builds (builder_append b t None) (l ++ elements t).
Proof.
  intros (Hok&El&Es) Hwf. unfold builder_append. destruct (is_empty t) eqn:E.
  { destruct (wf_empty_elements _ _ _ Hwf E) as [-> _]. by rewrite app_nil_r. }
  unfold builds. cbn [builder_chunks builder_summary]. split; [|split].
  - apply Forall_app. split; [done|]. apply Forall_singleton. by exists h.
  - rewrite map_app, concat_app, El. cbn [map concat chunk_items]. by rewrite app_nil_r.
  - rewrite Es, (wf_summary _ _ _ Hwf). symmetry. apply isum_app. by apply (wfne_elements cx_none h).
Qed.

Lemma builds_push b l f : builds b l → builds (builder_push b f None) (l ++ [f]).
Proof.
  intros (Hok&El&Es). unfold builder_push, builds. cbn [builder_chunks builder_summary].
  rewrite Es, isum_snoc. split; [|split; [|done]].
  - destruct (builder_chunks b) as [|c cs _] using rev_ind; [by repeat constructor|].
    rewrite modify_last_snoc. apply Forall_app in Hok as [Hcs Hc].
    destruct c; cbn [mbind option_bind]; rewrite !Forall_app; repeat (split || constructor); try done.
    by inversion Hc.
  - subst l. destruct (builder_chunks b) as [|c cs _] using rev_ind; [done|]. rewrite modify_last_snoc.
    destruct c; cbn [mbind option_bind]; rewrite !map_app, !concat_app; cbn [map concat chunk_items];
      by rewrite ?app_nil_r, <- ?app_assoc.
Qed.

Lemma append_chunk_spec h t c :
  wf cx_none h t → chunk_ok c →
  ∃ t' h', append_chunk None t c = Some t' ∧ wf cx_none h' t' ∧ elements t' = elements t ++ chunk_items c.
Proof.
  intros Ht Hc. destruct c as [u|l]; cbn [append_chunk chunk_items].
  - destruct Hc as [hu Hu]. destruct (append_wf _ _ _ _ _ Ht Hu) as (t'&h'&?&?&_&?). by exists t', h'.
  - rewrite (from_par_iter_eq cx_none l). destruct (from_iter_wf cx_none l) as (u&hu&Eu&Hu&El).
    destruct (bool_decide _); rewrite Eu; cbn [mbind option_bind];
      destruct (append_wf _ _ _ _ _ Ht Hu) as (t'&h'&?&?&_&Et); exists t', h'; by rewrite Et, El.
Qed.

Lemma to_sum_tree_spec b l :
  builds b l → ∃ t h, to_sum_tree b None = Some t ∧ wf cx_none h t ∧ elements t = l.
Proof.
  intros (Hok&<-&_). unfold to_sum_tree.
  assert (Hgen : ∀ cs h t, wf cx_none h t → Forall chunk_ok cs →
    ∃ t' h', foldlM (append_chunk None) t cs = Some t' ∧ wf cx_none h' t' ∧
      elements t' = elements t ++ concat (map chunk_items cs)).
  { clear. induction cs as [|c cs IH]; intros h t Ht Hok; cbn [foldlM map concat].
    { exists t, h. by rewrite app_nil_r. }
    apply Forall_cons in Hok as [Hc Hcs].
    destruct (append_chunk_spec h t c Ht Hc) as (t1&h1&->&Ht1&E1). cbn [mbind option_bind].
    destruct (IH h1 t1 Ht1 Hcs) as (t2&h2&?&?&E2). exists t2, h2. split_and!; [done..|].
    by rewrite E2, E1, app_assoc. }
  apply (Hgen (builder_chunks b) 0 (SumTree.new None)); [apply wf_new|done].
Qed.

(** ** The texts *)

(** The height of the old ropes: a slice of one of height 11 still fits the
    cursors that append it. *)
Definition ROPE_ROOM : nat := 11.

(** The texts behind the old cursors, ahead of them, and built, by
    visibility. *)
Definition ropes_at (rb : RopeBuilder) (behind ahead new : bool → list Z) : Prop :=
  RopeCursor.cursor_place ROPE_ROOM (old_visible_cursor rb) (behind true) (ahead true) ∧
  RopeCursor.cursor_place ROPE_ROOM (old_deleted_cursor rb) (behind false) (ahead false) ∧
  RopeTree.rope_text (new true) (new_visible rb) ∧ RopeTree.rope_text (new false) (new_deleted rb).

Lemma ropes_at_new cv cd A B :
  RopeCursor.cursor_place ROPE_ROOM cv (A true) (B true) → RopeCursor.cursor_place ROPE_ROOM cd (A false) (B false) →
  ropes_at (rope_builder_new cv cd) A B (λ _, []).
Proof.
  intros. split; [done|]. split; [done|]. split; exists 0, []; (split; [apply RopeTree.rope_of_new|done]).
Qed.

Lemma append_piece a r n x s :
  RopeTree.rope_text a r → RopeTree.rope_in n x s → n < STACK_CAPACITY →
  ∃ r', Rope.append r s = Some r' ∧ RopeTree.rope_text (a ++ x) r'.
Proof. intros Ha (h&css&Hs&<-&Hh) Hn. apply (RopeEdit.append_text a r h css s); [done..|lia]. Qed.

Lemma cursor_slice_len c a x b :
  RopeCursor.cursor_place ROPE_ROOM c a (x ++ b) →
  ∃ c' r, Rope.cursor_slice c (Rope.cursor_offset c + blen x) = Some (c', r) ∧
    RopeCursor.cursor_place ROPE_ROOM c' (a ++ x) b ∧ RopeTree.rope_in (ROPE_ROOM + 4) x r.
Proof.
  intros Hc. assert (E : Rope.cursor_offset c + blen x = blen (a ++ x)).
  { destruct Hc as (?&?&?&?&?&?&?&?&?&?&?&?&?&->&?). by rewrite RopeCursor.blen_app. }
  rewrite E. destruct (RopeCursor.cursor_slice_text _ _ _ _ _ Hc) as (c'&r&?&_&?&?); [compute; lia|]. by exists c', r.
Qed.

Section push.
Context (rb : RopeBuilder) (A B C A' B' C' : bool → list Z).

Lemma ropes_push_at w v x :
  ropes_at rb A B C →
  B w = x ++ B' w → B' (negb w) = B (negb w) → A' w = A w ++ x → A' (negb w) = A (negb w) →
  C' v = C v ++ x → C' (negb v) = C (negb v) →
  ∃ rb', ropes_push rb (blen x) w v = Some rb' ∧ ropes_at rb' A' B' C'.
Proof.
  intros (Hv&Hd&Hnv&Hnd) EB EB' EA EA' EC EC'. unfold ropes_push.
  assert (Hroom : ROPE_ROOM + 4 < STACK_CAPACITY) by (compute; lia).
  destruct w; cbn [negb] in *; [rewrite EB in Hv|rewrite EB in Hd].
  1: destruct (cursor_slice_len _ _ _ _ Hv) as (c&r&->&Hc&Hr).
  2: destruct (cursor_slice_len _ _ _ _ Hd) as (c&r&->&Hc&Hr).
  all: cbn [mbind option_bind new_visible new_deleted old_visible_cursor old_deleted_cursor].
  all: destruct v; cbn [negb] in *;
    [destruct (append_piece _ _ _ _ _ Hnv Hr Hroom) as (r'&->&Hr')
    |destruct (append_piece _ _ _ _ _ Hnd Hr Hroom) as (r'&->&Hr')]; cbn [mbind option_bind];
    eexists; (split; [reflexivity|]); unfold ropes_at;
    cbn [new_visible new_deleted old_visible_cursor old_deleted_cursor];
    rewrite ?EA, ?EA', ?EB', ?EC, ?EC'; done.
Qed.

Lemma push_fragment_at f w x :
  ropes_at rb A B C → fragment_len f = N.of_nat (blen x) → x ≠ [] → Forall char_ok x →
  B w = x ++ B' w → B' (negb w) = B (negb w) → A' w = A w ++ x → A' (negb w) = A (negb w) →
  C' (visible f) = C (visible f) ++ x → C' (negb (visible f)) = C (negb (visible f)) →
  ∃ rb', push_fragment rb f w = Some rb' ∧ ropes_at rb' A' B' C'.
Proof.
  intros Hrb Hlen Hne Hok. intros. unfold push_fragment.
  pose proof (RopeCursor.blen_pos x Hok Hne). rewrite bool_decide_eq_true_2 by (rewrite Hlen; lia).
  cbn [assert_ mbind option_bind]. rewrite Hlen, Nat2N.id. by apply ropes_push_at.
Qed.

Lemma ropes_push_str_at x :
  ropes_at rb A B C → Forall char_ok x → (∀ v, A' v = A v) → (∀ v, B' v = B v) →
  C' true = C true ++ x → C' false = C false →
  ∃ rb', ropes_push_str rb (bytes_of x) = Some rb' ∧ ropes_at rb' A' B' C'.
Proof.
  intros (Hv&Hd&Hnv&Hnd) Hok EA EB ECt ECf. unfold ropes_push_str.
  destruct (RopeEdit.push_text _ _ x Hnv Hok) as (r&->&Hr). cbn [mbind option_bind].
  eexists. split; [reflexivity|]. unfold ropes_at. cbn. by rewrite !EA, !EB, ECt, ECf.
Qed.
End push.

(** Moving text of both kinds without changing it. *)
Lemma ropes_append_at rb A B C A' B' C' s x :
  ropes_at rb A B C → text_visible s = blen (x true) → text_deleted s = blen (x false) →
  (∀ v, B v = x v ++ B' v) → (∀ v, A' v = A v ++ x v) → (∀ v, C' v = C v ++ x v) →
  ∃ rb', ropes_append rb s = Some rb' ∧ ropes_at rb' A' B' C'.
Proof.
  intros Hrb Ev Ed EB EA EC. unfold ropes_append. rewrite Ev, Ed.
  destruct (ropes_push_at rb A B C (λ v, if v then A' v else A v) (λ v, if v then B' v else B v)
    (λ v, if v then C' v else C v) true true (x true)) as (rb1&->&H1); try done.
  cbn [mbind option_bind]. eapply ropes_push_at; [exact H1|..]; cbn; auto.
Qed.

Lemma finish_at rb A B C :
  ropes_at rb A B C →
  ∃ texts, finish rb = Some texts ∧
    RopeTree.rope_text (C true ++ B true) texts.1 ∧ RopeTree.rope_text (C false ++ B false) texts.2.
Proof.
  intros (Hv&Hd&Hnv&Hnd). unfold finish.
  assert (Hroom : ROPE_ROOM + 4 < STACK_CAPACITY) by (compute; lia).
  destruct (RopeCursor.cursor_suffix_text _ _ _ _ Hv) as (sv&->&Hsv); [compute; lia|]. cbn [mbind option_bind].
  destruct (append_piece _ _ _ _ _ Hnv Hsv Hroom) as (v&->&Hv'). cbn [mbind option_bind].
  destruct (RopeCursor.cursor_suffix_text _ _ _ _ Hd) as (sd&->&Hsd); [compute; lia|]. cbn [mbind option_bind].
  destruct (append_piece _ _ _ _ _ Hnd Hsd Hroom) as (d&->&Hd'). cbn [mbind option_bind].
  by eexists.
Qed.
