(* ===== verification/SpliceOutput.v ===== *)
(** What the loop over the fragments has built: the new fragments, the new
    texts, and the lists of changes, in terms of the pieces it was given; and
    what inserting a text does to them. *)

From stdpp Require Import base numbers option list sets.
From S2P Require Import Prelude Clock SumTree SumTreeFacts Search Cursor Locator Utf8 Fragment Builder Splice Document Pieces BuilderFacts.
From S2P Require KeyedTree Patch PatchFacts Rope RopeCursor.

#[local] Open Scope nat_scope.

(** ** Parts of a piece *)

(** The part [a] of a fragment, after the part [x]. *)
Definition sub_fragment (f : Fragment) (x a : list Z) : Fragment :=
  mkFragment (fragment_id f) (fragment_timestamp f) (insertion_offset f + N.of_nat (blen x))
    (N.of_nat (blen a)) (visible f) (deletions f) (max_undos f).

Lemma as_u32_small n : fits 32 (N.of_nat n) → as_u32 n = N.of_nat n.
Proof. intros. unfold as_u32. by apply wrap_N_id. Qed.

Lemma piece_parts f x a y :
  piece_ok (f, x ++ a ++ y) → a ≠ [] →
  piece_ok (sub_fragment f x a, a) ∧
  fits 32 (N.of_nat (blen x)) ∧ fits 32 (N.of_nat (blen a)) ∧ fits 32 (insertion_offset f + N.of_nat (blen x)).
Proof.
  intros (_&Hok&Hlen&Hf&Hpos) Ha. cbn [fst snd] in *. rewrite !RopeCursor.blen_app in Hlen.
  rewrite !Forall_app in Hok. unfold piece_ok, sub_fragment, fits in *. cbn [fst snd fragment_len insertion_offset fragment_timestamp].
  split_and!; try done; try apply Hok; lia.
Qed.

Lemma cut_fragment_spec f x a y s :
  piece_ok (f, x ++ a ++ y) → a ≠ [] →
  cut_fragment f s (s + blen x) (s + blen x + blen a) = Some (sub_fragment f x a).
Proof.
  intros Hp Ha. destruct (piece_parts f x a y Hp Ha) as (_&Hx&Hfa&Hxa). unfold cut_fragment.
  rewrite !PatchFacts.usub_add. cbn [mbind option_bind]. rewrite !as_u32_small by done.
  unfold u32_add. by rewrite bool_decide_eq_true_2.
Qed.

Lemma sub_fragment_whole p : piece_ok p → sub_fragment p.1 [] p.2 = p.1.
Proof.
  intros (_&_&Hlen&_). unfold sub_fragment. cbn. rewrite N.add_0_r, <- Hlen. by destruct p as [[] ?].
Qed.

Lemma sub_chars f x a : piece_chars (sub_fragment f x a, a) =
  run (fragment_timestamp f) (visible f) (deletions f) (N.to_nat (insertion_offset f) + blen x) a.
Proof. unfold piece_chars. cbn. f_equal. lia. Qed.

(** ** Slices *)

Definition covers (e : Lamport) (c : Char) (s : InsertionSlice) : Prop :=
  slice_edit_id s = e ∧ slice_insertion_id s = char_timestamp c ∧
  N.to_nat (slice_start s) ≤ char_offset c < N.to_nat (slice_end s).

(** The edits that inserted and deleted the character have slices. *)
Definition logged (base : Lamport → Prop) (slices : list InsertionSlice) (c : Char) : Prop :=
  (base (char_timestamp c) ∨ ∃ s, s ∈ slices ∧ covers (char_timestamp c) c s) ∧
  ∀ e, e ∈ char_deletions c → ∃ s, s ∈ slices ∧ covers e c s.

Lemma logged_mono base sl sl' c : sl ⊆ sl' → logged base sl c → logged base sl' c.
Proof.
  intros Hs [Ht Hd]. split.
  - destruct Ht as [?|(s&?&?)]; [by left|right]. exists s. split; [by apply Hs|done].
  - intros e He. destruct (Hd e He) as (s&?&?). exists s. split; [by apply Hs|done].
Qed.

Definition slice_of (e : Lamport) (f : Fragment) : InsertionSlice :=
  mkInsertionSlice e (fragment_timestamp f) (insertion_offset f) (insertion_offset f + fragment_len f).

Lemma from_fragment_spec e f a :
  piece_ok (f, a) →
  from_fragment e f = Some (slice_of e f) ∧ Forall (λ c, covers e c (slice_of e f)) (piece_chars (f, a)).
Proof.
  intros (Hne&Hok&Hlen&Hf&_). unfold from_fragment, u32_add. cbn [fst snd] in *. rewrite bool_decide_eq_true_2 by done.
  cbn [mbind option_bind]. split; [done|]. unfold piece_chars, slice_of. cbn [fst snd]. clear Hne.
  assert (Hgen : ∀ o, N.to_nat (insertion_offset f) ≤ o → o + blen a ≤ N.to_nat (insertion_offset f + fragment_len f) →
    Forall (λ c, covers e c (mkInsertionSlice e (fragment_timestamp f) (insertion_offset f) (insertion_offset f + fragment_len f)))
      (run (fragment_timestamp f) (visible f) (deletions f) o a)).
  { clear Hok Hlen. induction a as [|c a IH]; intros o Ho Hb; cbn [run]; constructor.
    - rewrite blen_cons in Hb. pose proof (width_pos (mkChar (fragment_timestamp f) o c (visible f) (deletions f))).
      unfold width in *. cbn in *. unfold covers. cbn. split_and!; try done; lia.
    - rewrite blen_cons in Hb. apply IH; lia. }
  apply Hgen; lia.
Qed.

(** ** Patches of bytes *)

Lemma patches_keep (p : Patch.Patch) (r r' k : list Z) :
  PatchFacts.patches p r r' → PatchFacts.patches p (r ++ k) (r' ++ k).
Proof. intros Hp. rewrite <- (app_nil_r p). by apply PatchFacts.applies_app. Qed.

(** ** The output *)

Section output.
Context {D : Type} (V : Global) (olds : list Fragment).
Implicit Types (st : Splice D) (C R ch : list Char) (N : list Piece) (K : list InsertionFragmentKey) (off : nat).

Definition obs (c : Char) : bool := observed V (char_timestamp c).

Definition fragment_key (f : Fragment) : InsertionFragmentKey :=
  mkInsertionFragmentKey (fragment_timestamp f) (insertion_offset f).

(** The pieces [N] have been pushed; [K] are the places where old fragments
    begin. *)
Record tree_at st N K off : Prop := {
  out_ok : Forall piece_ok N;
  out_builds : builds (new_fragments st) (map fst N);
  out_ids : ids_from Locator_min (map fst N);
  out_ins : ∃ ins, new_insertions st = map insert_new ins ∧ sublist ins (map fst N) ∧
    Forall (λ f, f ∈ ins ∨ f ∈ olds) (map fst N);
  out_keys : K ⊆ map fragment_key (map fst N);
  out_offset : next_insertion_offset st = N.of_nat off
}.

(** The characters [C] of the old document are replaced by the pieces [N]; [R]
    are still to come. *)
Record output_at st C R N K off : Prop := {
  out_tree : tree_at st N K off;
  out_ropes : ropes_at (new_ropes st) (λ v, codes v C) (λ v, codes v R) (λ v, codes v (flatten N));
  out_length : clen obs (flatten N) = clen obs C
}.

Lemma output_ext st st' C R N K off :
  output_at st C R N K off → new_fragments st' = new_fragments st → new_ropes st' = new_ropes st →
  new_insertions st' = new_insertions st → next_insertion_offset st' = next_insertion_offset st →
  output_at st' C R N K off.
Proof. intros [[? Hb ? Hi ? Ho] Hr ?] E1 E2 E3 E4. split; [split|..]; rewrite ?E1, ?E2, ?E3, ?E4; done. Qed.

Definition patch_at st C N : Prop :=
  PatchFacts.patches (edits_patch st) (bytes_of (codes true C)) (bytes_of (codes true (flatten N))).

(** What giving a fragment to the builders leaves. *)
Definition kept st st' : Prop :=
  old_fragments st' = old_fragments st ∧ fragment_start st' = fragment_start st ∧
  edits_patch st' = edits_patch st ∧ insertion_slices st' = insertion_slices st.

Lemma new_max_id_at st N K off : tree_at st N K off → new_max_id st = last_id Locator_min (map fst N).
Proof. intros [_ (_&_&E) _ _ _ _]. unfold new_max_id. rewrite E. apply isum_max_id. Qed.

Lemma new_visible_len_at st N K off :
  tree_at st N K off → new_visible_len st = blen (codes true (flatten N)).
Proof. intros [Hok (_&_&E) _ _ _ _]. unfold new_visible_len. rewrite E. by rewrite isum_text. Qed.

Lemma tree_keys st N K K' off : tree_at st N K off → K' ⊆ K → tree_at st N K' off.
Proof. intros [? ? ? ? HK ?] HK'. split; try done. by transitivity K. Qed.

(** Pushing a fragment, with an entry of its insertion or without. *)
Lemma push_tree_at st N K off f a b :
  tree_at st N K off → piece_ok (f, a) →
  id_ok (fragment_id f) → cmp (last_id Locator_min (map fst N)) (fragment_id f) = Lt →
  b = true ∨ f ∈ olds →
  tree_at (if b then insert_fragment st f else push_new st f) (N ++ [(f, a)]) (K ++ [fragment_key f]) off.
Proof.
  intros [Hok Hb Hids (ins&Eins&Hsub&Hins) HK Hoff] Hp Hid Hlt Holds.
  assert (Emap : map fst (N ++ [(f, a)]) = map fst N ++ [f]) by by rewrite map_app. split; rewrite ?Emap.
  - apply Forall_app. split; [done|]. by apply Forall_singleton.
  - destruct b; by apply builds_push.
  - apply ids_from_snoc. done.
  - destruct b.
    + exists (ins ++ [f]). cbn. rewrite Eins, map_app. split; [done|]. split; [by apply sublist_app|].
      apply Forall_app. split; [|apply Forall_singleton; left; set_solver].
      eapply Forall_impl; [exact Hins|]. cbn. set_solver.
    + exists ins. cbn. rewrite Eins. split; [done|]. split; [by apply sublist_inserts_r|].
      apply Forall_app. split; [done|]. apply Forall_singleton. right. by destruct Holds.
  - rewrite map_app. cbn. set_solver.
  - by destruct b.
Qed.

(** A part of an old fragment, perhaps deleted, with a new entry or not. *)
Lemma ropes_emit rb C R N f a v d o :
  ropes_at rb (λ w, codes w C) (λ w, codes w (run (fragment_timestamp f) v d o a ++ R)) (λ w, codes w (flatten N)) →
  piece_ok (f, a) →
  ∃ rb', push_fragment rb f v = Some rb' ∧
    ropes_at rb' (λ w, codes w (C ++ run (fragment_timestamp f) v d o a)) (λ w, codes w R)
      (λ w, codes w (flatten (N ++ [(f, a)]))).
Proof.
  intros Hr (Hne&Hok&Hlen&_). eapply push_fragment_at; [exact Hr|exact Hlen|done|done|..]; cbv beta;
    rewrite ?flatten_snoc, ?codes_app, ?codes_piece, ?codes_run; cbn [fst snd];
    try (rewrite bool_decide_eq_true_2 by done); try (rewrite bool_decide_eq_false_2 by (by destruct v, (visible f)));
    try done; rewrite ?app_nil_r; try done.
Qed.

Lemma emit_output st C R N K off f a v d o b :
  output_at st C (run (fragment_timestamp f) v d o a ++ R) N K off → piece_ok (f, a) →
  id_ok (fragment_id f) → cmp (last_id Locator_min (map fst N)) (fragment_id f) = Lt →
  b = true ∨ f ∈ olds →
  ∃ rb, push_fragment (new_ropes st) f v = Some rb ∧
    output_at (if b then insert_fragment (push_ropes st rb) f else push_new (push_ropes st rb) f)
      (C ++ run (fragment_timestamp f) v d o a) R (N ++ [(f, a)]) (K ++ [fragment_key f]) off.
Proof.
  intros [Ht Hr Hlen] Hp Hid Hlt Holds.
  destruct (ropes_emit _ _ _ _ _ _ _ _ _ Hr Hp) as (rb&Erb&Hrb). exists rb. split; [done|]. split.
  - apply (push_tree_at (push_ropes st rb)); try done. by destruct Ht.
  - destruct b; exact Hrb.
  - rewrite flatten_snoc, !clen_app, Hlen. f_equal. unfold piece_chars. cbn [fst snd].
    by rewrite !(clen_run (λ t _, observed V t)).
Qed.

(** *** Emitting text that stays as it is *)

Lemma patch_same st st' C ch N p :
  patch_at st C N → edits_patch st' = edits_patch st → codes true ch = codes true (piece_chars p) →
  patch_at st' (C ++ ch) (N ++ [p]).
Proof.
  intros Hp E Hc. unfold patch_at. rewrite E, flatten_snoc, !codes_app, !bytes_of_app, Hc. by apply patches_keep.
Qed.

(** *** Text that an edit deletes *)

Lemma patch_delete st st' C ch N p :
  patch_at st C N → codes true (piece_chars p) = [] →
  edits_patch st' = Patch.push (edits_patch st)
    (Patch.mkEdit (Patch.mkRange (blen (codes true C)) (blen (codes true C) + blen (codes true ch)))
       (Patch.mkRange (blen (codes true (flatten N))) (blen (codes true (flatten N))))) →
  patch_at st' (C ++ ch) (N ++ [p]).
Proof.
  intros Hp Hc E. unfold patch_at. rewrite E, flatten_snoc, !codes_app, !bytes_of_app, Hc.
  pose proof (PatchFacts.applies_push (edits_patch st) _ _ (bytes_of (codes true ch)) [] Hp) as H.
  unfold PatchFacts.edit_at in H. cbn [length] in H. by rewrite Nat.add_0_r in H.
Qed.

(** *** The log of the edit *)

Context (base : Lamport → Prop) (slices0 : list InsertionSlice) (timestamp : Lamport).

(** The slices of the edit are those of some of its pieces. *)
Definition log_at st N : Prop :=
  Forall (logged base (slices0 ++ insertion_slices st)) (flatten N) ∧
  ∃ L, insertion_slices st = map (slice_of timestamp) L ∧ sublist L (map fst N).

Lemma log_same st st' N p :
  log_at st N → insertion_slices st' = insertion_slices st → Forall (logged base slices0) (piece_chars p) → log_at st' (N ++ [p]).
Proof.
  intros [Hl (L&EL&HL)] E Hp. unfold log_at. rewrite E, flatten_snoc, map_app. split; [|exists L; split; [done|by apply sublist_inserts_r]].
  apply Forall_app. split; [done|]. eapply Forall_impl; [exact Hp|]. intros c. apply logged_mono. set_solver.
Qed.

Lemma log_delete st st' N p v ds :
  log_at st N → insertion_slices st' = insertion_slices st ++ [slice_of timestamp p.1] → piece_ok p →
  deletions p.1 = ds ++ [timestamp] →
  Forall (logged base slices0) (run (fragment_timestamp p.1) v ds (N.to_nat (insertion_offset p.1)) p.2) →
  log_at st' (N ++ [p]).
Proof.
  intros [Hl (L&EL&HL)] E Hp Hd Hold. unfold log_at. rewrite E, flatten_snoc, map_app. split.
  2: { exists (L ++ [p.1]). rewrite EL, map_app. split; [done|]. by apply sublist_app. }
  apply Forall_app. split.
  { eapply Forall_impl; [exact Hl|]. intros c. apply logged_mono. set_solver. }
  destruct p as [f t]. destruct (from_fragment_spec timestamp f t Hp) as [_ Hs]. cbn [fst snd] in *.
  generalize dependent (slice_of timestamp f). intros s E Hs.
  unfold piece_chars in *. cbn [fst snd] in *. rewrite Hd in *. clear -Hs Hold. revert Hs Hold. generalize (N.to_nat (insertion_offset f)).
  induction t as [|c t IH]; intros o; cbn [run]; [constructor|].
  intros [Hs Hs']%Forall_cons [[Ht Hd] Hold]%Forall_cons. constructor; [|by apply IH].
  split; cbn [char_timestamp char_deletions] in *.
  - destruct Ht as [?|(s'&?&?)]; [by left|right]. exists s'. split; [set_solver|done].
  - intros e' [He|He%list_elem_of_singleton]%elem_of_app.
    + destruct (Hd e' He) as (s'&?&?). exists s'. split; [set_solver|done].
    + subst e'. exists s. split; [set_solver|done].
Qed.
End output.

Section insert.
Context `{Build}.

Lemma MAX_INSERTION_LEN_room : (16 ≤ MAX_INSERTION_LEN < 2 ^ 32)%N.
Proof. unfold MAX_INSERTION_LEN. destruct cfg_test; lia. Qed.

Lemma floor_char_boundary_spec s i :
  str_ok s → i ≤ length s →
  is_char_boundary s (floor_char_boundary s i) = true ∧ i - 3 ≤ floor_char_boundary s i ≤ i.
Proof.
  intros Hs Hi. unfold floor_char_boundary. case_bool_decide as Hl.
  { split; [apply boundary_length|lia]. }
  destruct (floor_loop_spec s i (boundary_0 s Hs)) as (Hb&Hle&Hmax). split; [done|]. split; [|done].
  destruct (boundary_near s i Hs Hi) as (p&Hp&Hpi&_).
  destruct (decide (floor_char_boundary_loop s i < p)) as [Hlt|]; [|lia].
  by rewrite Hmax in Hp by lia.
Qed.

(** The end of the next piece. *)
Lemma chunk_cut t1 t2 :
  Forall char_ok (t1 ++ t2) → t2 ≠ [] →
  let target_end := N.to_nat (N.min (N.of_nat (blen (t1 ++ t2))) (N.of_nat (blen t1) + MAX_INSERTION_LEN)) in
  let chunk_end :=
    if bool_decide (target_end = blen (t1 ++ t2)) then target_end
    else floor_char_boundary (bytes_of (t1 ++ t2)) target_end in
  ∃ a y, t2 = a ++ y ∧ a ≠ [] ∧ chunk_end = blen t1 + blen a ∧ (N.of_nat (blen a) ≤ MAX_INSERTION_LEN)%N.
Proof.
  intros Hok Hne target_end chunk_end. pose proof MAX_INSERTION_LEN_room.
  pose proof (RopeCursor.blen_app t1 t2) as Elen.
  assert (Hpos : 0 < blen t2) by (apply RopeCursor.blen_pos; [by apply Forall_app in Hok as [_ ?]|done]).
  assert (Hb : is_char_boundary (bytes_of (t1 ++ t2)) chunk_end = true ∧ blen t1 < chunk_end ∧
    (N.of_nat chunk_end ≤ N.of_nat (blen t1) + MAX_INSERTION_LEN)%N).
  { unfold chunk_end. case_bool_decide as Hd.
    - rewrite Hd. split; [apply boundary_length|]. lia.
    - destruct (floor_char_boundary_spec (bytes_of (t1 ++ t2)) target_end) as (?&?&?); [by exists (t1 ++ t2)|lia|].
      split; [done|]. lia. }
  clearbody chunk_end. destruct Hb as ((p&q&E&->)%boundary_split&Hlt&Hmax); [|done].
  destruct (RopeCursor.prefix_of_blen p q t1 t2) as (a&->&->); [done|by rewrite <- E|lia|].
  exists a, q. rewrite RopeCursor.blen_app in *. split; [done|]. split; [|split; [done|lia]].
  intros ->. cbn in Hlt. lia.
Qed.

Section loop.
Context {D : Type} (base : Lamport → Prop) (slices0 : list InsertionSlice) (olds : list Fragment)
  (timestamp : Lamport) (next_id : Locator).
Hypothesis timestamp_pos : (0 < value timestamp)%N.
Hypothesis next_id_ok : next_ok next_id.
Implicit Types (st : Splice D) (N : list Piece) (K : list InsertionFragmentKey) (off : nat).

Abbreviation tree_at := (tree_at olds) (only parsing).
Abbreviation log_at := (log_at base slices0 timestamp) (only parsing).

(** What the loop leaves alone. *)
Definition kept_texts st st' : Prop :=
  old_fragments st' = old_fragments st ∧ fragment_start st' = fragment_start st ∧
  edits_patch st' = edits_patch st ∧ new_ropes st' = new_ropes st.

Lemma insert_piece st N K off a id :
  tree_at st N K off → log_at st N → a ≠ [] → Forall char_ok a → fits 32 (N.of_nat (off + blen a)) →
  id_ok id → cmp (last_id Locator_min (map fst N)) id = Lt →
  let f := mkFragment id timestamp (N.of_nat off) (N.of_nat (blen a)) true [] Global_new in
  let st1 := insert_fragment (push_slice st (slice_of timestamp f)) f in
  let st' := mkSplice (old_fragments st1) (fragment_start st1) (new_fragments st1) (new_ropes st1)
     (new_insertions st1) (insertion_slices st1) (N.of_nat (off + blen a)) (edits_patch st1) in
  tree_at st' (N ++ [(f, a)]) K (off + blen a) ∧ log_at st' (N ++ [(f, a)]) ∧
  piece_chars (f, a) = run timestamp true [] off a.
Proof.
  intros Ht [Hl (L&EL&HL)] Ha Hok Hfits Hid Hlt f st1 st'.
  assert (Hp : piece_ok (f, a)).
  { unfold piece_ok, fits in *. cbn. split_and!; try done. lia. }
  assert (Ec : piece_chars (f, a) = run timestamp true [] off a) by (unfold piece_chars; cbn; by rewrite Nat2N.id).
  split; [|split; [|done]].
  - pose proof (push_tree_at olds (push_slice st (slice_of timestamp f)) N K off f a true) as Hpush.
    destruct Hpush as [Hok' Hb Hids Hins HK _]; [by destruct Ht|done..|by left|].
    split; try done. set_solver.
  - unfold SpliceOutput.log_at. cbn [insertion_slices st' st1 insert_fragment push_slice].
    rewrite flatten_snoc. split.
    2: { exists (L ++ [f]). rewrite EL, !map_app. split; [done|]. by apply sublist_app. }
    apply Forall_app. split.
    { eapply Forall_impl; [exact Hl|]. intros c. apply logged_mono. set_solver. }
    destruct (from_fragment_spec timestamp f a Hp) as [_ Hc].
    assert (Ht' : Forall (λ c, char_timestamp c = timestamp ∧ char_deletions c = []) (piece_chars (f, a))).
    { rewrite Ec. by apply run_forall. }
    rewrite Forall_forall in Hc, Ht' |- *. intros c Hin. destruct (Ht' c Hin) as [E1 E2]. split.
    + right. exists (slice_of timestamp f). split; [set_solver|]. rewrite E1. by apply Hc.
    + rewrite E2. intros e He. by apply not_elem_of_nil in He.
Qed.

Lemma insertion_loop_spec fuel : ∀ st t1 t2 N K off,
  tree_at st N K (off + blen t1) → log_at st N → Forall char_ok (t1 ++ t2) →
  fits 32 (N.of_nat (off + blen (t1 ++ t2))) → blen t2 ≤ fuel →
  cmp (last_id Locator_min (map fst N)) next_id = Lt →
  ∃ st' P, insertion_loop fuel st (bytes_of (t1 ++ t2)) timestamp next_id (blen t1) = Some st' ∧
    kept_texts st st' ∧ tree_at st' (N ++ P) K (off + blen (t1 ++ t2)) ∧ log_at st' (N ++ P) ∧
    cmp (last_id Locator_min (map fst (N ++ P))) next_id = Lt ∧
    flatten P = run timestamp true [] (off + blen t1) t2.
Proof.
  induction fuel as [|fuel IH]; intros st t1 t2 N K off Ht Hl Hok Hfits Hfuel Hlt.
  - assert (t2 = []) as ->. { apply Forall_app in Hok as [_ Hok]. apply blen_zero; [done|lia]. }
    exists st, []. rewrite !app_nil_r. cbn [insertion_loop].
    rewrite bool_decide_eq_false_2 by lia. done.
  - cbn [insertion_loop]. case_bool_decide as Hend.
    2: { assert (t2 = []) as ->.
      { apply Forall_app in Hok as [_ Hok]. rewrite RopeCursor.blen_app in Hend. apply blen_zero; [done|lia]. }
      exists st, []. rewrite !app_nil_r. done. }
    assert (Hne : t2 ≠ []) by (intros ->; rewrite app_nil_r in Hend; lia).
    destruct (chunk_cut t1 t2 Hok Hne) as (a&y&->&Ha&Ecut&Hmax). cbv zeta in Ecut. cbv zeta. rewrite Ecut.
    pose proof Hok as Hok'. apply Forall_app in Hok' as [_ [Hoka _]%Forall_app].
    pose proof (RopeCursor.blen_pos a Hoka Ha) as Hpos. pose proof MAX_INSERTION_LEN_room as Hroom.
    rewrite bool_decide_eq_false_2 by lia. rewrite PatchFacts.usub_add. cbn [mbind option_bind].
    rewrite !RopeCursor.blen_app in *.
    destruct (between_next (map fst N) next_id) as (id&Eid&Hid&Hlo&Hhi); [by destruct Ht|done..|].
    rewrite (new_max_id_at _ _ _ _ _ Ht), Eid. cbn [mbind option_bind].
    rewrite (out_offset _ _ _ _ _ Ht), as_u32_small by (unfold fits in *; lia).
    set (f := mkFragment _ _ _ _ _ _ _).
    assert (Hp : piece_ok (f, a)) by (unfold piece_ok, fits in *; cbn; split_and!; done || lia).
    destruct (from_fragment_spec timestamp f a Hp) as [Es _]. rewrite Es. cbn [mbind option_bind].
    unfold u32_add. rewrite bool_decide_eq_true_2 by (cbn; rewrite (out_offset _ _ _ _ _ Ht); unfold fits in *; lia).
    cbn [mbind option_bind].
    destruct (insert_piece st N K (off + blen t1) a id) as (Ht'&Hl'&Ec); try done.
    { unfold fits in *. lia. }
    change (piece_chars (f, a) = run timestamp true [] (off + blen t1) a) in Ec.
    replace (next_insertion_offset (insert_fragment (push_slice st (slice_of timestamp f)) f) + N.of_nat (blen a))%N
      with (N.of_nat (off + blen t1 + blen a)) by (cbn; rewrite (out_offset _ _ _ _ _ Ht); lia).
    replace (blen t1 + blen a) with (blen (t1 ++ a)) by apply RopeCursor.blen_app.
    rewrite app_assoc. match goal with |- context [insertion_loop fuel ?u _ _ _ _] => set (st1 := u) in * end.
    destruct (IH st1 (t1 ++ a) y (N ++ [(f, a)]) K off) as (st'&P&Eloop&(K1&K2&K3&K4)&Ht2&Hl2&Hlt2&EP).
    + replace (off + blen (t1 ++ a)) with (off + blen t1 + blen a) by (rewrite RopeCursor.blen_app; lia). exact Ht'.
    + exact Hl'.
    + by rewrite <- app_assoc.
    + rewrite !RopeCursor.blen_app. unfold fits in *. lia.
    + lia.
    + rewrite map_app. cbn [map]. by rewrite last_id_snoc.
    + exists st', ((f, a) :: P). rewrite Eloop. rewrite <- !app_assoc in *. cbn [app] in *.
      split; [done|]. split; [done|]. rewrite !RopeCursor.blen_app in *. split; [done|]. split; [done|]. split; [done|].
      rewrite flatten_cons, EP, run_text_app, Ec. do 2 f_equal. lia.
Qed.

(** The texts follow. *)
Lemma push_fragments_for_insertion_spec V st C R t N K off :
  output_at V olds st C R N K off → log_at st N → Forall char_ok t → fits 32 (N.of_nat (off + blen t)) →
  observed V timestamp = false → cmp (last_id Locator_min (map fst N)) next_id = Lt →
  ∃ st' P, push_fragments_for_insertion st (bytes_of t) timestamp next_id = Some st' ∧
    old_fragments st' = old_fragments st ∧ fragment_start st' = fragment_start st ∧
    edits_patch st' = edits_patch st ∧
    output_at V olds st' C R (N ++ P) K (off + blen t) ∧ log_at st' (N ++ P) ∧
    cmp (last_id Locator_min (map fst (N ++ P))) next_id = Lt ∧ flatten P = run timestamp true [] off t.
Proof.
  intros [Ht Hr Hlen] Hl Hok Hfits Hobs Hlt. unfold push_fragments_for_insertion.
  destruct (insertion_loop_spec (blen t) st [] t N K off) as (st1&P&E&(K1&K2&K3&K4)&Ht1&Hl1&Hlt1&EP); try done.
  { cbn. by rewrite Nat.add_0_r. }
  cbn [app] in E, Ht1. change (blen []) with 0 in E, EP. rewrite E. cbn [mbind option_bind]. rewrite Nat.add_0_r in EP.
  assert (Hcodes : ∀ v, codes v (flatten (N ++ P)) = codes v (flatten N) ++ (if v then t else [])).
  { intros v. rewrite flatten_app, codes_app, EP, codes_run. by destruct v. }
  destruct (ropes_push_str_at (new_ropes st1) (λ v, codes v C) (λ v, codes v R) (λ v, codes v (flatten N))
    (λ v, codes v C) (λ v, codes v R) (λ v, codes v (flatten (N ++ P))) t) as (rb&->&Hrb); try done.
  { by rewrite K4. } { by rewrite (Hcodes false), app_nil_r. }
  cbn [mbind option_bind]. exists (push_ropes st1 rb), P. split_and!; try done.
  split; [by destruct Ht1|exact Hrb|].
  rewrite flatten_app, clen_app, EP, (clen_run (λ t _, observed V t)), Hobs, Hlen. lia.
Qed.
End loop.
End insert.
