(* ===== verification/SpliceWalk.v ===== *)
(** The loop over the fragments of a document: where it stands, and the moves
    that both kinds of edits make.

    [walks] is what the loop needs of the dimension it walks by; the moves are
    proved against it, and each kind of edit shows it for its dimension. *)

From stdpp Require Import base numbers option list sets.
From S2P Require Import Prelude Clock Utf8 Locator SumTree SumTreeFacts Search Cursor CursorFacts StepFacts CursorApi Fragment Pieces Builder Splice Document BuilderFacts SpliceOutput.
From S2P Require KeyedTree Patch PatchFacts Rope RopeCursor.

#[local] Open Scope nat_scope.

(** The pieces of a document before an edit: fragments in the order of their
    locators, whose inserters and deleters have slices. *)
Class DocumentOk (ps : list Piece) (base : Lamport → Prop) (slices : list InsertionSlice) : Prop := {
  ps_ok : Forall piece_ok ps;
  ps_ids : ids_from Locator_min (map fst ps);
  ps_logged : Forall (logged base slices) (flatten ps)
}.

Section walk.
Context {D Target : Type} `{!Dimension D FragmentSummary (option Global),
  !SeekTarget Target D (option Global)} {offset_of : D → option nat} {target_of : nat → Target} {bias : Bias}.
Context {cx : option Global} {cnt : Lamport → bool → bool} {ps : list Piece}.
Implicit Types (st : Splice D) (before after N : list Piece) (x a y : list Z) (n off : nat)
  (c : Cursor Fragment FragmentSummary D (option Global)).

Abbreviation ccount := (clen (counts_char cnt)) (only parsing).
Abbreviation count l := (ccount (flatten l)) (only parsing).

(** Between which pieces the cursor is. *)
Definition cursor_on c before after : Prop :=
  ps = before ++ after ∧ cursor_at c (map fst before) (map fst after) ∧ did_seek c = true ∧ cursor_cx c = cx.

(** An item that ends at [e] is passed by a seek to [n]. *)
Definition passes (e n : nat) : Prop := match bias with Right => e ≤ n | Left => e < n end.

Class walks : Prop := {
  walk_offset l1 l2 : ps = l1 ++ l2 → offset_of (dsum cx (dim_zero cx) (map fst l1)) = Some (count l1);
  walk_slice c l1 l2 n :
    ps = l1 ++ l2 → cursor_at c (map fst l1) (map fst l2) → cursor_cx c = cx → count l1 ≤ n →
    ∃ c' t h (k1 k2 : list Piece), slice c (target_of n) bias = Some (c', t) ∧ l2 = k1 ++ k2 ∧ cursor_on c' (l1 ++ k1) k2 ∧
      wf cx h t ∧ elements t = map fst k1 ∧ (k1 ≠ [] → passes (count (l1 ++ k1)) n) ∧
      ∀ p k, k2 = p :: k → ¬ passes (count (l1 ++ k1 ++ [p])) n;
  walk_suffix c l1 l2 :
    cursor_on c l1 l2 → ∃ c' t h, suffix c = Some (c', t) ∧ wf cx h t ∧ elements t = map fst l2
}.

Context `{Hwalk : !walks} {V : Global} {base : Lamport → Prop} {slices0 : list InsertionSlice} {timestamp : Lamport}.
Context `{Hdoc : !DocumentOk ps base slices0}.

Abbreviation output_at := (SpliceOutput.output_at V (map fst ps)) (only parsing).
Abbreviation log_at := (SpliceOutput.log_at base slices0 timestamp) (only parsing).

(** The text before the place [x] of the current piece, and after it. *)
Definition head_chars after x : list Char :=
  match after with
  | p :: _ => run (fragment_timestamp p.1) (visible p.1) (deletions p.1) (N.to_nat (insertion_offset p.1)) x
  | [] => []
  end.
Definition rest_chars after x : list Char :=
  match after with
  | p :: post =>
      run (fragment_timestamp p.1) (visible p.1) (deletions p.1) (N.to_nat (insertion_offset p.1) + blen x)
        (drop (length x) p.2) ++ flatten post
  | [] => []
  end.

Definition head_id after : Locator := match after with p :: _ => fragment_id p.1 | [] => Locator_max end.

Definition begun before after x : list InsertionFragmentKey :=
  map fragment_key (map fst before ++ match after, x with p :: _, _ :: _ => [p.1] | _, _ => [] end).

(** [x] of the current piece has been consumed. *)
Definition within after x : Prop :=
  match after with
  | p :: _ => ∃ y, p.2 = x ++ y ∧ (x ≠ [] → counts_fragment cnt p.1 = true)
  | [] => x = []
  end.

Record splice_at st before after x N off : Prop := {
  at_cursor : cursor_on (old_fragments st) before after;
  at_within : within after x;
  at_output : output_at st (flatten before ++ head_chars after x) (rest_chars after x) N (begun before after x) off;
  at_patch : patch_at st (flatten before ++ head_chars after x) N;
  at_log : log_at st N;
  at_ids : cmp (last_id Locator_min (map fst N)) (head_id after) = Lt
}.

Definition start_at st before x : Prop := fragment_start st = count before + blen x.

(** *** The cursor *)

Lemma item_start_at st before after :
  cursor_on (old_fragments st) before after → item_start offset_of st = Some (count before).
Proof.
  intros (Eps&(h&_&_&Hp&_)&_&Ecx). unfold item_start, start. rewrite Hp, Ecx. by eapply walk_offset.
Qed.

Lemma item_end_at st before p post :
  cursor_on (old_fragments st) before (p :: post) → item_end offset_of st = Some (count before + ccount (piece_chars p)).
Proof.
  intros (Eps&Hc&Hs&Ecx). unfold item_end. rewrite (end_at _ _ _ Hc Hs). destruct Hc as (h&_&_&Hp&_).
  cbn [mbind option_bind map head option_list]. rewrite Hp, Ecx, <- dsum_app.
  change (option_list (Some p.1)) with (map fst [p]). rewrite <- map_app, (walk_offset (before ++ [p]) post) by by rewrite <- app_assoc.
  by rewrite flatten_snoc, clen_app.
Qed.

Lemma item_end_nil st before :
  cursor_on (old_fragments st) before [] → item_end offset_of st = Some (count before).
Proof.
  intros (Eps&Hc&Hs&Ecx). unfold item_end. rewrite (end_at _ _ _ Hc Hs). destruct Hc as (h&_&_&Hp&_).
  cbn [mbind option_bind map head option_list]. rewrite Hp, Ecx. by eapply walk_offset.
Qed.

Lemma current_item st before after :
  cursor_on (old_fragments st) before after → item (old_fragments st) = Some (head (map fst after)).
Proof. intros (_&Hc&Hs&_). by apply (item_at _ _ _ Hc). Qed.

Lemma next_item_at st before p post :
  cursor_on (old_fragments st) before (p :: post) →
  ∃ c, next_item st = Some (set_old_fragments st c) ∧ cursor_on c (before ++ [p]) post.
Proof.
  intros (Eps&Hc&Hs&Ecx).
  destruct (next_spec (old_fragments st) _ _ (map fst (before ++ [p])) (map fst post) Hc) as (c&E&(_&Ecx'&Hs')&Hc').
  { unfold pending. rewrite Hs. by rewrite map_app. }
  exists c. unfold next_item. rewrite E. split; [done|]. unfold cursor_on.
  rewrite Ecx', Ecx, <- app_assoc. done.
Qed.

Lemma ps_piece before p post : ps = before ++ p :: post → piece_ok p.
Proof. intros E. pose proof ps_ok as Hok. rewrite E in Hok. by apply Forall_app in Hok as [_ [? _]%Forall_cons]. Qed.

Lemma ps_head_id before p post :
  ps = before ++ p :: post → id_ok (fragment_id p.1) ∧ cmp (fragment_id p.1) (head_id post) = Lt.
Proof.
  intros E. pose proof ps_ids as Hids. rewrite E, map_app in Hids. apply ids_from_app in Hids as [_ Hids]. cbn in Hids.
  destruct Hids as ([Hr Hm]&_&Hids). split; [done|]. destruct post as [|q post]; cbn in *; [done|]. by destruct Hids as (_&?&_).
Qed.

Lemma head_id_ok before after : ps = before ++ after → next_ok (head_id after).
Proof.
  destruct after as [|p post]; intros E; [apply next_ok_max|]. apply id_ok_next. by apply (ps_head_id before p post).
Qed.

Lemma rest_nil p post : p.2 ≠ [] → rest_chars (p :: post) [] = piece_chars p ++ flatten post.
Proof. intros _. unfold rest_chars, piece_chars. change (blen []) with 0. by rewrite Nat.add_0_r. Qed.

Lemma rest_flatten after : rest_chars after [] = flatten after.
Proof. destruct after as [|p post]; [done|]. unfold rest_chars. change (blen []) with 0. by rewrite Nat.add_0_r. Qed.

Lemma head_nil after : head_chars after [] = [].
Proof. by destruct after. Qed.

(** The current piece, cut at [x]. *)
Lemma piece_cut p x y :
  p.2 = x ++ y → piece_chars p = run (fragment_timestamp p.1) (visible p.1) (deletions p.1) (N.to_nat (insertion_offset p.1)) x ++
    run (fragment_timestamp p.1) (visible p.1) (deletions p.1) (N.to_nat (insertion_offset p.1) + blen x) y.
Proof. intros E. unfold piece_chars. by rewrite E, run_text_app. Qed.

Lemma ps_text before p post : ps = before ++ p :: post → Forall (logged base slices0) (piece_chars p).
Proof.
  intros E. pose proof ps_logged as Hl. rewrite E, flatten_app, flatten_cons in Hl.
  by apply Forall_app in Hl as [_ [? _]%Forall_app].
Qed.
(** *** Giving a part of the current piece to the builders *)

Lemma rest_part p post x a y :
  p.2 = x ++ a ++ y →
  rest_chars (p :: post) x =
    run (fragment_timestamp p.1) (visible p.1) (deletions p.1) (N.to_nat (insertion_offset p.1) + blen x) a ++
    rest_chars (p :: post) (x ++ a).
Proof.
  intros E. unfold rest_chars. rewrite E, (app_assoc x a y), !drop_app_length, <- app_assoc, drop_app_length.
  by rewrite run_text_app, RopeCursor.blen_app, Nat.add_assoc, <- app_assoc.
Qed.

Lemma head_part p post x a :
  head_chars (p :: post) (x ++ a) = head_chars (p :: post) x ++
    run (fragment_timestamp p.1) (visible p.1) (deletions p.1) (N.to_nat (insertion_offset p.1) + blen x) a.
Proof. unfold head_chars. by rewrite run_text_app. Qed.

Lemma begun_part before p post x a f :
  a ≠ [] → fragment_timestamp f = fragment_timestamp p.1 →
  insertion_offset f = (insertion_offset p.1 + N.of_nat (blen x))%N →
  begun before (p :: post) (x ++ a) ⊆ begun before (p :: post) x ++ [fragment_key f].
Proof.
  intros Ha Et Eo. unfold begun. destruct x as [|c x].
  - destruct a; [done|]. cbn [app]. rewrite map_app, app_nil_r. cbn [map]. unfold fragment_key. rewrite Et, Eo.
    change (blen []) with 0. by rewrite N.add_0_r.
  - cbn [app]. set_solver.
Qed.

Lemma emit_part st before p post x a y N off f :
  output_at st (flatten before ++ head_chars (p :: post) x) (rest_chars (p :: post) x) N (begun before (p :: post) x) off →
  ps = before ++ p :: post → p.2 = x ++ a ++ y → a ≠ [] →
  fragment_timestamp f = fragment_timestamp p.1 → insertion_offset f = (insertion_offset p.1 + N.of_nat (blen x))%N →
  fragment_len f = N.of_nat (blen a) →
  id_ok (fragment_id f) → cmp (last_id Locator_min (map fst N)) (fragment_id f) = Lt →
  piece_ok (f, a) ∧
  ∃ st', push_part st f (visible p.1) = Some st' ∧ kept st st' ∧
    output_at st' (flatten before ++ head_chars (p :: post) (x ++ a)) (rest_chars (p :: post) (x ++ a)) (N ++ [(f, a)])
      (begun before (p :: post) (x ++ a)) off.
Proof.
  intros Hout Eps E Ha Et Eo El Hid Hlt.
  assert (Hp : piece_ok (f, a)).
  { pose proof (ps_piece _ _ _ Eps) as Hp. destruct p as [g t]. cbn [fst snd] in *. subst t.
    destruct (piece_parts g x a y Hp Ha) as ((_&Hok&_&Hf&Hpos)&_). unfold piece_ok. cbn in *. by rewrite Et, Eo, El. }
  split; [done|]. rewrite (rest_part p post x a y E) in Hout. unfold push_part.
  rewrite <- Et in Hout. destruct (emit_output _ _ _ _ _ _ _ _ _ _ _ _ _ true Hout Hp Hid Hlt) as (rb&->&Hrb); [by left|].
  cbn [mbind option_bind]. eexists. split; [reflexivity|]. split; [done|].
  rewrite head_part, app_assoc, <- Et. destruct Hrb as [Ht Hr Hl]. split; [|done|done].
  eapply tree_keys; [exact Ht|]. by apply begun_part.
Qed.

(** A part of a piece, as a fragment of its own. *)
Lemma part_ok before p post x a y f :
  ps = before ++ p :: post → p.2 = x ++ a ++ y → a ≠ [] →
  fragment_timestamp f = fragment_timestamp p.1 → insertion_offset f = (insertion_offset p.1 + N.of_nat (blen x))%N →
  fragment_len f = N.of_nat (blen a) → piece_ok (f, a).
Proof.
  intros Eps E Ha Et Eo El. pose proof (ps_piece _ _ _ Eps) as Hp. destruct p as [g t]. cbn [fst snd] in *. subst t.
  destruct (piece_parts g x a y Hp Ha) as ((_&Hok&_&Hf&Hpos)&_). unfold piece_ok. cbn in *. by rewrite Et, Eo, El.
Qed.

(** Past the end of the current piece. *)
Lemma head_passed before p post :
  flatten before ++ head_chars (p :: post) p.2 = flatten (before ++ [p]) ++ head_chars post [].
Proof. by rewrite head_nil, app_nil_r, flatten_snoc. Qed.

Lemma rest_passed p post : rest_chars (p :: post) p.2 = rest_chars post [].
Proof. rewrite rest_flatten. unfold rest_chars. by rewrite drop_all. Qed.

Lemma begun_passed before p post : p.2 ≠ [] → begun before (p :: post) p.2 = begun (before ++ [p]) post [].
Proof. intros Hp. unfold begun. destruct p.2; [done|]. rewrite (map_app fst). by destruct post; rewrite app_nil_r. Qed.

Lemma splice_next st before p post N off :
  cursor_on (old_fragments st) before (p :: post) →
  output_at st (flatten before ++ head_chars (p :: post) p.2) (rest_chars (p :: post) p.2) N (begun before (p :: post) p.2) off →
  patch_at st (flatten before ++ head_chars (p :: post) p.2) N → log_at st N →
  cmp (last_id Locator_min (map fst N)) (head_id post) = Lt →
  ∃ st', next_item st = Some st' ∧ splice_at st' (before ++ [p]) post [] N off ∧
    fragment_start st' = fragment_start st.
Proof.
  intros Hc Hout Hpatch Hlog Hlt. destruct (next_item_at st before p post Hc) as (c&->&Hc').
  eexists. split; [reflexivity|]. split; [|done]. pose proof Hc as (Eps&_).
  destruct (ps_piece _ _ _ Eps) as [Hne _].
  rewrite head_passed, rest_passed, begun_passed in Hout by done. rewrite head_passed in Hpatch. split; try done.
  - destruct post as [|q post]; [done|]. by exists q.2.
  - by destruct Hout as [[]].
Qed.

Lemma splice_pass st before p post N off :
  splice_at st before (p :: post) p.2 N off →
  ∃ st', next_item st = Some st' ∧ splice_at st' (before ++ [p]) post [] N off ∧ fragment_start st' = fragment_start st.
Proof.
  intros [Hc Hw Hout Hpatch Hlog Hlt]. pose proof Hc as (Eps&_). apply splice_next; try done.
  destruct (ps_head_id _ _ _ Eps) as [_ ?]. by eapply cmp_lt_trans.
Qed.

Lemma clen_head p post x :
  (x ≠ [] → counts_fragment cnt p.1 = true) → ccount (head_chars (p :: post) x) = blen x.
Proof.
  intros Hc. unfold head_chars. rewrite clen_run. unfold counts_fragment in Hc. destruct x as [|z x]; [by destruct (cnt _ _)|].
  by rewrite Hc.
Qed.

(** The old document, at a place. *)
Lemma ps_split before after x :
  ps = before ++ after → within after x → flatten ps = (flatten before ++ head_chars after x) ++ rest_chars after x.
Proof.
  intros -> Hw. rewrite flatten_app, <- app_assoc. f_equal. destruct after as [|p post]; [done|].
  destruct Hw as (y&E&_). rewrite flatten_cons, (piece_cut p x y E), <- app_assoc. unfold head_chars, rest_chars.
  by rewrite E, drop_app_length.
Qed.

Lemma position_total before after x :
  ps = before ++ after → within after x → count before + blen x + ccount (rest_chars after x) = count ps.
Proof.
  intros Eps Hw. rewrite (ps_split before after x Eps Hw), !clen_app. f_equal. f_equal.
  destruct after as [|p post]; [by rewrite Hw|]. destruct Hw as (_&_&Hc). by rewrite clen_head.
Qed.

(** [fragment_start] is apart from the rest. *)
Lemma splice_at_start st before after x N off m :
  splice_at st before after x N off → splice_at (set_fragment_start st m) before after x N off.
Proof. intros [? ? Hout ? ? ?]. split; try done. by eapply output_ext. Qed.

Lemma next_item_start st m : next_item (set_fragment_start st m) = st' ← next_item st; Some (set_fragment_start st' m).
Proof. unfold next_item. cbn. by destruct (next (old_fragments st)). Qed.

(** The piece is pushed as it is from [x] on, and left. *)
Lemma push_rest_at st before p post x a N off :
  splice_at st before (p :: post) x N off → p.2 = x ++ a → a ≠ [] →
  ∃ st' st'', push_part st (sub_fragment p.1 x a) (visible p.1) = Some st' ∧ next_item st' = Some st'' ∧
    splice_at st'' (before ++ [p]) post [] (N ++ [(sub_fragment p.1 x a, a)]) off ∧
    fragment_start st'' = fragment_start st.
Proof.
  intros [Hc Hw Hout Hpatch Hlog Hlt] E Ha. pose proof Hc as (Eps&_). destruct (ps_head_id _ _ _ Eps) as [Hid Hnext].
  destruct (emit_part st before p post x a [] N off (sub_fragment p.1 x a)) as (Hp&st'&E'&(K1&K2&K3&K4)&Hout'); try done.
  { by rewrite app_nil_r. }
  rewrite <- E in Hout'. exists st'.
  destruct (splice_next st' before p post (N ++ [(sub_fragment p.1 x a, a)]) off) as (st''&En&Hst&Es).
  - by rewrite K1.
  - exact Hout'.
  - replace p.2 with (x ++ a) by done. rewrite head_part, app_assoc. eapply patch_same; [exact Hpatch|done|].
    by rewrite sub_chars.
  - eapply log_same; [exact Hlog|done|]. rewrite sub_chars.
    pose proof (ps_text _ _ _ Eps) as Hl. rewrite (piece_cut p x a E) in Hl. by apply Forall_app in Hl as [_ ?].
  - rewrite map_app. cbn [map]. by rewrite last_id_snoc.
  - exists st''. split; [done|]. split; [done|]. split; [done|]. by rewrite Es.
Qed.
(** *** Moving on without a change *)

Lemma finish_fragment_at st before after x N off :
  splice_at st before after x N off → start_at st before x →
  ∃ st' before' after' Q, finish_fragment offset_of st = Some st' ∧ splice_at st' before' after' [] (N ++ Q) off ∧
    rest_chars after x = flatten Q ++ flatten after' ∧
    (x = [] ∧ st' = st ∧ before' = before ∧ after' = after ∧ Q = [] ∨ ∃ p, after = p :: after' ∧ before' = before ++ [p]).
Proof.
  intros Hst Hs. pose proof Hst as [Hc Hw Hout Hpatch Hlog Hlt]. unfold finish_fragment.
  rewrite (item_start_at _ _ _ Hc). cbn [mbind option_bind]. unfold start_at in Hs. rewrite Hs.
  destruct (decide (x = [])) as [->|Hx].
  { change (blen []) with 0. rewrite bool_decide_eq_false_2 by lia. exists st, before, after, [].
    rewrite app_nil_r. split; [done|]. split; [done|]. split; [apply rest_flatten|by left]. }
  destruct after as [|p post]; [by rewrite Hw in Hx|]. destruct Hw as (y&E&Hcount). specialize (Hcount Hx).
  pose proof Hc as (Eps&_). destruct (ps_piece _ _ _ Eps) as (Hne&Hok&Hplen&_).
  pose proof Hok as Hok'. rewrite E, Forall_app in Hok'. destruct Hok' as [Hokx Hoky].
  pose proof (RopeCursor.blen_pos x Hokx Hx). rewrite bool_decide_eq_true_2 by lia.
  rewrite (item_end_at _ _ _ _ Hc), clen_piece, Hcount. cbn [mbind option_bind].
  rewrite E, RopeCursor.blen_app. destruct (decide (y = [])) as [->|Hy].
  - rewrite bool_decide_eq_false_2 by (change (blen []) with 0; lia). cbn [mbind option_bind].
    rewrite app_nil_r in E. subst x.
    destruct (splice_next st before p post N off) as (st'&En&Hst'&_); try done.
    { destruct (ps_head_id _ _ _ Eps) as [_ ?]. by eapply cmp_lt_trans. }
    exists st', (before ++ [p]), post, []. rewrite app_nil_r, rest_passed, rest_flatten.
    split; [done|]. split; [done|]. split; [done|]. right. by exists p.
  - pose proof (RopeCursor.blen_pos y Hoky Hy). rewrite bool_decide_eq_true_2 by lia.
    rewrite (current_item _ _ _ Hc). cbn [mbind option_bind map head].
    assert (Hpx : piece_ok (p.1, x ++ y ++ [])).
    { rewrite app_nil_r, <- E. destruct p. by apply (ps_piece _ _ _ Eps). }
    rewrite Nat.add_assoc, (cut_fragment_spec p.1 x y []) by done.
    cbn [mbind option_bind]. change (visible (sub_fragment p.1 x y)) with (visible p.1).
    destruct (push_rest_at st before p post x y N off) as (st'&st''&->&En&Hst'&_); try done.
    cbn [mbind option_bind]. exists st'', (before ++ [p]), post, [(sub_fragment p.1 x y, y)].
    split; [done|]. split; [done|]. split; [|right; by exists p].
    rewrite flatten_cons, sub_chars, app_nil_r. unfold rest_chars. by rewrite E, drop_app_length.
Qed.
(** Old fragments taken over as a tree. *)
Lemma append_old st before k1 k2 N off h (t : FragmentTree) :
  output_at st (flatten before) (flatten (k1 ++ k2)) N (map fragment_key (map fst before)) off →
  ps = before ++ k1 ++ k2 → wf cx h t → elements t = map fst k1 →
  cmp (last_id Locator_min (map fst N)) (head_id (k1 ++ k2)) = Lt →
  ∃ ropes, ropes_append (new_ropes st) (text (SumTree.summary t)) = Some ropes ∧
    ∀ st', new_fragments st' = builder_append (new_fragments st) t None → new_ropes st' = ropes →
      new_insertions st' = new_insertions st → next_insertion_offset st' = next_insertion_offset st →
      output_at st' (flatten (before ++ k1)) (flatten k2) (N ++ k1) (map fragment_key (map fst (before ++ k1))) off ∧
      cmp (last_id Locator_min (map fst (N ++ k1))) (head_id k2) = Lt.
Proof.
  intros [[Hok Hb Hids (ins&Eins&Hsub&Hins) HK Hoff] Hr Hlen] Eps Hwf El Hlt.
  assert (Hk1 : Forall piece_ok k1). { pose proof ps_ok as Hps. rewrite Eps in Hps. by apply Forall_app in Hps as [_ [? _]%Forall_app]. }
  assert (Et : text (SumTree.summary t) = mkFragmentText (blen (codes true (flatten k1))) (blen (codes false (flatten k1)))).
  { rewrite (wf_summary _ _ _ Hwf), El. by apply isum_text. }
  destruct (ropes_append_at (new_ropes st) _ _ _ (λ v, codes v (flatten (before ++ k1))) (λ v, codes v (flatten k2))
    (λ v, codes v (flatten (N ++ k1))) (text (SumTree.summary t)) (λ v, codes v (flatten k1)) Hr) as (ropes&Er&Hr').
  1-2: by rewrite Et.
  1-3: intros v; by rewrite flatten_app, codes_app.
  exists ropes. split; [done|].
  assert (Hids' : ids_from Locator_min (map fst (N ++ k1)) ∧ cmp (last_id Locator_min (map fst (N ++ k1))) (head_id k2) = Lt).
  { rewrite map_app, ids_from_app, last_id_app.
    pose proof ps_ids as Hps. rewrite Eps, !map_app in Hps. apply ids_from_app in Hps as [_ Hps].
    destruct k1 as [|q k1]; [done|]. cbn [app map head_id] in *. rewrite last_id_cons.
    cbn [ids_from] in *. destruct Hps as (Hq&_&Hps). apply ids_from_app in Hps as [Hk1' Hk2].
    split; [done|]. destruct k2 as [|r k2]; [|by destruct Hk2 as (_&?&_)]. cbn [head_id].
    destruct (map fst k1) as [|f l _] using rev_ind; [apply Hq|]. rewrite last_id_snoc.
    apply ids_from_snoc in Hk1' as (_&[_ ?]&_). done. }
  intros st' Ef Ero Ei Eo. split; [|apply Hids']. split; [split| |].
  - by apply Forall_app.
  - rewrite Ef, map_app, <- El. eapply builds_append; [done|]. by eapply wf_cx.
  - apply Hids'.
  - exists ins. rewrite Ei, map_app. split; [done|]. split; [by apply sublist_inserts_r|].
    apply Forall_app. split; [done|]. apply Forall_forall. intros f Hf. right. rewrite Eps, !map_app. set_solver.
  - rewrite !map_app. set_solver.
  - by rewrite Eo.
  - by rewrite Ero.
  - by rewrite !flatten_app, !clen_app, Hlen.
Qed.

Lemma begun_nil before after : begun before after [] = map fragment_key (map fst before).
Proof. unfold begun. by destruct after; rewrite app_nil_r. Qed.

Lemma skip_to_from st before after N off n :
  ps = before ++ after → cursor_at (old_fragments st) (map fst before) (map fst after) → cursor_cx (old_fragments st) = cx →
  output_at st (flatten before) (flatten after) N (map fragment_key (map fst before)) off →
  patch_at st (flatten before) N → log_at st N → cmp (last_id Locator_min (map fst N)) (head_id after) = Lt →
  count before ≤ n →
  ∃ st' k1 k2, skip_to offset_of target_of bias st n = Some st' ∧ after = k1 ++ k2 ∧
    splice_at st' (before ++ k1) k2 [] (N ++ k1) off ∧ start_at st' (before ++ k1) [] ∧
    (k1 ≠ [] → passes (count (before ++ k1)) n) ∧ (∀ p k, k2 = p :: k → ¬ passes (count (before ++ k1 ++ [p])) n).
Proof.
  intros Eps Hc Ecx Hout Hpatch Hlog Hlt Hn. unfold skip_to.
  destruct (walk_slice (old_fragments st) before after n) as (c&t&h&k1&k2&->&->&Hc'&Hwf&El&Hp1&Hp2); [done..|].
  cbn [mbind option_bind].
  destruct (append_old st before k1 k2 N off h t Hout) as (ropes&->&Happ); [done..|].
  cbn [mbind option_bind]. pose proof Hc' as (Eps'&(hc&_&_&Hpos&_)&Hs'&Ecx').
  unfold start. rewrite Hpos, Ecx', (walk_offset _ _ Eps'). cbn [mbind option_bind].
  eexists _, k1, k2. split; [reflexivity|]. split; [done|].
  edestruct Happ as [Hout' Hlt']; cycle 4.
  - split; [|split; [unfold start_at; cbn; lia|done]]. split.
    + exact Hc'.
    + destruct k2 as [|q k2]; [done|]. by exists q.2.
    + rewrite head_nil, app_nil_r, begun_nil, rest_flatten. exact Hout'.
    + rewrite head_nil, app_nil_r. unfold patch_at. cbn [edits_patch].
      rewrite !flatten_app, !codes_app, !bytes_of_app. by apply patches_keep.
    + destruct Hlog as [Hlog (L&EL&HL)]. unfold SpliceOutput.log_at. cbn [insertion_slices]. rewrite flatten_app, map_app.
      split; [|exists L; split; [done|by apply sublist_inserts_r]]. apply Forall_app. split; [done|].
      pose proof ps_logged as Hl. rewrite Eps, !flatten_app in Hl. apply Forall_app in Hl as [_ [Hl _]%Forall_app].
      eapply Forall_impl; [exact Hl|]. intros ch. apply logged_mono. set_solver.
    + exact Hlt'.
  - done.
  - done.
  - done.
  - done.
Qed.
Lemma skip_to_at st before after N off n :
  splice_at st before after [] N off → count before ≤ n →
  ∃ st' k1 k2, skip_to offset_of target_of bias st n = Some st' ∧ after = k1 ++ k2 ∧
    splice_at st' (before ++ k1) k2 [] (N ++ k1) off ∧ start_at st' (before ++ k1) [] ∧
    (k1 ≠ [] → passes (count (before ++ k1)) n) ∧ (∀ p k, k2 = p :: k → ¬ passes (count (before ++ k1 ++ [p])) n).
Proof.
  intros [(Eps&Hc&Hs&Ecx) Hw Hout Hpatch Hlog Hlt]. rewrite head_nil, app_nil_r, begun_nil, rest_flatten in *.
  by apply skip_to_from.
Qed.

(** Where a move has come to: before [n], in the piece that reaches it. *)
Definition reaches before after x n : Prop :=
  count before + blen x ≤ n ∧ ∀ p post, after = p :: post → n ≤ count before + ccount (piece_chars p).

Lemma count_snoc before p : count (before ++ [p]) = count before + ccount (piece_chars p).
Proof. by rewrite flatten_snoc, clen_app. Qed.

(** *** The start *)

Lemma builder_from_empty h (t : FragmentTree) :
  wf cx_none h t → fragment_builder_new t = builder_append (mkFragmentBuilder [] (summary_zero cx_none)) t None.
Proof.
  intros Hwf. unfold fragment_builder_new, builder_append. destruct (is_empty t) eqn:E.
  - rewrite (wf_summary _ _ _ Hwf). by destruct (wf_empty_elements _ _ _ Hwf E) as [-> _].
  - cbn [builder_chunks builder_summary]. rewrite add_summary_zero_l; [done|].
    rewrite (wf_summary _ _ _ Hwf). apply isum_ok.
Qed.

(** The variables before the first edit. *)
Definition splice_new (c : Cursor Fragment FragmentSummary D (option Global)) (ropes : RopeBuilder) : Splice D :=
  mkSplice c 0 (mkFragmentBuilder [] (summary_zero cx_none)) ropes [] [] 0 Patch.empty.

Lemma splice_start c ropes n :
  cursor_at c [] (map fst ps) → cursor_cx c = cx →
  ropes_at ropes (λ _, []) (λ v, codes v (flatten ps)) (λ _, []) →
  (∃ st before after, skip_to offset_of target_of bias (splice_new c ropes) n = Some st ∧
    splice_at st before after [] before 0 ∧ start_at st before [] ∧ reaches before after [] n ∧
    (before = [] ∨ (bias = Left → count before < n))) ∧
  skip_to offset_of target_of bias (splice_new c ropes) n =
    ('(c, init) ← slice c (target_of n) bias;
     let new_fragments := fragment_builder_new init in
     ropes ← ropes_append ropes (text (builder_summary new_fragments));
     fragment_start ← offset_of (start c);
     Some (mkSplice c fragment_start new_fragments ropes [] [] 0 Patch.empty)).
Proof.
  intros Hc Ecx Hr. split.
  - destruct (skip_to_from (splice_new c ropes) [] ps [] 0 n) as (st&k1&k2&Est&Eps&Hst&Hs&Hp1&Hp2); try done.
    + split; [|done|done]. split; try done. by exists [].
    + split; [done|]. by exists [].
    + pose proof ps_ids as Hids. destruct ps as [|p qs]; [done|]. by destruct Hids as (_&?&_).
    + cbn. lia.
    + cbn [app] in *. exists st, k1, k2. split; [done|]. split; [done|]. split; [done|]. split; [split|].
      * change (blen []) with 0. destruct k1 as [|q k1]; [cbn; lia|]. specialize (Hp1 ltac:(done)).
        unfold passes in Hp1. destruct bias; lia.
      * intros p k ->. specialize (Hp2 p k eq_refl). rewrite count_snoc in Hp2. unfold passes in Hp2. destruct bias; lia.
      * destruct k1 as [|q k1]; [by left|right]. intros Hb. specialize (Hp1 ltac:(done)). unfold passes in Hp1. by rewrite Hb in Hp1.
  - unfold skip_to, splice_new. cbn [old_fragments new_ropes new_fragments new_insertions insertion_slices next_insertion_offset edits_patch].
    destruct (walk_slice c [] ps n) as (c'&t&h&k1&k2&->&_&_&Hwf&_); [done..|cbn; lia|]. cbn [mbind option_bind].
    rewrite (builder_from_empty h) by by eapply wf_cx. destruct (is_empty t) eqn:E.
    + unfold builder_append. rewrite E. cbn [builder_summary].
      rewrite (wf_summary _ _ _ Hwf). by destruct (wf_empty_elements _ _ _ Hwf E) as [-> _].
    + rewrite <- (builder_from_empty h) by by eapply wf_cx. done.
Qed.

Lemma catch_up_at st before after x N off n :
  splice_at st before after x N off → start_at st before x → count before + blen x ≤ n → n ≤ count ps →
  ∃ st' before' after' x' Q, catch_up offset_of target_of bias st n = Some st' ∧
    splice_at st' before' after' x' (N ++ Q) off ∧ start_at st' before' x' ∧ reaches before' after' x' n ∧
    rest_chars after x = flatten Q ++ rest_chars after' x' ∧
    (Q = [] ∧ before' = before ∧ after' = after ∧ x' = x ∨ x' = [] ∧ (bias = Left → count before' < n)).
Proof.
  intros Hst Hs Hle Hmax. pose proof Hst as [Hc Hw Hout Hpatch Hlog Hlt]. unfold catch_up.
  assert (Hend : ∃ e, item_end offset_of st = Some e ∧
    (e < n → ∃ p post, after = p :: post ∧ e = count (before ++ [p])) ∧
    ∀ p post, after = p :: post → e = count before + ccount (piece_chars p)).
  { destruct after as [|p post].
    - exists (count before). rewrite (item_end_nil _ _ Hc). split; [done|]. split; [|done].
      destruct Hc as (->&_). rewrite app_nil_r in *. lia.
    - exists (count before + ccount (piece_chars p)). rewrite (item_end_at _ _ _ _ Hc), <- count_snoc.
      split; [done|]. split; [intros _; eauto|]. intros ? ? [= <- <-]. apply count_snoc. }
  destruct Hend as (e&->&He&He'). cbn [mbind option_bind]. case_bool_decide as Hcase.
  2: { exists st, before, after, x, []. rewrite app_nil_r. split; [done|]. split; [done|]. split; [done|].
    split; [|split; [done|by left]]. split; [done|]. intros p post E. rewrite <- (He' p post E). lia. }
  destruct (He Hcase) as (p&post&->&->).
  destruct (finish_fragment_at st before (p :: post) x N off Hst Hs) as (st1&before1&after1&Q&->&Hst1&Erest&Hmoved).
  cbn [mbind option_bind].
  assert (Hle1 : count before1 ≤ n ∧ (before1 = before ++ [p] → count before1 < n)).
  { destruct Hmoved as [(->&_&->&_)|(q&[= -> ->]&->)]; [|lia]. split; [lia|]. intros E%(f_equal length). rewrite length_app in E. simpl in E. lia. }
  destruct Hle1 as [Hle1 Hlt1].
  destruct (skip_to_at st1 before1 after1 (N ++ Q) off n Hst1 Hle1) as (st2&k1&k2&->&->&Hst2&Hs2&Hp1&Hp2).
  exists st2, (before1 ++ k1), k2, [], (Q ++ k1). split; [done|]. split; [by rewrite app_assoc|]. split; [done|].
  assert (Hpass : count (before1 ++ k1) ≤ n ∧ (bias = Left → count (before1 ++ k1) < n)).
  { destruct k1 as [|q k1].
    - rewrite app_nil_r. split; [done|]. intros Hb. destruct Hmoved as [(->&_&->&E&_)|(q&[= -> ->]&->)]; [|by apply Hlt1].
      cbn [app] in E. subst k2. specialize (Hp2 p post eq_refl). unfold passes in Hp2. rewrite Hb in Hp2. cbn [app] in Hp2. lia.
    - specialize (Hp1 ltac:(done)). unfold passes in Hp1. destruct bias; split; try done; lia. }
  split; [|split].
  - split; [change (blen []) with 0; lia|]. intros q k ->. specialize (Hp2 q k eq_refl).
    rewrite app_assoc, count_snoc in Hp2. unfold passes in Hp2. destruct bias; lia.
  - by rewrite Erest, !flatten_app, rest_flatten, app_assoc.
  - right. split; [done|]. apply Hpass.
Qed.

(** A place between two characters. *)
Definition boundary (R : list Char) n : Prop := ∃ ca cb : list Char, R = ca ++ cb ∧ ccount ca = n.

Lemma boundary_run ts v d o y R n :
  cnt ts v = true → boundary (run ts v d o y ++ R) n → n ≤ blen y → ∃ ya yb, y = ya ++ yb ∧ blen ya = n.
Proof.
  intros Hc (ca&cb&E&<-). revert o ca E. induction y as [|z y IH]; intros o ca E Hn.
  { exists [], []. split; [done|]. change (blen []) with 0 in *. lia. }
  cbn [run app] in E. destruct ca as [|c ca]; [by exists [], (z :: y)|]. injection E as <- E.
  cbn [clen] in *. unfold counts_char at 1 in Hn. unfold counts_char at 1. cbn [char_timestamp char_visible] in *.
  rewrite Hc in *. unfold width in *. cbn [char_code] in *. rewrite blen_cons in Hn.
  destruct (IH _ _ E) as (ya&yb&->&El); [lia|]. exists (z :: ya), yb. rewrite blen_cons. split; [done|lia].
Qed.

(** The next part of the current piece, up to [n]. *)
Lemma next_part before p post x n :
  ps = before ++ p :: post → within (p :: post) x → count before + blen x < n → n ≤ count before + ccount (piece_chars p) →
  boundary (rest_chars (p :: post) x) (n - (count before + blen x)) →
  counts_fragment cnt p.1 = true ∧ ∃ a y, p.2 = x ++ a ++ y ∧ a ≠ [] ∧ n = count before + blen x + blen a.
Proof.
  intros Eps (y&E&_) Hlt Hle Hb.
  assert (Hcount : counts_fragment cnt p.1 = true).
  { rewrite clen_piece in Hle. destruct (counts_fragment cnt p.1); [done|lia]. }
  split; [done|]. rewrite clen_piece, Hcount, E, RopeCursor.blen_app in Hle.
  unfold rest_chars in Hb. rewrite E, drop_app_length in Hb.
  destruct (boundary_run _ _ _ _ _ _ _ Hcount Hb) as (a&y'&->&Ea); [lia|].
  exists a, y'. split; [done|]. split; [|lia]. intros ->. change (blen []) with 0 in Ea. lia.
Qed.

(** Some of the current piece goes under a new locator. *)
Lemma between_current st before p post x N off :
  splice_at st before (p :: post) x N off →
  ∃ id, between (new_max_id st) (fragment_id p.1) = Some id ∧ id_ok id ∧
    cmp (last_id Locator_min (map fst N)) id = Lt ∧ cmp id (fragment_id p.1) = Lt.
Proof.
  intros [(Eps&_) _ [Ht _ _] _ _ Hlt]. rewrite (new_max_id_at _ _ _ _ _ Ht).
  apply between_next; [by destruct Ht|apply id_ok_next; by destruct (ps_head_id _ _ _ Eps)|done].
Qed.

Lemma push_prefix_at st before after x N off n :
  splice_at st before after x N off → start_at st before x → reaches before after x n → n ≤ count ps →
  boundary (rest_chars after x) (n - (count before + blen x)) →
  ∃ st' x' Q, push_prefix offset_of st n = Some st' ∧
    splice_at st' before after x' (N ++ Q) off ∧ start_at st' before x' ∧ fragment_start st' = n ∧
    rest_chars after x = flatten Q ++ rest_chars after x' ∧
    (Q = [] ∧ st' = st ∧ x' = x ∨ x' ≠ [] ∧ ∃ p post a, after = p :: post ∧ counts_fragment cnt p.1 = true ∧
      a ≠ [] ∧ flatten Q = piece_chars (sub_fragment p.1 x a, a)).
Proof.
  intros Hst Hs [Hle Hend] Hmax Hb. pose proof Hst as [Hc Hw Hout Hpatch Hlog Hlt]. unfold push_prefix.
  rewrite Hs. case_bool_decide as Hcase.
  2: { exists st, x, []. rewrite app_nil_r. split; [done|]. split; [done|]. split; [done|]. rewrite Hs.
    split; [lia|]. split; [done|]. by left. }
  pose proof Hc as (Eps&_). destruct after as [|p post].
  { rewrite app_nil_r in Eps. rewrite Eps in Hmax. lia. }
  destruct (next_part before p post x n Eps Hw Hcase (Hend p post eq_refl) Hb) as (Hcount&a&y&E&Ha&->).
  rewrite (current_item _ _ _ Hc), (item_start_at _ _ _ Hc). cbn [mbind option_bind map head].
  assert (Hpx : piece_ok (p.1, x ++ a ++ y)). { rewrite <- E. destruct p. by apply (ps_piece _ _ _ Eps). }
  rewrite (cut_fragment_spec p.1 x a y) by done. cbn [mbind option_bind].
  change (fragment_id (sub_fragment p.1 x a)) with (fragment_id p.1).
  destruct (between_current _ _ _ _ _ _ _ Hst) as (id&->&Hid&Hlo&Hhi). cbn [mbind option_bind].
  destruct (emit_part st before p post x a y N off (set_id (sub_fragment p.1 x a) id)) as (Hp&st'&E'&(K1&K2&K3&K4)&Hout'); try done.
  change (visible (sub_fragment p.1 x a)) with (visible p.1). rewrite E'. cbn [mbind option_bind].
  assert (Echars : flatten [(set_id (sub_fragment p.1 x a) id, a)] =
    run (fragment_timestamp p.1) (visible p.1) (deletions p.1) (N.to_nat (insertion_offset p.1) + blen x) a).
  { rewrite flatten_cons, app_nil_r. change (piece_chars (set_id (sub_fragment p.1 x a) id, a)) with (piece_chars (sub_fragment p.1 x a, a)).
    apply sub_chars. }
  eexists _, (x ++ a), [(set_id (sub_fragment p.1 x a) id, a)]. split; [reflexivity|]. split; [split|split; [|split; [|split]]].
  - unfold set_fragment_start. cbn. by rewrite K1.
  - exists y. split; [by rewrite <- app_assoc|done].
  - by eapply output_ext.
  - rewrite head_part, app_assoc. eapply patch_same; [exact Hpatch|exact K3|]. by rewrite <- Echars, flatten_cons, app_nil_r.
  - eapply log_same; [exact Hlog|exact K4|].
    pose proof (ps_text _ _ _ Eps) as Hl. rewrite (piece_cut p x (a ++ y) E), run_text_app in Hl.
    apply Forall_app in Hl as [_ [Hl _]%Forall_app]. by rewrite <- Echars, flatten_cons, app_nil_r in Hl.
  - rewrite map_app. cbn [map head_id]. by rewrite last_id_snoc.
  - unfold start_at. cbn. rewrite RopeCursor.blen_app. lia.
  - done.
  - rewrite Echars. by apply (rest_part p post x a y).
  - right. split; [by destruct x, a|]. exists p, post, a. split; [done|]. split; [done|]. split; [done|].
    by rewrite Echars, sub_chars.
Qed.
(** *** New text *)

Lemma insert_text_at `{Build} st before after x N off t old_start :
  splice_at st before after x N off → Forall char_ok t → fits 32 (N.of_nat (off + blen t)) →
  observed V timestamp = false → (0 < value timestamp)%N →
  (t ≠ [] → old_start = blen (codes true (flatten before ++ head_chars after x))) →
  ∃ st' P, insert_text st (bytes_of t) timestamp old_start = Some st' ∧
    old_fragments st' = old_fragments st ∧ fragment_start st' = fragment_start st ∧
    splice_at st' before after x (N ++ P) (off + blen t) ∧ flatten P = run timestamp true [] off t.
Proof.
  intros [Hc Hw Hout Hpatch Hlog Hlt] Hok Hfits Hobs Hpos Hold. unfold insert_text. case_bool_decide as Ht.
  { apply blen_zero in Ht as ->; [|done]. exists st, []. rewrite app_nil_r.
    change (blen []) with 0. rewrite Nat.add_0_r. done. }
  rewrite (current_item _ _ _ Hc). cbn [mbind option_bind].
  assert (Hne : t ≠ []) by by intros ->. specialize (Hold Hne). pose proof Hc as (Eps&_).
  assert (Ehead : match head (map fst after) with Some f => fragment_id f | None => Locator_max end = head_id after) by by destruct after.
  rewrite Ehead. pose proof Hout as [Htree _ _].
  destruct (push_fragments_for_insertion_spec base slices0 (map fst ps) timestamp (head_id after) Hpos (head_id_ok _ _ Eps)
    V st _ _ t N _ off Hout Hlog Hok Hfits Hobs Hlt) as (st'&P&->&E1&E2&E3&Hout'&Hlog'&Hlt'&EP).
  cbn [mbind option_bind]. eexists _, P. split; [reflexivity|]. split; [done|]. split; [done|]. split; [|done]. split; try done.
  - cbn. by rewrite E1.
  - by eapply output_ext.
  - unfold patch_at. cbn [edits_patch push_edit]. rewrite E3, (new_visible_len_at _ _ _ _ _ Htree), Hold.
    rewrite (flatten_app N P), EP, (codes_app true (flatten N)), codes_run. rewrite bool_decide_eq_true_2, (bytes_of_app (codes true (flatten N))) by done.
    pose proof (PatchFacts.applies_push (edits_patch st) _ _ [] (bytes_of t) Hpatch) as Hp.
    unfold PatchFacts.edit_at in Hp. rewrite Nat.add_0_r, app_nil_r in Hp. exact Hp.
Qed.

(** *** The end *)

Lemma finish_splice_at st before after x N off :
  splice_at st before after x N off → start_at st before x →
  ∃ fragments texts st' N', finish_splice offset_of st = Some (fragments, texts, st') ∧
    (∃ h, wf cx_none h fragments) ∧ elements fragments = map fst N' ∧
    RopeTree.rope_text (codes true (flatten N')) texts.1 ∧ RopeTree.rope_text (codes false (flatten N')) texts.2 ∧
    flatten N' = flatten N ++ rest_chars after x ∧ Forall piece_ok N' ∧ ids_from Locator_min (map fst N') ∧
    PatchFacts.patches (edits_patch st') (bytes_of (codes true (flatten ps))) (bytes_of (codes true (flatten N'))) ∧
    log_at st' N' ∧ map fragment_key (map fst ps) ⊆ map fragment_key (map fst N') ∧
    ∃ ins, new_insertions st' = map insert_new ins ∧ sublist ins (map fst N') ∧
      Forall (λ f, f ∈ ins ∨ f ∈ map fst ps) (map fst N').
Proof.
  intros Hst Hs. unfold finish_splice.
  destruct (finish_fragment_at st before after x N off Hst Hs) as (st1&before1&after1&Q&->&Hst1&Erest&_).
  cbn [mbind option_bind]. destruct Hst1 as [Hc Hw Hout Hpatch Hlog Hlt].
  destruct (walk_suffix (old_fragments st1) before1 after1 Hc) as (c&t&h&->&Hwf&El). cbn [mbind option_bind].
  destruct Hc as (Eps&_&_&_). rewrite head_nil, app_nil_r, begun_nil, rest_flatten in *.
  assert (Eps' : ps = before1 ++ after1 ++ []) by by rewrite app_nil_r.
  destruct (append_old st1 before1 after1 [] (N ++ Q) off h t) as (ropes&->&Happ); try done; try by rewrite app_nil_r.
  cbn [mbind option_bind].
  destruct (Happ (mkSplice (old_fragments st1) (fragment_start st1) (builder_append (new_fragments st1) t None) ropes
    (new_insertions st1) (insertion_slices st1) (next_insertion_offset st1) (edits_patch st1))) as [[Ht Hr _] _]; try done.
  destruct (finish_at _ _ _ _ Hr) as (texts&Efin&Hv&Hd). cbn [new_ropes] in Efin. rewrite Efin. cbn [mbind option_bind].
  destruct Ht as [Hok Hb Hids Hins HK _].
  destruct (to_sum_tree_spec _ _ Hb) as (tree&ht&Etree&Hwft&Elt). cbn [new_fragments] in Etree. rewrite Etree.
  cbn [mbind option_bind]. eexists _, texts, st1, _. split; [reflexivity|]. split; [by exists ht|]. split; [exact Elt|].
  rewrite !app_nil_r in *. split; [done|]. split; [done|]. split; [by rewrite !flatten_app, Erest, <- app_assoc|].
  split; [done|]. split; [done|]. split; [|split; [|split; [|done]]].
  - rewrite Eps, (flatten_app before1), (flatten_app (N ++ Q)), !codes_app, !bytes_of_app. by apply patches_keep.
  - destruct Hlog as [Hlog (L&EL&HL)]. unfold SpliceOutput.log_at. rewrite flatten_app, (map_app fst (N ++ Q)).
    split; [|exists L; split; [done|by apply sublist_inserts_r]]. apply Forall_app. split; [done|].
    pose proof ps_logged as Hl. rewrite Eps, flatten_app in Hl. apply Forall_app in Hl as [_ Hl].
    eapply Forall_impl; [exact Hl|]. intros ch. apply logged_mono. set_solver.
  - by rewrite Eps.
Qed.
End walk.

Arguments walks {D Target _ _} offset_of target_of bias cx cnt ps.
Arguments cursor_on {D _} cx ps c before after.
Arguments within cnt after x : clear implicits.
Arguments splice_at {D _} cx cnt ps V base slices0 timestamp st before after x N off : rename.
Arguments start_at {D} cnt st before x : rename.
Arguments passes bias e n : clear implicits.
Arguments reaches cnt before after x n : clear implicits.
Arguments boundary cnt R n : clear implicits.
