(* ===== verification/SpliceDims.v ===== *)
(** The dimensions that edits walk by: the visible offset, and the offset in
    the full text of a version.  Both satisfy [walks].  And what deleting the
    rest of a range does to the pieces passed. *)

From stdpp Require Import base numbers option list sets.
From S2P Require Import Prelude Clock SumTree SumTreeFacts Search Cursor CursorFacts StepFacts CursorApi Locator Utf8 Operation Fragment Builder Splice Snapshot Remote Document Pieces BuilderFacts SpliceOutput SpliceWalk.
From S2P Require KeyedTree Patch PatchFacts Rope RopeCursor.

#[local] Open Scope nat_scope.

Section cut.
Context {T S Cx D : Type} `{SummaryLaws S Cx, !Item T S Cx, !ItemLaws T S Cx, !Dimension D S Cx}.

(** What a cut says about the position before it and the next one. *)
Lemma seek_split_cut (p : D → bool) (cx : Cx) d (l a b : list T) :
  seek_split p cx d l = (a, b) →
  l = a ++ b ∧ (a ≠ [] → p (dsum cx d a) = false) ∧ ∀ i k, b = i :: k → p (dsum cx d (a ++ [i])) = true.
Proof.
  revert d a b. induction l as [|i l IH]; intros d a b; cbn [seek_split].
  { intros [= <- <-]. done. }
  destruct (p (dim_add_summary d (item_summary_of i cx) cx)) eqn:E.
  { intros [= <- <-]. split; [done|]. split; [done|]. by intros j k [= -> ->]. }
  destruct (seek_split p cx _ l) as [a' b'] eqn:Es. intros [= <- <-]. destruct (IH _ _ _ Es) as (->&Ha&Hb).
  split; [done|]. split.
  - intros _. destruct a' as [|j a']; [done|]. by apply Ha.
  - intros j k Ek. apply (Hb j k Ek).
Qed.
End cut.

Section intro.
Context {D Target : Type} `{!Dimension D FragmentSummary (option Global),
  !SeekTarget Target D (option Global)} (offset_of : D → option nat) (target_of : nat → Target) (bias : Bias).
Context (cx : option Global) (cnt : Lamport → bool → bool) (ps : list Piece).

Abbreviation count l := (clen (counts_char cnt) (flatten l)) (only parsing).

Hypothesis offset_law : ∀ l1 l2, ps = l1 ++ l2 → offset_of (dsum cx (dim_zero cx) (map fst l1)) = Some (count l1).
Hypothesis cmp_law : ∀ l1 l2 n, ps = l1 ++ l2 →
  target_cmp (target_of n) (dsum cx (dim_zero cx) (map fst l1)) cx = Nat.compare n (count l1).
Hypothesis exact_law : ∀ n, skip_exact (stops cx (target_of n) bias) cx (dim_zero cx) (map fst ps).
Hypothesis suffix_law : ∀ c l1 l2, cursor_on (D:=D) cx ps c l1 l2 →
  ∃ c' t h, suffix c = Some (c', t) ∧ wf cx h t ∧ elements t = map fst l2.

Lemma stops_law l1 l2 n :
  ps = l1 ++ l2 → stops cx (target_of n) bias (dsum cx (dim_zero cx) (map fst l1)) = true ↔ ¬ passes bias (count l1) n.
Proof.
  intros E. unfold stops, target_in_child, passes. rewrite (cmp_law _ _ _ E).
  destruct (Nat.compare_spec n (count l1)), bias; simpl; split; (lia || done).
Qed.

Lemma map_split (l1 : list Piece) (a b : list Fragment) : map fst l1 = a ++ b → ∃ k1 k2, l1 = k1 ++ k2 ∧ a = map fst k1 ∧ b = map fst k2.
Proof. intros (k1&k2&?&?&?)%fmap_app_inv. by exists k1, k2. Qed.

Lemma good_law n : seek_good (stops cx (target_of n) bias) cx (dim_zero cx) (map fst ps).
Proof.
  split; [|apply exact_law]. intros a b k E _.
  destruct (map_split _ _ _ E) as (l1&l23&E1&->&E2). symmetry in E2. destruct (map_split _ _ _ E2) as (l2&l3&->&->&->).
  rewrite <- map_app, !(stops_law _ _ n E1), (stops_law (l1 ++ l2) l3) by by rewrite <- app_assoc.
  rewrite flatten_app, clen_app. unfold passes. destruct bias; lia.
Qed.

Lemma walks_intro : walks offset_of target_of bias cx cnt ps.
Proof.
  split; [done| |done]. intros c l1 l2 n E Hc Ecx Hn.
  assert (Hpos : position c = dsum cx (dim_zero cx) (map fst l1)) by (destruct Hc as (?&_&_&Hp&_); by rewrite Ecx in Hp).
  destruct (seek_cut c (target_of n) bias (map fst l2)) as [a b] eqn:Ecut.
  assert (Hs : seekable c (target_of n) bias (map fst l2)).
  { split; rewrite Hpos, Ecx.
    - rewrite (cmp_law _ _ _ E). intros ?%Nat.compare_lt_iff. lia.
    - apply seek_good_app_r. rewrite <- map_app, <- E. apply good_law. }
  destruct (slice_spec c (target_of n) bias _ _ a b Hc Hs Ecut) as (c'&t&h&Esl&(_&Ecx'&Hs')&Hc'&Hwf&El).
  unfold seek_cut in Ecut. rewrite Hpos, Ecx in Ecut. apply seek_split_cut in Ecut as (Eab&Ha&Hb).
  destruct (map_split _ _ _ Eab) as (k1&k2&->&->&->). rewrite Ecx in *.
  assert (E' : ps = (l1 ++ k1) ++ k2) by by rewrite <- app_assoc.
  exists c', t, h, k1, k2. split; [done|]. split; [done|]. split.
  { split; [done|]. by rewrite map_app. }
  split; [done|]. split; [done|]. split.
  - intros Hne. specialize (Ha ltac:(by destruct k1)). rewrite <- dsum_app, <- map_app in Ha.
    destruct (stops_law _ _ n E') as [_ Hstop]. unfold passes in *. rewrite Ha in Hstop.
    destruct bias; (destruct (decide (count (l1 ++ k1) ≤ n)); destruct (decide (count (l1 ++ k1) < n)); try done; naive_solver).
  - intros p k ->. specialize (Hb _ _ eq_refl). rewrite <- dsum_app in Hb.
    replace (map fst l1 ++ map fst k1 ++ [p.1]) with (map fst (l1 ++ k1 ++ [p])) in Hb by by rewrite !map_app.
    apply (stops_law _ k) in Hb; [done|]. by rewrite E, <- !app_assoc.
Qed.
End intro.

(** ** The visible offset *)

Definition counts_visible (_ : Lamport) (v : bool) : bool := v.

Lemma dsum_text (cx : option Global) (ps : list Piece) d :
  Forall piece_ok ps →
  dsum cx d (map fst ps) =
    mkFragmentText (text_visible d + blen (codes true (flatten ps))) (text_deleted d + blen (codes false (flatten ps))).
Proof.
  intros Hok. revert d. induction Hok as [|p ps Hp Hok IH]; intros d; [destruct d as [v e]; symmetry; exact (f_equal2 mkFragmentText (Nat.add_0_r v) (Nat.add_0_r e))|].
  cbn [map]. change (dsum cx d (p.1 :: map fst ps)) with (dsum cx (dim_add_summary d (item_summary_of p.1 cx) cx) (map fst ps)).
  rewrite IH, flatten_cons, !codes_app, !RopeCursor.blen_app, !codes_piece. destruct Hp as (_&_&Hlen&_).
  cbn. unfold Fragment_Item. destruct (visible p.1); cbn; rewrite Hlen, Nat2N.id; f_equal; apply eq_sym, Nat.add_assoc.
Qed.

Lemma clen_visible cs : clen (counts_char counts_visible) cs = blen (codes true cs).
Proof.
  induction cs as [|c cs IH]; [done|]. cbn [clen]. rewrite IH, codes_cons, RopeCursor.blen_app. unfold counts_char, counts_visible.
  destruct (char_visible c); [|done]. rewrite bool_decide_eq_true_2, blen_cons by done. unfold width. change (blen []) with 0. lia.
Qed.

Lemma local_walks cx ps :
  Forall piece_ok ps → walks (D:=FragmentTextSummary) (Target:=nat) visible_offset id Right cx counts_visible ps.
Proof.
  intros Hok.
  assert (Hpre : ∀ l1 l2, ps = l1 ++ l2 → dsum (D:=FragmentTextSummary) cx (dim_zero cx) (map fst l1) =
    mkFragmentText (clen (counts_char counts_visible) (flatten l1)) (blen (codes false (flatten l1)))).
  { intros l1 l2 E. rewrite clen_visible. rewrite E in Hok. apply Forall_app in Hok as [Hok _]. by rewrite (dsum_text cx l1 _ Hok). }
  apply walks_intro.
  - intros l1 l2 E. by rewrite (Hpre _ _ E).
  - intros l1 l2 n E. by rewrite (Hpre _ _ E).
  - intros n l1 l2 l3 _ Hne _. by rewrite dsum_isum, dsum_app.
  - intros c l1 l2 (E&Hc&_&Ecx). destruct (suffix_spec c _ _ Hc) as (c'&t&h&?&_&_&Hwf&?).
    exists c', t, h. by rewrite Ecx in Hwf.
Qed.

(** ** What a version has observed of a sum *)

Lemma forallb_zip_le l r :
  length r ≤ length l →
  forallb (λ '(l, r), bool_decide (r ≤ l)%N) (zip l r) = true ↔ ∀ i, (nth0 r i ≤ nth0 l i)%N.
Proof.
  revert r. induction l as [|a l IH]; intros [|b r] Hlen; cbn [zip zip_with forallb length] in *; try lia.
  - naive_solver.
  - split; [|done]. intros _ i. rewrite nth0_ge by (cbn; lia). lia.
  - rewrite andb_true_iff, bool_decide_eq_true, IH by lia. split.
    + intros [Hba H] [|i]; [done|apply H].
    + intros H. split; [apply (H 0)|intros i; apply (H (S i))].
Qed.

Lemma observed_all_trimmed V b :
  trimmed b → observed_all V b = true ↔ ∀ i, (nth0 (values b) i ≤ nth0 (values V) i)%N.
Proof.
  intros Hb. rewrite observed_all_values. case_bool_decide as Hlen; [|apply forallb_zip_le; lia].
  split; [done|]. intros H. exfalso. assert (Hne : values b ≠ []) by (intros E; rewrite E in Hlen; cbn in Hlen; lia).
  pose proof (trimmed_last b Hb Hne) as Hl. specialize (H (length (values b) - 1)). rewrite (nth0_ge (values V)) in H by lia. lia.
Qed.

Lemma existsb_zip_le l r :
  existsb (λ '(l, r), bool_decide (0 < r)%N && bool_decide (r ≤ l)%N) (zip l r) = true ↔ ∃ i, (0 < nth0 r i ≤ nth0 l i)%N.
Proof.
  revert r. induction l as [|a l IH]; intros [|b r]; cbn [zip zip_with existsb].
  1-2: split; [done|]; intros (i&?&?); rewrite (nth0_ge (@nil N)) in * by (cbn; lia); lia.
  1: split; [done|]; intros (i&?&?); rewrite (nth0_ge (@nil N)) in * by (cbn; lia); lia.
  rewrite orb_true_iff, andb_true_iff, !bool_decide_eq_true, IH. split.
  - intros [[??]|(i&?)]; [by exists 0|by exists (S i)].
  - intros ([|i]&?); [by left|right; by exists i].
Qed.

Lemma existsb_ext_l {A} (p q : A → bool) l : (∀ a, p a = q a) → existsb p l = existsb q l.
Proof. intros E. induction l; cbn; congruence. Qed.

Lemma observed_any_entries V b :
  observed_any V b = true ↔ ∃ i, (0 < nth0 (values b) i ≤ nth0 (values V) i)%N.
Proof.
  rewrite <- existsb_zip_le. unfold observed_any, iter.
  set (F := λ i seq, mkLamport seq (wrap_N 16 (N.of_nat i))).
  pose proof (zip_iter_values (λ l r, bool_decide (0 < r)%N && bool_decide (r ≤ l)%N) F F (values V) (values b)
                (λ _ _, eq_refl) (λ _ _, eq_refl)) as E.
  apply (f_equal (existsb id)) in E. rewrite !existsb_map in E.
  rewrite (existsb_ext_l _ (λ p, id (let '(l, r) := p in bool_decide (0 < value r)%N && bool_decide (value r ≤ value l)%N)))
    by (by intros []).
  rewrite E. by rewrite (existsb_ext_l _ (λ '(l, r), bool_decide (0 < r)%N && bool_decide (r ≤ l)%N)) by (by intros []).
Qed.

Lemma trimmed_join a b : trimmed a → trimmed b → trimmed (join a b).
Proof.
  intros Ha Hb. pose proof (length_join a b) as L. pose proof (join_entries a b) as E. destruct (join a b) as [vs]. cbn in *.
  apply trimmed_intro. intros Hne. rewrite E, L.
  destruct (decide (values a = [])) as [Ea|Ea].
  - rewrite Ea in *. cbn [length] in *. rewrite Nat.max_0_l in *.
    assert (Eb : values b ≠ []) by (intros Eb; rewrite Eb in L; by destruct vs). pose proof (trimmed_last b Hb Eb). lia.
  - destruct (decide (values b = [])) as [Eb|Eb].
    + rewrite Eb in *. cbn [length] in *. rewrite Nat.max_0_r in *. pose proof (trimmed_last a Ha Ea). lia.
    + pose proof (trimmed_last a Ha Ea). pose proof (trimmed_last b Hb Eb).
      destruct (Nat.max_spec (length (values a)) (length (values b))) as [[_ ->]|[_ ->]]; lia.
Qed.

Lemma observed_entry V t : observed V t = true ↔ (value t ≤ nth0 (values V) (N.to_nat (replica_id t)))%N.
Proof. unfold observed. by rewrite bool_decide_eq_true, get_nth0. Qed.

Lemma entry_new t i :
  nth0 (values (Global_observe Global_new t)) i = if decide (i = N.to_nat (replica_id t)) then value t else 0%N.
Proof. rewrite observe_entries. change (values Global_new) with (@nil N). rewrite (nth0_ge []) by (cbn; lia). case_decide; lia. Qed.

Section observed.
Context (cx : option Global) (V : Global).
Implicit Types fs : list Fragment.

Definition observed_fragment (f : Fragment) : bool := observed V (fragment_timestamp f).

Lemma item_versions f :
  max_insertion_version (item_summary_of f cx) = Global_observe Global_new (fragment_timestamp f) ∧
  min_insertion_version (item_summary_of f cx) = Global_observe Global_new (fragment_timestamp f).
Proof. unfold item_summary_of. cbn. unfold Fragment_Item. by destruct (visible f). Qed.

Lemma sum_max fs : trimmed (max_insertion_version (isum cx fs)).
Proof.
  induction fs as [|f fs IH] using rev_ind; [done|]. rewrite isum_snoc.
  cbn [add_summary FragmentSummary_Summary max_insertion_version]. apply trimmed_join; [done|].
  destruct (item_versions f) as [-> _]. apply trimmed_observe_new.
Qed.

Lemma sum_observed_all fs :
  observed_all V (max_insertion_version (isum cx fs)) = forallb observed_fragment fs.
Proof.
  apply eq_bool_prop_intro. rewrite !Is_true_true, observed_all_trimmed by apply sum_max.
  induction fs as [|f fs IH] using rev_ind.
  { split; [done|]. intros _ i. change (values (max_insertion_version _)) with (@nil N). rewrite (nth0_ge []) by (cbn; lia). lia. }
  rewrite forallb_app, andb_true_iff, <- IH, isum_snoc. cbn [add_summary FragmentSummary_Summary max_insertion_version].
  destruct (item_versions f) as [-> _]. cbn [forallb]. unfold observed_fragment. rewrite andb_true_r, observed_entry. split.
  - intros H. split.
    + intros i. specialize (H i). rewrite join_entries in H. lia.
    + specialize (H (N.to_nat (replica_id (fragment_timestamp f)))). rewrite join_entries, entry_new, decide_True in H by done. lia.
  - intros [H1 H2] i. rewrite join_entries, entry_new. specialize (H1 i). case_decide; [subst|]; lia.
Qed.

Lemma meet_entry_le x y n : (0 < meet_entry x y ≤ n ↔ 0 < x ≤ n ∨ 0 < y ≤ n)%N.
Proof. unfold meet_entry. repeat case_bool_decide; lia. Qed.

Lemma sum_observed_any fs :
  Forall (λ f, 0 < value (fragment_timestamp f))%N fs →
  observed_any V (min_insertion_version (isum cx fs)) = existsb observed_fragment fs.
Proof.
  intros Hpos. apply eq_bool_prop_intro. rewrite !Is_true_true, observed_any_entries.
  induction fs as [|f fs IH] using rev_ind.
  { split; [|done]. intros (i&Hi). change (values (min_insertion_version _)) with (@nil N) in Hi.
    rewrite (nth0_ge []) in Hi by (cbn; lia). lia. }
  apply Forall_app in Hpos as [Hpos [Hf _]%Forall_cons].
  rewrite existsb_app, orb_true_iff, <- (IH Hpos), isum_snoc. cbn [add_summary FragmentSummary_Summary min_insertion_version].
  destruct (item_versions f) as [_ ->]. cbn [existsb]. unfold observed_fragment. rewrite orb_false_r, observed_entry.
  split.
  - intros (i&Hi). rewrite meet_entries in Hi. apply meet_entry_le in Hi as [Hi|Hi]; [left; by exists i|].
    rewrite entry_new in Hi. case_decide; [subst; right; lia|lia].
  - intros [(i&Hi)|Hi]; eexists; rewrite meet_entries; apply meet_entry_le; [by left|right].
    rewrite entry_new, decide_True by done. split; done.
Qed.
End observed.

(** ** Positions *)

Definition counts_version (V : Global) (t : Lamport) (_ : bool) : bool := observed V t.

Section positions.
Context (V : Global).
Abbreviation cx := (Some V) (only parsing).
Abbreviation count l := (clen (counts_char (counts_version V)) (flatten l)) (only parsing).
Implicit Types ps l : list Piece.

Lemma count_obs cs : clen (counts_char (counts_version V)) cs = clen (obs V) cs.
Proof. done. Qed.

Lemma count_piece p : count [p] = if observed_fragment V p.1 then blen p.2 else 0.
Proof. rewrite flatten_cons, app_nil_r. apply clen_piece. Qed.

Lemma count_all l : forallb (observed_fragment V) (map fst l) = true →
  count l = blen (codes true (flatten l)) + blen (codes false (flatten l)).
Proof.
  induction l as [|p l IH]; [done|]. cbn [map forallb]. intros [Hp Hl]%andb_true_iff.
  rewrite flatten_cons, clen_app, (IH Hl), !codes_app, !RopeCursor.blen_app, clen_piece, !codes_piece.
  unfold counts_fragment, counts_version. unfold observed_fragment in Hp. rewrite Hp.
  destruct (visible p.1); cbn [bool_decide decide_rel]; repeat case_bool_decide; try done; change (blen []) with 0; lia.
Qed.

Lemma count_none l : existsb (observed_fragment V) (map fst l) = false → count l = 0.
Proof.
  induction l as [|p l IH]; [done|]. cbn [map existsb]. intros [Hp Hl]%orb_false_iff.
  rewrite flatten_cons, clen_app, (IH Hl), clen_piece. unfold counts_fragment, counts_version.
  unfold observed_fragment in Hp. by rewrite Hp.
Qed.

Lemma positive_pieces l : Forall piece_ok l → Forall (λ f, 0 < value (fragment_timestamp f))%N (map fst l).
Proof. intros Hok. apply Forall_fmap. eapply Forall_impl; [exact Hok|]. by intros p (_&_&_&_&?). Qed.

Definition remote_position (l : list Piece) : VersionedFullOffset * nat :=
  (Offset (MkFullOffset (count l)), blen (codes true (flatten l))).

(** The sum of a subtree is the sum of its pieces, or [Invalid]. *)
Lemma position_sum l1 l2 :
  Forall piece_ok l2 → l2 ≠ [] →
  dim_add_summary (remote_position l1) (isum cx (map fst l2)) cx = remote_position (l1 ++ l2) ∨
  (dim_add_summary (remote_position l1) (isum cx (map fst l2)) cx).1 = Invalid ∧
    forallb (observed_fragment V) (map fst l2) = false ∧ existsb (observed_fragment V) (map fst l2) = true.
Proof.
  intros Hok Hne. unfold remote_position.
  cbn [dim_add_summary prod_Dimension VersionedFullOffset_Dimension usize_Dimension fst snd default].
  rewrite sum_observed_all, sum_observed_any by by apply positive_pieces.
  rewrite (isum_text cx l2 Hok). cbn [text_visible text_deleted full_offset].
  change (id V) with V.   rewrite flatten_app, clen_app, codes_app, RopeCursor.blen_app.
  destruct (forallb (observed_fragment V) (map fst l2)) eqn:Eall; [left; by rewrite (count_all l2 Eall)|].
  destruct (existsb (observed_fragment V) (map fst l2)) eqn:Eany; [by right|left].
  by rewrite (count_none l2 Eany), Nat.add_0_r.
Qed.

Lemma position_piece l p : piece_ok p →
  dim_add_summary (remote_position l) (item_summary_of p.1 cx) cx = remote_position (l ++ [p]).
Proof.
  intros Hp. assert (Eone : isum cx (map fst [p]) = item_summary_of p.1 cx).
  { change (map fst [p]) with ([] ++ [p.1]). rewrite isum_snoc. apply add_summary_zero_l, item_summary_ok. }
  rewrite <- Eone. destruct (position_sum l [p]) as [E|(_&Eall&Eany)]; [by apply Forall_singleton|done|exact E|].
  cbn in Eall, Eany. rewrite orb_false_r in Eany. rewrite Eany in Eall. done.
Qed.

Lemma position_pieces l k : Forall piece_ok k → dsum cx (remote_position l) (map fst k) = remote_position (l ++ k).
Proof.
  revert l. induction k as [|p k IH]; intros l Hok; [by rewrite app_nil_r|]. apply Forall_cons in Hok as [Hp Hok].
  cbn [map]. change (dsum cx (remote_position l) (p.1 :: map fst k)) with
    (dsum cx (dim_add_summary (remote_position l) (item_summary_of p.1 cx) cx) (map fst k)).
  rewrite position_piece, IH by done. by rewrite <- app_assoc.
Qed.

Lemma position_start : dim_zero cx = remote_position [].
Proof. done. Qed.

Lemma position_prefix ps l1 l2 :
  Forall piece_ok ps → ps = l1 ++ l2 → dsum cx (dim_zero cx) (map fst l1) = remote_position l1.
Proof. intros Hok ->. apply Forall_app in Hok as [Hok _]. rewrite position_start. by rewrite (position_pieces [] l1 Hok). Qed.

Lemma remote_walks ps :
  Forall piece_ok ps → walks (D:=VersionedFullOffset * nat) (Target:=VersionedFullOffset) remote_offset remote_target Left cx (counts_version V) ps.
Proof.
  intros Hok. apply walks_intro.
  - intros l1 l2 E. by rewrite (position_prefix _ _ _ Hok E).
  - intros l1 l2 n E. rewrite (position_prefix _ _ _ Hok E). cbn. apply Nat.compare_antisym || done.
  - intros n f1 f2 f3 E Hne. destruct (map_split _ _ _ E) as (l1&l23&E1&->&E2). symmetry in E2.
    destruct (map_split _ _ _ E2) as (l2&l3&->&->&->). rewrite (position_prefix _ _ _ Hok E1), <- map_app.
    assert (E1' : ps = (l1 ++ l2) ++ l3) by by rewrite <- app_assoc. rewrite (position_prefix _ _ _ Hok E1').
    rewrite E1 in Hok. apply Forall_app in Hok as [_ [Hok2 _]%Forall_app].
    destruct (position_sum l1 l2 Hok2) as [->|(Einv&_)]; [by destruct l2|done|].
    unfold stops, target_cmp, fst_SeekTarget, target_cmp. rewrite Einv. done.
  - intros c l1 l2 (E&Hc&_&Ecx). destruct (suffix_forget c _ _ Hc) as (c'&t&h&?&Hwf&?).
    exists c', t, h. by rewrite Ecx in Hwf.
Qed.
End positions.

(** The offset is between two characters, for the author of the edit. *)
Definition seen_boundary (V : Global) (cs : list Char) (n : nat) : Prop := ∃ a b, cs = a ++ b ∧ clen (obs V) a = n.

Section strike.
Context {D Target : Type} `{!Dimension D FragmentSummary (option Global),
  !SeekTarget Target D (option Global)} {offset_of : D → option nat} {target_of : nat → Target} {bias : Bias}.
Context {cx : option Global} {cnt : Lamport → bool → bool} {ps : list Piece}.
Context `{Hwalk : !walks offset_of target_of bias cx cnt ps} {V : Global} {base : Lamport → Prop}
  {slices0 : list InsertionSlice} {timestamp : Lamport}.
Context `{Hdoc : !DocumentOk ps base slices0} (mark : Char → Char).
Implicit Types (st : Splice D) (before after N : list Piece) (x a y : list Z) (n off : nat).

Abbreviation splice_at := (SpliceWalk.splice_at cx cnt ps V base slices0 timestamp) (only parsing).
Abbreviation start_at := (SpliceWalk.start_at cnt) (only parsing).
Abbreviation ccount := (clen (counts_char cnt)) (only parsing).
Abbreviation count l := (ccount (flatten l)) (only parsing).
Abbreviation boundary := (SpliceWalk.boundary cnt) (only parsing).

(** What a turn or the whole loop has done: [u] is passed and marked. *)
Definition struck st before after x N off st' before' after' x' N' : Prop :=
  ∃ Q u, N' = N ++ Q ∧ splice_at st' before' after' x' N' off ∧ start_at st' before' x' ∧
    rest_chars after x = u ++ rest_chars after' x' ∧ flatten Q = map mark u ∧
    fragment_start st' = fragment_start st + ccount u.

Lemma struck_refl st before after x N off :
  splice_at st before after x N off → start_at st before x → struck st before after x N off st before after x N.
Proof. intros Hst Hs. exists [], []. rewrite app_nil_r, Nat.add_0_r. done. Qed.

Lemma struck_trans st before after x N off st1 before1 after1 x1 N1 st2 before2 after2 x2 N2 :
  struck st before after x N off st1 before1 after1 x1 N1 → struck st1 before1 after1 x1 N1 off st2 before2 after2 x2 N2 →
  struck st before after x N off st2 before2 after2 x2 N2.
Proof.
  intros (Q1&u1&->&_&_&E1&EQ1&F1) (Q2&u2&->&Hst&Hs&E2&EQ2&F2). exists (Q1 ++ Q2), (u1 ++ u2).
  split; [by rewrite app_assoc|]. split; [done|].
  split; [done|]. split; [by rewrite E1, E2, app_assoc|]. split; [by rewrite flatten_app, map_app, EQ1, EQ2|].
  rewrite F2, F1, clen_app. lia.
Qed.

(** After a part that ends the piece, the cursor moves on. *)
Lemma struck_next st before p post x N off st1 N1 :
  struck st before (p :: post) x N off st1 before (p :: post) p.2 N1 →
  ∃ st', next_item st1 = Some st' ∧ struck st before (p :: post) x N off st' (before ++ [p]) post [] N1 ∧
    fragment_start st' = fragment_start st1.
Proof.
  intros (Q&u&->&Hst&Hs&Erest&EQ&Ef). pose proof Hst as [(Eps&_) Hw _ _ _ _].
  destruct (splice_pass _ _ _ _ _ _ Hst) as (st'&E&Hst'&Es).
  exists st'. split; [done|]. split; [|done]. exists Q, u. split; [done|]. split; [done|]. split; [|split; [|split]].
  - unfold SpliceWalk.start_at in *. rewrite Es, Hs, count_snoc, clen_piece. change (blen []) with 0.
    assert (Hcount : counts_fragment cnt p.1 = true).
    { destruct Hw as (y&_&Hcount). apply Hcount. apply (ps_piece _ _ _ Eps). }
    rewrite Hcount. lia.
  - by rewrite Erest, rest_passed.
  - done.
  - by rewrite Es.
Qed.

(** A piece that is passed whole, as it is. *)
Lemma struck_whole st before p post N off :
  splice_at st before (p :: post) [] N off → start_at st before [] → map mark (piece_chars p) = piece_chars p →
  ∃ st1 st2, push_part st p.1 (visible p.1) = Some st1 ∧ next_item st1 = Some st2 ∧
    struck st before (p :: post) [] N off (set_fragment_start st2 (fragment_start st + ccount (piece_chars p)))
      (before ++ [p]) post [] (N ++ [p]).
Proof.
  intros Hst Hs Hmark. pose proof Hst as [(Eps&_) _ _ _ _ _]. pose proof (ps_piece _ _ _ Eps) as Hp.
  destruct (push_rest_at (V:=V) (base:=base) (slices0:=slices0) (timestamp:=timestamp) st before p post [] p.2 N off) as (st1&st2&E1&E2&Hst2&Es2); try done.
  { apply Hp. }
  rewrite (sub_fragment_whole _ Hp) in *. exists st1, st2. split; [done|]. split; [done|].
  assert (Ep : (p.1, p.2) = p) by by destruct p. rewrite Ep in Hst2.
  exists [p], (piece_chars p). split; [done|]. split; [by apply splice_at_start|]. split; [|split; [|split]].
  - unfold SpliceWalk.start_at in *. cbn [set_fragment_start fragment_start]. rewrite Hs, count_snoc. change (blen []) with 0. lia.
  - by rewrite !rest_flatten.
  - by rewrite flatten_cons, app_nil_r.
  - done.
Qed.

(** A piece that is passed whole without an entry of its insertion. *)
Lemma skip_piece st before p post N off :
  splice_at st before (p :: post) [] N off →
  ∃ rb st', push_fragment (new_ropes st) p.1 (visible p.1) = Some rb ∧
    next_item (push_new (push_ropes st rb) p.1) = Some st' ∧
    splice_at st' (before ++ [p]) post [] (N ++ [p]) off ∧ fragment_start st' = fragment_start st.
Proof.
  intros [Hc Hw Hout Hpatch Hlog Hlt]. pose proof Hc as (Eps&_). pose proof (ps_piece _ _ _ Eps) as Hp.
  destruct (ps_head_id _ _ _ Eps) as [Hid Hnext]. rewrite head_nil, app_nil_r, begun_nil, rest_nil in * by apply Hp.
  assert (Ep : (p.1, p.2) = p) by by destruct p.
  destruct (emit_output V (map fst ps) st (flatten before) (flatten post) N (map fragment_key (map fst before)) off p.1 p.2
    (visible p.1) (deletions p.1) (N.to_nat (insertion_offset p.1)) false) as (rb&->&Hout'); try done.
  { right. rewrite Eps, map_app. set_solver. }
  rewrite Ep in Hout'. exists rb. set (st1 := push_new (push_ropes st rb) p.1) in *.
  assert (Hc1 : cursor_on cx ps (old_fragments st1) before (p :: post)) by exact Hc.
  destruct (splice_next (cnt:=cnt) (V:=V) (base:=base) (slices0:=slices0) (timestamp:=timestamp) st1 before p post (N ++ [p]) off Hc1) as (st'&E&Hst'&Es).
  - rewrite head_passed, rest_passed, begun_passed, head_nil, app_nil_r, rest_flatten, begun_nil, flatten_snoc by apply Hp.
    rewrite !map_app. exact Hout'.
  - rewrite head_passed, head_nil, app_nil_r, flatten_snoc. by eapply patch_same.
  - eapply log_same; [exact Hlog|done|]. by apply (ps_text before p post).
  - rewrite map_app. cbn [map]. by rewrite last_id_snoc.
  - by exists st'.
Qed.

(** A part of the current piece, pushed as the fragment [f] after the patch and
    the slices have been brought up to date in [st0]. *)
Lemma struck_part st st0 before p post x a y N off f :
  splice_at st before (p :: post) x N off → start_at st before x → p.2 = x ++ a ++ y → a ≠ [] →
  counts_fragment cnt p.1 = true →
  old_fragments st0 = old_fragments st → fragment_start st0 = fragment_start st → new_fragments st0 = new_fragments st →
  new_ropes st0 = new_ropes st → new_insertions st0 = new_insertions st → next_insertion_offset st0 = next_insertion_offset st →
  fragment_timestamp f = fragment_timestamp p.1 → insertion_offset f = (insertion_offset p.1 + N.of_nat (blen x))%N →
  fragment_len f = N.of_nat (blen a) → id_ok (fragment_id f) → cmp (last_id Locator_min (map fst N)) (fragment_id f) = Lt →
  cmp (fragment_id f) (fragment_id p.1) = Lt →
  map mark (run (fragment_timestamp p.1) (visible p.1) (deletions p.1) (N.to_nat (insertion_offset p.1) + blen x) a) =
    piece_chars (f, a) →
  (piece_ok (f, a) → patch_at st0 (flatten before ++ head_chars (p :: post) (x ++ a)) (N ++ [(f, a)]) ∧
    log_at base slices0 timestamp st0 (N ++ [(f, a)])) →
  ∃ st1, push_part st0 f (visible p.1) = Some st1 ∧
    struck st before (p :: post) x N off (set_fragment_start st1 (fragment_start st + blen a)) before (p :: post) (x ++ a)
      (N ++ [(f, a)]).
Proof.
  intros Hst Hs E Ha Hcount C1 C2 C3 C4 C5 C6 Et Eo El Hid Hlo Hhi Hmark Hafter.
  pose proof Hst as [Hc Hw Hout Hpatch Hlog Hlt]. pose proof Hc as (Eps&_).
  destruct (emit_part (V:=V) st0 before p post x a y N off f) as (Hp&st1&E1&(K1&K2&K3&K4)&Hout1); try done.
  { by eapply output_ext. }
  exists st1. split; [done|]. destruct (Hafter Hp) as [Hpatch' Hlog'].
  eexists [(f, a)], _. split; [done|]. split; [split|split; [|split; [|split]]].
  - cbn. by rewrite K1, C1.
  - exists y. split; [by rewrite <- app_assoc|]. done.
  - by eapply output_ext.
  - unfold patch_at in *. cbn [set_fragment_start edits_patch]. by rewrite K3.
  - unfold log_at in *. cbn [set_fragment_start insertion_slices]. by rewrite K4.
  - rewrite map_app. cbn [map head_id]. by rewrite last_id_snoc.
  - unfold SpliceWalk.start_at in *. cbn. rewrite Hs, RopeCursor.blen_app. lia.
  - by apply (rest_part p post x a y).
  - by rewrite Hmark, flatten_cons, app_nil_r.
  - cbn. unfold counts_fragment in Hcount. by rewrite clen_run, Hcount.
Qed.

Lemma cut_fragment_none f x s :
  piece_ok (f, x) → ∃ g, cut_fragment f s (s + blen x) (s + blen x) = Some g ∧ fragment_len g = 0%N ∧
    fragment_id g = fragment_id f ∧ visible g = visible f ∧ insertion_offset g = (insertion_offset f + N.of_nat (blen x))%N ∧
    fragment_timestamp g = fragment_timestamp f.
Proof.
  intros (_&_&Hlen&Hf&_). cbn [fst snd] in *. unfold cut_fragment, usub. rewrite !bool_decide_eq_true_2 by lia. cbn [mbind option_bind].
  replace (s + blen x - s) with (blen x) by lia. replace (s + blen x - (s + blen x)) with 0 by lia.
  rewrite !as_u32_small by (unfold fits in *; lia). unfold u32_add. rewrite bool_decide_eq_true_2 by (unfold fits in *; lia).
  cbn [mbind option_bind]. eexists. split; [reflexivity|]. done.
Qed.

Lemma fragment_len_pos p : piece_ok p → (0 < fragment_len p.1)%N.
Proof. intros (Hne&Hok&->&_). pose proof (RopeCursor.blen_pos _ Hok Hne). lia. Qed.

(** The text ahead, by what has been moved. *)
Lemma moved_count st before after x N off st' before' after' x' N' off' cs :
  splice_at st before after x N off → start_at st before x →
  splice_at st' before' after' x' N' off' → start_at st' before' x' →
  rest_chars after x = cs ++ rest_chars after' x' →
  fragment_start st' = fragment_start st + ccount cs.
Proof.
  intros [(E1&_) W1 _ _ _ _] S1 [(E2&_) W2 _ _ _ _] S2 E. unfold SpliceWalk.start_at in *.
  pose proof (position_total before after x E1 W1) as T1. pose proof (position_total before' after' x' E2 W2) as T2.
  rewrite E, clen_app in T1. lia.
Qed.

Lemma boundary_tail (R u R' : list Char) n k :
  boundary R n → R = u ++ R' → ccount u = k → k ≤ n → boundary R' (n - k).
Proof.
  intros (ra&rb&->&<-) E <- Hle. apply app_eq_inv in E as [(z&->&->)|(z&->&_)].
  - rewrite clen_app. exists z, rb. split; [done|lia].
  - rewrite clen_app in *. exists [], R'. split; [done|]. cbn [clen]. lia.
Qed.

Lemma boundary_end p post x y :
  p.2 = x ++ y → counts_fragment cnt p.1 = true → boundary (rest_chars (p :: post) x) (blen y).
Proof.
  intros E Hc. eexists _, (flatten post). unfold rest_chars. rewrite E, drop_app_length.
  split; [reflexivity|]. rewrite clen_run. unfold counts_fragment in Hc. by rewrite Hc.
Qed.

(** The part of the current piece that a range up to [n] takes: nothing when
    the piece has been consumed, else [a], to the end of the piece or to [n]. *)
Lemma take_part before p post x n :
  ps = before ++ p :: post → within cnt (p :: post) x → counts_fragment cnt p.1 = true → count before + blen x < n →
  boundary (rest_chars (p :: post) x) (n - (count before + blen x)) →
  let fragment_end := count before + blen p.2 in
  p.2 = x ∧ fragment_end ≤ n ∨
  ∃ a y, p.2 = x ++ a ++ y ∧ a ≠ [] ∧ 0 < blen a ∧ n `min` fragment_end = count before + blen x + blen a ∧
    (y = [] ∧ fragment_end ≤ n ∨ n < fragment_end ∧ count before + blen x + blen a = n).
Proof.
  intros Eps Hw Hcount Hlt Hb fragment_end. pose proof (ps_piece _ _ _ Eps) as (Hne&Hok&_). pose proof Hw as (y&E&_).
  assert (Elen : blen p.2 = blen x + blen y) by by rewrite E, RopeCursor.blen_app.
  destruct (decide (y = [])) as [->|Hy].
  { left. rewrite app_nil_r in E. split; [done|]. unfold fragment_end. rewrite E. lia. }
  right. rewrite E in Hok. apply Forall_app in Hok as [_ Hoky]. pose proof (RopeCursor.blen_pos _ Hoky Hy).
  assert (Emin : n `min` fragment_end = fragment_end ∧ fragment_end ≤ n ∨ n `min` fragment_end = n ∧ n < fragment_end) by lia.
  set (m := n `min` fragment_end) in *.
  destruct (next_part before p post x m Eps Hw) as (_&a&y'&E'&Ha&Em).
  - unfold fragment_end in *. lia.
  - rewrite clen_piece, Hcount. unfold fragment_end in *. lia.
  - destruct Emin as [[-> _]|[-> _]]; [|done]. unfold fragment_end. rewrite Elen.
    replace (count before + (blen x + blen y) - (count before + blen x)) with (blen y) by lia. by apply boundary_end.
  - exists a, y'. rewrite E in E'. apply app_inv_head in E'. subst y. split; [done|]. split; [done|].
    apply Forall_app in Hoky as [Hoka Hoky']. split; [by apply RopeCursor.blen_pos|]. split; [done|].
    rewrite RopeCursor.blen_app in Elen. destruct Emin as [[E1 E2]|[E1 E2]]; [left|right; lia].
    split; [|done]. apply blen_zero; [done|]. unfold fragment_end in *. lia.
Qed.
End strike.
