(* ===== verification/LocalEdit.v ===== *)
(** A local edit replaces the text it names, and what it did to the document is
    what the operation it returns says.

    The loop over the fragments is related to the visible text, by [splices],
    and to the document, by [Document.apply_edits]. *)

From stdpp Require Import base numbers option list sets.
From S2P Require Import Prelude Clock Utf8 Locator SumTree SumTreeFacts Search Cursor CursorFacts Operation Fragment Pieces Builder Splice LineEnding Snapshot Document BuilderFacts SpliceOutput SpliceWalk SpliceDims.
From S2P Require KeyedTree Patch PatchFacts Rope RopeCursor Iter.

#[local] Open Scope nat_scope.

(** Edits of a text by offsets: every range is between characters of the rest
    of the text [w], which starts at [pos]; the result is [w'], and [ts] are
    the normalized new texts. *)
Inductive splices :
    nat → list Z → list ((nat * nat) * list Z) → list Z → list (list Z) → Prop :=
  | splices_nil pos w : splices pos w [] w []
  | splices_cons pos g d w raw t es w' ts :
      normalize raw = bytes_of t → Forall char_ok t →
      splices (pos + blen g + blen d) w es w' ts →
      splices pos (g ++ d ++ w) (((pos + blen g, pos + blen g + blen d), raw) :: es) (g ++ t ++ w') (t :: ts).

(** The same edits of the characters [R] of the document from the visible
    offset [pos] on: new text goes behind [G], which stays, and [U] is struck
    out ([f]).  The new characters begin at [off] of their insertion. *)
Inductive char_splices (f : Char → Char) (timestamp : Lamport) :
    nat → nat → list Char → list ((nat * nat) * list Z) → list (list Z) → list Char → Prop :=
  | char_splices_nil off pos R : char_splices f timestamp off pos R [] [] R
  | char_splices_cons off pos G U R s e raw t es ts R' :
      s = pos + length (bytes_of (codes true G)) → e = s + length (bytes_of (codes true U)) →
      char_splices f timestamp (off + length (bytes_of t)) e R es ts R' →
      char_splices f timestamp off pos (G ++ U ++ R) (((s, e), raw) :: es) (t :: ts)
        (G ++ run timestamp true [] off t ++ map f U ++ R').

Lemma char_splices_behind f timestamp off pos A R es ts R' :
  char_splices f timestamp off (pos + length (bytes_of (codes true A))) R es ts R' →
  char_splices f timestamp off pos (A ++ R) es ts (A ++ R').
Proof.
  inversion 1 as [|? ? G U ? s e raw t ? ? ? -> -> Hs]; subst; [constructor|]. rewrite !(app_assoc A G).
  econstructor; [|done|done]. rewrite codes_app, RopeCursor.blen_app. lia.
Qed.

Lemma codes_split v R g k :
  codes v R = g ++ k → ∃ ra rb, R = ra ++ rb ∧ codes v ra = g ∧ codes v rb = k.
Proof.
  revert R. induction g as [|z g IH]; intros R E; [by exists [], R|].
  induction R as [|c R IHR]; [done|]. rewrite codes_cons in E. case_bool_decide as Hv.
  - cbn in E. injection E as Ez E. destruct (IH R E) as (ra&rb&->&Ea&Eb). exists (c :: ra), rb.
    rewrite codes_cons, bool_decide_eq_true_2, Ez, Ea by done. done.
  - destruct (IHR E) as (ra&rb&->&Ea&Eb). exists (c :: ra), rb. rewrite codes_cons, bool_decide_eq_false_2 by done. done.
Qed.

(** Ranges in order, from [pos] on. *)
Fixpoint ranges_from (pos : nat) (rs : list (nat * nat)) : Prop :=
  match rs with
  | [] => True
  | (s, e) :: rs => pos ≤ s ∧ s ≤ e ∧ ranges_from e rs
  end.

Lemma ranges_from_le lo lo' rs : lo ≤ lo' → ranges_from lo' rs → ranges_from lo rs.
Proof. destruct rs as [|[s e] rs]; [done|]. cbn. intros Hle (?&?&?). split; [lia|done]. Qed.

Lemma splices_chars pos w es w' ts : splices pos w es w' ts → Forall (Forall char_ok) ts.
Proof. induction 1; by constructor. Qed.

Section local.
Context `{Build} {ps : list Piece} {V : Global} {base : Lamport → Prop} {slices0 : list InsertionSlice}
  {timestamp : Lamport} `{Hdoc : !DocumentOk ps base slices0}.
Hypothesis ps_observed : Forall (λ c, obs V c = true ∧ cmp (char_timestamp c) timestamp = Lt) (flatten ps).
Hypothesis timestamp_new : observed V timestamp = false.
Hypothesis timestamp_pos : (0 < value timestamp)%N.
Implicit Types (st : Splice FragmentTextSummary) (before after N : list Piece) (x : list Z) (n off : nat).

Abbreviation splice_at := (SpliceWalk.splice_at None counts_visible ps V base slices0 timestamp) (only parsing).
Abbreviation start_at := (SpliceWalk.start_at counts_visible) (only parsing).
Abbreviation count l := (clen (counts_char counts_visible) (flatten l)) (only parsing).
Abbreviation was := char_visible (only parsing).
Abbreviation strike_here := (strike (obs V) was timestamp) (only parsing).

#[local] Instance Hwalk : walks visible_offset id Right None counts_visible ps := local_walks None ps ps_ok.

Lemma strike_visible p x a y :
  (∃ before post, ps = before ++ p :: post) → p.2 = x ++ a ++ y → visible p.1 = true → ∀ id,
  map strike_here (run (fragment_timestamp p.1) (visible p.1) (deletions p.1) (N.to_nat (insertion_offset p.1) + blen x) a) =
    piece_chars (delete_fragment (set_id (sub_fragment p.1 x a) id) timestamp, a).
Proof.
  intros (before&post&Eps) E Hv id. pose proof ps_observed as Ho.
  rewrite Eps, flatten_app, flatten_cons, !Forall_app, (piece_cut p x (a ++ y) E), run_text_app, !Forall_app in Ho.
  destruct Ho as (_&(_&Ho&_)&_). unfold piece_chars. cbn [fst snd delete_fragment set_id sub_fragment fragment_timestamp visible deletions insertion_offset].
  rewrite N2Nat.inj_add, Nat2N.id. revert Ho. generalize (N.to_nat (insertion_offset p.1) + blen x). clear E. rewrite Hv.
  induction a as [|z a IH]; intros o Ho; [done|]. cbn [run map] in *. apply Forall_cons in Ho as [[Hz _] Ho].
  rewrite (IH _ Ho). unfold strike at 1. rewrite Hz. done.
Qed.

Lemma strike_invisible cs : Forall (λ c, char_visible c = false) cs → map strike_here cs = cs.
Proof.
  induction 1 as [|c cs Hc _ IH]; [done|]. cbn [map]. rewrite IH. unfold strike. by rewrite Hc, andb_false_r.
Qed.

(** *** One turn of the loop that deletes *)

Abbreviation struck := (SpliceDims.struck (cx:=None) (cnt:=counts_visible) (ps:=ps) (V:=V) (base:=base)
  (slices0:=slices0) (timestamp:=timestamp) strike_here) (only parsing).
Abbreviation boundary := (SpliceWalk.boundary counts_visible) (only parsing).

Lemma delete_part st before p post x a y N off :
  splice_at st before (p :: post) x N off → start_at st before x → p.2 = x ++ a ++ y → a ≠ [] → visible p.1 = true →
  ∃ id st1, Locator.between (new_max_id st) (fragment_id p.1) = Some id ∧
    let f := delete_fragment (set_id (sub_fragment p.1 x a) id) timestamp in
    let st0 := push_slice (push_edit st (Patch.mkEdit
        (Patch.mkRange (fragment_start st) (fragment_start st + blen a))
        (Patch.mkRange (new_visible_len st) (new_visible_len st)))) (slice_of timestamp f) in
    from_fragment timestamp f = Some (slice_of timestamp f) ∧
    push_part st0 f (visible p.1) = Some st1 ∧
    struck st before (p :: post) x N off (set_fragment_start st1 (fragment_start st + blen a)) before (p :: post) (x ++ a) (N ++ [(f, a)]).
Proof.
  intros Hst Hs E Ha Hv. pose proof Hst as [Hc Hw Hout Hpatch Hlog Hlt]. pose proof Hc as (Eps&_).
  destruct (between_current _ _ _ _ _ _ _ Hst) as (id&Eid&Hid&Hlo&Hhi). exists id.
  set (f := delete_fragment (set_id (sub_fragment p.1 x a) id) timestamp).
  set (st0 := push_slice (push_edit st (Patch.mkEdit
        (Patch.mkRange (fragment_start st) (fragment_start st + blen a))
        (Patch.mkRange (new_visible_len st) (new_visible_len st)))) (slice_of timestamp f)).
  assert (Hp : piece_ok (f, a)).
  { apply (part_ok before p post x a y); done. }
  destruct (struck_part strike_here st st0 before p post x a y N off f Hst Hs E Ha) as (st1&E1&Hstruck); try done.
  - apply (strike_visible p x a y); eauto.
  - intros _. split.
    + rewrite head_part, app_assoc. eapply patch_delete; [exact Hpatch|by rewrite codes_piece|].
      cbn [st0 push_slice push_edit edits_patch].
      rewrite (new_visible_len_at _ _ _ _ _ (out_tree _ _ _ _ _ _ _ _ Hout)), Hs, codes_run, Hv, bool_decide_eq_true_2 by done.
      rewrite codes_app, RopeCursor.blen_app, !clen_visible. unfold head_chars. rewrite codes_run, Hv, bool_decide_eq_true_2 by done.
      done.
    + eapply log_delete; [exact Hlog|done|done|done|]. cbn [fst snd].
      pose proof (ps_text _ _ _ Eps) as Hl. rewrite (piece_cut p x (a ++ y) E), run_text_app, Hv in Hl.
      apply Forall_app in Hl as [_ [Hl _]%Forall_app]. cbn. by rewrite N2Nat.inj_add, Nat2N.id.
  - exists st1. split; [done|]. cbv zeta. split; [by apply (from_fragment_spec timestamp) in Hp as [? _]|]. by split.
Qed.

(** The rest of the piece, or nothing of it, is deleted. *)
Lemma delete_visible_at st before p post x N off n :
  splice_at st before (p :: post) x N off → start_at st before x → visible p.1 = true → fragment_start st < n →
  boundary (rest_chars (p :: post) x) (n - fragment_start st) →
  ∃ st' before' after' x' N', delete_step st timestamp n = Some st' ∧
    struck st before (p :: post) x N off st' before' after' x' N' ∧ fragment_start st' ≤ n ∧
    (length after' < length (p :: post) ∨ fragment_start st' = n).
Proof.
  intros Hst Hs Hv Hlt Hb. pose proof Hst as [Hc Hw _ _ _ _]. pose proof Hc as (Eps&_).
  pose proof (ps_piece _ _ _ Eps) as Hp. unfold delete_step.
  rewrite (current_item _ _ _ Hc), (item_end_at _ _ _ _ Hc), (item_start_at _ _ _ Hc).
  cbn [mbind option_bind map head]. rewrite clen_piece. change (counts_fragment counts_visible p.1) with (visible p.1).
  rewrite Hv. unfold SpliceWalk.start_at in Hs. rewrite Hs in Hlt, Hb.
  destruct (take_part before p post x n Eps Hw Hv Hlt Hb) as [[Ex Hend]|(a&y&E&Ha&Hpos&Emin&Hend)].
  - subst x. rewrite Nat.min_r by done. rewrite Hs.
    destruct (cut_fragment_none p.1 p.2 (count before)) as (g&->&Hg&Eg&_); [by destruct p|]. cbn [mbind option_bind].
    rewrite Eg. destruct (between_current _ _ _ _ _ _ _ Hst) as (id&->&_). cbn [mbind option_bind].
    change (fragment_len (delete_fragment (set_id g id) timestamp)) with (fragment_len g). rewrite Hg.
    rewrite (bool_decide_eq_false_2 (0 < 0)%N) by lia. cbn [mbind option_bind]. rewrite bool_decide_eq_true_2 by done.
    destruct (struck_next strike_here _ _ _ _ _ _ _ _ _ (struck_refl strike_here _ _ _ _ _ _ Hst Hs)) as (st'&->&Hst'&Es).
    eexists _, _, _, _, _. split; [done|]. split; [exact Hst'|]. rewrite Es, Hs. split; [done|]. left. simpl. lia.
  - rewrite Emin, Hs. rewrite (cut_fragment_spec p.1 x a y) by (rewrite <- ?E; by destruct p). cbn [mbind option_bind].
    change (fragment_id (sub_fragment p.1 x a)) with (fragment_id p.1).
    destruct (delete_part _ _ _ _ _ _ _ _ _ Hst Hs E Ha Hv) as (id&st1&->&Eslice&Epush&Hstruck).
    cbn [mbind option_bind]. cbv zeta in *. rewrite Hs in Epush, Hstruck.
    change (fragment_len (delete_fragment (set_id (sub_fragment p.1 x a) id) timestamp)) with (N.of_nat (blen a)).
    rewrite (bool_decide_eq_true_2 (0 < _)%N) by lia.
    cbn [visible delete_fragment negb andb]. rewrite Eslice. cbn [mbind option_bind]. rewrite Hv in Epush. rewrite Epush.
    cbn [mbind option_bind]. destruct Hend as [[-> Hend]|[Hend1 Hend2]].
    + rewrite bool_decide_eq_true_2 by done. rewrite app_nil_r in E. rewrite <- E in Hstruck.
      destruct (struck_next strike_here _ _ _ _ _ _ _ _ _ Hstruck) as (st'&->&Hst'&Es).
      eexists _, _, _, _, _. split; [done|]. split; [exact Hst'|]. rewrite Es. cbn. split; [lia|left; simpl; lia].
    + rewrite bool_decide_eq_false_2 by lia.
      eexists _, _, _, _, _. split; [done|]. split; [exact Hstruck|]. cbn. split; [lia|right; lia].
Qed.

Lemma delete_step_at st before after x N off n :
  splice_at st before after x N off → start_at st before x → fragment_start st < n → n ≤ count ps →
  boundary (rest_chars after x) (n - fragment_start st) →
  ∃ st' before' after' x' N', delete_step st timestamp n = Some st' ∧
    struck st before after x N off st' before' after' x' N' ∧ fragment_start st' ≤ n ∧
    (length after' < length after ∨ fragment_start st' = n).
Proof.
  intros Hst Hs Hlt Hmax Hb. pose proof Hst as [Hc Hw _ _ _ _]. pose proof Hc as (Eps&_).
  destruct after as [|p post].
  { cbn in Hw. subst x. rewrite app_nil_r in Eps. rewrite Eps in Hmax. unfold SpliceWalk.start_at in Hs. change (blen []) with 0 in Hs. lia. }
  destruct (visible p.1) eqn:Hv; [by apply delete_visible_at|].
  pose proof (ps_piece _ _ _ Eps) as Hp. destruct Hw as (y&E&Hcount).
  assert (x = []) as ->. { destruct x; [done|]. specialize (Hcount ltac:(done)). change (visible p.1 = true) in Hcount. congruence. }
  unfold delete_step. rewrite (current_item _ _ _ Hc), (item_end_at _ _ _ _ Hc), (item_start_at _ _ _ Hc).
  cbn [mbind option_bind map head]. rewrite clen_piece. change (counts_fragment counts_visible p.1) with (visible p.1). rewrite Hv.
  cbn [mbind option_bind]. rewrite (bool_decide_eq_true_2 (0 < fragment_len p.1)%N) by by apply fragment_len_pos.
  rewrite Hv. cbn [negb andb mbind option_bind].
  destruct (struck_whole strike_here st before p post N off Hst Hs) as (st1&st2&E1&E2&Hstruck).
  { apply strike_invisible. unfold piece_chars. rewrite Hv. by apply run_forall. }
  rewrite Hv in E1. rewrite E1. cbn [mbind option_bind]. unfold SpliceWalk.start_at in Hs. change (blen []) with 0 in Hs.
  rewrite (bool_decide_eq_true_2 (_ ≤ n)) by lia. rewrite next_item_start, E2. cbn [mbind option_bind].
  rewrite clen_piece in Hstruck. change (counts_fragment counts_visible p.1) with (visible p.1) in Hstruck. rewrite Hv in Hstruck.
  replace (n `min` (count before + 0)) with (fragment_start st + 0) by lia.
  eexists _, _, _, _, _. split; [done|]. split; [exact Hstruck|]. cbn. split; [lia|left; simpl; lia].
Qed.

Lemma rest_ok before after x : ps = before ++ after → Forall char_ok (codes true (rest_chars after x)).
Proof.
  intros Eps. assert (Hall : ∀ l, Forall piece_ok l → Forall char_ok (codes true (flatten l))).
  { induction 1 as [|p l (_&Hp&_) _ IH]; [done|]. rewrite flatten_cons, codes_app, codes_piece. apply Forall_app. split; [|done].
    by case_bool_decide. }
  destruct after as [|p post]; [done|]. unfold rest_chars. rewrite codes_app, codes_run. apply Forall_app.
  pose proof ps_ok as Hok. rewrite Eps in Hok. apply Forall_app in Hok as [_ [(_&Hp&_) Hpost]%Forall_cons].
  split; [|by apply Hall]. case_bool_decide; [|done]. by apply Forall_drop.
Qed.

Lemma delete_loop_at fuel : ∀ st before after x N off n,
  splice_at st before after x N off → start_at st before x → fragment_start st ≤ n → n ≤ count ps →
  boundary (rest_chars after x) (n - fragment_start st) → length after < fuel →
  ∃ st' before' after' x' N', delete_loop fuel st timestamp n = Some st' ∧
    struck st before after x N off st' before' after' x' N' ∧ fragment_start st' = n.
Proof.
  induction fuel as [|fuel IH]; intros st before after x N off n Hst Hs Hle Hmax Hb Hfuel; [lia|].
  cbn [delete_loop]. case_bool_decide as Hlt.
  2: { exists st, before, after, x, N. split; [done|]. split; [|lia]. exists [], []. rewrite app_nil_r. by split_and!. }
  destruct (delete_step_at st before after x N off n Hst Hs Hlt Hmax Hb) as (st1&before1&after1&x1&N1&->&Hstruck&Hle1&Hprog).
  cbn [mbind option_bind]. pose proof Hstruck as (Q&u&->&Hst1&Hs1&E1&EQ1&F1).
  destruct Hprog as [Hprog|Hend].
  - assert (Eps : ps = before ++ after) by apply Hst.
    destruct (IH st1 before1 after1 x1 (N ++ Q) off n) as (st2&before2&after2&x2&N2&->&Hstruck2&Hend); [done|done|lia|done| |lia|].
    { rewrite F1. replace (n - (fragment_start st + _)) with (n - fragment_start st - clen (counts_char counts_visible) u) by lia.
      eapply boundary_tail; [exact Hb|exact E1|done|lia]. }
    exists st2, before2, after2, x2, N2. split; [done|]. split; [|done]. by eapply (struck_trans strike_here).
  - exists st1, before1, after1, x1, (N ++ Q). split; [|by split].
    destruct fuel; cbn [delete_loop]; rewrite bool_decide_eq_false_2 by lia; done.
Qed.
(** *** One edit *)

Lemma app_inv_blen (p q a b : list Z) :
  p ++ q = a ++ b → Forall char_ok (p ++ q) → blen p = blen a → p = a ∧ q = b.
Proof.
  intros E Hok El. destruct (RopeCursor.prefix_of_blen p q a b E Hok) as (z&->&->); [lia|].
  rewrite RopeCursor.blen_app in El. assert (z = []) as ->; [|by rewrite app_nil_r].
  rewrite !Forall_app in Hok. apply blen_zero; [apply Hok|lia].
Qed.

Lemma start_deleted st before after :
  cursor_on None ps (old_fragments st) before after → text_deleted (start (old_fragments st)) = blen (codes false (flatten before)).
Proof.
  intros (Eps&(h&_&_&Hp&_)&_&Ecx). unfold start. rewrite Hp, Ecx. pose proof ps_ok as Hok. rewrite Eps in Hok.
  apply Forall_app in Hok as [Hok _]. by rewrite (dsum_text None before _ Hok).
Qed.

Lemma clen_codes cs : clen (λ _, true) cs = blen (codes true cs) + blen (codes false cs).
Proof.
  induction cs as [|c cs IH]; [done|]. cbn [clen]. rewrite IH, !codes_cons, !RopeCursor.blen_app. unfold width.
  destruct (char_visible c); do 2 case_bool_decide; try done; rewrite blen_cons; change (blen []) with 0; lia.
Qed.

Lemma clen_ext (f g : Char → bool) cs : Forall (λ c, f c = g c) cs → clen f cs = clen g cs.
Proof. induction 1 as [|c cs E _ IH]; [done|]. cbn [clen]. by rewrite E, IH. Qed.

(** What the cursor has passed of the old document, in the offsets of the edit. *)
Definition passed before after x : nat := clen (obs V) (flatten before ++ head_chars after x).

Lemma passed_boundary before after x : ps = before ++ after → within counts_visible after x → seen_boundary V (flatten ps) (passed before after x).
Proof. intros Eps Hw. by eexists _, _; split; [by apply (ps_split (cnt:=counts_visible))|]. Qed.

Lemma passed_mono before after x before' after' x' u :
  ps = before ++ after → within counts_visible after x → ps = before' ++ after' → within counts_visible after' x' →
  rest_chars after x = u ++ rest_chars after' x' → passed before after x ≤ passed before' after' x'.
Proof.
  intros E1 W1 E2 W2 Er. pose proof (ps_split (cnt:=counts_visible) _ _ _ E1 W1) as F1. rewrite (ps_split (cnt:=counts_visible) _ _ _ E2 W2), Er, app_assoc in F1.
  apply app_inv_tail in F1. unfold passed. rewrite F1, !clen_app. lia.
Qed.

Lemma passed_at st before after x N off :
  splice_at st before after x N off → start_at st before x →
  fragment_start st + blen (codes false (flatten before)) = passed before after x.
Proof.
  intros [(Eps&_) Hw _ _ _ _] ->. unfold passed. rewrite (clen_ext (obs V) (λ _, true)).
  2: { pose proof ps_observed as Ho. rewrite (ps_split before after x Eps Hw) in Ho. apply Forall_app in Ho as [Ho _].
    eapply Forall_impl; [exact Ho|]. naive_solver. }
  rewrite clen_codes, !codes_app, !RopeCursor.blen_app, clen_visible.
  destruct after as [|p post]; [cbn in *; subst x; change (blen []) with 0; lia|]. destruct Hw as (_&_&Hc).
  unfold head_chars. rewrite !codes_run. destruct x as [|z x]; [repeat case_bool_decide; change (blen []) with 0; lia|].
  specialize (Hc ltac:(done)). change (visible p.1 = true) in Hc. rewrite Hc, bool_decide_eq_true_2, bool_decide_eq_false_2 by done.
  change (blen []) with 0. lia.
Qed.

(** The offset in the full text. *)
Lemma full_at st before after x N off :
  splice_at st before after x N off → start_at st before x →
  fragment_start st + blen (codes false (flatten before)) = clen (obs V) (flatten N).
Proof. intros Hst Hs. rewrite (passed_at _ _ _ _ _ _ Hst Hs). by destruct Hst as [_ _ [_ _ ->] _ _ _]. Qed.

Lemma codes_strike u : Forall (λ c, obs V c = true) u → codes true (map strike_here u) = [].
Proof.
  induction 1 as [|c u Hc _ IH]; [done|]. cbn [map]. rewrite codes_cons, IH, bool_decide_eq_false_2; [done|].
  unfold strike. rewrite Hc. by destruct (char_visible c) eqn:E; cbn; rewrite ?E.
Qed.
(** To the place [n] where the next edit begins: [g] is left as it is. *)
Lemma advance_at st before after x N off g k :
  splice_at st before after x N off → start_at st before x →
  codes true (rest_chars after x) = g ++ k →
  let n := fragment_start st + blen g in
  ∃ st1 st2 before' after' x' Q,
    catch_up visible_offset id Right st n = Some st1 ∧
    text_deleted (start (old_fragments st1)) = blen (codes false (flatten before')) ∧
    push_prefix visible_offset st1 n = Some st2 ∧
    splice_at st2 before' after' x' (N ++ Q) off ∧ start_at st2 before' x' ∧ fragment_start st2 = n ∧
    rest_chars after x = flatten Q ++ rest_chars after' x' ∧
    codes true (flatten Q) = g ∧ codes true (rest_chars after' x') = k.
Proof.
  intros Hst Hs Ecodes n. pose proof (rest_ok before after x ltac:(by apply Hst)) as Hok.
  assert (Hmax : n ≤ count ps).
  { pose proof (position_total before after x ltac:(by apply Hst) ltac:(by apply Hst)) as Ht.
    rewrite (clen_visible (rest_chars _ _)), Ecodes, RopeCursor.blen_app in Ht. unfold SpliceWalk.start_at in Hs. unfold n. lia. }
  assert (Hb : boundary (rest_chars after x) (blen g)).
  { destruct (codes_split _ _ _ _ Ecodes) as (ra&rb&->&<-&_). exists ra, rb. split; [done|]. apply clen_visible. }
  destruct (catch_up_at st before after x N off n Hst Hs) as (st1&before1&after1&x1&Q1&E1&Hst1&Hs1&Hreach&Er1&_); try done.
  { unfold SpliceWalk.start_at in Hs. unfold n. lia. }
  pose proof (moved_count _ _ _ _ _ _ _ _ _ _ _ _ _ Hst Hs Hst1 Hs1 Er1) as F1.
  destruct (push_prefix_at st1 before1 after1 x1 (N ++ Q1) off n Hst1 Hs1 Hreach) as (st2&x2&Q2&E2&Hst2&Hs2&F2&Er2&_); try done.
  { destruct Hreach as [Hreach _]. unfold SpliceWalk.start_at in Hs1. rewrite <- Hs1, F1 in *.
    replace (n - _) with (blen g - clen (counts_char counts_visible) (flatten Q1)) by (unfold n; lia).
    eapply boundary_tail; [exact Hb|exact Er1|done|unfold n in *; lia]. }
  exists st1, st2, before1, after1, x2, (Q1 ++ Q2). split; [done|]. split; [by eapply start_deleted, Hst1|].
  split; [done|]. split; [by rewrite app_assoc|]. split; [done|]. split; [done|].
  assert (Er : rest_chars after x = flatten (Q1 ++ Q2) ++ rest_chars after1 x2) by by rewrite Er1, Er2, flatten_app, app_assoc.
  split; [done|]. pose proof (moved_count _ _ _ _ _ _ _ _ _ _ _ _ _ Hst Hs Hst2 Hs2 Er) as F.
  rewrite clen_visible in F. rewrite Er, codes_app in Ecodes, Hok. unfold n in F2.
  by apply app_inv_blen in Ecodes as [-> ->]; [|done|lia].
Qed.

Lemma local_edit_at st before after x N off g d w raw t :
  splice_at st before after x N off → start_at st before x →
  codes true (rest_chars after x) = g ++ d ++ w → settled (obs V) timestamp (flatten N) →
  normalize raw = bytes_of t → Forall char_ok t → fits 32 (N.of_nat (off + blen t)) →
  let s := fragment_start st + blen g in let e := s + blen d in
  ∃ st' before' after' x' N' fs fe,
    local_edit st timestamp ((s, e), raw) = Some (st', (MkFullOffset fs, MkFullOffset fe), bytes_of t) ∧
    splice_at st' before' after' x' N' (off + blen t) ∧ start_at st' before' x' ∧ fragment_start st' = e ∧
    codes true (rest_chars after' x') = w ∧ codes true (flatten N') = codes true (flatten N) ++ g ++ t ∧
    edit_one (obs V) was timestamp off ((fs, fe), t) (flatten N ++ rest_chars after x) = flatten N' ++ rest_chars after' x' ∧
    settled (obs V) timestamp (flatten N') ∧
    passed before after x ≤ fs ∧ fs ≤ fe ∧ fe = passed before' after' x' ∧
    seen_boundary V (flatten ps) fs ∧ seen_boundary V (flatten ps) fe ∧
    ∃ G U, rest_chars after x = G ++ U ++ rest_chars after' x' ∧ codes true G = g ∧ codes true U = d ∧
      flatten N' = flatten N ++ G ++ run timestamp true [] off t ++ map strike_here U.
Proof.
  intros Hst Hs Ecodes Hset Hnorm Hokt Hfits s e. unfold local_edit. rewrite Hnorm.
  destruct (advance_at st before after x N off g (d ++ w) Hst Hs Ecodes)
    as (st1&st2&before1&after1&x1&Q&Ecatch&Edel&Epre&Hst2&Hs2&F2&Er&EQ&Ec2). fold s in Ecatch, Epre, F2.
  rewrite Ecatch. cbn [mbind option_bind]. rewrite Edel, Epre. cbn [mbind option_bind]. rewrite F2.
  destruct (insert_text_at st2 before1 after1 x1 (N ++ Q) off t s Hst2) as (st3&P&->&K1&K2&Hst3&EP); try done.
  { intros _. rewrite <- F2, Hs2, codes_app, RopeCursor.blen_app, clen_visible. f_equal.
    destruct after1 as [|p post]; [by destruct Hst2 as [_ -> _ _ _ _]|]. destruct Hst2 as [_ (_&_&Hc) _ _ _ _].
    unfold head_chars. rewrite codes_run. destruct x1 as [|z x1]; [by case_bool_decide|].
    specialize (Hc ltac:(done)). change (visible p.1 = true) in Hc. by rewrite Hc, bool_decide_eq_true_2. }
  cbn [mbind option_bind].
  assert (Hs3 : start_at st3 before1 x1) by (unfold SpliceWalk.start_at; by rewrite K2).
  destruct (delete_loop_at (delete_fuel st3) st3 before1 after1 x1 ((N ++ Q) ++ P) (off + blen t) e)
    as (st4&before4&after4&x4&N4&->&(U_&u&->&Hst4&Hs4&Er4&EU&_)&F4); try done.
  { unfold e. rewrite K2, F2. lia. }
  { pose proof (position_total before1 after1 x1 ltac:(by apply Hst2) ltac:(by apply Hst2)) as Ht.
    rewrite (clen_visible (rest_chars _ _)), Ec2, RopeCursor.blen_app in Ht. unfold SpliceWalk.start_at in Hs2. unfold e. lia. }
  { rewrite K2, F2. replace (e - s) with (blen d) by (unfold e; lia).
    destruct (codes_split _ _ _ _ Ec2) as (ra&rb&->&<-&_). exists ra, rb. split; [done|]. apply clen_visible. }
  { destruct Hst3 as [(_&Hc&_) _ _ _ _ _]. unfold delete_fuel. rewrite StepFacts.tree_size_elements, (cursor_at_elements _ _ _ Hc), length_app, !length_map. lia. }
  cbn [mbind option_bind]. rewrite (start_deleted st4 before4 after4) by apply Hst4.
  eexists st4, before4, after4, x4, _, _, _. split; [reflexivity|]. split; [exact Hst4|]. split; [done|]. split; [done|].
  pose proof (moved_count _ _ _ _ _ _ _ _ _ _ _ _ _ Hst3 Hs3 Hst4 Hs4 Er4) as F. rewrite clen_visible, F4, K2, F2 in F.
  pose proof (rest_ok before1 after1 x1 ltac:(by apply Hst2)) as Hok. rewrite Er4, codes_app in Ec2, Hok.
  apply app_inv_blen in Ec2 as [Eu Ew]; [|done|unfold e in F; lia]. split; [done|].
  (* what was ahead was observed, and is older *)
  pose proof ps_observed as Ho. rewrite (ps_split before after x) in Ho by apply Hst.
  apply Forall_app in Ho as [_ Ho]. rewrite Er, Er4, !Forall_app in Ho. destruct Ho as (HoQ&HoU&HoR).
  assert (Hobs : ∀ l, Forall (λ c, obs V c = true ∧ cmp (char_timestamp c) timestamp = Lt) l → Forall (λ c, obs V c = true) l).
  { intros l Hl. eapply Forall_impl; [exact Hl|naive_solver]. }
  split; [rewrite !flatten_app, !codes_app, EQ, EP, EU, codes_run, codes_strike by auto; by rewrite bool_decide_eq_true_2, app_nil_r, <- app_assoc|].
  assert (HN : flatten (((N ++ Q) ++ P) ++ U_) = flatten N ++ flatten Q ++ [] ++ run timestamp true [] off t ++ map strike_here u).
  { by rewrite !flatten_app, EP, EU, <- !app_assoc. }
  rewrite HN, Er, Er4. rewrite <- !app_assoc.
  destruct (edit_one_settled (obs V) was timestamp (λ _, eq_refl) (flatten N) (flatten Q) [] u (rest_chars after4 x4)
    (s + blen (codes false (flatten before1))) (e + blen (codes false (flatten before4))) off t) as [E1 E2].
  - done.
  - by apply tight_all, Hobs.
  - done.
  - by apply tight_all, Hobs.
  - assert (Hold : Forall (λ c, obs V c = true ∧ cmp (char_timestamp c) timestamp = Lt) (u ++ rest_chars after4 x4)) by by apply Forall_app.
    destruct (u ++ _) as [|c l]; [done|]. apply Forall_cons in Hold as [[_ Hc] _]. unfold ahead. by rewrite Hc.
  - apply run_forall. intros o c. unfold obs, ahead. cbn. by rewrite timestamp_new, cmp_refl.
  - rewrite <- flatten_app. rewrite <- F2. by eapply full_at.
  - pose proof (full_at _ _ _ _ _ _ Hst4 Hs4) as Hfull. rewrite F4 in Hfull. rewrite Hfull, HN, !clen_app.
    rewrite (clen_strike (obs V)), (clen_run (λ ts _, observed V ts)), timestamp_new by done. cbn [clen]. lia.
  - cbn [app] in *. rewrite E1. split; [done|]. split; [done|].
    assert (P2 : s + blen (codes false (flatten before1)) = passed before1 after1 x1) by (rewrite <- F2; by eapply passed_at).
    assert (P4 : e + blen (codes false (flatten before4)) = passed before4 after4 x4) by (rewrite <- F4; by eapply passed_at).
    rewrite P2, P4. split; [eapply passed_mono; [apply Hst|apply Hst|apply Hst2|apply Hst2|exact Er]|].
    split; [eapply passed_mono; [apply Hst2|apply Hst2|apply Hst4|apply Hst4|exact Er4]|]. split; [done|].
    split; [apply passed_boundary; apply Hst2|]. split; [apply passed_boundary; apply Hst4|]. by exists (flatten Q), u.
Qed.
(** *** All the edits *)

Definition full_range (r : nat * nat) : FullOffset * FullOffset := (MkFullOffset r.1, MkFullOffset r.2).

Lemma local_edits_at es : ∀ st before after x N off w' ts (rs0 : list (nat * nat)) (ts0 : list (list Z)),
  splices (fragment_start st) (codes true (rest_chars after x)) es w' ts →
  splice_at st before after x N off → start_at st before x → settled (obs V) timestamp (flatten N) →
  fits 32 (N.of_nat (off + blen (concat ts))) →
  ∃ st' before' after' x' N' rs off',
    foldlM (λ '(st, ranges, texts) edit,
        '(st, range, text) ← local_edit st timestamp edit; Some (st, ranges ++ [range], texts ++ [text]))
      (st, map full_range rs0, map bytes_of ts0) es = Some (st', map full_range (rs0 ++ rs), map bytes_of (ts0 ++ ts)) ∧
    splice_at st' before' after' x' N' off' ∧ start_at st' before' x' ∧ length rs = length ts ∧
    codes true (flatten N' ++ rest_chars after' x') = codes true (flatten N) ++ w' ∧
    apply_edits (obs V) was timestamp off (zip rs ts) (flatten N ++ rest_chars after x) = flatten N' ++ rest_chars after' x' ∧
    ranges_from (passed before after x) rs ∧
    Forall (λ r, seen_boundary V (flatten ps) r.1 ∧ seen_boundary V (flatten ps) r.2) rs ∧
    ∃ R', flatten N' ++ rest_chars after' x' = flatten N ++ R' ∧
      char_splices strike_here timestamp off (fragment_start st) (rest_chars after x) es ts R'.
Proof.
  induction es as [|e es IH]; intros st before after x N off w' ts rs0 ts0 Hes Hst Hs Hset Hfits.
  { inversion Hes; subst. exists st, before, after, x, N, [], off. rewrite !app_nil_r. cbn [foldlM].
    split; [done|]. split; [done|]. split; [done|]. split; [done|]. split; [apply codes_app|]. split; [done|].
    split; [done|]. split; [done|]. eexists. split; [done|constructor]. }
  remember (fragment_start st) as pos eqn:Epos. remember (codes true (rest_chars after x)) as text eqn:Etext.
  inversion Hes as [|? g d w raw t ? w1 ts1 Hnorm Hokt Hes']; subst. rewrite concat_cons, RopeCursor.blen_app in Hfits.
  destruct (local_edit_at st before after x N off g d w raw t) as (st1&before1&after1&x1&N1&fs&fe&E1&Hst1&Hs1&F1&Ew&EN&Eone&Hset1&Hle&Hse&Efe&Hb1&Hb2&(G&U&Er&EG&EU&EN')); try done.
  { unfold fits in *. lia. }
  cbn [foldlM]. rewrite E1. cbn [mbind option_bind].
  destruct (IH st1 before1 after1 x1 N1 (off + blen t) w1 ts1 (rs0 ++ [(fs, fe)]) (ts0 ++ [t])) as (st2&before2&after2&x2&N2&rs&off2&E2&Hst2&Hs2&El&Ec2&Edoc&Hrs&Hbs&(R'&ER&Hsp)); try done.
  { by rewrite F1, Ew. } { by rewrite <- Nat.add_assoc. }
  exists st2, before2, after2, x2, N2, ((fs, fe) :: rs), off2. rewrite !map_app in E2.
  change (map full_range [(fs, fe)]) with [(MkFullOffset fs, MkFullOffset fe)] in E2. change (map bytes_of [t]) with [bytes_of t] in E2.
  rewrite E2, <- !app_assoc. split; [by rewrite !map_app|]. split; [done|]. split; [done|]. split; [cbn; by rewrite El|].
  split; [by rewrite Ec2, EN, <- !app_assoc|].
  cbn [zip zip_with apply_edits ranges_from]. rewrite Eone, Efe in *. split; [done|]. split; [done|]. split; [by constructor|].
  exists (G ++ run timestamp true [] off t ++ map strike_here U ++ R'). split; [by rewrite ER, EN', <- !app_assoc|].
  rewrite Er. rewrite F1 in Hsp. subst g d. by econstructor.
Qed.
End local.
