(* ===== verification/SnapshotFacts.v ===== *)
(** The invariant of a snapshot, and that the end of an edit restores it: its
    texts, its tree of fragments, its index of insertions and its slices say
    the same about the document. *)

From stdpp Require Import base numbers option list sets sorting.
From S2P Require Import Prelude TreeMap TreeMapFacts TreeMapProps Clock Utf8 Locator SumTree SumTreeFacts Search Cursor KeyedTree KeyedFacts Operation Fragment Pieces Builder Splice LineEnding Snapshot Document BuilderFacts SpliceOutput SpliceWalk.
From S2P Require Patch PatchFacts Rope RopeTree RopeCursor.

#[local] Open Scope nat_scope.

(** ** The contract of sorting *)

Class SortOk `{Sort} : Prop := sort_ok :
  ∀ {A K} `{OrdLaws K} (f : A → K) (l : list A),
    sort_unstable_by_key f l ≡ₚ l ∧ StronglySorted (λ a b, cmp (f a) (f b) ≠ Gt) (sort_unstable_by_key f l).

Lemma sort_edits_ok `{SortOk} {T K} `{OrdLaws K, !KeyedItem T K} : sorts_edits (sort_edits (T:=T) (K:=K)).
Proof. split; intros es; apply (sort_ok edit_key es). Qed.

(** ** The keys of characters and fragments *)

Definition char_key (c : Char) : Lamport * nat := (char_timestamp c, char_offset c).

(** The keys of fragments are those of their first characters. *)
Lemma fragment_keys_NoDup ps :
  Forall piece_ok ps → NoDup (map char_key (flatten ps)) → NoDup (map fragment_key (map fst ps)).
Proof.
  intros Hok Hnd. assert (Hsub : sublist (map (λ k : InsertionFragmentKey, (key_timestamp k, N.to_nat (key_split_offset k)))
    (map fragment_key (map fst ps))) (map char_key (flatten ps))).
  { clear Hnd. induction Hok as [|[f t] ps (Hne&_) _ IH]; [done|]. rewrite flatten_cons, map_app. cbn [map fst snd] in *.
    destruct t as [|c t]; [done|]. cbn. apply sublist_skip. by apply sublist_inserts_l. }
  eapply sublist_NoDup in Hnd; [|exact Hsub]. by apply NoDup_fmap_1 in Hnd.
Qed.

Lemma edit_one_map {A} (g : Char → A) obs was ts off s e t cs :
  (∀ c, g (mark ts c) = g c) →
  map g (edit_one obs was ts off ((s, e), t) cs) ≡ₚ map g (run ts true [] off t) ++ map g cs.
Proof.
  intros Hg. assert (Hdel : ∀ o l, map g (delete_from obs was ts o s e l) = map g l).
  { intros o l. revert o. induction l as [|c l IH]; intros o; cbn; [done|]. rewrite IH. f_equal.
    case_bool_decide; [|done]. unfold strike. by destruct (_ && _). }
  unfold edit_one. rewrite Hdel. unfold insert_at.
  assert (Hsplit : ∀ n l, let '(a, b) := obs_split obs n l in a ++ b = l).
  { intros n l. revert n. induction l as [|c l IH]; intros [|n]; cbn; try done. specialize (IH (S n - if obs c then width c else 0)).
    destruct (obs_split _ _ l). cbn. by rewrite IH. }
  specialize (Hsplit s cs). destruct (obs_split obs s cs) as [a b]. subst cs.
  assert (Hspan : ∀ l, let '(k, b) := span (ahead ts) l in k ++ b = l).
  { induction l as [|c l IH]; cbn; [done|]. destruct (ahead ts c); [|done]. destruct (span _ l). cbn. by rewrite IH. }
  specialize (Hspan b). destruct (span (ahead ts) b) as [k r]. subst b. rewrite !map_app. solve_Permutation.
Qed.

Lemma apply_edits_map {A} (g : Char → A) obs was ts es off cs :
  (∀ c, g (mark ts c) = g c) →
  map g (apply_edits obs was ts off es cs) ≡ₚ map g (run ts true [] off (concat (map snd es))) ++ map g cs.
Proof.
  intros Hg. revert off cs. induction es as [|[[s e] t] es IH]; intros off cs; cbn [apply_edits]; [done|].
  rewrite IH, edit_one_map by done. cbn [map concat snd]. rewrite run_text_app, map_app. solve_Permutation.
Qed.

(** *** Characters of one insertion have ranges apart *)

Definition char_range (c : Char) : Lamport * nat * nat := (char_timestamp c, char_offset c, width c).
Definition apart_ranges (r r' : Lamport * nat * nat) : Prop :=
  r.1.1 = r'.1.1 → r.1.2 + r.2 ≤ r'.1.2 ∨ r'.1.2 + r'.2 ≤ r.1.2.
Definition ranges_apart (l : list (Lamport * nat * nat)) : Prop := ForallOrdPairs apart_ranges l.
Definition chars_apart (cs : list Char) : Prop := ranges_apart (map char_range cs).

Lemma apart_sym r r' : apart_ranges r r' → apart_ranges r' r.
Proof. unfold apart_ranges. intros H E. destruct H; [done|by right|by left]. Qed.

Lemma ranges_apart_perm l l' : l ≡ₚ l' → ranges_apart l → ranges_apart l'.
Proof.
  unfold ranges_apart. induction 1 as [|r l l' Hp IH|r r' l|l l1 l' _ IH1 _ IH2]; auto.
  - inversion 1 as [|? ? Hr Hl]; subst. constructor; [by rewrite <- Hp|by apply IH].
  - inversion 1 as [|? ? Hr Hl]; subst. inversion Hl as [|? ? Hr' Hl']; subst. apply Forall_cons in Hr as [Hrr Hr].
    constructor; [by constructor; [apply apart_sym|]|by constructor].
Qed.

Lemma ranges_apart_app l k :
  ranges_apart l → ranges_apart k → (∀ r r', r ∈ l → r' ∈ k → r.1.1 ≠ r'.1.1) → ranges_apart (l ++ k).
Proof.
  intros Hl Hk Hlk. induction Hl as [|r l Hr Hl IH]; [done|]. cbn [app]. constructor.
  - apply Forall_app. split; [done|]. apply Forall_forall. intros r' Hr' E. by destruct (Hlk r r' ltac:(by left) Hr').
  - apply IH. intros. apply Hlk; [by right|done].
Qed.

Lemma run_apart ts v d o t : chars_apart (run ts v d o t).
Proof.
  assert (Hge : ∀ t o, Forall (λ r : Lamport * nat * nat, o ≤ r.1.2) (map char_range (run ts v d o t))).
  { clear. induction t as [|c t IH]; intros o; cbn [run map]; constructor; [done|].
    eapply Forall_impl; [exact (IH _)|]. cbn. intros k. lia. }
  unfold chars_apart, ranges_apart. revert o. induction t as [|c t IH]; intros o; cbn [run map]; constructor; [|apply IH].
  eapply Forall_impl; [exact (Hge t _)|]. intros r Hr _. left. exact Hr.
Qed.

(** Fresh text keeps the ranges apart. *)
Lemma apply_edits_apart obs was ts es off cs :
  chars_apart cs → Forall (λ c, char_timestamp c ≠ ts) cs → chars_apart (apply_edits obs was ts off es cs).
Proof.
  intros Hcs Hts. unfold chars_apart. eapply ranges_apart_perm; [symmetry; by apply apply_edits_map|].
  apply ranges_apart_app; [apply run_apart|done|]. intros r r' Hr (c&->&Hc)%list_elem_of_fmap.
  assert (Ht : Forall (λ r : Lamport * nat * nat, r.1.1 = ts) (map char_range (run ts true [] off (concat (map snd es))))).
  { apply Forall_fmap. by apply run_forall. }
  rewrite Forall_forall in Ht. rewrite (Ht _ Hr). rewrite Forall_forall in Hts. intros E. by apply (Hts c).
Qed.

Lemma apart_keys cs : chars_apart cs → NoDup (map char_key cs).
Proof.
  unfold chars_apart, ranges_apart. induction cs as [|c cs IH]; cbn [map]; inversion 1 as [|? ? Hc Hcs]; subst; constructor; [|by apply IH].
  intros (d&E&Hd)%list_elem_of_fmap. rewrite Forall_forall in Hc. injection E as Et Eo.
  pose proof (width_pos c). pose proof (width_pos d).
  destruct (Hc (char_range d)) as [Hle|Hle]; [by apply list_elem_of_fmap; exists d|done|cbn in Hle; lia|cbn in Hle; lia].
Qed.

(** ** The invariant of a snapshot *)

(** Every slice begins where a fragment begins. *)
Definition slice_key (sl : InsertionSlice) : InsertionFragmentKey :=
  mkInsertionFragmentKey (slice_insertion_id sl) (slice_start sl).

Record snapshot_ok (base : Lamport → Prop) (s : BufferSnapshot) (ps : list Piece) : Prop := {
  snapshot_tree : ∃ h, wf cx_none h (fragments s);
  snapshot_fragments : elements (fragments s) = map fst ps;
  snapshot_document : DocumentOk ps base (map entry_key (elements (snapshot_insertion_slices s)));
  snapshot_visible : RopeTree.rope_text (codes true (flatten ps)) (visible_text s);
  snapshot_deleted : RopeTree.rope_text (codes false (flatten ps)) (deleted_text s);
  snapshot_apart : chars_apart (flatten ps);
  snapshot_insertions : (∃ h, wf () h (insertions s)) ∧ sorted (K:=InsertionFragmentKey) (elements (insertions s)) ∧
    elements (insertions s) ≡ₚ map insertion_fragment_new (map fst ps);
  snapshot_slices : (∃ h, wf () h (snapshot_insertion_slices s)) ∧
    sorted (K:=MapKey InsertionSlice) (elements (snapshot_insertion_slices s));
  snapshot_starts : Forall (λ sl, slice_key sl ∈ map fragment_key (map fst ps))
    (map entry_key (elements (snapshot_insertion_slices s)))
}.

(** The trees fit the stacks of cursors. *)
Definition snapshot_room (s : BufferSnapshot) : Prop :=
  height (fragments s) < STACK_CAPACITY ∧ height (insertions s) < STACK_CAPACITY ∧
  height (snapshot_insertion_slices s) < STACK_CAPACITY ∧
  height (Rope.chunks (visible_text s)) ≤ ROPE_ROOM ∧ height (Rope.chunks (deleted_text s)) ≤ ROPE_ROOM.

Lemma NoDup_fmap_inj {A B} (f : A → B) l a b : NoDup (map f l) → a ∈ l → b ∈ l → f a = f b → a = b.
Proof.
  intros Hnd (i&Hi)%list_elem_of_lookup (j&Hj)%list_elem_of_lookup E.
  assert (i = j) as ->; [|congruence]. eapply NoDup_lookup; [exact Hnd|..].
  - change (map f l) with (f <$> l). rewrite list_lookup_fmap, Hi. reflexivity.
  - change (map f l) with (f <$> l). rewrite list_lookup_fmap, Hj. by rewrite E.
Qed.

Lemma sublist_map {A B} (f : A → B) (a b : list A) : sublist a b → sublist (map f a) (map f b).
Proof. induction 1; cbn; by constructor. Qed.

Section install.
Context `{SortOk}.

Lemma insert_new_key f : edit_key (insert_new f) = fragment_key f.
Proof. done. Qed.

Lemma elem_map {A B} (f : A → B) (l : list A) b : b ∈ map f l ↔ ∃ a, b = f a ∧ a ∈ l.
Proof. apply list_elem_of_fmap. Qed.

(** The index after an edit: one entry for every fragment. *)
Lemma install_insertions (t : SumTree InsertionFragment InsertionFragmentKey) (olds news ins : list Fragment) :
  (∃ h, wf () h t) → height t < STACK_CAPACITY → sorted (K:=InsertionFragmentKey) (elements t) →
  elements t ≡ₚ map insertion_fragment_new olds →
  NoDup (map fragment_key olds) → NoDup (map fragment_key news) → sublist ins news →
  Forall (λ f, f ∈ ins ∨ f ∈ olds) news → map fragment_key olds ⊆ map fragment_key news →
  ∃ t' removed, KeyedTree.edit sort_edits t (map insert_new ins) () = Some (t', removed) ∧ (∃ h, wf () h t') ∧
    sorted (K:=InsertionFragmentKey) (elements t') ∧ elements t' ≡ₚ map insertion_fragment_new news.
Proof.
  intros [h Hwf] Hh Hsort Hperm Hnd Hnd' Hsub Hnews Hkeys.
  destruct (sort_edits_ok (T:=InsertionFragment) (K:=InsertionFragmentKey)) as [Hp Hs].
  assert (Hk : keyed_tree (K:=InsertionFragmentKey) () t (elements t)).
  { split; [done|]. split; [done|]. exists h. split; [done|]. by rewrite (wf_height _ _ _ Hwf) in Hh. }
  assert (Hins : NoDup (edit_key <$> map insert_new ins)).
  { rewrite <- list_fmap_compose. change (NoDup (map fragment_key ins)). eapply sublist_NoDup; [exact Hnd'|by apply sublist_map]. }
  destruct (edit_spec sort_edits () t (elements t) (map insert_new ins) Hp Hs Hk Hins)
    as (t'&h'&removed&l'&E&Hwf'&El&Hsort'&Hlook&_). subst l'.
  exists t', removed. split; [done|]. split; [by exists h'|]. split; [done|].
  assert (Hkey : ∀ i : InsertionFragment, i ∈ elements t' ↔ lookup_key (key i) (elements t') = Some i).
  { intros i. split; [by apply lookup_sorted_elem|]. apply lookup_Some_elem. }
  assert (Hnodup : NoDup (elements t')).
  { clear -Hsort'. induction Hsort' as [|i l _ IH Hf]; constructor; [|done]. intros Hi.
    rewrite Forall_forall in Hf. specialize (Hf _ Hi). unfold key_lt in Hf. by rewrite cmp_refl in Hf. }
  apply NoDup_Permutation; [done| |].
  { eapply NoDup_fmap_1 with (f := λ i, key i). rewrite <- list_fmap_compose. exact Hnd'. }
  assert (Hnone : ∀ f, f ∈ ins → edit_for (fragment_key f) (map insert_new ins) ≠ None).
  { intros f Hf E'. unfold edit_for in E'. eapply find_none in E'; [|apply list_elem_of_In, elem_map; by exists f].
    cbv beta in E'. rewrite insert_new_key, cmp_refl in E'. by rewrite bool_decide_eq_true_2 in E'. }
  assert (Hsome : ∀ k e, edit_for k (map insert_new ins) = Some e → ∃ f, f ∈ ins ∧ fragment_key f = k ∧ e = insert_new f).
  { intros k e [Ek (f&->&Hf)%elem_map]%edit_for_Some. by exists f. }
  assert (Hsubin : ∀ f, f ∈ ins → f ∈ news) by (intros f Hf; by eapply elem_of_sublist).
  rewrite Forall_forall in Hnews. intros i. rewrite Hkey, Hlook, elem_map. unfold edited. split.
  - destruct (edit_for (key i) (map insert_new ins)) as [e|] eqn:E'.
    + destruct (Hsome _ _ E') as (f&Hf&_&->). intros [= <-]. exists f. auto.
    + intros Hi%lookup_Some_elem. rewrite Hperm, elem_map in Hi. destruct Hi as (f&->&Hf). exists f. split; [done|].
      assert (Hin : fragment_key f ∈ map fragment_key news) by (apply Hkeys, elem_map; by exists f).
      apply elem_map in Hin as (g&Eg&Hg). destruct (Hnews g Hg) as [Hgi|Hgo].
      * destruct (Hnone g Hgi). rewrite <- Eg. exact E'.
      * by rewrite (NoDup_fmap_inj fragment_key olds f g Hnd Hf Hgo Eg).
  - intros (f&->&Hf). change (key (insertion_fragment_new f)) with (fragment_key f).
    destruct (edit_for (fragment_key f) (map insert_new ins)) as [e|] eqn:E'.
    + destruct (Hsome _ _ E') as (g&Hg&Eg&->). cbn.
      by rewrite (NoDup_fmap_inj fragment_key news g f Hnd' (Hsubin g Hg) Hf Eg).
    + destruct (Hnews f Hf) as [Hfi|Hfo]; [by destruct (Hnone f Hfi)|].
      change (fragment_key f) with (key (insertion_fragment_new f) : InsertionFragmentKey). apply lookup_sorted_elem; [done|].
      rewrite Hperm, elem_map. by exists f.
Qed.
Lemma map_lookup_elem (l : list (MapEntry InsertionSlice ())) k :
  sorted (K:=MapKey InsertionSlice) l → (∃ v, map_lookup k l = Some v) ↔ k ∈ map entry_key l.
Proof.
  intros Hs. unfold map_lookup, entry_at. rewrite elem_map. split.
  - intros (v&E). destruct (lookup_key _ l) as [e|] eqn:El; [|done]. pose proof (lookup_Some_key _ _ _ El) as [= Ek].
    exists e. split; [done|]. by eapply lookup_Some_elem.
  - intros ([k' v]&->&He). exists v. change (MkMapKey (Some (entry_key (mkMapEntry k' v)))) with (key (mkMapEntry k' v) : MapKey InsertionSlice).
    by rewrite (lookup_sorted_elem _ _ Hs He).
Qed.

(** The slices after an edit: those before and those of the edit. *)
Lemma install_slices (t : TreeSet InsertionSlice) (new : list InsertionSlice) :
  (∃ h, wf () h t) → height t < STACK_CAPACITY → sorted (K:=MapKey InsertionSlice) (elements t) → NoDup new →
  ∃ t', set_extend sort_edits t new = Some t' ∧ (∃ h, wf () h t') ∧ sorted (K:=MapKey InsertionSlice) (elements t') ∧
    ∀ s, s ∈ map entry_key (elements t') ↔ s ∈ map entry_key (elements t) ++ new.
Proof.
  intros [h Hwf] Hh Hs Hnd.
  destruct (extend_spec (K:=InsertionSlice) (V:=()) sort_edits t (elements t) ((λ k, (k, ())) <$> new))
    as (t'&h'&l'&E&Hwf'&<-&Hs'&Hl).
  - apply sort_edits_ok.
  - split; [done|]. split; [done|]. exists h. split; [done|]. by rewrite (wf_height _ _ _ Hwf) in Hh.
  - rewrite <- list_fmap_compose. cbn. by rewrite list_fmap_id.
  - exists t'. split; [done|]. split; [by exists h'|]. split; [done|]. intros s. rewrite <- map_lookup_elem, Hl, elem_of_app by done.
    rewrite <- (map_lookup_elem (elements t)) by done. unfold assoc. destruct (List.find _ _) as [e|] eqn:Ef; cbn.
    + split; [intros _; right|by eexists].
      apply List.find_some in Ef as [Hin%list_elem_of_In Ec%bool_decide_eq_true%cmp_eq_iff].
      apply list_elem_of_fmap in Hin as (s2&->&Hs2). cbn in Ec. by subst s2.
    + split; [by left|]. intros [?|Hin]; [done|]. exfalso.
      eapply find_none in Ef; [|apply list_elem_of_In, list_elem_of_fmap; by exists s]. cbn in Ef.
      by rewrite cmp_refl, bool_decide_eq_true_2 in Ef.
Qed.

Lemma install_at {D} base s ps (st : Splice D) timestamp fr texts N :
  snapshot_ok base s ps → snapshot_room s → chars_apart (flatten N) →
  (∃ h, wf cx_none h fr) → elements fr = map fst N →
  RopeTree.rope_text (codes true (flatten N)) texts.1 → RopeTree.rope_text (codes false (flatten N)) texts.2 →
  Forall piece_ok N → ids_from Locator_min (map fst N) →
  log_at base (map entry_key (elements (snapshot_insertion_slices s))) timestamp st N →
  map fragment_key (map fst ps) ⊆ map fragment_key (map fst N) →
  (∃ ins, new_insertions st = map insert_new ins ∧ sublist ins (map fst N) ∧ Forall (λ f, f ∈ ins ∨ f ∈ map fst ps) (map fst N)) →
  ∃ s', install s fr texts st = Some s' ∧ snapshot_ok base s' N ∧
    undo_map s' = undo_map s ∧ version s' = version s ∧ line_ending s' = line_ending s.
Proof.
  intros [_ _ [Hok _ _] _ _ Hap [Hiw [His Hip]] [Hsw Hss] Hstarts] (_&Hi&Hsl&_) Hap' Hfr El Hv Hd Hok' Hids [Hlog (L&EL&HL)] Hkeys (ins&Eins&Hsub&Hins).
  pose proof (apart_keys _ Hap) as Hnd. pose proof (apart_keys _ Hap') as Hnd'.
  pose proof (fragment_keys_NoDup _ Hok Hnd) as Hk. pose proof (fragment_keys_NoDup _ Hok' Hnd') as Hk'.
  destruct (install_insertions (insertions s) (map fst ps) (map fst N) ins) as (t&removed&Ei&Htw&Hts&Htp); try done.
  destruct (install_slices (snapshot_insertion_slices s) (insertion_slices st)) as (sl&Esl&Hslw&Hslsort&Hsub'); try done.
  { rewrite EL. eapply NoDup_fmap_1 with (f := λ x, mkInsertionFragmentKey (slice_insertion_id x) (slice_start x)).
    rewrite <- list_fmap_compose. eapply sublist_NoDup; [exact Hk'|]. by apply sublist_map. }
  unfold install. rewrite Eins, Ei. cbn [mbind option_bind]. rewrite Esl. cbn [mbind option_bind].
  eexists. split; [reflexivity|]. split; [|done]. split; try done.
  - split; [done|done|]. eapply Forall_impl; [exact Hlog|]. intros c. apply logged_mono. intros x. apply Hsub'.
  - apply Forall_forall. intros x [Hx|Hx]%Hsub'%elem_of_app.
    + rewrite Forall_forall in Hstarts. by apply Hkeys, Hstarts.
    + rewrite EL in Hx. apply elem_map in Hx as (f&->&Hf). apply elem_map. exists f. split; [done|]. by eapply elem_of_sublist.
Qed.
End install.
