(* ===== verification/EditProps.v ===== *)
(** New buffers and local edits: a new buffer satisfies the invariant of
    snapshots, its document being the base text, one visible insertion; a local
    edit keeps the invariant and does what its operation says. *)

From stdpp Require Import base numbers option list sets sorting.
From S2P Require Import Prelude UndoMap TreeMap Clock SumTree SumTreeFacts Search Cursor CursorFacts KeyedTree Locator Utf8 Operation LineEnding Fragment Builder Splice Snapshot Buffer Document Pieces BuilderFacts SpliceOutput SpliceWalk SpliceDims LocalEdit SnapshotFacts.
From S2P Require Patch PatchFacts Rope History RopeTree RopeEdit RopeCursor RopeBounds.

#[local] Open Scope nat_scope.

(** The timestamp of the base text. *)
Definition base_timestamp : Lamport := Lamport_new LOCAL.
Definition is_base (t : Lamport) : Prop := t = base_timestamp.

Section new.
Context `{Build}.

(** The pieces made so far of the text [t]. *)
Record base_at (t : list Z) (ins : SumTree InsertionFragment InsertionFragmentKey) (fs : FragmentTree) (N : list Piece) : Prop := {
  base_ok : Forall piece_ok N;
  base_ids : ids_from Locator_min (map fst N);
  base_tree : (∃ h, wf cx_none h fs) ∧ elements fs = map fst N;
  base_insertions : (∃ h, wf () h ins) ∧ elements ins = map insertion_fragment_new (map fst N) ∧
    sorted (K:=InsertionFragmentKey) (elements ins);
  base_offsets : Forall (λ f, fragment_timestamp f = base_timestamp ∧ (insertion_offset f < N.of_nat (blen t))%N) (map fst N);
  base_text : flatten N = run base_timestamp true [] 0 t
}.

Lemma base_push t ins fs N a id :
  base_at t ins fs N → a ≠ [] → Forall char_ok a → fits 32 (N.of_nat (blen t + blen a)) →
  id_ok id → cmp (last_id Locator_min (map fst N)) id = Lt →
  let f := mkFragment id base_timestamp (N.of_nat (blen t)) (N.of_nat (blen a)) true [] Global_new in
  ∃ ins' fs', SumTree.push ins (insertion_fragment_new f) () = Some ins' ∧ SumTree.push fs f None = Some fs' ∧
    base_at (t ++ a) ins' fs' (N ++ [(f, a)]).
Proof.
  intros [Hok Hids [[h Hwf] El] ([h' Hwf']&El'&Hs) Hoff Ht] Ha Hoka Hfits Hid Hlt f.
  destruct (push_wf () h' ins (insertion_fragment_new f) Hwf') as (ins'&hi&Ei&Hwfi&_&Eli).
  destruct (push_wf cx_none h fs f Hwf) as (fs'&hf&Ef&Hwff&_&Elf).
  pose proof (RopeCursor.blen_pos a Hoka Ha) as Hpos.
  exists ins', fs'. split; [done|]. split; [done|]. split; rewrite ?map_app; cbn [map].
  - apply Forall_app. split; [done|]. apply Forall_singleton. unfold piece_ok, fits in *. cbn. split_and!; try done; lia.
  - by apply ids_from_snoc.
  - split; [by exists hf|]. by rewrite Elf, El.
  - split; [by exists hi|]. rewrite Eli, El'. split; [done|]. rewrite <- El'.
    apply sorted_app. split; [done|]. split; [by repeat constructor|].
    intros i j Hi ->%list_elem_of_singleton. rewrite El' in Hi. apply elem_map in Hi as (g&->&Hg).
    rewrite Forall_forall in Hoff. destruct (Hoff g Hg) as [Eg Hlg]. unfold key_lt.
    change (cmp (mkInsertionFragmentKey (fragment_timestamp g) (insertion_offset g)) (mkInsertionFragmentKey base_timestamp (N.of_nat (blen t))) = Lt).
    unfold cmp, InsertionFragmentKey_Ord. cbn [key_timestamp key_split_offset]. rewrite Eg, cmp_refl. cbn [then_with].
    by apply N.compare_lt_iff.
  - apply Forall_app. split.
    + eapply Forall_impl; [exact Hoff|]. cbn. intros g [? ?]. split; [done|]. rewrite RopeCursor.blen_app. lia.
    + apply Forall_singleton. cbn. split; [done|]. rewrite RopeCursor.blen_app. lia.
  - rewrite flatten_snoc, Ht, run_text_app. f_equal. unfold piece_chars. cbn. by rewrite Nat2N.id.
Qed.

Lemma base_loop_spec fuel text : ∀ t1 t2 ins fs N,
  RopeTree.rope_text (t1 ++ t2) text → fits 32 (N.of_nat (blen (t1 ++ t2))) → base_at t1 ins fs N → blen t2 ≤ fuel →
  ∃ ins' fs' N', base_loop fuel text base_timestamp (N.of_nat (blen t1)) (blen t1) (last_id Locator_min (map fst N)) ins fs =
    Some (ins', fs') ∧ base_at (t1 ++ t2) ins' fs' N'.
Proof.
  induction fuel as [|fuel IH]; intros t1 t2 ins fs N Htext Hfits Hb Hfuel;
    pose proof (RopeTree.rope_text_ok _ _ Htext) as Hok; pose proof (RopeBounds.rope_text_len _ _ Htext) as Elen;
    cbn [base_loop]; rewrite Elen.
  - assert (t2 = []) as ->. { apply Forall_app in Hok as [_ Hok]. apply blen_zero; [done|lia]. }
    rewrite app_nil_r. rewrite bool_decide_eq_false_2 by lia. by exists ins, fs, N.
  - case_bool_decide as Hend.
    2: { assert (t2 = []) as ->.
      { apply Forall_app in Hok as [_ Hok]. rewrite RopeCursor.blen_app in Hend. apply blen_zero; [done|lia]. }
      rewrite app_nil_r. by exists ins, fs, N. }
    assert (Hne : t2 ≠ []) by (intros ->; rewrite app_nil_r in Hend; lia).
    destruct (chunk_cut t1 t2 Hok Hne) as (a&y&Et&Ha&Ecut&Hmax). cbv zeta in Ecut.
    set (target := N.to_nat (N.min (N.of_nat (blen (t1 ++ t2))) (N.of_nat (blen t1) + MAX_INSERTION_LEN))) in *.
    assert (Eend : (if bool_decide (target = blen (t1 ++ t2)) then Some target else Rope.floor_char_boundary text target) =
      Some (blen t1 + blen a)).
    { rewrite <- Ecut. case_bool_decide; [done|]. by apply RopeBounds.rope_floor_char_boundary. }
    rewrite Eend. cbn [mbind option_bind]. rewrite PatchFacts.usub_add. cbn [mbind option_bind].
    destruct (between_next (map fst N) Locator_max) as (id&->&Hid&Hlo&_); [by destruct Hb|apply next_ok_max| |].
    { destruct Hb as [_ Hids _ _ _ _]. destruct (map fst N) as [|f l _] using rev_ind; [done|]. rewrite last_id_snoc.
      by apply ids_from_snoc in Hids as (_&[_ ?]&_). }
    cbn [mbind option_bind]. subst t2. rewrite !RopeCursor.blen_app in *.
    pose proof (MAX_INSERTION_LEN_room). rewrite as_u32_small by (unfold fits in *; lia).
    apply Forall_app in Hok as [_ [Hoka _]%Forall_app].
    destruct (base_push t1 ins fs N a id Hb Ha Hoka) as (ins'&fs'&Ei&Ef&Hb'); [|done..|].
    { unfold fits in *. lia. }
    cbv zeta in Ei, Ef. rewrite Ei. cbn [mbind option_bind]. rewrite Ef. cbn [mbind option_bind].
    unfold u32_add. rewrite bool_decide_eq_true_2 by (unfold fits in *; lia). cbn [mbind option_bind].
    edestruct (IH (t1 ++ a) y ins' fs') as (ins2&fs2&N2&El&Hb2); [| |exact Hb'| |].
    + by rewrite <- app_assoc.
    + rewrite !RopeCursor.blen_app. unfold fits in *. lia.
    + pose proof (RopeCursor.blen_pos a Hoka Ha). lia.
    + exists ins2, fs2, N2. rewrite <- app_assoc in Hb2. split; [|done].
      rewrite <- El, map_app, RopeCursor.blen_app. cbn [map fst]. rewrite last_id_snoc. f_equal. lia.
Qed.

Lemma base_nil : base_at [] (SumTree.new ()) (SumTree.new None) [].
Proof.
  constructor; try done.
  - split; [exists 0; apply wf_new|done].
  - split_and!; [exists 0; apply wf_new|done|constructor].
Qed.

Lemma base_document t ins fs N :
  base_at t ins fs N → DocumentOk N is_base [].
Proof.
  intros [Hok Hids _ _ _ Ht]. constructor; [done|done|]. rewrite Ht. apply Pieces.run_forall.
  intros o c. split; [by left|]. intros e He. by apply not_elem_of_nil in He.
Qed.

(** The parts of a buffer its text makes; the rest is the state no edit has
    touched yet. *)
Lemma base_snapshot t ins fs N text v remote replica ending :
  base_at t ins fs N → RopeTree.rope_text t text →
  snapshot_ok is_base (mkSnapshot text Rope.Rope_new fs ins (SumTree.new ()) UndoMap.undo_map_default v remote replica ending) N.
Proof.
  intros Hb Htext. pose proof (base_document _ _ _ _ Hb) as Hdoc. destruct Hb as [Hok Hids [Hwf El] (Hwf'&El'&Hs) Hoff Ht].
  constructor; cbn; try done.
  - by rewrite Ht, codes_run.
  - rewrite Ht, codes_run. exists 0, []. split; [apply RopeTree.rope_of_new|done].
  - rewrite Ht. apply run_apart.
  - split_and!; [done|done|]. by rewrite El'.
  - split; [exists 0; apply wf_new|constructor].
Qed.

Lemma new_buffer replica remote ending text cs :
  RopeTree.rope_text cs text → fits 32 (N.of_nat (blen cs)) →
  ∃ b ps, new_normalized replica remote ending text = Some b ∧ snapshot_ok is_base (snapshot b) ps ∧
    visible_text (snapshot b) = text ∧ history b = History.new text ∧
    version (snapshot b) = (if bool_decide (cs = []) then Global_new else Global_observe Global_new base_timestamp) ∧
    line_ending (snapshot b) = ending ∧ flatten ps = run base_timestamp true [] 0 cs.
Proof.
  intros Htext Hfits. unfold new_normalized. cbv zeta.
  change (History.base_text (History.new text)) with text.
  pose proof (RopeBounds.rope_text_len _ _ Htext) as Elen. unfold Rope.is_empty. rewrite Elen.
  destruct (base_loop_spec (blen cs) text [] cs _ _ [] Htext Hfits base_nil) as (ins&fs&N&El&Hb); [done|].
  destruct (decide (cs = [])) as [->|Hne].
  - cbn [blen]. rewrite bool_decide_eq_true_2 by done. cbn [negb mbind option_bind].
    eexists _, []. split; [reflexivity|]. split; [|done]. cbn [snapshot].
    apply (base_snapshot []); [apply base_nil|done].
  - pose proof (RopeCursor.blen_pos cs (RopeTree.rope_text_ok _ _ Htext) Hne).
    rewrite bool_decide_eq_false_2 by lia. cbn [negb].
    change (last_id Locator_min (map fst [])) with Locator_min in El. change (blen []) with 0 in El.
    change (N.of_nat 0) with 0%N in El. change (Lamport_new LOCAL) with base_timestamp. rewrite El.
    cbn [mbind option_bind]. eexists _, N. split; [reflexivity|]. cbn [snapshot].
    split; [by eapply base_snapshot|]. rewrite bool_decide_eq_false_2 by done.
    split_and!; try done. by destruct Hb.
Qed.
End new.

(** The ropes of a snapshot, as the texts of a builder. *)
Lemma rope_cursor_start cs r :
  RopeTree.rope_text cs r → height (Rope.chunks r) ≤ ROPE_ROOM →
  ∃ c, Rope.cursor r 0 = Some c ∧ RopeCursor.cursor_place ROPE_ROOM c [] cs.
Proof.
  intros Hr Hh. destruct (RopeCursor.cursor_text ROPE_ROOM r [] cs) as (c&E&_&Hc); [|compute; lia|by exists c].
  eapply RopeTree.rope_in_le; [by apply RopeTree.rope_text_in|done].
Qed.

Lemma snapshot_ropes base s ps :
  snapshot_ok base s ps → snapshot_room s →
  ∃ cv cd, Rope.cursor (visible_text s) 0 = Some cv ∧ Rope.cursor (deleted_text s) 0 = Some cd ∧
    ropes_at (rope_builder_new cv cd) (λ _, []) (λ v, codes v (flatten ps)) (λ _, []).
Proof.
  intros Hok (_&_&_&Hv&Hd). destruct (rope_cursor_start _ _ (snapshot_visible _ _ _ Hok) Hv) as (cv&Ev&Hcv).
  destruct (rope_cursor_start _ _ (snapshot_deleted _ _ _ Hok) Hd) as (cd&Ed&Hcd).
  exists cv, cd. split; [done|]. split; [done|]. by apply ropes_at_new.
Qed.

Lemma snapshot_cursor {D} `{!Dimension D FragmentSummary (option Global)} base s ps (cx : option Global) :
  snapshot_ok base s ps → snapshot_room s →
  cursor_at (cursor_new (fragments s) cx : Cursor Fragment FragmentSummary D (option Global)) [] (map fst ps).
Proof.
  intros [[h Hwf] El _ _ _ _ _ _] (Hh&_). rewrite <- El. apply (cursor_at_new _ _ h); [by eapply wf_cx|].
  by rewrite (wf_height _ _ _ Hwf) in Hh.
Qed.

(** The text before the first edit, left out. *)
Lemma splices_skip pos g0 w1 s0 e0 raw es w' ts :
  splices pos (g0 ++ w1) (((s0, e0), raw) :: es) w' ts → Forall char_ok (g0 ++ w1) → pos + blen g0 ≤ s0 →
  ∃ w1', w' = g0 ++ w1' ∧ splices (pos + blen g0) w1 (((s0, e0), raw) :: es) w1' ts.
Proof.
  intros Hs Hok Hle. inversion Hs as [|? g d w ? t ? w2 ts2 Hn Ht Hs' Epos Etext]; subst.
  destruct (RopeCursor.prefix_of_blen g (d ++ w) g0 w1) as (g1&->&->); [done|by rewrite Etext|lia|].
  exists (g1 ++ t ++ w2). rewrite <- app_assoc. split; [done|].
  rewrite RopeCursor.blen_app in *. replace (pos + (blen g0 + blen g1)) with (pos + blen g0 + blen g1) in * by lia.
  by constructor.
Qed.

Section local.
Context `{Build, SortOk} {base : Lamport → Prop}.
Context (s : BufferSnapshot) (ps : list Piece) (timestamp : Lamport) (edits : list ((nat * nat) * list Z))
  (text' : list Z) (texts : list (list Z)).

(** What a local edit relies on: the clock is ahead of the document, the
    ranges are in order and between characters, and the new text has offsets of
    32 bits. *)
Record local_edit_ok : Prop := {
  local_snapshot : snapshot_ok base s ps;
  local_room : snapshot_room s;
  local_observed : Forall (λ c, obs (version s) c = true ∧ cmp (char_timestamp c) timestamp = Lt) (flatten ps);
  local_fresh : observed (version s) timestamp = false;
  local_positive : (0 < value timestamp)%N;
  local_splices : splices 0 (codes true (flatten ps)) edits text' texts;
  local_fits : fits 32 (N.of_nat (blen (concat texts)))
}.

Lemma local_edit_all :
  local_edit_ok →
  ∃ s' ps' rs p, apply_edit_internal s edits timestamp =
      Some (s', mkEditOperation timestamp (version s) (map full_range rs) (map bytes_of texts), p) ∧
    snapshot_ok base s' ps' ∧ length rs = length texts ∧ undo_map s' = undo_map s ∧ version s' = version s ∧
    codes true (flatten ps') = text' ∧
    PatchFacts.patches p (bytes_of (codes true (flatten ps))) (bytes_of text') ∧
    flatten ps' = apply_edits (obs (version s)) char_visible timestamp 0 (zip rs texts) (flatten ps) ∧
    ranges_from 0 rs ∧ Forall (λ r, seen_boundary (version s) (flatten ps) r.1 ∧ seen_boundary (version s) (flatten ps) r.2) rs ∧
    Forall (Forall char_ok) texts ∧
    char_splices (strike (obs (version s)) char_visible timestamp) timestamp 0 0 (flatten ps) edits texts (flatten ps').
Proof.
  intros [Hok Hroom Hobs Hfresh Hpos Hsplices Hfits]. pose proof (snapshot_document _ _ _ Hok) as Hdoc.
  unfold apply_edit_internal. destruct edits as [|[[s0 e0] raw0] es] eqn:Eedits.
  { inversion Hsplices; subst. exists s, ps, [], Patch.empty. split_and!; try done; by constructor || apply Forall_nil_2. }
  destruct (snapshot_ropes base s ps Hok Hroom) as (cv&cd&Ecv&Ecd&Hr).
  pose proof (local_walks None ps ps_ok) as Hw.
  destruct (splice_start (offset_of:=visible_offset) (target_of:=id) (bias:=Right) (V:=version s) (base:=base)
    (slices0:=map entry_key (elements (snapshot_insertion_slices s))) (timestamp:=timestamp)
    (cursor_new (fragments s) None) (rope_builder_new cv cd) s0) as [(st&before&after&Est&Hst&Hs&Hreach&_) Eskip];
    [by eapply snapshot_cursor|done|exact Hr|].
  rewrite Eskip in Est. assert (Els : local_splice s s0 = Some st).
  { unfold local_splice. rewrite Ecv, Ecd. exact Est. }
  rewrite Els. cbn [mbind option_bind]. clear Els Est Eskip.
  assert (Eps : ps = before ++ after) by apply Hst.
  assert (Hobs' : Forall (λ c, obs (version s) c = true) (flatten before)).
  { rewrite Eps, flatten_app, Forall_app in Hobs. destruct Hobs as [Hb _]. eapply Forall_impl; [exact Hb|naive_solver]. }
  assert (Etext : codes true (flatten ps) = codes true (flatten before) ++ codes true (rest_chars after [])).
  { by rewrite rest_flatten, Eps, flatten_app, codes_app. }
  pose proof Hs as Hs'. unfold start_at in Hs'. change (blen []) with 0 in Hs'. rewrite Nat.add_0_r, clen_visible in Hs'.
  rewrite Etext in Hsplices. apply splices_skip in Hsplices as (w1&->&Hsplices).
  2: { rewrite <- Etext, <- (rest_flatten ps). by apply (rest_ok [] ps []). }
  2: { destruct Hreach as [Hle _]. change (blen []) with 0 in Hle. rewrite clen_visible in Hle. lia. }
  unfold local_edits. destruct (local_edits_at Hobs Hfresh Hpos (((s0, e0), raw0) :: es) st before after [] before 0 w1 texts [] [])
    as (st1&before1&after1&x1&N&rs&off&E1&Hst1&Hs1&Elen&Ec&Edoc&Hrs&Hbs&(R'&ER&Hsp)); try done.
  { by rewrite Hs'. }
  { exists (flatten before), []. rewrite app_nil_r. split; [done|]. split; [by apply tight_all|done]. }
  cbn [map] in E1. cbn [map app] in E1. rewrite E1. cbn [mbind option_bind].
  destruct (finish_splice_at st1 before1 after1 x1 N off Hst1 Hs1)
    as (fr&tx&st2&N'&->&Hfr&Eel&Hv&Hd&EN&HokN&Hids&Hpatch&Hlog&Hkeys&Hins).
  cbn [mbind option_bind].
  assert (Edoc' : flatten N' = apply_edits (obs (version s)) char_visible timestamp 0 (zip rs texts) (flatten ps)).
  { by rewrite EN, <- Edoc, rest_flatten, <- flatten_app, <- Eps. }
  destruct (install_at base s ps st2 timestamp fr tx N') as (s'&->&Hok'&Eu&Ev&_); try done.
  { rewrite Edoc'. apply apply_edits_apart; [by destruct Hok|]. eapply Forall_impl; [exact Hobs|]. cbn. intros c [_ Hc] E.
    by rewrite E, cmp_refl in Hc. }
  cbn [mbind option_bind]. exists s', N', rs, (edits_patch st2). split; [done|]. split; [done|]. split; [done|]. split; [done|].
  split; [done|].
  assert (Ew : codes true (flatten N') = codes true (flatten before) ++ w1) by by rewrite EN.
  split; [done|]. split; [by rewrite <- Ew|]. split; [done|]. split; [eapply ranges_from_le, Hrs; lia|]. split; [done|].
  split; [by eapply splices_chars|]. rewrite EN, ER, Eps, flatten_app. rewrite rest_flatten in Hsp. apply char_splices_behind. by rewrite <- Hs'.
Qed.
End local.

(** ** A sorting algorithm that has the contract *)

Definition by_key {A K} `{Ord K} (f : A → K) : relation A := λ a b, cmp (f a) (f b) ≠ Gt.

#[export] Instance by_key_dec {A K} `{Ord K} (f : A → K) : RelDecision (by_key f).
Proof. intros a b. unfold by_key. apply _. Defined.

Definition merge : Sort := λ A K _ f, merge_sort (by_key f).

Lemma merge_ok : SortOk (H:=merge).
Proof.
  intros A K HO HL f l.
  assert (Htotal : Total (by_key f)).
  { intros a b. unfold by_key. destruct (cmp (f a) (f b)) eqn:E; [by left..|].
    right. rewrite (cmp_antisym (f a)), E. done. }
  assert (Htrans : Transitive (by_key f)).
  { intros a b c. apply cmp_le_trans. }
  split; [apply merge_sort_Permutation|by apply StronglySorted_merge_sort].
Qed.

(** ** A small buffer *)

Definition small_text : list Z := [104; 105; 233]%Z.
Definition small_buffer : option Buffer :=
  Buffer_new (H:=true) (H0:=true) 1 7 (bytes_of small_text).

Definition roomy (s : BufferSnapshot) : bool :=
  (height (fragments s) <? STACK_CAPACITY) && (height (insertions s) <? STACK_CAPACITY) &&
  (height (snapshot_insertion_slices s) <? STACK_CAPACITY) &&
  (height (Rope.chunks (visible_text s)) <=? ROPE_ROOM) && (height (Rope.chunks (deleted_text s)) <=? ROPE_ROOM).

Lemma roomy_spec s : roomy s = true → snapshot_room s.
Proof.
  unfold roomy. rewrite !andb_true_iff, !Nat.ltb_lt, !Nat.leb_le. intros [[[[? ?] ?] ?] ?]. by unfold snapshot_room.
Qed.

Lemma small_buffer_ok :
  ∃ b ps, small_buffer = Some b ∧ snapshot_ok is_base (snapshot b) ps ∧ snapshot_room (snapshot b) ∧
    version (snapshot b) = Global_observe Global_new base_timestamp ∧
    flatten ps = run base_timestamp true [] 0 small_text.
Proof.
  assert (Hok : Forall char_ok small_text) by (repeat constructor; compute; intuition congruence).
  assert (En : normalize small_text = small_text) by done.
  destruct (RopeEdit.from_text_text _ (normalize_ok _ Hok)) as (r&Er&Hr).
  destruct (new_buffer (H:=true) 1 7 (detect (H:=true) (bytes_of small_text)) r _ Hr) as (b&ps&Eb&Hs&_&_&Hv&_&Ef); [by vm_compute|].
  assert (Esm : small_buffer = Some b).
  { unfold small_buffer, Buffer_new. rewrite normalize_bytes, Er by done. exact Eb. }
  rewrite En in Ef.
  exists b, ps. split; [exact Esm|]. split; [exact Hs|]. split; [|split; [exact Hv|exact Ef]]. apply roomy_spec.
  assert (H : (roomy ∘ snapshot) <$> small_buffer = Some true) by (vm_compute; reflexivity).
  rewrite Esm in H. change (Some (roomy (snapshot b)) = Some true) in H. congruence.
Qed.

(** ** New buffers *)

(** C13: A new buffer: [Buffer::new] succeeds on every text whose offsets fit 32
    bits, its snapshot satisfies the invariant that edits keep, it shows the
    text with its line endings normalized, its document is one visible
    insertion, and its line ending is the one detected. *)
Theorem new_buffer_document `{Build, Platform} replica remote cs :
  Forall char_ok cs → fits 32 (N.of_nat (blen (normalize cs))) →
  ∃ b ps, Buffer_new replica remote (bytes_of cs) = Some b ∧ snapshot_ok is_base (snapshot b) ps ∧
    RopeTree.rope_text (normalize cs) (visible_text (snapshot b)) ∧ line_ending (snapshot b) = detect (bytes_of cs) ∧
    flatten ps = run base_timestamp true [] 0 (normalize cs).
Proof.
  intros Hok Hf. unfold Buffer_new. rewrite normalize_bytes by done.
  destruct (RopeEdit.from_text_text _ (normalize_ok cs Hok)) as (r&->&Hr). cbn [mbind option_bind].
  destruct (new_buffer replica remote (detect (bytes_of cs)) r _ Hr Hf) as (b&ps&E&Hs&Hv&_&_&He&Ef).
  exists b, ps. split; [done|]. split; [done|]. split; [by rewrite Hv|]. by split.
Qed.

Lemma new_buffer_document_witness :
  ∃ b ps, Buffer_new (H:=true) (H0:=true) 1 7 (bytes_of [104; 13; 10; 233]%Z) = Some b ∧
    line_ending (snapshot b) = Windows ∧ flatten ps = run base_timestamp true [] 0 [104; 10; 233]%Z.
Proof.
  destruct (new_buffer_document (H:=true) (H0:=true) 1 7 [104; 13; 10; 233]%Z) as (b&ps&Eb&_&_&El&Ef).
  - repeat constructor; compute; intuition congruence.
  - by vm_compute.
  - exists b, ps. split; [exact Eb|]. split; [rewrite El; vm_compute; reflexivity|exact Ef].
Defined.

(** ** Local edits *)

Section local.
Context `{Build, SortOk} {base : Lamport → Prop}.

(** C9: A local edit succeeds when its ranges are in order and between
    characters and its text has offsets of 32 bits; the buffer then shows the
    old text with every range replaced by its new text, normalized, and the
    patch it publishes turns the old text into the new one. *)
Theorem local_edit_replaces s ps timestamp edits text' texts :
  local_edit_ok (base:=base) s ps timestamp edits text' texts →
  ∃ s' p, option_map (λ r, (r.1.1, r.2)) (apply_edit_internal s edits timestamp) = Some (s', p) ∧
    RopeTree.rope_text text' (visible_text s') ∧
    PatchFacts.patches p (bytes_of (codes true (flatten ps))) (bytes_of text').
Proof.
  intros Hok. destruct (local_edit_all s ps timestamp edits text' texts Hok)
    as (s'&ps'&rs&p&->&Hs'&_&_&_&Et&Hp&_&_).
  exists s', p. split; [done|]. split; [|done]. rewrite <- Et. by destruct Hs'.
Qed.

(** C10: A local edit keeps the invariant of the snapshot, and the operation it
    returns says what it did: with the version of the snapshot and the ranges
    of the operation, the reference [apply_edits] takes the old document to the
    new one. *)
Theorem local_edit_refines s ps timestamp edits text' texts :
  local_edit_ok (base:=base) s ps timestamp edits text' texts →
  ∃ s' ps' rs p, apply_edit_internal s edits timestamp =
      Some (s', mkEditOperation timestamp (version s) (map full_range rs) (map bytes_of texts), p) ∧
    snapshot_ok base s' ps' ∧ length rs = length texts ∧
    flatten ps' = apply_edits (obs (version s)) char_visible timestamp 0 (zip rs texts) (flatten ps).
Proof.
  intros Hok. destruct (local_edit_all s ps timestamp edits text' texts Hok)
    as (s'&ps'&rs&p&E&Hs'&El&_&_&_&_&Ef&_).
  by exists s', ps', rs, p.
Qed.
End local.

(** Replace the [i] of [hié] by [a] and an euro sign, and add an [o]. *)
Definition small_edits : list ((nat * nat) * list Z) := [((1, 2), bytes_of [97; 8364]%Z); ((4, 4), bytes_of [111]%Z)].
Definition small_result : list Z := [104; 97; 8364; 233; 111]%Z.
Definition small_timestamp : Lamport := mkLamport 2 1.

Lemma small_edit_ok b ps :
  snapshot_ok is_base (snapshot b) ps → snapshot_room (snapshot b) →
  version (snapshot b) = Global_observe Global_new base_timestamp →
  flatten ps = run base_timestamp true [] 0 small_text →
  local_edit_ok (base:=is_base) (snapshot b) ps small_timestamp small_edits small_result [[97; 8364]; [111]]%Z.
Proof.
  intros Hs Hr Hv Ef. constructor; [done|done|..].
  - rewrite Hv, Ef. repeat constructor.
  - by rewrite Hv.
  - done.
  - rewrite Ef. change (codes true _) with ([104] ++ [105] ++ ([233] ++ [] ++ []))%Z.
    apply (splices_cons 0 [104]%Z [105]%Z _ _ [97; 8364]%Z _ ([233] ++ [111] ++ [])%Z [[111]%Z]); [done|by repeat constructor|].
    apply (splices_cons 2 [233]%Z []%Z [] _ [111]%Z [] [] []); [done|by repeat constructor|constructor].
  - by vm_compute.
Qed.

Lemma local_edit_replaces_witness :
  ∃ b s' p, small_buffer = Some b ∧
    option_map (λ r, (r.1.1, r.2)) (apply_edit_internal (H:=true) (H0:=merge) (snapshot b) small_edits small_timestamp) =
      Some (s', p) ∧ RopeTree.rope_text small_result (visible_text s').
Proof.
  destruct small_buffer_ok as (b&ps&E&Hs&Hr&Hv&Ef).
  destruct (local_edit_replaces (H:=true) (H0:=merge) (H1:=merge_ok) _ _ _ _ _ _ (small_edit_ok b ps Hs Hr Hv Ef))
    as (s'&p&Ea&Ht&_).
  exists b, s', p. split; [exact E|]. split; [exact Ea|exact Ht].
Defined.

Lemma local_edit_refines_witness :
  ∃ b ps ps' s' rs p, small_buffer = Some b ∧
    apply_edit_internal (H:=true) (H0:=merge) (snapshot b) small_edits small_timestamp =
      Some (s', mkEditOperation small_timestamp (version (snapshot b)) (map full_range rs) [bytes_of [97; 8364]; bytes_of [111]]%Z, p) ∧
    flatten ps' = apply_edits (obs (version (snapshot b))) char_visible small_timestamp 0 (zip rs [[97; 8364]; [111]]%Z) (flatten ps).
Proof.
  destruct small_buffer_ok as (b&ps&E&Hs&Hr&Hv&Ef).
  destruct (local_edit_refines (H:=true) (H0:=merge) (H1:=merge_ok) _ _ _ _ _ _ (small_edit_ok b ps Hs Hr Hv Ef))
    as (s'&ps'&rs&p&Ea&_&_&Ed).
  exists b, ps, ps', s', rs, p. split; [exact E|]. split; [exact Ea|exact Ed].
Defined.
