(* ===== verification/RemoteEdit.v ===== *)
(** Remote edits: [apply_remote_edit] does to the fragments what [apply_edits]
    does to the document, and returns the patch between the old text and the
    new one.

    Places are named by the version [V] the edit was made in.  At the place of
    an insertion the text goes behind the concurrent insertions with greater
    timestamps, and the range deletes what the edit's author could see. *)

From stdpp Require Import base numbers option list sets.
From S2P Require Import Prelude UndoMap TreeMap Clock SumTree SumTreeFacts Search Cursor CursorFacts StepFacts KeyedTree Locator Utf8 Operation Fragment Builder Splice Snapshot Buffer Remote Document Pieces BuilderFacts SpliceOutput SpliceWalk SpliceDims LocalEdit SnapshotFacts EditProps.
From S2P Require KeyedFacts Patch PatchFacts UndoMapFacts Rope RopeTree RopeCursor.

#[local] Open Scope nat_scope.

(** ** What the author of an edit saw *)

Class UndoMapOk (undos : UndoMap) : Prop := undo_entries : ∃ l, KeyedFacts.keyed_tree (K:=UndoMapKey) () undos l.

Lemma was_undone_total undos e V : UndoMapOk undos → ∃ b, was_undone undos e V = Some b.
Proof.
  intros [l Hl]. pose proof (UndoMapFacts.count_spec (observed V) undos l e Hl) as E. unfold was_undone.
  destruct (seek_edit undos e) as [c|]; cbn [mbind option_bind] in *; [|done]. rewrite E. by eexists.
Qed.

Lemma is_undone_total undos e : UndoMapOk undos → ∃ b, is_undone undos e = Some b.
Proof.
  intros [l Hl]. pose proof (UndoMapFacts.count_spec (λ _, true) undos l e Hl) as E. unfold is_undone, undo_count.
  destruct (seek_edit undos e) as [c|]; cbn [mbind option_bind] in *; [|done]. rewrite E. by eexists.
Qed.

Lemma allM_total {A} (f : A → option bool) l : (∀ a, ∃ b, f a = Some b) → ∃ b, allM f l = Some b.
Proof.
  intros Hf. induction l as [|a l IH]; cbn [allM]; [by eexists|]. destruct (Hf a) as ([]&->); cbn [mbind option_bind]; eauto.
Qed.

(** A character as a fragment of its own. *)
Definition char_fragment (c : Char) : Fragment :=
  mkFragment Locator_min (char_timestamp c) 0 0 (char_visible c) (char_deletions c) Global_new.

(** The character was visible in version [V]. *)
Definition was_shown (undos : UndoMap) (V : Global) (c : Char) : bool := default false (was_visible (char_fragment c) V undos).

(** The character is visible by the undo map. *)
Definition is_shown (undos : UndoMap) (c : Char) : bool := default false (is_visible (char_fragment c) undos).

Section shown.
Context (undos : UndoMap) `{Hundos : !UndoMapOk undos}.

Lemma was_visible_shown f V c :
  char_timestamp c = fragment_timestamp f → char_deletions c = deletions f →
  was_visible f V undos = Some (was_shown undos V c).
Proof.
  intros Et Ed. unfold was_shown. assert (E : was_visible (char_fragment c) V undos = was_visible f V undos).
  { unfold was_visible, char_fragment. cbn. by rewrite Et, Ed. }
  rewrite E. assert (Htotal : ∃ b, was_visible f V undos = Some b); [|by destruct Htotal as [b ->]].
  unfold was_visible. destruct (observed V (fragment_timestamp f)); [|by eexists].
  destruct (was_undone_total undos (fragment_timestamp f) V Hundos) as ([]&->); cbn [mbind option_bind]; [by eexists|].
  apply allM_total. intros d. destruct (observed V d); [by apply was_undone_total|by eexists].
Qed.

Lemma is_visible_shown f c :
  char_timestamp c = fragment_timestamp f → char_deletions c = deletions f → is_visible f undos = Some (is_shown undos c).
Proof.
  intros Et Ed. unfold is_shown. assert (E : is_visible (char_fragment c) undos = is_visible f undos).
  { unfold is_visible, char_fragment. cbn. by rewrite Et, Ed. }
  rewrite E. assert (Htotal : ∃ b, is_visible f undos = Some b); [|by destruct Htotal as [b ->]].
  unfold is_visible. destruct (is_undone_total undos (fragment_timestamp f) Hundos) as ([]&->); cbn [mbind option_bind]; [by eexists|].
  apply allM_total. intros d. by apply is_undone_total.
Qed.
End shown.

Section remote.
Context `{Build} {ps : list Piece} (V : Global) (undos : UndoMap) `{Hundos : !UndoMapOk undos} {base : Lamport → Prop}
  {slices0 : list InsertionSlice} (timestamp : Lamport) `{Hdoc : !DocumentOk ps base slices0}.
Implicit Types (p : Piece) (st : Splice (VersionedFullOffset * nat)) (before after N : list Piece) (x : list Z) (n off : nat).

Abbreviation splice_at := (SpliceWalk.splice_at (Some V) (counts_version V) ps V base slices0 timestamp) (only parsing).
Abbreviation start_at := (SpliceWalk.start_at (counts_version V)) (only parsing).
Abbreviation count l := (clen (counts_char (counts_version V)) (flatten l)) (only parsing).
Abbreviation boundary := (SpliceWalk.boundary (counts_version V)) (only parsing).
Abbreviation strike_here := (strike (obs V) (was_shown undos V) timestamp) (only parsing).
Abbreviation struck := (SpliceDims.struck (cx:=Some V) (cnt:=counts_version V) (ps:=ps) (V:=V) (base:=base)
  (slices0:=slices0) (timestamp:=timestamp) strike_here) (only parsing).

#[local] Instance Hwalk : walks remote_offset remote_target Left (Some V) (counts_version V) ps := remote_walks V ps ps_ok.

(** The cursor is not at the end of its piece. *)
Definition proper after x : Prop := match after with p :: _ => x ≠ p.2 | [] => True end.

Lemma proper_nil before after : ps = before ++ after → proper after [].
Proof. destruct after as [|p post]; [done|]. intros Eps. cbn. destruct (ps_piece _ _ _ Eps) as [Hne _]. congruence. Qed.

(** *** The visible offset *)

Lemma start_visible st before after :
  cursor_on (Some V) ps (old_fragments st) before after → (start (old_fragments st)).2 = blen (codes true (flatten before)).
Proof.
  intros (Eps&(h&_&_&Hp&_)&_&Ecx). unfold start. rewrite Hp, Ecx. by rewrite (position_prefix V ps before after ps_ok Eps).
Qed.

Lemma visible_start_at st before after x N off :
  splice_at st before after x N off → start_at st before x →
  visible_start st = Some (blen (codes true (flatten before)) + blen x).
Proof.
  intros [Hc _ _ _ _ _] Hs. unfold visible_start. rewrite (item_start_at _ _ _ Hc). cbn [mbind option_bind].
  unfold SpliceWalk.start_at in Hs. rewrite Hs, PatchFacts.usub_add. cbn [mbind option_bind]. by rewrite (start_visible _ _ _ Hc).
Qed.

Lemma insertion_start_at st before after x N off :
  splice_at st before after x N off → start_at st before x →
  insertion_start st = Some (blen (codes true (flatten before ++ head_chars after x))).
Proof.
  intros Hst Hs. pose proof Hst as [Hc Hw _ _ _ _]. unfold insertion_start. rewrite (current_item _ _ _ Hc).
  cbn [mbind option_bind]. rewrite codes_app, RopeCursor.blen_app. destruct after as [|p post]; cbn [map head].
  - rewrite (start_visible _ _ _ Hc). change (head_chars [] x) with (@nil Char). change (blen (codes true [])) with 0. f_equal. lia.
  - rewrite (visible_start_at _ _ _ _ _ _ Hst Hs), (start_visible _ _ _ Hc). unfold head_chars. rewrite codes_run.
    destruct (visible p.1); case_bool_decide; try done. change (blen []) with 0. f_equal. lia.
Qed.

(** *** To the place of the edit *)

Hypothesis ps_old : Forall (λ c, obs V c = true → cmp (char_timestamp c) timestamp = Lt) (flatten ps).
Hypothesis ps_apart : Forall (λ c, char_timestamp c ≠ timestamp) (flatten ps).

Lemma char_of_piece before p post :
  ps = before ++ p :: post → ∃ c, c ∈ flatten ps ∧ char_timestamp c = fragment_timestamp p.1.
Proof.
  intros Eps. destruct (ps_piece _ _ _ Eps) as [Hne _]. rewrite Eps, flatten_app, flatten_cons. unfold piece_chars.
  destruct p.2 as [|z t]; [done|]. cbn [run].
  exists (mkChar (fragment_timestamp p.1) (N.to_nat (insertion_offset p.1)) z (visible p.1) (deletions p.1)).
  split; [|done]. apply elem_of_app. right. left.
Qed.

Lemma piece_order before p post :
  ps = before ++ p :: post →
  (observed_fragment V p.1 = true → cmp (fragment_timestamp p.1) timestamp = Lt) ∧ fragment_timestamp p.1 ≠ timestamp.
Proof.
  intros Eps. destruct (char_of_piece _ _ _ Eps) as (c&Hc&Et).
  pose proof ps_old as Ho. pose proof ps_apart as Ha. rewrite Forall_forall in Ho, Ha. specialize (Ho c Hc). specialize (Ha c Hc).
  unfold obs in Ho. by rewrite Et in *.
Qed.

Lemma run_obs p o a : observed_fragment V p.1 = true →
  Forall (λ c, obs V c = true) (run (fragment_timestamp p.1) (visible p.1) (deletions p.1) o a).
Proof. intros Hp. by apply run_forall. Qed.

(** "If we are at the end of a non-concurrent fragment, advance to the next
    one." *)
Lemma end_fragment_at st before after x N off n :
  splice_at st before after x N off → start_at st before x → proper after x → reaches (counts_version V) before after x n →
  n ≤ count ps →
  ∃ st' before' after' x' Q, end_fragment st n = Some st' ∧ splice_at st' before' after' x' (N ++ Q) off ∧
    start_at st' before' x' ∧ proper after' x' ∧ rest_chars after x = flatten Q ++ rest_chars after' x' ∧
    (st' = st ∧ before' = before ∧ after' = after ∧ x' = x ∧ Q = [] ∧
       (fragment_start st = n ∨ fragment_start st < n ∧ ∃ p post, after = p :: post ∧ n < count (before ++ [p])) ∨
     fragment_start st' = n ∧ Q ≠ [] ∧ Forall (λ c, obs V c = true) (flatten Q)).
Proof.
  intros Hst Hs Hproper [Hle Hend] Hmax. pose proof Hst as [Hc Hw _ _ _ _]. pose proof Hc as (Eps&_). unfold end_fragment.
  pose proof Hs as Hs'. unfold SpliceWalk.start_at in Hs'.
  assert (Hstay : fragment_start st = n ∨ fragment_start st < n ∧ (∃ p post, after = p :: post ∧ n < count (before ++ [p])) →
    ∃ st' before' after' x' Q, Some st = Some st' ∧ splice_at st' before' after' x' (N ++ Q) off ∧
    start_at st' before' x' ∧ proper after' x' ∧ rest_chars after x = flatten Q ++ rest_chars after' x' ∧
    (st' = st ∧ before' = before ∧ after' = after ∧ x' = x ∧ Q = [] ∧
       (fragment_start st = n ∨ fragment_start st < n ∧ ∃ p post, after = p :: post ∧ n < count (before ++ [p])) ∨
     fragment_start st' = n ∧ Q ≠ [] ∧ Forall (λ c, obs V c = true) (flatten Q))).
  { intros Hcase. exists st, before, after, x, []. rewrite app_nil_r. split_and!; try done. left. by split_and!. }
  destruct after as [|p post].
  { rewrite (item_end_nil _ _ Hc). cbn [mbind option_bind]. cbn in Hw. subst x. change (blen []) with 0 in *.
    rewrite (bool_decide_eq_false_2 (_ < _)), andb_false_r by lia. apply Hstay. left.
    rewrite app_nil_r in Eps. subst before. lia. }
  rewrite (item_end_at _ _ _ _ Hc). cbn [mbind option_bind]. specialize (Hend p post eq_refl). rewrite <- count_snoc in *.
  destruct (decide (count (before ++ [p]) = n)) as [En|En].
  2: { rewrite bool_decide_eq_false_2 by done. apply Hstay. destruct (decide (fragment_start st = n)); [by left|right].
    split; [lia|]. exists p, post. split; [done|lia]. }
  rewrite bool_decide_eq_true_2 by done. case_bool_decide as Hlt; cbn [andb]; [|apply Hstay; left; lia].
  destruct Hw as (y&E&Hcount). rewrite count_snoc, clen_piece in *.
  assert (Hobs : observed_fragment V p.1 = true).
  { change (counts_fragment (counts_version V) p.1) with (observed_fragment V p.1) in *. destruct (observed_fragment V p.1); [done|lia]. }
  change (counts_fragment (counts_version V) p.1) with (observed_fragment V p.1) in *. rewrite Hobs in *.
  assert (Hy : y ≠ []). { intros ->. rewrite app_nil_r in E. by apply Hproper. }
  rewrite (current_item _ _ _ Hc), (item_start_at _ _ _ Hc). cbn [mbind option_bind map head].
  assert (Hpx : piece_ok (p.1, x ++ y ++ [])). { rewrite app_nil_r, <- E. destruct p. by apply (ps_piece _ _ _ Eps). }
  rewrite Hs', E, RopeCursor.blen_app, Nat.add_assoc, (cut_fragment_spec p.1 x y []) by done. cbn [mbind option_bind].
  change (visible (sub_fragment p.1 x y)) with (visible p.1).
  destruct (push_rest_at (V:=V) (base:=base) (slices0:=slices0) (timestamp:=timestamp) st before p post x y N off)
    as (st1&st2&->&En'&Hst2&Es2); try done.
  cbn [mbind option_bind]. rewrite En'. cbn [mbind option_bind]. rewrite (item_start_at st2 (before ++ [p]) post) by apply Hst2.
  cbn [mbind option_bind].
  eexists _, (before ++ [p]), post, [], [(sub_fragment p.1 x y, y)]. split; [done|]. split; [by apply splice_at_start|].
  split; [unfold SpliceWalk.start_at; change (blen []) with 0; cbn; lia|].
  split; [apply (proper_nil (before ++ [p])); by rewrite <- app_assoc|]. rewrite flatten_cons, app_nil_r, sub_chars, rest_flatten. split.
  { unfold rest_chars. by rewrite E, drop_app_length. }
  right. cbn [set_fragment_start fragment_start]. split; [|split; [done|by apply run_obs]].
  rewrite count_snoc, clen_piece. change (counts_fragment (counts_version V) p.1) with (observed_fragment V p.1). by rewrite Hobs.
Qed.

(** "Skip over insertions that are concurrent to this edit, but have a higher
    lamport timestamp." *)
Lemma skip_stop st before after x N off n :
  splice_at st before after x N off → start_at st before x → proper after x →
  (fragment_start st = n → match rest_chars after x with c :: _ => ahead timestamp c = false | [] => True end) →
  ∃ st' before' after' Q, Some st = Some st' ∧
    splice_at st' before' after' x (N ++ Q) off ∧ start_at st' before' x ∧ proper after' x ∧
    rest_chars after x = flatten Q ++ rest_chars after' x ∧ fragment_start st' = fragment_start st ∧
    Forall (λ c, obs V c = false ∧ ahead timestamp c = true) (flatten Q) ∧
    (fragment_start st ≠ n → st' = st ∧ Q = [] ∧ before' = before ∧ after' = after) ∧
    (fragment_start st = n → match rest_chars after' x with c :: _ => ahead timestamp c = false | [] => True end).
Proof. intros Hst Hs Hp Hhead. exists st, before, after, []. rewrite app_nil_r. split_and!; done || constructor. Qed.

Lemma skip_concurrent_at fuel : ∀ st before after x N off n,
  splice_at st before after x N off → start_at st before x → proper after x → length after ≤ fuel →
  ∃ st' before' after' Q, skip_concurrent fuel st n timestamp = Some st' ∧
    splice_at st' before' after' x (N ++ Q) off ∧ start_at st' before' x ∧ proper after' x ∧
    rest_chars after x = flatten Q ++ rest_chars after' x ∧ fragment_start st' = fragment_start st ∧
    Forall (λ c, obs V c = false ∧ ahead timestamp c = true) (flatten Q) ∧
    (fragment_start st ≠ n → st' = st ∧ Q = [] ∧ before' = before ∧ after' = after) ∧
    (fragment_start st = n → match rest_chars after' x with c :: _ => ahead timestamp c = false | [] => True end).
Proof.
  induction fuel as [|fuel IH]; intros st before after x N off n Hst Hs Hproper Hfuel.
  { destruct after as [|p post]; [|cbn in Hfuel; lia]. pose proof Hst as [Hc _ _ _ _ _]. cbn [skip_concurrent].
    rewrite (current_item _ _ _ Hc). by apply skip_stop. }
  pose proof Hst as [Hc Hw _ _ _ _]. pose proof Hc as (Eps&_). cbn [skip_concurrent]. rewrite (current_item _ _ _ Hc).
  destruct after as [|p post]; cbn [mbind option_bind map head]; [by apply skip_stop|].
  destruct (piece_order _ _ _ Eps) as [Hold Hne].
  destruct (bool_decide _ && bool_decide _) eqn:Etest.
  - apply andb_true_iff in Etest as [En%bool_decide_eq_true Egt%bool_decide_eq_true].
    assert (Hobs : observed_fragment V p.1 = false).
    { destruct (observed_fragment V p.1); [|done]. specialize (Hold eq_refl). congruence. }
    assert (x = []) as ->. { destruct Hw as (y&_&Hcount). destruct x; [done|]. specialize (Hcount ltac:(done)).
      change (observed_fragment V p.1 = true) in Hcount. congruence. }
    destruct (skip_piece st before p post N off Hst) as (rb&st1&->&En1&Hst1&Es1). cbn [mbind option_bind]. rewrite En1.
    cbn [mbind option_bind].
    assert (Hs1 : start_at st1 (before ++ [p]) []).
    { unfold SpliceWalk.start_at in *. rewrite Es1, Hs, count_snoc, clen_piece. 
      change (counts_fragment (counts_version V) p.1) with (observed_fragment V p.1). rewrite Hobs. lia. }
    destruct (IH st1 (before ++ [p]) post [] (N ++ [p]) off n Hst1 Hs1) as (st2&before2&after2&Q&->&Hst2&Hs2&Hp2&Er&Es2&HQ&Hno&Hyes).
    { apply (proper_nil (before ++ [p])). by rewrite <- app_assoc. } { cbn in Hfuel. lia. }
    exists st2, before2, after2, (p :: Q). rewrite <- app_assoc in Hst2. split; [done|]. split; [exact Hst2|]. split; [done|].
    split; [done|]. rewrite Es2, Es1. rewrite flatten_cons, rest_nil by by apply (ps_piece _ _ _ Eps).
    rewrite <- app_assoc, <- Er, rest_flatten. split; [done|]. split; [done|]. split; [|split; [done|by rewrite <- Es1]].
    apply Forall_app. split; [|done]. unfold piece_chars. apply run_forall. intros o c. split; [exact Hobs|].
    unfold ahead. cbn. by rewrite Egt.
  - apply skip_stop; [done..|]. intros En. rewrite En, bool_decide_eq_true_2 in Etest by done. cbn [andb] in Etest.
    apply bool_decide_eq_false in Etest. destruct Hw as (y&E&_). unfold rest_chars. rewrite E, drop_app_length.
    destruct y as [|z y]; [rewrite app_nil_r in E; by destruct Hproper|]. cbn [run app]. unfold ahead. cbn.
    apply bool_decide_eq_false. intros Hlt. apply Hlt. destruct (cmp _ timestamp) eqn:Ecmp; [|done|done].
    by apply cmp_eq_iff in Ecmp.
Qed.

Lemma observed_behind before p post x :
  ps = before ++ p :: post → within (counts_version V) (p :: post) x → x ≠ [] → proper (p :: post) x →
  match rest_chars (p :: post) x with c :: _ => ahead timestamp c = false | [] => True end.
Proof.
  intros Eps (y&E&Hcount) Hx Hp. destruct (piece_order _ _ _ Eps) as [Hold _]. specialize (Hold (Hcount Hx)).
  unfold rest_chars. rewrite E, drop_app_length. destruct y as [|z y]; [rewrite app_nil_r in E; by destruct Hp|].
  cbn [run app]. unfold ahead. cbn. by rewrite Hold.
Qed.

(** The four moves together: the text goes behind the seen text [A] and the
    concurrent insertions [K]. *)
Lemma arrive_at st before after x N off n :
  splice_at st before after x N off → start_at st before x → proper after x →
  fragment_start st ≤ n → n ≤ count ps → boundary (rest_chars after x) (n - fragment_start st) →
  ∃ st1 st2 st3 st4 before' after' x' A K,
    catch_up remote_offset remote_target Left st n = Some st1 ∧ end_fragment st1 n = Some st2 ∧
    skip_concurrent (delete_fuel st2) st2 n timestamp = Some st3 ∧ fragment_start st3 ≤ n ∧
    push_prefix remote_offset st3 n = Some st4 ∧
    splice_at st4 before' after' x' ((N ++ A) ++ K) off ∧ start_at st4 before' x' ∧ proper after' x' ∧
    fragment_start st4 = n ∧ rest_chars after x = flatten A ++ flatten K ++ rest_chars after' x' ∧
    tight (obs V) (flatten A) ∧ Forall (λ c, obs V c = false ∧ ahead timestamp c = true) (flatten K) ∧
    match rest_chars after' x' with c :: _ => ahead timestamp c = false | [] => True end.
Proof.
  intros Hst Hs Hp Hle Hmax Hb. pose proof Hs as Hs'. unfold SpliceWalk.start_at in Hs'.
  destruct (catch_up_at st before after x N off n Hst Hs) as (st1&before1&after1&x1&Q1&E1&Hst1&Hs1&Hreach&Er1&Hmoved); [lia|done|].
  assert (Eps1 : ps = before1 ++ after1) by apply Hst1.
  assert (Hp1 : proper after1 x1).
  { destruct Hmoved as [(_&_&->&->)|(->&_)]; [done|by eapply proper_nil]. }
  destruct (end_fragment_at st1 before1 after1 x1 (N ++ Q1) off n Hst1 Hs1 Hp1 Hreach Hmax)
    as (st2&before2&after2&x2&Q2&E2&Hst2&Hs2&Hp2&Er2&Hend).
  assert (Hfuel : length after2 ≤ delete_fuel st2).
  { destruct Hst2 as [(_&Hc&_) _ _ _ _ _]. unfold delete_fuel. rewrite StepFacts.tree_size_elements, (cursor_at_elements _ _ _ Hc), length_app, !length_map. lia. }
  destruct (skip_concurrent_at (delete_fuel st2) st2 before2 after2 x2 ((N ++ Q1) ++ Q2) off n Hst2 Hs2 Hp2 Hfuel)
    as (st3&before3&after3&K&E3&Hst3&Hs3&Hp3&Er3&Es3&HK&Hno&Hyes).
  exists st1, st2, st3.
  assert (Hdone : fragment_start st2 = n → tight (obs V) (flatten (Q1 ++ Q2)) →
    ∃ st4 before' after' x' A K,
    catch_up remote_offset remote_target Left st n = Some st1 ∧ end_fragment st1 n = Some st2 ∧
    skip_concurrent (delete_fuel st2) st2 n timestamp = Some st3 ∧ fragment_start st3 ≤ n ∧
    push_prefix remote_offset st3 n = Some st4 ∧
    splice_at st4 before' after' x' ((N ++ A) ++ K) off ∧ start_at st4 before' x' ∧ proper after' x' ∧
    fragment_start st4 = n ∧ rest_chars after x = flatten A ++ flatten K ++ rest_chars after' x' ∧
    tight (obs V) (flatten A) ∧ Forall (λ c, obs V c = false ∧ ahead timestamp c = true) (flatten K) ∧
    match rest_chars after' x' with c :: _ => ahead timestamp c = false | [] => True end).
  { intros En Ht. exists st3, before3, after3, x2, (Q1 ++ Q2), K. split; [done|]. split; [done|]. split; [done|].
    split; [lia|]. split; [unfold push_prefix; by rewrite bool_decide_eq_false_2 by lia|].
    split; [by rewrite app_assoc|]. split; [done|]. split; [done|]. split; [lia|].
    split; [by rewrite Er1, Er2, Er3, flatten_app, <- !app_assoc|]. split; [done|]. split; [done|by apply Hyes]. }
  destruct Hend as [(->&->&->&->&->&[En|(Hlt&p&post&->&Hin)])|(En&HQ2&Hobs)].
  - apply Hdone; [done|]. rewrite app_nil_r. destruct Hmoved as [(->&_)|(->&Hlt)]; [done|].
    specialize (Hlt eq_refl). unfold SpliceWalk.start_at in Hs1. change (blen []) with 0 in Hs1. lia.
  - clear Hdone. destruct Hno as (->&->&->&->); [lia|].
    pose proof (moved_count _ _ _ _ _ _ _ _ _ _ _ _ _ Hst Hs Hst1 Hs1 Er1) as F1.
    destruct (push_prefix_at st1 before1 (p :: post) x1 (N ++ Q1) off n Hst1 Hs1 Hreach Hmax) as (st4&x4&Q4&E4&Hst4&Hs4&F4&Er4&Hpart).
    { unfold SpliceWalk.start_at in Hs1. rewrite <- Hs1, F1.
      replace (n - _) with (n - fragment_start st - clen (counts_char (counts_version V)) (flatten Q1)) by lia.
      eapply boundary_tail; [exact Hb|exact Er1|done|lia]. }
    destruct Hpart as [(->&->&->)|(Hx4&q&post'&a&[= <- <-]&Hcount&Ha&Echars)]; [lia|].
    assert (Hp4 : proper (p :: post) x4).
    { intros Ex. unfold SpliceWalk.start_at in Hs4. rewrite count_snoc, clen_piece, Hcount, <- Ex in Hin. lia. }
    exists st4, before1, (p :: post), x4, (Q1 ++ Q4), []. rewrite !app_nil_r, app_assoc in *. split; [done|]. split; [done|]. split; [done|].
    split; [lia|]. split; [done|]. split; [done|]. split; [done|]. split; [done|]. split; [done|].
    split; [by rewrite Er1, Er4, flatten_app, <- app_assoc|]. split; [|split; [constructor|]].
    + rewrite flatten_app, Echars. assert (Hall : Forall (λ c, obs V c = true) (piece_chars (sub_fragment p.1 x1 a, a))).
      { rewrite sub_chars. by apply run_obs. }
      apply tight_app_r; [|by apply tight_all]. rewrite sub_chars. by destruct a.
    + apply (observed_behind before1); done || apply Hst4.
  - apply Hdone; [done|]. rewrite flatten_app. apply tight_app_r; [|by apply tight_all].
    intros E. destruct Q2 as [|q Q2]; [done|]. destruct Hst2 as [_ _ [[Hok _ _ _ _ _] _ _] _ _ _].
    apply Forall_app in Hok as [_ [(Hne&_) _]%Forall_cons]. rewrite flatten_cons in E. unfold piece_chars in E. by destruct q.2.
Qed.

(** *** What the range deletes *)

(** A character of the piece, by what matters for its visibility in a version. *)
Definition char_like p : Char := mkChar (fragment_timestamp p.1) 0 0 true (deletions p.1).

Lemma was_shown_like c p :
  char_timestamp c = fragment_timestamp p.1 → char_deletions c = deletions p.1 → was_shown undos V c = was_shown undos V (char_like p).
Proof.
  intros Et Ed. assert (E : Some (was_shown undos V c) = Some (was_shown undos V (char_like p))); [|congruence].
  by rewrite <- !(was_visible_shown undos p.1) by done.
Qed.

Lemma strike_like p o a : observed_fragment V p.1 = true →
  map strike_here (run (fragment_timestamp p.1) (visible p.1) (deletions p.1) o a) =
    if was_shown undos V (char_like p) then run (fragment_timestamp p.1) false (deletions p.1 ++ [timestamp]) o a
    else run (fragment_timestamp p.1) (visible p.1) (deletions p.1) o a.
Proof.
  intros Hobs. revert o. induction a as [|z a IH]; intros o; [by destruct (was_shown _ _ _)|]. cbn [run map]. rewrite IH.
  unfold strike at 1. rewrite (was_shown_like _ p) by done.
  change (obs V _) with (observed_fragment V p.1). rewrite Hobs. cbn [andb]. by destruct (was_shown _ _ _).
Qed.

Lemma strike_unseen cs : Forall (λ c, obs V c = false) cs → map strike_here cs = cs.
Proof. induction 1 as [|c cs Hc _ IH]; [done|]. cbn [map]. rewrite IH. unfold strike. by rewrite Hc. Qed.

(** The turn's state and fragment after its deletion, if there is one. *)
Definition strike_part st (was : bool) (f : Fragment) : Splice (VersionedFullOffset * nat) * Fragment :=
  if was then (push_slice st (slice_of timestamp (delete_fragment f timestamp)), delete_fragment f timestamp) else (st, f).

(** And after its change to the visible text. *)
Definition hide_part st (v : bool) (f : Fragment) (old_start len : nat) : Splice (VersionedFullOffset * nat) :=
  if v && negb (visible f) then push_edit st (Patch.mkEdit
    (Patch.mkRange old_start (old_start + len)) (Patch.mkRange (new_visible_len st) (new_visible_len st))) else st.

Lemma hide_part_kept st v f o l :
  old_fragments (hide_part st v f o l) = old_fragments st ∧ fragment_start (hide_part st v f o l) = fragment_start st ∧
  new_fragments (hide_part st v f o l) = new_fragments st ∧ new_ropes (hide_part st v f o l) = new_ropes st ∧
  new_insertions (hide_part st v f o l) = new_insertions st ∧
  next_insertion_offset (hide_part st v f o l) = next_insertion_offset st ∧
  insertion_slices (hide_part st v f o l) = insertion_slices st.
Proof. unfold hide_part. by destruct (v && _). Qed.

Lemma remote_part st before p post x a y N off :
  splice_at st before (p :: post) x N off → start_at st before x → p.2 = x ++ a ++ y → a ≠ [] → observed_fragment V p.1 = true →
  ∃ id st0 f st2, Locator.between (new_max_id st) (fragment_id p.1) = Some id ∧
    let g := set_id (sub_fragment p.1 x a) id in let was := was_shown undos V (char_like p) in
    strike_part st was g = (st0, f) ∧ was_visible p.1 V undos = Some was ∧
    from_fragment timestamp (delete_fragment g timestamp) = Some (slice_of timestamp (delete_fragment g timestamp)) ∧
    fragment_len f = N.of_nat (blen a) ∧
    push_part (hide_part st0 (visible p.1) f (blen (codes true (flatten before)) + blen x) (blen a)) f (visible p.1) = Some st2 ∧
    struck st before (p :: post) x N off (set_fragment_start st2 (fragment_start st + blen a)) before (p :: post) (x ++ a) (N ++ [(f, a)]).
Proof.
  intros Hst Hs E Ha Hobs. pose proof Hst as [Hc Hw Hout Hpatch Hlog Hlt]. pose proof Hc as (Eps&_).
  destruct (between_current _ _ _ _ _ _ _ Hst) as (id&Eid&Hid&Hlo&Hhi). exists id.
  set (g := set_id (sub_fragment p.1 x a) id). set (was := was_shown undos V (char_like p)).
  destruct (strike_part st was g) as [st0 f] eqn:Estrike. exists st0, f.
  set (st1 := hide_part st0 (visible p.1) f (blen (codes true (flatten before)) + blen x) (blen a)).
  assert (Hf : fragment_timestamp f = fragment_timestamp p.1 ∧ insertion_offset f = (insertion_offset p.1 + N.of_nat (blen x))%N ∧
    fragment_len f = N.of_nat (blen a) ∧ fragment_id f = id).
  { unfold strike_part in Estrike. destruct was; by injection Estrike as <- <-. }
  destruct Hf as (Ft&Fo&Fl&Fid).
  assert (Hp : piece_ok (f, a)) by by apply (part_ok before p post x a y).
  assert (Hpg : piece_ok (delete_fragment g timestamp, a)) by by apply (part_ok before p post x a y).
  destruct (hide_part_kept st0 (visible p.1) f (blen (codes true (flatten before)) + blen x) (blen a)) as (K1&K2&K3&K4&K5&K6&K7).
  fold st1 in K1, K2, K3, K4, K5, K6, K7.
  assert (J : old_fragments st0 = old_fragments st ∧ fragment_start st0 = fragment_start st ∧ new_fragments st0 = new_fragments st ∧
    new_ropes st0 = new_ropes st ∧ new_insertions st0 = new_insertions st ∧ next_insertion_offset st0 = next_insertion_offset st ∧
    edits_patch st0 = edits_patch st).
  { unfold strike_part in Estrike. destruct was; by injection Estrike as <- <-. }
  destruct J as (J1&J2&J3&J4&J5&J6&J7).
  assert (Hchars : map strike_here (run (fragment_timestamp p.1) (visible p.1) (deletions p.1) (N.to_nat (insertion_offset p.1) + blen x) a) =
    piece_chars (f, a)).
  { rewrite strike_like by done. fold was. unfold strike_part in Estrike. unfold piece_chars.
    destruct was; injection Estrike as <- <-; cbn; by rewrite N2Nat.inj_add, Nat2N.id. }
  destruct (struck_part strike_here st st1 before p post x a y N off f Hst Hs E Ha) as (st2&E2&Hstruck); rewrite ?Fid; try done; try congruence.
  - intros _. split.
    + rewrite head_part, app_assoc. unfold st1, hide_part. destruct (visible p.1 && negb (visible f)) eqn:Ehide.
      * apply andb_true_iff in Ehide as [Hv Hf%negb_true_iff].
        eapply patch_delete; [exact Hpatch|by rewrite codes_piece; cbn [fst]; rewrite Hf|]. cbn [push_edit edits_patch].
        rewrite J7. unfold new_visible_len. rewrite J3. change (text_visible _) with (new_visible_len st).
        rewrite (new_visible_len_at _ _ _ _ _ (out_tree _ _ _ _ _ _ _ _ Hout)), codes_run, Hv, bool_decide_eq_true_2 by done.
        rewrite codes_app, RopeCursor.blen_app. unfold head_chars. by rewrite codes_run, Hv, bool_decide_eq_true_2.
      * eapply patch_same; [exact Hpatch|exact J7|]. rewrite codes_run, codes_piece. cbn [fst snd].
        unfold strike_part in Estrike. destruct was; injection Estrike as <- <-; [|done]. cbn in *. by destruct (visible p.1).
    + pose proof (ps_text _ _ _ Eps) as Hl. rewrite (piece_cut p x (a ++ y) E), run_text_app in Hl.
      apply Forall_app in Hl as [_ [Hl _]%Forall_app]. unfold strike_part in Estrike. destruct was; injection Estrike as <- <-.
      * eapply log_delete; [exact Hlog|exact K7|done|done|]. cbn [fst snd]. cbn. rewrite N2Nat.inj_add, Nat2N.id. exact Hl.
      * eapply log_same; [exact Hlog|exact K7|]. rewrite <- (sub_chars p.1 x a) in Hl. exact Hl.
  - exists st2. split; [done|]. split; [done|]. split; [by apply was_visible_shown|].
    split; [by apply (from_fragment_spec timestamp) in Hpg as [? _]|by split].
Qed.

(** The result of a turn or of the loop up to [n]: the text it passed ends with
    a seen character if it has come to [n]. *)
Definition passed st before after x N off n st' before' after' x' N' : Prop :=
  struck st before after x N off st' before' after' x' N' ∧ proper after' x' ∧ fragment_start st' ≤ n ∧
  (fragment_start st' < n ∨ ∃ u, rest_chars after x = u ++ rest_chars after' x' ∧ tight (obs V) u).

Lemma remote_part_step st before p post x a y N off n :
  splice_at st before (p :: post) x N off → start_at st before x → p.2 = x ++ a ++ y → a ≠ [] → observed_fragment V p.1 = true →
  n `min` (count before + blen p.2) = count before + blen x + blen a →
  y = [] ∧ count before + blen p.2 ≤ n ∨ n < count before + blen p.2 ∧ count before + blen x + blen a = n →
  ∃ st' before' after' x' N', remote_delete_step V undos timestamp st n = Some st' ∧
    passed st before (p :: post) x N off n st' before' after' x' N' ∧
    (length after' < length (p :: post) ∨ fragment_start st' = n).
Proof.
  intros Hst Hs E Ha Hobs Emin Hend. pose proof Hst as [Hc Hw _ _ _ _]. pose proof Hc as (Eps&_).
  assert (Hpos : 0 < blen a).
  { destruct (ps_piece _ _ _ Eps) as (_&Hok&_). rewrite E, !Forall_app in Hok. by apply RopeCursor.blen_pos; [apply Hok|]. }
  unfold remote_delete_step. rewrite (current_item _ _ _ Hc), (item_end_at _ _ _ _ Hc), (item_start_at _ _ _ Hc).
  cbn [mbind option_bind map head]. rewrite clen_piece. change (counts_fragment (counts_version V) p.1) with (observed_fragment V p.1).
  change (observed V (fragment_timestamp p.1)) with (observed_fragment V p.1). rewrite Hobs, Emin.
  pose proof Hs as Hs'. unfold SpliceWalk.start_at in Hs'. rewrite Hs'. rewrite (cut_fragment_spec p.1 x a y) by (rewrite <- ?E; destruct p; by apply (ps_piece _ _ _ Eps) || done).
  cbn [mbind option_bind]. change (fragment_id (sub_fragment p.1 x a)) with (fragment_id p.1).
  destruct (remote_part st before p post x a y N off Hst Hs E Ha Hobs) as (id&st0&f&st2&->&Hpart). cbv zeta in Hpart.
  cbn [mbind option_bind]. set (g := set_id (sub_fragment p.1 x a) id) in *.
  destruct Hpart as (Estrike&->&Eslice&Flen&Epush&Hstruck). cbn [mbind option_bind].
  assert (Estep : (if was_shown undos V (char_like p)
    then slice ← from_fragment timestamp (delete_fragment g timestamp); Some (push_slice st slice, delete_fragment g timestamp)
    else Some (st, g)) = Some (st0, f)).
  { unfold strike_part in Estrike. rewrite Eslice. by destruct (was_shown _ _ _); injection Estrike as <- <-. }
  rewrite Estep. cbn [mbind option_bind]. rewrite Flen, (bool_decide_eq_true_2 (0 < _)%N) by lia.
  assert (Evis : visible_start st0 = Some (blen (codes true (flatten before)) + blen x)).
  { rewrite <- (visible_start_at _ _ _ _ _ _ Hst Hs). unfold strike_part in Estrike. by destruct (was_shown _ _ _); injection Estrike as <- <-. }
  assert (Ehide : (if visible p.1 && negb (visible f) then old_start ← visible_start st0;
      Some (push_edit st0 (Patch.mkEdit (Patch.mkRange old_start (old_start + as_usize (N.of_nat (blen a))))
        (Patch.mkRange (new_visible_len st0) (new_visible_len st0))))
      else Some st0) = Some (hide_part st0 (visible p.1) f (blen (codes true (flatten before)) + blen x) (blen a))).
  { rewrite Evis, Nat2N.id. unfold hide_part. by destruct (visible p.1 && _). }
  rewrite Ehide. cbn [mbind option_bind]. rewrite Epush. cbn [mbind option_bind].
  assert (Hu : ∃ u, rest_chars (p :: post) x = u ++ rest_chars (p :: post) (x ++ a) ∧ tight (obs V) u).
  { eexists. split; [by apply (rest_part p post x a y)|]. by apply tight_all, run_obs. }
  rewrite Hs' in *.
  destruct Hend as [[-> Hend]|[Hend1 Hend2]].
  - rewrite bool_decide_eq_true_2 by done. rewrite app_nil_r in E. rewrite <- E in Hstruck, Hu.
    destruct (struck_next strike_here _ _ _ _ _ _ _ _ _ Hstruck) as (st'&->&Hst'&Es).
    exists st', (before ++ [p]), post, [], (N ++ [(f, a)]). split; [done|]. split; [|left; simpl; lia]. split; [exact Hst'|]. rewrite Es.
    split; [apply (proper_nil (before ++ [p])); by rewrite <- app_assoc|]. cbn. split; [lia|].
    right. by rewrite rest_passed in Hu.
  - rewrite bool_decide_eq_false_2 by lia. eexists _, before, (p :: post), (x ++ a), (N ++ [(f, a)]). split; [done|]. split; [|right; cbn; lia].
    split; [exact Hstruck|]. split; [|split; [cbn; lia|by right]].
    cbn. intros Ex. rewrite <- Ex, RopeCursor.blen_app in Hend1. lia.
Qed.

Lemma remote_delete_step_at st before after x N off n :
  splice_at st before after x N off → start_at st before x → proper after x → fragment_start st < n → n ≤ count ps →
  boundary (rest_chars after x) (n - fragment_start st) →
  ∃ st' before' after' x' N', remote_delete_step V undos timestamp st n = Some st' ∧
    passed st before after x N off n st' before' after' x' N' ∧
    (length after' < length after ∨ fragment_start st' = n).
Proof.
  intros Hst Hs Hproper Hlt Hmax Hb. pose proof Hst as [Hc Hw _ _ _ _]. pose proof Hc as (Eps&_).
  pose proof Hs as Hs'. unfold SpliceWalk.start_at in Hs'. destruct after as [|p post].
  { cbn in Hw. subst x. rewrite app_nil_r in Eps. rewrite Eps in Hmax. change (blen []) with 0 in Hs'. lia. }
  destruct (observed_fragment V p.1) eqn:Hobs.
  { rewrite Hs' in Hlt, Hb. destruct (take_part before p post x n Eps Hw Hobs Hlt Hb) as [[Ex _]|(a&y&E&Ha&_&Emin&Hend)]; [by subst x|].
    by eapply remote_part_step. }
  assert (x = []) as ->. { destruct Hw as (y&_&Hcount). destruct x; [done|]. specialize (Hcount ltac:(done)).
    change (observed_fragment V p.1 = true) in Hcount. congruence. }
  assert (Hzero : clen (counts_char (counts_version V)) (piece_chars p) = 0).
  { rewrite clen_piece. change (counts_fragment (counts_version V) p.1) with (observed_fragment V p.1). by rewrite Hobs. }
  unfold remote_delete_step. rewrite (current_item _ _ _ Hc), (item_end_at _ _ _ _ Hc), (item_start_at _ _ _ Hc).
  cbn [mbind option_bind map head]. change (observed V (fragment_timestamp p.1)) with (observed_fragment V p.1).
  rewrite Hzero, Hobs, Nat.add_0_r. cbn [mbind option_bind].
  rewrite (bool_decide_eq_true_2 (0 < _)%N) by (eapply fragment_len_pos, ps_piece, Eps).
  destruct (struck_whole strike_here st before p post N off Hst Hs) as (st1&st2&E1&E2&Hstruck).
  { apply strike_unseen. by apply run_forall. }
  rewrite andb_negb_r. cbn [mbind option_bind]. rewrite E1. cbn [mbind option_bind].
  change (blen []) with 0 in Hs'. rewrite (bool_decide_eq_true_2 (_ ≤ n)) by lia. rewrite next_item_start, E2. cbn [mbind option_bind].
  rewrite Hzero in Hstruck. replace (n `min` _) with (fragment_start st + 0) by lia.
  eexists _, (before ++ [p]), post, [], (N ++ [p]). split; [done|]. split; [|left; simpl; lia]. split; [exact Hstruck|].
  split; [apply (proper_nil (before ++ [p])); by rewrite <- app_assoc|]. cbn. split; [lia|left; lia].
Qed.

Lemma passed_refl st before after x N off n :
  splice_at st before after x N off → start_at st before x → proper after x → fragment_start st ≤ n →
  passed st before after x N off n st before after x N.
Proof.
  intros Hst Hs Hp Hle. split; [by apply struck_refl|]. split; [done|]. split; [done|]. right. by exists [].
Qed.

Lemma remote_delete_loop_at fuel : ∀ st before after x N off n,
  splice_at st before after x N off → start_at st before x → proper after x → fragment_start st ≤ n → n ≤ count ps →
  boundary (rest_chars after x) (n - fragment_start st) → length after < fuel →
  ∃ st' before' after' x' N', remote_delete_loop V undos timestamp fuel st n = Some st' ∧
    passed st before after x N off n st' before' after' x' N' ∧ fragment_start st' = n.
Proof.
  induction fuel as [|fuel IH]; intros st before after x N off n Hst Hs Hp Hle Hmax Hb Hfuel; [lia|].
  cbn [remote_delete_loop]. case_bool_decide as Hlt.
  2: { exists st, before, after, x, N. split; [done|]. split; [by apply passed_refl|lia]. }
  destruct (remote_delete_step_at st before after x N off n Hst Hs Hp Hlt Hmax Hb) as (st1&before1&after1&x1&N1&->&Hpassed&Hprog).
  cbn [mbind option_bind]. destruct Hprog as [Hprog|Hend].
  2: { exists st1, before1, after1, x1, N1. split; [|done]. destruct fuel; cbn [remote_delete_loop]; by rewrite bool_decide_eq_false_2 by lia. }
  pose proof Hpassed as (Hstruck&Hp1&Hle1&Hu1). pose proof Hstruck as (Q&u&->&Hst1&Hs1&E1&EQ1&F1).
  destruct (IH st1 before1 after1 x1 (N ++ Q) off n) as (st2&before2&after2&x2&N2&->&(Hstruck2&Hp2&Hle2&Hu2)&Hend); try done.
  { rewrite F1. replace (n - (fragment_start st + _)) with (n - fragment_start st - clen (counts_char (counts_version V)) u) by lia.
    eapply boundary_tail; [exact Hb|exact E1|done|lia]. }
  { lia. }
  exists st2, before2, after2, x2, N2. split; [done|]. split; [|done].
  split; [by eapply (struck_trans strike_here)|]. split; [done|]. split; [done|]. right.
  destruct Hu2 as [?|(u2&E2&Hu2)]; [lia|]. exists (u ++ u2). split; [by rewrite E1, E2, app_assoc|].
  destruct (decide (u2 = [])) as [->|Hne]; [|by apply tight_app_r].
  destruct Hu1 as [Hlt1|(u1&E1'&Hu1)].
  - destruct Hstruck2 as (?&?&_&_&_&E3&_&F3). rewrite E2 in E3. cbn [app] in E3. apply (app_inv_tail_iff _ [] _) in E3 as <-. cbn in F3. lia.
  - rewrite E1 in E1'. apply app_inv_tail in E1' as <-. by rewrite app_nil_r.
Qed.

(** *** One range *)

Hypothesis timestamp_new : observed V timestamp = false.
Hypothesis timestamp_pos : (0 < value timestamp)%N.

Lemma seen_length st before after x N off :
  splice_at st before after x N off → start_at st before x → clen (obs V) (flatten N) = fragment_start st.
Proof.
  intros [_ Hw [_ _ ->] _ _ _] ->. rewrite clen_app. f_equal. destruct after as [|p post]; [by rewrite Hw|].
  destruct Hw as (_&_&Hcount). by apply (clen_head (cnt:=counts_version V) p post x).
Qed.

Lemma boundary_here before after x n :
  ps = before ++ after → within (counts_version V) after x → boundary (flatten ps) n → count before + blen x ≤ n →
  boundary (rest_chars after x) (n - (count before + blen x)) ∧ n ≤ count ps.
Proof.
  intros Eps Hw Hb Hle. split.
  - eapply boundary_tail; [exact Hb|by apply (ps_split (cnt:=counts_version V) before after x)| |done]. rewrite clen_app. f_equal.
    destruct after as [|p post]; [by rewrite Hw|]. destruct Hw as (_&_&Hcount). by apply (clen_head (cnt:=counts_version V) p post x).
  - destruct Hb as (ca&cb&->&<-). rewrite clen_app. lia.
Qed.

Lemma remote_edit_at st before after x N off s e t :
  splice_at st before after x N off → start_at st before x → proper after x → fragment_start st ≤ s → s ≤ e →
  boundary (flatten ps) s → boundary (flatten ps) e → settled (obs V) timestamp (flatten N) ∨ fragment_start st < s →
  Forall char_ok t → fits 32 (N.of_nat (off + blen t)) →
  ∃ st' before' after' x' N',
    remote_edit V undos timestamp st ((MkFullOffset s, MkFullOffset e), bytes_of t) = Some st' ∧
    splice_at st' before' after' x' N' (off + blen t) ∧ start_at st' before' x' ∧ proper after' x' ∧ fragment_start st' = e ∧
    edit_one (obs V) (was_shown undos V) timestamp off ((s, e), t) (flatten N ++ rest_chars after x) = flatten N' ++ rest_chars after' x' ∧
    settled (obs V) timestamp (flatten N').
Proof.
  intros Hst Hs Hp Hle Hse Hbs Hbe Hset Hokt Hfits. pose proof Hs as Hs'. unfold SpliceWalk.start_at in Hs'.
  destruct (boundary_here before after x s) as [Hb Hmax]; [apply Hst|apply Hst|done|lia|]. rewrite <- Hs' in Hb.
  destruct (arrive_at st before after x N off s Hst Hs Hp Hle Hmax Hb)
    as (st1&st2&st3&st4&before4&after4&x4&A&K&E1&E2&E3&Hle3&E4&Hst4&Hs4&Hp4&F4&Er4&HA&HK&Hhead).
  unfold remote_edit. cbn [full_offset]. rewrite E1. cbn [mbind option_bind]. rewrite E2. cbn [mbind option_bind]. rewrite E3.
  cbn [mbind option_bind]. rewrite (bool_decide_eq_true_2 (_ ≤ s)) by done. cbn [assert_ mbind option_bind]. rewrite E4. cbn [mbind option_bind].
  assert (Hold : ∃ old_start, (if bool_decide (length (bytes_of t) = 0) then Some 0 else insertion_start st4) = Some old_start ∧
    (t ≠ [] → old_start = blen (codes true (flatten before4 ++ head_chars after4 x4)))).
  { rewrite (insertion_start_at _ _ _ _ _ _ Hst4 Hs4). case_bool_decide as Ht; eexists; split; try done. intros Hne.
    by apply blen_zero in Ht. }
  destruct Hold as (old_start&->&Hold). cbn [mbind option_bind].
  destruct (insert_text_at st4 before4 after4 x4 ((N ++ A) ++ K) off t old_start Hst4) as (st5&P&->&K1&K2&Hst5&EP); try done.
  cbn [mbind option_bind]. assert (Hs5 : start_at st5 before4 x4) by (unfold SpliceWalk.start_at; by rewrite K2).
  pose proof Hs4 as Hs4'. unfold SpliceWalk.start_at in Hs4'.
  destruct (boundary_here before4 after4 x4 e) as [Hb4 Hmax4]; [apply Hst4|apply Hst4|done|lia|]. rewrite <- Hs4', <- K2 in Hb4.
  destruct (remote_delete_loop_at (delete_fuel st5) st5 before4 after4 x4 (((N ++ A) ++ K) ++ P) (off + blen t) e)
    as (st6&before6&after6&x6&N6&->&(Hstruck&Hp6&_&Hu)&F6); try done.
  { by rewrite K2, F4. }
  { destruct Hst5 as [(_&Hc&_) _ _ _ _ _]. unfold delete_fuel. rewrite StepFacts.tree_size_elements, (cursor_at_elements _ _ _ Hc), length_app, !length_map. lia. }
  destruct Hstruck as (U&u&->&Hst6&Hs6&Er6&EU&F6').
  exists st6, before6, after6, x6, ((((N ++ A) ++ K) ++ P) ++ U). split; [done|]. split; [done|]. split; [done|]. split; [done|]. split; [done|].
  assert (Htu : tight (obs V) u).
  { destruct Hu as [?|(u'&E&Hu)]; [lia|]. rewrite Er6 in E. by apply app_inv_tail in E as <-. }
  assert (HN : flatten ((((N ++ A) ++ K) ++ P) ++ U) = flatten N ++ flatten A ++ flatten K ++ run timestamp true [] off t ++ map strike_here u).
  { by rewrite !flatten_app, EP, EU, <- !app_assoc. }
  pose proof (seen_length _ _ _ _ _ _ Hst4 Hs4) as Hseen. rewrite !flatten_app, !clen_app, (clen_none _ _ _ HK), F4 in Hseen.
  rewrite HN, Er4, Er6 in *. rewrite <- !app_assoc. rewrite F6, K2, F4 in F6'.
  assert (Hsettled : ∃ l a, flatten N ++ flatten A = l ++ a ∧ settled (obs V) timestamp l ∧ tight (obs V) a).
  { destruct Hset as [Hset|Hlt]; [by exists (flatten N), (flatten A)|]. exists [], (flatten N ++ flatten A).
    split; [done|]. split; [apply settled_nil|]. apply tight_app_r; [|done]. intros E. rewrite E in Hseen. cbn in Hseen.
    rewrite (seen_length _ _ _ _ _ _ Hst Hs) in Hseen. lia. }
  destruct Hsettled as (l&a&El&Hl&Ha). rewrite <- clen_app, El in Hseen. rewrite !(app_assoc (flatten N) (flatten A)), El, <- !app_assoc.
  destruct (edit_one_settled (obs V) (was_shown undos V) timestamp (λ _, eq_refl) l a (flatten K) u (rest_chars after6 x6)
    s e off t) as [Eone Hset']; try done.
  - apply run_forall. intros o c. unfold obs, ahead. cbn. by rewrite timestamp_new, cmp_refl.
  - lia.
  - change (clen (counts_char (counts_version V)) u) with (clen (obs V) u) in F6'. lia.
Qed.
End remote.

Section edits.
Context `{Build} {ps : list Piece} (V : Global) (undos : UndoMap) `{Hundos : !UndoMapOk undos} {base : Lamport → Prop}
  {slices0 : list InsertionSlice} (timestamp : Lamport) `{Hdoc : !DocumentOk ps base slices0}.
Hypothesis ps_old : Forall (λ c, obs V c = true → cmp (char_timestamp c) timestamp = Lt) (flatten ps).
Hypothesis ps_apart : Forall (λ c, char_timestamp c ≠ timestamp) (flatten ps).
Hypothesis timestamp_new : observed V timestamp = false.
Hypothesis timestamp_pos : (0 < value timestamp)%N.
Implicit Types (st : Splice (VersionedFullOffset * nat)) (before after N : list Piece) (x : list Z) (off : nat).

Abbreviation splice_at := (SpliceWalk.splice_at (Some V) (counts_version V) ps V base slices0 timestamp) (only parsing).
Abbreviation start_at := (SpliceWalk.start_at (counts_version V)) (only parsing).

Lemma remote_edits_at rs : ∀ st before after x N off ts,
  splice_at st before after x N off → start_at st before x → proper after x →
  ranges_from (fragment_start st) rs →
  Forall (λ r, seen_boundary V (flatten ps) r.1 ∧ seen_boundary V (flatten ps) r.2) rs →
  settled (obs V) timestamp (flatten N) ∨ match rs with r :: _ => fragment_start st < r.1 | [] => True end →
  length rs = length ts → Forall (Forall char_ok) ts → fits 32 (N.of_nat (off + blen (concat ts))) →
  ∃ st' before' after' x' N' off',
    foldlM (remote_edit V undos timestamp) st (zip (map full_range rs) (map bytes_of ts)) = Some st' ∧
    splice_at st' before' after' x' N' off' ∧ start_at st' before' x' ∧
    apply_edits (obs V) (was_shown undos V) timestamp off (zip rs ts) (flatten N ++ rest_chars after x) = flatten N' ++ rest_chars after' x'.
Proof.
  induction rs as [|[s e] rs IH]; intros st before after x N off ts Hst Hs Hp Hranges Hbs Hset Hlen Hok Hfits.
  { destruct ts; [|done]. by exists st, before, after, x, N, off. }
  destruct ts as [|t ts]; [done|]. injection Hlen as Hlen. apply Forall_cons in Hok as [Hokt Hok].
  destruct Hranges as (Hle&Hse&Hranges). apply Forall_cons in Hbs as [[Hb1 Hb2] Hbs].
  cbn [concat] in Hfits. rewrite RopeCursor.blen_app in Hfits.
  destruct (remote_edit_at V undos timestamp ps_old ps_apart timestamp_new timestamp_pos st before after x N off s e t)
    as (st1&before1&after1&x1&N1&E1&Hst1&Hs1&Hp1&F1&Eone&Hset1); try done.
  { unfold fits in *. lia. }
  cbn [map zip zip_with foldlM]. change (full_range (s, e)) with (MkFullOffset s, MkFullOffset e). rewrite E1. cbn [mbind option_bind].
  destruct (IH st1 before1 after1 x1 N1 (off + blen t) ts) as (st2&before2&after2&x2&N2&off2&E2&Hst2&Hs2&Edoc); try done.
  { by rewrite F1. } { by left. } { by rewrite <- Nat.add_assoc. }
  exists st2, before2, after2, x2, N2, off2. split; [exact E2|]. split; [done|]. split; [done|].
  cbn [apply_edits]. rewrite Eone. exact Edoc.
Qed.
End edits.

Section remote.
Context `{Build, SortOk} {base : Lamport → Prop}.
Context (s : BufferSnapshot) (ps : list Piece) (V : Global) (timestamp : Lamport) (rs : list (nat * nat)) (texts : list (list Z)).

(** What a remote edit relies on: what its author had seen is older than it, it
    has not been applied, its ranges are in order and between characters its
    author had seen, and its text has offsets of 32 bits. *)
Record remote_edit_ok : Prop := {
  remote_snapshot : snapshot_ok base s ps;
  remote_room : snapshot_room s;
  remote_undos : UndoMapOk (undo_map s);
  remote_older : Forall (λ c, obs V c = true → cmp (char_timestamp c) timestamp = Lt) (flatten ps);
  remote_apart : Forall (λ c, char_timestamp c ≠ timestamp) (flatten ps);
  remote_fresh : observed V timestamp = false;
  remote_positive : (0 < value timestamp)%N;
  remote_ranges : ranges_from 0 rs;
  remote_boundaries : Forall (λ r, seen_boundary V (flatten ps) r.1 ∧ seen_boundary V (flatten ps) r.2) rs;
  remote_texts : length rs = length texts;
  remote_chars : Forall (Forall char_ok) texts;
  remote_fits : fits 32 (N.of_nat (blen (concat texts)))
}.

Lemma remote_edit_all :
  remote_edit_ok →
  ∃ s' ps' p, apply_remote_edit s V (map full_range rs) (map bytes_of texts) timestamp = Some (s', p) ∧
    snapshot_ok base s' ps' ∧ undo_map s' = undo_map s ∧ version s' = version s ∧
    PatchFacts.patches p (bytes_of (codes true (flatten ps))) (bytes_of (codes true (flatten ps'))) ∧
    flatten ps' = apply_edits (obs V) (was_shown (undo_map s) V) timestamp 0 (zip rs texts) (flatten ps).
Proof.
  intros [Hok Hroom Hundos Hold Hapart Hfresh Hpos Hranges Hbs Hlen Hchars Hfits].
  pose proof (snapshot_document _ _ _ Hok) as Hdoc. unfold apply_remote_edit.
  destruct rs as [|[s0 e0] rs'] eqn:Ers.
  { destruct texts; [|done]. exists s, ps, Patch.empty. by split_and!. }
  destruct (snapshot_ropes base s ps Hok Hroom) as (cv&cd&Ecv&Ecd&Hr).
  pose proof (remote_walks V ps ps_ok) as Hw.
  destruct (splice_start (offset_of:=remote_offset) (target_of:=remote_target) (bias:=Left) (V:=V) (base:=base)
    (slices0:=map entry_key (elements (snapshot_insertion_slices s))) (timestamp:=timestamp)
    (cursor_new (fragments s) (Some V)) (rope_builder_new cv cd) s0) as [(st&before&after&Est&Hst&Hs&Hreach&Hstart) Eskip];
    [by eapply snapshot_cursor|done|exact Hr|].
  rewrite Eskip in Est. cbn [map]. change (full_range (s0, e0)) with (MkFullOffset s0, MkFullOffset e0). cbv beta iota.
  assert (Els : remote_splice s V (MkFullOffset s0) = Some st).
  { unfold remote_splice. rewrite Ecv, Ecd. exact Est. }
  rewrite Els. cbn [mbind option_bind]. clear Els Est Eskip.
  assert (Eps : ps = before ++ after) by apply Hst.
  pose proof Hs as Hs'. unfold start_at in Hs'. change (blen []) with 0 in Hs'. rewrite Nat.add_0_r in Hs'.
  destruct (remote_edits_at V (undo_map s) timestamp Hold Hapart Hfresh Hpos ((s0, e0) :: rs') st before after [] before 0 texts)
    as (st1&before1&after1&x1&N&off&E1&Hst1&Hs1&Edoc); try done.
  { by eapply proper_nil. }
  { destruct Hranges as (_&?&?). split; [|done]. destruct Hreach as [Hle _]. change (blen []) with 0 in Hle. lia. }
  { destruct Hstart as [->|Hlt]; [left; apply settled_nil|right]. specialize (Hlt eq_refl). cbn [fst]. lia. }
  cbn [map] in E1. change (full_range (s0, e0)) with (MkFullOffset s0, MkFullOffset e0) in E1. rewrite E1. cbn [mbind option_bind].
  destruct (finish_splice_at st1 before1 after1 x1 N off Hst1 Hs1)
    as (fr&tx&st2&N'&->&Hfr&Eel&Hv&Hd&EN&HokN&Hids&Hpatch&Hlog&Hkeys&Hins).
  cbn [mbind option_bind].
  assert (Edoc' : flatten N' = apply_edits (obs V) (was_shown (undo_map s) V) timestamp 0 (zip ((s0, e0) :: rs') texts) (flatten ps)).
  { by rewrite EN, <- Edoc, rest_flatten, <- flatten_app, <- Eps. }
  destruct (install_at base s ps st2 timestamp fr tx N') as (s'&->&Hok'&Eu&Ev&_); try done.
  { rewrite Edoc'. apply apply_edits_apart; [by destruct Hok|done]. }
  cbn [mbind option_bind]. exists s', N', (edits_patch st2). split; [done|]. split; [done|]. split; [done|]. split; [done|].
  by split.
Qed.
End remote.

(** ** Remote edits *)

Section properties.
Context `{Build, SortOk} {base : Lamport → Prop}.

(** C11: A remote edit whose author had seen an older part of this document
    succeeds and keeps the invariant of the snapshot; it does to the document
    what the reference [apply_edits] says for the version of the author: the
    text goes behind the concurrent insertions with greater timestamps, and
    exactly the characters the author could see are deleted. *)
Theorem remote_edit_refines s ps V timestamp rs texts :
  remote_edit_ok (base:=base) s ps V timestamp rs texts →
  ∃ s' ps' p, apply_remote_edit s V (map full_range rs) (map bytes_of texts) timestamp = Some (s', p) ∧
    snapshot_ok base s' ps' ∧
    flatten ps' = apply_edits (obs V) (was_shown (undo_map s) V) timestamp 0 (zip rs texts) (flatten ps).
Proof.
  intros Hok. destruct (remote_edit_all s ps V timestamp rs texts Hok) as (s'&ps'&p&E&Hs'&_&_&_&Ef). by exists s', ps', p.
Qed.

(** C14: The patch that a remote edit publishes turns the visible text from
    before the edit into the visible text after it. *)
Theorem remote_edit_patch s ps V timestamp rs texts :
  remote_edit_ok (base:=base) s ps V timestamp rs texts →
  ∃ s' text' p, apply_remote_edit s V (map full_range rs) (map bytes_of texts) timestamp = Some (s', p) ∧
    RopeTree.rope_text text' (visible_text s') ∧
    PatchFacts.patches p (bytes_of (codes true (flatten ps))) (bytes_of text').
Proof.
  intros Hok. destruct (remote_edit_all s ps V timestamp rs texts Hok) as (s'&ps'&p&E&Hs'&_&_&Hp&_).
  exists s', (codes true (flatten ps')), p. split; [done|]. split; [by destruct Hs'|done].
Qed.
End properties.

(** *** Another replica's edit of the small buffer *)

Lemma undo_map_default_ok : UndoMapOk undo_map_default.
Proof. exists []. split; [done|]. split; [constructor|]. exists 0. split; [apply (wf_new ())|]. compute; lia. Qed.

Definition other_version : Global := Global_observe Global_new base_timestamp.
Definition other_timestamp : Lamport := mkLamport 2 9.
(** It replaces the [i] of [hié] by [oo] and puts an [x] at the end. *)
Definition other_ranges : list (nat * nat) := [(1, 2); (4, 4)].
Definition other_texts : list (list Z) := [[111; 111]; [120]]%Z.

Lemma small_remote_ok b ps :
  snapshot_ok is_base (snapshot b) ps → snapshot_room (snapshot b) → UndoMapOk (undo_map (snapshot b)) →
  flatten ps = run base_timestamp true [] 0 small_text →
  remote_edit_ok (base:=is_base) (snapshot b) ps other_version other_timestamp other_ranges other_texts.
Proof.
  intros Hs Hr Hu Ef. constructor; [exact Hs|exact Hr|exact Hu|..].
  - rewrite Ef. repeat constructor.
  - rewrite Ef. repeat constructor; discriminate.
  - done.
  - done.
  - cbn. lia.
  - rewrite Ef. change (run _ _ _ _ _) with (run base_timestamp true [] 0 [104]%Z ++ run base_timestamp true [] 1 [105]%Z ++ run base_timestamp true [] 2 [233]%Z).
    repeat constructor; cbn [fst snd].
    + eexists (run base_timestamp true [] 0 [104]%Z), _. split; reflexivity.
    + eexists (run base_timestamp true [] 0 [104; 105]%Z), _. split; reflexivity.
    + eexists (run base_timestamp true [] 0 [104; 105; 233]%Z), []. split; reflexivity.
    + eexists (run base_timestamp true [] 0 [104; 105; 233]%Z), []. split; reflexivity.
  - done.
  - repeat constructor; compute; intuition congruence.
  - by vm_compute.
Qed.

Lemma small_undos b : small_buffer = Some b → UndoMapOk (undo_map (snapshot b)).
Proof.
  intros E. assert (H : (undo_map ∘ snapshot) <$> small_buffer = Some undo_map_default) by (vm_compute; reflexivity).
  rewrite E in H. change (Some (undo_map (snapshot b)) = Some undo_map_default) in H. injection H as ->. exact undo_map_default_ok.
Qed.

Lemma remote_edit_refines_witness :
  ∃ b ps ps' s' p, small_buffer = Some b ∧
    apply_remote_edit (H:=true) (H0:=merge) (snapshot b) other_version (map full_range other_ranges) (map bytes_of other_texts) other_timestamp = Some (s', p) ∧
    flatten ps' = apply_edits (obs other_version) (was_shown (undo_map (snapshot b)) other_version) other_timestamp 0
      (zip other_ranges other_texts) (flatten ps).
Proof.
  destruct small_buffer_ok as (b&ps&E&Hs&Hr&_&Ef).
  destruct (remote_edit_refines (H:=true) (H0:=merge) (H1:=merge_ok) _ _ _ _ _ _ (small_remote_ok b ps Hs Hr (small_undos b E) Ef))
    as (s'&ps'&p&Ea&_&Ed).
  exists b, ps, ps', s', p. split; [exact E|]. split; [exact Ea|exact Ed].
Defined.

Lemma remote_edit_patch_witness :
  ∃ b s' p text', small_buffer = Some b ∧
    apply_remote_edit (H:=true) (H0:=merge) (snapshot b) other_version (map full_range other_ranges) (map bytes_of other_texts) other_timestamp = Some (s', p) ∧
    RopeTree.rope_text text' (visible_text s').
Proof.
  destruct small_buffer_ok as (b&ps&E&Hs&Hr&_&Ef).
  destruct (remote_edit_patch (H:=true) (H0:=merge) (H1:=merge_ok) _ _ _ _ _ _ (small_remote_ok b ps Hs Hr (small_undos b E) Ef))
    as (s'&text'&p&Ea&Ht&_).
  exists b, s', p, text'. split; [exact E|]. split; [exact Ea|exact Ht].
Defined.
