(* ===== verification/Converge.v ===== *)
(** Operations on documents commute when neither has seen the other, so
    replicas that receive the same operations converge.

    Documents are compared by [≡]: the order in which deletions are recorded
    does not matter, nor does the cached visibility, which is the undo map's to
    say ([coherent]). *)

From stdpp Require Import base numbers option list sets sorting.
From S2P Require Import Prelude UndoMap Clock Utf8 Operation Document Pieces SpliceOutput SnapshotFacts SpliceDims UndoMapFacts.

#[local] Open Scope nat_scope.

(** ** Equivalence of documents *)

#[export] Instance Char_equiv : Equiv Char := λ c d,
  char_timestamp c = char_timestamp d ∧ char_offset c = char_offset d ∧ char_code c = char_code d ∧
  char_deletions c ≡ₚ char_deletions d.

#[export] Instance Char_equivalence : Equivalence (≡@{Char}).
Proof.
  split.
  - by intros c.
  - intros c d (?&?&?&?). by repeat split.
  - intros c d e (?&?&?&?) (?&?&?&?). split_and!; congruence || by etrans.
Qed.

(** Tests that do not look at more than the equivalence compares. *)
Class Respects (f : Char → bool) : Prop := respects c d : c ≡ d → f c = f d.

#[export] Instance width_proper : Proper ((≡) ==> (=)) width.
Proof. intros c d (_&_&E&_). unfold width. by rewrite E. Qed.

Lemma clen_equiv f cs ds : Respects f → cs ≡ ds → clen f cs = clen f ds.
Proof. intros Hf. induction 1 as [|c d cs ds Hc _ IH]; [done|]. cbn [clen]. by rewrite (Hf c d Hc), (width_proper c d Hc), IH. Qed.

(** ** Insertions *)

Section place.
Context (obs : Char → bool) (timestamp : Lamport).

(** [insert_at], character by character. *)
Fixpoint place (n : nat) (new cs : list Char) : list Char :=
  match cs with
  | [] => new
  | c :: cs' =>
      if bool_decide (n = 0) && negb (ahead timestamp c) then new ++ cs
      else c :: place (n - if obs c then width c else 0) new cs'
  end.

Lemma insert_at_place n new cs : insert_at obs timestamp n new cs = place n new cs.
Proof.
  revert n. induction cs as [|c cs IH]; intros n; [unfold insert_at; by destruct n; cbn; rewrite app_nil_r|].
  cbn [place]. destruct n as [|n].
  - specialize (IH 0). unfold insert_at in *. cbn [obs_split] in *. rewrite bool_decide_eq_true_2 by done.
    cbn [span andb]. destruct (ahead timestamp c); cbn [negb]; [|done]. destruct cs as [|d cs]; [cbn; by rewrite app_nil_r|].
    cbn [obs_split] in IH. destruct (span _ (d :: cs)) as [k b]. cbn [app] in *. by rewrite IH.
  - rewrite bool_decide_eq_false_2 by lia. cbn [andb]. rewrite <- IH. unfold insert_at. cbn [obs_split].
    destruct (obs_split obs _ cs) as [a b]. by destruct (span _ b).
Qed.

Lemma place_equiv n new cs ds : Respects obs → cs ≡ ds → place n new cs ≡ place n new ds.
Proof.
  intros Ho Hcs. revert n. induction Hcs as [|c d cs ds Hc Hcs IH]; intros n; [done|]. cbn [place].
  assert (Ea : ahead timestamp c = ahead timestamp d) by (unfold ahead; by destruct Hc as (->&_)).
  rewrite Ea, (Ho c d Hc), (width_proper c d Hc). case_match; [by f_equiv; constructor|by constructor].
Qed.

(** New text that the edit does not count is passed. *)
Lemma place_unseen n new x cs : 
  Forall (λ c, obs c = false) x → (n ≠ 0 ∨ Forall (λ c, ahead timestamp c = true) x) →
  place n new (x ++ cs) = x ++ place n new cs.
Proof.
  intros Hx Hn. induction Hx as [|c x Hc Hx IH]; [done|]. cbn [app place]. rewrite Hc, Nat.sub_0_r.
  rewrite IH by (destruct Hn as [?|[_ ?]%Forall_cons]; [by left|by right]).
  destruct Hn as [Hn|[Ha _]%Forall_cons]; [by rewrite bool_decide_eq_false_2|by rewrite Ha, andb_false_r].
Qed.

Lemma place_here new x cs : Forall (λ c, ahead timestamp c = false) x → x ≠ [] → place 0 new (x ++ cs) = new ++ x ++ cs.
Proof. intros Hx Hne. destruct Hx as [|c x Hc _]; [done|]. cbn. by rewrite Hc. Qed.

Lemma clen_place f n new cs : Forall (λ c, f c = false) new → clen f (place n new cs) = clen f cs.
Proof.
  intros Hnew. assert (E : clen f new = 0) by (induction Hnew as [|c new Hc _ IH]; [done|]; cbn; by rewrite Hc, IH).
  revert n. induction cs as [|c cs IH]; intros n; [done|]. cbn [place]. case_match; [by rewrite clen_app, E|]. cbn [clen]. by rewrite IH.
Qed.
End place.

(** Two insertions that have not seen each other. *)
Section insertions.
Context (obs1 obs2 : Char → bool) (t1 t2 : Lamport) (new1 new2 : list Char).
Hypothesis apart : t1 ≠ t2.
Hypothesis new1_chars : Forall (λ c, char_timestamp c = t1 ∧ obs2 c = false) new1.
Hypothesis new2_chars : Forall (λ c, char_timestamp c = t2 ∧ obs1 c = false) new2.

Lemma ahead_new t c : ahead t c = bool_decide (cmp (char_timestamp c) t ≠ Lt).
Proof. done. Qed.

Lemma order_apart : cmp t1 t2 = Lt ∧ cmp t2 t1 = Gt ∨ cmp t1 t2 = Gt ∧ cmp t2 t1 = Lt.
Proof.
  rewrite (cmp_antisym t1 t2). destruct (cmp t1 t2) eqn:E; [by apply cmp_eq_iff in E|by left|by right].
Qed.

Lemma new_ahead t new (P : Char → Prop) b t' :
  Forall (λ c, char_timestamp c = t ∧ P c) new → bool_decide (cmp t t' ≠ Lt) = b → Forall (λ c, ahead t' c = b) new.
Proof. intros Hn <-. eapply Forall_impl; [exact Hn|]. intros c [E _]. unfold ahead. by rewrite E. Qed.

Lemma new_unseen t new (f : Char → bool) : Forall (λ c, char_timestamp c = t ∧ f c = false) new → Forall (λ c, f c = false) new.
Proof. intros Hn. eapply Forall_impl; [exact Hn|]. by intros c [_ ?]. Qed.

(** Both at the same place: the greater timestamp goes first. *)
Lemma place_stop new t obs other cs :
  place obs t 0 new cs = new ++ cs → Forall (λ c, ahead t c = false) other → place obs t 0 new (other ++ cs) = new ++ other ++ cs.
Proof. intros E Ho. destruct other as [|c other]; [done|]. by apply place_here. Qed.

Lemma place_both cs :
  place obs1 t1 0 new1 cs = new1 ++ cs → place obs2 t2 0 new2 cs = new2 ++ cs →
  place obs2 t2 0 new2 (new1 ++ cs) = place obs1 t1 0 new1 (new2 ++ cs).
Proof.
  intros E1 E2. destruct order_apart as [[L12 L21]|[L12 L21]].
  - rewrite (place_stop _ _ _ _ _ E2); [|eapply new_ahead; [exact new1_chars|by rewrite L12]].
    rewrite place_unseen, E1; [done|by eapply new_unseen|]. right. eapply new_ahead; [exact new2_chars|by rewrite L21].
  - rewrite (place_stop _ _ _ _ _ E1); [|eapply new_ahead; [exact new2_chars|by rewrite L21]].
    rewrite place_unseen, E2; [done|by eapply new_unseen|]. right. eapply new_ahead; [exact new1_chars|by rewrite L12].
Qed.

(** The first stops at [c], the second does not. *)
Lemma place_before (obs obs' : Char → bool) t t' new new' c cs n :
  Forall (λ c, char_timestamp c = t ∧ obs' c = false) new → ahead t c = false → (n ≠ 0 ∨ ahead t' c = true) →
  place obs' t' n new' (new ++ c :: cs) = new ++ c :: place obs' t' (n - if obs' c then width c else 0) new' cs ∧
  place obs t 0 new (c :: place obs' t' (n - if obs' c then width c else 0) new' cs) =
    new ++ c :: place obs' t' (n - if obs' c then width c else 0) new' cs.
Proof.
  intros Hnew Ha Hn. split.
  - rewrite place_unseen; [|by eapply new_unseen|].
    + f_equal. cbn [place]. destruct Hn as [Hn|Hn]; [by rewrite bool_decide_eq_false_2|by rewrite Hn, andb_false_r].
    + destruct Hn as [?|Hn]; [by left|right]. eapply new_ahead; [exact Hnew|]. apply bool_decide_eq_true.
      unfold ahead in *. apply bool_decide_eq_true in Hn. apply bool_decide_eq_false, dec_stable in Ha.
      intros Hlt. apply Hn. by eapply cmp_lt_trans.
  - cbn [place]. by rewrite Ha.
Qed.

Lemma place_commute cs n1 n2 :
  n1 ≤ clen obs1 cs → n2 ≤ clen obs2 cs →
  place obs2 t2 n2 new2 (place obs1 t1 n1 new1 cs) = place obs1 t1 n1 new1 (place obs2 t2 n2 new2 cs).
Proof.
  revert n1 n2. induction cs as [|c cs IH]; intros n1 n2 H1 H2.
  { cbn in H1, H2. assert (n1 = 0) as -> by lia. assert (n2 = 0) as -> by lia.
    pose proof (place_both [] ltac:(cbn; by rewrite app_nil_r) ltac:(cbn; by rewrite app_nil_r)) as E. rewrite !app_nil_r in E. exact E. }
  cbn [clen] in H1, H2.
  assert (Hcase : ∀ obs t n new, (n = 0 ∧ ahead t c = false ∧ place obs t n new (c :: cs) = new ++ c :: cs) ∨
    ((n ≠ 0 ∨ ahead t c = true) ∧ place obs t n new (c :: cs) = c :: place obs t (n - if obs c then width c else 0) new cs ∧
      ∀ l, place obs t n new (c :: l) = c :: place obs t (n - if obs c then width c else 0) new l)).
  { intros obs t n new. cbn [place]. destruct (bool_decide (n = 0) && negb (ahead t c)) eqn:E.
    - left. by apply andb_true_iff in E as [->%bool_decide_eq_true Ha%negb_true_iff].
    - right. split; [|done]. apply andb_false_iff in E as [E%bool_decide_eq_false|E%negb_false_iff]; [by left|by right]. }
  destruct (Hcase obs1 t1 n1 new1) as [(->&A1&E1)|(N1&E1&F1)]; destruct (Hcase obs2 t2 n2 new2) as [(->&A2&E2)|(N2&E2&F2)]; rewrite E1, E2.
  - by apply place_both.
  - destruct (place_before obs1 obs2 t1 t2 new1 new2 c cs n2 new1_chars A1 N2) as [-> ->]. done.
  - destruct (place_before obs2 obs1 t2 t1 new2 new1 c cs n1 new2_chars A2 N1) as [-> ->]. done.
  - rewrite F1, F2. f_equal. apply IH; [destruct (obs1 c)|destruct (obs2 c)]; lia.
Qed.
End insertions.

(** ** Deletions *)

Lemma same_strike (obs was : Char → bool) t c :
  char_timestamp (strike obs was t c) = char_timestamp c ∧ width (strike obs was t c) = width c.
Proof. unfold strike. by destruct (obs c && was c). Qed.

(** What only looks at the timestamp does not see deletions. *)
Class OfTimestamp (f : Char → bool) : Prop := of_timestamp c d : char_timestamp c = char_timestamp d → f c = f d.

#[export] Instance of_timestamp_respects f : OfTimestamp f → Respects f.
Proof. intros Hf c d (E&_). by apply Hf. Qed.

Section deletions.
Context (obs was : Char → bool) (t : Lamport) `{Hobs : !OfTimestamp obs}.

Lemma delete_unseen o s e x cs :
  Forall (λ c, obs c = false) x → delete_from obs was t o s e (x ++ cs) = x ++ delete_from obs was t o s e cs.
Proof.
  induction 1 as [|c x Hc _ IH]; [done|]. cbn [app delete_from]. unfold strike at 1. rewrite Hc, Nat.add_0_r, IH. by case_bool_decide.
Qed.

Lemma clen_delete (f : Char → bool) `{Hf : !OfTimestamp f} o s e cs : clen f (delete_from obs was t o s e cs) = clen f cs.
Proof.
  revert o. induction cs as [|c cs IH]; intros o; [done|]. cbn [delete_from clen]. rewrite IH.
  destruct (same_strike obs was t c) as [E1 E2]. case_bool_decide; [by rewrite (Hf _ _ E1), E2|done].
Qed.

Lemma delete_place (obs' : Char → bool) `{Hobs' : !OfTimestamp obs'} t' new n o s e cs :
  Forall (λ c, obs c = false) new →
  delete_from obs was t o s e (place obs' t' n new cs) = place obs' t' n new (delete_from obs was t o s e cs).
Proof.
  intros Hnew. revert n o. induction cs as [|c cs IH]; intros n o.
  { cbn [place delete_from]. rewrite <- (app_nil_r new) at 1. by rewrite delete_unseen, app_nil_r. }
  cbn [place delete_from]. set (c' := if bool_decide _ then strike obs was t c else c).
  assert (Hc : char_timestamp c' = char_timestamp c ∧ width c' = width c).
  { unfold c'. case_bool_decide; [apply same_strike|done]. }
  destruct Hc as [Ec Ew]. assert (Ea : ahead t' c' = ahead t' c) by (unfold ahead; by rewrite Ec).
  rewrite Ea. case_match.
  - by rewrite delete_unseen.
  - cbn [delete_from]. by rewrite IH, (Hobs' _ _ Ec), Ew.
Qed.

Lemma mark_equiv c d : c ≡ d → mark t c ≡ mark t d.
Proof. intros (E1&E2&E3&E4). repeat split; [done..|]. cbn. by rewrite E4. Qed.

Lemma delete_equiv `{Hwas : !Respects was} o s e cs ds : cs ≡ ds → delete_from obs was t o s e cs ≡ delete_from obs was t o s e ds.
Proof.
  intros Hcs. revert o. induction Hcs as [|c d cs ds Hc Hcs IH]; intros o; [done|]. cbn [delete_from].
  rewrite (of_timestamp_respects obs Hobs c d Hc), (width_proper c d Hc). constructor; [|apply IH].
  case_bool_decide; [|done]. unfold strike. rewrite (of_timestamp_respects obs Hobs c d Hc), (Hwas c d Hc).
  destruct (_ && _); [by apply mark_equiv|done].
Qed.
End deletions.

Lemma delete_commute (obs1 obs2 was1 was2 : Char → bool) t1 t2 `{Ho1 : !OfTimestamp obs1, Ho2 : !OfTimestamp obs2} o1 s1 e1 o2 s2 e2 cs :
  (∀ c, was1 (mark t2 c) = was1 c) → (∀ c, was2 (mark t1 c) = was2 c) →
  delete_from obs2 was2 t2 o2 s2 e2 (delete_from obs1 was1 t1 o1 s1 e1 cs) ≡
    delete_from obs1 was1 t1 o1 s1 e1 (delete_from obs2 was2 t2 o2 s2 e2 cs).
Proof.
  intros W1 W2. revert o1 o2. induction cs as [|c cs IH]; intros o1 o2; [done|]. cbn [delete_from].
  assert (H : ∀ obs was t (b : bool), char_timestamp (if b then strike obs was t c else c) = char_timestamp c ∧
    width (if b then strike obs was t c else c) = width c) by (intros obs was t []; [apply same_strike|done]).
  rewrite (Ho2 _ _ (proj1 (H obs1 was1 t1 _))), (proj2 (H obs1 was1 t1 _)), (Ho1 _ _ (proj1 (H obs2 was2 t2 _))), (proj2 (H obs2 was2 t2 _)).
  constructor; [|apply IH]. clear H.
  do 2 case_bool_decide; try done. unfold strike.
  destruct (obs1 c && was1 c) eqn:E1; destruct (obs2 c && was2 c) eqn:E2.
  - rewrite (Ho1 (mark t2 c) c), (Ho2 (mark t1 c) c), W1, W2, E1, E2 by done.
    repeat split. cbn. rewrite <- !(assoc (++)). by rewrite (comm (++) [t1] [t2]).
  - by rewrite (Ho2 (mark t1 c) c), W2, E1, E2.
  - by rewrite (Ho1 (mark t2 c) c), W1, E1.
  - by rewrite E1.
Qed.

(** ** What an author saw *)

(** The edit is undone, by the undo operations that count. *)
Definition undone (counted : Lamport → bool) (us : list UndoOperation) (e : Lamport) : bool :=
  (greatest counted e us `mod` 2 =? 1)%N.

(** The character was visible in version [V]. *)
Definition saw (us : list UndoOperation) (V : Global) (c : Char) : bool :=
  obs V c && negb (undone (observed V) us (char_timestamp c)) &&
  forallb (λ d, negb (observed V d) || undone (observed V) us d) (char_deletions c).

(** The character is visible. *)
Definition shows (us : list UndoOperation) (c : Char) : bool :=
  negb (undone (λ _, true) us (char_timestamp c)) && forallb (undone (λ _, true) us) (char_deletions c).

#[export] Instance obs_of_timestamp V : OfTimestamp (obs V).
Proof. intros c d E. unfold obs. by rewrite E. Qed.

Lemma forallb_perm {A} (f : A → bool) (l k : list A) : l ≡ₚ k → forallb f l = forallb f k.
Proof.
  intros Hlk. apply eq_bool_prop_intro. rewrite !Is_true_true, !forallb_forall. setoid_rewrite <- list_elem_of_In. by setoid_rewrite Hlk.
Qed.

#[export] Instance saw_respects us V : Respects (saw us V).
Proof.
  intros c d Hc. unfold saw. rewrite (of_timestamp_respects (obs V) _ c d Hc).
  destruct Hc as (->&_&_&Hd). by rewrite (forallb_perm _ _ _ Hd).
Qed.

#[export] Instance shows_respects us : Respects (shows us).
Proof. intros c d (E&_&_&Hd). unfold shows. by rewrite E, (forallb_perm _ _ _ Hd). Qed.

Lemma saw_mark us V t c : observed V t = false → saw us V (mark t c) = saw us V c.
Proof. intros Ht. unfold saw. cbn [mark char_timestamp char_deletions]. rewrite forallb_app. cbn. by rewrite Ht, andb_true_r. Qed.

Lemma undone_ext counted us us' e : (∀ u, u ∈ us ↔ u ∈ us') → undone counted us e = undone counted us' e.
Proof. intros E. unfold undone. by rewrite (greatest_ext _ _ _ _ E). Qed.

Lemma undone_skip counted u us e : counted (undo_timestamp u) = false → undone counted (u :: us) e = undone counted us e.
Proof. intros E. unfold undone. by rewrite greatest_cons, E, N.max_0_l. Qed.

Lemma forallb_ext {A} (f g : A → bool) l : (∀ a, f a = g a) → forallb f l = forallb g l.
Proof. intros E. induction l; cbn; congruence. Qed.

Lemma saw_ext us us' V c : (∀ e, undone (observed V) us e = undone (observed V) us' e) → saw us V c = saw us' V c.
Proof. intros E. unfold saw. rewrite E. f_equal. apply forallb_ext. intros d. by rewrite E. Qed.

(** ** Edits *)

Section edits.
Context (us : list UndoOperation).

Abbreviation edit_by V t := (edit_one (obs V) (saw us V) t) (only parsing).
Abbreviation edits_by V t := (apply_edits (obs V) (saw us V) t) (only parsing).

Lemma edit_one_place V t o s e text cs :
  edit_by V t o ((s, e), text) cs = delete_from (obs V) (saw us V) t 0 s e (place (obs V) t s (run t true [] o text) cs).
Proof. unfold edit_one. by rewrite insert_at_place. Qed.

Lemma run_unseen V t o text : observed V t = false → Forall (λ c, char_timestamp c = t ∧ obs V c = false) (run t true [] o text).
Proof. intros Ht. by apply run_forall. Qed.

Lemma clen_edit_one V V' t o e cs : observed V t = false → clen (obs V) (edit_by V' t o e cs) = clen (obs V) cs.
Proof.
  intros Ht. destruct e as [[s e] text]. rewrite edit_one_place, clen_delete by apply _. apply clen_place.
  eapply new_unseen. by apply run_unseen.
Qed.

Lemma clen_edits V V' t es o cs : observed V t = false → clen (obs V) (edits_by V' t o es cs) = clen (obs V) cs.
Proof. intros Ht. revert o cs. induction es as [|e es IH]; intros o cs; [done|]. cbn [apply_edits]. by rewrite IH, clen_edit_one. Qed.

Lemma edit_one_equiv V t o e cs ds : cs ≡ ds → edit_by V t o e cs ≡ edit_by V t o e ds.
Proof.
  intros Hcs. destruct e as [[s e] text]. rewrite !edit_one_place. apply delete_equiv; [apply _..|]. by apply place_equiv; [apply _|].
Qed.

Lemma edits_equiv V t es o cs ds : cs ≡ ds → edits_by V t o es cs ≡ edits_by V t o es ds.
Proof. revert o cs ds. induction es as [|e es IH]; intros o cs ds Hcs; [done|]. cbn [apply_edits]. by apply IH, edit_one_equiv. Qed.

(** Edits of two authors who had not seen each other's. *)
Context (V1 V2 : Global) (t1 t2 : Lamport).
Hypothesis apart : t1 ≠ t2.
Hypothesis unseen1 : observed V1 t2 = false.
Hypothesis unseen2 : observed V2 t1 = false.
Hypothesis own1 : observed V1 t1 = false.
Hypothesis own2 : observed V2 t2 = false.

Lemma edit_one_commute o1 e1 o2 e2 cs :
  e1.1.1 ≤ clen (obs V1) cs → e2.1.1 ≤ clen (obs V2) cs →
  edit_by V2 t2 o2 e2 (edit_by V1 t1 o1 e1 cs) ≡ edit_by V1 t1 o1 e1 (edit_by V2 t2 o2 e2 cs).
Proof.
  destruct e1 as [[s1 e1] text1], e2 as [[s2 e2] text2]. cbn [fst]. intros H1 H2. rewrite !edit_one_place.
  assert (N1 : Forall (λ c, char_timestamp c = t1 ∧ obs V2 c = false) (run t1 true [] o1 text1)) by by apply run_unseen.
  assert (N2 : Forall (λ c, char_timestamp c = t2 ∧ obs V1 c = false) (run t2 true [] o2 text2)) by by apply run_unseen.
  rewrite <- (delete_place (obs V1)) by (by eapply new_unseen || apply _).
  rewrite <- (delete_place (obs V2) (saw us V2) t2 (obs V1)) by (by eapply new_unseen || apply _).
  rewrite (place_commute (obs V1) (obs V2) t1 t2) by done.
  apply delete_commute; [apply _|apply _|intros c; by apply saw_mark..].
Qed.

Lemma edits_commute_one o1 e1 es2 : ∀ o2 cs,
  e1.1.1 ≤ clen (obs V1) cs → Forall (λ e, e.1.1 ≤ clen (obs V2) cs) es2 →
  edits_by V2 t2 o2 es2 (edit_by V1 t1 o1 e1 cs) ≡ edit_by V1 t1 o1 e1 (edits_by V2 t2 o2 es2 cs).
Proof.
  induction es2 as [|e2 es2 IH]; intros o2 cs H1 H2; [done|]. apply Forall_cons in H2 as [H2 Hes].
  cbn [apply_edits]. etrans; [by apply edits_equiv, edit_one_commute|]. apply IH.
  - by rewrite clen_edit_one.
  - by rewrite clen_edit_one.
Qed.

Lemma edits_commute es1 es2 : ∀ o1 o2 cs,
  Forall (λ e, e.1.1 ≤ clen (obs V1) cs) es1 → Forall (λ e, e.1.1 ≤ clen (obs V2) cs) es2 →
  edits_by V2 t2 o2 es2 (edits_by V1 t1 o1 es1 cs) ≡ edits_by V1 t1 o1 es1 (edits_by V2 t2 o2 es2 cs).
Proof.
  induction es1 as [|e1 es1 IH]; intros o1 o2 cs H1 H2; [done|]. apply Forall_cons in H1 as [H1 Hes].
  cbn [apply_edits]. etrans; [apply IH|]; rewrite ?clen_edit_one by done; [done|done|]. by apply edits_equiv, edits_commute_one.
Qed.
End edits.

(** ** Places between characters *)

Section places.
Context (p : Char → bool).

Fixpoint between_chars (n : nat) (cs : list Char) : Prop :=
  match cs with
  | [] => n = 0
  | c :: cs => n = 0 ∨ if p c then width c ≤ n ∧ between_chars (n - width c) cs else between_chars n cs
  end.

Lemma between_chars_0 cs : between_chars 0 cs.
Proof. destruct cs; [done|by left]. Qed.

Lemma between_chars_spec n cs : (∃ a b, cs = a ++ b ∧ clen p a = n) ↔ between_chars n cs.
Proof.
  revert n. induction cs as [|c cs IH]; intros n; cbn [between_chars]; split.
  - intros (a&b&E&<-). symmetry in E. by apply app_eq_nil in E as [-> _].
  - intros ->. by exists [], [].
  - intros ([|c' a]&b&E&<-); [by left|]. right. injection E as <- ->. cbn [clen].
    destruct (p c); cbn; [|apply IH; by exists a, b]. split; [lia|]. apply IH. exists a, b. split; [done|lia].
  - intros [->|Hr]; [by exists [], (c :: cs)|]. destruct (p c) eqn:E.
    + destruct Hr as [Hw Hr]. apply IH in Hr as (a&b&->&Ha). exists (c :: a), b. split; [done|]. cbn [clen]. rewrite E. lia.
    + apply IH in Hr as (a&b&->&Ha). exists (c :: a), b. split; [done|]. cbn [clen]. by rewrite E.
Qed.

Lemma between_chars_le n cs : between_chars n cs → n ≤ clen p cs.
Proof. intros (a&b&->&<-)%between_chars_spec. rewrite clen_app. lia. Qed.

Lemma between_chars_equiv n cs ds : Respects p → cs ≡ ds → between_chars n cs ↔ between_chars n ds.
Proof.
  intros Hp Hcs. revert n. induction Hcs as [|c d cs ds Hc _ IH]; intros n; [done|]. cbn [between_chars].
  rewrite (Hp c d Hc), (width_proper c d Hc). by destruct (p d); rewrite IH.
Qed.

Lemma between_chars_unseen x n cs : Forall (λ c, p c = false) x → between_chars n (x ++ cs) ↔ between_chars n cs.
Proof.
  induction 1 as [|c x Hc _ IH]; [done|]. cbn [app between_chars]. rewrite Hc, IH. split; [|by right]. intros [->|?]; [apply between_chars_0|done].
Qed.

Lemma between_chars_place q t k new n cs :
  Forall (λ c, p c = false) new → between_chars n (place q t k new cs) ↔ between_chars n cs.
Proof.
  intros Hnew. revert k n. induction cs as [|c cs IH]; intros k n; cbn [place].
  { rewrite <- (app_nil_r new). by rewrite between_chars_unseen. }
  case_match; [by rewrite between_chars_unseen|]. cbn [between_chars]. by destruct (p c); rewrite IH.
Qed.

Lemma between_chars_delete q w t s e n cs : OfTimestamp p → ∀ o, between_chars n (delete_from q w t o s e cs) ↔ between_chars n cs.
Proof.
  intros Hp. revert n. induction cs as [|c cs IH]; intros n o; [done|]. cbn [delete_from].
  set (c' := if bool_decide _ then _ else c).
  assert (E : p c' = p c ∧ width c' = width c) by (unfold c'; case_bool_decide; [destruct (same_strike q w t c); split; [by apply Hp|done]|done]).
  destruct E as [E1 E2]. cbn [between_chars]. rewrite E1, E2. by destruct (p c); rewrite IH.
Qed.
End places.

(** ** Operations on documents *)

(** The operations of a replica: an edit by its version, its timestamp and its
    ranges and texts, or an undo. *)
Inductive DocOp :=
  | DocEdit (V : Global) (t : Lamport) (edits : list ((nat * nat) * list Z))
  | DocUndo (undo : UndoOperation).

Definition op_timestamp (o : DocOp) : Lamport := match o with DocEdit _ t _ => t | DocUndo u => undo_timestamp u end.
Definition op_seen (o : DocOp) (t : Lamport) : bool := observed (match o with DocEdit V _ _ => V | DocUndo u => undo_version u end) t.

(** The undo operations received, the newest first, and the characters. *)
Record Doc := mkDoc { doc_undos : list UndoOperation; doc_chars : list Char }.

#[export] Instance Doc_equiv : Equiv Doc := λ a b, doc_undos a ≡ₚ doc_undos b ∧ doc_chars a ≡ doc_chars b.

#[export] Instance Doc_equivalence : Equivalence (≡@{Doc}).
Proof.
  split.
  - by intros d.
  - intros a b [? ?]. by split.
  - intros a b c [? ?] [? ?]. by split; etrans.
Qed.

Definition show (us : list UndoOperation) (c : Char) : Char :=
  mkChar (char_timestamp c) (char_offset c) (char_code c) (shows us c) (char_deletions c).

Definition doc_apply (o : DocOp) (d : Doc) : Doc :=
  match o with
  | DocEdit V t es => mkDoc (doc_undos d) (apply_edits (obs V) (saw (doc_undos d) V) t 0 es (doc_chars d))
  | DocUndo u => mkDoc (u :: doc_undos d) (map (show (u :: doc_undos d)) (doc_chars d))
  end.

(** An operation can be applied to a document: what its author had seen is
    older, its timestamp is new, and its ranges are between characters that its
    author had seen. *)
Definition op_ready (o : DocOp) (d : Doc) : Prop :=
  match o with
  | DocEdit V t es =>
      Forall (λ c, obs V c = true → cmp (char_timestamp c) t = Lt) (doc_chars d) ∧
      Forall (λ c, char_timestamp c ≠ t) (doc_chars d) ∧
      Forall (λ e, seen_boundary V (doc_chars d) e.1.1 ∧ seen_boundary V (doc_chars d) e.1.2) es
  | DocUndo u => Forall (λ v, undo_timestamp v ≠ undo_timestamp u) (doc_undos d)
  end.

Lemma show_chars us cs : map (show us) cs ≡ cs.
Proof. induction cs as [|c cs IH]; [done|]. cbn [map]. constructor; [done|exact IH]. Qed.

Lemma edits_saw us us' V t es : ∀ o cs ds,
  (∀ e, undone (observed V) us e = undone (observed V) us' e) → cs ≡ ds →
  apply_edits (obs V) (saw us V) t o es cs ≡ apply_edits (obs V) (saw us' V) t o es ds.
Proof.
  intros o cs ds E Hcs. rewrite (edits_equiv us V t es o cs ds Hcs). clear cs Hcs.
  revert o ds. induction es as [|[[s e] text] es IH]; intros o ds; [done|]. cbn [apply_edits].
  assert (Eone : edit_one (obs V) (saw us V) t o ((s, e), text) ds = edit_one (obs V) (saw us' V) t o ((s, e), text) ds).
  { unfold edit_one. generalize (insert_at (obs V) t s (run t true [] o text) ds) 0. clear -E.
    induction l as [|c l IH]; intros n; [done|]. cbn [delete_from]. rewrite IH. unfold strike. by rewrite (saw_ext us us' V c E). }
  rewrite Eone. apply IH.
Qed.

#[export] Instance doc_apply_proper o : Proper ((≡) ==> (≡)) (doc_apply o).
Proof.
  intros [us cs] [us' cs'] [Hus Hcs]. cbn [doc_undos doc_chars] in *. destruct o as [V t es|u]; split; cbn [doc_apply doc_undos doc_chars].
  - done.
  - apply edits_saw; [|done]. intros e. apply undone_ext. intros u. by rewrite Hus.
  - by constructor.
  - etrans; [apply show_chars|]. etrans; [exact Hcs|]. symmetry. apply show_chars.
Qed.

(** Statements about the timestamps of the characters. *)
Lemma times_equiv (P : Lamport → Prop) cs ds :
  cs ≡ ds → Forall (λ c, P (char_timestamp c)) cs ↔ Forall (λ c, P (char_timestamp c)) ds.
Proof. induction 1 as [|c d cs ds (E&_) _ IH]; [done|]. by rewrite !Forall_cons, E, IH. Qed.

Lemma times_edits (P : Lamport → Prop) obs was t es o cs :
  P t → Forall (λ c, P (char_timestamp c)) (apply_edits obs was t o es cs) ↔ Forall (λ c, P (char_timestamp c)) cs.
Proof.
  intros Ht. rewrite <- !(Forall_map char_timestamp P), (apply_edits_map char_timestamp), Forall_app by done.
  split; [by intros [_ ?]|]. split; [|done]. apply Forall_map. by apply run_forall.
Qed.

#[export] Instance seen_boundary_proper V : Proper ((≡) ==> (=) ==> (↔)) (seen_boundary V).
Proof.
  intros cs ds Hcs n _ <-. unfold seen_boundary. rewrite !between_chars_spec. apply between_chars_equiv; [apply _|done].
Qed.

Lemma seen_boundary_edits V V' us t es o cs n :
  observed V t = false → seen_boundary V (apply_edits (obs V') (saw us V') t o es cs) n ↔ seen_boundary V cs n.
Proof.
  intros Ht. unfold seen_boundary. rewrite !between_chars_spec. revert o cs. induction es as [|[[s e] text] es IH]; intros o cs; [done|].
  cbn [apply_edits]. rewrite IH, edit_one_place, between_chars_delete by apply _. apply between_chars_place.
  eapply new_unseen. by apply run_unseen.
Qed.

#[export] Instance op_ready_proper o : Proper ((≡) ==> (↔)) (op_ready o).
Proof.
  intros d d' [Hu Hd]. destruct o as [V t es|u]; cbn [op_ready]; [|by rewrite Hu].
  f_equiv; [exact (times_equiv (λ t', observed V t' = true → cmp t' t = Lt) _ _ Hd)|].
  f_equiv; [exact (times_equiv (λ t', t' ≠ t) _ _ Hd)|]. apply Forall_iff. intros e. by rewrite Hd.
Qed.

(** Neither operation has seen the other. *)
Definition concurrent (a b : DocOp) : Prop :=
  op_timestamp a ≠ op_timestamp b ∧ op_seen a (op_timestamp b) = false ∧ op_seen b (op_timestamp a) = false.

Definition op_fresh (o : DocOp) : Prop := op_seen o (op_timestamp o) = false.

Lemma op_ready_apply a b d :
  op_seen a (op_timestamp b) = false → op_timestamp a ≠ op_timestamp b → op_ready a (doc_apply b d) ↔ op_ready a d.
Proof.
  unfold op_seen. intros Hs Hne. destruct a as [V t es|u], b as [V' t' es'|v]; cbn [op_ready doc_apply doc_chars doc_undos op_timestamp] in *.
  - assert (Hold : (λ x, observed V x = true → cmp x t = Lt) t') by (intros ?; congruence).
    assert (Hne' : t' ≠ t) by congruence.
    f_equiv; [exact (times_edits (λ x, observed V x = true → cmp x t = Lt) _ _ t' es' 0 _ Hold)|].
    f_equiv; [exact (times_edits (λ x, x ≠ t) _ _ t' es' 0 _ Hne')|].
    apply Forall_iff. intros e. by rewrite !seen_boundary_edits.
  - f_equiv; [exact (times_equiv (λ x, observed V x = true → cmp x t = Lt) _ _ (show_chars _ _))|].
    f_equiv; [exact (times_equiv (λ x, x ≠ t) _ _ (show_chars _ _))|].
    apply Forall_iff. intros e. by rewrite show_chars.
  - done.
  - rewrite Forall_cons. split; [by intros [_ ?]|]. split; [congruence|done].
Qed.

Lemma ready_within V t es d : op_ready (DocEdit V t es) d → Forall (λ e, e.1.1 ≤ clen (obs V) (doc_chars d)) es.
Proof. intros (_&_&Hes). eapply Forall_impl; [exact Hes|]. intros e [(a&b&->&<-) _]. rewrite clen_app. lia. Qed.

Lemma doc_commute a b d :
  concurrent a b → (op_fresh a ∧ op_fresh b) → op_ready a d → op_ready b d →
  doc_apply b (doc_apply a d) ≡ doc_apply a (doc_apply b d).
Proof.
  intros (Ht&Hab&Hba) [Fa Fb] Wa Wb. unfold op_fresh in *. destruct d as [us cs].
  destruct a as [V1 t1 es1|u1], b as [V2 t2 es2|u2]; cbn [op_timestamp op_seen doc_apply doc_undos doc_chars] in *;
    (split; cbn [doc_undos doc_chars]).
  - done.
  - apply edits_commute; try done; by eapply (ready_within _ _ _ (mkDoc us cs)).
  - done.
  - etrans; [apply show_chars|]. apply edits_saw; [|symmetry; apply show_chars]. intros e. by rewrite undone_skip.
  - done.
  - etrans; [|symmetry; apply show_chars]. apply edits_saw; [|apply show_chars]. intros e. by rewrite undone_skip.
  - constructor.
  - etrans; [etrans; apply show_chars|symmetry; etrans; apply show_chars].
Qed.

(** ** Replicas *)

Definition deliver (l : list DocOp) (d : Doc) : Doc := foldl (λ d o, doc_apply o d) d l.

(** Every operation can be applied when it arrives. *)
Fixpoint deliverable (l : list DocOp) (d : Doc) : Prop :=
  match l with
  | [] => True
  | o :: l => op_fresh o ∧ op_ready o d ∧ deliverable l (doc_apply o d)
  end.

(** No operation has seen a later one. *)
Definition causal (l : list DocOp) : Prop := StronglySorted (λ a b, op_seen a (op_timestamp b) = false) l.

#[export] Instance deliver_proper l : Proper ((≡) ==> (≡)) (deliver l).
Proof. induction l as [|o l IH]; intros d d' Hd; [done|]. cbn. apply IH. by apply doc_apply_proper. Qed.

Lemma deliverable_equiv l d d' : d ≡ d' → deliverable l d → deliverable l d'.
Proof.
  revert d d'. induction l as [|o l IH]; intros d d' Hd; [done|]. cbn. intros (Hf&Hw&Hl). split; [done|]. split.
  - by apply (op_ready_proper o d d').
  - eapply IH; [|exact Hl]. by apply doc_apply_proper.
Qed.

(** An operation that is concurrent to those before it could have come first. *)
Lemma deliver_front a x : ∀ y d,
  deliverable (x ++ a :: y) d → Forall (λ o, concurrent a o) x →
  op_fresh a ∧ op_ready a d ∧ deliver (x ++ a :: y) d ≡ deliver (a :: x ++ y) d ∧ deliverable (x ++ y) (doc_apply a d).
Proof.
  induction x as [|o x IH]; intros y d Hd Hx.
  { by destruct Hd as (?&?&?). }
  apply Forall_cons in Hx as [Ho Hx]. destruct Hd as (Hfo&Hwo&Hd). cbn [app] in *. pose proof Ho as (Hne&Hao&Hoa).
  destruct (IH y (doc_apply o d) Hd Hx) as (Ha&Hw&E&Hd'). apply op_ready_apply in Hw; [|done..].
  pose proof (doc_commute a o d Ho (conj Ha Hfo) Hw Hwo) as C. split; [done|]. split; [done|]. split.
  - change (deliver (o :: x ++ a :: y) d) with (deliver (x ++ a :: y) (doc_apply o d)).
    rewrite E. change (deliver (x ++ y) (doc_apply a (doc_apply o d)) ≡ deliver (x ++ y) (doc_apply o (doc_apply a d))).
    by apply deliver_proper.
  - cbn. split; [done|]. split; [by apply op_ready_apply|]. eapply deliverable_equiv; [|exact Hd']. done.
Qed.

Lemma causal_app a b : causal (a ++ b) → causal a ∧ causal b ∧ ∀ o p, o ∈ a → p ∈ b → op_seen o (op_timestamp p) = false.
Proof.
  unfold causal. induction a as [|o a IH]; cbn [app]; intros Hs.
  { split; [constructor|]. split; [done|]. by intros o p ?%not_elem_of_nil. }
  inversion Hs as [|? ? Hs' Ho]; subst. apply Forall_app in Ho as [Hoa Hob]. destruct (IH Hs') as (Ha&Hb&Hab).
  split; [by constructor|]. split; [done|]. intros q p [->|Hq]%elem_of_cons Hp; [|by apply Hab]. rewrite Forall_forall in Hob. by apply Hob.
Qed.

(** Two orders of the same operations: when they can be delivered in one, they
    can be delivered in the other, and the documents agree. *)
Lemma deliver_converge l1 : ∀ l2 d1 d2,
  d1 ≡ d2 → l1 ≡ₚ l2 → NoDup (map op_timestamp l1) → causal l1 → causal l2 → deliverable l2 d2 →
  deliverable l1 d1 ∧ deliver l1 d1 ≡ deliver l2 d2.
Proof.
  induction l1 as [|a l1 IH]; intros l2 d1 d2 Hd Hp Hnd Hc1 Hc2 Hv2.
  { apply Permutation_nil in Hp as ->. done. }
  assert (Hin : a ∈ l2) by (rewrite <- Hp; by left). apply list_elem_of_split in Hin as (x&y&->).
  apply Permutation_cons_app_inv in Hp. inversion Hc1 as [|? ? Hc1' Ha]; subst.
  cbn [map] in Hnd. apply NoDup_cons in Hnd as [Hna Hnd].
  assert (Hx : Forall (λ o, concurrent a o) x).
  { apply Forall_forall. intros o Ho. split; [|split].
    - intros E. apply Hna. rewrite E. apply list_elem_of_fmap. exists o. split; [done|]. rewrite Hp, elem_of_app. by left.
    - rewrite Forall_forall in Ha. apply Ha. rewrite Hp, elem_of_app. by left.
    - apply causal_app in Hc2 as (_&_&H). apply H; [done|by left]. }
  destruct (deliver_front a x y d2 Hv2 Hx) as (Hfa&Hwa&E&Hv2').
  destruct (IH (x ++ y) (doc_apply a d1) (doc_apply a d2)) as [Hv1 E1]; try done.
  - by apply doc_apply_proper.
  - clear -Hc2. unfold causal in *. induction x as [|o x IH]; cbn [app] in *; inversion Hc2 as [|? ? Hs Ho]; subst; [done|].
    constructor; [by apply IH|]. apply Forall_app in Ho as [? [_ ?]%Forall_cons]. by apply Forall_app.
  - split.
    + split; [done|]. split; [by apply (op_ready_proper a d1 d2)|done].
    + rewrite E. exact E1.
Qed.

(** ** What is visible *)

(** The cached visibility is what the undo operations say. *)
Definition coherent (d : Doc) : Prop := Forall (λ c, char_visible c = shows (doc_undos d) c) (doc_chars d).

Lemma coherent_text d d' v : d ≡ d' → coherent d → coherent d' → codes v (doc_chars d) = codes v (doc_chars d').
Proof.
  intros [Hu Hc] H H'. unfold coherent in *. revert H H'. induction Hc as [|c c' cs cs' Hc _ IH]; [done|].
  intros [H Hs]%Forall_cons [H' Hs']%Forall_cons. rewrite !codes_cons, (IH Hs Hs').
  assert (E : char_visible c = char_visible c').
  { rewrite H, H', (shows_respects _ c c' Hc). unfold shows.
    assert (Eu : ∀ e, undone (λ _, true) (doc_undos d) e = undone (λ _, true) (doc_undos d') e).
    { intros e. apply undone_ext. intros u. by rewrite Hu. }
    rewrite Eu. f_equal. by apply forallb_ext. }
  rewrite E. by destruct Hc as (_&_&->&_).
Qed.

Lemma coherent_undo u d : coherent (doc_apply (DocUndo u) d).
Proof. apply Forall_fmap, Forall_forall. by intros c _. Qed.

Section coherence.
Context (us : list UndoOperation) (t : Lamport) (Hnot : undone (λ _, true) us t = false).
Abbreviation true_to c := (char_visible c = shows us c) (only parsing).

Lemma coherent_place (obs : Char → bool) n o text cs :
  Forall (λ c, true_to c) cs → Forall (λ c, true_to c) (place obs t n (run t true [] o text) cs).
Proof.
  assert (Hnew : Forall (λ c, true_to c) (run t true [] o text)).
  { apply run_forall. intros o' z. unfold shows. cbn. by rewrite Hnot. }
  intros Hcs. revert n. induction Hcs as [|c cs Hc Hcs IH]; intros n; [done|]. cbn [place].
  case_match; [apply Forall_app; split; [done|]|]; by constructor.
Qed.

Lemma coherent_delete (obs was : Char → bool) o s e cs :
  Forall (λ c, true_to c) cs → Forall (λ c, true_to c) (delete_from obs was t o s e cs).
Proof.
  intros Hcs. revert o. induction Hcs as [|c cs Hc Hcs IH]; intros o; [done|]. cbn [delete_from]. constructor; [|apply IH].
  case_bool_decide; [|done]. unfold strike. destruct (_ && _); [|done]. unfold shows. cbn [mark char_visible char_timestamp char_deletions].
  rewrite forallb_app. cbn. by rewrite Hnot, !andb_false_r.
Qed.

Lemma coherent_edits V (was : Char → bool) es : ∀ o cs,
  Forall (λ c, true_to c) cs → Forall (λ c, true_to c) (apply_edits (obs V) was t o es cs).
Proof.
  induction es as [|[[s e] text] es IH]; intros o cs Hcs; [done|]. cbn [apply_edits]. apply IH.
  unfold edit_one. rewrite insert_at_place. by apply coherent_delete, coherent_place.
Qed.
End coherence.

(** An undo names edits it has seen. *)
Definition knows (o : DocOp) : Prop :=
  match o with
  | DocEdit _ _ _ => True
  | DocUndo u => ∀ e n, count_for e u = Some n → observed (undo_version u) e = true
  end.

Definition unnamed (us : list UndoOperation) (t : Lamport) : Prop := Forall (λ u, count_for t u = None) us.

Lemma unnamed_undone counted us t : unnamed us t → undone counted us t = false.
Proof.
  intros Hu. unfold undone. assert (E : greatest counted t us = 0%N); [|by rewrite E].
  induction Hu as [|u us Hu _ IH]; [done|]. rewrite greatest_cons, Hu, IH. by destruct (counted _).
Qed.

Lemma deliver_coherent l : ∀ d,
  coherent d → causal l → Forall knows l → Forall (λ o, unnamed (doc_undos d) (op_timestamp o)) l → coherent (deliver l d).
Proof.
  induction l as [|o l IH]; intros d Hd Hc Hk Hn; [done|]. inversion Hc as [|? ? Hc' Ho]; subst.
  apply Forall_cons in Hk as [Ho' Hk]. apply Forall_cons in Hn as [Hno Hn]. cbn. apply IH; [|done|done|].
  - destruct o as [V t es|u]; [|apply coherent_undo]. apply coherent_edits; [by apply unnamed_undone|exact Hd].
  - destruct o as [V t es|u]; [done|]. cbn [doc_apply doc_undos]. apply Forall_forall. intros p Hp.
    rewrite Forall_forall in Hn, Ho. constructor; [|by apply Hn]. destruct (count_for (op_timestamp p) u) eqn:E; [|done].
    pose proof (Ho' _ _ E) as E1. pose proof (Ho p Hp) as E2.
    change (observed (undo_version u) (op_timestamp p) = false) in E2. congruence.
Qed.
