(* ===== verification/UndoApply.v ===== *)
(** Undo on the fragments: [fragment_ids_for_edits] finds every fragment that
    an edit inserted or deleted, and [apply_undo] refines the undo of the
    document.

    The slices of the edits are visited in the order of the places where they
    begin, with one cursor over the index of insertions that only moves on. *)

From stdpp Require Import base numbers option list sets sorting.
From S2P Require Import Prelude UndoMap Clock SumTree SumTreeFacts Search Cursor CursorFacts StepFacts CursorApi KeyedTree KeyedFacts TreeMap TreeMapFacts TreeMapProps Locator Utf8 Operation LineEnding Fragment Builder Splice Snapshot Buffer Remote Document Pieces BuilderFacts SpliceOutput SpliceWalk SpliceDims LocalEdit SnapshotFacts EditProps RemoteEdit Converge.
From S2P Require Patch PatchFacts UndoMapFacts Rope RopeTree RopeCursor.

#[local] Open Scope nat_scope.

(** ** The slices of an edit *)

#[export] Instance Reverse_OrdLaws {A} `{OrdLaws A} : OrdLaws (Reverse A).
Proof.
  split; unfold cmp, Reverse_Ord.
  - intros [a] [b]. cbn. rewrite cmp_eq_iff. split; [by intros ->|by intros [= ->]].
  - intros [a] [b]. apply cmp_antisym.
  - intros [a] [b] [c] Hab Hbc. cbn in *. by eapply cmp_lt_trans.
Qed.

Definition first_slice (e : Lamport) : InsertionSlice := mkInsertionSlice e Lamport_MIN 0 0.

Lemma cmp_slice_edit a b : cmp a b = Lt → cmp (slice_edit_id a) (slice_edit_id b) ≠ Gt.
Proof. unfold cmp at 1, InsertionSlice_Ord, then_with. by destruct (cmp (slice_edit_id a) (slice_edit_id b)). Qed.

Lemma first_slice_least s : cmp (first_slice (slice_edit_id s)) s ≠ Gt.
Proof.
  unfold cmp, InsertionSlice_Ord, then_with. cbn [slice_edit_id first_slice slice_insertion_id slice_start slice_end].
  rewrite cmp_refl. pose proof (UndoMapFacts.Lamport_MIN_least (slice_insertion_id s)).
  destruct (cmp Lamport_MIN (slice_insertion_id s)); [|done|done]. unfold cmp, N_Ord. by destruct (slice_start s), (slice_end s).
Qed.

Lemma take_slices_spec fuel : ∀ c l1 (l2 : list (MapEntry InsertionSlice ())) e,
  cursor_at c l1 l2 → length l2 ≤ fuel → sorted (K:=MapKey InsertionSlice) l2 →
  Forall (λ i, cmp e (slice_edit_id (entry_key i)) ≠ Gt) l2 →
  ∃ l, take_slices fuel c e = Some l ∧ ∀ s, s ∈ l ↔ s ∈ map entry_key l2 ∧ slice_edit_id s = e.
Proof.
  induction fuel as [|fuel IH]; intros c l1 l2 e Hc Hf Hs He; cbn [take_slices]; unfold iter_from_next;
    destruct (cursor_iter_next_spec c l1 l2 Hc) as (c'&->&_&Hc'); cbn [mbind option_bind];
    (destruct l2 as [|[s []] l2]; cbn [head option_map length] in *;
      [exists []; split; [done|]; intros x; split; [by intros ?%not_elem_of_nil|by intros [?%not_elem_of_nil _]]|]); [lia|].
  inversion Hs as [|? ? Hs' Hlt]; subst. apply Forall_cons in He as [He He']. cbn [of_entry entry_key].
  case_bool_decide as Ee.
  - destruct (IH c' (l1 ++ [mkMapEntry s ()]) l2 e Hc') as (l&->&Hl); [lia|done|done|]. cbn [mbind option_bind].
    exists (s :: l). split; [done|]. intros x. cbn [map entry_key]. rewrite !elem_of_cons, Hl. naive_solver.
  - exists []. split; [done|]. intros x. split; [by intros ?%not_elem_of_nil|]. intros [Hin Ex]. exfalso.
    apply elem_of_cons in Hin as [->|Hin]; [done|]. apply elem_map in Hin as ([s' v]&->&Hin).
    rewrite Forall_forall in Hlt. specialize (Hlt _ Hin). change (cmp s s' = Lt) in Hlt. apply cmp_slice_edit in Hlt.
    cbn [entry_key] in *. rewrite Ex in Hlt. apply Ee. cbn in He. apply cmp_eq_iff.
    destruct (cmp (slice_edit_id s) e) eqn:E; [done| |done]. by rewrite (cmp_antisym (slice_edit_id s)), E in He.
Qed.

Lemma sorted_list_filter (p : MapEntry InsertionSlice () → bool) l :
  sorted (K:=MapKey InsertionSlice) l → sorted (K:=MapKey InsertionSlice) (List.filter p l).
Proof.
  induction 1 as [|i l _ IH Hf]; cbn [List.filter]; [constructor|]. destruct (p i); [|exact IH]. constructor; [exact IH|].
  rewrite Forall_forall in Hf |- *. intros j Hj. apply Hf. by apply list_elem_of_In, filter_In in Hj as [?%list_elem_of_In _].
Qed.

Lemma slices_for_edit_spec t l e :
  map_inv t l → ∃ r, slices_for_edit t e = Some r ∧ ∀ s, s ∈ r ↔ s ∈ map entry_key l ∧ slice_edit_id s = e.
Proof.
  intros Hm. pose proof Hm as (Hel&Hs&_). unfold slices_for_edit, iter_from.
  destruct (map_seek t l (first_slice e) Left Hm) as (c&fd&Hseek&_&_&Hc). unfold first_slice in Hseek at 1.
  rewrite Hseek. cbn [mbind option_bind].
  set (p := TreeMapFacts.reaches (stops () (MkMapKeyRef (Some (first_slice e))) Left)) in *.
  assert (Hp : ∀ i : MapEntry InsertionSlice (), p i = true ↔ cmp (first_slice e) (entry_key i) ≠ Gt).
  { intros i. unfold p, TreeMapFacts.reaches, loc. rewrite stops_ref. unfold target_in_child. by destruct (cmp (first_slice e) (entry_key i)). }
  destruct (take_slices_spec (tree_size t) c _ _ e Hc) as (r&->&Hr).
  - rewrite tree_size_elements, Hel. apply List.filter_length_le.
  - by apply sorted_list_filter.
  - apply Forall_forall. intros i Hi. apply list_elem_of_In, filter_In in Hi as [_ Hi%Hp].
    destruct (cmp (first_slice e) (entry_key i)) eqn:E; [apply cmp_eq_iff in E as <-; by rewrite cmp_refl| |done].
    by apply cmp_slice_edit in E.
  - exists r. split; [done|]. intros s. rewrite Hr, !elem_map. split.
    + intros ((i&->&Hi)&E). split; [|done]. exists i. split; [done|]. by apply list_elem_of_In, filter_In in Hi as [?%list_elem_of_In _].
    + intros ((i&->&Hi)&E). split; [|done]. exists i. split; [done|]. apply list_elem_of_In, filter_In. split; [by apply list_elem_of_In|].
      apply Hp. rewrite <- E. apply first_slice_least.
Qed.

(** ** The fragments of slices *)

Section index.
Context (L : list InsertionFragment) (Lsorted : sorted (K:=InsertionFragmentKey) L).
Implicit Types (c : Cursor InsertionFragment InsertionFragmentKey InsertionFragmentKey ()) (l a b : list InsertionFragment)
  (i j : InsertionFragment) (s : InsertionSlice).

Abbreviation ikey i := (key i : InsertionFragmentKey) (only parsing).

(** The entry begins in the slice. *)
Definition in_slice s i : Prop :=
  insertion_timestamp i = slice_insertion_id s ∧ (slice_start s ≤ split_offset i < slice_end s)%N.

(** What is behind the cursor begins before the slice, or has been found. *)
Definition ready l1 a s : Prop :=
  Forall (λ i, cmp (insertion_timestamp i) (slice_insertion_id s) ≠ Gt ∧ (cmp (ikey i) (slice_key s) = Lt ∨ i ∈ a)) l1.

Lemma slice_ids_spec fuel : ∀ c l1 l2 s ids,
  cursor_at c l1 l2 → did_seek c = true → length l2 ≤ fuel →
  ∃ c' a b, slice_ids fuel c s ids = Some (c', ids ++ map insertion_fragment_id a) ∧ l2 = a ++ b ∧
    cursor_at c' (l1 ++ a) b ∧ did_seek c' = true ∧
    Forall (λ i, insertion_timestamp i = slice_insertion_id s ∧ (split_offset i < slice_end s)%N) a ∧
    match b with i :: _ => insertion_timestamp i ≠ slice_insertion_id s ∨ (slice_end s ≤ split_offset i)%N | [] => True end.
Proof.
  induction fuel as [|fuel IH]; intros c l1 l2 s ids Hc Hd Hf; cbn [slice_ids]; rewrite (item_at _ _ _ Hc Hd); cbn [mbind option_bind];
    (destruct l2 as [|i l2]; cbn [head length] in *; [exists c, [], []; rewrite !app_nil_r; by split_and!|]).
  all: destruct (bool_decide _ || bool_decide _) eqn:Etest;
    [apply orb_true_iff in Etest; rewrite !bool_decide_eq_true in Etest; exists c, [], (i :: l2); rewrite !app_nil_r; by split_and!|]; try lia.
  apply orb_false_iff in Etest as [Et%bool_decide_eq_false Ee%bool_decide_eq_false]. apply dec_stable in Et.
  destruct (next_spec c l1 (i :: l2) (l1 ++ [i]) l2 Hc) as (c'&->&(_&_&Hd')&Hc'); [unfold pending; by rewrite Hd|].
  cbn [mbind option_bind]. destruct (IH c' (l1 ++ [i]) l2 s (ids ++ [insertion_fragment_id i]) Hc' Hd') as (c2&a&b&->&->&Hc2&Hd2&Ha&Hb); [lia|].
  exists c2, (i :: a), b. rewrite <- !app_assoc in *. split; [done|]. split; [done|]. split; [done|]. split; [done|]. split; [|done].
  constructor; [split; [done|lia]|done].
Qed.

Lemma start_key c l1 l2 :
  cursor_at c l1 l2 → L = l1 ++ l2 → start c = match list.last l1 with Some i => ikey i | None => mkInsertionFragmentKey Lamport_MIN 0 end.
Proof.
  intros (h&_&_&Hp&_) EL. unfold start. rewrite Hp.
  change (mkInsertionFragmentKey Lamport_MIN 0) with (dim_zero (cursor_cx c) : InsertionFragmentKey). apply dsum_key; [|apply at_most_zero].
  rewrite EL in Lsorted. by apply sorted_app in Lsorted as [? _].
Qed.

Lemma ikey_cmp i s : cmp (ikey i) (slice_key s) =
  then_with (cmp (insertion_timestamp i) (slice_insertion_id s)) (cmp (split_offset i) (slice_start s)).
Proof. done. Qed.

(** Moving to where the slice begins. *)
Lemma slice_seek c l1 l2 a s :
  cursor_at c l1 l2 → (did_seek c = true ∨ l1 = []) → L = l1 ++ l2 → ready l1 a s → slice_insertion_id s ≠ Lamport_MIN →
  ∃ c' l1' l2', (if bool_decide (slice_insertion_id s ≠ key_timestamp (start c)) ||
        bool_decide (key_split_offset (start c) < slice_start s)%N
      then '(c, _) ← seek_forward c (slice_key s) Left; Some c else Some c) = Some c' ∧
    cursor_at c' l1' l2' ∧ did_seek c' = true ∧ L = l1' ++ l2' ∧ sublist l1 l1' ∧ ready l1' a s ∧
    Forall (λ i, cmp (ikey i) (slice_key s) ≠ Lt) l2'.
Proof.
  intros Hc Hd EL Hr Hpos. rewrite (start_key _ _ _ Hc EL). pose proof Lsorted as Hs. rewrite EL in Hs.
  pose proof Hs as (Hs1&Hs2&Hs12)%sorted_app.
  destruct (bool_decide _ || bool_decide _) eqn:Etest.
  - assert (Hbehind : behind_le (slice_key s) l1).
    { destruct l1 as [|x l _] using rev_ind; [constructor|]. rewrite last_snoc in Etest.
      unfold ready in Hr. rewrite Forall_app, Forall_singleton in Hr. destruct Hr as [_ [Hx _]].
      assert (Hlast : cmp (ikey x) (slice_key s) ≠ Gt).
      { rewrite ikey_cmp. apply orb_true_iff in Etest. rewrite !bool_decide_eq_true in Etest. unfold then_with.
        change (key_timestamp (key x)) with (insertion_timestamp x) in Etest. change (key_split_offset (key x)) with (split_offset x) in Etest.
        destruct (cmp (insertion_timestamp x) _) eqn:E; [|done|done]. apply cmp_eq_iff in E. destruct Etest as [?|Hlt]; [congruence|].
        unfold cmp, N_Ord. by rewrite (proj2 (N.compare_lt_iff _ _) Hlt). }
      apply Forall_app. split; [|by apply Forall_singleton]. apply Forall_forall. intros i Hi.
      apply sorted_app in Hs1 as (_&_&Hlt). specialize (Hlt i x Hi ltac:(by apply list_elem_of_singleton)).
      apply cmp_lt_le. eapply cmp_lt_le_trans; [exact Hlt|exact Hlast]. }
    destruct (span (λ i, bool_decide (cmp (slice_key s) (ikey i) = Gt)) l2) as [a0 b0] eqn:Espan.
    destruct (sorted_cut l2 (slice_key s) Hs2) as (a1&b1&E1&Ha1&Hb1&Hspan). rewrite Espan in Hspan. injection Hspan as -> Eb.
    destruct (seek_forward_spec c (slice_key s) Left l1 l2 a1 b0 Hc) as (c'&->&(_&_&Hd')&Hc').
    { by eapply key_seekable. }
    { destruct Hc as (h&_&_&Hp&_). unfold seek_cut. rewrite Hp, key_cut; [done|done|by apply at_most_ahead]. }
    exists c', (l1 ++ a1), b0. cbn [mbind option_bind]. split; [done|]. split; [done|]. split; [done|].
    split; [by rewrite EL, E1, <- app_assoc, Eb|]. split; [by apply sublist_inserts_r|]. split.
    + apply Forall_app. split; [done|]. eapply Forall_impl; [exact Ha1|]. intros i Hi. change (cmp (ikey i) (slice_key s) = Lt) in Hi.
      split; [|by left]. rewrite ikey_cmp in Hi. unfold then_with in Hi. by destruct (cmp (insertion_timestamp i) _).
    + rewrite Eb. apply Forall_app. split.
      * destruct (lookup_key _ l2) as [i|] eqn:E; [|constructor]. apply Forall_singleton. apply lookup_Some_key in E. rewrite E. by rewrite cmp_refl.
      * eapply Forall_impl; [exact Hb1|]. intros i Hi. change (cmp (slice_key s) (ikey i) = Lt) in Hi. by rewrite (cmp_antisym (slice_key s)), Hi.
  - apply orb_false_iff in Etest as [Et%bool_decide_eq_false Eo%bool_decide_eq_false]. apply dec_stable in Et.
    destruct l1 as [|x l _] using rev_ind; [done|]. rewrite last_snoc in *.
    exists c, (l ++ [x]), l2. split; [done|]. split; [done|]. split; [destruct Hd as [?|Hd]; [done|by destruct l]|]. split; [done|].
    split; [done|]. split; [done|]. apply Forall_forall. intros j Hj.
    specialize (Hs12 x j ltac:(rewrite elem_of_app, list_elem_of_singleton; by right) Hj). change (cmp (ikey x) (ikey j) = Lt) in Hs12.
    intros Hlt. assert (Hx : cmp (ikey x) (slice_key s) = Lt) by by eapply cmp_lt_trans.
    rewrite ikey_cmp in Hx. change (key_timestamp (key x)) with (insertion_timestamp x) in Et. change (key_split_offset (key x)) with (split_offset x) in Eo.
    rewrite Et, cmp_refl in Hx. change (N.compare (split_offset x) (slice_start s) = Lt) in Hx. by apply N.compare_lt_iff in Hx.
Qed.

(** What the loop has found: the entries [a], in the order of the index. *)
Record search_at (c : Cursor InsertionFragment InsertionFragmentKey InsertionFragmentKey ()) (l1 l2 a : list InsertionFragment) : Prop := {
  search_cursor : cursor_at c l1 l2;
  search_seeked : did_seek c = true ∨ l1 = [];
  search_split : L = l1 ++ l2;
  search_found : sublist a l1
}.

Lemma slice_step_at c l1 l2 a s :
  search_at c l1 l2 a → ready l1 a s → slice_insertion_id s ≠ Lamport_MIN →
  ∃ c' l1' l2' a', slice_step (c, map insertion_fragment_id a) s = Some (c', map insertion_fragment_id a') ∧
    search_at c' l1' l2' a' ∧ a ⊆ a' ∧ (∀ i, i ∈ L → in_slice s i → i ∈ a') ∧
    ∀ s', cmp (slice_key s) (slice_key s') ≠ Gt → ready l1' a' s'.
Proof.
  intros [Hc Hd EL Ha] Hr Hpos. unfold slice_step.
  destruct (slice_seek c l1 l2 a s Hc Hd EL Hr Hpos) as (c1&m1&m2&E&Hc1&Hd1&EL1&Hsub&Hr1&Hge).
  unfold slice_key in E at 1. rewrite E. cbn [mbind option_bind].
  destruct (slice_ids_spec (tree_size (cursor_tree c1)) c1 m1 m2 s (map insertion_fragment_id a) Hc1 Hd1)
    as (c2&a1&b&E2&->&Hc2&Hd2&Ha1&Hb).
  { rewrite tree_size_elements, (cursor_at_elements _ _ _ Hc1), length_app. lia. }
  rewrite E2. exists c2, (m1 ++ a1), b, (a ++ a1). rewrite map_app. split; [done|].
  pose proof Lsorted as Hs. rewrite EL1 in Hs. apply sorted_app in Hs as (_&Hs2&_).
  assert (Hcov : ∀ i, i ∈ L → in_slice s i → i ∈ a ++ a1).
  { intros i Hi [Et [Hlo Hhi]]. rewrite EL1, !elem_of_app in Hi. rewrite elem_of_app. destruct Hi as [Hi|[Hi|Hi]]; [left|by right|exfalso].
    - unfold ready in Hr1. rewrite Forall_forall in Hr1. destruct (Hr1 i Hi) as [_ [Hlt|?]]; [|done]. rewrite ikey_cmp, Et, cmp_refl in Hlt.
      change (N.compare (split_offset i) (slice_start s) = Lt) in Hlt. apply N.compare_lt_iff in Hlt. by apply N.lt_nge in Hlt.
    - apply list_elem_of_split in Hi as (b1&b2&->). apply sorted_app in Hs2 as (_&Hsb&_).
      assert (Hhead : ∃ j, j ∈ b1 ++ i :: b2 ∧ (cmp (ikey j) (ikey i) ≠ Gt) ∧
        (insertion_timestamp j ≠ slice_insertion_id s ∨ (slice_end s ≤ split_offset j)%N)).
      { destruct b1 as [|j b1]; cbn [app] in *; [exists i; split; [by left|]; by rewrite cmp_refl|].
        exists j. split; [by left|]. split; [|done]. apply (sorted_app [j]) in Hsb as (_&_&Hlt). apply cmp_lt_le, Hlt; [by left|].
        rewrite elem_of_app. right. by left. }
      destruct Hhead as (j&Hj&Hji&Hstop). apply Forall_app in Hge as [_ Hge]. rewrite Forall_forall in Hge. specialize (Hge j Hj).
      rewrite ikey_cmp in Hge. unfold cmp at 1, InsertionFragmentKey_Ord in Hji. cbn [key_timestamp key_split_offset] in Hji.
      change (key_timestamp (key j)) with (insertion_timestamp j) in Hji. change (key_timestamp (key i)) with (insertion_timestamp i) in Hji.
      change (key_split_offset (key j)) with (split_offset j) in Hji. change (key_split_offset (key i)) with (split_offset i) in Hji.
      rewrite Et in Hji. unfold then_with in *. destruct (cmp (insertion_timestamp j) (slice_insertion_id s)) eqn:Ej; [|done|done].
      apply cmp_eq_iff in Ej. destruct Hstop as [?|Hstop]; [done|]. apply Hji. apply N.compare_gt_iff. lia. }
  split; [|split; [set_solver|split; [exact Hcov|]]].
  - split; [done|by left|by rewrite <- app_assoc|]. apply sublist_app; [by etrans|done].
  - intros s' Hle. assert (Hins : cmp (slice_insertion_id s) (slice_insertion_id s') ≠ Gt).
    { unfold cmp, InsertionFragmentKey_Ord, then_with in Hle. cbn [slice_key key_timestamp key_split_offset] in Hle.
      by destruct (cmp (slice_insertion_id s) (slice_insertion_id s')). }
    apply Forall_app. split.
    + eapply Forall_impl; [exact Hr1|]. intros i [Hi [Hlt|Hin]]; (split; [by eapply cmp_le_trans|]).
      * left. by eapply cmp_lt_le_trans.
      * right. set_solver.
    + apply Forall_forall. intros i Hi. rewrite Forall_forall in Ha1. destruct (Ha1 i Hi) as [-> _]. split; [done|]. right. set_solver.
Qed.

Lemma slice_steps_at ss : ∀ c l1 l2 a,
  search_at c l1 l2 a → StronglySorted (λ s s', cmp (slice_key s) (slice_key s') ≠ Gt) ss →
  Forall (λ s, slice_insertion_id s ≠ Lamport_MIN ∧ ready l1 a s) ss →
  ∃ c' a', foldlM slice_step (c, map insertion_fragment_id a) ss = Some (c', map insertion_fragment_id a') ∧
    sublist a' L ∧ a ⊆ a' ∧ ∀ s i, s ∈ ss → i ∈ L → in_slice s i → i ∈ a'.
Proof.
  induction ss as [|s ss IH]; intros c l1 l2 a Hat Hsort Hready; cbn [foldlM].
  { exists c, a. destruct Hat as [_ _ EL Ha]. split; [done|]. split; [rewrite EL; by apply sublist_inserts_r|]. split; [done|].
    by intros s i ?%not_elem_of_nil. }
  inversion Hsort as [|? ? Hsort' Hle]; subst. apply Forall_cons in Hready as [[Hpos Hr] Hready].
  destruct (slice_step_at c l1 l2 a s Hat Hr Hpos) as (c1&l1'&l2'&a1&->&Hat1&Hsub1&Hcov1&Hnext). cbn [mbind option_bind].
  destruct (IH c1 l1' l2' a1 Hat1 Hsort') as (c2&a2&->&Hsub&Hsub2&Hcov2).
  { rewrite Forall_forall in *. intros s' Hs'. split; [by apply Hready|]. by apply Hnext, Hle. }
  exists c2, a2. split; [done|]. split; [done|]. split; [set_solver|].
  intros s' i [->|Hs']%elem_of_cons Hi Hin; [apply Hsub2; by apply Hcov1|by eapply Hcov2].
Qed.
End index.

(** ** The fragments of edits *)

Lemma ranges_apart_between l k r r' : ranges_apart (l ++ k) → r ∈ l → r' ∈ k → apart_ranges r r'.
Proof.
  unfold ranges_apart. induction l as [|x l IH]; [by intros _ ?%not_elem_of_nil|]. cbn [app].
  inversion 1 as [|? ? Hx Hl]; subst. intros [->|Hr]%elem_of_cons Hr'; [|by apply IH].
  apply Forall_app in Hx as [_ Hx]. rewrite Forall_forall in Hx. by apply Hx.
Qed.

Lemma pieces_apart (ps : list Piece) p g c e :
  chars_apart (flatten ps) → p ∈ ps → g ∈ ps → p ≠ g → c ∈ piece_chars p → e ∈ piece_chars g →
  apart_ranges (char_range c) (char_range e).
Proof.
  intros Hap (l1&l2&->)%list_elem_of_split Hg Hne Hc He.
  assert (Hin : ∀ (q : Piece) l x, q ∈ l → x ∈ piece_chars q → char_range x ∈ map char_range (flatten l)).
  { intros q l x (k1&k2&->)%list_elem_of_split Hx. rewrite flatten_app, flatten_cons, !map_app, !elem_of_app. right. left.
    apply elem_map. by exists x. }
  unfold chars_apart in Hap. rewrite flatten_app, flatten_cons, !map_app in Hap.
  apply elem_of_app in Hg as [Hg|[->|Hg]%elem_of_cons]; [|done|].
  - apply apart_sym. apply (ranges_apart_between _ _ _ _ Hap); [by eapply Hin|]. rewrite elem_of_app. left. apply elem_map. by exists c.
  - rewrite app_assoc in Hap. apply (ranges_apart_between _ _ _ _ Hap); [|by eapply Hin]. rewrite elem_of_app. right. apply elem_map. by exists c.
Qed.

(** The character of a run that contains a byte. *)
Lemma run_byte ts v d t c n : ∀ o,
  c ∈ run ts v d o t → o ≤ n → n ≤ char_offset c →
  ∃ e, e ∈ run ts v d o t ∧ char_offset e ≤ n < char_offset e + width e.
Proof.
  induction t as [|z t IH]; intros o Hc Ho Hn; [by apply not_elem_of_nil in Hc|]. cbn [run] in *.
  set (e := mkChar ts o z v d) in *. pose proof (width_pos e). destruct (decide (n < o + width e)).
  { exists e. split; [by left|]. split; done. }
  apply elem_of_cons in Hc as [->|Hc]; [cbn in Hn; lia|].
  destruct (IH (o + len_utf8 z) Hc) as (e'&He'&?); [unfold e, width in *; cbn in *; lia|done|]. exists e'. split; [by right|done].
Qed.

(** A character in a slice is in a fragment that begins in the slice. *)
Lemma slice_start_before (ps : list Piece) p s c :
  Forall piece_ok ps → chars_apart (flatten ps) → p ∈ ps → slice_key s ∈ map fragment_key (map fst ps) →
  c ∈ piece_chars p → slice_insertion_id s = char_timestamp c → N.to_nat (slice_start s) ≤ char_offset c →
  (slice_start s ≤ insertion_offset p.1)%N.
Proof.
  intros Hok Hap Hp (f&Ef&(g&->&Hg)%elem_map)%elem_map Hc Et Hlo.
  destruct (N.le_gt_cases (slice_start s) (insertion_offset p.1)) as [?|Hlt]; [done|exfalso].
  injection Ef as Eft Efo. assert (Hne : p ≠ g) by (intros ->; rewrite Efo in Hlt; lia).
  destruct (run_byte _ _ _ _ c (N.to_nat (slice_start s)) _ Hc) as (e&He&Hin); [lia|done|].
  rewrite Forall_forall in Hok. destruct (Hok g Hg) as (Hgne&_). destruct g as [g t]. cbn [fst snd] in *. destruct t as [|z t]; [done|].
  pose proof (pieces_apart ps p (g, z :: t) e (mkChar (fragment_timestamp g) (N.to_nat (insertion_offset g)) z (visible g) (deletions g))
    Hap Hp Hg Hne He ltac:(by left)) as Hr.
  assert (Ets : ∀ x, x ∈ piece_chars p → char_timestamp x = fragment_timestamp p.1).
  { intros x Hx. assert (Hall : Forall (λ x, char_timestamp x = fragment_timestamp p.1) (piece_chars p)) by by apply run_forall.
    rewrite Forall_forall in Hall. by apply Hall. }
  pose proof (width_pos (mkChar (fragment_timestamp g) (N.to_nat (insertion_offset g)) z (visible g) (deletions g))) as Hw.
  destruct Hr as [Hr|Hr].
  - change (char_timestamp e = fragment_timestamp g). rewrite (Ets e He), <- (Ets c Hc). congruence.
  - cbn [char_range fst snd char_offset] in Hr. lia.
  - cbn [char_range fst snd char_offset] in Hr. lia.
Qed.

Lemma slice_key_order a b : cmp (slice_sort_key a) (slice_sort_key b) ≠ Gt → cmp (slice_key a) (slice_key b) ≠ Gt.
Proof.
  unfold cmp at 1, prod_Ord, slice_sort_key. cbn [fst snd]. unfold cmp at 2, prod_Ord. cbn [fst snd].
  unfold cmp at 4, InsertionFragmentKey_Ord, then_with, slice_key. cbn [key_timestamp key_split_offset].
  destruct (cmp (slice_insertion_id a) (slice_insertion_id b)); [|done|done]. by destruct (cmp (slice_start a) (slice_start b)).
Qed.

Lemma StronglySorted_impl {A} (R R' : relation A) l : (∀ a b, R a b → R' a b) → StronglySorted R l → StronglySorted R' l.
Proof. intros HR. induction 1 as [|a l _ IH Hf]; constructor; [done|]. eapply Forall_impl; [exact Hf|]. apply HR. Qed.

Lemma sorted_strict (l : list Locator) :
  StronglySorted (λ a b, cmp a b ≠ Gt) l → NoDup l → StronglySorted (λ a b, cmp a b = Lt) l.
Proof.
  induction 1 as [|a l _ IH Hf]; [constructor|]. intros [Ha Hnd]%NoDup_cons. constructor; [by apply IH|].
  rewrite Forall_forall in Hf |- *. intros b Hb. specialize (Hf b Hb). destruct (cmp a b) eqn:E; [|done|done].
  apply cmp_eq_iff in E as <-. done.
Qed.

Lemma ids_above lo l : ids_from lo l → Forall (λ f, cmp lo (fragment_id f) = Lt) l.
Proof.
  revert lo. induction l as [|f l IH]; intros lo; [done|]. cbn [ids_from]. intros (_&Hlt&Hl). constructor; [done|].
  eapply Forall_impl; [exact (IH _ Hl)|]. cbn. intros g Hg. by eapply cmp_lt_trans.
Qed.

Lemma ids_NoDup lo l : ids_from lo l → NoDup (map fragment_id l).
Proof.
  revert lo. induction l as [|f l IH]; intros lo; cbn [map]; [constructor|]. cbn [ids_from]. intros (_&_&Hl).
  constructor; [|by eapply IH]. intros (g&E&Hg)%elem_map. apply ids_above in Hl. rewrite Forall_forall in Hl.
  specialize (Hl g Hg). by rewrite E, cmp_refl in Hl.
Qed.

Section ids.
Context `{SortOk} {base : Lamport → Prop} (s : BufferSnapshot) (ps : list Piece).

Lemma entries_cover : snapshot_ok base s ps → ∀ p c sl e,
  p ∈ ps → c ∈ piece_chars p → sl ∈ map entry_key (elements (snapshot_insertion_slices s)) → covers e c sl →
  ∃ i, i ∈ elements (insertions s) ∧ in_slice sl i ∧ insertion_fragment_id i = fragment_id p.1.
Proof.
  intros Hok p c sl e Hp Hc Hsl (_&Et&Hlo&Hhi). exists (insertion_fragment_new p.1).
  pose proof (snapshot_document _ _ _ Hok) as [Hps _ _]. destruct Hok as [_ _ _ _ _ Hap (_&_&Hperm) _ Hstarts].
  rewrite Forall_forall in Hstarts. split; [rewrite Hperm, elem_map; exists p.1; split; [done|by apply list_elem_of_fmap; exists p]|].
  split; [|done].
  assert (Ec : char_timestamp c = fragment_timestamp p.1 ∧ N.to_nat (insertion_offset p.1) ≤ char_offset c).
  { unfold piece_chars in Hc. revert Hc. generalize (N.to_nat (insertion_offset p.1)). clear. induction p.2 as [|z t IH]; intros o; cbn [run].
    - by intros ?%not_elem_of_nil.
    - intros [->|Hc]%elem_of_cons; [done|]. destruct (IH _ Hc). split; [done|lia]. }
  destruct Ec as [Ets Eoff]. split; [cbn; congruence|]. cbn. split; [|lia].
  eapply (slice_start_before ps p sl c); try done. by apply Hstarts.
Qed.

(** [fragment_ids_for_edits] returns, in order, locators of fragments, among
    them those of all fragments whose characters the edits inserted or
    deleted. *)
Lemma fragment_ids_at edits :
  snapshot_ok base s ps → snapshot_room s →
  ∃ ids, fragment_ids_for_edits s edits = Some ids ∧ StronglySorted (λ a b, cmp a b = Lt) ids ∧
    (∀ id, id ∈ ids → id ∈ map fragment_id (map fst ps)) ∧
    ∀ p c e sl, p ∈ ps → c ∈ piece_chars p → e ∈ edits → sl ∈ map entry_key (elements (snapshot_insertion_slices s)) →
      covers e c sl → fragment_id p.1 ∈ ids.
Proof.
  intros Hok Hroom. pose proof (entries_cover Hok) as Hcover. pose proof Hok as [_ _ Hdoc _ _ _ [[hi Hiw] [His Hperm]] [[hs Hsw] Hss] Hstarts].
  pose proof Hroom as (_&Hi&Hsl&_).
  assert (Hm : map_inv (snapshot_insertion_slices s) (elements (snapshot_insertion_slices s))).
  { split; [done|]. split; [done|]. exists hs. split; [done|]. by rewrite (wf_height _ _ _ Hsw) in Hsl. }
  unfold fragment_ids_for_edits.
  assert (Hmap : ∃ r, mapM (slices_for_edit (snapshot_insertion_slices s)) edits = Some r ∧
    ∀ sl, sl ∈ concat r ↔ sl ∈ map entry_key (elements (snapshot_insertion_slices s)) ∧ slice_edit_id sl ∈ edits).
  { clear Hcover. induction edits as [|e es IH]; [exists []; split; [done|]; intros sl; split; [by intros ?%not_elem_of_nil|by intros [_ ?%not_elem_of_nil]]|].
    destruct (slices_for_edit_spec _ _ e Hm) as (r&Er&Hr). destruct IH as (rs&Ers&Hrs).
    exists (r :: rs). cbn [mapM]. rewrite Er. cbn [mbind option_bind]. rewrite Ers. cbn [mbind option_bind concat]. split; [done|].
    intros sl. rewrite elem_of_app, Hr, Hrs, elem_of_cons. naive_solver. }
  destruct Hmap as (r&->&Hr). cbn [mbind option_bind].
  destruct (sort_ok slice_sort_key (concat r)) as [Hp Hsort]. set (ss := sort_unstable_by_key slice_sort_key (concat r)) in *.
  assert (Hss' : ∀ sl, sl ∈ ss → sl ∈ map entry_key (elements (snapshot_insertion_slices s))).
  { intros sl Hin. rewrite Hp in Hin. by apply Hr in Hin as [? _]. }
  assert (Hc0 : search_at (elements (insertions s)) (cursor_new (insertions s) ()) [] (elements (insertions s)) []).
  { split; [|by right|done|done]. apply (cursor_at_new _ _ hi); [done|]. by rewrite (wf_height _ _ _ Hiw) in Hi. }
  destruct (slice_steps_at _ His ss _ _ _ _ Hc0) as (c&a&E&Hsub&_&Hcov).
  { eapply StronglySorted_impl; [|exact Hsort]. exact slice_key_order. }
  { apply Forall_forall. intros sl Hin. split; [|constructor]. rewrite Forall_forall in Hstarts.
    destruct (proj1 (elem_map _ _ _) (Hstarts sl (Hss' sl Hin))) as (f&Ef&(p&->&Hp')%elem_map). injection Ef as -> _.
    destruct Hdoc as [Hok' _ _]. rewrite Forall_forall in Hok'. destruct (Hok' p Hp') as (_&_&_&_&Hpos). intros E. rewrite E in Hpos. cbn in Hpos. lia. }
  cbn [map] in E. rewrite E. cbn [mbind option_bind].
  destruct (sort_ok (λ id : Locator, id) (map insertion_fragment_id a)) as [Hpi Hsi].
  eexists. split; [reflexivity|].
  assert (Hids : map insertion_fragment_id (elements (insertions s)) ≡ₚ map fragment_id (map fst ps)).
  { rewrite Hperm, <- list_fmap_compose. done. }
  split; [|split].
  - apply sorted_strict; [exact Hsi|]. rewrite Hpi. eapply sublist_NoDup; [|by apply sublist_map; exact Hsub].
    rewrite Hids. destruct Hdoc as [_ Hids' _]. by eapply ids_NoDup.
  - intros id Hin. rewrite Hpi in Hin. rewrite <- Hids. apply elem_map in Hin as (i&->&Hin). apply elem_map. exists i.
    split; [done|]. by eapply elem_of_sublist.
  - intros p c' e sl Hp' Hc' He Hsl' Hcs. destruct (Hcover p c' sl e) as (i&Hi'&Hin&Eid); try done.
    rewrite <- Eid, Hpi. apply elem_map. exists i. split; [done|]. apply (Hcov sl); [|done|done].
    rewrite Hp, Hr. split; [done|]. by destruct Hcs as (->&_).
Qed.
End ids.

#[local] Existing Instances UndoMapFacts.UndoMapKey_OrdLaws UndoMapFacts.UndoMapEntry_KeyedLaws.

(** ** Where the loop is *)

Abbreviation UndoDim := (option Locator * nat)%type (only parsing).
Abbreviation UndoCursor := (Cursor Fragment FragmentSummary UndoDim (option Global)) (only parsing).

Definition undo_position (l : list Piece) : UndoDim :=
  (match list.last l with Some p => Some (fragment_id p.1) | None => None end, blen (codes true (flatten l))).

Section seek.
Context (ps : list Piece) (Hps : Forall piece_ok ps) (Hids : ids_from Locator_min (map fst ps)).
Implicit Types (l k a b : list Piece).

Lemma undo_position_piece l p : piece_ok p →
  dim_add_summary (undo_position l) (item_summary_of p.1 None) None = undo_position (l ++ [p]).
Proof.
  intros (_&_&Hlen&_). unfold undo_position. rewrite last_snoc, flatten_snoc, codes_app, RopeCursor.blen_app, codes_piece.
  cbn [dim_add_summary prod_Dimension Locator_Dimension usize_Dimension fst snd]. change (item_summary_of p.1 None) with (Fragment_Item p.1 None). unfold Fragment_Item. cbn [max_id text].
  destruct (visible p.1); cbn [text_visible].
  - by rewrite bool_decide_eq_true_2, Hlen, Nat2N.id.
  - by rewrite bool_decide_eq_false_2.
Qed.

Lemma undo_position_pieces l k : Forall piece_ok k → dsum (@None Global) (undo_position l) (map fst k) = undo_position (l ++ k).
Proof.
  revert l. induction k as [|p k IH]; intros l Hok; [by rewrite app_nil_r|]. apply Forall_cons in Hok as [Hp Hok].
  cbn [map]. change (dsum (@None Global) (undo_position l) (p.1 :: map fst k)) with
    (dsum (@None Global) (dim_add_summary (undo_position l) (item_summary_of p.1 None) None) (map fst k)).
  rewrite undo_position_piece, IH by done. by rewrite <- app_assoc.
Qed.

Lemma undo_position_sum l k : Forall piece_ok k → k ≠ [] →
  dim_add_summary (undo_position l) (isum None (map fst k)) None = undo_position (l ++ k).
Proof.
  intros Hok Hne. unfold undo_position. cbn [dim_add_summary prod_Dimension Locator_Dimension usize_Dimension fst snd].
  rewrite isum_text, isum_max_id by done. destruct k as [|p k _] using rev_ind; [done|].
  rewrite app_assoc, last_snoc, map_app. cbn [map text_visible]. rewrite last_snoc, <- app_assoc. by rewrite (flatten_app l), codes_app, RopeCursor.blen_app.
Qed.

Lemma stops_id id l : stops (@None Global) (Some id) Left (undo_position l) = true ↔
  match list.last l with Some p => cmp id (fragment_id p.1) ≠ Gt | None => False end.
Proof.
  unfold stops, target_in_child, target_cmp, fst_SeekTarget, target_cmp, Ord_SeekTarget, undo_position. cbn [fst].
  destruct (list.last l) as [p|]; cbn; [|done]. change (cmp (Some id) (Some (fragment_id p.1))) with (cmp id (fragment_id p.1)).
  by destruct (cmp id (fragment_id p.1)).
Qed.

Lemma ids_sorted a p b q c : ps = a ++ p :: b ++ q :: c → cmp (fragment_id p.1) (fragment_id q.1) = Lt.
Proof.
  intros E. rewrite E, map_app in Hids. apply ids_from_app in Hids as [_ H]. cbn [map ids_from] in H. destruct H as (_&_&H).
  apply ids_above in H. rewrite map_app in H. apply Forall_app in H as [_ [H _]%Forall_cons]. exact H.
Qed.

(** The slice up to a fragment that is ahead. *)
Lemma slice_to (c : UndoCursor) l1 p k l2 :
  ps = l1 ++ k ++ p :: l2 → cursor_at c (map fst l1) (map fst (k ++ p :: l2)) → cursor_cx c = None →
  ∃ c' t h, slice c (Some (fragment_id p.1)) Left = Some (c', t) ∧ cursor_at c' (map fst (l1 ++ k)) (map fst (p :: l2)) ∧
    cursor_cx c' = None ∧ did_seek c' = true ∧ wf None h t ∧ elements t = map fst k.
Proof.
  intros E Hc Ecx. pose proof Hps as Hok. rewrite E in Hok. apply Forall_app in Hok as [Hok1 Hok2].
  assert (Hpos : position c = undo_position l1).
  { destruct Hc as (h&_&_&Hp&_). rewrite Hp, Ecx. by apply (undo_position_pieces [] l1). }
  destruct (seek_cut c (Some (fragment_id p.1)) Left (map fst (k ++ p :: l2))) as [fa fb] eqn:Ecut.
  assert (Hcut : fa = map fst k ∧ fb = map fst (p :: l2)).
  { unfold seek_cut in Ecut. rewrite Hpos, Ecx in Ecut. apply seek_split_cut in Ecut as (Eab&Ha&Hb).
    destruct (map_split _ _ _ Eab) as (ka&kb&Ek&->&->). clear Eab.
    assert (Hka : Forall piece_ok ka). { rewrite Ek, Forall_app in Hok2. apply Hok2. }
    assert (Hkb : Forall piece_ok kb). { rewrite Ek, Forall_app in Hok2. apply Hok2. }
    rewrite undo_position_pieces in Ha by done.
    apply app_eq_inv in Ek as [(z&->&->)|(z&->&Ez)].
    - destruct z as [|q z]; [by rewrite !app_nil_r|]. exfalso. specialize (Hb q.1 (map fst (z ++ p :: l2)) eq_refl).
      change [q.1] with (map fst [q]) in Hb. rewrite <- map_app, undo_position_pieces in Hb.
      2: { apply Forall_app. split; [done|]. apply Forall_singleton. by apply Forall_cons in Hkb as [? _]. }
      apply stops_id in Hb. rewrite app_assoc, last_snoc in Hb. apply Hb.
      rewrite (cmp_antisym (fragment_id q.1)), (ids_sorted (l1 ++ ka) q z p l2); [done|]. by rewrite E, <- !app_assoc.
    - destruct z as [|q z]; [rewrite app_nil_r; cbn in Ez; by subst kb|]. injection Ez as <- Ez. exfalso.
      assert (Hs : stops (@None Global) (Some (fragment_id p.1)) Left (undo_position (l1 ++ k ++ p :: z)) = true).
      { apply stops_id. rewrite app_assoc, last_app. destruct (list.last (p :: z)) as [x|] eqn:El; [|by apply last_None in El].
        destruct z as [|y z _] using rev_ind; [injection El as <-; by rewrite cmp_refl|].
        rewrite app_comm_cons, last_snoc in El. injection El as <-. rewrite <- app_assoc in Ez. cbn in Ez. 
        rewrite (ids_sorted (l1 ++ k) p z y kb); [done|]. by rewrite E, Ez, <- !app_assoc. }
      rewrite Ha in Hs; [done|]. rewrite map_app. by destruct (map fst k). }
  destruct Hcut as [-> ->].
  destruct (slice_spec c (Some (fragment_id p.1)) Left (map fst l1) (map fst (k ++ p :: l2)) (map fst k) (map fst (p :: l2)) Hc) as (c'&t&h&Esl&(_&Ecx'&Hd)&Hc'&Hwf&El); [|exact Ecut|].
  2: { exists c', t, h. rewrite map_app. rewrite Ecx in Hwf. rewrite Ecx in Ecx'. by split_and!. }
  split; rewrite Hpos, ?Ecx.
  - change (target_cmp (Some (fragment_id p.1)) (undo_position l1) None) with (cmp (Some (fragment_id p.1)) (undo_position l1).1).
    unfold undo_position. cbn [fst]. destruct (list.last l1) as [x|] eqn:El; [|done]. apply last_snoc_inv in El as (l&->).
    change (cmp (fragment_id p.1) (fragment_id x.1) ≠ Lt).
    rewrite (cmp_antisym (fragment_id x.1)), (ids_sorted l x k p l2); [done|]. by rewrite E, <- app_assoc.
  - split.
    + intros a b d Eabd Ha. destruct (map_split _ _ _ Eabd) as (a'&bd&Ek&->&E2). symmetry in E2.
      destruct (map_split _ _ _ E2) as (b'&d'&->&->&->). rewrite Ek, !Forall_app in Hok2. destruct Hok2 as (Hoka&Hokb&_).
      rewrite <- map_app, !undo_position_pieces by (done || by apply Forall_app). rewrite !stops_id.
      destruct a' as [|x a' _] using rev_ind; [done|]. rewrite app_assoc, last_snoc. intros Hx.
      destruct b' as [|y b' _] using rev_ind; [by rewrite app_nil_r, app_assoc, last_snoc|]. rewrite !app_assoc, last_snoc.
      assert (Hxy : cmp (fragment_id x.1) (fragment_id y.1) = Lt).
      { apply (ids_sorted (l1 ++ a') x b' y d'). rewrite E, Ek, <- !app_assoc. done. }
      eapply cmp_le_trans; [exact Hx|]. by rewrite Hxy.
    + intros a b d Eabd Hb _. destruct (map_split _ _ _ Eabd) as (a'&bd&Ek&->&E2). symmetry in E2.
      destruct (map_split _ _ _ E2) as (b'&d'&->&->&->). rewrite Ek, !Forall_app in Hok2. destruct Hok2 as (Hoka&Hokb&_).
      rewrite <- map_app, !undo_position_pieces by (done || by apply Forall_app). rewrite undo_position_sum, app_assoc; [done|done|by destruct b'].
Qed.
End seek.

(** ** The loop *)

Definition piece_id (p : Piece) : Locator := fragment_id p.1.

(** A character of the piece, by what matters for its visibility. *)
Definition piece_char (p : Piece) : Char := mkChar (fragment_timestamp p.1) 0 0 true (deletions p.1).

(** The piece after its turn. *)
Definition reshown (us : list UndoOperation) (t : Lamport) (p : Piece) : Piece :=
  (set_visible p.1 (shows us (piece_char p)) t, p.2).

Lemma shows_like us c d : char_timestamp c = char_timestamp d → char_deletions c = char_deletions d → shows us c = shows us d.
Proof. intros Et Ed. unfold shows. by rewrite Et, Ed. Qed.

Lemma reshown_chars us t p : piece_chars (reshown us t p) = map (show us) (piece_chars p).
Proof.
  unfold piece_chars, reshown. cbn [fst snd set_visible fragment_timestamp visible deletions insertion_offset].
  generalize (N.to_nat (insertion_offset p.1)). induction p.2 as [|z l IH]; intros o; [done|]. cbn [run map]. by rewrite IH.
Qed.

Lemma allM_forallb {A} (f : A → option bool) (g : A → bool) l : (∀ a, f a = Some (g a)) → allM f l = Some (forallb g l).
Proof. intros E. induction l as [|a l IH]; [done|]. cbn [allM forallb]. rewrite E. cbn [mbind option_bind]. by destruct (g a). Qed.

Lemma is_visible_shows us m f c :
  UndoMapFacts.undo_inv us m → height m < STACK_CAPACITY →
  char_timestamp c = fragment_timestamp f → char_deletions c = deletions f → is_visible f m = Some (shows us c).
Proof.
  intros Hm Hh Et Ed. unfold is_visible, shows. destruct (UndoMapFacts.inv_counts us m (fragment_timestamp f) Hm Hh) as (_&->&_).
  cbn [mbind option_bind]. rewrite Et, Ed. unfold undone at 1. destruct (_ =? 1)%N; [done|].
  apply allM_forallb. intros d. by destruct (UndoMapFacts.inv_counts us m d Hm Hh) as (_&->&_).
Qed.

Section loop.
Context {ps : list Piece} (Hps : Forall piece_ok ps) (Hids : ids_from Locator_min (map fst ps)) (us : list UndoOperation)
  {m : UndoMap} (Hm : UndoMapFacts.undo_inv us m) (Hh : height m < STACK_CAPACITY) (t : Lamport) (all : list Locator).
Implicit Types (before after N k : list Piece) (st : UndoSplice).

(** Pieces that are not visited stay as they are. *)
Definition turned (p q : Piece) : Prop := q = p ∧ piece_id p ∉ all ∨ q = reshown us t p.

Record undo_at st before after N : Prop := {
  undo_split : ps = before ++ after;
  undo_cursor : cursor_at (undo_old_fragments st) (map fst before) (map fst after) ∧ cursor_cx (undo_old_fragments st) = None;
  undo_tree : (∃ h, wf None h (undo_new_fragments st)) ∧ elements (undo_new_fragments st) = map fst N;
  undo_texts : ropes_at (undo_ropes st) (λ v, codes v (flatten before)) (λ v, codes v (flatten after)) (λ v, codes v (flatten N));
  undo_patch : PatchFacts.patches (undo_edits st) (bytes_of (codes true (flatten before))) (bytes_of (codes true (flatten N)));
  undo_turned : Forall2 turned before N
}.

Lemma turned_ok p q : piece_ok p → turned p q → piece_ok q.
Proof. by intros Hp [[-> _]| ->]. Qed.

Lemma turned_all_ok before N : Forall piece_ok before → Forall2 turned before N → Forall piece_ok N.
Proof. intros Hok Ht. induction Ht as [|p q before N Hpq _ IH]; [done|]. apply Forall_cons in Hok as [Hp Hok]. constructor; [by eapply turned_ok|by apply IH]. Qed.

Lemma undo_step_at st before k p after N :
  undo_at st before (k ++ p :: after) N → Forall (λ q, piece_id q ∉ all) k →
  ∃ st', undo_step m t st (piece_id p) = Some st' ∧ undo_at st' (before ++ k ++ [p]) after (N ++ k ++ [reshown us t p]).
Proof.
  intros [Eps [Hc Ecx] [[h Hwf] El] Hr Hpatch Hturn] Hk. pose proof Hps as Hok. rewrite Eps, !Forall_app in Hok.
  destruct Hok as (Hokb&Hokk&Hokp). apply Forall_cons in Hokp as [Hp Hoka].
  assert (HokN : Forall piece_ok N) by by apply (turned_all_ok before).
  unfold undo_step. destruct (slice_to ps Hps Hids (undo_old_fragments st) before p k after Eps Hc Ecx) as (c&pre&hp&Esl&Hc'&Ecx'&Hd&Hwfp&Elp).
  unfold piece_id. rewrite Esl. cbn [mbind option_bind].
  assert (Et : text (SumTree.summary pre) = mkFragmentText (blen (codes true (flatten k))) (blen (codes false (flatten k)))).
  { rewrite (wf_summary _ _ _ Hwfp), Elp. by apply isum_text. }
  destruct (ropes_append_at (undo_ropes st) _ _ _ (λ v, codes v (flatten (before ++ k))) (λ v, codes v (flatten (p :: after)))
    (λ v, codes v (flatten (N ++ k))) (text (SumTree.summary pre)) (λ v, codes v (flatten k)) Hr) as (ropes&->&Hr1).
  1-2: by rewrite Et.
  1-3: intros v; by rewrite flatten_app, codes_app.
  cbn [mbind option_bind].
  destruct (append_wf None h (undo_new_fragments st) hp pre Hwf Hwfp) as (new&hn&->&Hwfn&_&Eln). cbn [mbind option_bind].
  rewrite (item_at _ _ _ Hc' Hd). cbn [mbind option_bind map head].
  rewrite (is_visible_shows us m p.1 (piece_char p) Hm Hh) by done. cbn [mbind option_bind].
  set (v := shows us (piece_char p)).
  rewrite flatten_cons in Hr1.
  destruct (ropes_emit ropes (flatten (before ++ k)) (flatten after) (N ++ k) (set_visible p.1 v t) p.2 (visible p.1) (deletions p.1)
    (N.to_nat (insertion_offset p.1)) Hr1) as (rb&->&Hrb); [exact Hp|]. cbn [mbind option_bind].
  destruct (push_wf None hn new (set_visible p.1 v t)) as (new'&hn'&->&Hwf'&_&El'); [done|]. cbn [mbind option_bind].
  destruct (next_spec c _ _ (map fst ((before ++ k) ++ [p])) (map fst after) Hc') as (c2&->&(_&Ecx2&_)&Hc2).
  { unfold pending. rewrite Hd. by rewrite (map_app fst (before ++ k) [p]). }
  cbn [mbind option_bind]. eexists. split; [reflexivity|].
  assert (Eold : (start c).2 = blen (codes true (flatten (before ++ k)))).
  { destruct Hc' as (h'&_&_&Hp'&_). unfold start. rewrite Hp', Ecx'. change (dim_zero None) with (undo_position []).
    rewrite (undo_position_pieces [] (before ++ k)) by by apply Forall_app. done. }
  assert (Enew : text_visible (text (SumTree.summary new)) = blen (codes true (flatten (N ++ k)))).
  { rewrite (wf_summary _ _ _ Hwfn), Eln, El, Elp, <- map_app, isum_text; [done|]. by apply Forall_app. }
  rewrite !app_assoc. split; cbn [undo_old_fragments undo_new_fragments undo_ropes undo_edits].
  - by rewrite Eps, <- !app_assoc.
  - by rewrite Ecx2.
  - split; [by exists hn'|]. by rewrite El', Eln, El, Elp, !map_app.
  - rewrite (flatten_snoc (before ++ k)). exact Hrb.
  - assert (Hpatch1 : PatchFacts.patches (undo_edits st) (bytes_of (codes true (flatten (before ++ k)))) (bytes_of (codes true (flatten (N ++ k))))).
    { rewrite !flatten_app, !codes_app, !bytes_of_app. by apply patches_keep. }
    rewrite !(flatten_snoc _ _), !codes_app, !bytes_of_app, !codes_piece. cbn [reshown fst snd set_visible visible]. fold v.
    destruct Hp as (_&_&Hlen&_). change (fragment_len (set_visible p.1 v t)) with (fragment_len p.1). rewrite Eold, Enew, Hlen, Nat2N.id.
    pose proof (λ o n, PatchFacts.applies_push (undo_edits st) _ _ o n Hpatch1) as Hpush. unfold PatchFacts.edit_at in Hpush.
    destruct (visible p.1), v; cbn [negb andb]; rewrite ?(bool_decide_eq_true_2 (true = true)), ?(bool_decide_eq_false_2 (false = true)) by done.
    + by apply patches_keep.
    + specialize (Hpush (bytes_of p.2) []). cbn [length] in Hpush. rewrite Nat.add_0_r in Hpush. exact Hpush.
    + specialize (Hpush [] (bytes_of p.2)). cbn [length] in Hpush. rewrite Nat.add_0_r in Hpush. exact Hpush.
    + by rewrite !app_nil_r.
  - apply Forall2_app; [apply Forall2_app; [done|]|by constructor; [right|]].
    clear -Hk. induction Hk; constructor; [by left|done].
Qed.

Lemma undo_steps_at rest : ∀ done_ st before after N,
  undo_at st before after N → all = done_ ++ rest → StronglySorted (λ a b, cmp a b = Lt) rest →
  (∀ id, id ∈ done_ → id ∈ map piece_id before) → (∀ id, id ∈ rest → id ∈ map piece_id after) →
  ∃ st' before' after' N', foldlM (undo_step m t) st rest = Some st' ∧ undo_at st' before' after' N' ∧
    ∀ id, id ∈ all → id ∈ map piece_id before'.
Proof.
  induction rest as [|id rest IH]; intros done_ st before after N Hat Eall Hsort Hdone Hrest; cbn [foldlM].
  { exists st, before, after, N. split; [done|]. split; [done|]. rewrite Eall, app_nil_r. exact Hdone. }
  destruct (proj1 (elem_map _ _ _) (Hrest id ltac:(by left))) as (p&->&(k&l2&->)%list_elem_of_split).
  inversion Hsort as [|? ? Hsort' Hlt]. rewrite Forall_forall in Hlt.
  pose proof (undo_split _ _ _ _ Hat) as Eps.
  assert (Hnd : NoDup (map piece_id before ++ map piece_id k ++ piece_id p :: map piece_id l2)).
  { pose proof (ids_NoDup _ _ Hids) as Hnd. rewrite Eps, !map_app in Hnd. rewrite <- !list_fmap_compose in Hnd. exact Hnd. }
  assert (Hbefore : ∀ q, q ∈ k → cmp (piece_id q) (piece_id p) = Lt).
  { intros q (k1&k2&->)%list_elem_of_split. apply (ids_sorted ps Hids (before ++ k1) q k2 p l2). by rewrite Eps, <- !app_assoc. }
  assert (Hk : Forall (λ q, piece_id q ∉ all) k).
  { rewrite Eall. apply Forall_forall. intros q Hq [Hin|[E|Hin]%elem_of_cons]%elem_of_app.
    - apply Hdone in Hin. apply NoDup_app in Hnd as (_&Hnd&_). apply (Hnd _ Hin). rewrite elem_of_app. left. apply elem_map. by exists q.
    - specialize (Hbefore q Hq). by rewrite E, cmp_refl in Hbefore.
    - specialize (Hlt _ Hin). specialize (Hbefore q Hq). pose proof (cmp_lt_trans _ _ _ Hbefore Hlt) as E. by rewrite cmp_refl in E. }
  destruct (undo_step_at st before k p l2 N Hat Hk) as (st1&->&Hat1). cbn [mbind option_bind].
  destruct (IH (done_ ++ [piece_id p]) st1 (before ++ k ++ [p]) l2 (N ++ k ++ [reshown us t p]) Hat1) as (st2&before2&after2&N2&E2&Hat2&Hall2).
  - by rewrite <- app_assoc.
  - done.
  - intros x [Hx| ->%list_elem_of_singleton]%elem_of_app; rewrite !map_app, !elem_of_app; [left; by apply Hdone|]. right. right. cbn. by left.
  - intros x Hx. specialize (Hrest x ltac:(by right)). rewrite map_app, elem_of_app in Hrest. specialize (Hlt x Hx).
    destruct Hrest as [(q&->&Hq)%elem_map|Hrest].
    + specialize (Hbefore q Hq). pose proof (cmp_lt_trans _ _ _ Hbefore Hlt) as E. by rewrite cmp_refl in E.
    + cbn [map] in Hrest. apply elem_of_cons in Hrest as [->|?]; [by rewrite cmp_refl in Hlt|done].
  - exists st2, before2, after2, N2. by split_and!.
Qed.
End loop.

(** ** [apply_undo] *)

Section undo.
Context `{SortOk} {base : Lamport → Prop} (s : BufferSnapshot) (ps : list Piece) (us : list UndoOperation) (u : UndoOperation).

(** What an undo relies on: the undo map holds the operations [us], the cached
    visibility is what they say, the operation names edits of the buffer and is
    not another one with a timestamp of [us], and the new map fits the stacks. *)
Record undo_ok_at : Prop := {
  undo_snapshot : snapshot_ok base s ps;
  undo_room : snapshot_room s;
  undo_known : UndoMapFacts.undo_inv us (undo_map s) ∧ height (undo_map s) < STACK_CAPACITY;
  undo_consistent : UndoMapFacts.consistent (u :: us);
  undo_coherent : coherent (mkDoc us (flatten ps));
  undo_not_base : Forall (λ c, ¬ base c.1) (counts u);
  undo_new_room : ∀ m, UndoMap.insert sort_edits (undo_map s) u = Some m → height m < STACK_CAPACITY
}.

(** Characters that the operation does not name stay as they are. *)
Lemma shows_unnamed c :
  count_for (char_timestamp c) u = None → Forall (λ d, count_for d u = None) (char_deletions c) → shows (u :: us) c = shows us c.
Proof.
  intros Ht Hd. unfold shows. assert (E : ∀ e, count_for e u = None → undone (λ _, true) (u :: us) e = undone (λ _, true) us e).
  { intros e He. unfold undone. by rewrite UndoMapFacts.greatest_cons, He, N.max_0_l. }
  rewrite E by done. f_equal. induction Hd as [|d ds Hd _ IH]; [done|]. cbn. by rewrite E, IH.
Qed.

Lemma show_named c :
  char_visible c = shows us c → count_for (char_timestamp c) u = None → Forall (λ d, count_for d u = None) (char_deletions c) →
  c = show (u :: us) c.
Proof. intros Hc Ht Hd. unfold show. rewrite shows_unnamed, <- Hc by done. by destruct c. Qed.

(** The pieces that are not visited are as the operation leaves them. *)
Lemma unvisited (ids : list Locator) (p : Piece) :
  undo_ok_at → (∀ p c e sl, p ∈ ps → c ∈ piece_chars p → e ∈ map fst (counts u) →
    sl ∈ map entry_key (elements (snapshot_insertion_slices s)) → covers e c sl → fragment_id p.1 ∈ ids) →
  p ∈ ps → piece_id p ∉ ids → piece_chars p = map (show (u :: us)) (piece_chars p).
Proof.
  intros Hok Hids Hp Hn. rewrite <- (map_id (piece_chars p)) at 1. apply map_ext_in. intros c Hc%list_elem_of_In.
  assert (Hin : c ∈ flatten ps). { apply list_elem_of_split in Hp as (l1&l2&->). rewrite flatten_app, flatten_cons, !elem_of_app. auto. }
  pose proof (undo_coherent Hok) as Hcoh. unfold coherent in Hcoh. rewrite Forall_forall in Hcoh. cbn [doc_chars doc_undos] in Hcoh.
  destruct (snapshot_document _ _ _ (undo_snapshot Hok)) as [_ _ Hlog]. rewrite Forall_forall in Hlog. destruct (Hlog c Hin) as [Ht Hd].
  assert (Hnone : ∀ e sl, sl ∈ map entry_key (elements (snapshot_insertion_slices s)) → covers e c sl → count_for e u = None).
  { intros e sl Hsl Hcov. destruct (count_for e u) as [n|] eqn:E; [|done]. destruct Hn. eapply Hids; try done.
    apply UndoMapFacts.count_for_Some in E; [|by destruct (undo_consistent Hok) as [[? _]%Forall_cons _]]. apply elem_map. by exists (e, n). }
  apply show_named; [by apply Hcoh| |].
  - destruct Ht as [Hb|(sl&Hsl&Hcov)]; [|by eapply Hnone]. destruct (count_for _ u) as [n|] eqn:E; [|done].
    apply UndoMapFacts.count_for_Some in E; [|by destruct (undo_consistent Hok) as [[? _]%Forall_cons _]].
    pose proof (undo_not_base Hok) as Hnb. rewrite Forall_forall in Hnb. by destruct (Hnb _ E).
  - apply Forall_forall. intros d Hdc. destruct (Hd d Hdc) as (sl&Hsl&Hcov). by eapply Hnone.
Qed.
End undo.

(** *** The pieces after the loop *)

Section turned.
Context (us : list UndoOperation) (t : Lamport) (all : list Locator).
Implicit Types (ps N : list Piece).

Lemma turned_fields ps N :
  Forall2 (turned us t all) ps N → map (λ p : Piece, (fragment_id p.1, insertion_fragment_new p.1, fragment_key p.1)) N =
    map (λ p : Piece, (fragment_id p.1, insertion_fragment_new p.1, fragment_key p.1)) ps.
Proof. induction 1 as [|p q ps N Hpq _ IH]; [done|]. cbn [map]. rewrite IH. f_equal. by destruct Hpq as [[-> _]| ->]. Qed.

Lemma turned_map {A} (f : Fragment → A) (g : Locator * InsertionFragment * InsertionFragmentKey → A) ps N :
  (∀ p, f p = g (fragment_id p, insertion_fragment_new p, fragment_key p)) → Forall2 (turned us t all) ps N →
  map f (map fst N) = map f (map fst ps).
Proof.
  intros E Ht. assert (Ef : ∀ l : list Piece, map f (map fst l) = map g (map (λ p : Piece, (fragment_id p.1, insertion_fragment_new p.1, fragment_key p.1)) l)).
  { intros l. rewrite !map_map. apply map_ext. intros p. apply E. }
  rewrite !Ef. f_equal. by apply turned_fields.
Qed.

Lemma ids_from_map lo l k : map fragment_id l = map fragment_id k → ids_from lo l → ids_from lo k.
Proof.
  revert lo k. induction l as [|f l IH]; intros lo [|g k]; try done. cbn [map ids_from]. intros [= Eg E] (Hok&Hlt&Hl).
  rewrite <- Eg. split; [done|]. split; [done|]. by apply IH.
Qed.

Lemma turned_flatten ps N :
  Forall2 (turned us t all) ps N → (∀ p, p ∈ ps → piece_id p ∉ all → piece_chars p = map (show us) (piece_chars p)) →
  flatten N = map (show us) (flatten ps).
Proof.
  intros Ht. induction Ht as [|p q ps N Hpq _ IH]; intros Hun; [done|].
  rewrite !flatten_cons, map_app, IH by (intros; apply Hun; [by right|done]). f_equal.
  destruct Hpq as [[-> Hn]| ->]; [apply Hun; [by left|done]|apply reshown_chars].
Qed.

Lemma show_apart cs : chars_apart cs → chars_apart (map (show us) cs).
Proof.
  unfold chars_apart. assert (E : map char_range (map (show us) cs) = map char_range cs) by (rewrite map_map; by apply map_ext).
  by rewrite E.
Qed.

Lemma show_logged base sl cs : Forall (logged base sl) cs → Forall (logged base sl) (map (show us) cs).
Proof. intros H. apply Forall_fmap. eapply Forall_impl; [exact H|]. intros c Hc. exact Hc. Qed.
End turned.

Section apply.
Context `{SortOk} {base : Lamport → Prop} (s : BufferSnapshot) (ps : list Piece) (us : list UndoOperation) (u : UndoOperation).

(** The loop from its start. *)
Lemma undo_loop m (ids : list Locator) cv cd :
  snapshot_ok base s ps → snapshot_room s → UndoMapFacts.undo_inv (u :: us) m → height m < STACK_CAPACITY →
  ropes_at (rope_builder_new cv cd) (λ _, []) (λ v, codes v (flatten ps)) (λ _, []) →
  StronglySorted (λ a b, cmp a b = Lt) ids → (∀ id, id ∈ ids → id ∈ map fragment_id (map fst ps)) →
  ∃ st before after N,
    foldlM (undo_step m (undo_timestamp u)) (mkUndoSplice (cursor_new (fragments s) None) (SumTree.new None) (rope_builder_new cv cd) Patch.empty) ids = Some st ∧
    undo_at (ps:=ps) (u :: us) (undo_timestamp u) ids st before after N ∧ Forall (λ p, piece_id p ∉ ids) after.
Proof.
  intros Hok Hroom Hm Hh Hr Hsort Hsub. destruct (snapshot_document _ _ _ Hok) as [Hps Hids _].
  destruct (undo_steps_at Hps Hids (u :: us) Hm Hh (undo_timestamp u) ids ids []
    (mkUndoSplice (cursor_new (fragments s) None) (SumTree.new None) (rope_builder_new cv cd) Patch.empty) [] ps [])
    as (st&before&after&N&E&Hat&Hall); try done.
  - split; cbn [undo_old_fragments undo_new_fragments undo_ropes undo_edits]; try done; try by constructor.
    + split; [by eapply snapshot_cursor|done].
    + split; [exists 0; apply wf_new|done].
  - intros id Hid. apply Hsub in Hid. by rewrite map_map in Hid.
  - exists st, before, after, N. split; [exact E|]. split; [done|]. apply Forall_forall. intros p Hp Hin.
    pose proof (undo_split _ _ _ _ _ _ _ Hat) as Eps. pose proof (ids_NoDup _ _ Hids) as Hnd.
    rewrite Eps, map_app, map_app, !map_map in Hnd. apply NoDup_app in Hnd as (_&Hnd&_). apply (Hnd _ (Hall _ Hin)).
    apply elem_map. by exists p.
Qed.

(** The rest of the document, and the snapshot that the undo leaves. *)
Lemma undo_finish m (ids : list Locator) st before after N :
  undo_ok_at (base:=base) s ps us u → 
  undo_at (ps:=ps) (u :: us) (undo_timestamp u) ids st before after N → Forall (λ p, piece_id p ∉ ids) after →
  (∀ p, p ∈ ps → piece_id p ∉ ids → piece_chars p = map (show (u :: us)) (piece_chars p)) →
  ∃ suf ropes new texts cu, suffix (undo_old_fragments st) = Some (cu, suf) ∧ ropes_append (undo_ropes st) (text (SumTree.summary suf)) = Some ropes ∧
    SumTree.append (undo_new_fragments st) suf None = Some new ∧ finish ropes = Some texts ∧
    snapshot_ok base (mkSnapshot texts.1 texts.2 new (insertions s) (snapshot_insertion_slices s) m (version s)
          (remote_id s) (snapshot_replica_id s) (line_ending s)) (N ++ after) ∧
    flatten (N ++ after) = map (show (u :: us)) (flatten ps) ∧
    PatchFacts.patches (undo_edits st) (bytes_of (codes true (flatten ps))) (bytes_of (codes true (flatten (N ++ after)))).
Proof.
  intros Hu [Eps [Hc Ecx] [[h Hwf] El] Hr Hpatch Hturn] Hafter Hun. pose proof (undo_snapshot _ _ _ _ Hu) as Hok.
  pose proof Hok as [_ _ [Hps Hids Hlog] _ _ Hap [Hiw [His Hip]] Hsl Hstarts].
  assert (Hall : Forall2 (turned (u :: us) (undo_timestamp u) ids) ps (N ++ after)).
  { rewrite Eps. apply Forall2_app; [done|]. clear -Hafter. induction Hafter; constructor; [by left|done]. }
  assert (Hflat : flatten (N ++ after) = map (show (u :: us)) (flatten ps)) by by eapply turned_flatten.
  assert (Hpsa : Forall piece_ok after) by (rewrite Eps, Forall_app in Hps; apply Hps).
  destruct (suffix_forget _ _ _ Hc) as (cu&suf&hs&Esuf&Hwfs&Els). rewrite Ecx in Hwfs.
  destruct (ropes_append_at (undo_ropes st) _ _ _ (λ v, codes v (flatten ps)) (λ _, []) (λ v, codes v (flatten (N ++ after)))
    (text (SumTree.summary suf)) (λ v, codes v (flatten after)) Hr) as (ropes&Er&Hr').
  1-2: by rewrite (wf_summary _ _ _ Hwfs), Els, isum_text.
  1: intros v; by rewrite app_nil_r.
  1: intros v; by rewrite Eps, flatten_app, codes_app.
  1: intros v; by rewrite flatten_app, codes_app.
  destruct (append_wf None h (undo_new_fragments st) hs suf Hwf Hwfs) as (new&hn&Enew&Hwfn&_&Eln).
  destruct (finish_at ropes _ _ _ Hr') as (texts&Efin&Hv&Hd). rewrite app_nil_r in Hv, Hd.
  exists suf, ropes, new, texts, cu. split; [done|]. split; [done|]. split; [done|]. split; [done|]. split; [|split; [done|]].
  - split; cbn [fragments visible_text deleted_text insertions snapshot_insertion_slices]; try done.
    + by exists hn.
    + by rewrite Eln, El, Els, map_app.
    + split.
      * eapply turned_all_ok; [exact Hps|exact Hall].
      * eapply ids_from_map; [|exact Hids]. symmetry. by apply (turned_map (u :: us) (undo_timestamp u) ids fragment_id (λ x, x.1.1)).
      * rewrite Hflat. by apply show_logged.
    + rewrite Hflat. by apply show_apart.
    + split; [done|]. split; [done|]. by rewrite (turned_map (u :: us) (undo_timestamp u) ids insertion_fragment_new (λ x, x.1.2) ps).
    + by rewrite (turned_map (u :: us) (undo_timestamp u) ids fragment_key (λ x, x.2) ps).
  - rewrite Eps, !flatten_app, !codes_app, !bytes_of_app. by apply patches_keep.
Qed.

Lemma undo_all :
  undo_ok_at (base:=base) s ps us u →
  ∃ s' ps' p, apply_undo s u = Some (s', p) ∧ snapshot_ok base s' ps' ∧
    UndoMapFacts.undo_inv (u :: us) (undo_map s') ∧ height (undo_map s') < STACK_CAPACITY ∧ version s' = version s ∧
    flatten ps' = map (show (u :: us)) (flatten ps) ∧
    PatchFacts.patches p (bytes_of (codes true (flatten ps))) (bytes_of (codes true (flatten ps'))).
Proof.
  intros Hu. pose proof Hu as [Hok Hroom [Hm Hmh] Hcons Hcoh Hnb Hnew]. unfold apply_undo.
  destruct (UndoMapFacts.insert_inv sort_edits us (undo_map s) u sort_edits_ok Hcons Hm Hmh) as (m&Em&Hm'). specialize (Hnew _ Em).
  rewrite Em. cbn [mbind option_bind].
  destruct (snapshot_ropes base s ps Hok Hroom) as (cv&cd&->&->&Hr). cbn [mbind option_bind].
  destruct (fragment_ids_at (base:=base) s ps (map fst (counts u)) Hok Hroom) as (ids&->&Hsort&Hsub&Hcov). cbn [mbind option_bind].
  destruct (undo_loop m ids cv cd) as (st&before&after&N&->&Hat&Hafter); try done. cbn [mbind option_bind].
  destruct (undo_finish m ids st before after N Hu Hat Hafter) as (suf&ropes&new&texts&cu&->&Er&En&Ef&Hok'&Hflat&Hpatch).
  { intros p. by eapply unvisited. }
  cbn [mbind option_bind]. rewrite Er. cbn [mbind option_bind]. rewrite En. cbn [mbind option_bind]. rewrite Ef. cbn [mbind option_bind].
  eexists _, (N ++ after), _. split; [reflexivity|]. split; [exact Hok'|]. by split.
Qed.
End apply.

(** ** Undos *)

Section properties.
Context `{SortOk} {base : Lamport → Prop}.

(** C12: An undo operation succeeds and keeps the invariant of the snapshot:
    every character is then visible exactly when the undo operations received,
    this one among them, leave its insertion done and its deletions undone, and
    nothing else of the document changes.  The fragments found through the
    index of insertions are therefore all those the operation concerns. *)
Theorem undo_refines s ps us u :
  undo_ok_at (base:=base) s ps us u →
  ∃ s' ps' p, apply_undo s u = Some (s', p) ∧ snapshot_ok base s' ps' ∧
    flatten ps' = map (show (u :: us)) (flatten ps).
Proof.
  intros Hok. destruct (undo_all s ps us u Hok) as (s'&ps'&p&E&Hs'&_&_&_&Ef&_). by exists s', ps', p.
Qed.

(** C15: The patch that an undo publishes turns the visible text from before the
    undo into the visible text after it. *)
Theorem undo_publishes s ps us u :
  undo_ok_at (base:=base) s ps us u →
  ∃ s' text' p, apply_undo s u = Some (s', p) ∧ RopeTree.rope_text text' (visible_text s') ∧
    PatchFacts.patches p (bytes_of (codes true (flatten ps))) (bytes_of text').
Proof.
  intros Hok. destruct (undo_all s ps us u Hok) as (s'&ps'&p&E&Hs'&_&_&_&_&Hp).
  exists s', (codes true (flatten ps')), p. split; [done|]. split; [by destruct Hs'|done].
Qed.
End properties.

(** *** The other replica undoes its edit of the small buffer *)

Definition small_undo : UndoOperation :=
  mkUndoOperation (mkLamport 3 9) (Global_observe other_version other_timestamp) [(other_timestamp, 1%N)].

Definition small_remote : option BufferSnapshot :=
  b ← small_buffer;
  '(s, _) ← apply_remote_edit (H:=true) (H0:=merge) (snapshot b) other_version (map full_range other_ranges) (map bytes_of other_texts) other_timestamp;
  Some s.

Definition undo_fits (s : BufferSnapshot) (u : UndoOperation) : bool :=
  match UndoMap.insert (sort_edits (H:=merge)) (undo_map s) u with Some m => height m <? STACK_CAPACITY | None => true end.

Lemma undo_fits_spec s u m :
  undo_fits s u = true → UndoMap.insert (sort_edits (H:=merge)) (undo_map s) u = Some m → height m < STACK_CAPACITY.
Proof. unfold undo_fits. intros H E. rewrite E in H. by apply Nat.ltb_lt. Qed.

Lemma small_undo_ok :
  ∃ s ps, small_remote = Some s ∧ undo_ok_at (H:=merge) (base:=is_base) s ps [] small_undo ∧
    flatten ps = apply_edits (obs other_version) (was_shown undo_map_default other_version) other_timestamp 0
      (zip other_ranges other_texts) (run base_timestamp true [] 0 small_text).
Proof.
  destruct small_buffer_ok as (b&ps&E&Hs&Hr&_&Ef). pose proof (small_undos b E) as Hu.
  destruct (remote_edit_all (H:=true) (H0:=merge) (H1:=merge_ok) _ _ _ _ _ _ (small_remote_ok b ps Hs Hr Hu Ef))
    as (s&ps'&p&Ea&Hs'&Eu&_&_&Ed).
  assert (Esm : small_remote = Some s).
  { unfold small_remote. rewrite E. cbn [mbind option_bind]. rewrite Ea. reflexivity. }
  assert (Em : undo_map (snapshot b) = undo_map_default).
  { assert (H : (undo_map ∘ snapshot) <$> small_buffer = Some undo_map_default) by (vm_compute; reflexivity).
    rewrite E in H. change (Some (undo_map (snapshot b)) = Some undo_map_default) in H. congruence. }
  assert (Hroom : (λ s, roomy s && undo_fits s small_undo) <$> small_remote = Some true) by (vm_compute; reflexivity).
  rewrite Esm in Hroom. change (Some (roomy s && undo_fits s small_undo) = Some true) in Hroom. injection Hroom as [Hroom Hfit]%andb_true_iff.
  rewrite Em, Ef in Ed. exists s, ps'. split; [exact Esm|]. split; [|exact Ed]. split.
  - exact Hs'.
  - by apply roomy_spec.
  - rewrite Eu, Em. split; [|compute; lia]. exists [], 0. split_and!; [reflexivity|constructor|apply wf_new|].
    intros i. split; [intros []%not_elem_of_nil|intros (?&?&[]%not_elem_of_nil&_)].
  - split; [apply Forall_singleton, NoDup_singleton|]. intros a c' ->%list_elem_of_singleton ->%list_elem_of_singleton. reflexivity.
  - rewrite Ed. vm_compute. repeat constructor.
  - repeat constructor. discriminate.
  - intros m. by apply undo_fits_spec.
Qed.

Lemma undo_refines_witness :
  ∃ s ps ps' s' p, small_remote = Some s ∧ apply_undo (H:=merge) s small_undo = Some (s', p) ∧
    flatten ps' = map (show [small_undo]) (flatten ps) ∧ codes true (flatten ps') = small_text.
Proof.
  destruct small_undo_ok as (s&ps&E&Hok&Ef). 
  destruct (undo_refines (H:=merge) (H0:=merge_ok) _ _ _ _ Hok) as (s'&ps'&p&Ea&_&Ed).
  exists s, ps, ps', s', p. split; [exact E|]. split; [exact Ea|]. split; [exact Ed|]. rewrite Ed, Ef. vm_compute. reflexivity.
Defined.

Lemma undo_publishes_witness :
  ∃ s s' p text', small_remote = Some s ∧ apply_undo (H:=merge) s small_undo = Some (s', p) ∧
    RopeTree.rope_text text' (visible_text s').
Proof.
  destruct small_undo_ok as (s&ps&E&Hok&_).
  destruct (undo_publishes (H:=merge) (H0:=merge_ok) _ _ _ _ Hok) as (s'&text'&p&Ea&Ht&_).
  exists s, s', p, text'. split; [exact E|]. split; [exact Ea|exact Ht].
Defined.
