(* ===== verification/Replicas.v ===== *)
(** Replicas: a buffer that edits, undoes and receives operations of others.

    [replica_at b d]: the buffer [b] holds the document [d].  [apply_op] does
    to the document what [doc_apply] says, and so does the replica's own edit
    ([buffer_edit]), whose operation the others receive. *)

From stdpp Require Import base numbers option list gmap.
From S2P Require Import Prelude UndoMap TreeMap Clock Utf8 Locator SumTree SumTreeFacts Cursor Operation History Fragment Builder Splice LineEnding Snapshot Buffer Document Pieces BuilderFacts SpliceOutput SpliceWalk LocalEdit SnapshotFacts EditProps SpliceDims RemoteEdit Converge UndoApply.
From S2P Require Remote KeyedTree KeyedFacts Patch PatchFacts Subscription Rope RopeTree UndoMapFacts HistoryFacts.

#[local] Open Scope nat_scope.

(** ** Operations on the wire *)

Definition wire (o : DocOp) : Operation :=
  match o with
  | DocEdit V t es => OpEdit (mkEditOperation t V (map full_range (map fst es)) (map bytes_of (map snd es)))
  | DocUndo u => OpUndo u
  end.

Definition op_version (o : DocOp) : Global := match o with DocEdit V _ _ => V | DocUndo u => undo_version u end.

Lemma op_seen_version o t : op_seen o t = observed (op_version o) t.
Proof. done. Qed.

Lemma wire_timestamp o : timestamp (wire o) = op_timestamp o.
Proof. by destruct o. Qed.

Lemma wire_version o : operation_version (wire o) = op_version o.
Proof. by destruct o. Qed.

(** An operation by itself: it has not seen itself, its ranges are in order,
    its text is valid, and an undo names edits it has seen, each once. *)
Definition op_wf (base : Lamport → Prop) (o : DocOp) : Prop :=
  op_fresh o ∧ knows o ∧
  match o with
  | DocEdit V t es => (0 < value t)%N ∧ ranges_from 0 (map fst es) ∧ Forall (Forall char_ok) (map snd es) ∧
      fits 32 (N.of_nat (blen (concat (map snd es))))
  | DocUndo u => undo_ok u ∧ Forall (λ c, ¬ base c.1) (counts u)
  end.

(** The trees fit the stacks. *)
Definition op_room `{Sort} (b : Buffer) (op : Operation) : bool :=
  roomy (snapshot b) && (height (undo_map (snapshot b)) <? STACK_CAPACITY) &&
  match op with
  | OpEdit _ => true
  | OpUndo u =>
      match UndoMap.insert sort_edits (undo_map (snapshot b)) u with Some m => height m <? STACK_CAPACITY | None => true end
  end.

(** ** What the author saw *)

Lemma was_shown_saw us m V c :
  UndoMapFacts.undo_inv us m → height m < STACK_CAPACITY → was_shown m V c = saw us V c.
Proof.
  intros Hm Hh. unfold was_shown, saw. assert (Hc : ∀ e, was_undone m e V = Some (undone (observed V) us e)).
  { intros e. by destruct (UndoMapFacts.inv_counts us m e Hm Hh) as (_&_&->). }
  assert (E : was_visible (char_fragment c) V m = Some (saw us V c)); [|by rewrite E].
  unfold was_visible, saw, obs. cbn [char_fragment fragment_timestamp deletions].
  destruct (observed V (char_timestamp c)); [|done]. rewrite Hc. cbn [mbind option_bind].
  destruct (undone _ us (char_timestamp c)); [done|]. cbn [negb andb].
  apply allM_forallb. intros d. destruct (observed V d); cbn [negb orb]; [apply Hc|done].
Qed.

Lemma edits_ext obs was was' t es : (∀ c, was c = was' c) → ∀ o cs, apply_edits obs was t o es cs = apply_edits obs was' t o es cs.
Proof.
  intros E. induction es as [|[[s e] text] es IH]; intros o cs; [done|]. cbn [apply_edits].
  assert (Eone : edit_one obs was t o ((s, e), text) cs = edit_one obs was' t o ((s, e), text) cs); [|by rewrite Eone, IH].
  unfold edit_one. generalize (insert_at obs t s (run t true [] o text) cs) 0. clear -E.
  induction l as [|c l IH]; intros n; [done|]. cbn [delete_from]. rewrite IH. unfold strike. by rewrite E.
Qed.

Lemma undo_map_ok us m : UndoMapFacts.undo_inv us m → height m < STACK_CAPACITY → UndoMapOk m.
Proof.
  intros (l&h&El&Hs&Hwf&_) Hh. exists l. split; [done|]. split; [done|]. exists h. split; [done|]. by rewrite (wf_height _ _ _ Hwf) in Hh.
Qed.

(** ** One operation *)

Section replica.
Context `{Build, SortOk} {base : Lamport → Prop}.
Implicit Types (b : Buffer) (d : Doc) (o : DocOp).

(** The buffer holds the document; its subscriptions follow the text. *)
Record replica_at b d : Prop := {
  replica_snapshot : ∃ ps, snapshot_ok base (snapshot b) ps ∧ flatten ps = doc_chars d;
  replica_undos : UndoMapFacts.undo_inv (doc_undos d) (undo_map (snapshot b));
  replica_consistent : UndoMapFacts.consistent (doc_undos d);
  replica_coherent : coherent d;
  replica_tracks : ∃ seen, Subscription.tracks (Subscription.mkWorld (subscriptions b) (bytes_of (codes true (doc_chars d))) seen)
}.

Lemma consistent_cons u us :
  UndoMapFacts.consistent us → undo_ok u → Forall (λ v, undo_timestamp v ≠ undo_timestamp u) us →
  UndoMapFacts.consistent (u :: us).
Proof.
  intros [Hok Hu] Hu1 Hne. rewrite Forall_forall in Hne. split; [by constructor|].
  intros a c [->|Ha]%elem_of_cons [->|Hc]%elem_of_cons E; [done|by destruct (Hne c Hc)|by destruct (Hne a Ha)|by apply Hu].
Qed.

Lemma publish_at b (text text' : list Z) p seen :
  Subscription.tracks (Subscription.mkWorld (subscriptions b) text seen) → PatchFacts.patches p text text' →
  ∃ t, publish b p = Some (with_subscriptions b t) ∧ Subscription.tracks (Subscription.mkWorld t text' seen).
Proof.
  intros Ht Hp. destruct (Subscription.publish_spec _ p text' Ht Hp) as (t&E&Ht'&_). cbn in E.
  exists t. unfold publish. rewrite E. done.
Qed.

Lemma room_spec b op :
  op_room b op = true → snapshot_room (snapshot b) ∧ height (undo_map (snapshot b)) < STACK_CAPACITY.
Proof. unfold op_room. intros [[Hr Hh]%andb_true_iff _]%andb_true_iff. split; [by apply roomy_spec|by apply Nat.ltb_lt]. Qed.

(** What a received operation leaves as it was. *)
Definition same_queue b b' : Prop :=
  history b' = history b ∧ deferred_ops b' = deferred_ops b ∧ deferred_replicas b' = deferred_replicas b.

Lemma remote_edit_replica b d V t es :
  replica_at b d → op_wf base (DocEdit V t es) → op_ready (DocEdit V t es) d → unnamed (doc_undos d) t →
  op_room b (wire (DocEdit V t es)) = true →
  ∃ b', apply_remote_edit b (mkEditOperation t V (map full_range (map fst es)) (map bytes_of (map snd es))) = Some b' ∧
    replica_at b' (doc_apply (DocEdit V t es) d) ∧ version (snapshot b') = version (snapshot b) ∧ same_queue b b' ∧
    lamport_clock b' = lamport_clock b.
Proof.
  intros [(ps&Hok&Ef) Hu Hc Hcoh (seen&Ht)] (Hf&_&Hpos&Hranges&Hchars&Hfits) (Hold&Hapart&Hbs) Hun [Hroom Hh]%room_spec.
  unfold apply_remote_edit. cbn [ranges edit_version new_text edit_timestamp].
  destruct (decide (es = [])) as [->|Hne].
  { exists b. split; [done|]. split; [|done]. destruct d. split; [by exists ps|done..|by exists seen]. }
  destruct (map full_range (map fst es)) as [|r0 rs0] eqn:Er; [by destruct es|]. rewrite <- Er. clear Er r0 rs0.
  destruct (remote_edit_all (base:=base) (snapshot b) ps V t (map fst es) (map snd es))
    as (s&ps'&p&->&Hok'&Eu&Ev&Hp&Ef').
  { constructor; rewrite ?Ef; try done.
    - by eapply undo_map_ok.
    - by apply Forall_fmap.
    - by rewrite !length_map. }
  cbn [mbind option_bind]. rewrite Ef in Ef', Hp.
  assert (Edoc : flatten ps' = doc_chars (doc_apply (DocEdit V t es) d)).
  { rewrite Ef'. cbn [doc_apply doc_chars]. rewrite zip_fst_snd. apply edits_ext. intros c. by apply was_shown_saw. }
  destruct (publish_at (with_snapshot b s) _ (bytes_of (codes true (flatten ps'))) p seen Ht Hp) as (t'&->&Ht').
  eexists. split; [reflexivity|]. split; [|done]. split; cbn [snapshot with_subscriptions with_snapshot subscriptions].
  - by exists ps'.
  - by rewrite Eu.
  - done.
  - by apply coherent_edits; [apply unnamed_undone|].
  - rewrite Edoc in Ht'. by exists seen.
Qed.

Lemma undo_replica b d u :
  replica_at b d → op_wf base (DocUndo u) → op_ready (DocUndo u) d → op_room b (OpUndo u) = true →
  ∃ b', apply_undo b u = Some b' ∧
    replica_at b' (doc_apply (DocUndo u) d) ∧ version (snapshot b') = version (snapshot b) ∧ same_queue b b' ∧
    lamport_clock b' = lamport_clock b.
Proof.
  intros [(ps&Hok&Ef) Hu Hc Hcoh (seen&Ht)] (Hf&_&Huok&Hnb) Hne Hroom.
  assert (Hcons : UndoMapFacts.consistent (u :: doc_undos d)) by by apply consistent_cons.
  destruct (undo_all (base:=base) (snapshot b) ps (doc_undos d) u) as (s&ps'&p&E&Hok'&Hu'&_&Ev&Ef'&Hp).
  { pose proof (room_spec _ _ Hroom) as [Hr Hh]. constructor; try done.
    - rewrite Ef. by destruct d.
    - intros m Em. unfold op_room in Hroom. rewrite Em in Hroom. apply andb_true_iff in Hroom as [_ Hm]. by apply Nat.ltb_lt. }
  unfold apply_undo. rewrite E. cbn [mbind option_bind]. rewrite Ef in Ef', Hp.
  destruct (publish_at (with_snapshot b s) _ (bytes_of (codes true (flatten ps'))) p seen Ht Hp) as (t'&->&Ht').
  eexists. split; [reflexivity|]. split; [|done]. split; cbn [snapshot with_subscriptions with_snapshot subscriptions].
  - by exists ps'.
  - done.
  - done.
  - apply coherent_undo.
  - rewrite Ef' in Ht'. by exists seen.
Qed.

(** The version and the clock do not matter. *)
Lemma replica_observe b d t c :
  replica_at b d → replica_at (with_clock (observe_version b t) c) d.
Proof.
  intros [(ps&Hok&Ef) Hu Hc Hcoh Ht]. split; try done. exists ps. split; [|done].
  destruct Hok as [? ? ? ? ? ? ? ? ?]. by split.
Qed.

(** The operation names no edit that was undone before it. *)
Definition op_unnamed o d : Prop := match o with DocEdit _ t _ => unnamed (doc_undos d) t | DocUndo _ => True end.

Lemma apply_op_at b d o :
  replica_at b d → op_wf base o → op_ready o d → op_unnamed o d → op_room b (wire o) = true →
  observed (version (snapshot b)) (op_timestamp o) = false →
  ∃ b', apply_op b (wire o) = Some b' ∧ replica_at b' (doc_apply o d) ∧
    version (snapshot b') = Global_observe (version (snapshot b)) (op_timestamp o) ∧ same_queue b b'.
Proof.
  intros Hb Hwf Hready Hun Hroom Hnew. unfold apply_op. destruct o as [V t es|u]; cbn [wire edit_timestamp op_timestamp] in *; rewrite Hnew.
  - destruct (remote_edit_replica b d V t es) as (b'&->&Hb'&Ev&Hq&Ec); try done. cbn [mbind option_bind].
    eexists. split; [reflexivity|]. split; [by apply replica_observe|]. split; [by rewrite <- Ev|exact Hq].
  - destruct (undo_replica b d u) as (b'&->&Hb'&Ev&Hq&Ec); try done. cbn [mbind option_bind].
    eexists. split; [reflexivity|]. split; [by apply replica_observe|]. split; [by rewrite <- Ev|exact Hq].
Qed.

(** An operation that was applied before changes nothing. *)
Lemma apply_op_again b op : observed (version (snapshot b)) (timestamp op) = true → apply_op b op = Some b.
Proof. unfold apply_op. destruct op; cbn [timestamp]; by intros ->. Qed.
End replica.

(** ** Edits of the replica's own *)

(** Ranges in order delete every character at most once, so it only matters
    what was visible before the edit. *)
Section agree.
Context (obs was was' : Char → bool) (t : Lamport) `{Hobs : !OfTimestamp obs}.

(** From the offset [pos] on, the characters are what both tests say. *)
Fixpoint agree (pos o : nat) (cs : list Char) : Prop :=
  match cs with
  | [] => True
  | c :: cs => (obs c = true → pos ≤ o → was c = was' c) ∧ agree pos (o + if obs c then width c else 0) cs
  end.

Lemma agree_weaken pos pos' cs : pos ≤ pos' → ∀ o, agree pos o cs → agree pos' o cs.
Proof.
  intros Hle. induction cs as [|c cs IH]; intros o; [done|]. cbn [agree]. intros [Hc Hcs]. split; [|by apply IH].
  intros Ho Hp. apply Hc; [done|lia].
Qed.

Lemma agree_unseen pos x cs : Forall (λ c, obs c = false) x → ∀ o, agree pos o (x ++ cs) ↔ agree pos o cs.
Proof.
  induction 1 as [|c x Hc _ IH]; intros o; [done|]. cbn [app agree]. rewrite Hc, Nat.add_0_r, IH.
  split; [by intros [_ ?]|by split].
Qed.

Lemma agree_place pos n new cs :
  Forall (λ c, obs c = false) new → ∀ o, agree pos o (place obs t n new cs) ↔ agree pos o cs.
Proof.
  intros Hnew. revert n. induction cs as [|c cs IH]; intros n o; cbn [place].
  { rewrite <- (app_nil_r new). by apply agree_unseen. }
  case_match; [by apply agree_unseen|]. cbn [agree]. by rewrite IH.
Qed.

Lemma agree_delete s e cs : s ≤ e → ∀ o, agree s o cs →
  delete_from obs was t o s e cs = delete_from obs was' t o s e cs ∧ agree e o (delete_from obs was t o s e cs).
Proof.
  intros Hse. induction cs as [|c cs IH]; intros o; [done|]. cbn [agree delete_from]. intros [Hc Hcs].
  destruct (IH _ Hcs) as [E Ha]. rewrite E. split.
  - f_equal. case_bool_decide as Ho; [|done]. unfold strike. destruct (obs c) eqn:Ec; [|done]. by rewrite (Hc eq_refl (proj1 Ho)).
  - rewrite E in Ha. case_bool_decide as Ho.
    + destruct (same_strike obs was t c) as [E1 E2]. rewrite (Hobs _ _ E1), E2. split; [|done]. intros _ Hle. lia.
    + split; [|done]. intros Hoc Hle. apply Hc; [done|lia].
Qed.

Lemma agree_edits es : (∀ o text, Forall (λ c, obs c = false) (run t true [] o text)) → ∀ pos off cs,
  ranges_from pos (map fst es) → agree pos 0 cs → apply_edits obs was t off es cs = apply_edits obs was' t off es cs.
Proof.
  intros Hnew. induction es as [|[[s e] text] es IH]; intros pos off cs; [done|]. cbn [map ranges_from fst apply_edits].
  intros (Hps&Hse&Hes) Ha. unfold edit_one. rewrite insert_at_place.
  apply (agree_weaken pos s) in Ha; [|done]. rewrite <- (agree_place s s (run t true [] off text)) in Ha by done.
  destruct (agree_delete s e _ Hse 0 Ha) as [E Ha']. rewrite <- E. by apply (IH e).
Qed.
End agree.

(** The version has observed all that was done to the document. *)
Definition doc_seen (V : Global) (d : Doc) : Prop :=
  Forall (λ c, observed V (char_timestamp c) = true ∧ Forall (λ e, observed V e = true) (char_deletions c)) (doc_chars d) ∧
  Forall (λ u, observed V (undo_timestamp u) = true) (doc_undos d).

Lemma greatest_seen V us e : Forall (λ u, observed V (undo_timestamp u) = true) us → undone (observed V) us e = undone (λ _, true) us e.
Proof.
  intros Hus. unfold undone. assert (E : UndoMapFacts.greatest (observed V) e us = UndoMapFacts.greatest (λ _, true) e us); [|by rewrite E].
  induction Hus as [|u us Hu _ IH]; [done|]. by rewrite !UndoMapFacts.greatest_cons, Hu, IH.
Qed.

(** Then its author saw what is visible. *)
Lemma saw_seen V d c : doc_seen V d → coherent d → c ∈ doc_chars d → char_visible c = saw (doc_undos d) V c.
Proof.
  intros [Hc Hu] Hcoh Hin. unfold coherent in Hcoh. rewrite Forall_forall in Hc, Hcoh. destruct (Hc c Hin) as [Ht Hd]. rewrite (Hcoh c Hin).
  unfold saw, shows, obs. rewrite Ht, greatest_seen by done. cbn [andb]. f_equal. clear -Hd Hu.
  induction Hd as [|e ds He _ IH]; [done|]. cbn [forallb]. by rewrite He, IH, greatest_seen.
Qed.

Lemma agree_seen V d : doc_seen V d → coherent d → agree (obs V) char_visible (saw (doc_undos d) V) 0 0 (doc_chars d).
Proof.
  intros Hs Hc. assert (Hall : ∀ cs, cs ⊆ doc_chars d → ∀ o, agree (obs V) char_visible (saw (doc_undos d) V) 0 o cs).
  { induction cs as [|c cs IH]; intros Hsub o; [done|]. split; [intros _ _; apply saw_seen; [done|done|apply Hsub; by left]|].
    apply IH. intros x Hx. apply Hsub. by right. }
  by apply Hall.
Qed.

Section local.
Context `{Build, SortOk} {base : Lamport → Prop}.
Implicit Types (b : Buffer) (d : Doc).

(** What an edit of the replica's own relies on: the trees fit the stacks, the
    version has observed the document and the edits that were undone, and the
    ranges are in order and between characters. *)
Record own_text_ok b d (edits : list ((nat * nat) * list Z)) (text' : list Z) (texts : list (list Z)) : Prop := {
  own_replica : replica_at (base:=base) b d;
  own_room : roomy (snapshot b) = true;
  own_seen : doc_seen (version (snapshot b)) d;
  own_named : Forall (λ u, ∀ e n, count_for e u = Some n → observed (version (snapshot b)) e = true) (doc_undos d);
  own_splices : splices 0 (codes true (doc_chars d)) edits text' texts;
  own_fits : fits 32 (N.of_nat (blen (concat texts)))
}.

(** And the clock is ahead of the version and does not overflow. *)
Record own_edit_ok b d edits text' texts : Prop := {
  own_text : own_text_ok b d edits text' texts;
  own_clock : ∀ r, (get (version (snapshot b)) r < value (lamport_clock b))%N;
  own_clock_room : (value (lamport_clock b) + 1 < 2 ^ 32)%N;
  own_history : HistoryFacts.history_inv (history b) ∧ HistoryFacts.operations_ok (history b)
}.

(** A timestamp of a clock that is ahead is new, and greater than what was
    observed. *)
Lemma clock_new V t : (∀ r, (get V r < value t)%N) → observed V t = false ∧ ∀ t', observed V t' = true → cmp t' t = Lt.
Proof.
  intros Hc. split.
  - unfold observed. apply bool_decide_eq_false. intros Hle. specialize (Hc (replica_id t)). lia.
  - intros t' Ht. unfold observed in Ht. apply bool_decide_eq_true in Ht. specialize (Hc (replica_id t')).
    unfold cmp, Lamport_Ord, then_with. assert (E : cmp (value t') (value t) = Lt); [|by rewrite E]. apply N.compare_lt_iff. lia.
Qed.

Lemma local_edit_replica b d edits text' texts t :
  own_text_ok b d edits text' texts → (∀ r, (get (version (snapshot b)) r < value t)%N) →
  ∃ b' es, let V := version (snapshot b) in let o := DocEdit V t es in
    option_map (λ r, (r.1, OpEdit r.2)) (apply_local_edit b edits t) = Some (b', wire o) ∧
    op_wf base o ∧ op_ready o d ∧ replica_at (base:=base) b' (doc_apply o d) ∧ codes true (doc_chars (doc_apply o d)) = text' ∧
    version (snapshot b') = V ∧ same_queue b b' ∧ lamport_clock b' = lamport_clock b ∧
    char_splices (strike (obs V) char_visible t) t 0 0 (doc_chars d) edits texts (doc_chars (doc_apply o d)).
Proof.
  intros [[(ps&Hok&Ef) Hu Hc Hcoh (seen&Ht)] Hroom Hseen Hnamed Hsplices Hfits] Hclock.
  destruct (clock_new _ _ Hclock) as [Hnew Holder]. set (V := version (snapshot b)) in *.
  destruct (local_edit_all (base:=base) (snapshot b) ps t edits text' texts)
    as (s&ps'&rs&p&E&Hok'&El&Eu&Ev&Et&Hp&Ef'&Hrs&Hbs&Hchars&Hsp).
  { constructor; fold V; rewrite ?Ef; try done.
    - by apply roomy_spec.
    - destruct Hseen as [Hcs _]. eapply Forall_impl; [exact Hcs|]. intros c [Ho _]. split; [done|by apply Holder].
    - specialize (Hclock 0%N). lia. }
  fold V in E, Ev, Ef', Hbs, Hsp. rewrite Ef in *. unfold apply_local_edit. rewrite E. cbn [mbind option_bind].
  assert (Ez : map fst (zip rs texts) = rs ∧ map snd (zip rs texts) = texts).
  { split; [apply fst_zip|apply snd_zip]; lia. }
  destruct Ez as [Ez1 Ez2].
  assert (Edoc : flatten ps' = doc_chars (doc_apply (DocEdit V t (zip rs texts)) d)).
  { rewrite Ef'. cbn [doc_apply doc_chars]. apply (agree_edits (obs V) _ _ t _) with (pos := 0).
    - intros o text. apply run_forall. intros o' z. unfold obs. cbn. exact Hnew.
    - by rewrite Ez1.
    - by apply agree_seen. }
  rewrite <- Et in Hp.
  destruct (publish_at (with_snapshot b s) _ (bytes_of (codes true (flatten ps'))) p seen Ht Hp) as (t'&->&Ht').
  eexists _, (zip rs texts). cbv zeta. split; [cbn [mbind option_bind option_map fst snd wire]; by rewrite Ez1, Ez2|].
  split; [|split; [|split; [|split; [by rewrite <- Edoc|split; [done|split; [done|split; [done|by rewrite <- Edoc]]]]]]].
  - split; [exact Hnew|]. split; [done|]. rewrite Ez1, Ez2. split; [specialize (Hclock 0%N); lia|]. done.
  - cbn [op_ready]. destruct Hseen as [Hcs _]. split; [|split].
    + eapply Forall_impl; [exact Hcs|]. intros c [Ho _] _. by apply Holder.
    + eapply Forall_impl; [exact Hcs|]. intros c [Ho _] E'. rewrite E' in Ho. congruence.
    + rewrite <- Ez1 in Hbs. by apply Forall_map in Hbs.
  - split; cbn [snapshot with_subscriptions with_snapshot subscriptions].
    + by exists ps'.
    + by rewrite Eu.
    + done.
    + apply coherent_edits; [|done]. apply unnamed_undone. eapply Forall_impl; [exact Hnamed|]. intros u Hn.
      destruct (count_for t u) as [n|] eqn:En; [|done]. specialize (Hn t n En). cbn in Hn. congruence.
    + rewrite Edoc in Ht'. by exists seen.
Qed.

(** *** The transaction around the edit *)

Lemma start_history h V now clock :
  HistoryFacts.history_inv h →
  let h' := (start_transaction h V now clock).1.1 in
  HistoryFacts.history_inv h' ∧ transaction_depth h' ≠ 0 ∧ operations h' = operations h.
Proof.
  intros Hinv h'. destruct (HistoryFacts.step_open h (CStart V now clock) Hinv) as (h2&[= <-]&Hi&Ho); [done..|].
  split; [done|]. split; [|done]. unfold h', start_transaction. case_bool_decide; cbn; [by rewrite Nat.add_comm|]. cbn. lia.
Qed.

Lemma start_clock h V now clock :
  (value clock + 1 < 2 ^ 32)%N → (value clock ≤ value (start_transaction h V now clock).1.2 ≤ value clock + 1)%N ∧
  replica_id (start_transaction h V now clock).1.2 = replica_id clock.
Proof.
  intros Hroom. unfold start_transaction, tick. case_bool_decide; cbn [fst snd value replica_id]; [|split; [lia|done]].
  split; [|done]. unfold wrap_N. rewrite N.mod_small by done. lia.
Qed.

Lemma push_undo_total h op_id :
  HistoryFacts.history_inv h → transaction_depth h ≠ 0 →
  ∃ h', push_undo h op_id = Some h' ∧ HistoryFacts.history_inv h' ∧ transaction_depth h' ≠ 0 ∧ operations h' = operations h.
Proof.
  intros Hinv Hd. destruct (HistoryFacts.last_open h Hinv Hd) as [e Ee]. rewrite HistoryFacts.push_undo_spec, Ee.
  destruct (transaction_depth h) as [|n] eqn:En; [done|].
  assert (Hsame : ∃ h', Some h = Some h' ∧ HistoryFacts.history_inv h' ∧ transaction_depth h' ≠ 0 ∧ operations h' = operations h) by (exists h; by rewrite En).
  destruct (TreeMap.get _ _) as [[]|]; [|done..]. eexists. split; [reflexivity|]. split; [|split; [by cbn; rewrite En|done]].
  intros _. cbn. by destruct (removelast _).
Qed.

Lemma end_transaction_total b now :
  HistoryFacts.history_inv (history b) → transaction_depth (history b) ≠ 0 →
  ∃ h r, end_transaction_at b now = Some (with_history b h, r) ∧ operations h = operations (history b).
Proof.
  intros Hinv Hd. destruct (HistoryFacts.last_open _ Hinv Hd) as [e Ee]. unfold end_transaction_at.
  rewrite HistoryFacts.end_transaction_spec, Ee. destruct (transaction_depth (history b)) as [|[|n]]; [done| |by eexists _, _].
  case_bool_decide; [by eexists _, _|]. cbn [mbind option_bind].
  destruct (HistoryFacts.group_spec (with_depth (with_stacks (history b) (removelast (undo_stack (history b)) ++ [set_last_edit_at now e]) []) 0))
    as (pre&e'&suf&_&_&_&->); [by cbn; destruct (removelast _)|]. cbn [mbind option_bind]. by eexists _, _.
Qed.

Lemma buffer_edit_replica b d edits text' texts start_now end_now :
  own_edit_ok b d edits text' texts →
  ∃ b' t es, let V := version (snapshot b) in let o := DocEdit V t es in
    buffer_edit b edits start_now end_now = Some (b', wire o) ∧ replica_id t = replica_id (lamport_clock b) ∧
    (value (lamport_clock b) ≤ value t)%N ∧
    op_wf base o ∧ op_ready o d ∧ replica_at (base:=base) b' (doc_apply o d) ∧ codes true (doc_chars (doc_apply o d)) = text' ∧
    version (snapshot b') = Global_observe V t ∧ lamport_clock b' = mkLamport (wrap_N 32 (value t + 1)) (replica_id t) ∧
    (value t ≤ value (lamport_clock b) + 1)%N ∧
    char_splices (strike (obs V) char_visible t) t 0 0 (doc_chars d) edits texts (doc_chars (doc_apply o d)) ∧
    ∃ l, TreeMapFacts.map_wf (operations (history b')) l.
Proof.
  intros Hok. pose proof (own_history _ _ _ _ _ Hok) as [Hinv [lo Hops]]. unfold buffer_edit, start_transaction_at.
  destruct (start_clock (history b) (version (snapshot b)) start_now (lamport_clock b) (own_clock_room _ _ _ _ _ Hok)) as [[Hle Hge] Hrep].
  destruct (start_history (history b) (version (snapshot b)) start_now (lamport_clock b) Hinv) as (Hinv1&Hd1&Eo1).
  destruct (start_transaction _ _ _ _) as [[h1 clock1] id1]. cbn [fst snd] in *. unfold tick. cbn [lamport_clock with_clock].
  set (b1 := with_clock (with_clock (with_history b h1) clock1) (mkLamport _ _)).
  assert (Hclock : ∀ r, (get (version (snapshot b1)) r < value clock1)%N).
  { intros r. eapply N.lt_le_trans; [apply (own_clock _ _ _ _ _ Hok r)|done]. }
  destruct (local_edit_replica b1 d edits text' texts clock1) as (b2&es&E&Hwf&Hready&Hb2&Et&Ev&(Eh&_&_)&Eclk&Hsp); [|done|].
  { destruct Hok as [[[? ? ? ? ?] ? ? ? ? ?] _ _ _]. by split. }
  cbv zeta in *. destruct (apply_local_edit b1 edits clock1) as [[b2' e]|]; [|done]. cbn [option_map fst snd] in E. injection E as -> E.
  cbn [mbind option_bind]. rewrite E, Eh. change (OpEdit (mkEditOperation _ _ _ _)) with (wire (DocEdit (version (snapshot b1)) clock1 es)).
  rewrite wire_timestamp. cbn [op_timestamp]. change (history b1) with h1.
  destruct (HistoryFacts.push_spec h1 (wire (DocEdit (version (snapshot b1)) clock1 es))) as (ops&l&_&Hwfo&->).
  { exists lo. by rewrite Eo1. }
  cbn [mbind option_bind].
  destruct (push_undo_total (mkHistory (History.base_text h1) ops (undo_stack h1) (redo_stack h1) (transaction_depth h1) (group_interval h1)) clock1) as (h3&->&Hinv3&Hd3&Eo3); [done|done|].
  cbn [mbind option_bind].
  destruct (end_transaction_total (observe_version (with_history b2 h3) clock1) end_now Hinv3 Hd3) as (h4&r&->&Eo4). cbn [mbind option_bind].
  exists (with_history (observe_version (with_history b2 h3) clock1) h4), clock1, es. split; [done|]. split; [done|]. split; [done|].
  split; [done|]. split; [done|]. split; [|split; [done|]].
  - destruct (replica_observe b2 _ clock1 (lamport_clock b2) Hb2) as [? ? ? ? ?]. by split.
  - split; [cbn; by rewrite Ev|]. split; [cbn; by rewrite Eclk|]. split; [done|]. split; [exact Hsp|]. exists l. change (history (with_history _ h4)) with h4. rewrite Eo4. change (operations h3 = ops) in Eo3.
    change (TreeMapFacts.map_wf (operations h3) l). by rewrite Eo3.
Qed.

(** C4: A replica's own edit: [Buffer::edit] succeeds, shows the text with the
    ranges replaced, and returns an operation with a new timestamp of the
    replica that other replicas can apply ([op_ready]), and that does to the
    document, when it is received, what the edit has done to it here. *)
Theorem buffer_edit_sends b d edits text' texts start_now end_now :
  own_edit_ok b d edits text' texts →
  ∃ b' t es, let o := DocEdit (version (snapshot b)) t es in
    buffer_edit b edits start_now end_now = Some (b', wire o) ∧ replica_id t = replica_id (lamport_clock b) ∧
    op_wf base o ∧ op_ready o d ∧ replica_at (base:=base) b' (doc_apply o d) ∧
    RopeTree.rope_text text' (visible_text (snapshot b')).
Proof.
  intros Hok. destruct (buffer_edit_replica b d edits text' texts start_now end_now Hok) as (b'&t&es&E&Hr&_&Hwf&Hready&Hb'&Et&_&_).
  exists b', t, es. cbv zeta in *. split; [exact E|]. split; [done|]. split; [done|]. split; [done|]. split; [done|].
  destruct Hb' as [(ps&Hok'&Ef) _ _ _ _]. rewrite <- Et, <- Ef. by destruct Hok'.
Qed.
End local.

(** *** The small buffer *)

Definition small_doc : Doc := mkDoc [] (run base_timestamp true [] 0 small_text).

(** What computation says about it. *)
Definition small_facts (b : Buffer) : Prop :=
  undo_map (snapshot b) = undo_map_default ∧ deferred_ops b = OperationQueue.queue_new ∧
  operations (history b) = SumTree.new (H:=TreeMap.MapKey_Summary) () ∧ transaction_depth (history b) = 0 ∧
  subscriptions b = Subscription.topic_default ∧ lamport_clock b = mkLamport 2 1.

Lemma small_computed b : small_buffer = Some b → small_facts b.
Proof.
  intros E. assert (H : (λ b, (undo_map (snapshot b), deferred_ops b, operations (history b), transaction_depth (history b), subscriptions b, lamport_clock b)) <$> small_buffer =
    Some (undo_map_default, OperationQueue.queue_new, SumTree.new (H:=TreeMap.MapKey_Summary) (), 0, Subscription.topic_default, mkLamport 2 1)) by (vm_compute; reflexivity).
  rewrite E in H. unfold small_facts. cbn [fmap option_fmap option_map] in H.
  injection H as -> -> -> -> -> ->. repeat split.
Qed.

Lemma small_replica :
  ∃ b, small_buffer = Some b ∧ replica_at (base:=is_base) b small_doc ∧ roomy (snapshot b) = true ∧
    version (snapshot b) = other_version ∧ small_facts b.
Proof.
  destruct small_buffer_ok as (b&ps&E&Hs&Hr&Hv&Ef). pose proof (small_computed b E) as Hf. exists b. split; [exact E|].
  split; [|split; [|split; [exact Hv|exact Hf]]].
  - destruct Hf as (Hm&_&_&_&Ht&_). split.
    + by exists ps.
    + rewrite Hm. exists [], 0. split; [reflexivity|]. split; [constructor|]. split; [apply wf_new|].
      intros i. split; [intros []%not_elem_of_nil|intros (?&?&[]%not_elem_of_nil&_)].
    + split; [constructor|]. intros a c []%not_elem_of_nil.
    + vm_compute. repeat constructor.
    + exists ∅. rewrite Ht. eapply Subscription.tracks_reachable. apply rtc_refl.
  - assert (H : (roomy ∘ snapshot) <$> small_buffer = Some true) by (vm_compute; reflexivity).
    rewrite E in H. change (Some (roomy (snapshot b)) = Some true) in H. congruence.
Qed.

Lemma small_own_edit :
  ∃ b, small_buffer = Some b ∧ own_edit_ok (base:=is_base) b small_doc small_edits small_result [[97; 8364]; [111]]%Z ∧
    version (snapshot b) = other_version ∧ lamport_clock b = mkLamport 2 1.
Proof.
  destruct small_replica as (b&E&Hb&Hr&Hv&(_&_&Ho&Hd&_&Hc)). exists b. split; [exact E|]. split; [|by split]. split.
  - split; [exact Hb|exact Hr|rewrite Hv; split; repeat constructor|constructor| |by vm_compute].
    change (codes true _) with ([104] ++ [105] ++ ([233] ++ [] ++ []))%Z.
    apply (splices_cons 0 [104]%Z [105]%Z _ _ [97; 8364]%Z _ ([233] ++ [111] ++ [])%Z [[111]%Z]); [vm_compute; reflexivity|by repeat constructor|].
    apply (splices_cons 2 [233]%Z []%Z [] _ [111]%Z [] [] []); [vm_compute; reflexivity|by repeat constructor|constructor].
  - intros r. rewrite Hv, Hc. unfold other_version. rewrite get_observe. case_decide as Er; cbn [value]; [rewrite Er; by vm_compute|by vm_compute].
  - rewrite Hc. by vm_compute.
  - split; [intros Hd'; congruence|]. exists []. apply TreeMapFacts.map_wf_inv; rewrite Ho; [apply TreeMapFacts.map_wf_new|compute; lia].
Qed.

Lemma buffer_edit_sends_witness :
  ∃ b b' t es, small_buffer = Some b ∧
    buffer_edit (H:=true) (H0:=merge) b small_edits 5%N 6%N = Some (b', wire (DocEdit (version (snapshot b)) t es)) ∧
    RopeTree.rope_text small_result (visible_text (snapshot b')).
Proof.
  destruct small_own_edit as (b&E&Hok&_).
  destruct (buffer_edit_sends (H:=true) (H0:=merge) (H1:=merge_ok) b small_doc small_edits small_result _ 5%N 6%N Hok) as (b'&t&es&Eb&_&_&_&_&Et).
  exists b, b', t, es. split; [exact E|]. split; [exact Eb|exact Et].
Defined.
