(* ===== verification/UndoRedo.v ===== *)
(** Undo and redo of a buffer.

    [undo] and [redo] take an entry off the history, count its edits once more
    and rebuild the fragments ([apply_undo]).  What they do to the document is
    the undo operation they return, which the other replicas can apply; one
    takes the other back. *)

From stdpp Require Import base numbers option list gmap.
From S2P Require Import Prelude UndoMap TreeMap Clock Utf8 Locator SumTree SumTreeFacts Cursor Operation History HistoryFacts HistoryProps Fragment Builder Splice LineEnding Snapshot Buffer Document Pieces BuilderFacts SpliceOutput SpliceWalk LocalEdit SnapshotFacts EditProps SpliceDims RemoteEdit Converge UndoApply Replicas.
From S2P Require Remote KeyedTree KeyedFacts Patch PatchFacts Subscription Rope RopeTree UndoMapFacts TreeMapFacts.

#[local] Open Scope nat_scope.

(** ** One operation *)

Lemma observe_mono V t e : observed V e = true → observed (Global_observe V t) e = true.
Proof.
  unfold observed. rewrite !bool_decide_eq_true, get_observe. case_decide; [|done]. intros He. etrans; [exact He|apply N.le_max_l].
Qed.

Lemma observe_self V t : observed (Global_observe V t) t = true.
Proof. unfold observed. rewrite get_observe, decide_True by done. apply bool_decide_eq_true. lia. Qed.

(** The edit is undone in the document. *)
Abbreviation undone_in us e := (undone (λ _, true) us e) (only parsing).

Section counts.
Context (us : list UndoOperation) (es : list Lamport) (u : UndoOperation).
Context (Hu : ∀ e, count_for e u =
  if decide (e ∈ es) then Some (u32_saturating_add (UndoMapFacts.greatest (λ _, true) e us) 1) else None).

Lemma greatest_next e :
  (UndoMapFacts.greatest (λ _, true) e us + 1 < 2 ^ 32)%N →
  UndoMapFacts.greatest (λ _, true) e (u :: us) = (UndoMapFacts.greatest (λ _, true) e us + if decide (e ∈ es) then 1 else 0)%N.
Proof.
  intros Hfit. rewrite UndoMapFacts.greatest_cons, Hu. case_decide; cbn [from_option Datatypes.id]; [unfold u32_saturating_add|]; lia.
Qed.

(** Exactly the edits of the transaction change sides. *)
Lemma undone_next e :
  (UndoMapFacts.greatest (λ _, true) e us + 1 < 2 ^ 32)%N →
  undone_in (u :: us) e = if decide (e ∈ es) then negb (undone_in us e) else undone_in us e.
Proof. intros Hfit. unfold undone. rewrite greatest_next by done. case_decide; [apply UndoMapFacts.parity_succ|by rewrite N.add_0_r]. Qed.
End counts.

Section undo.
Context `{Build, SortOk} {base : Lamport → Prop}.
Implicit Types (b : Buffer) (d : Doc).

(** A replica that can undo: it has observed the undo operations it has
    applied, and its clock is ahead of all it has observed. *)
Record undo_ready b d : Prop := {
  ready_replica : replica_at (base:=base) b d;
  ready_seen : Forall (λ u, observed (version (snapshot b)) (undo_timestamp u) = true) (doc_undos d);
  ready_clock : ∀ r, (get (version (snapshot b)) r < value (lamport_clock b))%N;
  ready_operations : ∃ l, TreeMapFacts.map_wf (operations (history b)) l
}.

(** The edits of a transaction that was made after the base text. *)
Definition edits_seen b (t : Transaction) : Prop :=
  Forall (λ e, observed (version (snapshot b)) e = true ∧ ¬ base e) (edit_ids t).

(** The trees fit the stacks, also with the operation that undoes the
    transaction. *)
Definition undo_room b (t : Transaction) : bool :=
  (height (operations (history b)) <? STACK_CAPACITY) && roomy (snapshot b) && (height (undo_map (snapshot b)) <? STACK_CAPACITY) &&
  match undo_or_redo_counts (undo_map (snapshot b)) (edit_ids t) with
  | Some cs => op_room b (OpUndo (mkUndoOperation (lamport_clock b) (version (snapshot b)) cs))
  | None => true
  end.

(** For what is undone or redone next. *)
Definition next_undo_room b : bool :=
  match list.last (undo_stack (history b)) with Some e => undo_room b (transaction e) | None => height (operations (history b)) <? STACK_CAPACITY end.
Definition next_redo_room b : bool :=
  match list.last (redo_stack (history b)) with Some e => undo_room b (transaction e) | None => height (operations (history b)) <? STACK_CAPACITY end.

Lemma replica_text b d : replica_at (base:=base) b d → RopeTree.rope_text (codes true (doc_chars d)) (visible_text (snapshot b)).
Proof. intros [(ps&Hok&Ef) _ _ _ _]. rewrite <- Ef. by destruct Hok. Qed.

(** What the operation that undoes or redoes a transaction is, and does. *)
Record undoes b d (t : Transaction) b' (u : UndoOperation) : Prop := {
  undoes_timestamp : undo_timestamp u = lamport_clock b;
  undoes_version : undo_version u = version (snapshot b);
  undoes_counts e : count_for e u =
    if decide (e ∈ edit_ids t) then Some (u32_saturating_add (UndoMapFacts.greatest (λ _, true) e (doc_undos d)) 1) else None;
  undoes_wf : op_wf base (DocUndo u);
  undoes_applies : op_ready (DocUndo u) d;
  undoes_ready : undo_ready b' (doc_apply (DocUndo u) d);
  undoes_clock : value (lamport_clock b') = (value (lamport_clock b) + 1)%N;
  undoes_seen e : observed (version (snapshot b)) e = true → observed (version (snapshot b')) e = true
}.

Lemma undo_or_redo_step b d t :
  undo_ready b d → (value (lamport_clock b) + 1 < 2 ^ 32)%N → edits_seen b t → undo_room b t = true →
  ∃ b' u ops, undo_or_redo b t = Some (b', OpUndo u) ∧ undoes b d t b' u ∧ history b' = with_operations (history b) ops.
Proof.
  intros [Hb Hseen Hclock [lo Hlo]] Hroomc Hes Hroom. unfold undo_room in Hroom.
  apply andb_true_iff in Hroom as [[[Ho%Nat.ltb_lt Hr]%andb_true_iff Hh%Nat.ltb_lt]%andb_true_iff Hroom].
  set (V := version (snapshot b)) in *. destruct (clock_new V _ Hclock) as [Hnew _].
  assert (Hcount : ∀ e, undo_count (undo_map (snapshot b)) e = Some (UndoMapFacts.greatest (λ _, true) e (doc_undos d))).
  { intros e. by destruct (UndoMapFacts.inv_counts _ _ e (replica_undos _ _ Hb) Hh) as (->&_). }
  destruct (UndoMapFacts.undo_or_redo_counts_spec (undo_map (snapshot b)) (edit_ids t)) as (cs&Ecs&Hnd&Hcs); [intros e _; by rewrite Hcount|].
  rewrite Ecs in Hroom. set (u := mkUndoOperation (lamport_clock b) V cs) in *.
  assert (Hfor : ∀ e, count_for e u =
    if decide (e ∈ edit_ids t) then Some (u32_saturating_add (UndoMapFacts.greatest (λ _, true) e (doc_undos d)) 1) else None).
  { intros e. case_decide as He.
    - apply UndoMapFacts.count_for_Some; [exact Hnd|]. apply Hcs. by rewrite Hcount.
    - destruct (count_for e u) as [n|] eqn:En; [|done]. apply UndoMapFacts.count_for_Some in En; [|exact Hnd]. by apply Hcs in En as [? _]. }
  assert (Hwf : op_wf base (DocUndo u)).
  { split; [exact Hnew|]. unfold edits_seen in Hes. rewrite Forall_forall in Hes. split; [|split; [exact Hnd|]].
    - intros e n En. rewrite Hfor in En. case_decide as He; [|done]. by apply Hes.
    - apply Forall_forall. intros [e n] [He _]%Hcs. apply (Hes e He). }
  assert (Hready : op_ready (DocUndo u) d).
  { eapply Forall_impl; [exact Hseen|]. cbn. intros v Hv Ev. rewrite Ev in Hv. congruence. }
  unfold undo_or_redo. rewrite Ecs. cbn [mbind option_bind]. unfold undo_operations, tick. cbn [undo_timestamp]. fold V. fold u.
  set (b1 := observe_version _ _).
  destruct (undo_replica (base:=base) b1 d u) as (b2&->&Hb2&Ev&(Eh&_&_)&Ec); [exact (replica_observe b _ _ _ Hb)|done|done|exact Hroom|].
  cbn [mbind option_bind]. rewrite Eh. change (history b1) with (history b).
  destruct (push_spec (history b) (OpUndo u)) as (ops&l&_&Hl&->); [exists lo; by apply TreeMapFacts.map_wf_inv|].
  cbn [mbind option_bind]. eexists _, u, ops. split; [reflexivity|]. split; [|done].
  assert (Ev' : version (snapshot b2) = Global_observe V (lamport_clock b)) by exact Ev.
  assert (Ec' : value (lamport_clock b2) = (value (lamport_clock b) + 1)%N) by (rewrite Ec; by apply N.mod_small).
  split; try done; cbn [snapshot with_history history lamport_clock].
  - split; cbn [snapshot with_history history lamport_clock].
    + destruct Hb2 as [? ? ? ? ?]. by split.
    + rewrite Ev'. constructor; [apply observe_self|]. eapply Forall_impl; [exact Hseen|]. cbn. intros v. apply observe_mono.
    + intros r. rewrite Ev', Ec', get_observe. specialize (Hclock r). case_decide; lia.
    + by exists l.
  - intros e He. rewrite Ev'. by apply observe_mono.
Qed.

(** What is undone by the entry, in the document and in the map. *)
Definition flips us us' (es : list Lamport) : Prop :=
  ∀ x, undone_in us' x = if decide (x ∈ es) then negb (undone_in us x) else undone_in us x.

(** The counts of edits can go up by [n]. *)
Definition counts_fit (n : N) d : Prop := ∀ e, (UndoMapFacts.greatest (λ _, true) e (doc_undos d) + n < 2 ^ 32)%N.

Lemma undoes_flips b d t b' u : undoes b d t b' u → counts_fit 1 d → flips (doc_undos d) (u :: doc_undos d) (edit_ids t).
Proof. intros Hu Hfit x. apply (undone_next _ _ _ (undoes_counts _ _ _ _ _ Hu)), Hfit. Qed.

Lemma undoes_counts_fit b d t b' u n :
  undoes b d t b' u → counts_fit (n + 1) d → counts_fit n (doc_apply (DocUndo u) d).
Proof.
  intros Hu Hfit e. specialize (Hfit e). cbn [doc_apply doc_undos].
  rewrite (greatest_next _ _ _ (undoes_counts _ _ _ _ _ Hu)) by lia. case_decide; lia.
Qed.

(** Flipping twice shows what was shown. *)
Lemma flips_twice d u1 u2 es :
  coherent d → flips (doc_undos d) (u1 :: doc_undos d) es → flips (u1 :: doc_undos d) (u2 :: u1 :: doc_undos d) es →
  doc_chars (doc_apply (DocUndo u2) (doc_apply (DocUndo u1) d)) = doc_chars d.
Proof.
  intros Hcoh Hf1 Hf2. cbn [doc_apply doc_chars doc_undos]. rewrite List.map_map.
  assert (E : ∀ x, undone_in (u2 :: u1 :: doc_undos d) x = undone_in (doc_undos d) x).
  { intros x. rewrite Hf2, Hf1. case_decide; [apply negb_involutive|done]. }
  rewrite <- (map_id (doc_chars d)) at 2. apply map_ext_in. intros c Hc%list_elem_of_In.
  unfold coherent in Hcoh. rewrite Forall_forall in Hcoh. specialize (Hcoh c Hc). destruct c as [ts o z v ds]. cbn in Hcoh. unfold show. cbn.
  f_equal. rewrite Hcoh. unfold shows. cbn. rewrite E. f_equal. by apply forallb_ext.
Qed.

(** The entry that the history hands over, with the stacks of [h]. *)
Lemma undo_entry_step b d h e :
  undo_ready b d → (value (lamport_clock b) + 1 < 2 ^ 32)%N → operations h = operations (history b) →
  edits_seen b (transaction e) → undo_room b (transaction e) = true →
  ∃ b' u ops, undo_entry (with_history b h) (Some e) = Some (b', Some (transaction_id e, OpUndo u)) ∧
    undoes b d (transaction e) b' u ∧ history b' = with_operations h ops.
Proof.
  intros Hb Hc Eo Hes Hroom.
  destruct (undo_or_redo_step (with_history b h) d (transaction e)) as (b'&u&ops&E&Hu&Eh); [|done|exact Hes| |].
  - destruct Hb as [[? ? ? ? ?] ? ? ?]. split; cbn [history with_history]; rewrite ?Eo; done.
  - unfold undo_room in *. cbn [history with_history]. by rewrite Eo.
  - exists b', u, ops. cbn [undo_entry]. rewrite E. split; [done|]. split; [|done]. destruct Hu. by split.
Qed.

(** Undoing and redoing move an entry between the stacks. *)
Lemma undo_step b d :
  undo_ready b d → (value (lamport_clock b) + 1 < 2 ^ 32)%N → transaction_depth (history b) = 0 → next_undo_room b = true →
  (∀ e, list.last (undo_stack (history b)) = Some e → edits_seen b (transaction e)) →
  match list.last (undo_stack (history b)) with
  | None => undo b = Some (b, None)
  | Some e => ∃ b' u, undo b = Some (b', Some (transaction_id e, OpUndo u)) ∧ undoes b d (transaction e) b' u ∧
      transaction_depth (history b') = 0 ∧
      undo_stack (history b) = undo_stack (history b') ++ [e] ∧ redo_stack (history b') = redo_stack (history b) ++ [e]
  end.
Proof.
  intros Hb Hc Hd Hroom Hes. unfold undo, pop_undo, next_undo_room in *. rewrite bool_decide_eq_true_2 by done. cbn [assert_ mbind option_bind].
  destruct (list.last _) as [e|] eqn:El; [|by destruct b]. cbn [mbind option_bind].
  destruct (undo_entry_step b d (with_stacks (history b) (removelast (undo_stack (history b))) (redo_stack (history b) ++ [e])) e)
    as (b'&u&ops&->&Hu&Eh); [done|done|done|by apply Hes|done|].
  exists b', u. rewrite Eh. apply last_snoc_inv in El as [k ->]. by rewrite removelast_snoc.
Qed.

Lemma redo_step b d :
  undo_ready b d → (value (lamport_clock b) + 1 < 2 ^ 32)%N → transaction_depth (history b) = 0 → next_redo_room b = true →
  (∀ e, list.last (redo_stack (history b)) = Some e → edits_seen b (transaction e)) →
  match list.last (redo_stack (history b)) with
  | None => redo b = Some (b, None)
  | Some e => ∃ b' u, redo b = Some (b', Some (transaction_id e, OpUndo u)) ∧ undoes b d (transaction e) b' u ∧
      transaction_depth (history b') = 0 ∧
      redo_stack (history b) = redo_stack (history b') ++ [e] ∧ undo_stack (history b') = undo_stack (history b) ++ [e]
  end.
Proof.
  intros Hb Hc Hd Hroom Hes. unfold redo, pop_redo, next_redo_room in *. rewrite bool_decide_eq_true_2 by done. cbn [assert_ mbind option_bind].
  destruct (list.last _) as [e|] eqn:El; [|by destruct b]. cbn [mbind option_bind].
  destruct (undo_entry_step b d (with_stacks (history b) (undo_stack (history b) ++ [e]) (removelast (redo_stack (history b)))) e)
    as (b'&u&ops&->&Hu&Eh); [done|done|done|by apply Hes|done|].
  exists b', u. rewrite Eh. apply last_snoc_inv in El as [k ->]. by rewrite removelast_snoc.
Qed.

(** C28: Undo and redo of a buffer between transactions.  [undo] never panics;
    when there is something to undo, it returns the identifier of the last
    transaction with an operation that other replicas can apply and that does
    to the document here what it does there: exactly the transaction's edits
    change between done and undone, also in the undo map, the entry moves to the
    redo stack, and what a version without the operation sees is left alone.
    [redo] then takes it back: the stacks, every character and the visible text
    are what they were. *)
Theorem undo_then_redo b d :
  undo_ready b d → (value (lamport_clock b) + 2 < 2 ^ 32)%N → counts_fit 2 d → transaction_depth (history b) = 0 →
  (∀ e, list.last (undo_stack (history b)) = Some e → edits_seen b (transaction e)) → next_undo_room b = true →
  match list.last (undo_stack (history b)) with
  | None => undo b = Some (b, None)
  | Some e => ∃ b1 u1, let d1 := doc_apply (DocUndo u1) d in
      undo b = Some (b1, Some (transaction_id e, OpUndo u1)) ∧
      undo_stack (history b) = undo_stack (history b1) ++ [e] ∧ redo_stack (history b1) = redo_stack (history b) ++ [e] ∧
      op_wf base (DocUndo u1) ∧ op_ready (DocUndo u1) d ∧ replica_at (base:=base) b1 d1 ∧
      flips (doc_undos d) (doc_undos d1) (edit_ids (transaction e)) ∧
      RopeTree.rope_text (codes true (doc_chars d1)) (visible_text (snapshot b1)) ∧
      (next_redo_room b1 = true →
        (∀ x, is_undone (undo_map (snapshot b1)) x = Some (undone_in (doc_undos d1) x)) ∧
        (∀ v x, observed v (lamport_clock b) = false →
          was_undone (undo_map (snapshot b1)) x v = was_undone (undo_map (snapshot b)) x v) ∧
        ∃ b2 u2, let d2 := doc_apply (DocUndo u2) d1 in
          redo b1 = Some (b2, Some (transaction_id e, OpUndo u2)) ∧
          undo_stack (history b2) = undo_stack (history b) ∧ redo_stack (history b2) = redo_stack (history b) ∧
          op_wf base (DocUndo u2) ∧ op_ready (DocUndo u2) d1 ∧ replica_at (base:=base) b2 d2 ∧
          doc_chars d2 = doc_chars d ∧
          RopeTree.rope_text (codes true (doc_chars d)) (visible_text (snapshot b2)))
  end.
Proof.
  intros Hb Hc Hfit Hd Hes Hroom. assert (Hc1 : (value (lamport_clock b) + 1 < 2 ^ 32)%N) by lia.
  assert (Hfit1 : counts_fit 1 d) by (intros x; specialize (Hfit x); lia).
  pose proof (undo_step b d Hb Hc1 Hd Hroom Hes) as Hundo. unfold next_undo_room in Hroom.
  destruct (list.last _) as [e|] eqn:El; [|done]. destruct Hundo as (b1&u1&E1&Hu1&Hd1&Eu1&Er1).
  pose proof (undoes_flips _ _ _ _ _ Hu1 Hfit1) as Hf1. pose proof (ready_replica _ _ (undoes_ready _ _ _ _ _ Hu1)) as Hb1.
  exists b1, u1. cbv zeta. split; [done|]. split; [done|]. split; [done|]. split; [apply Hu1|]. split; [apply Hu1|]. split; [done|].
  split; [done|]. split; [by apply replica_text|]. intros Hroom1.
  pose proof (redo_step b1 _ (undoes_ready _ _ _ _ _ Hu1)) as Hredo. unfold next_redo_room in Hroom1, Hredo. rewrite Er1, last_snoc in Hroom1, Hredo.
  assert (Hh : height (undo_map (snapshot b)) < STACK_CAPACITY ∧ height (undo_map (snapshot b1)) < STACK_CAPACITY).
  { unfold undo_room in Hroom, Hroom1. apply andb_true_iff in Hroom as [[_ ?%Nat.ltb_lt]%andb_true_iff _].
    by apply andb_true_iff in Hroom1 as [[_ ?%Nat.ltb_lt]%andb_true_iff _]. }
  destruct Hh as [Hh Hh1]. split; [|split].
  - intros x. by destruct (UndoMapFacts.inv_counts _ _ x (replica_undos _ _ Hb1) Hh1) as (_&->&_).
  - intros v x Hv. destruct (UndoMapFacts.inv_counts _ _ x (replica_undos _ _ Hb1) Hh1) as (_&_&->).
    destruct (UndoMapFacts.inv_counts _ _ x (replica_undos _ _ (ready_replica _ _ Hb)) Hh) as (_&_&->).
    f_equal. apply undone_skip. by rewrite (undoes_timestamp _ _ _ _ _ Hu1).
  - destruct Hredo as (b2&u2&E2&Hu2&_&Er2&Eu2); [rewrite (undoes_clock _ _ _ _ _ Hu1); lia|done|done| |].
    { intros e' [= <-]. eapply Forall_impl; [apply (Hes e eq_refl)|]. intros x [Hx ?]. split; [by apply (undoes_seen _ _ _ _ _ Hu1)|done]. }
    pose proof (undoes_flips _ _ _ _ _ Hu2 (undoes_counts_fit _ _ _ _ _ 1 Hu1 Hfit)) as Hf2.
    pose proof (flips_twice d u1 u2 _ (replica_coherent _ _ (ready_replica _ _ Hb)) Hf1 Hf2) as Echars.
    pose proof (ready_replica _ _ (undoes_ready _ _ _ _ _ Hu2)) as Hb2.
    exists b2, u2. cbv zeta. split; [done|]. split; [by rewrite Eu2, Eu1|]. split; [by apply app_inj_tail in Er2 as [<- _]|].
    split; [apply Hu2|]. split; [apply Hu2|]. split; [done|]. split; [done|]. rewrite <- Echars. by apply replica_text.
Qed.
End undo.

(** ** Undoing an edit *)

(** An edit that is undone does not show: its text is not visible, and its
    deletions do not count. *)
Section undone.
Context (us : list UndoOperation) (t : Lamport) (Hundone : undone (λ _, true) us t = true).
Abbreviation shown cs := (codes true (map (show us) cs)) (only parsing).

Lemma shown_cons c cs : shown (c :: cs) = (if shows us c then [char_code c] else []) ++ shown cs.
Proof. cbn [map]. rewrite codes_cons. cbn. by destruct (shows us c). Qed.

Lemma shown_new o text cs : shown (run t true [] o text ++ cs) = shown cs.
Proof.
  revert o. induction text as [|z text IH]; intros o; [done|]. cbn [run app]. rewrite shown_cons, IH. unfold shows. cbn. by rewrite Hundone.
Qed.

Lemma shown_place obs n o text cs : shown (place obs t n (run t true [] o text) cs) = shown cs.
Proof.
  revert n. induction cs as [|c cs IH]; intros n; cbn [place]; [rewrite <- (app_nil_r (run _ _ _ _ _)); apply shown_new|].
  case_match; [apply shown_new|]. by rewrite !shown_cons, IH.
Qed.

Lemma shown_delete obs was s e cs : ∀ o, shown (delete_from obs was t o s e cs) = shown cs.
Proof.
  induction cs as [|c cs IH]; intros o; [done|]. cbn [delete_from]. rewrite !shown_cons, IH. f_equal.
  case_bool_decide; [|done]. unfold strike. destruct (_ && _); [|done].
  assert (E : shows us (mark t c) = shows us c); [|by rewrite E].
  unfold shows. cbn [mark char_timestamp char_deletions]. rewrite forallb_app. cbn. by rewrite Hundone, !andb_true_r.
Qed.

Lemma shown_edits obs was es : ∀ o cs, shown (apply_edits obs was t o es cs) = shown cs.
Proof.
  induction es as [|[[s e] text] es IH]; intros o cs; [done|]. cbn [apply_edits]. rewrite IH. unfold edit_one.
  by rewrite insert_at_place, shown_delete, shown_place.
Qed.
End undone.

Lemma unnamed_greatest us t : unnamed us t → UndoMapFacts.greatest (λ _, true) t us = 0%N.
Proof. induction 1 as [|v us Hv _ IH]; [done|]. by rewrite UndoMapFacts.greatest_cons, Hv, IH. Qed.

(** The document shows what it showed before the edit. *)
Lemma undo_edit_text V t es u d :
  coherent d → doc_seen V d → observed V t = false → unnamed (doc_undos d) t →
  (∀ e, count_for e u = if decide (e ∈ [t]) then Some 1%N else None) →
  codes true (doc_chars (doc_apply (DocUndo u) (doc_apply (DocEdit V t es) d))) = codes true (doc_chars d).
Proof.
  intros Hcoh [Hseen _] Hnew Hun Hu. cbn [doc_apply doc_chars doc_undos].
  assert (Hnone : ∀ e, observed V e = true → count_for e u = None).
  { intros e He. rewrite Hu, decide_False; [done|]. intros ->%list_elem_of_singleton. congruence. }
  rewrite shown_edits.
  - f_equal. rewrite <- (map_id (doc_chars d)) at 2. apply map_ext_in. intros c Hc%list_elem_of_In. symmetry.
    unfold coherent in Hcoh. rewrite Forall_forall in Hcoh, Hseen. destruct (Hseen c Hc) as [Ht Hd].
    apply show_named; [by apply Hcoh|by apply Hnone|]. eapply Forall_impl; [exact Hd|]. exact Hnone.
  - unfold undone. rewrite UndoMapFacts.greatest_cons, Hu, decide_True by by left.
    assert (E0 : UndoMapFacts.greatest (λ _, true) t (doc_undos d) = 0%N) by by apply unnamed_greatest.
    by rewrite E0.
Qed.

(** *** The entry an edit records *)

(** The next transaction is not merged into the entry before it. *)
Definition starts_group (h : History) (now : Instant) : Prop :=
  ∀ e, list.last (undo_stack h) = Some e → suppress_grouping e = true ∨ (group_interval h ≤ now - last_edit_at e)%N.

Lemma group_alone h pre e :
  undo_stack h = pre ++ [e] →
  (∀ p, list.last pre = Some p → suppress_grouping p = true ∨ (group_interval h ≤ first_edit_at e - last_edit_at p)%N) →
  group h = Some (h, Some (transaction_id e)).
Proof.
  intros Eu Hp. unfold group. rewrite Eu, rev_app_distr. cbn [rev app].
  assert (E0 : group_count (group_interval h) e (rev pre) 0 = 0).
  { destruct pre as [|p pre _] using rev_ind; [done|]. rewrite rev_app_distr. cbn [rev app group_count].
    destruct (Hp p) as [-> | Hle]; [by rewrite last_snoc|done|]. by rewrite bool_decide_eq_false_2, andb_false_r by lia. }
  rewrite E0. change 0 with (length (@nil HistoryEntry)). rewrite (group_trailing_spec h pre e [] Eu), grouped_nil, <- Eu.
  by rewrite with_stacks_id.
Qed.

(** The entry of an edit that starts a transaction of its own. *)
Definition edit_entry (tid t : Lamport) (since : Global) (start_now end_now : Instant) : HistoryEntry :=
  mkHistoryEntry (mkTransaction tid [t] since) start_now end_now false.

Lemma local_edit_history `{Build, Sort} b edits t b' edit : apply_local_edit b edits t = Some (b', edit) → history b' = history b.
Proof.
  unfold apply_local_edit, publish. intros E. apply bind_Some in E as ([[s op] p]&_&E). apply bind_Some in E as (b1&E1&[= <- _]).
  by apply bind_Some in E1 as (t'&_&[= <-]).
Qed.

(** The operations stay as they are when a transaction ends. *)
Lemma push_undo_operations h t h' : push_undo h t = Some h' → operations h' = operations h.
Proof.
  rewrite push_undo_spec. destruct (transaction_depth h); [done|]. destruct (TreeMap.get _ _) as [[]|]; [|by intros [= <-]..].
  destruct (list.last _); [|done]. by intros [= <-].
Qed.

Lemma end_transaction_operations b now b' r : end_transaction_at b now = Some (b', r) → operations (history b') = operations (history b).
Proof.
  unfold end_transaction_at. intros E. apply bind_Some in E as ([h entry]&E1&E).
  assert (E2 : operations h = operations (history b)).
  { rewrite end_transaction_spec in E1. destruct (transaction_depth _) as [|[|n]]; [done| |by injection E1 as <- _].
    destruct (list.last _); [|done]. case_bool_decide; by injection E1 as <- _. }
  destruct entry as [entry|]; [|by injection E as <- _]. apply bind_Some in E as ([h' id]&Eg&E). apply bind_Some in E as (id'&_&[= <- _]).
  unfold group, group_trailing in Eg. apply bind_Some in Eg as (n&_&Eg). by apply bind_Some in Eg as (l&_&[= <- _]).
Qed.

Lemma edit_history `{Build, Sort} b edits start_now end_now b' edit l :
  buffer_edit b edits start_now end_now = Some (b', OpEdit edit) →
  transaction_depth (history b) = 0 → starts_group (history b) start_now → TreeMapFacts.map_inv (operations (history b)) l →
  height (operations (history b')) < STACK_CAPACITY →
  transaction_depth (history b') = 0 ∧ redo_stack (history b') = [] ∧
  undo_stack (history b') = undo_stack (history b) ++
    [edit_entry (lamport_clock b) (edit_timestamp edit) (version (snapshot b)) start_now end_now].
Proof.
  intros E Hd Hg Hl Hh. unfold buffer_edit, start_transaction_at, start_transaction, tick in E. cbn [transaction_depth with_depth] in E.
  rewrite Hd, (bool_decide_eq_true_2 (0 + 1 = 1)) in E by done.
  cbn [undo_stack redo_stack with_depth with_stacks lamport_clock with_clock] in E.
  apply bind_Some in E as ([b1 edit']&E1&E). pose proof (local_edit_history _ _ _ _ _ E1) as Eh1. cbn [history with_clock with_history] in Eh1.
  apply bind_Some in E as (h2&E2&E). apply bind_Some in E as (h3&E3&E). apply bind_Some in E as ([b4 r]&E4&E). injection E as -> ->.
  pose proof (end_transaction_operations _ _ _ _ E4) as Eo. cbn [history observe_version with_history with_snapshot] in Eo.
  pose proof (push_undo_operations _ _ _ E3) as Eo3. rewrite Eo, Eo3 in Hh. clear Eo Eo3.
  unfold push in E2. apply bind_Some in E2 as (ops&Ei&[= <-]). rewrite Eh1 in Ei, E3. cbn [timestamp operations with_depth with_stacks] in *.
  destruct (TreeMapFacts.insert_wf _ l (edit_timestamp edit) (OpEdit edit) Hl) as (ops'&l'&Ei'&Hwf&Hup).
  rewrite Ei in Ei'. injection Ei' as <-.
  assert (Hget : TreeMap.get ops (edit_timestamp edit) = Some (OpEdit edit)).
  { rewrite (TreeMapFacts.map_get_spec ops l') by by apply TreeMapFacts.map_wf_inv. destruct Hup as [_ Hup].
    by rewrite Hup, cmp_refl, bool_decide_eq_true_2. }
  rewrite push_undo_spec in E3. cbn [transaction_depth with_depth with_stacks operations undo_stack redo_stack] in E3.
  rewrite Hget, last_snoc, removelast_snoc in E3. cbn [Nat.add] in E3. injection E3 as <-.
  unfold end_transaction_at in E4. rewrite end_transaction_spec in E4. cbn [history observe_version with_history with_snapshot
    transaction_depth with_stacks undo_stack redo_stack] in E4.
  rewrite last_snoc, removelast_snoc, bool_decide_eq_false_2 in E4 by done. cbn [mbind option_bind] in E4.
  erewrite group_alone in E4; [|reflexivity|].
  - cbn [mbind option_bind] in E4. by injection E4 as <- _.
  - intros p Ep. cbn. by apply Hg.
Qed.

(** *** Edits and undos keep every character *)

Definition char_name (c : Char) : Lamport * nat * Z := (char_timestamp c, char_offset c, char_code c).

Lemma edits_keep obs was t es : ∀ o cs, map char_name cs `sublist_of` map char_name (apply_edits obs was t o es cs).
Proof.
  assert (Hplace : ∀ n new cs, map char_name cs `sublist_of` map char_name (place obs t n new cs)).
  { intros n new cs. revert n. induction cs as [|c cs IH]; intros n; cbn [place]; [apply sublist_nil_l|].
    case_match; cbn [map]; [rewrite map_app; by apply sublist_inserts_l|by apply sublist_skip]. }
  assert (Hdelete : ∀ s e o cs, map char_name (delete_from obs was t o s e cs) = map char_name cs).
  { intros s e o cs. revert o. induction cs as [|c cs IH]; intros o; [done|]. cbn [delete_from map]. rewrite IH. f_equal.
    case_bool_decide; [|done]. unfold strike. by destruct (_ && _). }
  induction es as [|[[s e] text] es IH]; intros o cs; [done|]. cbn [apply_edits]. etrans; [|apply IH].
  unfold edit_one. by rewrite insert_at_place, Hdelete.
Qed.

Lemma undo_keeps u d : map char_name (doc_chars (doc_apply (DocUndo u) d)) = map char_name (doc_chars d).
Proof. cbn [doc_apply doc_chars]. rewrite List.map_map. by apply map_ext. Qed.

Section edit.
Context `{Build, SortOk} {base : Lamport → Prop}.

(** After its own edit a replica can undo. *)
Lemma edit_ready b d edits text' texts start_now end_now :
  own_edit_ok (base:=base) b d edits text' texts → (value (lamport_clock b) + 3 < 2 ^ 32)%N →
  ∃ b1 t es, let o := DocEdit (version (snapshot b)) t es in
    buffer_edit b edits start_now end_now = Some (b1, wire o) ∧ undo_ready (base:=base) b1 (doc_apply o d) ∧
    observed (version (snapshot b)) t = false ∧ observed (version (snapshot b1)) t = true ∧
    (value (lamport_clock b1) + 1 < 2 ^ 32)%N ∧ codes true (doc_chars (doc_apply o d)) = text'.
Proof.
  intros Hok Hclk. destruct (buffer_edit_replica b d edits text' texts start_now end_now Hok)
    as (b1&t&es&E&_&Hle&_&_&Hb1&Et&Ev&Ec&Hge&_&Hops). cbv zeta in *. set (V := version (snapshot b)) in *.
  assert (Hahead : ∀ r, (get V r < value t)%N) by (intros r; eapply N.lt_le_trans; [apply (own_clock _ _ _ _ _ Hok r)|done]).
  destruct (clock_new V t Hahead) as [Hnew _].
  assert (Ec1 : value (lamport_clock b1) = (value t + 1)%N) by (rewrite Ec; apply N.mod_small; lia).
  exists b1, t, es. cbv zeta. split; [done|]. split; [|split; [done|split; [rewrite Ev; apply observe_self|split; [lia|done]]]].
  split; [done| | |done].
  - pose proof (own_text _ _ _ _ _ Hok) as [_ _ [_ Hus] _ _ _]. rewrite Ev. eapply Forall_impl; [exact Hus|]. cbn. intros v. apply observe_mono.
  - intros r. rewrite Ev, Ec1, get_observe. specialize (Hahead r). case_decide; lia.
Qed.

(** C3: Undoing takes an edit back.  When an edit of the buffer starts a
    transaction of its own, [undo] right after it succeeds, returns the
    identifier of that transaction, and shows the text there was before the
    edit; the undo stack is what it was and the redo stack holds the edit.  No
    character is lost: those of the document before the edit, and those it
    inserted, are all still there in their order. *)
Theorem edit_then_undo b d edits text' texts start_now end_now :
  own_edit_ok (base:=base) b d edits text' texts → (∀ t, base t → observed (version (snapshot b)) t = true) →
  transaction_depth (history b) = 0 → starts_group (history b) start_now → (value (lamport_clock b) + 3 < 2 ^ 32)%N →
  (∀ b1 op, buffer_edit b edits start_now end_now = Some (b1, op) → next_undo_room b1 = true) →
  ∃ b1 t es b2 u, let o := DocEdit (version (snapshot b)) t es in let d2 := doc_apply (DocUndo u) (doc_apply o d) in
    buffer_edit b edits start_now end_now = Some (b1, wire o) ∧ RopeTree.rope_text text' (visible_text (snapshot b1)) ∧
    undo b1 = Some (b2, Some (lamport_clock b, OpUndo u)) ∧
    RopeTree.rope_text (codes true (doc_chars d)) (visible_text (snapshot b2)) ∧
    undo_stack (history b2) = undo_stack (history b) ∧
    redo_stack (history b2) = [edit_entry (lamport_clock b) t (version (snapshot b)) start_now end_now] ∧
    replica_at (base:=base) b2 d2 ∧ map char_name (doc_chars d2) = map char_name (doc_chars (doc_apply o d)) ∧
    map char_name (doc_chars d) `sublist_of` map char_name (doc_chars d2).
Proof.
  intros Hok Hbase Hd Hg Hclk Hroom. destruct (edit_ready b d edits text' texts start_now end_now Hok Hclk)
    as (b1&t&es&E&Hb1&Hnew&Hself&Hc1&Et). cbv zeta in *. set (V := version (snapshot b)) in *. set (o := DocEdit V t es) in *.
  specialize (Hroom b1 _ E). destruct (own_history _ _ _ _ _ Hok) as [_ [lh Hlh]].
  assert (Hh : height (operations (history b1)) < STACK_CAPACITY).
  { destruct (list.last (undo_stack (history b1))) eqn:El; unfold next_undo_room in Hroom; rewrite El in Hroom.
    - unfold undo_room in Hroom. by apply andb_true_iff in Hroom as [[[?%Nat.ltb_lt _]%andb_true_iff _]%andb_true_iff _].
    - by apply Nat.ltb_lt. }
  destruct (edit_history b edits start_now end_now b1 _ lh E Hd Hg Hlh Hh) as (Hd1&Er1&Eu1). cbn [edit_timestamp] in Eu1. fold V in Eu1.
  pose proof (undo_step b1 _ Hb1 Hc1 Hd1 Hroom) as Hundo. rewrite Eu1, last_snoc in Hundo.
  destruct Hundo as (b2&u&E2&Hu&_&Eu2&Er2).
  { intros e [= <-]. apply Forall_singleton. split; [done|]. intros Hbt%Hbase. fold V in Hbt. congruence. }
  pose proof (own_text _ _ _ _ _ Hok) as [Hb _ Hseen Hnamed _ _].
  assert (Hun : unnamed (doc_undos d) t).
  { eapply Forall_impl; [exact Hnamed|]. intros v Hv. cbn in Hv. destruct (count_for t v) as [n|] eqn:En; [|done].
    specialize (Hv t n En). fold V in Hv. congruence. }
  assert (Ed : codes true (doc_chars (doc_apply (DocUndo u) (doc_apply o d))) = codes true (doc_chars d)).
  { apply undo_edit_text; [apply Hb|done|done|done|]. intros e. rewrite (undoes_counts _ _ _ _ _ Hu). cbn [edit_entry transaction edit_ids].
    case_decide as He; [|done]. apply list_elem_of_singleton in He as ->. cbn [doc_apply doc_undos o]. by rewrite unnamed_greatest. }
  pose proof (ready_replica _ _ (undoes_ready _ _ _ _ _ Hu)) as Hb2.
  exists b1, t, es, b2, u. cbv zeta. split; [done|]. split; [rewrite <- Et; apply (replica_text (base:=base)), Hb1|]. split; [done|].
  split; [rewrite <- Ed; by apply (replica_text (base:=base) _ _ Hb2)|]. split; [by apply app_inj_tail in Eu2 as [<- _]|]. split; [by rewrite Er2, Er1|].
  split; [done|]. split; [apply undo_keeps|]. rewrite undo_keeps. apply edits_keep.
Qed.
End edit.

(** *** On the small buffer *)

Definition small_edited : option Buffer := b ← small_buffer; fst <$> buffer_edit (H:=true) (H0:=merge) b small_edits 5%N 6%N.

Lemma fmap_computed {A B} (f : A → B) (o : option A) a x : f <$> o = Some x → o = Some a → f a = x.
Proof. by intros E ->; injection E. Qed.

Lemma small_starts_group b : small_buffer = Some b → starts_group (history b) 5%N.
Proof.
  intros E e. assert (H : (λ b, undo_stack (history b)) <$> small_buffer = Some []) by (vm_compute; reflexivity).
  apply (fmap_computed _ _ b) in H; [|done]. by rewrite H.
Qed.

Lemma small_edited_at b b1 op :
  small_buffer = Some b → buffer_edit (H:=true) (H0:=merge) b small_edits 5%N 6%N = Some (b1, op) → small_edited = Some b1.
Proof. unfold small_edited. intros -> E. cbn [mbind option_bind]. by rewrite E. Qed.

Lemma small_edited_room b1 : small_edited = Some b1 → next_undo_room (H0:=merge) b1 = true.
Proof. apply fmap_computed. vm_compute. reflexivity. Qed.

Lemma edit_then_undo_witness :
  ∃ b b1 op b2 u, small_buffer = Some b ∧ buffer_edit (H:=true) (H0:=merge) b small_edits 5%N 6%N = Some (b1, op) ∧
    undo (H0:=merge) b1 = Some (b2, Some (mkLamport 2 1, OpUndo u)) ∧
    RopeTree.rope_text small_result (visible_text (snapshot b1)) ∧ RopeTree.rope_text small_text (visible_text (snapshot b2)).
Proof.
  destruct small_own_edit as (b&E&Hok&Hv&Hc). pose proof (small_computed b E) as (_&_&_&Hd&_).
  destruct (edit_then_undo (H:=true) (H0:=merge) (H1:=merge_ok) b small_doc small_edits small_result _ 5%N 6%N Hok)
    as (b1&t&es&b2&u&Eb&Et1&Eu&Et2&_).
  - intros t ->. rewrite Hv. by vm_compute.
  - exact Hd.
  - by apply small_starts_group.
  - rewrite Hc. by vm_compute.
  - intros b1 op Eb. by apply small_edited_room, (small_edited_at b b1 op).
  - rewrite Hc in Eu. eexists b, b1, _, b2, u. split; [exact E|]. split; [exact Eb|]. split; [exact Eu|]. split; [exact Et1|exact Et2].
Defined.

Lemma small_redo_room b1 b2 r : small_edited = Some b1 → undo (H0:=merge) b1 = Some (b2, r) → next_redo_room (H0:=merge) b2 = true.
Proof.
  intros E1 E2. assert (H : (λ r, next_redo_room (H0:=merge) r.1) <$> (b ← small_edited; undo (H0:=merge) b) = Some true) by (vm_compute; reflexivity).
  apply (fmap_computed _ _ (b2, r)) in H; [done|]. rewrite E1. exact E2.
Qed.

Lemma small_edited_facts b1 :
  small_edited = Some b1 → lamport_clock b1 = mkLamport 4 1 ∧ height (operations (history b1)) < STACK_CAPACITY.
Proof.
  intros E. assert (H : (λ b, (lamport_clock b, height (operations (history b)))) <$> small_edited = Some (mkLamport 4 1, 0)) by (vm_compute; reflexivity).
  apply (fmap_computed _ _ b1) in H; [|exact E]. injection H as -> ->. split; [reflexivity|unfold STACK_CAPACITY; lia].
Qed.

(** The buffer that has just been edited can undo the edit. *)
Lemma small_undo_ready :
  ∃ b1 t es, let d1 := doc_apply (DocEdit other_version t es) small_doc in
    small_edited = Some b1 ∧ undo_ready (base:=is_base) b1 d1 ∧ (value (lamport_clock b1) + 2 < 2 ^ 32)%N ∧
    transaction_depth (history b1) = 0 ∧ list.last (undo_stack (history b1)) = Some (edit_entry (mkLamport 2 1) t other_version 5 6) ∧
    observed (version (snapshot b1)) t = true ∧ ¬ is_base t ∧ codes true (doc_chars d1) = small_result.
Proof.
  destruct small_own_edit as (b&E&Hok&Hv&Hc). pose proof (small_computed b E) as (_&_&Ho&Hd&_).
  destruct (edit_ready (H:=true) (H0:=merge) (H1:=merge_ok) b small_doc small_edits small_result _ 5%N 6%N Hok)
    as (b1&t&es&Eb&Hb1&Hnew&Hself&_&Et); [rewrite Hc; reflexivity|].
  cbv zeta in *. rewrite Hv in *. pose proof (small_edited_at _ _ _ E Eb) as E1. destruct (small_edited_facts b1 E1) as [Hc1 Hh].
  destruct (own_history _ _ _ _ _ Hok) as [_ [l Hl]].
  destruct (edit_history (H:=true) (H0:=merge) b small_edits 5%N 6%N b1 _ l Eb Hd (small_starts_group b E) Hl Hh) as (Hd1&_&Eu).
  exists b1, t, es. cbv zeta. split; [exact E1|]. split; [exact Hb1|]. split; [rewrite Hc1; reflexivity|]. split; [exact Hd1|].
  split; [rewrite Eu, last_snoc, Hc, Hv; reflexivity|]. split; [exact Hself|]. split; [|exact Et].
  intros ->. vm_compute in Hnew. discriminate Hnew.
Qed.

Lemma undo_then_redo_witness :
  ∃ b1 b2 u b3 u', small_edited = Some b1 ∧ undo (H0:=merge) b1 = Some (b2, Some (mkLamport 2 1, OpUndo u)) ∧
    redo (H0:=merge) b2 = Some (b3, Some (mkLamport 2 1, OpUndo u')) ∧ RopeTree.rope_text small_result (visible_text (snapshot b3)).
Proof.
  destruct small_undo_ready as (b1&t&es&E1&Hb1&Hc&Hd&El&Hself&Hbase&Et).
  pose proof (undo_then_redo (H0:=merge) (H1:=merge_ok) b1 _ Hb1 Hc) as Hu. rewrite El in Hu.
  destruct Hu as (b2&u&E2&_&_&_&_&_&_&_&Hredo).
  - intros e. cbn [doc_apply doc_undos small_doc]. reflexivity.
  - exact Hd.
  - intros e [= <-]. apply Forall_singleton. split; [exact Hself|exact Hbase].
  - by apply small_edited_room.
  - destruct (Hredo (small_redo_room b1 b2 _ E1 E2)) as (_&_&b3&u'&E3&_&_&_&_&_&_&Et3). rewrite Et in Et3.
    exists b1, b2, u, b3, u'. split; [exact E1|]. split; [exact E2|]. split; [exact E3|exact Et3].
Defined.
