(* ===== verification/QueueFacts.v ===== *)
(** The queue of deferred operations holds the operations that were inserted,
    in the order of their timestamps.

    Operations with one timestamp are one operation, so it does not matter
    which of several [dedup_by_key] and [edit] keep. *)

From stdpp Require Import base numbers option list sorting.
From S2P Require Import Prelude Clock SumTree SumTreeFacts Search Cursor CursorFacts StepFacts CursorApi KeyedTree KeyedFacts Splice SnapshotFacts OperationQueue.
From S2P Require Iter.

#[local] Open Scope nat_scope.

(** ** The interface of keyed trees *)

#[export] Instance OperationKey_OrdLaws : OrdLaws OperationKey.
Proof.
  split; unfold cmp, OperationKey_Ord.
  - intros [a] [b]. cbn. rewrite cmp_eq_iff. split; [by intros ->|by intros [= ->]].
  - intros [a] [b]. apply cmp_antisym.
  - intros [a] [b] [c]. cbn. apply cmp_lt_trans.
Qed.

#[export] Instance OperationSummary_SummaryLaws : SummaryLaws OperationSummary ().
Proof.
  split; cbn; try done.
  - intros _ [??] [??] [??] _ _ _. cbn. f_equal. lia.
  - by intros _ [??] _.
Qed.

#[export] Instance OperationKey_DimensionLaws : DimensionLaws OperationKey OperationSummary ().
Proof. by intros cx d a b _ _. Qed.

#[export] Instance OperationItem_KeyedLaws {T} `{HasTimestamp T} : KeyedLaws (OperationItem T) OperationSummary OperationKey ().
Proof.
  split; try apply _; [done|]. intros cx [k]. apply UndoMapFacts.Lamport_MIN_least.
Qed.

(** ** [dedup_by_key] *)

Section dedup.
Context {A K : Type} `{OrdLaws K} (f : A → K).
Implicit Types (a b : A) (l : list A).

Lemma dedup_from_spec l : ∀ a,
  StronglySorted (λ a b, cmp (f a) (f b) ≠ Gt) (a :: l) → (∀ x y, x ∈ a :: l → y ∈ a :: l → f x = f y → x = y) →
  StronglySorted (λ a b, cmp (f a) (f b) = Lt) (dedup_from f a l) ∧ ∀ x, x ∈ dedup_from f a l ↔ x ∈ a :: l.
Proof.
  induction l as [|b l IH]; intros a Hs Hu; cbn [dedup_from]; [split; [by constructor; constructor|done]|].
  inversion Hs as [|? ? Hs' Ha]; subst. apply Forall_cons in Ha as [Hab Ha]. case_bool_decide as E.
  - apply cmp_eq_iff in E. assert (b = a) as -> by (apply Hu; [right; by left|by left|done]).
    destruct (IH a) as [H1 H2]; [by inversion Hs'|intros x y Hx Hy; apply Hu; by right|]. split; [done|]. intros x. rewrite H2, !elem_of_cons. tauto.
  - destruct (IH b) as [H1 H2]; [done|intros x y Hx Hy; apply Hu; by right|]. split; [|intros x; rewrite !elem_of_cons, H2, elem_of_cons; done].
    constructor; [done|]. apply Forall_forall. intros x Hx%H2. assert (Hlt : cmp (f a) (f b) = Lt).
    { rewrite (cmp_antisym (f a)) in E. destruct (cmp (f a) (f b)); cbn in *; done || by destruct E. }
    apply elem_of_cons in Hx as [->|Hx]; [done|]. inversion Hs' as [|? ? _ Hb]; subst. rewrite Forall_forall in Hb. by eapply cmp_lt_le_trans, Hb.
Qed.

Lemma dedup_spec l :
  StronglySorted (λ a b, cmp (f a) (f b) ≠ Gt) l → (∀ x y, x ∈ l → y ∈ l → f x = f y → x = y) →
  StronglySorted (λ a b, cmp (f a) (f b) = Lt) (dedup_by_key f l) ∧ ∀ x, x ∈ dedup_by_key f l ↔ x ∈ l.
Proof. destruct l as [|a l]; [by split; [constructor|]|]. apply dedup_from_spec. Qed.

Lemma strict_keys l : StronglySorted (λ a b, cmp (f a) (f b) = Lt) l → NoDup (f <$> l).
Proof.
  induction 1 as [|a l _ IH Ha]; [constructor|]. rewrite fmap_cons. constructor; [|done].
  intros (b&E&Hb)%list_elem_of_fmap. rewrite Forall_forall in Ha. specialize (Ha b Hb). by rewrite E, cmp_refl in Ha.
Qed.
End dedup.

(** ** The queue *)

Section queue.
Context {T : Type} `{HasTimestamp T} `{Sort, !SortOk}.
Implicit Types (q : OperationQueue T) (ops new : list T) (o : T).

Abbreviation insert_into q new := (queue_insert (sort_unstable_by_key lamport_timestamp) sort_edits q new) (only parsing).

(** The queue holds the operations, in the order of their timestamps. *)
Definition queue_holds q ops : Prop :=
  elements q = map MkOperationItem ops ∧ StronglySorted (λ a b, cmp (lamport_timestamp a) (lamport_timestamp b) = Lt) ops ∧
  ∃ h, wf () h q.

(** Operations with one timestamp are one operation. *)
Definition one_each ops : Prop := ∀ a b, a ∈ ops → b ∈ ops → lamport_timestamp a = lamport_timestamp b → a = b.

Lemma queue_holds_new : queue_holds queue_new [].
Proof. split; [done|]. split; [constructor|]. exists 0. apply wf_new. Qed.

Lemma queue_sorted (l : list (OperationItem T)) :
  sorted (K:=OperationKey) l ↔ StronglySorted (λ a b, cmp (lamport_timestamp a) (lamport_timestamp b) = Lt) (map queued l).
Proof.
  unfold sorted. induction l as [|i l IH]; cbn [map]; [by split; constructor|]. split; inversion 1 as [|? ? Hs Hi]; subst; constructor; try by apply IH.
  - apply Forall_map. exact Hi.
  - apply Forall_map in Hi. exact Hi.
Qed.

Lemma queue_items ops : map queued (map (@MkOperationItem T) ops) = ops.
Proof. rewrite map_map. apply map_id. Qed.

Lemma queue_keyed q ops : queue_holds q ops → height q < STACK_CAPACITY → keyed_tree (K:=OperationKey) () q (map MkOperationItem ops).
Proof.
  intros (El&Hs&h&Hwf) Hh. split; [done|]. split; [by rewrite queue_sorted, queue_items|]. exists h. split; [done|].
  by rewrite (wf_height _ _ _ Hwf) in Hh.
Qed.

Lemma queue_insert_spec q ops new :
  queue_holds q ops → height q < STACK_CAPACITY → one_each (ops ++ new) →
  ∃ q' ops', insert_into q new = Some q' ∧ queue_holds q' ops' ∧ ∀ o, o ∈ ops' ↔ o ∈ ops ∨ o ∈ new.
Proof.
  intros Hq Hh Hu. pose proof (queue_keyed _ _ Hq Hh) as Hk.
  destruct (sort_ok lamport_timestamp new) as [Hp Hsort].
  destruct (dedup_spec lamport_timestamp (sort_unstable_by_key lamport_timestamp new) Hsort) as [Hd Hin].
  { intros x y Hx Hy. rewrite Hp in Hx, Hy. apply Hu; apply elem_of_app; by right. }
  unfold queue_insert. set (dd := dedup_by_key _ _) in *.
  destruct (sort_edits_ok (T:=OperationItem T) (K:=OperationKey)) as [Hpe Hse].
  destruct (edit_spec sort_edits () q _ (map (λ op, Insert (MkOperationItem op)) dd) Hpe Hse Hk)
    as (q'&h&removed&l'&->&Hwf&El&Hs'&Hl&_).
  { rewrite <- list_fmap_compose. apply strict_keys in Hd. rewrite list_fmap_compose in Hd || idtac.
    assert (E : edit_key ∘ (λ op : T, Insert (MkOperationItem op)) <$> dd = MkOperationKey <$> (lamport_timestamp <$> dd)) by (by rewrite <- list_fmap_compose).
    rewrite E. apply NoDup_fmap_2; [by intros ?? [= ->]|done]. }
  cbn [mbind option_bind]. exists q', (map queued l'). split; [done|]. split.
  - split; [rewrite El, map_map; symmetry; etrans; [|apply map_id]; apply map_ext; by intros []|]. split; [by apply queue_sorted|by exists h].
  - intros o. assert (Hmem : o ∈ map queued l' ↔ lookup_key (MkOperationKey (lamport_timestamp o)) l' = Some (MkOperationItem o)).
    { split; [|by intros Hi%lookup_Some_elem; apply elem_map; exists (MkOperationItem o)].
      intros ([o']&->&Hi)%elem_map. exact (lookup_sorted_elem (K:=OperationKey) l' (MkOperationItem o') Hs' Hi). }
    rewrite Hmem, Hl. unfold edited.
    assert (Hmem0 : o ∈ ops ↔ lookup_key (MkOperationKey (lamport_timestamp o)) (map MkOperationItem ops) = Some (MkOperationItem o)).
    { destruct Hk as (_&Hsk&_). split; [|by intros (o'&[= ->]&Hi)%lookup_Some_elem%elem_map].
      intros Hi. refine (lookup_sorted_elem (K:=OperationKey) _ (MkOperationItem o) Hsk _). apply elem_map. by exists o. }
    destruct (edit_for _ _) as [e|] eqn:Ee.
    + apply edit_for_Some in Ee as [Ek (o'&->&Ho')%elem_map]. cbn in Ek. injection Ek as Ek. cbn [inserted_item].
      assert (Ho2 : o' ∈ new) by (by rewrite Hin, Hp in Ho'). split; [by intros [= ->]; right|].
      intros Ho. f_equal. f_equal. apply Hu; rewrite ?elem_of_app; auto.
    + rewrite <- Hmem0. split; [by left|]. intros [?|Ho]; [done|exfalso].
      assert (Hod : o ∈ dd) by by rewrite Hin, Hp. unfold edit_for in Ee.
      eapply find_none in Ee; [|apply list_elem_of_In, elem_map; by exists o]. cbv beta in Ee.
      change (bool_decide (cmp (MkOperationKey (lamport_timestamp o)) (MkOperationKey (lamport_timestamp o)) = Eq) = false) in Ee.
      by rewrite cmp_refl, bool_decide_eq_true_2 in Ee.
Qed.

Lemma queue_iter_spec q ops : queue_holds q ops → height q < STACK_CAPACITY → queue_iter q = Some ops.
Proof.
  intros (El&_&h&Hwf) Hh. rewrite (wf_height _ _ _ Hwf) in Hh. unfold queue_iter.
  rewrite (Iter.iter_collect_spec _ () _ (elements q)); [|by apply (Iter.iter_at_new () h)|by rewrite tree_size_elements].
  cbn [mbind option_bind]. by rewrite El, queue_items.
Qed.

Lemma queue_empty_spec q ops : queue_holds q ops → queue_is_empty q = bool_decide (ops = []).
Proof.
  intros (El&_&h&Hwf). unfold queue_is_empty, queue_len. rewrite (wf_summary _ _ _ Hwf), El. clear.
  assert (E : summary_len (isum () (map (@MkOperationItem T) ops)) = length ops).
  { induction ops as [|o ops IH] using rev_ind; [done|]. rewrite map_app. cbn [map]. unfold isum in *.
    rewrite fmap_app, sum_app. cbn. rewrite IH, length_app. cbn. lia. }
  rewrite E. apply bool_decide_ext. by rewrite length_zero_iff_nil.
Qed.

(** ** The asserted order of the sums

    [add_summary] asserts that the key it adds is above its own, and the
    dimension that it is not below.  Wherever the sums of two adjacent parts of a
    queue are added, the second not empty, both hold. *)

Lemma queue_sum_key (l : list (OperationItem T)) i :
  summary_key (isum () (l ++ [i])) = MkOperationKey (lamport_timestamp (queued i)).
Proof. unfold isum. by rewrite fmap_app, sum_app. Qed.

Lemma queue_dsum_key (l : list (OperationItem T)) :
  dsum () (MkOperationKey Lamport_MIN) l = summary_key (isum () l).
Proof.
  destruct l as [|i l _] using rev_ind; [done|]. rewrite queue_sum_key. unfold dsum. by rewrite foldl_snoc.
Qed.

Lemma queue_sums_ascend ops a b c d :
  StronglySorted (λ a b, cmp (lamport_timestamp a) (lamport_timestamp b) = Lt) ops →
  Forall (λ o, cmp Lamport_MIN (lamport_timestamp o) = Lt) ops →
  map MkOperationItem ops = a ++ b ++ c ++ d → c ≠ [] →
  cmp (summary_key (isum () b)) (summary_key (isum () c)) = Lt ∧
  cmp (dsum () (MkOperationKey Lamport_MIN) (a ++ b)) (summary_key (isum () c)) ≠ Gt.
Proof.
  intros Hs Hmin E Hc.
  destruct c as [|j c _] using rev_ind; [done|]. rewrite queue_sum_key, queue_dsum_key. clear Hc.
  assert (Hsl : sorted (K:=OperationKey) ((a ++ b) ++ (c ++ [j]) ++ d)) by
    (rewrite <- app_assoc, <- E, queue_sorted, queue_items; done).
  assert (Hj : cmp (MkOperationKey Lamport_MIN) (MkOperationKey (lamport_timestamp (queued j))) = Lt).
  { assert (Hin : j ∈ map MkOperationItem ops) by (rewrite E, !elem_of_app, list_elem_of_singleton; tauto).
    apply elem_map in Hin as (o&->&Ho). by eapply Forall_forall in Hmin. }
  assert (Hlt : ∀ l, (∀ i, i ∈ l → i ∈ a ++ b) →
    cmp (summary_key (isum () l)) (MkOperationKey (lamport_timestamp (queued j))) = Lt).
  { intros l Hl. destruct l as [|i l _] using rev_ind; [exact Hj|]. rewrite queue_sum_key.
    apply sorted_app in Hsl as (_&_&Hab). apply (Hab i j); [apply Hl|]; rewrite !elem_of_app, list_elem_of_singleton; auto. }
  split; [apply Hlt; intros i Hi; rewrite elem_of_app; by right|]. by rewrite Hlt.
Qed.
End queue.
