(* ===== verification/Delivery.v ===== *)
(** Delivery: [apply_ops] applies every operation once all that it depends on
    have arrived, in whatever order and batches they come, so replicas that
    have received the same operations show the same text.

    A history is the list of the operations there are, in an order in which no
    operation has seen a later one.  [delivered b A]: the buffer has applied the
    operations [A] of the history, in this order. *)

From stdpp Require Import base numbers option list gmap sorting.
From S2P Require Import Prelude UndoMap TreeMap Clock Locator SumTree SumTreeFacts Cursor Operation History Fragment Splice Snapshot OperationQueue Buffer Document Pieces SpliceOutput SnapshotFacts EditProps SpliceDims RemoteEdit Converge UndoApply Replicas QueueFacts.
From S2P Require KeyedTree TreeMapFacts RopeTree UndoMapFacts HistoryFacts.

#[local] Open Scope nat_scope.

(** ** Versions *)

Definition versions (v : Global) (A : list DocOp) : Global := foldl (λ v o, Global_observe v (op_timestamp o)) v A.

Lemma observed_observe v t x :
  observed (Global_observe v t) x = true ↔ observed v x = true ∨ replica_id x = replica_id t ∧ (value x ≤ value t)%N.
Proof.
  unfold observed. rewrite !bool_decide_eq_true, get_observe. case_decide as E; [|naive_solver]. rewrite N.max_le_iff, E. naive_solver.
Qed.

Lemma observed_versions A : ∀ v t,
  observed (versions v A) t = true ↔
  observed v t = true ∨ ∃ p, p ∈ A ∧ replica_id t = replica_id (op_timestamp p) ∧ (value t ≤ value (op_timestamp p))%N.
Proof.
  induction A as [|o A IH]; intros v t.
  { split; [by left|]. intros [?|(p&?%not_elem_of_nil&_)]; done. }
  change (versions v (o :: A)) with (versions (Global_observe v (op_timestamp o)) A). rewrite IH, observed_observe.
  setoid_rewrite elem_of_cons. naive_solver.
Qed.

Lemma canonical_versions A : ∀ v, canonical v → Forall (λ o, Lamport_wf (op_timestamp o)) A → canonical (versions v A).
Proof.
  induction A as [|o A IH]; intros v Hv HA; [done|]. apply Forall_cons in HA as [Ho HA]. apply IH; [by apply canonical_observe|done].
Qed.

(** ** Histories *)

Section history.
Context {base : Lamport → Prop} {v0 : Global} {d0 : Doc} {hist : list DocOp}.
Implicit Types (o p : DocOp) (A : list DocOp).

(** The operations there are: no operation has seen a later one, an operation
    has seen the earlier ones of its own replica, what it has seen is older by
    the clocks, and its version names operations of the history. *)
Record history_ok : Prop := {
  hist_wf : Forall (op_wf base) hist;
  hist_once : NoDup (map op_timestamp hist);
  hist_new : Forall (λ o, observed v0 (op_timestamp o) = false) hist;
  hist_versions : canonical v0 ∧ Forall (λ o, canonical (op_version o) ∧ Lamport_wf (op_timestamp o)) hist;
  hist_causal : causal hist;
  hist_ready : deliverable hist d0;
  hist_own : ∀ o p, o ∈ hist → p ∈ hist → replica_id (op_timestamp o) = replica_id (op_timestamp p) →
    (value (op_timestamp o) < value (op_timestamp p))%N → op_seen p (op_timestamp o) = true;
  hist_older : ∀ o p, o ∈ hist → p ∈ hist → op_seen p (op_timestamp o) = true → cmp (op_timestamp o) (op_timestamp p) = Lt;
  hist_closed : ∀ o r, o ∈ hist → (get (op_version o) r ≤ get v0 r)%N ∨
    ∃ p, p ∈ hist ∧ op_timestamp p = mkLamport (get (op_version o) r) r;
  hist_unnamed : Forall (λ o, unnamed (doc_undos d0) (op_timestamp o)) hist
}.

Context (Hhist : history_ok).

(** Operations that could have been applied, in this order. *)
Record applied A : Prop := {
  applied_of : A ⊆ hist;
  applied_once : NoDup A;
  applied_causal : causal A;
  applied_down : ∀ o p, p ∈ A → o ∈ hist → op_seen p (op_timestamp o) = true → o ∈ A
}.

Lemma applied_nil : applied [].
Proof. split; [by intros o ?%not_elem_of_nil|constructor|constructor|by intros o p ?%not_elem_of_nil]. Qed.

Lemma same_op o p : o ∈ hist → p ∈ hist → op_timestamp o = op_timestamp p → o = p.
Proof. apply NoDup_fmap_inj, Hhist. Qed.

Lemma own_timestamp o : o ∈ hist → op_seen o (op_timestamp o) = false.
Proof. intros Ho. pose proof (hist_wf Hhist) as Hwf. rewrite Forall_forall in Hwf. by apply Hwf. Qed.

(** What is observed has been applied. *)
Lemma observed_applied A o : applied A → o ∈ hist → observed (versions v0 A) (op_timestamp o) = true ↔ o ∈ A.
Proof.
  intros HA Ho. rewrite observed_versions. split.
  - intros [E|(p&Hp&Er&Ev)].
    + pose proof (hist_new Hhist) as Hn. rewrite Forall_forall in Hn. by rewrite Hn in E.
    + pose proof (applied_of _ HA p Hp) as Hph. destruct (N.lt_total (value (op_timestamp o)) (value (op_timestamp p))) as [Hlt|[E|Hgt]].
      * eapply applied_down; [done|exact Hp|done|]. by apply (hist_own Hhist).
      * assert (o = p) as ->; [|done]. apply same_op; [done|done|]. destruct (op_timestamp o), (op_timestamp p); cbn in *; congruence.
      * lia.
  - intros Hin. right. by exists o.
Qed.

Lemma applied_canonical A : applied A → canonical (versions v0 A).
Proof.
  intros HA. destruct (hist_versions Hhist) as [Hv Hc]. apply canonical_versions; [done|]. rewrite Forall_forall in *.
  intros o Ho. by apply Hc, HA.
Qed.

(** An operation can be applied when all it has seen has been. *)
Lemma observed_all_applied A o :
  applied A → o ∈ hist → observed_all (versions v0 A) (op_version o) = true ↔ ∀ p, p ∈ hist → op_seen o (op_timestamp p) = true → p ∈ A.
Proof.
  intros HA Ho. pose proof (applied_canonical A HA) as Hc. destruct (hist_versions Hhist) as [Hv Hcs]. rewrite Forall_forall in Hcs.
  rewrite (observed_all_get _ _ Hc) by by apply Hcs. split.
  - intros Hle p Hp Hs. apply observed_applied; [done|done|]. rewrite op_seen_version in Hs. unfold observed in *.
    rewrite bool_decide_eq_true in *. specialize (Hle (replica_id (op_timestamp p))). lia.
  - intros Hseen r. destruct (hist_closed Hhist o r Ho) as [Hle|(p&Hp&Et)].
    + etrans; [exact Hle|]. assert (E : observed (versions v0 A) (mkLamport (get v0 r) r) = true).
      { apply observed_versions. left. unfold observed. cbn. by apply bool_decide_eq_true. }
      unfold observed in E. by apply bool_decide_eq_true in E.
    + assert (E : observed (versions v0 A) (op_timestamp p) = true).
      { apply observed_applied; [done|done|]. apply Hseen; [done|]. rewrite op_seen_version, Et. unfold observed. cbn. by apply bool_decide_eq_true. }
      rewrite Et in E. unfold observed in E. by apply bool_decide_eq_true in E.
Qed.

Lemma causal_snoc A o : causal A → (∀ p, p ∈ A → op_seen p (op_timestamp o) = false) → causal (A ++ [o]).
Proof.
  unfold causal. induction 1 as [|p A Hs IH Hp]; intros Hn; cbn [app]; [by repeat constructor|]. constructor.
  - apply IH. intros q Hq. apply Hn. by right.
  - apply Forall_app. split; [done|]. apply Forall_singleton. apply Hn. by left.
Qed.

Lemma applied_snoc A o :
  applied A → o ∈ hist → o ∉ A → (∀ p, p ∈ hist → op_seen o (op_timestamp p) = true → p ∈ A) → applied (A ++ [o]).
Proof.
  intros HA Ho Hn Hseen. split.
  - intros p [Hp| ->%list_elem_of_singleton]%elem_of_app; [by apply HA|done].
  - apply NoDup_app. split; [apply HA|]. split; [|apply NoDup_singleton]. by intros p Hp ->%list_elem_of_singleton.
  - apply causal_snoc; [apply HA|]. intros p Hp. destruct (op_seen p (op_timestamp o)) eqn:E; [|done].
    destruct Hn. by apply (applied_down _ HA o p).
  - intros q p Hp Hq Hs. rewrite elem_of_app. left. apply elem_of_app in Hp as [Hp| ->%list_elem_of_singleton].
    + by apply (applied_down _ HA q p).
    + by apply Hseen.
Qed.

Lemma causal_join a b : causal a → causal b → (∀ o p, o ∈ a → p ∈ b → op_seen o (op_timestamp p) = false) → causal (a ++ b).
Proof.
  unfold causal. induction 1 as [|o a Hs IH Ho]; intros Hb Hab; [done|]. cbn [app]. constructor.
  - apply IH; [done|]. intros p q Hp. apply Hab. by right.
  - apply Forall_app. split; [done|]. apply Forall_forall. intros p. apply Hab. by left.
Qed.

Lemma deliverable_app a b d : deliverable (a ++ b) d ↔ deliverable a d ∧ deliverable b (deliver a d).
Proof.
  revert d. induction a as [|o a IH]; intros d; [by cbn; tauto|]. cbn [app deliverable]. rewrite IH.
  change (deliver (o :: a) d) with (deliver a (doc_apply o d)). tauto.
Qed.

Lemma causal_filter (P : DocOp → Prop) `{!∀ o, Decision (P o)} l : causal l → causal (filter P l).
Proof.
  unfold causal. induction 1 as [|o l Hs IH Ho]; [constructor|]. rewrite filter_cons. case_decide; [|done]. constructor; [done|].
  apply Forall_forall. intros p [_ Hp]%list_elem_of_filter. rewrite Forall_forall in Ho. by apply Ho.
Qed.

(** The operations that are left can follow. *)
Lemma applied_extends A :
  applied A → ∃ rest, A ++ rest ≡ₚ hist ∧ causal (A ++ rest).
Proof.
  intros HA. exists (filter (λ p, op_timestamp p ∉ map op_timestamp A) hist). split.
  - apply NoDup_Permutation.
    + apply NoDup_app. split; [apply HA|]. split; [|apply NoDup_filter; eapply NoDup_fmap_1, Hhist].
      intros p Hp [Hn _]%list_elem_of_filter. apply Hn, elem_map. by exists p.
    + eapply NoDup_fmap_1, Hhist.
    + intros p. rewrite elem_of_app, list_elem_of_filter. split; [intros [Hp|[_ Hp]]; [by apply HA|done]|].
      intros Hp. destruct (decide (op_timestamp p ∈ map op_timestamp A)) as [(q&E&Hq)%elem_map|?]; [left|by right].
      by rewrite (same_op p q) by (done || by apply HA).
  - apply causal_join; [apply HA|apply causal_filter, Hhist|]. intros q p Hq [Hn Hp]%list_elem_of_filter.
    destruct (op_seen q (op_timestamp p)) eqn:E; [|done]. destruct Hn. apply elem_map. exists p. split; [done|]. by apply (applied_down _ HA p q).
Qed.

(** Whatever was applied, the documents of two replicas that have applied the
    same operations are equivalent. *)
Lemma applied_deliver A : applied A → A ≡ₚ hist → deliver A d0 ≡ deliver hist d0.
Proof.
  intros HA Hp. apply (deliver_converge A hist d0 d0); [done|done|rewrite Hp; apply Hhist|apply HA|apply Hhist|apply Hhist].
Qed.

Lemma applied_ready A o :
  applied A → o ∈ hist → o ∉ A → (∀ p, p ∈ hist → op_seen o (op_timestamp p) = true → p ∈ A) → op_ready o (deliver A d0).
Proof.
  intros HA Ho Hn Hseen. destruct (applied_extends _ (applied_snoc A o HA Ho Hn Hseen)) as (rest&Hp&Hc).
  destruct (deliver_converge ((A ++ [o]) ++ rest) hist d0 d0) as [Hd _]; try done; try apply Hhist.
  - rewrite Hp. apply Hhist.
  - apply deliverable_app in Hd as [[_ (_&Hd&_)]%deliverable_app _]. exact Hd.
Qed.

Lemma deliver_undos A : ∀ d u, u ∈ doc_undos (deliver A d) → u ∈ doc_undos d ∨ DocUndo u ∈ A.
Proof.
  induction A as [|o A IH]; intros d u Hu; [by left|]. destruct (IH _ _ Hu) as [Hu'|?]; [|right; by right].
  destruct o as [V t es|v]; [by left|]. cbn [doc_apply doc_undos] in Hu'. apply elem_of_cons in Hu' as [->|?]; [right; by left|by left].
Qed.

Lemma applied_unnamed A o : applied A → o ∈ hist → o ∉ A → op_unnamed o (deliver A d0).
Proof.
  intros HA Ho Hn. destruct o as [V t es|u]; [|done]. unfold op_unnamed, unnamed. apply Forall_forall. intros v Hv.
  apply deliver_undos in Hv as [Hv|Hv].
  - pose proof (hist_unnamed Hhist) as Hu. rewrite Forall_forall in Hu. specialize (Hu _ Ho). unfold unnamed in Hu. rewrite Forall_forall in Hu. by apply Hu.
  - destruct (count_for t v) as [n|] eqn:E; [|done]. pose proof (hist_wf Hhist) as Hwf. rewrite Forall_forall in Hwf.
    destruct (Hwf _ (applied_of _ HA _ Hv)) as (_&Hk&_). destruct Hn. apply (applied_down _ HA _ _ Hv); [done|]. by apply (Hk t n).
Qed.
End history.
Arguments history_ok : clear implicits.
Arguments applied : clear implicits.

(** ** The trees fit the stacks *)

(** The states of a loop over operations pass a test. *)
Fixpoint along {St} (ok : St → Operation → bool) (step : St → Operation → option St) (ops : list Operation) (st : St) : bool :=
  match ops with
  | [] => true
  | op :: ops => ok st op && match step st op with Some st => along ok step ops st | None => true end
  end.

Section room.
Context `{Build, Sort}.
Implicit Types (b : Buffer) (st : Buffer * list Operation).

(** The body of the loop of [apply_ops]. *)
Definition receive st (op : Operation) : option (Buffer * list Operation) :=
  h ← History.push (history st.1) op; apply_or_defer (with_history st.1 h, st.2) op.

Definition history_room b : bool := height (operations (history b)) <? STACK_CAPACITY.
Definition queue_room b : bool := height (deferred_ops b) <? STACK_CAPACITY.

Definition flush_room b : bool :=
  queue_room b &&
  match queue_iter (deferred_ops b) with
  | Some ops => along (λ st op, op_room st.1 op) apply_or_defer ops (with_deferred b queue_new ∅, [])
  | None => true
  end.

(** Every tree that [apply_ops] meets fits the stacks of cursors. *)
Definition apply_ops_room b (ops : list Operation) : bool :=
  along (λ st op, history_room st.1 && op_room st.1 op) receive ops (b, []) &&
  match foldlM receive (b, []) ops with
  | Some (b, deferred) => queue_room b && match defer b deferred with Some b => flush_room b | None => true end
  | None => true
  end.
End room.

(** ** The loops *)

Section loops.
Context `{Build, SortOk} {base : Lamport → Prop} {v0 : Global} {d0 : Doc} {hist : list DocOp} (Hhist : history_ok base v0 d0 hist).
Implicit Types (b : Buffer) (o p : DocOp) (A D : list DocOp).

(** The buffer has applied the operations. *)
Record delivered b A : Prop := {
  delivered_applied : applied hist A;
  delivered_document : replica_at (base:=base) b (deliver A d0);
  delivered_version : version (snapshot b) = versions v0 A
}.

Lemma delivered_same b b' A :
  snapshot b' = snapshot b → subscriptions b' = subscriptions b → delivered b A → delivered b' A.
Proof. intros Es Et [HA [Hs Hu Hc Hcoh Ht] Hv]. split; [done| |by rewrite Es]. split; rewrite ?Es, ?Et; done. Qed.

Lemma op_room_same b b' op : snapshot b' = snapshot b → op_room b' op = op_room b op.
Proof. intros E. unfold op_room. by rewrite E. Qed.

(** What remains to be said when an operation has been taken up. *)
Definition taken b o b' A A' D D' : Prop :=
  history b' = history b ∧ deferred_ops b' = deferred_ops b ∧ delivered b' A' ∧ A ⊆ A' ∧
  (D' = D ∧ deferred_replicas b' = deferred_replicas b ∧ o ∈ A' ∨ D' = D ++ [o] ∧ A' = A).

Lemma apply_or_defer_at b A D o :
  delivered b A → o ∈ hist → op_room b (wire o) = true →
  ∃ b' A' D', apply_or_defer (b, map wire D) (wire o) = Some (b', map wire D') ∧ taken b o b' A A' D D' ∧
    (replica_id (op_timestamp o) ∉ deferred_replicas b →
     (∀ p, p ∈ hist → op_seen o (op_timestamp p) = true → p ∈ A) → D' = D ∧ o ∈ A' ∧ deferred_replicas b' = deferred_replicas b).
Proof.
  intros Hb Ho Hroom. pose proof Hb as [HA Hd Hv]. unfold apply_or_defer.
  destruct (can_apply_op b (wire o)) eqn:Ecan.
  - unfold can_apply_op in Ecan. case_bool_decide as Hr; [done|]. rewrite Hv, wire_version in Ecan.
    pose proof (proj1 (observed_all_applied Hhist A o HA Ho) Ecan) as Hseen.
    destruct (observed (version (snapshot b)) (op_timestamp o)) eqn:Eobs.
    + rewrite apply_op_again by by rewrite wire_timestamp. cbn [mbind option_bind].
      rewrite Hv in Eobs. pose proof (proj1 (observed_applied Hhist A o HA Ho) Eobs) as Hin. exists b, A, D. split; [done|]. split; [|done].
      split; [done|]. split; [done|]. split; [done|]. split; [done|]. by left.
    + assert (Hn : o ∉ A). { intros Hin. pose proof (proj2 (observed_applied Hhist A o HA Ho) Hin) as E. rewrite <- Hv in E. congruence. }
      pose proof (hist_wf Hhist) as Hwf. rewrite Forall_forall in Hwf.
      destruct (apply_op_at (base:=base) b (deliver A d0) o) as (b'&->&Hb'&Ev&Eh&Eq&Er); [done|by apply Hwf|by apply (applied_ready Hhist)|by apply (applied_unnamed Hhist)|done|done|].
      cbn [mbind option_bind]. exists b', (A ++ [o]), D. split; [done|].
      assert (Hin : o ∈ A ++ [o]) by (apply elem_of_app; right; by left).
      split; [|done]. split; [done|]. split; [done|]. split.
      * split; [apply applied_snoc; done| |].
        -- unfold deliver. by rewrite foldl_app.
        -- rewrite Ev, Hv. unfold versions. by rewrite foldl_app.
      * split; [by intros p Hp; apply elem_of_app; left|]. by left.
  - eexists _, A, (D ++ [o]). split; [by rewrite map_app|]. split.
    + split; [done|]. split; [done|]. split; [by apply (delivered_same b)|]. split; [done|]. by right.
    + intros Hr Hseen. exfalso. unfold can_apply_op, operation_replica in Ecan. rewrite wire_timestamp, bool_decide_eq_false_2 in Ecan by done.
      rewrite Hv, wire_version in Ecan. by rewrite (proj2 (observed_all_applied Hhist A o HA Ho) Hseen) in Ecan.
Qed.

(** The operations [l] have been taken up: those that could not be applied are
    deferred. *)
Definition all_taken l b' A A' D D' : Prop :=
  delivered b' A' ∧ A ⊆ A' ∧ D' ⊆ D ++ l ∧ D ⊆ D' ∧ ∀ o, o ∈ l → o ∈ A' ∨ o ∈ D'.

Lemma all_taken_nil b A D : delivered b A → all_taken [] b A A D D.
Proof. intros Hb. split; [done|]. split; [done|]. split; [by rewrite app_nil_r|]. split; [done|]. by intros o ?%not_elem_of_nil. Qed.

Lemma all_taken_cons o l b b1 b2 A A1 A2 D D1 D2 :
  taken b o b1 A A1 D D1 → all_taken l b2 A1 A2 D1 D2 → all_taken (o :: l) b2 A A2 D D2.
Proof.
  intros (_&_&_&HA&Ho) (Hd&HA2&Hl&HD2&Hin). split; [done|]. split; [set_solver|].
  assert (HD1 : D1 ⊆ D ++ [o] ∧ D ⊆ D1 ∧ (o ∈ A1 ∨ o ∈ D1)).
  { destruct Ho as [(->&_&?)|[-> _]]; set_solver. }
  destruct HD1 as (HD1&HD&Hor). split; [set_solver|]. split; [set_solver|]. intros p [->|Hp]%elem_of_cons; [|by apply Hin].
  destruct Hor; [left; by apply HA2|right; by apply HD2].
Qed.

Lemma flush_loop l : ∀ b A D,
  delivered b A → l ⊆ hist → along (λ st op, op_room st.1 op) apply_or_defer (map wire l) (b, map wire D) = true →
  ∃ b' A' D', foldlM apply_or_defer (b, map wire D) (map wire l) = Some (b', map wire D') ∧ all_taken l b' A A' D D' ∧
    history b' = history b ∧ deferred_ops b' = deferred_ops b ∧
    (D = [] → deferred_replicas b = ∅ → StronglySorted (λ o p, cmp (op_timestamp o) (op_timestamp p) = Lt) l →
     (∀ o p, o ∈ l → p ∈ hist → op_seen o (op_timestamp p) = true → p ∈ A ∨ p ∈ l) → D' = []).
Proof.
  induction l as [|o l IH]; intros b A D Hb Hl Hroom.
  { exists b, A, D. split; [done|]. split; [by apply all_taken_nil|]. done. }
  assert (Ho : o ∈ hist) by (apply Hl; by left). cbn [map along] in Hroom. apply andb_true_iff in Hroom as [Hr Hroom].
  destruct (apply_or_defer_at b A D o Hb Ho Hr) as (b1&A1&D1&E&Ht&Hlive). cbn [map foldlM]. rewrite E in *. cbn [mbind option_bind].
  pose proof Ht as (Eh&Eq&Hb1&HA1&_).
  destruct (IH b1 A1 D1 Hb1) as (b2&A2&D2&->&Ht2&Eh2&Eq2&Hlive2); [by intros p Hp; apply Hl; right|done|].
  exists b2, A2, D2. split; [done|]. split; [by eapply all_taken_cons|]. split; [congruence|]. split; [congruence|].
  intros -> Hrep Hsort Hseen. inversion Hsort as [|? ? Hsort' Hlt]; subst. rewrite Forall_forall in Hlt.
  destruct Hlive as (->&Hin&Erep).
  - rewrite Hrep. apply not_elem_of_empty.
  - intros p Hp Hs. destruct (Hseen o p) as [?|[->|Hpl]%elem_of_cons]; [by left|done|done|done| |].
    + by rewrite (own_timestamp Hhist) in Hs.
    + pose proof (hist_older Hhist p o Hp Ho Hs) as Hgt. pose proof (cmp_lt_trans _ _ _ Hgt (Hlt p Hpl)) as E1. by rewrite cmp_refl in E1.
  - apply Hlive2; [done|by rewrite Erep|done|]. intros q p Hq Hp Hs.
    destruct (Hseen q p) as [?|[->|?]%elem_of_cons]; [by right|done|done|left; by apply HA1|by left|by right].
Qed.

(** The history of a buffer is a map. *)
Definition history_wf b : Prop := ∃ l, TreeMapFacts.map_wf (operations (history b)) l.

Lemma receive_loop l : ∀ b A D,
  delivered b A → history_wf b → l ⊆ hist →
  along (λ st op, history_room st.1 && op_room st.1 op) receive (map wire l) (b, map wire D) = true →
  ∃ b' A' D', foldlM receive (b, map wire D) (map wire l) = Some (b', map wire D') ∧ all_taken l b' A A' D D' ∧
    history_wf b' ∧ deferred_ops b' = deferred_ops b.
Proof.
  induction l as [|o l IH]; intros b A D Hb [lh Hh] Hl Hroom.
  { exists b, A, D. split; [done|]. split; [by apply all_taken_nil|]. split; [by exists lh|done]. }
  assert (Ho : o ∈ hist) by (apply Hl; by left). cbn [map along] in Hroom. apply andb_true_iff in Hroom as [[Hhr Hr]%andb_true_iff Hroom].
  unfold receive in Hroom at 1. cbn [map foldlM]. unfold receive at 2. cbn [fst snd] in *.
  destruct (HistoryFacts.push_spec (history b) (wire o)) as (ops&l'&_&Hwf&Ep).
  { exists lh. apply TreeMapFacts.map_wf_inv; [done|]. by apply Nat.ltb_lt. }
  rewrite Ep in *. cbn [mbind option_bind] in *. set (h := mkHistory _ ops _ _ _ _) in *.
  destruct (apply_or_defer_at (with_history b h) A D o) as (b1&A1&D1&E&Ht&_); [by apply (delivered_same b)|done|by rewrite (op_room_same b)|].
  rewrite E in *. cbn [mbind option_bind]. pose proof Ht as (Eh&Eq&Hb1&HA1&_).
  destruct (IH b1 A1 D1 Hb1) as (b2&A2&D2&->&Ht2&Hh2&Eq2); [exists l'; by rewrite Eh|by intros p Hp; apply Hl; right|done|].
  exists b2, A2, D2. split; [done|]. split; [by eapply all_taken_cons|]. split; [done|]. by rewrite Eq2, Eq.
Qed.

(** ** The queue *)

Lemma wire_inj o p : o ∈ hist → p ∈ hist → wire o = wire p → o = p.
Proof. intros Ho Hp E. apply (same_op Hhist); [done|done|]. by rewrite <- !wire_timestamp, E. Qed.

Lemma wire_elem o l : o ∈ hist → l ⊆ hist → wire o ∈ map wire l ↔ o ∈ l.
Proof.
  intros Ho Hl. split; [|intros ?; apply elem_map; by exists o]. intros (p&E&Hp)%elem_map. by rewrite (wire_inj o p Ho (Hl p Hp) E).
Qed.

Lemma wire_list (ops : list Operation) (l : list DocOp) :
  (∀ x, x ∈ ops → x ∈ map wire l) → ∃ Q, ops = map wire Q ∧ Q ⊆ l.
Proof.
  induction ops as [|x ops IH]; intros Hops; [exists []; split; [done|by intros o ?%not_elem_of_nil]|].
  destruct IH as (Q&->&HQ); [intros y Hy; apply Hops; by right|].
  destruct (proj1 (elem_map _ _ _) (Hops x ltac:(by left))) as (o&->&Ho). exists (o :: Q). split; [done|].
  intros p [->|Hp]%elem_of_cons; [done|by apply HQ].
Qed.

Lemma one_each_wire l : l ⊆ hist → one_each (map wire l).
Proof.
  intros Hl x y (o&->&Ho)%elem_map (p&->&Hp)%elem_map E. f_equal. apply (same_op Hhist); [by apply Hl|by apply Hl|].
  rewrite <- !wire_timestamp. exact E.
Qed.

Lemma defer_at b Q D :
  queue_holds (deferred_ops b) (map wire Q) → Q ⊆ hist → D ⊆ hist → queue_room b = true →
  ∃ q Q', defer b (map wire D) = Some (with_deferred b q (deferred_replicas b)) ∧
    queue_holds q (map wire Q') ∧ ∀ o, o ∈ Q' ↔ o ∈ Q ∨ o ∈ D.
Proof.
  intros Hq HQ HD Hroom. apply Nat.ltb_lt in Hroom.
  assert (HQD : Q ++ D ⊆ hist) by set_solver.
  destruct (queue_insert_spec (deferred_ops b) (map wire Q) (map wire D) Hq Hroom) as (q&ops&E&Hq'&Hin).
  { rewrite <- map_app. by apply one_each_wire. }
  destruct (wire_list ops (Q ++ D)) as (Q'&->&HQ').
  { intros x Hx. rewrite map_app, elem_of_app. by apply Hin. }
  exists q, Q'. split; [|split; [done|]].
  - unfold defer. change (timestamp) with (@lamport_timestamp Operation _). rewrite E. done.
  - intros o. split.
    + intros Ho. specialize (HQ' o Ho). by apply elem_of_app in HQ'.
    + intros Ho. assert (Hoh : o ∈ hist) by set_solver. rewrite <- (wire_elem o Q' Hoh) by set_solver.
      apply Hin. rewrite !wire_elem by done. done.
Qed.

(** The buffer has received the operations [R]: those it has not applied wait
    in the queue, and none does when the whole history has arrived. *)
Record holding b (R A Q : list DocOp) : Prop := {
  holding_delivered : delivered b A;
  holding_history : history_wf b;
  holding_queue : queue_holds (deferred_ops b) (map wire Q);
  holding_of : R ⊆ hist ∧ Q ⊆ hist;
  holding_each : ∀ o, o ∈ R → o ∈ A ∨ o ∈ Q;
  holding_live : hist ⊆ R → Q = []
}.

Lemma wire_sorted l :
  StronglySorted (λ a b : Operation, cmp (lamport_timestamp a) (lamport_timestamp b) = Lt) (map wire l) →
  StronglySorted (λ o p, cmp (op_timestamp o) (op_timestamp p) = Lt) l.
Proof.
  induction l as [|o l IH]; [constructor|]. inversion 1 as [|? ? Hs Ho]; subst. constructor; [by apply IH|].
  apply Forall_map in Ho. eapply Forall_impl; [exact Ho|]. intros p Hp. unfold lamport_timestamp, Operation_HasTimestamp in Hp.
  by rewrite !wire_timestamp in Hp.
Qed.

Lemma flush_at b R A Q :
  delivered b A → history_wf b → queue_holds (deferred_ops b) (map wire Q) → R ⊆ hist → Q ⊆ hist →
  (∀ o, o ∈ R → o ∈ A ∨ o ∈ Q) → flush_room b = true →
  ∃ b' A' Q', flush_deferred_ops b = Some b' ∧ holding b' R A' Q'.
Proof.
  intros Hb Hh Hq HR HQ Hor Hroom. unfold flush_room in Hroom. apply andb_true_iff in Hroom as [Hqr%Nat.ltb_lt Hroom].
  pose proof (queue_iter_spec _ _ Hq Hqr) as Eit. rewrite Eit in Hroom. unfold flush_deferred_ops, queue_drain. rewrite Eit. cbn [mbind option_bind].
  destruct (flush_loop Q (with_deferred b queue_new ∅) A []) as (b1&A1&D1&E&(Hb1&HA1&HD1&_&Hin)&Eh&Eq&Hlive); [by apply (delivered_same b)|done|done|].
  cbn [map] in E. rewrite E. cbn [mbind option_bind].
  destruct (defer_at b1 [] D1) as (q&Q'&->&Hq'&HQ').
  { rewrite Eq. apply queue_holds_new. }
  { by intros o ?%not_elem_of_nil. } { set_solver. } { unfold queue_room. by rewrite Eq. }
  eexists _, A1, Q'. split; [reflexivity|]. split.
  - by apply (delivered_same b1).
  - destruct Hh as [lh Hh]. exists lh. change (history (with_deferred b1 q _)) with (history b1). by rewrite Eh.
  - exact Hq'.
  - split; [done|]. intros o [[]%not_elem_of_nil|Ho]%HQ'. set_solver.
  - intros o Ho. destruct (Hor o Ho) as [?|Hoq]; [left; by apply HA1|]. rewrite HQ'. destruct (Hin o Hoq); auto.
  - intros Hall. assert (E1 : D1 = []).
    { apply Hlive; [done|done|apply wire_sorted; by destruct Hq as (_&?&_)|]. intros o p _ Hp _. apply Hor. by apply Hall. }
    destruct Q' as [|o Q']; [done|]. destruct (proj1 (HQ' o) ltac:(by left)) as [Ho|Ho]; [by apply not_elem_of_nil in Ho|].
    rewrite E1 in Ho. by apply not_elem_of_nil in Ho.
Qed.

Lemma apply_ops_at b R A Q l :
  holding b R A Q → l ⊆ hist → apply_ops_room b (map wire l) = true →
  ∃ b' A' Q', apply_ops b (map wire l) = Some b' ∧ holding b' (R ++ l) A' Q'.
Proof.
  intros [Hb Hh Hq [HR HQ] Hor _] Hl Hroom. unfold apply_ops_room in Hroom. apply andb_true_iff in Hroom as [Hroom1 Hroom2].
  destruct (receive_loop l b A [] Hb Hh Hl Hroom1) as (b1&A1&D1&E&(Hb1&HA1&HD1&_&Hin)&Hh1&Eq). cbn [map] in E.
  unfold apply_ops. change (foldlM _ (b, []) (map wire l)) with (foldlM receive (b, []) (map wire l)). rewrite E in *. cbn [mbind option_bind].
  apply andb_true_iff in Hroom2 as [Hqr Hroom2].
  destruct (defer_at b1 Q D1) as (q&Q'&Ed&Hq'&HQ'); [by rewrite Eq|done|set_solver|done|]. rewrite Ed in *. cbn [mbind option_bind].
  apply (flush_at _ (R ++ l) A1 Q').
  - by apply (delivered_same b1).
  - exact Hh1.
  - exact Hq'.
  - set_solver.
  - intros o [?|?]%HQ'; set_solver.
  - intros o [Ho|Ho]%elem_of_app; rewrite HQ'; [destruct (Hor o Ho)|destruct (Hin o Ho)]; auto.
  - exact Hroom2.
Qed.
End loops.

(** ** All of the history *)

Section properties.
Context `{Build, SortOk} {base : Lamport → Prop}.
Implicit Types (b : Buffer) (d : Doc) (hist : list DocOp) (batches : list (list DocOp)).

(** The calls of [apply_ops], one for each batch. *)
Definition receive_all b batches : option Buffer := foldlM (λ b l, apply_ops b (map wire l)) b batches.

Fixpoint receive_room b batches : bool :=
  match batches with
  | [] => true
  | l :: batches =>
      apply_ops_room b (map wire l) && match apply_ops b (map wire l) with Some b => receive_room b batches | None => true end
  end.

(** A buffer with the document [d] and nothing deferred. *)
Record starts b d : Prop := {
  starts_document : replica_at (base:=base) b d;
  starts_history : history_wf b;
  starts_queue : queue_holds (deferred_ops b) []
}.

Definition receives hist batches : Prop := ∀ o, o ∈ hist ↔ o ∈ concat batches.

Lemma receive_at {v0 d0 hist} batches : ∀ b R A Q,
  history_ok base v0 d0 hist → holding (base:=base) (v0:=v0) (d0:=d0) (hist:=hist) b R A Q → concat batches ⊆ hist → receive_room b batches = true →
  ∃ b' A' Q', receive_all b batches = Some b' ∧ holding (base:=base) (v0:=v0) (d0:=d0) (hist:=hist) b' (R ++ concat batches) A' Q'.
Proof.
  induction batches as [|l batches IH]; intros b R A Q Hhist Hb Hl Hroom.
  { exists b, A, Q. split; [done|]. by rewrite app_nil_r. }
  cbn [concat] in *. cbn [receive_room] in Hroom. apply andb_true_iff in Hroom as [Hr Hroom].
  destruct (apply_ops_at Hhist b R A Q l Hb) as (b1&A1&Q1&E&Hb1); [set_solver|done|]. rewrite E in Hroom.
  unfold receive_all. cbn [foldlM]. rewrite E. cbn [mbind option_bind].
  destruct (IH b1 (R ++ l) A1 Q1 Hhist Hb1) as (b2&A2&Q2&E2&Hb2); [set_solver|done|].
  exists b2, A2, Q2. split; [exact E2|]. by rewrite app_assoc.
Qed.

Lemma receive_history {v0 d0 hist} batches b :
  history_ok base v0 d0 hist → starts b d0 → version (snapshot b) = v0 → receives hist batches → receive_room b batches = true →
  ∃ b' A, receive_all b batches = Some b' ∧ delivered (base:=base) (v0:=v0) (d0:=d0) (hist:=hist) b' A ∧ A ≡ₚ hist ∧
    queue_holds (deferred_ops b') [].
Proof.
  intros Hhist [Hd Hh Hq] Hv Hb Hroom. destruct (receive_at batches b [] [] [] Hhist) as (b'&A&Q&E&[Hb' _ Hq' [_ _] Heach Hlive]); [|by intros o Ho%Hb|done|].
  { split; [by split; [apply applied_nil| |]|done|done|split; by intros o ?%not_elem_of_nil|by intros o ?%not_elem_of_nil|done]. }
  rewrite app_nil_l in *. assert (HQ : Q = []) by (apply Hlive; by intros o Ho%Hb). subst Q. exists b', A. split; [exact E|]. split; [done|]. split; [|done].
  destruct Hb' as [HA _ _]. apply NoDup_Permutation; [apply HA|eapply NoDup_fmap_1, Hhist|]. intros o. split; [apply HA|].
  intros Ho%Hb. destruct (Heach o Ho) as [?|?%not_elem_of_nil]; done.
Qed.

(** The text of a history. *)
Lemma receive_text {v0 d0 hist b A} :
  history_ok base v0 d0 hist → coherent d0 → delivered (base:=base) (v0:=v0) (d0:=d0) (hist:=hist) b A → A ≡ₚ hist →
  RopeTree.rope_text (codes true (doc_chars (deliver hist d0))) (visible_text (snapshot b)).
Proof.
  intros Hhist Hc [HA [(ps&Hok&Ef) _ _ Hcoh _] _] Hp.
  rewrite <- (coherent_text _ _ true (applied_deliver Hhist A HA Hp) Hcoh), <- Ef; [by destruct Hok|].
  apply deliver_coherent; [done|apply Hhist| |apply Hhist]. eapply Forall_impl; [apply (hist_wf Hhist)|]. by intros o (_&?&_).
Qed.

(** C2: Every operation is applied eventually: when all the operations of a
    history have arrived, in any order, any number of times and split into any
    calls of [apply_ops], the buffer has applied every one of them and no
    operation is deferred, although operations that arrive before those they
    depend on are deferred, and later ones of their replicas with them. *)
Theorem apply_ops_delivers {v0 d0 hist} b batches :
  history_ok base v0 d0 hist → starts b d0 → version (snapshot b) = v0 → receives hist batches → receive_room b batches = true →
  ∃ b', receive_all b batches = Some b' ∧ has_deferred_ops b' = false ∧
    Forall (λ o, observed (version (snapshot b')) (op_timestamp o) = true) hist.
Proof.
  intros Hhist Hs Hv Hb Hroom. destruct (receive_history batches b Hhist Hs Hv Hb Hroom) as (b'&A&E&[HA _ Hv']&Hp&Hq).
  exists b'. split; [exact E|]. split.
  - unfold has_deferred_ops. by rewrite (queue_empty_spec _ _ Hq).
  - apply Forall_forall. intros o Ho. rewrite Hv'. apply (observed_applied Hhist); [done|done|]. by rewrite Hp.
Qed.

(** C1: Replicas converge: two buffers that start with the same document and
    receive the same operations, each in its own order and batches, show the
    same text, the text of the history. *)
Theorem replicas_converge {v0 d0 hist} b1 b2 batches1 batches2 :
  history_ok base v0 d0 hist →
  starts b1 d0 → version (snapshot b1) = v0 → receives hist batches1 → receive_room b1 batches1 = true →
  starts b2 d0 → version (snapshot b2) = v0 → receives hist batches2 → receive_room b2 batches2 = true →
  ∃ b1' b2', receive_all b1 batches1 = Some b1' ∧ receive_all b2 batches2 = Some b2' ∧
    RopeTree.rope_text (codes true (doc_chars (deliver hist d0))) (visible_text (snapshot b1')) ∧
    RopeTree.rope_text (codes true (doc_chars (deliver hist d0))) (visible_text (snapshot b2')).
Proof.
  intros Hhist Hs1 Hv1 Hb1 Hr1 Hs2 Hv2 Hb2 Hr2.
  destruct (receive_history batches1 b1 Hhist Hs1 Hv1 Hb1 Hr1) as (b1'&A1&E1&Hd1&Hp1&_).
  destruct (receive_history batches2 b2 Hhist Hs2 Hv2 Hb2 Hr2) as (b2'&A2&E2&Hd2&Hp2&_).
  pose proof (replica_coherent _ _ (starts_document _ _ Hs1)) as Hc.
  exists b1', b2'. split; [exact E1|]. split; [exact E2|]. split; by eapply receive_text.
Qed.
End properties.

(** *** Two replicas edit the small buffer *)

(** Replicas 9 and 8 insert at the same place, neither having seen the other;
    then replica 9 undoes its edit. *)
Definition small_history : list DocOp :=
  [DocEdit other_version other_timestamp (zip other_ranges other_texts);
   DocEdit other_version (mkLamport 2 8) [((1, 1), [97]%Z)];
   DocUndo small_undo].

(** The undo arrives first; an operation arrives twice. *)
Definition small_batches1 : list (list DocOp) :=
  match small_history with [e1; e2; u] => [[u; e2]; [e1]] | _ => [] end.
Definition small_batches2 : list (list DocOp) :=
  match small_history with [e1; e2; u] => [[e1; e2]; [e2; u]] | _ => [] end.

Ltac cases_of_history := repeat match goal with
  | H : _ ∈ _ :: _ |- _ => apply elem_of_cons in H as [->|H]
  | H : _ ∈ [] |- _ => by apply not_elem_of_nil in H
  end.

Lemma small_undo_wf : undo_ok small_undo ∧ knows (DocUndo small_undo).
Proof.
  assert (Hok : undo_ok small_undo) by apply NoDup_singleton. split; [done|]. intros e n Hc.
  apply UndoMapFacts.count_for_Some in Hc; [|done]. apply list_elem_of_singleton in Hc as [= -> _]. by vm_compute.
Qed.

(** What the operations have seen: the base text, and for the undo the edit of
    its replica. *)
Lemma get_other_version r : get other_version r = if decide (r = 0%N) then 1%N else 0%N.
Proof. unfold other_version. rewrite get_observe. change (replica_id base_timestamp) with 0%N. case_decide as E; [by rewrite E|done]. Qed.

Lemma small_history_closed o r : o ∈ small_history → (get (op_version o) r ≤ get other_version r)%N ∨
  ∃ p, p ∈ small_history ∧ op_timestamp p = mkLamport (get (op_version o) r) r.
Proof.
  intros Ho. unfold small_history in Ho. cases_of_history; cbn [op_version]; [left; lia|left; lia|].
  change (undo_version small_undo) with (Global_observe other_version other_timestamp). rewrite get_observe. case_decide as E; [right|left; lia].
  rewrite E. eexists. split; [by left|]. by vm_compute.
Qed.

Lemma small_deliverable : deliverable small_history small_doc.
Proof.
  assert (Hb : ∀ V cs n, between_chars (obs V) n cs → seen_boundary V cs n) by (intros V cs n Hn; by apply between_chars_spec).
  split; [done|]. split; [|split; [done|]; split; [|split; [done|]; split; [constructor|done]]].
  all: split; [vm_compute; repeat constructor; discriminate|split; [repeat constructor; discriminate|]].
  all: repeat first [apply Forall_nil_2|apply Forall_cons_2; [split; apply Hb; vm_compute|]].
  all: repeat first [reflexivity|by left|right; split; [lia|]|right].
Qed.

Lemma small_history_ok : history_ok is_base other_version small_doc small_history.
Proof.
  destruct small_undo_wf as [Hu Hk]. split.
  - repeat (constructor; [split; [by vm_compute|split; [exact I || exact Hk|]]|]); [..|constructor].
    + split; [done|]. split; [cbn; lia|]. split; [repeat constructor; compute; intuition congruence|by vm_compute].
    + split; [done|]. split; [cbn; lia|]. split; [repeat constructor; compute; intuition congruence|by vm_compute].
    + split; [exact Hu|]. repeat constructor. discriminate.
  - apply (bool_decide_unpack _). by vm_compute.
  - repeat constructor.
  - assert (Hv : canonical other_version) by (apply canonical_observe; [apply canonical_new|by split; vm_compute]).
    split; [done|]. repeat (constructor; [split; [done || (apply canonical_observe; [done|by split; vm_compute])|by split; vm_compute]|]). constructor.
  - unfold causal. repeat constructor.
  - apply small_deliverable.
  - intros o p Ho Hp. unfold small_history in *. cases_of_history; by vm_compute.
  - intros o p Ho Hp. unfold small_history in *. cases_of_history; by vm_compute.
  - apply small_history_closed.
  - repeat constructor.
Qed.

Definition small_room (b : Buffer) : bool :=
  receive_room (H:=true) (H0:=merge) b small_batches1 && receive_room (H:=true) (H0:=merge) b small_batches2.

Lemma small_starts :
  ∃ b, small_buffer = Some b ∧ starts (base:=is_base) b small_doc ∧ version (snapshot b) = other_version ∧ small_room b = true.
Proof.
  destruct small_replica as (b&E&Hb&_&Hv&(_&Hq&Hh&_)). exists b. split; [exact E|].
  assert (Hroom : small_room <$> small_buffer = Some true) by (vm_compute; reflexivity).
  rewrite E in Hroom. change (Some (small_room b) = Some true) in Hroom. injection Hroom as Hroom.
  split; [|by split]. split; [exact Hb| |].
  - exists []. rewrite Hh. apply TreeMapFacts.map_wf_new.
  - rewrite Hq. apply queue_holds_new.
Qed.

Lemma small_receives : receives small_history small_batches1 ∧ receives small_history small_batches2.
Proof. unfold receives, small_history, small_batches1, small_batches2. cbn [small_history concat app]. split; intros o; rewrite !elem_of_cons; tauto. Qed.

Lemma apply_ops_delivers_witness :
  ∃ b b', small_buffer = Some b ∧ receive_all (H:=true) (H0:=merge) b small_batches1 = Some b' ∧ has_deferred_ops b' = false.
Proof.
  destruct small_starts as (b&E&Hs&Hv&[Hr1 Hr2]%andb_true_iff). destruct small_receives as [Hb1 Hb2].
  destruct (apply_ops_delivers (H:=true) (H0:=merge) (H1:=merge_ok) b small_batches1 small_history_ok Hs Hv Hb1 Hr1) as (b'&Eb&Hd&_).
  exists b, b'. split; [exact E|]. split; [exact Eb|exact Hd].
Defined.

Lemma replicas_converge_witness :
  ∃ b b1 b2, small_buffer = Some b ∧
    receive_all (H:=true) (H0:=merge) b small_batches1 = Some b1 ∧ receive_all (H:=true) (H0:=merge) b small_batches2 = Some b2 ∧
    RopeTree.rope_text [104; 97; 105; 233]%Z (visible_text (snapshot b1)) ∧
    RopeTree.rope_text [104; 97; 105; 233]%Z (visible_text (snapshot b2)).
Proof.
  destruct small_starts as (b&E&Hs&Hv&[Hr1 Hr2]%andb_true_iff). destruct small_receives as [Hb1 Hb2].
  destruct (replicas_converge (H:=true) (H0:=merge) (H1:=merge_ok) b b small_batches1 small_batches2 small_history_ok Hs Hv Hb1 Hr1 Hs Hv Hb2 Hr2)
    as (b1&b2&E1&E2&Ht1&Ht2).
  assert (Et : codes true (doc_chars (deliver small_history small_doc)) = [104; 97; 105; 233]%Z) by (vm_compute; reflexivity).
  rewrite Et in Ht1, Ht2. exists b, b1, b2. split; [exact E|]. split; [exact E1|]. split; [exact E2|]. split; [exact Ht1|exact Ht2].
Defined.
