(* ===== verification/Selection.v ===== *)
(** Selections: [crates/text/src/selection.rs].

    A selection is a range with a direction: its head is the end that moves,
    its tail the place where it began.  The positions are of any ordered type;
    the goal of a vertical movement is carried along (its [f64] and [f32] are
    parameters). *)

From stdpp Require Import base numbers option.
From S2P Require Import Prelude.

Inductive SelectionGoal (F64 F32 : Type) :=
  | GoalNone
  | HorizontalPosition (x : F64)
  | HorizontalRange (start end_ : F64)
  | WrappedHorizontalPosition (p : N * F32).
Arguments GoalNone {F64 F32}.
Arguments HorizontalPosition {F64 F32} _.
Arguments HorizontalRange {F64 F32} _ _.
Arguments WrappedHorizontalPosition {F64 F32} _.

Record Selection (Goal_ T : Type) := mkSelection {
  id : nat;
  start : T;
  end_ : T;
  reversed : bool;
  goal : Goal_
}.
Arguments mkSelection {Goal_ T} _ _ _ _ _.
Arguments id {Goal_ T} _.
Arguments start {Goal_ T} _.
Arguments end_ {Goal_ T} _.
Arguments reversed {Goal_ T} _.
Arguments goal {Goal_ T} _.

Section selection.
Context {F64 F32 : Type}.
Abbreviation Sel := (Selection (SelectionGoal F64 F32)) (only parsing).
Abbreviation SelGoal := (SelectionGoal F64 F32) (only parsing).

Section operations.
Context {T : Type}.
Implicit Types self : Sel T.

Definition head self : T := if reversed self then start self else end_ self.
Definition tail self : T := if reversed self then end_ self else start self.

Definition map {S} (f : T → S) self : Sel S :=
  mkSelection (id self) (f (start self)) (f (end_ self)) (reversed self) (goal self).

Definition collapse_to self (point : T) (new_goal : SelGoal) : Sel T :=
  mkSelection (id self) point point false new_goal.

Definition swap_head_tail self : Sel T :=
  if reversed self then mkSelection (id self) (start self) (end_ self) false (goal self)
  else mkSelection (id self) (end_ self) (start self) (reversed self) (goal self).

Definition range self : T * T := (start self, end_ self).

Context `{Ord T}.

Definition is_empty self : bool := bool_decide (cmp (start self) (end_ self) = Eq).

(** [head.cmp(&self.tail()) < Ordering::Equal]. *)
Definition set_head self (head : T) (new_goal : SelGoal) : Sel T :=
  if bool_decide (cmp head (tail self) = Lt) then
    let '(e, r) := if reversed self then (end_ self, true) else (start self, true) in
    mkSelection (id self) head e r new_goal
  else
    let '(s, r) := if reversed self then (end_ self, false) else (start self, false) in
    mkSelection (id self) s head r new_goal.

Definition set_tail self (tail : T) (new_goal : SelGoal) : Sel T :=
  if bool_decide (cmp tail (head self) ≠ Gt) then
    let '(e, r) := if reversed self then (start self, false) else (end_ self, false) in
    mkSelection (id self) tail e r new_goal
  else
    let '(s, r) := if reversed self then (start self, true) else (end_ self, true) in
    mkSelection (id self) s tail r new_goal.

Definition set_head_tail self (head tail : T) (new_goal : SelGoal) : Sel T :=
  if bool_decide (cmp head tail = Lt) then mkSelection (id self) head tail true new_goal
  else mkSelection (id self) tail head false new_goal.

(** [Selection::equals]. *)
Definition equals self (offset_range : T * T) : bool :=
  bool_decide (cmp (start self) offset_range.1 = Eq) && bool_decide (cmp (end_ self) offset_range.2 = Eq).

(** [len]: the subtraction of the positions. *)
Definition len {O} (sub : T → T → O) self : O := sub (end_ self) (start self).
End operations.

(** ** What the operations do *)

Context {T : Type} `{OrdLaws T}.
Implicit Types (self : Sel T) (h t : T).

(** The range of a selection is in order. *)
Definition ordered self : Prop := cmp (start self) (end_ self) ≠ Gt.

(** C34: Moving an end of a selection moves that end and no other, keeps the range
    in order and sets the goal: [set_head] and [set_tail] turn the selection
    around when its ends cross, [set_head_tail] replaces both ends, and
    [collapse_to] leaves an empty selection that is not reversed.
    [swap_head_tail] exchanges head and tail and keeps the goal, but leaves the
    range in order only when the selection was reversed or empty.  Each keeps the
    selection's id. *)
Theorem selection_ends self h t g :
  ordered self →
  (let s := set_head self h g in
    head s = h ∧ tail s = tail self ∧ ordered s ∧ goal s = g ∧ id s = id self) ∧
  (let s := set_tail self t g in
    tail s = t ∧ head s = head self ∧ ordered s ∧ goal s = g ∧ id s = id self) ∧
  (let s := set_head_tail self h t g in
    head s = h ∧ tail s = t ∧ ordered s ∧ goal s = g ∧ id s = id self) ∧
  (let s := collapse_to self h g in
    head s = h ∧ tail s = h ∧ ordered s ∧ is_empty s = true ∧ reversed s = false ∧ goal s = g ∧ id s = id self) ∧
  (let s := swap_head_tail self in
    head s = tail self ∧ tail s = head self ∧ goal s = goal self ∧ id s = id self ∧
    (ordered s ↔ reversed self = true ∨ is_empty self = true)).
Proof.
  unfold ordered. destruct self as [i s e r g0]. cbn [start end_]. intros Ho.
  assert (Hlt : ∀ a b : T, cmp a b ≠ Lt → cmp b a ≠ Gt).
  { intros a b Hab. rewrite (cmp_antisym a b). by destruct (cmp a b). }
  assert (Hgt : ∀ a b : T, ¬ (cmp a b ≠ Gt) → cmp b a ≠ Gt).
  { intros a b Hab. rewrite (cmp_antisym a b). destruct (cmp a b); [by destruct Hab|by destruct Hab|done]. }
  split; [|split; [|split; [|split]]]; cbv zeta.
  - unfold set_head, tail. cbn [reversed start end_ id]. destruct r; case_bool_decide as E; cbn; split_and!; auto; by rewrite ?E.
  - unfold set_tail, head. cbn [reversed start end_ id]. destruct r; case_bool_decide as E; cbn; split_and!; auto.
  - unfold set_head_tail. case_bool_decide as E; cbn; split_and!; auto. by rewrite E.
  - cbn. unfold is_empty. cbn. rewrite cmp_refl. split_and!; done.
  - unfold swap_head_tail, is_empty. cbn [reversed start end_ id goal]. destruct r; cbn; split_and!; try done; [naive_solver|].
    rewrite bool_decide_eq_true, (cmp_antisym s e). destruct (cmp s e) eqn:E; naive_solver.
Qed.
End selection.

(** A selection of [3..7] whose head moves to 1. *)
Lemma selection_ends_witness :
  let s := mkSelection (Goal_:=SelectionGoal Empty_set Empty_set) 0%nat 3%nat 7%nat false GoalNone in
  ordered s ∧ tail (set_head s 1%nat GoalNone) = 3%nat ∧ ordered (set_head s 1%nat GoalNone) ∧ reversed (set_head s 1%nat GoalNone) = true.
Proof.
  intros s. assert (Ho : ordered s) by by vm_compute.
  destruct (selection_ends s 1%nat 1%nat GoalNone Ho) as [(_&Et&Hs&_) _]. split; [exact Ho|]. split; [exact Et|]. split; [exact Hs|reflexivity].
Defined.
