(* ===== verification/Anchor.v ===== *)
(** Anchors: [crates/text/src/anchor.rs], and the methods of
    [BufferSnapshot] of [crates/text/src/text.rs] that make and resolve them.

    An anchor names a place by the insertion whose text is there and an offset
    in that text, so that edits elsewhere do not move it.  A method that can
    panic returns an [option].  Offsets, points and anchors are places
    ([ToOffset]). *)

From stdpp Require Import base numbers option list.
From S2P Require Import Prelude Clock Locator Point SumTree Cursor KeyedTree Fragment Snapshot.
From S2P Require TextSummary Rope Selection.

#[local] Open Scope nat_scope.

(** [cfg!(debug_assertions)]. *)
Class DebugAssertions := cfg_debug_assertions : bool.

Definition debug_assert `{DebugAssertions} (b : bool) : option unit :=
  assert_ (negb cfg_debug_assertions || b).

(** [Bias] in the order of its constructors. *)
#[export] Instance Bias_Ord : Ord Bias := λ a b,
  match a, b with
  | Left, Right => Lt
  | Right, Left => Gt
  | _, _ => Eq
  end.

(** [-] on [u32]. *)
Definition u32_sub (a b : N) : option N := if bool_decide (b ≤ a)%N then Some (a - b)%N else None.

Record Anchor := mkAnchor {
  timestamp_replica_id : ReplicaId;
  timestamp_value : N;
  anchor_offset : N;
  anchor_bias : Bias;
  anchor_buffer_id : N
}.

Definition u32_MAX : N := 2 ^ 32 - 1.

Definition Anchor_new (timestamp : Lamport) (offset : N) (bias : Bias) (buffer_id : N) : Anchor :=
  mkAnchor (replica_id timestamp) (value timestamp) offset bias buffer_id.

Definition min_for_buffer (buffer_id : N) : Anchor :=
  mkAnchor (replica_id Lamport_MIN) (value Lamport_MIN) 0 Left buffer_id.

Definition max_for_buffer (buffer_id : N) : Anchor :=
  mkAnchor (replica_id Lamport_MAX) (value Lamport_MAX) u32_MAX Right buffer_id.

Definition min_min_range_for_buffer (buffer_id : N) : Anchor * Anchor :=
  let min := min_for_buffer buffer_id in (min, min).
Definition max_max_range_for_buffer (buffer_id : N) : Anchor * Anchor :=
  let max := max_for_buffer buffer_id in (max, max).
Definition min_max_range_for_buffer (buffer_id : N) : Anchor * Anchor :=
  (min_for_buffer buffer_id, max_for_buffer buffer_id).

Definition anchor_timestamp (self : Anchor) : Lamport :=
  mkLamport (timestamp_value self) (timestamp_replica_id self).

Definition is_min (self : Anchor) : bool :=
  bool_decide (anchor_timestamp self = Lamport_MIN) && bool_decide (anchor_offset self = 0%N) &&
  bool_decide (anchor_bias self = Left).

Definition is_max (self : Anchor) : bool :=
  bool_decide (anchor_timestamp self = Lamport_MAX) && bool_decide (anchor_offset self = u32_MAX) &&
  bool_decide (anchor_bias self = Right).

(** [to_le_bytes] of an integer of [n] bytes. *)
Fixpoint to_le_bytes (n : nat) (v : N) : list N :=
  match n with
  | O => []
  | S n => (v `mod` 256)%N :: to_le_bytes n (v `div` 256)%N
  end.

(** The 20 bytes, the last of which stays zero. *)
Definition opaque_id (self : Anchor) : list N :=
  to_le_bytes 8 (anchor_buffer_id self) ++ to_le_bytes 4 (anchor_offset self) ++
  to_le_bytes 4 (timestamp_value self) ++ to_le_bytes 2 (timestamp_replica_id self) ++
  [match anchor_bias self with Left => 0 | Right => 1 end; 0]%N.

(** ** Where the text of an anchor is *)

Section resolve.
Context `{DebugAssertions} (self : BufferSnapshot).

Definition anchor_key (anchor : Anchor) : InsertionFragmentKey :=
  mkInsertionFragmentKey (anchor_timestamp anchor) (anchor_offset anchor).

Definition try_find_fragment (anchor : Anchor) : option (option InsertionFragment) :=
  '(_, _, found) ← find_with_prev (D:=InsertionFragmentKey) (insertions self) () (anchor_key anchor) (anchor_bias anchor);
  match found with
  | Some (prev, insertion) =>
      let comparison := cmp (key insertion) (anchor_key anchor) in
      Some (if bool_decide (comparison = Gt) ||
               (bool_decide (anchor_bias anchor = Left) && bool_decide (comparison = Eq) &&
                bool_decide (0 < anchor_offset anchor)%N)
            then prev else Some insertion)
  | None => SumTree.last (insertions self)
  end.

Definition try_fragment_id_for_anchor (anchor : Anchor) : option (option Locator) :=
  if is_min anchor then Some (Some Locator_min)
  else if is_max anchor then Some (Some Locator_max)
  else
    item ← try_find_fragment anchor;
    Some match item with
         | Some insertion =>
             if negb cfg_debug_assertions || bool_decide (insertion_timestamp insertion = anchor_timestamp anchor)
             then Some (insertion_fragment_id insertion) else None
         | None => None
         end.

Definition fragment_id_for_anchor (anchor : Anchor) : option Locator :=
  id ← try_fragment_id_for_anchor anchor; id.

(** The place of a fragment: what is visible before it, and the fragment. *)
Definition find_fragment (id : Locator) : nat * option Fragment :=
  let '(start, _, item) := find (D:=option Locator * nat) (fragments self) None (Some id) Left in (start.2, item).

Definition offset_for_anchor (anchor : Anchor) : option nat :=
  if is_min anchor then Some 0
  else if is_max anchor then Some (Rope.len (visible_text self))
  else
    _ ← debug_assert (bool_decide (anchor_buffer_id anchor = remote_id self));
    _ ← debug_assert (observed (version self) (anchor_timestamp anchor));
    item ← try_find_fragment anchor;
    insertion ← item;
    _ ← assert_ (bool_decide (insertion_timestamp insertion = anchor_timestamp anchor));
    let '(fragment_offset, item) := find_fragment (insertion_fragment_id insertion) in
    fragment ← item;
    if visible fragment then
      overshoot ← u32_sub (anchor_offset anchor) (split_offset insertion);
      Some (fragment_offset + as_usize overshoot)
    else Some fragment_offset.

(** [usize::to_offset]. *)
Definition usize_to_offset (offset : nat) : option nat :=
  b ← Rope.assert_char_boundary cfg_debug_assertions (visible_text self) offset;
  if (b : bool) then Some offset else Rope.floor_char_boundary (visible_text self) offset.

Definition text_summary_for_range {D} `{Rope.TextDimension D} (range : nat * nat) : option D :=
  start ← usize_to_offset range.1;
  c ← Rope.cursor (visible_text self) start;
  end_ ← usize_to_offset range.2;
  '(_, d) ← Rope.cursor_summary c end_;
  Some d.

Definition summary_for_anchor {D} `{Rope.TextDimension D} (anchor : Anchor) : option D :=
  offset ← offset_for_anchor anchor; text_summary_for_range (0, offset).

(** [Selection<Anchor>::resolve]. *)
Definition resolve {D Goal_} `{Rope.TextDimension D} (selection : Selection.Selection Goal_ Anchor) : option (Selection.Selection Goal_ D) :=
  start ← summary_for_anchor (Selection.start selection);
  end_ ← summary_for_anchor (Selection.end_ selection);
  Some (Selection.mkSelection (Selection.id selection) start end_ (Selection.reversed selection) (Selection.goal selection)).

Definition can_resolve (anchor : Anchor) : bool :=
  bool_decide (remote_id self = anchor_buffer_id anchor) &&
  (is_min anchor || is_max anchor || observed (version self) (anchor_timestamp anchor)).

Definition is_valid (anchor : Anchor) : option bool :=
  if bool_decide (anchor_buffer_id anchor ≠ remote_id self) then Some false
  else if is_min anchor || is_max anchor then Some true
  else
    id ← try_fragment_id_for_anchor anchor;
    Some match id with
         | None => false
         | Some fragment_id => match (find_fragment fragment_id).2 with Some fragment => visible fragment | None => false end
         end.

(** ** Making anchors *)

Definition anchor_at_offset (offset : nat) (bias : Bias) : option Anchor :=
  let len := Rope.len (visible_text self) in
  if bool_decide (bias = Left) && bool_decide (offset = 0) then Some (min_for_buffer (remote_id self))
  else if bool_decide (bias = Right) &&
          ((negb cfg_debug_assertions && bool_decide (len ≤ offset)) || bool_decide (offset = len))
  then Some (max_for_buffer (remote_id self))
  else
    b ← Rope.assert_char_boundary cfg_debug_assertions (visible_text self) offset;
    offset ←
      (if (b : bool) then Some offset
       else match bias with
            | Left => Rope.floor_char_boundary (visible_text self) offset
            | Right => Rope.ceil_char_boundary (visible_text self) offset
            end);
    let '(start, _, item) := find (D:=nat) (fragments self) None offset bias in
    match item with
    | Some fragment =>
        overshoot ← usub offset start;
        o ← u32_add (insertion_offset fragment) (as_u32 overshoot);
        Some (Anchor_new (fragment_timestamp fragment) o bias (remote_id self))
    | None => _ ← debug_assert false; Some (max_for_buffer (remote_id self))
    end.

Definition anchor_at {T} (to_offset : T → option nat) (position : T) (bias : Bias) : option Anchor :=
  offset ← to_offset position; anchor_at_offset offset bias.
Definition anchor_before {T} (to_offset : T → option nat) (position : T) := anchor_at to_offset position Left.
Definition anchor_after {T} (to_offset : T → option nat) (position : T) := anchor_at to_offset position Right.

Definition anchor_range_inside {T} (to_offset : T → option nat) (position : T * T) : option (Anchor * Anchor) :=
  a ← anchor_after to_offset position.1; b ← anchor_before to_offset position.2; Some (a, b).
Definition anchor_range_outside {T} (to_offset : T → option nat) (position : T * T) : option (Anchor * Anchor) :=
  a ← anchor_before to_offset position.1; b ← anchor_after to_offset position.2; Some (a, b).

(** ** Comparing and adjusting anchors *)

Definition Anchor_cmp (a b : Anchor) : option comparison :=
  fragment_id_comparison ←
    (if bool_decide (anchor_timestamp a = anchor_timestamp b) then Some Eq
     else
       i ← fragment_id_for_anchor a;
       j ← fragment_id_for_anchor b;
       Some (cmp i j));
  Some (then_with (then_with fragment_id_comparison (cmp (anchor_offset a) (anchor_offset b)))
                  (cmp (anchor_bias a) (anchor_bias b))).

Definition Anchor_min (a b : Anchor) : option Anchor :=
  c ← Anchor_cmp a b; Some (if bool_decide (c = Gt) then b else a).
Definition Anchor_max (a b : Anchor) : option Anchor :=
  c ← Anchor_cmp a b; Some (if bool_decide (c = Lt) then b else a).

Definition bias_left (a : Anchor) : option Anchor :=
  match anchor_bias a with Left => Some a | Right => anchor_before offset_for_anchor a end.
Definition bias_right (a : Anchor) : option Anchor :=
  match anchor_bias a with Left => anchor_after offset_for_anchor a | Right => Some a end.
Definition with_bias (bias : Bias) (a : Anchor) : option Anchor :=
  match bias with Left => bias_left a | Right => bias_right a end.

Abbreviation AnchorRange := (Anchor * Anchor)%type (only parsing).

Definition range_cmp (a b : AnchorRange) : option comparison :=
  c ← Anchor_cmp a.1 b.1;
  match c with Eq => Anchor_cmp b.2 a.2 | ord => Some ord end.

(** [&&] and the second comparison only when the first says so. *)
Definition overlaps (a b : AnchorRange) : option bool :=
  c ← Anchor_cmp a.1 b.2;
  if bool_decide (c = Lt) then c ← Anchor_cmp b.1 a.2; Some (bool_decide (c = Lt)) else Some false.

Definition contains_anchor (a : AnchorRange) (b : Anchor) : option bool :=
  c ← Anchor_cmp a.1 b;
  if bool_decide (c ≠ Gt) then c ← Anchor_cmp a.2 b; Some (bool_decide (c ≠ Lt)) else Some false.

(** [OffsetRangeExt::to_offset]. *)
Definition range_to_offset {T} (to_offset : T → option nat) (range : T * T) : option (nat * nat) :=
  s ← to_offset range.1; e ← to_offset range.2; Some (s, e).
End resolve.
