(* ===== verification/AnchorFacts.v ===== *)
(** What anchors resolve to.

    [anchor_place] says it of a document, the sequence of all characters: an
    anchor is attached to the character that begins (or, with a left bias,
    ends) at its offset of its insertion, and stands before it (after it).
    The searches through the index of insertions and the fragments find that
    place. *)

From stdpp Require Import base numbers option list sets sorting.
From S2P Require Import Prelude Clock Utf8 Locator SumTree SumTreeFacts Search Cursor CursorApi KeyedTree KeyedFacts Fragment Pieces Snapshot Document SpliceOutput SpliceWalk SpliceDims LocalEdit SnapshotFacts UndoApply Anchor.
From S2P Require RopeTree RopeCursor RopeBounds.

#[local] Open Scope nat_scope.
#[local] Existing Instance RopeTree.prod_DimensionLaws.

(** ** The place of an anchor in a document *)

(** Where a character begins and ends in its insertion. *)
Definition char_edge (bias : Bias) (c : Char) : N :=
  N.of_nat (match bias with Left => char_offset c + width c | Right => char_offset c end).

(** The anchor is attached to the character. *)
Definition attached (a : Anchor) (c : Char) : bool :=
  bool_decide (char_timestamp c = anchor_timestamp a) && bool_decide (char_edge (anchor_bias a) c = anchor_offset a).

Definition visible_width (c : Char) : nat := if char_visible c then width c else 0.

Fixpoint place_from (n : nat) (cs : list Char) (a : Anchor) : option nat :=
  match cs with
  | [] => None
  | c :: cs =>
      if attached a c then Some (match anchor_bias a with Left => n + visible_width c | Right => n end)
      else place_from (n + visible_width c) cs a
  end.

Definition anchor_place (cs : list Char) (a : Anchor) : option nat :=
  if is_min a then Some 0 else if is_max a then Some (blen (codes true cs)) else place_from 0 cs a.

Abbreviation vlen cs := (blen (codes true cs)) (only parsing).

Lemma vlen_cons c cs : vlen (c :: cs) = visible_width c + vlen cs.
Proof.
  rewrite codes_cons, RopeCursor.blen_app. unfold visible_width. destruct (char_visible c); [|done].
  rewrite bool_decide_eq_true_2, blen_cons by done. change (blen []) with 0. unfold width. lia.
Qed.

Lemma vlen_app a b : vlen (a ++ b) = vlen a + vlen b.
Proof. by rewrite codes_app, RopeCursor.blen_app. Qed.

Definition beside (bias : Bias) x c : nat := vlen x + match bias with Left => visible_width c | Right => 0 end.

Lemma place_from_Some n cs a m :
  place_from n cs a = Some m →
  ∃ x c y, cs = x ++ c :: y ∧ attached a c = true ∧ m = n + beside (anchor_bias a) x c.
Proof.
  revert n. induction cs as [|c cs IH]; intros n; cbn [place_from]; [done|]. destruct (attached a c) eqn:Ea.
  - intros [= <-]. exists [], c, cs. split; [done|]. split; [done|]. unfold beside. change (vlen []) with 0. destruct (anchor_bias a); lia.
  - intros (x&d&y&->&Hd&->)%IH. exists (c :: x), d, y. split; [done|]. split; [done|]. unfold beside. rewrite vlen_cons. lia.
Qed.

(** Only one character is attached to. *)
Lemma attached_unique a c d :
  apart_ranges (char_range c) (char_range d) → attached a c = true → attached a d = true → False.
Proof.
  unfold attached, apart_ranges, char_range, char_edge. rewrite !andb_true_iff, !bool_decide_eq_true. cbn [fst snd].
  intros H [Ec Eo] [Ed Eo']. specialize (H (eq_trans Ec (eq_sym Ed))). pose proof (width_pos c). pose proof (width_pos d).
  destruct (anchor_bias a); lia.
Qed.

Lemma place_from_at n x c y a :
  chars_apart (x ++ c :: y) → attached a c = true →
  place_from n (x ++ c :: y) a = Some (n + beside (anchor_bias a) x c).
Proof.
  intros Hap Hc. revert n. unfold beside. induction x as [|d x IH]; intros n; cbn [app place_from].
  - rewrite Hc. change (vlen []) with 0. f_equal. destruct (anchor_bias a); lia.
  - cbn [app] in Hap. inversion Hap as [|? ? Hd Hap']; subst. destruct (attached a d) eqn:Ed.
    { exfalso. eapply attached_unique; [|exact Ed|exact Hc]. rewrite Forall_forall in Hd. apply Hd. apply elem_map.
      exists c. split; [done|]. rewrite elem_of_app. right. by left. }
    rewrite IH, vlen_cons by done. f_equal. lia.
Qed.

(** ** A search that stops at a given item *)

Lemma seek_split_here {T S Cx D} `{SummaryLaws S Cx, !Item T S Cx, !ItemLaws T S Cx, !Dimension D S Cx}
    (p : D → bool) (cx : Cx) d (l : list T) k :
  seek_mono p cx d (l ++ k) → (l ≠ [] → p (dsum cx d l) = false) → (∀ i k', k = i :: k' → p (dsum cx d (l ++ [i])) = true) →
  seek_split p cx d (l ++ k) = (l, k).
Proof.
  intros Hm Hl Hk. assert (E : ∀ d, (∀ i k', k = i :: k' → p (dsum cx d [i]) = true) → seek_split p cx d k = ([], k)).
  { intros d' Hp. destruct k as [|i k]; [done|]. cbn [seek_split]. specialize (Hp i k eq_refl). unfold dsum in Hp. cbn in Hp. by rewrite Hp. }
  destruct l as [|i l]; [by apply E|]. rewrite seek_split_skip by (by apply Hl || done). rewrite E; [by rewrite app_nil_r|].
  intros j k' Ek. rewrite <- dsum_app. by eapply Hk.
Qed.

(** ** The entry of the index *)

(** A key that a search with this bias passes, for the key sought. *)
Definition key_passed (bias : Bias) (k target : InsertionFragmentKey) : bool :=
  negb (target_in_child (cmp target k) bias).

Section index.
Context (s : BufferSnapshot) (a : Anchor).
Context (Hwf : ∃ h, wf () h (insertions s)) (Hsorted : sorted (K:=InsertionFragmentKey) (elements (insertions s))).

Lemma try_find_fragment_entry l1 i l2 :
  elements (insertions s) = l1 ++ i :: l2 → (anchor_bias a = Left → (0 < anchor_offset a)%N) →
  key_passed (anchor_bias a) (key i) (anchor_key a) = true →
  Forall (λ j : InsertionFragment, key_passed (anchor_bias a) (key j) (anchor_key a) = false) l2 →
  try_find_fragment s a = Some (Some i).
Proof.
  intros El Hpos Hi Hl2. destruct Hwf as [h Ht].
  assert (Hm : seek_mono (stops () (anchor_key a) (anchor_bias a)) () (dim_zero () : InsertionFragmentKey) (elements (insertions s))).
  { apply seek_mono_ord, key_mono; [done|apply at_most_zero]. }
  assert (Hne : elements (insertions s) ≠ []) by (rewrite El; by destruct l1).
  assert (Hend : ∀ l j k, elements (insertions s) = l ++ j :: k → dsum () (dim_zero () : InsertionFragmentKey) (l ++ [j]) = key j).
  { intros l j k E. rewrite E, cons_middle, app_assoc in Hsorted. apply sorted_app in Hsorted as (?&_).
    rewrite dsum_key; [by rewrite last_snoc|done|apply at_most_zero]. }
  assert (Ecut : seek_split (stops () (anchor_key a) (anchor_bias a)) () (dim_zero () : InsertionFragmentKey) (elements (insertions s)) = (l1 ++ [i], l2)).
  { rewrite El, cons_middle, app_assoc in Hm |- *. apply seek_split_here; [exact Hm|..].
    - intros _. rewrite (Hend l1 i l2 El). unfold key_passed in Hi. by apply negb_true_iff in Hi.
    - intros j k ->. rewrite (Hend (l1 ++ [i]) j k) by by rewrite <- app_assoc.
      apply Forall_cons in Hl2 as [Hj _]. unfold key_passed in Hj. by apply negb_false_iff in Hj. }
  pose proof (find_spec () (anchor_key a) (anchor_bias a) h (insertions s) Ht Hne Hm) as Hf. rewrite Ecut in Hf. destruct Hf as [_ Hf].
  unfold try_find_fragment. rewrite Hf. cbn [mbind option_bind]. destruct l2 as [|j l2].
  { rewrite (last_wf () h) by done. by rewrite El, last_snoc. }
  rewrite last_snoc. f_equal. apply Forall_cons in Hl2 as [Hj _]. unfold key_passed, target_in_child in Hj. apply negb_false_iff in Hj.
  rewrite (cmp_antisym (anchor_key a)). destruct (cmp (anchor_key a) (key j)); [|done|done]. cbn [CompOpp].
  apply bool_decide_eq_true in Hj. rewrite Hj, (bool_decide_eq_true_2 (0 < _)%N) by by apply Hpos. done.
Qed.
End index.

Lemma run_elem ts v d o t c : c ∈ run ts v d o t → char_timestamp c = ts ∧ o ≤ char_offset c ∧ char_offset c + width c ≤ o + blen t.
Proof.
  revert o. induction t as [|z t IH]; intros o; cbn [run]; [by intros ?%not_elem_of_nil|]. rewrite blen_cons.
  intros [->|Hc]%elem_of_cons; [unfold width; cbn; split; [done|lia]|]. apply IH in Hc. split; [apply Hc|]. lia.
Qed.

(** Pieces of one insertion do not begin inside each other. *)
Lemma piece_starts_apart ps p g :
  Forall piece_ok ps → chars_apart (flatten ps) → p ∈ ps → g ∈ ps → p ≠ g →
  fragment_timestamp g.1 = fragment_timestamp p.1 →
  (insertion_offset g.1 < insertion_offset p.1 ∨ insertion_offset p.1 + fragment_len p.1 ≤ insertion_offset g.1)%N.
Proof.
  intros Hok Hap Hp Hg Hne Et. destruct (decide (insertion_offset g.1 < insertion_offset p.1)%N) as [?|Hge]; [by left|right].
  destruct (decide (insertion_offset p.1 + fragment_len p.1 ≤ insertion_offset g.1)%N) as [?|Hlt]; [done|exfalso].
  rewrite Forall_forall in Hok. destruct (Hok g Hg) as (Hgne&_). destruct (Hok p Hp) as (Hpne&Hpok&Hlen&_).
  destruct g as [g t]. cbn [fst snd] in *. destruct t as [|z t]; [done|].
  set (c := mkChar (fragment_timestamp g) (N.to_nat (insertion_offset g)) z (visible g) (deletions g)).
  assert (Hb : ∃ e, e ∈ piece_chars p ∧ char_offset e ≤ N.to_nat (insertion_offset g) < char_offset e + width e).
  { unfold piece_chars. assert (Hin : N.to_nat (insertion_offset p.1) ≤ N.to_nat (insertion_offset g) < N.to_nat (insertion_offset p.1) + blen p.2) by lia.
    clear -Hin. revert Hin. generalize (N.to_nat (insertion_offset p.1)), (N.to_nat (insertion_offset g)). induction p.2 as [|z t IH]; intros o n Hin.
    { change (blen []) with 0 in Hin. lia. }
    rewrite blen_cons in Hin. cbn [run]. destruct (decide (n < o + len_utf8 z)).
    - eexists. split; [by left|]. unfold width. cbn. lia.
    - destruct (IH (o + len_utf8 z) n) as (e&He&?); [lia|]. exists e. split; [by right|done]. }
  destruct Hb as (e&He&Hin).
  destruct (pieces_apart ps p (g, z :: t) e c Hap Hp Hg Hne He ltac:(by left)) as [Hr|Hr].
  - apply run_elem in He as (He&_). change (char_timestamp e = fragment_timestamp g). congruence.
  - cbn in Hr. pose proof (width_pos c). lia.
  - cbn in Hr. pose proof (width_pos c) as Hw. unfold width in *. cbn in *. lia.
Qed.

(** ** The fragment of a character *)

Lemma app_elem {A} (l r x y : list A) c :
  l ++ r = x ++ c :: y → (∃ y', l = x ++ c :: y' ∧ y = y' ++ r) ∨ ∃ x', x = l ++ x' ∧ r = x' ++ c :: y.
Proof.
  intros [(k&->&E)|(k&->&->)]%app_eq_inv; [|right; by exists k]. destruct k as [|d k]; cbn [app] in E.
  - right. exists []. by rewrite !app_nil_r.
  - injection E as <- ->. left. by exists k.
Qed.

Lemma run_char ts v d t x c y : ∀ o,
  run ts v d o t = x ++ c :: y →
  ∃ t1 z t2, t = t1 ++ z :: t2 ∧ x = run ts v d o t1 ∧ c = mkChar ts (o + blen t1) z v d.
Proof.
  revert x. induction t as [|z t IH]; intros x o; cbn [run]; [by destruct x|]. destruct x as [|e x]; cbn [app].
  - intros [= <- _]. exists [], z, t. change (blen []) with 0. by rewrite Nat.add_0_r.
  - intros [= <- E]. apply IH in E as (t1&z'&t2&->&->&->). exists (z :: t1), z', t2. rewrite blen_cons. split; [done|]. split; [done|].
    f_equal. lia.
Qed.

Lemma flatten_char ps x c y :
  flatten ps = x ++ c :: y →
  ∃ l p r t1 z t2, ps = l ++ p :: r ∧ p.2 = t1 ++ z :: t2 ∧
    x = flatten l ++ run (fragment_timestamp p.1) (visible p.1) (deletions p.1) (N.to_nat (insertion_offset p.1)) t1 ∧
    c = mkChar (fragment_timestamp p.1) (N.to_nat (insertion_offset p.1) + blen t1) z (visible p.1) (deletions p.1).
Proof.
  revert x. induction ps as [|p ps IH]; intros x; [by destruct x|]. rewrite flatten_cons. intros E.
  apply app_eq_inv in E as [(k&Ex&Ek)|(k&Ex&Ek)].
  - destruct k as [|c' k]; [|injection Ek as <- Ek].
    + rewrite app_nil_r in Ex. cbn [app] in Ek. destruct (IH [] (eq_sym Ek)) as (l&q&r&t1&z&t2&->&Eq&Ex'&->).
      exists (p :: l), q, r, t1, z, t2. rewrite flatten_cons, <- app_assoc, <- Ex', app_nil_r. by split_and!.
    + apply run_char in Ex as (t1&z&t2&Et&->&->). by exists [], p, ps, t1, z, t2.
  - symmetry in Ek. destruct (IH k) as (l&q&r&t1&z&t2&->&Eq&->&->); [done|].
    exists (p :: l), q, r, t1, z, t2. rewrite flatten_cons, <- app_assoc. by split_and!.
Qed.

Section snapshot.
Context {base : Lamport → Prop} (s : BufferSnapshot) (ps : list Piece) (Hok : snapshot_ok base s ps).

Lemma ids_mono id : seek_mono (stops (@None Global) (Some id) Left) None (undo_position []) (map fst ps).
Proof.
  destruct (snapshot_document _ _ _ Hok) as [Hps Hids _]. intros a b d E Ha.
  destruct (map_split _ _ _ E) as (a'&bd&Ep&->&E2). symmetry in E2. destruct (map_split _ _ _ E2) as (b'&d'&->&->&->).
  rewrite Ep, !Forall_app in Hps. destruct Hps as (Hpa&Hpb&_).
  rewrite <- map_app, !undo_position_pieces by (done || by apply Forall_app). rewrite !stops_id.
  destruct a' as [|x a' _] using rev_ind; [done|]. cbn [app]. rewrite last_snoc. intros Hx.
  destruct b' as [|y b' _] using rev_ind; [by rewrite app_nil_r, last_snoc|]. rewrite !app_assoc, last_snoc.
  eapply cmp_le_trans; [exact Hx|]. rewrite (ids_sorted ps Hids a' x b' y d'); [done|]. by rewrite Ep, <- !app_assoc.
Qed.

Lemma find_fragment_at l p r : ps = l ++ p :: r → find_fragment s (fragment_id p.1) = (vlen (flatten l), Some p.1).
Proof.
  intros E. destruct (snapshot_document _ _ _ Hok) as [Hps Hids _]. destruct (snapshot_tree _ _ _ Hok) as [h Hwf].
  pose proof (snapshot_fragments _ _ _ Hok) as El. unfold find_fragment.
  assert (Hne : elements (fragments s) ≠ []) by (rewrite El, E, map_app; by destruct (map fst l)).
  pose proof (ids_mono (fragment_id p.1)) as Hm. rewrite <- El in Hm.
  pose proof (find_spec (D:=UndoDim) None (Some (fragment_id p.1)) Left h (fragments s) Hwf Hne Hm) as Hf.
  rewrite El, E, map_app in Hf, Hm. cbn [map] in Hf. change (dim_zero None) with (undo_position []) in Hf.
  pose proof Hps as Hpr. rewrite E in Hpr. apply Forall_app in Hpr as [Hpl [Hp Hpr]%Forall_cons].
  rewrite seek_split_here in Hf; [..|].
  - destruct Hf as [-> _]. cbn [head]. rewrite undo_position_pieces by done. done.
  - exact Hm.
  - intros Hl. rewrite undo_position_pieces by done. apply not_true_iff_false. rewrite stops_id. cbn [app].
    destruct l as [|q l _] using rev_ind; [done|]. rewrite last_snoc.
    rewrite (cmp_antisym (fragment_id q.1)), (ids_sorted ps Hids l q [] p r); [by intros []|]. by rewrite E, <- app_assoc.
  - intros i k [= <- <-]. change [p.1] with (map fst [p]). rewrite <- map_app, undo_position_pieces.
    + apply stops_id. cbn [app]. by rewrite last_snoc, cmp_refl.
    + apply Forall_app. split; [done|]. by apply Forall_singleton.
Qed.

(** The entry of a fragment that an anchor is in. *)
Definition within_fragment (a : Anchor) (f : Fragment) : Prop :=
  anchor_timestamp a = fragment_timestamp f ∧
  match anchor_bias a with
  | Left => insertion_offset f < anchor_offset a ≤ insertion_offset f + fragment_len f
  | Right => insertion_offset f ≤ anchor_offset a < insertion_offset f + fragment_len f
  end%N.

Lemma key_passed_cmp bias t o t' o' :
  key_passed bias (mkInsertionFragmentKey t' o') (mkInsertionFragmentKey t o) =
  match cmp t t' with
  | Lt => false
  | Gt => true
  | Eq => match bias with Left => bool_decide (o' < o)%N | Right => bool_decide (o' ≤ o)%N end
  end.
Proof.
  unfold key_passed, target_in_child, cmp at 1, InsertionFragmentKey_Ord, then_with. cbn [key_timestamp key_split_offset].
  destruct (cmp t t'); [|done|done]. unfold cmp, N_Ord. destruct (N.compare_spec o o'), bias; cbn; symmetry;
    rewrite ?bool_decide_eq_true, ?bool_decide_eq_false; lia || done.
Qed.

Lemma fragment_entry a p : p ∈ ps → within_fragment a p.1 → try_find_fragment s a = Some (Some (insertion_fragment_new p.1)).
Proof.
  intros Hp [Et Hin]. destruct (snapshot_document _ _ _ Hok) as [Hps _ _]. pose proof (snapshot_apart _ _ _ Hok) as Hap.
  destruct (snapshot_insertions _ _ _ Hok) as (Hwf&Hs&Hperm).
  assert (Hi : insertion_fragment_new p.1 ∈ elements (insertions s)).
  { rewrite Hperm. apply elem_map. exists p.1. split; [done|]. apply elem_map. by exists p. }
  apply list_elem_of_split in Hi as (l1&l2&El). eapply (try_find_fragment_entry s a Hwf Hs l1 _ l2 El).
  - intros E. rewrite E in Hin. lia.
  - change (key_passed (anchor_bias a) (mkInsertionFragmentKey (fragment_timestamp p.1) (insertion_offset p.1)) (anchor_key a) = true).
    unfold anchor_key. rewrite key_passed_cmp, Et, cmp_refl. destruct (anchor_bias a); apply bool_decide_eq_true; lia.
  - apply Forall_forall. intros j Hj. rewrite El in Hs. apply sorted_app in Hs as (_&Hs&_). apply (sorted_app [_]) in Hs as (_&_&Hlt).
    specialize (Hlt _ j ltac:(by left) Hj). assert (Hin' : j ∈ elements (insertions s)) by (rewrite El, elem_of_app; right; by right).
    rewrite Hperm in Hin'. apply elem_map in Hin' as (f&->&(g&->&Hg)%elem_map).
    change (key_passed (anchor_bias a) (mkInsertionFragmentKey (fragment_timestamp g.1) (insertion_offset g.1)) (anchor_key a) = false).
    change (then_with (cmp (fragment_timestamp p.1) (fragment_timestamp g.1)) (cmp (insertion_offset p.1) (insertion_offset g.1)) = Lt) in Hlt.
    unfold anchor_key. rewrite key_passed_cmp, Et. unfold then_with in Hlt.
    destruct (cmp (fragment_timestamp p.1) (fragment_timestamp g.1)) eqn:Ec; [|done|done]. apply cmp_eq_iff in Ec.
    change (insertion_offset p.1 < insertion_offset g.1)%N in Hlt.
    assert (Hne : p ≠ g) by (intros ->; lia).
    destruct (piece_starts_apart ps p g Hps Hap Hp Hg Hne (eq_sym Ec)); [lia|].
    destruct (anchor_bias a); apply bool_decide_eq_false; lia.
Qed.

(** The fragment of the character an anchor is attached to. *)
Lemma attached_within a x c y :
  flatten ps = x ++ c :: y → attached a c = true →
  ∃ l p r t1 z t2, ps = l ++ p :: r ∧ p.2 = t1 ++ z :: t2 ∧ within_fragment a p.1 ∧
    x = flatten l ++ run (fragment_timestamp p.1) (visible p.1) (deletions p.1) (N.to_nat (insertion_offset p.1)) t1 ∧
    c = mkChar (fragment_timestamp p.1) (N.to_nat (insertion_offset p.1) + blen t1) z (visible p.1) (deletions p.1).
Proof.
  intros Ef Ha. destruct (flatten_char ps x c y Ef) as (l&p&r&t1&z&t2&Eps&Et&->&->). exists l, p, r, t1, z, t2.
  split; [done|]. split; [done|]. split; [|done]. unfold attached, char_edge in Ha.
  apply andb_true_iff in Ha as [Ets%bool_decide_eq_true Eoff%bool_decide_eq_true]. cbn in Ets, Eoff.
  assert (Hp : p ∈ ps) by (rewrite Eps, elem_of_app; right; by left).
  destruct (snapshot_document _ _ _ Hok) as [Hps _ _]. rewrite Forall_forall in Hps. destruct (Hps p Hp) as (_&_&Hlen&_).
  rewrite Et, RopeCursor.blen_app, blen_cons in Hlen. unfold width in Eoff. cbn [char_code] in Eoff.
  pose proof (width_pos (mkChar (fragment_timestamp p.1) 0 z true [])) as Hw. unfold width in Hw. cbn [char_code] in Hw.
  split; [done|]. destruct (anchor_bias a); lia.
Qed.

(** Resolving an anchor finds its place in the document. *)
Lemma resolve_attached `{DebugAssertions} a x c y :
  can_resolve s a = true → is_min a = false → is_max a = false → flatten ps = x ++ c :: y → attached a c = true →
  offset_for_anchor s a = Some (beside (anchor_bias a) x c).
Proof.
  intros Hres Emin Emax Ef Ha. unfold offset_for_anchor. unfold can_resolve in Hres. rewrite Emin, Emax in Hres |- *.
  apply andb_true_iff in Hres as [Hid%bool_decide_eq_true Hobs]. cbn [orb] in Hobs.
  rewrite Hid, bool_decide_eq_true_2, Hobs by done. unfold debug_assert. rewrite orb_true_r. cbn [assert_ mbind option_bind].
  destruct (attached_within a x c y Ef Ha) as (l&p&r&t1&z&t2&Eps&Et&Hin&->&->).
  rewrite (fragment_entry a p); [|rewrite Eps, elem_of_app; right; by left|done].
  destruct Hin as [Ets Hin]. unfold attached in Ha. apply andb_true_iff in Ha as [_ Eoff%bool_decide_eq_true]. cbn in Eoff.
  cbn [mbind option_bind]. rewrite bool_decide_eq_true_2 by done. cbn [assert_ mbind option_bind].
  change (insertion_fragment_id (insertion_fragment_new p.1)) with (fragment_id p.1).
  change (split_offset (insertion_fragment_new p.1)) with (insertion_offset p.1).
  rewrite (find_fragment_at l p r Eps). cbn [mbind option_bind]. unfold beside. rewrite vlen_app, codes_run. unfold visible_width. cbn [char_visible].
  destruct (visible p.1).
  - unfold u32_sub. rewrite bool_decide_eq_true_2 by (destruct (anchor_bias a); lia). cbn [mbind option_bind]. rewrite bool_decide_eq_true_2 by done.
    unfold char_edge, width in *. cbn [char_offset char_code] in *. f_equal. destruct (anchor_bias a); lia.
  - rewrite bool_decide_eq_false_2 by done. change (blen []) with 0. f_equal. destruct (anchor_bias a); lia.
Qed.

Lemma resolve_place `{DebugAssertions} a n :
  can_resolve s a = true → anchor_place (flatten ps) a = Some n → offset_for_anchor s a = Some n.
Proof.
  intros Hres. unfold anchor_place. destruct (is_min a) eqn:Emin; [|destruct (is_max a) eqn:Emax].
  - intros [= <-]. unfold offset_for_anchor. by rewrite Emin.
  - intros [= <-]. unfold offset_for_anchor. rewrite Emin, Emax. f_equal. apply RopeBounds.rope_text_len. by destruct Hok.
  - intros (x&c&y&Ef&Ha&->)%place_from_Some. by eapply resolve_attached.
Qed.

(** ** The fragment at a visible offset *)

Lemma dsum_visible (l : list Piece) : Forall piece_ok l → dsum (@None Global) 0 (map fst l) = vlen (flatten l).
Proof.
  induction l as [|p l IH] using rev_ind; intros Hl; [done|]. apply Forall_app in Hl as [Hl [Hp _]%Forall_cons].
  rewrite map_app. cbn [map]. rewrite dsum_snoc, IH, flatten_snoc, vlen_app, codes_piece by done.
  change (vlen (flatten l) + text_visible (text (Fragment_Item p.1 None)) = vlen (flatten l) + blen (if bool_decide (visible p.1 = true) then p.2 else [])).
  unfold Fragment_Item. cbn [text]. destruct Hp as (_&_&Hlen&_). destruct (visible p.1); cbn [text_visible]; [|done].
  rewrite bool_decide_eq_true_2, Hlen by done. lia.
Qed.

Lemma stops_offset n e bias : stops (@None Global) n bias e = true ↔ match bias with Left => n ≤ e | Right => n < e end.
Proof.
  unfold stops, target_in_child, target_cmp, Ord_SeekTarget, cmp, nat_Ord. destruct (Nat.compare_spec n e), bias; cbn; split; lia || done.
Qed.

Lemma find_offset_at n bias l p r :
  ps = l ++ p :: r → match bias with Left => vlen (flatten l) < n | Right => vlen (flatten l) ≤ n end →
  match bias with Left => n ≤ vlen (flatten (l ++ [p])) | Right => n < vlen (flatten (l ++ [p])) end →
  ∃ e, find (D:=nat) (fragments s) None n bias = (vlen (flatten l), e, Some p.1).
Proof.
  intros E Hl Hp. destruct (snapshot_document _ _ _ Hok) as [Hps Hids _]. destruct (snapshot_tree _ _ _ Hok) as [h Hwf].
  pose proof (snapshot_fragments _ _ _ Hok) as El.
  assert (Hne : elements (fragments s) ≠ []) by (rewrite El, E, map_app; by destruct (map fst l)).
  assert (Hm : seek_mono (stops (@None Global) n bias) None (0 : nat) (elements (fragments s))).
  { rewrite El. intros a b d E' _. destruct (map_split _ _ _ E') as (a'&bd&Ep&->&E2). symmetry in E2.
    destruct (map_split _ _ _ E2) as (b'&d'&->&->&->). pose proof Hps as Hps'. rewrite Ep, !Forall_app in Hps'. destruct Hps' as (Ha&Hb&_).
    rewrite <- map_app, !dsum_visible by (done || by apply Forall_app). rewrite !stops_offset, flatten_app, vlen_app. destruct bias; lia. }
  pose proof (find_spec (D:=nat) None n bias h (fragments s) Hwf Hne Hm) as Hf.
  rewrite El, E, map_app in Hf, Hm. cbn [map] in Hf. change (dim_zero None) with 0 in Hf.
  pose proof Hps as Hpr. rewrite E in Hpr. apply Forall_app in Hpr as [Hpl [Hp' Hpr]%Forall_cons].
  rewrite seek_split_here in Hf; [..|].
  - destruct Hf as [-> _]. cbn [head]. rewrite dsum_visible by done. by eexists.
  - exact Hm.
  - intros _. rewrite dsum_visible by done. apply not_true_iff_false. rewrite stops_offset. destruct bias; lia.
  - intros i k [= <- <-]. change [p.1] with (map fst [p]). rewrite <- map_app, dsum_visible.
    + by apply stops_offset.
    + apply Forall_app. split; [done|]. by apply Forall_singleton.
Qed.

(** ** Making an anchor *)

Lemma assert_boundary cs r panic u v :
  RopeTree.rope_text cs r → cs = u ++ v → Rope.assert_char_boundary panic r (blen u) = Some true.
Proof.
  intros Hr E. pose proof (RopeTree.rope_text_ok _ _ Hr) as Hcs. unfold Rope.assert_char_boundary.
  assert (Hb : Utf8.is_char_boundary (bytes_of cs) (blen u) = true) by (apply boundary_split; [done|]; by exists u, v).
  destruct (decide (cs = [])) as [->|Hne].
  { rewrite (RopeBounds.empty_rope r Hr). destruct u; [|done]. by rewrite bool_decide_eq_true_2. }
  rewrite (RopeBounds.nonempty_rope cs r Hr Hne). cbn [andb].
  pose proof (RopeBounds.rope_is_char_boundary cs r (blen u) Hr) as Eis. unfold Rope.is_char_boundary in Eis.
  rewrite (RopeBounds.nonempty_rope cs r Hr Hne), Hb in Eis.
  destruct (find (Rope.chunks r) () (blen u) Left) as [[st en] [chunk|]].
  - destruct (usub (blen u) st); [|done]. cbn [mbind option_bind] in *. injection Eis as Eis. unfold Chunk.assert_char_boundary. by rewrite Eis.
  - destruct (usub (blen u) st); [|done]. done.
Qed.

Lemma codes_at z v D : ∀ u,
  codes true D = u ++ z :: v → ∃ x c y, D = x ++ c :: y ∧ codes true x = u ∧ char_visible c = true ∧ char_code c = z.
Proof.
  induction D as [|c D IH]; intros u; [by destruct u|]. rewrite codes_cons. case_bool_decide as Hc.
  - destruct u as [|e u]; intros [= <- E]; [by exists [], c, D|].
    destruct (IH u E) as (x&d&y&->&Ex&Hd&Ez). exists (c :: x), d, y. rewrite codes_cons, bool_decide_eq_true_2 by done.
    cbn [app]. by rewrite Ex.
  - intros E. destruct (IH u E) as (x&d&y&->&Ex&Hd&Ez). exists (c :: x), d, y. by rewrite codes_cons, bool_decide_eq_false_2.
Qed.

(** The anchor to a character. *)
Definition anchor_to (bias : Bias) (c : Char) : Anchor :=
  Anchor_new (char_timestamp c) (char_edge bias c) bias (remote_id s).

Lemma anchor_to_attached bias c : attached (anchor_to bias c) c = true.
Proof. unfold attached, anchor_to. cbn. rewrite !bool_decide_eq_true_2; [done|done|]. by destruct (char_timestamp c). Qed.

Lemma anchor_at_character `{DebugAssertions} bias x c y :
  flatten ps = x ++ c :: y → char_visible c = true →
  anchor_at_offset s (beside bias x c) bias = Some (anchor_to bias c).
Proof.
  intros Ef Hv. pose proof (snapshot_visible _ _ _ Hok) as Hr. rewrite Ef, codes_app, codes_cons, bool_decide_eq_true_2 in Hr by done.
  assert (Ew : visible_width c = blen [char_code c]) by (unfold visible_width; rewrite Hv, blen_cons; change (blen []) with 0; unfold width; lia).
  pose proof (width_pos c) as Hw. assert (Evw : visible_width c = width c) by (unfold visible_width; by rewrite Hv).
  assert (Hb : ∃ u v, codes true x ++ [char_code c] ++ codes true y = u ++ v ∧ beside bias x c = blen u).
  { unfold beside. destruct bias.
    - exists (codes true x ++ [char_code c]), (codes true y). rewrite <- app_assoc. split; [done|]. rewrite RopeCursor.blen_app. lia.
    - exists (codes true x), ([char_code c] ++ codes true y). split; [done|lia]. }
  destruct Hb as (u&v&Euv&Eu). unfold anchor_at_offset. rewrite (RopeBounds.rope_text_len _ _ Hr), !RopeCursor.blen_app, <- Ew.
  assert (E1 : bool_decide (bias = Left) && bool_decide (beside bias x c = 0) = false).
  { unfold beside. destruct bias; [|done]. rewrite (bool_decide_eq_false_2 (_ = 0)) by lia. done. }
  set (n := beside bias x c) in *. set (len := vlen x + (visible_width c + vlen y)).
  assert (E2 : bool_decide (bias = Right) && (negb cfg_debug_assertions && bool_decide (len ≤ n) || bool_decide (n = len)) = false).
  { unfold n, len, beside. destruct bias; [done|]. rewrite (bool_decide_eq_false_2 (_ ≤ _)), (bool_decide_eq_false_2 (_ = vlen x + _)) by lia.
    by rewrite !andb_false_r. }
  rewrite E1, E2, Eu, (assert_boundary _ _ _ u v Hr Euv), <- Eu. cbn [mbind option_bind]. clear E1 E2 Hr Euv Eu u v Ew len.
  destruct (flatten_char ps x c y Ef) as (l&p&r&t1&z&t2&Eps&Et&->&->). cbn [char_visible] in Hv.
  assert (Hp : p ∈ ps) by (rewrite Eps, elem_of_app; right; by left).
  destruct (snapshot_document _ _ _ Hok) as [Hps _ _]. rewrite Forall_forall in Hps. destruct (Hps p Hp) as (_&_&Hlen&Hfits&_).
  rewrite Et, RopeCursor.blen_app, blen_cons in Hlen. unfold width in Evw, Hw. cbn [char_code] in Evw, Hw.
  unfold n, beside in *. rewrite vlen_app, codes_run, bool_decide_eq_true_2 by done.
  destruct (find_offset_at (vlen (flatten l) + blen t1 + match bias with Left => len_utf8 z | Right => 0 end) bias l p r Eps) as (e&Ee).
  { destruct bias; lia. }
  { rewrite flatten_snoc, vlen_app, codes_piece, bool_decide_eq_true_2, Et, RopeCursor.blen_app, blen_cons by done. destruct bias; lia. }
  rewrite Evw, Ee. rewrite usub_le by lia. cbn [mbind option_bind]. unfold fits in Hfits.
  rewrite as_u32_small by (unfold fits; destruct bias; lia). unfold u32_add. rewrite bool_decide_eq_true_2 by (unfold fits; destruct bias; lia).
  cbn [mbind option_bind]. unfold anchor_to. f_equal. cbn [char_timestamp]. f_equal. unfold char_edge, width. cbn [char_offset char_code]. destruct bias; lia.
Qed.

(** The two ends. *)
Lemma anchor_at_start `{DebugAssertions} : anchor_at_offset s 0 Left = Some (min_for_buffer (remote_id s)).
Proof. done. Qed.

Lemma anchor_at_end `{DebugAssertions} : anchor_at_offset s (vlen (flatten ps)) Right = Some (max_for_buffer (remote_id s)).
Proof.
  unfold anchor_at_offset. rewrite (RopeBounds.rope_text_len _ _ (snapshot_visible _ _ _ Hok)). cbn [andb].
  rewrite bool_decide_eq_false_2 by done. cbn [andb]. rewrite bool_decide_eq_true_2 by done. cbn [andb].
  by rewrite (bool_decide_eq_true_2 (_ = _)), orb_true_r.
Qed.

(** An anchor to a character is none of the ends. *)
Lemma anchor_to_inner bias x c y : flatten ps = x ++ c :: y → is_min (anchor_to bias c) = false ∧ is_max (anchor_to bias c) = false.
Proof.
  intros Ef. destruct (flatten_char ps x c y Ef) as (l&p&r&t1&z&t2&Eps&Et&_&->).
  assert (Hp : p ∈ ps) by (rewrite Eps, elem_of_app; right; by left).
  destruct (snapshot_document _ _ _ Hok) as [Hps _ _]. rewrite Forall_forall in Hps. destruct (Hps p Hp) as (_&_&Hlen&Hfits&Hpos).
  rewrite Et, RopeCursor.blen_app, blen_cons in Hlen. pose proof (width_pos (mkChar (fragment_timestamp p.1) 0 z true [])) as Hw.
  unfold width in Hw. cbn [char_code] in Hw. unfold fits in Hfits. unfold is_min, is_max, anchor_to, anchor_timestamp, Anchor_new.
  cbn [timestamp_value timestamp_replica_id anchor_offset anchor_bias char_timestamp]. split.
  - rewrite bool_decide_eq_false_2; [done|]. intros [= E _]. rewrite E in Hpos. by apply N.lt_irrefl in Hpos.
  - destruct bias; [by rewrite andb_false_r|]. rewrite (bool_decide_eq_false_2 (_ = u32_MAX)); [by rewrite andb_false_r|].
    unfold char_edge, u32_MAX. cbn [char_offset]. lia.
Qed.

(** Every place between characters has an anchor with either bias: to an end
    of the text or to the visible character beside it. *)
Lemma anchor_made `{DebugAssertions} bias u v :
  codes true (flatten ps) = u ++ v →
  ∃ a, anchor_at_offset s (blen u) bias = Some a ∧
    (bias = Left ∧ u = [] ∧ a = min_for_buffer (remote_id s) ∨
     bias = Right ∧ v = [] ∧ a = max_for_buffer (remote_id s) ∨
     ∃ x c y, flatten ps = x ++ c :: y ∧ char_visible c = true ∧ a = anchor_to bias c ∧ beside bias x c = blen u).
Proof.
  intros E. assert (Hchar : ∀ u' z v', codes true (flatten ps) = u' ++ z :: v' → blen u = blen u' + match bias with Left => blen [z] | Right => 0 end →
    ∃ a, anchor_at_offset s (blen u) bias = Some a ∧ ∃ x c y, flatten ps = x ++ c :: y ∧ char_visible c = true ∧ a = anchor_to bias c ∧ beside bias x c = blen u).
  { intros u' z v' Ez Eu. destruct (codes_at z v' _ u' Ez) as (x&c&y&Ef&Ex&Hv&Ec). exists (anchor_to bias c).
    assert (Eb : beside bias x c = blen u).
    { unfold beside, visible_width, width. rewrite Ex, Hv, Ec, Eu. destruct bias; [|done]. rewrite blen_cons. change (blen []) with 0. lia. }
    split; [rewrite <- Eb; by eapply anchor_at_character|by exists x, c, y]. }
  destruct bias.
  - destruct u as [|z u _] using rev_ind; [by eexists; split; [apply anchor_at_start|left]|].
    destruct (Hchar u z v) as (a&Ea&Ha); [by rewrite E, <- app_assoc|by rewrite RopeCursor.blen_app|]. exists a. eauto.
  - destruct v as [|z v].
    + rewrite app_nil_r in E. rewrite <- E. eexists. split; [apply anchor_at_end|]. by right; left.
    + destruct (Hchar u z v E) as (a&Ea&Ha); [lia|]. exists a. eauto.
Qed.

Lemma anchor_to_resolves bias c : observed (version s) (char_timestamp c) = true → can_resolve s (anchor_to bias c) = true.
Proof.
  intros Ho. assert (E : anchor_timestamp (anchor_to bias c) = char_timestamp c).
  { unfold anchor_timestamp, anchor_to, Anchor_new. cbn. by destruct (char_timestamp c). }
  unfold can_resolve. rewrite E, Ho, orb_true_r. by rewrite bool_decide_eq_true_2.
Qed.

(** The place of the anchor made there. *)
Lemma made_place `{DebugAssertions} bias u v :
  codes true (flatten ps) = u ++ v →
  ∃ a, anchor_at_offset s (blen u) bias = Some a ∧ anchor_place (flatten ps) a = Some (blen u) ∧ anchor_buffer_id a = remote_id s ∧
    (Forall (λ c, observed (version s) (char_timestamp c) = true) (flatten ps) → can_resolve s a = true).
Proof.
  intros E. destruct (anchor_made bias u v E) as (a&Ea&Ha). exists a. split; [done|].
  destruct Ha as [(_&->&->)|[(_&->&->)|(x&c&y&Ef&_&->&<-)]].
  - split; [done|]. split; [done|]. intros _. unfold can_resolve. by rewrite bool_decide_eq_true_2.
  - split; [unfold anchor_place; cbn; by rewrite E, app_nil_r|]. split; [done|]. intros _. unfold can_resolve. by rewrite bool_decide_eq_true_2.
  - destruct (anchor_to_inner bias x c y Ef) as [Emin Emax]. split; [|split; [done|]].
    + unfold anchor_place. rewrite Emin, Emax, Ef. rewrite place_from_at; [done| |apply anchor_to_attached]. rewrite <- Ef. by destruct Hok.
    + rewrite Ef, Forall_app, Forall_cons. intros (_&Ho&_). by apply anchor_to_resolves.
Qed.
End snapshot.

(** ** Anchors and edits *)

(** Where an anchor at the offset [n] is after the edits, of which [ts] are the
    texts: before the text of an edit, behind it, or carried along. *)
Definition stays (bias : Bias) (n at_ : nat) : Prop := match bias with Left => n ≤ at_ | Right => n < at_ end.

#[export] Instance stays_dec bias n at_ : Decision (stays bias n at_).
Proof. destruct bias; cbn; apply _. Defined.

Fixpoint track (bias : Bias) (es : list ((nat * nat) * list Z)) (ts : list (list Z)) (n : nat) : nat :=
  match es, ts with
  | ((s, e), _) :: es, t :: ts =>
      if decide (stays bias n s) then n
      else if decide (stays bias n e) then s + blen t
      else track bias es ts n + blen t - (e - s)
  | _, _ => n
  end.

(** What keeps a character the same one for anchors. *)
Definition same_char (c d : Char) : Prop :=
  char_timestamp c = char_timestamp d ∧ char_offset c = char_offset d ∧ char_code c = char_code d.

Lemma attached_same a c d : same_char c d → attached a c = attached a d.
Proof. intros (Et&Eo&Ec). unfold attached, char_edge, width. by rewrite Et, Eo, Ec. Qed.

Section splices.
Context (f : Char → Char) (timestamp : Lamport).
Context (P : Char → Prop) (struck : ∀ c, P c → same_char c (f c) ∧ char_visible (f c) = false).

Lemma vlen_struck cs : Forall P cs → vlen (map f cs) = 0.
Proof.
  induction 1 as [|c cs Hc _ IH]; [done|]. cbn [map]. rewrite vlen_cons, IH. unfold visible_width.
  by destruct (struck c Hc) as [_ ->].
Qed.

(** A visible character goes where [track] says. *)
Lemma splices_track off pos D es ts D' bias :
  char_splices f timestamp off pos D es ts D' → Forall P D →
  ∀ x c y, D = x ++ c :: y → char_visible c = true →
  ∃ x' c' y', D' = x' ++ c' :: y' ∧ same_char c c' ∧ pos + beside bias x' c' = track bias es ts (pos + beside bias x c).
Proof.
  induction 1 as [off pos R|off pos G U R s e raw t es ts R' -> -> Hs IH]; intros HP x c y E Hv; [by exists x, c, y|].
  cbn [track]. rewrite !Forall_app in HP. destruct HP as (_&HU&HR).
  pose proof (width_pos c) as Hw. assert (Ew : visible_width c = width c) by (unfold visible_width; by rewrite Hv).
  unfold beside in *. apply app_elem in E as [(z&->&->)|(z&->&[(k&->&->)|(k&->&E)]%app_elem)].
  - exists x, c, (z ++ run timestamp true [] off t ++ map f U ++ R'). rewrite <- !app_assoc. split; [done|].
    split; [done|]. rewrite decide_True; [done|]. rewrite vlen_app, vlen_cons. destruct bias; cbn; lia.
  - exists (G ++ run timestamp true [] off t ++ map f z), (f c), (map f k ++ R').
    rewrite map_app, <- !app_assoc. apply Forall_app in HU as [Hz [Hc _]%Forall_cons].
    destruct (struck c Hc) as [Hsame Hinv]. split; [done|]. split; [done|].
    assert (E0 : visible_width (f c) = 0) by (unfold visible_width; by rewrite Hinv).
    rewrite !vlen_app, vlen_struck, vlen_cons, E0, codes_run, bool_decide_eq_true_2 by done.
    rewrite decide_False, decide_True by (destruct bias; cbn; lia). destruct bias; lia.
  - destruct (IH HR k c y E Hv) as (x'&c'&y'&->&Hc'&Et).
    exists (G ++ run timestamp true [] off t ++ map f U ++ x'), c', y'. rewrite <- !app_assoc. split; [done|]. split; [done|].
    rewrite !vlen_app, vlen_struck, codes_run, bool_decide_eq_true_2 by done. rewrite !decide_False by (destruct bias; cbn; lia).
    rewrite ?Nat.add_assoc in *. destruct bias; rewrite ?Nat.add_assoc in *; lia.
Qed.

(** So do the ends. *)
Lemma splices_track_end off pos D es ts D' :
  char_splices f timestamp off pos D es ts D' → Forall P D → pos + vlen D' = track Right es ts (pos + vlen D).
Proof.
  induction 1 as [off pos R|off pos G U R s e raw t es ts R' -> -> Hs IH]; [done|]. cbn [track]. rewrite !Forall_app. intros (_&HU&HR). specialize (IH HR).
  rewrite !vlen_app, vlen_struck, codes_run, bool_decide_eq_true_2, !decide_False by (done || cbn; lia).
  rewrite ?Nat.add_assoc in *. lia.
Qed.

Lemma splices_track_start off pos D es ts D' : char_splices f timestamp off pos D es ts D' → track Left es ts 0 = 0.
Proof. destruct 1; [done|]. cbn [track]. rewrite decide_True; [done|]. cbn. lia. Qed.
End splices.

(** What a deletion does to a character that is seen. *)
Lemma strike_same obs t c : obs c = true → same_char c (strike obs char_visible t c) ∧ char_visible (strike obs char_visible t c) = false.
Proof. unfold strike. intros ->. cbn [andb]. by destruct (char_visible c) eqn:E. Qed.

(** ** The order of anchors *)

(** The characters of an insertion are in the document in their order. *)
Definition in_order (cs : list Char) : Prop :=
  ForallOrdPairs (λ c d, char_timestamp c = char_timestamp d → char_offset c < char_offset d) cs.

Lemma pairs_before {A} (R : relation A) (x k y : list A) c d : ForallOrdPairs R (x ++ c :: k ++ d :: y) → R c d.
Proof.
  induction x as [|e x IH]; cbn [app]; inversion 1 as [|? ? Hc Hl]; subst; [|by apply IH].
  rewrite Forall_app, Forall_cons in Hc. by destruct Hc as (_&?&_).
Qed.

Lemma beside_before bias bias' x c k d : beside bias x c ≤ beside bias' (x ++ c :: k) d.
Proof. unfold beside. rewrite vlen_app, vlen_cons. destruct bias, bias'; lia. Qed.

Section order.
Context `{DebugAssertions} {base : Lamport → Prop} (s : BufferSnapshot) (ps : list Piece) (Hok : snapshot_ok base s ps).

Lemma fragment_id_within a p : is_min a = false → is_max a = false → p ∈ ps → within_fragment a p.1 → fragment_id_for_anchor s a = Some (fragment_id p.1).
Proof.
  intros Emin Emax Hp Hin. unfold fragment_id_for_anchor, try_fragment_id_for_anchor. rewrite Emin, Emax, (fragment_entry s ps Hok a p Hp Hin).
  cbn [mbind option_bind]. change (insertion_timestamp (insertion_fragment_new p.1)) with (fragment_timestamp p.1).
  destruct Hin as [-> _]. by rewrite bool_decide_eq_true_2, orb_true_r.
Qed.

(** Fragments of characters of different insertions. *)
Lemma fragments_before l p r t1 l' q r' t1' x c k :
  ps = l ++ p :: r → ps = l' ++ q :: r' → p ≠ q →
  x = flatten l ++ t1 → x ++ c :: k = flatten l' ++ t1' → length t1' < length (piece_chars q) →
  cmp (fragment_id p.1) (fragment_id q.1) = Lt.
Proof.
  intros E E' Hne Ex Ek Hlen. destruct (snapshot_document _ _ _ Hok) as [_ Hids _]. pose proof E as E2. rewrite E' in E2. symmetry in E2.
  apply app_elem in E2 as [(y'&->&->)|(z&->&E2)].
  - exfalso. rewrite flatten_app, flatten_cons in Ex. apply (f_equal length) in Ek. rewrite Ex, !length_app in Ek. cbn in Ek. lia.
  - destruct z as [|p' z]; [by injection E2 as -> _|]. injection E2 as <- ->. by apply (ids_sorted ps Hids l p z q r').
Qed.

Lemma Anchor_cmp_antisym a b : Anchor_cmp s b a = CompOpp <$> Anchor_cmp s a b.
Proof.
  unfold Anchor_cmp. assert (Hcmp : ∀ c, then_with (then_with (CompOpp c) (cmp (anchor_offset b) (anchor_offset a))) (cmp (anchor_bias b) (anchor_bias a)) =
    CompOpp (then_with (then_with c (cmp (anchor_offset a) (anchor_offset b))) (cmp (anchor_bias a) (anchor_bias b)))).
  { intros c. rewrite (cmp_antisym (anchor_offset a) (anchor_offset b)). destruct c, (cmp (anchor_offset a) (anchor_offset b)), (anchor_bias a), (anchor_bias b); done. }
  case_bool_decide as E.
  - rewrite bool_decide_eq_true_2 by done. cbn [mbind option_bind fmap option_fmap option_map]. f_equal. apply (Hcmp Eq).
  - rewrite bool_decide_eq_false_2 by congruence.
    destruct (fragment_id_for_anchor s a) as [i|], (fragment_id_for_anchor s b) as [j|]; try done.
    cbn [mbind option_bind fmap option_fmap option_map]. f_equal. rewrite <- Hcmp. by rewrite <- (cmp_antisym i j).
Qed.

Lemma attached_edge a c : attached a c = true → anchor_timestamp a = char_timestamp c ∧ anchor_offset a = char_edge (anchor_bias a) c.
Proof. unfold attached. intros [? ?]%andb_true_iff. split; symmetry; by eapply bool_decide_eq_true. Qed.

Definition inner (a : Anchor) : Prop := is_min a = false ∧ is_max a = false.

Lemma cmp_before a b x c k d y :
  in_order (flatten ps) → flatten ps = x ++ c :: k ++ d :: y → inner a → inner b → attached a c = true → attached b d = true →
  Anchor_cmp s a b = Some Lt.
Proof.
  intros Hord E [Ha1 Ha2] [Hb1 Hb2] Ha Hb. unfold Anchor_cmp.
  destruct (attached_edge _ _ Ha) as [Eta Eoa]. destruct (attached_edge _ _ Hb) as [Etb Eob].
  case_bool_decide as Et.
  - assert (Hcd : char_offset c < char_offset d). { unfold in_order in Hord. rewrite E in Hord. apply pairs_before in Hord. apply Hord. congruence. }
    pose proof (snapshot_apart _ _ _ Hok) as Hap. unfold chars_apart, ranges_apart in Hap. rewrite E in Hap.
    rewrite map_app in Hap. cbn [map] in Hap. rewrite map_app in Hap. apply pairs_before in Hap.
    specialize (Hap ltac:(cbn; congruence)). cbn in Hap. pose proof (width_pos d). cbn [mbind option_bind].
    assert (Hle : (anchor_offset a < anchor_offset b ∨ anchor_offset a = anchor_offset b ∧ anchor_bias a = Left ∧ anchor_bias b = Right)%N).
    { rewrite Eoa, Eob. unfold char_edge. pose proof (width_pos c). destruct (anchor_bias a), (anchor_bias b); try lia.
      destruct (Nat.eq_dec (char_offset c + width c) (char_offset d)) as [E1|E1]; [right; by rewrite E1|lia]. }
    destruct Hle as [Hlt|(->&->&->)]; [|by rewrite cmp_refl].
    by assert (cmp (anchor_offset a) (anchor_offset b) = Lt) as -> by by apply N.compare_lt_iff.
  - destruct (attached_within s ps Hok a x c (k ++ d :: y) E Ha) as (l&p&r&t1&z&t2&Eps&_&Hin&Ex&Ec).
    pose proof E as E2. rewrite app_comm_cons, app_assoc in E2.
    destruct (attached_within s ps Hok b (x ++ c :: k) d y E2 Hb) as (l'&q&r'&t1'&z'&t2'&Eps'&Eq&Hin'&Ex'&_).
    rewrite (fragment_id_within a p), (fragment_id_within b q); [|done|done|rewrite Eps', elem_of_app; right; by left|done|done|done|rewrite Eps, elem_of_app; right; by left|done].
    assert (E3 : cmp (fragment_id p.1) (fragment_id q.1) = Lt).
    { eapply (fragments_before l p r _ l' q r' _ x c k Eps Eps'); [|exact Ex|exact Ex'|].
      - intros ->. destruct Hin as [E1 _], Hin' as [E3 _]. congruence.
      - unfold piece_chars. rewrite Eq, run_text_app, length_app. cbn. lia. }
    cbn [mbind option_bind]. by rewrite E3.
Qed.

Lemma cmp_same_char a b c : attached a c = true → attached b c = true →
  Anchor_cmp s a b = Some (match anchor_bias a, anchor_bias b with Left, Right => Gt | Right, Left => Lt | _, _ => Eq end).
Proof.
  intros [Eta Eoa]%attached_edge [Etb Eob]%attached_edge. unfold Anchor_cmp. rewrite bool_decide_eq_true_2 by congruence.
  cbn [mbind option_bind]. rewrite Eoa, Eob. unfold char_edge. pose proof (width_pos c) as Hw. f_equal.
  destruct (anchor_bias a), (anchor_bias b); rewrite ?cmp_refl; try done.
  - assert (cmp (N.of_nat (char_offset c + width c)) (N.of_nat (char_offset c)) = Gt) as ->; [apply N.compare_gt_iff; lia|done].
  - assert (cmp (N.of_nat (char_offset c)) (N.of_nat (char_offset c + width c)) = Lt) as ->; [apply N.compare_lt_iff; lia|done].
Qed.

(** *** The ends *)

Lemma is_min_fields a : is_min a = true → anchor_timestamp a = Lamport_MIN ∧ anchor_offset a = 0%N ∧ anchor_bias a = Left.
Proof. unfold is_min. rewrite !andb_true_iff, !bool_decide_eq_true. tauto. Qed.

Lemma is_max_fields a : is_max a = true → anchor_timestamp a = Lamport_MAX ∧ anchor_offset a = u32_MAX ∧ anchor_bias a = Right.
Proof. unfold is_max. rewrite !andb_true_iff, !bool_decide_eq_true. tauto. Qed.

Lemma min_not_max a : is_min a = true → is_max a = false.
Proof. intros (_&_&E)%is_min_fields. unfold is_max. by rewrite E, andb_false_r. Qed.

Lemma same_fields a b : anchor_timestamp a = anchor_timestamp b → anchor_offset a = anchor_offset b → anchor_bias a = anchor_bias b →
  Anchor_cmp s a b = Some Eq.
Proof.
  intros Et Eo Eb. unfold Anchor_cmp. rewrite bool_decide_eq_true_2, Eo, Eb, cmp_refl by done. by destruct (anchor_bias b).
Qed.

(** The fragment of an anchor inside the document. *)
Lemma inner_fragment a x c y :
  flatten ps = x ++ c :: y → inner a → attached a c = true →
  ∃ f, fragment_id_for_anchor s a = Some (fragment_id f) ∧ within_fragment a f ∧ cmp Locator_min (fragment_id f) = Lt ∧
    cmp (fragment_id f) Locator_max = Lt ∧ (0 < value (anchor_timestamp a))%N ∧ (anchor_offset a ≤ u32_MAX)%N.
Proof.
  intros E [Hmin Hmax] Ha. destruct (attached_within s ps Hok a x c y E Ha) as (l&p&r&t1&z&t2&Eps&_&Hin&_&_).
  assert (Hp : p ∈ ps) by (rewrite Eps, elem_of_app; right; by left). exists p.1.
  split; [by apply fragment_id_within|]. split; [done|]. destruct (snapshot_document _ _ _ Hok) as [Hps Hids _].
  rewrite Forall_forall in Hps. destruct (Hps p Hp) as (_&_&_&Hfits&Hpos). pose proof Hids as Habove. apply ids_above in Habove.
  rewrite Forall_forall in Habove. split; [apply Habove, list_elem_of_fmap; by exists p|].
  rewrite Eps, map_app in Hids. apply ids_from_app in Hids as [_ ([_ Hlt]&_)]. split; [exact Hlt|].
  destruct Hin as [-> Hin]. split; [exact Hpos|]. unfold fits in Hfits. unfold u32_MAX. destruct (anchor_bias a); lia.
Qed.

Lemma cmp_min a b x c y : is_min a = true → inner b → flatten ps = x ++ c :: y → attached b c = true → Anchor_cmp s a b = Some Lt.
Proof.
  intros Hmin Hb E Hc. destruct (inner_fragment b x c y E Hb Hc) as (f&Ef&_&Hlt&_&Hpos&_). destruct (is_min_fields _ Hmin) as (Et&_&_).
  unfold Anchor_cmp. rewrite bool_decide_eq_false_2 by (intros E'; rewrite <- E', Et in Hpos; by apply N.lt_irrefl in Hpos).
  rewrite Ef. unfold fragment_id_for_anchor, try_fragment_id_for_anchor. rewrite Hmin. cbn [mbind option_bind]. by rewrite Hlt.
Qed.

Lemma cmp_max a b x c y : is_max a = true → inner b → flatten ps = x ++ c :: y → attached b c = true → Anchor_cmp s b a = Some Lt.
Proof.
  intros Hmax Hb E Hc. destruct (inner_fragment b x c y E Hb Hc) as (f&Ef&_&_&Hlt&_&Hoff). destruct (is_max_fields _ Hmax) as (Et&Eo&Ebias).
  unfold Anchor_cmp. case_bool_decide as Ets.
  - cbn [mbind option_bind]. rewrite Eo, Ebias. destruct (N.eq_dec (anchor_offset b) u32_MAX) as [E'|Hne].
    + rewrite E', cmp_refl. destruct (anchor_bias b) eqn:Eb; [done|]. destruct Hb as [_ Hb]. unfold is_max in Hb.
      by rewrite Ets, Et, E', Eb, !bool_decide_eq_true_2 in Hb.
    + assert (cmp (anchor_offset b) u32_MAX = Lt) as ->; [apply N.compare_lt_iff; lia|done].
  - rewrite Ef. assert (Hnmin : is_min a = false). { unfold is_min. by rewrite Ebias, andb_false_r. }
    unfold fragment_id_for_anchor, try_fragment_id_for_anchor. rewrite Hnmin, Hmax. cbn [mbind option_bind]. by rewrite Hlt.
Qed.

Lemma cmp_ends a b : is_min a = true → is_max b = true → Anchor_cmp s a b = Some Lt.
Proof.
  intros Ha Hb. destruct (is_min_fields _ Ha) as (Ea&_&_), (is_max_fields _ Hb) as (Eb&_&Ebias).
  assert (Hnmin : is_min b = false). { unfold is_min. by rewrite Ebias, andb_false_r. }
  unfold Anchor_cmp. rewrite bool_decide_eq_false_2 by (rewrite Ea, Eb; done).
  unfold fragment_id_for_anchor, try_fragment_id_for_anchor. by rewrite Ha, Hnmin, Hb.
Qed.

(** *** Comparing says where anchors are *)

(** A comparison that agrees with the places [n] and [m]. *)
Definition agrees (c : comparison) (n m : nat) : Prop := match c with Lt => n ≤ m | Eq => n = m | Gt => m ≤ n end.

Lemma agrees_opp c n m : agrees c n m → agrees (CompOpp c) m n.
Proof. by destruct c. Qed.

Lemma cmp_swap a b c n m : Anchor_cmp s b a = Some c → agrees c m n → ∃ c, Anchor_cmp s a b = Some c ∧ agrees c n m.
Proof. intros E Hc. exists (CompOpp c). split; [by rewrite (Anchor_cmp_antisym b a), E|by apply agrees_opp]. Qed.

Lemma cmp_inner a b x c y x' d y' :
  in_order (flatten ps) → inner a → inner b → flatten ps = x ++ c :: y → flatten ps = x' ++ d :: y' → attached a c = true → attached b d = true →
  ∃ o, Anchor_cmp s a b = Some o ∧ agrees o (beside (anchor_bias a) x c) (beside (anchor_bias b) x' d).
Proof.
  intros Hord Ha Hb E E' Hc Hd. pose proof E' as E2. rewrite E in E2. apply app_elem in E2 as [(k&->&->)|(z&->&E2)].
  - apply (cmp_swap a b Lt); [|apply beside_before]. rewrite <- app_assoc in E. by eapply cmp_before.
  - destruct z as [|e z]; cbn [app] in E2.
    + injection E2 as <- ->. rewrite app_nil_r. eexists. split; [by apply (cmp_same_char a b c)|].
      unfold beside. destruct (anchor_bias a), (anchor_bias b); cbn; lia.
    + injection E2 as <- ->. exists Lt. split; [|apply beside_before]. by eapply cmp_before.
Qed.

Lemma beside_le bias x c y : beside bias x c ≤ vlen (x ++ c :: y).
Proof. unfold beside. rewrite vlen_app, vlen_cons. destruct bias; lia. Qed.

Lemma cmp_agrees a b n m :
  in_order (flatten ps) → anchor_place (flatten ps) a = Some n → anchor_place (flatten ps) b = Some m →
  ∃ c, Anchor_cmp s a b = Some c ∧ agrees c n m.
Proof.
  intros Hord. unfold anchor_place. destruct (is_min a) eqn:Ha1; [|destruct (is_max a) eqn:Ha2].
  - intros [= <-]. destruct (is_min b) eqn:Hb1; [|destruct (is_max b) eqn:Hb2].
    + intros [= <-]. exists Eq. split; [|done]. apply is_min_fields in Ha1 as (?&?&?), Hb1 as (?&?&?). apply same_fields; congruence.
    + intros [= <-]. exists Lt. split; [by apply cmp_ends|cbn; lia].
    + intros (x&c&y&E&Hc&->)%place_from_Some. exists Lt. split; [by eapply cmp_min|cbn; lia].
  - intros [= <-]. destruct (is_min b) eqn:Hb1; [|destruct (is_max b) eqn:Hb2].
    + intros [= <-]. apply (cmp_swap a b Lt); [by apply cmp_ends|cbn; lia].
    + intros [= <-]. exists Eq. split; [|done]. apply is_max_fields in Ha2 as (?&?&?), Hb2 as (?&?&?). apply same_fields; congruence.
    + intros (x&c&y&E&Hc&->)%place_from_Some. apply (cmp_swap a b Lt); [by eapply cmp_max|]. rewrite E. apply beside_le.
  - intros (x&c&y&E&Hc&->)%place_from_Some. destruct (is_min b) eqn:Hb1; [|destruct (is_max b) eqn:Hb2].
    + intros [= <-]. apply (cmp_swap a b Lt); [by eapply cmp_min|cbn; lia].
    + intros [= <-]. exists Lt. split; [by eapply cmp_max|]. rewrite E. apply beside_le.
    + intros (x'&d&y'&E'&Hd&->)%place_from_Some. by eapply cmp_inner.
Qed.
End order.
