(* ===== verification/AnchorProps.v ===== *)
(** Theorems about anchors: they name the place they were made at, they follow
    the text through edits, and replicas agree on where they are. *)

From stdpp Require Import base numbers option list gmap.
From S2P Require Import Prelude Point TextSummary Rope RopeTree RopeCursor RopeProps UndoMap TreeMap Clock Utf8 Locator SumTree SumTreeFacts Search Cursor CursorApi Operation History Fragment Builder Splice LineEnding Snapshot Buffer Document Pieces BuilderFacts SpliceOutput SpliceWalk LocalEdit SnapshotFacts EditProps Converge UndoApply Replicas QueueFacts Delivery Anchor AnchorFacts.
From S2P Require Remote RopeBounds OperationQueue Subscription.

#[local] Open Scope nat_scope.

(** ** Round trip *)

Section snapshot.
Context `{DebugAssertions}.

(** The summary of the text up to a place between characters. *)
Lemma summary_upto `{MetricLaws D, !TextDimension D, !TextDimensionLaws D, !DimensionLaws D ChunkSummary ()}
    s cs u v :
  RopeTree.rope_text cs (visible_text s) → cs = u ++ v → height (Rope.chunks (visible_text s)) < STACK_CAPACITY - 1 → RopeTree.small u →
  text_summary_for_range s (0, blen u) = Some (RopeTree.metric (TextSummary.from_str u) : D).
Proof.
  intros Hr E Hh Hs. unfold text_summary_for_range, usize_to_offset. cbn [fst snd].
  rewrite (assert_boundary cs _ _ u v Hr E). pose proof (assert_boundary cs _ cfg_debug_assertions [] cs Hr eq_refl) as E0.
  change (blen []) with 0 in E0. rewrite E0. cbn [mbind option_bind]. rewrite E in Hr.
  destruct (RopeProps.rope_cursor_measures (D:=D) [] u v (visible_text s) Hr Hh Hs) as (c&Ec&(c'&Em)&_).
  change (length (bytes_of [])) with 0 in Ec. rewrite Ec. cbn [mbind option_bind app] in *. by rewrite Em.
Qed.

(** C7: An anchor made between two characters names the place it was made at, with
    either bias: [anchor_before] and [anchor_after] succeed there, the snapshot
    can resolve the anchor, [offset_for_anchor] gives the offset back, and
    [summary_for_anchor] measures the text before it in every text dimension. *)
Theorem anchor_names_place `{MetricLaws D, !TextDimension D, !TextDimensionLaws D, !DimensionLaws D ChunkSummary ()}
    {base : Lamport → Prop} s ps bias u v :
  snapshot_ok base s ps → Forall (λ c, observed (version s) (char_timestamp c) = true) (flatten ps) →
  height (Rope.chunks (visible_text s)) < STACK_CAPACITY - 1 → RopeTree.small u →
  codes true (flatten ps) = u ++ v →
  ∃ a, anchor_at s (usize_to_offset s) (blen u) bias = Some a ∧ can_resolve s a = true ∧
    offset_for_anchor s a = Some (blen u) ∧ summary_for_anchor s a = Some (RopeTree.metric (TextSummary.from_str u) : D).
Proof.
  intros Hok Hobs Hh Hs E. pose proof (snapshot_visible _ _ _ Hok) as Hr.
  destruct (made_place s ps Hok bias u v E) as (a&Ea&Hplace&_&Hres). specialize (Hres Hobs).
  pose proof (resolve_place s ps Hok a _ Hres Hplace) as Eo. exists a. unfold anchor_at, usize_to_offset. rewrite (assert_boundary _ _ _ u v Hr E). cbn [mbind option_bind].
  split; [exact Ea|]. split; [done|]. split; [done|]. unfold summary_for_anchor. rewrite Eo. cbn [mbind option_bind].
  by eapply summary_upto.
Qed.
End snapshot.

(** ** Edits *)

Section edits.
Context `{Build, SortOk, DebugAssertions}.

Lemma install_remote {D} s fr texts (st : Splice D) s' : install s fr texts st = Some s' → remote_id s' = remote_id s.
Proof. unfold install. intros E. apply bind_Some in E as ([ins ?]&_&E). by apply bind_Some in E as (sl&_&[= <-]). Qed.

Lemma edit_internal_remote s edits t s' op p : apply_edit_internal s edits t = Some (s', op, p) → remote_id s' = remote_id s.
Proof.
  unfold apply_edit_internal. destruct edits as [|[[first ?] ?] es]; [by intros [= <- _ _]|].
  intros E. apply bind_Some in E as (st&_&E). apply bind_Some in E as ([[st1 rs] ts]&_&E). apply bind_Some in E as ([[fr ropes] st2]&_&E).
  apply bind_Some in E as (s2&E2&[= <- _ _]). by eapply install_remote.
Qed.

Lemma buffer_edit_remote b edits start_now end_now b' op :
  buffer_edit b edits start_now end_now = Some (b', op) → remote_id (snapshot b') = remote_id (snapshot b).
Proof.
  unfold buffer_edit. destruct (start_transaction_at b start_now) as [b1 ?] eqn:E1.
  assert (Es : snapshot b1 = snapshot b).
  { unfold start_transaction_at in E1. destruct (start_transaction _ _ _ _) as [[h c] i]. by injection E1 as <- _. }
  destruct (tick _) as [t c]. intros E. apply bind_Some in E as ([b2 edit]&E2&E). apply bind_Some in E as (h&_&E). apply bind_Some in E as (h2&_&E).
  apply bind_Some in E as ([b3 ?]&E3&[= <- _]).
  assert (E4 : snapshot b3 = snapshot (observe_version (with_history b2 h2) (timestamp (OpEdit edit)))).
  { unfold end_transaction_at in E3. apply bind_Some in E3 as ([h3 [e|]]&_&E3); [|by injection E3 as <- _].
    apply bind_Some in E3 as ([h4 i]&_&E3). by apply bind_Some in E3 as (i'&_&[= <- _]). }
  rewrite E4. cbn. unfold apply_local_edit in E2. apply bind_Some in E2 as ([[s op'] p]&E2&E5).
  apply bind_Some in E5 as (b4&E5&[= <- _]). unfold publish in E5. apply bind_Some in E5 as (t'&_&[= <-]). cbn.
  apply edit_internal_remote in E2. rewrite E2. cbn. by rewrite Es.
Qed.

(** C6: An anchor follows the text it is attached to when the buffer is edited:
    made at the offset [n], it is found where [track] says.  The edits after it
    do not move it, those before it move it by what they add and remove, and
    when its text is deleted it is behind the text that came in its place. *)
Theorem anchor_follows_edit {base : Lamport → Prop} b d edits text' texts start_now end_now bias u v a :
  own_edit_ok (base:=base) b d edits text' texts → codes true (doc_chars d) = u ++ v →
  anchor_at_offset (snapshot b) (blen u) bias = Some a →
  ∃ b' op, buffer_edit b edits start_now end_now = Some (b', op) ∧
    offset_for_anchor (snapshot b') a = Some (track bias edits texts (blen u)).
Proof.
  intros Hok E Ea. destruct (buffer_edit_replica b d edits text' texts start_now end_now Hok)
    as (b'&t&es&Eb&_&_&_&_&Hb'&_&Ev&_&_&Hsp&_). cbv zeta in *.
  destruct Hok as [[[(ps&Hs&Ef) _ _ _ _] _ [Hseen _] _ _ _] _ _ _]. rewrite <- Ef in *.
  destruct Hb' as [(ps'&Hs'&Ef') _ _ _ _]. rewrite <- Ef' in Hsp.
  pose proof (buffer_edit_remote _ _ _ _ _ _ Eb) as Er. exists b', (wire (DocEdit (version (snapshot b)) t es)). split; [done|].
  set (V := version (snapshot b)) in *. set (P := λ c, obs V c = true).
  assert (HP : Forall P (flatten ps)) by (eapply Forall_impl; [exact Hseen|]; by intros c [? _]).
  assert (Hstruck : ∀ c, P c → same_char c (strike (obs V) char_visible t c) ∧ char_visible (strike (obs V) char_visible t c) = false)
    by (intros c; apply strike_same).
  assert (Hmono : ∀ e, observed V e = true → observed (version (snapshot b')) e = true).
  { intros e He. rewrite Ev. unfold observed in *. rewrite bool_decide_eq_true in *. rewrite get_observe. case_decide; lia. }
  destruct (anchor_made _ ps Hs bias u v E) as (a'&Ea'&Ha). rewrite Ea in Ea'. injection Ea' as <-.
  destruct Ha as [(->&->&->)|[(->&->&->)|(x&c&y&Ex&Hv&->&Eb')]].
  - change (blen []) with 0. by rewrite (splices_track_start _ _ _ _ _ _ _ _ Hsp).
  - rewrite app_nil_r in E. rewrite <- E. pose proof (splices_track_end _ _ P Hstruck _ _ _ _ _ _ Hsp HP) as Et. cbn [Nat.add] in Et. rewrite <- Et.
    apply (resolve_place _ ps' Hs').
    + unfold can_resolve. rewrite Er. by rewrite bool_decide_eq_true_2.
    + done.
  - destruct (splices_track _ _ P Hstruck _ _ _ _ _ _ bias Hsp HP x c y Ex Hv) as (x'&c'&y'&Ex'&Hc'&Et). cbn [Nat.add] in Et.
    rewrite Eb' in Et. rewrite <- Et. rewrite Ex, Forall_app, Forall_cons in HP. destruct HP as (_&Hc&_).
    assert (Eto : anchor_to (snapshot b) bias c = anchor_to (snapshot b') bias c) by (unfold anchor_to; by rewrite Er).
    destruct (anchor_to_inner _ ps Hs bias x c y Ex) as [Emin Emax].
    eapply (resolve_attached _ ps' Hs'); [|done|done|exact Ex'|].
    + rewrite Eto. apply anchor_to_resolves, Hmono, Hc.
    + rewrite <- (attached_same _ _ _ Hc'). apply anchor_to_attached.
Qed.
End edits.

(** ** Replicas *)

Section replicas.
Context `{Build, SortOk, DebugAssertions}.

(** No operation changes which buffer this is. *)
Definition same_buffer (b b' : Buffer) : Prop := remote_id (snapshot b') = remote_id (snapshot b).

Lemma publish_same b s p b' : publish (with_snapshot b s) p = Some b' → remote_id s = remote_id (snapshot b) → same_buffer b b'.
Proof. unfold publish. intros E Es. by apply bind_Some in E as (t&_&[= <-]). Qed.

Lemma apply_op_same b op b' : apply_op b op = Some b' → same_buffer b b'.
Proof.
  destruct op as [edit|undo]; cbn [apply_op]; (case_match; [by intros [= <-]|]); intros E; apply bind_Some in E as (b1&E&[= <-]).
  - unfold apply_remote_edit in E. destruct (ranges edit) as [|r rs] eqn:Er; [by injection E as <-|].
    apply bind_Some in E as ([s p]&E1&E). apply (publish_same b s p b1 E).
    unfold Remote.apply_remote_edit in E1. destruct r as [first ?]. 
    apply bind_Some in E1 as (st&_&E1). apply bind_Some in E1 as (st1&_&E1). apply bind_Some in E1 as ([[fr texts] st2]&_&E1).
    apply bind_Some in E1 as (s'&E1&[= <- _]). by eapply install_remote.
  - unfold apply_undo in E. apply bind_Some in E as ([s p]&E1&E). apply (publish_same b s p b1 E).
    unfold Remote.apply_undo in E1. repeat (apply bind_Some in E1 as (?&_&E1); repeat case_match; try done). by injection E1 as <- _.
Qed.

Lemma fold_same {A} (f : Buffer * list Operation → A → option (Buffer * list Operation)) :
  (∀ st a st', f st a = Some st' → same_buffer st.1 st'.1) →
  ∀ l st st', foldlM f st l = Some st' → same_buffer st.1 st'.1.
Proof.
  intros Hf. induction l as [|a l IH]; intros st st'; cbn [foldlM]; [by intros [= <-]|]. intros E. apply bind_Some in E as (st1&E1&E).
  unfold same_buffer. etrans; [by eapply IH|]. by eapply Hf.
Qed.

Lemma apply_or_defer_same st op st' : apply_or_defer st op = Some st' → same_buffer st.1 st'.1.
Proof.
  destruct st as [b l]. cbn [apply_or_defer]. case_match; [|by intros [= <-]]. intros E. apply bind_Some in E as (b1&E&[= <-]).
  by eapply apply_op_same.
Qed.

Lemma apply_ops_same b ops b' : apply_ops b ops = Some b' → same_buffer b b'.
Proof.
  unfold apply_ops. intros E. apply bind_Some in E as ([b1 l]&E1&E). apply bind_Some in E as (b2&E2&E).
  unfold flush_deferred_ops in E. destruct (OperationQueue.queue_drain _) as [q drained]. apply bind_Some in E as (os&_&E). apply bind_Some in E as ([b3 l']&E3&E).
  apply fold_same in E1; [|intros st a st' Es; apply bind_Some in Es as (h&_&Es); by apply apply_or_defer_same in Es].
  apply (fold_same apply_or_defer apply_or_defer_same) in E3. unfold defer in *. apply bind_Some in E2 as (q2&_&[= <-]).
  apply bind_Some in E as (q3&_&[= <-]). unfold same_buffer in *. cbn in *. by rewrite E3, E1.
Qed.

Lemma receive_same batches : ∀ b b', receive_all b batches = Some b' → same_buffer b b'.
Proof.
  unfold receive_all. induction batches as [|l batches IH]; intros b b'; cbn [foldlM]; [by intros [= <-]|].
  intros E. apply bind_Some in E as (b1&E1&E). unfold same_buffer. etrans; [by eapply IH|]. by eapply apply_ops_same.
Qed.

Lemma coherent_same d d' :
  d ≡ d' → coherent d → coherent d' → Forall2 (λ c c', same_char c c' ∧ char_visible c = char_visible c') (doc_chars d) (doc_chars d').
Proof.
  intros [Hu Hc] Hd Hd'. unfold coherent in *. revert Hd Hd'. induction Hc as [|c c' cs cs' Hc _ IH]; [constructor|].
  intros [Hd Hs]%Forall_cons [Hd' Hs']%Forall_cons. constructor; [|by apply IH]. split; [by destruct Hc as (?&?&?&_)|].
  rewrite Hd, Hd', (shows_respects _ c c' Hc). unfold shows.
  assert (Eu : ∀ e, undone (λ _, true) (doc_undos d) e = undone (λ _, true) (doc_undos d') e).
  { intros e. apply undone_ext. intros u. by rewrite Hu. }
  rewrite Eu. f_equal. by apply forallb_ext.
Qed.

Lemma place_same cs ds a :
  Forall2 (λ c d, same_char c d ∧ char_visible c = char_visible d) cs ds → anchor_place cs a = anchor_place ds a.
Proof.
  intros Hcs. assert (Ev : codes true cs = codes true ds).
  { induction Hcs as [|c d cs ds [(_&_&Ec) Ev] _ IH]; [done|]. by rewrite !codes_cons, IH, Ec, Ev. }
  unfold anchor_place. rewrite Ev. destruct (is_min a), (is_max a); try done. clear Ev. generalize 0.
  induction Hcs as [|c d cs ds [Hc Ev] _ IH]; intros n; [done|]. cbn [place_from]. rewrite (attached_same a c d Hc).
  assert (Ew : visible_width c = visible_width d) by (unfold visible_width, width; destruct Hc as (_&_&->); by rewrite Ev).
  by rewrite Ew, IH.
Qed.

Lemma deliver_times (P : Lamport → Prop) hist : ∀ d,
  Forall (λ c, P (char_timestamp c)) (doc_chars d) → Forall (λ o, P (op_timestamp o)) hist →
  Forall (λ c, P (char_timestamp c)) (doc_chars (deliver hist d)).
Proof.
  induction hist as [|o hist IH]; intros d Hd Hh; [done|]. apply Forall_cons in Hh as [Ho Hh]. apply IH; [|done]. destruct o as [V t es|u].
  - by apply times_edits.
  - cbn [doc_apply doc_chars]. apply Forall_map. exact Hd.
Qed.

(** What a replica that has applied the history makes of anchors. *)
Lemma history_anchor {base : Lamport → Prop} {v0 d0 hist b A} a n :
  history_ok base v0 d0 hist → coherent d0 → Forall (λ c, observed v0 (char_timestamp c) = true) (doc_chars d0) →
  delivered (base:=base) (v0:=v0) (d0:=d0) (hist:=hist) b A → A ≡ₚ hist → anchor_buffer_id a = remote_id (snapshot b) →
  anchor_place (doc_chars (deliver hist d0)) a = Some n → offset_for_anchor (snapshot b) a = Some n.
Proof.
  intros Hhist Hc Hd0 [HA [(ps&Hok&Ef) _ _ Hcoh _] Hv] Hp Hid Hn.
  assert (Hcoh' : coherent (deliver hist d0)).
  { apply deliver_coherent; [done|apply Hhist| |apply Hhist]. eapply Forall_impl; [apply (hist_wf Hhist)|]. by intros o (_&?&_). }
  rewrite <- (place_same _ _ a (coherent_same _ _ (applied_deliver Hhist A HA Hp) Hcoh Hcoh')), <- Ef in Hn.
  apply (resolve_place _ ps Hok); [|exact Hn]. unfold can_resolve. rewrite bool_decide_eq_true_2 by done. cbn [andb].
  unfold anchor_place in Hn. destruct (is_min a); [done|]. destruct (is_max a); [done|]. cbn [orb].
  apply place_from_Some in Hn as (x&c&y&Ex&Ha&_). unfold attached in Ha. apply andb_true_iff in Ha as [<-%bool_decide_eq_true _].
  assert (Hall : Forall (λ c, observed (version (snapshot b)) (char_timestamp c) = true) (flatten ps)).
  { rewrite Ef. apply (deliver_times (λ t, observed (version (snapshot b)) t = true)).
    - eapply Forall_impl; [exact Hd0|]. cbn. intros e He. rewrite Hv. apply observed_versions. by left.
    - apply Forall_forall. intros o Ho. rewrite Hv. apply (observed_applied Hhist A o HA); [|done]. by rewrite <- Hp. }
  rewrite Ex, Forall_app, Forall_cons in Hall. apply Hall.
Qed.

(** C5: Replicas agree on anchors: two replicas of a buffer that have received the
    operations of a history, each in its own order and batches, find every
    anchor that is in the document at the same offset; and an anchor made by
    one of them between two characters names the same place for the other. *)
Theorem anchors_converge {base : Lamport → Prop} {v0 d0 hist} b1 b2 batches1 batches2 :
  history_ok base v0 d0 hist → Forall (λ c, observed v0 (char_timestamp c) = true) (doc_chars d0) →
  starts (base:=base) b1 d0 → version (snapshot b1) = v0 → receives hist batches1 → receive_room b1 batches1 = true →
  starts (base:=base) b2 d0 → version (snapshot b2) = v0 → receives hist batches2 → receive_room b2 batches2 = true →
  remote_id (snapshot b2) = remote_id (snapshot b1) →
  ∃ b1' b2', receive_all b1 batches1 = Some b1' ∧ receive_all b2 batches2 = Some b2' ∧
    (∀ a n, anchor_buffer_id a = remote_id (snapshot b1) → anchor_place (doc_chars (deliver hist d0)) a = Some n →
      offset_for_anchor (snapshot b1') a = Some n ∧ offset_for_anchor (snapshot b2') a = Some n) ∧
    ∀ bias u v, codes true (doc_chars (deliver hist d0)) = u ++ v →
      ∃ a, anchor_at_offset (snapshot b1') (blen u) bias = Some a ∧ offset_for_anchor (snapshot b2') a = Some (blen u).
Proof.
  intros Hhist Hd0 Hs1 Hv1 Hb1 Hr1 Hs2 Hv2 Hb2 Hr2 Hid. pose proof (replica_coherent _ _ (starts_document _ _ Hs1)) as Hc.
  destruct (receive_history batches1 b1 Hhist Hs1 Hv1 Hb1 Hr1) as (b1'&A1&E1&Hd1&Hp1&_).
  destruct (receive_history batches2 b2 Hhist Hs2 Hv2 Hb2 Hr2) as (b2'&A2&E2&Hd2&Hp2&_).
  pose proof (receive_same _ _ _ E1) as I1. pose proof (receive_same _ _ _ E2) as I2. unfold same_buffer in I1, I2.
  exists b1', b2'. split; [done|]. split; [done|]. split.
  - intros a n Ha Hn. split; eapply history_anchor; try done; congruence.
  - intros bias u v Eu. destruct Hd1 as [HA [(ps&Hok&Ef) _ _ Hcoh _] _].
    assert (Hcoh' : coherent (deliver hist d0)).
    { apply deliver_coherent; [done|apply Hhist| |apply Hhist]. eapply Forall_impl; [apply (hist_wf Hhist)|]. by intros o (_&?&_). }
    pose proof (applied_deliver Hhist A1 HA Hp1) as Hequiv.
    destruct (made_place (snapshot b1') ps Hok bias u v) as (a&Ea&Hplace&Ebuf&_).
    { by rewrite Ef, (coherent_text _ _ true Hequiv Hcoh Hcoh'). }
    exists a. split; [done|]. eapply history_anchor; try done; [congruence|].
    by rewrite <- (place_same _ _ a (coherent_same _ _ Hequiv Hcoh Hcoh')), <- Ef.
Qed.
End replicas.

(** ** The order of insertions *)

(** Text goes behind what its own edit has inserted before. *)
Section behind.
Context (obs : Char → bool) `{!OfTimestamp obs} (t : Lamport) (obs_new : ∀ c, char_timestamp c = t → obs c = false).
Implicit Types (c : Char) (cs new : list Char).

Fixpoint behind (n : nat) cs : Prop :=
  match cs with
  | [] => True
  | c :: cs' =>
      if bool_decide (n = 0) && negb (ahead t c) then Forall (λ c, char_timestamp c ≠ t) cs
      else behind (n - if obs c then width c else 0) cs'
  end.

Lemma behind_none n cs : Forall (λ c, char_timestamp c ≠ t) cs → behind n cs.
Proof. intros Hcs. revert n. induction Hcs as [|c cs Hc Hcs IH]; intros n; [done|]. cbn [behind]. case_match; [by constructor|apply IH]. Qed.

Lemma behind_mono n m cs : n ≤ m → behind n cs → behind m cs.
Proof.
  revert n m. induction cs as [|c cs IH]; intros n m Hle; [done|]. cbn [behind].
  destruct (ahead t c); cbn [negb]; rewrite ?andb_false_r, ?andb_true_r; [apply IH; lia|]. case_bool_decide as En; intros Hb.
  - case_match; [done|]. apply behind_none. by apply Forall_cons in Hb as [_ ?].
  - rewrite bool_decide_eq_false_2 by lia. eapply IH; [|exact Hb]. lia.
Qed.

Lemma behind_new new n cs : Forall (λ c, char_timestamp c = t) new → behind n (new ++ cs) ↔ behind n cs.
Proof.
  intros Hnew. induction Hnew as [|c new Hc _ IH]; [done|]. cbn [app behind].
  rewrite (obs_new c Hc), Nat.sub_0_r. unfold ahead. by rewrite Hc, cmp_refl, andb_false_r, IH.
Qed.

Lemma behind_place n m new cs : n ≤ m → Forall (λ c, char_timestamp c = t) new → behind n cs → behind m (place obs t n new cs).
Proof.
  intros Hle Hnew. revert n m Hle. induction cs as [|c cs IH]; intros n m Hle Hb; cbn [place].
  - rewrite <- (app_nil_r new). by apply behind_new.
  - cbn [behind] in Hb. destruct (bool_decide (n = 0) && negb (ahead t c)) eqn:E.
    + apply behind_new; [done|]. by apply behind_none.
    + cbn [behind]. destruct (bool_decide (m = 0) && negb (ahead t c)) eqn:Em.
      * exfalso. apply andb_true_iff in Em as [Em%bool_decide_eq_true Ea]. by rewrite Ea, bool_decide_eq_true_2 in E by lia.
      * apply (IH (n - _)); [lia|done].
Qed.

Lemma behind_delete was o s e n cs : behind n cs → behind n (delete_from obs was t o s e cs).
Proof.
  revert o n. assert (Hsame : ∀ o c, char_timestamp (if bool_decide (s ≤ o < e) then strike obs was t c else c) = char_timestamp c ∧
    width (if bool_decide (s ≤ o < e) then strike obs was t c else c) = width c).
  { intros o c. case_bool_decide; [|done]. unfold strike. by destruct (_ && _). }
  induction cs as [|c cs IH]; intros o n; [done|]. cbn [delete_from behind]. destruct (Hsame o c) as [Et Ew].
  set (c' := if bool_decide (s ≤ o < e) then _ else _) in *.
  assert (Ec : obs c' = obs c) by by apply of_timestamp. assert (Ea : ahead t c' = ahead t c) by (unfold ahead; by rewrite Et).
  rewrite Ec, Ew, Ea. case_match; [|by apply IH]. intros [Hc Hcs]%Forall_cons. constructor; [by rewrite Et|].
  clear -Hcs Hsame. generalize (o + (if obs c then width c else 0)). induction Hcs as [|d cs Hd _ IH]; intros o'; [done|].
  cbn [delete_from]. constructor; [by destruct (Hsame o' d) as [-> _]|apply IH].
Qed.

(** The order is kept. *)
Lemma elem_place n new cs c : c ∈ place obs t n new cs ↔ c ∈ new ∨ c ∈ cs.
Proof.
  revert n. induction cs as [|d cs IH]; intros n; cbn [place]; [rewrite (elem_of_nil c); tauto|].
  case_match; [by rewrite elem_of_app|]. rewrite !elem_of_cons, IH. tauto.
Qed.

Lemma run_order o text : in_order (run t true [] o text).
Proof.
  revert o. induction text as [|z text IH]; intros o; cbn [run]; constructor; [|apply IH].
  apply Forall_forall. intros d Hd _. apply run_elem in Hd as (_&Hd&_). cbn. pose proof (width_pos (mkChar t o z true [])) as Hw. unfold width in Hw. cbn in Hw. lia.
Qed.

Lemma order_app (a b : list Char) :
  in_order a → in_order b → (∀ c d, c ∈ a → d ∈ b → char_timestamp c ≠ char_timestamp d) → in_order (a ++ b).
Proof.
  intros Ha Hb Hab. induction Ha as [|c a Hc Ha IH]; [done|]. cbn [app]. constructor.
  - apply Forall_app. split; [done|]. apply Forall_forall. intros d Hd E. by destruct (Hab c d ltac:(by left) Hd).
  - apply IH. intros. apply Hab; [by right|done].
Qed.

Lemma place_order n off text cs :
  behind n cs → in_order cs → Forall (λ c, char_timestamp c = t → char_offset c < off) cs → in_order (place obs t n (run t true [] off text) cs).
Proof.
  revert n. induction cs as [|c cs IH]; intros n Hb Hord Hoff; cbn [place]; [apply run_order|]. cbn [behind] in Hb. case_match.
  - apply order_app; [apply run_order|done|]. intros x d Hx Hd. apply run_elem in Hx as (->&_). rewrite Forall_forall in Hb.
    intros E. by apply (Hb d Hd).
  - inversion Hord as [|? ? Hc Hord']; subst. apply Forall_cons in Hoff as [Ho Hoff]. constructor; [|by apply IH].
    apply Forall_forall. intros d [Hd|Hd]%elem_place; [|by rewrite Forall_forall in Hc; apply Hc].
    intros E. apply run_elem in Hd as (Et&Hd&_). specialize (Ho ltac:(congruence)). lia.
Qed.

Definition same_place (c d : Char) : Prop := char_timestamp c = char_timestamp d ∧ char_offset c = char_offset d.

Lemma order_same cs ds : Forall2 same_place cs ds → in_order cs → in_order ds.
Proof.
  induction 1 as [|c d cs ds [Et Eo] Hcs IH]; [done|]. inversion 1 as [|? ? Hc Hord]; subst. constructor; [|by apply IH].
  rewrite Forall_forall in Hc |- *. intros e He. apply list_elem_of_lookup in He as (i&Hi).
  destruct (Forall2_lookup_r _ _ _ _ _ Hcs Hi) as (f&Hf&Et'&Eo'). apply list_elem_of_lookup_2 in Hf. specialize (Hc f Hf).
  by rewrite <- Et, <- Eo, <- Et', <- Eo'.
Qed.

Lemma delete_same was o s e cs : Forall2 same_place cs (delete_from obs was t o s e cs).
Proof.
  revert o. induction cs as [|c cs IH]; intros o; cbn [delete_from]; constructor; [|apply IH].
  case_bool_decide; [|done]. unfold strike. by destruct (_ && _).
Qed.

(** A whole operation: its ranges are in order, so every text goes behind the
    one before. *)
Lemma edits_order was es : ∀ off pos cs,
  ranges_from pos (map fst es) → behind pos cs → in_order cs → Forall (λ c, char_timestamp c = t → char_offset c < off) cs →
  in_order (apply_edits obs was t off es cs).
Proof.
  induction es as [|[[s e] text] es IH]; intros off pos cs Hrs Hb Hord Hoff; cbn [apply_edits]; [done|].
  destruct Hrs as (Hps&Hse&Hrs). apply (IH _ e); [done|..]; unfold edit_one; rewrite insert_at_place.
  - apply behind_delete. apply (behind_mono s); [done|]. apply behind_place; [done|by apply run_forall|]. by apply (behind_mono pos).
  - eapply order_same; [apply delete_same|]. apply place_order; [by apply (behind_mono pos)|done|done].
  - set (P := λ c : Char, char_timestamp c = t → char_offset c < off + length (bytes_of text)).
    assert (HP : Forall P (place obs t s (run t true [] off text) cs)).
    { apply Forall_forall. intros c [Hc|Hc]%elem_place Et.
      - apply run_elem in Hc as (_&_&Hc). pose proof (width_pos c). lia.
      - rewrite Forall_forall in Hoff. specialize (Hoff c Hc Et). lia. }
    eapply Forall2_Forall_r; [apply delete_same|]. eapply Forall_impl; [exact HP|]. intros c Hc d [Et Eo] E. unfold P in Hc. rewrite <- Eo. apply Hc. congruence.
Qed.
End behind.

Lemma doc_apply_order base o d : op_wf base o → op_ready o d → in_order (doc_chars d) → in_order (doc_chars (doc_apply o d)).
Proof.
  intros (Hf&_&Hwf) Hready Hord. destruct o as [V t es|u]; cbn [doc_apply doc_chars].
  - destruct Hwf as (_&Hrs&_), Hready as (_&Hapart&_). apply (edits_order (obs V) t) with (pos := 0); [|exact Hrs| |done|].
    + intros c Et. unfold obs. rewrite Et. exact Hf.
    + by apply behind_none.
    + eapply Forall_impl; [exact Hapart|]. cbn. intros c Hne E. by destruct Hne.
  - eapply order_same; [|exact Hord]. clear. induction (doc_chars d) as [|c cs IH]; [constructor|]. by constructor.
Qed.

Lemma deliver_order base hist : ∀ d,
  Forall (op_wf base) hist → deliverable hist d → in_order (doc_chars d) → in_order (doc_chars (deliver hist d)).
Proof.
  induction hist as [|o hist IH]; intros d; [done|]. intros [Ho Hh]%Forall_cons (_&Hr&Hd) Hord. apply IH; [done|done|].
  by eapply doc_apply_order.
Qed.

(** C8: Comparing anchors agrees with where they are.  In a buffer that has received
    the operations of a history, any two anchors that are in its document can
    be compared: the one that comes first in the text is the smaller one, and
    comparing them the other way round gives the opposite answer. *)
Theorem anchor_cmp_orders `{Build, SortOk, DebugAssertions} {base : Lamport → Prop} {v0 d0 hist} b batches a a' n m :
  history_ok base v0 d0 hist → in_order (doc_chars d0) →
  starts (base:=base) b d0 → version (snapshot b) = v0 → receives hist batches → receive_room b batches = true →
  anchor_place (doc_chars (deliver hist d0)) a = Some n → anchor_place (doc_chars (deliver hist d0)) a' = Some m →
  ∃ b' c, receive_all b batches = Some b' ∧
    Anchor_cmp (snapshot b') a a' = Some c ∧ Anchor_cmp (snapshot b') a' a = Some (CompOpp c) ∧
    (n < m → c = Lt) ∧ (m < n → c = Gt).
Proof.
  intros Hhist Hord Hs Hv Hb Hr Hn Hm. pose proof (replica_coherent _ _ (starts_document _ _ Hs)) as Hc.
  destruct (receive_history batches b Hhist Hs Hv Hb Hr) as (b'&A&E&[HA [(ps&Hok&Ef) _ _ Hcoh _] _]&Hp&_).
  assert (Hcoh' : coherent (deliver hist d0)).
  { apply deliver_coherent; [done|apply Hhist| |apply Hhist]. eapply Forall_impl; [apply (hist_wf Hhist)|]. by intros o (_&?&_). }
  pose proof (coherent_same _ _ (applied_deliver Hhist A HA Hp) Hcoh Hcoh') as Hsame.
  rewrite <- (place_same _ _ a Hsame), <- Ef in Hn. rewrite <- (place_same _ _ a' Hsame), <- Ef in Hm.
  assert (Hord' : in_order (flatten ps)).
  { rewrite Ef. eapply order_same; [|by apply (deliver_order base hist d0); [apply Hhist|apply Hhist|]].
    apply Forall2_flip. eapply Forall2_impl; [exact Hsame|]. by intros c d [(?&?&_) _]. }
  destruct (cmp_agrees (snapshot b') ps Hok a a' n m Hord' Hn Hm) as (c&Ec&Hagree).
  exists b', c. split; [done|]. split; [done|]. split; [by rewrite (Anchor_cmp_antisym (snapshot b') a a'), Ec|].
  unfold agrees in Hagree. destruct c; split; lia || done.
Qed.

(** *** On the small buffer *)

Lemma small_order : in_order (doc_chars small_doc).
Proof. apply run_order. Qed.

(** Behind the first character of [hié]. *)
Lemma anchor_names_place_witness :
  ∃ b a, small_buffer = Some b ∧ anchor_at (H:=true) (snapshot b) (usize_to_offset (H:=true) (snapshot b)) 1 Right = Some a ∧
    offset_for_anchor (H:=true) (snapshot b) a = Some 1 ∧ summary_for_anchor (H:=true) (snapshot b) a = Some (mkPoint 0 1).
Proof.
  destruct small_buffer_ok as (b&ps&E&Hs&Hr&Hv&Ef). exists b.
  destruct (anchor_names_place (H:=true) (D:=Point) (snapshot b) ps Right [104]%Z [105; 233]%Z Hs) as (a&Ea&_&Eo&Esum).
  - rewrite Ef, Hv. repeat constructor.
  - destruct Hr as (_&_&_&Hh&_). unfold ROPE_ROOM, STACK_CAPACITY in *. lia.
  - by vm_compute.
  - by rewrite Ef.
  - exists a. split; [exact E|]. split; [exact Ea|]. split; [exact Eo|exact Esum].
Defined.

(** The end of the text, before and after [small_edits]. *)
Lemma anchor_follows_edit_witness :
  ∃ b a b' op, small_buffer = Some b ∧ anchor_at_offset (H:=true) (snapshot b) 4 Left = Some a ∧
    buffer_edit (H:=true) (H0:=merge) b small_edits 5%N 6%N = Some (b', op) ∧ offset_for_anchor (H:=true) (snapshot b') a = Some 7.
Proof.
  destruct small_own_edit as (b&E&Hok&_). pose proof Hok as [[[(ps&Hs&Ef) _ _ _ _] _ _ _ _ _] _ _ _].
  destruct (made_place (H:=true) (snapshot b) ps Hs Left [104; 105; 233]%Z []) as (a&Ea&_); [by rewrite Ef|].
  destruct (anchor_follows_edit (H:=true) (H0:=merge) (H1:=merge_ok) (H2:=true) b small_doc small_edits small_result _ 5%N 6%N Left [104; 105; 233]%Z [] a Hok eq_refl Ea)
    as (b'&op&Eb&Eo).
  exists b, a, b', op. split; [exact E|]. split; [exact Ea|]. split; [exact Eb|exact Eo].
Defined.

(** Replica 9 finds the anchor that replica 8 has made behind its own text. *)
Lemma anchors_converge_witness :
  ∃ b b1 b2 a, small_buffer = Some b ∧
    receive_all (H:=true) (H0:=merge) b small_batches1 = Some b1 ∧ receive_all (H:=true) (H0:=merge) b small_batches2 = Some b2 ∧
    anchor_at_offset (H:=true) (snapshot b1) 2 Left = Some a ∧ offset_for_anchor (H:=true) (snapshot b2) a = Some 2.
Proof.
  destruct small_starts as (b&E&Hs&Hv&[Hr1 Hr2]%andb_true_iff). destruct small_receives as [Hb1 Hb2].
  destruct (anchors_converge (H:=true) (H0:=merge) (H1:=merge_ok) (H2:=true) b b small_batches1 small_batches2 small_history_ok ltac:(repeat constructor)
    Hs Hv Hb1 Hr1 Hs Hv Hb2 Hr2 eq_refl) as (b1&b2&E1&E2&_&Hmade).
  destruct (Hmade Left [104; 97]%Z [105; 233]%Z) as (a&Ea&Eo); [by vm_compute|].
  exists b, b1, b2, a. split; [exact E|]. split; [exact E1|]. split; [exact E2|]. split; [exact Ea|exact Eo].
Defined.

(** Before the [i] and before the [é] of the base text. *)
Lemma anchor_cmp_orders_witness :
  ∃ b b', small_buffer = Some b ∧ receive_all (H:=true) (H0:=merge) b small_batches1 = Some b' ∧
    Anchor_cmp (H:=true) (snapshot b') (Anchor_new base_timestamp 1 Right 7) (Anchor_new base_timestamp 2 Right 7) = Some Lt.
Proof.
  destruct small_starts as (b&E&Hs&Hv&[Hr1 _]%andb_true_iff). destruct small_receives as [Hb1 _].
  destruct (anchor_cmp_orders (H:=true) (H0:=merge) (H1:=merge_ok) (H2:=true) b small_batches1
    (Anchor_new base_timestamp 1 Right 7) (Anchor_new base_timestamp 2 Right 7) 2 3 small_history_ok small_order Hs Hv Hb1 Hr1) as (b'&c&Eb&Ec&_&Hlt&_).
  - by vm_compute.
  - by vm_compute.
  - rewrite Hlt in Ec by lia. exists b, b'. split; [exact E|]. split; [exact Eb|exact Ec].
Defined.
